(* ===== verification/_CoqProject ===== *)
-Q . S2P
Prelude.v
IntRing.v
RingImpl.v
Party.v
Share.v
Galois.v
VecShare.v
Transpose.v
Value.v
Net.v
Prf.v
Proto.v
Circuits.v
Binary.v
Adder.v
Inject.v
Convert.v
AndProduct.v
Lift.v
Ops.v
Select.v
Workpool.v
JobTracker.v
WorkpoolLink.v
WorkpoolTasks.v
Shuffle.v
F64.v
Compare.v
AnonThreshold.v
AnonPacked.v
Sync.v
Modifications.v
Buckets.v
AnonJobs.v
AnonJobs2D.v
GroundTruth.v
AnonStore.v
StoreSpec.v
JobSync.v
ModStore.v
Heartbeat.v
Lifecycle.v
Startup.v
BatchSync.v
Coordination.v
QueueSync.v
Embedding.v
Striping.v
Multiplexer.v
Connect.v
Handle.v
Local.v
Keys.v
AnonConfig.v
