(* ===== verification/Prelude.v ===== *)
(** * ampc-common: a verification development

    ampc-common is the shared code of a three-party computation service.  Three
    servers hold secret shares of iris and face data, compare them without
    revealing them, and stay in step with each other.  The repository has five
    crates, and the development follows them from the bottom up.

    - [ampc-secret-sharing]: rings of machine integers, replicated shares, the
      Galois ring with Shamir shares, vectors of shares, embeddings;
    - [ampc-actor-utils]: the network (values, sessions, connections), the
      protocols that run in a session, and a pool of workers behind each server;
    - [ampc-anon-stats]: statistics on distances, computed with the protocols;
    - [ampc-server-utils]: coordination of the three servers (startup, heartbeat,
      batches, queues, recovery after a crash), decryption of submitted shares;
    - [key-manager]: rotation of the key pairs the shares are encrypted with.

    ** How the code is modelled

    A machine integer is a [Z] in the range of its type, with the wrap-around of
    each operation written out; bytes and [u16] arrays are lists of such [Z]; a
    fallible function returns [result], whose error is an [eyre] error or a panic;
    a struct is a record, an enum an inductive type.  A three-party protocol is a
    program of sends and receives, the same for the three parties (Net.v); the
    semantics interleaves the parties in every possible way, and Proto.v shows that
    the result does not depend on the interleaving, so that protocols are specified
    by what the three parties hold before and after.  Tasks that share a state are
    state machines whose steps may come in any order.  What the program takes from
    outside is a parameter: random generators and hashes (a class in Prf.v), base64
    and JSON decoding, the encoding of bundles (a class in AnonStore.v), the
    responses of a peer, the queue service (a class in QueueSync.v), the HTTP
    router (a class in Coordination.v), sealed boxes,
    the secret store and the bucket (in Keys.v), the settings found in the
    environment (in AnonConfig.v), the verifier of certificates (a class in
    Connect.v), the opening of connections (in Handle.v), elapsed time (a flag where the code compares with a deadline).

    A comment such as [(* value.rs:61-85 NetworkValue *)] before a definition names
    the lines it translates.

    ** Files

    This file holds [result] and its monad, congruence modulo a power of two with
    setoid rewriting, lemmas on bits and lists, and the tactics and hints.

    Shares.
    - IntRing.v: [shares/int_ring.rs], [bit.rs], [ring48.rs]; the trait [IntRing2k]
      is a record of operations, the class [IntRing2kOk] its contract.
    - RingImpl.v: [shares/ring_impl.rs].  Party.v: [id.rs], [execution/player.rs].
    - Share.v: [shares/share.rs]; what three replicated shares mean.
    - Galois.v: [galois.rs]; the ring, inverses, Shamir sharing for three and five
      parties, basis conversion.
    - VecShare.v: [shares/vecshare.rs].  Transpose.v:
      [shares/vecshare_bittranspose.rs].
    - Embedding.v: [iris_vector.rs], [face_vector.rs].

    Network.
    - Value.v: [network/mpc/value.rs], the wire format.
    - Striping.v: [network/mpc/handle/session/mod.rs]; a message in fragments over
      several connections.
    - Multiplexer.v: [session/multiplexer.rs], [control_channel.rs]; sessions that
      share a connection.
    - Connect.v: [network/tcp/connection], [network_handle.rs], [config.rs]; the
      handshake, the accept loop, session ids and the rotation of connections.
    - Net.v: [execution/session.rs]; sessions, over queues between the parties,
      which is what Striping.v and Multiplexer.v show the transport to be.
    - Handle.v: [mpc/handle/mod.rs], [network_handle.rs], [data.rs] and the wiring of
      [session/mod.rs]; who listens, who connects, and the sessions that result.
    - Local.v: [mpc/local.rs], [execution/local.rs], the in-memory network; and
      [fast_metrics.rs].
    - Workpool.v, JobTracker.v, WorkpoolLink.v, WorkpoolTasks.v: [network/workpool];
      messages, the leader's table of jobs, the two tasks and the connection between
      them, and the code of the tasks, which refines these steps.

    Protocols.
    - Prf.v: [protocol/prf.rs].  Proto.v: specifications of protocols.
    - Circuits.v: the boolean circuits, without sharing.
    - Binary.v, Adder.v, Inject.v, Convert.v, AndProduct.v, Lift.v:
      [protocol/binary.rs] (AND, adders, bit injection, conversion, lifting).
    - Ops.v, Select.v: [protocol/ops.rs].  Shuffle.v: [protocol/shuffle.rs].
    - F64.v: double precision arithmetic.  Compare.v: [protocol/fhd_ops.rs],
      [nhd_ops.rs], [anon_stats.rs].  AnonThreshold.v, AnonPacked.v: the fixed
      thresholds of [binary.rs] and [fhd_ops.rs].
    - Sync.v: [sync.rs], agreement on a job.

    Statistics.
    - Buckets.v: [types.rs], [anon_stats/buckets.rs].  AnonJobs.v:
      [anon_stats/iris_1d.rs].  AnonJobs2D.v: [anon_stats/iris_2d.rs], [face.rs].
      GroundTruth.v: their modules [test_helper], which generate shared distances and
      compute the expected reports.
    - AnonStore.v: [store/mod.rs], the tables the rows of a job come from, and the
      specification of one table.  StoreSpec.v: the calls of the store and the
      specification of its six tables together.  JobSync.v: [server/sync.rs], composed with the
      store.  Lifecycle.v: [server/lifecycle.rs], [coordination.rs], [health.rs]
      and [task_monitor.rs] of [ampc-server-utils].
    - AnonConfig.v: [server/config/mod.rs], [store/postgres.rs] and the settings of
      [ampc-server-utils].

    Servers.
    - Modifications.v: [modifications.rs] and the statements of recovery.
      ModStore.v: [modifications/postgres.rs] on whole rows, and the JSON forms.
    - Heartbeat.v: [shutdown_handler.rs] and the heartbeat of
      [server_coordination.rs].  Startup.v: its queries and startup barriers, and
      the fleet of three nodes that run them.
    - BatchSync.v: [batch_sync.rs], [startup_sync.rs], [gallery_sync.rs].
      Coordination.v: the routes of the coordination server and the start of the
      heartbeat.
    - QueueSync.v: [sqs.rs].
    - Keys.v: [key_manager.rs] and [decryption.rs].

    ** What the theorems show

    - Arithmetic on shares and protocols compute the intended function of the
      shared secrets, for all inputs and all randomness: thresholds
      ([threshold_correct]), lifting ([lift_correct]), sign extraction, bit
      injection, selection and swapping, shuffling by the permutations that are drawn
      ([random_shuffle_correct]), comparison of distances
      (equal to the plaintext comparison), inner products of embeddings
      ([embedding_dot_product]); one share reveals nothing ([encode_3_hiding]).
    - The semantics of protocols used for this does not depend on the schedule:
      three parties get the same result under each ([proto_every_schedule]).
    - The store of statistics implements a log of pending entries for each of its
      tables ([store_refines_log]), and three parties that fetch a job from their own
      tables take equally many rows and compare them ([job_agreement]).
    - Statistics jobs return the histogram of the plaintext distances
      ([process_1d_correct], [process_2d_correct], [process_di_correct],
      [process_face_correct]), and so do the references the tests compare them with
      ([face_ground_truth_reported], [di_ground_truth_reported] and, where floating
      point comparisons are exact, [ground_truth_1d_reported],
      [ground_truth_2d_reported]).
    - A configuration that loads has consistent limits, and its sampling rates put
      no pending row in two groups ([loaded_config_splits_rows]).
    - What is sent is received: the wire format is a round trip and canonical
      ([network_value_roundtrip], [deserialize_canonical]), a striped session
      refines a queue ([striped_link_is_queue], [striped_link_complete]), sessions
      do not mix ([multiplexer_delivers]), a handshake tells the truth and does
      not get stuck ([handshake_sound]), the handles of three parties come to hold
      sessions that form a ring ([handles_establish_ring]), with TLS only among the
      parties configured ([tls_binds_peers]), the in-memory network implements the
      same queues ([local_network_implements_queues]), the work pool loses no job
      ([no_job_forgotten]), its table keeps its invariant ([tracker_invariant]) and
      its tasks refine it ([tasks_refine_link]).
    - A share encrypted with a key that was published stays readable through a
      rotation of the keys ([rotation_keeps_shares_readable]).
    - The servers agree: on who takes part after the startup barriers
      ([startup_barrier_agreement], [startup_complete]), on the health of their
      peers ([heartbeat_refines_healthy]), on the batch
      ([batch_size_agreement], [batch_entries_agreement]), on the top of their
      queues ([queues_aligned]), on the log of modifications after a crash
      ([recovery_agrees], [recovery_settles], [recovery_applies_once]), whose
      inputs survive ([input_survives_recovery]); a health response is final
      ([health_response_final]).
    - A coordination server that starts answers with the state of its node whatever
      routes are added ([started_server_answers]), and a node gets past the start of
      the heartbeat only with the peers of the handshake ([heartbeat_initialised]).
    - Some theorems show a defect: a short read breaks a handshake after the other
      end has accepted it ([handshake_short_read]), a truncated entry panics the
      deserializer ([deserialize_truncated_entry_panics]), a job that was not sent
      stalls ([unsent_job_stalls]), a job that a worker could not hand to its
      application is awaited forever ([refused_job_awaited]), ids wider than 32 bits are selected wrongly
      ([select_plain_id_width]), large batches for the Deep Identifier table are
      refused by the database ([di_batch_limit]), rotations that fail half-way lose
      the published key ([failed_rotations_lose_the_published_key]), a limit of the
      configuration is not checked ([opposite_mirror_limit_unchecked]).

    ** Fuel and bounds

    A loop over a list whose length falls is given that length as fuel, which is
    enough by the theorem on the loop: the deserializer and the stream readers
    consume a byte per round, the reductions of adders and AND products lose an
    entry per round, [receive_loop] takes a message per round,
    [handle_outbound_traffic] sends one.  Exponentiation runs for the 32 bits of
    its exponent.  Rejection sampling can fail to end for a bad generator; its
    theorems are for the draws that are accepted within the fuel, and
    [gen_permutation_shared] says when that is the case.  The loops that poll a
    peer or a queue end only when time is up or the peer responds: they are
    functions of the list of attempts, and the lemmas [*_decides] of Startup.v say
    which attempts decide.  The bounds in hypotheses are those of the types: [2^32]
    for lengths on the wire and connections, [2^64] for sequence numbers.

    ** Not modelled

    - Sockets and TLS sessions ([network/tcp]: streams, server, client): they call
      the operating system and a library; their results are parameters.
    - Database connections and migrations, HTTP servers, derived JSON forms, the
      parsing of settings and command lines by libraries, signal handlers, logging
      and profiling: they call external services.  Statements are functions of a
      table, one after the other; transactions of several writers that commit out of
      the order of their ids are not modelled.
    - The generators of random embeddings: they sample normal distributions in
      floating point, for tests.
    - Confidentiality beyond single shares: the theorems are about results, not
      about what messages reveal. *)

From stdpp Require Import base list numbers strings option sets gmap.
From Stdlib Require Import ZArith Lia Btauto.

Local Open Scope Z_scope.

(** ** Results and errors

    [eyre::Result] is [result]; an [eyre!]/[bail!] error is [Eyre], a panic
    ([panic!], [unreachable!], [assert!], an out-of-range index) is [Panic].
    Both abort the computation they occur in. *)

Inductive error :=
| Eyre (msg : string)
| Panic (msg : string).

Inductive result (A : Type) :=
| Ok (x : A)
| Err (e : error).
Arguments Ok {A} x.
Arguments Err {A} e.

#[export] Instance error_eq_dec : EqDecision error.
Proof. solve_decision. Defined.

#[export] Instance result_eq_dec `{EqDecision A} : EqDecision (result A).
Proof. solve_decision. Defined.

#[export] Instance result_ret : MRet result := fun A x => Ok x.
#[export] Instance result_bind : MBind result := fun A B f m =>
  match m with Ok x => f x | Err e => Err e end.
#[export] Instance result_fmap : FMap result := fun A B f m =>
  match m with Ok x => Ok (f x) | Err e => Err e end.

Definition bail {A} (msg : string) : result A := Err (Eyre msg).
Definition panic {A} (msg : string) : result A := Err (Panic msg).

(** Slice indexing [v[i]]: out of range panics. *)
Definition index {A} (v : list A) (i : nat) : result A :=
  match v !! i with Some x => Ok x | None => panic "index out of bounds" end.

(** [opt.ok_or(eyre!(msg))]. *)
Definition ok_or {A} (o : option A) (msg : string) : result A :=
  match o with Some x => Ok x | None => bail msg end.

(** [res.map_err(|e| eyre!(msg))]: a panic is not an [Err]. *)
Definition map_err {A} (msg : string) (r : result A) : result A :=
  match r with Err (Eyre _) => bail msg | r => r end.

(** [iter.collect::<Result<Vec<_>>>()] over a mapped iterator. *)
Fixpoint mapM_result {A B} (f : A -> result B) (l : list A) : result (list B) :=
  match l with
  | [] => Ok []
  | x :: l => y ← f x; ys ← mapM_result f l; Ok (y :: ys)
  end.

Lemma Ok_inj {A} (x y : A) : Ok x = Ok y -> x = y.
Proof. congruence. Qed.

Lemma index_lookup {A} (v : list A) i x : v !! i = Some x -> index v i = Ok x.
Proof. unfold index. by intros ->. Qed.

Lemma mapM_result_ok {A B} (f : A -> result B) (g : A -> B) l :
  (forall x, x ∈ l -> f x = Ok (g x)) -> mapM_result f l = Ok (g <$> l).
Proof.
  induction l as [|x l IH]; intros H; [done|]. simpl.
  rewrite H by set_solver. simpl. rewrite IH by set_solver. done.
Qed.

Lemma mapM_result_ext {A B} (f g : A -> result B) l :
  (forall x, x ∈ l -> f x = g x) -> mapM_result f l = mapM_result g l.
Proof.
  induction l as [|x l IH]; intros H; [done|]. cbn. rewrite H, IH by set_solver. done.
Qed.

(** ** Congruence modulo [n]

    The ring types compute modulo a power of two; statements about them are
    proved up to this equivalence, with setoid rewriting. *)

Definition ceq (n a b : Z) : Prop := a mod n = b mod n.
Declare Scope ampc_scope.
Delimit Scope ampc_scope with ampc.
Notation "a ==[ n ] b" := (ceq n a b)
  (at level 70, n at level 50, no associativity) : ampc_scope.
#[global] Open Scope ampc_scope.

#[export] Instance ceq_equiv n : Equivalence (ceq n).
Proof. unfold ceq. split; red; intros; congruence. Qed.
#[export] Instance ceq_rewrite n : RewriteRelation (ceq n).
Proof. Qed.
#[export] Instance ceq_add n : Proper (ceq n ==> ceq n ==> ceq n) Z.add.
Proof. unfold ceq. intros a b H c d H'. by rewrite Zplus_mod, H, H', <- Zplus_mod. Qed.
#[export] Instance ceq_sub n : Proper (ceq n ==> ceq n ==> ceq n) Z.sub.
Proof. unfold ceq. intros a b H c d H'. by rewrite Zminus_mod, H, H', <- Zminus_mod. Qed.
#[export] Instance ceq_mul n : Proper (ceq n ==> ceq n ==> ceq n) Z.mul.
Proof. unfold ceq. intros a b H c d H'. by rewrite Zmult_mod, H, H', <- Zmult_mod. Qed.
#[export] Instance ceq_opp n : Proper (ceq n ==> ceq n) Z.opp.
Proof. intros a b H. rewrite <- !Z.sub_0_l. by rewrite H. Qed.

Lemma ceq_mod n a : a mod n ==[n] a.
Proof. apply Zmod_mod. Qed.
Lemma ceq_eq n a b : a = b -> a ==[n] b.
Proof. by intros ->. Qed.
Lemma ceq_small n a b : 0 <= a < n -> 0 <= b < n -> a ==[n] b -> a = b.
Proof. unfold ceq. intros. rewrite <- (Z.mod_small a n), <- (Z.mod_small b n); lia. Qed.
Lemma ceq_mod_small n a b : 0 <= a < n -> a ==[n] b -> a = b mod n.
Proof. unfold ceq. intros. rewrite <- (Z.mod_small a n); lia. Qed.
Lemma ceq_iff n a b : n <> 0 -> a ==[n] b <-> (n | a - b).
Proof.
  intros Hn. unfold ceq. rewrite <- Z.mod_divide by done. split.
  - intros H. by rewrite Zminus_mod, H, Z.sub_diag, Z.mod_0_l.
  - intros H. rewrite <- (Z.sub_add b a). rewrite Z.add_comm, Zplus_mod, H, Z.add_0_r.
    apply Zmod_mod.
Qed.

Lemma ceq_pow_le m n a b : 0 <= m <= n -> a ==[2 ^ n] b -> a ==[2 ^ m] b.
Proof.
  intros Hm. rewrite !ceq_iff by (apply Z.pow_nonzero; lia). apply Z.divide_trans.
  exists (2 ^ (n - m)). rewrite <- Z.pow_add_r by lia. f_equal. lia.
Qed.

(** Close an [ceq] goal between integer ring expressions. *)
Ltac ceq_ring := apply ceq_eq; ring.

(** ** Bitwise reasoning *)

Lemma testbit_high w x i : 0 <= x < 2 ^ w -> 0 <= w <= i -> Z.testbit x i = false.
Proof.
  intros Hx Hi. rewrite <- (Z.mod_small x (2 ^ w)) by done.
  apply Z.mod_pow2_bits_high. lia.
Qed.

Lemma lt_pow2_bits w x :
  0 <= w -> 0 <= x -> (forall i, w <= i -> Z.testbit x i = false) -> x < 2 ^ w.
Proof.
  intros Hw Hx H.
  enough (x = x mod 2 ^ w) as -> by (apply Z.mod_pos_bound; lia).
  apply Z.bits_inj'. intros i Hi. destruct (decide (i < w)).
  - by rewrite Z.mod_pow2_bits_low.
  - rewrite Z.mod_pow2_bits_high by lia. apply H. lia.
Qed.

(** [bits_eq i]: reduce an equality of integers to equality of every bit. *)
Create Rewrite HintDb testbit.
#[export] Hint Rewrite Z.lxor_spec Z.land_spec Z.lor_spec Z.lnot_spec
  Z.testbit_0_l Z.shiftr_spec Z.shiftl_spec using lia : testbit.
Tactic Notation "bits_eq" ident(i) ident(Hi) :=
  apply Z.bits_inj'; intros i Hi; autorewrite with testbit.

(** Boolean identities over a few [testbit]s. *)
Ltac xor_crush := bits_eq i Hi; btauto.

Lemma lxor_range w a b :
  0 <= w -> 0 <= a < 2 ^ w -> 0 <= b < 2 ^ w -> 0 <= Z.lxor a b < 2 ^ w.
Proof.
  intros Hw Ha Hb. assert (0 <= Z.lxor a b) by (apply Z.lxor_nonneg; lia).
  split; [done|]. apply lt_pow2_bits; [done..|]. intros i Hi.
  rewrite Z.lxor_spec, (testbit_high w a), (testbit_high w b); done || lia.
Qed.

Lemma land_range_l w a b : 0 <= w -> 0 <= a < 2 ^ w -> 0 <= b -> 0 <= Z.land a b < 2 ^ w.
Proof.
  intros Hw Ha Hb. assert (0 <= Z.land a b) by (apply Z.land_nonneg; lia).
  split; [done|]. apply lt_pow2_bits; [done..|]. intros i Hi.
  rewrite Z.land_spec, (testbit_high w a); done || lia.
Qed.

Lemma lor_range w a b :
  0 <= w -> 0 <= a < 2 ^ w -> 0 <= b < 2 ^ w -> 0 <= Z.lor a b < 2 ^ w.
Proof.
  intros Hw Ha Hb. assert (0 <= Z.lor a b) by (apply Z.lor_nonneg; lia).
  split; [done|]. apply lt_pow2_bits; [done..|]. intros i Hi.
  rewrite Z.lor_spec, (testbit_high w a), (testbit_high w b); done || lia.
Qed.

Lemma lxor_mod w a b : 0 <= w -> Z.lxor a b mod 2 ^ w = Z.lxor (a mod 2 ^ w) (b mod 2 ^ w).
Proof.
  intros Hw. apply Z.bits_inj'. intros i Hi. rewrite Z.lxor_spec. destruct (decide (i < w)).
  - by rewrite !Z.mod_pow2_bits_low, Z.lxor_spec by lia.
  - by rewrite !Z.mod_pow2_bits_high by lia.
Qed.

Lemma land_mod w a b : 0 <= w -> Z.land a b mod 2 ^ w = Z.land (a mod 2 ^ w) (b mod 2 ^ w).
Proof.
  intros Hw. apply Z.bits_inj'. intros i Hi. rewrite Z.land_spec. destruct (decide (i < w)).
  - by rewrite !Z.mod_pow2_bits_low, Z.land_spec by lia.
  - by rewrite !Z.mod_pow2_bits_high by lia.
Qed.

(** Masking with [2^w - 1] is reduction modulo [2^w]. *)
Lemma land_mask w a : 0 <= w -> Z.land a (2 ^ w - 1) = a mod 2 ^ w.
Proof. intros. rewrite <- Z.land_ones, Z.ones_equiv by lia. by rewrite Z.sub_1_r. Qed.

Lemma lxor_mask w a : 0 <= w -> 0 <= a < 2 ^ w -> Z.lxor a (2 ^ w - 1) = 2 ^ w - 1 - a.
Proof.
  intros Hw Ha. rewrite Z.sub_1_r, <- Z.ones_equiv.
  rewrite (Z.sub_nocarry_ldiff (Z.ones w) a).
  - bits_eq i Hi. rewrite Z.ldiff_spec. destruct (decide (i < w)).
    + rewrite Z.ones_spec_low by lia. btauto.
    + rewrite Z.ones_spec_high, (testbit_high w a) by lia. done.
  - bits_eq i Hi. rewrite Z.ldiff_spec. destruct (decide (i < w)).
    + rewrite Z.ones_spec_low by lia. btauto.
    + rewrite (testbit_high w a) by lia. done.
Qed.

(** ** Slices *)

(** [slice.chunks(n)]: the last chunk may be shorter. *)
Fixpoint chunks_aux {A} (fuel n : nat) (l : list A) : list (list A) :=
  match fuel, l with
  | _, [] => []
  | O, _ => []
  | S fuel, _ => take n l :: chunks_aux fuel n (drop n l)
  end.
Definition chunks {A} (n : nat) (l : list A) : list (list A) := chunks_aux (length l) n l.

(** [data.chunks(n)]: a zero chunk size panics. *)
Definition chunks_checked {A} (n : nat) (l : list A) : result (list (list A)) :=
  if (n =? 0)%nat then panic "chunk size must be non-zero" else Ok (chunks n l).

(** [n.div_ceil(d)]. *)
Definition div_ceil (n d : nat) : nat := ((n + d - 1) / d)%nat.

(** [for (x, y) in v.iter_mut().zip(w) { *x = f(x, y) }]: elements of [v] past
    the end of [w] keep their value. *)
Fixpoint assign2 {A B} (f : A -> B -> A) (v : list A) (w : list B) : list A :=
  match v, w with
  | x :: v, y :: w => f x y :: assign2 f v w
  | v, [] => v
  | [], _ => []
  end.

Lemma assign2_zip_with {A B} (f : A -> B -> A) v w :
  length v = length w -> assign2 f v w = zip_with f v w.
Proof.
  revert w. induction v as [|x v IH]; intros [|y w] H; simplify_eq/=; [done|].
  by rewrite IH.
Qed.

Lemma chunks_aux_more {A} n (l : list A) f g :
  (0 < n)%nat -> (length l <= f)%nat -> (length l <= g)%nat ->
  chunks_aux f n l = chunks_aux g n l.
Proof.
  intros Hn. revert g l. induction f as [|f IH]; intros g l Hf Hg.
  { destruct l; [by destruct g|simpl in Hf; lia]. }
  destruct g as [|g]; [destruct l; [done|simpl in Hg; lia]|].
  destruct l as [|x l]; [done|]. cbn [chunks_aux]. f_equal.
  apply IH; rewrite length_drop; simpl in *; lia.
Qed.

Lemma chunks_nil {A} n : chunks n ([] : list A) = [].
Proof. done. Qed.
Lemma chunks_cons {A} n (l : list A) :
  (0 < n)%nat -> l <> [] -> chunks n l = take n l :: chunks n (drop n l).
Proof.
  intros Hn Hl. unfold chunks. destruct l as [|x l]; [done|]. cbn [chunks_aux length]. f_equal.
  apply chunks_aux_more; [done|..]; rewrite ?length_drop; simpl; lia.
Qed.
Lemma chunks_app {A} n (k l : list A) :
  (0 < n)%nat -> length k = n -> chunks n (k ++ l) = k :: chunks n l.
Proof.
  intros Hn Hk. rewrite chunks_cons; [|done|destruct k; simpl in *; [lia|done]].
  rewrite take_app_length', drop_app_length' by done. done.
Qed.

(** Induction over the chunks of a list. *)
Lemma chunk_ind {A} n (P : list A -> Prop) :
  (0 < n)%nat -> P [] -> (forall l, l <> [] -> P (drop n l) -> P l) -> forall l, P l.
Proof.
  intros Hn H0 HS l. remember (length l) as m eqn:Hm. revert l Hm.
  induction (lt_wf m) as [m _ IH]. intros l ->.
  destruct (decide (l = [])) as [->|Hl]; [done|]. apply HS; [done|].
  eapply IH; [|done]. rewrite length_drop. destruct l; simpl in *; [done|lia].
Qed.

Lemma div_ceil_step n d : (0 < d)%nat -> (0 < n)%nat -> div_ceil n d = S (div_ceil (n - d) d).
Proof.
  intros Hd Hn. unfold div_ceil. destruct (decide (n < d)%nat).
  - replace (n - d)%nat with 0%nat by lia.
    rewrite (Nat.div_small (0 + d - 1)) by lia.
    replace (n + d - 1)%nat with (1 * d + (n - 1))%nat by lia.
    rewrite Nat.div_add_l, Nat.div_small by lia. done.
  - replace (n + d - 1)%nat with (1 * d + (n - d + d - 1))%nat by lia.
    by rewrite Nat.div_add_l by lia.
Qed.

Lemma length_chunks {A} n (l : list A) : (0 < n)%nat -> length (chunks n l) = div_ceil (length l) n.
Proof.
  intros Hn. revert l. apply (chunk_ind n); [done| |].
  { rewrite chunks_nil. unfold div_ceil. simpl. rewrite Nat.div_small; lia. }
  intros l Hl IH. rewrite chunks_cons by done. cbn [length]. rewrite IH, length_drop.
  rewrite (div_ceil_step (length l)); [done..|]. destruct l; simpl in *; [done|lia].
Qed.

Lemma concat_chunks {A} n (l : list A) : (0 < n)%nat -> concat (chunks n l) = l.
Proof.
  intros Hn. revert l. apply (chunk_ind n); [done..|].
  intros l Hl IH. rewrite chunks_cons by done. cbn [concat]. by rewrite IH, take_drop.
Qed.

(** When the length is a multiple of [n], every chunk has length [n]. *)
Lemma chunks_exact_Forall {A} (P : A -> Prop) n m (l : list A) :
  (0 < n)%nat -> Forall P l -> length l = (m * n)%nat ->
  Forall (fun c => length c = n /\ Forall P c) (chunks n l).
Proof.
  intros Hn. revert l. induction m as [|m IH]; intros l HP Hl; [by destruct l|].
  rewrite chunks_cons by first [done | intros ->; simpl in Hl; lia].
  constructor; [split; [rewrite length_take; lia|by apply Forall_take]|].
  apply IH; [by apply Forall_drop|rewrite length_drop; lia].
Qed.

Lemma chunks_app_exact {A} n m (k l : list A) :
  (0 < n)%nat -> length k = (m * n)%nat -> chunks n (k ++ l) = chunks n k ++ chunks n l.
Proof.
  intros Hn. revert k. induction m as [|m IH]; intros k Hk; [by destruct k|].
  rewrite <- (take_drop n k), <- app_assoc.
  assert (length (take n k) = n) by (rewrite length_take; lia).
  rewrite !(chunks_app n (take n k)) by done. cbn [app]. f_equal. apply IH.
  rewrite length_drop. lia.
Qed.

Lemma chunks_short {A} n (l : list A) :
  l <> [] -> (length l <= n)%nat -> chunks n l = [l].
Proof.
  intros Hl Hn. destruct (decide (n = 0%nat)) as [->|]; [by destruct l; simpl in Hn; [|lia]|].
  rewrite chunks_cons by (done || lia). by rewrite take_ge, drop_ge by lia.
Qed.

Lemma assign2_const_replicate {A B} (g : B -> A) (x : A) n (w : list B) :
  (length w <= n)%nat ->
  assign2 (fun _ y => g y) (replicate n x) w = (g <$> w) ++ replicate (n - length w) x.
Proof.
  revert n. induction w as [|y w IH]; intros n Hn; [by destruct n|].
  destruct n as [|n]; [simpl in Hn; lia|]. cbn. f_equal. apply IH. simpl in Hn. lia.
Qed.

Lemma chunks_lookup {A} n (l c : list A) k :
  (0 < n)%nat -> chunks n l !! k = Some c -> c = take n (drop (n * k) l).
Proof.
  intros Hn. revert l k. refine (chunk_ind n _ _ _ _); [done|done|].
  intros l Hl IH k. rewrite chunks_cons by done. destruct k as [|k]; cbn.
  - intros [= <-]. by rewrite Nat.mul_0_r, drop_0.
  - intros ->%IH. rewrite drop_drop. do 2 f_equal. lia.
Qed.

(** Concatenation of lists of one length. *)
Lemma length_concat_const {A} n (ls : list (list A)) :
  Forall (fun l => length l = n) ls -> length (concat ls) = (length ls * n)%nat.
Proof. induction 1 as [|l ls Hl Hls IH]; [done|]. cbn [concat length]. by rewrite length_app, IH, Hl. Qed.

Lemma concat_lookup {A} m (lss : list (list A)) k :
  (0 < m)%nat -> Forall (fun l => length l = m) lss ->
  concat lss !! k = (l ← lss !! (k / m)%nat; l !! (k mod m)%nat).
Proof.
  intros Hm Hl. revert k. induction Hl as [|l lss Hl Hlss IH]; intros k; [done|]. cbn [concat].
  destruct (decide (k < m)%nat) as [Hk|Hk].
  - rewrite Nat.div_small, Nat.mod_small by done. by rewrite lookup_app_l by lia.
  - assert (k = k - m + 1 * m)%nat as Ek by lia.
    assert (k / m = S ((k - m) / m))%nat as -> by (rewrite Ek at 1; rewrite Nat.div_add by lia; lia).
    assert (k mod m = (k - m) mod m)%nat as -> by (rewrite Ek at 1; by rewrite Nat.Div0.mod_add).
    rewrite lookup_app_r, Hl, IH by lia. done.
Qed.
