(* ===== verification/IntRing.v ===== *)
(** * The ring types of [ampc-secret-sharing/src/shares]

    [int_ring.rs] (the trait [IntRing2k] and its instances for the machine
    integers), [bit.rs] ([Bit], one bit stored in a [u8]) and [ring48.rs]
    ([Ring48], 48 bits stored in a [u64]).

    A machine integer of width [w] is a [Z]; the wrap-around is written out.
    The trait is a record of operations, each instance a value of it, so that
    a generic Rust function [f<T: IntRing2k>] is a function of [T : IntRing2k].
    [IntRing2kOk] is the contract the rest of the library is proved against:
    every instance computes in the integers modulo [2^K].  Shift overflow,
    [debug_assert!] and [+] follow the release profile. *)

From S2P Require Import Prelude.
From stdpp Require Import base numbers strings.
From Stdlib Require Import ZArith Lia Btauto.
Local Open Scope Z_scope.

(** ** The trait *)

(* int_ring.rs:12-84 IntRing2k *)
Record IntRing2k := {
  K : Z;
  BYTES : nat;
  SIZE_OF : nat;                       (* [size_of::<T>()] *)
  wrapping_add : Z -> Z -> Z;
  wrapping_sub : Z -> Z -> Z;
  wrapping_mul : Z -> Z -> Z;
  wrapping_neg : Z -> Z;
  wrapping_shl : Z -> Z -> Z;
  wrapping_shr : Z -> Z -> Z;
  shl_usize : Z -> Z -> Z;             (* [Shl<usize>] *)
  shr_usize : Z -> Z -> Z;             (* [Shr<usize>] *)
  bnot : Z -> Z;
  bitxor : Z -> Z -> Z;
  bitand : Z -> Z -> Z;
  bitor : Z -> Z -> Z;
  from_bool : bool -> Z;
  into_u128 : Z -> Z;
  tzero : Z;
  tone : Z;
  is_zero : Z -> bool;
  trem : Z -> Z -> result Z;
}.

(** Values a well-formed element of [T] may hold. *)
Definition valid (T : IntRing2k) (x : Z) : Prop := 0 <= x < 2 ^ K T.

(** ** Machine integers *)

(* int_ring.rs:91-119 IntRing2k for u8, u16, u32, u64, u128 *)
Definition uint (w : Z) (bytes : nat) : IntRing2k := {|
  K := w;
  BYTES := bytes;
  SIZE_OF := bytes;
  wrapping_add a b := (a + b) mod 2 ^ w;
  wrapping_sub a b := (a - b) mod 2 ^ w;
  wrapping_mul a b := (a * b) mod 2 ^ w;
  wrapping_neg a := (- a) mod 2 ^ w;
  wrapping_shl a n := Z.shiftl a (n mod w) mod 2 ^ w;
  wrapping_shr a n := Z.shiftr a (n mod w);
  shl_usize a n := Z.shiftl a (n mod w) mod 2 ^ w;
  shr_usize a n := Z.shiftr a (n mod w);
  bnot a := Z.lxor a (2 ^ w - 1);
  bitxor := Z.lxor;
  bitand := Z.land;
  bitor := Z.lor;
  from_bool b := Z.b2z b;
  into_u128 a := a;
  tzero := 0;
  tone := 1;
  is_zero a := Z.eqb a 0;
  trem a b := if Z.eqb b 0 then panic "attempt to calculate the remainder with a divisor of zero"
              else Ok (a mod b);
|}.

Definition u8 : IntRing2k := uint 8 1.
Definition u16 : IntRing2k := uint 16 2.
Definition u32 : IntRing2k := uint 32 4.
Definition u64 : IntRing2k := uint 64 8.
Definition u128 : IntRing2k := uint 128 16.

(** ** [Bit]: a [u8] that holds 0 or 1 *)

(* bit.rs:49-51 Bit::new *)
Definition bit_new (value : bool) : Z := if value then 1 else 0.

(* bit.rs:53-56 Bit::convert *)
Definition bit_convert (x : Z) : bool := Z.eqb x 1.

(* bit.rs:59-69 TryFrom<u8> for Bit *)
Definition bit_try_from_u8 (value : Z) : result Z :=
  if Z.eqb value 0 then Ok 0
  else if Z.eqb value 1 then Ok 1
  else bail "Conversion Error Bit From u8".

(* bit.rs:71-81 TryFrom<usize> for Bit *)
Definition bit_try_from_usize (value : Z) : result Z :=
  if Z.eqb value 0 then Ok 0
  else if Z.eqb value 1 then Ok 1
  else bail "Conversion error Bit from usize".

(* bit.rs:152-182 BitXor, BitXorAssign for Bit *)
Definition bit_bitxor (x y : Z) : Z := Z.lxor x y.

(* bit.rs:184-214 BitOr, BitOrAssign for Bit *)
Definition bit_bitor (x y : Z) : Z := Z.lor x y.

(* bit.rs:216-223 Not for Bit *)
Definition bit_not (x : Z) : Z := Z.lxor x 1.

(* bit.rs:225-255 BitAnd, BitAndAssign for Bit *)
Definition bit_bitand (x y : Z) : Z := Z.land x y.

(* bit.rs:83-108 Add, WrappingAdd for Bit *)
Definition bit_add (x y : Z) : Z := bit_bitxor x y.

(* bit.rs:110-135 Sub, WrappingSub for Bit *)
Definition bit_sub (x y : Z) : Z := bit_bitxor x y.

(* bit.rs:137-150 Neg, WrappingNeg for Bit *)
Definition bit_neg (x : Z) : Z := x.

(* bit.rs:257-282 Mul, WrappingMul for Bit *)
Definition bit_mul (x y : Z) : Z := bit_bitand x y.

(* bit.rs:284-294 Zero for Bit *)
Definition bit_is_zero (x : Z) : bool := Z.eqb x 0.

(* bit.rs:310-315 From<bool> for Bit *)
Definition bit_from_bool (b : bool) : Z := Z.b2z b.

(* bit.rs:317-322 From<Bit> for bool *)
Definition bit_into_bool (x : Z) : bool := Z.eqb x 1.

(* bit.rs:324-341 Shl<usize>, WrappingShl for Bit *)
Definition bit_shl (x n : Z) : Z := if Z.eqb n 0 then x else 0.

(* bit.rs:343-360 Shr<usize>, WrappingShr for Bit *)
Definition bit_shr (x n : Z) : Z := if Z.eqb n 0 then x else 0.

(* bit.rs:381-391 Rem for Bit *)
Definition bit_rem (x y : Z) : result Z :=
  if Z.eqb y 0 then panic "Division by zero"
  else if Z.eqb y 1 then Ok 0
  else panic "internal error: entered unreachable code".

(* int_ring.rs:85-89 IntRing2k for Bit *)
Definition Bit : IntRing2k := {|
  K := 1;
  BYTES := 1;
  SIZE_OF := 1;
  wrapping_add := bit_add;
  wrapping_sub := bit_sub;
  wrapping_mul := bit_mul;
  wrapping_neg := bit_neg;
  wrapping_shl := bit_shl;
  wrapping_shr := bit_shr;
  shl_usize := bit_shl;
  shr_usize := bit_shr;
  bnot := bit_not;
  bitxor := bit_bitxor;
  bitand := bit_bitand;
  bitor := bit_bitor;
  from_bool := bit_from_bool;
  into_u128 a := a;
  tzero := 0;
  tone := 1;
  is_zero := bit_is_zero;
  trem := bit_rem;
|}.

(** ** [Ring48]: 48 bits in a [u64] *)

(* ring48.rs:23-23 MASK_48 *)
Definition MASK_48 : Z := 2 ^ 48 - 1.

(* ring48.rs:39-41 Ring48::masked *)
Definition ring48_masked (v : Z) : Z := Z.land v MASK_48.

(* ring48.rs:128-133 WrappingAdd for Ring48 *)
Definition ring48_wrapping_add (x y : Z) : Z := Z.land (wrapping_add u64 x y) MASK_48.

(* ring48.rs:135-140 WrappingSub for Ring48 *)
Definition ring48_wrapping_sub (x y : Z) : Z := Z.land (wrapping_sub u64 x y) MASK_48.

(* ring48.rs:142-147 WrappingMul for Ring48 *)
Definition ring48_wrapping_mul (x y : Z) : Z := Z.land (wrapping_mul u64 x y) MASK_48.

(* ring48.rs:149-154 WrappingNeg for Ring48 *)
Definition ring48_wrapping_neg (x : Z) : Z := Z.land (wrapping_neg u64 x) MASK_48.

(* ring48.rs:156-161 WrappingShl for Ring48 *)
Definition ring48_wrapping_shl (x n : Z) : Z := Z.land (wrapping_shl u64 x n) MASK_48.

(* ring48.rs:163-169 WrappingShr for Ring48 *)
Definition ring48_wrapping_shr (x n : Z) : Z := wrapping_shr u64 x n.

(* ring48.rs:175-181 Not for Ring48 *)
Definition ring48_not (x : Z) : Z := Z.land (bnot u64 x) MASK_48.

(* ring48.rs:183-196 BitXor, BitXorAssign for Ring48 *)
Definition ring48_bitxor (x y : Z) : Z := Z.lxor x y.

(* ring48.rs:198-211 BitAnd, BitAndAssign for Ring48 *)
Definition ring48_bitand (x y : Z) : Z := Z.land x y.

(* ring48.rs:213-226 BitOr, BitOrAssign for Ring48 *)
Definition ring48_bitor (x y : Z) : Z := Z.lor x y.

(* ring48.rs:254-260 Rem for Ring48 *)
Definition ring48_rem (x y : Z) : result Z := trem u64 x y.

(* ring48.rs:267-273 Shr<usize> for Ring48 *)
Definition ring48_shr (x n : Z) : Z := shr_usize u64 x n.

(* ring48.rs:275-281 Shl<usize> for Ring48 *)
Definition ring48_shl (x n : Z) : Z := Z.land (shl_usize u64 x n) MASK_48.

(* ring48.rs:58-91 From<bool>, From<u8>, From<u16>, From<u32> for Ring48, From<Ring48> for u128 *)
Definition ring48_from_uint (v : Z) : Z := v.

(* ring48.rs:307-312 AsPrimitive<Ring48> for Signed48 *)
Definition ring48_from_signed48 (v : Z) : Z := Z.land (v mod 2 ^ 64) MASK_48.

(* ring48.rs:318-322 IntRing2k for Ring48 *)
Definition Ring48 : IntRing2k := {|
  K := 48;
  BYTES := 6;
  SIZE_OF := 8;
  wrapping_add := ring48_wrapping_add;
  wrapping_sub := ring48_wrapping_sub;
  wrapping_mul := ring48_wrapping_mul;
  wrapping_neg := ring48_wrapping_neg;
  wrapping_shl := ring48_wrapping_shl;
  wrapping_shr := ring48_wrapping_shr;
  shl_usize := ring48_shl;
  shr_usize := ring48_shr;
  bnot := ring48_not;
  bitxor := ring48_bitxor;
  bitand := ring48_bitand;
  bitor := ring48_bitor;
  from_bool b := ring48_from_uint (Z.b2z b);
  into_u128 := ring48_from_uint;
  tzero := 0;
  tone := 1;
  is_zero x := Z.eqb x 0;
  trem := ring48_rem;
|}.

(** ** The contract

    The arithmetic laws hold for every pair of stored words, also for words
    outside the valid range (an unmasked [Ring48], a [Bit] above 1): modulo
    [2^K] the operations are those of the integers.  The bitwise laws and
    closure of the valid range hold on valid elements. *)
Class IntRing2kOk (T : IntRing2k) : Prop := {
  ir_K_pos : 0 < K T;
  ir_add_ceq a b : wrapping_add T a b ==[2 ^ K T] a + b;
  ir_sub_ceq a b : wrapping_sub T a b ==[2 ^ K T] a - b;
  ir_mul_ceq a b : wrapping_mul T a b ==[2 ^ K T] a * b;
  ir_neg_ceq a : wrapping_neg T a ==[2 ^ K T] - a;
  ir_zero_eq : tzero T = 0;
  ir_one_eq : tone T = 1;
  ir_from_bool_eq b : from_bool T b = Z.b2z b;
  ir_is_zero_eq a : is_zero T a = Z.eqb a 0;
  ir_xor_eq a b : bitxor T a b = Z.lxor a b;
  ir_and_eq a b : bitand T a b = Z.land a b;
  ir_or_eq a b : bitor T a b = Z.lor a b;
  ir_not_eq a : valid T a -> bnot T a = 2 ^ K T - 1 - a;
  ir_shr_eq a n : valid T a -> 0 <= n < K T -> shr_usize T a n = Z.shiftr a n;
  ir_shl_eq a n : valid T a -> 0 <= n < K T -> shl_usize T a n = (a * 2 ^ n) mod 2 ^ K T;
  ir_wshr_eq a n : valid T a -> 0 <= n < K T -> wrapping_shr T a n = Z.shiftr a n;
  ir_wshl_eq a n : valid T a -> 0 <= n < K T -> wrapping_shl T a n = (a * 2 ^ n) mod 2 ^ K T;
  ir_add_valid a b : valid T a -> valid T b -> valid T (wrapping_add T a b);
  ir_sub_valid a b : valid T a -> valid T b -> valid T (wrapping_sub T a b);
  ir_mul_valid a b : valid T a -> valid T b -> valid T (wrapping_mul T a b);
  ir_neg_valid a : valid T a -> valid T (wrapping_neg T a);
}.

Lemma mod_pow2_range w a : 0 <= w -> 0 <= a mod 2 ^ w < 2 ^ w.
Proof. intros. apply Z.mod_pos_bound. lia. Qed.

#[export] Instance uint_ok w bytes : 0 < w -> IntRing2kOk (uint w bytes).
Proof.
  intros Hw. split; intros; unfold valid in *; simpl in *; try done;
    try apply ceq_mod; try (apply mod_pow2_range; lia).
  - rewrite lxor_mask; lia.
  - by rewrite Z.mod_small.
  - by rewrite (Z.mod_small n), Z.shiftl_mul_pow2 by lia.
  - by rewrite Z.mod_small.
  - by rewrite (Z.mod_small n), Z.shiftl_mul_pow2 by lia.
Qed.

#[export] Instance u8_ok : IntRing2kOk u8.
Proof. by apply uint_ok. Qed.
#[export] Instance u16_ok : IntRing2kOk u16.
Proof. by apply uint_ok. Qed.
#[export] Instance u32_ok : IntRing2kOk u32.
Proof. by apply uint_ok. Qed.
#[export] Instance u64_ok : IntRing2kOk u64.
Proof. by apply uint_ok. Qed.
#[export] Instance u128_ok : IntRing2kOk u128.
Proof. by apply uint_ok. Qed.

(** Parity of the bitwise operations: the [Bit] ring is the integers mod 2. *)
Lemma bit0_parity a b : Z.testbit a 0 = Z.testbit b 0 -> a ==[2] b.
Proof. unfold ceq. intros H. rewrite !Zmod_odd, <- !Z.bit0_odd. by rewrite H. Qed.

#[export] Instance Bit_ok : IntRing2kOk Bit.
Proof.
  split; intros; unfold valid in *; simpl in *; try done; change (2 ^ 1) with 2 in *.
  all: try (apply bit0_parity;
    rewrite ?Z.bit0_odd, ?Z.odd_add, ?Z.odd_sub, ?Z.odd_mul, ?Z.odd_opp, <- ?Z.bit0_odd;
    unfold bit_add, bit_sub, bit_mul, bit_bitxor, bit_bitand;
    by rewrite ?Z.lxor_spec, ?Z.land_spec).
  all: try (assert (n = 0) as -> by lia; cbn;
    rewrite ?Z.shiftr_0_r, ?Z.mul_1_r, ?Z.mod_small by lia; done).
  all: try (apply (lxor_range 1); lia).
  all: try (apply (land_range_l 1); lia).
  assert (a = 0 \/ a = 1) as [-> | ->] by lia; done.
Qed.

Lemma ring48_land a : Z.land a MASK_48 = a mod 2 ^ 48.
Proof. apply land_mask. lia. Qed.

#[export] Instance Ring48_ok : IntRing2kOk Ring48.
Proof.
  split; intros; unfold valid in *; simpl in *; try done.
  all: try (unfold ring48_wrapping_add, ring48_wrapping_sub, ring48_wrapping_mul,
              ring48_wrapping_neg; rewrite ring48_land; simpl;
            first [apply mod_pow2_range; lia | rewrite ceq_mod;
                   apply (ceq_pow_le 48 64); [lia | apply ceq_mod]]).
  - unfold ring48_not. rewrite ring48_land. simpl.
    rewrite (lxor_mask 64) by lia.
    rewrite <- (Z.mod_small (2 ^ 48 - 1 - a) (2 ^ 48)) by lia.
    apply ceq_iff; [lia|]. exists (2 ^ 16 - 1). lia.
  - unfold ring48_shr. simpl. by rewrite Z.mod_small by lia.
  - unfold ring48_shl. rewrite ring48_land. simpl. rewrite (Z.mod_small n) by lia.
    rewrite Z.shiftl_mul_pow2 by lia. apply (ceq_pow_le 48 64); [lia | apply ceq_mod].
  - unfold ring48_wrapping_shr. simpl. by rewrite Z.mod_small by lia.
  - unfold ring48_wrapping_shl. rewrite ring48_land. simpl. rewrite (Z.mod_small n) by lia.
    rewrite Z.shiftl_mul_pow2 by lia. apply (ceq_pow_le 48 64); [lia | apply ceq_mod].
Qed.
