(* ===== verification/RingImpl.v ===== *)
(** * Ring elements and vectors of them: [shares/ring_impl.rs]

    [RingElement<T>] is [repr(transparent)] over [T], so it is the same [Z];
    [VecRingElement<T>] is a list of them.  The owned, borrowed and assigning
    variants of one operator are one definition. *)

From S2P Require Import Prelude IntRing.
From stdpp Require Import base list numbers strings.
From Stdlib Require Import ZArith Lia Btauto.
Local Open Scope Z_scope.

(** ** Elements *)

(* ring_impl.rs:267-293 Add, AddAssign for RingElement *)
Definition re_add (T : IntRing2k) (x y : Z) : Z := wrapping_add T x y.
(* ring_impl.rs:295-321 Sub, SubAssign for RingElement *)
Definition re_sub (T : IntRing2k) (x y : Z) : Z := wrapping_sub T x y.
(* ring_impl.rs:323-377 Mul, MulAssign for RingElement *)
Definition re_mul (T : IntRing2k) (x y : Z) : Z := wrapping_mul T x y.
(* ring_impl.rs:395-401 Neg for RingElement *)
Definition re_neg (T : IntRing2k) (x : Z) : Z := wrapping_neg T x.
(* ring_impl.rs:379-387 Zero for RingElement *)
Definition re_zero (T : IntRing2k) : Z := tzero T.
(* ring_impl.rs:389-393 One for RingElement *)
Definition re_one (T : IntRing2k) : Z := tone T.
(* ring_impl.rs:413-419 Not for RingElement *)
Definition re_not (T : IntRing2k) (x : Z) : Z := bnot T x.
(* ring_impl.rs:421-447 BitXor, BitXorAssign for RingElement *)
Definition re_xor (T : IntRing2k) (x y : Z) : Z := bitxor T x y.
(* ring_impl.rs:449-475 BitOr, BitOrAssign for RingElement *)
Definition re_or (T : IntRing2k) (x y : Z) : Z := bitor T x y.
(* ring_impl.rs:477-511 BitAnd, BitAndAssign for RingElement *)
Definition re_and (T : IntRing2k) (x y : Z) : Z := bitand T x y.
(* ring_impl.rs:513-525 Shl<u32>, ShlAssign<u32> for RingElement *)
Definition re_shl (T : IntRing2k) (x n : Z) : Z := wrapping_shl T x n.
(* ring_impl.rs:527-539 Shr<u32>, ShrAssign<u32> for RingElement *)
Definition re_shr (T : IntRing2k) (x n : Z) : Z := wrapping_shr T x n.
(* ring_impl.rs:541-547 Rem<T> for RingElement *)
Definition re_rem (T : IntRing2k) (x y : Z) : result Z := trem T x y.

Notation "x +[ T ] y" := (re_add T x y) (at level 50, T at level 0, left associativity) : ampc_scope.
Notation "x ⊖[ T ] y" := (re_sub T x y) (at level 50, T at level 0, left associativity) : ampc_scope.
Notation "x *[ T ] y" := (re_mul T x y) (at level 40, T at level 0, left associativity) : ampc_scope.
Notation "x ^[ T ] y" := (re_xor T x y) (at level 50, T at level 0, left associativity) : ampc_scope.
Notation "x &[ T ] y" := (re_and T x y) (at level 40, T at level 0, left associativity) : ampc_scope.

(* ring_impl.rs:251-253 RingElement::get_bit *)
Definition get_bit (T : IntRing2k) (x : Z) (index : nat) : Z :=
  bitand T (shr_usize T x (Z.of_nat index)) (tone T).

(* ring_impl.rs:255-258 RingElement::get_bit_as_bit *)
Definition get_bit_as_bit (T : IntRing2k) (x : Z) (index : nat) : Z :=
  bit_new (Z.eqb (bitand T (shr_usize T x (Z.of_nat index)) (tone T)) (tone T)).

(* ring_impl.rs:196-204 BitIter::next *)
Definition bit_iter_next (T : IntRing2k) (bits : Z) (index : nat) : option (Z * nat) :=
  if Z.of_nat index <? K T then
    let bit := Z.eqb (bitand T (shr_usize T bits (Z.of_nat index)) (tone T)) (tone T) in
    Some (bit_new bit, S index)
  else None.

Fixpoint bit_iter_collect (T : IntRing2k) (bits : Z) (index fuel : nat) : list Z :=
  match fuel with
  | O => []
  | S fuel => match bit_iter_next T bits index with
              | None => []
              | Some (b, index') => b :: bit_iter_collect T bits index' fuel
              end
  end.

(** The elements the iterator yields; [K] steps drain it ([bit_iter_exhausted]). *)
(* ring_impl.rs:243-249 RingElement::bit_iter *)
Definition bit_iter (T : IntRing2k) (x : Z) : list Z :=
  bit_iter_collect T x 0 (Z.to_nat (K T)).

(** ** Vectors *)

Definition vec_op (msg : string) (f : Z -> Z -> Z) (v w : list Z) : result (list Z) :=
  if negb (length v =? length w)%nat then bail msg else Ok (zip_with f v w).

(* ring_impl.rs:115-127 Add for VecRingElement *)
Definition vec_add (T : IntRing2k) (v w : list Z) : result (list Z) :=
  vec_op "Adding vectors of different lengths" (re_add T) v w.

(* ring_impl.rs:129-141 BitXor<&Self> for VecRingElement *)
Definition vec_xor (T : IntRing2k) (v w : list Z) : result (list Z) :=
  vec_op "Adding vectors of different lengths" (re_xor T) v w.

(* ring_impl.rs:143-169 Sub, Sub<&Self> for VecRingElement *)
Definition vec_sub (T : IntRing2k) (v w : list Z) : result (list Z) :=
  vec_op "Subtracting vectors of different lengths" (re_sub T) v w.

(* ring_impl.rs:171-185 Mul<&Self> for VecRingElement *)
Definition vec_mul (T : IntRing2k) (v w : list Z) : result (list Z) :=
  vec_op "Multiplying vectors of different lengths" (re_mul T) v w.

(** ** The algebra of elements *)

Section Elements.
Context {T : IntRing2k} {HT : IntRing2kOk T}.

Lemma re_add_ceq x y : x +[T] y ==[2 ^ K T] x + y.
Proof. apply ir_add_ceq. Qed.
Lemma re_sub_ceq x y : x ⊖[T] y ==[2 ^ K T] x - y.
Proof. apply ir_sub_ceq. Qed.
Lemma re_mul_ceq x y : x *[T] y ==[2 ^ K T] x * y.
Proof. apply ir_mul_ceq. Qed.
Lemma re_neg_ceq x : re_neg T x ==[2 ^ K T] - x.
Proof. apply ir_neg_ceq. Qed.

Lemma modulus_pos : 0 < 2 ^ K T.
Proof. pose proof ir_K_pos. apply Z.pow_pos_nonneg; lia. Qed.

Lemma valid_zero : valid T (re_zero T).
Proof. unfold valid, re_zero. rewrite ir_zero_eq. pose proof modulus_pos. lia. Qed.
Lemma valid_b2z b : valid T (Z.b2z b).
Proof.
  pose proof ir_K_pos. unfold valid. split; [destruct b; simpl; lia|].
  apply Z.le_lt_trans with 1; [destruct b; simpl; lia|]. apply Z.pow_gt_1; lia.
Qed.
Lemma valid_one : valid T (re_one T).
Proof. unfold re_one. rewrite ir_one_eq. apply (valid_b2z true). Qed.
Lemma valid_mod x : valid T (x mod 2 ^ K T).
Proof. apply Z.mod_pos_bound, modulus_pos. Qed.
Lemma re_add_valid x y : valid T x -> valid T y -> valid T (x +[T] y).
Proof. apply ir_add_valid. Qed.
Lemma re_sub_valid x y : valid T x -> valid T y -> valid T (x ⊖[T] y).
Proof. apply ir_sub_valid. Qed.
Lemma re_mul_valid x y : valid T x -> valid T y -> valid T (x *[T] y).
Proof. apply ir_mul_valid. Qed.
Lemma re_neg_valid x : valid T x -> valid T (re_neg T x).
Proof. apply ir_neg_valid. Qed.
Lemma re_xor_valid x y : valid T x -> valid T y -> valid T (x ^[T] y).
Proof. unfold re_xor. rewrite ir_xor_eq. pose proof ir_K_pos. apply lxor_range; lia. Qed.
Lemma re_and_valid x y : valid T x -> valid T y -> valid T (x &[T] y).
Proof.
  unfold re_and, valid. rewrite ir_and_eq. pose proof ir_K_pos. intros.
  apply land_range_l; lia.
Qed.
Lemma re_or_valid x y : valid T x -> valid T y -> valid T (re_or T x y).
Proof. unfold re_or. rewrite ir_or_eq. pose proof ir_K_pos. apply lor_range; lia. Qed.
Lemma re_not_valid x : valid T x -> valid T (re_not T x).
Proof. unfold re_not, valid. intros. rewrite ir_not_eq by done. lia. Qed.

(** Valid elements congruent modulo [2^K] are equal. *)
Lemma valid_eq x y : valid T x -> valid T y -> x ==[2 ^ K T] y -> x = y.
Proof. apply ceq_small. Qed.
Lemma valid_eq_mod x y : valid T x -> x ==[2 ^ K T] y -> x = y mod 2 ^ K T.
Proof. apply ceq_mod_small. Qed.

(** [!x] is the bitwise complement within [K] bits. *)
Lemma re_not_xor x : valid T x -> re_not T x = Z.lxor x (2 ^ K T - 1).
Proof. intros Hx. pose proof ir_K_pos. unfold re_not. rewrite ir_not_eq, lxor_mask; unfold valid in *; done || lia. Qed.
End Elements.

Create HintDb valid.
#[export] Hint Resolve valid_zero valid_one valid_mod re_add_valid re_sub_valid re_mul_valid
  re_neg_valid re_xor_valid re_and_valid re_or_valid re_not_valid valid_b2z : valid.

(** Push the ring operations of a congruence to integer operations. *)
Ltac ceq_norm :=
  repeat first [ setoid_rewrite re_add_ceq | setoid_rewrite re_sub_ceq
               | setoid_rewrite re_mul_ceq | setoid_rewrite re_neg_ceq ].

(** Decide a congruence of ring expressions modulo [2^K]. *)
Ltac ring_ceq := ceq_norm; unfold re_zero, re_one; rewrite ?ir_zero_eq, ?ir_one_eq; apply ceq_eq; ring.

(** Decide an equality of ring expressions over valid elements. *)
Ltac ring_eq T := apply (valid_eq (T:=T)); [eauto 20 with valid..| ring_ceq].

Lemma bit_new_b2z b : bit_new b = Z.b2z b.
Proof. by destruct b. Qed.

Lemma land_one x : Z.land x 1 = Z.b2z (Z.testbit x 0).
Proof.
  change 1 with (2 ^ 1 - 1). rewrite land_mask by lia. symmetry. apply Z.bit0_mod.
Qed.

Section Bits.
Context {T : IntRing2k} {HT : IntRing2kOk T}.

Lemma get_bit_as_bit_spec x i :
  valid T x -> Z.of_nat i < K T -> get_bit_as_bit T x i = Z.b2z (Z.testbit x (Z.of_nat i)).
Proof.
  intros Hx Hi. unfold get_bit_as_bit. rewrite ir_and_eq, ir_one_eq, ir_shr_eq by (done || lia).
  rewrite land_one, Z.shiftr_spec, bit_new_b2z by lia. by destruct (Z.testbit x _).
Qed.

Lemma bit_iter_collect_spec x i n :
  valid T x -> Z.of_nat (i + n) = K T ->
  bit_iter_collect T x i n = (fun j => Z.b2z (Z.testbit x (Z.of_nat j))) <$> seq i n.
Proof.
  intros Hx. revert i. induction n as [|n IH]; intros i Hi; [done|]. simpl.
  unfold bit_iter_next. rewrite (proj2 (Z.ltb_lt _ _)) by lia.
  fold (get_bit_as_bit T x i). rewrite get_bit_as_bit_spec by (done || lia).
  rewrite IH by lia. done.
Qed.

(** The iterator lists the bits of the element, least significant first. *)
Lemma bit_iter_spec x :
  valid T x ->
  bit_iter T x = (fun j => Z.b2z (Z.testbit x (Z.of_nat j))) <$> seq 0 (Z.to_nat (K T)).
Proof. intros Hx. pose proof ir_K_pos. apply bit_iter_collect_spec; [done|lia]. Qed.

(** After [K] calls the iterator is exhausted. *)
Lemma bit_iter_exhausted x : bit_iter_next T x (Z.to_nat (K T)) = None.
Proof. unfold bit_iter_next. by rewrite (proj2 (Z.ltb_ge _ _)) by lia. Qed.
End Bits.

Lemma vec_op_ok msg f v w :
  length v = length w -> vec_op msg f v w = Ok (zip_with f v w).
Proof. intros H. unfold vec_op. by rewrite (proj2 (Nat.eqb_eq _ _)). Qed.

Lemma vec_op_err msg f v w : length v <> length w -> vec_op msg f v w = bail msg.
Proof. intros H. unfold vec_op. by rewrite (proj2 (Nat.eqb_neq _ _)). Qed.

Lemma valid_bit_b2z x : valid Bit x -> x = Z.b2z (bit_convert x).
Proof.
  unfold valid, bit_convert. cbn [K Bit]. intros Hx. destruct (Z.eqb_spec x 1); simpl; lia.
Qed.
Lemma valid_bit_intro b : valid Bit (Z.b2z b).
Proof. apply (valid_b2z (T:=Bit)). Qed.
