(* ===== verification/Party.v ===== *)
(** * Parties and roles: [ampc-secret-sharing/src/id.rs],
    [ampc-actor-utils/src/execution/player.rs]

    The three parties of the replicated protocols, with the next/previous
    rotation, the conversions of [PartyID], and the zero-indexed [Role] a
    session carries.  [tri A] holds one [A] per party. *)

From S2P Require Import Prelude.
From stdpp Require Import option base list numbers strings.
From Stdlib Require Import ZArith Lia.
Local Open Scope Z_scope.

(* id.rs:6-13 PartyID *)
Inductive PartyID := ID0 | ID1 | ID2.

#[export] Instance PartyID_eq_dec : EqDecision PartyID.
Proof. solve_decision. Defined.

(* id.rs:17-23 PartyID::next_id *)
Definition next_id (p : PartyID) : PartyID :=
  match p with ID0 => ID1 | ID1 => ID2 | ID2 => ID0 end.

(* id.rs:26-32 PartyID::prev_id *)
Definition prev_id (p : PartyID) : PartyID :=
  match p with ID0 => ID2 | ID1 => ID0 | ID2 => ID1 end.

(* id.rs:46-57 TryFrom<usize> for PartyID *)
Definition party_try_from_usize (other : Z) : result PartyID :=
  if Z.eqb other 0 then Ok ID0
  else if Z.eqb other 1 then Ok ID1
  else if Z.eqb other 2 then Ok ID2
  else bail "Invalid party ID".

(* id.rs:59-66 TryFrom<u8> for PartyID *)
Definition party_try_from_u8 (other : Z) : result PartyID := party_try_from_usize other.

(* id.rs:78-90 From<PartyID> for u8, usize *)
Definition party_index (p : PartyID) : Z :=
  match p with ID0 => 0 | ID1 => 1 | ID2 => 2 end.

Lemma next_prev p : next_id (prev_id p) = p.
Proof. by destruct p. Qed.
Lemma prev_next p : prev_id (next_id p) = p.
Proof. by destruct p. Qed.

Lemma party_try_from_index p : party_try_from_usize (party_index p) = Ok p.
Proof. by destruct p. Qed.

Lemma party_try_from_bound n p : party_try_from_usize n = Ok p -> 0 <= n < 3 /\ n = party_index p.
Proof.
  unfold party_try_from_usize.
  destruct (Z.eqb_spec n 0), (Z.eqb_spec n 1), (Z.eqb_spec n 2); intros [= <-]; simpl; lia.
Qed.

(** ** Roles *)

(* player.rs:34-34 Role *)
Record Role := mkRole { role_u8 : Z }.

#[export] Instance Role_eq_dec : EqDecision Role.
Proof. solve_decision. Defined.

(* player.rs:38-40 Role::new *)
Definition role_new (x : Z) : Role := mkRole (x mod 256).

(* player.rs:43-45 Role::index *)
Definition role_index (r : Role) : Z := role_u8 r.

(* player.rs:48-50 Role::next *)
Definition role_next (r : Role) (num_players : Z) : result Role :=
  if Z.eqb num_players 0 then
    panic "attempt to calculate the remainder with a divisor of zero"
  else Ok (mkRole (((role_u8 r + 1) mod 256) mod num_players)).

(* player.rs:54-60 Role::prev *)
Definition role_prev (r : Role) (num_players : Z) : Role :=
  if Z.eqb (role_u8 r) 0 then role_new (num_players - 1)
  else mkRole (role_u8 r - 1).

(** The role of a party in a three-party session. *)
Definition party_role (p : PartyID) : Role := mkRole (party_index p).

Lemma role_next_party p : role_next (party_role p) 3 = Ok (party_role (next_id p)).
Proof. by destruct p. Qed.
Lemma role_prev_party p : role_prev (party_role p) 3 = party_role (prev_id p).
Proof. by destruct p. Qed.

(** ** One value per party *)

Record tri (A : Type) := Tri { at0 : A; at1 : A; at2 : A }.
Arguments Tri {A} _ _ _.
Arguments at0 {A} _.
Arguments at1 {A} _.
Arguments at2 {A} _.

Definition tget {A} (t : tri A) (i : PartyID) : A :=
  match i with ID0 => at0 t | ID1 => at1 t | ID2 => at2 t end.
Definition tset {A} (t : tri A) (i : PartyID) (x : A) : tri A :=
  match i with
  | ID0 => Tri x (at1 t) (at2 t)
  | ID1 => Tri (at0 t) x (at2 t)
  | ID2 => Tri (at0 t) (at1 t) x
  end.
Definition tof {A} (f : PartyID -> A) : tri A := Tri (f ID0) (f ID1) (f ID2).
Notation "t @ i" := (tget t i) (at level 9, i at level 8) : ampc_scope.

#[export] Instance tri_fmap : FMap tri := fun A B f t => Tri (f (at0 t)) (f (at1 t)) (f (at2 t)).
#[export] Instance tri_eq_dec `{EqDecision A} : EqDecision (tri A).
Proof. solve_decision. Defined.

Lemma tri_ext {A} (t u : tri A) : (forall i, t @ i = u @ i) -> t = u.
Proof.
  intros H. destruct t, u. pose proof (H ID0). pose proof (H ID1). pose proof (H ID2).
  simpl in *. congruence.
Qed.
Lemma tget_tset {A} (t : tri A) i x : (tset t i x) @ i = x.
Proof. by destruct i. Qed.
Lemma tget_tset_ne {A} (t : tri A) i j x : i <> j -> (tset t i x) @ j = t @ j.
Proof. by destruct i, j. Qed.
Lemma tset_tget {A} (t : tri A) i : tset t i (t @ i) = t.
Proof. by destruct i, t. Qed.
Lemma tset_tset {A} (t : tri A) i x y : tset (tset t i x) i y = tset t i y.
Proof. by destruct i. Qed.
Lemma tset_comm {A} (t : tri A) i j x y :
  i <> j -> tset (tset t i x) j y = tset (tset t j y) i x.
Proof. by destruct i, j. Qed.
Lemma tget_tof {A} (f : PartyID -> A) i : (tof f) @ i = f i.
Proof. by destruct i. Qed.
Lemma tget_fmap {A B} (f : A -> B) (t : tri A) i : (f <$> t) @ i = f (t @ i).
Proof. by destruct i. Qed.
Create Rewrite HintDb tri.
#[export] Hint Rewrite @tget_tset @tget_tof @tget_fmap : tri.

(** ** Vectors of three-party values

    [tvec R v xs]: the three parties' lists [v] have the length of [xs], and at
    every position the three entries are related by [R] to the entry of [xs]. *)

Definition tcons {A} (s : tri A) (v : tri (list A)) : tri (list A) :=
  tof (fun i => s @ i :: v @ i).
Definition tnil {A} : tri (list A) := tof (fun _ => []).
Definition tapp {A} (v w : tri (list A)) : tri (list A) := tof (fun i => v @ i ++ w @ i).

Inductive tvec {A B} (R : tri A -> B -> Prop) : tri (list A) -> list B -> Prop :=
| tvec_nil : tvec R tnil []
| tvec_cons s v x xs : R s x -> tvec R v xs -> tvec R (tcons s v) (x :: xs).

Lemma tvec_nil_inv {A B} (R : tri A -> B -> Prop) v : tvec R v [] -> v = tnil.
Proof. by inversion 1. Qed.

Lemma tvec_cons_inv {A B} (R : tri A -> B -> Prop) v x xs :
  tvec R v (x :: xs) -> exists s w, v = tcons s w /\ R s x /\ tvec R w xs.
Proof. inversion 1; subst. eauto. Qed.

Lemma tvec_length {A B} (R : tri A -> B -> Prop) v xs i :
  tvec R v xs -> length (v @ i) = length xs.
Proof. induction 1; [by destruct i|]. unfold tcons. rewrite tget_tof. simpl. by f_equal. Qed.

Lemma tvec_impl {A B} (R R' : tri A -> B -> Prop) v xs :
  (forall s x, R s x -> R' s x) -> tvec R v xs -> tvec R' v xs.
Proof. intros H. induction 1; constructor; auto. Qed.

(** A local operation on every entry. *)
Lemma tvec_map {A B A' B'} (R : tri A -> B -> Prop) (R' : tri A' -> B' -> Prop)
    (f : PartyID -> A -> A') (g : B -> B') v xs :
  (forall s x, R s x -> R' (tof (fun i => f i (s @ i))) (g x)) ->
  tvec R v xs -> tvec R' (tof (fun i => f i <$> v @ i)) (g <$> xs).
Proof.
  intros H. induction 1 as [|s v x xs Hs Hv IH]; [constructor|].
  exact (tvec_cons R' _ _ _ _ (H _ _ Hs) IH).
Qed.

(** A local operation on the entries of two vectors. *)
Lemma tvec_zip {A B A' B' A'' B''} (R : tri A -> B -> Prop) (R' : tri A' -> B' -> Prop)
    (R'' : tri A'' -> B'' -> Prop) (f : PartyID -> A -> A' -> A'') (g : B -> B' -> B'') v xs w ys :
  (forall s x r y, R s x -> R' r y -> R'' (tof (fun i => f i (s @ i) (r @ i))) (g x y)) ->
  tvec R v xs -> tvec R' w ys ->
  tvec R'' (tof (fun i => zip_with (f i) (v @ i) (w @ i))) (zip_with g xs ys).
Proof.
  intros H Hv. revert w ys. induction Hv as [|s v x xs Hs Hv IH]; intros w ys Hw.
  { simpl. constructor. }
  destruct Hw as [|r w y ys Hr Hw]; [simpl; constructor|].
  exact (tvec_cons R'' _ _ _ _ (H _ _ _ _ Hs Hr) (IH _ _ Hw)).
Qed.

Lemma tvec_app {A B} (R : tri A -> B -> Prop) v xs w ys :
  tvec R v xs -> tvec R w ys -> tvec R (tapp v w) (xs ++ ys).
Proof.
  intros Hv Hw. induction Hv as [|s v x xs Hs Hv IH].
  - by destruct w.
  - exact (tvec_cons R _ _ _ _ Hs IH).
Qed.

Lemma tvec_take {A B} (R : tri A -> B -> Prop) n v xs :
  tvec R v xs -> tvec R (take n <$> v) (take n xs).
Proof.
  intros Hv. revert n. induction Hv as [|s v x xs Hs Hv IH]; intros [|n]; try by constructor.
  exact (tvec_cons R _ _ _ _ Hs (IH n)).
Qed.

Lemma tvec_drop {A B} (R : tri A -> B -> Prop) n v xs :
  tvec R v xs -> tvec R (drop n <$> v) (drop n xs).
Proof.
  intros Hv. revert n. induction Hv as [|s v x xs Hs Hv IH]; intros [|n]; try by constructor.
  apply IH.
Qed.

Lemma tvec_lookup {A B} (R : tri A -> B -> Prop) v xs k x :
  tvec R v xs -> xs !! k = Some x ->
  exists s, (forall i, v @ i !! k = Some (s @ i)) /\ R s x.
Proof.
  intros Hv. revert k. induction Hv as [|s v y xs Hs Hv IH]; intros [|k] Hk; simplify_eq/=.
  - exists s. split; [|done]. by intros [].
  - destruct (IH k Hk) as (r & Hr & ?). exists r. split; [|done].
    intros i. specialize (Hr i). by destruct i.
Qed.

Lemma tvec_intro {A B} (R : tri A -> B -> Prop) v xs :
  (forall i, length (v @ i) = length xs) ->
  (forall k x, xs !! k = Some x ->
     exists s, (forall i, v @ i !! k = Some (s @ i)) /\ R s x) ->
  tvec R v xs.
Proof.
  revert v. induction xs as [|x xs IH]; intros v Hl H.
  - assert (v = tnil) as ->; [|constructor]. apply tri_ext. intros i.
    rewrite (nil_length_inv _ (Hl i)). by destruct i.
  - destruct (H 0%nat x eq_refl) as (s & Hs & HR).
    assert (v = tcons s (tail <$> v)) as Hv.
    { apply tri_ext. intros i. specialize (Hs i). unfold tcons. rewrite tget_tof, tget_fmap.
      destruct (v @ i); simplify_eq/=. done. }
    rewrite Hv. constructor; [done|]. apply IH.
    + intros i. rewrite tget_fmap. specialize (Hl i). destruct (v @ i); simplify_eq/=; done.
    + intros k y Hk. destruct (H (S k) y Hk) as (r & Hr & ?). exists r. split; [|done].
      intros i. rewrite tget_fmap. specialize (Hr i). by destruct (v @ i).
Qed.

Lemma tvec_concat {A B} (R : tri A -> B -> Prop) v xss :
  tvec (tvec R) v xss -> tvec R (concat (A:=A) <$> v) (concat xss).
Proof.
  induction 1 as [|s v x xss Hs Hv IH]; [constructor|].
  exact (tvec_app R _ _ _ _ Hs IH).
Qed.

(** Any function that only selects entries acts on the three lists and on the
    plain list alike. *)
Lemma tvec_tail {A B} (R : tri A -> B -> Prop) v xs : tvec R v xs -> tvec R (tail <$> v) (tail xs).
Proof. destruct 1 as [|s v x xs Hs Hv]; [constructor|]. by destruct v. Qed.

Lemma tvec_removelast {A B} (R : tri A -> B -> Prop) v xs :
  tvec R v xs -> tvec R (removelast (A:=A) <$> v) (removelast xs).
Proof.
  induction 1 as [|s v x xs Hs Hv IH]; [constructor|]. destruct Hv as [|s' v x' xs Hs' Hv]; [constructor|].
  exact (tvec_cons R _ _ _ _ Hs IH).
Qed.

Lemma tvec_last {A B} (R : tri A -> B -> Prop) v xs x :
  tvec R v xs -> last xs = Some x -> exists s, (forall i, last (v @ i) = Some (s @ i)) /\ R s x.
Proof.
  intros Hv Hx. rewrite last_lookup in Hx.
  destruct (tvec_lookup R v xs _ x Hv Hx) as (s & Hs & HR). exists s. split; [|done].
  intros i. rewrite last_lookup, (tvec_length _ _ _ i Hv). apply Hs.
Qed.

Lemma tvec_option {A B} (R : tri A -> B -> Prop) (s : tri (option A)) (o : option B) :
  match o with
  | Some x => exists t, (forall i, s @ i = Some (t @ i)) /\ R t x
  | None => forall i, s @ i = None
  end -> tvec R (option_list <$> s) (option_list o).
Proof.
  destruct o as [x|].
  - intros (t & Ht & HR). replace (option_list <$> s) with (tcons t tnil).
    { constructor; [done|constructor]. }
    apply tri_ext. intros i. rewrite tget_fmap, Ht. unfold tcons, tnil. by rewrite !tget_tof.
  - intros Ht. replace (option_list <$> s) with (tnil (A:=A)); [constructor|].
    apply tri_ext. intros i. rewrite tget_fmap, Ht. unfold tnil. by rewrite tget_tof.
Qed.

Lemma tvec_chunks {A B} (P : tri A -> B -> Prop) n v xss :
  (0 < n)%nat -> Forall (fun xs => length xs = n) xss -> tvec P v (concat xss) -> tvec (tvec P) (chunks n <$> v) xss.
Proof.
  intros Hn Hl. revert v. induction Hl as [|xs xss Hx Hl IH]; intros v Hv.
  { apply tvec_nil_inv in Hv as ->. apply tvec_nil. }
  pose proof (tvec_take _ n _ _ Hv) as Ht. pose proof (tvec_drop _ n _ _ Hv) as Hd. cbn [concat] in Ht, Hd.
  rewrite take_app_length' in Ht by done. rewrite drop_app_length' in Hd by done.
  replace (chunks n <$> v) with (tcons (take n <$> v) (chunks n <$> (drop n <$> v))); [apply tvec_cons; auto|].
  apply tri_ext. intros i. unfold tcons; rewrite tget_tof, !tget_fmap, (chunks_cons n (v @ i)); [done|done|].
  intros E. apply (f_equal length) in E. rewrite (tvec_length _ _ _ i Hv) in E. cbn in E. rewrite length_app, Hx in E. lia.
Qed.

Lemma tvec_fmap_r {A B C} (P : tri A -> C -> Prop) (g : B -> C) v xs :
  tvec P v (g <$> xs) <-> tvec (fun t x => P t (g x)) v xs.
Proof.
  split.
  - revert v. induction xs as [|x xs IH]; intros v Hv; [apply tvec_nil_inv in Hv as ->; apply tvec_nil|].
    apply tvec_cons_inv in Hv as (s & w & -> & Hs & Hv). apply tvec_cons; auto.
  - induction 1; [apply tvec_nil|]. by apply tvec_cons.
Qed.

Lemma tvec_zip_same {A A' A'' V} (P : tri A -> V -> Prop) (Q : tri A' -> V -> Prop) (S : tri A'' -> V -> Prop)
    (f : A -> A' -> A'') v w xs :
  (forall s r x, P s x -> Q r x -> S (tof (fun i => f (s @ i) (r @ i))) x) ->
  tvec P v xs -> tvec Q w xs -> tvec S (tof (fun i => zip_with f (v @ i) (w @ i))) xs.
Proof.
  intros H Hv. revert w. induction Hv as [|s v x xs Hs Hv IH]; intros w Hw; [apply tvec_nil|].
  apply tvec_cons_inv in Hw as (r & w' & -> & Hr & Hw). exact (tvec_cons S _ _ _ _ (H _ _ _ Hs Hr) (IH _ Hw)).
Qed.
