(* ===== verification/Share.v ===== *)
(** * Replicated shares: [ampc-secret-sharing/src/shares/share.rs]

    [Share] and [DistanceShare] with their operators, and what the three
    parties' shares mean together: [rep3 T s c] says that party [i] holds
    [(c_i, c_(i-1))]; [shares_add T s x] that the components sum to [x] modulo
    [2^K], [shares_xor T s x] that they XOR to [x]. *)

From S2P Require Import Prelude IntRing RingImpl Party.
From stdpp Require Import base list numbers strings.
From Stdlib Require Import ZArith Lia Btauto.
Local Open Scope Z_scope.

(* share.rs:24-27 Share *)
Record Share := mkShare { sa : Z; sb : Z }.

#[export] Instance Share_eq_dec : EqDecision Share.
Proof. solve_decision. Defined.

(* share.rs:30-32 Share::new *)
Definition share_new (a b : Z) : Share := mkShare a b.
(* share.rs:279-290 Zero for Share *)
Definition share_zero (T : IntRing2k) : Share := mkShare (re_zero T) (re_zero T).
Definition share_is_zero (T : IntRing2k) (s : Share) : bool := is_zero T (sa s) && is_zero T (sb s).

(* share.rs:40-47 Share::add_assign_const_role *)
Definition add_assign_const_role (T : IntRing2k) (s : Share) (other : Z) (role : Z) : result Share :=
  if Z.eqb role 0 then Ok (mkShare (sa s +[T] other) (sb s))
  else if Z.eqb role 1 then Ok (mkShare (sa s) (sb s +[T] other))
  else if Z.eqb role 2 then Ok s
  else panic "not implemented".

(* share.rs:34-38 Share::from_const *)
Definition share_from_const (T : IntRing2k) (value : Z) (role : Z) : result Share :=
  add_assign_const_role T (share_zero T) value role.

(* share.rs:57-63 Share::get_ab, get_ab_ref *)
Definition get_ab (s : Share) : Z * Z := (sa s, sb s).

(* share.rs:65-70 Share::iter_from_iter_ab *)
Definition iter_from_iter_ab (a b : list Z) : list Share := zip_with mkShare a b.

(* share.rs:73-93 Add for Share *)
Definition share_add (T : IntRing2k) (s r : Share) : Share :=
  mkShare (sa s +[T] sa r) (sb s +[T] sb r).
(* share.rs:95-115 Sub for Share *)
Definition share_sub (T : IntRing2k) (s r : Share) : Share :=
  mkShare (sa s ⊖[T] sa r) (sb s ⊖[T] sb r).
(* share.rs:117-129 AddAssign for Share *)
Definition share_add_assign (T : IntRing2k) (s r : Share) : Share :=
  mkShare (sa s +[T] sa r) (sb s +[T] sb r).
(* share.rs:131-143 SubAssign for Share *)
Definition share_sub_assign (T : IntRing2k) (s r : Share) : Share :=
  mkShare (sa s ⊖[T] sa r) (sb s ⊖[T] sb r).
(* share.rs:145-180 Mul<RingElement<T>>, Mul<T>, MulAssign<T> for Share *)
Definition share_scale (T : IntRing2k) (s : Share) (rhs : Z) : Share :=
  mkShare (sa s *[T] rhs) (sb s *[T] rhs).
(* share.rs:182-198 Mul<Self> for Share *)
Definition share_mul (T : IntRing2k) (s r : Share) : Z :=
  sa s *[T] sa r +[T] sb s *[T] sa r +[T] sa s *[T] sb r.
(* share.rs:200-245 BitXor, BitXorAssign for Share *)
Definition share_xor (T : IntRing2k) (s r : Share) : Share :=
  mkShare (sa s ^[T] sa r) (sb s ^[T] sb r).
(* share.rs:247-255 BitAnd<Self> for &Share *)
Definition share_and (T : IntRing2k) (s r : Share) : Z :=
  (sa s &[T] sa r) ^[T] (sb s &[T] sa r) ^[T] (sa s &[T] sb r).
(* share.rs:257-277 BitAnd<&RingElement<T>>, BitAnd<T> for Share *)
Definition share_mask (T : IntRing2k) (s : Share) (rhs : Z) : Share :=
  mkShare (sa s &[T] rhs) (sb s &[T] rhs).
(* share.rs:292-312 Neg for Share *)
Definition share_neg (T : IntRing2k) (s : Share) : Share :=
  mkShare (re_neg T (sa s)) (re_neg T (sb s)).
(* share.rs:314-328 Not for &Share *)
Definition share_not (T : IntRing2k) (s : Share) : Share :=
  mkShare (re_not T (sa s)) (re_not T (sb s)).
(* share.rs:330-339 Shr<u32> for &Share *)
Definition share_shr (T : IntRing2k) (s : Share) (n : Z) : Share :=
  mkShare (re_shr T (sa s) n) (re_shr T (sb s) n).
(* share.rs:341-361 Shl<u32> for Share *)
Definition share_shl (T : IntRing2k) (s : Share) (n : Z) : Share :=
  mkShare (re_shl T (sa s) n) (re_shl T (sb s) n).

(* share.rs:371-374 DistanceShare *)
Record DistanceShare := mkDistance { code_dot : Share; mask_dot : Share }.

#[export] Instance DistanceShare_eq_dec : EqDecision DistanceShare.
Proof. solve_decision. Defined.

(* share.rs:385-412 Add, AddAssign for DistanceShare *)
Definition distance_add (T : IntRing2k) (s r : DistanceShare) : DistanceShare :=
  mkDistance (share_add T (code_dot s) (code_dot r)) (share_add T (mask_dot s) (mask_dot r)).

(** [itertools::tuples] for pairs and triples: a trailing partial group is
    dropped. *)
Fixpoint tuples2 {A} (l : list A) : list (A * A) :=
  match l with x :: y :: l => (x, y) :: tuples2 l | _ => [] end.
Fixpoint tuples3 {A} (l : list A) : list (A * A * A) :=
  match l with x :: y :: z :: l => (x, y, z) :: tuples3 l | _ => [] end.

(* share.rs:416-425 reconstruct_distance_vector *)
Definition reconstruct_distance_vector (a b : list Z) : list DistanceShare :=
  (fun '(code, mask) => mkDistance code mask) <$> tuples2 (zip_with mkShare a b).

(* share.rs:427-439 reconstruct_id_distance_vector *)
Definition reconstruct_id_distance_vector (a b : list Z) : list (Share * DistanceShare) :=
  (fun '(id, code, mask) => (id, mkDistance code mask)) <$> tuples3 (zip_with mkShare a b).

(** ** The meaning of three shares *)

(** Party [i] holds component [c_i] and its predecessor's [c_(i-1)]. *)
Definition rep3 (s : tri Share) (c : tri Z) : Prop :=
  forall i, s @ i = mkShare (c @ i) (c @ (prev_id i)).

Definition valid3 (T : IntRing2k) (c : tri Z) : Prop := forall i, valid T (c @ i).

(** The component vectors sum, resp. XOR, to [x]. *)
Definition sum3 (T : IntRing2k) (c : tri Z) : Z := (at0 c + at1 c + at2 c) mod 2 ^ K T.
Definition xor3 (c : tri Z) : Z := Z.lxor (Z.lxor (at0 c) (at1 c)) (at2 c).

Definition shares_add (T : IntRing2k) (s : tri Share) (x : Z) : Prop :=
  exists c, rep3 s c /\ valid3 T c /\ sum3 T c = x.
Definition shares_xor (T : IntRing2k) (s : tri Share) (x : Z) : Prop :=
  exists c, rep3 s c /\ valid3 T c /\ xor3 c = x.

(** Pointwise application of a local operation by the three parties. *)
Definition tmap2 {A B C} (f : A -> B -> C) (s : tri A) (r : tri B) : tri C :=
  tof (fun i => f (s @ i) (r @ i)).

Lemma rep3_tof c : rep3 (tof (fun i => mkShare (c @ i) (c @ (prev_id i)))) c.
Proof. intros i. by rewrite tget_tof. Qed.

Lemma rep3_inv s c :
  rep3 s c ->
  s = Tri (mkShare (at0 c) (at2 c)) (mkShare (at1 c) (at0 c)) (mkShare (at2 c) (at1 c)).
Proof. intros H. apply tri_ext. intros i. rewrite H. by destruct i. Qed.

Section Linear.
Context {T : IntRing2k} {HT : IntRing2kOk T}.

Lemma sum3_ceq c : sum3 T c ==[2 ^ K T] at0 c + at1 c + at2 c.
Proof. apply ceq_mod. Qed.

Lemma sum3_eq c x : x ==[2 ^ K T] at0 c + at1 c + at2 c -> sum3 T c = x mod 2 ^ K T.
Proof. intros H. unfold sum3. symmetry. apply H. Qed.

Lemma shares_add_valid s x : shares_add T s x -> valid T x.
Proof. intros (c & _ & _ & <-). apply valid_mod. Qed.

Lemma shares_xor_valid s x : shares_xor T s x -> valid T x.
Proof.
  intros (c & _ & Hc & <-). pose proof ir_K_pos. unfold xor3.
  apply lxor_range; [lia| |apply (Hc ID2)].
  apply lxor_range; [lia|apply (Hc ID0)|apply (Hc ID1)].
Qed.

(** Lifting a componentwise local operation to the sharing. *)
Lemma rep3_map2 (f : Share -> Share -> Share) (g : Z -> Z -> Z) s r c d :
  (forall s r, f s r = mkShare (g (sa s) (sa r)) (g (sb s) (sb r))) ->
  rep3 s c -> rep3 r d -> rep3 (tmap2 f s r) (tmap2 g c d).
Proof.
  intros Hf Hs Hr i. unfold tmap2. rewrite !tget_tof, Hf, Hs, Hr. done.
Qed.

Lemma rep3_map (f : Share -> Share) (g : Z -> Z) s c :
  (forall s, f s = mkShare (g (sa s)) (g (sb s))) ->
  rep3 s c -> rep3 (f <$> s) (g <$> c).
Proof. intros Hf Hs i. rewrite !tget_fmap, Hf, Hs. done. Qed.

Lemma valid3_map2 (g : Z -> Z -> Z) c d :
  (forall x y, valid T x -> valid T y -> valid T (g x y)) ->
  valid3 T c -> valid3 T d -> valid3 T (tmap2 g c d).
Proof. intros Hg Hc Hd i. unfold tmap2. rewrite tget_tof. auto. Qed.

(** Addition, subtraction and scaling of shares are local. *)
Lemma share_add_spec s r x y :
  shares_add T s x -> shares_add T r y ->
  shares_add T (tmap2 (share_add T) s r) (x +[T] y).
Proof.
  intros (c & Hs & Hc & <-) (d & Hr & Hd & <-).
  exists (tmap2 (re_add T) c d). split_and!.
  - by apply rep3_map2.
  - apply valid3_map2; [apply re_add_valid|done..].
  - symmetry. apply valid_eq_mod; [apply re_add_valid; [apply valid_mod..]|].
    simpl. rewrite re_add_ceq, !sum3_ceq. ring_ceq.
Qed.

Lemma share_sub_spec s r x y :
  shares_add T s x -> shares_add T r y ->
  shares_add T (tmap2 (share_sub T) s r) (x ⊖[T] y).
Proof.
  intros (c & Hs & Hc & <-) (d & Hr & Hd & <-).
  exists (tmap2 (re_sub T) c d). split_and!.
  - by apply rep3_map2.
  - apply valid3_map2; [apply re_sub_valid|done..].
  - symmetry. apply valid_eq_mod; [apply re_sub_valid; [apply valid_mod..]|].
    simpl. rewrite re_sub_ceq, !sum3_ceq. ring_ceq.
Qed.

Lemma share_scale_spec s x k :
  valid T k -> shares_add T s x ->
  shares_add T ((fun s => share_scale T s k) <$> s) (x *[T] k).
Proof.
  intros Hk (c & Hs & Hc & <-).
  exists ((fun z => z *[T] k) <$> c). split_and!.
  - by apply rep3_map.
  - intros i. rewrite tget_fmap. apply re_mul_valid; [apply Hc|done].
  - symmetry. apply valid_eq_mod; [apply re_mul_valid; [apply valid_mod|done]|].
    simpl. rewrite re_mul_ceq, !sum3_ceq. ring_ceq.
Qed.

Lemma share_neg_spec s x :
  shares_add T s x -> shares_add T (share_neg T <$> s) (re_neg T x).
Proof.
  intros (c & Hs & Hc & <-).
  exists (re_neg T <$> c). split_and!.
  - by apply rep3_map.
  - intros i. rewrite tget_fmap. apply re_neg_valid, Hc.
  - symmetry. apply valid_eq_mod; [apply re_neg_valid, valid_mod|].
    simpl. rewrite re_neg_ceq, !sum3_ceq. ring_ceq.
Qed.

(** Adding a public constant: only the two parties that hold the first
    component change it. *)
Lemma add_const_role_spec s x k (s' : tri Share) :
  valid T k -> shares_add T s x ->
  (forall i, add_assign_const_role T (s @ i) k (party_index i) = Ok (s' @ i)) ->
  shares_add T s' (x +[T] k).
Proof.
  intros Hk (c & Hs & Hc & <-) Hs'.
  exists (tset c ID0 (at0 c +[T] k)). split_and!.
  - intros i. specialize (Hs' i). rewrite Hs in Hs'.
    destruct i; simpl in Hs' |- *; injection Hs' as Hs'; rewrite <- Hs'; reflexivity.
  - intros []; simpl; [apply re_add_valid; [apply (Hc ID0)|done]|apply (Hc ID1)|apply (Hc ID2)].
  - symmetry. apply valid_eq_mod; [apply re_add_valid; [apply valid_mod|done]|].
    simpl. rewrite re_add_ceq, !sum3_ceq. ring_ceq.
Qed.

Lemma add_const_role_total s k i :
  exists s', add_assign_const_role T s k (party_index i) = Ok s'.
Proof. destruct i; eexists; reflexivity. Qed.

(** The local products of the three parties sum to the product. *)
Lemma share_mul_spec s r x y :
  shares_add T s x -> shares_add T r y ->
  at0 (tmap2 (share_mul T) s r) + at1 (tmap2 (share_mul T) s r)
    + at2 (tmap2 (share_mul T) s r) ==[2 ^ K T] x * y.
Proof.
  intros (c & Hs & Hc & <-) (d & Hr & Hd & <-). rewrite !sum3_ceq.
  simpl. rewrite (rep3_inv _ _ Hs), (rep3_inv _ _ Hr).
  unfold share_mul. simpl. ring_ceq.
Qed.
End Linear.

Section Binary.
Context {T : IntRing2k} {HT : IntRing2kOk T}.

Lemma share_xor_spec s r x y :
  shares_xor T s x -> shares_xor T r y ->
  shares_xor T (tmap2 (share_xor T) s r) (Z.lxor x y).
Proof.
  intros (c & Hs & Hc & <-) (d & Hr & Hd & <-).
  exists (tmap2 (re_xor T) c d). split_and!.
  - by apply rep3_map2.
  - apply valid3_map2; [apply re_xor_valid|done..].
  - unfold xor3, re_xor. simpl. rewrite !ir_xor_eq. xor_crush.
Qed.

(** NOT of all three components is NOT of the secret: three is odd. *)
Lemma share_not_spec s x :
  shares_xor T s x -> shares_xor T (share_not T <$> s) (re_not T x).
Proof.
  intros Hx. assert (valid T x) as Hvx by by eapply shares_xor_valid.
  destruct Hx as (c & Hs & Hc & <-).
  exists (re_not T <$> c). split_and!.
  - by apply rep3_map.
  - intros i. rewrite tget_fmap. apply re_not_valid, Hc.
  - rewrite re_not_xor by done. unfold xor3. simpl.
    rewrite !re_not_xor by first [apply (Hc ID0)|apply (Hc ID1)|apply (Hc ID2)|done].
    xor_crush.
Qed.

(** The local ANDs of the three parties XOR to the AND. *)
Lemma share_and_spec s r x y :
  shares_xor T s x -> shares_xor T r y ->
  xor3 (tmap2 (share_and T) s r) = Z.land x y.
Proof.
  intros (c & Hs & Hc & <-) (d & Hr & Hd & <-).
  unfold xor3. simpl. rewrite (rep3_inv _ _ Hs), (rep3_inv _ _ Hr).
  unfold share_and, re_xor, re_and. simpl. rewrite !ir_xor_eq, !ir_and_eq. xor_crush.
Qed.
End Binary.
