(* ===== verification/Galois.v ===== *)
(** * The Galois ring Z_(2^16)[x]/(x^4 - x - 1) and Shamir sharing over it:
    [ampc-secret-sharing/src/galois.rs] (module [degree4])

    Elements are four [u16] coefficients, tagged with the basis they are
    written in.  The random generator is a parameter: [rng_u16x4] stands for
    [rng.gen::<[u16; 4]>()] and [rng_u16] for [rng.gen::<u16>()]. *)

From S2P Require Import Prelude IntRing RingImpl Party.
From stdpp Require Import base list numbers strings.
From Stdlib Require Import ZArith Lia Ring.
Local Open Scope Z_scope.

(* galois.rs:7-19 Basis, A, B, Monomial *)
Inductive Basis := BasisA | BasisB | Monomial.

(* galois.rs:23-26 GaloisRingElement *)
Record GaloisRingElement (B : Basis) := mkG { g0 : Z; g1 : Z; g2 : Z; g3 : Z }.
Arguments mkG {B} _ _ _ _.
Arguments g0 {B} _.
Arguments g1 {B} _.
Arguments g2 {B} _.
Arguments g3 {B} _.

#[export] Instance Galois_eq_dec B : EqDecision (GaloisRingElement B).
Proof. solve_decision. Defined.

Definition wadd : Z -> Z -> Z := wrapping_add u16.
Definition wsub : Z -> Z -> Z := wrapping_sub u16.
Definition wmul : Z -> Z -> Z := wrapping_mul u16.
Definition wneg : Z -> Z := wrapping_neg u16.

(** Every coefficient is a [u16]. *)
Definition gvalid {B} (x : GaloisRingElement B) : Prop :=
  valid u16 (g0 x) /\ valid u16 (g1 x) /\ valid u16 (g2 x) /\ valid u16 (g3 x).

(* galois.rs:29-32 GaloisRingElement::ZERO *)
Definition ZERO : GaloisRingElement Monomial := mkG 0 0 0 0.
(* galois.rs:33-36 GaloisRingElement::ONE *)
Definition ONE : GaloisRingElement Monomial := mkG 1 0 0 0.
(* galois.rs:37-54 GaloisRingElement::EXCEPTIONAL_SEQUENCE *)
Definition EXCEPTIONAL_SEQUENCE : list (GaloisRingElement Monomial) :=
  [mkG 0 0 0 0; mkG 1 0 0 0; mkG 0 1 0 0; mkG 1 1 0 0;
   mkG 0 0 1 0; mkG 1 0 1 0; mkG 0 1 1 0; mkG 1 1 1 0;
   mkG 0 0 0 1; mkG 1 0 0 1; mkG 0 1 0 1; mkG 1 1 0 1;
   mkG 0 0 1 1; mkG 1 0 1 1; mkG 0 1 1 1; mkG 1 1 1 1].

(** [chunks_exact(4)]. *)
Fixpoint chunks_exact4 (x : list Z) : list (Z * Z * Z * Z) :=
  match x with a :: b :: c :: d :: x => (a, b, c, d) :: chunks_exact4 x | _ => [] end.

(* galois.rs:55-68 GaloisRingElement::encode1 *)
Definition encode1 (x : list Z) : option (list (GaloisRingElement Monomial)) :=
  if negb (length x mod 4 =? 0)%nat then None
  else Some ((fun '(a, b, c, d) => mkG a d c b) <$> chunks_exact4 x).

(* galois.rs:69-82 GaloisRingElement::encode2 *)
Definition encode2 (x : list Z) : option (list (GaloisRingElement Monomial)) :=
  if negb (length x mod 4 =? 0)%nat then None
  else Some ((fun '(a, b, c, d) => mkG a b c d) <$> chunks_exact4 x).

(* galois.rs:181-195 Add for GaloisRingElement *)
Definition gadd {B} (x y : GaloisRingElement B) : GaloisRingElement B :=
  mkG (wadd (g0 x) (g0 y)) (wadd (g1 x) (g1 y)) (wadd (g2 x) (g2 y)) (wadd (g3 x) (g3 y)).
(* galois.rs:197-211 Sub for GaloisRingElement *)
Definition gsub {B} (x y : GaloisRingElement B) : GaloisRingElement B :=
  mkG (wsub (g0 x) (g0 y)) (wsub (g1 x) (g1 y)) (wsub (g2 x) (g2 y)) (wsub (g3 x) (g3 y)).
(* galois.rs:213-227 Neg for GaloisRingElement *)
Definition gneg {B} (x : GaloisRingElement B) : GaloisRingElement B :=
  mkG (wneg (g0 x)) (wneg (g1 x)) (wneg (g2 x)) (wneg (g3 x)).

(* galois.rs:229-266 Mul for GaloisRingElement<Monomial> *)
Definition gmul (x y : GaloisRingElement Monomial) : GaloisRingElement Monomial :=
  mkG
    (wadd (wadd (wadd (wmul (g0 x) (g0 y)) (wmul (g1 x) (g3 y)))
       (wmul (g2 x) (g2 y))) (wmul (g3 x) (g1 y)))
    (wadd (wadd (wadd (wadd (wadd (wadd (wmul (g0 x) (g1 y)) (wmul (g1 x) (g0 y)))
       (wmul (g1 x) (g3 y))) (wmul (g2 x) (g2 y))) (wmul (g3 x) (g1 y)))
       (wmul (g2 x) (g3 y))) (wmul (g3 x) (g2 y)))
    (wadd (wadd (wadd (wadd (wadd (wmul (g0 x) (g2 y)) (wmul (g1 x) (g1 y)))
       (wmul (g2 x) (g0 y))) (wmul (g2 x) (g3 y))) (wmul (g3 x) (g2 y)))
       (wmul (g3 x) (g3 y)))
    (wadd (wadd (wadd (wadd (wmul (g0 x) (g3 y)) (wmul (g1 x) (g2 y)))
       (wmul (g2 x) (g1 y))) (wmul (g3 x) (g0 y))) (wmul (g3 x) (g3 y))).

(** The square-and-multiply loop; [fuel] counts iterations.  [exp] is a [u32]
    and halves each time, so 32 iterations reach [exp <= 1] ([pow_loop_spec]). *)
Fixpoint pow_loop (fuel : nat) (x y : GaloisRingElement Monomial) (exp : Z)
  : GaloisRingElement Monomial :=
  match fuel with
  | O => gmul x y
  | S fuel =>
      if 1 <? exp then
        let '(y, exp) := if exp mod 2 =? 1 then (gmul x y, exp - 1) else (y, exp) in
        pow_loop fuel (gmul x x) y (exp / 2)
      else gmul x y
  end.

(* galois.rs:110-125 GaloisRingElement::pow *)
Definition gpow (x : GaloisRingElement Monomial) (exp : Z) : GaloisRingElement Monomial :=
  if exp =? 0 then ONE else pow_loop 32 x ONE exp.

(* galois.rs:104-104 EXP *)
Definition EXP : Z := (2 ^ 4 - 1) * 2 ^ 15 - 1.

(* galois.rs:89-107 GaloisRingElement::inverse *)
Definition inverse (x : GaloisRingElement Monomial) : result (GaloisRingElement Monomial) :=
  if forallb (fun c => c mod 2 =? 0) [g0 x; g1 x; g2 x; g3 x] then
    panic "Element has no inverse"
  else Ok (gpow x EXP).

(* galois.rs:128-148 GaloisRingElement::to_basis_A *)
Definition to_basis_A (x : GaloisRingElement Monomial) : GaloisRingElement BasisA :=
  mkG (g0 x)
      (wadd (g1 x) (wmul (g0 x) 7454))
      (wadd (wadd (g2 x) (wmul (g0 x) 35057)) (wmul (g1 x) 40342))
      (wadd (wadd (wadd (g3 x) (wmul (g0 x) 37176)) (wmul (g1 x) 61738)) (wmul (g2 x) 8525)).

(* galois.rs:151-178 GaloisRingElement::to_basis_B *)
Definition to_basis_B (x : GaloisRingElement Monomial) : GaloisRingElement BasisB :=
  mkG (wadd (wadd (wadd (wmul (g0 x) 16038) (wmul (g1 x) 45700)) (wmul (g2 x) 28361)) (wmul (g3 x) 37176))
      (wadd (wadd (wadd (wmul (g0 x) 45700) (wmul (g1 x) 28361)) (wmul (g2 x) 37176)) (wmul (g3 x) 61738))
      (wadd (wadd (wadd (wmul (g0 x) 28361) (wmul (g1 x) 37176)) (wmul (g2 x) 61738)) (wmul (g3 x) 8525))
      (wadd (wadd (wadd (wmul (g0 x) 37176) (wmul (g1 x) 61738)) (wmul (g2 x) 8525)) (wmul (g3 x) 1)).

(* galois.rs:269-291 GaloisRingElement::to_monomial *)
Definition to_monomial (x : GaloisRingElement BasisA) : GaloisRingElement Monomial :=
  mkG (g0 x)
      (wadd (g1 x) (wmul (g0 x) 58082))
      (wadd (wadd (g2 x) (wmul (g0 x) 60579)) (wmul (g1 x) 25194))
      (wadd (wadd (wadd (g3 x) (wmul (g0 x) 17325)) (wmul (g1 x) 51956)) (wmul (g2 x) 57011)).

(** ** Shamir shares *)

(* galois.rs:310-313 ShamirGaloisRingShare *)
Record ShamirGaloisRingShare := mkShamir { sh_id : nat; sh_y : GaloisRingElement Monomial }.

Definition shamir_op (f : GaloisRingElement Monomial -> GaloisRingElement Monomial -> GaloisRingElement Monomial)
    (s r : ShamirGaloisRingShare) : result ShamirGaloisRingShare :=
  if (sh_id s =? sh_id r)%nat then Ok (mkShamir (sh_id s) (f (sh_y s) (sh_y r)))
  else panic "ids must be equal".

(* galois.rs:314-323 Add for ShamirGaloisRingShare *)
Definition shamir_add := shamir_op gadd.
(* galois.rs:324-333 Mul for ShamirGaloisRingShare *)
Definition shamir_mul := shamir_op gmul.
(* galois.rs:334-343 Sub for ShamirGaloisRingShare *)
Definition shamir_sub := shamir_op gsub.

(** [EXCEPTIONAL_SEQUENCE[i]]; every use below has [i < 16]. *)
Definition ES (i : nat) : GaloisRingElement Monomial := nth i EXCEPTIONAL_SEQUENCE ZERO.

Section Encode.
Context {R : Type} (rng_u16x4 : R -> (Z * Z * Z * Z) * R) (rng_u16 : R -> Z * R).

(* galois.rs:301-306 GaloisRingElement::random *)
Definition galois_random (rng : R) : GaloisRingElement Monomial * R :=
  let '((a, b, c, d), rng) := rng_u16x4 rng in (mkG a b c d, rng).

(* galois.rs:346-361 ShamirGaloisRingShare::encode_3 *)
Definition encode_3 (input : GaloisRingElement Monomial) (rng : R)
  : list ShamirGaloisRingShare * R :=
  let '(r, rng) := galois_random rng in
  ((fun i => mkShamir i (gadd input (gmul r (ES i)))) <$> seq 1 3, rng).

(* galois.rs:367-381 ShamirGaloisRingShare::encode_5 *)
Definition encode_5 (input : GaloisRingElement Monomial) (rng : R)
  : list ShamirGaloisRingShare * R :=
  let '(r, rng) := galois_random rng in
  let '(t, rng) := galois_random rng in
  ((fun index =>
      let id := (index + 1)%nat in
      let z := ES id in
      mkShamir id (gadd input (gmul (gadd r (gmul t z)) z))) <$> seq 0 5, rng).

Definition mul_x (a : GaloisRingElement Monomial) : GaloisRingElement Monomial :=
  mkG (g3 a) (wadd (g0 a) (g3 a)) (g1 a) (g2 a).

(* galois.rs:385-427 ShamirGaloisRingShare::encode_5_mat *)
Definition encode_5_mat (s : GaloisRingElement Monomial) (rng : R)
  : list ShamirGaloisRingShare * R :=
  let '(r, rng) := galois_random rng in
  let '(t, rng) := galois_random rng in
  let q := gadd r t in
  let tx := mul_x t in
  let txx := mul_x tx in
  let y1 := gadd s q in
  let y2 := gadd s (mul_x (gadd r tx)) in
  let y4 := gadd s (mul_x (mul_x (gadd r txx))) in
  let dx := gadd tx tx in
  let dxx := mul_x dx in
  let y3 := gadd (gadd y2 q) dx in
  let y5 := gadd (gadd y4 q) dxx in
  ([mkShamir 1 y1; mkShamir 2 y2; mkShamir 3 y3; mkShamir 4 y4; mkShamir 5 y5], rng).

(* galois.rs:429-471 ShamirGaloisRingShare::encode_3_mat *)
Definition encode_3_mat (input : GaloisRingElement Monomial) (rng : R)
  : list ShamirGaloisRingShare * R :=
  let '(i4, rng) := rng_u16 rng in
  let '(i5, rng) := rng_u16 rng in
  let '(i6, rng) := rng_u16 rng in
  let '(i7, rng) := rng_u16 rng in
  let y1 := mkG (wadd (g0 input) i4) (wadd (g1 input) i5) (wadd (g2 input) i6) (wadd (g3 input) i7) in
  let y2 := mkG (wadd (g0 input) i7) (wadd (wadd (g1 input) i4) i7)
                (wadd (g2 input) i5) (wadd (g3 input) i6) in
  let y3 := mkG (wadd (g0 y2) i4) (wadd (g1 y2) i5) (wadd (g2 y2) i6) (wadd (g3 y2) i7) in
  ([mkShamir 1 y1; mkShamir 2 y2; mkShamir 3 y3], rng).
End Encode.

(* galois.rs:473-486 ShamirGaloisRingShare::deg_1_lagrange_polys_at_zero *)
Definition deg_1_lagrange_polys_at_zero (my_id other_id : PartyID) : result (GaloisRingElement Monomial) :=
  let i := Z.to_nat (party_index my_id + 1) in
  let j := Z.to_nat (party_index other_id + 1) in
  let res := gmul ONE (gneg (ES j)) in
  inv ← inverse (gsub (ES i) (ES j));
  Ok (gmul res inv).

(* galois.rs:495-513 ShamirGaloisRingShare::deg_1_lagrange_poly_at_v *)
Definition deg_1_lagrange_poly_at_v (my_id other_id v : nat) : result (GaloisRingElement Monomial) :=
  if negb ((my_id <? 15) && (other_id <? 15) && (v <? 15))%nat then panic "assertion failed"
  else
    let i := (my_id + 1)%nat in
    let j := (other_id + 1)%nat in
    let v := (v + 1)%nat in
    let res := gsub (ES v) (ES j) in
    inv ← inverse (gsub (ES i) (ES j));
    Ok (gmul res inv).

(** The inner loop of [deg_k_lagrange_polys_at_zero] over [j]. *)
Fixpoint lagrange_inner (i : nat) (js : list nat) (acc : GaloisRingElement Monomial)
  : result (GaloisRingElement Monomial) :=
  match js with
  | [] => Ok acc
  | j :: js =>
      if (j =? i)%nat then lagrange_inner i js acc
      else
        let acc := gmul acc (gneg (ES j)) in
        inv ← inverse (gsub (ES i) (ES j));
        lagrange_inner i js (gmul acc inv)
  end.

(* galois.rs:528-546 ShamirGaloisRingShare::deg_k_lagrange_polys_at_zero *)
Definition deg_k_lagrange_polys_at_zero (N : nat) : result (list (GaloisRingElement Monomial)) :=
  if negb ((0 <? N) && (N <? length EXCEPTIONAL_SEQUENCE))%nat then
    panic "Lagrange interpolation requires between 1 and 15 nonzero evaluation points"
  else mapM_result (fun i => lagrange_inner i (seq 1 N) ONE) (seq 1 N).

(* galois.rs:491-493 ShamirGaloisRingShare::deg_4_lagrange_polys_at_zero *)
Definition deg_4_lagrange_polys_at_zero := deg_k_lagrange_polys_at_zero 5.
(* galois.rs:515-517 ShamirGaloisRingShare::deg_2_lagrange_polys_at_zero *)
Definition deg_2_lagrange_polys_at_zero := deg_k_lagrange_polys_at_zero 3.

(** [iter().map(..).reduce(|a, b| a + b).unwrap()]: an empty list panics. *)
Definition reduce_add (l : list (GaloisRingElement Monomial)) : result (GaloisRingElement Monomial) :=
  match l with
  | [] => panic "called `Option::unwrap()` on a `None` value"
  | x :: l => Ok (foldl gadd x l)
  end.

(** [s.y * lagrange[s.id - 1]]; the index panics when out of range. *)
Definition weigh (lagrange : list (GaloisRingElement Monomial)) (s : ShamirGaloisRingShare)
  : result (GaloisRingElement Monomial) :=
  if (sh_id s =? 0)%nat then panic "index out of bounds"
  else l ← index lagrange (sh_id s - 1); Ok (gmul (sh_y s) l).

Definition reconstruct (lagrange : result (list (GaloisRingElement Monomial)))
    (shares : list ShamirGaloisRingShare) : result (GaloisRingElement Monomial) :=
  l ← lagrange; terms ← mapM_result (weigh l) shares; reduce_add terms.

(* galois.rs:548-557 ShamirGaloisRingShare::reconstruct_deg_2_shares *)
Definition reconstruct_deg_2_shares := reconstruct deg_2_lagrange_polys_at_zero.
(* galois.rs:559-568 ShamirGaloisRingShare::reconstruct_deg_4_shares *)
Definition reconstruct_deg_4_shares := reconstruct deg_4_lagrange_polys_at_zero.

(** ** The commutative ring, modulo every power of two up to 2^16

    [geq n] compares coefficients modulo [2^n]; at [n = 16] it is equality of
    valid elements, at [n = 1] it is equality in the residue field GF(16). *)

Definition geq {B} (n : Z) (x y : GaloisRingElement B) : Prop :=
  g0 x ==[2 ^ n] g0 y /\ g1 x ==[2 ^ n] g1 y /\ g2 x ==[2 ^ n] g2 y /\ g3 x ==[2 ^ n] g3 y.

#[export] Instance geq_equiv B n : Equivalence (@geq B n).
Proof.
  unfold geq. split; red; intros.
  - done.
  - intuition (symmetry; eauto).
  - intuition (etrans; eauto).
Qed.

Lemma geq_16 {B} (x y : GaloisRingElement B) : gvalid x -> gvalid y -> geq 16 x y -> x = y.
Proof.
  destruct x, y. unfold gvalid, geq, valid. simpl. intros.
  destruct_and!. f_equal; by eapply ceq_small.
Qed.

Lemma wadd_valid a b : valid u16 (wadd a b).
Proof. by apply mod_pow2_range. Qed.
Lemma wmul_valid a b : valid u16 (wmul a b).
Proof. by apply mod_pow2_range. Qed.
Lemma wsub_valid a b : valid u16 (wsub a b).
Proof. by apply mod_pow2_range. Qed.
Lemma wneg_valid a : valid u16 (wneg a).
Proof. by apply mod_pow2_range. Qed.
#[export] Hint Resolve wadd_valid wmul_valid wsub_valid wneg_valid : valid.

Lemma gadd_valid {B} (x y : GaloisRingElement B) : gvalid (gadd x y).
Proof. unfold gvalid, gadd, gsub, gneg, gmul; cbn [g0 g1 g2 g3]; auto with valid. Qed.
Lemma gsub_valid {B} (x y : GaloisRingElement B) : gvalid (gsub x y).
Proof. unfold gvalid, gadd, gsub, gneg, gmul; cbn [g0 g1 g2 g3]; auto with valid. Qed.
Lemma gneg_valid {B} (x : GaloisRingElement B) : gvalid (gneg x).
Proof. unfold gvalid, gadd, gsub, gneg, gmul; cbn [g0 g1 g2 g3]; auto with valid. Qed.
Lemma gmul_valid x y : gvalid (gmul x y).
Proof. unfold gvalid, gadd, gsub, gneg, gmul; cbn [g0 g1 g2 g3]; auto with valid. Qed.
Lemma ONE_valid : gvalid ONE.
Proof. unfold gvalid, valid; simpl; lia. Qed.
#[export] Hint Resolve gadd_valid gsub_valid gneg_valid gmul_valid ONE_valid : valid.

Section GaloisRing.
Context (n : Z) (Hn : 0 <= n <= 16).

Lemma wadd_ceq a b : wadd a b ==[2 ^ n] a + b.
Proof using Hn. apply (ceq_pow_le n 16); [done|apply ceq_mod]. Qed.
Lemma wsub_ceq a b : wsub a b ==[2 ^ n] a - b.
Proof using Hn. apply (ceq_pow_le n 16); [done|apply ceq_mod]. Qed.
Lemma wmul_ceq a b : wmul a b ==[2 ^ n] a * b.
Proof using Hn. apply (ceq_pow_le n 16); [done|apply ceq_mod]. Qed.
Lemma wneg_ceq a : wneg a ==[2 ^ n] - a.
Proof using Hn. apply (ceq_pow_le n 16); [done|apply ceq_mod]. Qed.

Ltac coef_norm := repeat first
  [ setoid_rewrite wadd_ceq | setoid_rewrite wmul_ceq | setoid_rewrite wsub_ceq
  | setoid_rewrite wneg_ceq ].
Ltac coef_ring := coef_norm; apply ceq_eq; ring.

#[local] Instance wadd_proper : Proper (ceq (2 ^ n) ==> ceq (2 ^ n) ==> ceq (2 ^ n)) wadd.
Proof using Hn. intros a b H c d H'. rewrite !wadd_ceq. by rewrite H, H'. Qed.
#[local] Instance wmul_proper : Proper (ceq (2 ^ n) ==> ceq (2 ^ n) ==> ceq (2 ^ n)) wmul.
Proof using Hn. intros a b H c d H'. rewrite !wmul_ceq. by rewrite H, H'. Qed.
#[local] Instance wneg_proper : Proper (ceq (2 ^ n) ==> ceq (2 ^ n)) wneg.
Proof using Hn. intros a b H. rewrite !wneg_ceq. by rewrite H. Qed.

Lemma gadd_proper : Proper (geq n ==> geq n ==> geq n) (@gadd Monomial).
Proof using Hn.
  intros x y (?&?&?&?) x' y' (?&?&?&?). split_and!; simpl;
  by repeat match goal with H : _ ==[_] _ |- _ => rewrite H; clear H end.
Qed.
Lemma gneg_proper : Proper (geq n ==> geq n) (@gneg Monomial).
Proof using Hn.
  intros x y (?&?&?&?). split_and!; simpl;
  by repeat match goal with H : _ ==[_] _ |- _ => rewrite H; clear H end.
Qed.
Lemma gmul_proper : Proper (geq n ==> geq n ==> geq n) gmul.
Proof using Hn.
  intros x y (H0&H1&H2&H3) x' y' (H0'&H1'&H2'&H3'). split_and!; simpl;
  by rewrite H0, H1, H2, H3, H0', H1', H2', H3'.
Qed.

(** The source's product is commutative, associative and distributive. *)
Lemma galois_ring : ring_theory ZERO ONE (@gadd Monomial) gmul (@gsub Monomial) (@gneg Monomial) (geq n).
Proof using Hn. split; intros; split_and!; simpl; coef_ring. Qed.

Lemma galois_ring_ext : ring_eq_ext (@gadd Monomial) gmul (@gneg Monomial) (geq n).
Proof using Hn. split; [apply gadd_proper|apply gmul_proper|apply gneg_proper]. Qed.
End GaloisRing.

(** The ring at full precision, for [ring] and rewriting. *)
#[export] Instance gadd_proper16 : Proper (geq 16 ==> geq 16 ==> geq 16) (@gadd Monomial).
Proof. by apply gadd_proper. Qed.
#[export] Instance gmul_proper16 : Proper (geq 16 ==> geq 16 ==> geq 16) gmul.
Proof. by apply gmul_proper. Qed.
#[export] Instance gneg_proper16 : Proper (geq 16 ==> geq 16) (@gneg Monomial).
Proof. by apply gneg_proper. Qed.

Lemma galois_ring16 : ring_theory ZERO ONE (@gadd Monomial) gmul (@gsub Monomial) (@gneg Monomial) (geq 16).
Proof. by apply galois_ring. Qed.
Lemma galois_ring16_ext : ring_eq_ext (@gadd Monomial) gmul (@gneg Monomial) (geq 16).
Proof. by apply galois_ring_ext. Qed.
Add Ring galois_ring16_tac : galois_ring16 (setoid (geq_equiv Monomial 16) galois_ring16_ext).

(** Push the [u16] operations of a congruence modulo 2^16 to the integers. *)
Lemma wadd_ceq16 a b : wadd a b ==[2 ^ 16] a + b.
Proof. by apply wadd_ceq. Qed.
Lemma wmul_ceq16 a b : wmul a b ==[2 ^ 16] a * b.
Proof. by apply wmul_ceq. Qed.
Lemma wadd_cong a b a' b' : a ==[2 ^ 16] a' -> b ==[2 ^ 16] b' -> wadd a b ==[2 ^ 16] a' + b'.
Proof. intros Ha Hb. rewrite wadd_ceq16. by rewrite Ha, Hb. Qed.
Lemma wmul_cong a b a' b' : a ==[2 ^ 16] a' -> b ==[2 ^ 16] b' -> wmul a b ==[2 ^ 16] a' * b'.
Proof. intros Ha Hb. rewrite wmul_ceq16. by rewrite Ha, Hb. Qed.
Lemma ceq_sandwich n a b a' b' : a ==[n] a' -> b ==[n] b' -> a' ==[n] b' -> a ==[n] b.
Proof. intros Ha Hb H. by rewrite Ha, Hb. Qed.
Ltac coef_norm16 := eapply ceq_sandwich;
  [repeat first [apply wadd_cong | apply wmul_cong | reflexivity]
  |repeat first [apply wadd_cong | apply wmul_cong | reflexivity]|].
Ltac coef_ring16 := coef_norm16; apply ceq_eq; ring.

(** ** Exponentiation and inversion *)

Fixpoint gpow_ref (x : GaloisRingElement Monomial) (k : nat) : GaloisRingElement Monomial :=
  match k with O => ONE | S k => gmul x (gpow_ref x k) end.

Lemma gpow_ref_add x k l : geq 16 (gpow_ref x (k + l)) (gmul (gpow_ref x k) (gpow_ref x l)).
Proof. induction k as [|k IH]; simpl; [ring|]. rewrite IH. ring. Qed.

Lemma gpow_ref_mul x k l : geq 16 (gpow_ref x (k * l)) (gpow_ref (gpow_ref x l) k).
Proof. induction k as [|k IH]; simpl; [done|]. rewrite gpow_ref_add, IH. ring. Qed.

Lemma gpow_ref_square x k : geq 16 (gpow_ref (gmul x x) k) (gpow_ref x (2 * k)).
Proof.
  induction k as [|k IH]; [done|]. replace (2 * S k)%nat with (S (S (2 * k))) by lia.
  cbn [gpow_ref]. rewrite IH. ring.
Qed.

Lemma pow_loop_spec fuel x y e :
  1 <= e < 2 ^ (Z.of_nat fuel + 1) ->
  geq 16 (pow_loop fuel x y e) (gmul (gpow_ref x (Z.to_nat e)) y).
Proof.
  revert x y e. induction fuel as [|fuel IH]; intros x y e He.
  { assert (e = 1) as -> by (simpl in He; lia). simpl. ring. }
  cbn [pow_loop]. destruct (Z.ltb_spec 1 e).
  2:{ assert (e = 1) as -> by lia. simpl. ring. }
  rewrite Nat2Z.inj_succ in He. replace (Z.succ (Z.of_nat fuel) + 1) with (Z.succ (Z.of_nat fuel + 1)) in He by lia.
  rewrite Z.pow_succ_r in He by lia.
  destruct (Z.eqb_spec (e mod 2) 1) as [Hodd|Heven].
  - rewrite IH by (Z.div_mod_to_equations; lia). rewrite gpow_ref_square.
    replace (Z.to_nat e) with (S (2 * Z.to_nat ((e - 1) / 2)))
      by (Z.div_mod_to_equations; lia).
    cbn [gpow_ref]. ring.
  - rewrite IH by (Z.div_mod_to_equations; lia). rewrite gpow_ref_square.
    replace (Z.to_nat e) with (2 * Z.to_nat (e / 2))%nat by (Z.div_mod_to_equations; lia).
    ring.
Qed.

(** The [u32] square-and-multiply computes the power. *)
Lemma gpow_spec x e : 0 <= e < 2 ^ 32 -> geq 16 (gpow x e) (gpow_ref x (Z.to_nat e)).
Proof.
  intros He. unfold gpow. destruct (Z.eqb_spec e 0) as [->|]; [done|].
  rewrite pow_loop_spec by (simpl; lia). ring.
Qed.

Lemma geq_le {B} m n (x y : GaloisRingElement B) : 0 <= m <= n -> geq n x y -> geq m x y.
Proof. intros Hm (?&?&?&?). unfold geq. split_and!; by apply (ceq_pow_le m n). Qed.

Lemma gpow_ref_proper n k x y :
  0 <= n <= 16 -> geq n x y -> geq n (gpow_ref x k) (gpow_ref y k).
Proof. intros Hn H. induction k; simpl; [done|]. by apply gmul_proper. Qed.

Definition parity (x : GaloisRingElement Monomial) : GaloisRingElement Monomial :=
  mkG (g0 x mod 2) (g1 x mod 2) (g2 x mod 2) (g3 x mod 2).

Lemma parity_geq x : geq 1 x (parity x).
Proof. unfold geq. change (2 ^ 1) with 2. simpl. by rewrite !ceq_mod. Qed.

(** In GF(16) every non-zero element has order dividing 15. *)
Lemma residue_order x :
  forallb (fun c => c mod 2 =? 0) [g0 x; g1 x; g2 x; g3 x] = false ->
  geq 1 (gpow_ref x 15) ONE.
Proof.
  intros Hx. rewrite (gpow_ref_proper 1 15 x (parity x)) by (lia || apply parity_geq).
  unfold parity. simpl in Hx.
  pose proof (Z.mod_pos_bound (g0 x) 2). pose proof (Z.mod_pos_bound (g1 x) 2).
  pose proof (Z.mod_pos_bound (g2 x) 2). pose proof (Z.mod_pos_bound (g3 x) 2).
  assert (g0 x mod 2 = 0 \/ g0 x mod 2 = 1) as [E0|E0] by lia;
  assert (g1 x mod 2 = 0 \/ g1 x mod 2 = 1) as [E1|E1] by lia;
  assert (g2 x mod 2 = 0 \/ g2 x mod 2 = 1) as [E2|E2] by lia;
  assert (g3 x mod 2 = 0 \/ g3 x mod 2 = 1) as [E3|E3] by lia;
  rewrite E0, E1, E2, E3 in *; try discriminate Hx; vm_compute; done.
Qed.

(** Squaring doubles the precision of an approximate one. *)
Lemma square_lift k y : 1 <= k -> k + 1 <= 16 -> geq k y ONE -> geq (k + 1) (gmul y y) ONE.
Proof.
  intros Hk1 Hk (H0 & H1 & H2 & H3). simpl in *.
  assert (2 ^ k <> 0) by (apply Z.pow_nonzero; lia).
  rewrite ceq_iff in H0, H1, H2, H3 by done.
  destruct H0 as [a H0], H1 as [b H1], H2 as [c H2], H3 as [d H3].
  assert (g0 y = 1 + a * 2 ^ k) as E0 by lia. assert (g1 y = b * 2 ^ k) as E1 by lia.
  assert (g2 y = c * 2 ^ k) as E2 by lia. assert (g3 y = d * 2 ^ k) as E3 by lia.
  assert (2 ^ k = 2 * 2 ^ (k - 1)) as EP by (rewrite <- Z.pow_succ_r by lia; f_equal; lia).
  assert (2 ^ (k + 1) = 4 * 2 ^ (k - 1)) as EP1
    by (rewrite Z.pow_add_r, EP by lia; lia).
  set (Q := 2 ^ (k - 1)) in *.
  assert (forall p q, p - q = (p - q)) as _ by done.
  unfold geq; cbn [gmul g0 g1 g2 g3 ONE].
  split_and!; repeat first [rewrite (wadd_ceq (k + 1)) by lia | rewrite (wmul_ceq (k + 1)) by lia];
    rewrite EP1; apply ceq_iff; try lia; rewrite E0, E1, E2, E3, EP.
  - exists (a + Q * (a * a + 2 * b * d + c * c)). ring.
  - exists (b + Q * (2 * a * b + 2 * b * d + c * c + 2 * c * d)). ring.
  - exists (c + Q * (2 * a * c + b * b + 2 * c * d + d * d)). ring.
  - exists (d + Q * (2 * a * d + 2 * b * c + d * d)). ring.
Qed.

Lemma iterate_square m y :
  (m <= 15)%nat -> geq 1 y ONE -> geq (1 + Z.of_nat m) (gpow_ref y (2 ^ m)) ONE.
Proof.
  intros Hm Hy. induction m as [|m IH].
  { simpl. destruct Hy as (?&?&?&?). change (1 + Z.of_nat 0) with 1.
    rewrite (gpow_ref_proper 1 1 y ONE); [vm_compute; done|lia|done]. }
  replace (1 + Z.of_nat (S m)) with (1 + Z.of_nat m + 1) by lia.
  etrans; [|apply square_lift; [lia..|apply IH; lia]].
  apply (geq_le _ 16); [lia|]. replace (2 ^ S m)%nat with (2 ^ m + 2 ^ m)%nat by (simpl; lia).
  apply gpow_ref_add.
Qed.

Lemma exp_succ : (2 ^ 15 * 15 = Z.to_nat EXP + 1)%nat.
Proof.
  apply Nat2Z.inj. rewrite Nat2Z.inj_add, Nat2Z.inj_mul, Nat2Z.inj_pow, Z2Nat.id by done.
  reflexivity.
Qed.

(** Every element with an odd coefficient has order dividing [EXP + 1]. *)
Lemma unit_order x :
  forallb (fun c => c mod 2 =? 0) [g0 x; g1 x; g2 x; g3 x] = false ->
  geq 16 (gmul (gpow_ref x (Z.to_nat EXP)) x) ONE.
Proof.
  intros Hx. etrans; [|apply (iterate_square 15 (gpow_ref x 15)); [lia|by apply residue_order]].
  rewrite <- gpow_ref_mul.
  rewrite exp_succ, gpow_ref_add. generalize (gpow_ref x (Z.to_nat EXP)). intros. cbn [gpow_ref]. ring.
Qed.

Lemma inverse_unit x :
  forallb (fun c => c mod 2 =? 0) [g0 x; g1 x; g2 x; g3 x] = false ->
  exists y, inverse x = Ok y /\ gmul y x = ONE.
Proof.
  intros Hx. unfold inverse. rewrite Hx. eexists. split; [done|].
  apply geq_16; [auto with valid..|]. rewrite gpow_spec by (unfold EXP; lia).
  by apply unit_order.
Qed.

(** Inversion in the Galois ring is total and exact.  For an element with
    an odd coefficient, [inverse] (a power of the element, exponent
    15 * 2^15 - 1) returns an element whose product with it is one; for an
    element with only even coefficients it panics, and no inverse exists. *)
Theorem inverse_correct x :
  (exists y, inverse x = Ok y /\ gmul y x = ONE) \/
  (inverse x = panic "Element has no inverse" /\ forall y, gmul y x <> ONE).
Proof.
  destruct (forallb (fun c => c mod 2 =? 0) [g0 x; g1 x; g2 x; g3 x]) eqn:Hx.
  2:{ left. by apply inverse_unit. }
  right. split; [unfold inverse; by rewrite Hx|]. intros y Hy.
  assert (geq 1 (gmul y (parity x)) ONE) as (H0 & _).
  { rewrite <- Hy. apply gmul_proper; [lia|done|]. symmetry. apply parity_geq. }
  simpl in Hx. rewrite !andb_true_iff, !Z.eqb_eq in Hx. destruct Hx as (E0 & E1 & E2 & E3 & _).
  cbn [gmul parity g0 g1 g2 g3 ONE] in H0. rewrite E0, E1, E2, E3 in H0.
  unfold wmul, wadd in H0. simpl in H0. rewrite !Z.mul_0_r in H0. vm_compute in H0. done.
Qed.

(** ** Interpolation *)

Lemma deg_2_lagrange : exists L1 L2 L3,
  deg_2_lagrange_polys_at_zero = Ok [L1; L2; L3] /\
  geq 16 (gadd (gadd L1 L2) L3) ONE /\
  geq 16 (gadd (gadd (gmul L1 (ES 1)) (gmul L2 (ES 2))) (gmul L3 (ES 3))) ZERO /\
  geq 16 (gadd (gadd (gmul L1 (gmul (ES 1) (ES 1))) (gmul L2 (gmul (ES 2) (ES 2))))
            (gmul L3 (gmul (ES 3) (ES 3)))) ZERO.
Proof. eexists _, _, _. split; [vm_compute; reflexivity|]. vm_compute. done. Qed.

Definition moment5 (L1 L2 L3 L4 L5 : GaloisRingElement Monomial) (d : nat) :=
  gadd (gadd (gadd (gadd (gmul L1 (gpow_ref (ES 1) d)) (gmul L2 (gpow_ref (ES 2) d)))
    (gmul L3 (gpow_ref (ES 3) d))) (gmul L4 (gpow_ref (ES 4) d))) (gmul L5 (gpow_ref (ES 5) d)).

Lemma deg_4_lagrange : exists L1 L2 L3 L4 L5,
  deg_4_lagrange_polys_at_zero = Ok [L1; L2; L3; L4; L5] /\
  geq 16 (moment5 L1 L2 L3 L4 L5 0) ONE /\
  geq 16 (moment5 L1 L2 L3 L4 L5 1) ZERO /\ geq 16 (moment5 L1 L2 L3 L4 L5 2) ZERO /\
  geq 16 (moment5 L1 L2 L3 L4 L5 3) ZERO /\ geq 16 (moment5 L1 L2 L3 L4 L5 4) ZERO.
Proof. eexists _, _, _, _, _. split; [vm_compute; reflexivity|]. vm_compute. done. Qed.

(** Multiplying two sharings share by share, as each party does locally. *)
Definition shamir_mul_all (s r : list ShamirGaloisRingShare) : result (list ShamirGaloisRingShare) :=
  mapM_result (fun '(x, y) => shamir_mul x y) (zip s r).

Section Sharing.
Context {R : Type} (rng_u16x4 : R -> (Z * Z * Z * Z) * R) (rng_u16 : R -> Z * R).

(** Three-party Shamir sharing is multiplicative: the local products of
    two [encode_3] sharings reconstruct, through the degree-2 Lagrange
    coefficients, to the product of the two secrets, whatever the
    randomness. *)
Theorem encode_3_product a b rng1 rng2 :
  exists ps,
    shamir_mul_all (encode_3 rng_u16x4 a rng1).1 (encode_3 rng_u16x4 b rng2).1 = Ok ps /\
    reconstruct_deg_2_shares ps = Ok (gmul a b).
Proof.
  unfold encode_3. destruct (galois_random rng_u16x4 rng1) as [r1 ?].
  destruct (galois_random rng_u16x4 rng2) as [r2 ?].
  eexists. split; [reflexivity|].
  destruct deg_2_lagrange as (L1 & L2 & L3 & HL & M0 & M1 & M2).
  unfold reconstruct_deg_2_shares, reconstruct. rewrite HL. cbn -[gadd gmul ES]. f_equal.
  apply geq_16; [auto with valid..|].
  revert M1 M2. generalize (ES 1) (ES 2) (ES 3). intros z1 z2 z3 M1 M2.
  transitivity (gadd (gadd (gmul (gmul a b) (gadd (gadd L1 L2) L3))
    (gmul (gadd (gmul a r2) (gmul r1 b)) (gadd (gadd (gmul L1 z1) (gmul L2 z2)) (gmul L3 z3))))
    (gmul (gmul r1 r2) (gadd (gadd (gmul L1 (gmul z1 z1)) (gmul L2 (gmul z2 z2))) (gmul L3 (gmul z3 z3))))).
  - ring.
  - rewrite M0, M1, M2. ring.
Qed.

Lemma encode_5_poly_product a b r1 t1 r2 t2 z :
  geq 16 (gmul (gadd a (gmul (gadd r1 (gmul t1 z)) z)) (gadd b (gmul (gadd r2 (gmul t2 z)) z)))
    (gadd (gadd (gadd (gadd (gmul (gmul a b) (gpow_ref z 0))
      (gmul (gadd (gmul a r2) (gmul r1 b)) (gpow_ref z 1)))
      (gmul (gadd (gadd (gmul a t2) (gmul t1 b)) (gmul r1 r2)) (gpow_ref z 2)))
      (gmul (gadd (gmul r1 t2) (gmul t1 r2)) (gpow_ref z 3)))
      (gmul (gmul t1 t2) (gpow_ref z 4))).
Proof. cbn [gpow_ref]. ring. Qed.

(** Five-party sharing is multiplicative: the local products of two
    [encode_5] sharings (degree 2 each) reconstruct through the degree-4
    Lagrange coefficients to the product of the secrets. *)
Theorem encode_5_product a b rng1 rng2 :
  exists ps,
    shamir_mul_all (encode_5 rng_u16x4 a rng1).1 (encode_5 rng_u16x4 b rng2).1 = Ok ps /\
    reconstruct_deg_4_shares ps = Ok (gmul a b).
Proof.
  unfold encode_5. destruct (galois_random rng_u16x4 rng1) as [r1 rng1'].
  destruct (galois_random rng_u16x4 rng1') as [t1 ?].
  destruct (galois_random rng_u16x4 rng2) as [r2 rng2'].
  destruct (galois_random rng_u16x4 rng2') as [t2 ?].
  eexists. split; [reflexivity|].
  destruct deg_4_lagrange as (L1 & L2 & L3 & L4 & L5 & HL & M0 & M1 & M2 & M3 & M4).
  unfold reconstruct_deg_4_shares, reconstruct. rewrite HL. cbn -[gadd gmul ES]. f_equal.
  apply geq_16; [auto with valid..|]. rewrite !encode_5_poly_product.
  transitivity (gadd (gadd (gadd (gadd
    (gmul (gmul a b) (moment5 L1 L2 L3 L4 L5 0))
    (gmul (gadd (gmul a r2) (gmul r1 b)) (moment5 L1 L2 L3 L4 L5 1)))
    (gmul (gadd (gadd (gmul a t2) (gmul t1 b)) (gmul r1 r2)) (moment5 L1 L2 L3 L4 L5 2)))
    (gmul (gadd (gmul r1 t2) (gmul t1 r2)) (moment5 L1 L2 L3 L4 L5 3)))
    (gmul (gmul t1 t2) (moment5 L1 L2 L3 L4 L5 4))).
  - unfold moment5. ring.
  - rewrite M0, M1, M2, M3, M4. ring.
Qed.

(** Multiplication by [X] costs one addition. *)
Lemma mul_x_spec x : geq 16 (mul_x x) (gmul x (ES 2)).
Proof.
  unfold geq. cbn [mul_x gmul ES nth EXCEPTIONAL_SEQUENCE g0 g1 g2 g3].
  split_and!; coef_ring16.
Qed.

#[local] Instance mul_x_proper : Proper (geq 16 ==> geq 16) mul_x.
Proof. intros x y H. rewrite !mul_x_spec. by rewrite H. Qed.

(** Compare two share lists point by point. *)
Ltac shares_cong t :=
  first [ reflexivity
        | apply (f_equal2 cons); [apply (f_equal (mkShamir _)); t | shares_cong t] ].

Lemma ES_1 : ES 1 = ONE.
Proof. done. Qed.
Lemma ES_3 : ES 3 = gadd ONE (ES 2).
Proof. done. Qed.
Lemma ES_4 : ES 4 = gmul (ES 2) (ES 2).
Proof. done. Qed.
Lemma ES_5 : ES 5 = gadd ONE (ES 4).
Proof. done. Qed.

(** The 50-addition circuit of [encode_5_mat] computes exactly the shares
    of [encode_5] on the same input and generator, and leaves the generator
    in the same state. *)
Theorem encode_5_mat_correct a rng :
  encode_5_mat rng_u16x4 a rng = encode_5 rng_u16x4 a rng.
Proof.
  unfold encode_5_mat, encode_5. destruct (galois_random rng_u16x4 rng) as [r rng'].
  destruct (galois_random rng_u16x4 rng') as [t rng'']. f_equal.
  cbn -[gadd gmul ES mul_x].
  shares_cong ltac:(apply geq_16; [auto with valid..|];
    repeat setoid_rewrite mul_x_spec; rewrite ?ES_5, ?ES_4, ?ES_3, ?ES_1; generalize (ES 2); intros; ring).
Qed.

(** [encode_3_mat] produces the three evaluations [s + r z] at the points
    1, X and 1 + X of the polynomial whose coefficient [r] is made of the
    four values it draws. *)
Theorem encode_3_mat_correct a rng :
  let '(i4, rng1) := rng_u16 rng in let '(i5, rng2) := rng_u16 rng1 in
  let '(i6, rng3) := rng_u16 rng2 in let '(i7, rng4) := rng_u16 rng3 in
  encode_3_mat rng_u16 a rng =
    ((fun i => mkShamir i (gadd a (gmul (mkG i4 i5 i6 i7) (ES i)))) <$> seq 1 3, rng4).
Proof.
  unfold encode_3_mat.
  destruct (rng_u16 rng) as [i4 rng1], (rng_u16 rng1) as [i5 rng2],
    (rng_u16 rng2) as [i6 rng3], (rng_u16 rng3) as [i7 rng4].
  f_equal. cbn -[gadd gmul ES wadd].
  shares_cong ltac:(apply geq_16; [unfold gvalid; cbn -[wadd]; auto with valid| auto with valid|];
    unfold geq; cbn [gadd gmul ES nth EXCEPTIONAL_SEQUENCE g0 g1 g2 g3];
    split_and!; coef_ring16).
Qed.
End Sharing.

(** C37: A single share of [encode_3] reveals nothing.  For each of the three
    points, every secret and every share value, exactly one valid randomness
    makes [encode_3] hand out that value as the share, so the share is
    distributed independently of the secret. *)
Theorem encode_3_hiding (k : nat) s y :
  (k < 3)%nat -> gvalid y ->
  exists r : GaloisRingElement Monomial, gvalid r /\ forall r' : GaloisRingElement Monomial, gvalid r' ->
    (sh_y <$> (encode_3 (fun _ : unit => ((g0 r', g1 r', g2 r', g3 r'), tt)) s tt).1 !! k = Some y
     <-> r' = r).
Proof.
  intros Hk Hy.
  destruct (inverse_unit (ES (S k))) as (v & _ & Hv).
  { destruct k as [|[|[|]]]; done || lia. }
  exists (gmul (gsub y s) v). split; [auto with valid|]. intros r' Hr'.
  assert ((sh_y <$> (encode_3 (fun _ : unit => ((g0 r', g1 r', g2 r', g3 r'), tt)) s tt).1 !! k)
          = Some (gadd s (gmul r' (ES (S k))))) as ->.
  { destruct r'. destruct k as [|[|[|]]]; done || lia. }
  assert (geq 16 (gmul v (ES (S k))) ONE) as Hv' by by rewrite Hv.
  generalize dependent (ES (S k)). intros z _ Hv'. split.
  - intros [= <-]. apply geq_16; [auto with valid..|].
    transitivity (gmul r' (gmul v z)); [rewrite Hv'|]; ring.
  - intros ->. f_equal. apply geq_16; [auto with valid..|].
    transitivity (gadd s (gmul (gsub y s) (gmul v z))); [ring|rewrite Hv'; ring].
Qed.

Lemma encode_3_hiding_witness :
  exists r : GaloisRingElement Monomial, gvalid r /\ forall r' : GaloisRingElement Monomial, gvalid r' ->
    (sh_y <$> (encode_3 (fun _ : unit => ((g0 r', g1 r', g2 r', g3 r'), tt)) (mkG 5 6 7 8) tt).1 !! 1%nat
       = Some (mkG 1 2 3 4) <-> r' = r).
Proof. apply (encode_3_hiding 1 (mkG 5 6 7 8) (mkG 1 2 3 4)); [lia|unfold gvalid, valid; simpl; lia]. Defined.

(** ** Basis conversion *)

Definition dot {B C} (x : GaloisRingElement B) (y : GaloisRingElement C) : Z :=
  wadd (wadd (wadd (wmul (g0 x) (g0 y)) (wmul (g1 x) (g1 y))) (wmul (g2 x) (g2 y))) (wmul (g3 x) (g3 y)).

(** Decide a congruence mod 2^16 between polynomials with integer constants:
    every coefficient of the difference is a multiple of 65536. *)
Ltac divide_coef :=
  lazymatch goal with
  | |- (_ | 0) => apply Z.divide_0_r
  | |- (_ | _ + _) => apply Z.divide_add_r; divide_coef
  | |- (_ | _ - _) => apply Z.divide_sub_r; divide_coef
  | |- (_ | - _) => apply Z.divide_opp_r; divide_coef
  | |- (_ | _ * _) => apply Z.divide_mul_l; divide_coef
  | |- (?m | ?c) => let q := eval vm_compute in (c / m) in exists q; vm_compute; reflexivity
  end.
Ltac poly_ceq16 :=
  change (2 ^ 16) with 65536; apply ceq_iff; [lia|];
  match goal with |- (_ | ?e) => ring_simplify e end; divide_coef.

Lemma gmul_ceq u v :
  g0 (gmul u v) ==[2 ^ 16] g0 u * g0 v + g1 u * g3 v + g2 u * g2 v + g3 u * g1 v /\
  g1 (gmul u v) ==[2 ^ 16] g0 u * g1 v + g1 u * g0 v + g1 u * g3 v + g2 u * g2 v + g3 u * g1 v
                            + g2 u * g3 v + g3 u * g2 v /\
  g2 (gmul u v) ==[2 ^ 16] g0 u * g2 v + g1 u * g1 v + g2 u * g0 v + g2 u * g3 v + g3 u * g2 v + g3 u * g3 v /\
  g3 (gmul u v) ==[2 ^ 16] g0 u * g3 v + g1 u * g2 v + g2 u * g1 v + g3 u * g0 v + g3 u * g3 v.
Proof. split_and!; cbn [gmul g0 g1 g2 g3]; coef_ring16. Qed.

Lemma to_monomial_ceq x :
  g0 (to_monomial x) ==[2 ^ 16] g0 x /\
  g1 (to_monomial x) ==[2 ^ 16] g1 x + g0 x * 58082 /\
  g2 (to_monomial x) ==[2 ^ 16] g2 x + g0 x * 60579 + g1 x * 25194 /\
  g3 (to_monomial x) ==[2 ^ 16] g3 x + g0 x * 17325 + g1 x * 51956 + g2 x * 57011.
Proof. split_and!; cbn [to_monomial g0 g1 g2 g3]; [done|coef_ring16..]. Qed.

Lemma to_basis_A_ceq x :
  g0 (to_basis_A x) ==[2 ^ 16] g0 x /\
  g1 (to_basis_A x) ==[2 ^ 16] g1 x + g0 x * 7454 /\
  g2 (to_basis_A x) ==[2 ^ 16] g2 x + g0 x * 35057 + g1 x * 40342 /\
  g3 (to_basis_A x) ==[2 ^ 16] g3 x + g0 x * 37176 + g1 x * 61738 + g2 x * 8525.
Proof. split_and!; cbn [to_basis_A g0 g1 g2 g3]; [done|coef_ring16..]. Qed.

Lemma to_basis_B_ceq x :
  g0 (to_basis_B x) ==[2 ^ 16] g0 x * 16038 + g1 x * 45700 + g2 x * 28361 + g3 x * 37176 /\
  g1 (to_basis_B x) ==[2 ^ 16] g0 x * 45700 + g1 x * 28361 + g2 x * 37176 + g3 x * 61738 /\
  g2 (to_basis_B x) ==[2 ^ 16] g0 x * 28361 + g1 x * 37176 + g2 x * 61738 + g3 x * 8525 /\
  g3 (to_basis_B x) ==[2 ^ 16] g0 x * 37176 + g1 x * 61738 + g2 x * 8525 + g3 x.
Proof. split_and!; cbn [to_basis_B g0 g1 g2 g3]; coef_ring16. Qed.

Lemma dot_ceq {B C} (x : GaloisRingElement B) (y : GaloisRingElement C) :
  dot x y ==[2 ^ 16] g0 x * g0 y + g1 x * g1 y + g2 x * g2 y + g3 x * g3 y.
Proof. unfold dot. coef_ring16. Qed.

(** Replace the coefficients of [e] by their integer polynomials. *)
Ltac coefs H := let H0 := fresh in let H1 := fresh in let H2 := fresh in let H3 := fresh in
  pose proof H as (H0 & H1 & H2 & H3); rewrite ?H0, ?H1, ?H2, ?H3; clear H0 H1 H2 H3.

(** (S*S)^-1 S is the transpose of S^-1. *)
Lemma basis_B_monomial_ceq x :
  g0 (to_basis_B (to_monomial x)) ==[2 ^ 16] g0 x + g1 x * 7454 + g2 x * 35057 + g3 x * 37176 /\
  g1 (to_basis_B (to_monomial x)) ==[2 ^ 16] g1 x + g2 x * 40342 + g3 x * 61738 /\
  g2 (to_basis_B (to_monomial x)) ==[2 ^ 16] g2 x + g3 x * 8525 /\
  g3 (to_basis_B (to_monomial x)) ==[2 ^ 16] g3 x.
Proof.
  split_and!; coefs (to_basis_B_ceq (to_monomial x)); coefs (to_monomial_ceq x); poly_ceq16.
Qed.

Lemma basis_B_dot x y : dot (to_basis_B (to_monomial x)) (to_monomial y) ==[2 ^ 16] dot x y.
Proof.
  rewrite !dot_ceq. coefs (basis_B_monomial_ceq x). coefs (to_monomial_ceq y). poly_ceq16.
Qed.

(** Coefficient 0 in basis B of a product is the inner product of one factor
    in basis B with the other in monomials. *)
Lemma basis_B_mul u v : g0 (to_basis_B (gmul u v)) ==[2 ^ 16] dot (to_basis_B u) v.
Proof.
  rewrite dot_ceq. coefs (to_basis_B_ceq (gmul u v)). coefs (gmul_ceq u v).
  coefs (to_basis_B_ceq u). poly_ceq16.
Qed.

Lemma basis_B_product x y :
  g0 (to_basis_B (gmul (to_monomial x) (to_monomial y))) ==[2 ^ 16] dot x y.
Proof. rewrite basis_B_mul. apply basis_B_dot. Qed.

Lemma basis_A_monomial x : geq 16 (to_basis_A (to_monomial x)) x.
Proof.
  unfold geq. split_and!; coefs (to_basis_A_ceq (to_monomial x)); coefs (to_monomial_ceq x); poly_ceq16.
Qed.

(** Basis conversion preserves inner products: converting two vectors from
    basis A to monomials, multiplying in the ring and reading coefficient 0 in
    basis B yields their inner product mod 2^16; converting only one of them
    to basis B and taking the coefficientwise inner product does too; and
    [to_basis_A] undoes [to_monomial]. *)
Theorem basis_conversion (x y : GaloisRingElement BasisA) :
  g0 (to_basis_B (gmul (to_monomial x) (to_monomial y))) = dot x y /\
  dot (to_basis_B (to_monomial x)) (to_monomial y) = dot x y /\
  (gvalid x -> to_basis_A (to_monomial x) = x).
Proof.
  split_and!.
  - apply (valid_eq (T:=u16)); [apply wadd_valid..|apply basis_B_product].
  - apply (valid_eq (T:=u16)); [apply wadd_valid..|apply basis_B_dot].
  - intros Hx. apply geq_16; [|done|apply basis_A_monomial].
    destruct Hx as (H0 & _). split_and!; [exact H0|apply wadd_valid..].
Qed.

Lemma basis_conversion_witness :
  to_basis_A (to_monomial (mkG 1 2 3 65535)) = mkG 1 2 3 65535.
Proof.
  apply (basis_conversion (mkG 1 2 3 65535) (mkG 0 0 0 0)). unfold gvalid, valid. simpl. lia.
Defined.
