(* ===== verification/VecShare.v ===== *)
(** * Vectors of shares: [ampc-secret-sharing/src/shares/vecshare.rs]

    [VecShare], [SliceShare] and [SliceShareMut] are transparent wrappers of a
    vector or slice of [Share]s, so each is a [list Share].  The lengths of the
    operands are compared only by [debug_assert_eq!]; in a release build the
    zips stop at the shorter operand, and the assigning forms keep the rest of
    their left operand. *)

From S2P Require Import Prelude IntRing RingImpl Party Share.
From stdpp Require Import base list numbers strings.
From Stdlib Require Import ZArith Lia Btauto.
Local Open Scope Z_scope.

(** [SliceShare], [SliceShareMut] and [VecShare]. *)
Abbreviation SliceShare := (list Share).
Abbreviation VecShare := (list Share).

(* vecshare.rs:14-17 SliceShare::split_at *)
Definition slice_split_at (v : SliceShare) (mid : nat) : result (SliceShare * SliceShare) :=
  if (length v <? mid)%nat then panic "mid > len" else Ok (take mid v, drop mid v).

(* vecshare.rs:19-23 SliceShare::chunks *)
Definition slice_chunks (v : SliceShare) (chunk_size : nat) : result (list SliceShare) :=
  if (chunk_size =? 0)%nat then panic "chunk size must be non-zero"
  else Ok (chunks chunk_size v).

(* vecshare.rs:91-97 VecShare::extend, extend_from_slice *)
Definition vs_extend (v items : VecShare) : VecShare := v ++ items.

(* vecshare.rs:115-117 VecShare::push *)
Definition vs_push (v : VecShare) (el : Share) : VecShare := v ++ [el].

(* vecshare.rs:119-121 VecShare::pop *)
Definition vs_pop (v : VecShare) : option Share * VecShare := (last v, removelast v).

(* vecshare.rs:123-125 VecShare::sum *)
Definition vs_sum (T : IntRing2k) (v : VecShare) : Share :=
  foldl (share_add T) (share_zero T) v.

(* vecshare.rs:127-131 VecShare::not_inplace *)
Definition vs_not_inplace (T : IntRing2k) (v : VecShare) : VecShare := share_not T <$> v.

(* vecshare.rs:133-141 VecShare::split_at, split_at_mut *)
Definition vs_split_at (v : VecShare) (mid : nat) : result (SliceShare * SliceShare) :=
  slice_split_at v mid.

(* vecshare.rs:143-145 VecShare::get_at *)
Definition vs_get_at (v : VecShare) (i : nat) : result Share := index v i.

(* vecshare.rs:147-162 VecShare::from_ab, from_iter_ab *)
Definition from_ab (a b : list Z) : VecShare := zip_with share_new a b.

(* vecshare.rs:164-166 VecShare::flatten *)
Definition vs_flatten (inp : list VecShare) : list Share := concat inp.

(* vecshare.rs:217-224 VecShare<Bit>::from_share *)
Definition vs_from_share (T : IntRing2k) (share : Share) : VecShare :=
  let '(a, b) := get_ab share in zip_with share_new (bit_iter T a) (bit_iter T b).

(* vecshare.rs:168-177 VecShare::convert_to_bits *)
Definition convert_to_bits (T : IntRing2k) (v : VecShare) : VecShare :=
  v ≫= fun share =>
    let '(a, b) := get_ab share in zip_with share_new (bit_iter T a) (bit_iter T b).

(* vecshare.rs:179-181 VecShare::truncate *)
Definition vs_truncate (v : VecShare) (len : nat) : VecShare := take len v.

(** One component of the inner loop of [pack]: bit [i] of the chunk is ORed in
    at position [i]. *)
Fixpoint pack_loop (T : IntRing2k) (acc : Z) (i : nat) (bits : list Z) : Z :=
  match bits with
  | [] => acc
  | bit :: bits =>
      pack_loop T (re_or T acc (shl_usize T (from_bool T (bit_convert bit)) (Z.of_nat i))) (S i) bits
  end.

(* vecshare.rs:198-215 VecShare<Bit>::pack *)
Definition pack (T : IntRing2k) (v : VecShare) : VecShare :=
  (fun a_ => share_new (pack_loop T (re_zero T) 0 (sa <$> a_))
                       (pack_loop T (re_zero T) 0 (sb <$> a_)))
  <$> chunks (Z.to_nat (K T)) v.

(* vecshare.rs:236-246 Not for SliceShare *)
Definition slice_not (T : IntRing2k) (v : SliceShare) : VecShare := share_not T <$> v.

(* vecshare.rs:248-285 BitXor for SliceShare, VecShare *)
Definition vs_xor (T : IntRing2k) (v w : SliceShare) : VecShare := zip_with (share_xor T) v w.

(* vecshare.rs:287-294 AddAssign<SliceShare> for VecShare *)
Definition vs_add_assign (T : IntRing2k) (v : VecShare) (w : SliceShare) : VecShare :=
  assign2 (share_add_assign T) v w.

(* vecshare.rs:296-312 SubAssign for VecShare *)
Definition vs_sub_assign (T : IntRing2k) (v : VecShare) (w : SliceShare) : VecShare :=
  assign2 (share_sub_assign T) v w.

(* vecshare.rs:314-330 BitXorAssign for VecShare *)
Definition vs_xor_assign (T : IntRing2k) (v : VecShare) (w : SliceShare) : VecShare :=
  assign2 (share_xor T) v w.

(** ** Packing and unpacking bits *)

Definition share_valid (T : IntRing2k) (s : Share) : Prop := valid T (sa s) /\ valid T (sb s).

Section Pack.
Context {T : IntRing2k} {HT : IntRing2kOk T}.

Lemma shl_bit_testbit b i j :
  Z.of_nat i < K T -> 0 <= j ->
  valid T (shl_usize T (from_bool T b) (Z.of_nat i)) /\
  Z.testbit (shl_usize T (from_bool T b) (Z.of_nat i)) j = b && (Z.of_nat i =? j).
Proof.
  intros Hi Hj. rewrite ir_from_bool_eq, ir_shl_eq by (apply valid_b2z || lia).
  assert (0 <= Z.b2z b * 2 ^ Z.of_nat i < 2 ^ K T) as Hb.
  { pose proof (Z.pow_lt_mono_r 2 (Z.of_nat i) (K T)). pose proof (Z.pow_pos_nonneg 2 (Z.of_nat i)).
    destruct b; simpl; nia. }
  rewrite Z.mod_small by done. split; [done|].
  destruct b; simpl; [|by rewrite Z.testbit_0_l].
  rewrite Z.mul_1_l. destruct (Z.eqb_spec (Z.of_nat i) j) as [<-|Hn].
  - by rewrite Z.pow2_bits_true by lia.
  - by rewrite Z.pow2_bits_false.
Qed.

Lemma pack_loop_spec acc i bits :
  valid T acc -> Z.of_nat (i + length bits) <= K T ->
  valid T (pack_loop T acc i bits) /\
  forall j : nat, Z.testbit (pack_loop T acc i bits) (Z.of_nat j)
    = Z.testbit acc (Z.of_nat j)
      || ((i <=? j)%nat && default false (bit_convert <$> bits !! (j - i)%nat)).
Proof.
  revert acc i. induction bits as [|b bits IH]; intros acc i Hacc Hi; cbn [pack_loop length] in *.
  { split; [done|]. intros j. by rewrite lookup_nil, andb_false_r, orb_false_r. }
  destruct (shl_bit_testbit (bit_convert b) i 0) as [Hv _]; [lia..|].
  destruct (IH (re_or T acc (shl_usize T (from_bool T (bit_convert b)) (Z.of_nat i))) (S i))
    as [Hv' IH']; [by apply re_or_valid|lia|].
  split; [done|]. intros j. rewrite IH'. unfold re_or. rewrite ir_or_eq, Z.lor_spec.
  destruct (shl_bit_testbit (bit_convert b) i (Z.of_nat j)) as [_ ->]; [lia..|].
  rewrite <- orb_assoc. f_equal.
  destruct (Nat.lt_trichotomy i j) as [Hij|[<-|Hij]].
  - replace (Z.of_nat i =? Z.of_nat j) with false by lia.
    rewrite (proj2 (Nat.leb_le (S i) j)) by lia. rewrite (proj2 (Nat.leb_le (i) j)) by lia.
    replace (j - i)%nat with (S (j - S i)) by lia. by rewrite andb_false_r.
  - rewrite Z.eqb_refl, Nat.sub_diag, andb_true_r. rewrite (proj2 (Nat.leb_gt (S i) i)) by lia.
    rewrite (proj2 (Nat.leb_le (i) i)) by lia. simpl. by rewrite orb_false_r.
  - replace (Z.of_nat i =? Z.of_nat j) with false by lia.
    rewrite (proj2 (Nat.leb_gt (S i) j)) by lia. rewrite (proj2 (Nat.leb_gt (i) j)) by lia.
    by rewrite andb_false_r.
Qed.

(** A chunk of at most [K] bits is packed with its [j]-th bit at position [j]. *)
Lemma pack_chunk_spec bits :
  Z.of_nat (length bits) <= K T ->
  valid T (pack_loop T (re_zero T) 0 bits) /\
  forall j : nat, Z.testbit (pack_loop T (re_zero T) 0 bits) (Z.of_nat j)
    = default false (bit_convert <$> bits !! j).
Proof.
  intros Hl. destruct (pack_loop_spec (re_zero T) 0 bits) as [Hv Ht]; [apply valid_zero|done|].
  split; [done|]. intros j. rewrite Ht. unfold re_zero.
  rewrite ir_zero_eq, Z.testbit_0_l, Nat.sub_0_r. done.
Qed.

Lemma testbit_eq_valid x y :
  valid T x -> valid T y ->
  (forall j : nat, Z.of_nat j < K T -> Z.testbit x (Z.of_nat j) = Z.testbit y (Z.of_nat j)) -> x = y.
Proof.
  intros Hx Hy H. pose proof ir_K_pos. apply Z.bits_inj'. intros i Hi.
  destruct (decide (i < K T)) as [Hlt|].
  - specialize (H (Z.to_nat i)). rewrite Z2Nat.id in H by lia. auto.
  - rewrite (testbit_high (K T) x), (testbit_high (K T) y); done || lia.
Qed.

Lemma bit_iter_length x : valid T x -> length (bit_iter T x) = Z.to_nat (K T).
Proof. intros Hx. by rewrite bit_iter_spec, length_fmap, length_seq. Qed.

(** The bits of an element, packed again, are the element. *)
Lemma pack_bit_iter x : valid T x -> pack_loop T (re_zero T) 0 (bit_iter T x) = x.
Proof.
  intros Hx. pose proof ir_K_pos.
  destruct (pack_chunk_spec (bit_iter T x)) as [Hv Ht]; [rewrite bit_iter_length by done; lia|].
  apply testbit_eq_valid; [done..|]. intros j Hj. rewrite Ht, bit_iter_spec by done.
  rewrite list_lookup_fmap, lookup_seq_lt by lia. simpl. by destruct (Z.testbit x _).
Qed.

(** [K] bits packed and iterated over again are the bits. *)
Lemma bit_iter_pack bits :
  Forall (valid Bit) bits -> Z.of_nat (length bits) = K T ->
  bit_iter T (pack_loop T (re_zero T) 0 bits) = bits.
Proof.
  intros Hb Hl. destruct (pack_chunk_spec bits) as [Hv Ht]; [lia|].
  rewrite bit_iter_spec by done. apply list_eq. intros j. rewrite list_lookup_fmap.
  destruct (decide (j < Z.to_nat (K T))%nat).
  - rewrite lookup_seq_lt by done. simpl. rewrite Ht.
    destruct (lookup_lt_is_Some_2 bits j) as [b Hj]; [lia|]. rewrite Hj. simpl. f_equal.
    symmetry. apply valid_bit_b2z. by eapply Forall_lookup_1.
  - rewrite lookup_seq_ge by lia. simpl. symmetry. apply lookup_ge_None. lia.
Qed.

Lemma zip_share_sa a b : length a = length b -> sa <$> zip_with share_new a b = a.
Proof. revert b. induction a as [|x a IH]; intros [|y b] H; simplify_eq/=; [done|]. by rewrite IH. Qed.
Lemma zip_share_sb a b : length a = length b -> sb <$> zip_with share_new a b = b.
Proof. revert b. induction a as [|x a IH]; intros [|y b] H; simplify_eq/=; [done|]. by rewrite IH. Qed.
Lemma zip_share_eta (v : VecShare) : zip_with share_new (sa <$> v) (sb <$> v) = v.
Proof. induction v as [|[x y] v IH]; [done|]. rewrite !fmap_cons. cbn [zip_with]. by rewrite IH. Qed.

Lemma from_share_length s : share_valid T s -> length (vs_from_share T s) = Z.to_nat (K T).
Proof.
  intros [Ha Hb]. unfold vs_from_share. simpl. rewrite length_zip_with, !bit_iter_length by done. lia.
Qed.

End Pack.

(** Unpacking a vector of valid shares into bits and packing the bits again
    returns the vector. *)
Theorem pack_convert_to_bits T `{!IntRing2kOk T} (v : VecShare) :
  Forall (share_valid T) v -> pack T (convert_to_bits T v) = v.
Proof.
  intros Hv. pose proof (ir_K_pos (T:=T)). unfold pack, convert_to_bits.
  induction Hv as [|[a b] v [Ha Hb] Hv IH]; [done|]. cbn [mbind list_bind get_ab sa sb] in *.
  rewrite chunks_app; [|lia|by apply (from_share_length (mkShare a b))].
  rewrite fmap_cons, IH, zip_share_sa, zip_share_sb by by rewrite !bit_iter_length.
  by rewrite !pack_bit_iter.
Qed.

Lemma pack_convert_to_bits_witness :
  pack u16 (convert_to_bits u16 [mkShare 3 40000; mkShare 65535 0]) = [mkShare 3 40000; mkShare 65535 0].
Proof. apply (pack_convert_to_bits u16). repeat constructor; vm_compute; done. Defined.

(** Packing a vector of bit shares whose length is a multiple of the word
    width and unpacking it again returns the bits. *)
Theorem convert_to_bits_pack T `{!IntRing2kOk T} (v : VecShare) n :
  Forall (share_valid Bit) v -> length v = (n * Z.to_nat (K T))%nat ->
  convert_to_bits T (pack T v) = v.
Proof.
  intros Hv. pose proof (ir_K_pos (T:=T)). revert v Hv.
  induction n as [|n IH]; intros v Hv Hl; [by destruct v|].
  rewrite <- (take_drop (Z.to_nat (K T)) v) at 1. unfold pack, convert_to_bits in *.
  rewrite chunks_app; [|lia|rewrite length_take; lia].
  rewrite fmap_cons, bind_cons, IH by first [by apply Forall_drop | rewrite length_drop; lia].
  cbn [get_ab share_new sa sb].
  rewrite !bit_iter_pack.
  - by rewrite zip_share_eta, take_drop.
  - apply Forall_fmap. eapply Forall_impl; [by apply Forall_take|]. by intros s [_ ?].
  - rewrite length_fmap, length_take. lia.
  - apply Forall_fmap. eapply Forall_impl; [by apply Forall_take|]. by intros s [? _].
  - rewrite length_fmap, length_take. lia.
Qed.

Lemma convert_to_bits_pack_witness :
  convert_to_bits u8 (pack u8 (replicate 8 (mkShare 1 0) ++ replicate 8 (mkShare 0 1)))
  = replicate 8 (mkShare 1 0) ++ replicate 8 (mkShare 0 1).
Proof. apply (convert_to_bits_pack u8 _ 2); [repeat constructor; vm_compute; done|reflexivity]. Defined.
