(* ===== verification/Transpose.v ===== *)
(** * Bit transposition: [ampc-secret-sharing/src/shares/vecshare_bittranspose.rs]

    A block of [W] shares over an [N]-bit ring is packed into [N] words of [W]
    bits and transposed in place by the butterfly of block swaps, for
    [(N, W)] = (16, 64), (32, 64), (64, 64), (16, 128), (32, 128), (64, 128).
    The loops that walk the swaps do not look at the words, so they are
    written once for any carrier of words: running them on words is the code,
    running them on rows of labels says where each bit of the result comes
    from ([butterfly_sim]). *)

From S2P Require Import Prelude IntRing RingImpl Party Share VecShare.
From stdpp Require Import base list numbers strings.
From Stdlib Require Import ZArith Lia.
Local Open Scope Z_scope.

(** ** The butterfly *)

(** [res[k]], [res[k + j]] := [swp j m res[k] res[k + j]]. *)
Definition swap_at {X} (swp : nat -> Z -> X -> X -> X * X) (j : nat) (m : Z) (k : nat) (res : list X)
    : result (list X) :=
  x ← index res k;
  y ← index res (k + j);
  let '(x', y') := swp j m x y in
  Ok (<[k := x']> (<[(k + j)%nat := y']> res)).

(** [while k < N]: [k = (k + j + 1) & !j]. *)
Fixpoint bf_inner {X} (swp : nat -> Z -> X -> X -> X * X) (n j : nat) (m : Z) (fuel k : nat)
    (res : list X) : result (list X) :=
  if (k <? n)%nat then
    match fuel with
    | O => panic "out of fuel"
    | S fuel =>
        res ← swap_at swp j m k res;
        bf_inner swp n j m fuel (Nat.ldiff (k + j + 1) j) res
    end
  else Ok res.

(** [while j != 0]: [j >>= 1], [m = m ^ (m << j)]. *)
Fixpoint bf_outer {X} (swp : nat -> Z -> X -> X -> X * X) (w : Z) (n : nat) (fuel j : nat) (m : Z)
    (res : list X) : result (list X) :=
  if (j =? 0)%nat then Ok res
  else match fuel with
  | O => panic "out of fuel"
  | S fuel =>
      res ← bf_inner swp n j m n 0 res;
      let j := Nat.div2 j in
      let m := Z.lxor m (Z.shiftl m (Z.of_nat j) mod 2 ^ w) in
      bf_outer swp w n fuel j m res
  end.

(** [t = ((x >> j) ^ y) & m; y ^= t; x ^= t << j], on shares. *)
Definition share_swp (T : IntRing2k) (j : nat) (m : Z) (x y : Share) : Share * Share :=
  let t := share_mask T (share_xor T (share_shr T x (Z.of_nat j)) y) m in
  (share_xor T x (share_shl T t (Z.of_nat j)), share_xor T y t).

(** Seven rounds suffice for every [j] below 128. *)
Definition butterfly {X} (swp : nat -> Z -> X -> X -> X * X) (w : Z) (n j : nat) (m : Z) (res : list X) :=
  bf_outer swp w n 7 j m res.

(** ** Packing a block *)

(** [x0 | (x1 << s) | (x2 << 2 s) | ..] in a [w]-bit word. *)
Fixpoint pack_words_from (w s : Z) (q : Z) (acc : Z) (xs : list Z) : Z :=
  match xs with
  | [] => acc
  | x :: xs => pack_words_from w s (q + 1) (Z.lor acc (Z.shiftl x (s * q) mod 2 ^ w)) xs
  end.
Definition pack_words (w s : Z) (xs : list Z) : Z :=
  match xs with [] => 0 | x :: xs => pack_words_from w s 1 x xs end.
Definition pack_shares (w s : Z) (xs : list Share) : Share :=
  mkShare (pack_words w s (sa <$> xs)) (pack_words w s (sb <$> xs)).

(* vecshare_bittranspose.rs:12-31 VecShare<u16>::share64_from_share16s *)
Definition share64_from_share16s (a b c d : Share) : Share := pack_shares 64 16 [a; b; c; d].

(* vecshare_bittranspose.rs:34-65 VecShare<u16>::share128_from_share16s *)
Definition share128_from_share16s (a b c d e f g h : Share) : Share :=
  pack_shares 128 16 [a; b; c; d; e; f; g; h].

(* vecshare_bittranspose.rs:182-190 VecShare<u32>::share64_from_share32s *)
Definition share64_from_share32s (a b : Share) : Share := pack_shares 64 32 [a; b].

(* vecshare_bittranspose.rs:192-211 VecShare<u32>::share128_from_share32s *)
Definition share128_from_share32s (a b c d : Share) : Share := pack_shares 128 32 [a; b; c; d].

(* vecshare_bittranspose.rs:325-333 VecShare<u64>::share128_from_share64s *)
Definition share128_from_share64s (a b : Share) : Share := pack_shares 128 64 [a; b].

(** ** Transposing a block *)

(* vecshare_bittranspose.rs:107-136 VecShare<u16>::share_transpose16x64 *)
Definition share_transpose16x64 (a : list Share) : result (list Share) :=
  res ← mapM_result (fun i =>
          x0 ← index a i; x1 ← index a (16 + i); x2 ← index a (32 + i); x3 ← index a (48 + i);
          Ok (share64_from_share16s x0 x1 x2 x3)) (seq 0 16);
  butterfly (share_swp u64) 64 16 8 0x00ff00ff00ff00ff res.

(* vecshare_bittranspose.rs:67-105 VecShare<u16>::share_transpose16x128 *)
Definition share_transpose16x128 (a : list Share) : result (list Share) :=
  res ← mapM_result (fun i =>
          x0 ← index a i; x1 ← index a (i + 16); x2 ← index a (i + 32); x3 ← index a (i + 48);
          x4 ← index a (i + 64); x5 ← index a (i + 80); x6 ← index a (i + 96); x7 ← index a (i + 112);
          Ok (share128_from_share16s x0 x1 x2 x3 x4 x5 x6 x7)) (seq 0 16);
  butterfly (share_swp u128) 128 16 8 0x00ff00ff00ff00ff00ff00ff00ff00ff res.

(* vecshare_bittranspose.rs:244-273 VecShare<u32>::share_transpose32x64 *)
Definition share_transpose32x64 (a : list Share) : result (list Share) :=
  res ← mapM_result (fun i =>
          x0 ← index a i; x1 ← index a (32 + i); Ok (share64_from_share32s x0 x1)) (seq 0 32);
  butterfly (share_swp u64) 64 32 16 0x0000ffff0000ffff res.

(* vecshare_bittranspose.rs:213-242 VecShare<u32>::share_transpose32x128 *)
Definition share_transpose32x128 (a : list Share) : result (list Share) :=
  res ← mapM_result (fun i =>
          x0 ← index a i; x1 ← index a (32 + i); x2 ← index a (64 + i); x3 ← index a (96 + i);
          Ok (share128_from_share32s x0 x1 x2 x3)) (seq 0 32);
  butterfly (share_swp u128) 128 32 16 0x0000ffff0000ffff0000ffff0000ffff res.

(* vecshare_bittranspose.rs:335-364 VecShare<u64>::share_transpose64x128 *)
Definition share_transpose64x128 (a : list Share) : result (list Share) :=
  res ← mapM_result (fun i =>
          x0 ← index a i; x1 ← index a (i + 64); Ok (share128_from_share64s x0 x1)) (seq 0 64);
  butterfly (share_swp u128) 128 64 32 0x00000000ffffffff00000000ffffffff res.

(* vecshare_bittranspose.rs:366-385 VecShare<u64>::share_transpose64x64 *)
Definition share_transpose64x64 (a : list Share) : result (list Share) :=
  butterfly (share_swp u64) 64 64 32 0x00000000ffffffff a.

(** ** Transposing a vector *)

Definition share_default : Share := mkShare 0 0.

(** [shares.resize(len * w, Share::default())], [len = ceil(shares.len() / w)]. *)
Definition pad (w : nat) (v : VecShare) : VecShare :=
  v ++ replicate (div_ceil (length v) w * w - length v) share_default.

(** [for (src, des) in trans.zip(res.iter_mut()) { des.shares[j] = src }]. *)
Definition write_column (j : nat) (trans : list Share) (res : list VecShare) : list VecShare :=
  assign2 (fun des src => <[j := src]> des) res trans.

Fixpoint transpose_blocks (tr : list Share -> result (list Share)) (j : nat) (blocks : list (list Share))
    (res : list VecShare) : result (list VecShare) :=
  match blocks with
  | [] => Ok res
  | x :: blocks =>
      trans ← tr x;
      transpose_blocks tr (S j) blocks (write_column j trans res)
  end.

Definition transpose_pack (w n : nat) (tr : list Share -> result (list Share)) (v : VecShare)
    : result (list VecShare) :=
  let len := div_ceil (length v) w in
  let v := pad w v in
  let res := replicate n (replicate len share_default) in
  transpose_blocks tr 0 (chunks w v) res.

(* vecshare_bittranspose.rs:139-158 Transpose64 for VecShare<u16> *)
Definition transpose_pack_u64_u16 : VecShare -> result (list VecShare) :=
  transpose_pack 64 16 share_transpose16x64.
(* vecshare_bittranspose.rs:160-179 Transpose128 for VecShare<u16> *)
Definition transpose_pack_u128_u16 : VecShare -> result (list VecShare) :=
  transpose_pack 128 16 share_transpose16x128.
(* vecshare_bittranspose.rs:276-298 Transpose64 for VecShare<u32> *)
Definition transpose_pack_u64_u32 : VecShare -> result (list VecShare) :=
  transpose_pack 64 32 share_transpose32x64.
(* vecshare_bittranspose.rs:300-322 Transpose128 for VecShare<u32> *)
Definition transpose_pack_u128_u32 : VecShare -> result (list VecShare) :=
  transpose_pack 128 32 share_transpose32x128.
(* vecshare_bittranspose.rs:388-407 Transpose64 for VecShare<u64> *)
Definition transpose_pack_u64_u64 : VecShare -> result (list VecShare) :=
  transpose_pack 64 64 share_transpose64x64.
(* vecshare_bittranspose.rs:409-428 Transpose128 for VecShare<u64> *)
Definition transpose_pack_u128_u64 : VecShare -> result (list VecShare) :=
  transpose_pack 128 64 share_transpose64x128.
(* vecshare_bittranspose.rs:430-451 Transpose64 for VecShare<Ring48> *)
Definition transpose_pack_u64_ring48 : VecShare -> result (list VecShare) :=
  transpose_pack 64 48 (fun chunk =>
    t ← share_transpose64x64 ((fun s => share_new (sa s) (sb s)) <$> chunk); Ok (take 48 t)).

(** ** Where each bit comes from *)

(** A row of labels names the origin of every bit of a word: [Some p] is bit
    [p] of the input, [None] a zero shifted in. *)
Fixpoint zbits (n : nat) (m : Z) : list bool :=
  match n with O => [] | S n => Z.odd m :: zbits n (Z.div2 m) end.
Fixpoint select (mask : list bool) (x y : list (option N)) : list (option N) :=
  match mask, x, y with
  | b :: mask, u :: x, v :: y => (if b : bool then u else v) :: select mask x y
  | _, _, _ => []
  end.
Definition label_swp (w : nat) (j : nat) (m : Z) (x y : list (option N)) : list (option N) * list (option N) :=
  (select (replicate j false ++ zbits w m) (replicate j None ++ y) x,
   select (zbits w m) (drop j x ++ replicate j None) y).

(** Row [i] before the butterfly: bit [n q + b] of it is bit [b] of input
    [i + n q]; row [b] after it: bit [l] is bit [b] of input [l]. *)
Definition label_of (n e b : nat) : option N := Some (N.of_nat e * N.of_nat n + N.of_nat b)%N.
Definition init_rows (w n : nat) : list (list (option N)) :=
  (fun i => (fun c => label_of n (i + n * (c / n)) (c mod n)) <$> seq 0 w) <$> seq 0 n.
Definition final_rows (w n : nat) : list (list (option N)) :=
  (fun b => (fun l => label_of n l b) <$> seq 0 w) <$> seq 0 n.

(** The swaps transpose every [n] by [n] block, for each of the six shapes. *)
Lemma butterfly_16_64 :
  butterfly (label_swp 64) 64 16 8 0x00ff00ff00ff00ff (init_rows 64 16) = Ok (final_rows 64 16).
Proof. vm_compute. reflexivity. Qed.
Lemma butterfly_32_64 :
  butterfly (label_swp 64) 64 32 16 0x0000ffff0000ffff (init_rows 64 32) = Ok (final_rows 64 32).
Proof. vm_compute. reflexivity. Qed.
Lemma butterfly_64_64 :
  butterfly (label_swp 64) 64 64 32 0x00000000ffffffff (init_rows 64 64) = Ok (final_rows 64 64).
Proof. vm_compute. reflexivity. Qed.
Lemma butterfly_16_128 :
  butterfly (label_swp 128) 128 16 8 0x00ff00ff00ff00ff00ff00ff00ff00ff (init_rows 128 16)
  = Ok (final_rows 128 16).
Proof. vm_compute. reflexivity. Qed.
Lemma butterfly_32_128 :
  butterfly (label_swp 128) 128 32 16 0x0000ffff0000ffff0000ffff0000ffff (init_rows 128 32)
  = Ok (final_rows 128 32).
Proof. vm_compute. reflexivity. Qed.
Lemma butterfly_64_128 :
  butterfly (label_swp 128) 128 64 32 0x00000000ffffffff00000000ffffffff (init_rows 128 64)
  = Ok (final_rows 128 64).
Proof. vm_compute. reflexivity. Qed.

(** ** The loops respect any relation the swap respects *)

Section Simulation.
Context {X Y : Type} (Rl : X -> Y -> Prop) (w : Z).
Context (swp : nat -> Z -> X -> X -> X * X) (swp' : nat -> Z -> Y -> Y -> Y * Y).
Hypothesis Hswp : forall j m x y u v,
  Z.of_nat j < w -> 0 <= m -> Rl x u -> Rl y v ->
  Rl (swp j m x y).1 (swp' j m u v).1 /\ Rl (swp j m x y).2 (swp' j m u v).2.

Lemma swap_at_sim j m k res rows rows' :
  Z.of_nat j < w -> 0 <= m -> Forall2 Rl res rows -> swap_at swp' j m k rows = Ok rows' ->
  exists res', swap_at swp j m k res = Ok res' /\ Forall2 Rl res' rows'.
Proof.
  intros Hj Hm Hr. unfold swap_at, index.
  destruct (rows !! k) as [u|] eqn:Eu; [|done]. destruct (rows !! (k + j)%nat) as [v|] eqn:Ev; [|done].
  destruct (Forall2_lookup_r _ _ _ _ _ Hr Eu) as (x & -> & Hx).
  destruct (Forall2_lookup_r _ _ _ _ _ Hr Ev) as (y & -> & Hy). cbn.
  destruct (Hswp j m x y u v Hj Hm Hx Hy) as [H1 H2].
  destruct (swp j m x y) as [x' y'], (swp' j m u v) as [u' v']. intros [= <-].
  eexists. split; [done|]. apply Forall2_insert; [|done]. by apply Forall2_insert.
Qed.

Lemma bf_inner_sim n j m fuel k res rows rows' :
  Z.of_nat j < w -> 0 <= m -> Forall2 Rl res rows -> bf_inner swp' n j m fuel k rows = Ok rows' ->
  exists res', bf_inner swp n j m fuel k res = Ok res' /\ Forall2 Rl res' rows'.
Proof.
  intros Hj Hm. revert k res rows.
  induction fuel as [|fuel IH]; intros k res rows Hr; cbn [bf_inner]; destruct (k <? n)%nat;
    try done; try (intros [= <-]; by eauto).
  destruct (swap_at swp' j m k rows) as [rows1|] eqn:E; [|done]. cbn [mbind result_bind].
  destruct (swap_at_sim _ _ _ _ _ _ Hj Hm Hr E) as (res1 & -> & Hr1). cbn [mbind result_bind]. by apply IH.
Qed.

Lemma bf_outer_sim n fuel j m res rows rows' :
  Z.of_nat j < w -> 0 <= m -> Forall2 Rl res rows -> bf_outer swp' w n fuel j m rows = Ok rows' ->
  exists res', bf_outer swp w n fuel j m res = Ok res' /\ Forall2 Rl res' rows'.
Proof.
  revert j m res rows. induction fuel as [|fuel IH]; intros j m res rows Hj Hm Hr; cbn [bf_outer];
    destruct (j =? 0)%nat; try done; try (intros [= <-]; by eauto).
  destruct (bf_inner swp' n j m n 0 rows) as [rows1|] eqn:E; [|done]. cbn [mbind result_bind].
  destruct (bf_inner_sim _ _ _ _ _ _ _ _ Hj Hm Hr E) as (res1 & -> & Hr1). cbn [mbind result_bind].
  apply IH; [|apply Z.lxor_nonneg; split; intros _|done].
  - pose proof (Nat.div2_decr j j). lia.
  - apply Z.mod_pos_bound. apply Z.pow_pos_nonneg; lia.
  - done.
Qed.
End Simulation.

(** ** Words and labels *)

(** The word [x] holds the bits its labels name, [B0] being the input. *)
Definition holds_labels (w : nat) (B0 : N -> bool) (x : Z) (row : list (option N)) : Prop :=
  length row = w /\ 0 <= x < 2 ^ Z.of_nat w /\
  forall c l, row !! c = Some l ->
    Z.testbit x (Z.of_nat c) = match l with Some p => B0 p | None => false end.

Lemma zbits_lookup n m c : (c < n)%nat -> 0 <= m -> zbits n m !! c = Some (Z.testbit m (Z.of_nat c)).
Proof.
  revert m c. induction n as [|n IH]; intros m c Hc Hm; [lia|]. destruct c as [|c].
  - cbn. by rewrite Z.bit0_odd.
  - cbn [zbits]. rewrite lookup_cons_ne_0 by lia. cbn [pred]. rewrite IH by (lia || by apply Z.div2_nonneg).
    rewrite Z.div2_spec, Z.shiftr_spec by lia. do 2 f_equal. lia.
Qed.
Lemma length_zbits n m : length (zbits n m) = n.
Proof. revert m. induction n as [|n IH]; intros m; cbn; [done|]. by rewrite IH. Qed.

Lemma select_lookup mask x y c b u v :
  mask !! c = Some b -> x !! c = Some u -> y !! c = Some v ->
  select mask x y !! c = Some (if b : bool then u else v).
Proof.
  revert x y c. induction mask as [|b' mask IH]; intros [|u' x] [|v' y] [|c]; cbn; try done.
  - by intros [= <-] [= <-] [= <-].
  - apply IH.
Qed.
Lemma length_select mask x y :
  (length y <= length mask)%nat -> (length y <= length x)%nat -> length (select mask x y) = length y.
Proof.
  revert x y. induction mask as [|b mask IH]; intros [|u x] [|v y]; cbn; try lia.
  intros. rewrite IH; lia.
Qed.

Section Words.
Context {T : IntRing2k} {HT : IntRing2kOk T}.

(** The swap on words, written with the ring's operators. *)
Definition word_swp (j : nat) (m : Z) (x y : Z) : Z * Z :=
  let t := (re_shr T x (Z.of_nat j) ^[T] y) &[T] m in
  (x ^[T] re_shl T t (Z.of_nat j), y ^[T] t).

Lemma word_swp_valid j m x y :
  Z.of_nat j < K T -> 0 <= m -> valid T x -> valid T y ->
  valid T (word_swp j m x y).1 /\ valid T (word_swp j m x y).2.
Proof.
  intros Hj Hm Hx Hy. unfold word_swp. cbn.
  assert (valid T (re_shr T x (Z.of_nat j))) as Hs.
  { unfold re_shr. rewrite ir_wshr_eq by (done || lia). unfold valid in *. rewrite Z.shiftr_div_pow2 by lia.
    pose proof (Z.pow_pos_nonneg 2 (Z.of_nat j)). split; [apply Z.div_pos; lia|].
    apply Z.div_lt_upper_bound; nia. }
  assert (valid T ((re_shr T x (Z.of_nat j) ^[T] y) &[T] m)) as Ht.
  { unfold re_and. rewrite ir_and_eq. pose proof ir_K_pos. apply land_range_l; [lia| |done].
    by apply re_xor_valid. }
  split; [|by apply re_xor_valid]. apply re_xor_valid; [done|].
  unfold re_shl. rewrite ir_wshl_eq by (done || lia). apply valid_mod.
Qed.

Lemma word_swp_bits j m x y c :
  Z.of_nat j < K T -> 0 <= m -> valid T x -> valid T y -> Z.of_nat c < K T ->
  Z.testbit (word_swp j m x y).1 (Z.of_nat c)
    = (if (j <=? c)%nat && Z.testbit m (Z.of_nat (c - j)) then Z.testbit y (Z.of_nat (c - j))
       else Z.testbit x (Z.of_nat c)) /\
  Z.testbit (word_swp j m x y).2 (Z.of_nat c)
    = (if Z.testbit m (Z.of_nat c) then Z.testbit x (Z.of_nat (c + j)) else Z.testbit y (Z.of_nat c)).
Proof.
  intros Hj Hm Hx Hy Hc. unfold word_swp. cbn [fst snd].
  set (t := (re_shr T x (Z.of_nat j) ^[T] y) &[T] m).
  assert (forall i, 0 <= i -> Z.testbit t i
    = xorb (Z.testbit x (i + Z.of_nat j)) (Z.testbit y i) && Z.testbit m i) as Ht.
  { intros i Hi. unfold t, re_and, re_xor, re_shr. rewrite ir_and_eq, ir_xor_eq, ir_wshr_eq by (done || lia).
    by rewrite Z.land_spec, Z.lxor_spec, Z.shiftr_spec. }
  assert (valid T t) as Hvt.
  { pose proof (word_swp_valid j m x y Hj Hm Hx Hy) as [_ H]. unfold word_swp in H. cbn [snd] in H. fold t in H.
    replace t with (y ^[T] (y ^[T] t)); [by apply re_xor_valid|].
    unfold re_xor. rewrite !ir_xor_eq. by rewrite <- Z.lxor_assoc, Z.lxor_nilpotent, Z.lxor_0_l. }
  split.
  - unfold re_xor, re_shl. rewrite ir_xor_eq, ir_wshl_eq, Z.lxor_spec by (done || lia).
    rewrite Z.mod_pow2_bits_low by lia. destruct (Nat.leb_spec j c) as [Hle|Hlt].
    + rewrite Z.mul_pow2_bits, Ht, Z.sub_add by lia. replace (Z.of_nat c - Z.of_nat j) with (Z.of_nat (c - j)) by lia.
      cbn. destruct (Z.testbit m _); [|by rewrite andb_false_r, xorb_false_r].
      rewrite andb_true_r. by destruct (Z.testbit x _), (Z.testbit y _).
    + rewrite Z.mul_pow2_bits_low by lia. cbn. by rewrite xorb_false_r.
  - unfold re_xor. rewrite ir_xor_eq, Z.lxor_spec, Ht by lia.
    replace (Z.of_nat c + Z.of_nat j) with (Z.of_nat (c + j)) by lia.
    destruct (Z.testbit m _); [|by rewrite andb_false_r, xorb_false_r].
    rewrite andb_true_r. by destruct (Z.testbit x _), (Z.testbit y _).
Qed.
End Words.

Lemma label_swp_lookup w j m x y c u :
  length x = w -> length y = w -> 0 <= m -> (label_swp w j m x y).1 !! c = Some u ->
  (c < w)%nat /\ exists v, x !! c = Some v /\
  u = if (j <=? c)%nat && Z.testbit m (Z.of_nat (c - j)) then default None (y !! (c - j)%nat) else v.
Proof.
  intros Hx Hy Hm. unfold label_swp. cbn [fst]. intros Hu.
  assert (c < w)%nat as Hc.
  { apply lookup_lt_Some in Hu. rewrite length_select in Hu;
      rewrite ?length_app, ?length_replicate, ?length_zbits; lia. }
  split; [done|]. destruct (lookup_lt_is_Some_2 x c) as [v Hv]; [lia|]. exists v. split; [done|].
  destruct (Nat.leb_spec j c) as [Hle|Hlt]; cbn [andb].
  - destruct (lookup_lt_is_Some_2 y (c - j)) as [v' Hv']; [lia|]. rewrite Hv'. cbn [default].
    rewrite (select_lookup _ _ _ c (Z.testbit m (Z.of_nat (c - j))) v' v) in Hu; [by injection Hu as <-| | |done].
    + rewrite lookup_app_r, length_replicate by (rewrite length_replicate; lia).
      apply zbits_lookup; lia.
    + rewrite lookup_app_r, length_replicate by (rewrite length_replicate; lia). done.
  - rewrite (select_lookup _ _ _ c false None v) in Hu; [by injection Hu as <-| | |done];
      rewrite lookup_app_l by (rewrite length_replicate; lia); by apply lookup_replicate_2.
Qed.

Lemma label_swp_lookup_2 w j m x y c u :
  length x = w -> length y = w -> 0 <= m -> (label_swp w j m x y).2 !! c = Some u ->
  (c < w)%nat /\ exists v, y !! c = Some v /\
  u = if Z.testbit m (Z.of_nat c) then default None (x !! (c + j)%nat) else v.
Proof.
  intros Hx Hy Hm. unfold label_swp. cbn [snd]. intros Hu.
  assert (c < w)%nat as Hc.
  { apply lookup_lt_Some in Hu. rewrite length_select in Hu;
      rewrite ?length_app, ?length_drop, ?length_replicate, ?length_zbits; lia. }
  split; [done|]. destruct (lookup_lt_is_Some_2 y c) as [v Hv]; [lia|]. exists v. split; [done|].
  rewrite (select_lookup _ _ _ c (Z.testbit m (Z.of_nat c)) (default None (x !! (c + j)%nat)) v) in Hu;
    [by injection Hu as <-|by apply zbits_lookup| |done].
  destruct (decide (c + j < w)%nat) as [Hlt|Hge].
  - destruct (lookup_lt_is_Some_2 x (c + j)) as [v' Hv']; [lia|]. rewrite Hv'.
    rewrite lookup_app_l by (rewrite length_drop; lia). rewrite lookup_drop. cbn.
    by rewrite Nat.add_comm.
  - rewrite (lookup_ge_None_2 x) by lia. cbn.
    rewrite lookup_app_r by (rewrite length_drop; lia). apply lookup_replicate_2.
    rewrite length_drop. lia.
Qed.

Lemma length_label_swp w j m x y :
  length x = w -> length y = w ->
  length (label_swp w j m x y).1 = w /\ length (label_swp w j m x y).2 = w.
Proof.
  intros Hx Hy. unfold label_swp. cbn.
  rewrite !length_select; rewrite ?length_app, ?length_drop, ?length_replicate, ?length_zbits; lia.
Qed.

Lemma holds_labels_swp (w : nat) T `{!IntRing2kOk T} B0 j m x y u v :
  K T = Z.of_nat w -> Z.of_nat j < Z.of_nat w -> 0 <= m ->
  holds_labels w B0 x u -> holds_labels w B0 y v ->
  holds_labels w B0 (word_swp (T:=T) j m x y).1 (label_swp w j m u v).1 /\
  holds_labels w B0 (word_swp (T:=T) j m x y).2 (label_swp w j m u v).2.
Proof.
  intros HK Hj Hm (Hlu & Hx & Hu) (Hlv & Hy & Hv). rewrite <- HK in *.
  destruct (word_swp_valid j m x y Hj Hm Hx Hy) as [H1 H2].
  destruct (length_label_swp w j m u v Hlu Hlv) as [L1 L2].
  split; (split; [done|]; split; [by rewrite <- HK|]); intros c l Hl.
  - apply label_swp_lookup in Hl as (Hc & l' & Hl' & ->); [|done..].
    destruct (word_swp_bits j m x y c Hj Hm Hx Hy) as [-> _]; [lia|].
    destruct (Nat.leb_spec j c); cbn [andb]; [|by apply Hu].
    destruct (Z.testbit m _); [|by apply Hu].
    destruct (lookup_lt_is_Some_2 v (c - j)) as [l'' Hl'']; [lia|]. rewrite Hl''. by apply Hv.
  - apply label_swp_lookup_2 in Hl as (Hc & l' & Hl' & ->); [|done..].
    destruct (word_swp_bits j m x y c Hj Hm Hx Hy) as [_ ->]; [lia|].
    destruct (Z.testbit m _); [|by apply Hv].
    destruct (decide (c + j < w)%nat) as [Hlt|Hge].
    + destruct (lookup_lt_is_Some_2 u (c + j)) as [l'' Hl'']; [lia|]. rewrite Hl''. by apply Hu.
    + rewrite (lookup_ge_None_2 u) by lia. cbn. apply (testbit_high (K T)); [done|lia].
Qed.

(** A share holds labels when both components do, each in its own input. *)
Definition share_labels (w : nat) (Ba Bb : N -> bool) (s : Share) (row : list (option N)) : Prop :=
  holds_labels w Ba (sa s) row /\ holds_labels w Bb (sb s) row.

Lemma butterfly_sim (w : nat) T `{!IntRing2kOk T} Ba Bb n j m res rows rows' :
  K T = Z.of_nat w -> Z.of_nat j < Z.of_nat w -> 0 <= m ->
  Forall2 (share_labels w Ba Bb) res rows ->
  butterfly (label_swp w) (Z.of_nat w) n j m rows = Ok rows' ->
  exists res', butterfly (share_swp T) (Z.of_nat w) n j m res = Ok res' /\
    Forall2 (share_labels w Ba Bb) res' rows'.
Proof.
  intros HK Hj Hm Hr Hb. refine (bf_outer_sim _ _ _ _ _ n _ j m res rows rows' Hj Hm Hr Hb).
  intros j' m' x y u v Hj' Hm' [Hxa Hxb] [Hya Hyb].
  destruct (holds_labels_swp w T Ba j' m' _ _ u v HK Hj' Hm' Hxa Hya) as [? ?].
  destruct (holds_labels_swp w T Bb j' m' _ _ u v HK Hj' Hm' Hxb Hyb) as [? ?].
  by split; split.
Qed.

(** ** Blocks *)

Definition share_at (a : list Share) (i : nat) : Share := default share_default (a !! i).

Lemma index_share_at a i : (i < length a)%nat -> index a i = Ok (share_at a i).
Proof. intros Hi. unfold index, share_at. by destruct (lookup_lt_is_Some_2 a i Hi) as [x ->]. Qed.

Lemma pack_words_from_spec w s q acc xs :
  0 < s -> 0 <= q -> 0 <= acc < 2 ^ (s * q) -> Forall (fun x => 0 <= x < 2 ^ s) xs ->
  s * (q + Z.of_nat (length xs)) <= w ->
  0 <= pack_words_from w s q acc xs < 2 ^ (s * (q + Z.of_nat (length xs))) /\
  forall c, 0 <= c -> Z.testbit (pack_words_from w s q acc xs) c
    = if c <? s * q then Z.testbit acc c
      else Z.testbit (default 0 (xs !! Z.to_nat (c / s - q))) (c mod s).
Proof.
  intros Hs. revert q acc. induction xs as [|x xs IH]; intros q acc Hq Hacc Hxs Hw.
  { cbn [pack_words_from length] in *. rewrite Z.add_0_r. split; [done|]. intros c Hc. cbn [default].
    rewrite lookup_nil. cbn. rewrite Z.testbit_0_l. destruct (Z.ltb_spec c (s * q)); [done|].
    apply (testbit_high (s * q)); [done|lia]. }
  inversion Hxs as [|? ? Hx Hxs']; subst. cbn [pack_words_from length] in *.
  assert (0 <= s * q) by nia. assert (s * (q + 1) = s * q + s) as Hq1 by ring.
  assert (Z.shiftl x (s * q) mod 2 ^ w = Z.shiftl x (s * q)) as Hsh.
  { apply Z.mod_small. rewrite Z.shiftl_mul_pow2 by lia.
    assert (2 ^ s * 2 ^ (s * q) <= 2 ^ w); [|pose proof (Z.pow_pos_nonneg 2 (s * q)); nia].
    rewrite <- Z.pow_add_r by lia. apply Z.pow_le_mono_r; nia. }
  rewrite Hsh. set (acc' := Z.lor acc (Z.shiftl x (s * q))).
  assert (forall c, 0 <= c -> Z.testbit acc' c
    = if c <? s * q then Z.testbit acc c else Z.testbit x (c - s * q)) as Hb.
  { intros c Hc. unfold acc'. rewrite Z.lor_spec, Z.shiftl_spec by lia.
    destruct (Z.ltb_spec c (s * q)).
    - by rewrite (Z.testbit_neg_r x), orb_false_r by lia.
    - by rewrite (testbit_high (s * q) acc) by (done || lia). }
  assert (0 <= acc' < 2 ^ (s * (q + 1))) as Hacc'.
  { assert (0 <= acc') by (apply Z.lor_nonneg; split; [lia|]; apply Z.shiftl_nonneg; lia).
    split; [done|]. apply lt_pow2_bits; [lia|done|]. intros i Hi. rewrite Hb by lia.
    destruct (Z.ltb_spec i (s * q)); [lia|]. apply (testbit_high s); [done|lia]. }
  destruct (IH (q + 1) acc') as [Hr Ht]; [lia|done|done|nia|].
  replace (q + Z.of_nat (S (length xs))) with (q + 1 + Z.of_nat (length xs)) by lia.
  split; [done|]. intros c Hc. rewrite Ht by done.
  pose proof (Z.div_mod c s ltac:(lia)) as Hdm. pose proof (Z.mod_pos_bound c s Hs) as Hm.
  destruct (Z.ltb_spec c (s * (q + 1))), (Z.ltb_spec c (s * q)); try nia.
  - rewrite Hb by done. rewrite (proj2 (Z.ltb_lt _ _)) by lia. done.
  - rewrite Hb by done. rewrite (proj2 (Z.ltb_ge _ _)) by lia.
    assert (c / s = q) as Hcq by (symmetry; apply Z.div_unique with (c - s * q); nia).
    rewrite Hcq in *. rewrite Z.sub_diag. cbn. f_equal. lia.
  - replace (Z.to_nat (c / s - q)) with (S (Z.to_nat (c / s - (q + 1)))) by (assert (q + 1 <= c / s) by (apply Z.div_le_lower_bound; nia); lia).
    done.
Qed.

(** [n]-bit words packed side by side. *)
Lemma pack_words_spec (w n : nat) xs :
  (0 < n)%nat -> (0 < length xs)%nat -> (n * length xs = w)%nat -> Forall (fun x => 0 <= x < 2 ^ Z.of_nat n) xs ->
  0 <= pack_words (Z.of_nat w) (Z.of_nat n) xs < 2 ^ Z.of_nat w /\
  forall c : nat, Z.testbit (pack_words (Z.of_nat w) (Z.of_nat n) xs) (Z.of_nat c)
    = Z.testbit (default 0 (xs !! (c / n)%nat)) (Z.of_nat (c mod n)).
Proof.
  intros Hn Hl Hw Hxs. destruct xs as [|x xs]; [simpl in Hl; lia|].
  inversion Hxs as [|? ? Hx Hxs']; subst. cbn [pack_words].
  destruct (pack_words_from_spec (Z.of_nat (n * length (x :: xs))) (Z.of_nat n) 1 x xs)
    as [Hr Ht]; [lia|lia|by rewrite Z.mul_1_r|done|cbn [length]; lia|].
  split.
  { replace (Z.of_nat n * (1 + Z.of_nat (length xs))) with (Z.of_nat (n * length (x :: xs))) in Hr
      by (cbn [length]; lia). done. }
  intros c. rewrite Ht by lia. rewrite <- Nat2Z.inj_div, <- Nat2Z.inj_mod, Z.mul_1_r.
  destruct (Z.ltb_spec (Z.of_nat c) (Z.of_nat n)).
  - by rewrite Nat.div_small, Nat.mod_small by lia.
  - assert (1 <= c / n)%nat by (apply Nat.div_le_lower_bound; lia).
    destruct (c / n)%nat as [|q] eqn:E; [lia|]. cbn [lookup list_lookup].
    by replace (Z.to_nat (Z.of_nat (S q) - 1)) with q by lia.
Qed.

(** The input bit a label names: bit [p mod n] of input [p / n]. *)
Definition input_bit (n : nat) (f : nat -> Z) (p : N) : bool :=
  Z.testbit (f (N.to_nat p / n)%nat) (Z.of_nat (N.to_nat p mod n)).

Lemma input_bit_label n f e b :
  (b < n)%nat -> input_bit n f (N.of_nat e * N.of_nat n + N.of_nat b)%N = Z.testbit (f e) (Z.of_nat b).
Proof.
  intros Hb. unfold input_bit.
  replace (N.to_nat (N.of_nat e * N.of_nat n + N.of_nat b)) with (b + e * n)%nat by lia.
  by rewrite Nat.div_add, Nat.Div0.mod_add, Nat.div_small, Nat.mod_small by lia.
Qed.

Definition bits_ok (n : nat) (s : Share) : Prop :=
  0 <= sa s < 2 ^ Z.of_nat n /\ 0 <= sb s < 2 ^ Z.of_nat n.

(** Row [i] of the packed block. *)
Definition packed_row (w n : nat) (a : list Share) (i : nat) : Share :=
  pack_shares (Z.of_nat w) (Z.of_nat n) ((fun q => share_at a (i + n * q)) <$> seq 0 (w / n)).

Lemma packed_component (w n : nat) (f : nat -> Z) i :
  (0 < n)%nat -> (n * (w / n) = w)%nat -> (0 < w)%nat -> (forall e, 0 <= f e < 2 ^ Z.of_nat n) ->
  holds_labels w (input_bit n f)
    (pack_words (Z.of_nat w) (Z.of_nat n) ((fun q => f (i + n * q)%nat) <$> seq 0 (w / n)))
    ((fun c => label_of n (i + n * (c / n)) (c mod n)) <$> seq 0 w).
Proof.
  intros Hn Hw Hw0 Hf.
  destruct (pack_words_spec w n ((fun q => f (i + n * q)%nat) <$> seq 0 (w / n))) as [Hr Ht];
    [done|rewrite length_fmap, length_seq; destruct (w / n)%nat; lia|by rewrite length_fmap, length_seq| |].
  { apply Forall_fmap, Forall_true. intros q. apply Hf. }
  split; [by rewrite length_fmap, length_seq|]. split; [done|]. intros c l.
  rewrite list_lookup_fmap. destruct (decide (c < w)%nat) as [Hc|]; [|by rewrite lookup_seq_ge by lia].
  rewrite lookup_seq_lt by done. cbn. intros [= <-]. rewrite Ht.
  assert (c / n < w / n)%nat by (apply Nat.Div0.div_lt_upper_bound; lia).
  rewrite list_lookup_fmap, lookup_seq_lt by done. cbn.
  rewrite input_bit_label by (apply Nat.mod_upper_bound; lia). done.
Qed.

Lemma share_at_ok n a e : Forall (bits_ok n) a -> bits_ok n (share_at a e).
Proof.
  intros Ha. unfold share_at. destruct (a !! e) as [x|] eqn:E.
  - by eapply (Forall_lookup_1 (bits_ok n)).
  - split; cbn; split; try lia; apply Z.pow_pos_nonneg; lia.
Qed.

(** [res] is the transpose of the block [a]: bit [l] of word [b] is bit [b] of
    element [l], in both components. *)
Definition transposed (w n : nat) (a res : list Share) : Prop :=
  length res = n /\ forall b s, res !! b = Some s ->
    bits_ok w s /\
    forall l, (l < w)%nat ->
      Z.testbit (sa s) (Z.of_nat l) = Z.testbit (sa (share_at a l)) (Z.of_nat b) /\
      Z.testbit (sb s) (Z.of_nat l) = Z.testbit (sb (share_at a l)) (Z.of_nat b).

Lemma transpose_block (w n : nat) T `{!IntRing2kOk T} j m a :
  K T = Z.of_nat w -> (0 < n)%nat -> (n * (w / n) = w)%nat -> (0 < w)%nat ->
  Z.of_nat j < Z.of_nat w -> 0 <= m -> Forall (bits_ok n) a ->
  butterfly (label_swp w) (Z.of_nat w) n j m (init_rows w n) = Ok (final_rows w n) ->
  exists res, butterfly (share_swp T) (Z.of_nat w) n j m (packed_row w n a <$> seq 0 n) = Ok res /\
    transposed w n a res.
Proof.
  intros HK Hn Hw Hw0 Hj Hm Ha Hb.
  set (fa := fun e => sa (share_at a e)). set (fb := fun e => sb (share_at a e)).
  destruct (butterfly_sim w T (input_bit n fa) (input_bit n fb) n j m
              (packed_row w n a <$> seq 0 n) (init_rows w n) (final_rows w n)) as (res & Hres & Hr);
    [done..| |done|].
  { unfold init_rows. apply Forall2_fmap, Forall2_same_length_lookup_2; [done|].
    intros i x y Hx Hy. rewrite Hx in Hy. injection Hy as ->. unfold packed_row, pack_shares.
    split; cbn [sa sb]; rewrite <- list_fmap_compose.
    - apply (packed_component w n fa); [done..|]. intros e. apply share_at_ok, Ha.
    - apply (packed_component w n fb); [done..|]. intros e. apply share_at_ok, Ha. }
  exists res. split; [done|]. split.
  { rewrite (Forall2_length _ _ _ Hr). unfold final_rows. by rewrite length_fmap, length_seq. }
  intros b s Hs. destruct (Forall2_lookup_l _ _ _ _ _ Hr Hs) as (row & Hrow & [(Hl & Hva & Ha') (_ & Hvb & Hb')]).
  unfold final_rows in Hrow. rewrite list_lookup_fmap in Hrow.
  destruct (decide (b < n)%nat) as [Hbn|]; [|by rewrite lookup_seq_ge in Hrow by lia].
  rewrite lookup_seq_lt in Hrow by done. injection Hrow as <-. split; [done|]. intros l Hl'.
  assert (((fun l => label_of n l b) <$> seq 0 w) !! l = Some (label_of n l b)) as Hlab
    by by rewrite list_lookup_fmap, lookup_seq_lt.
  rewrite (Ha' _ _ Hlab), (Hb' _ _ Hlab). unfold label_of. by rewrite !input_bit_label.
Qed.

(** The packing loop of a block builds the packed rows. *)
Ltac packed_rows a :=
  apply (mapM_result_ok _ (packed_row _ _ a)); intros i Hi%elem_of_seq;
  rewrite !index_share_at by lia; cbn [mbind result_bind]; f_equal;
  unfold packed_row, share64_from_share16s, share128_from_share16s, share64_from_share32s,
    share128_from_share32s, share128_from_share64s;
  apply f_equal; cbn -[Nat.mul Nat.add];
  repeat (apply (f_equal2 cons); [apply f_equal; lia|]); reflexivity.

Lemma share_transpose16x64_spec a :
  length a = 64%nat -> Forall (bits_ok 16) a ->
  exists res, share_transpose16x64 a = Ok res /\ transposed 64 16 a res.
Proof.
  intros Hl Ha. unfold share_transpose16x64.
  match goal with |- context [mapM_result ?f ?l] =>
    assert (mapM_result f l = Ok (packed_row 64 16 a <$> seq 0 16)) as -> by packed_rows a end.
  apply (transpose_block 64 16 u64); [done|lia|done|lia|done|done|done|apply butterfly_16_64].
Qed.

Lemma share_transpose16x128_spec a :
  length a = 128%nat -> Forall (bits_ok 16) a ->
  exists res, share_transpose16x128 a = Ok res /\ transposed 128 16 a res.
Proof.
  intros Hl Ha. unfold share_transpose16x128.
  match goal with |- context [mapM_result ?f ?l] =>
    assert (mapM_result f l = Ok (packed_row 128 16 a <$> seq 0 16)) as -> by packed_rows a end.
  apply (transpose_block 128 16 u128); [done|lia|done|lia|done|done|done|apply butterfly_16_128].
Qed.

Lemma share_transpose32x64_spec a :
  length a = 64%nat -> Forall (bits_ok 32) a ->
  exists res, share_transpose32x64 a = Ok res /\ transposed 64 32 a res.
Proof.
  intros Hl Ha. unfold share_transpose32x64.
  match goal with |- context [mapM_result ?f ?l] =>
    assert (mapM_result f l = Ok (packed_row 64 32 a <$> seq 0 32)) as -> by packed_rows a end.
  apply (transpose_block 64 32 u64); [done|lia|done|lia|done|done|done|apply butterfly_32_64].
Qed.

Lemma share_transpose32x128_spec a :
  length a = 128%nat -> Forall (bits_ok 32) a ->
  exists res, share_transpose32x128 a = Ok res /\ transposed 128 32 a res.
Proof.
  intros Hl Ha. unfold share_transpose32x128.
  match goal with |- context [mapM_result ?f ?l] =>
    assert (mapM_result f l = Ok (packed_row 128 32 a <$> seq 0 32)) as -> by packed_rows a end.
  apply (transpose_block 128 32 u128); [done|lia|done|lia|done|done|done|apply butterfly_32_128].
Qed.

Lemma share_transpose64x128_spec a :
  length a = 128%nat -> Forall (bits_ok 64) a ->
  exists res, share_transpose64x128 a = Ok res /\ transposed 128 64 a res.
Proof.
  intros Hl Ha. unfold share_transpose64x128.
  match goal with |- context [mapM_result ?f ?l] =>
    assert (mapM_result f l = Ok (packed_row 128 64 a <$> seq 0 64)) as -> by packed_rows a end.
  apply (transpose_block 128 64 u128); [done|lia|done|lia|done|done|done|apply butterfly_64_128].
Qed.

Lemma share_transpose64x64_spec a :
  length a = 64%nat -> Forall (bits_ok 64) a ->
  exists res, share_transpose64x64 a = Ok res /\ transposed 64 64 a res.
Proof.
  intros Hl Ha. unfold share_transpose64x64.
  assert (a = packed_row 64 64 a <$> seq 0 64) as He.
  { apply list_eq. intros i. rewrite list_lookup_fmap.
    destruct (decide (i < 64)%nat) as [Hi|]; [|by rewrite lookup_seq_ge, lookup_ge_None_2 by lia].
    rewrite lookup_seq_lt by done. cbn [fmap option_fmap option_map].
    destruct (lookup_lt_is_Some_2 a i) as [x Hx]; [lia|]. rewrite Hx. f_equal.
    unfold packed_row. cbn -[Nat.mul Nat.add share_at]. rewrite Nat.mul_0_r, Nat.add_0_r.
    change (0 + i)%nat with i. unfold share_at. rewrite Hx. by destruct x. }
  destruct (transpose_block 64 64 u64 32 0x00000000ffffffff a) as (res & Hres & Ht);
    [done|lia|done|lia|done|done|done|apply butterfly_64_64|].
  rewrite <- He in Hres. eauto.
Qed.

(** ** Vectors *)

(** [planes] are the bit planes of [v]: plane [b] has one word of [w] bits per
    block, and bit [l] of its word [j] is bit [b] of entry [w j + l] of [v]
    (zero past the end), in both components. *)
Definition bit_planes (w n : nat) (v : VecShare) (planes : list VecShare) : Prop :=
  length planes = n /\ forall b plane, planes !! b = Some plane ->
    length plane = div_ceil (length v) w /\
    forall j s, plane !! j = Some s ->
      bits_ok w s /\
      forall l, (l < w)%nat ->
        Z.testbit (sa s) (Z.of_nat l) = Z.testbit (sa (share_at v (w * j + l))) (Z.of_nat b) /\
        Z.testbit (sb s) (Z.of_nat l) = Z.testbit (sb (share_at v (w * j + l))) (Z.of_nat b).

Lemma write_column_lookup j trans res b plane :
  length trans = length res -> write_column j trans res !! b = Some plane ->
  exists des src, res !! b = Some des /\ trans !! b = Some src /\ plane = <[j := src]> des.
Proof.
  intros Hl. unfold write_column. rewrite assign2_zip_with by done.
  intros H. apply lookup_zip_with_Some in H as (des & src & -> & ? & ?). eauto.
Qed.

Lemma length_write_column j trans res :
  length trans = length res -> length (write_column j trans res) = length res.
Proof. intros Hl. unfold write_column. rewrite assign2_zip_with by done. rewrite length_zip_with. lia. Qed.

Lemma pad_length w v : (0 < w)%nat -> length (pad w v) = (div_ceil (length v) w * w)%nat.
Proof.
  intros Hw. unfold pad. rewrite length_app, length_replicate.
  assert (length v <= div_ceil (length v) w * w)%nat; [|lia].
  unfold div_ceil. pose proof (Nat.div_mod_eq (length v + w - 1) w).
  pose proof (Nat.mod_upper_bound (length v + w - 1) w). nia.
Qed.

Lemma share_at_pad w v i : share_at (pad w v) i = share_at v i.
Proof.
  unfold share_at, pad. destruct (decide (i < length v)%nat) as [Hi|Hi].
  - by rewrite lookup_app_l.
  - rewrite lookup_app_r, (lookup_ge_None_2 v) by lia. cbn.
    destruct (replicate _ _ !! _) as [x|] eqn:E; [|done]. by apply lookup_replicate in E as [-> _].
Qed.

Lemma bits_ok_default n : bits_ok n share_default.
Proof. split; cbn; split; try lia; apply Z.pow_pos_nonneg; lia. Qed.

Section Blocks.
Context (w n planes_n : nat) (Hw : (0 < w)%nat) (tr : list Share -> result (list Share)).
Hypothesis Htr : forall a, length a = w -> Forall (bits_ok n) a ->
  exists r, tr a = Ok r /\ transposed w planes_n a r.

(** What the first [j] words of every plane hold. *)
Definition planes_upto (v : VecShare) (j : nat) (res : list VecShare) : Prop :=
  length res = planes_n /\ forall b plane, res !! b = Some plane ->
    length plane = div_ceil (length v) w /\
    forall j' s, (j' < j)%nat -> plane !! j' = Some s ->
      bits_ok w s /\
      forall l, (l < w)%nat ->
        Z.testbit (sa s) (Z.of_nat l) = Z.testbit (sa (share_at v (w * j' + l))) (Z.of_nat b) /\
        Z.testbit (sb s) (Z.of_nat l) = Z.testbit (sb (share_at v (w * j' + l))) (Z.of_nat b).

Lemma write_column_planes v j a r res :
  transposed w planes_n a r -> (forall l, (l < w)%nat -> share_at a l = share_at v (w * j + l)) ->
  planes_upto v j res -> planes_upto v (S j) (write_column j r res).
Proof.
  intros [Hrl Hr] Ha [Hl Hres].
  split; [rewrite length_write_column; congruence|]. intros b plane Hb.
  apply write_column_lookup in Hb as (des & src & Hdes & Hsrc & ->); [|congruence].
  destruct (Hres b des Hdes) as [Hdl Hd]. split; [by etransitivity; [apply length_insert|]|].
  intros j' s Hj' Hs. destruct (decide (j' = j)) as [->|Hne].
  - apply list_lookup_insert_Some in Hs as [(_ & <- & _)|[? _]]; [|done].
    destruct (Hr b src Hsrc) as [Hok Hbits]. split; [done|]. intros l Hl'. rewrite <- Ha by done. auto.
  - apply list_lookup_insert_Some in Hs as [(? & _)|[_ Hs]]; [done|]. apply Hd; [lia|done].
Qed.

Lemma transpose_blocks_spec v j blocks res :
  (forall k a, blocks !! k = Some a -> length a = w /\ Forall (bits_ok n) a /\
     forall l, (l < w)%nat -> share_at a l = share_at v (w * (j + k) + l)) ->
  planes_upto v j res ->
  exists res', transpose_blocks tr j blocks res = Ok res' /\ planes_upto v (j + length blocks) res'.
Proof.
  revert j res. induction blocks as [|a blocks IH]; intros j res Hb Hres.
  { exists res. cbn. by rewrite Nat.add_0_r. }
  destruct (Hb 0%nat a eq_refl) as (Hla & Hoa & Ha). rewrite Nat.add_0_r in Ha.
  destruct (Htr a Hla Hoa) as (r & Hr & Ht). cbn [transpose_blocks length]. rewrite Hr.
  cbn [mbind result_bind]. rewrite <- Nat.add_succ_comm. apply IH; [|by eapply write_column_planes].
  intros k a' Hk. replace (S j + k)%nat with (j + S k)%nat by lia. by apply (Hb (S k)).
Qed.

Lemma transpose_pack_spec v :
  Forall (bits_ok n) v ->
  exists planes, transpose_pack w planes_n tr v = Ok planes /\ bit_planes w planes_n v planes.
Proof.
  intros Hv. unfold transpose_pack.
  assert (Forall (bits_ok n) (pad w v)) as Hp.
  { apply Forall_app. split; [done|]. apply Forall_replicate, bits_ok_default. }
  pose proof (pad_length w v Hw) as Hpl.
  pose proof (chunks_exact_Forall _ w _ _ Hw Hp Hpl) as Hc.
  assert (length (chunks w (pad w v)) = div_ceil (length v) w) as Hcl.
  { rewrite length_chunks, Hpl by done. unfold div_ceil at 1.
    rewrite <- Nat.add_sub_assoc, Nat.div_add_l, Nat.div_small; lia. }
  destruct (transpose_blocks_spec v 0 (chunks w (pad w v))
              (replicate planes_n (replicate (div_ceil (length v) w) share_default)))
    as (planes & Hres & Hl & Hpl').
  - intros k a Hk. destruct (Forall_lookup_1 _ _ _ _ Hc Hk) as [Hla Hoa].
    split_and!; [done..|]. intros l Hl. rewrite <- (share_at_pad w v).
    apply chunks_lookup in Hk; [|done]. rewrite Hk. unfold share_at.
    rewrite lookup_take_lt, lookup_drop by done. done.
  - split; [by rewrite length_replicate|]. intros b plane [-> _]%lookup_replicate.
    split; [by rewrite length_replicate|]. intros j' s Hj'. lia.
  - exists planes. split; [done|]. split; [done|]. intros b plane Hb.
    destruct (Hpl' b plane Hb) as [Hlen Hs]. split; [done|]. intros j s Hj.
    apply Hs; [|done]. apply lookup_lt_Some in Hj. lia.
Qed.
End Blocks.

Lemma transposed_take w n m a r :
  (m <= n)%nat -> transposed w n a r -> transposed w m a (take m r).
Proof.
  intros Hm [Hl Hr]. split; [rewrite length_take; lia|]. intros b s Hs.
  apply lookup_take_Some in Hs as [Hs _]. by apply Hr.
Qed.

Lemma share_new_id (v : list Share) : (fun s => share_new (sa s) (sb s)) <$> v = v.
Proof. rewrite <- (list_fmap_id v) at 2. apply list_fmap_ext. by intros i []. Qed.

(** [Transpose64]: what a caller may rely on. *)
(* vecshare_bittranspose.rs:3-5 Transpose64 *)
Class Transpose64 (T : IntRing2k) := {
  transpose_pack_u64 : VecShare -> result (list VecShare);
  transpose_pack_u64_ok : forall v, Forall (share_valid T) v ->
    exists planes, transpose_pack_u64 v = Ok planes /\ bit_planes 64 (Z.to_nat (K T)) v planes;
}.

Lemma transpose_pack_u64_u16_ok v :
  Forall (share_valid u16) v ->
  exists planes, transpose_pack_u64_u16 v = Ok planes /\ bit_planes 64 (Z.to_nat (K u16)) v planes.
Proof. apply (transpose_pack_spec 64 16); [lia|apply share_transpose16x64_spec]. Qed.
#[export] Instance Transpose64_u16 : Transpose64 u16 :=
  {| transpose_pack_u64 := transpose_pack_u64_u16; transpose_pack_u64_ok := transpose_pack_u64_u16_ok |}.
Lemma transpose_pack_u64_u32_ok v :
  Forall (share_valid u32) v ->
  exists planes, transpose_pack_u64_u32 v = Ok planes /\ bit_planes 64 (Z.to_nat (K u32)) v planes.
Proof. apply (transpose_pack_spec 64 32); [lia|apply share_transpose32x64_spec]. Qed.
#[export] Instance Transpose64_u32 : Transpose64 u32 :=
  {| transpose_pack_u64 := transpose_pack_u64_u32; transpose_pack_u64_ok := transpose_pack_u64_u32_ok |}.
Lemma transpose_pack_u64_u64_ok v :
  Forall (share_valid u64) v ->
  exists planes, transpose_pack_u64_u64 v = Ok planes /\ bit_planes 64 (Z.to_nat (K u64)) v planes.
Proof. apply (transpose_pack_spec 64 64); [lia|apply share_transpose64x64_spec]. Qed.
#[export] Instance Transpose64_u64 : Transpose64 u64 :=
  {| transpose_pack_u64 := transpose_pack_u64_u64; transpose_pack_u64_ok := transpose_pack_u64_u64_ok |}.

Lemma ring48_transpose_block a :
  length a = 64%nat -> Forall (bits_ok 48) a ->
  exists r, (t ← share_transpose64x64 ((fun s => share_new (sa s) (sb s)) <$> a); Ok (take 48 t)) = Ok r /\
    transposed 64 48 a r.
Proof.
  intros Hl Ha. rewrite share_new_id.
  destruct (share_transpose64x64_spec a Hl) as (r & -> & Hr).
  { eapply Forall_impl; [done|]. intros s [H1 H2].
    assert (2 ^ Z.of_nat 48 <= 2 ^ Z.of_nat 64) by (apply Z.pow_le_mono_r; lia). split; lia. }
  eexists. split; [done|]. eapply transposed_take; [|done]. lia.
Qed.

Lemma transpose_pack_u64_ring48_ok v :
  Forall (share_valid Ring48) v ->
  exists planes, transpose_pack_u64_ring48 v = Ok planes /\ bit_planes 64 (Z.to_nat (K Ring48)) v planes.
Proof. apply (transpose_pack_spec 64 48); [lia|apply ring48_transpose_block]. Qed.
#[export] Instance Transpose64_ring48 : Transpose64 Ring48 :=
  {| transpose_pack_u64 := transpose_pack_u64_ring48; transpose_pack_u64_ok := transpose_pack_u64_ring48_ok |}.

(** [transpose_pack_u64] bit-slices vectors of 16-, 32-, 64- and 48-bit
    shares: it succeeds on every vector and yields one plane per bit of the
    ring; bit [l] of word [j] of plane [b] is bit [b] of share [64 j + l], in
    both components, with zeros past the end. *)
Theorem transpose_pack_u64_correct v :
  (Forall (bits_ok 16) v -> exists p, transpose_pack_u64_u16 v = Ok p /\ bit_planes 64 16 v p) /\
  (Forall (bits_ok 32) v -> exists p, transpose_pack_u64_u32 v = Ok p /\ bit_planes 64 32 v p) /\
  (Forall (bits_ok 64) v -> exists p, transpose_pack_u64_u64 v = Ok p /\ bit_planes 64 64 v p) /\
  (Forall (bits_ok 48) v -> exists p, transpose_pack_u64_ring48 v = Ok p /\ bit_planes 64 48 v p).
Proof.
  split_and!; apply transpose_pack_spec; try lia.
  - apply share_transpose16x64_spec.
  - apply share_transpose32x64_spec.
  - apply share_transpose64x64_spec.
  - apply ring48_transpose_block.
Qed.

Lemma transpose_pack_u64_correct_witness :
  Forall (bits_ok 16) [mkShare 5 40000; mkShare 65535 1] /\
  exists p, transpose_pack_u64_u16 [mkShare 5 40000; mkShare 65535 1] = Ok p /\
    bit_planes 64 16 [mkShare 5 40000; mkShare 65535 1] p.
Proof.
  assert (Forall (bits_ok 16) [mkShare 5 40000; mkShare 65535 1]) as H
    by (repeat constructor; vm_compute; done).
  split; [exact H|]. apply (transpose_pack_u64_correct [mkShare 5 40000; mkShare 65535 1]); exact H.
Defined.

(** [transpose_pack_u128] does the same with words of 128 bits. *)
Theorem transpose_pack_u128_correct v :
  (Forall (bits_ok 16) v -> exists p, transpose_pack_u128_u16 v = Ok p /\ bit_planes 128 16 v p) /\
  (Forall (bits_ok 32) v -> exists p, transpose_pack_u128_u32 v = Ok p /\ bit_planes 128 32 v p) /\
  (Forall (bits_ok 64) v -> exists p, transpose_pack_u128_u64 v = Ok p /\ bit_planes 128 64 v p).
Proof.
  split_and!; apply transpose_pack_spec; try lia.
  - apply share_transpose16x128_spec.
  - apply share_transpose32x128_spec.
  - apply share_transpose64x128_spec.
Qed.

Lemma transpose_pack_u128_correct_witness :
  Forall (bits_ok 16) [mkShare 5 40000; mkShare 65535 1] /\
  exists p, transpose_pack_u128_u16 [mkShare 5 40000; mkShare 65535 1] = Ok p /\
    bit_planes 128 16 [mkShare 5 40000; mkShare 65535 1] p.
Proof.
  assert (Forall (bits_ok 16) [mkShare 5 40000; mkShare 65535 1]) as H
    by (repeat constructor; vm_compute; done).
  split; [exact H|]. apply (transpose_pack_u128_correct [mkShare 5 40000; mkShare 65535 1]); exact H.
Defined.
