(* ===== verification/Value.v ===== *)
(** * The wire format: [ampc-actor-utils/src/network/mpc/value.rs]

    [NetworkValue] with its serializer and deserializer, the packing of bit
    vectors and the [NetworkInt] conversions.  A byte is a [Z] in [0, 256);
    a buffer is a list of bytes.  The machine is little-endian, and [usize]
    arithmetic on lengths stays far from its bound, so lengths are [nat]. *)

From S2P Require Import Prelude IntRing RingImpl Party Share VecShare.
From stdpp Require Import base list numbers strings.
From Stdlib Require Import ZArith Lia.
Local Open Scope Z_scope.

(** ** Little-endian integers *)

Definition byte_ok (b : Z) : Prop := 0 <= b < 256.

Fixpoint to_le_bytes (n : nat) (x : Z) : list Z :=
  match n with O => [] | S n => x mod 256 :: to_le_bytes n (x / 256) end.
Fixpoint from_le_bytes (l : list Z) : Z :=
  match l with [] => 0 | b :: l => b + 256 * from_le_bytes l end.

(** The sub-slice [l[i..j]]: out of range panics. *)
Definition slice {A} (l : list A) (i j : nat) : result (list A) :=
  if (i <=? j)%nat && (j <=? length l)%nat then Ok (take (j - i) (drop i l))
  else panic "range out of bounds".

(** [res[i..i + bytes.len()].copy_from_slice(bytes)]. *)
Definition copy_at {A} (res : list A) (i : nat) (bytes : list A) : list A :=
  take i res ++ bytes ++ drop (i + length bytes) res.

(** ** Values *)

Definition PRF_KEY_SIZE : nat := 16.

(* mpc/value.rs:133-136 StateChecksum *)
Record StateChecksum := mkChecksum { irises : Z; graph : Z }.

#[export] Instance StateChecksum_eq_dec : EqDecision StateChecksum.
Proof. solve_decision. Defined.

(* mpc/value.rs:139-145 StateChecksum::check_left_vs_right *)
Definition check_left_vs_right (self right : StateChecksum) : result unit :=
  if negb (Z.eqb (irises self) (irises right)) then bail "Left/Right iris stores are inconsistent"
  else Ok tt.

(* mpc/value.rs:61-85 NetworkValue *)
Inductive NetworkValue :=
| PrfKey (key : list Z)
| RingElementBit (x : Z)
| RingElement16 (x : Z)
| RingElement32 (x : Z)
| RingElement64 (x : Z)
| VecRing16 (v : list Z)
| VecRing32 (v : list Z)
| VecRing64 (v : list Z)
| RingElement48 (x : Z)
| VecRing48 (v : list Z)
| VChecksum (c : StateChecksum)
| NetworkVec (v : list NetworkValue)
| PrfCheck (x : Z)
| VBytes (v : list Z)
| VecRingBit (packed : list Z) (bit_count : nat)
| PreFramed (bytes : list Z).

(* mpc/value.rs:89-107 DescriptorByte *)
Inductive DescriptorByte :=
| DPrfKey | DRingElementBit1 | DRingElementBit0 | DRingElement16 | DRingElement32 | DRingElement64
| DVecRing16 | DVecRing32 | DVecRing64 | DStateChecksum | DNetworkVec | DPrfCheck | DBytes
| DRingElement48 | DVecRing48 | DVecRingBit.

#[export] Instance DescriptorByte_eq_dec : EqDecision DescriptorByte.
Proof. solve_decision. Defined.

(** [IntoPrimitive]: the discriminant. *)
Definition descriptor_u8 (d : DescriptorByte) : Z :=
  match d with
  | DPrfKey => 0x01 | DRingElementBit1 => 0x12 | DRingElementBit0 => 0x02
  | DRingElement16 => 0x03 | DRingElement32 => 0x04 | DRingElement64 => 0x05
  | DVecRing16 => 0x06 | DVecRing32 => 0x07 | DVecRing64 => 0x08
  | DStateChecksum => 0x09 | DNetworkVec => 0x0A | DPrfCheck => 0x0B | DBytes => 0x0C
  | DRingElement48 => 0x0D | DVecRing48 => 0x0E | DVecRingBit => 0x0F
  end.

(** [TryFromPrimitive]. *)
Definition all_descriptors : list DescriptorByte :=
  [DPrfKey; DRingElementBit1; DRingElementBit0; DRingElement16; DRingElement32; DRingElement64;
   DVecRing16; DVecRing32; DVecRing64; DStateChecksum; DNetworkVec; DPrfCheck; DBytes;
   DRingElement48; DVecRing48; DVecRingBit].
Definition descriptor_try_from (b : Z) : result DescriptorByte :=
  ok_or (snd <$> list_find (fun d => descriptor_u8 d = b) all_descriptors)
    "No discriminant in enum `DescriptorByte` matches the value".

(* mpc/value.rs:111-129 DescriptorByte::base_len *)
Definition base_len (d : DescriptorByte) : nat :=
  match d with
  | DPrfKey => 1 + PRF_KEY_SIZE
  | DRingElementBit1 | DRingElementBit0 => 1
  | DRingElement16 => 3
  | DRingElement32 => 5
  | DRingElement64 => 9
  | DRingElement48 => 7
  | DVecRing16 | DVecRing32 | DVecRing64 | DVecRing48 => 5
  | DStateChecksum => 1 + 8 + 8
  | DNetworkVec => 5
  | DPrfCheck => 1 + 16
  | DBytes => 5
  | DVecRingBit => 5
  end.

(* mpc/value.rs:149-177 NetworkValue::get_descriptor_byte *)
Definition get_descriptor_byte (self : NetworkValue) : result Z :=
  let db d := Ok (descriptor_u8 d) in
  match self with
  | PrfKey _ => db DPrfKey
  | RingElementBit bit => if bit_convert bit then db DRingElementBit1 else db DRingElementBit0
  | RingElement16 _ => db DRingElement16
  | RingElement32 _ => db DRingElement32
  | RingElement64 _ => db DRingElement64
  | VecRing16 _ => db DVecRing16
  | VecRing32 _ => db DVecRing32
  | VecRing64 _ => db DVecRing64
  | RingElement48 _ => db DRingElement48
  | VecRing48 _ => db DVecRing48
  | VChecksum _ => db DStateChecksum
  | NetworkVec _ => db DNetworkVec
  | PrfCheck _ => db DPrfCheck
  | VBytes _ => db DBytes
  | VecRingBit _ _ => db DVecRingBit
  | PreFramed bytes =>
      match bytes with b :: _ => Ok b | [] => panic "PreFramed message cannot be empty" end
  end.

(* mpc/value.rs:179-197 NetworkValue::byte_len *)
Fixpoint byte_len (self : NetworkValue) : result nat :=
  match self with
  | PreFramed bytes => Ok (length bytes)
  | _ =>
      b ← get_descriptor_byte self;
      db ← match descriptor_try_from b with
           | Ok db => Ok db
           | Err _ => panic "invalid descriptor byte"
           end;
      let base_len := base_len db in
      match self with
      | VecRing16 v => Ok (base_len + 2 * length v)%nat
      | VecRing32 v => Ok (base_len + 4 * length v)%nat
      | VecRing64 v => Ok (base_len + 8 * length v)%nat
      | VecRing48 v => Ok (base_len + BYTES Ring48 * length v)%nat
      | NetworkVec v => lens ← mapM_result byte_len v; Ok (base_len + sum_list lens)%nat
      | VBytes v => Ok (base_len + length v)%nat
      | VecRingBit bytes _ => Ok (base_len + length bytes)%nat
      | _ => Ok base_len
      end
  end.

(** ** Serialization

    The buffer [res] is threaded through; [to_le_bytes (SIZE_OF T) x] is the
    memory of an element. *)

(* mpc/value.rs:17-54 serialize_vec_ring *)
Definition serialize_vec_ring (T : IntRing2k) (v : list Z) (res : list Z) : list Z :=
  let wire_bytes := BYTES T in
  let byte_len := (length v * wire_bytes)%nat in
  let res := res ++ to_le_bytes 4 (Z.of_nat byte_len mod 2 ^ 32) in
  if (wire_bytes =? SIZE_OF T)%nat then
    res ++ concat (to_le_bytes (SIZE_OF T) <$> v)
  else
    foldl (fun res x => res ++ take wire_bytes (to_le_bytes (SIZE_OF T) x)) res v.

(* mpc/value.rs:224-264 NetworkValue::serialize_internal *)
Definition serialize_internal (self : NetworkValue) (res : list Z) : result (list Z) :=
  d ← get_descriptor_byte self;
  let res := res ++ [d] in
  match self with
  | PrfKey key => Ok (res ++ key)
  | PrfCheck v => Ok (res ++ to_le_bytes 16 v)
  | RingElementBit _ => Ok res
  | RingElement16 x => Ok (res ++ to_le_bytes 2 x)
  | RingElement32 x => Ok (res ++ to_le_bytes 4 x)
  | RingElement64 x => Ok (res ++ to_le_bytes 8 x)
  | VecRing16 v => Ok (serialize_vec_ring u16 v res)
  | VecRing32 v => Ok (serialize_vec_ring u32 v res)
  | VecRing64 v => Ok (serialize_vec_ring u64 v res)
  | RingElement48 x => Ok (res ++ take (BYTES Ring48) (to_le_bytes 8 x))
  | VecRing48 v => Ok (serialize_vec_ring Ring48 v res)
  | VChecksum checksums =>
      let res := res ++ to_le_bytes 8 (irises checksums) in
      Ok (res ++ to_le_bytes 8 (graph checksums))
  | VBytes v => let res := res ++ to_le_bytes 4 (Z.of_nat (length v) mod 2 ^ 32) in Ok (res ++ v)
  | VecRingBit bytes bit_count =>
      let res := res ++ to_le_bytes 4 (Z.of_nat bit_count mod 2 ^ 32) in Ok (res ++ bytes)
  | PreFramed bytes => let res := take (length res - 1) res in Ok (res ++ bytes)
  | NetworkVec _ => panic "unreachable"
  end.

Fixpoint serialize_all (values : list NetworkValue) (res : list Z) : result (list Z) :=
  match values with
  | [] => Ok res
  | value :: values => res ← serialize_internal value res; serialize_all values res
  end.

(* mpc/value.rs:211-222 NetworkValue::serialize_vec *)
Definition serialize_vec (values : list NetworkValue) (res : list Z) : result (list Z) :=
  let res_start := length res in
  let res := res ++ [descriptor_u8 DNetworkVec] in
  let len_idx := length res in
  let res := res ++ replicate 4 0 in
  res ← serialize_all values res;
  let msg_len := (length res - res_start)%nat in
  Ok (copy_at res len_idx (to_le_bytes 4 (Z.of_nat (msg_len - 5) mod 2 ^ 32))).

(* mpc/value.rs:201-209 NetworkValue::serialize *)
Definition serialize (self : NetworkValue) (res : list Z) : result (list Z) :=
  match self with
  | NetworkVec v => serialize_vec v res
  | PreFramed bytes => Ok (res ++ bytes)
  | _ => serialize_internal self res
  end.

(** ** Deserialization *)

(* mpc/value.rs:569-646 deserialize_vec_ring *)
Definition deserialize_vec_ring (T : IntRing2k) (serialized : list Z) : result (list Z) :=
  let wire_bytes := BYTES T in
  if (length serialized <? 5)%nat then bail "Invalid length for VecRing: too short" else
  b ← slice serialized 1 5;
  let len := Z.to_nat (from_le_bytes b) in
  if negb (length serialized =? 5 + len)%nat then
    bail "Invalid length for VecRing: length mismatch" else
  if negb (len mod wire_bytes =? 0)%nat then
    bail "invalid length for VecRing: does not divide type length" else
  let num_elements := (len / wire_bytes)%nat in
  if (wire_bytes =? SIZE_OF T)%nat then
    Ok (from_le_bytes <$> chunks (SIZE_OF T) (drop 5 serialized))
  else
    mapM_result (fun i =>
        src ← slice serialized (5 + i * wire_bytes) (5 + (i + 1) * wire_bytes);
        Ok (from_le_bytes (copy_at (to_le_bytes (SIZE_OF T) (tzero T)) 0 src)))
      (seq 0 num_elements).

(* mpc/value.rs:339-477 NetworkValue::deserialize_internal *)
Definition deserialize_internal (serialized : list Z) : result NetworkValue :=
  match serialized with
  | [] => bail "Empty serialized data"
  | descriptor :: _ =>
    descriptor_byte ← descriptor_try_from descriptor;
    match descriptor_byte with
    | DPrfKey =>
        if negb (length serialized =? 1 + PRF_KEY_SIZE)%nat then bail "Invalid length for PrfKey" else
        b ← slice serialized 1 (1 + PRF_KEY_SIZE); Ok (PrfKey b)
    | DPrfCheck =>
        if negb (length serialized =? 1 + 16)%nat then bail "Invalid length for PrfSqueeze" else
        b ← slice serialized 1 (1 + 16); Ok (PrfCheck (from_le_bytes b))
    | DRingElementBit1 | DRingElementBit0 =>
        if negb (length serialized =? 1)%nat then bail "Invalid length for RingElementBit" else
        let bit := if Z.eqb descriptor (descriptor_u8 DRingElementBit1)
                   then bit_new true else bit_new false in
        Ok (RingElementBit bit)
    | DRingElement16 =>
        if negb (length serialized =? 3)%nat then bail "Invalid length for RingElement16" else
        b ← slice serialized 1 3; Ok (RingElement16 (from_le_bytes b))
    | DRingElement32 =>
        if negb (length serialized =? 5)%nat then bail "Invalid length for RingElement32" else
        b ← slice serialized 1 5; Ok (RingElement32 (from_le_bytes b))
    | DRingElement64 =>
        if negb (length serialized =? 9)%nat then bail "Invalid length for RingElement64" else
        b ← slice serialized 1 9; Ok (RingElement64 (from_le_bytes b))
    | DVecRing16 => res ← deserialize_vec_ring u16 serialized; Ok (VecRing16 res)
    | DVecRing32 => res ← deserialize_vec_ring u32 serialized; Ok (VecRing32 res)
    | DVecRing64 => res ← deserialize_vec_ring u64 serialized; Ok (VecRing64 res)
    | DRingElement48 =>
        if negb (length serialized =? 1 + BYTES Ring48)%nat then bail "Invalid length for RingElement48" else
        b ← slice serialized 1 (1 + BYTES Ring48);
        Ok (RingElement48 (from_le_bytes (copy_at (replicate 8 0) 0 b)))
    | DVecRing48 => res ← deserialize_vec_ring Ring48 serialized; Ok (VecRing48 res)
    | DStateChecksum =>
        if negb (length serialized =? 1 + 8 * 2)%nat then bail "Invalid length for StateChecksum" else
        x ← slice serialized 1 9;
        y ← slice serialized 9 17;
        Ok (VChecksum (mkChecksum (from_le_bytes x) (from_le_bytes y)))
    | DBytes =>
        if (length serialized <? 5)%nat then bail "Invalid length for Bytes: too short" else
        b ← slice serialized 1 5;
        let len := Z.to_nat (from_le_bytes b) in
        if negb (length serialized =? 5 + len)%nat then bail "Invalid length for Bytes: length mismatch" else
        b ← slice serialized 5 (5 + len); Ok (VBytes b)
    | DVecRingBit =>
        if (length serialized <? 5)%nat then bail "Invalid length for VecRingBit: too short" else
        b ← slice serialized 1 5;
        let bit_count := Z.to_nat (from_le_bytes b) in
        let byte_len := div_ceil bit_count 8 in
        if negb (length serialized =? 5 + byte_len)%nat then bail "Invalid length for VecRingBit" else
        b ← slice serialized 5 (5 + byte_len); Ok (VecRingBit b bit_count)
    | DNetworkVec => bail "Invalid network value type"
    end
  end.

(** The length of the entry at [idx] of a [NetworkVec] payload. *)
(* mpc/value.rs:299-330 NetworkValue::deserialize_vec (value_len) *)
Definition entry_len (serialized : list Z) (idx end_idx : nat) : result nat :=
  b ← index serialized idx;
  descriptor_byte ← descriptor_try_from b;
  match descriptor_byte with
  | DRingElementBit0 | DRingElementBit1 => Ok 1%nat
  | DRingElement16 => Ok 3%nat
  | DRingElement32 => Ok 5%nat
  | DRingElement64 => Ok 9%nat
  | DRingElement48 => Ok (1 + BYTES Ring48)%nat
  | DVecRing16 | DVecRing32 | DVecRing64 | DVecRing48 | DBytes =>
      if (end_idx <? idx + 5)%nat then bail "Invalid length for VecRing: can't parse vector length" else
      b ← slice serialized (idx + 1) (idx + 5);
      Ok (5 + Z.to_nat (from_le_bytes b))%nat
  | DVecRingBit =>
      if (end_idx <? idx + 5)%nat then bail "Invalid length for VecRingBit: can't parse bit count" else
      b ← slice serialized (idx + 1) (idx + 5);
      Ok (5 + div_ceil (Z.to_nat (from_le_bytes b)) 8)%nat
  | _ => bail "Invalid type for NetworkVec"
  end.

(** The parsing loop; every iteration consumes at least one byte, so
    [end_idx - idx] iterations suffice ([deserialize_loop_fuel]). *)
(* mpc/value.rs:294-337 NetworkValue::deserialize_vec (loop) *)
Fixpoint deserialize_loop (fuel : nat) (serialized : list Z) (idx end_idx : nat)
    : result (list NetworkValue) :=
  if (idx <? end_idx)%nat then
    match fuel with
    | O => panic "out of fuel"
    | S fuel =>
        value_len ← entry_len serialized idx end_idx;
        s ← slice serialized idx (idx + value_len);
        x ← deserialize_internal s;
        res ← deserialize_loop fuel serialized (idx + value_len) end_idx;
        Ok (x :: res)
    end
  else Ok [].

(* mpc/value.rs:278-337 NetworkValue::deserialize_vec *)
Definition deserialize_vec (serialized : list Z) : result (list NetworkValue) :=
  if (length serialized <? 5)%nat then bail "Can't parse vector length: buffer too short" else
  b0 ← index serialized 0;
  if negb (Z.eqb b0 (descriptor_u8 DNetworkVec)) then
    bail "called deserialize_vec() on invalid buffer" else
  b ← slice serialized 1 5;
  let payload_len := Z.to_nat (from_le_bytes b) in
  if negb (length serialized =? 5 + payload_len)%nat then bail "NetworkVec length mismatch" else
  deserialize_loop payload_len serialized 5 (5 + payload_len).

(* mpc/value.rs:266-276 NetworkValue::deserialize *)
Definition deserialize (serialized : list Z) : result NetworkValue :=
  if default false ((fun byte => Z.eqb byte (descriptor_u8 DNetworkVec)) <$> head serialized) then
    v ← deserialize_vec serialized; Ok (NetworkVec v)
  else deserialize_internal serialized.

(* mpc/value.rs:481-485 NetworkValue::to_network *)
Definition to_network (self : NetworkValue) : result (list Z) :=
  _ ← byte_len self; serialize self [].

(* mpc/value.rs:489-494 NetworkValue::into_network *)
Definition into_network (self : NetworkValue) : result (list Z) :=
  match self with PreFramed bytes => Ok bytes | other => to_network other end.

(* mpc/value.rs:496-498 NetworkValue::vec_to_network *)
Definition vec_to_network (v : list NetworkValue) : NetworkValue := NetworkVec v.

(* mpc/value.rs:500-508 NetworkValue::vec_from_network *)
Definition vec_from_network (nv : NetworkValue) : result (list NetworkValue) :=
  match nv with
  | NetworkVec v => Ok v
  | _ => _ ← get_descriptor_byte nv; bail "expected NetworkVec"
  end.

(** ** Bit vectors *)

(** [value |= (bit as u8) << index] over a chunk. *)
Fixpoint or_bits (value : Z) (i : nat) (chunk : list Z) : Z :=
  match chunk with
  | [] => value
  | bit :: chunk => or_bits (Z.lor value (Z.shiftl (Z.b2z (bit_convert bit)) (Z.of_nat i) mod 256)) (S i) chunk
  end.

(** [for (byte, chunk) in packed.iter_mut().zip(chunks_exact(8))], then the
    remainder is ORed into the last byte. *)
(* mpc/value.rs:512-536 NetworkValue::pack_bits *)
Definition pack_bits (bits : list Z) : NetworkValue :=
  let bit_count := length bits in
  let byte_len := div_ceil bit_count 8 in
  let packed := replicate byte_len 0 in
  let full := (8 * (bit_count / 8))%nat in
  let packed := assign2 (fun _ chunk => or_bits 0 0 chunk) packed (chunks 8 (take full bits)) in
  let remainder := drop full bits in
  let packed :=
    match remainder with
    | [] => packed
    | _ => alter (fun last => or_bits last 0 remainder) (length packed - 1)%nat packed
    end in
  VecRingBit packed bit_count.

(** The byte loop of [unpack_bits]; [bits] is what has been pushed so far. *)
Fixpoint unpack_loop (packed : list Z) (bit_count : nat) (bits : list Z) : list Z :=
  match packed with
  | [] => bits
  | byte :: packed =>
      let take := ((bit_count - length bits) `min` 8)%nat in
      let bits := bits ++ ((fun i => bit_new (Z.eqb (Z.land (Z.shiftr byte (Z.of_nat i)) 1) 1))
                             <$> seq 0 take) in
      if (take <? 8)%nat then bits else unpack_loop packed bit_count bits
  end.

(** [unpack_bits] without its recursive call on a deserialized [PreFramed]. *)
Definition unpack_bits_framed (self : NetworkValue) (framed : list Z -> result (list Z)) : result (list Z) :=
  match self with
  | VecRingBit packed bit_count =>
      let bits := unpack_loop packed bit_count [] in
      if negb (length bits =? bit_count)%nat then bail "VecRingBit is shorter than its bit count"
      else Ok bits
  | RingElementBit bit => Ok [bit]
  | PreFramed bytes => framed bytes
  | _ => _ ← get_descriptor_byte self; bail "expected VecRingBit or RingElementBit"
  end.

(** Deserialization never yields a [PreFramed] value
    ([deserialize_not_preframed]), so the recursion is at most one level deep. *)
(* mpc/value.rs:539-566 NetworkValue::unpack_bits *)
Definition unpack_bits (self : NetworkValue) : result (list Z) :=
  unpack_bits_framed self (fun bytes =>
    v ← deserialize bytes;
    unpack_bits_framed v (fun _ => panic "out of fuel")).

(** ** [NetworkInt] *)

(* mpc/value.rs:648-657 NetworkInt *)
Record NetworkInt := {
  ni_ring : IntRing2k;
  new_network_element : Z -> NetworkValue;
  new_network_vec : list Z -> NetworkValue;
  vec_descriptor : DescriptorByte;
  as_vec : NetworkValue -> option (list Z);
}.
Coercion ni_ring : NetworkInt >-> IntRing2k.

Definition vec_descriptor_byte (T : NetworkInt) : Z := descriptor_u8 (vec_descriptor T).

(* mpc/value.rs:659-692 impl_network_int! *)
Definition impl_network_int (T : IntRing2k) (elem : Z -> NetworkValue)
    (vec : list Z -> NetworkValue) (d : DescriptorByte) (proj : NetworkValue -> option (list Z))
    : NetworkInt :=
  {| ni_ring := T; new_network_element := elem; new_network_vec := vec;
     vec_descriptor := d; as_vec := proj |}.

(** [as_vec] is the first two arms of [into_vec]: the type's element and
    vector variants. *)
Definition net_u16 : NetworkInt := impl_network_int u16 RingElement16 VecRing16 DVecRing16
  (fun v => match v with RingElement16 e => Some [e] | VecRing16 v => Some v | _ => None end).
Definition net_u32 : NetworkInt := impl_network_int u32 RingElement32 VecRing32 DVecRing32
  (fun v => match v with RingElement32 e => Some [e] | VecRing32 v => Some v | _ => None end).
Definition net_u64 : NetworkInt := impl_network_int u64 RingElement64 VecRing64 DVecRing64
  (fun v => match v with RingElement64 e => Some [e] | VecRing64 v => Some v | _ => None end).
Definition net_ring48 : NetworkInt := impl_network_int Ring48 RingElement48 VecRing48 DVecRing48
  (fun v => match v with RingElement48 e => Some [e] | VecRing48 v => Some v | _ => None end).

Definition into_vec_framed (T : NetworkInt) (val : NetworkValue) (framed : list Z -> result (list Z))
    : result (list Z) :=
  match as_vec T val with
  | Some v => Ok v
  | None => match val with
            | PreFramed bytes => framed bytes
            | _ => bail "Invalid conversion to Vec<RingElement>"
            end
  end.

(* mpc/value.rs:671-683 NetworkInt::into_vec *)
Definition into_vec (T : NetworkInt) (val : NetworkValue) : result (list Z) :=
  into_vec_framed T val (fun bytes =>
    v ← deserialize bytes; into_vec_framed T v (fun _ => panic "out of fuel")).

(** ** Little-endian lemmas *)

Lemma length_to_le n x : length (to_le_bytes n x) = n.
Proof. revert x. induction n as [|n IH]; intros x; simpl; [done|]. by rewrite IH. Qed.

Lemma to_le_ok n x : Forall byte_ok (to_le_bytes n x).
Proof.
  revert x. induction n as [|n IH]; intros x; simpl; constructor; [|done].
  apply Z.mod_pos_bound. lia.
Qed.

Lemma from_to_le n x : 0 <= x < 256 ^ Z.of_nat n -> from_le_bytes (to_le_bytes n x) = x.
Proof.
  revert x. induction n as [|n IH]; intros x Hx.
  { change (256 ^ Z.of_nat 0) with 1 in Hx. simpl. lia. }
  cbn [to_le_bytes from_le_bytes].
  rewrite Nat2Z.inj_succ, Z.pow_succ_r in Hx by lia.
  rewrite IH.
  - pose proof (Z.div_mod x 256). lia.
  - split; [apply Z.div_pos; lia|]. apply Z.div_lt_upper_bound; lia.
Qed.

Lemma from_le_range l : Forall byte_ok l -> 0 <= from_le_bytes l < 256 ^ Z.of_nat (length l).
Proof.
  induction 1 as [|b l Hb Hl IH]; [done|]. cbn [from_le_bytes length].
  rewrite Nat2Z.inj_succ, Z.pow_succ_r by lia. unfold byte_ok in Hb. lia.
Qed.

Lemma to_from_le n l : Forall byte_ok l -> length l = n -> to_le_bytes n (from_le_bytes l) = l.
Proof.
  intros Hl <-. induction Hl as [|b l Hb Hl IH]; [done|]. cbn [length to_le_bytes from_le_bytes].
  unfold byte_ok in Hb. rewrite (Z.mul_comm 256), Z.div_add, Z.mod_add by lia.
  rewrite (Z.div_small b), (Z.mod_small b), Z.add_0_l, IH by lia. done.
Qed.

Lemma take_to_le m n x : (m <= n)%nat -> take m (to_le_bytes n x) = to_le_bytes m x.
Proof.
  revert n x. induction m as [|m IH]; intros [|n] x H; [done..|lia|].
  simpl. f_equal. apply IH. lia.
Qed.

Lemma from_le_zeros l n : from_le_bytes (l ++ replicate n 0) = from_le_bytes l.
Proof.
  induction l as [|b l IH]; simpl; [|by rewrite IH]. induction n as [|n IH]; [done|].
  simpl. by rewrite IH.
Qed.

Lemma to_le_zero n : to_le_bytes n 0 = replicate n 0.
Proof. induction n as [|n IH]; [done|]. cbn [to_le_bytes replicate].
  change (0 / 256) with 0. by rewrite IH. Qed.

Lemma copy_zeros n (b : list Z) : copy_at (replicate n 0) 0 b = b ++ replicate (n - length b) 0.
Proof. unfold copy_at. simpl. by rewrite drop_replicate. Qed.

Lemma slice_app {A} (l a b c : list A) i j :
  l = a ++ b ++ c -> i = length a -> j = (i + length b)%nat -> slice l i j = Ok b.
Proof.
  intros -> -> ->. unfold slice. rewrite !length_app.
  rewrite (proj2 (Nat.leb_le _ _)), (proj2 (Nat.leb_le _ _)) by lia. simpl.
  rewrite drop_app_length. replace (length a + length b - length a)%nat with (length b) by lia.
  by rewrite take_app_length.
Qed.

Lemma slice_inv {A} (l s : list A) i j :
  slice l i j = Ok s -> s = take (j - i) (drop i l) /\ (i <= j <= length l)%nat.
Proof.
  unfold slice. destruct (Nat.leb_spec i j), (Nat.leb_spec j (length l)); simpl; intros [= <-]; done.
Qed.

Lemma slice_ok {A} (l : list A) i j :
  (i <= j <= length l)%nat -> slice l i j = Ok (take (j - i) (drop i l)).
Proof.
  intros H. unfold slice. by rewrite (proj2 (Nat.leb_le _ _)), (proj2 (Nat.leb_le _ _)) by lia.
Qed.

Lemma u32_len_bytes n :
  Z.of_nat n < 2 ^ 32 ->
  Z.to_nat (from_le_bytes (to_le_bytes 4 (Z.of_nat n mod 2 ^ 32))) = n.
Proof.
  intros H. rewrite Z.mod_small, from_to_le by (change (256 ^ Z.of_nat 4) with (2 ^ 32) || lia; lia).
  lia.
Qed.

(** The inverse: four bytes read as a length and written back. *)
Lemma u32_bytes_len b :
  Forall byte_ok b -> length b = 4%nat ->
  to_le_bytes 4 (Z.of_nat (Z.to_nat (from_le_bytes b)) mod 2 ^ 32) = b.
Proof.
  intros Hb Hl. pose proof (from_le_range _ Hb) as Hr. rewrite Hl in Hr.
  change (256 ^ Z.of_nat 4) with (2 ^ 32) in Hr.
  rewrite Z2Nat.id, Z.mod_small by lia. by apply to_from_le.
Qed.

(** A buffer whose bytes 1 to 4 are read as a length. *)
Lemma read_len bs :
  Forall byte_ok bs -> (5 <= length bs)%nat ->
  exists h, slice bs 1 5 = Ok h /\ length h = 4%nat /\ 0 <= from_le_bytes h < 2 ^ 32 /\
    to_le_bytes 4 (Z.of_nat (Z.to_nat (from_le_bytes h)) mod 2 ^ 32) = h /\
    bs = take 1 bs ++ h ++ drop 5 bs.
Proof.
  intros Hbs Hl. exists (take 4 (drop 1 bs)).
  assert (Forall byte_ok (take 4 (drop 1 bs))) as Hh by by apply Forall_take, Forall_drop.
  assert (length (take 4 (drop 1 bs)) = 4%nat) as Hhl by (rewrite length_take, length_drop; lia).
  pose proof (from_le_range _ Hh) as Hr. rewrite Hhl in Hr.
  split_and!; try done; try lia.
  - by rewrite slice_ok by lia.
  - by apply u32_bytes_len.
  - rewrite <- (take_drop 1 bs) at 1. f_equal. rewrite <- (take_drop 4 (drop 1 bs)) at 1.
    by rewrite drop_drop.
Qed.

(** ** Vectors of ring elements on the wire *)

(** What the wire format needs of a ring: its elements fill [BYTES] bytes. *)
Class WireRing (T : IntRing2k) : Prop := {
  wr_ok :: IntRing2kOk T;
  wr_K : K T = 8 * Z.of_nat (BYTES T);
  wr_bytes : (0 < BYTES T <= SIZE_OF T)%nat;
}.
#[export] Instance u16_wire : WireRing u16.
Proof. split; [apply _|done|simpl; lia]. Qed.
#[export] Instance u32_wire : WireRing u32.
Proof. split; [apply _|done|simpl; lia]. Qed.
#[export] Instance u64_wire : WireRing u64.
Proof. split; [apply _|done|simpl; lia]. Qed.
#[export] Instance ring48_wire : WireRing Ring48.
Proof. split; [apply _|done|simpl; lia]. Qed.

Section VecRing.
Context {T : IntRing2k} {HT : WireRing T}.

Lemma wire_modulus : 256 ^ Z.of_nat (BYTES T) = 2 ^ K T.
Proof. rewrite wr_K, Z.pow_mul_r by lia. done. Qed.

Lemma concat_to_le_length n (v : list Z) : length (concat (to_le_bytes n <$> v)) = (length v * n)%nat.
Proof.
  induction v as [|x v IH]; [done|]. rewrite fmap_cons. cbn [concat length].
  by rewrite length_app, length_to_le, IH.
Qed.

Lemma serialize_vec_ring_eq v res :
  serialize_vec_ring T v res
  = res ++ to_le_bytes 4 (Z.of_nat (length v * BYTES T) mod 2 ^ 32)
        ++ concat (to_le_bytes (BYTES T) <$> v).
Proof.
  destruct wr_bytes as [H0 H1]. unfold serialize_vec_ring. rewrite (app_assoc res).
  destruct (Nat.eqb_spec (BYTES T) (SIZE_OF T)) as [->|Hne]; [done|].
  generalize (res ++ to_le_bytes 4 (Z.of_nat (length v * BYTES T) mod 2 ^ 32)).
  induction v as [|x v IH]; intros r; [by rewrite app_nil_r|].
  rewrite fmap_cons. cbn [foldl concat].
  rewrite IH, take_to_le by done. by rewrite <- app_assoc.
Qed.

Lemma chunks_concat (n : nat) (ls : list (list Z)) :
  (0 < n)%nat -> Forall (fun l => length l = n) ls -> chunks n (concat ls) = ls.
Proof.
  intros Hn. induction 1 as [|l ls Hl Hls IH]; [done|]. simpl. by rewrite chunks_app, IH.
Qed.

(** Both paths of the deserializer read the payload in groups of [BYTES]. *)
Lemma deserialize_elements (d : list Z) (ls : list (list Z)) :
  length d = 5%nat -> Forall (fun l => length l = BYTES T) ls ->
  (if (BYTES T =? SIZE_OF T)%nat then
     Ok (from_le_bytes <$> chunks (SIZE_OF T) (drop 5 (d ++ concat ls)))
   else mapM_result (fun i =>
        src ← slice (d ++ concat ls) (5 + i * BYTES T) (5 + (i + 1) * BYTES T);
        Ok (from_le_bytes (copy_at (to_le_bytes (SIZE_OF T) (tzero T)) 0 src)))
      (seq 0 (length ls)))
  = Ok (from_le_bytes <$> ls).
Proof.
  intros Hd Hls. destruct wr_bytes as [H0 H1].
  destruct (Nat.eqb_spec (BYTES T) (SIZE_OF T)) as [He|Hne].
  { rewrite drop_app_length' by done. rewrite chunks_concat; [done|lia|by rewrite <- He]. }
  rewrite (mapM_result_ok _ (fun i => from_le_bytes (ls !!! i))).
  { f_equal. apply list_eq. intros i. rewrite !list_lookup_fmap.
    destruct (decide (i < length ls)%nat) as [Hi|Hi].
    - destruct (lookup_lt_is_Some_2 ls i Hi) as [l Hl].
      rewrite lookup_seq_lt, Hl by done. simpl. by rewrite (list_lookup_total_correct _ _ _ Hl).
    - by rewrite lookup_seq_ge, lookup_ge_None_2 by lia. }
  intros i Hi. apply elem_of_seq in Hi. destruct (lookup_lt_is_Some_2 ls i) as [l Hl]; [lia|].
  rewrite (list_lookup_total_correct _ _ _ Hl).
  assert (length l = BYTES T) as Hll by (eapply (Forall_lookup_1 (fun l => length l = BYTES T)); done).
  assert (length (concat (take i ls)) = (i * BYTES T)%nat) as Hpre.
  { rewrite (length_concat_const (BYTES T)) by by apply Forall_take. rewrite length_take. lia. }
  rewrite (slice_app _ (d ++ concat (take i ls)) l (concat (drop (S i) ls))).
  - simpl. rewrite ir_zero_eq, to_le_zero, copy_zeros, from_le_zeros. done.
  - rewrite <- app_assoc. f_equal. rewrite <- (take_drop_middle ls i l Hl) at 1.
    by rewrite concat_app.
  - rewrite length_app. lia.
  - lia.
Qed.
End VecRing.

Section VecRingRoundTrip.
Context {T : IntRing2k} {HT : WireRing T}.

Lemma deserialize_vec_ring_wire (d : Z) (v : list Z) :
  Forall (valid T) v -> Z.of_nat (length v * BYTES T) < 2 ^ 32 ->
  deserialize_vec_ring T
    (d :: to_le_bytes 4 (Z.of_nat (length v * BYTES T) mod 2 ^ 32)
       ++ concat (to_le_bytes (BYTES T) <$> v)) = Ok v.
Proof.
  intros Hv Hl. destruct wr_bytes as [H0 H1].
  set (h := to_le_bytes 4 _). set (p := concat _). unfold deserialize_vec_ring.
  assert (length h = 4%nat) as Hh by apply length_to_le.
  assert (length p = (length v * BYTES T)%nat) as Hp by apply concat_to_le_length.
  assert (length (d :: h ++ p) = (5 + length v * BYTES T)%nat) as Hlen.
  { cbn [length]. rewrite length_app. lia. }
  rewrite Hlen, (proj2 (Nat.ltb_ge _ _)) by lia.
  rewrite (slice_app _ [d] h p) by (done || cbn [length]; lia). cbn [mbind result_bind].
  assert (Z.to_nat (from_le_bytes h) = (length v * BYTES T)%nat) as Hn by by apply u32_len_bytes.
  rewrite Hn, Nat.eqb_refl. cbn [negb].
  rewrite Nat.Div0.mod_mul, Nat.div_mul by lia. cbn [Nat.eqb negb].
  change (d :: h ++ p) with ((d :: h) ++ p).
  replace (length v) with (length (to_le_bytes (BYTES T) <$> v)) by apply length_fmap.
  unfold p. rewrite deserialize_elements.
  - f_equal. rewrite <- list_fmap_compose. rewrite <- (list_fmap_id v) at 2.
    apply list_fmap_ext. intros i x Hx. simpl. apply from_to_le.
    rewrite wire_modulus. exact (Forall_lookup_1 _ _ _ _ Hv Hx).
  - cbn [length]. lia.
  - apply Forall_fmap. eapply Forall_impl; [done|]. intros x _. apply length_to_le.
Qed.

Lemma deserialize_vec_ring_inv (bs v : list Z) :
  Forall byte_ok bs -> deserialize_vec_ring T bs = Ok v ->
  Forall (valid T) v /\ Z.of_nat (length v * BYTES T) < 2 ^ 32 /\
  bs = take 1 bs ++ to_le_bytes 4 (Z.of_nat (length v * BYTES T) mod 2 ^ 32)
         ++ concat (to_le_bytes (BYTES T) <$> v).
Proof.
  intros Hbs. destruct wr_bytes as [H0 H1]. unfold deserialize_vec_ring.
  destruct (Nat.ltb_spec (length bs) 5) as [|Hlen]; [done|].
  destruct (read_len bs Hbs Hlen) as (h & -> & Hhl & Hr & Hback & Hbs').
  cbn [mbind result_bind]. set (len := Z.to_nat (from_le_bytes h)) in *.
  destruct (Nat.eqb_spec (length bs) (5 + len)) as [Hl|]; [|done].
  destruct (Nat.eqb_spec (len mod BYTES T) 0) as [Hm|]; [|done]. cbn [negb].
  assert (len = len / BYTES T * BYTES T)%nat as Hdiv
    by (pose proof (Nat.div_mod_eq len (BYTES T)); lia).
  set (ls := chunks (BYTES T) (drop 5 bs)).
  assert (concat ls = drop 5 bs) as Hc by by apply concat_chunks.
  assert (Forall (fun l => length l = BYTES T /\ Forall byte_ok l) ls) as Hls.
  { apply chunks_exact_Forall with (len / BYTES T)%nat; [done|by apply Forall_drop|].
    rewrite length_drop. lia. }
  assert (length ls = (len / BYTES T)%nat) as Hll.
  { apply (Nat.mul_cancel_r _ _ (BYTES T)); [lia|].
    rewrite <- Hdiv, <- (length_concat_const _ ls (Forall_impl _ _ _ Hls (fun _ H => proj1 H))).
    rewrite Hc, length_drop. lia. }
  assert (length (take 1 bs ++ h) = 5%nat) as H5 by (rewrite length_app, length_take; lia).
  pose proof (deserialize_elements (take 1 bs ++ h) ls H5
                (Forall_impl _ _ _ Hls (fun _ H => proj1 H))) as He.
  rewrite <- app_assoc, Hc, <- Hbs', Hll in He. rewrite He. intros [= <-].
  rewrite length_fmap, Hll, <- Hdiv. split_and!.
  - apply Forall_fmap. eapply Forall_impl; [done|]. intros l [Hl1 Hl2]. simpl.
    unfold valid. rewrite <- wire_modulus, <- Hl1. by apply from_le_range.
  - unfold len. lia.
  - rewrite Hback. rewrite Hbs' at 1. do 2 f_equal. rewrite <- Hc. f_equal.
    rewrite <- list_fmap_compose.
    rewrite <- (list_fmap_id ls) at 1. apply list_fmap_ext. intros i l Hi.
    destruct (Forall_lookup_1 _ _ _ _ Hls Hi) as [? ?]. symmetry. by apply to_from_le.
Qed.
End VecRingRoundTrip.

(** ** Well-formed values *)

Definition wf_vec (T : IntRing2k) (v : list Z) : Prop :=
  Forall (valid T) v /\ Z.of_nat (length v * BYTES T) < 2 ^ 32.

(** What the Rust types guarantee of a value that is neither a [NetworkVec]
    nor [PreFramed], together with the bound of the 32-bit length field. *)
Definition wf_flat (v : NetworkValue) : Prop :=
  match v with
  | PrfKey key => length key = PRF_KEY_SIZE /\ Forall byte_ok key
  | RingElementBit x => valid Bit x
  | RingElement16 x => valid u16 x
  | RingElement32 x => valid u32 x
  | RingElement64 x => valid u64 x
  | VecRing16 v => wf_vec u16 v
  | VecRing32 v => wf_vec u32 v
  | VecRing64 v => wf_vec u64 v
  | RingElement48 x => valid Ring48 x
  | VecRing48 v => wf_vec Ring48 v
  | VChecksum c => valid u64 (irises c) /\ valid u64 (graph c)
  | PrfCheck x => valid u128 x
  | VBytes v => Forall byte_ok v /\ Z.of_nat (length v) < 2 ^ 32
  | VecRingBit packed n =>
      Forall byte_ok packed /\ length packed = div_ceil n 8 /\ Z.of_nat n < 2 ^ 32
  | NetworkVec _ | PreFramed _ => False
  end.

(** The variants that may be an entry of a [NetworkVec]. *)
Definition vec_entry (v : NetworkValue) : bool :=
  match v with
  | RingElementBit _ | RingElement16 _ | RingElement32 _ | RingElement64 _ | RingElement48 _
  | VecRing16 _ | VecRing32 _ | VecRing64 _ | VecRing48 _ | VBytes _ | VecRingBit _ _ => true
  | _ => false
  end.

(** The bytes a value appends to the buffer. *)
Definition wire (v : NetworkValue) : list Z :=
  match serialize_internal v [] with Ok b => b | Err _ => [] end.

Definition wf (v : NetworkValue) : Prop :=
  match v with
  | NetworkVec l =>
      Forall (fun v => wf_flat v /\ vec_entry v = true) l /\
      Z.of_nat (length (concat (wire <$> l))) < 2 ^ 32
  | PreFramed _ => False
  | v => wf_flat v
  end.

Definition flat (v : NetworkValue) : bool :=
  match v with NetworkVec _ => false | PreFramed [] => false | _ => true end.

(** Serialization appends the wire bytes to whatever is in the buffer. *)
Lemma serialize_internal_app v res :
  flat v = true -> serialize_internal v res = Ok (res ++ wire v).
Proof.
  intros Hf. unfold wire. destruct v; try done;
    unfold serialize_internal; cbn [get_descriptor_byte mbind result_bind];
    rewrite ?serialize_vec_ring_eq, <- ?app_assoc; try done.
  - by destruct (bit_convert x).
  - destruct bytes; [done|]. cbn [mbind result_bind]. rewrite !length_app. cbn [length].
    rewrite Nat.add_sub, take_app_length. done.
Qed.

Lemma wf_flat_flat v : wf_flat v -> flat v = true.
Proof. by destruct v. Qed.

Lemma from_to_le_valid T `{!WireRing T} x :
  valid T x -> from_le_bytes (to_le_bytes (BYTES T) x) = x.
Proof. intros Hx. apply from_to_le. by rewrite wire_modulus. Qed.

Lemma slice_tail (d : Z) (l : list Z) n : length l = n -> slice (d :: l) 1 (1 + n) = Ok l.
Proof. intros <-. apply (slice_app _ [d] l []); [by rewrite app_nil_r|done..]. Qed.

Lemma descriptor_try_from_u8 d : descriptor_try_from (descriptor_u8 d) = Ok d.
Proof. by destruct d. Qed.

Lemma descriptor_try_from_inv b d : descriptor_try_from b = Ok d -> b = descriptor_u8 d.
Proof.
  unfold descriptor_try_from, ok_or.
  destruct (list_find _ _) as [[i d']|] eqn:E; intros [= <-].
  by apply list_find_Some in E as (_ & <- & _).
Qed.

Lemma div_ceil_8_bound n : (n <= 8 * div_ceil n 8)%nat.
Proof. unfold div_ceil. pose proof (Nat.div_mod_eq (n + 8 - 1) 8). pose proof (Nat.mod_upper_bound (n + 8 - 1) 8). lia. Qed.

Lemma wire_length_check {A} (d : Z) (l : list Z) n (x y : A) :
  length l = n -> (if negb (length (d :: l) =? 1 + n)%nat then x else y) = y.
Proof. intros <-. cbn [length]. by rewrite Nat.eqb_refl. Qed.

(** A length-prefixed payload. *)
Lemma wire_payload (d : Z) (l : list Z) n :
  Z.of_nat n < 2 ^ 32 ->
  let bs := d :: to_le_bytes 4 (Z.of_nat n mod 2 ^ 32) ++ l in
  (length bs <? 5)%nat = false /\
  slice bs 1 5 = Ok (to_le_bytes 4 (Z.of_nat n mod 2 ^ 32)) /\
  length bs = (5 + length l)%nat /\
  slice bs 5 (5 + length l) = Ok l.
Proof.
  intros Hn bs. set (h := to_le_bytes 4 _) in *.
  assert (length h = 4%nat) as Hh by apply length_to_le.
  assert (length bs = (5 + length l)%nat) as Hb by (unfold bs; cbn [length]; rewrite length_app; lia).
  split_and!; [apply Nat.ltb_ge; lia| |done|].
  - apply (slice_app _ [d] h l); [done|done|cbn [length]; lia].
  - apply (slice_app _ (d :: h) l []); [by rewrite app_nil_r|cbn [length]; lia|done].
Qed.

Lemma deserialize_internal_wire v : wf_flat v -> deserialize_internal (wire v) = Ok v.
Proof.
  destruct v; cbn [wf_flat]; intros Hv; try done; unfold wire, serialize_internal;
    cbn [get_descriptor_byte mbind result_bind app];
    try (destruct Hv as [Hv Hl]; rewrite serialize_vec_ring_eq; cbn [app];
         unfold deserialize_internal; rewrite descriptor_try_from_u8; cbn [mbind result_bind];
         by rewrite deserialize_vec_ring_wire);
    unfold deserialize_internal; rewrite ?descriptor_try_from_u8; cbn [mbind result_bind].
  - rewrite wire_length_check, slice_tail by apply Hv. done.
  - rewrite (valid_bit_b2z x Hv). by destruct (bit_convert x).
  - rewrite wire_length_check, slice_tail by done. cbn [mbind result_bind].
    by rewrite (from_to_le_valid u16).
  - rewrite wire_length_check, slice_tail by done. cbn [mbind result_bind].
    by rewrite (from_to_le_valid u32).
  - rewrite wire_length_check, slice_tail by done. cbn [mbind result_bind].
    by rewrite (from_to_le_valid u64).
  - rewrite wire_length_check, slice_tail by done. cbn [mbind result_bind].
    rewrite take_to_le by (simpl; lia). rewrite copy_zeros, from_le_zeros.
    by rewrite (from_to_le_valid Ring48).
  - destruct Hv as [Hi Hg]. rewrite wire_length_check by done.
    rewrite (slice_app _ [descriptor_u8 DStateChecksum] (to_le_bytes 8 (irises c)) (to_le_bytes 8 (graph c)) 1 9) by done.
    cbn [mbind result_bind].
    rewrite (slice_app _ (descriptor_u8 DStateChecksum :: to_le_bytes 8 (irises c)) (to_le_bytes 8 (graph c)) [])
      by (by rewrite ?app_nil_r).
    cbn [mbind result_bind]. rewrite !(from_to_le_valid u64) by done. by destruct c.
  - rewrite wire_length_check, slice_tail by done. cbn [mbind result_bind].
    by rewrite from_to_le.
  - destruct Hv as [Hv Hl].
    destruct (wire_payload (descriptor_u8 DBytes) v (length v) Hl) as (-> & -> & -> & H5).
    cbn [mbind result_bind]. rewrite u32_len_bytes by done. rewrite H5, Nat.eqb_refl. done.
  - destruct Hv as (Hv & Hp & Hl).
    destruct (wire_payload (descriptor_u8 DVecRingBit) packed bit_count Hl) as (-> & -> & -> & H5).
    cbn [mbind result_bind]. rewrite u32_len_bytes by done. rewrite <- Hp, H5, Nat.eqb_refl. done.
Qed.

(** The converse: whatever the deserializer accepts is the serialization of
    the well-formed value it returns. *)
Lemma to_from_le_tail n bs :
  Forall byte_ok bs -> length bs = n ->
  to_le_bytes n (from_le_bytes bs) = bs /\ 0 <= from_le_bytes bs < 256 ^ Z.of_nat n.
Proof. intros Hb Hl. split; [by apply to_from_le|]. rewrite <- Hl. by apply from_le_range. Qed.

Lemma length_check_inv {A} (d : Z) (rest : list Z) n msg (k : result A) v :
  (if negb (length (d :: rest) =? 1 + n)%nat then bail msg else k) = Ok v ->
  length rest = n /\ k = Ok v.
Proof. cbn [length]. destruct (Nat.eqb_spec (S (length rest)) (1 + n)); [|done]. intros H. split; [lia|done]. Qed.

Lemma deserialize_payload_inv (d : Z) (rest : list Z) msg msg' (f : nat -> nat) (g : list Z -> nat -> NetworkValue) v :
  Forall byte_ok (d :: rest) ->
  (if (length (d :: rest) <? 5)%nat then bail msg else
     b ← slice (d :: rest) 1 5;
     let len := Z.to_nat (from_le_bytes b) in
     if negb (length (d :: rest) =? 5 + f len)%nat then bail msg' else
     b ← slice (d :: rest) 5 (5 + f len); Ok (g b len)) = Ok v ->
  exists p n, v = g p n /\ length p = f n /\ Forall byte_ok p /\ Z.of_nat n < 2 ^ 32 /\
    rest = to_le_bytes 4 (Z.of_nat n mod 2 ^ 32) ++ p.
Proof.
  intros Hb. destruct (Nat.ltb_spec (length (d :: rest)) 5) as [|Hlen]; [done|].
  destruct (read_len _ Hb Hlen) as (h & Hs & Hhl & Hr & Hback & Hbs). rewrite Hs.
  cbn [mbind result_bind]. set (n := Z.to_nat (from_le_bytes h)) in *. cbv zeta.
  destruct (Nat.eqb_spec (length (d :: rest)) (5 + f n)) as [Hl|]; [|done]. cbn [negb]. pose proof Hl as Hl'. cbn [length] in Hl'.
  rewrite slice_ok by lia. cbn [mbind result_bind]. intros [= <-].
  eexists _, _. split; [done|]. rewrite take_ge by (rewrite length_drop; lia).
  split_and!.
  - rewrite length_drop. lia.
  - by apply (Forall_drop byte_ok 5 (d :: rest)).
  - unfold n. lia.
  - rewrite Hback. by injection Hbs.
Qed.

Lemma deserialize_vec_ring_variant_inv T `{!WireRing T} d rest (g : list Z -> NetworkValue) v :
  Forall byte_ok (d :: rest) ->
  (res ← deserialize_vec_ring T (d :: rest); Ok (g res)) = Ok v ->
  exists l, v = g l /\ wf_vec T l /\ serialize_vec_ring T l [d] = d :: rest.
Proof.
  intros Hb. destruct (deserialize_vec_ring T (d :: rest)) as [l|] eqn:E; [|done].
  intros [= <-]. destruct (deserialize_vec_ring_inv _ _ Hb E) as (Hv & Hl & He).
  exists l. split_and!; [done|done|]. rewrite serialize_vec_ring_eq. by rewrite He.
Qed.

Lemma slice_tail_inv {A} (d : Z) rest n (k : list Z -> result A) v :
  length rest = n -> (b ← slice (d :: rest) 1 (1 + n); k b) = Ok v -> k rest = Ok v.
Proof. intros H. by rewrite (slice_tail d rest n H). Qed.

Lemma deserialize_internal_inv bs v :
  Forall byte_ok bs -> deserialize_internal bs = Ok v -> wf_flat v /\ wire v = bs.
Proof.
  destruct bs as [|d rest]; [done|]. intros Hb. pose proof (Forall_inv_tail Hb) as Hr.
  unfold deserialize_internal. destruct (descriptor_try_from d) as [db|] eqn:Ed; [|done].
  apply descriptor_try_from_inv in Ed as ->. cbn [mbind result_bind].
  destruct db; try done;
    try (intros H; apply deserialize_vec_ring_variant_inv in H as (l & -> & Hl & He); [|apply _|done]; done);
    try (intros [Hl H]%length_check_inv; apply slice_tail_inv in H; [|done]; injection H as <-;
         destruct (to_from_le_tail _ rest Hr Hl) as [Hw Hv]; split; [done|];
         unfold wire, serialize_internal; cbn [get_descriptor_byte mbind result_bind app]; by rewrite ?Hw).
  - intros [Hl H]%(length_check_inv _ _ 0). injection H as <-. by destruct rest.
  - intros [Hl H]%(length_check_inv _ _ 0). injection H as <-. by destruct rest.
  - intros [Hl H]%(length_check_inv _ _ 16).
    rewrite (slice_app _ [descriptor_u8 DStateChecksum] (take 8 rest) (drop 8 rest) 1 9) in H
      by (rewrite ?length_take, ?Hl, ?take_drop; done).
    rewrite (slice_app _ (descriptor_u8 DStateChecksum :: take 8 rest) (drop 8 rest) [] 9 17) in H
      by (cbn [app length]; rewrite ?length_take, ?length_drop, ?Hl, ?app_nil_r, ?take_drop; done).
    injection H as <-.
    destruct (to_from_le_tail 8 (take 8 rest)) as [Hw Hv]; [by apply Forall_take|rewrite length_take; lia|].
    destruct (to_from_le_tail 8 (drop 8 rest)) as [Hw' Hv']; [by apply Forall_drop|rewrite length_drop; lia|].
    split; [done|]. unfold wire, serialize_internal. cbn [get_descriptor_byte mbind result_bind app irises graph].
    by rewrite Hw, Hw', take_drop.
  - intros H. apply (deserialize_payload_inv _ _ _ _ (fun n => n) (fun b _ => VBytes b)) in H
      as (p & n & -> & Hp & Hpb & Hn & ->); [|done]. subst n. done.
  - intros [Hl H]%(length_check_inv _ _ 6). apply slice_tail_inv in H; [|done].
    assert (v = RingElement48 (from_le_bytes (copy_at (replicate 8 0) 0 rest))) as -> by congruence.
    destruct (to_from_le_tail _ rest Hr Hl) as [Hw Hv]. rewrite copy_zeros, from_le_zeros.
    split; [done|]. unfold wire, serialize_internal. cbn [get_descriptor_byte mbind result_bind app].
    rewrite take_to_le by (simpl; lia). change (BYTES Ring48) with 6%nat. by rewrite Hw.
  - intros H. apply (deserialize_payload_inv _ _ _ _ (fun n => div_ceil n 8) VecRingBit) in H
      as (p & n & -> & Hp & Hpb & Hn & ->); [|done]. done.
Qed.

(** ** Vectors of values *)

Lemma serialize_all_eq l res :
  Forall (fun v => flat v = true) l -> serialize_all l res = Ok (res ++ concat (wire <$> l)).
Proof.
  intros Hl. revert res. induction Hl as [|v l Hv Hl IH]; intros res.
  { by rewrite app_nil_r. }
  cbn [serialize_all]. rewrite serialize_internal_app by done. cbn [mbind result_bind].
  by rewrite IH, fmap_cons, <- app_assoc.
Qed.

Lemma copy_at_app {A} (a b c b' : list A) :
  length b' = length b -> copy_at (a ++ b ++ c) (length a) b' = a ++ b' ++ c.
Proof.
  intros H. unfold copy_at. rewrite take_app_length, H. do 2 f_equal.
  rewrite app_assoc. by rewrite drop_app_length' by by rewrite length_app.
Qed.

Lemma serialize_vec_eq l res :
  Forall (fun v => flat v = true) l ->
  serialize_vec l res
  = Ok (res ++ descriptor_u8 DNetworkVec
            :: to_le_bytes 4 (Z.of_nat (length (concat (wire <$> l))) mod 2 ^ 32)
            ++ concat (wire <$> l)).
Proof.
  intros Hl. unfold serialize_vec. rewrite serialize_all_eq by done. cbn [mbind result_bind].
  rewrite <- (app_assoc _ (replicate 4 0)), copy_at_app by done.
  f_equal. rewrite <- app_assoc. f_equal. cbn [app]. do 3 f_equal.
  rewrite !length_app. do 2 f_equal. cbn [length replicate]. lia.
Qed.

Lemma wire_head v : flat v = true -> exists d rest, wire v = d :: rest /\ get_descriptor_byte v = Ok d.
Proof.
  intros Hf. destruct v; try done; unfold wire, serialize_internal;
    cbn [get_descriptor_byte mbind result_bind]; rewrite ?serialize_vec_ring_eq; eauto.
  - destruct (bit_convert x); eauto.
  - destruct bytes; [done|]. eauto.
Qed.

(** The length field of an entry at offset [length pre]. *)
Lemma entry_payload pre d n (p post : list Z) end_idx :
  Z.of_nat n < 2 ^ 32 ->
  (length pre + length (d :: to_le_bytes 4 (Z.of_nat n mod 2 ^ 32) ++ p) <= end_idx)%nat ->
  (end_idx <? length pre + 5)%nat = false /\
  slice (pre ++ d :: (to_le_bytes 4 (Z.of_nat n mod 2 ^ 32) ++ p) ++ post)
    (length pre + 1) (length pre + 5) = Ok (to_le_bytes 4 (Z.of_nat n mod 2 ^ 32)) /\
  length (d :: to_le_bytes 4 (Z.of_nat n mod 2 ^ 32) ++ p) = (5 + length p)%nat.
Proof.
  intros Hn He. set (h := to_le_bytes 4 _) in *.
  assert (length h = 4%nat) as Hh by apply length_to_le.
  assert (length (d :: h ++ p) = (5 + length p)%nat) as Hl by (cbn [length]; rewrite length_app; lia).
  split_and!; [apply Nat.ltb_ge; lia| |done].
  apply (slice_app _ (pre ++ [d]) h (p ++ post)).
  - rewrite <- !app_assoc. done.
  - rewrite length_app. done.
  - lia.
Qed.

Lemma entry_len_wire pre v post end_idx :
  wf_flat v -> vec_entry v = true -> (length pre + length (wire v) <= end_idx)%nat ->
  entry_len (pre ++ wire v ++ post) (length pre) end_idx = Ok (length (wire v)).
Proof.
  intros Hv He Hend. destruct (wire_head v (wf_flat_flat _ Hv)) as (d & rest & Hw & Hd).
  unfold entry_len. rewrite (index_lookup _ _ d)
    by by rewrite lookup_app_r, Nat.sub_diag, Hw by lia.
  clear Hw. cbn [mbind result_bind]. revert Hend. unfold wire, serialize_internal. rewrite Hd.
  cbn [mbind result_bind].
  destruct v; try done; cbn [get_descriptor_byte] in Hd; try apply Ok_inj in Hd as <-;
    rewrite ?descriptor_try_from_u8, ?serialize_vec_ring_eq; cbn [mbind result_bind app]; try done.
  - destruct (bit_convert x); apply Ok_inj in Hd as <-; by rewrite descriptor_try_from_u8.
  - destruct Hv as [_ Hl]. intros Hend. edestruct entry_payload as (-> & -> & ->); [done..|].
    cbn [mbind result_bind]. by rewrite u32_len_bytes, concat_to_le_length.
  - destruct Hv as [_ Hl]. intros Hend. edestruct entry_payload as (-> & -> & ->); [done..|].
    cbn [mbind result_bind]. by rewrite u32_len_bytes, concat_to_le_length.
  - destruct Hv as [_ Hl]. intros Hend. edestruct entry_payload as (-> & -> & ->); [done..|].
    cbn [mbind result_bind]. by rewrite u32_len_bytes, concat_to_le_length.
  - destruct Hv as [_ Hl]. intros Hend. edestruct entry_payload as (-> & -> & ->); [done..|].
    cbn [mbind result_bind]. by rewrite u32_len_bytes, concat_to_le_length.
  - destruct Hv as [_ Hl]. intros Hend. edestruct entry_payload as (-> & -> & ->); [done..|].
    cbn [mbind result_bind]. by rewrite u32_len_bytes.
  - destruct Hv as (_ & Hp & Hl). intros Hend. edestruct entry_payload as (-> & -> & ->); [done..|].
    cbn [mbind result_bind]. by rewrite u32_len_bytes, Hp.
Qed.

Definition wf_entry (v : NetworkValue) : Prop := wf_flat v /\ vec_entry v = true.

Lemma deserialize_loop_wire l pre fuel :
  Forall wf_entry l -> (length l <= fuel)%nat ->
  deserialize_loop fuel (pre ++ concat (wire <$> l)) (length pre)
    (length pre + length (concat (wire <$> l))) = Ok l.
Proof.
  intros Hl. revert pre fuel. induction Hl as [|v l [Hv He] Hl IH]; intros pre fuel Hf.
  { cbn [fmap list_fmap concat length]. rewrite Nat.add_0_r.
    destruct fuel; cbn [deserialize_loop]; by rewrite (proj2 (Nat.ltb_ge _ _)). }
  destruct fuel as [|fuel]; [simpl in Hf; lia|]. cbn [deserialize_loop].
  rewrite fmap_cons. cbn [concat]. rewrite length_app.
  destruct (wire_head v (wf_flat_flat _ Hv)) as (d & rest & Hw & _).
  rewrite (proj2 (Nat.ltb_lt _ _)) by (rewrite Hw; cbn [length]; lia).
  rewrite entry_len_wire by (done || lia). cbn [mbind result_bind].
  rewrite (slice_app _ pre (wire v) (concat (wire <$> l))) by done. cbn [mbind result_bind].
  rewrite deserialize_internal_wire by done. cbn [mbind result_bind].
  specialize (IH (pre ++ wire v) fuel). rewrite length_app, <- app_assoc in IH.
  rewrite Nat.add_assoc, IH by (simpl in Hf; lia). done.
Qed.

Lemma entry_len_inv bs idx e n :
  entry_len bs idx e = Ok n ->
  (0 < n)%nat /\ exists db, bs !! idx = Some (descriptor_u8 db) /\
    match db with DPrfKey | DStateChecksum | DPrfCheck | DNetworkVec => False | _ => True end.
Proof.
  unfold entry_len, index. destruct (bs !! idx) as [d|]; [|done]. cbn [mbind result_bind].
  destruct (descriptor_try_from d) as [db|] eqn:Ed; [|done].
  apply descriptor_try_from_inv in Ed as ->. cbn [mbind result_bind]. intros H.
  split; [|exists db; split; [done|]; by destruct db].
  destruct db; try done; try (injection H as <-; simpl; lia);
    destruct (e <? idx + 5)%nat; try done;
    destruct (slice bs (idx + 1) (idx + 5)); try done; injection H as <-; lia.
Qed.

Lemma vec_entry_descriptor v db rest :
  flat v = true -> wire v = descriptor_u8 db :: rest ->
  match db with DPrfKey | DStateChecksum | DPrfCheck | DNetworkVec => False | _ => True end ->
  wf_flat v -> vec_entry v = true.
Proof.
  intros Hf Hw Hdb Hwf. destruct (wire_head v Hf) as (d & rest' & Hw' & Hd).
  rewrite Hw in Hw'. injection Hw' as <- _.
  destruct v; try done; cbn [get_descriptor_byte] in Hd; destruct db; done.
Qed.

(** An entry that is read is a well-formed one. *)
Lemma deserialize_entry_inv bs idx n v :
  Forall byte_ok bs -> entry_len bs idx (length bs) = Ok n -> deserialize_internal (take n (drop idx bs)) = Ok v ->
  wf_entry v /\ take n (drop idx bs) = wire v.
Proof.
  intros Hb (Hn & db & Hdb & Hdb')%entry_len_inv Ev.
  apply deserialize_internal_inv in Ev as [Hv Hw]; [|by apply Forall_take, Forall_drop].
  split; [|done]. split; [done|]. destruct n as [|n]; [lia|].
  rewrite (drop_S _ _ _ Hdb) in Hw. eapply vec_entry_descriptor; eauto using wf_flat_flat.
Qed.

Lemma deserialize_loop_inv fuel bs idx l :
  Forall byte_ok bs -> (idx <= length bs)%nat ->
  deserialize_loop fuel bs idx (length bs) = Ok l ->
  Forall wf_entry l /\ drop idx bs = concat (wire <$> l).
Proof.
  intros Hb. revert idx l. induction fuel as [|fuel IH]; intros idx l Hi; cbn [deserialize_loop];
    (destruct (Nat.ltb_spec idx (length bs)) as [Hlt|Hge];
      [|intros [= <-]; split; [constructor|]; by rewrite drop_ge by lia]); [done|].
  destruct (entry_len bs idx (length bs)) as [n|] eqn:En; [|done]. cbn [mbind result_bind].
  destruct (slice bs idx (idx + n)) as [s|] eqn:Es; [|done]. cbn [mbind result_bind].
  apply slice_inv in Es as [-> Hs].
  destruct (deserialize_internal _) as [v|] eqn:Ev; [|done]. cbn [mbind result_bind].
  replace (idx + n - idx)%nat with n in Ev by lia.
  destruct (deserialize_entry_inv _ _ _ _ Hb En Ev) as [Hv Hw].
  destruct (deserialize_loop fuel bs (idx + n) (length bs)) as [l'|] eqn:El; [|done].
  cbn [mbind result_bind]. intros [= <-]. apply IH in El as [Hl' Hd]; [|lia].
  split; [by constructor|]. rewrite fmap_cons. cbn [concat]. rewrite <- Hw, <- Hd, <- drop_drop. by rewrite take_drop.
Qed.

Lemma deserialize_vec_wire l :
  Forall wf_entry l -> Z.of_nat (length (concat (wire <$> l))) < 2 ^ 32 ->
  deserialize_vec (descriptor_u8 DNetworkVec
     :: to_le_bytes 4 (Z.of_nat (length (concat (wire <$> l))) mod 2 ^ 32) ++ concat (wire <$> l)) = Ok l.
Proof.
  intros Hl Hn. unfold deserialize_vec.
  destruct (wire_payload (descriptor_u8 DNetworkVec) (concat (wire <$> l)) _ Hn) as (-> & H1 & H2 & _).
  rewrite H1, H2. cbn [index lookup list_lookup mbind result_bind].
  rewrite Z.eqb_refl. cbn [negb]. rewrite u32_len_bytes, Nat.eqb_refl by done. cbn [negb].
  apply (deserialize_loop_wire l
    (descriptor_u8 DNetworkVec :: to_le_bytes 4 (Z.of_nat (length (concat (wire <$> l))) mod 2 ^ 32)));
    [done|].
  clear -Hl. induction Hl as [|v l [Hv _] Hl IH]; [done|]. rewrite fmap_cons. cbn [concat length].
  destruct (wire_head v (wf_flat_flat _ Hv)) as (d & rest & -> & _).
  rewrite length_app. cbn [length]. lia.
Qed.

Lemma deserialize_flat d rest :
  d <> descriptor_u8 DNetworkVec -> deserialize (d :: rest) = deserialize_internal (d :: rest).
Proof. intros Hd. unfold deserialize. cbn [head fmap option_fmap option_map default]. by rewrite (proj2 (Z.eqb_neq _ _)). Qed.

Lemma deserialize_wire v : wf_flat v -> deserialize (wire v) = Ok v.
Proof.
  intros Hv. destruct (wire_head v (wf_flat_flat _ Hv)) as (d & rest & Hw & Hd).
  rewrite <- (deserialize_internal_wire v Hv), Hw. apply deserialize_flat.
  destruct v; try done; cbn [get_descriptor_byte] in Hd; try (by apply Ok_inj in Hd as <-).
  destruct (bit_convert x); by apply Ok_inj in Hd as <-.
Qed.

Lemma wf_entries_flat l : Forall wf_entry l -> Forall (fun v => flat v = true) l.
Proof. intros H. eapply Forall_impl; [done|]. intros v [? _]. by apply wf_flat_flat. Qed.

Lemma serialize_wf_flat v : wf_flat v -> serialize v [] = Ok (wire v).
Proof.
  intros Hv. pose proof (serialize_internal_app v [] (wf_flat_flat _ Hv)) as H. by destruct v.
Qed.

(** The [[u8; 16]] of a [PrfKey] has 16 entries. *)
Definition sized (v : NetworkValue) : Prop :=
  match v with PrfKey key => length key = PRF_KEY_SIZE | _ => True end.

(** Values [serialize] accepts: the entries of a [NetworkVec] are not
    themselves [NetworkVec]s, and not empty [PreFramed] buffers. *)
Definition sendable (v : NetworkValue) : Prop :=
  match v with NetworkVec l => Forall (fun v => flat v = true /\ sized v) l | _ => sized v end.

(** The size of a value without nesting. *)
Lemma byte_len_flat v :
  flat v = true -> sized v ->
  byte_len v = Ok (length (wire v)).
Proof.
  intros Hf Hk. unfold wire. pose proof (serialize_internal_app v [] Hf) as Hs.
  destruct v; try done; unfold serialize_internal;
    cbn [byte_len get_descriptor_byte mbind result_bind];
    rewrite ?descriptor_try_from_u8; cbn [mbind result_bind base_len];
    rewrite ?serialize_vec_ring_eq, ?length_app, ?length_to_le, ?concat_to_le_length; try done;
    try (by rewrite Nat.mul_comm).
  - by rewrite Hk.
  - by destruct (bit_convert x).
  - by destruct bytes.
Qed.

Lemma sum_byte_len l :
  Forall (fun v => flat v = true /\ sized v) l ->
  exists lens, mapM_result byte_len l = Ok lens /\ sum_list lens = length (concat (wire <$> l)).
Proof.
  induction 1 as [|v l [Hv Hk] Hl (lens & IH & Hs)]; [by exists []|].
  exists (length (wire v) :: lens). cbn [mapM_result]. rewrite byte_len_flat by done.
  cbn [mbind result_bind]. rewrite IH. cbn [mbind result_bind]. split; [done|].
  rewrite fmap_cons. cbn [concat]. rewrite length_app, <- Hs. done.
Qed.


(** [byte_len], which sizes the send buffer, is the length of what
    [serialize] appends, for every value that can be serialized. *)
Theorem byte_len_serialized v :
  sendable v ->
  exists n bs, byte_len v = Ok n /\ serialize v [] = Ok bs /\ n = length bs.
Proof.
  intros Hv. destruct v; try (eexists _, _; split_and!; [apply byte_len_flat; done|by apply serialize_internal_app|done]).
  - destruct (sum_byte_len v Hv) as (lens & Hm & Hs).
    eexists _, _. split_and!.
    + cbn [byte_len get_descriptor_byte mbind result_bind]. rewrite descriptor_try_from_u8.
      cbn [mbind result_bind]. by rewrite Hm.
    + apply serialize_vec_eq. eapply Forall_impl; [done|]. by intros ? [? _].
    + rewrite Hs. cbn [app length base_len]. rewrite length_app, length_to_le. done.
  - by eexists _, _.
Qed.

Lemma byte_len_serialized_witness :
  exists n bs, byte_len (NetworkVec [RingElement16 7; VecRing48 [1; 2]]) = Ok n /\
    serialize (NetworkVec [RingElement16 7; VecRing48 [1; 2]]) [] = Ok bs /\ n = length bs.
Proof. apply byte_len_serialized. repeat constructor. Defined.

(** What [to_network] writes, [deserialize] reads. *)
Lemma deserialize_to_network v : wf v -> (bs ← to_network v; deserialize bs) = Ok v.
Proof.
  unfold to_network. intros Hv.
  assert (exists n, byte_len v = Ok n) as [n ->].
  { destruct v; try (eexists; apply byte_len_flat; done || apply Hv).
    - destruct Hv as [Hl _]. destruct (sum_byte_len v) as (lens & Hm & _).
      { eapply Forall_impl; [exact Hl|]. intros x [Hx He]. split; [by apply wf_flat_flat|by destruct x]. }
      eexists. cbn [byte_len get_descriptor_byte mbind result_bind].
      rewrite descriptor_try_from_u8. cbn [mbind result_bind]. by rewrite Hm. }
  cbn [mbind result_bind].
  destruct v; try (rewrite serialize_wf_flat by apply Hv; by apply deserialize_wire).
  destruct Hv as [Hl Hn]. cbn [serialize]. rewrite serialize_vec_eq by by apply wf_entries_flat.
  cbn [mbind result_bind app].
  unfold deserialize. cbn [head fmap option_fmap option_map default]. rewrite Z.eqb_refl.
  by rewrite deserialize_vec_wire.
Qed.

(** C4: Every well-formed value survives the wire: [to_network] succeeds, and
    [deserialize] of its bytes is the value. *)
Theorem network_value_roundtrip v : wf v -> (bs ← to_network v; deserialize bs) = Ok v.
Proof. apply deserialize_to_network. Qed.

Lemma network_value_roundtrip_witness :
  (bs ← to_network (NetworkVec [RingElementBit 1; VecRing48 [2 ^ 48 - 1; 5]; VecRingBit [255; 3] 10]);
   deserialize bs) = Ok (NetworkVec [RingElementBit 1; VecRing48 [2 ^ 48 - 1; 5]; VecRingBit [255; 3] 10]).
Proof. apply network_value_roundtrip. repeat constructor; vm_compute; done. Defined.

(** C28: What the deserializer returns is well typed, whatever bytes it is given: a
    buffer it accepts is exactly the serialization of the well-formed value it
    returns, so that the format is canonical. *)
Theorem deserialize_canonical bs v :
  Forall byte_ok bs -> deserialize bs = Ok v -> wf v /\ serialize v [] = Ok bs.
Proof.
  intros Hb. destruct bs as [|d rest]; [done|].
  destruct (decide (d = descriptor_u8 DNetworkVec)) as [->|Hd].
  - unfold deserialize. cbn [head fmap option_fmap option_map default]. rewrite Z.eqb_refl.
    unfold deserialize_vec.
    destruct (Nat.ltb_spec (length (descriptor_u8 DNetworkVec :: rest)) 5) as [|Hlen]; [done|].
    destruct (read_len _ Hb Hlen) as (h & Hs & Hhl & Hr & Hback & Hbs).
    cbn [index lookup list_lookup mbind result_bind]. rewrite Z.eqb_refl, Hs.
    cbn [negb mbind result_bind]. set (n := Z.to_nat (from_le_bytes h)) in *.
    destruct (Nat.eqb_spec (length (descriptor_u8 DNetworkVec :: rest)) (5 + n)) as [Hl|]; [|done].
    cbn [negb]. rewrite <- Hl.
    destruct (deserialize_loop n _ 5 _) as [l|] eqn:El; [|done]. cbn [mbind result_bind].
    intros [= <-]. apply deserialize_loop_inv in El as [Hwf Hd]; [|done|done].
    assert (length (concat (wire <$> l)) = n) as Hn by (rewrite <- Hd, length_drop; lia).
    split; [split; [done|]; unfold n in Hn; rewrite Hn; lia|].
    cbn [serialize]. rewrite serialize_vec_eq by by apply wf_entries_flat.
    rewrite Hn, Hback, <- Hd. f_equal. by rewrite Hbs at 2.
  - rewrite deserialize_flat by done. intros Hv. apply deserialize_internal_inv in Hv as [Hv <-]; [|done].
    split; [by destruct v|by apply serialize_wf_flat].
Qed.

Lemma deserialize_canonical_witness :
  deserialize [0x06; 4; 0; 0; 0; 1; 2; 3; 4] = Ok (VecRing16 [513; 1027]) /\
  wf (VecRing16 [513; 1027]) /\
  serialize (VecRing16 [513; 1027]) [] = Ok [0x06; 4; 0; 0; 0; 1; 2; 3; 4].
Proof.
  split; [reflexivity|]. apply deserialize_canonical; [|reflexivity].
  repeat constructor; vm_compute; done.
Defined.

(** ** Failures *)

(** The computation may fail with an error, and with a panic only if its
    message satisfies [P]. *)
Definition panics_only {A} (P : string -> Prop) (r : result A) : Prop :=
  match r with Err (Panic m) => P m | _ => True end.

Lemma panics_only_bind {A B} P (m : result A) (k : A -> result B) :
  panics_only P m -> (forall x, m = Ok x -> panics_only P (k x)) -> panics_only P (x ← m; k x).
Proof. destruct m as [x|e]; cbn; auto. Qed.

Lemma panics_only_impl {A} (P Q : string -> Prop) (r : result A) :
  (forall m, P m -> Q m) -> panics_only P r -> panics_only Q r.
Proof. intros H. destruct r as [|[]]; cbn; auto. Qed.

Lemma panics_only_slice {A} P (l : list A) i j :
  (i <= j <= length l)%nat -> panics_only P (slice l i j).
Proof. intros H. by rewrite slice_ok. Qed.

Lemma panics_only_mapM {A B} P (f : A -> result B) l :
  (forall x, x ∈ l -> panics_only P (f x)) -> panics_only P (mapM_result f l).
Proof.
  induction l as [|x l IH]; intros H; [done|]. cbn [mapM_result].
  apply panics_only_bind; [apply H; left|]. intros y _.
  apply panics_only_bind; [apply IH; intros z Hz; apply H; by right|done].
Qed.

Lemma panics_only_try_from P b : panics_only P (descriptor_try_from b).
Proof. unfold descriptor_try_from, ok_or. by destruct (list_find _ _) as [[]|]. Qed.

Create HintDb no_panic.
#[export] Hint Resolve panics_only_bind panics_only_try_from panics_only_slice : no_panic.

Lemma deserialize_vec_ring_no_panic T bs :
  (0 < BYTES T)%nat -> panics_only (fun _ => False) (deserialize_vec_ring T bs).
Proof.
  intros HB. unfold deserialize_vec_ring.
  destruct (Nat.ltb_spec (length bs) 5) as [|Hl]; [done|].
  apply panics_only_bind; [apply panics_only_slice; lia|]. intros h _. cbv zeta.
  destruct (Nat.eqb_spec (length bs) (5 + Z.to_nat (from_le_bytes h))) as [Hn|]; [|done].
  set (n := Z.to_nat (from_le_bytes h)) in *.
  destruct (n mod BYTES T =? 0)%nat; [|done]. cbn [negb].
  destruct (BYTES T =? SIZE_OF T)%nat; [done|]. apply panics_only_mapM. intros i Hi%elem_of_seq.
  apply panics_only_bind; [|done]. apply panics_only_slice.
  assert ((i + 1) * BYTES T <= n / BYTES T * BYTES T)%nat by (apply Nat.mul_le_mono_r; lia).
  pose proof (Nat.div_mod_eq n (BYTES T)). lia.
Qed.

Lemma deserialize_internal_no_panic bs : panics_only (fun _ => False) (deserialize_internal bs).
Proof.
  unfold deserialize_internal. destruct bs as [|d rest]; [done|].
  apply panics_only_bind; [apply panics_only_try_from|]. intros db _.
  destruct db; try done;
    try (apply panics_only_bind; [apply deserialize_vec_ring_no_panic; simpl; lia|done]);
    try (match goal with |- context [if negb (?a =? ?b)%nat then _ else _] =>
           destruct (Nat.eqb_spec a b) as [Hl|]; [|done] end; cbn [negb];
         repeat (apply panics_only_bind; [apply panics_only_slice; lia|intros ? _]); done);
    (destruct (Nat.ltb_spec (length (d :: rest)) 5) as [|Hl]; [done|];
     apply panics_only_bind; [apply panics_only_slice; lia|]; intros h _; cbv zeta;
     match goal with |- context [if negb (?a =? ?b)%nat then _ else _] =>
       destruct (Nat.eqb_spec a b) as [He|]; [|done] end; cbn [negb];
     apply panics_only_bind; [apply panics_only_slice; lia|done]).
Qed.

Lemma entry_len_no_panic bs idx :
  (idx < length bs)%nat -> panics_only (fun _ => False) (entry_len bs idx (length bs)).
Proof.
  intros Hi. unfold entry_len. destruct (lookup_lt_is_Some_2 bs idx Hi) as [d Hd].
  rewrite (index_lookup _ _ _ Hd). cbn [mbind result_bind].
  apply panics_only_bind; [apply panics_only_try_from|]. intros db _. destruct db; try done;
    (destruct (Nat.ltb_spec (length bs) (idx + 5)) as [|Hl]; [done|];
     apply panics_only_bind; [apply panics_only_slice; lia|done]).
Qed.

Definition out_of_range (m : string) : Prop := m = "range out of bounds"%string.

Lemma deserialize_loop_panics fuel bs idx :
  (length bs - idx <= fuel)%nat ->
  panics_only out_of_range (deserialize_loop fuel bs idx (length bs)).
Proof.
  revert idx. induction fuel as [|fuel IH]; intros idx Hf; cbn [deserialize_loop];
    (destruct (Nat.ltb_spec idx (length bs)) as [Hi|]; [|done]); [lia|].
  apply panics_only_bind.
  { eapply panics_only_impl; [|by apply entry_len_no_panic]. done. }
  intros n [Hn _]%entry_len_inv. apply panics_only_bind.
  { unfold slice. by destruct (_ && _). }
  intros s _. apply panics_only_bind.
  { eapply panics_only_impl; [|apply deserialize_internal_no_panic]. done. }
  intros v _. apply panics_only_bind; [apply IH; lia|done].
Qed.

(** The deserializer terminates on every buffer, and the only panic it can
    raise is the out-of-range slice of a [NetworkVec] entry: any other buffer
    gives a value or an error. *)
Theorem deserialize_failures bs :
  panics_only (fun m => out_of_range m /\ head bs = Some (descriptor_u8 DNetworkVec)) (deserialize bs).
Proof.
  destruct bs as [|d rest]; [done|].
  destruct (decide (d = descriptor_u8 DNetworkVec)) as [->|Hd].
  2: { rewrite deserialize_flat by done. eapply panics_only_impl; [|apply deserialize_internal_no_panic]. done. }
  unfold deserialize. cbn [head fmap option_fmap option_map default]. rewrite Z.eqb_refl.
  eapply (panics_only_impl out_of_range); [done|]. apply panics_only_bind; [|done].
  unfold deserialize_vec.
  destruct (Nat.ltb_spec (length (descriptor_u8 DNetworkVec :: rest)) 5) as [|Hlen]; [done|].
  cbn [index lookup list_lookup mbind result_bind]. rewrite Z.eqb_refl. cbn [negb].
  apply panics_only_bind; [apply panics_only_slice; lia|]. intros h _. cbv zeta.
  destruct (Nat.eqb_spec (length (descriptor_u8 DNetworkVec :: rest))
              (5 + Z.to_nat (from_le_bytes h))) as [Hl|]; [|done].
  cbn [negb]. rewrite <- Hl. apply deserialize_loop_panics. lia.
Qed.

(** *** Entries that are cut short *)

Lemma slice_shift {A} (pre l : list A) i j : slice (pre ++ l) (length pre + i) (length pre + j) = slice l i j.
Proof.
  unfold slice. rewrite length_app, <- drop_drop, drop_app_length.
  replace (length pre + i <=? length pre + j)%nat with (i <=? j)%nat by (apply eq_true_iff_eq; rewrite !Nat.leb_le; lia).
  replace (length pre + j <=? length pre + length l)%nat with (j <=? length l)%nat by (apply eq_true_iff_eq; rewrite !Nat.leb_le; lia).
  by replace (length pre + j - (length pre + i))%nat with (j - i)%nat by lia.
Qed.

(** The length of an entry depends on what follows its start only. *)
Lemma entry_len_shift pre e : entry_len (pre ++ e) (length pre) (length (pre ++ e)) = entry_len e 0 (length e).
Proof.
  unfold entry_len. rewrite slice_shift.
  assert (index (pre ++ e) (length pre) = index e 0) as -> by (unfold index; by rewrite lookup_app_r, Nat.sub_diag by lia).
  replace (length (pre ++ e) <? length pre + 5)%nat with (length e <? 0 + 5)%nat
    by (rewrite length_app; apply eq_true_iff_eq; rewrite !Nat.ltb_lt; lia).
  done.
Qed.

(** The entry announces more bytes than there are. *)
Definition cut_short (e : list Z) : Prop := exists n, entry_len e 0 (length e) = Ok n /\ (length e < n)%nat.

Lemma deserialize_loop_cut l e pre fuel :
  Forall wf_entry l -> cut_short e -> (length l < fuel)%nat ->
  deserialize_loop fuel (pre ++ concat (wire <$> l) ++ e) (length pre) (length (pre ++ concat (wire <$> l) ++ e))
  = panic "range out of bounds".
Proof.
  intros Hl (n & En & Hn). revert pre fuel. induction Hl as [|v l [Hv He] Hl IH]; intros pre fuel Hf;
    (destruct fuel as [|fuel]; [simpl in Hf; lia|]); cbn [deserialize_loop].
  - cbn [fmap list_fmap concat app]. rewrite entry_len_shift, En. cbn [mbind result_bind].
    assert (0 < length e)%nat by (destruct e; [done|simpl; lia]).
    rewrite (proj2 (Nat.ltb_lt _ _)) by (rewrite length_app; lia).
    unfold slice. rewrite (proj2 (Nat.leb_gt (length pre + n) (length (pre ++ e)))) by (rewrite length_app; lia).
    by rewrite andb_false_r.
  - rewrite fmap_cons. cbn [concat]. rewrite <- (app_assoc (wire v)).
    destruct (wire_head v (wf_flat_flat _ Hv)) as (d & rest & Hw & _).
    rewrite (proj2 (Nat.ltb_lt _ _)) by (rewrite !length_app, Hw; cbn [length]; lia).
    rewrite entry_len_wire by (rewrite ?length_app; done || lia). cbn [mbind result_bind].
    rewrite (slice_app _ pre (wire v) (concat (wire <$> l) ++ e)) by done. cbn [mbind result_bind].
    rewrite deserialize_internal_wire by done. cbn [mbind result_bind].
    specialize (IH (pre ++ wire v) fuel). rewrite <- length_app. rewrite <- app_assoc in IH.
    rewrite IH by (simpl in Hf; lia). done.
Qed.

(** The loop panics only at an entry that is cut short. *)
Lemma deserialize_loop_panic_inv fuel bs idx msg :
  Forall byte_ok bs -> (idx <= length bs)%nat -> (length bs - idx <= fuel)%nat ->
  deserialize_loop fuel bs idx (length bs) = panic msg ->
  exists l e, Forall wf_entry l /\ cut_short e /\ drop idx bs = concat (wire <$> l) ++ e.
Proof.
  intros Hb. revert idx. induction fuel as [|fuel IH]; intros idx Hi Hf; cbn [deserialize_loop];
    (destruct (Nat.ltb_spec idx (length bs)) as [Hlt|Hge]; [|done]); [lia|].
  pose proof (entry_len_no_panic bs idx Hlt) as Hnp.
  destruct (entry_len bs idx (length bs)) as [n|[]] eqn:En; [|done..]. cbn [mbind result_bind].
  destruct (slice bs idx (idx + n)) as [s|] eqn:Es; cbn [mbind result_bind].
  - apply slice_inv in Es as [-> Hs]. replace (idx + n - idx)%nat with n by lia.
    pose proof (deserialize_internal_no_panic (take n (drop idx bs))) as Hdp.
    destruct (deserialize_internal _) as [v|[]] eqn:Ev; [|done..]. cbn [mbind result_bind].
    destruct (deserialize_entry_inv _ _ _ _ Hb En Ev) as [Hwf Hw]. apply entry_len_inv in En as (Hn & _).
    destruct (deserialize_loop fuel bs (idx + n) (length bs)) as [l'|err] eqn:El; [done|]. cbn [mbind result_bind]. intros [= ->].
    destruct (IH (idx + n)%nat) as (l & e & Hl & He & Hd); [lia|lia|done|].
    exists (v :: l), e. split; [by constructor|]. split; [done|].
    rewrite fmap_cons. cbn [concat]. by rewrite <- app_assoc, <- Hd, <- Hw, <- drop_drop, take_drop.
  - intros _. exists [], (drop idx bs). split; [done|]. split; [|done]. exists n.
    pose proof (entry_len_shift (take idx bs) (drop idx bs)) as E. rewrite take_drop, length_take, Nat.min_l in E by lia.
    rewrite <- E. split; [done|]. rewrite length_drop.
    unfold slice in Es. rewrite (proj2 (Nat.leb_le idx (idx + n))) in Es by lia.
    destruct (Nat.leb_spec (idx + n) (length bs)); [done|lia].
Qed.

(** A vector with its length field. *)
Definition vec_frame (p : list Z) : list Z := descriptor_u8 DNetworkVec :: to_le_bytes 4 (Z.of_nat (length p)) ++ p.

Lemma vec_frame_payload p : Z.of_nat (length p) < 2 ^ 32 -> deserialize_vec (vec_frame p) = deserialize_loop (length p) (vec_frame p) 5 (length (vec_frame p)).
Proof.
  intros Hp. unfold vec_frame, deserialize_vec. rewrite <- (Z.mod_small (Z.of_nat (length p)) (2 ^ 32)) by lia.
  destruct (wire_payload (descriptor_u8 DNetworkVec) p _ Hp) as (-> & H1 & H2 & _).
  rewrite H1, H2. cbn [index lookup list_lookup mbind result_bind]. rewrite Z.eqb_refl. cbn [negb].
  rewrite u32_len_bytes, Nat.eqb_refl by done. done.
Qed.

Lemma wire_count l : Forall wf_entry l -> (length l <= length (concat (wire <$> l)))%nat.
Proof.
  induction 1 as [|v l [Hv _] Hl IH]; [done|]. rewrite fmap_cons. cbn [concat length].
  destruct (wire_head v (wf_flat_flat _ Hv)) as (d & rest & -> & _). rewrite length_app. cbn [length]. lia.
Qed.

(** A buffer on which parsing a vector panics has the length it announces. *)
Lemma vec_panic_frame bs msg :
  Forall byte_ok bs -> head bs = Some (descriptor_u8 DNetworkVec) -> deserialize bs = panic msg ->
  exists p, Z.of_nat (length p) < 2 ^ 32 /\ bs = vec_frame p /\ deserialize_loop (length p) bs 5 (length bs) = panic msg.
Proof.
  destruct bs as [|d rest]; [done|]. cbn [head]. intros Hb ->%(inj Some).
  unfold deserialize. cbn [head fmap option_fmap option_map default]. rewrite Z.eqb_refl. unfold deserialize_vec.
  destruct (Nat.ltb_spec (length (descriptor_u8 DNetworkVec :: rest)) 5) as [|Hlen]; [done|].
  destruct (read_len _ Hb Hlen) as (h & Hs & Hhl & Hr & Hback & Hbs).
  cbn [index lookup list_lookup mbind result_bind]. rewrite Z.eqb_refl, Hs. cbn [negb mbind result_bind].
  set (n := Z.to_nat (from_le_bytes h)) in *.
  destruct (Nat.eqb_spec (length (descriptor_u8 DNetworkVec :: rest)) (5 + n)) as [Hl|]; [|done]. cbn [negb]. rewrite <- Hl.
  set (p := drop 5 (descriptor_u8 DNetworkVec :: rest)) in *.
  assert (length p = n) as Hp by (unfold p; rewrite length_drop; lia).
  destruct (deserialize_loop n _ 5 _) as [l|err] eqn:El; [done|]. cbn [mbind result_bind]. intros [= ->].
  exists p. rewrite Hp. split; [unfold n; lia|]. split; [|done]. unfold vec_frame.
  rewrite Z.mod_small in Hback by (unfold n; lia). by rewrite Hp, Hback.
Qed.

(** C38: exactly when the deserializer panics.  It panics on a buffer if and only
    if the buffer is the frame of a [NetworkVec] that has the length it
    announces, whose payload is any number of well-formed entries of any kinds
    and then an entry that announces more bytes than are left of the payload:
    the slice of an entry is taken without comparing its length with the
    payload.  Every other buffer gives a value or an error. *)
Theorem deserialize_truncated_entry_panics bs :
  Forall byte_ok bs ->
  (exists msg, deserialize bs = panic msg) <->
  (exists l e n, Forall wf_entry l /\ entry_len e 0 (length e) = Ok n /\ (length e < n)%nat /\
     Z.of_nat (length (concat (wire <$> l) ++ e)) < 2 ^ 32 /\
     bs = descriptor_u8 DNetworkVec :: to_le_bytes 4 (Z.of_nat (length (concat (wire <$> l) ++ e))) ++ concat (wire <$> l) ++ e).
Proof.
  intros Hb. split.
  - intros [msg Hd]. pose proof (deserialize_failures bs) as Hf. rewrite Hd in Hf. destruct Hf as [_ Hh].
    destruct (vec_panic_frame bs msg Hb Hh Hd) as (p & Hp & -> & El).
    apply deserialize_loop_panic_inv in El as (l & e & Hl & (n & En & Hn) & E); [|done|..];
      [|unfold vec_frame; cbn [length]; rewrite length_app, length_to_le; lia..].
    cbn [vec_frame drop] in E. change (p = concat (wire <$> l) ++ e) in E. subst p. by exists l, e, n.
  - intros (l & e & n & Hl & En & Hn & Hp & ->). eexists. fold (vec_frame (concat (wire <$> l) ++ e)).
    unfold deserialize. cbn [vec_frame head fmap option_fmap option_map default]. rewrite Z.eqb_refl.
    fold (vec_frame (concat (wire <$> l) ++ e)). rewrite vec_frame_payload by done.
    assert (0 < length e)%nat by (destruct e; [done|simpl; lia]). pose proof (wire_count l Hl).
    set (p := concat (wire <$> l) ++ e) in *.
    assert (deserialize_loop (length p) (vec_frame p) 5 (length (vec_frame p)) = panic "range out of bounds") as ->; [|done].
    apply (deserialize_loop_cut l e (descriptor_u8 DNetworkVec :: to_le_bytes 4 (Z.of_nat (length p))));
      [done|by exists n|unfold p; rewrite length_app; lia].
Qed.

(** A 16-bit element and the start of a 32-bit one. *)
Lemma deserialize_truncated_entry_panics_witness :
  exists msg, deserialize [0x0A; 6; 0; 0; 0; 0x03; 1; 2; 0x04; 9; 9] = panic msg.
Proof.
  apply (deserialize_truncated_entry_panics [0x0A; 6; 0; 0; 0; 0x03; 1; 2; 0x04; 9; 9]).
  - repeat constructor; vm_compute; done.
  - exists [RingElement16 513], [0x04; 9; 9], 5%nat. split; [repeat constructor; vm_compute; done|].
    split; [reflexivity|]. split; [simpl; lia|]. split; [vm_compute; reflexivity|reflexivity].
Defined.

(** ** Bit vectors on the wire *)

Lemma or_bits_pack value i c :
  (i + length c <= 8)%nat -> or_bits value i c = pack_loop u8 value i c.
Proof.
  revert value i. induction c as [|b c IH]; intros value i Hi; [done|].
  cbn [or_bits pack_loop length] in *. rewrite IH by lia. f_equal. unfold re_or. cbn -[Z.lor Z.shiftl Z.modulo].
  by rewrite (Z.mod_small (Z.of_nat i)) by lia.
Qed.

(** The byte of a chunk of at most eight bits. *)
Lemma or_bits_spec c :
  (length c <= 8)%nat ->
  byte_ok (or_bits 0 0 c) /\
  forall j : nat, Z.testbit (or_bits 0 0 c) (Z.of_nat j) = default false (bit_convert <$> c !! j).
Proof. intros Hc. rewrite or_bits_pack by lia. apply (pack_chunk_spec (T:=u8)). simpl. lia. Qed.

Lemma div_ceil_exact m d : (0 < d)%nat -> div_ceil (m * d) d = m.
Proof. intros Hd. unfold div_ceil. rewrite <- Nat.add_sub_assoc, Nat.div_add_l, Nat.div_small; lia. Qed.

Lemma pack_bits_eq bits : pack_bits bits = VecRingBit (or_bits 0 0 <$> chunks 8 bits) (length bits).
Proof.
  unfold pack_bits. f_equal.
  set (q := (length bits / 8)%nat). pose proof (Nat.div_mod_eq (length bits) 8) as Hdm. fold q in Hdm.
  pose proof (Nat.mod_upper_bound (length bits) 8) as Hm.
  assert (length (take (8 * q) bits) = (q * 8)%nat) as Ht by (rewrite length_take; lia).
  assert (length (chunks 8 (take (8 * q) bits)) = q) as Hc
    by by rewrite length_chunks, Ht, div_ceil_exact by lia.
  assert (length bits = q * 8 + length (drop (8 * q) bits))%nat as Hl by (rewrite length_drop; lia).
  replace (chunks 8 bits) with (chunks 8 (take (8 * q) bits ++ drop (8 * q) bits)) by by rewrite take_drop.
  rewrite (chunks_app_exact 8 q) by (done || lia).
  rewrite assign2_const_replicate, Hc.
  2: { rewrite Hc. unfold div_ceil, q. apply Nat.Div0.div_le_mono; lia. }
  destruct (drop (8 * q) bits) as [|b r] eqn:Er.
  { cbn [length] in Hl. rewrite Hl, Nat.add_0_r, div_ceil_exact, Nat.sub_diag by lia.
    by rewrite !app_nil_r. }
  assert (div_ceil (length bits) 8 = q + 1)%nat as ->.
  { unfold div_ceil. rewrite Hl. cbn [length] in Hl |- *.
    replace (q * 8 + S (length r) + 8 - 1)%nat with ((q + 1) * 8 + length r)%nat by lia.
    rewrite Nat.div_add_l, Nat.div_small; lia. }
  replace (q + 1 - q)%nat with 1%nat by lia. cbn [replicate].
  rewrite (chunks_short 8 (b :: r)) by (done || cbn [length] in *; lia).
  rewrite length_app, length_fmap, Hc, fmap_app. cbn [length].
  replace (q + 1 - 1)%nat with (length (or_bits 0 0 <$> chunks 8 (take (8 * q) bits)) + 0)%nat
    by (rewrite length_fmap; lia).
  by rewrite alter_app_r.
Qed.

Lemma unpack_byte c :
  Forall (valid Bit) c -> (length c <= 8)%nat ->
  (fun i => bit_new (Z.eqb (Z.land (Z.shiftr (or_bits 0 0 c) (Z.of_nat i)) 1) 1)) <$> seq 0 (length c) = c.
Proof.
  intros Hv Hc. destruct (or_bits_spec c Hc) as [_ Ht]. apply list_eq. intros j.
  rewrite list_lookup_fmap. destruct (decide (j < length c)%nat) as [Hj|].
  - rewrite lookup_seq_lt by done. simpl. destruct (lookup_lt_is_Some_2 c j Hj) as [b Hb].
    rewrite Hb, land_one, Z.shiftr_spec, Z.add_0_l, Ht, Hb, bit_new_b2z by lia. simpl.
    pose proof (Forall_lookup_1 _ _ _ _ Hv Hb) as Hvb. rewrite (valid_bit_b2z b Hvb) at 2.
    by destruct (bit_convert b).
  - by rewrite lookup_seq_ge, lookup_ge_None_2 by lia.
Qed.

Lemma unpack_loop_chunks bits acc n :
  Forall (valid Bit) bits -> n = (length acc + length bits)%nat ->
  unpack_loop (or_bits 0 0 <$> chunks 8 bits) n acc = acc ++ bits.
Proof.
  revert bits acc. refine (chunk_ind 8 _ _ _ _); [lia| |].
  { intros acc _ _. by rewrite app_nil_r. }
  intros bits Hne IH acc Hv Hn. rewrite chunks_cons by (done || lia). rewrite fmap_cons.
  cbn [unpack_loop]. replace (n - length acc)%nat with (length bits) by lia.
  assert (length bits `min` 8 = length (take 8 bits))%nat as -> by (rewrite length_take; lia).
  rewrite unpack_byte by (by apply Forall_take || (rewrite length_take; lia)).
  destruct (Nat.ltb_spec (length (take 8 bits)) 8) as [Hlt|Hge]; rewrite length_take in *.
  - by rewrite take_ge by lia.
  - rewrite IH; [by rewrite <- app_assoc, take_drop|by apply Forall_drop|].
    rewrite length_app, length_take, length_drop. lia.
Qed.

Lemma unpack_packed bits :
  Forall (valid Bit) bits -> unpack_bits (pack_bits bits) = Ok bits.
Proof.
  intros Hv. rewrite pack_bits_eq. cbn [unpack_bits unpack_bits_framed].
  unfold unpack_bits, unpack_bits_framed. rewrite unpack_loop_chunks by done. cbn [app].
  by rewrite Nat.eqb_refl.
Qed.

(** Packing a bit vector for the wire and unpacking it returns the bits. *)
Theorem unpack_pack_bits bits :
  Forall (valid Bit) bits -> unpack_bits (pack_bits bits) = Ok bits.
Proof. apply unpack_packed. Qed.

Lemma unpack_pack_bits_witness : unpack_bits (pack_bits [1; 0; 0; 1; 1; 1; 0; 1; 1; 0]) = Ok [1; 0; 0; 1; 1; 1; 0; 1; 1; 0].
Proof. apply unpack_pack_bits. repeat constructor; vm_compute; done. Defined.

Lemma pack_bits_wf bits : Z.of_nat (length bits) < 2 ^ 32 -> wf (pack_bits bits).
Proof.
  intros Hl. rewrite pack_bits_eq. split_and!.
  - apply Forall_fmap, Forall_forall. intros c Hc. apply or_bits_spec.
    revert Hc. revert bits Hl. refine (chunk_ind 8 _ _ _ _); [lia|by intros _ ?%not_elem_of_nil|].
    intros l Hne IH Hl. rewrite chunks_cons by (done || lia). intros [->|Hc]%elem_of_cons.
    + rewrite length_take. lia.
    + apply IH; [rewrite length_drop; lia|done].
  - by rewrite length_fmap, length_chunks by lia.
  - done.
Qed.

(** ** The [NetworkInt] contract *)

Lemma deserialize_not_preframed bs b : deserialize bs <> Ok (PreFramed b).
Proof.
  unfold deserialize. destruct (default _ _).
  { destruct (deserialize_vec bs); by intros [=]. }
  unfold deserialize_internal, mbind, result_bind. repeat case_match; discriminate.
Qed.

(** What a protocol relies on: either variant converts back to the vector, and
    the vector variant is the one [vec_descriptor_byte] frames. *)
Class NetworkIntOk (T : NetworkInt) : Prop := {
  nio_wire :: WireRing T;
  nio_elem x : as_vec T (new_network_element T x) = Some [x];
  nio_vec v : as_vec T (new_network_vec T v) = Some v;
  nio_preframed b : as_vec T (PreFramed b) = None;
  nio_serialize v :
    serialize (new_network_vec T v) [] = Ok (serialize_vec_ring T v [vec_descriptor_byte T]);
  nio_wf v : wf_vec T v -> wf_flat (new_network_vec T v);
}.

#[export] Instance net_u16_ok : NetworkIntOk net_u16.
Proof. split; [apply _|done..]. Qed.
#[export] Instance net_u32_ok : NetworkIntOk net_u32.
Proof. split; [apply _|done..]. Qed.
#[export] Instance net_u64_ok : NetworkIntOk net_u64.
Proof. split; [apply _|done..]. Qed.
#[export] Instance net_ring48_ok : NetworkIntOk net_ring48.
Proof. split; [apply _|done..]. Qed.

Section NetworkInt.
Context {T : NetworkInt} {HT : NetworkIntOk T}.

Lemma into_vec_vec v : into_vec T (new_network_vec T v) = Ok v.
Proof. unfold into_vec, into_vec_framed. by rewrite nio_vec. Qed.
Lemma into_vec_elem x : into_vec T (new_network_element T x) = Ok [x].
Proof. unfold into_vec, into_vec_framed. by rewrite nio_elem. Qed.
End NetworkInt.
