(* ===== verification/Net.v ===== *)
(** * Sessions and the three-party network:
    [ampc-actor-utils/src/execution/session.rs]

    A party's code is a [proc]: a tree of sends and receives, each of which
    hands the result of the call to the rest of the code.  The [Networking]
    implementation behind a session delivers messages reliably and in order
    between every two parties; three processes and the queues between them
    step as [step] says, in any interleaving.  [step_diamond] makes the outcome
    independent of the schedule, so a protocol is proved correct by exhibiting
    one run: [wp] says that the three processes have a run that ends with three
    results and queues that satisfy a postcondition. *)

From S2P Require Import Prelude IntRing RingImpl Party Share VecShare Value.
From stdpp Require Import base list numbers strings gmap relations.
From Stdlib Require Import ZArith Lia.
Local Open Scope Z_scope.

(* player.rs:6-6 Identity *)
Definition Identity := string.

(** ** Sessions *)

(** The generator behind a [Prf] ([rand_chacha::ChaCha8Rng] or
    [aes_prng::AesRng]) with the [blake3] seed expansion is a parameter:
    [from_seed] builds it from an expanded seed, [gen] draws one element,
    [fill] a vector, [expand_seed] is the hash. *)
Record Rng := {
  rng : Type;
  expand_seed : list Z -> list Z;
  from_seed : list Z -> rng;
  gen : IntRing2k -> rng -> Z * rng;
  fill : IntRing2k -> nat -> rng -> list Z * rng;
}.

(** Documented behaviour of [Rng::gen] and [Rng::fill]: values of the type,
    as many as asked for. *)
Class RngOk (R : Rng) : Prop := {
  rng_gen_valid T r : IntRing2kOk T -> valid T (gen R T r).1;
  rng_fill_length T n r : length (fill R T n r).1 = n;
  rng_fill_valid T n r : IntRing2kOk T -> Forall (valid T) (fill R T n r).1;
}.

(* prf.rs:36-39 Prf *)
Record Prf (R : Rng) := mkPrf { my_prf : rng R; prev_prf : rng R }.
Arguments mkPrf {R} _ _.
Arguments my_prf {R} _.
Arguments prev_prf {R} _.

(* session.rs:37-42 NetworkSession *)
Record NetworkSession := mkNetwork {
  session_id : Z;
  role_assignments : gmap Z Identity;  (* keyed by the role's index *)
  own_role : Role;
}.

(* session.rs:32-35 Session *)
Record Session (R : Rng) := mkSession { network_session : NetworkSession; prf : Prf R }.
Arguments mkSession {R} _ _.
Arguments network_session {R} _.
Arguments prf {R} _.

Definition with_prf {R} (s : Session R) (p : Prf R) : Session R := mkSession (network_session s) p.

(** [role_assignments.len() as u8]. *)
Definition num_players (s : NetworkSession) : Z := Z.of_nat (size (role_assignments s)) mod 256.

(* session.rs:163-168 NetworkSession::identity *)
Definition identity (s : NetworkSession) (role : Role) : result Identity :=
  ok_or (role_assignments s !! role_u8 role) "Couldn't find role in role assignment map".

(* session.rs:170-178 NetworkSession::prev_identity *)
Definition prev_identity (s : NetworkSession) : result Identity :=
  let prev_role := role_prev (own_role s) (num_players s) in
  ok_or (role_assignments s !! role_u8 prev_role)
    "Couldn't find role in role assignment map for prev_identity".

(* session.rs:180-188 NetworkSession::next_identity *)
Definition next_identity (s : NetworkSession) : result Identity :=
  next_role ← role_next (own_role s) (num_players s);
  ok_or (role_assignments s !! role_u8 next_role)
    "Couldn't find role in role assignment map for next_identity".

(** ** Processes *)

Inductive proc (A : Type) :=
| Ret (x : A)
| Raise (e : error)
| Send (to : Identity) (v : NetworkValue) (k : result unit -> proc A)
| Recv (from : Identity) (k : result NetworkValue -> proc A).
Arguments Ret {A} _.
Arguments Raise {A} _.
Arguments Send {A} _ _ _.
Arguments Recv {A} _ _.

Fixpoint pbind {A B} (p : proc A) (f : A -> proc B) : proc B :=
  match p with
  | Ret x => f x
  | Raise e => Raise e
  | Send to v k => Send to v (fun r => pbind (k r) f)
  | Recv from k => Recv from (fun r => pbind (k r) f)
  end.

#[export] Instance proc_ret : MRet proc := fun A x => Ret x.
#[export] Instance proc_bind : MBind proc := fun A B f p => pbind p f.

(** A call whose [Result] the caller looks at instead of passing it on. *)
Fixpoint pcatch {S A} (s0 : S) (p : proc (S * A)) : proc (S * result A) :=
  match p with
  | Ret (s, x) => Ret (s, Ok x)
  | Raise e => Ret (s0, Err e)
  | Send to v k => Send to v (fun r => pcatch s0 (k r))
  | Recv from k => Recv from (fun r => pcatch s0 (k r))
  end.

(** [expr?]: an error returns from the enclosing function. *)
Definition try {A} (r : result A) : proc A :=
  match r with Ok x => Ret x | Err e => Raise e end.

(** Awaiting [networking.send] and [networking.receive]. *)
Definition net_send (v : NetworkValue) (receiver : Identity) : proc (result unit) :=
  Send receiver v (fun r => Ret r).
Definition net_receive (sender : Identity) : proc (result NetworkValue) :=
  Recv sender (fun r => Ret r).

(** The [send]/[receive] methods return the call's [Result]; the identity
    lookup's [?] makes a failed lookup that result. *)
Definition or_send (to : result Identity) (v : NetworkValue) : proc (result unit) :=
  match to with Ok id => net_send v id | Err e => Ret (Err e) end.
Definition or_receive (from : result Identity) : proc (result NetworkValue) :=
  match from with Ok id => net_receive id | Err e => Ret (Err e) end.

(* session.rs:53-56 NetworkSession::send_next *)
Definition send_next (s : NetworkSession) (v : NetworkValue) : proc (result unit) :=
  or_send (next_identity s) v.
(* session.rs:58-61 NetworkSession::send_prev *)
Definition send_prev (s : NetworkSession) (v : NetworkValue) : proc (result unit) :=
  or_send (prev_identity s) v.
(* session.rs:63-66 NetworkSession::receive_next *)
Definition receive_next (s : NetworkSession) : proc (result NetworkValue) :=
  or_receive (next_identity s).
(* session.rs:68-71 NetworkSession::receive_prev *)
Definition receive_prev (s : NetworkSession) : proc (result NetworkValue) :=
  or_receive (prev_identity s).

(** The message of a vector: a single element is sent as the element variant,
    anything else is framed in place. *)
(* session.rs:76-94 NetworkSession::send_ring_vec *)
Definition ring_vec_message (T : NetworkInt) (data : list Z) : NetworkValue :=
  match data with
  | [x] => new_network_element T x
  | _ => PreFramed (serialize_vec_ring T data [vec_descriptor_byte T])
  end.
(* session.rs:96-101 NetworkSession::send_ring_vec_next *)
Definition send_ring_vec_next (T : NetworkInt) (s : NetworkSession) (data : list Z) : proc (result unit) :=
  or_send (next_identity s) (ring_vec_message T data).
(* session.rs:103-108 NetworkSession::send_ring_vec_prev *)
Definition send_ring_vec_prev (T : NetworkInt) (s : NetworkSession) (data : list Z) : proc (result unit) :=
  or_send (prev_identity s) (ring_vec_message T data).

(* session.rs:110-116 NetworkSession::receive_ring_vec *)
Definition receive_ring_vec (T : NetworkInt) (sender : result Identity) : proc (result (list Z)) :=
  m ← or_receive sender;
  Ret (v ← m; into_vec T v).
(* session.rs:118-120 NetworkSession::receive_ring_vec_next *)
Definition receive_ring_vec_next (T : NetworkInt) (s : NetworkSession) : proc (result (list Z)) :=
  receive_ring_vec T (next_identity s).
(* session.rs:122-124 NetworkSession::receive_ring_vec_prev *)
Definition receive_ring_vec_prev (T : NetworkInt) (s : NetworkSession) : proc (result (list Z)) :=
  receive_ring_vec T (prev_identity s).

(** ** Code that uses a session *)

(** An [async fn f(session: &mut Session, ..) -> Result<A>].  A returned error
    ends the party's code; the session it leaves behind is not observed. *)
Definition M (R : Rng) (A : Type) : Type := Session R -> proc (Session R * A).

#[export] Instance M_ret R : MRet (M R) := fun A x s => Ret (s, x).
#[export] Instance M_bind R : MBind (M R) := fun A B f m s => pbind (m s) (fun '(s, x) => f x s).

Definition liftr {R A} (r : result A) : M R A := fun s => x ← try r; Ret (s, x).
Definition liftp {R A} (p : NetworkSession -> proc A) : M R A :=
  fun s => x ← p (network_session s); Ret (s, x).
(** A network call followed by [?]. *)
Definition net {R A} (p : NetworkSession -> proc (result A)) : M R A :=
  r ← liftp p; liftr r.
(** A call without [?]: the error is a value.  After an error the session is
    the one the call started with: the calls this is used for do not draw
    randomness. *)
Definition attempt {R A} (m : M R A) : M R (result A) := fun s => pcatch s (m s).
Definition get {R} : M R (Session R) := fun s => Ret (s, s).
(** A call of a [Prf] method on [session.prf]. *)
Definition with_rng {R A} (f : Prf R -> A * Prf R) : M R A :=
  fun s => let '(x, p) := f (prf s) in Ret (with_prf s p, x).

(** ** The network *)

(** [ch @ i @ j]: the messages in flight from party [i] to party [j]. *)
Definition channels := tri (tri (list NetworkValue)).

Record config (A : Type) := mkConfig { procs : tri (proc A); chans : channels }.
Arguments mkConfig {A} _ _.
Arguments procs {A} _.
Arguments chans {A} _.

Definition chan (ch : channels) (i j : PartyID) : list NetworkValue := (ch @ i) @ j.
Definition set_chan (ch : channels) (i j : PartyID) (q : list NetworkValue) : channels :=
  tset ch i (tset (ch @ i) j q).
Definition no_messages : channels := tof (fun _ => tof (fun _ => [])).

(** One action of party [i]: it hands a message to the network, or takes the
    oldest message in flight from the peer it waits for. *)
Inductive pstep {A} (ids : tri Identity) (i : PartyID) : config A -> config A -> Prop :=
| pstep_send c j v k :
    (procs c) @ i = Send (ids @ j) v k ->
    pstep ids i c (mkConfig (tset (procs c) i (k (Ok tt)))
                            (set_chan (chans c) i j (chan (chans c) i j ++ [v])))
| pstep_recv c j v q k :
    (procs c) @ i = Recv (ids @ j) k -> chan (chans c) j i = v :: q ->
    pstep ids i c (mkConfig (tset (procs c) i (k (Ok v))) (set_chan (chans c) j i q)).

Definition step {A} (ids : tri Identity) (c c' : config A) : Prop := exists i, pstep ids i c c'.

Definition init {A} (p : tri (proc A)) : config A := mkConfig p no_messages.
Definition finished {A} (out : tri A) : config A := mkConfig (Ret <$> out) no_messages.

(** The three addresses are distinct. *)
Definition distinct (ids : tri Identity) : Prop := forall i j, ids @ i = ids @ j -> i = j.

Lemma chan_set ch i j q : chan (set_chan ch i j q) i j = q.
Proof. unfold chan, set_chan. by rewrite !tget_tset. Qed.
Lemma chan_set_ne ch i j i' j' q :
  (i, j) <> (i', j') -> chan (set_chan ch i j q) i' j' = chan ch i' j'.
Proof. unfold chan, set_chan. by destruct i, j, i', j'. Qed.
Lemma set_chan_comm ch i j i' j' q q' :
  (i, j) <> (i', j') ->
  set_chan (set_chan ch i j q) i' j' q' = set_chan (set_chan ch i' j' q') i j q.
Proof. unfold set_chan. by destruct i, j, i', j'. Qed.
Lemma set_chan_set ch i j q q' : set_chan (set_chan ch i j q) i j q' = set_chan ch i j q'.
Proof. unfold set_chan. by destruct i, j. Qed.

Section Confluence.
Context {A : Type} (ids : tri Identity) (Hids : distinct ids).
Implicit Types c : config A.

Lemma pstep_det i c c1 c2 : pstep ids i c c1 -> pstep ids i c c2 -> c1 = c2.
Proof.
  destruct 1 as [c j v k Hp|c j v q k Hp Hq]; inversion 1 as [? j' v' k' Hp'|? j' v' q' k' Hp' Hq'];
    subst; rewrite Hp in Hp'; try discriminate; injection Hp' as Hj; subst;
    apply Hids in Hj as <-; [done|].
  rewrite Hq in Hq'. by injection Hq' as -> ->.
Qed.

Lemma send_then i i' c j v k :
  i <> i' -> (procs c) @ i = Send (ids @ j) v k ->
  forall p' ch' , let c' := mkConfig (tset (procs c) i' p') ch' in
  pstep ids i c' (mkConfig (tset (tset (procs c) i' p') i (k (Ok tt)))
                           (set_chan ch' i j (chan ch' i j ++ [v]))).
Proof. intros Hi Hp p' ch' c'. apply (pstep_send ids i c'). cbn. by rewrite tget_tset_ne. Qed.

Lemma recv_then i i' c j v q k :
  i <> i' -> (procs c) @ i = Recv (ids @ j) k ->
  forall p' ch', let c' := mkConfig (tset (procs c) i' p') ch' in
  chan ch' j i = v :: q ->
  pstep ids i c' (mkConfig (tset (tset (procs c) i' p') i (k (Ok v))) (set_chan ch' j i q)).
Proof. intros Hi Hp p' ch' c' Hq. apply (pstep_recv ids i c'); [|done]. cbn. by rewrite tget_tset_ne. Qed.

(** A send and a receive of different parties commute, also on one queue. *)
Lemma send_recv_comm i i' c j v k j' v' q' k' :
  i <> i' -> (procs c) @ i = Send (ids @ j) v k ->
  (procs c) @ i' = Recv (ids @ j') k' -> chan (chans c) j' i' = v' :: q' ->
  exists d,
    pstep ids i' (mkConfig (tset (procs c) i (k (Ok tt)))
                    (set_chan (chans c) i j (chan (chans c) i j ++ [v]))) d /\
    pstep ids i (mkConfig (tset (procs c) i' (k' (Ok v'))) (set_chan (chans c) j' i' q')) d.
Proof.
  intros Hi Hp Hp' Hq'. destruct (decide ((i, j) = (j', i'))) as [[= <- <-]|Hne].
  - eexists. split; [apply (recv_then j i c i v' (q' ++ [v])); [done|done|]|].
    + by rewrite chan_set, Hq'.
    + rewrite set_chan_set, tset_comm by done.
      replace (set_chan (chans c) i j (q' ++ [v])) with
        (set_chan (set_chan (chans c) i j q') i j (chan (set_chan (chans c) i j q') i j ++ [v]))
        by by rewrite chan_set, set_chan_set.
      by apply send_then.
  - eexists. split; [eapply (recv_then i' i); [done|done|]|].
    + rewrite chan_set_ne by done. done.
    + rewrite set_chan_comm, tset_comm by done.
      rewrite <- (chan_set_ne (chans c) j' i' i j q') by congruence. by apply send_then.
Qed.

Lemma pstep_comm i i' c c1 c2 :
  i <> i' -> pstep ids i c c1 -> pstep ids i' c c2 ->
  exists d, pstep ids i' c1 d /\ pstep ids i c2 d.
Proof.
  intros Hi. destruct 1 as [c j v k Hp|c j v q k Hp Hq];
    inversion 1 as [? j' v' k' Hp'|? j' v' q' k' Hp' Hq']; subst.
  - eexists. split; [by apply (send_then i' i)|].
    rewrite chan_set_ne, set_chan_comm, tset_comm by congruence.
    rewrite <- (chan_set_ne (chans c) i' j' i j (chan (chans c) i' j' ++ [v'])) by congruence.
    by apply send_then.
  - by eapply send_recv_comm.
  - edestruct (send_recv_comm i' i) as (d & H1 & H2); eauto.
  - eexists. split; [eapply (recv_then i' i); [done|done|by rewrite chan_set_ne by congruence]|].
    rewrite set_chan_comm, tset_comm by congruence. apply recv_then; [done|done|].
    by rewrite chan_set_ne by congruence.
Qed.

(** Two steps from one configuration lead to a common one, in one step each. *)
Lemma step_diamond c c1 c2 :
  step ids c c1 -> step ids c c2 -> c1 = c2 \/ exists d, step ids c1 d /\ step ids c2 d.
Proof.
  intros [i H1] [i' H2]. destruct (decide (i = i')) as [->|Hi].
  - left. by eapply pstep_det.
  - right. destruct (pstep_comm i i' c c1 c2 Hi H1 H2) as (d & ? & ?). exists d. split; eexists; done.
Qed.

Lemma finished_stuck (out : tri A) c : step ids (finished out) c -> False.
Proof.
  intros [i H]. inversion H as [? j v k Hp|? j v q k Hp Hq]; subst; cbn in Hp;
    by rewrite tget_fmap in Hp.
Qed.

(** A step never leaves the paths to a final configuration, and brings it
    nearer. *)
Lemma step_towards n c c' (out : tri A) :
  nsteps (step ids) n c (finished out) -> step ids c c' ->
  exists n', n = S n' /\ nsteps (step ids) n' c' (finished out).
Proof.
  revert c c'. induction n as [|n IH]; intros c c' Hn Hs.
  - inversion Hn; subst. exfalso. by eapply finished_stuck.
  - exists n. split; [done|]. inversion Hn as [|? ? d ? Hd Hn']; subst.
    destruct (step_diamond c c' d Hs Hd) as [->|(e & He & He')]; [done|].
    destruct (IH d e Hn' He') as (n' & -> & Hn''). by eapply nsteps_l.
Qed.
End Confluence.

(** The outcome of a protocol does not depend on how the parties' actions
    interleave: if some run of [n] actions ends with the results [out], then
    every other run has at most [n] actions and can be continued to end with
    the same results. *)
Theorem schedule_independence {A} ids (p : tri (proc A)) n m out c :
  distinct ids ->
  nsteps (step ids) n (init p) (finished out) -> nsteps (step ids) m (init p) c ->
  (m <= n)%nat /\ nsteps (step ids) (n - m) c (finished out).
Proof.
  intros Hids. generalize (init p). intros c0 Hn Hm. revert n Hn.
  induction Hm as [c0|m c0 c1 c Hs Hm IH]; intros n Hn.
  - split; [lia|]. by rewrite Nat.sub_0_r.
  - destruct (step_towards ids Hids n c0 c1 out Hn Hs) as (n' & -> & Hn').
    destruct (IH n' Hn') as [Hle Hr]. split; [lia|done].
Qed.

(** ** Runs of three parties *)

(** From the queues [ch], some run ends with queues and results in [Q]. *)
Definition wp {A} (ids : tri Identity) (ch : channels) (p : tri (proc A))
    (Q : channels -> tri A -> Prop) : Prop :=
  exists ch' out, rtc (step ids) (mkConfig p ch) (mkConfig (Ret <$> out) ch') /\ Q ch' out.

Lemma wp_mono {A} ids ch (p : tri (proc A)) (Q Q' : channels -> tri A -> Prop) :
  (forall ch' out, Q ch' out -> Q' ch' out) -> wp ids ch p Q -> wp ids ch p Q'.
Proof. intros H (ch' & out & ? & ?). exists ch', out. auto. Qed.

Lemma wp_ret {A} ids ch (out : tri A) (Q : channels -> tri A -> Prop) :
  Q ch out -> wp ids ch (Ret <$> out) Q.
Proof. intros H. by exists ch, out. Qed.

Lemma wp_pstep {A} ids i ch ch' (p p' : tri (proc A)) Q :
  pstep ids i (mkConfig p ch) (mkConfig p' ch') -> wp ids ch' p' Q -> wp ids ch p Q.
Proof.
  intros Hs (ch'' & out & ? & ?). exists ch'', out. split; [|done].
  eapply rtc_l; [|done]. by exists i.
Qed.

Lemma wp_send {A} ids ch (p : tri (proc A)) i j v k Q :
  p @ i = Send (ids @ j) v k ->
  wp ids (set_chan ch i j (chan ch i j ++ [v])) (tset p i (k (Ok tt))) Q -> wp ids ch p Q.
Proof. intros Hp. apply (wp_pstep ids i). by apply (pstep_send ids i (mkConfig p ch)). Qed.

Lemma wp_recv {A} ids ch (p : tri (proc A)) i j v q k Q :
  p @ i = Recv (ids @ j) k -> chan ch j i = v :: q ->
  wp ids (set_chan ch j i q) (tset p i (k (Ok v))) Q -> wp ids ch p Q.
Proof. intros Hp Hq. apply (wp_pstep ids i). by eapply (pstep_recv ids i (mkConfig p ch)). Qed.

(** A process may run inside any context that passes its sends and receives
    on: the rest of a [bind], or a caller that looks at the outcome. *)
Section Contexts.
Context {A B : Type} (E : PartyID -> proc A -> proc B).
Hypothesis HS : forall i to v f, E i (Send to v f) = Send to v (fun r => E i (f r)).
Hypothesis HV : forall i from f, E i (Recv from f) = Recv from (fun r => E i (f r)).

Lemma pstep_context ids i (c c' : config A) :
  pstep ids i c c' ->
  pstep ids i (mkConfig (tof (fun i => E i ((procs c) @ i))) (chans c))
              (mkConfig (tof (fun i => E i ((procs c') @ i))) (chans c')).
Proof.
  assert (forall p (x : proc A), tof (fun i0 => E i0 ((tset p i x) @ i0)) = tset (tof (fun i0 => E i0 (p @ i0))) i (E i x)) as Hset.
  { intros p x. by destruct i. }
  destruct 1 as [c j v f Hp|c j v q f Hp Hq]; cbn [procs chans]; rewrite Hset.
  - eapply (pstep_send ids i (mkConfig _ _) j v (fun r => E i (f r))). cbn. by rewrite tget_tof, Hp.
  - eapply (pstep_recv ids i (mkConfig _ _) j v q (fun r => E i (f r))); [|done]. cbn. by rewrite tget_tof, Hp.
Qed.

Lemma wp_context ids ch (p : tri (proc A)) Q :
  wp ids ch p (fun ch' out => wp ids ch' (tof (fun i => E i (Ret (out @ i)))) Q) ->
  wp ids ch (tof (fun i => E i (p @ i))) Q.
Proof.
  intros (ch' & out & Hs & ch'' & out' & Hs' & HQ). exists ch'', out'. split; [|done].
  transitivity (mkConfig (tof (fun i => E i (Ret (out @ i)))) ch'); [|done]. clear Hs' HQ.
  remember (mkConfig p ch) as c eqn:Hc. remember (mkConfig (Ret <$> out) ch') as c' eqn:Hc'.
  assert (rtc (step ids)
    (mkConfig (tof (fun i => E i ((procs c) @ i))) (chans c))
    (mkConfig (tof (fun i => E i ((procs c') @ i))) (chans c'))) as H; [|by subst].
  clear Hc Hc'. induction Hs as [|c1 c2 c3 [i Hs] _ IH]; [done|].
  eapply rtc_l; [|done]. exists i. by apply pstep_context.
Qed.
End Contexts.

Lemma wp_bind {A B} ids ch (p : tri (proc A)) (k : PartyID -> A -> proc B) Q :
  wp ids ch p (fun ch' out => wp ids ch' (tof (fun i => k i (out @ i))) Q) ->
  wp ids ch (tof (fun i => pbind (p @ i) (k i))) Q.
Proof. by apply (wp_context (fun i p => pbind p (k i))). Qed.

(** A run that starts and ends with empty queues is one of the runs
    [schedule_independence] speaks of. *)
Lemma wp_run {A} ids (p : tri (proc A)) Q :
  wp ids no_messages p (fun ch out => ch = no_messages /\ Q out) ->
  exists n out, nsteps (step ids) n (init p) (finished out) /\ Q out.
Proof. intros (ch & out & Hs & -> & HQ). apply rtc_nsteps in Hs as [n Hn]. eauto. Qed.

(** ** Rules for session code *)

Section Exec.
Context {R : Rng} (ids : tri Identity).

Definition exec {A} (ch : channels) (m : PartyID -> M R A) (s : tri (Session R))
    (Q : channels -> tri (Session R) -> tri A -> Prop) : Prop :=
  wp ids ch (tof (fun i => m i (s @ i))) (fun ch' out => Q ch' (fst <$> out) (snd <$> out)).

Lemma exec_mono {A} ch (m : PartyID -> M R A) s (Q Q' : channels -> tri (Session R) -> tri A -> Prop) :
  (forall ch' s' x, Q ch' s' x -> Q' ch' s' x) -> exec ch m s Q -> exec ch m s Q'.
Proof. intros H. apply wp_mono. auto. Qed.

Lemma exec_ret {A} ch (x : tri A) s Q : Q ch s x -> exec ch (fun i => mret (x @ i)) s Q.
Proof.
  intros H. unfold exec. apply (wp_ret ids ch (tof (fun i => (s @ i, x @ i)))).
  by destruct s, x.
Qed.

Lemma exec_bind {A B} ch (m : PartyID -> M R A) (k : PartyID -> A -> M R B) s Q :
  exec ch m s (fun ch' s' x => exec ch' (fun i => k i (x @ i)) s' Q) ->
  exec ch (fun i => m i ≫= k i) s Q.
Proof.
  intros H. unfold exec.
  pose proof (wp_bind ids ch (tof (fun i => m i (s @ i))) (fun i '(s, x) => k i x s)) as Hb.
  apply Hb. eapply wp_mono; [|exact H]. intros ch' [[] [] []] HQ. exact HQ.
Qed.

Lemma exec_attempt_bind {A B} ch (m : PartyID -> M R A) (k : PartyID -> A -> M R B) s Q :
  exec ch m s (fun ch' s' x => s' = s /\ exec ch' (fun i => attempt (k i (x @ i))) s' Q) ->
  exec ch (fun i => attempt (m i ≫= k i)) s Q.
Proof.
  intros H. unfold exec. pose proof (wp_context (fun i p => pcatch (s @ i) (pbind p (fun '(s, x) => k i x s))) ltac:(done) ltac:(done)
    ids ch (tof (fun i => m i (s @ i)))) as Hb.
  apply Hb. eapply wp_mono; [|exact H]. intros ch' [[] [] []] [<- HQ]. exact HQ.
Qed.

Lemma exec_ext {A} ch (m m' : PartyID -> M R A) s Q :
  (forall i, m i (s @ i) = m' i (s @ i)) -> exec ch m' s Q -> exec ch m s Q.
Proof. intros H. unfold exec, tof. by rewrite !H. Qed.

Lemma exec_liftr {A} ch (r : PartyID -> result A) (x : tri A) s Q :
  (forall i, r i = Ok (x @ i)) -> Q ch s x -> exec ch (fun i => liftr (r i)) s Q.
Proof.
  intros Hr HQ. apply (exec_ext _ _ (fun i => mret (x @ i))); [|by apply exec_ret].
  intros i. unfold liftr. by rewrite Hr.
Qed.

Lemma exec_get ch s Q : Q ch s s -> exec ch (fun _ => get) s Q.
Proof.
  intros HQ. apply (exec_ext _ _ (fun i => mret (s @ i))); [done|]. by apply exec_ret.
Qed.

Lemma exec_with_rng {A} ch (f : PartyID -> Prf R -> A * Prf R) s Q :
  Q ch (tof (fun i => with_prf (s @ i) (f i (prf (s @ i))).2)) (tof (fun i => (f i (prf (s @ i))).1)) ->
  exec ch (fun i => with_rng (f i)) s Q.
Proof.
  intros HQ. unfold exec.
  assert (tof (fun i => with_rng (f i) (s @ i))
    = Ret <$> tof (fun i => (with_prf (s @ i) (f i (prf (s @ i))).2, (f i (prf (s @ i))).1))) as ->.
  { unfold with_rng. apply tri_ext. intros i. rewrite tget_fmap, !tget_tof.
    by destruct (f i (prf (s @ i))). }
  by apply wp_ret.
Qed.
End Exec.

(** ** Sessions of the three-party ring *)

(** The network part of the three sessions: party [i] has role [i], and all
    know the same three addresses. *)
Definition ring_network (ids : tri Identity) (sid : Z) (i : PartyID) (n : NetworkSession) : Prop :=
  own_role n = party_role i /\ session_id n = sid /\
  size (role_assignments n) = 3%nat /\
  forall j, role_assignments n !! party_index j = Some (ids @ j).

(** The PRFs of neighbours agree: party [i]'s generator is the one its
    successor has for its predecessor. *)
Definition prf_synced {R} (s : tri (Session R)) : Prop :=
  forall i, my_prf (prf (s @ i)) = prev_prf (prf (s @ (next_id i))).

Definition in_ring {R} (ids : tri Identity) (sid : Z) (s : tri (Session R)) : Prop :=
  forall i, ring_network ids sid i (network_session (s @ i)).

Definition ring_sessions {R} (ids : tri Identity) (sid : Z) (s : tri (Session R)) : Prop :=
  in_ring ids sid s /\ prf_synced s.

Lemma next_identity_ring ids sid i n :
  ring_network ids sid i n -> next_identity n = Ok (ids @ (next_id i)).
Proof.
  intros (Hr & _ & Hs & Ha). unfold next_identity, num_players. rewrite Hr, Hs.
  change (Z.of_nat 3 mod 256) with 3. rewrite role_next_party. cbn [mbind result_bind].
  unfold party_role. cbn [role_u8]. by rewrite Ha.
Qed.

Lemma prev_identity_ring ids sid i n :
  ring_network ids sid i n -> prev_identity n = Ok (ids @ (prev_id i)).
Proof.
  intros (Hr & _ & Hs & Ha). unfold prev_identity, num_players. rewrite Hr, Hs.
  change (Z.of_nat 3 mod 256) with 3. rewrite role_prev_party.
  unfold party_role. cbn [role_u8]. by rewrite Ha.
Qed.

(** All parties send in the direction [dir] ([next_id] or [prev_id]). *)
Definition push (dir : PartyID -> PartyID) (ch : channels) (v : tri NetworkValue) : channels :=
  tof (fun i => tset (ch @ i) (dir i) (chan ch i (dir i) ++ [v @ i])).

Section Rounds.
Context {R : Rng} (ids : tri Identity) (sid : Z).

Lemma wp_send_all {A} ch dir (v : tri NetworkValue) (k : PartyID -> result unit -> proc A) Q :
  wp ids (push dir ch v) (tof (fun i => k i (Ok tt))) Q ->
  wp ids ch (tof (fun i => Send (ids @ (dir i)) (v @ i) (k i))) Q.
Proof.
  intros H. eapply (wp_send _ _ _ ID0 (dir ID0)); [done|].
  eapply (wp_send _ _ _ ID1 (dir ID1)); [done|].
  eapply (wp_send _ _ _ ID2 (dir ID2)); [done|].
  unfold push, tof in *. cbn in *. unfold chan, set_chan in *. cbn in *. done.
Qed.

(** All parties receive from direction [dir]; every party finds its message. *)
Lemma wp_recv_all {A} ch ch' dir (v : tri NetworkValue) (k : PartyID -> result NetworkValue -> proc A) Q :
  (forall i j, chan ch i j = if decide (i = dir j) then v @ j :: chan ch' i j else chan ch' i j) ->
  wp ids ch' (tof (fun i => k i (Ok (v @ i)))) Q ->
  wp ids ch (tof (fun i => Recv (ids @ (dir i)) (k i))) Q.
Proof.
  intros Hch H.
  assert (forall i j q, chan ch i j = q -> i = dir j -> q = v @ j :: chan ch' i j) as Hhead.
  { intros i j q <- Hd. rewrite Hch. by rewrite decide_True. }
  eapply (wp_recv _ _ _ ID0 (dir ID0)); [done|rewrite (Hhead (dir ID0) ID0 _ eq_refl eq_refl); done|].
  eapply (wp_recv _ _ _ ID1 (dir ID1)); [done|rewrite chan_set_ne by congruence; rewrite (Hhead (dir ID1) ID1 _ eq_refl eq_refl); done|].
  eapply (wp_recv _ _ _ ID2 (dir ID2)); [done|rewrite !chan_set_ne by congruence; rewrite (Hhead (dir ID2) ID2 _ eq_refl eq_refl); done|].
  assert (set_chan (set_chan (set_chan ch (dir ID0) ID0 (chan ch' (dir ID0) ID0))
      (dir ID1) ID1 (chan ch' (dir ID1) ID1)) (dir ID2) ID2 (chan ch' (dir ID2) ID2) = ch') as ->; [|done].
  apply tri_ext. intros i. apply tri_ext. intros j. specialize (Hch i j). revert Hch.
  unfold set_chan, chan. destruct (dir ID0) eqn:E0, (dir ID1) eqn:E1, (dir ID2) eqn:E2, i, j; cbn; try done;
    rewrite ?E0, ?E1, ?E2; by rewrite decide_False.
Qed.
End Rounds.

Section Rules.
Context {R : Rng} (ids : tri Identity) (sid : Z).
Implicit Types (s : tri (Session R)) (ch : channels) (v : tri NetworkValue).

Lemma exec_send_dir ch s v dir (f : PartyID -> NetworkSession -> proc (result unit)) Q :
  (forall i, f i (network_session (s @ i)) = net_send (v @ i) (ids @ (dir i))) ->
  Q (push dir ch v) s (tof (fun _ => Ok tt)) ->
  exec ids ch (fun i => liftp (f i)) s Q.
Proof.
  intros Hf HQ. unfold exec, liftp. unfold tof at 1. rewrite !Hf.
  apply (wp_send_all ids ch dir v (fun i r => Ret (s @ i, r))).
  apply (wp_ret _ _ (tof (fun i => (s @ i, Ok tt)))). by destruct s.
Qed.

Lemma exec_recv_dir ch ch' s v dir (f : PartyID -> NetworkSession -> proc (result NetworkValue)) Q :
  (forall i, f i (network_session (s @ i)) = net_receive (ids @ (dir i))) ->
  (forall i j, chan ch i j = if decide (i = dir j) then v @ j :: chan ch' i j else chan ch' i j) ->
  Q ch' s (Ok <$> v) ->
  exec ids ch (fun i => liftp (f i)) s Q.
Proof.
  intros Hf Hch HQ. unfold exec, liftp. unfold tof at 1. rewrite !Hf.
  eapply (wp_recv_all ids ch ch' dir v (fun i r => Ret (s @ i, r))); [done|].
  apply (wp_ret _ _ (tof (fun i => (s @ i, Ok (v @ i))))). by destruct s.
Qed.

Lemma exec_net {A} ch s (f : PartyID -> NetworkSession -> proc (result A)) Q :
  exec ids ch (fun i => liftp (f i)) s
    (fun ch' s' r => exists x, r = Ok <$> x /\ Q ch' s' x) ->
  exec ids ch (fun i => net (f i)) s Q.
Proof.
  intros H. apply exec_bind. eapply exec_mono; [|exact H]. intros ch' s' r (x & -> & HQ).
  apply (exec_liftr _ _ _ x); [|done]. intros i. by rewrite tget_fmap.
Qed.

Lemma exec_send_next ch s v Q :
  in_ring ids sid s -> Q (push next_id ch v) s (tof (fun _ => tt)) ->
  exec ids ch (fun i => net (fun n => send_next n (v @ i))) s Q.
Proof.
  intros Hs HQ. apply (exec_net ch s (fun i n => send_next n (v @ i))).
  apply (exec_send_dir _ _ v next_id).
  - intros i. unfold send_next. by rewrite (next_identity_ring _ _ _ _ (Hs i)).
  - exists (tof (fun _ => tt)). done.
Qed.

Lemma exec_send_prev ch s v Q :
  in_ring ids sid s -> Q (push prev_id ch v) s (tof (fun _ => tt)) ->
  exec ids ch (fun i => net (fun n => send_prev n (v @ i))) s Q.
Proof.
  intros Hs HQ. apply (exec_net ch s (fun i n => send_prev n (v @ i))).
  apply (exec_send_dir _ _ v prev_id).
  - intros i. unfold send_prev. by rewrite (prev_identity_ring _ _ _ _ (Hs i)).
  - exists (tof (fun _ => tt)). done.
Qed.

Lemma exec_send_ring_vec_next T ch s (d : tri (list Z)) Q :
  in_ring ids sid s -> Q (push next_id ch (ring_vec_message T <$> d)) s (tof (fun _ => tt)) ->
  exec ids ch (fun i => net (fun n => send_ring_vec_next T n (d @ i))) s Q.
Proof.
  intros Hs HQ. apply (exec_net ch s (fun i n => send_ring_vec_next T n (d @ i))).
  apply (exec_send_dir _ _ (ring_vec_message T <$> d) next_id).
  - intros i. unfold send_ring_vec_next. rewrite (next_identity_ring _ _ _ _ (Hs i)).
    by rewrite tget_fmap.
  - exists (tof (fun _ => tt)). done.
Qed.

Lemma exec_receive_prev ch ch' s v Q :
  in_ring ids sid s ->
  (forall i j, chan ch i j = if decide (i = prev_id j) then v @ j :: chan ch' i j else chan ch' i j) ->
  Q ch' s (Ok <$> v) ->
  exec ids ch (fun i => liftp receive_prev) s Q.
Proof.
  intros Hs. apply exec_recv_dir. intros i. unfold receive_prev.
  by rewrite (prev_identity_ring _ _ _ _ (Hs i)).
Qed.

Lemma exec_receive_next ch ch' s v Q :
  in_ring ids sid s ->
  (forall i j, chan ch i j = if decide (i = next_id j) then v @ j :: chan ch' i j else chan ch' i j) ->
  Q ch' s (Ok <$> v) ->
  exec ids ch (fun i => liftp receive_next) s Q.
Proof.
  intros Hs. apply exec_recv_dir. intros i. unfold receive_next.
  by rewrite (next_identity_ring _ _ _ _ (Hs i)).
Qed.

(** What a party sends to its successor, its successor receives. *)
Lemma push_next_recv v i j :
  chan (push next_id no_messages v) i j
  = if decide (i = prev_id j) then (tof (fun j => v @ (prev_id j))) @ j :: chan no_messages i j
    else chan no_messages i j.
Proof. by destruct i, j. Qed.
Lemma push_prev_recv v i j :
  chan (push prev_id no_messages v) i j
  = if decide (i = next_id j) then (tof (fun j => v @ (next_id j))) @ j :: chan no_messages i j
    else chan no_messages i j.
Proof. by destruct i, j. Qed.
End Rules.

Lemma deserialize_framed T `{!NetworkIntOk T} data :
  wf_vec T data ->
  deserialize (serialize_vec_ring T data [vec_descriptor_byte T]) = Ok (new_network_vec T data).
Proof.
  intros Hw. pose proof (serialize_wf_flat _ (nio_wf data Hw)) as Hs.
  rewrite nio_serialize in Hs. apply Ok_inj in Hs. rewrite Hs. by apply deserialize_wire, nio_wf.
Qed.

Lemma into_vec_message T `{!NetworkIntOk T} data :
  wf_vec T data -> into_vec T (ring_vec_message T data) = Ok data.
Proof.
  intros Hw.
  assert (into_vec T (PreFramed (serialize_vec_ring T data [vec_descriptor_byte T])) = Ok data) as H.
  { unfold into_vec, into_vec_framed at 1. rewrite nio_preframed, deserialize_framed by done.
    cbn [mbind result_bind]. unfold into_vec_framed. by rewrite nio_vec. }
  destruct data as [|x [|y l]]; [exact H|apply into_vec_elem|exact H].
Qed.

(** A vector framed in place is the message the owned vector variant would
    be: the bytes on the wire are identical, and the receiver's [into_vec]
    returns the vector. *)
Theorem ring_vec_message_correct T `{!NetworkIntOk T} data :
  wf_vec T data -> length data <> 1%nat ->
  to_network (ring_vec_message T data) = serialize (new_network_vec T data) [] /\
  into_vec T (ring_vec_message T data) = Ok data.
Proof.
  intros Hw Hl. split; [|by apply into_vec_message]. rewrite nio_serialize.
  by destruct data as [|x [|y l]].
Qed.

Lemma ring_vec_message_correct_witness :
  to_network (ring_vec_message net_ring48 [7; 8]) = serialize (VecRing48 [7; 8]) [] /\
  into_vec net_ring48 (ring_vec_message net_ring48 [7; 8]) = Ok [7; 8].
Proof.
  apply (ring_vec_message_correct net_ring48 [7; 8]); [|done].
  split; [repeat constructor; vm_compute; done|vm_compute; done].
Defined.
