(* ===== verification/Prf.v ===== *)
(** * Shared randomness: [ampc-actor-utils/src/protocol/prf.rs]

    Every party holds two generators, one shared with each neighbour.  The
    generator itself is the parameter [Rng] of Net.v; the methods of [Prf]
    thread its state.  A rejection-sampling loop runs as long as the generator
    makes it run, so it takes fuel and is [None] when the fuel runs out. *)

From S2P Require Import Prelude IntRing RingImpl Party Share VecShare Value Net.
From stdpp Require Import base list numbers strings gmap.
From Stdlib Require Import ZArith Lia.
Local Open Scope Z_scope.

Definition U64_MAX : Z := 2 ^ 64 - 1.

(* prf.rs:14-18 gen_u32_mod (rejection_bound) *)
Definition rejection_bound (modulus_64 : Z) : Z :=
  U64_MAX - ((U64_MAX mod modulus_64 + 1) mod modulus_64).

(* prf.rs:19-24 gen_u32_mod (loop) *)
Fixpoint gen_u32_loop (R : Rng) (fuel : nat) (r : rng R) (modulus : Z) : option (Z * rng R) :=
  match fuel with
  | O => None
  | S fuel =>
      let '(v, r) := gen R u64 r in
      if v <=? rejection_bound modulus then Some ((v mod modulus) mod 2 ^ 32, r)
      else gen_u32_loop R fuel r modulus
  end.

(* prf.rs:10-25 gen_u32_mod *)
Definition gen_u32_mod (R : Rng) (fuel : nat) (r : rng R) (modulus : Z) : option (result (Z * rng R)) :=
  if Z.eqb modulus 0 then Some (bail "modulus must be non-zero")
  else x ← gen_u32_loop R fuel r modulus; Some (Ok x).

Section Prf.
Context (R : Rng).

(* prf.rs:52-57 Prf::new *)
Definition prf_new (my_key prev_key : list Z) : Prf R :=
  mkPrf (from_seed R (expand_seed R my_key)) (from_seed R (expand_seed R prev_key)).

(* prf.rs:93-100 Prf::gen_rands *)
Definition gen_rands (T : IntRing2k) (p : Prf R) : (Z * Z) * Prf R :=
  let '(a, my) := gen R T (my_prf p) in
  let '(b, prev) := gen R T (prev_prf p) in
  ((a, b), mkPrf my prev).

(* prf.rs:103-110 Prf::gen_rands_mine *)
Definition gen_rands_mine (T : IntRing2k) (len : nat) (p : Prf R) : list Z * Prf R :=
  let '(mine, my) := fill R T len (my_prf p) in (mine, mkPrf my (prev_prf p)).

(* prf.rs:113-120 Prf::gen_rands_prev *)
Definition gen_rands_prev (T : IntRing2k) (len : nat) (p : Prf R) : list Z * Prf R :=
  let '(prev, pr) := fill R T len (prev_prf p) in (prev, mkPrf (my_prf p) pr).

(* prf.rs:124-131 Prf::gen_rands_batch *)
Definition gen_rands_batch (T : IntRing2k) (len : nat) (p : Prf R) : (list Z * list Z) * Prf R :=
  let '(mine, p) := gen_rands_mine T len p in
  let '(prev, p) := gen_rands_prev T len p in
  ((mine, prev), p).

(* prf.rs:133-139 Prf::gen_zero_share *)
Definition gen_zero_share (T : IntRing2k) (p : Prf R) : Z * Prf R :=
  let '((a, b), p) := gen_rands T p in (a ⊖[T] b, p).

(* prf.rs:141-147 Prf::gen_binary_zero_share *)
Definition gen_binary_zero_share (T : IntRing2k) (p : Prf R) : Z * Prf R :=
  let '((a, b), p) := gen_rands T p in (a ^[T] b, p).

(* prf.rs:150-154 Prf::gen_u32_mod *)
Definition prf_gen_u32_mod (fuel : nat) (modulus : Z) (p : Prf R) : option (result ((Z * Z) * Prf R)) :=
  a ← gen_u32_mod R fuel (my_prf p) modulus;
  match a with
  | Err e => Some (Err e)
  | Ok (a, my) =>
      b ← gen_u32_mod R fuel (prev_prf p) modulus;
      match b with
      | Err e => Some (Err e)
      | Ok (b, prev) => Some (Ok ((a, b), mkPrf my prev))
      end
  end.

(** [v.swap(i, j)]: panics out of range. *)
Definition swap {A} (v : list A) (i j : nat) : result (list A) :=
  match v !! i, v !! j with
  | Some x, Some y => Ok (<[j := x]> (<[i := y]> v))
  | _, _ => panic "index out of bounds"
  end.

(** [for i in i0..size]; [n] is the number of iterations left. *)
(* prf.rs:159-163 Prf::gen_permutation (loop) *)
Fixpoint permutation_loop (fuel n : nat) (i : Z) (perm_a perm_b : list Z) (p : Prf R)
    : option (result ((list Z * list Z) * Prf R)) :=
  match n with
  | O => Some (Ok ((perm_a, perm_b), p))
  | S n =>
      js ← prf_gen_u32_mod fuel (i + 1) p;
      match js with
      | Err e => Some (Err e)
      | Ok ((j_a, j_b), p) =>
          match swap perm_a (Z.to_nat i) (Z.to_nat j_a), swap perm_b (Z.to_nat i) (Z.to_nat j_b) with
          | Ok perm_a, Ok perm_b => permutation_loop fuel n (i + 1) perm_a perm_b p
          | Err e, _ => Some (Err e)
          | _, Err e => Some (Err e)
          end
      end
  end.

(* prf.rs:156-165 Prf::gen_permutation *)
Definition gen_permutation (fuel : nat) (size : Z) (p : Prf R)
    : option (result ((list Z * list Z) * Prf R)) :=
  let perm_a := Z.of_nat <$> seq 0 (Z.to_nat size) in
  let perm_b := Z.of_nat <$> seq 0 (Z.to_nat size) in
  permutation_loop fuel (Z.to_nat size - 1) 1 perm_a perm_b p.
End Prf.

(** ** Bounded sampling *)

(** The accepted draws are a whole number of residue classes, and fewer than
    [modulus] of the [2^64] draws are rejected. *)
Lemma rejection_bound_multiple m :
  0 < m < 2 ^ 32 ->
  (m | rejection_bound m + 1) /\ 2 ^ 64 - m < rejection_bound m + 1 <= 2 ^ 64.
Proof.
  intros Hm. unfold rejection_bound, U64_MAX.
  assert (((2 ^ 64 - 1) mod m + 1) mod m = 2 ^ 64 mod m) as ->.
  { rewrite Zplus_mod_idemp_l. f_equal. }
  pose proof (Z.mod_pos_bound (2 ^ 64) m). split; [|lia].
  exists (2 ^ 64 / m). pose proof (Z.div_mod (2 ^ 64) m). lia.
Qed.

Lemma gen_u32_loop_range R `{!RngOk R} fuel r m x r' :
  0 < m < 2 ^ 32 -> gen_u32_loop R fuel r m = Some (x, r') -> 0 <= x < m.
Proof.
  intros Hm. revert r. induction fuel as [|fuel IH]; intros r; [done|]. cbn [gen_u32_loop].
  destruct (gen R u64 r) as [v r1]. destruct (v <=? rejection_bound m); [|apply IH].
  intros [= <- _]. pose proof (Z.mod_pos_bound v m). rewrite Z.mod_small; lia.
Qed.

(** [gen_u32_mod] samples without bias: the draws it accepts are a whole
    number of copies of every residue (and it rejects fewer than [modulus] of
    the [2^64] draws); it returns the residue of the first accepted draw, which
    lies in [[0, modulus)]. *)
Theorem gen_u32_mod_unbiased R `{!RngOk R} fuel r m :
  0 < m < 2 ^ 32 ->
  (m | rejection_bound m + 1) /\ 2 ^ 64 - m < rejection_bound m + 1 <= 2 ^ 64 /\
  (forall v r', gen R u64 r = (v, r') -> v <= rejection_bound m ->
     gen_u32_mod R (S fuel) r m = Some (Ok (v mod m, r'))) /\
  (forall v r', gen R u64 r = (v, r') -> rejection_bound m < v ->
     gen_u32_mod R (S fuel) r m = gen_u32_mod R fuel r' m) /\
  (forall x r', gen_u32_mod R fuel r m = Some (Ok (x, r')) -> 0 <= x < m).
Proof.
  intros Hm. destruct (rejection_bound_multiple m Hm) as [Hd Hb].
  unfold gen_u32_mod. rewrite (proj2 (Z.eqb_neq m 0)) by lia. split_and!; [done|lia|lia|..].
  - intros v r' Hv Hle. cbn [gen_u32_loop]. rewrite Hv, (proj2 (Z.leb_le _ _) Hle). cbn.
    pose proof (Z.mod_pos_bound v m). rewrite (Z.mod_small (v mod m)) by lia. done.
  - intros v r' Hv Hgt. cbn [gen_u32_loop]. by rewrite Hv, (proj2 (Z.leb_gt _ _) Hgt).
  - intros x r'. destruct (gen_u32_loop R fuel r m) as [[y r1]|] eqn:E; [|done].
    cbn. intros [= <- <-]. by eapply gen_u32_loop_range.
Qed.

(** ** Permutations *)

Lemma swap_perm {A} (v w : list A) i j : swap v i j = Ok w -> w ≡ₚ v.
Proof.
  unfold swap. destruct (v !! i) as [x|] eqn:Ei; [|done].
  destruct (v !! j) as [y|] eqn:Ej; [|done]. intros [= <-].
  apply Permutation_inj. split; [by rewrite !length_insert|].
  exists (fun k => if decide (k = i) then j else if decide (k = j) then i else k). split.
  { intros k1 k2. repeat case_decide; congruence. }
  intros k. assert (i < length v)%nat by by eapply lookup_lt_Some.
  assert (j < length v)%nat by by eapply lookup_lt_Some.
  destruct (decide (k = j)) as [->|Hj].
  - rewrite list_lookup_insert_eq by by rewrite length_insert.
    case_decide; subst; [congruence|done].
  - rewrite list_lookup_insert_ne by done. case_decide as Hi.
    + subst. by rewrite list_lookup_insert_eq.
    + by rewrite list_lookup_insert_ne.
Qed.

(** Every draw is accepted within [fuel] attempts. *)
Class SamplerOk (R : Rng) (fuel : nat) : Prop :=
  sampler_accepts r m : 0 < m < 2 ^ 32 -> is_Some (gen_u32_loop R fuel r m).

(** The shuffle one generator drives, on its own. *)
Fixpoint one_permutation (R : Rng) (fuel n : nat) (i : Z) (perm : list Z) (r : rng R) : list Z * rng R :=
  match n with
  | O => (perm, r)
  | S n =>
      match gen_u32_loop R fuel r (i + 1) with
      | Some (j, r) => match swap perm (Z.to_nat i) (Z.to_nat j) with
                       | Ok perm => one_permutation R fuel n (i + 1) perm r
                       | Err _ => (perm, r)
                       end
      | None => (perm, r)
      end
  end.

Lemma one_permutation_perm R fuel n i perm r : (one_permutation R fuel n i perm r).1 ≡ₚ perm.
Proof.
  revert i perm r. induction n as [|n IH]; intros i perm r; [done|]. cbn [one_permutation].
  destruct (gen_u32_loop R fuel r (i + 1)) as [[j r']|]; [|done].
  destruct (swap perm _ _) as [perm'|] eqn:E; [|done]. rewrite IH. by eapply swap_perm.
Qed.

Lemma swap_total {A} (v : list A) i j :
  (i < length v)%nat -> (j < length v)%nat -> exists w, swap v i j = Ok w /\ length w = length v.
Proof.
  intros Hi Hj. unfold swap. destruct (lookup_lt_is_Some_2 v i Hi) as [x ->], (lookup_lt_is_Some_2 v j Hj) as [y ->].
  eexists. split; [done|]. by rewrite !length_insert.
Qed.

(** The loop is total and runs the two generators side by side. *)
Lemma permutation_loop_split R `{!RngOk R} fuel `{!SamplerOk R fuel} n i pa pb (p : Prf R) :
  0 <= i -> i + Z.of_nat n < 2 ^ 32 ->
  i + Z.of_nat n <= Z.of_nat (length pa) -> i + Z.of_nat n <= Z.of_nat (length pb) ->
  let fa := one_permutation R fuel n i pa (my_prf p) in let fb := one_permutation R fuel n i pb (prev_prf p) in
  permutation_loop R fuel n i pa pb p = Some (Ok ((fa.1, fb.1), mkPrf fa.2 fb.2)).
Proof.
  revert i pa pb p. induction n as [|n IH]; intros i pa pb p Hi Hn La Lb; [by destruct p|].
  cbn [permutation_loop one_permutation]. unfold prf_gen_u32_mod, gen_u32_mod. rewrite (proj2 (Z.eqb_neq (i + 1) 0)) by lia.
  destruct (sampler_accepts (my_prf p) (i + 1) ltac:(lia)) as [[ja my] Ea].
  destruct (sampler_accepts (prev_prf p) (i + 1) ltac:(lia)) as [[jb pr] Eb].
  pose proof (gen_u32_loop_range R fuel _ (i + 1) _ _ ltac:(lia) Ea). pose proof (gen_u32_loop_range R fuel _ (i + 1) _ _ ltac:(lia) Eb).
  rewrite Ea, Eb. cbn [mbind option_bind].
  destruct (swap_total pa (Z.to_nat i) (Z.to_nat ja) ltac:(lia) ltac:(lia)) as (pa' & -> & La').
  destruct (swap_total pb (Z.to_nat i) (Z.to_nat jb) ltac:(lia) ltac:(lia)) as (pb' & -> & Lb').
  apply IH; lia.
Qed.

(** What one generator contributes to [gen_permutation]. *)
Definition half_permutation (R : Rng) (fuel : nat) (size : Z) (r : rng R) : list Z * rng R :=
  one_permutation R fuel (Z.to_nat size - 1) 1 (Z.of_nat <$> seq 0 (Z.to_nat size)) r.

Lemma gen_permutation_split R `{!RngOk R} fuel `{!SamplerOk R fuel} size (p : Prf R) :
  0 <= size < 2 ^ 32 ->
  let f := half_permutation R fuel size in
  gen_permutation R fuel size p = Some (Ok (((f (my_prf p)).1, (f (prev_prf p)).1), mkPrf (f (my_prf p)).2 (f (prev_prf p)).2)).
Proof.
  intros Hs. unfold gen_permutation, half_permutation. destruct (decide (size <= 1)) as [Hle|Hgt].
  - replace (Z.to_nat size - 1)%nat with O by lia. by destruct p.
  - apply (permutation_loop_split R fuel); [done|..]; rewrite ?length_fmap, ?length_seq; lia.
Qed.

Lemma half_permutation_perm R fuel size r :
  (half_permutation R fuel size r).1 ≡ₚ (Z.of_nat <$> seq 0 (Z.to_nat size)).
Proof. apply one_permutation_perm. Qed.

(** C40: [gen_permutation] returns, for every size below [2^32], two permutations
    of [0, .., size - 1], as long as no draw is rejected [fuel] times in a row;
    the one a party draws with its own generator is the one its successor draws
    with the generator they share, and the generators stay in step. *)
Theorem gen_permutation_shared R `{!RngOk R} fuel `{!SamplerOk R fuel} size (p q : Prf R) :
  0 <= size < 2 ^ 32 -> my_prf p = prev_prf q ->
  exists a b p' a' b' q',
    gen_permutation R fuel size p = Some (Ok ((a, b), p')) /\
    gen_permutation R fuel size q = Some (Ok ((a', b'), q')) /\
    a ≡ₚ (Z.of_nat <$> seq 0 (Z.to_nat size)) /\ b ≡ₚ (Z.of_nat <$> seq 0 (Z.to_nat size)) /\
    a = b' /\ my_prf p' = prev_prf q'.
Proof.
  intros Hs Hpq. eexists _, _, _, _, _, _.
  split; [by apply gen_permutation_split|]. split; [by apply gen_permutation_split|].
  rewrite Hpq. split_and!; [apply half_permutation_perm..|done|done].
Qed.

(** A counter as a generator, for evaluating the definitions. *)
Definition counter_rng : Rng := {|
  rng := Z;
  expand_seed s := s;
  from_seed s := from_le_bytes s;
  gen T r := ((r * 6364136223846793005 + 1442695040888963407) mod 2 ^ K T, r + 1);
  fill T n r := ((fun i => ((r + Z.of_nat i) * 6364136223846793005 + 1442695040888963407) mod 2 ^ K T) <$> seq 0 n,
                 r + Z.of_nat n);
|}.

#[export] Instance counter_rng_ok : RngOk counter_rng.
Proof.
  split; intros; cbn [fill gen counter_rng fst].
  - apply valid_mod.
  - by rewrite length_fmap, length_seq.
  - apply Forall_fmap, Forall_true. intros i. apply valid_mod.
Qed.

Definition counter_prf (a b : Z) : Prf counter_rng := @mkPrf counter_rng a b.

Lemma gen_u32_mod_unbiased_witness :
  exists v r', gen counter_rng u64 3 = (v, r') /\ v <= rejection_bound 10 /\
    gen_u32_mod counter_rng 1 3 10 = Some (Ok (v mod 10, r')).
Proof.
  eexists _, _. split; [vm_compute; reflexivity|]. split; [vm_compute; congruence|].
  eapply (gen_u32_mod_unbiased counter_rng 0 3 10); [lia|vm_compute; reflexivity|vm_compute; congruence].
Defined.

(** Two draws of the counter that follow each other are never both rejected. *)
#[export] Instance counter_sampler : SamplerOk counter_rng 2.
Proof.
  intros r m Hm. cbn [gen_u32_loop gen counter_rng]. change (K u64) with 64. destruct (rejection_bound_multiple m Hm) as [_ Hb].
  set (v := r * _ + _). destruct (v mod 2 ^ 64 <=? rejection_bound m) eqn:E1; [by eexists|].
  destruct (((r + 1) * 6364136223846793005 + 1442695040888963407) mod 2 ^ 64 <=? rejection_bound m) eqn:E2; [by eexists|].
  apply Z.leb_gt in E1, E2. exfalso.
  replace ((r + 1) * 6364136223846793005 + 1442695040888963407) with (v + 6364136223846793005) in E2 by (unfold v; lia).
  rewrite Z.add_mod in E2 by done. pose proof (Z.mod_pos_bound v (2 ^ 64) ltac:(done)).
  rewrite (Z.mod_small 6364136223846793005) in E2 by done.
  rewrite <- (Z.mod_add _ (-1)) in E2 by done. rewrite Z.mod_small in E2; lia.
Qed.

Lemma gen_permutation_shared_witness :
  exists a b p' a' b' q',
    gen_permutation counter_rng 2 5 (counter_prf 1 2) = Some (Ok ((a, b), p')) /\
    gen_permutation counter_rng 2 5 (counter_prf 7 1) = Some (Ok ((a', b'), q')) /\
    a ≡ₚ (Z.of_nat <$> seq 0 (Z.to_nat 5)) /\ b ≡ₚ (Z.of_nat <$> seq 0 (Z.to_nat 5)) /\
    a = b' /\ my_prf p' = prev_prf q'.
Proof. apply (gen_permutation_shared counter_rng 2 5 (counter_prf 1 2) (counter_prf 7 1)); [lia|reflexivity]. Defined.
