(* ===== verification/Proto.v ===== *)
(** * Specifications of three-party protocols

    [proto ids sid m Post]: when three sessions of one ring run [m], party [i]
    running [m i], with nothing in flight, some run -- by
    [schedule_independence] every run -- ends with nothing in flight, the
    sessions again a ring with synchronised generators, and results that
    satisfy [Post].  The rules below compose such specifications along the
    monad; the lemmas on sharings turn additive or XOR components held by the
    three parties into replicated shares. *)

From S2P Require Import Prelude IntRing RingImpl Party Share VecShare Value Net Prf.
From stdpp Require Import base list numbers strings gmap.
From Stdlib Require Import ZArith Lia.
Local Open Scope Z_scope.

Definition proto {R A} (ids : tri Identity) (sid : Z) (m : PartyID -> M R A) (Post : tri A -> Prop) : Prop :=
  forall s, ring_sessions ids sid s ->
    exec ids no_messages m s (fun ch s' x => ch = no_messages /\ ring_sessions ids sid s' /\ Post x).

Section Rules.
Context {R : Rng} {HR : RngOk R} (ids : tri Identity) (sid : Z).

Lemma proto_mono {A} (m : PartyID -> M R A) (P Q : tri A -> Prop) :
  (forall x, P x -> Q x) -> proto ids sid m P -> proto ids sid m Q.
Proof.
  intros H Hm s Hs. eapply exec_mono; [|by apply Hm]. intros ch s' x (-> & ? & ?). auto.
Qed.

Lemma proto_ret {A} (x : tri A) (Post : tri A -> Prop) :
  Post x -> proto ids sid (fun i => mret (M := M R) (x @ i)) Post.
Proof. intros H s Hs. by apply exec_ret. Qed.

Lemma proto_bind {A B} (m : PartyID -> M R A) (k : PartyID -> A -> M R B) P Q :
  proto ids sid m P -> (forall x, P x -> proto ids sid (fun i => k i (x @ i)) Q) ->
  proto ids sid (fun i => m i ≫= k i) Q.
Proof.
  intros Hm Hk s Hs. apply exec_bind. eapply exec_mono; [|by apply Hm].
  intros ch s' x (-> & Hs' & HP). by apply Hk.
Qed.

(** The parties' code may differ as long as it agrees on the sessions of the
    ring. *)
Lemma proto_ext {A} (m m' : PartyID -> M R A) Q :
  (forall s i, ring_sessions ids sid s -> m i (s @ i) = m' i (s @ i)) ->
  proto ids sid m' Q -> proto ids sid m Q.
Proof.
  intros H Hm s Hs. eapply exec_ext; [|by apply Hm]. intros i. by apply H.
Qed.

Lemma proto_liftr {A} (r : PartyID -> result A) (x : tri A) (Post : tri A -> Prop) :
  (forall i, r i = Ok (x @ i)) -> Post x -> proto ids sid (fun i => liftr (R := R) (r i)) Post.
Proof. intros Hr HP s Hs. by apply (exec_liftr _ _ _ x). Qed.

Lemma proto_get (Post : tri (Session R) -> Prop) :
  (forall s, in_ring ids sid s -> Post s) -> proto ids sid (fun _ => get (R := R)) Post.
Proof. intros HP s Hs. apply exec_get. split; [done|]. split; [done|]. apply HP, Hs. Qed.

(** All parties draw [n] elements from both generators: neighbours draw the
    same values. *)
Lemma proto_rands T `{!IntRing2kOk T} n (Post : tri (list Z * list Z) -> Prop) :
  (forall r : tri (list Z), (forall i, length (r @ i) = n /\ Forall (valid T) (r @ i)) ->
     Post (tof (fun i => (r @ i, r @ (prev_id i))))) ->
  proto ids sid (fun i => with_rng (gen_rands_batch R T n)) Post.
Proof.
  intros HP s [Hn Hp]. apply exec_with_rng. split; [done|].
  set (r := tof (fun i => (fill R T n (my_prf (prf (s @ i)))).1)).
  assert (forall i, (gen_rands_batch R T n (prf (s @ i)))
    = ((r @ i, r @ (prev_id i)),
       mkPrf (fill R T n (my_prf (prf (s @ i)))).2 (fill R T n (my_prf (prf (s @ (prev_id i))))).2)) as He.
  { intros i. unfold gen_rands_batch, gen_rands_mine, gen_rands_prev, r. rewrite !tget_tof.
    pose proof (Hp (prev_id i)) as Hi. rewrite next_prev in Hi. rewrite Hi.
    destruct (fill R T n (my_prf (prf (s @ i)))). cbn.
    by destruct (fill R T n (prev_prf (prf (s @ i)))). }
  split.
  - split.
    + intros i. rewrite tget_tof. apply Hn.
    + intros i. rewrite !tget_tof, !He. cbn. by rewrite prev_next.
  - replace (tof (fun i => (gen_rands_batch R T n (prf (s @ i))).1))
      with (tof (fun i => (r @ i, r @ (prev_id i)))) by (apply tri_ext; intros i; by rewrite !tget_tof, He).
    apply HP. intros i. unfold r. rewrite tget_tof.
    split; [apply rng_fill_length|by apply rng_fill_valid].
Qed.

(** The same as a step of a larger run. *)
Lemma exec_rands T `{!IntRing2kOk T} n s ch Q :
  ring_sessions ids sid s -> ch = no_messages ->
  (forall s' (r : tri (list Z)), ring_sessions ids sid s' ->
     (forall i, length (r @ i) = n /\ Forall (valid T) (r @ i)) ->
     Q no_messages s' (tof (fun i => (r @ i, r @ (prev_id i))))) ->
  exec ids ch (fun i => with_rng (gen_rands_batch R T n)) s Q.
Proof.
  intros Hs -> HQ. eapply exec_mono;
    [|apply (proto_rands T n (fun x => exists r : tri (list Z),
        (forall i, length (r @ i) = n /\ Forall (valid T) (r @ i)) /\
        x = tof (fun i => (r @ i, r @ (prev_id i))))); [eauto|done]].
  intros ch s' x (-> & Hs' & r & Hr & ->). by apply HQ.
Qed.

(** One round: every party sends [v] to its successor, then runs [k] on what
    its predecessor sent. *)
Lemma proto_round {A} (v : tri NetworkValue) (k : PartyID -> result NetworkValue -> M R A) Q :
  proto ids sid (fun i => k i (Ok (v @ (prev_id i)))) Q ->
  proto ids sid (fun i => _ ← net (fun n => send_next n (v @ i)); r ← liftp receive_prev; k i r) Q.
Proof.
  intros Hk s Hs. apply exec_bind. apply (exec_send_next ids sid _ _ v); [apply Hs|].
  apply (exec_bind ids _ (fun i => liftp receive_prev) k).
  eapply (exec_receive_prev ids sid); [apply Hs|apply push_next_recv|].
  eapply exec_ext; [|by apply Hk]. intros i. by rewrite tget_fmap, tget_tof.
Qed.

(** The same round in the other direction. *)
Lemma proto_round_prev {A} (v : tri NetworkValue) (k : PartyID -> result NetworkValue -> M R A) Q :
  proto ids sid (fun i => k i (Ok (v @ (next_id i)))) Q ->
  proto ids sid (fun i => _ ← net (fun n => send_prev n (v @ i)); r ← liftp receive_next; k i r) Q.
Proof.
  intros Hk s Hs. apply exec_bind. apply (exec_send_prev ids sid _ _ v); [apply Hs|].
  apply (exec_bind ids _ (fun i => liftp receive_next) k).
  eapply (exec_receive_next ids sid); [apply Hs|apply push_prev_recv|].
  eapply exec_ext; [|by apply Hk]. intros i. by rewrite tget_fmap, tget_tof.
Qed.

(** One round whose message [dec] decodes to [d]. *)
Lemma proto_round_dec {A B} (v : tri NetworkValue) (dec : result NetworkValue -> result B) (d : tri B)
    (k : PartyID -> B -> M R A) Q :
  (forall i, dec (Ok (v @ i)) = Ok (d @ i)) ->
  proto ids sid (fun i => k i (d @ (prev_id i))) Q ->
  proto ids sid (fun i => _ ← net (fun n => send_next n (v @ i)); r ← liftp receive_prev;
                          x ← liftr (dec r); k i x) Q.
Proof.
  intros Hd Hk. apply (proto_round v (fun i r => x ← liftr (dec r); k i x)). eapply proto_bind.
  { apply (proto_liftr _ (tof (fun i => d @ (prev_id i))) (fun x => x = tof (fun i => d @ (prev_id i)))); [|done].
    intros i. by rewrite Hd, tget_tof. }
  intros ? ->. eapply proto_ext; [|exact Hk]. intros s i _. cbn beta. by rewrite tget_tof.
Qed.

(** One round in which a failed receive returns at once. *)
Lemma proto_round_net {A} (v : tri NetworkValue) (k : PartyID -> NetworkValue -> M R A) Q :
  proto ids sid (fun i => k i (v @ (prev_id i))) Q ->
  proto ids sid (fun i => _ ← net (fun n => send_next n (v @ i)); x ← net receive_prev; k i x) Q.
Proof.
  intros Hk s Hs. apply exec_bind. apply (exec_send_next ids sid _ _ v); [apply Hs|].
  eapply (exec_ext _ _ _ (fun i => r ← liftp receive_prev; x ← liftr r; k i x)).
  { intros i. unfold net, liftp, mbind, M_bind, proc_bind, receive_prev.
    by rewrite (prev_identity_ring _ _ _ _ (proj1 Hs i)). }
  apply (exec_bind ids _ (fun i => liftp receive_prev) (fun i r => x ← liftr r; k i x)).
  eapply (exec_receive_prev ids sid); [apply Hs|apply push_next_recv|].
  eapply exec_ext; [|by apply Hk]. intros i. by rewrite tget_fmap, tget_tof.
Qed.

(** Every party sends [v] to both neighbours, then receives from both. *)
Lemma proto_round_both {A B} (v : tri NetworkValue) (dec : result NetworkValue -> result B) (d : tri B)
    (k : PartyID -> B -> B -> M R A) Q :
  (forall i, dec (Ok (v @ i)) = Ok (d @ i)) ->
  proto ids sid (fun i => k i (d @ (prev_id i)) (d @ (next_id i))) Q ->
  proto ids sid (fun i => _ ← net (fun n => send_next n (v @ i)); _ ← net (fun n => send_prev n (v @ i));
    r ← liftp receive_prev; b ← liftr (dec r); r ← liftp receive_next; c ← liftr (dec r); k i b c) Q.
Proof.
  intros Hd Hk s Hs. apply exec_bind. apply (exec_send_next ids sid _ _ v); [apply Hs|].
  apply (exec_bind ids _ (fun i => net (fun n => send_prev n (v @ i))) (fun i _ =>
    r ← liftp receive_prev; b ← liftr (dec r); r ← liftp receive_next; c ← liftr (dec r); k i b c)).
  apply (exec_send_prev ids sid _ _ v); [apply Hs|].
  apply (exec_bind ids _ (fun i => liftp receive_prev) (fun i r =>
    b ← liftr (dec r); r ← liftp receive_next; c ← liftr (dec r); k i b c)).
  apply (exec_receive_prev ids sid _ (push prev_id no_messages v) _ (tof (fun i => v @ (prev_id i))));
    [apply Hs|by intros [] []|].
  apply (exec_bind ids _ (fun i => liftr (dec ((Ok <$> tof (fun i => v @ (prev_id i))) @ i))) (fun i b =>
    r ← liftp receive_next; c ← liftr (dec r); k i b c)).
  apply (exec_liftr _ _ _ (tof (fun i => d @ (prev_id i)))); [intros i; by rewrite tget_fmap, !tget_tof, Hd|].
  apply (exec_bind ids _ (fun i => liftp receive_next) (fun i r =>
    c ← liftr (dec r); k i ((tof (fun i => d @ (prev_id i))) @ i) c)).
  apply (exec_receive_next ids sid _ no_messages _ (tof (fun i => v @ (next_id i)))); [apply Hs|apply push_prev_recv|].
  apply (exec_bind ids _ (fun i => liftr (dec ((Ok <$> tof (fun i => v @ (next_id i))) @ i)))
    (fun i c => k i ((tof (fun i => d @ (prev_id i))) @ i) c)).
  apply (exec_liftr _ _ _ (tof (fun i => d @ (next_id i)))); [intros i; by rewrite tget_fmap, !tget_tof, Hd|].
  eapply exec_ext; [|by apply Hk]. intros i. by rewrite !tget_tof.
Qed.

Lemma proto_send_ring_vec T (d : tri (list Z)) s (Q : channels -> tri (Session R) -> tri unit -> Prop) :
  in_ring ids sid s -> Q (push next_id no_messages (ring_vec_message T <$> d)) s (tof (fun _ => tt)) ->
  exec ids no_messages (fun i => net (fun n => send_ring_vec_next T n (d @ i))) s Q.
Proof. intros Hs HQ. by apply (exec_send_ring_vec_next ids sid). Qed.
End Rules.

(** ** From components to replicated shares *)

(** Three components, one per party, that sum (resp. XOR) to [x]. *)
Definition add3 (T : IntRing2k) (c : tri Z) (x : Z) : Prop := valid3 T c /\ sum3 T c = x.
Definition bin3 (T : IntRing2k) (c : tri Z) (x : Z) : Prop := valid3 T c /\ xor3 c = x.

(** Every party pairs its component with its predecessor's. *)
Definition replicate3 (c : tri (list Z)) : tri (list Share) :=
  tof (fun i => zip_with mkShare (c @ i) (c @ (prev_id i))).

Lemma add3_replicate T c x : add3 T c x -> shares_add T (tof (fun i => mkShare (c @ i) (c @ (prev_id i)))) x.
Proof. intros [Hv Hs]. exists c. split; [apply rep3_tof|done]. Qed.
Lemma bin3_replicate T c x : bin3 T c x -> shares_xor T (tof (fun i => mkShare (c @ i) (c @ (prev_id i)))) x.
Proof. intros [Hv Hs]. exists c. split; [apply rep3_tof|done]. Qed.

Lemma replicate3_spec (P : tri Z -> Z -> Prop) (Q : tri Share -> Z -> Prop) c xs :
  (forall c x, P c x -> Q (tof (fun i => mkShare (c @ i) (c @ (prev_id i)))) x) ->
  tvec P c xs -> tvec Q (replicate3 c) xs.
Proof.
  intros H. induction 1 as [|a c x xs Ha Hc IH]; [constructor|].
  exact (tvec_cons Q _ _ _ _ (H _ _ Ha) IH).
Qed.

Lemma tri_uncons {A} (P : A -> Prop) n (r : tri (list A)) :
  (forall i, length (r @ i) = S n /\ Forall P (r @ i)) ->
  exists r0 r', r = tcons r0 r' /\ (forall i, P (r0 @ i)) /\
    forall i, length (r' @ i) = n /\ Forall P (r' @ i).
Proof.
  intros Hr. destruct r as [[|r0 l0] [|r1 l1] [|r2 l2]];
    try (pose proof (proj1 (Hr ID0)); pose proof (proj1 (Hr ID1)); pose proof (proj1 (Hr ID2)); done).
  exists (Tri r0 r1 r2), (Tri l0 l1 l2). split; [done|]. split.
  - intros i. destruct (Hr i) as [_ H]. destruct i; cbn in *; by apply Forall_inv in H.
  - intros i. destruct (Hr i) as [Hl H]. destruct i; cbn in *;
      (split; [lia|by apply Forall_inv_tail in H]).
Qed.

Lemma tri_nil {A} (P : A -> Prop) (r : tri (list A)) :
  (forall i, length (r @ i) = 0%nat /\ Forall P (r @ i)) -> r = tnil.
Proof. intros Hr. apply tri_ext. intros i. unfold tnil. rewrite tget_tof. apply nil_length_inv, Hr. Qed.

(** Masking with fresh correlated randomness, position by position. *)
Lemma mask_vec T (P : tri Z -> Z -> Prop) (f : Z -> Z -> Z -> Z) (r e : tri (list Z)) xs :
  (forall r0 a x, valid3 T r0 -> P a x -> P (tof (fun i => f (r0 @ i) (r0 @ (prev_id i)) (a @ i))) x) ->
  (forall i, length (r @ i) = length xs /\ Forall (valid T) (r @ i)) ->
  tvec P e xs ->
  tvec P (tof (fun i => zip_with (fun '(m, p) y => f m p y) (zip (r @ i) (r @ (prev_id i))) (e @ i))) xs.
Proof.
  intros Hf Hr He. revert r Hr. induction He as [|a e x xs Ha He IH]; intros r Hr.
  { apply tri_nil in Hr as ->. constructor. }
  apply tri_uncons in Hr as (r0 & r' & -> & Hr0 & Hr').
  exact (tvec_cons P _ _ _ _ (Hf r0 a x Hr0 Ha) (IH r' Hr')).
Qed.

(** The additive mask [r_i - r_(i-1)] and the XOR mask [r_i ^ r_(i-1)] are
    sharings of zero. *)
Lemma mask_add3 T `{!IntRing2kOk T} r0 a x :
  valid3 T r0 -> add3 T a x ->
  add3 T (tof (fun i => (r0 @ i ⊖[T] r0 @ (prev_id i)) +[T] a @ i)) x.
Proof.
  intros Hr [Ha <-]. split.
  - intros i. rewrite tget_tof. apply re_add_valid; [apply re_sub_valid; apply Hr|apply Ha].
  - unfold sum3. cbn. apply ceq_mod_small; [apply valid_mod|]. rewrite ceq_mod. ring_ceq.
Qed.

Lemma mask_bin3 T `{!IntRing2kOk T} r0 a x :
  valid3 T r0 -> bin3 T a x ->
  bin3 T (tof (fun i => a @ i ^[T] (r0 @ i ^[T] r0 @ (prev_id i)))) x.
Proof.
  intros Hr [Ha <-]. split.
  - intros i. rewrite tget_tof. apply re_xor_valid; [apply Ha|]. apply re_xor_valid; apply Hr.
  - unfold xor3, re_xor. cbn. rewrite !ir_xor_eq. xor_crush.
Qed.

(** The local products and ANDs of two sharings. *)
Lemma share_mul_add3 T `{!IntRing2kOk T} s r x y :
  shares_add T s x -> shares_add T r y -> add3 T (tmap2 (share_mul T) s r) (x *[T] y).
Proof.
  intros Hs Hr. split.
  - destruct Hs as (c & Hs & Hc & _), Hr as (d & Hr & Hd & _). intros i. unfold tmap2.
    rewrite tget_tof, Hs, Hr. unfold share_mul. cbn [sa sb]. eauto 10 using re_add_valid, re_mul_valid.
  - pose proof (share_mul_spec s r x y Hs Hr) as H. unfold sum3.
    symmetry. apply valid_eq_mod.
    + apply re_mul_valid; by eapply shares_add_valid.
    + rewrite re_mul_ceq. by symmetry.
Qed.

Lemma share_and_bin3 T `{!IntRing2kOk T} s r x y :
  shares_xor T s x -> shares_xor T r y -> bin3 T (tmap2 (share_and T) s r) (Z.land x y).
Proof.
  intros Hs Hr. split; [|by apply share_and_spec].
  destruct Hs as (c & Hs & Hc & _), Hr as (d & Hr & Hd & _). intros i. unfold tmap2.
  rewrite tget_tof, Hs, Hr. unfold share_and. cbn [sa sb]. eauto 10 using re_xor_valid, re_and_valid.
Qed.

(** ** Every schedule *)

(** A specification [proto] holds under every schedule: from three sessions
    of one ring with nothing in flight there are results, which satisfy the
    postcondition, and a number of actions, such that every run of the three
    parties, however their sends and receives interleave, has at most that many
    actions and can be continued to exactly these results, with no message left
    over; and no run is stuck before. *)
Theorem proto_every_schedule {R A} (ids : tri Identity) (sid : Z) (m : PartyID -> M R A) Post
    (s : tri (Session R)) :
  distinct ids -> proto ids sid m Post -> ring_sessions ids sid s ->
  exists n s' out, Post out /\ ring_sessions ids sid s' /\
    forall k c, nsteps (step ids) k (init (tof (fun i => m i (s @ i)))) c ->
      (k <= n)%nat /\
      nsteps (step ids) (n - k) c (finished (tof (fun i => (s' @ i, out @ i)))) /\
      ((k < n)%nat -> exists c', step ids c c').
Proof.
  intros Hids Hm Hs. destruct (wp_run ids (tof (fun i => m i (s @ i)))
    (fun out => ring_sessions ids sid (fst <$> out) /\ Post (snd <$> out))) as (n & out & Hn & Hs' & HP).
  { eapply wp_mono; [|exact (Hm s Hs)]. done. }
  exists n, (fst <$> out), (snd <$> out). split; [done|]. split; [done|]. intros k c Hk.
  destruct (schedule_independence ids _ n k out c Hids Hn Hk) as [Hle Hr]. split; [done|].
  replace (tof (fun i => ((fst <$> out) @ i, (snd <$> out) @ i))) with out; [split; [done|]|].
  - intros Hlt. inversion Hr; [lia|eauto].
  - destruct out as [[] [] []]. done.
Qed.

(** ** Concrete sharings and sessions, for evaluating the definitions *)

Definition dealt (cs : list (tri Z)) : tri (list Share) :=
  tof (fun i => (fun c => mkShare (c @ i) (c @ (prev_id i))) <$> cs).

Lemma dealt_tvec (P : tri Z -> Prop) (Q : tri Share -> Z -> Prop) (f : tri Z -> Z) cs :
  (forall c, P c -> Q (tof (fun i => mkShare (c @ i) (c @ (prev_id i)))) (f c)) ->
  Forall P cs -> tvec Q (dealt cs) (f <$> cs).
Proof.
  intros H. induction 1 as [|c cs Hc Hcs IH]; [constructor|]. exact (tvec_cons Q _ _ _ _ (H _ Hc) IH).
Qed.

Lemma dealt_add T cs : Forall (valid3 T) cs -> tvec (shares_add T) (dealt cs) (sum3 T <$> cs).
Proof. apply dealt_tvec. intros c Hc. by apply add3_replicate. Qed.
Lemma dealt_xor T cs : Forall (valid3 T) cs -> tvec (shares_xor T) (dealt cs) (xor3 <$> cs).
Proof. apply dealt_tvec. intros c Hc. by apply bin3_replicate. Qed.

Definition demo_ids : tri Identity := Tri "alice" "bob" "charlie".
Definition demo_roles : gmap Z Identity := <[0 := "alice"]> (<[1 := "bob"]> (<[2 := "charlie"]> ∅)).
Definition demo_sessions (sid : Z) : tri (Session counter_rng) :=
  tof (fun i => mkSession (mkNetwork sid demo_roles (party_role i))
                          (counter_prf (party_index i) (party_index (prev_id i)))).

Lemma demo_distinct : distinct demo_ids.
Proof. intros [] []; done. Qed.
Lemma demo_ring sid : ring_sessions demo_ids sid (demo_sessions sid).
Proof. split; [|by intros []]. intros i. destruct i; (split_and!; [done..|by intros []]). Qed.

(** One round: every party sends its index to its successor. *)
Definition demo_round (i : PartyID) : M counter_rng NetworkValue :=
  _ ← net (fun n => send_next n ((tof (fun i => RingElement16 (party_index i))) @ i));
  r ← liftp receive_prev;
  liftr r.

Lemma proto_every_schedule_witness :
  exists n s' out,
    (forall i, out @ i = RingElement16 (party_index (prev_id i))) /\ ring_sessions demo_ids 0 s' /\
    forall k c, nsteps (step demo_ids) k (init (tof (fun i => demo_round i ((demo_sessions 0) @ i)))) c ->
      (k <= n)%nat /\
      nsteps (step demo_ids) (n - k) c (finished (tof (fun i => (s' @ i, out @ i)))) /\
      ((k < n)%nat -> exists c', step demo_ids c c').
Proof.
  apply (proto_every_schedule demo_ids 0 demo_round
    (fun out => forall i, out @ i = RingElement16 (party_index (prev_id i))) (demo_sessions 0));
    [apply demo_distinct| |apply demo_ring].
  apply (proto_round demo_ids 0 (tof (fun i => RingElement16 (party_index i))) (fun _ r => liftr r)).
  apply (proto_liftr demo_ids 0 _ (tof (fun i => RingElement16 (party_index (prev_id i))))); by intros [].
Defined.

Ltac solve_valid3 := repeat (apply Forall_cons_2; [intros []; vm_compute; done|]); apply Forall_nil_2.
