(* ===== verification/Circuits.v ===== *)
(** * Adder circuits

    The boolean circuits the protocols of Binary.v evaluate on shared bits,
    as functions on lists of bits, least significant first, and their
    arithmetic meaning.  The parallel-prefix reduction is written for any
    carrier of wires with an AND and an XOR. *)

From S2P Require Import Prelude.
From stdpp Require Import option base list numbers strings.
From Stdlib Require Import ZArith Lia.
Local Open Scope Z_scope.

Fixpoint evens {X} (l : list X) : list X :=
  match l with x :: _ :: l => x :: evens l | l => l end.
Definition odds {X} (l : list X) : list X := evens (tail l).

(** ** The value of a list of bits *)

Fixpoint of_bits (l : list bool) : Z :=
  match l with [] => 0 | b :: l => Z.b2z b + 2 * of_bits l end.

(** The carry out of adding [a], [b] and [c]. *)
Fixpoint carry_out (c : bool) (a b : list bool) : bool :=
  match a, b with
  | x :: a, y :: b => carry_out (xorb (x && y) (c && xorb x y)) a b
  | _, _ => c
  end.

Lemma of_bits_range l : 0 <= of_bits l < 2 ^ Z.of_nat (length l).
Proof.
  induction l as [|b l IH]; [done|]. cbn [of_bits length].
  rewrite Nat2Z.inj_succ, Z.pow_succ_r by lia. destruct b; cbn [Z.b2z]; lia.
Qed.

Lemma of_bits_app l k : of_bits (l ++ k) = of_bits l + 2 ^ Z.of_nat (length l) * of_bits k.
Proof.
  induction l as [|b l IH]; [cbn [app of_bits length]; rewrite Z.pow_0_r; lia|].
  cbn [app of_bits length]. rewrite IH, Nat2Z.inj_succ, Z.pow_succ_r by lia. lia.
Qed.

Lemma of_bits_testbit l i : Z.testbit (of_bits l) (Z.of_nat i) = default false (l !! i).
Proof.
  revert i. induction l as [|b l IH]; intros i; [by rewrite Z.testbit_0_l|]. cbn [of_bits].
  destruct i as [|i].
  - cbn. rewrite Z.add_comm. destruct b; cbn [Z.b2z]; [apply Z.testbit_odd_0|]. rewrite Z.add_0_r. apply Z.testbit_even_0.
  - rewrite Nat2Z.inj_succ. rewrite Z.add_comm. cbn [lookup list_lookup].
    destruct b; cbn [Z.b2z]; [rewrite Z.testbit_odd_succ by lia|rewrite Z.add_0_r, Z.testbit_even_succ by lia]; apply IH.
Qed.

(** Full addition: the carry out is the overflow of the sum. *)
Lemma carry_out_spec c a b :
  length a = length b ->
  exists s, length s = length a /\
    of_bits a + of_bits b + Z.b2z c = of_bits s + 2 ^ Z.of_nat (length a) * Z.b2z (carry_out c a b).
Proof.
  revert c b. induction a as [|x a IH]; intros c [|y b] Hl; try done.
  { exists []. cbn [of_bits length carry_out]. split; [done|]. rewrite Z.pow_0_r. lia. }
  injection Hl as Hl. cbn [carry_out length].
  destruct (IH (xorb (x && y) (c && xorb x y)) b Hl) as (s & Hs & He).
  exists (xorb (xorb x y) c :: s). split; [cbn; by rewrite Hs|]. cbn [of_bits].
  rewrite Nat2Z.inj_succ, Z.pow_succ_r by lia. destruct x, y, c; cbn in *; lia.
Qed.

(** The bit above the summands' low parts. *)
Lemma sum_bit a b x y :
  length a = length b ->
  Z.testbit (of_bits (a ++ [x]) + of_bits (b ++ [y])) (Z.of_nat (length a))
  = xorb (xorb x y) (carry_out false a b).
Proof.
  intros Hl. destruct (carry_out_spec false a b Hl) as (s & Hs & He).
  rewrite !of_bits_app, <- Hl. cbn [of_bits]. rewrite !Z.mul_0_r, !Z.add_0_r.
  set (n := Z.of_nat (length a)) in *. cbn [Z.b2z] in He.
  replace (of_bits a + 2 ^ n * Z.b2z x + (of_bits b + 2 ^ n * Z.b2z y))
    with (of_bits s + (Z.b2z x + Z.b2z y + Z.b2z (carry_out false a b)) * 2 ^ n) by lia.
  pose proof (of_bits_range s) as Hr. rewrite Hs in Hr. fold n in Hr.
  assert (0 <= n) by lia.
  assert (forall z, Z.testbit z n = Z.testbit (Z.shiftr z n) 0) as Hsh
    by (intros z; by rewrite Z.shiftr_spec by lia).
  rewrite Hsh, Z.shiftr_div_pow2, Z.div_add, Z.div_small, Z.add_0_l by lia.
  by destruct x, y, (carry_out false a b).
Qed.

(** ** Carry look-ahead *)

(** The carry out of a sequence of blocks, the first with generate [c], the
    others with propagates [ps] and generates [gs]. *)
Fixpoint carry_pg (c : bool) (ps gs : list bool) : bool :=
  match ps, gs with
  | p :: ps, g :: gs => carry_pg (xorb g (p && c)) ps gs
  | _, _ => c
  end.

Lemma carry_pg_app c ps gs ps' gs' :
  length ps = length gs ->
  carry_pg c (ps ++ ps') (gs ++ gs') = carry_pg (carry_pg c ps gs) ps' gs'.
Proof. revert c gs. induction ps as [|p ps IH]; intros c [|g gs] Hl; cbn in *; try done. apply IH. lia. Qed.

Lemma carry_pg_adder c a b :
  carry_pg c (zip_with xorb a b) (zip_with andb a b) = carry_out c a b.
Proof.
  revert c b. induction a as [|x a IH]; intros c [|y b]; cbn; try done.
  rewrite IH. f_equal. by destruct x, y, c.
Qed.

(** One reduction: [ps] starts with the propagate of the second block. *)
Section Prefix.
Context {X : Type} (andX xorX : X -> X -> X).

Definition pop_odd (b : bool) (l : list X) : list X * option X :=
  if b then (removelast l, last l) else (l, None).

Definition prefix_step (temp_p temp_g : list X) : list X * list X :=
  let odd := Nat.odd (length temp_g) in
  let '(temp_p, maybe_extra_p) := pop_odd odd temp_p in
  let '(temp_g, maybe_extra_g) := pop_odd odd temp_g in
  let new_p_len := length (odds temp_p) in
  let tmp := zip_with andX (odds temp_p ++ evens temp_g) (tail (evens temp_p) ++ evens temp_p) in
  (take new_p_len tmp ++ option_list maybe_extra_p,
   zip_with xorX (drop new_p_len tmp) (odds temp_g) ++ option_list maybe_extra_g).

Fixpoint prefix_pure (fuel : nat) (temp_p temp_g : list X) : list X :=
  if (length temp_g =? 1)%nat then temp_g
  else match fuel with
  | O => temp_g
  | S fuel => let '(temp_p, temp_g) := prefix_step temp_p temp_g in prefix_pure fuel temp_p temp_g
  end.
End Prefix.

Lemma list_ind2 {X} (P : list X -> Prop) :
  P [] -> (forall x, P [x]) -> (forall x y l, P l -> P (x :: y :: l)) -> forall l, P l.
Proof.
  intros H0 H1 H2. refine (fix F l := match l with [] => H0 | [x] => H1 x | x :: y :: l => H2 x y l (F l) end).
Qed.

Lemma length_evens {X} (l : list X) : length (evens l) = ((length l + 1) / 2)%nat.
Proof.
  induction l as [|x|x y l IH] using list_ind2; [done..|]. cbn [evens length]. rewrite IH.
  replace (S (S (length l)) + 1)%nat with (1 * 2 + (length l + 1))%nat by lia.
  rewrite Nat.div_add_l by lia. done.
Qed.
Lemma length_odds {X} (l : list X) : length (odds l) = (length l / 2)%nat.
Proof. unfold odds. rewrite length_evens. destruct l as [|x l]; [done|]. cbn [tail length]. f_equal. lia. Qed.

(** The reduction of an even number of blocks keeps the carry. *)
Lemma carry_pg_pairs c ps gs :
  length ps = length gs -> Nat.even (length ps) = true ->
  carry_pg c (zip_with andb (evens ps) (odds ps))
    (zip_with xorb (zip_with andb (evens gs) (odds ps)) (odds gs)) = carry_pg c ps gs.
Proof.
  revert c gs. induction ps as [|p|p p' ps IH] using list_ind2; intros c gs Hl He; [by destruct gs|done|].
  destruct gs as [|g [|g' gs]]; try done. cbn [evens]. injection Hl as Hl.
  assert (forall {X} (x y : X) l, odds (x :: y :: l) = y :: odds l) as Hodds by (intros X x y [|]; done).
  rewrite !Hodds. cbn [zip_with carry_pg]. rewrite IH by done. f_equal.
  destruct g, g', p, p', c; done.
Qed.

Lemma zip_with_app_tail {X} (f : X -> X -> X) (a b c d : list X) n :
  length a = n -> length c = n ->
  take n (zip_with f (a ++ b) (c ++ d)) = zip_with f a c /\
  drop n (zip_with f (a ++ b) (c ++ d)) = zip_with f b d.
Proof.
  intros Ha Hc. rewrite zip_with_app by congruence.
  assert (length (zip_with f a c) = n) by (rewrite length_zip_with; lia).
  by rewrite take_app_length', drop_app_length' by done.
Qed.

Lemma even_halves {X} (l : list X) :
  Nat.even (length l) = true ->
  length (evens l) = (length l / 2)%nat /\ length (odds l) = (length l / 2)%nat.
Proof.
  intros He. rewrite length_evens, length_odds. split; [|done]. apply Nat.even_spec in He as [k ->].
  replace (2 * k + 1)%nat with (k * 2 + 1)%nat by lia.
  rewrite Nat.div_add_l, (Nat.mul_comm 2), Nat.div_mul by lia. cbn. lia.
Qed.

(** A reduction of an even number of generates. *)
Lemma prefix_even (c : bool) p g ps gs :
  length ps = length gs -> Nat.even (length ps) = true ->
  prefix_step andb xorb (p :: ps) (c :: g :: gs)
  = (zip_with andb (evens ps) (odds ps),
     xorb (c && p) g :: zip_with xorb (zip_with andb (evens gs) (odds ps)) (odds gs)).
Proof.
  intros Hl He. unfold prefix_step, pop_odd. cbn [length].
  assert (Nat.odd (S (S (length gs))) = false) as -> by (rewrite <- Nat.negb_even; cbn; by rewrite <- Hl, He).
  assert (evens (p :: ps) = p :: odds ps) as -> by (destruct ps; done).
  assert (evens (c :: g :: gs) = c :: evens gs) as -> by done.
  assert (odds (c :: g :: gs) = g :: odds gs) as -> by (destruct gs; done).
  assert (odds (p :: ps) = evens ps) as -> by done. cbn [tail option_list].
  destruct (even_halves ps He) as [He1 He2].
  destruct (zip_with_app_tail andb (evens ps) (c :: evens gs) (odds ps) (p :: odds ps) (length (evens ps)))
    as [H1 H2]; [done|congruence|].
  rewrite H1, H2. cbn [zip_with]. by rewrite !app_nil_r.
Qed.

Lemma removelast_app_one {X} (l : list X) x : removelast (l ++ [x]) = l.
Proof. rewrite removelast_app by done. cbn. apply app_nil_r. Qed.

(** A reduction of an odd number of generates sets the last block aside. *)
Lemma prefix_odd {X} (andX xorX : X -> X -> X) ps gs q h :
  Nat.odd (length gs) = false ->
  prefix_step andX xorX (ps ++ [q]) (gs ++ [h])
  = let '(ps', gs') := prefix_step andX xorX ps gs in (ps' ++ [q], gs' ++ [h]).
Proof.
  intros He. unfold prefix_step at 1. rewrite length_app. cbn [length].
  rewrite Nat.add_1_r, Nat.odd_succ, <- Nat.negb_odd, He. cbn [negb]. unfold pop_odd.
  rewrite !removelast_app_one, !last_snoc. unfold prefix_step, pop_odd. rewrite He.
  cbn [option_list]. by rewrite !app_nil_r.
Qed.

Lemma pairs_length ps gs :
  length ps = length gs -> Nat.even (length ps) = true ->
  length (zip_with andb (evens ps) (odds ps)) = (length ps / 2)%nat /\
  length (zip_with xorb (zip_with andb (evens gs) (odds ps)) (odds gs)) = (length ps / 2)%nat.
Proof.
  intros Hl He. destruct (even_halves ps He) as [H1 H2].
  destruct (even_halves gs) as [H3 H4]; [by rewrite <- Hl|].
  rewrite !length_zip_with, H1, H2, H3, H4, Hl. lia.
Qed.

(** One reduction keeps the carry and halves the number of blocks. *)
Lemma prefix_step_carry p g ps gs c :
  length ps = length gs ->
  exists c' ps' gs',
    prefix_step andb xorb (p :: ps) (c :: g :: gs) = (ps', c' :: gs') /\
    length ps' = length gs' /\ (length gs' < length (g :: gs))%nat /\
    carry_pg c' ps' gs' = carry_pg c (p :: ps) (g :: gs).
Proof.
  intros Hl. destruct (Nat.even (length ps)) eqn:He.
  - rewrite prefix_even by done. eexists _, _, _. split; [done|].
    destruct (pairs_length ps gs Hl He) as [-> ->]. split; [done|]. split.
    { cbn [length]. rewrite <- Hl. pose proof (Nat.Div0.div_le_upper_bound (length ps) 2 (length ps)). lia. }
    rewrite carry_pg_pairs by done. cbn [carry_pg]. f_equal. by destruct c, p, g.
  - destruct ps as [|q ps _] using rev_ind; [done|].
    destruct gs as [|h gs _] using rev_ind; [rewrite length_app in Hl; cbn in Hl; lia|].
    rewrite !length_app in Hl. cbn in Hl. assert (length ps = length gs) as Hl' by lia.
    rewrite length_app, Nat.add_1_r, Nat.even_succ, <- Nat.negb_even in He.
    apply negb_false_iff in He.
    change (p :: ps ++ [q]) with ((p :: ps) ++ [q]).
    change (c :: g :: gs ++ [h]) with ((c :: g :: gs) ++ [h]).
    change (g :: gs ++ [h]) with ((g :: gs) ++ [h]).
    rewrite prefix_odd, prefix_even by (done || rewrite <- Nat.negb_even; cbn; by rewrite <- Hl', He).
    eexists _, _, _. split; [done|]. rewrite !length_app. cbn [length].
    destruct (pairs_length ps gs Hl' He) as [-> ->]. split; [done|]. split.
    { rewrite <- Hl'. pose proof (Nat.Div0.div_le_upper_bound (length ps) 2 (length ps)). lia. }
    destruct (pairs_length ps gs Hl' He) as [L1 L2].
    rewrite !carry_pg_app by (cbn; congruence). rewrite carry_pg_pairs by done. cbn [carry_pg].
    do 3 f_equal. by destruct c, p, g.
Qed.

(** The reduction of [n] blocks by at most [n] steps leaves the carry. *)
Lemma prefix_pure_carry fuel c ps gs :
  length ps = length gs -> (length gs < fuel)%nat ->
  prefix_pure andb xorb fuel ps (c :: gs) = [carry_pg c ps gs].
Proof.
  revert c ps gs. induction fuel as [|fuel IH]; intros c ps gs Hl Hf; [lia|]. cbn [prefix_pure].
  destruct gs as [|g gs]; [by destruct ps|]. destruct ps as [|p ps]; [done|]. injection Hl as Hl.
  cbn [length Nat.eqb].
  destruct (prefix_step_carry p g ps gs c Hl) as (c' & ps' & gs' & -> & Hl' & Hlt & Hc).
  rewrite IH; [by rewrite Hc|done|cbn [length] in *; lia].
Qed.

(** ** Wires of another kind *)

Section Hom.
Context {X Y : Type} (h : X -> Y) (andX xorX : X -> X -> X) (andY xorY : Y -> Y -> Y).
Hypothesis Hand : forall x y, h (andX x y) = andY (h x) (h y).
Hypothesis Hxor : forall x y, h (xorX x y) = xorY (h x) (h y).

Lemma evens_fmap l : evens (h <$> l) = h <$> evens l.
Proof. induction l as [|x|x y l IH] using list_ind2; [done..|]. rewrite !fmap_cons. cbn [evens]. by rewrite IH, fmap_cons. Qed.
Lemma tail_fmap l : tail (h <$> l) = h <$> tail l.
Proof. by destruct l. Qed.
Lemma odds_fmap l : odds (h <$> l) = h <$> odds l.
Proof. unfold odds. by rewrite tail_fmap, evens_fmap. Qed.
Lemma removelast_fmap l : removelast (h <$> l) = h <$> removelast l.
Proof. induction l as [|x [|y l] IH]; [done..|]. rewrite !fmap_cons in *. cbn [removelast] in *. by rewrite IH. Qed.
Lemma pop_odd_fmap b l : pop_odd b (h <$> l) = (h <$> (pop_odd b l).1, h <$> (pop_odd b l).2).
Proof. unfold pop_odd. destruct b; cbn; [|done]. by rewrite removelast_fmap, fmap_last. Qed.
Lemma zip_with_hom f g (l k : list X) :
  (forall x y, h (f x y) = g (h x) (h y)) -> zip_with g (h <$> l) (h <$> k) = h <$> zip_with f l k.
Proof. intros Hfg. revert k. induction l as [|x l IH]; intros [|y k]; try done. cbn. by rewrite <- IH, Hfg. Qed.
Lemma option_list_fmap (o : option X) : option_list (h <$> o) = h <$> option_list o.
Proof. by destruct o. Qed.

Lemma prefix_step_hom ps gs :
  prefix_step andY xorY (h <$> ps) (h <$> gs)
  = (h <$> (prefix_step andX xorX ps gs).1, h <$> (prefix_step andX xorX ps gs).2).
Proof.
  unfold prefix_step. rewrite length_fmap, !pop_odd_fmap.
  destruct (pop_odd _ ps) as [p ep], (pop_odd _ gs) as [g eg]. cbn [fst snd].
  rewrite !odds_fmap, !evens_fmap, tail_fmap, <- !fmap_app, length_fmap.
  rewrite (zip_with_hom andX) by done. rewrite <- fmap_take, <- fmap_drop, (zip_with_hom xorX) by done.
  by rewrite !option_list_fmap, <- !fmap_app.
Qed.

Lemma prefix_pure_hom fuel ps gs :
  prefix_pure andY xorY fuel (h <$> ps) (h <$> gs) = h <$> prefix_pure andX xorX fuel ps gs.
Proof.
  revert ps gs. induction fuel as [|fuel IH]; intros ps gs; cbn [prefix_pure]; rewrite length_fmap;
    destruct (length gs =? 1)%nat; try done.
  rewrite prefix_step_hom. destruct (prefix_step andX xorX ps gs) as [p g]. apply IH.
Qed.
End Hom.

(** The shape of a reduction does not depend on the wires. *)
Lemma prefix_step_length {X} (andX xorX : X -> X -> X) ps gs :
  length gs = S (length ps) -> (2 <= length gs)%nat ->
  length (prefix_step andX xorX ps gs).2 = S (length (prefix_step andX xorX ps gs).1) /\
  (length (prefix_step andX xorX ps gs).2 < length gs)%nat.
Proof.
  intros Hl H2.
  pose proof (prefix_step_hom (fun _ => false) andX xorX andb xorb
                (fun _ _ => eq_refl) (fun _ _ => eq_refl) ps gs) as Hh.
  destruct gs as [|c [|g gs]]; [done|simpl in H2; lia|]. destruct ps as [|p ps]; [done|].
  cbn [length] in Hl. rewrite !fmap_cons in Hh.
  destruct (prefix_step_carry false false ((fun _ => false) <$> ps) ((fun _ => false) <$> gs) false)
    as (c' & ps' & gs' & He & Hl' & Hlt & _); [rewrite !length_fmap; lia|].
  rewrite He in Hh. injection Hh as Hp Hg.
  pose proof (length_fmap (fun _ : X => false) (prefix_step andX xorX (p :: ps) (c :: g :: gs)).1) as L1.
  pose proof (length_fmap (fun _ : X => false) (prefix_step andX xorX (p :: ps) (c :: g :: gs)).2) as L2.
  rewrite <- Hp in L1. rewrite <- Hg in L2. cbn [length] in *. rewrite length_fmap in Hlt. lia.
Qed.

(** ** Three summands *)

(** The majority gate as the protocols evaluate it. *)
Definition maj (a b c : bool) : bool := xorb (xorb a c && xorb b c) c.

Definition zip3 {A B} (f : A -> A -> A -> B) (a b c : list A) : list B :=
  zip_with (fun g z => g z) (zip_with f a b) c.

Definition csa_sum (a b c : list bool) : list bool := zip3 (fun x y z => xorb x (xorb y z)) a b c.
Definition csa_carry (a b c : list bool) : list bool := zip3 maj a b c.

Lemma csa_spec a b c :
  length a = length b -> length a = length c ->
  of_bits a + of_bits b + of_bits c = of_bits (csa_sum a b c) + 2 * of_bits (csa_carry a b c).
Proof.
  unfold csa_sum, csa_carry, zip3. revert b c.
  induction a as [|x a IH]; intros [|y b] [|z c] Hb Hc; try done.
  cbn [zip_with of_bits]. specialize (IH b c). cbn in Hb, Hc.
  rewrite !Z.mul_add_distr_l. destruct x, y, z; cbn [maj xorb andb Z.b2z]; lia.
Qed.

Lemma high_bits x r (n : nat) u v :
  0 <= r < 2 ^ Z.of_nat n -> x = r + 2 ^ Z.of_nat n * (Z.b2z u + Z.b2z v) ->
  Z.testbit x (Z.of_nat n) = xorb u v /\ Z.testbit x (Z.of_nat (S n)) = u && v.
Proof.
  intros Hr ->.
  assert (forall k z, 0 <= k -> Z.testbit z (Z.of_nat n + k) = Z.testbit (z / 2 ^ Z.of_nat n) k) as Hs.
  { intros k z Hk. rewrite <- Z.shiftr_div_pow2, Z.shiftr_spec by lia. f_equal. lia. }
  assert (forall w, (r + 2 ^ Z.of_nat n * w) / 2 ^ Z.of_nat n = w) as Hd.
  { intros w. rewrite (Z.mul_comm _ w), Z.div_add, Z.div_small; lia. }
  set (x := r + _). assert (x / 2 ^ Z.of_nat n = Z.b2z u + Z.b2z v) as Hx by apply Hd.
  pose proof (Hs 0 x) as H0. pose proof (Hs 1 x) as H1. rewrite Hx in H0, H1. rewrite Z.add_0_r in H0.
  replace (Z.of_nat (S n)) with (Z.of_nat n + 1) by lia. rewrite H0, H1 by lia. by destruct u, v.
Qed.

(** The two bits above a sum of three [n]-bit summands: the top carry of the
    carry-save step and the carry of the ripple adder. *)
Lemma two_carries a b c s0 s m mm :
  length a = length b -> length a = length c ->
  csa_sum a b c = s0 :: s -> csa_carry a b c = m ++ [mm] ->
  let x := of_bits a + of_bits b + of_bits c in
  let cr := carry_out false s m in
  Z.testbit x (Z.of_nat (length a)) = xorb mm cr /\
  Z.testbit x (Z.of_nat (S (length a))) = mm && cr.
Proof.
  intros Hb Hc Hs Hm x cr.
  assert (length (csa_sum a b c) = length a /\ length (csa_carry a b c) = length a) as [Ls Lm].
  { unfold csa_sum, csa_carry, zip3. rewrite !length_zip_with. lia. }
  rewrite Hs in Ls. rewrite Hm, length_app in Lm. cbn in Ls, Lm.
  destruct (carry_out_spec false s m) as (r & Lr & Hr); [lia|]. fold cr in Hr. cbn [Z.b2z] in Hr.
  pose proof (of_bits_range r) as Rr.
  apply (high_bits x (Z.b2z s0 + 2 * of_bits r)).
  - rewrite <- Ls, Nat2Z.inj_succ, Z.pow_succ_r, <- Lr by lia. destruct s0; cbn [Z.b2z]; lia.
  - unfold x. rewrite csa_spec, Hs, Hm, of_bits_app by done. cbn [of_bits].
    rewrite <- Ls, Nat2Z.inj_succ, Z.pow_succ_r by lia.
    replace (length m) with (length s) in * by lia. lia.
Qed.

(** A bit of a sum in the middle of two numbers: the bits above do not matter. *)
Lemma adder_bit s c x y s' c' :
  length s = length c ->
  Z.testbit (of_bits (s ++ x :: s') + of_bits (c ++ y :: c')) (Z.of_nat (length s))
  = xorb (xorb x y) (carry_out false s c).
Proof.
  intros Hl. rewrite <- (sum_bit s c x y Hl).
  rewrite (cons_middle x s s'), (cons_middle y c c'), !app_assoc, !(of_bits_app (_ ++ [_])), !length_app, <- Hl.
  cbn [length]. set (k := Z.of_nat (length s)).
  replace (Z.of_nat (length s + 1)) with (k + 1) by lia.
  rewrite <- (Z.mod_pow2_bits_low _ (k + 1) k) by lia.
  rewrite <- (Z.mod_pow2_bits_low (of_bits (s ++ [x]) + of_bits (c ++ [y])) (k + 1) k) by lia. f_equal.
  match goal with |- ?u mod _ = _ => replace u with
    (of_bits (s ++ [x]) + of_bits (c ++ [y]) + (of_bits s' + of_bits c') * 2 ^ (k + 1)) by lia end.
  apply Z.mod_add. lia.
Qed.

(** The same for a number and a doubled one, as the carry-save step leaves them. *)
Lemma csa_bit s0 s c x y s' c' :
  length s = length c ->
  Z.testbit (of_bits (s0 :: s ++ x :: s') + 2 * of_bits (c ++ y :: c')) (Z.of_nat (S (length s)))
  = xorb (xorb x y) (carry_out false s c).
Proof.
  intros Hl. rewrite <- (adder_bit s c x y s' c' Hl). cbn [of_bits].
  rewrite Nat2Z.inj_succ. rewrite <- (Z.div2_bits _ (Z.of_nat (length s))) by lia.
  f_equal. symmetry. apply (Z.div_unique _ _ _ (Z.b2z s0)); [destruct s0; cbn; lia|lia].
Qed.

(** Adding [q] at bits [k] and [k + 1]: the second of them. *)
Lemma add_two_bits x q0 q1 (k : Z) :
  0 <= k ->
  Z.testbit (x + 2 ^ k * (Z.b2z q0 + 2 * Z.b2z q1)) (k + 1)
  = xorb (xorb (Z.testbit x (k + 1)) q1) (Z.testbit x k && q0).
Proof.
  intros Hk. rewrite !(Z.add_comm k 1), <- !(Z.shiftr_spec _ k) by lia.
  rewrite !Z.shiftr_div_pow2 by lia. rewrite (Z.mul_comm (2 ^ k)), Z.div_add by lia.
  replace (Z.testbit x k) with (Z.testbit (x / 2 ^ k) 0) by (rewrite <- Z.shiftr_div_pow2, Z.shiftr_spec by lia; f_equal; lia).
  set (y := x / 2 ^ k).
  change 1 with (Z.succ 0). rewrite <- !(Z.div2_bits _ 0) by lia. rewrite !Z.bit0_odd.
  rewrite (Z.div_mod y 2) at 1 by lia.
  assert (y mod 2 = Z.b2z (Z.odd y)) as Hy by (rewrite Zmod_odd; by destruct (Z.odd y)).
  rewrite Hy. set (h := y / 2).
  replace ((2 * h + Z.b2z (Z.odd y) + (Z.b2z q0 + 2 * Z.b2z q1)) / 2) with (h + Z.b2z q1 + Z.b2z (Z.odd y && q0)).
  - rewrite !Z.odd_add. by destruct q0, q1, (Z.odd y), (Z.odd h).
  - apply (Z.div_unique _ _ _ (Z.b2z (xorb (Z.odd y) q0))); destruct (Z.odd y), q0; cbn; lia.
Qed.

Lemma carry_out_snoc c a b x y :
  length a = length b ->
  carry_out c (a ++ [x]) (b ++ [y]) = xorb (x && y) (carry_out c a b && xorb x y).
Proof. revert c b. induction a as [|u a IH]; intros c [|v b] Hl; try done. injection Hl as Hl. cbn. by apply IH. Qed.
