(* ===== verification/Binary.v ===== *)
(** * Binary protocols: [ampc-actor-utils/src/protocol/binary.rs]

    Multiplication of XOR shares and the meaning of bit-sliced shares: the
    other protocols of the file (Adder.v, Inject.v, Convert.v, AndProduct.v,
    Lift.v, AnonThreshold.v) build on it.  Vectors of bit planes are lists of
    [VecShare]s; [T : NetworkInt] is the word type the planes are packed in. *)

From S2P Require Import Prelude IntRing RingImpl Party Share VecShare Transpose Value Net Prf Proto.
From stdpp Require Import base list numbers strings gmap.
From Stdlib Require Import ZArith Lia.
Local Open Scope Z_scope.

(** ** Local operations *)

(* binary.rs:91-116 a2b_pre *)
Definition a2b_pre (T : IntRing2k) (role : Role) (x : Share) : result (Share * Share * Share) :=
  let '(a, b) := get_ab x in
  let z := share_zero T in
  if Z.eqb (role_index role) 0 then Ok (mkShare a (sb z), z, mkShare (sa z) b)
  else if Z.eqb (role_index role) 1 then Ok (mkShare (sa z) b, mkShare a (sb z), z)
  else if Z.eqb (role_index role) 2 then Ok (z, mkShare (sa z) b, mkShare a (sb z))
  else bail "Cannot deal with roles that have index outside of the set [0, 1, 2]".

(* binary.rs:120-127 transposed_pack_xor_assign *)
Definition transposed_pack_xor_assign (T : IntRing2k) (x1 x2 : list VecShare) : list VecShare :=
  assign2 (vs_xor_assign T) x1 x2.

(* binary.rs:131-140 transposed_pack_xor *)
Definition transposed_pack_xor (T : IntRing2k) (x1 x2 : list VecShare) : list VecShare :=
  zip_with (vs_xor T) x1 x2.

(* binary.rs:755-757 zero_iter *)
Definition zero_iter (T : IntRing2k) (len : nat) : list Z := replicate len (re_zero T).

Section Protocols.
Context {R : Rng}.

(** [c = (a & b) ^ (mine ^ prev)] over [izip!(a, b, mine, prev)]. *)
Definition and_masked (T : IntRing2k) (a b : list Share) (mine prev : list Z) : list Z :=
  zip_with (fun '(a_, b_) '(mine_, prev_) => share_and T a_ b_ ^[T] (mine_ ^[T] prev_))
    (zip a b) (zip mine prev).

(* binary.rs:143-172 and_many_iter_send *)
Definition and_many_iter_send (T : NetworkInt) (a b : list Share) (size_hint : nat) : M R (list Z) :=
  '(mine, prev) ← with_rng (gen_rands_batch R T size_hint);
  let shares_a := and_masked T a b mine prev in
  _ ← net (fun n => send_ring_vec_next T n shares_a);
  mret shares_a.

(* binary.rs:174-204 and_many_send *)
Definition and_many_send (T : NetworkInt) (a b : SliceShare) : M R (list Z) :=
  if negb (length a =? length b)%nat then liftr (bail "InvalidSize in and_many_send") else
  '(mine, prev) ← with_rng (gen_rands_batch R T (length a));
  let shares_a := and_masked T a b mine prev in
  _ ← net (fun n => send_ring_vec_next T n shares_a);
  mret shares_a.

(* binary.rs:207-219 and_many_receive *)
Definition and_many_receive (T : NetworkInt) : M R (list Z) :=
  other_share ← liftp receive_prev;
  liftr (match other_share with
         | Ok v => into_vec T v
         | Err e => bail "Error in and_many_receive"
         end).

(* binary.rs:223-236 and_many *)
Definition and_many (T : NetworkInt) (a b : SliceShare) : M R VecShare :=
  shares_a ← and_many_send T a b;
  shares_b ← and_many_receive T;
  mret (from_ab shares_a shares_b).

(** [local.by_ref().take(size)] for each size in turn. *)
Fixpoint split_sizes (sizes : list nat) (l r : list Z) : list VecShare :=
  match sizes with
  | [] => []
  | n :: sizes => from_ab (take n l) (take n r) :: split_sizes sizes (drop n l) (drop n r)
  end.

(* binary.rs:240-272 and_many_grouped *)
Definition and_many_grouped (T : NetworkInt) (groups : list (SliceShare * SliceShare)) : M R (list VecShare) :=
  if existsb (fun '(l, r) => negb (length l =? length r)%nat) groups
  then liftr (bail "InvalidSize in and_many_grouped") else
  let sizes := (fun g : SliceShare * SliceShare => length g.1) <$> groups in
  let total := sum_list sizes in
  let left := concat (fst <$> groups) in
  let right := concat (snd <$> groups) in
  local ← and_many_iter_send T left right total;
  remote ← and_many_receive T;
  if negb (length local =? total)%nat || negb (length remote =? total)%nat
  then liftr (bail "InvalidSize returned by grouped AND")
  else mret (split_sizes sizes local remote).

(** Slices at increasing offsets: out of range panics. *)
Fixpoint unflatten (sizes : list nat) (offset : nat) (shares_a shares_b : list Z) : result (list VecShare) :=
  match sizes with
  | [] => Ok []
  | l :: sizes =>
      a ← slice shares_a offset (offset + l);
      b ← slice shares_b offset (offset + l);
      res ← unflatten sizes (offset + l) shares_a shares_b;
      Ok (from_ab a b :: res)
  end.

(* binary.rs:317-353 transposed_pack_and *)
Definition transposed_pack_and (T : NetworkInt) (x1 x2 : list VecShare) : M R (list VecShare) :=
  if negb (length x1 =? length x2)%nat then liftr (bail "Inputs have different length") else
  let chunk_sizes := length <$> x1 in
  if existsb (fun '(n, m) => negb (n =? m)%nat) (zip chunk_sizes (length <$> x2))
  then liftr (bail "VecShare lengths are not equal") else
  let flattened_len := sum_list chunk_sizes in
  shares_a ← and_many_iter_send T (vs_flatten x1) (vs_flatten x2) flattened_len;
  shares_b ← and_many_receive T;
  liftr (unflatten chunk_sizes 0 shares_a shares_b).
End Protocols.

(** ** One round of ANDs *)

Section And.
Context {R : Rng} {HR : RngOk R} (ids : tri Identity) (sid : Z).
Context {T : NetworkInt} {HT : NetworkIntOk T}.

Lemma and_masked_eq a b mine prev :
  and_masked T a b mine prev
  = zip_with (fun '(m, p) y => y ^[T] (m ^[T] p)) (zip mine prev) (zip_with (share_and T) a b).
Proof.
  unfold and_masked. revert b mine prev.
  induction a as [|x a IH]; intros [|y b] [|m mine] [|p prev]; cbn; try done. by rewrite IH.
Qed.

Lemma tvec_bin3_wf c xs i :
  tvec (bin3 T) c xs -> Z.of_nat (length xs * BYTES T) < 2 ^ 32 -> wf_vec T (c @ i).
Proof.
  intros Hc Hl. split; [|by rewrite (tvec_length _ _ _ _ Hc)].
  clear Hl. induction Hc as [|a c x xs [Ha _] Hc IH]; [by destruct i|].
  unfold tcons. rewrite tget_tof. constructor; [apply Ha|done].
Qed.

(** The masked local ANDs of the three parties XOR to the AND of the secrets. *)
Lemma and_masked_bin3 a b xs ys (r : tri (list Z)) :
  tvec (shares_xor T) a xs -> tvec (shares_xor T) b ys ->
  (forall i, length (r @ i) = length (zip_with Z.land xs ys) /\ Forall (valid T) (r @ i)) ->
  tvec (bin3 T) (tof (fun i => and_masked T (a @ i) (b @ i) (r @ i) (r @ (prev_id i)))) (zip_with Z.land xs ys).
Proof.
  intros Ha Hb Hr.
  pose proof (tvec_zip (shares_xor T) (shares_xor T) (bin3 T) (fun _ => share_and T) Z.land a xs b ys) as Hz.
  specialize (Hz (fun s x r y Hs Hr => share_and_bin3 T s r x y Hs Hr) Ha Hb).
  pose proof (mask_vec T (bin3 T) (fun m p y => y ^[T] (m ^[T] p)) r _ _ (mask_bin3 T) Hr Hz) as Hm.
  match goal with |- tvec _ ?v _ => match type of Hm with tvec _ ?v' _ => replace v with v'; [done|] end end.
  apply tri_ext. intros i. by rewrite !tget_tof, and_masked_eq.
Qed.

(** Send, then receive: every party ends up with its own masked components and
    its predecessor's. *)
Lemma proto_and_round {A} a b xs ys n (k : PartyID -> list Z -> list Z -> M R A) Q :
  tvec (shares_xor T) a xs -> tvec (shares_xor T) b ys -> length xs = length ys ->
  n = length xs -> Z.of_nat (length xs * BYTES T) < 2 ^ 32 ->
  (forall c, tvec (bin3 T) c (zip_with Z.land xs ys) ->
     proto ids sid (fun i => k i (c @ i) (c @ (prev_id i))) Q) ->
  proto ids sid (fun i => shares_a ← and_many_iter_send T (a @ i) (b @ i) n;
                          shares_b ← and_many_receive T; k i shares_a shares_b) Q.
Proof.
  intros Ha Hb Hxy -> Hl Hk s Hs.
  apply (exec_bind ids _ (fun i => and_many_iter_send T (a @ i) (b @ i) (length xs))
    (fun i sha => shares_b ← and_many_receive T; k i sha shares_b)).
  apply (exec_bind ids _ (fun i => with_rng (gen_rands_batch R T (length xs)))
    (fun i '(mine, prev) => let shares_a := and_masked T (a @ i) (b @ i) mine prev in
       _ ← net (fun n => send_ring_vec_next T n shares_a); mret shares_a)).
  apply (exec_rands ids sid T); [done..|]. intros s' r Hs' Hr.
  assert (length (zip_with Z.land xs ys) = length xs) as Hz by (rewrite length_zip_with; lia).
  rewrite <- Hz in Hr, Hl. pose proof (and_masked_bin3 a b xs ys r Ha Hb Hr) as Hc.
  set (c := tof (fun i => and_masked T (a @ i) (b @ i) (r @ i) (r @ (prev_id i)))) in *.
  apply (exec_ext ids _ _ (fun i => _ ← net (fun n => send_ring_vec_next T n (c @ i)); mret (c @ i))).
  { intros i. unfold c. by rewrite !tget_tof. }
  apply exec_bind. apply (proto_send_ring_vec ids sid); [apply Hs'|]. apply exec_ret.
  apply (exec_bind ids _ (fun i => and_many_receive T) (fun i shb => k i (c @ i) shb)).
  apply (exec_bind ids _ (fun i => liftp receive_prev)).
  eapply (exec_receive_prev ids sid); [apply Hs'|apply push_next_recv|].
  apply (exec_liftr _ _ _ (tof (fun i => c @ (prev_id i)))).
  { intros i. rewrite tget_fmap, !tget_tof, tget_fmap. apply into_vec_message; [done|]. by eapply tvec_bin3_wf. }
  eapply exec_ext; [|apply (Hk c Hc s' Hs')]. intros i. by rewrite tget_tof.
Qed.

Lemma and_many_iter_send_eq a b :
  length a = length b -> and_many_send (R := R) T a b = and_many_iter_send T a b (length a).
Proof. intros H. unfold and_many_send. by rewrite (proj2 (Nat.eqb_eq _ _) H). Qed.

(** [and_many] computes shares of the AND of every two words. *)
Lemma and_many_spec a b xs ys :
  tvec (shares_xor T) a xs -> tvec (shares_xor T) b ys -> length xs = length ys ->
  Z.of_nat (length xs * BYTES T) < 2 ^ 32 ->
  proto (R := R) ids sid (fun i => and_many T (a @ i) (b @ i))
    (fun out => tvec (shares_xor T) out (zip_with Z.land xs ys)).
Proof.
  intros Ha Hb Hxy Hl. unfold and_many.
  apply (proto_ext ids sid _ (fun i => shares_a ← and_many_iter_send T (a @ i) (b @ i) (length xs);
                          shares_b ← and_many_receive T; mret (from_ab shares_a shares_b))).
  { intros s i _. rewrite and_many_iter_send_eq; rewrite !(tvec_length _ _ _ _ Ha); [done|].
    by rewrite (tvec_length _ _ _ _ Hb). }
  apply (proto_and_round a b xs ys); [done..|]. intros c Hc.
  apply (proto_ext ids sid _ (fun i => mret ((replicate3 c) @ i))).
  { intros s i _. unfold replicate3. by rewrite tget_tof. }
  apply proto_ret. eapply replicate3_spec; [|done]. apply bin3_replicate.
Qed.
End And.

(** ** Bit functions

    The plaintext of a vector of [n] words is a function of the word index and
    the bit index; an operation on words acts on every bit alike. *)

Abbreviation bitfun := (nat -> nat -> bool).
Definition bf_and (f g : bitfun) : bitfun := fun j l => f j l && g j l.
Definition bf_xor (f g : bitfun) : bitfun := fun j l => xorb (f j l) (g j l).

Fixpoint word_of (w : nat) (f : nat -> bool) : Z :=
  match w with O => 0 | S w => Z.lor (word_of w f) (Z.shiftl (Z.b2z (f w)) (Z.of_nat w)) end.

Lemma word_of_spec w f :
  0 <= word_of w f < 2 ^ Z.of_nat w /\
  forall i : nat, Z.testbit (word_of w f) (Z.of_nat i) = (i <? w)%nat && f i.
Proof.
  induction w as [|w [IHr IHt]].
  { split; [done|]. intros i. by rewrite Z.testbit_0_l. }
  cbn [word_of].
  assert (forall i, 0 <= i -> Z.testbit (Z.shiftl (Z.b2z (f w)) (Z.of_nat w)) i
    = (Z.of_nat w =? i) && f w) as Hs.
  { intros i Hi. rewrite Z.shiftl_spec by done. destruct (f w); cbn [Z.b2z];
      [rewrite andb_true_r|by rewrite Z.testbit_0_l, andb_false_r].
    destruct (Z.eqb_spec (Z.of_nat w) i) as [<-|Hne]; [by rewrite Z.sub_diag|].
    destruct (decide (i < Z.of_nat w)); [by rewrite Z.testbit_neg_r by lia|].
    apply (testbit_high 1); lia. }
  split.
  - assert (0 <= Z.lor (word_of w f) (Z.shiftl (Z.b2z (f w)) (Z.of_nat w))) as Hn.
    { apply Z.lor_nonneg. split; [lia|]. apply Z.shiftl_nonneg. by destruct (f w). }
    split; [done|]. apply lt_pow2_bits; [lia|done|]. intros i Hi.
    rewrite Z.lor_spec, Hs, (testbit_high (Z.of_nat w)), (proj2 (Z.eqb_neq _ _)); done || lia.
  - intros i. rewrite Z.lor_spec, IHt, Hs by lia.
    destruct (Nat.ltb_spec i w), (Nat.ltb_spec i (S w)), (Z.eqb_spec (Z.of_nat w) (Z.of_nat i));
      try lia; cbn; rewrite ?orb_false_r; try done.
    by assert (i = w) as -> by lia.
Qed.

Lemma word_of_ext w f g : (forall i, (i < w)%nat -> f i = g i) -> word_of w f = word_of w g.
Proof.
  induction w as [|w IH]; intros H; [done|]. cbn. rewrite IH, H by auto with lia. done.
Qed.

Lemma word_of_testbit w x : 0 <= x < 2 ^ Z.of_nat w -> word_of w (fun l => Z.testbit x (Z.of_nat l)) = x.
Proof.
  intros Hx. destruct (word_of_spec w (fun l => Z.testbit x (Z.of_nat l))) as [Hr Ht].
  apply Z.bits_inj'. intros i Hi. rewrite <- (Z2Nat.id i) by done. rewrite Ht.
  destruct (Nat.ltb_spec (Z.to_nat i) w); [done|]. symmetry. apply (testbit_high (Z.of_nat w)); [done|lia].
Qed.

Lemma word_of_op2 (op : Z -> Z -> Z) (o : bool -> bool -> bool) w f g :
  o false false = false ->
  (forall a b i, 0 <= i -> Z.testbit (op a b) i = o (Z.testbit a i) (Z.testbit b i)) ->
  op (word_of w f) (word_of w g) = word_of w (fun l => o (f l) (g l)).
Proof.
  intros H0 Hop. destruct (word_of_spec w f) as [_ Hf]. destruct (word_of_spec w g) as [_ Hg].
  destruct (word_of_spec w (fun l => o (f l) (g l))) as [_ H].
  apply Z.bits_inj'. intros i Hi. rewrite Hop by done. rewrite <- (Z2Nat.id i) by done.
  rewrite Hf, Hg, H. by destruct (Z.to_nat i <? w)%nat.
Qed.

Section Planes.
Context {R : Rng} {HR : RngOk R} (ids : tri Identity) (sid : Z).
Context {T : NetworkInt} {HT : NetworkIntOk T}.

Definition words (n : nat) (f : bitfun) : list Z :=
  (fun j => word_of (Z.to_nat (K T)) (f j)) <$> seq 0 n.

(** The three vectors [v] share [n] words with the bits [f]. *)
Definition vholds (n : nat) (v : tri (list Share)) (f : bitfun) : Prop :=
  tvec (shares_xor T) v (words n f).

Lemma length_words n f : length (words n f) = n.
Proof. unfold words. by rewrite length_fmap, length_seq. Qed.

Lemma words_ext n f g :
  (forall j l, (j < n)%nat -> Z.of_nat l < K T -> f j l = g j l) -> words n f = words n g.
Proof.
  intros H. apply list_fmap_ext. intros j x Hx. apply lookup_seq in Hx as [-> Hj].
  apply word_of_ext. intros l Hl. apply H; lia.
Qed.

Lemma vholds_ext n v f g :
  (forall j l, (j < n)%nat -> Z.of_nat l < K T -> f j l = g j l) -> vholds n v f -> vholds n v g.
Proof. intros H. unfold vholds. by rewrite (words_ext n f g H). Qed.

Lemma words_op2 (op : Z -> Z -> Z) (o : bool -> bool -> bool) n f g :
  o false false = false ->
  (forall a b i, 0 <= i -> Z.testbit (op a b) i = o (Z.testbit a i) (Z.testbit b i)) ->
  zip_with op (words n f) (words n g) = words n (fun j l => o (f j l) (g j l)).
Proof.
  intros H0 Hop. unfold words. generalize 0%nat. induction n as [|n IH]; intros m; [done|]. cbn.
  rewrite IH. f_equal. by apply word_of_op2.
Qed.

Lemma words_and n f g : zip_with Z.land (words n f) (words n g) = words n (bf_and f g).
Proof. apply words_op2; [done|]. intros. apply Z.land_spec. Qed.
Lemma words_xor n f g : zip_with Z.lxor (words n f) (words n g) = words n (bf_xor f g).
Proof. apply words_op2; [done|]. intros. apply Z.lxor_spec. Qed.

Lemma vholds_length n v f i : vholds n v f -> length (v @ i) = n.
Proof. intros H. rewrite (tvec_length _ _ _ _ H). apply length_words. Qed.

Lemma vholds_xor n v f w g :
  vholds n v f -> vholds n w g -> vholds n (tof (fun i => vs_xor T (v @ i) (w @ i))) (bf_xor f g).
Proof.
  intros Hv Hw. unfold vholds. rewrite <- words_xor.
  apply (tvec_zip (shares_xor T) (shares_xor T) (shares_xor T) (fun _ => share_xor T) Z.lxor); [|done..].
  intros s x r y Hs Hr. by apply share_xor_spec.
Qed.

Lemma vs_xor_assign_eq (v w : list Share) : length v = length w -> vs_xor_assign T v w = vs_xor T v w.
Proof. intros H. by apply assign2_zip_with. Qed.

Lemma vholds_xor_assign n v f w g :
  vholds n v f -> vholds n w g -> vholds n (tof (fun i => vs_xor_assign T (v @ i) (w @ i))) (bf_xor f g).
Proof.
  intros Hv Hw. replace (tof (fun i => vs_xor_assign T (v @ i) (w @ i)))
    with (tof (fun i => vs_xor T (v @ i) (w @ i))); [by apply vholds_xor|].
  apply tri_ext. intros i. rewrite !tget_tof. symmetry. apply vs_xor_assign_eq.
  by rewrite (vholds_length _ _ _ i Hv), (vholds_length _ _ _ i Hw).
Qed.

Lemma and_many_vholds n v f w g :
  vholds n v f -> vholds n w g -> Z.of_nat (n * BYTES T) < 2 ^ 32 ->
  proto (R := R) ids sid (fun i => and_many T (v @ i) (w @ i)) (fun out => vholds n out (bf_and f g)).
Proof.
  intros Hv Hw Hn. eapply proto_mono; [|by apply (and_many_spec ids sid v w _ _ Hv Hw); rewrite !length_words].
  intros out. unfold vholds. by rewrite <- words_and.
Qed.

(** ** Planes *)

Lemma planes_xor n p fs q gs :
  tvec (vholds n) p fs -> tvec (vholds n) q gs ->
  tvec (vholds n) (tof (fun i => transposed_pack_xor T (p @ i) (q @ i))) (zip_with bf_xor fs gs).
Proof. apply (tvec_zip _ _ _ (fun _ => vs_xor T) bf_xor). intros. by apply vholds_xor. Qed.

Lemma planes_xor_assign n p fs q gs :
  length fs = length gs -> tvec (vholds n) p fs -> tvec (vholds n) q gs ->
  tvec (vholds n) (tof (fun i => transposed_pack_xor_assign T (p @ i) (q @ i))) (zip_with bf_xor fs gs).
Proof.
  intros Hl Hp Hq.
  replace (tof (fun i => transposed_pack_xor_assign T (p @ i) (q @ i)))
    with (tof (fun i => zip_with (vs_xor_assign T) (p @ i) (q @ i))).
  - eapply (tvec_zip _ _ _ (fun _ => vs_xor_assign T) bf_xor); [|done..]. intros. by apply vholds_xor_assign.
  - apply tri_ext. intros i. rewrite !tget_tof. symmetry. apply assign2_zip_with.
    by rewrite (tvec_length _ _ _ i Hp), (tvec_length _ _ _ i Hq).
Qed.
End Planes.

Section Grouped.
Context {R : Rng} {HR : RngOk R} (ids : tri Identity) (sid : Z).
Context {T : NetworkInt} {HT : NetworkIntOk T}.

Lemma from_ab_mkShare a b : from_ab a b = zip_with mkShare a b.
Proof. done. Qed.

Lemma tvec_replicate_bin3 c xs :
  tvec (bin3 T) c xs -> tvec (shares_xor T) (tof (fun i => from_ab (c @ i) (c @ (prev_id i)))) xs.
Proof. apply replicate3_spec, bin3_replicate. Qed.

(** Cutting the result of one big AND into its groups. *)
Lemma split_sizes_spec c xss :
  tvec (bin3 T) c (concat xss) ->
  tvec (tvec (shares_xor T))
    (tof (fun i => split_sizes (length <$> xss) (c @ i) (c @ (prev_id i)))) xss.
Proof.
  revert c. induction xss as [|xs xss IH]; intros c Hc; [constructor|].
  cbn [concat] in Hc.
  pose proof (tvec_take _ (length xs) _ _ Hc) as H1. rewrite take_app_length in H1.
  pose proof (tvec_drop _ (length xs) _ _ Hc) as H2. rewrite drop_app_length in H2.
  pose proof (tvec_cons (tvec (shares_xor T)) _ _ _ _ (tvec_replicate_bin3 _ _ H1) (IH _ H2)) as H.
  match goal with |- tvec _ ?v _ => match type of H with tvec _ ?v' _ => replace v with v'; [done|] end end.
  apply tri_ext. intros i. unfold tcons. rewrite !tget_tof, !tget_fmap. done.
Qed.

Lemma unflatten_split sizes off pa pb a b :
  length pa = off -> length pb = off ->
  (sum_list sizes <= length a)%nat -> (sum_list sizes <= length b)%nat ->
  unflatten sizes off (pa ++ a) (pb ++ b) = Ok (split_sizes sizes a b).
Proof.
  revert off pa pb a b. induction sizes as [|l sizes IH]; intros off pa pb a b Ha Hb Hla Hlb; [done|].
  change (sum_list (l :: sizes)) with (l + sum_list sizes)%nat in *. cbn [unflatten split_sizes].
  rewrite (slice_app (pa ++ a) pa (take l a) (drop l a)) by (rewrite ?take_drop, ?length_take; lia || done).
  rewrite (slice_app (pb ++ b) pb (take l b) (drop l b)) by (rewrite ?take_drop, ?length_take; lia || done).
  cbn [mbind result_bind].
  rewrite <- (take_drop l a) at 1. rewrite <- (take_drop l b) at 1. rewrite !app_assoc.
  rewrite IH; [done|rewrite length_app, length_take; lia..| |]; rewrite length_drop; lia.
Qed.

Lemma sum_length_concat {A} (l : list (list A)) : sum_list (length <$> l) = length (concat l).
Proof. induction l as [|x l IH]; [done|]. rewrite fmap_cons. cbn [concat]. rewrite length_app, <- IH. done. Qed.

Lemma tvec_tvec_lengths {A B} (P : tri A -> B -> Prop) v xss i :
  tvec (tvec P) v xss -> length <$> (v @ i) = length <$> xss.
Proof.
  induction 1 as [|s v xs xss Hs Hv IH]; [by destruct i|].
  unfold tcons. rewrite tget_tof, !fmap_cons, IH. f_equal. by eapply tvec_length.
Qed.

Lemma existsb_zip_same (l : list nat) : existsb (fun '(n, m) => negb (n =? m)%nat) (zip l l) = false.
Proof. induction l as [|n l IH]; [done|]. cbn. by rewrite Nat.eqb_refl, IH. Qed.

Lemma zip_land_concat xss yss :
  length <$> xss = length <$> yss ->
  zip_with Z.land (concat xss) (concat yss) = concat (zip_with (zip_with Z.land) xss yss) /\
  length (concat xss) = length (concat yss).
Proof.
  revert yss. induction xss as [|xs xss IH]; intros [|ys yss] H; try done.
  rewrite !fmap_cons in H. injection H as Hl H. destruct (IH yss H) as [IH1 IH2]. cbn [concat zip_with].
  rewrite !length_app, IH2, Hl. split; [|done]. by rewrite zip_with_app, IH1.
Qed.

Lemma lengths_zip_land (xss yss : list (list Z)) :
  length <$> xss = length <$> yss -> length <$> zip_with (zip_with Z.land) xss yss = length <$> xss.
Proof.
  revert yss. induction xss as [|xs xss IH]; intros [|ys yss] Hl; try done.
  rewrite !fmap_cons in Hl. injection Hl as Hx Hl. cbn [zip_with]. rewrite !fmap_cons, IH by done.
  f_equal. rewrite length_zip_with. lia.
Qed.

(** [transposed_pack_and]: the AND of every two planes, in one round. *)
Lemma transposed_pack_and_spec p q xss yss :
  tvec (tvec (shares_xor T)) p xss -> tvec (tvec (shares_xor T)) q yss ->
  length <$> xss = length <$> yss -> Z.of_nat (length (concat xss) * BYTES T) < 2 ^ 32 ->
  proto (R := R) ids sid (fun i => transposed_pack_and T (p @ i) (q @ i))
    (fun out => tvec (tvec (shares_xor T)) out (zip_with (zip_with Z.land) xss yss)).
Proof.
  intros Hp Hq Hl Hn. destruct (zip_land_concat xss yss Hl) as [Hz Hzl].
  apply (proto_ext ids sid _ (fun i =>
    shares_a ← and_many_iter_send T ((concat (A:=Share) <$> p) @ i) ((concat (A:=Share) <$> q) @ i) (length (concat xss));
    shares_b ← and_many_receive T; liftr (unflatten (length <$> xss) 0 shares_a shares_b))).
  { intros s i _. unfold transposed_pack_and.
    rewrite (tvec_length _ _ _ i Hp), (tvec_length _ _ _ i Hq).
    assert (length xss = length yss) as -> by (rewrite <- (length_fmap length xss), Hl; apply length_fmap).
    rewrite Nat.eqb_refl. cbn [negb].
    rewrite (tvec_tvec_lengths _ _ _ i Hp), (tvec_tvec_lengths _ _ _ i Hq), <- Hl, existsb_zip_same.
    by rewrite sum_length_concat, !tget_fmap. }
  apply (proto_and_round ids sid (concat (A:=Share) <$> p) (concat (A:=Share) <$> q) (concat xss) (concat yss));
    [by apply tvec_concat|by apply tvec_concat|done..|].
  intros c Hc. rewrite Hz in Hc.
  pose proof (lengths_zip_land xss yss Hl) as Hls.
  eapply (proto_liftr ids sid _ (tof (fun i => split_sizes (length <$> xss) (c @ i) (c @ (prev_id i))))).
  - intros i. rewrite tget_tof. apply (unflatten_split _ 0 [] []); try done;
      rewrite (tvec_length _ _ _ _ Hc), <- Hls, sum_length_concat; done.
  - rewrite <- Hls. by apply split_sizes_spec.
Qed.

Lemma existsb_same_lengths {A} (ps qs : list (list A)) :
  length <$> ps = length <$> qs ->
  existsb (fun '(l, r) => negb (length l =? length r)%nat) (zip ps qs) = false.
Proof.
  revert qs. induction ps as [|a ps IH]; intros [|b qs] H; try done.
  rewrite !fmap_cons in H. injection H as Hab H. cbn. by rewrite Hab, Nat.eqb_refl, IH.
Qed.

(** [and_many_grouped]: several groups in one round. *)
Lemma and_many_grouped_spec p q xss yss :
  tvec (tvec (shares_xor T)) p xss -> tvec (tvec (shares_xor T)) q yss ->
  length <$> xss = length <$> yss -> Z.of_nat (length (concat xss) * BYTES T) < 2 ^ 32 ->
  proto (R := R) ids sid (fun i => and_many_grouped T (zip (p @ i) (q @ i)))
    (fun out => tvec (tvec (shares_xor T)) out (zip_with (zip_with Z.land) xss yss)).
Proof.
  intros Hp Hq Hl Hn. destruct (zip_land_concat xss yss Hl) as [Hz Hzl].
  assert (length xss = length yss) as Hlen by (rewrite <- (length_fmap length xss), Hl; apply length_fmap).
  apply (proto_ext ids sid _ (fun i =>
    local ← and_many_iter_send T ((concat (A:=Share) <$> p) @ i) ((concat (A:=Share) <$> q) @ i) (length (concat xss));
    remote ← and_many_receive T;
    if negb (length local =? length (concat xss))%nat || negb (length remote =? length (concat xss))%nat
    then liftr (bail "InvalidSize returned by grouped AND")
    else mret (split_sizes (length <$> xss) local remote))).
  { intros s i _. unfold and_many_grouped. pose proof (tvec_tvec_lengths _ _ _ i Hp) as Lp.
    pose proof (tvec_tvec_lengths _ _ _ i Hq) as Lq.
    rewrite existsb_same_lengths by congruence.
    assert (length (p @ i) = length (q @ i)) as E
      by (by rewrite (tvec_length _ _ _ i Hp), (tvec_length _ _ _ i Hq)).
    assert ((fun g : SliceShare * SliceShare => length g.1) <$> zip (p @ i) (q @ i) = length <$> xss) as ->.
    { rewrite <- Lp. rewrite <- (fst_zip (p @ i) (q @ i)) at 2 by lia. by rewrite <- list_fmap_compose. }
    rewrite fst_zip, snd_zip by lia. by rewrite sum_length_concat, !tget_fmap. }
  apply (proto_and_round ids sid (concat (A:=Share) <$> p) (concat (A:=Share) <$> q) (concat xss) (concat yss)
    (length (concat xss)) (fun _ local remote =>
      if negb (length local =? length (concat xss))%nat || negb (length remote =? length (concat xss))%nat
      then liftr (bail "InvalidSize returned by grouped AND")
      else mret (split_sizes (length <$> xss) local remote)));
    [by apply tvec_concat|by apply tvec_concat|done..|].
  intros c Hc. assert (forall i, length (c @ i) = length (concat xss)) as Lc.
  { intros i. rewrite (tvec_length _ _ _ i Hc), length_zip_with. lia. }
  rewrite Hz in Hc. eapply proto_ext; [|apply (proto_ret ids sid (tof (fun i => split_sizes (length <$> xss) (c @ i) (c @ (prev_id i)))))].
  - intros s i _. cbn beta. by rewrite !Lc, Nat.eqb_refl, tget_tof.
  - rewrite <- (lengths_zip_land xss yss Hl). by apply split_sizes_spec.
Qed.

Lemma words_planes n (fs gs : list bitfun) :
  zip_with (zip_with Z.land) (words (T:=T) n <$> fs) (words (T:=T) n <$> gs)
  = words (T:=T) n <$> zip_with bf_and fs gs.
Proof.
  revert gs. induction fs as [|f fs IH]; intros [|g gs]; try done.
  rewrite !fmap_cons. cbn [zip_with]. by rewrite fmap_cons, words_and, IH.
Qed.

Lemma vholds_planes n p fs :
  tvec (vholds (T:=T) n) p fs <-> tvec (tvec (shares_xor T)) p (words (T:=T) n <$> fs).
Proof.
  split.
  - induction 1 as [|s v f fs Hs Hv IH]; [constructor|]. by constructor.
  - revert p. induction fs as [|f fs IH]; intros p Hp.
    + apply tvec_nil_inv in Hp as ->. constructor.
    + rewrite fmap_cons in Hp. apply tvec_cons_inv in Hp as (s & w & -> & Hs & Hw).
      constructor; [done|]. by apply IH.
Qed.

Lemma words_lengths n (fs : list bitfun) : length <$> (words (T:=T) n <$> fs) = replicate (length fs) n.
Proof. induction fs as [|f fs IH]; [done|]. rewrite !fmap_cons, IH, length_words. done. Qed.

Lemma length_concat_words n (fs : list bitfun) : length (concat (words (T:=T) n <$> fs)) = (length fs * n)%nat.
Proof.
  rewrite <- sum_length_concat, words_lengths. induction (length fs) as [|m IH]; [done|].
  cbn. fold (sum_list (replicate m n)). rewrite IH. lia.
Qed.

Lemma planes_and n p fs q gs :
  tvec (vholds (T:=T) n) p fs -> tvec (vholds (T:=T) n) q gs -> length fs = length gs ->
  Z.of_nat (length fs * n * BYTES T) < 2 ^ 32 ->
  proto (R := R) ids sid (fun i => transposed_pack_and T (p @ i) (q @ i))
    (fun out => tvec (vholds (T:=T) n) out (zip_with bf_and fs gs)).
Proof.
  intros Hp Hq Hl Hn. rewrite vholds_planes in Hp, Hq.
  eapply proto_mono; [|apply (transposed_pack_and_spec p q _ _ Hp Hq)].
  - intros out. by rewrite words_planes, vholds_planes.
  - by rewrite !words_lengths, Hl.
  - by rewrite length_concat_words.
Qed.

Lemma planes_grouped n p fs q gs :
  tvec (vholds (T:=T) n) p fs -> tvec (vholds (T:=T) n) q gs -> length fs = length gs ->
  Z.of_nat (length fs * n * BYTES T) < 2 ^ 32 ->
  proto (R := R) ids sid (fun i => and_many_grouped T (zip (p @ i) (q @ i)))
    (fun out => tvec (vholds (T:=T) n) out (zip_with bf_and fs gs)).
Proof.
  intros Hp Hq Hl Hn. rewrite vholds_planes in Hp, Hq.
  eapply proto_mono; [|apply (and_many_grouped_spec p q _ _ Hp Hq)].
  - intros out. by rewrite words_planes, vholds_planes.
  - by rewrite !words_lengths, Hl.
  - by rewrite length_concat_words.
Qed.
End Grouped.

(** ** From words to bit shares *)

(** Entry [e] of the vector whose words have the bits [f]. *)
Definition bit_at (w : nat) (f : bitfun) (e : nat) : bool := f (e / w)%nat (e mod w)%nat.

Lemma bit_at_block w f j l : (l < w)%nat -> bit_at w f (j * w + l) = f j l.
Proof.
  intros Hl. unfold bit_at. rewrite Nat.div_add_l, Nat.div_small, Nat.add_0_r by lia.
  by rewrite Nat.add_comm, Nat.Div0.mod_add, Nat.mod_small.
Qed.

Lemma concat_blocks (w n : nat) (f : bitfun) :
  concat ((fun j => (fun l => Z.b2z (f j l)) <$> seq 0 w) <$> seq 0 n)
  = (fun e => Z.b2z (bit_at w f e)) <$> seq 0 (n * w).
Proof.
  induction n as [|n IH]; [done|]. rewrite seq_S, fmap_app, concat_app, IH. cbn [fmap list_fmap concat].
  rewrite app_nil_r. replace (S n * w)%nat with (n * w + w)%nat by lia. rewrite seq_app, fmap_app. f_equal.
  cbn [Nat.add]. rewrite <- (Nat.add_0_r (n * w)), <- fmap_add_seq, <- list_fmap_compose.
  apply list_fmap_ext. intros k l Hk. apply lookup_seq in Hk as [-> Hk]. cbn. by rewrite bit_at_block.
Qed.

Section ToBits.
Context {T : IntRing2k} {HT : IntRing2kOk T}.

(** The bits of a shared word are shared bits. *)
Lemma from_share_bits s x :
  shares_xor T s x ->
  tvec (shares_xor Bit) (vs_from_share T <$> s)
    ((fun l => Z.b2z (Z.testbit x (Z.of_nat l))) <$> seq 0 (Z.to_nat (K T))).
Proof.
  intros (c & Hs & Hc & <-). apply tvec_intro.
  - intros i. rewrite tget_fmap, Hs, length_fmap, length_seq. apply from_share_length. split; apply Hc.
  - intros k y Hk. apply list_lookup_fmap_Some in Hk as (l & -> & Hl). apply lookup_seq in Hl as [-> Hl].
    exists (tof (fun i => mkShare (Z.b2z (Z.testbit (c @ i) (Z.of_nat k))) (Z.b2z (Z.testbit (c @ (prev_id i)) (Z.of_nat k))))).
    split.
    + intros i. rewrite tget_fmap, tget_tof, Hs. unfold vs_from_share. cbn [get_ab sa sb].
      rewrite !bit_iter_spec by apply Hc. rewrite lookup_zip_with, !list_lookup_fmap, lookup_seq_lt by done. done.
    + exists (tof (fun i => Z.b2z (Z.testbit (c @ i) (Z.of_nat k)))). split_and!.
      * intros i. rewrite !tget_tof. done.
      * intros i. rewrite tget_tof. apply valid_bit_intro.
      * unfold xor3. cbn. rewrite !Z.lxor_spec.
        by destruct (Z.testbit (at0 c) _), (Z.testbit (at1 c) _), (Z.testbit (at2 c) _).
Qed.

Lemma convert_to_bits_tvec v xs :
  tvec (shares_xor T) v xs ->
  tvec (shares_xor Bit) (convert_to_bits T <$> v)
    (concat ((fun x => (fun l => Z.b2z (Z.testbit x (Z.of_nat l))) <$> seq 0 (Z.to_nat (K T))) <$> xs)).
Proof.
  induction 1 as [|s v x xs Hs Hv IH]; [constructor|]. rewrite fmap_cons. cbn [concat].
  exact (tvec_app _ _ _ _ _ (from_share_bits s x Hs) IH).
Qed.
End ToBits.

Section VholdsBits.
Context {T : NetworkInt} {HT : NetworkIntOk T}.

(** Unpacking the words of a vector and keeping the first [len] bits. *)
Lemma vholds_bits n v f len :
  vholds (T:=T) n v f -> (len <= n * Z.to_nat (K T))%nat ->
  tvec (shares_xor Bit) (tof (fun i => vs_truncate (convert_to_bits T (v @ i)) len))
    ((fun e => Z.b2z (bit_at (Z.to_nat (K T)) f e)) <$> seq 0 len).
Proof.
  intros Hv Hl. unfold vholds in Hv. apply convert_to_bits_tvec in Hv.
  apply (tvec_take _ len) in Hv. unfold words in Hv. rewrite <- list_fmap_compose in Hv.
  rewrite (list_fmap_ext _ (fun j => (fun l => Z.b2z (f j l)) <$> seq 0 (Z.to_nat (K T)))) in Hv.
  - rewrite concat_blocks, <- fmap_take in Hv.
    replace (seq 0 len) with (take len (seq 0 (n * Z.to_nat (K T)))).
    + match type of Hv with tvec _ ?w _ => replace (tof _) with w; [done|] end.
      apply tri_ext. intros i. by rewrite !tget_fmap, tget_tof.
    + replace (n * Z.to_nat (K T))%nat with (len + (n * Z.to_nat (K T) - len))%nat by lia.
      rewrite seq_app. by rewrite take_app_length' by (by rewrite length_seq).
  - intros k j _. cbn. apply list_fmap_ext. intros k' l Hl'. apply lookup_seq in Hl' as [-> Hl'].
    rewrite Nat.add_0_l. destruct (word_of_spec (Z.to_nat (K T)) (f j)) as [_ ->].
    by rewrite (proj2 (Nat.ltb_lt _ _) Hl').
Qed.
End VholdsBits.

(** The AND protocols are correct: [and_many], [transposed_pack_and] and
    [and_many_grouped] return XOR shares of the bitwise AND of the shared words,
    for every two vectors, every two lists of vectors of matching lengths, and
    every list of groups, in one round of messages each. *)
Theorem and_protocols_correct (R : Rng) `{!RngOk R} ids sid (T : NetworkInt) `{!NetworkIntOk T} p q xss yss :
  tvec (tvec (shares_xor T)) p xss -> tvec (tvec (shares_xor T)) q yss ->
  length <$> xss = length <$> yss -> Z.of_nat (length (concat xss) * BYTES T) < 2 ^ 32 ->
  proto (R := R) ids sid (fun i => transposed_pack_and T (p @ i) (q @ i))
    (fun out => tvec (tvec (shares_xor T)) out (zip_with (zip_with Z.land) xss yss)) /\
  proto (R := R) ids sid (fun i => and_many_grouped T (zip (p @ i) (q @ i)))
    (fun out => tvec (tvec (shares_xor T)) out (zip_with (zip_with Z.land) xss yss)) /\
  proto (R := R) ids sid (fun i => and_many T (vs_flatten (p @ i)) (vs_flatten (q @ i)))
    (fun out => tvec (shares_xor T) out (zip_with Z.land (concat xss) (concat yss))).
Proof.
  intros Hp Hq Hl Hn. split_and!; [by apply transposed_pack_and_spec|by apply and_many_grouped_spec|].
  eapply proto_ext; [|apply (and_many_spec ids sid (concat (A:=Share) <$> p) (concat (A:=Share) <$> q) (concat xss) (concat yss))];
    [intros s i _; cbn beta; by rewrite !tget_fmap|by apply tvec_concat|by apply tvec_concat|by apply zip_land_concat|done].
Qed.

Lemma and_protocols_correct_witness :
  let p := tcons (dealt [Tri 12 1 2; Tri 7 7 7]) tnil in
  let q := tcons (dealt [Tri 10 0 0; Tri 1 2 4]) tnil in
  proto (R := counter_rng) demo_ids 0 (fun i => transposed_pack_and net_u16 (p @ i) (q @ i))
    (fun out => tvec (tvec (shares_xor u16)) out [[10; 7]]) /\
  proto (R := counter_rng) demo_ids 0 (fun i => and_many_grouped net_u16 (zip (p @ i) (q @ i)))
    (fun out => tvec (tvec (shares_xor u16)) out [[10; 7]]) /\
  proto (R := counter_rng) demo_ids 0 (fun i => and_many net_u16 (vs_flatten (p @ i)) (vs_flatten (q @ i)))
    (fun out => tvec (shares_xor u16) out [10; 7]).
Proof.
  apply (and_protocols_correct counter_rng demo_ids 0 net_u16 _ _ [[15; 7]] [[10; 7]]); [..|done|done].
  - constructor; [|constructor]. apply (dealt_xor u16 [Tri 12 1 2; Tri 7 7 7]). solve_valid3.
  - constructor; [|constructor]. apply (dealt_xor u16 [Tri 10 0 0; Tri 1 2 4]). solve_valid3.
Defined.
