(* ===== verification/Adder.v ===== *)
(** * Adders on bit-sliced shares: [ampc-actor-utils/src/protocol/binary.rs]

    [binary_add_2_get_msb] (the parallel-prefix tree, and the ripple-carry
    variant of the feature [ripple_carry_adder]) and
    [binary_add_3_get_two_carries]. *)

From S2P Require Import Prelude IntRing RingImpl Party Share VecShare Transpose Value Net Prf Proto Circuits Binary.
From stdpp Require Import option base list numbers strings gmap.
From Stdlib Require Import ZArith Lia.
Local Open Scope Z_scope.

Section Protocols.
Context {R : Rng}.

(** One reduction of the prefix tree: the entries of [temp_p] at odd positions
    are the propagates with even index, because [p0] has been dropped. *)
(* binary.rs:1421-1478 binary_add_2_get_msb (one reduction) *)
Definition prefix_reduce (T : NetworkInt) (temp_p temp_g : list VecShare)
    : M R (list VecShare * list VecShare) :=
  let odd := Nat.odd (length temp_g) in
  let '(temp_p, maybe_extra_p) := pop_odd odd temp_p in
  let '(temp_g, maybe_extra_g) := pop_odd odd temp_g in
  let even_p := odds temp_p in
  let odd_p_temp := evens temp_p in
  let new_p_len := length even_p in
  let even_p_with_even_g := even_p ++ evens temp_g in
  let odd_g := odds temp_g in
  let odd_p_doubled := tail odd_p_temp ++ odd_p_temp in
  tmp ← transposed_pack_and T even_p_with_even_g odd_p_doubled;
  mret (take new_p_len tmp ++ option_list maybe_extra_p,
        transposed_pack_xor T (drop new_p_len tmp) odd_g ++ option_list maybe_extra_g).

(* binary.rs:1418-1479 binary_add_2_get_msb (while loop) *)
Fixpoint prefix_loop (T : NetworkInt) (fuel : nat) (temp_p temp_g : list VecShare) : M R (list VecShare) :=
  if (length temp_g =? 1)%nat then mret temp_g
  else match fuel with
  | O => liftr (panic "out of fuel")
  | S fuel => '(temp_p, temp_g) ← prefix_reduce T temp_p temp_g; prefix_loop T fuel temp_p temp_g
  end.

(** Every reduction shrinks [temp_g], so its initial length is enough fuel. *)
(* binary.rs:1381-1487 binary_add_2_get_msb *)
Definition binary_add_2_get_msb (T : NetworkInt) (x1 x2 : list VecShare) : M R VecShare :=
  if negb (length x1 =? length x2)%nat then liftr (bail "Inputs have different length") else
  let p := transposed_pack_xor T x1 x2 in
  let a := removelast x1 in
  let b := removelast x2 in
  g ← transposed_pack_and T a b;
  msb_p ← liftr (ok_or (last p) "Not enough elements");
  let p := removelast p in
  temp_p ← liftr (if (length p =? 0)%nat then panic "range start index 1 out of range" else Ok (drop 1 p));
  temp_g ← prefix_loop T (length g) temp_p g;
  carry ← liftr (ok_or (last temp_g) "Should contain exactly 1 carry");
  mret (vs_xor T msb_p carry).

(** [for (a_, b_) in ..]: the ripple through the remaining bits. *)
Fixpoint ripple_loop (T : NetworkInt) (carry : VecShare) (ab : list (VecShare * VecShare)) : M R VecShare :=
  match ab with
  | [] => mret carry
  | (a_, b_) :: ab =>
      let a_ := vs_xor_assign T a_ carry in
      let b_ := vs_xor_assign T b_ carry in
      tmp_c ← and_many T a_ b_;
      ripple_loop T (vs_xor_assign T carry tmp_c) ab
  end.

(* binary.rs:1334-1375 binary_add_2_get_msb *)
Definition binary_add_2_get_msb_ripple (T : NetworkInt) (x1 x2 : list VecShare) : M R VecShare :=
  if negb (length x1 =? length x2)%nat then liftr (bail "Inputs have different length") else
  a_msb ← liftr (ok_or (last x1) "Not enough elements");
  b_msb ← liftr (ok_or (last x2) "Not enough elements");
  let a := removelast x1 in
  let b := removelast x2 in
  a0 ← liftr (index a 0);
  b0 ← liftr (index b 0);
  carry ← and_many T a0 b0;
  carry ← ripple_loop T carry (zip (drop 1 a) (drop 1 b));
  mret (vs_xor T (vs_xor T a_msb b_msb) carry).

(* binary.rs:359-438 binary_add_3_get_two_carries *)
Definition binary_add_3_get_two_carries (T : NetworkInt) (x1 x2 x3 : list VecShare) (truncate_len : nat)
    : M R (VecShare * VecShare) :=
  let len := length x1 in
  if negb (len =? length x2)%nat || negb (len =? length x3)%nat
  then liftr (bail "Inputs have different length") else
  if (len <? 16)%nat then liftr (bail "Input length should be at least 16") else
  let x2x3 := transposed_pack_xor_assign T x2 x3 in
  let s := transposed_pack_xor T x1 x2x3 in
  let x1x3 := transposed_pack_xor_assign T x1 x3 in
  c ← transposed_pack_and T x1x3 x2x3;
  let c := transposed_pack_xor_assign T c x3 in
  s1 ← liftr (index s 1);
  c0 ← liftr (index c 0);
  carry ← and_many T s1 c0;
  c_msb ← liftr (ok_or (last c) "Not enough elements");
  let c := removelast c in
  carry ← ripple_loop T carry (zip (drop 2 s) (drop 1 c));
  res2 ← and_many T c_msb carry;
  let c_msb := vs_xor_assign T c_msb carry in
  let res1 := vs_truncate (convert_to_bits T c_msb) truncate_len in
  let res2 := vs_truncate (convert_to_bits T res2) truncate_len in
  mret (res1, res2).
End Protocols.

(** ** Selecting planes *)

Lemma tvec_evens {A B} (P : tri A -> B -> Prop) v xs : tvec P v xs -> tvec P (evens (X:=A) <$> v) (evens xs).
Proof.
  revert v. induction xs as [|x|x y xs IH] using list_ind2; intros v Hv.
  - apply tvec_nil_inv in Hv as ->. constructor.
  - apply tvec_cons_inv in Hv as (s & w & -> & Hs & Hw). apply tvec_nil_inv in Hw as ->.
    constructor; [done|constructor].
  - apply tvec_cons_inv in Hv as (s & w & -> & Hs & Hw).
    apply tvec_cons_inv in Hw as (s' & w' & -> & Hs' & Hw').
    exact (tvec_cons P _ _ _ _ Hs (IH _ Hw')).
Qed.
Lemma tvec_odds {A B} (P : tri A -> B -> Prop) v xs : tvec P v xs -> tvec P (odds (X:=A) <$> v) (odds xs).
Proof.
  intros Hv. apply tvec_tail, tvec_evens in Hv. unfold odds.
  match goal with |- tvec _ ?v _ => match type of Hv with tvec _ ?v' _ => replace v with v'; [done|] end end.
  apply tri_ext. intros i. by rewrite !tget_fmap.
Qed.

Lemma tvec_pop_odd {A B} (P : tri A -> B -> Prop) b v xs :
  tvec P v xs ->
  tvec P (tof (fun i => (pop_odd b (v @ i)).1)) (pop_odd b xs).1 /\
  tvec P (tof (fun i => option_list (pop_odd b (v @ i)).2)) (option_list (pop_odd b xs).2).
Proof.
  intros Hv. unfold pop_odd. destruct b; cbn [fst snd].
  - split; [exact (tvec_removelast P _ _ Hv)|].
    apply (tvec_option P (tof (fun i => last (v @ i)))). destruct (last xs) as [x|] eqn:E.
    + destruct (tvec_last P v xs x Hv E) as (s & Hs & HP). exists s. split; [|done].
      intros i. by rewrite tget_tof.
    + intros i. rewrite tget_tof. apply last_None in E as ->. apply tvec_nil_inv in Hv as ->. by destruct i.
  - split; [by destruct v|constructor].
Qed.

Section Prefix.
Context {R : Rng} {HR : RngOk R} (ids : tri Identity) (sid : Z).
Context {T : NetworkInt} {HT : NetworkIntOk T} (n : nat).

Lemma pop_odd_length {X} b (l : list X) : b = false \/ l <> [] -> length (pop_odd b l).1 = (length l - Nat.b2n b)%nat.
Proof.
  intros H. unfold pop_odd. destruct b; cbn; [|lia]. destruct H as [|H]; [done|].
  destruct l as [|x l] using rev_ind; [done|]. rewrite removelast_app_one, length_app. cbn. lia.
Qed.

(** The sizes of the two operands of a reduction agree. *)
Lemma prefix_operands {X} (ps gs : list X) :
  length gs = S (length ps) -> (2 <= length gs)%nat ->
  let p := (pop_odd (Nat.odd (length gs)) ps).1 in
  let g := (pop_odd (Nat.odd (length gs)) gs).1 in
  length (odds p ++ evens g) = length (tail (evens p) ++ evens p) /\
  (length (odds p ++ evens g) <= length gs)%nat.
Proof.
  intros Hl H2 p g.
  assert (length g = (length gs - Nat.b2n (Nat.odd (length gs)))%nat) as Hg
    by (apply pop_odd_length; right; destruct gs; done || simpl in H2; lia).
  assert (length p = (length ps - Nat.b2n (Nat.odd (length gs)))%nat) as Hp.
  { apply pop_odd_length. destruct (Nat.odd (length gs)); [right|by left]. destruct ps; [simpl in Hl; lia|done]. }
  assert (exists m, length g = (2 * S m)%nat /\ length p = (2 * m + 1)%nat) as (m & Hgm & Hpm).
  { destruct (Nat.odd (length gs)) eqn:Ho; cbn [Nat.b2n] in *.
    - apply Nat.odd_spec in Ho as [k Hk]. exists (k - 1)%nat. lia.
    - assert (Nat.even (length gs) = true) as He by (rewrite <- Nat.negb_odd, Ho; done).
      apply Nat.even_spec in He as [k Hk]. exists (k - 1)%nat. lia. }
  assert (forall {Y} (l : list Y), length (tail l) = (length l - 1)%nat) as Htail by (intros Y [|]; cbn; lia).
  rewrite !length_app, Htail, length_odds, !length_evens, Hgm, Hpm.
  replace (2 * m + 1 + 1)%nat with ((m + 1) * 2)%nat by lia.
  replace (2 * m + 1)%nat with (m * 2 + 1)%nat by lia.
  replace (2 * S m + 1)%nat with ((m + 1) * 2 + 1)%nat by lia.
  rewrite !Nat.div_add_l, Nat.div_mul by lia. cbn [Nat.div Nat.divmod fst]. lia.
Qed.

Lemma prefix_reduce_spec p g fs gs :
  tvec (vholds (T:=T) n) p fs -> tvec (vholds (T:=T) n) g gs ->
  length gs = S (length fs) -> (2 <= length gs)%nat -> Z.of_nat (length gs * n * BYTES T) < 2 ^ 32 ->
  proto (R := R) ids sid (fun i => prefix_reduce T (p @ i) (g @ i))
    (fun out => tvec (vholds (T:=T) n) (fst <$> out) (prefix_step bf_and bf_xor fs gs).1 /\
                tvec (vholds (T:=T) n) (snd <$> out) (prefix_step bf_and bf_xor fs gs).2).
Proof.
  intros Hp Hg Hl H2 Hn. set (o := Nat.odd (length gs)).
  destruct (prefix_operands fs gs Hl H2) as [Hop Hle]. fold o in Hop, Hle.
  destruct (tvec_pop_odd _ o p fs Hp) as [Hp1 Hpe]. destruct (tvec_pop_odd _ o g gs Hg) as [Hg1 Hge].
  unfold prefix_step. fold o.
  set (p1 := tof (fun i => (pop_odd o (p @ i)).1)) in *. set (g1 := tof (fun i => (pop_odd o (g @ i)).1)) in *.
  set (pe := tof (fun i => option_list (pop_odd o (p @ i)).2)) in *.
  set (ge := tof (fun i => option_list (pop_odd o (g @ i)).2)) in *.
  destruct (pop_odd o fs) as [fs1 fe], (pop_odd o gs) as [gs1 gge]. cbn [fst snd] in *.
  pose proof (tvec_app _ _ _ _ _ (tvec_odds _ _ _ Hp1) (tvec_evens _ _ _ Hg1)) as HA.
  pose proof (tvec_app _ _ _ _ _ (tvec_tail _ _ _ (tvec_evens _ _ _ Hp1)) (tvec_evens _ _ _ Hp1)) as HB.
  set (A := tapp _ _) in HA. set (B := tapp _ _) in HB.
  apply (proto_ext ids sid _ (fun i => tmp ← transposed_pack_and T (A @ i) (B @ i);
    mret (take (length (odds fs1)) tmp ++ pe @ i,
          transposed_pack_xor T (drop (length (odds fs1)) tmp) (odds (g1 @ i)) ++ ge @ i))).
  { intros s i _. unfold prefix_reduce. rewrite (tvec_length _ _ _ i Hg). fold o.
    assert (length (odds fs1) = length (odds (p1 @ i))) as ->
      by (rewrite !length_odds; by rewrite (tvec_length _ _ _ i Hp1)).
    unfold A, B, tapp, p1, g1, pe, ge. rewrite !tget_tof, !tget_fmap, !tget_tof.
    destruct (pop_odd o (p @ i)) as [? ?], (pop_odd o (g @ i)) as [? ?]. done. }
  eapply proto_bind.
  { apply (planes_and ids sid n A _ B _ HA HB); [done|].
    eapply Z.le_lt_trans; [|exact Hn]. apply inj_le, Nat.mul_le_mono_r, Nat.mul_le_mono_r, Hle. }
  intros tmp Htmp.
  apply (proto_ext ids sid _ (fun i => mret ((tof (fun i => (take (length (odds fs1)) (tmp @ i) ++ pe @ i,
          transposed_pack_xor T (drop (length (odds fs1)) (tmp @ i)) (odds (g1 @ i)) ++ ge @ i))) @ i))).
  { intros s i _. by rewrite tget_tof. }
  apply proto_ret. split.
  - exact (tvec_app _ _ _ _ _ (tvec_take _ (length (odds fs1)) _ _ Htmp) Hpe).
  - pose proof (planes_xor n _ _ _ _ (tvec_drop _ (length (odds fs1)) _ _ Htmp) (tvec_odds _ _ _ Hg1)) as Hx.
    exact (tvec_app _ _ _ _ _ Hx Hge).
Qed.
End Prefix.

Section Add2.
Context {R : Rng} {HR : RngOk R} (ids : tri Identity) (sid : Z).
Context {T : NetworkInt} {HT : NetworkIntOk T} (n : nat).

Lemma prefix_loop_spec fuel p g fs gs :
  tvec (vholds (T:=T) n) p fs -> tvec (vholds (T:=T) n) g gs ->
  length gs = S (length fs) -> (length gs <= fuel)%nat -> Z.of_nat (length gs * n * BYTES T) < 2 ^ 32 ->
  proto (R := R) ids sid (fun i => prefix_loop T fuel (p @ i) (g @ i))
    (fun out => tvec (vholds (T:=T) n) out (prefix_pure bf_and bf_xor fuel fs gs)).
Proof.
  revert p g fs gs. induction fuel as [|fuel IH]; intros p g fs gs Hp Hg Hl Hf Hn; [lia|].
  cbn [prefix_pure]. destruct (Nat.eqb_spec (length gs) 1) as [H1|H1].
  - apply (proto_ext ids sid _ (fun i => mret (g @ i))); [|by apply proto_ret].
    intros s i _. cbn [prefix_loop]. by rewrite (tvec_length _ _ _ i Hg), H1.
  - apply (proto_ext ids sid _ (fun i => '(tp, tg) ← prefix_reduce T (p @ i) (g @ i); prefix_loop T fuel tp tg)).
    { intros s i _. cbn [prefix_loop]. by rewrite (tvec_length _ _ _ i Hg), (proj2 (Nat.eqb_neq _ _) H1). }
    destruct (prefix_step_length bf_and bf_xor fs gs Hl) as [Hl' Hlt]; [lia|].
    eapply proto_bind; [apply prefix_reduce_spec; done || lia|]. intros x [Hx1 Hx2].
    destruct (prefix_step bf_and bf_xor fs gs) as [fs' gs']. cbn [fst snd] in *.
    apply (proto_ext ids sid _ (fun i => prefix_loop T fuel ((fst <$> x) @ i) ((snd <$> x) @ i))).
    { intros s i _. rewrite !tget_fmap. by destruct (x @ i). }
    apply IH; [done..|lia|]. eapply Z.le_lt_trans; [|exact Hn].
    apply inj_le, Nat.mul_le_mono_r, Nat.mul_le_mono_r. lia.
Qed.
(** The value of bit position ([j], [l]) in the planes [fs], plane [b] being
    bit [b]. *)
Definition lane (fs : list bitfun) (j l : nat) : Z := of_bits ((fun f => f j l) <$> fs).

Lemma prefix_planes_carry fs gs f0 g0 :
  length fs = length gs ->
  exists c : bitfun,
    prefix_pure bf_and bf_xor (length (zip_with bf_and (f0 :: fs) (g0 :: gs)))
      (drop 1 (zip_with bf_xor (f0 :: fs) (g0 :: gs))) (zip_with bf_and (f0 :: fs) (g0 :: gs)) = [c] /\
    forall j l, c j l = carry_out false ((fun f => f j l) <$> f0 :: fs) ((fun f => f j l) <$> g0 :: gs).
Proof.
  intros Hl.
  assert (forall j l, (fun f : bitfun => f j l) <$>
    prefix_pure bf_and bf_xor (length (zip_with bf_and (f0 :: fs) (g0 :: gs)))
      (drop 1 (zip_with bf_xor (f0 :: fs) (g0 :: gs))) (zip_with bf_and (f0 :: fs) (g0 :: gs))
    = [carry_out false ((fun f => f j l) <$> f0 :: fs) ((fun f => f j l) <$> g0 :: gs)]) as H.
  { intros j l. rewrite <- (prefix_pure_hom (fun f : bitfun => f j l) bf_and bf_xor andb xorb) by done.
    cbn [zip_with drop length]. rewrite drop_0, fmap_cons.
    rewrite <- (zip_with_hom (fun f : bitfun => f j l) bf_xor xorb) by done.
    rewrite <- (zip_with_hom (fun f : bitfun => f j l) bf_and andb) by done.
    rewrite prefix_pure_carry.
    - rewrite !fmap_cons. rewrite <- carry_pg_adder. cbn [zip_with carry_pg].
      by rewrite andb_false_r, xorb_false_r.
    - rewrite !length_zip_with, !length_fmap. lia.
    - rewrite !length_zip_with, !length_fmap. lia. }
  pose proof (H 0 0)%nat as H0.
  destruct (prefix_pure _ _ _ _ _) as [|c [|? ?]] eqn:E; try done. exists c. split; [done|].
  intros j l. specialize (H j l). by injection H.
Qed.

(** The prefix adder returns the top bit of the sum, in every lane. *)
Lemma binary_add_2_spec p q fs gs :
  tvec (vholds (T:=T) n) p fs -> tvec (vholds (T:=T) n) q gs ->
  length fs = length gs -> (2 <= length fs)%nat -> Z.of_nat (length fs * n * BYTES T) < 2 ^ 32 ->
  proto (R := R) ids sid (fun i => binary_add_2_get_msb T (p @ i) (q @ i))
    (fun out => vholds (T:=T) n out
       (fun j l => Z.testbit (lane fs j l + lane gs j l) (Z.of_nat (length fs - 1)))).
Proof.
  intros Hp Hq Hl H2 Hn.
  pose proof (planes_xor n p fs q gs Hp Hq) as Hx.
  set (x := tof (fun i => transposed_pack_xor T (p @ i) (q @ i))) in Hx.
  apply (proto_ext ids sid _ (fun i =>
    g ← transposed_pack_and T ((removelast (A:=VecShare) <$> p) @ i) ((removelast (A:=VecShare) <$> q) @ i);
    msb_p ← liftr (ok_or (last (x @ i)) "Not enough elements");
    temp_p ← liftr (if (length (removelast (x @ i)) =? 0)%nat then panic "range start index 1 out of range"
                    else Ok (drop 1 (removelast (x @ i))));
    temp_g ← prefix_loop T (length g) temp_p g;
    carry ← liftr (ok_or (last temp_g) "Should contain exactly 1 carry");
    mret (vs_xor T msb_p carry))).
  { intros s i _. unfold binary_add_2_get_msb, x.
    rewrite (tvec_length _ _ _ i Hp), (tvec_length _ _ _ i Hq), Hl, Nat.eqb_refl, tget_tof, !tget_fmap. done. }
  destruct fs as [|f fs _] using rev_ind; [simpl in H2; lia|].
  destruct gs as [|g gs _] using rev_ind; [rewrite length_app in Hl; simpl in Hl; lia|].
  rewrite length_app in H2. rewrite (length_app fs), (length_app gs) in Hl. cbn in Hl, H2. assert (length fs = length gs) as Hl' by lia.
  destruct fs as [|f0 fs]; [simpl in H2; lia|]. destruct gs as [|g0 gs]; [done|].
  rewrite zip_with_app in Hx by done. cbn [zip_with app] in Hx.
  pose proof (tvec_removelast _ _ _ Hp) as Hp'. pose proof (tvec_removelast _ _ _ Hq) as Hq'.
  rewrite removelast_app_one in Hp', Hq'.
  pose proof (tvec_removelast _ _ _ Hx) as Hx'.
  change (bf_xor f0 g0 :: zip_with bf_xor fs gs ++ [bf_xor f g])
    with ((bf_xor f0 g0 :: zip_with bf_xor fs gs) ++ [bf_xor f g]) in Hx, Hx'.
  rewrite removelast_app_one in Hx'.
  destruct (tvec_last _ _ _ (bf_xor f g) Hx) as (xm & Hxm & Hm); [apply last_snoc|].
  injection Hl' as Hl'. destruct (prefix_planes_carry fs gs f0 g0 Hl') as (c & Hc & Hcv).
  eapply proto_bind.
  { apply (planes_and ids sid n _ _ _ _ Hp' Hq'); [cbn; congruence|].
    eapply Z.le_lt_trans; [|exact Hn]. apply inj_le, Nat.mul_le_mono_r, Nat.mul_le_mono_r.
    rewrite length_app. cbn. lia. }
  intros gg Hgg. eapply proto_bind.
  { apply (proto_liftr ids sid _ xm (fun v => vholds (T:=T) n v (bf_xor f g))); [intros i; by rewrite Hxm|exact Hm]. }
  intros m Hm'. eapply proto_bind.
  { apply (proto_liftr ids sid _ (drop 1 <$> (removelast (A:=VecShare) <$> x))
       (fun v => tvec (vholds (T:=T) n) v (drop 1 (zip_with bf_xor (f0 :: fs) (g0 :: gs)))));
      [|by apply tvec_drop].
    intros i. pose proof (tvec_length _ _ _ i Hx') as HL. rewrite tget_fmap in HL. rewrite !tget_fmap, HL. done. }
  intros tp Htp. eapply proto_bind.
  { apply (proto_ext ids sid _ (fun i => prefix_loop T (length (zip_with bf_and (f0 :: fs) (g0 :: gs))) (tp @ i) (gg @ i))).
    { intros s i _. by rewrite (tvec_length _ _ _ i Hgg). }
    apply prefix_loop_spec; [exact Htp|exact Hgg| |lia|].
    - cbn [zip_with drop length]. by rewrite drop_0, !length_zip_with.
    - eapply Z.le_lt_trans; [|exact Hn]. apply inj_le, Nat.mul_le_mono_r, Nat.mul_le_mono_r.
      rewrite length_zip_with, length_app. cbn. lia. }
  rewrite Hc. intros tg Htg. apply tvec_cons_inv in Htg as (cs & w & -> & Hcs & Hw).
  apply tvec_nil_inv in Hw as ->. eapply proto_bind.
  { apply (proto_liftr ids sid _ cs (fun v => vholds (T:=T) n v c)); [|done].
    intros i. unfold tcons, tnil. by rewrite !tget_tof. }
  intros cr Hcr.
  apply (proto_ext ids sid _ (fun i => mret ((tof (fun i => vs_xor T (m @ i) (cr @ i))) @ i))).
  { intros s i _. by rewrite tget_tof. }
  apply proto_ret. eapply vholds_ext; [|exact (vholds_xor n _ _ _ _ Hm' Hcr)].
  intros j l _ _.
  assert (forall (h : bitfun) hs, lane (hs ++ [h]) j l = of_bits (((fun f => f j l) <$> hs) ++ [h j l])) as Hlane
    by (intros h hs; unfold lane; by rewrite fmap_app).
  rewrite !Hlane.
  replace (length ((f0 :: fs) ++ [f]) - 1)%nat with (length ((fun f => f j l) <$> f0 :: fs))
    by (rewrite length_app, length_fmap; cbn; lia).
  rewrite sum_bit by (rewrite !length_fmap; cbn [length]; congruence). unfold bf_xor at 1. by rewrite Hcv.
Qed.
End Add2.

(** ** Ripple carry *)

Section Ripple.
Context {R : Rng} {HR : RngOk R} (ids : tri Identity) (sid : Z).
Context {T : NetworkInt} {HT : NetworkIntOk T} (n : nat).
Hypothesis Hn : Z.of_nat (n * BYTES T) < 2 ^ 32.

(** The bits of one lane. *)
Definition lane_bits (fs : list bitfun) (j l : nat) : list bool := (fun f => f j l) <$> fs.

Lemma ripple_loop_spec c f p fs q gs :
  vholds (T:=T) n c f -> tvec (vholds (T:=T) n) p fs -> tvec (vholds (T:=T) n) q gs -> length fs = length gs ->
  proto (R := R) ids sid (fun i => ripple_loop T (c @ i) (zip (p @ i) (q @ i)))
    (fun out => vholds (T:=T) n out (fun j l => carry_out (f j l) (lane_bits fs j l) (lane_bits gs j l))).
Proof.
  intros Hc Hp. revert c f Hc q gs. induction Hp as [|a p x fs Ha Hp IH]; intros c f Hc q gs Hq Hl.
  { apply (proto_ext ids sid _ (fun i => mret (c @ i))); [by intros s []|]. apply proto_ret.
    eapply vholds_ext; [|exact Hc]. done. }
  destruct gs as [|y gs]; [done|]. injection Hl as Hl.
  apply tvec_cons_inv in Hq as (b & q' & -> & Hb & Hq).
  pose proof (vholds_xor_assign n _ _ _ _ Ha Hc) as Hac. pose proof (vholds_xor_assign n _ _ _ _ Hb Hc) as Hbc.
  set (ac := tof _) in Hac. set (bc := tof _) in Hbc.
  apply (proto_ext ids sid _ (fun i => tmp_c ← and_many T (ac @ i) (bc @ i);
    ripple_loop T (vs_xor_assign T (c @ i) tmp_c) (zip (p @ i) (q' @ i)))).
  { intros s i _. unfold ac, bc, tcons. rewrite !tget_tof. done. }
  eapply proto_bind; [by apply (and_many_vholds ids sid n _ _ _ _ Hac Hbc)|]. intros t Ht.
  pose proof (vholds_xor_assign n _ _ _ _ Hc Ht) as Hct.
  apply (proto_ext ids sid _ (fun i => ripple_loop T ((tof (fun i => vs_xor_assign T (c @ i) (t @ i))) @ i)
    (zip (p @ i) (q' @ i)))); [intros s i _; by rewrite tget_tof|].
  eapply proto_mono; [|apply (IH _ _ Hct _ gs Hq Hl)]. intros out Hout.
  eapply vholds_ext; [|exact Hout]. intros j l _ _. unfold lane_bits. rewrite !fmap_cons. cbn [carry_out].
  f_equal. unfold bf_xor, bf_and. by destruct (x j l), (y j l), (f j l).
Qed.

Lemma tvec_index {A B} (P : tri A -> B -> Prop) v xs k x :
  tvec P v xs -> xs !! k = Some x ->
  exists s, (forall i, index (v @ i) k = Ok (s @ i)) /\ P s x.
Proof.
  intros Hv Hx. destruct (tvec_lookup P v xs k x Hv Hx) as (s & Hs & HP). exists s. split; [|done].
  intros i. unfold index. by rewrite Hs.
Qed.

Lemma tvec_ok_last {A B} (P : tri A -> B -> Prop) msg v xs x :
  tvec P v xs -> last xs = Some x ->
  exists s, (forall i, ok_or (last (v @ i)) msg = Ok (s @ i)) /\ P s x.
Proof.
  intros Hv Hx. destruct (tvec_last P v xs x Hv Hx) as (s & Hs & HP). exists s. split; [|done].
  intros i. by rewrite Hs.
Qed.

(** The first carry is the AND of the lowest bits; the rest ripples. *)
Lemma ripple_from_spec {A} p q f fs g gs (k : PartyID -> VecShare -> M R A) Q :
  tvec (vholds (T:=T) n) p (f :: fs) -> tvec (vholds (T:=T) n) q (g :: gs) -> length fs = length gs ->
  (forall c, vholds (T:=T) n c
       (fun j l => carry_out false (lane_bits (f :: fs) j l) (lane_bits (g :: gs) j l)) ->
     proto ids sid (fun i => k i (c @ i)) Q) ->
  proto ids sid (fun i => a0 ← liftr (index (p @ i) 0); b0 ← liftr (index (q @ i) 0);
     carry ← and_many T a0 b0;
     carry ← ripple_loop T carry (zip (drop 1 (p @ i)) (drop 1 (q @ i))); k i carry) Q.
Proof.
  intros Hp Hq Hl Hk.
  destruct (tvec_index _ _ _ 0 f Hp eq_refl) as (a & Ha & Hfa).
  destruct (tvec_index _ _ _ 0 g Hq eq_refl) as (b & Hb & Hgb).
  eapply proto_bind; [by apply (proto_liftr ids sid _ a (fun v => vholds (T:=T) n v f))|]. intros a' Ha'.
  eapply proto_bind; [by apply (proto_liftr ids sid _ b (fun v => vholds (T:=T) n v g))|]. intros b' Hb'.
  eapply proto_bind; [by apply (and_many_vholds ids sid n _ _ _ _ Ha' Hb')|]. intros c Hc.
  eapply (proto_bind ids sid (fun i => ripple_loop T (c @ i) (zip (drop 1 (p @ i)) (drop 1 (q @ i))))).
  - apply (proto_ext ids sid _ (fun i => ripple_loop T (c @ i) (zip ((drop 1 <$> p) @ i) ((drop 1 <$> q) @ i))));
      [intros s i _; by rewrite !tget_fmap|].
    apply (ripple_loop_spec c _ _ fs _ gs Hc); [|..|done];
      [exact (tvec_drop _ 1 _ _ Hp)|exact (tvec_drop _ 1 _ _ Hq)].
  - intros x Hx. apply Hk. eapply vholds_ext; [|exact Hx]. intros j l _ _. unfold lane_bits.
    rewrite !fmap_cons. cbn [carry_out]. unfold bf_and. by rewrite andb_false_l, xorb_false_r.
Qed.
End Ripple.

(** The top bit of a sum, from the top bits and the carry of the rest. *)
Lemma lane_msb fs gs f g j l :
  length fs = length gs ->
  Z.testbit (lane (fs ++ [f]) j l + lane (gs ++ [g]) j l) (Z.of_nat (length (fs ++ [f]) - 1))
  = xorb (xorb (f j l) (g j l)) (carry_out false (lane_bits fs j l) (lane_bits gs j l)).
Proof.
  intros Hl. unfold lane. rewrite !fmap_app. cbn [fmap list_fmap].
  replace (length (fs ++ [f]) - 1)%nat with (length (lane_bits fs j l))
    by (unfold lane_bits; rewrite length_app, length_fmap; cbn; lia).
  apply sum_bit. unfold lane_bits. rewrite !length_fmap. done.
Qed.

(** Two nonempty lists of planes of one length, seen from the end. *)
Lemma split_last2 {A} (fs gs : list A) :
  length fs = length gs -> (1 <= length fs)%nat ->
  exists fs' f gs' g, fs = fs' ++ [f] /\ gs = gs' ++ [g] /\ length fs' = length gs'.
Proof.
  intros Hl H1. destruct fs as [|f fs _] using rev_ind; [simpl in H1; lia|].
  destruct gs as [|g gs _] using rev_ind; [rewrite length_app in Hl; simpl in Hl; lia|].
  exists fs, f, gs, g. split_and!; [done..|]. rewrite (length_app fs), (length_app gs) in Hl. simpl in Hl. lia.
Qed.

Section Add2Ripple.
Context {R : Rng} {HR : RngOk R} (ids : tri Identity) (sid : Z).
Context {T : NetworkInt} {HT : NetworkIntOk T} (n : nat).

Lemma binary_add_2_ripple_spec p q fs gs :
  tvec (vholds (T:=T) n) p fs -> tvec (vholds (T:=T) n) q gs ->
  length fs = length gs -> (2 <= length fs)%nat -> Z.of_nat (n * BYTES T) < 2 ^ 32 ->
  proto (R := R) ids sid (fun i => binary_add_2_get_msb_ripple T (p @ i) (q @ i))
    (fun out => vholds (T:=T) n out
       (fun j l => Z.testbit (lane fs j l + lane gs j l) (Z.of_nat (length fs - 1)))).
Proof.
  intros Hp Hq Hl H2 Hn. destruct (split_last2 fs gs Hl) as (fs' & f & gs' & g & -> & -> & Hl'); [lia|].
  destruct fs' as [|f0 fs]; [simpl in H2; lia|]. destruct gs' as [|g0 gs]; [done|].
  destruct (tvec_ok_last _ "Not enough elements" _ _ f Hp) as (am & Ham & Hf); [apply last_snoc|].
  destruct (tvec_ok_last _ "Not enough elements" _ _ g Hq) as (bm & Hbm & Hg); [apply last_snoc|].
  pose proof (tvec_removelast _ _ _ Hp) as Hp'. pose proof (tvec_removelast _ _ _ Hq) as Hq'.
  rewrite removelast_app_one in Hp', Hq'.
  set (a := removelast (A:=VecShare) <$> p) in Hp'. set (b := removelast (A:=VecShare) <$> q) in Hq'.
  apply (proto_ext ids sid _ (fun i =>
    a_msb ← liftr (ok_or (last (p @ i)) "Not enough elements");
    b_msb ← liftr (ok_or (last (q @ i)) "Not enough elements");
    a0 ← liftr (index (a @ i) 0); b0 ← liftr (index (b @ i) 0);
    carry ← and_many T a0 b0; carry ← ripple_loop T carry (zip (drop 1 (a @ i)) (drop 1 (b @ i)));
    mret (vs_xor T (vs_xor T a_msb b_msb) carry))).
  { intros s i _. unfold binary_add_2_get_msb_ripple, a, b.
    by rewrite (tvec_length _ _ _ i Hp), (tvec_length _ _ _ i Hq), Hl, Nat.eqb_refl, !tget_fmap. }
  eapply proto_bind; [by apply (proto_liftr ids sid _ am (fun v => vholds (T:=T) n v f))|]. intros xm Hxm.
  eapply proto_bind; [by apply (proto_liftr ids sid _ bm (fun v => vholds (T:=T) n v g))|]. intros ym Hym.
  apply (ripple_from_spec ids sid n Hn a b f0 fs g0 gs
    (fun i carry => mret (vs_xor T (vs_xor T (xm @ i) (ym @ i)) carry))); [done..|cbn in Hl'; lia|].
  intros c Hc. pose proof (vholds_xor n _ _ _ _ (vholds_xor n _ _ _ _ Hxm Hym) Hc) as Hr.
  apply (proto_ext ids sid _ (fun i => mret ((tof (fun i => vs_xor T ((tof (fun i => vs_xor T (xm @ i) (ym @ i))) @ i) (c @ i))) @ i)));
    [intros s i _; by rewrite !tget_tof|].
  apply proto_ret. eapply vholds_ext; [|exact Hr]. intros j l _ _. by rewrite lane_msb.
Qed.
End Add2Ripple.

(** ** The two carries of three summands *)

Definition lane3 (f1 f2 f3 : list bitfun) (j l : nat) : Z := lane f1 j l + lane f2 j l + lane f3 j l.

Definition csa_s (f1 f2 f3 : list bitfun) : list bitfun := zip_with bf_xor f1 (zip_with bf_xor f2 f3).
Definition csa_c (f1 f2 f3 : list bitfun) : list bitfun :=
  zip_with bf_xor (zip_with bf_and (zip_with bf_xor f1 f3) (zip_with bf_xor f2 f3)) f3.

Lemma csa_lanes f1 f2 f3 j l :
  lane_bits (csa_s f1 f2 f3) j l = csa_sum (lane_bits f1 j l) (lane_bits f2 j l) (lane_bits f3 j l) /\
  lane_bits (csa_c f1 f2 f3) j l = csa_carry (lane_bits f1 j l) (lane_bits f2 j l) (lane_bits f3 j l).
Proof.
  unfold lane_bits, csa_s, csa_c, csa_sum, csa_carry, zip3. revert f2 f3.
  induction f1 as [|a f1 IH]; intros [|b f2] [|c f3]; try done.
  destruct (IH f2 f3) as [H1 H2]. rewrite !fmap_cons. cbn [zip_with]. by rewrite !fmap_cons, H1, H2.
Qed.

Lemma length_csa f1 f2 f3 :
  length f1 = length f2 -> length f1 = length f3 ->
  length (csa_s f1 f2 f3) = length f1 /\ length (csa_c f1 f2 f3) = length f1.
Proof. intros H2 H3. unfold csa_s, csa_c. rewrite !length_zip_with. lia. Qed.

Lemma lane_two_carries f1 f2 f3 s0 s m mm j l :
  length f1 = length f2 -> length f1 = length f3 ->
  csa_s f1 f2 f3 = s0 :: s -> csa_c f1 f2 f3 = m ++ [mm] ->
  let cr := carry_out false (lane_bits s j l) (lane_bits m j l) in
  Z.testbit (lane3 f1 f2 f3 j l) (Z.of_nat (length f1)) = xorb (mm j l) cr /\
  Z.testbit (lane3 f1 f2 f3 j l) (Z.of_nat (S (length f1))) = mm j l && cr.
Proof.
  intros H2 H3 Hs Hm. destruct (csa_lanes f1 f2 f3 j l) as [Ls Lm]. rewrite Hs in Ls. rewrite Hm in Lm.
  symmetry in Ls, Lm. unfold lane_bits in Lm at 4. rewrite fmap_app in Lm.
  assert (forall f, length (lane_bits f j l) = length f) as Hlen by (intros f; apply length_fmap).
  destruct (two_carries (lane_bits f1 j l) (lane_bits f2 j l) (lane_bits f3 j l) (s0 j l) (lane_bits s j l)
    (lane_bits m j l) (mm j l)) as [G1 G2]; [by rewrite !Hlen..|done|done|].
  rewrite Hlen in G1, G2. done.
Qed.

Section Add3.
Context {R : Rng} {HR : RngOk R} (ids : tri Identity) (sid : Z).
Context {T : NetworkInt} {HT : NetworkIntOk T} (n : nat).

(** The carry-save step: one round of ANDs. *)
Lemma carry_save_spec {A} p1 p2 p3 f1 f2 f3 (k : PartyID -> list VecShare -> list VecShare -> M R A) Q :
  tvec (vholds (T:=T) n) p1 f1 -> tvec (vholds (T:=T) n) p2 f2 -> tvec (vholds (T:=T) n) p3 f3 ->
  length f1 = length f2 -> length f1 = length f3 -> Z.of_nat (length f1 * n * BYTES T) < 2 ^ 32 ->
  (forall s c, tvec (vholds (T:=T) n) s (csa_s f1 f2 f3) -> tvec (vholds (T:=T) n) c (csa_c f1 f2 f3) ->
     proto ids sid (fun i => k i (s @ i) (c @ i)) Q) ->
  proto ids sid (fun i =>
    let x2x3 := transposed_pack_xor_assign T (p2 @ i) (p3 @ i) in
    let s := transposed_pack_xor T (p1 @ i) x2x3 in
    let x1x3 := transposed_pack_xor_assign T (p1 @ i) (p3 @ i) in
    c ← transposed_pack_and T x1x3 x2x3;
    k i s (transposed_pack_xor_assign T c (p3 @ i))) Q.
Proof.
  intros H1 H2 H3 Hl2 Hl3 Hn Hk.
  assert (length f2 = length f3) as Hl23 by congruence.
  pose proof (planes_xor_assign n _ _ _ _ Hl23 H2 H3) as H23.
  pose proof (planes_xor_assign n _ _ _ _ Hl3 H1 H3) as H13.
  pose proof (planes_xor n _ _ _ _ H1 H23) as Hs.
  set (x23 := tof _) in H23, Hs. set (x13 := tof _) in H13. set (s := tof _) in Hs.
  apply (proto_ext ids sid _ (fun i => c ← transposed_pack_and T (x13 @ i) (x23 @ i);
    k i (s @ i) (transposed_pack_xor_assign T c (p3 @ i)))).
  { intros ss i _. unfold s, x13, x23. by rewrite !tget_tof. }
  eapply proto_bind.
  { apply (planes_and ids sid n _ _ _ _ H13 H23); [rewrite !length_zip_with; lia|].
    rewrite length_zip_with, Hl3, Nat.min_id, <- Hl3. done. }
  intros c Hc. apply (planes_xor_assign n _ _ p3 f3) in Hc as Hc'; [|rewrite !length_zip_with; lia|exact H3].
  eapply proto_ext; [|exact (Hk _ _ Hs Hc')]. intros ss i _. cbn beta. by rewrite tget_tof.
Qed.

Lemma binary_add_3_spec p1 p2 p3 f1 f2 f3 len :
  tvec (vholds (T:=T) n) p1 f1 -> tvec (vholds (T:=T) n) p2 f2 -> tvec (vholds (T:=T) n) p3 f3 ->
  length f1 = length f2 -> length f1 = length f3 -> (16 <= length f1)%nat ->
  Z.of_nat (length f1 * n * BYTES T) < 2 ^ 32 -> (len <= n * Z.to_nat (K T))%nat ->
  proto (R := R) ids sid (fun i => binary_add_3_get_two_carries T (p1 @ i) (p2 @ i) (p3 @ i) len)
    (fun out =>
       let bit k := (fun e => Z.b2z (bit_at (Z.to_nat (K T)) (fun j l => Z.testbit (lane3 f1 f2 f3 j l) (Z.of_nat k)) e)) <$> seq 0 len in
       tvec (shares_xor Bit) (fst <$> out) (bit (length f1)) /\
       tvec (shares_xor Bit) (snd <$> out) (bit (S (length f1)))).
Proof.
  intros H1 H2 H3 Hl2 Hl3 H16 Hn Hlen.
  assert (Z.of_nat (n * BYTES T) < 2 ^ 32) as Hn1.
  { eapply Z.le_lt_trans; [|exact Hn]. apply inj_le. rewrite <- Nat.mul_assoc.
    destruct (length f1) as [|m]; [lia|]. cbn. lia. }
  apply (proto_ext ids sid _ (fun i =>
    let x2x3 := transposed_pack_xor_assign T (p2 @ i) (p3 @ i) in
    let s := transposed_pack_xor T (p1 @ i) x2x3 in
    let x1x3 := transposed_pack_xor_assign T (p1 @ i) (p3 @ i) in
    c ← transposed_pack_and T x1x3 x2x3;
    let c := transposed_pack_xor_assign T c (p3 @ i) in
    s1 ← liftr (index s 1); c0 ← liftr (index c 0); carry ← and_many T s1 c0;
    c_msb ← liftr (ok_or (last c) "Not enough elements");
    carry ← ripple_loop T carry (zip (drop 2 s) (drop 1 (removelast c)));
    res2 ← and_many T c_msb carry;
    mret (vs_truncate (convert_to_bits T (vs_xor_assign T c_msb carry)) len,
          vs_truncate (convert_to_bits T res2) len))).
  { intros s i _. unfold binary_add_3_get_two_carries.
    rewrite (tvec_length _ _ _ i H1), (tvec_length _ _ _ i H2), (tvec_length _ _ _ i H3), <- Hl2, <- Hl3.
    rewrite Nat.eqb_refl, (proj2 (Nat.ltb_ge _ _) H16). done. }
  apply (carry_save_spec p1 p2 p3 f1 f2 f3 (fun i s c =>
    s1 ← liftr (index s 1); c0 ← liftr (index c 0); carry ← and_many T s1 c0;
    c_msb ← liftr (ok_or (last c) "Not enough elements");
    carry ← ripple_loop T carry (zip (drop 2 s) (drop 1 (removelast c)));
    res2 ← and_many T c_msb carry;
    mret (vs_truncate (convert_to_bits T (vs_xor_assign T c_msb carry)) len,
          vs_truncate (convert_to_bits T res2) len))); [done..|].
  intros s c Hs Hc. destruct (length_csa f1 f2 f3 Hl2 Hl3) as [Ls Lc].
  pose proof (lane_two_carries f1 f2 f3) as Hcarry.
  destruct (csa_s f1 f2 f3) as [|s0 [|s1 s']]; [cbn in Ls; lia..|].
  destruct (csa_c f1 f2 f3) as [|cm cs _] using rev_ind; [cbn in Lc; lia|].
  destruct cs as [|c0 cs]; [cbn in Lc; lia|].
  destruct (tvec_index _ _ _ 1 s1 Hs eq_refl) as (a & Ha & Hfa).
  destruct (tvec_index _ _ _ 0 c0 Hc eq_refl) as (b & Hb & Hgb).
  destruct (tvec_ok_last _ "Not enough elements" _ _ cm Hc) as (m & Hm & Hfm); [apply last_snoc|].
  eapply proto_bind; [by apply (proto_liftr ids sid _ a (fun v => vholds (T:=T) n v s1))|]. intros a' Ha'.
  eapply proto_bind; [by apply (proto_liftr ids sid _ b (fun v => vholds (T:=T) n v c0))|]. intros b' Hb'.
  eapply proto_bind; [by apply (and_many_vholds ids sid n _ _ _ _ Ha' Hb')|]. intros cr Hcr.
  eapply proto_bind; [by apply (proto_liftr ids sid _ m (fun v => vholds (T:=T) n v cm))|]. intros m' Hm'.
  pose proof (tvec_drop _ 2 _ _ Hs) as Hs2.
  pose proof (tvec_drop _ 1 _ _ (tvec_removelast _ _ _ Hc)) as Hc1. rewrite removelast_app_one in Hc1.
  cbn [drop] in Hs2, Hc1. rewrite drop_0 in Hs2, Hc1.
  eapply proto_bind.
  { apply (proto_ext ids sid _ (fun i => ripple_loop T (cr @ i) (zip ((drop 2 <$> s) @ i)
      ((drop 1 <$> (removelast (A:=VecShare) <$> c)) @ i)))); [intros ss i _; by rewrite !tget_fmap|].
    apply (ripple_loop_spec ids sid n Hn1 cr _ _ s' _ cs Hcr Hs2 Hc1).
    rewrite length_app in Lc. cbn in Ls, Lc. lia. }
  intros co Hco. eapply proto_bind; [by apply (and_many_vholds ids sid n _ _ _ _ Hm' Hco)|]. intros r2 Hr2.
  pose proof (vholds_xor_assign n _ _ _ _ Hm' Hco) as Hr1.
  assert (forall j l, carry_out (bf_and s1 c0 j l) (lane_bits s' j l) (lane_bits cs j l)
    = carry_out false (lane_bits (s1 :: s') j l) (lane_bits (c0 :: cs) j l)) as Hco'.
  { intros j l. unfold lane_bits. rewrite !fmap_cons. cbn [carry_out]. by rewrite andb_false_l, xorb_false_r. }
  eapply vholds_ext in Hr1, Hr2; cycle 1.
  { intros j l _ _. unfold bf_and at 1. rewrite Hco'. symmetry. by apply (Hcarry s0 (s1 :: s') (c0 :: cs) cm). }
  { intros j l _ _. unfold bf_xor at 1. rewrite Hco'. symmetry. by apply (Hcarry s0 (s1 :: s') (c0 :: cs) cm). }
  apply (vholds_bits n _ _ len) in Hr1, Hr2; [|done..].
  eapply proto_ext; [|apply (proto_ret ids sid (tof (fun i =>
    (vs_truncate (convert_to_bits T ((tof (fun i => vs_xor_assign T (m' @ i) (co @ i))) @ i)) len,
     vs_truncate (convert_to_bits T (r2 @ i)) len)))); split; [exact Hr1|exact Hr2]].
  intros ss i _. cbn beta. by rewrite !tget_tof.
Qed.
End Add3.

(** ** Claims *)

(** Both two-input adders -- the parallel-prefix tree and the ripple-carry
    variant of the feature [ripple_carry_adder] -- return, in every bit lane,
    shares of the top bit of the sum of the two bit-sliced numbers; in
    particular they agree.  Any number of planes from two up is covered, odd
    widths included. *)
Theorem binary_add_2_correct (R : Rng) `{!RngOk R} ids sid (T : NetworkInt) `{!NetworkIntOk T} n p q fs gs :
  tvec (vholds (T:=T) n) p fs -> tvec (vholds (T:=T) n) q gs ->
  length fs = length gs -> (2 <= length fs)%nat -> Z.of_nat (length fs * n * BYTES T) < 2 ^ 32 ->
  let msb (j l : nat) := Z.testbit (lane fs j l + lane gs j l) (Z.of_nat (length fs - 1)) in
  proto (R := R) ids sid (fun i => binary_add_2_get_msb T (p @ i) (q @ i)) (fun out => vholds (T:=T) n out msb) /\
  proto (R := R) ids sid (fun i => binary_add_2_get_msb_ripple T (p @ i) (q @ i)) (fun out => vholds (T:=T) n out msb).
Proof.
  intros Hp Hq Hl H2 Hn msb. split; [by apply binary_add_2_spec|]. apply binary_add_2_ripple_spec; try done.
  eapply Z.le_lt_trans; [|exact Hn]. apply inj_le. rewrite <- Nat.mul_assoc.
  destruct (length fs) as [|m]; [lia|]. cbn. lia.
Qed.

(** The lanes of the numbers [xs], one per lane of a single word, as planes. *)
Definition demo_plane (x : Z) : bitfun := fun _ l => Z.testbit x (Z.of_nat l).

Lemma demo_vholds c :
  valid3 u16 c -> word_of 16 (demo_plane (xor3 c) 0) = xor3 c ->
  vholds (T:=net_u16) 1 (dealt [c]) (demo_plane (xor3 c)).
Proof.
  intros Vc Wc. unfold vholds, words. cbn [seq fmap list_fmap]. change (Z.to_nat (K net_u16)) with 16%nat.
  rewrite Wc. apply (dealt_xor u16 [c]). apply Forall_cons_2; [done|apply Forall_nil_2].
Qed.

Lemma tvec_replicate {A B} (P : tri A -> B -> Prop) s x m :
  P s x -> tvec P (tof (fun i => replicate m (s @ i))) (replicate m x).
Proof. intros H. induction m as [|m IH]; [constructor|]. exact (tvec_cons P _ _ _ _ H IH). Qed.

Lemma binary_add_2_correct_witness :
  let p := tcons (dealt [Tri 5 0 0]) (tcons (dealt [Tri 1 2 0]) (tcons (dealt [Tri 4 4 9]) tnil)) in
  let fs := [demo_plane 5; demo_plane 3; demo_plane 9] in
  let msb (j l : nat) := Z.testbit (lane fs j l + lane fs j l) 2 in
  proto (R := counter_rng) demo_ids 0 (fun i => binary_add_2_get_msb net_u16 (p @ i) (p @ i))
    (fun out => vholds (T:=net_u16) 1 out msb) /\
  proto (R := counter_rng) demo_ids 0 (fun i => binary_add_2_get_msb_ripple net_u16 (p @ i) (p @ i))
    (fun out => vholds (T:=net_u16) 1 out msb).
Proof.
  apply (binary_add_2_correct counter_rng demo_ids 0 net_u16 1 _ _ [demo_plane 5; demo_plane 3; demo_plane 9]
    [demo_plane 5; demo_plane 3; demo_plane 9]); [..|done|cbn; lia|done];
    (constructor; [apply (demo_vholds (Tri 5 0 0)); [intros []; vm_compute; done|reflexivity]|];
     constructor; [apply (demo_vholds (Tri 1 2 0)); [intros []; vm_compute; done|reflexivity]|];
     constructor; [apply (demo_vholds (Tri 4 4 9)); [intros []; vm_compute; done|reflexivity]|constructor]).
Defined.

(** The three-input adder returns the two carries: with [k] planes per
    summand, the first result shares bit [k] of the sum of the three bit-sliced
    numbers and the second shares bit [k + 1], one bit per lane in order, cut
    to the requested length. *)
Theorem binary_add_3_correct (R : Rng) `{!RngOk R} ids sid (T : NetworkInt) `{!NetworkIntOk T} n p1 p2 p3 f1 f2 f3 len :
  tvec (vholds (T:=T) n) p1 f1 -> tvec (vholds (T:=T) n) p2 f2 -> tvec (vholds (T:=T) n) p3 f3 ->
  length f1 = length f2 -> length f1 = length f3 -> (16 <= length f1)%nat ->
  Z.of_nat (length f1 * n * BYTES T) < 2 ^ 32 -> (len <= n * Z.to_nat (K T))%nat ->
  proto (R := R) ids sid (fun i => binary_add_3_get_two_carries T (p1 @ i) (p2 @ i) (p3 @ i) len)
    (fun out =>
       let bit k := (fun e => Z.b2z (bit_at (Z.to_nat (K T)) (fun j l => Z.testbit (lane3 f1 f2 f3 j l) (Z.of_nat k)) e)) <$> seq 0 len in
       tvec (shares_xor Bit) (fst <$> out) (bit (length f1)) /\
       tvec (shares_xor Bit) (snd <$> out) (bit (S (length f1)))).
Proof. intros. by apply (binary_add_3_spec ids sid n). Qed.

(** 16 equal planes of one word: the lanes are 0 or [2^16 - 1]. *)
Lemma binary_add_3_correct_witness :
  let p := tof (fun i => replicate 16 ((dealt [Tri 4 1 0]) @ i)) in
  let fs := replicate 16 (demo_plane 5) in
  proto (R := counter_rng) demo_ids 0 (fun i => binary_add_3_get_two_carries net_u16 (p @ i) (p @ i) (p @ i) 3)
    (fun out =>
       let bit k := (fun e => Z.b2z (bit_at 16 (fun j l => Z.testbit (lane3 fs fs fs j l) (Z.of_nat k)) e)) <$> seq 0 3 in
       tvec (shares_xor Bit) (fst <$> out) (bit 16%nat) /\ tvec (shares_xor Bit) (snd <$> out) (bit 17%nat)).
Proof.
  apply (binary_add_3_correct counter_rng demo_ids 0 net_u16 1 _ _ _
    (replicate 16 (demo_plane 5)) (replicate 16 (demo_plane 5)) (replicate 16 (demo_plane 5)) 3);
    try done; try (cbn; lia);
    (apply tvec_replicate, (demo_vholds (Tri 4 1 0)); [intros []; vm_compute; done|reflexivity]).
Defined.
