(* ===== verification/Inject.v ===== *)
(** * Bit injection: [ampc-actor-utils/src/protocol/binary.rs]

    [bit_inject] turns XOR shares of bits into arithmetic shares.  The three
    parties run different code; which party plays which part rotates with the
    session id.  Every part is proved to run against the other two, for each of
    the three rotations. *)

From S2P Require Import Prelude IntRing RingImpl Party Share VecShare Value Net Prf Proto.
From stdpp Require Import base list numbers strings gmap.
From Stdlib Require Import ZArith Lia.
Local Open Scope Z_scope.

(** [izip!] over three, four and five iterators. *)
Definition izip3 {A B C X} (f : A -> B -> C -> X) a b c : list X :=
  zip_with (fun g x => g x) (zip_with f a b) c.
Definition izip4 {A B C D X} (f : A -> B -> C -> D -> X) a b c d : list X :=
  zip_with (fun g x => g x) (izip3 f a b c) d.
Definition izip5 {A B C D E X} (f : A -> B -> C -> D -> E -> X) a b c d e : list X :=
  zip_with (fun g x => g x) (izip4 f a b c d) e.

Lemma izip5_fmap2 {A B B' B'' C D E X} (f : A -> B -> C -> D -> E -> X) (h : B' -> B) (g : B'' -> B') a v c d e :
  izip5 f a ((fun s => h (g s)) <$> v) c d e = izip5 (fun a b c d e => f a (h b) c d e) a (g <$> v) c d e.
Proof.
  unfold izip5, izip4, izip3. revert a c d e.
  induction v as [|b v IH]; intros [|a la] [|c lc] [|d ld] [|e le]; try done.
  rewrite !fmap_cons. cbn [zip_with]. f_equal. apply IH.
Qed.

(** A bit as an element of [T]. *)
Definition bit_elem (T : IntRing2k) (x : Z) : Z := if bit_convert x then re_one T else re_zero T.

Section Protocols.
Context {R : Rng}.

(* binary.rs:779-854 bit_inject_party0 *)
Definition bit_inject_party0 (T : NetworkInt) (input : VecShare) : M R VecShare :=
  let len := length input in
  let b2 := (fun bit_share => bit_elem T (sb bit_share)) <$> input in
  '(r_01, r_02) ← with_rng (gen_rands_batch R T len);
  y ← liftr (m ← vec_mul T r_01 b2; vec_sub T m r_02);
  _ ← net (fun n => send_ring_vec_next T n y);
  z ← net (fun n => receive_ring_vec_prev T n);
  mret (izip5 (fun s1a s2b s3a s3b s4b =>
      let s1 := share_new s1a (re_zero T) in
      let s2 := share_new (re_zero T) s2b in
      let s3 := share_new s3a s3b in
      let s4 := share_new (re_zero T) s4b in
      let sum12 := share_add T s1 s2 in
      let sum34 := share_add T s3 s4 in
      share_sub T (share_sub T sum12 sum34) sum34) r_01 b2 y r_02 z).

(* binary.rs:877-937 bit_inject_party1 *)
Definition bit_inject_party1 (T : NetworkInt) (input : VecShare) : M R VecShare :=
  let len := length input in
  r_01 ← with_rng (gen_rands_prev R T len);
  let x := zip_with (fun bit_share r =>
      let b0_xor_b1 := from_bool T (bit_convert (sa bit_share ^[Bit] sb bit_share)) in
      b0_xor_b1 ⊖[T] r) input r_01 in
  _ ← net (fun n => send_ring_vec_next T n x);
  y ← net (fun n => receive_ring_vec_prev T n);
  r_12 ← with_rng (gen_rands_mine R T len);
  mret (izip4 (fun s1a s1b s3b s4a =>
      let s1 := share_new s1a s1b in
      let s3 := share_new (re_zero T) s3b in
      let s4 := share_new s4a (re_zero T) in
      let sum34 := share_add T s3 s4 in
      share_sub T (share_sub T s1 sum34) sum34) x r_01 y r_12).

(* binary.rs:960-1034 bit_inject_party2 *)
Definition bit_inject_party2 (T : NetworkInt) (input : VecShare) : M R VecShare :=
  let len := length input in
  x ← net (fun n => receive_ring_vec_prev T n);
  r_02 ← with_rng (gen_rands_mine R T len);
  r_12 ← with_rng (gen_rands_prev R T len);
  let b2 := (fun bit_share => bit_elem T (sa bit_share)) <$> input in
  z ← liftr (m ← vec_mul T x b2; vec_sub T m r_12);
  _ ← net (fun n => send_ring_vec_next T n z);
  mret (izip5 (fun s1b s2a s3a s4a s4b =>
      let s1 := share_new (re_zero T) s1b in
      let s2 := share_new s2a (re_zero T) in
      let s3 := share_new s3a (re_zero T) in
      let s4 := share_new s4a s4b in
      let sum12 := share_add T s1 s2 in
      let sum34 := share_add T s3 s4 in
      share_sub T (share_sub T sum12 sum34) sum34) x b2 r_02 z r_12).

(** [(session.own_role().index() + session.session_id().0 as usize) % 3]. *)
Definition rotated_role (s : NetworkSession) : Z := (role_index (own_role s) + session_id s) mod 3.

(* binary.rs:733-751 bit_inject *)
Definition bit_inject (T : NetworkInt) (input : VecShare) : M R VecShare :=
  s ← get;
  let role_index := rotated_role (network_session s) in
  if Z.eqb role_index 0 then bit_inject_party0 T input
  else if Z.eqb role_index 1 then bit_inject_party1 T input
  else if Z.eqb role_index 2 then bit_inject_party2 T input
  else liftr (bail "Cannot deal with roles outside of the set [0, 1, 2] in bit_inject_ot").
End Protocols.

(** ** Rotations *)

(** The party that plays part 0 in session [sid]. *)
Definition rotation (sid : Z) : PartyID :=
  if Z.eqb (sid mod 3) 0 then ID0 else if Z.eqb (sid mod 3) 1 then ID2 else ID1.

Lemma rotated_role_party ids sid i n :
  ring_network ids sid i n ->
  rotated_role n = party_index (if decide (i = rotation sid) then ID0
                                else if decide (i = next_id (rotation sid)) then ID1 else ID2).
Proof.
  intros (Hr & Hs & _). unfold rotated_role, rotation. rewrite Hr, Hs, <- Zplus_mod_idemp_r.
  pose proof (Z.mod_pos_bound sid 3). set (x := sid mod 3) in *.
  assert (x = 0 \/ x = 1 \/ x = 2) as [-> | [-> | ->]] by lia; by destruct i.
Qed.

(** ** One bit *)

Section Scalar.
Context {T : NetworkInt} {HT : NetworkIntOk T}.

Definition inj_x (b0 b1 r01 : Z) : Z := from_bool T (bit_convert (b1 ^[Bit] b0)) ⊖[T] r01.
Definition inj_y (b2 r01 r02 : Z) : Z := (r01 *[T] bit_elem T b2) ⊖[T] r02.
Definition inj_z (b2 x r12 : Z) : Z := (x *[T] bit_elem T b2) ⊖[T] r12.

(** What the three parts compute for one bit with components [b0], [b1],
    [b2]. *)
Definition inj_out0 (b2 r01 r02 y z : Z) : Share :=
  let sum34 := share_add T (share_new y r02) (share_new (re_zero T) z) in
  share_sub T (share_sub T (share_add T (share_new r01 (re_zero T)) (share_new (re_zero T) (bit_elem T b2))) sum34) sum34.
Definition inj_out1 (r01 r12 x y : Z) : Share :=
  let sum34 := share_add T (share_new (re_zero T) y) (share_new r12 (re_zero T)) in
  share_sub T (share_sub T (share_new x r01) sum34) sum34.
Definition inj_out2 (b2 r02 r12 x z : Z) : Share :=
  let sum34 := share_add T (share_new r02 (re_zero T)) (share_new z r12) in
  share_sub T (share_sub T (share_add T (share_new (re_zero T) x) (share_new (bit_elem T b2) (re_zero T))) sum34) sum34.

Lemma bit_elem_eq b : bit_elem T (Z.b2z b) = Z.b2z b.
Proof. unfold bit_elem, re_one, re_zero. rewrite ir_one_eq, ir_zero_eq. by destruct b. Qed.

(** The three results share the XOR of the components. *)
Lemma inject_scalar (p0 : PartyID) (b : PartyID -> bool) r01 r02 r12 :
  valid T r01 -> valid T r02 -> valid T r12 ->
  let p1 := next_id p0 in let p2 := prev_id p0 in
  let b0 := Z.b2z (b p0) in let b1 := Z.b2z (b p1) in let b2 := Z.b2z (b p2) in
  let x := inj_x b0 b1 r01 in let y := inj_y b2 r01 r02 in let z := inj_z b2 x r12 in
  shares_add T
    (tof (fun i => if decide (i = p0) then inj_out0 b2 r01 r02 y z
                   else if decide (i = p1) then inj_out1 r01 r12 x y else inj_out2 b2 r02 r12 x z))
    (Z.b2z (xorb (xorb (b ID0) (b ID1)) (b ID2))).
Proof.
  intros V1 V2 V3 p1 p2 b0 b1 b2 x y z. assert (IntRing2kOk T) as HR by apply _.
  assert (from_bool T (bit_convert (b1 ^[Bit] b0)) = Z.b2z (xorb (b p0) (b p1))) as Ex.
  { rewrite ir_from_bool_eq. unfold b0, b1. by destruct (b p0), (b p1). }
  assert (valid T x) as Vx.
  { unfold x, inj_x. rewrite Ex. apply re_sub_valid; [apply valid_b2z|done]. }
  assert (valid T y) as Vy.
  { unfold y, inj_y, b2. rewrite bit_elem_eq. apply re_sub_valid; [apply re_mul_valid; [done|apply valid_b2z]|done]. }
  assert (valid T z) as Vz.
  { unfold z, inj_z, b2. rewrite bit_elem_eq. apply re_sub_valid; [apply re_mul_valid; [done|apply valid_b2z]|done]. }
  set (c0 := r01 ⊖[T] y ⊖[T] y). set (c1 := x ⊖[T] r12 ⊖[T] r12).
  set (c2 := Z.b2z (b p2) ⊖[T] (r02 +[T] z) ⊖[T] (r02 +[T] z)).
  pose proof (valid_b2z (T:=T) (b p2)) as Vb.
  assert (inj_out0 b2 r01 r02 y z = mkShare c0 c2) as ->.
  { unfold inj_out0, c0, c2, share_sub, share_add, b2. rewrite bit_elem_eq. cbn [share_new sa sb]. f_equal; ring_eq T. }
  assert (inj_out1 r01 r12 x y = mkShare c1 c0) as ->.
  { unfold inj_out1, c0, c1, share_sub, share_add. cbn [share_new sa sb]. f_equal; ring_eq T. }
  assert (inj_out2 b2 r02 r12 x z = mkShare c2 c1) as ->.
  { unfold inj_out2, c1, c2, share_sub, share_add, b2. rewrite bit_elem_eq. cbn [share_new sa sb]. f_equal; ring_eq T. }
  exists (tof (fun i => if decide (i = p0) then c0 else if decide (i = p1) then c1 else c2)).
  assert (valid T c0 /\ valid T c1 /\ valid T c2) as (C0 & C1 & C2) by (unfold c0, c1, c2; split_and!; eauto 10 with valid).
  split_and!.
  - intros i. unfold p1. by destruct i, p0.
  - intros i. rewrite tget_tof. repeat case_decide; done.
  - assert (c0 + c1 + c2 ==[2 ^ K T] Z.b2z (xorb (b p0) (b p1)) + Z.b2z (b p2)
        - 2 * (Z.b2z (xorb (b p0) (b p1)) * Z.b2z (b p2))) as Hsum.
    { assert (x ==[2 ^ K T] Z.b2z (xorb (b p0) (b p1)) - r01) as Hx by (unfold x, inj_x; rewrite Ex; ring_ceq).
      assert (y ==[2 ^ K T] r01 * Z.b2z (b p2) - r02) as Hy by (unfold y, inj_y, b2; rewrite bit_elem_eq; ring_ceq).
      assert (z ==[2 ^ K T] x * Z.b2z (b p2) - r12) as Hz by (unfold z, inj_z, b2; rewrite bit_elem_eq; ring_ceq).
      assert (c0 ==[2 ^ K T] r01 - y - y) as -> by (unfold c0; clearbody y; ring_ceq).
      assert (c1 ==[2 ^ K T] x - r12 - r12) as -> by (unfold c1; clearbody x; ring_ceq).
      assert (c2 ==[2 ^ K T] Z.b2z (b p2) - (r02 + z) - (r02 + z)) as -> by (unfold c2; clearbody z; ring_ceq).
      rewrite Hz, Hy, Hx. apply ceq_eq. ring. }
    unfold sum3. symmetry. apply ceq_mod_small; [apply valid_b2z|].
    transitivity (c0 + c1 + c2).
    + rewrite Hsum. apply ceq_eq. unfold p1, p2. destruct p0; cbn; by destruct (b ID0), (b ID1), (b ID2).
    + apply ceq_eq. clear. clearbody c0 c1 c2. unfold p1. destruct p0; cbn; repeat case_decide; try done; lia.
Qed.
End Scalar.

(** ** The run *)

(** One value per part, part 0 being played by [p0]. *)
Definition by_role {A} (p0 : PartyID) (a0 a1 a2 : A) : tri A :=
  tof (fun i => if decide (i = p0) then a0 else if decide (i = next_id p0) then a1 else a2).

Lemma by_role_0 {A} p0 (a0 a1 a2 : A) : (by_role p0 a0 a1 a2) @ p0 = a0.
Proof. by destruct p0. Qed.
Lemma by_role_1 {A} p0 (a0 a1 a2 : A) : (by_role p0 a0 a1 a2) @ (next_id p0) = a1.
Proof. by destruct p0. Qed.
Lemma by_role_2 {A} p0 (a0 a1 a2 : A) : (by_role p0 a0 a1 a2) @ (prev_id p0) = a2.
Proof. by destruct p0. Qed.
Lemma by_role_fmap {A B} (f : A -> B) p0 a0 a1 a2 :
  f <$> by_role p0 a0 a1 a2 = by_role p0 (f a0) (f a1) (f a2).
Proof. by destruct p0. Qed.

Section Run.
Context {R : Rng} {HR : RngOk R} (ids : tri Identity) (sid : Z).
Context {T : NetworkInt} {HT : NetworkIntOk T}.

(** [p0] and [p1] send to their successors, [p2] answers what [p1] sent. *)
Lemma wp_inject {A} (p0 : PartyID) (p : tri (proc A)) x y z k0 k0' k1 k1' k2 k2' o0 o1 o2 Q :
  let p1 := next_id p0 in let p2 := prev_id p0 in
  p @ p0 = Send (ids @ p1) y k0 -> k0 (Ok tt) = Recv (ids @ p2) k0' -> k0' (Ok z) = Ret o0 ->
  p @ p1 = Send (ids @ p2) x k1 -> k1 (Ok tt) = Recv (ids @ p0) k1' -> k1' (Ok y) = Ret o1 ->
  p @ p2 = Recv (ids @ p1) k2 -> k2 (Ok x) = Send (ids @ p0) z k2' -> k2' (Ok tt) = Ret o2 ->
  Q no_messages (by_role p0 o0 o1 o2) ->
  wp ids no_messages p Q.
Proof.
  intros p1 p2 E0 E0' E0'' E1 E1' E1'' E2 E2' E2'' HQ.
  eapply (wp_send _ _ _ p0 p1); [exact E0|].
  eapply (wp_send _ _ _ p1 p2); [rewrite tget_tset_ne by (by destruct p0); exact E1|].
  eapply (wp_recv _ _ _ p1 p0 y); [rewrite tget_tset; exact E1'|by destruct p0|].
  eapply (wp_recv _ _ _ p2 p1 x);
    [rewrite !tget_tset_ne by (by destruct p0); exact E2|by destruct p0|].
  eapply (wp_send _ _ _ p2 p0 z); [rewrite tget_tset; exact E2'|].
  eapply (wp_recv _ _ _ p0 p2 z);
    [rewrite !tget_tset_ne by (by destruct p0); rewrite tget_tset; exact E0'|by destruct p0|].
  rewrite E0'', E1'', E2''. match goal with |- wp _ ?ch ?q _ =>
    replace ch with no_messages by (by destruct p0);
    replace q with (Ret <$> (by_role p0 o0 o1 o2))
      by (by destruct p0) end.
  by apply wp_ret.
Qed.

Lemma by_role_in_ring p0 (s : tri (Session R)) (s0 s1 s2 : Session R) :
  in_ring ids sid s ->
  network_session s0 = network_session (s @ p0) ->
  network_session s1 = network_session (s @ (next_id p0)) ->
  network_session s2 = network_session (s @ (prev_id p0)) ->
  in_ring ids sid (by_role p0 s0 s1 s2).
Proof.
  intros H E0 E1 E2 i.
  assert (i = p0 \/ i = next_id p0 \/ i = prev_id p0) as [-> | [-> | ->]] by (destruct i, p0; auto);
    rewrite ?by_role_0, ?by_role_1, ?by_role_2, ?E0, ?E1, ?E2; apply H.
Qed.

(** The shape of each part's code, given its neighbours' addresses. *)
Ltac run_head := unfold mbind, M_bind, with_rng, gen_rands_batch, gen_rands_mine, gen_rands_prev; cbn.

Lemma party0_shape v s r01 g r02 g' y nx pv :
  next_identity (network_session s) = Ok nx -> prev_identity (network_session s) = Ok pv ->
  fill R T (length v) (my_prf (prf s)) = (r01, g) -> fill R T (length v) (prev_prf (prf s)) = (r02, g') ->
  (m ← vec_mul T r01 ((fun b => bit_elem T (sb b)) <$> v); vec_sub T m r02) = Ok y ->
  exists k k', bit_inject_party0 (R := R) T v s = Send nx (ring_vec_message T y) k /\
    k (Ok tt) = Recv pv k' /\
    forall m z, into_vec T m = Ok z -> k' (Ok m) = Ret (with_prf s (mkPrf g g'),
      izip5 (fun r01 b2 y r02 z => inj_out0 (T:=T) b2 r01 r02 y z) r01 (sb <$> v) y r02 z).
Proof.
  intros Hn Hp Hf Hf' Hy. eexists _, _. split; [|split].
  - unfold bit_inject_party0. run_head. rewrite Hf. cbn. rewrite Hf'. cbn. unfold mbind in Hy. rewrite Hy. cbn.
    unfold net. run_head. unfold send_ring_vec_next. rewrite Hn. cbn. reflexivity.
  - cbn. unfold receive_ring_vec_prev, receive_ring_vec. rewrite Hp. cbn. reflexivity.
  - intros m z Hm. cbn. rewrite Hm. cbn. unfold mret, M_ret.
    by rewrite (izip5_fmap2 _ (bit_elem T) sb).
Qed.

Lemma party1_shape v s r01 g' r12 g nx pv :
  next_identity (network_session s) = Ok nx -> prev_identity (network_session s) = Ok pv ->
  fill R T (length v) (prev_prf (prf s)) = (r01, g') -> fill R T (length v) (my_prf (prf s)) = (r12, g) ->
  let x := zip_with (fun b r => inj_x (T:=T) (sb b) (sa b) r) v r01 in
  exists k k', bit_inject_party1 (R := R) T v s = Send nx (ring_vec_message T x) k /\
    k (Ok tt) = Recv pv k' /\
    forall m y, into_vec T m = Ok y -> k' (Ok m) = Ret (with_prf s (mkPrf g g'),
      izip4 (fun x r01 y r12 => inj_out1 (T:=T) r01 r12 x y) x r01 y r12).
Proof.
  intros Hn Hp Hf Hf' x. eexists _, _. split; [|split].
  - unfold bit_inject_party1. run_head. rewrite Hf. cbn.
    unfold net. run_head. unfold send_ring_vec_next. rewrite Hn. cbn. reflexivity.
  - cbn. unfold receive_ring_vec_prev, receive_ring_vec. rewrite Hp. cbn. reflexivity.
  - intros m y Hm. cbn. rewrite Hm. cbn. rewrite Hf'. cbn. reflexivity.
Qed.

Lemma party2_shape v s r02 g r12 g' nx pv :
  next_identity (network_session s) = Ok nx -> prev_identity (network_session s) = Ok pv ->
  fill R T (length v) (my_prf (prf s)) = (r02, g) -> fill R T (length v) (prev_prf (prf s)) = (r12, g') ->
  exists k, bit_inject_party2 (R := R) T v s = Recv pv k /\
    forall m x z, into_vec T m = Ok x ->
      (p ← vec_mul T x ((fun b => bit_elem T (sa b)) <$> v); vec_sub T p r12) = Ok z ->
      exists k', k (Ok m) = Send nx (ring_vec_message T z) k' /\
        k' (Ok tt) = Ret (with_prf s (mkPrf g g'),
          izip5 (fun x b2 r02 z r12 => inj_out2 (T:=T) b2 r02 r12 x z) x (sa <$> v) r02 z r12).
Proof.
  intros Hn Hp Hf Hf'. eexists. split.
  - unfold bit_inject_party2, net. run_head. unfold receive_ring_vec_prev, receive_ring_vec.
    rewrite Hp. cbn. reflexivity.
  - intros m x z Hm Hz. unfold mbind in Hz. cbn. eexists. split.
    + rewrite Hm. cbn. rewrite Hf. cbn. rewrite Hf'. cbn. rewrite Hz. cbn.
      unfold send_ring_vec_next. rewrite Hn. cbn. reflexivity.
    + cbn. unfold mret, M_ret. by rewrite (izip5_fmap2 _ (bit_elem T) sa).
Qed.

Lemma tget_tcons {A} (s : tri A) v i : (tcons s v) @ i = s @ i :: v @ i.
Proof. by destruct i. Qed.

Lemma by_role_cons {A} p0 (x0 x1 x2 : A) l0 l1 l2 :
  by_role p0 (x0 :: l0) (x1 :: l1) (x2 :: l2) = tcons (by_role p0 x0 x1 x2) (by_role p0 l0 l1 l2).
Proof. by destruct p0. Qed.

Definition vec_y (r01 : list Z) (v0 : VecShare) (r02 : list Z) : list Z :=
  zip_with (re_sub T) (zip_with (re_mul T) r01 ((fun b => bit_elem T (sb b)) <$> v0)) r02.
Definition vec_x (v1 : VecShare) (r01 : list Z) : list Z :=
  zip_with (fun b r => inj_x (T:=T) (sb b) (sa b) r) v1 r01.
Definition vec_z (x : list Z) (v2 : VecShare) (r12 : list Z) : list Z :=
  zip_with (re_sub T) (zip_with (re_mul T) x ((fun b => bit_elem T (sa b)) <$> v2)) r12.

(** All bits, given the masks the pairs of parties draw. *)
Lemma inject_vec p0 v bs r01 r02 r12 :
  tvec (shares_xor Bit) v bs ->
  length r01 = length bs -> length r02 = length bs -> length r12 = length bs ->
  Forall (valid T) r01 -> Forall (valid T) r02 -> Forall (valid T) r12 ->
  let v0 := v @ p0 in let v1 := v @ (next_id p0) in let v2 := v @ (prev_id p0) in
  let x := vec_x v1 r01 in let y := vec_y r01 v0 r02 in let z := vec_z x v2 r12 in
  Forall (valid T) x /\ Forall (valid T) y /\ Forall (valid T) z /\
  tvec (shares_add T) (by_role p0
      (izip5 (fun r01 b2 y r02 z => inj_out0 (T:=T) b2 r01 r02 y z) r01 (sb <$> v0) y r02 z)
      (izip4 (fun x r01 y r12 => inj_out1 (T:=T) r01 r12 x y) x r01 y r12)
      (izip5 (fun x b2 r02 z r12 => inj_out2 (T:=T) b2 r02 r12 x z) x (sa <$> v2) r02 z r12)) bs.
Proof.
  intros Hv. revert r01 r02 r12.
  induction Hv as [|s v b bs (c & Hs & Hc & Hb) Hv IH];
    intros [|a01 r01] [|a02 r02] [|a12 r12] L1 L2 L3 V1 V2 V3; try done.
  { cbn. destruct p0; split_and!; try done; apply tvec_nil. }
  injection L1 as L1. injection L2 as L2. injection L3 as L3.
  apply Forall_cons in V1 as [Va1 V1], V2 as [Va2 V2], V3 as [Va3 V3].
  destruct (IH r01 r02 r12 L1 L2 L3 V1 V2 V3) as (IHx & IHy & IHz & IHt). clear IH.
  assert (forall i, c @ i = Z.b2z (bit_convert (c @ i))) as Hbit by (intros i; apply valid_bit_b2z, Hc).
  pose proof (inject_scalar (T:=T) p0 (fun i => bit_convert (c @ i)) a01 a02 a12 Va1 Va2 Va3) as Hsc.
  cbn beta zeta in Hsc. rewrite <- !Hbit in Hsc.
  assert (Z.b2z (xorb (xorb (bit_convert (c @ ID0)) (bit_convert (c @ ID1))) (bit_convert (c @ ID2))) = b) as Hb'.
  { rewrite <- Hb. unfold xor3. pose proof (Hbit ID0) as H0. pose proof (Hbit ID1) as H1. pose proof (Hbit ID2) as H2.
    cbn [tget] in *. rewrite H0, H1, H2 at 2.
    by destruct (bit_convert (at0 c)), (bit_convert (at1 c)), (bit_convert (at2 c)). }
  rewrite Hb' in Hsc. rewrite !tget_tcons, (Hs p0), (Hs (next_id p0)), (Hs (prev_id p0)). unfold vec_x, vec_y, vec_z.
  rewrite !fmap_cons. cbn [zip_with sa sb]. unfold izip5, izip4, izip3. cbn [zip_with].
  rewrite prev_next. replace (prev_id (prev_id p0)) with (next_id p0) by (by destruct p0).
  assert (IntRing2kOk T) as Hok by apply _.
  assert (forall u, valid T (bit_elem T u)) as Ve by (intros u; unfold bit_elem; destruct (bit_convert u); eauto with valid).
  assert (forall u, valid T (from_bool T u)) as Vf by (intros u; rewrite ir_from_bool_eq; apply valid_b2z).
  split_and!; [constructor; [unfold inj_x; eauto with valid|exact IHx]|constructor; [eauto with valid|exact IHy]|
    constructor; [unfold inj_x; eauto 10 with valid|exact IHz]|].
  rewrite by_role_cons. exact (tvec_cons _ _ _ _ _ Hsc IHt).
Qed.

(** The messages are vectors the receivers decode. *)
Lemma inject_messages p0 v bs (r : PartyID -> list Z) :
  tvec (shares_xor Bit) v bs -> Z.of_nat (length bs * BYTES T) < 2 ^ 32 ->
  (forall i, length (r i) = length bs /\ Forall (valid T) (r i)) ->
  let x := vec_x (v @ (next_id p0)) (r p0) in
  let y := vec_y (r p0) (v @ p0) (r (prev_id p0)) in
  let z := vec_z x (v @ (prev_id p0)) (r (next_id p0)) in
  (m ← vec_mul T (r p0) ((fun b => bit_elem T (sb b)) <$> v @ p0); vec_sub T m (r (prev_id p0))) = Ok y /\
  (m ← vec_mul T x ((fun b => bit_elem T (sa b)) <$> v @ (prev_id p0)); vec_sub T m (r (next_id p0))) = Ok z /\
  into_vec T (ring_vec_message T x) = Ok x /\ into_vec T (ring_vec_message T y) = Ok y /\
  into_vec T (ring_vec_message T z) = Ok z.
Proof.
  intros Hv Hn Hr x y z. pose proof (fun i => tvec_length _ _ _ i Hv) as Hlen.
  pose proof (fun i => proj1 (Hr i)) as HL. pose proof (fun i => proj2 (Hr i)) as HV.
  destruct (inject_vec p0 v bs (r p0) (r (prev_id p0)) (r (next_id p0)) Hv
    (HL _) (HL _) (HL _) (HV _) (HV _) (HV _)) as (Vx & Vy & Vz & _). cbn zeta in *. fold x y in Vx, Vy, Vz. fold z in Vz.
  assert (length x = length bs) as Lx by (unfold x, vec_x; rewrite length_zip_with, HL, Hlen; lia).
  assert (length y = length bs) as Ly
    by (unfold y, vec_y; rewrite !length_zip_with, !length_fmap, !HL, !Hlen; lia).
  assert (length z = length bs) as Lz
    by (unfold z, vec_z; rewrite !length_zip_with, !length_fmap, !HL, !Hlen, Lx; lia).
  assert (forall l, length l = length bs -> Forall (valid T) l -> into_vec T (ring_vec_message T l) = Ok l) as Hinto.
  { intros l Hl Hvl. apply into_vec_message; [done|]. split; [done|]. by rewrite Hl. }
  split_and!; [| |by apply Hinto..].
  - unfold vec_mul, vec_sub. rewrite vec_op_ok by (by rewrite length_fmap, HL, Hlen). cbn [mbind result_bind].
    by rewrite vec_op_ok by (rewrite length_zip_with, length_fmap, !HL, Hlen; lia).
  - unfold vec_mul, vec_sub. rewrite vec_op_ok by (by rewrite length_fmap, Lx, Hlen). cbn [mbind result_bind].
    by rewrite vec_op_ok by (rewrite length_zip_with, length_fmap, HL, Lx, Hlen; lia).
Qed.

(** The part a party plays. *)
Lemma bit_inject_role i v s :
  ring_network ids sid i (network_session s) ->
  bit_inject (R := R) T v s
  = (by_role (rotation sid) (bit_inject_party0 T v) (bit_inject_party1 T v) (bit_inject_party2 T v)) @ i s.
Proof.
  intros Hs. unfold by_role. rewrite tget_tof. unfold bit_inject.
  change (mbind ?f get s) with (f s s). cbn beta. rewrite (rotated_role_party ids sid i _ Hs). by repeat case_decide.
Qed.

(** [bit_inject] turns XOR shares of bits into arithmetic shares of them. *)
Lemma bit_inject_spec v bs :
  tvec (shares_xor Bit) v bs -> Z.of_nat (length bs * BYTES T) < 2 ^ 32 ->
  proto (R := R) ids sid (fun i => bit_inject T (v @ i)) (fun out => tvec (shares_add T) out bs).
Proof.
  intros Hv Hn s [Hring Hsync]. set (p0 := rotation sid).
  pose proof (fun i => tvec_length _ _ _ i Hv) as Hlen.
  set (fl := fun i => fill R T (length bs) (my_prf (prf (s @ i)))).
  assert (forall i, fill R T (length bs) (prev_prf (prf (s @ i))) = fl (prev_id i)) as Hprev
    by (intros i; unfold fl; by rewrite Hsync, next_prev).
  assert (forall i, length (fl i).1 = length bs /\ Forall (valid T) (fl i).1) as Hfl.
  { intros i. split; [apply rng_fill_length|apply rng_fill_valid; apply _]. }
  destruct (inject_messages p0 v bs (fun i => (fl i).1) Hv Hn Hfl) as (Hy & Hz & Ix & Iy & Iz).
  destruct (inject_vec p0 v bs (fl p0).1 (fl (prev_id p0)).1 (fl (next_id p0)).1 Hv) as (_ & _ & _ & Hout); try apply Hfl.
  pose proof (fun i => next_identity_ring _ _ _ _ (Hring i)) as Hni.
  pose proof (fun i => prev_identity_ring _ _ _ _ (Hring i)) as Hpi.
  assert (prev_id (prev_id p0) = next_id p0 /\ next_id (next_id p0) = prev_id p0) as [Hpp Hnn] by (by destruct p0).
  destruct (party0_shape (v @ p0) (s @ p0) _ _ _ _ _ _ _ (Hni p0) (Hpi p0)
    ltac:(rewrite Hlen; apply surjective_pairing) ltac:(rewrite Hlen, Hprev; apply surjective_pairing) Hy)
    as (k0 & k0' & E0 & E0' & E0'').
  destruct (party1_shape (v @ (next_id p0)) (s @ (next_id p0)) (fl p0).1 (fl p0).2 (fl (next_id p0)).1 (fl (next_id p0)).2
    _ _ (Hni _) (Hpi _)) as (k1 & k1' & E1 & E1' & E1''); [rewrite Hlen, Hprev, prev_next; apply surjective_pairing|
    rewrite Hlen; apply surjective_pairing|].
  destruct (party2_shape (v @ (prev_id p0)) (s @ (prev_id p0)) (fl (prev_id p0)).1 (fl (prev_id p0)).2 (fl (next_id p0)).1
    (fl (next_id p0)).2 _ _ (Hni _) (Hpi _)) as (k2 & E2 & E2'); [rewrite Hlen; apply surjective_pairing|
    rewrite Hlen, Hprev, Hpp; apply surjective_pairing|].
  destruct (E2' _ _ _ Ix Hz) as (k2' & E3 & E3').
  rewrite next_prev in E3. rewrite prev_next in E1'. rewrite Hnn in E1. rewrite Hpp in E2.
  eapply (wp_inject p0);
    [rewrite tget_tof, (bit_inject_role p0) by apply Hring; rewrite by_role_0; exact E0|exact E0'|exact (E0'' _ _ Iz)
    |rewrite tget_tof, (bit_inject_role (next_id p0)) by apply Hring; rewrite by_role_1; exact E1|exact E1'|exact (E1'' _ _ Iy)
    |rewrite tget_tof, (bit_inject_role (prev_id p0)) by apply Hring; rewrite by_role_2; exact E2|exact E3|exact E3'|].
  split; [done|]. split; [split|].
  - rewrite by_role_fmap. by eapply by_role_in_ring.
  - intros i. rewrite by_role_fmap. unfold p0. by destruct i, (rotation sid).
  - rewrite by_role_fmap. exact Hout.
Qed.
End Run.

(** Bit injection is correct: from XOR shares of bits the three parties,
    each playing the part the session id assigns to it, obtain arithmetic
    shares of the same bits in the ring [T]; the run neither fails nor leaves
    a message or the shared generators out of step. *)
Theorem bit_inject_correct (R : Rng) `{!RngOk R} ids sid (T : NetworkInt) `{!NetworkIntOk T} v bs :
  tvec (shares_xor Bit) v bs -> Z.of_nat (length bs * BYTES T) < 2 ^ 32 ->
  proto (R := R) ids sid (fun i => bit_inject T (v @ i)) (fun out => tvec (shares_add T) out bs).
Proof. intros. by apply bit_inject_spec. Qed.

Lemma bit_inject_correct_witness :
  proto (R := counter_rng) demo_ids 7 (fun i => bit_inject net_u32 ((dealt [Tri 1 0 0; Tri 1 1 0; Tri 1 1 1]) @ i))
    (fun out => tvec (shares_add u32) out [1; 0; 1]).
Proof.
  apply (bit_inject_correct counter_rng demo_ids 7 net_u32); [|done].
  apply (dealt_xor Bit [Tri 1 0 0; Tri 1 1 0; Tri 1 1 1]). solve_valid3.
Defined.
