(* ===== verification/Convert.v ===== *)
(** * Conversions between sharings: [ampc-actor-utils/src/protocol/binary.rs]

    From arithmetic to binary shares: the bit-slicing of the components of
    replicated shares, [two_way_split], sign extraction ([extract_msb],
    [single_extract_msb], [extract_msb_batch]) and opening of bits
    ([open_bin]). *)

From S2P Require Import Prelude IntRing RingImpl Party Share VecShare Transpose Value Net Prf Proto Circuits Binary Adder Inject.
From stdpp Require Import option base list numbers strings gmap.
From Stdlib Require Import ZArith Lia.
Local Open Scope Z_scope.

(** ** Bit-slicing replicated shares *)

(** The three vectors hold, in replicated form, [n] 64-bit words whose
    component [i] has the bits [F i]. *)
Definition rep_valid (T : IntRing2k) (s : tri Share) (c : tri Z) : Prop := rep3 s c /\ valid3 T c.

Definition holds3 (n : nat) (v : tri (list Share)) (F : PartyID -> bitfun) : Prop :=
  tvec (rep_valid u64) v ((fun j => tof (fun i => word_of 64 (F i j))) <$> seq 0 n).

(** Component [i] of entry [e], zero past the end. *)
Definition comp (cs : list (tri Z)) (i : PartyID) (e : nat) : Z :=
  (default (Tri 0 0 0) (cs !! e)) @ i.

Lemma share_at_rep T v cs i e :
  tvec (rep_valid T) v cs -> share_at (v @ i) e = mkShare (comp cs i e) (comp cs (prev_id i) e).
Proof.
  intros Hv. unfold share_at, comp. destruct (cs !! e) as [c|] eqn:He.
  - destruct (tvec_lookup _ _ _ _ _ Hv He) as (s & Hs & Hr & _). rewrite Hs. cbn. apply Hr.
  - rewrite lookup_ge_None_2; [by destruct i|].
    rewrite (tvec_length _ _ _ i Hv). by apply lookup_ge_None.
Qed.

Lemma tvec_rep_valid T v cs i : tvec (rep_valid T) v cs -> Forall (share_valid T) (v @ i).
Proof.
  induction 1 as [|s v c cs [Hs Hc] Hv IH]; [by destruct i|].
  unfold tcons. rewrite tget_tof. constructor; [|done]. rewrite Hs. split; apply Hc.
Qed.

Lemma plane_word s f g :
  bits_ok 64 s ->
  (forall l, (l < 64)%nat -> Z.testbit (sa s) (Z.of_nat l) = f l /\ Z.testbit (sb s) (Z.of_nat l) = g l) ->
  s = mkShare (word_of 64 f) (word_of 64 g).
Proof.
  intros [Ha Hb] H. destruct s as [a b]. cbn [sa sb] in *.
  rewrite <- (word_of_testbit 64 a), <- (word_of_testbit 64 b) by done.
  f_equal; apply word_of_ext; intros l Hl; by apply H.
Qed.

(** The planes of the three parties hold the components' bits. *)
Lemma planes_rep3 T k v cs planes :
  tvec (rep_valid T) v cs -> (forall i, bit_planes 64 k (v @ i) (planes @ i)) ->
  tvec (holds3 (div_ceil (length cs) 64)) planes
    ((fun b i j l => Z.testbit (comp cs i (64 * j + l)) (Z.of_nat b)) <$> seq 0 k).
Proof.
  intros Hv HB. apply tvec_intro.
  { intros i. rewrite length_fmap, length_seq. apply HB. }
  intros b F Hb. apply list_lookup_fmap_Some in Hb as (b' & -> & Hb). apply lookup_seq in Hb as [-> Hb].
  assert (forall i, exists p, planes @ i !! b = Some p) as Hp.
  { intros i. apply lookup_lt_is_Some_2. by rewrite (proj1 (HB i)). }
  destruct (Hp ID0) as [q0 Q0], (Hp ID1) as [q1 Q1], (Hp ID2) as [q2 Q2]. set (q := Tri q0 q1 q2).
  assert (forall i, planes @ i !! b = Some (q @ i)) as HQ by by intros [].
  exists q. split; [done|]. apply tvec_intro.
  { intros i. rewrite length_fmap, length_seq. destruct (proj2 (HB i) b _ (HQ i)) as [-> _].
    by rewrite (tvec_length _ _ _ i Hv). }
  intros j c Hj. apply list_lookup_fmap_Some in Hj as (j' & -> & Hj). apply lookup_seq in Hj as [-> Hj].
  set (c := tof (fun i => word_of 64 (fun l => Z.testbit (comp cs i (64 * (0 + j) + l)) (Z.of_nat (0 + b))))).
  exists (tof (fun i => mkShare (c @ i) (c @ (prev_id i)))). split.
  - intros i. rewrite tget_tof. destruct (proj2 (HB i) b _ (HQ i)) as [Hl Hs].
    destruct (lookup_lt_is_Some_2 (q @ i) j) as [s Es].
    { rewrite Hl, (tvec_length _ _ _ i Hv). lia. }
    destruct (Hs j s Es) as [Hok Hbit]. rewrite Es. f_equal. unfold c. rewrite !tget_tof.
    apply plane_word; [done|].
    intros l Hl'. destruct (Hbit l Hl') as [H1 H2]. rewrite (share_at_rep T v cs i _ Hv) in H1, H2. done.
  - split; [apply rep3_tof|]. intros i. unfold c. rewrite tget_tof. apply (word_of_spec 64).
Qed.

Lemma transpose_rep3 T `{!Transpose64 T} v cs :
  tvec (rep_valid T) v cs ->
  exists planes, (forall i, transpose_pack_u64 (v @ i) = Ok (planes @ i)) /\
    tvec (holds3 (div_ceil (length cs) 64)) planes
      ((fun b i j l => Z.testbit (comp cs i (64 * j + l)) (Z.of_nat b)) <$> seq 0 (Z.to_nat (K T))).
Proof.
  intros Hv.
  destruct (transpose_pack_u64_ok (v @ ID0) (tvec_rep_valid T v cs ID0 Hv)) as (p0 & E0 & B0).
  destruct (transpose_pack_u64_ok (v @ ID1) (tvec_rep_valid T v cs ID1 Hv)) as (p1 & E1 & B1).
  destruct (transpose_pack_u64_ok (v @ ID2) (tvec_rep_valid T v cs ID2 Hv)) as (p2 & E2 & B2).
  exists (Tri p0 p1 p2). split; [by intros []|]. apply (planes_rep3 T _ v); [done|by intros []].
Qed.

(** ** Splitting into two summands *)

(** [(0..n).map(|_| prf.gen())]. *)
Fixpoint gen_many (R : Rng) (T : IntRing2k) (n : nat) (r : rng R) : list Z * rng R :=
  match n with
  | O => ([], r)
  | S n => let '(x, r) := gen R T r in let '(xs, r) := gen_many R T n r in (x :: xs, r)
  end.

Section Split.
Context {R : Rng}.

(* prf.rs:84-86 Prf::get_prev_prf *)
Definition gen_from_prev (T : IntRing2k) (n : nat) (p : Prf R) : list Z * Prf R :=
  let '(xs, g) := gen_many R T n (prev_prf p) in (xs, mkPrf (my_prf p) g).
(* prf.rs:79-81 Prf::get_my_prf *)
Definition gen_from_my (T : IntRing2k) (n : nat) (p : Prf R) : list Z * Prf R :=
  let '(xs, g) := gen_many R T n (my_prf p) in (xs, mkPrf g (prev_prf p)).

(** The components [s1_a], [s1_b], [s2_a], [s2_b] of one chunk. *)
Definition quad : Type := list Z * list Z * list Z * list Z.

(* binary.rs:1268-1318 two_way_split (one chunk) *)
Definition split_chunk (T : NetworkInt) (chunk_id role_index : Z) (chunk : list Share) : M R quad :=
  if Z.eqb chunk_id role_index then
    let a := sa <$> chunk in
    let b := sb <$> chunk in
    r_prev ← with_rng (gen_from_prev T (length a));
    t ← liftr (ab ← vec_add T a b; vec_xor T ab r_prev);
    _ ← net (fun n => send_ring_vec_next T n t);
    let chunk_len := length t in
    mret (t, r_prev, zero_iter T chunk_len, zero_iter T chunk_len)
  else if Z.eqb ((chunk_id + 1) mod 3) role_index then
    let c := sa <$> chunk in
    t ← net (fun n => receive_ring_vec_prev T n);
    let chunk_len := length t in
    mret (zero_iter T chunk_len, t, c, zero_iter T chunk_len)
  else
    let c := sb <$> chunk in
    r_next ← with_rng (gen_from_my T (length c));
    let chunk_len := length c in
    mret (r_next, zero_iter T chunk_len, zero_iter T chunk_len, c).

Definition quad_app (q q' : quad) : quad :=
  let '(a, b, c, d) := q in let '(a', b', c', d') := q' in (a ++ a', b ++ b', c ++ c', d ++ d').

(** [for (chunk_id, piece_len) in piece_lens.into_iter().enumerate()], leaving
    the loop when the input is exhausted. *)
Fixpoint split_chunks (T : NetworkInt) (role_index chunk_id : Z) (piece_lens : list nat) (input : list Share)
    : M R quad :=
  match piece_lens with
  | [] => mret ([], [], [], [])
  | piece_len :: piece_lens =>
      if (length input =? 0)%nat then mret ([], [], [], [])
      else
        q ← split_chunk T chunk_id role_index (take piece_len input);
        q' ← split_chunks T role_index (chunk_id + 1) piece_lens (drop piece_len input);
        mret (quad_app q q')
  end.

(* binary.rs:1243-1325 two_way_split *)
Definition two_way_split (T : NetworkInt) (input : VecShare) : M R (VecShare * VecShare) :=
  let len := length input in
  let piece_len1 := (len / 3)%nat in
  let piece_len2 := ((len - piece_len1) / 2)%nat in
  let piece_len3 := (len - piece_len1 - piece_len2)%nat in
  s ← get;
  let role_index := rotated_role (network_session s) in
  '(s1_a, s1_b, s2_a, s2_b) ← split_chunks T role_index 0 [piece_len1; piece_len2; piece_len3] input;
  mret (from_ab s1_a s1_b, from_ab s2_a s2_b).
End Split.

Lemma gen_many_spec R `{!RngOk R} T `{!IntRing2kOk T} n r :
  length (gen_many R T n r).1 = n /\ Forall (valid T) (gen_many R T n r).1.
Proof.
  revert r. induction n as [|n IH]; intros r; [done|]. cbn [gen_many].
  pose proof (rng_gen_valid T r). destruct (gen R T r) as [x r']. specialize (IH r').
  destruct (gen_many R T n r') as [xs r'']. cbn in *. destruct IH. split; [lia|]. constructor; auto.
Qed.

(** The party that shares chunk [j]. *)
Definition chunk_party (sid j : Z) : PartyID :=
  if Z.eqb j 0 then rotation sid else if Z.eqb j 1 then next_id (rotation sid) else prev_id (rotation sid).

Definition role_at (sid : Z) (i : PartyID) : Z :=
  party_index (if decide (i = rotation sid) then ID0
               else if decide (i = next_id (rotation sid)) then ID1 else ID2).

Lemma chunk_party_role sid i j :
  0 <= j < 3 ->
  (j =? role_at sid i) = bool_decide (i = chunk_party sid j) /\
  ((j + 1) mod 3 =? role_at sid i) = bool_decide (i = next_id (chunk_party sid j)).
Proof.
  intros Hj. unfold role_at, chunk_party.
  assert (j = 0 \/ j = 1 \/ j = 2) as [-> | [-> | ->]] by lia; by destruct i, (rotation sid).
Qed.

Section SplitSpec.
Context {R : Rng} {HR : RngOk R} (ids : tri Identity) (sid : Z).
Context {T : NetworkInt} {HT : NetworkIntOk T}.

(** One message, from [p0] to its successor, while the third party computes. *)
Lemma wp_one_message {A} (p0 : PartyID) (p : tri (proc A)) t k0 k1 o0 o1 o2 Q :
  p @ p0 = Send (ids @ (next_id p0)) t k0 -> k0 (Ok tt) = Ret o0 ->
  p @ (next_id p0) = Recv (ids @ p0) k1 -> k1 (Ok t) = Ret o1 ->
  p @ (prev_id p0) = Ret o2 ->
  Q no_messages (by_role p0 o0 o1 o2) -> wp ids no_messages p Q.
Proof.
  intros E0 E0' E1 E1' E2 HQ.
  eapply (wp_send _ _ _ p0 (next_id p0)); [exact E0|].
  eapply (wp_recv _ _ _ (next_id p0) p0 t); [rewrite tget_tset_ne by (by destruct p0); exact E1|by destruct p0|].
  rewrite E0', E1'. match goal with |- wp _ ?ch ?q _ =>
    replace ch with no_messages by (by destruct p0);
    replace q with (Ret <$> (by_role p0 o0 o1 o2)); [by apply wp_ret|] end.
  destruct p0, p as [q0 q1 q2]; cbn in *; by subst.
Qed.

(** The components of a chunk, position by position: the first summand is what
    the sharing party computes, the second the component it does not hold. *)
Definition chunk_t (chunk : list Share) (r : list Z) : list Z :=
  zip_with (re_xor T) (zip_with (re_add T) (sa <$> chunk) (sb <$> chunk)) r.

Definition quad1 (q : quad) : VecShare := let '(a, b, _, _) := q in from_ab a b.
Definition quad2 (q : quad) : VecShare := let '(_, _, c, d) := q in from_ab c d.

Definition quad_len (n : nat) (q : quad) : Prop :=
  let '(a, b, c, d) := q in length a = n /\ length b = n /\ length c = n /\ length d = n.

(** The quadruples share two vectors that sum to [xs]. *)
Definition split_ok (q : tri quad) (xs : list Z) : Prop :=
  (forall i, quad_len (length xs) (q @ i)) /\
  exists ys zs, length ys = length xs /\ length zs = length xs /\ xs = zip_with (re_add T) ys zs /\
    tvec (shares_xor T) (quad1 <$> q) ys /\ tvec (shares_xor T) (quad2 <$> q) zs.

Lemma from_ab_app a b a' b' :
  length a = length b -> from_ab (a ++ a') (b ++ b') = from_ab a b ++ from_ab a' b'.
Proof. intros H. unfold from_ab. by rewrite zip_with_app. Qed.

Lemma quad_len_app n m q q' : quad_len n q -> quad_len m q' -> quad_len (n + m) (quad_app q q').
Proof.
  destruct q as [[[a b] c] d], q' as [[[a' b'] c'] d']. cbn. rewrite !length_app. intros H H'.
  destruct_and! H. destruct_and! H'. split_and!; congruence.
Qed.

Lemma split_ok_app q q' xs xs' :
  split_ok q xs -> split_ok q' xs' -> split_ok (tof (fun i => quad_app (q @ i) (q' @ i))) (xs ++ xs').
Proof.
  intros [Hl (ys & zs & Hy & Hz & Hx & H1 & H2)] [Hl' (ys' & zs' & Hy' & Hz' & Hx' & H1' & H2')]. split.
  { intros i. rewrite tget_tof, length_app. by apply quad_len_app. }
  exists (ys ++ ys'), (zs ++ zs'). rewrite !length_app, zip_with_app by congruence.
  split_and!; [congruence..| |].
  - pose proof (tvec_app _ _ _ _ _ H1 H1') as H.
    match type of H with tvec _ ?v _ => replace (quad1 <$> _) with v; [done|] end.
    apply tri_ext. intros i. unfold tapp. rewrite tget_fmap, !tget_tof, !tget_fmap.
    specialize (Hl i). destruct (q @ i) as [[[? ?] ?] ?], (q' @ i) as [[[? ?] ?] ?]. cbn in *.
    symmetry. apply from_ab_app. destruct_and! Hl. congruence.
  - pose proof (tvec_app _ _ _ _ _ H2 H2') as H.
    match type of H with tvec _ ?v _ => replace (quad2 <$> _) with v; [done|] end.
    apply tri_ext. intros i. unfold tapp. rewrite tget_fmap, !tget_tof, !tget_fmap.
    specialize (Hl i). destruct (q @ i) as [[[? ?] ?] ?], (q' @ i) as [[[? ?] ?] ?]. cbn in *.
    symmetry. apply from_ab_app. destruct_and! Hl. congruence.
Qed.

Lemma split_ok_nil : split_ok (tof (fun _ => ([], [], [], []))) [].
Proof. split; [by intros []|]. exists [], []. split_and!; try done; apply tvec_nil. Qed.

Lemma shares_add_dealt (v : tri (list Share)) xs :
  tvec (shares_add T) v xs ->
  exists cs, v = dealt cs /\ Forall (valid3 T) cs /\ xs = sum3 T <$> cs.
Proof.
  induction 1 as [|s v x xs (c & Hs & Hc & <-) Hv (cs & -> & Hcs & ->)].
  { exists []. split_and!; done. }
  exists (c :: cs). split_and!; [|by constructor|done].
  apply tri_ext. intros i. rewrite tget_tcons, Hs. unfold dealt. rewrite !tget_tof. by rewrite fmap_cons.
Qed.

Lemma xor_components p0 c0 c1 c2 :
  valid T c0 -> valid T c1 -> valid T c2 ->
  shares_xor T (by_role p0 (mkShare c0 c2) (mkShare c1 c0) (mkShare c2 c1)) (Z.lxor (Z.lxor c0 c1) c2).
Proof.
  intros H0 H1 H2. exists (by_role p0 c0 c1 c2). split_and!.
  - intros i. by destruct i, p0.
  - intros i. by destruct i, p0.
  - unfold xor3. destruct p0; cbn; repeat case_decide; try done; xor_crush.
Qed.

Lemma zero_iter_S n : zero_iter T (S n) = re_zero T :: zero_iter T n.
Proof. done. Qed.

(** The two summands of a chunk, for the masks [r] the sharing party draws with
    its predecessor. *)
Lemma chunk_shares p0 cs r :
  Forall (valid3 T) cs -> length r = length cs -> Forall (valid T) r ->
  let v0 := (dealt cs) @ p0 in let v1 := (dealt cs) @ (next_id p0) in let v2 := (dealt cs) @ (prev_id p0) in
  let t := chunk_t v0 r in let z := zero_iter T (length cs) in
  Forall (valid T) t /\ length t = length cs /\
  tvec (shares_xor T) (by_role p0 (from_ab t r) (from_ab z t) (from_ab r z))
    ((fun c => c @ p0 +[T] c @ (prev_id p0)) <$> cs) /\
  tvec (shares_xor T) (by_role p0 (from_ab z z) (from_ab (sa <$> v1) z) (from_ab z (sb <$> v2)))
    ((fun c => c @ (next_id p0)) <$> cs).
Proof.
  intros Hcs. revert r. induction Hcs as [|c cs Hc Hcs IH]; intros [|a r] Hl Hr; try done.
  { destruct p0; split_and!; try apply tvec_nil; try done; apply Forall_nil_2. }
  injection Hl as Hl. apply Forall_cons in Hr as [Ha Hr]. destruct (IH r Hl Hr) as (Vt & Lt & H1 & H2). clear IH.
  set (vp := valid_zero (T:=T)).
  assert (dealt (c :: cs) = tcons (tof (fun i => mkShare (c @ i) (c @ (prev_id i)))) (dealt cs)) as -> by done.
  cbn zeta in *. rewrite !tget_tcons, !tget_tof. unfold chunk_t in *. rewrite !fmap_cons. cbn [zip_with length sa sb].
  assert (valid T (c @ p0 +[T] c @ (prev_id p0))) as Vs by (apply re_add_valid; apply Hc).
  split_and!; [constructor; [by apply re_xor_valid|done]|lia|..]; rewrite !zero_iter_S; unfold from_ab; cbn [zip_with];
    rewrite by_role_cons; (apply tvec_cons; [|done]).
  - replace (c @ p0 +[T] c @ (prev_id p0)) with
      (Z.lxor (Z.lxor ((c @ p0 +[T] c @ (prev_id p0)) ^[T] a) (re_zero T)) a) at 3.
    { apply xor_components; [by apply re_xor_valid|done|done]. }
    unfold re_xor, re_zero. rewrite ir_xor_eq, ir_zero_eq. xor_crush.
  - replace (prev_id (prev_id p0)) with (next_id p0) by (by destruct p0).
    replace (c @ (next_id p0)) with (Z.lxor (Z.lxor (re_zero T) (c @ (next_id p0))) (re_zero T)) at 3.
    { apply xor_components; [done|apply Hc|done]. }
    unfold re_zero. rewrite ir_zero_eq. xor_crush.
Qed.

Lemma chunk_split_ok p0 cs r :
  Forall (valid3 T) cs -> length r = length cs -> Forall (valid T) r ->
  let v0 := (dealt cs) @ p0 in let v1 := (dealt cs) @ (next_id p0) in let v2 := (dealt cs) @ (prev_id p0) in
  let t := chunk_t v0 r in let z := zero_iter T (length cs) in
  split_ok (by_role p0 (t, r, z, z) (z, t, sa <$> v1, z) (r, z, z, sb <$> v2)) (sum3 T <$> cs).
Proof.
  intros Hcs Hl Hr. destruct (chunk_shares p0 cs r Hcs Hl Hr) as (Vt & Lt & H1 & H2). cbn zeta in *. split.
  - intros i. unfold by_role. rewrite tget_tof, length_fmap. unfold quad_len.
    assert (forall j, length ((dealt cs) @ j) = length cs) as Hd
      by (intros j; unfold dealt; rewrite tget_tof; apply length_fmap).
    repeat case_decide; rewrite ?length_fmap, ?Hd, ?length_replicate; split_and!; done || apply length_replicate.
  - eexists _, _. split_and!; [| | |by rewrite by_role_fmap|by rewrite by_role_fmap]; [by rewrite !length_fmap..|].
    clear -Hcs HT. induction Hcs as [|c cs Hc Hcs IH]; [done|]. rewrite !fmap_cons. cbn [zip_with]. f_equal; [|done].
    symmetry. apply valid_eq_mod; [apply re_add_valid; [apply re_add_valid|]; apply Hc|].
    rewrite !re_add_ceq. apply ceq_eq. destruct p0; cbn; lia.
Qed.

(** What each party does for a chunk. *)
Lemma sharer_shape j role chunk s nx r g :
  (j =? role) = true -> next_identity (network_session s) = Ok nx ->
  gen_many R T (length chunk) (prev_prf (prf s)) = (r, g) -> length r = length chunk ->
  let t := chunk_t chunk r in let z := zero_iter T (length chunk) in
  exists k, split_chunk T j role chunk s = Send nx (ring_vec_message T t) k /\
    k (Ok tt) = Ret (with_prf s (mkPrf (my_prf (prf s)) g), (t, r, z, z)).
Proof.
  intros Hj Hn Hg Hl t z.
  assert ((ab ← vec_add T (sa <$> chunk) (sb <$> chunk); vec_xor T ab r) = Ok t) as Ht.
  { unfold vec_add, vec_xor. rewrite vec_op_ok by (by rewrite !length_fmap). cbn [mbind result_bind].
    by rewrite vec_op_ok by (rewrite length_zip_with, !length_fmap; lia). }
  assert (length t = length chunk) as Lt by (unfold t, chunk_t; rewrite !length_zip_with, !length_fmap; lia).
  eexists. split.
  - unfold split_chunk. rewrite Hj. unfold mbind, M_bind, with_rng, gen_from_prev. cbn.
    rewrite length_fmap, Hg. cbn. unfold mbind in Ht. rewrite Ht. cbn.
    unfold net, mbind, M_bind. cbn. unfold send_ring_vec_next. rewrite Hn. cbn. reflexivity.
  - cbn. unfold mret, M_ret. by rewrite Lt.
Qed.

Lemma receiver_shape j role chunk s pv :
  (j =? role) = false -> ((j + 1) mod 3 =? role) = true -> prev_identity (network_session s) = Ok pv ->
  exists k, split_chunk (R := R) T j role chunk s = Recv pv k /\
    forall m t, into_vec T m = Ok t ->
      k (Ok m) = Ret (s, (zero_iter T (length t), t, sa <$> chunk, zero_iter T (length t))).
Proof.
  intros H1 H2 Hp. eexists. split.
  - unfold split_chunk. rewrite H1, H2. unfold net, mbind, M_bind. cbn.
    unfold receive_ring_vec_prev, receive_ring_vec. rewrite Hp. cbn. reflexivity.
  - intros m t Hm. cbn. rewrite Hm. done.
Qed.

Lemma third_shape j role chunk s r g :
  (j =? role) = false -> ((j + 1) mod 3 =? role) = false ->
  gen_many R T (length chunk) (my_prf (prf s)) = (r, g) ->
  let z := zero_iter T (length chunk) in
  split_chunk T j role chunk s = Ret (with_prf s (mkPrf g (prev_prf (prf s))), (r, z, z, sb <$> chunk)).
Proof.
  intros H1 H2 Hg z. unfold split_chunk. rewrite H1, H2. unfold mbind, M_bind, with_rng, gen_from_my. cbn.
  rewrite length_fmap, Hg. done.
Qed.

(** One chunk: the sharing party sends, its successor receives. *)
Lemma split_chunk_spec j v xs :
  0 <= j < 3 -> tvec (shares_add T) v xs -> Z.of_nat (length xs * BYTES T) < 2 ^ 32 ->
  proto (R := R) ids sid (fun i => split_chunk T j (role_at sid i) (v @ i)) (fun q => split_ok q xs).
Proof.
  intros Hj Hv Hn. apply shares_add_dealt in Hv as (cs & -> & Hcs & ->). rewrite length_fmap in Hn.
  intros s [Hring Hsync]. set (p0 := chunk_party sid j).
  set (g := gen_many R T (length cs) (my_prf (prf (s @ (prev_id p0))))).
  destruct (gen_many_spec R T (length cs) (my_prf (prf (s @ (prev_id p0))))) as [Lr Vr]. fold g in Lr, Vr.
  destruct (chunk_shares p0 cs g.1 Hcs Lr Vr) as (Vt & Lt & _ & _). cbn zeta in Vt, Lt.
  pose proof (chunk_split_ok p0 cs g.1 Hcs Lr Vr) as Hok. cbn zeta in Hok.
  assert (forall i, length ((dealt cs) @ i) = length cs) as Hd
    by (intros i; unfold dealt; rewrite tget_tof; apply length_fmap).
  assert (into_vec T (ring_vec_message T (chunk_t ((dealt cs) @ p0) g.1)) = Ok (chunk_t ((dealt cs) @ p0) g.1)) as It.
  { apply into_vec_message; [done|]. split; [done|]. by rewrite Lt. }
  assert (gen_many R T (length cs) (prev_prf (prf (s @ p0))) = g) as Hg
    by (unfold g; by rewrite Hsync, next_prev).
  pose proof (fun i => proj1 (chunk_party_role sid i j Hj)) as R1.
  pose proof (fun i => proj2 (chunk_party_role sid i j Hj)) as R2. fold p0 in R1, R2.
  destruct (sharer_shape j (role_at sid p0) ((dealt cs) @ p0) (s @ p0) (ids @ (next_id p0)) g.1 g.2)
    as (k0 & E0 & E0'); [rewrite R1; by apply bool_decide_true|apply (next_identity_ring _ _ _ _ (Hring p0))|
      by rewrite Hd, Hg, <- surjective_pairing|by rewrite Hd|].
  destruct (receiver_shape j (role_at sid (next_id p0)) ((dealt cs) @ (next_id p0)) (s @ (next_id p0)) (ids @ p0))
    as (k1 & E1 & E1'); [rewrite R1; by destruct p0|rewrite R2; by apply bool_decide_true|
      by rewrite (prev_identity_ring _ _ _ _ (Hring (next_id p0))), prev_next|].
  pose proof (third_shape j (role_at sid (prev_id p0)) ((dealt cs) @ (prev_id p0)) (s @ (prev_id p0)) g.1 g.2) as E2.
  rewrite R1, R2, Hd in E2. cbn zeta in *. rewrite Hd in E0'. specialize (E1' _ _ It). rewrite Lt in E1'.
  eapply (wp_one_message p0); [by rewrite tget_tof|exact E0'|by rewrite tget_tof|exact E1'|
    rewrite tget_tof; apply E2; [by destruct p0..|apply surjective_pairing]|split; [done|split; [split|]]].
  - rewrite by_role_fmap. by eapply by_role_in_ring.
  - intros i. rewrite by_role_fmap. pose proof (Hsync p0) as S0. pose proof (Hsync (next_id p0)) as S1. clear -S0 S1.
    destruct p0; destruct i; done.
  - rewrite by_role_fmap. exact Hok.
Qed.

Lemma split_chunks_spec lens j v xs :
  0 <= j -> j + Z.of_nat (length lens) <= 3 -> (length xs <= sum_list lens)%nat ->
  tvec (shares_add T) v xs -> Z.of_nat (length xs * BYTES T) < 2 ^ 32 ->
  proto (R := R) ids sid (fun i => split_chunks T (role_at sid i) j lens (v @ i)) (fun q => split_ok q xs).
Proof.
  revert j v xs. induction lens as [|l lens IH]; intros j v xs Hj Hl Hs Hv Hn.
  { destruct xs; [|cbn in Hs; lia]. apply (proto_ext ids sid _ (fun i => mret ((tof (fun _ => ([], [], [], []))) @ i)));
      [intros s i _; by rewrite tget_tof|]. apply proto_ret, split_ok_nil. }
  destruct xs as [|x xs].
  { apply (proto_ext ids sid _ (fun i => mret ((tof (fun _ => ([], [], [], []))) @ i)));
      [intros s i _; rewrite tget_tof|apply proto_ret, split_ok_nil].
    cbn [split_chunks]. by rewrite (tvec_length _ _ _ i Hv). }
  cbn [length] in Hl. change (sum_list (l :: lens)) with (l + sum_list lens)%nat in Hs.
  pose proof (tvec_take _ l _ _ Hv) as Hv1. pose proof (tvec_drop _ l _ _ Hv) as Hv2.
  apply (proto_ext ids sid _ (fun i => q ← split_chunk T j (role_at sid i) ((take l <$> v) @ i);
     q' ← split_chunks T (role_at sid i) (j + 1) lens ((drop l <$> v) @ i); mret (quad_app q q'))).
  { intros s i _. cbn [split_chunks]. by rewrite (tvec_length _ _ _ i Hv), !tget_fmap. }
  assert (forall m, (m <= length (x :: xs))%nat -> Z.of_nat (m * BYTES T) < 2 ^ 32) as Hb.
  { intros m Hm. eapply Z.le_lt_trans; [|exact Hn]. apply inj_le. by apply Nat.mul_le_mono_r. }
  eapply proto_bind.
  { apply (split_chunk_spec j _ _ ltac:(lia) Hv1). apply Hb. rewrite length_take. lia. }
  intros q Hq. eapply proto_bind.
  { apply (IH (j + 1) _ (drop l (x :: xs)) ltac:(lia) ltac:(lia)); [rewrite length_drop; lia|exact Hv2|apply Hb; rewrite length_drop; lia]. }
  intros q' Hq'. eapply proto_ext; [|apply (proto_ret ids sid (tof (fun i => quad_app (q @ i) (q' @ i))))].
  - intros s i _. cbn beta. by rewrite tget_tof.
  - rewrite <- (take_drop l (x :: xs)). by apply split_ok_app.
Qed.

(** [two_way_split] yields XOR shares of two summands of every input. *)
Lemma two_way_split_spec v xs :
  tvec (shares_add T) v xs -> Z.of_nat (length xs * BYTES T) < 2 ^ 32 ->
  proto (R := R) ids sid (fun i => two_way_split T (v @ i)) (fun out =>
    exists ys zs, length ys = length xs /\ length zs = length xs /\ xs = zip_with (re_add T) ys zs /\
      tvec (shares_xor T) (fst <$> out) ys /\ tvec (shares_xor T) (snd <$> out) zs).
Proof.
  intros Hv Hn. set (n := length xs).
  set (lens := [(n / 3)%nat; ((n - n / 3) / 2)%nat; (n - n / 3 - (n - n / 3) / 2)%nat]).
  apply (proto_ext ids sid _ (fun i => '(a, b, c, d) ← split_chunks T (role_at sid i) 0 lens (v @ i);
    mret (from_ab a b, from_ab c d))).
  { intros s i Hs. unfold two_way_split. rewrite (tvec_length _ _ _ i Hv).
    change (mbind ?f get (s @ i)) with (f (s @ i) (s @ i)). cbn beta.
    by rewrite (rotated_role_party ids sid i _ (proj1 Hs i)). }
  eapply proto_bind.
  { apply (split_chunks_spec lens 0 v xs); [lia|cbn; lia| |done|done].
    unfold lens. cbn. pose proof (Nat.Div0.div_le_upper_bound n 3 n). pose proof (Nat.Div0.div_le_upper_bound (n - n / 3) 2 (n - n / 3)). lia. }
  intros q [_ (ys & zs & H)]. 
  eapply proto_ext; [|apply (proto_ret ids sid (tof (fun i => (quad1 (q @ i), quad2 (q @ i)))))].
  - intros s i _. cbn beta. rewrite tget_tof. by destruct (q @ i) as [[[? ?] ?] ?].
  - exists ys, zs. exact H.
Qed.
End SplitSpec.

(** ** Sign extraction *)

Section Extract.
Context {R : Rng}.

(* binary.rs:1490-1505 extract_msb *)
Definition extract_msb (T : NetworkInt) {HTr : Transpose64 T} (x_ : VecShare) : M R VecShare :=
  '(x1, x2) ← two_way_split T x_;
  x1_t ← liftr (transpose_pack_u64 x1);
  x2_t ← liftr (transpose_pack_u64 x2);
  binary_add_2_get_msb net_u64 x1_t x2_t.

(* binary.rs:1509-1521 single_extract_msb *)
Definition single_extract_msb (T : NetworkInt) {HTr : Transpose64 T} (x : Share) : M R Share :=
  v ← extract_msb T [x];
  s ← liftr (vs_get_at v 0);
  let '(a, b) := get_ab s in
  mret (share_new (get_bit_as_bit u64 a 0) (get_bit_as_bit u64 b 0)).

(** [for i in 0..64]: the flag says that the batch is complete. *)
Fixpoint push_bits (a b : Z) (i n res_len : nat) (res : list Share) : list Share * bool :=
  match n with
  | O => (res, false)
  | S n =>
      let res := res ++ [share_new (get_bit_as_bit u64 a i) (get_bit_as_bit u64 b i)] in
      if (length res =? res_len)%nat then (res, true) else push_bits a b (S i) n res_len res
  end.

Fixpoint push_batches (packed_bits : list Share) (res_len : nat) (res : list Share) : list Share :=
  match packed_bits with
  | [] => res
  | bit_batch :: packed_bits =>
      let '(a, b) := get_ab bit_batch in
      let '(res, complete) := push_bits a b 0 64 res_len res in
      if complete then res else push_batches packed_bits res_len res
  end.

(* binary.rs:1526-1548 extract_msb_batch *)
Definition extract_msb_batch (T : NetworkInt) {HTr : Transpose64 T} (x : list Share) : M R (list Share) :=
  let res_len := length x in
  packed_bits ← extract_msb T x;
  mret (push_batches packed_bits res_len []).
End Extract.

(** The bits are pushed in order until there are [res_len] of them. *)
Lemma push_bits_spec a b i n res_len res :
  (length res < res_len)%nat ->
  let bits := (fun k => share_new (get_bit_as_bit u64 a k) (get_bit_as_bit u64 b k)) <$> seq i n in
  push_bits a b i n res_len res
  = (take res_len (res ++ bits), (res_len <=? length res + n)%nat && (0 <? n)%nat).
Proof.
  revert i res. induction n as [|n IH]; intros i res Hl; cbn [push_bits seq].
  { rewrite app_nil_r, andb_false_r, take_ge by lia. done. }
  rewrite length_app. cbn [length]. rewrite fmap_cons. cbn [Nat.ltb Nat.leb]. rewrite andb_true_r.
  destruct (Nat.eqb_spec (length res + 1) res_len) as [He|He].
  - rewrite (proj2 (Nat.leb_le _ _)) by lia. f_equal.
    rewrite (app_assoc res [_] (_ <$> seq (S i) n) : res ++ _ :: _ = _), take_app_length' by (rewrite length_app; cbn; lia). done.
  - rewrite IH by (rewrite length_app; cbn; lia). cbn zeta. rewrite <- app_assoc. cbn [app]. f_equal.
    rewrite length_app. cbn [length]. destruct n as [|n]; cbn [Nat.ltb Nat.leb].
    + rewrite andb_false_r. symmetry. apply Nat.leb_gt. lia.
    + rewrite andb_true_r. f_equal. lia.
Qed.

Lemma push_batches_spec packed res_len res :
  (length res < res_len)%nat -> push_batches packed res_len res = take res_len (res ++ convert_to_bits u64 packed).
Proof.
  revert res. induction packed as [|[a b] packed IH]; intros res Hl; cbn [push_batches].
  { cbn. rewrite app_nil_r, take_ge by lia. done. }
  cbn [get_ab sa sb] in *. rewrite push_bits_spec by done.
  set (bits := (fun k => share_new (get_bit_as_bit u64 a k) (get_bit_as_bit u64 b k)) <$> seq 0 64).
  assert (convert_to_bits u64 (mkShare a b :: packed) = bits ++ convert_to_bits u64 packed) as ->.
  { unfold convert_to_bits. rewrite bind_cons. f_equal. }
  change (0 <? 64)%nat with true. rewrite andb_true_r. destruct (Nat.leb_spec res_len (length res + 64)) as [Hle|Hlt].
  - rewrite (app_assoc res bits), (take_app_le (res ++ bits)); [done|]. rewrite length_app. unfold bits. rewrite length_fmap, length_seq. lia.
  - assert (length (res ++ bits) = (length res + 64)%nat) as Hlb by (rewrite length_app; unfold bits; by rewrite length_fmap, length_seq).
    rewrite take_ge by lia. rewrite IH by lia. by rewrite <- app_assoc.
Qed.

(** ** Planes of shared values *)

Section PlaneSpecs.
Context {T : IntRing2k} {HT : IntRing2kOk T}.

Lemma dealt_rep_valid cs : Forall (valid3 T) cs -> tvec (rep_valid T) (dealt cs) cs.
Proof.
  induction 1 as [|c cs Hc Hcs IH]; [constructor|].
  exact (tvec_cons (rep_valid T) _ _ _ _ (conj (rep3_tof c) Hc) IH).
Qed.

Lemma shares_xor_dealt (v : tri (list Share)) xs :
  tvec (shares_xor T) v xs ->
  exists cs, v = dealt cs /\ Forall (valid3 T) cs /\ xs = xor3 <$> cs.
Proof.
  induction 1 as [|s v x xs (c & Hs & Hc & <-) Hv (cs & -> & Hcs & ->)].
  { exists []. split_and!; done. }
  exists (c :: cs). split_and!; [|by constructor|done].
  apply tri_ext. intros i. rewrite tget_tcons, Hs. unfold dealt. rewrite !tget_tof. by rewrite fmap_cons.
Qed.

(** Bit [b] of entry [64 j + l], zero past the end. *)
Definition entry (xs : list Z) (j l : nat) : Z := default 0 (xs !! (64 * j + l)%nat).
Definition plane (xs : list Z) (b : nat) : bitfun := fun j l => Z.testbit (entry xs j l) (Z.of_nat b).

Lemma holds3_xor n v F :
  holds3 n v F ->
  vholds (T:=net_u64) n v (fun j l => xorb (xorb (F ID0 j l) (F ID1 j l)) (F ID2 j l)).
Proof.
  unfold holds3, vholds, words. change (Z.to_nat (K net_u64)) with 64%nat. generalize (seq 0 n). intros js. revert v.
  induction js as [|j js IH]; intros v Hv.
  { apply tvec_nil_inv in Hv as ->. constructor. }
  rewrite fmap_cons in Hv. apply tvec_cons_inv in Hv as (s & w & -> & [Hs Hc] & Hw).
  rewrite fmap_cons. constructor; [|by apply IH]. eexists. split; [exact Hs|]. split; [exact Hc|].
  unfold xor3. cbn [at0 at1 at2 tof].
  rewrite (word_of_op2 Z.lxor xorb 64 (F ID0 j) (F ID1 j)) by (done || intros; apply Z.lxor_spec).
  apply (word_of_op2 Z.lxor xorb); [done|intros; apply Z.lxor_spec].
Qed.

(** Bit-slicing XOR shares yields shares of the planes. *)
Lemma transpose_xor `{!Transpose64 T} v xs :
  tvec (shares_xor T) v xs ->
  exists planes, (forall i, transpose_pack_u64 (v @ i) = Ok (planes @ i)) /\
    tvec (vholds (T:=net_u64) (div_ceil (length xs) 64)) planes (plane xs <$> seq 0 (Z.to_nat (K T))).
Proof.
  intros Hv. apply shares_xor_dealt in Hv as (cs & -> & Hcs & ->).
  destruct (transpose_rep3 T _ cs (dealt_rep_valid cs Hcs)) as (planes & Hp & Ht).
  exists planes. split; [done|]. rewrite length_fmap. revert Ht. generalize (seq 0 (Z.to_nat (K T))). intros bs. revert planes Hp.
  generalize (div_ceil (length cs) 64). intros n planes _. revert planes.
  induction bs as [|b bs IH]; intros planes Hp.
  { apply tvec_nil_inv in Hp as ->. constructor. }
  rewrite fmap_cons in Hp. apply tvec_cons_inv in Hp as (s & w & -> & Hs & Hw). rewrite fmap_cons.
  constructor; [|by apply IH]. eapply vholds_ext; [|by apply holds3_xor].
  intros j l _ _. unfold plane, entry, comp. rewrite list_lookup_fmap.
  destruct (cs !! (64 * j + l)%nat) as [c|]; cbn; [unfold xor3; by rewrite !Z.lxor_spec|by rewrite Z.testbit_0_l].
Qed.

Lemma lane_testbits k (e : nat -> nat -> Z) j l :
  0 <= e j l < 2 ^ Z.of_nat k -> lane ((fun b j l => Z.testbit (e j l) (Z.of_nat b)) <$> seq 0 k) j l = e j l.
Proof.
  intros He. unfold lane. rewrite <- list_fmap_compose. cbn. apply Z.bits_inj'. intros i Hi.
  rewrite <- (Z2Nat.id i) by done. rewrite of_bits_testbit, list_lookup_fmap.
  destruct (decide (Z.to_nat i < k)%nat) as [Hlt|Hge].
  - by rewrite lookup_seq_lt by done.
  - rewrite lookup_seq_ge by lia. cbn. symmetry. apply (testbit_high (Z.of_nat k)); [done|lia].
Qed.

Lemma lane_planes xs k j l :
  Forall (fun x => 0 <= x < 2 ^ Z.of_nat k) xs -> lane (plane xs <$> seq 0 k) j l = entry xs j l.
Proof.
  intros Hxs. apply (lane_testbits k (entry xs)). unfold entry.
  destruct (xs !! _) as [x|] eqn:E; [exact (Forall_lookup_1 _ _ _ _ Hxs E)|].
  cbn. pose proof (Z.pow_pos_nonneg 2 (Z.of_nat k)). lia.
Qed.
End PlaneSpecs.

Section ExtractSpec.
Context {R : Rng} {HR : RngOk R} (ids : tri Identity) (sid : Z).
Context {T : NetworkInt} {HT : NetworkIntOk T} {HTr : Transpose64 T}.
Hypothesis HK : 2 <= K T.

Lemma tvec_shares_xor_valid v xs : tvec (shares_xor T) v xs -> Forall (valid T) xs.
Proof. induction 1; constructor; [by eapply shares_xor_valid|done]. Qed.

Lemma top_bit y z : Z.testbit (y +[T] z) (K T - 1) = Z.testbit (y + z) (K T - 1).
Proof.
  assert (forall a b : Z, a ==[2 ^ K T] b -> Z.testbit a (K T - 1) = Z.testbit b (K T - 1)) as H.
  { intros a b Hab. rewrite <- (Z.mod_pow2_bits_low a (K T)), <- (Z.mod_pow2_bits_low b (K T)) by lia. by rewrite Hab. }
  apply H, re_add_ceq.
Qed.

(** [extract_msb] packs the sign bits: bit [l] of word [j] is the top bit of
    entry [64 j + l]. *)
Lemma extract_msb_spec v xs :
  tvec (shares_add T) v xs -> Z.of_nat (length xs * BYTES T) < 2 ^ 32 ->
  Z.of_nat (Z.to_nat (K T) * div_ceil (length xs) 64 * 8) < 2 ^ 32 ->
  proto (R := R) ids sid (fun i => extract_msb T (v @ i))
    (fun out => vholds (T:=net_u64) (div_ceil (length xs) 64) out
       (fun j l => Z.testbit (entry xs j l) (K T - 1))).
Proof.
  intros Hv Hn Hw. eapply proto_bind; [by apply (two_way_split_spec ids sid v xs)|].
  intros o (ys & zs & Ly & Lz & Hx & Hy & Hz).
  destruct (transpose_xor _ _ Hy) as (py & Ey & Py). destruct (transpose_xor _ _ Hz) as (pz & Ez & Pz).
  rewrite Ly in Py. rewrite Lz in Pz.
  apply (proto_ext ids sid _ (fun i => x1_t ← liftr (transpose_pack_u64 ((fst <$> o) @ i));
    x2_t ← liftr (transpose_pack_u64 ((snd <$> o) @ i)); binary_add_2_get_msb net_u64 x1_t x2_t)).
  { intros s i _. rewrite !tget_fmap. by destruct (o @ i). }
  eapply proto_bind; [by apply (proto_liftr ids sid _ py (fun p => tvec (vholds (T:=net_u64) (div_ceil (length xs) 64)) p (plane ys <$> seq 0 (Z.to_nat (K T)))))|].
  intros py' Py'.
  eapply proto_bind; [by apply (proto_liftr ids sid _ pz (fun p => tvec (vholds (T:=net_u64) (div_ceil (length xs) 64)) p (plane zs <$> seq 0 (Z.to_nat (K T)))))|].
  intros pz' Pz'.
  eapply proto_mono; [|apply (binary_add_2_spec ids sid (div_ceil (length xs) 64) py' pz' _ _ Py' Pz');
    rewrite !length_fmap, !length_seq; done || lia].
  intros out. apply vholds_ext. intros j l _ _. rewrite length_fmap, length_seq.
  rewrite !lane_planes by (rewrite Z2Nat.id by lia; by eapply tvec_shares_xor_valid).
  replace (Z.of_nat (Z.to_nat (K T) - 1)) with (K T - 1) by lia. rewrite <- top_bit. f_equal.
  rewrite Hx. unfold entry. rewrite lookup_zip_with.
  destruct (ys !! (64 * j + l)%nat) as [y|] eqn:E.
  - destruct (lookup_lt_is_Some_2 zs (64 * j + l)) as [z ->]; [|done].
    apply lookup_lt_Some in E. lia.
  - rewrite (lookup_ge_None_2 zs); [|apply lookup_ge_None in E; lia]. cbn.
    apply (valid_eq (T:=T)); [apply re_add_valid; apply valid_b2z with (b := false)|apply valid_b2z with (b := false)|].
    apply re_add_ceq.
Qed.

Lemma entry_at xs e : entry xs (e / 64) (e mod 64) = default 0 (xs !! e).
Proof. unfold entry. by rewrite <- Nat.div_mod_eq. Qed.

Lemma div_ceil_le n : (n <= div_ceil n 64 * 64)%nat.
Proof. unfold div_ceil. pose proof (Nat.div_mod_eq (n + 64 - 1) 64). pose proof (Nat.mod_upper_bound (n + 64 - 1) 64). lia. Qed.

Lemma fmap_entries {A} (f : Z -> A) xs : (fun e => f (default 0 (xs !! e))) <$> seq 0 (length xs) = f <$> xs.
Proof.
  apply list_eq. intros k. rewrite !list_lookup_fmap. destruct (decide (k < length xs)%nat) as [Hk|Hk].
  - rewrite lookup_seq_lt by done. cbn. by destruct (lookup_lt_is_Some_2 xs k Hk) as [x ->].
  - rewrite lookup_seq_ge, lookup_ge_None_2 by lia. done.
Qed.

Lemma push_batches_all packed res_len :
  (res_len = 0%nat -> packed = []) ->
  push_batches packed res_len [] = vs_truncate (convert_to_bits u64 packed) res_len.
Proof.
  intros H0. destruct res_len as [|n]; [by rewrite H0|]. by rewrite push_batches_spec by (cbn; lia).
Qed.

(** [extract_msb_batch] returns shares of the sign bits. *)
Lemma extract_msb_batch_spec v xs :
  tvec (shares_add T) v xs -> Z.of_nat (length xs * BYTES T) < 2 ^ 32 ->
  Z.of_nat (Z.to_nat (K T) * div_ceil (length xs) 64 * 8) < 2 ^ 32 ->
  proto (R := R) ids sid (fun i => extract_msb_batch T (v @ i))
    (fun out => tvec (shares_xor Bit) out ((fun x => Z.b2z (Z.testbit x (K T - 1))) <$> xs)).
Proof.
  intros Hv Hn Hw. eapply proto_bind; [by apply (extract_msb_spec v xs)|]. intros p Hp.
  pose proof (fun i => vholds_length _ _ _ i Hp) as Hpl.
  apply (vholds_bits _ _ _ (length xs)) in Hp; [|apply div_ceil_le].
  eapply proto_ext; [|apply (proto_ret ids sid (tof (fun i => vs_truncate (convert_to_bits net_u64 (p @ i)) (length xs))))].
  - intros s i _. cbn beta. rewrite tget_tof, (tvec_length _ _ _ i Hv). f_equal. apply push_batches_all.
    intros H0. apply nil_length_inv. by rewrite Hpl, H0.
  - rewrite <- (fmap_entries (fun x => Z.b2z (Z.testbit x (K T - 1))) xs).
    change (Z.to_nat (K net_u64)) with 64%nat in Hp. unfold bit_at in Hp.
    rewrite (list_fmap_ext _ (fun e => Z.b2z (Z.testbit (default 0 (xs !! e)) (K T - 1))) (seq 0 (length xs))) in Hp; [done|].
    intros k e _. by rewrite entry_at.
Qed.

(** [single_extract_msb]: the sign bit of one value. *)
Lemma single_extract_msb_spec s x :
  shares_add T s x -> Z.of_nat (BYTES T) < 2 ^ 32 -> K T < 2 ^ 28 ->
  proto (R := R) ids sid (fun i => single_extract_msb T (s @ i))
    (fun out => shares_xor Bit out (Z.b2z (Z.testbit x (K T - 1)))).
Proof.
  intros Hs Hb Hk. assert (tvec (shares_add T) (tcons s tnil) [x]) as Hv by (constructor; [done|constructor]).
  eapply proto_bind.
  { eapply proto_ext; [|apply (extract_msb_spec (tcons s tnil) [x] Hv); cbn [length]; [lia|]].
    - intros ss i _. by destruct i.
    - change (div_ceil 1 64) with 1%nat. lia. }
  intros p Hp. change (div_ceil (length [x]) 64) with 1%nat in Hp.
  unfold vholds, words in Hp. cbn [seq fmap list_fmap] in Hp.
  apply tvec_cons_inv in Hp as (w & w' & -> & Hw & Hw'). apply tvec_nil_inv in Hw' as ->.
  pose proof (from_share_bits w _ Hw) as Hbits.
  eapply proto_bind; [apply (proto_liftr ids sid _ w (fun w' => w' = w)); [by intros []|done]|]. intros ? ->.
  destruct (tvec_lookup _ _ _ 0 (Z.b2z (Z.testbit x (K T - 1))) Hbits) as (b & Hb0 & Hbx).
  { rewrite list_lookup_fmap, lookup_seq_lt by (cbn; lia). cbn [fmap option_fmap option_map Nat.add].
    rewrite (proj2 (word_of_spec _ _)). done. }
  eapply proto_ext; [|apply (proto_ret ids sid b)].
  - intros ss i _. cbn beta. specialize (Hb0 i). rewrite tget_fmap in Hb0. unfold vs_from_share in Hb0.
    cbn [get_ab] in *. cbn in Hb0. injection Hb0 as Hb0. by rewrite <- Hb0.
  - done.
Qed.
End ExtractSpec.

(** ** Opening bits *)

(* binary.rs:1787-1820 open_bin *)
Definition open_bin {R} (shares : list Share) : M R (list Z) :=
  let message := match shares with
                 | [s] => RingElementBit (sb s)
                 | _ => pack_bits (sb <$> shares)
                 end in
  _ ← net (fun n => send_next n message);
  r ← liftp receive_prev;
  b_from_previous ← liftr (
    v ← map_err "Error in receiving in open_bin operation" r;
    map_err "Wrong value type received in open_bin operation" (unpack_bits v));
  if negb (length b_from_previous =? length shares)%nat
  then liftr (bail "Bit count mismatch in open_bin")
  else mret (zip_with (fun s prev_b => sa s ^[Bit] sb s ^[Bit] prev_b) shares b_from_previous).

Definition open_bin_message (shares : list Share) : NetworkValue :=
  match shares with [s] => RingElementBit (sb s) | _ => pack_bits (sb <$> shares) end.

Lemma unpack_open_bin shares :
  Forall (fun s => valid Bit (sb s)) shares -> unpack_bits (open_bin_message shares) = Ok (sb <$> shares).
Proof.
  intros Hv. destruct shares as [|s [|s' l]]; [by apply unpack_packed| |].
  - unfold open_bin_message, unpack_bits, unpack_bits_framed. apply Forall_inv in Hv.
    first [done | (unfold valid in Hv; cbn in Hv; done)].
  - apply unpack_packed, Forall_fmap. done.
Qed.

Section OpenBin.
Context {R : Rng} (ids : tri Identity) (sid : Z).

Lemma open_bin_spec v bs :
  tvec (shares_xor Bit) v bs ->
  proto (R := R) ids sid (fun i => open_bin (v @ i)) (fun out => forall i, out @ i = bs).
Proof.
  intros Hv. apply shares_xor_dealt in Hv as (cs & -> & Hcs & ->).
  assert (forall i, (dealt cs) @ i = (fun c => mkShare (c @ i) (c @ (prev_id i))) <$> cs) as Hd
    by (intros i; unfold dealt; by rewrite tget_tof).
  assert (forall i, sb <$> (dealt cs) @ i = (fun c => c @ (prev_id i)) <$> cs) as Hb
    by (intros i; rewrite Hd, <- list_fmap_compose; done).
  set (msg := open_bin_message <$> dealt cs).
  assert (forall i, unpack_bits (msg @ i) = Ok ((fun c => c @ (prev_id i)) <$> cs)) as Hm.
  { intros i. unfold msg. rewrite tget_fmap, unpack_open_bin, Hb; [done|].
    rewrite Hd. apply Forall_fmap. eapply Forall_impl; [exact Hcs|]. intros c Hc. apply Hc. }
  apply (proto_ext ids sid _ (fun i => _ ← net (fun n => send_next n (msg @ i)); r ← liftp receive_prev;
    b ← liftr (v ← map_err "Error in receiving in open_bin operation" r;
               map_err "Wrong value type received in open_bin operation" (unpack_bits v));
    if negb (length b =? length ((dealt cs) @ i))%nat then liftr (bail "Bit count mismatch in open_bin")
    else mret (zip_with (fun s prev_b => sa s ^[Bit] sb s ^[Bit] prev_b) ((dealt cs) @ i) b))).
  { intros s i _. unfold open_bin, msg. by rewrite tget_fmap. }
  apply (proto_round ids sid msg). eapply proto_bind.
  { apply (proto_liftr ids sid _ (tof (fun i => (fun c => c @ (next_id i)) <$> cs))
      (fun b => b = tof (fun i => (fun c => c @ (next_id i)) <$> cs))); [|done].
    intros i. cbn [map_err mbind result_bind]. rewrite Hm, tget_tof. by destruct i. }
  intros ? ->. eapply proto_ext; [|apply (proto_ret ids sid (tof (fun _ => xor3 <$> cs)))].
  - intros s i _. cbn beta. rewrite !tget_tof, Hd, !length_fmap, Nat.eqb_refl. cbn [negb]. f_equal.
    clear. induction cs as [|c cs IH]; [done|]. rewrite !fmap_cons. cbn [zip_with sa sb]. f_equal; [|exact IH].
    unfold re_xor. rewrite !(ir_xor_eq (T:=Bit)). unfold xor3. destruct i; cbn; xor_crush.
  - intros i. by rewrite tget_tof.
Qed.
End OpenBin.

(** ** Claims *)

(** [two_way_split] splits every shared value into two: it returns XOR
    shares of two vectors whose entries sum to the inputs modulo [2^K], on
    vectors of any length and for each rotation of the parts. *)
Theorem two_way_split_correct (R : Rng) `{!RngOk R} ids sid (T : NetworkInt) `{!NetworkIntOk T} v xs :
  tvec (shares_add T) v xs -> Z.of_nat (length xs * BYTES T) < 2 ^ 32 ->
  proto (R := R) ids sid (fun i => two_way_split T (v @ i)) (fun out =>
    exists ys zs, length ys = length xs /\ length zs = length xs /\ xs = zip_with (re_add T) ys zs /\
      tvec (shares_xor T) (fst <$> out) ys /\ tvec (shares_xor T) (snd <$> out) zs).
Proof. intros. by apply two_way_split_spec. Qed.

Lemma two_way_split_correct_witness :
  let v := dealt [Tri 1 2 65535; Tri 4 5 6; Tri 0 0 0; Tri 9 9 9] in
  proto (R := counter_rng) demo_ids 1 (fun i => two_way_split net_u16 (v @ i)) (fun out =>
    exists ys zs, length ys = 4%nat /\ length zs = 4%nat /\ [2; 15; 0; 27] = zip_with (re_add u16) ys zs /\
      tvec (shares_xor u16) (fst <$> out) ys /\ tvec (shares_xor u16) (snd <$> out) zs).
Proof.
  apply (two_way_split_correct counter_rng demo_ids 1 net_u16 _ [2; 15; 0; 27]); [|done].
  apply (dealt_add u16 [Tri 1 2 65535; Tri 4 5 6; Tri 0 0 0; Tri 9 9 9]). solve_valid3.
Defined.

(** Sign extraction is correct: from arithmetic shares of values of any
    [K]-bit ring the parties obtain XOR shares of exactly their top bits, in
    order, for a batch of any length the wire format can carry. *)
Theorem extract_msb_batch_correct (R : Rng) `{!RngOk R} ids sid (T : NetworkInt) `{!NetworkIntOk T}
    {HTr : Transpose64 T} v xs :
  2 <= K T -> tvec (shares_add T) v xs -> Z.of_nat (length xs * BYTES T) < 2 ^ 32 ->
  Z.of_nat (Z.to_nat (K T) * div_ceil (length xs) 64 * 8) < 2 ^ 32 ->
  proto (R := R) ids sid (fun i => extract_msb_batch T (v @ i))
    (fun out => tvec (shares_xor Bit) out ((fun x => Z.b2z (Z.testbit x (K T - 1))) <$> xs)).
Proof. intros. by apply extract_msb_batch_spec. Qed.

Lemma extract_msb_batch_correct_witness :
  let v := dealt [Tri 1 2 65533; Tri 4 5 6; Tri 30000 1 2767] in
  proto (R := counter_rng) demo_ids 1 (fun i => extract_msb_batch net_u16 (HTr := Transpose64_u16) (v @ i))
    (fun out => tvec (shares_xor Bit) out [0; 0; 1]).
Proof.
  apply (extract_msb_batch_correct counter_rng demo_ids 1 net_u16 (HTr := Transpose64_u16) _ [0; 15; 32768]);
    [cbn; lia| |done|done].
  apply (dealt_add u16 [Tri 1 2 65533; Tri 4 5 6; Tri 30000 1 2767]). solve_valid3.
Defined.

(** Opening is correct: every party learns exactly the shared bits, whether
    they travel as one element or as a packed bit vector. *)
Theorem open_bin_correct (R : Rng) ids sid v bs :
  tvec (shares_xor Bit) v bs ->
  proto (R := R) ids sid (fun i => open_bin (v @ i)) (fun out => forall i, out @ i = bs).
Proof. intros. by apply open_bin_spec. Qed.

Lemma open_bin_correct_witness :
  proto (R := counter_rng) demo_ids 0 (fun i => open_bin ((dealt [Tri 1 0 0; Tri 1 1 0]) @ i))
    (fun out => forall i, out @ i = [1; 0]).
Proof.
  apply (open_bin_correct counter_rng demo_ids 0 _ [1; 0]).
  apply (dealt_xor Bit [Tri 1 0 0; Tri 1 1 0]). solve_valid3.
Defined.
