(* ===== verification/AndProduct.v ===== *)
(** * AND of a list of bit vectors: [ampc-actor-utils/src/protocol/binary.rs]

    [and_product] halves a list of shared bit vectors until one is left; every
    round packs the two halves into words and ANDs them in one message. *)

From S2P Require Import Prelude IntRing RingImpl Party Share VecShare Transpose Value Net Prf Proto Circuits Binary Adder Inject Convert.
From stdpp Require Import option base list numbers strings gmap.
From Stdlib Require Import ZArith Lia Btauto.
Local Open Scope Z_scope.

Section Protocols.
Context {R : Rng}.

(** One round of the loop. *)
(* binary.rs:294-310 and_product (one round) *)
Definition and_halves (res : list VecShare) (len : nat) : M R (list VecShare) :=
  let '(res, maybe_last_column) := pop_odd (Nat.odd (length res)) res in
  let half_len := (length res / 2)%nat in
  let left_bits := pack u64 (concat (take half_len res)) in
  let right_bits := pack u64 (concat (drop half_len res)) in
  and_bits ← and_many net_u64 left_bits right_bits;
  let and_bits := convert_to_bits u64 and_bits in
  let num_and_bits := (half_len * len)%nat in
  res ← liftr (chunks_checked len (vs_truncate and_bits num_and_bits));
  mret (res ++ option_list maybe_last_column).

(** Every round leaves fewer columns, so their number is enough fuel. *)
(* binary.rs:293-311 and_product (while loop) *)
Fixpoint and_product_loop (fuel : nat) (res : list VecShare) (len : nat) : M R (list VecShare) :=
  if (length res <=? 1)%nat then mret res
  else match fuel with
  | O => liftr (panic "out of fuel")
  | S fuel => res ← and_halves res len; and_product_loop fuel res len
  end.

(* binary.rs:278-313 and_product *)
Definition and_product (v : list VecShare) (len : nat) : M R VecShare :=
  if (length v =? 0)%nat then liftr (bail "Input vector is empty") else
  if existsb (fun vec_share => negb (length vec_share =? len)%nat) v
  then liftr (bail "Input vector shares have different lengths") else
  res ← and_product_loop (length v) v len;
  liftr (ok_or (last res) "Not enough elements").
End Protocols.

(** ** Packing shared bits *)

(** The bits of a list, as the lanes of packed words. *)
Definition list_bits (bs : list Z) : bitfun := fun j l => bit_convert (default 0 (bs !! (64 * j + l)%nat)).

Lemma pack_chunk_shares v bs :
  tvec (shares_xor Bit) v bs -> (length bs <= 64)%nat ->
  shares_xor u64 (tof (fun i => share_new (pack_loop u64 (re_zero u64) 0 (sa <$> v @ i)) (pack_loop u64 (re_zero u64) 0 (sb <$> v @ i))))
    (pack_loop u64 (re_zero u64) 0 bs).
Proof.
  intros Hv Hl. apply shares_xor_dealt in Hv as (cs & -> & Hcs & ->). rewrite length_fmap in Hl.
  set (w := fun i : PartyID => pack_loop u64 (re_zero u64) 0 ((fun c => c @ i) <$> cs)).
  exists (tof w). split_and!.
  - intros i. unfold dealt. rewrite !tget_tof, <- !list_fmap_compose. done.
  - intros i. rewrite tget_tof. apply (pack_chunk_spec (T:=u64)). rewrite length_fmap. cbn. lia.
  - assert (forall bits, (length bits <= 64)%nat -> forall j : nat, Z.testbit (pack_loop u64 (re_zero u64) 0 bits) (Z.of_nat j)
      = default false (bit_convert <$> bits !! j)) as Hb by (intros bits Hb; apply (pack_chunk_spec (T:=u64)); cbn; lia).
    apply Z.bits_inj'. intros k Hk. rewrite <- (Z2Nat.id k) by done. unfold xor3. cbn [at0 at1 at2 tof]. rewrite !Z.lxor_spec.
    unfold w. rewrite !Hb by (rewrite length_fmap; lia). rewrite !list_lookup_fmap.
    destruct (cs !! Z.to_nat k) as [c|] eqn:E; [|done]. cbn.
    pose proof (Forall_lookup_1 _ _ _ _ Hcs E) as Hc.
    assert (forall i, c @ i = 0 \/ c @ i = 1) as H01 by (intros i; specialize (Hc i); unfold valid in Hc; change (2 ^ K Bit) with 2 in Hc; lia).
    unfold xor3. destruct (H01 ID0) as [E0|E0], (H01 ID1) as [E1|E1], (H01 ID2) as [E2|E2]; cbn in E0, E1, E2; by rewrite E0, E1, E2.
Qed.

Lemma pack_vholds v bs :
  tvec (shares_xor Bit) v bs -> vholds (T:=net_u64) (div_ceil (length bs) 64) (pack u64 <$> v) (list_bits bs).
Proof.
  revert v. pattern bs. apply (chunk_ind 64); clear bs; [lia|intros v Hv|intros bs Hbs IH v Hv].
  { apply tvec_nil_inv in Hv as ->. constructor. }
  assert (0 < length bs)%nat as Hlen by (destruct bs; [done|cbn; lia]).
  rewrite div_ceil_step by lia. specialize (IH _ (tvec_drop _ 64 _ _ Hv)). rewrite length_drop in IH.
  pose proof (tvec_take _ 64 _ _ Hv) as Ht.
  unfold vholds, words in *. change (Z.to_nat (K net_u64)) with 64%nat in *. cbn [seq]. rewrite fmap_cons, <- (fmap_S_seq 0), <- list_fmap_compose.
  replace (pack u64 <$> v) with (tcons (tof (fun i => share_new (pack_loop u64 (re_zero u64) 0 (sa <$> (take 64 <$> v) @ i))
      (pack_loop u64 (re_zero u64) 0 (sb <$> (take 64 <$> v) @ i)))) (pack u64 <$> (drop 64 <$> v))).
  - constructor.
    + assert (word_of 64 (list_bits bs 0) = pack_loop u64 (re_zero u64) 0 (take 64 bs)) as ->.
      { destruct (pack_chunk_spec (T:=u64) (take 64 bs)) as [Vp Hp]; [change (K u64) with 64; rewrite length_take; lia|].
        rewrite <- (word_of_testbit 64 (pack_loop u64 (re_zero u64) 0 (take 64 bs))) by exact Vp.
        apply word_of_ext. intros l Hl. rewrite Hp, lookup_take_lt by done. unfold list_bits. cbn [Nat.mul Nat.add].
        by destruct (bs !! l). }
      apply (pack_chunk_shares _ _ Ht). rewrite length_take. lia.
    + refine (eq_ind _ (tvec (shares_xor net_u64) (pack u64 <$> (drop 64 <$> v))) IH _ _). apply list_fmap_ext. intros k j _.
      unfold compose. apply word_of_ext. intros l Hl. unfold list_bits. rewrite lookup_drop. do 2 f_equal. f_equal. lia.
  - apply tri_ext. intros i. rewrite tget_tcons, tget_tof, !tget_fmap. unfold pack at 2. rewrite chunks_cons; [done|cbn; lia|].
    rewrite <- length_zero_iff_nil, (tvec_length _ _ _ i Hv). lia.
Qed.

(** ** One round *)

Definition and_all (len : nat) (cols : list (list Z)) : list Z :=
  (fun e => Z.b2z (forallb (fun c => bit_convert (default 0 (c !! e))) cols)) <$> seq 0 len.

(** The columns of the two halves ANDed, the odd one kept. *)
Definition halve_cols (cols : list (list Z)) : list (list Z) :=
  let '(res, extra) := pop_odd (Nat.odd (length cols)) cols in
  zip_with (zip_with Z.land) (take (length res / 2) res) (drop (length res / 2) res) ++ option_list extra.

Lemma and_bits_value cl cr :
  Forall (valid Bit) cl -> Forall (valid Bit) cr -> length cl = length cr ->
  (fun e => Z.b2z (bit_at 64 (bf_and (list_bits cl) (list_bits cr)) e)) <$> seq 0 (length cl) = zip_with Z.land cl cr.
Proof.
  intros Hl Hr Hlen. apply list_eq. intros e. rewrite list_lookup_fmap, lookup_zip_with.
  destruct (decide (e < length cl)%nat) as [He|He].
  2: { by rewrite lookup_seq_ge, (lookup_ge_None_2 cl) by lia. }
  rewrite lookup_seq_lt by done. destruct (lookup_lt_is_Some_2 cl e He) as [x Hx]. destruct (lookup_lt_is_Some_2 cr e ltac:(lia)) as [y Hy].
  rewrite Hx, Hy. cbn. f_equal. unfold bit_at, bf_and, list_bits. rewrite <- Nat.div_mod_eq, Hx, Hy. cbn [default].
  pose proof (Forall_lookup_1 _ _ _ _ Hl Hx) as Vx. pose proof (Forall_lookup_1 _ _ _ _ Hr Hy) as Vy.
  unfold valid in Vx, Vy. change (2 ^ K Bit) with 2 in *.
  assert (x = 0 \/ x = 1) as [-> | ->] by lia; assert (y = 0 \/ y = 1) as [-> | ->] by lia; done.
Qed.

Lemma pop_odd_even {A} (l : list A) :
  l = (pop_odd (Nat.odd (length l)) l).1 ++ option_list (pop_odd (Nat.odd (length l)) l).2 /\
  exists h, length (pop_odd (Nat.odd (length l)) l).1 = (h * 2)%nat.
Proof.
  unfold pop_odd. destruct (Nat.odd (length l)) eqn:Ho; cbn [fst snd].
  - destruct l as [|x l _] using rev_ind; [done|]. rewrite removelast_app_one, last_snoc. split; [done|].
    apply Nat.odd_spec in Ho as [h Hh]. exists h. rewrite length_app in Hh. cbn in Hh. lia.
  - cbn. rewrite app_nil_r. split; [done|]. rewrite <- Nat.negb_even in Ho. apply negb_false_iff, Nat.even_spec in Ho as [h Hh]. exists h. lia.
Qed.

Lemma bits_valid v bs : tvec (shares_xor Bit) v bs -> Forall (valid Bit) bs.
Proof. induction 1 as [|s v b bs Hs Hv IH]; constructor; [by eapply (shares_xor_valid (T:=Bit))|done]. Qed.

Lemma Forall_zip_land len (l k : list (list Z)) :
  Forall (fun c => length c = len) l -> Forall (fun c => length c = len) k ->
  Forall (fun c => length c = len) (zip_with (zip_with Z.land) l k).
Proof.
  intros Hl. revert k. induction Hl as [|a l Ha Hl IH]; intros k Hk; [constructor|]. destruct Hk as [|b k Hb Hk]; [constructor|].
  cbn [zip_with]. constructor; [rewrite length_zip_with; lia|by apply IH].
Qed.

(** The ANDed halves and the odd column have the same AND as all columns. *)
Lemma bit_and_convert (a b : list Z) e :
  Forall (valid Bit) a -> Forall (valid Bit) b ->
  bit_convert (default 0 (zip_with Z.land a b !! e)) = bit_convert (default 0 (a !! e)) && bit_convert (default 0 (b !! e)).
Proof.
  intros Ha Hb. rewrite lookup_zip_with. destruct (a !! e) as [x|] eqn:Ex; [|done]. destruct (b !! e) as [y|] eqn:Ey; cbn; [|by rewrite andb_false_r].
  pose proof (Forall_lookup_1 _ _ _ _ Ha Ex) as Vx. pose proof (Forall_lookup_1 _ _ _ _ Hb Ey) as Vy.
  unfold valid in Vx, Vy. change (2 ^ K Bit) with 2 in *.
  assert (x = 0 \/ x = 1) as [-> | ->] by lia; assert (y = 0 \/ y = 1) as [-> | ->] by lia; done.
Qed.

Lemma halve_cols_all len cols :
  Forall (Forall (valid Bit)) cols -> and_all len (halve_cols cols) = and_all len cols.
Proof.
  intros Hv. unfold halve_cols. destruct (pop_odd_even cols) as [E [h Hh]].
  destruct (pop_odd _ cols) as [r e]. cbn [fst snd] in *. rewrite Hh, Nat.div_mul by done. subst cols.
  apply Forall_app in Hv as [Hv _]. rewrite <- (take_drop h r) at 3. rewrite <- (take_drop h r) in Hv. apply Forall_app in Hv as [H1 H2].
  assert (length (take h r) = length (drop h r)) as Hl by (rewrite length_take, length_drop; lia).
  revert Hl H1 H2. generalize (take h r) (drop h r). clear. intros l k Hl H1 H2. unfold and_all. apply list_fmap_ext. intros x e0 _. f_equal.
  rewrite !forallb_app. f_equal. revert k Hl H2. induction H1 as [|a l Ha H1 IH]; intros [|b k] Hl H2; try done.
  inversion H2 as [|? ? Hb H2']; subst. cbn. rewrite bit_and_convert, IH by (done || by injection Hl). btauto.
Qed.

Lemma length_halve_cols {cols} : (2 <= length cols)%nat -> (1 <= length (halve_cols cols) < length cols)%nat.
Proof.
  intros H2. unfold halve_cols. destruct (pop_odd_even cols) as [E [h Hh]].
  assert (length (option_list (pop_odd (Nat.odd (length cols)) cols).2) <= 1)%nat as Hx.
  { destruct (pop_odd _ cols).2; cbn; lia. }
  destruct (pop_odd _ cols) as [r e]. cbn [fst snd] in *. apply (f_equal length) in E. rewrite length_app in E.
  rewrite length_app, length_zip_with, length_take, length_drop, Hh, Nat.div_mul by done. lia.
Qed.

Lemma halve_cols_lengths len cols : Forall (fun c => length c = len) cols -> Forall (fun c => length c = len) (halve_cols cols).
Proof.
  intros H. unfold halve_cols. destruct (pop_odd_even cols) as [E _].
  destruct (pop_odd _ cols) as [r e]. cbn [fst snd] in *. rewrite E in H. apply Forall_app in H as [H1 H2].
  apply Forall_app. split; [|done]. apply Forall_zip_land; [by apply Forall_take|by apply Forall_drop].
Qed.

Section Spec.
Context {R : Rng} {HR : RngOk R} (ids : tri Identity) (sid : Z).

Lemma and_halves_spec res cols len :
  tvec (tvec (shares_xor Bit)) res cols -> Forall (fun c => length c = len) cols -> (0 < len)%nat ->
  Z.of_nat (length cols * len + 64) < 2 ^ 32 ->
  proto (R := R) ids sid (fun i => and_halves (res @ i) len) (fun out => tvec (tvec (shares_xor Bit)) out (halve_cols cols)).
Proof.
  intros Hres Hc Hlen Hn. set (o := Nat.odd (length cols)).
  destruct (tvec_pop_odd _ o res cols Hres) as [H1 He]. unfold halve_cols. fold o.
  set (r1 := tof (fun i => (pop_odd o (res @ i)).1)) in *. set (re := tof (fun i => option_list (pop_odd o (res @ i)).2)) in *.
  destruct (pop_odd_even cols) as [Ec [h Hh]]. fold o in Ec, Hh.
  destruct (pop_odd o cols) as [cols1 extra]. cbn [fst snd] in *. rewrite Hh, Nat.div_mul by done.
  assert (Forall (fun c => length c = len) cols1) as Hc1 by (rewrite Ec in Hc; by apply Forall_app in Hc as [? _]).
  assert (length cols1 <= length cols)%nat as Hle by (rewrite Ec, length_app; lia).
  pose proof (tvec_concat _ _ _ (tvec_take _ h _ _ H1)) as HL. pose proof (tvec_concat _ _ _ (tvec_drop _ h _ _ H1)) as HD.
  assert (forall l : list (list Z), Forall (fun c => length c = len) l -> length (concat l) = (length l * len)%nat) as Hcat.
  { induction 1 as [|c l Hcl Hl IH]; [done|]. cbn. rewrite length_app, IH, Hcl. done. }
  assert (length (concat (take h cols1)) = (h * len)%nat) as LL by (rewrite Hcat, length_take by (by apply Forall_take); f_equal; lia).
  assert (length (concat (drop h cols1)) = (h * len)%nat) as LD by (rewrite Hcat, length_drop by (by apply Forall_drop); f_equal; lia).
  pose proof (pack_vholds _ _ HL) as PL. pose proof (pack_vholds _ _ HD) as PD. rewrite LL in PL. rewrite LD in PD.
  set (n := div_ceil (h * len) 64) in *.
  assert (n * 64 <= h * len + 64)%nat as Hn' by (unfold n, div_ceil; pose proof (Nat.div_mod_eq (h * len + 64 - 1) 64); lia).
  assert (h * len * 2 <= length cols * len)%nat as Hn2 by nia.
  set (lft := pack u64 <$> _) in PL. set (rgt := pack u64 <$> _) in PD.
  apply (proto_ext ids sid _ (fun i => and_bits ← and_many net_u64 (lft @ i) (rgt @ i);
    res ← liftr (chunks_checked len (vs_truncate (convert_to_bits u64 and_bits) (h * len))); mret (res ++ re @ i))).
  { intros s i _. unfold and_halves. rewrite (tvec_length _ _ _ i Hres). fold o. pose proof (tvec_length _ _ _ i H1) as Hr1.
    unfold lft, rgt, re, r1 in *. rewrite !tget_fmap, !tget_tof in *. destruct (pop_odd o (res @ i)) as [a b]. cbn [fst snd] in *.
    by rewrite Hr1, Hh, Nat.div_mul. }
  eapply proto_bind; [apply (and_many_vholds ids sid n _ _ _ _ PL PD); change (BYTES net_u64) with 8%nat; lia|].
  intros out Ho. apply (vholds_bits n _ _ (h * len)) in Ho; [|apply div_ceil_le]. change (Z.to_nat (K net_u64)) with 64%nat in Ho.
  replace (seq 0 (h * len)) with (seq 0 (length (concat (take h cols1)))) in Ho by (by rewrite LL).
  rewrite and_bits_value in Ho; [|by eapply bits_valid..|congruence].
  assert (length <$> take h cols1 = length <$> drop h cols1) as Hll.
  { assert (forall l : list (list Z), Forall (fun c => length c = len) l -> length <$> l = replicate (length l) len) as Hrep.
    { induction 1 as [|c l Hcl Hl IH]; [done|]. rewrite fmap_cons, IH, Hcl. done. }
    rewrite !Hrep by (by apply Forall_take || by apply Forall_drop). f_equal. rewrite length_take, length_drop. lia. }
  rewrite (proj1 (zip_land_concat _ _ Hll)) in Ho. apply tvec_chunks with (n := len) in Ho; [|done|].
  2: { apply Forall_zip_land; by apply Forall_take || by apply Forall_drop. }
  set (ch := chunks len <$> _) in Ho.
  eapply proto_bind.
  { apply (proto_liftr ids sid _ ch (fun x => x = ch)); [|done].
    intros i. unfold ch. rewrite tget_fmap, tget_tof. unfold chunks_checked. destruct len; [lia|done]. }
  intros ? ->. eapply proto_ext; [|apply (proto_ret ids sid _ _ (tvec_app _ _ _ _ _ Ho He))].
  intros s i _. cbn beta. unfold tapp. by rewrite tget_tof.
Qed.

Lemma and_loop_spec fuel res cols len :
  tvec (tvec (shares_xor Bit)) res cols -> Forall (fun c => length c = len) cols -> (0 < len)%nat ->
  Z.of_nat (length cols * len + 64) < 2 ^ 32 -> (1 <= length cols <= fuel)%nat ->
  proto (R := R) ids sid (fun i => and_product_loop fuel (res @ i) len)
    (fun out => exists c, tvec (tvec (shares_xor Bit)) out [c] /\ length c = len /\ and_all len [c] = and_all len cols).
Proof.
  revert res cols. induction fuel as [|fuel IH]; intros res cols Hr Hc Hlen Hn Hf; [lia|].
  destruct (Nat.leb_spec (length cols) 1) as [H1|H1].
  - apply (proto_ext ids sid _ (fun i => mret (res @ i))); [intros s i _; cbn [and_product_loop]; by rewrite (tvec_length _ _ _ i Hr), (proj2 (Nat.leb_le _ _) H1)|].
    apply proto_ret. destruct cols as [|c [|? ?]]; cbn in Hf, H1; try lia. exists c. split_and!; [done| |done]. by inversion Hc.
  - apply (proto_ext ids sid _ (fun i => r ← and_halves (res @ i) len; and_product_loop fuel r len));
      [intros s i _; cbn [and_product_loop]; by rewrite (tvec_length _ _ _ i Hr), (proj2 (Nat.leb_gt _ _) H1)|].
    eapply proto_bind; [by apply and_halves_spec|]. intros r Hr'. pose proof (length_halve_cols (cols:=cols) ltac:(lia)) as Hl.
    eapply proto_mono; [|apply (IH r (halve_cols cols)); [done|by apply halve_cols_lengths|done| |lia]].
    + intros out (c & Ho & Lc & Ec). exists c. split_and!; [done..|]. rewrite Ec. apply halve_cols_all.
      clear - Hr. induction Hr as [|s v c cols Hs Hr IHr]; constructor; [by eapply bits_valid|done].
    + nia.
Qed.

(** The protocol ANDs all the vectors, position by position. *)
Lemma and_product_spec v cols len :
  tvec (tvec (shares_xor Bit)) v cols -> Forall (fun c => length c = len) cols -> (0 < len)%nat -> (1 <= length cols)%nat ->
  Z.of_nat (length cols * len + 64) < 2 ^ 32 ->
  proto (R := R) ids sid (fun i => and_product (v @ i) len) (fun out => tvec (shares_xor Bit) out (and_all len cols)).
Proof.
  intros Hv Hc Hlen H1 Hn.
  apply (proto_ext ids sid _ (fun i => res ← and_product_loop (length cols) (v @ i) len; liftr (ok_or (last res) "Not enough elements"))).
  { intros s i _. unfold and_product. rewrite (tvec_length _ _ _ i Hv), (proj2 (Nat.eqb_neq _ 0)) by lia.
    assert (existsb (fun vec_share => negb (length vec_share =? len)%nat) (v @ i) = false) as ->; [|done].
    apply not_true_iff_false. intros (x & Hx & Hb)%existsb_exists. apply list_elem_of_In, list_elem_of_lookup in Hx as [k Hk].
    destruct (lookup_lt_is_Some_2 cols k) as [c Hck]; [rewrite <- (tvec_length _ _ _ i Hv); by eapply lookup_lt_Some|].
    destruct (tvec_lookup _ _ _ _ _ Hv Hck) as (s' & Hs' & Hsc). rewrite Hs' in Hk. injection Hk as <-.
    rewrite (tvec_length _ _ _ i Hsc), (Forall_lookup_1 _ _ _ _ Hc Hck), Nat.eqb_refl in Hb. done. }
  eapply proto_bind; [by apply and_loop_spec|]. intros out (c & Ho & Lc & Ec).
  apply tvec_cons_inv in Ho as (s & w & -> & Hs & Hw). apply tvec_nil_inv in Hw as ->.
  apply (proto_liftr ids sid _ s); [intros i; by rewrite tget_tcons; destruct i|].
  rewrite <- Ec. refine (eq_ind _ (tvec (shares_xor Bit) s) Hs _ _). apply bits_valid in Hs.
  apply list_eq. intros e. unfold and_all. rewrite list_lookup_fmap. destruct (decide (e < len)%nat) as [He|He].
  2: { by rewrite lookup_seq_ge, lookup_ge_None_2 by lia. }
  rewrite lookup_seq_lt by done. destruct (lookup_lt_is_Some_2 c e) as [x Hx]; [lia|]. cbn. rewrite Hx. cbn. f_equal.
  pose proof (Forall_lookup_1 _ _ _ _ Hs Hx) as Vx. unfold valid in Vx. change (2 ^ K Bit) with 2 in Vx.
  assert (x = 0 \/ x = 1) as [-> | ->] by lia; done.
Qed.
End Spec.
