(* ===== verification/Lift.v ===== *)
(** * Lifting to wider rings: [ampc-actor-utils/src/protocol/binary.rs] and
    [ops.rs]

    [lift] and [lift_to_ring48] reinterpret 16-bit shares in a wider ring and
    subtract the two carries of the sum of the three components; the signed
    lifts shift the value range first. *)

From S2P Require Import Prelude IntRing RingImpl Party Share VecShare Transpose Value Net Prf Proto Circuits Binary Adder Inject Convert.
From stdpp Require Import option base list numbers strings gmap.
From Stdlib Require Import ZArith Lia.
Local Open Scope Z_scope.

(** ** Definitions *)

(** The inner loop: [a2b_pre] of every word of a plane. *)
Fixpoint a2b_words (role : Role) (x_ : VecShare) : result (VecShare * VecShare * VecShare) :=
  match x_ with
  | [] => Ok ([], [], [])
  | x__ :: x_ =>
      '(x1__, x2__, x3__) ← a2b_pre u64 role x__;
      '(x1_, x2_, x3_) ← a2b_words role x_;
      Ok (x1__ :: x1_, x2__ :: x2_, x3__ :: x3_)
  end.

(* binary.rs:1550-1574 split_packed_additive_components *)
Fixpoint split_packed_additive_components (role : Role) (packed : list VecShare)
    : result (list VecShare * list VecShare * list VecShare) :=
  match packed with
  | [] => Ok ([], [], [])
  | bit_slice :: packed =>
      '(x1_slice, x2_slice, x3_slice) ← a2b_words role bit_slice;
      '(x1, x2, x3) ← split_packed_additive_components role packed;
      Ok (x1_slice :: x1, x2_slice :: x2, x3_slice :: x3)
  end.

(** [u32::from(x) << k], [k < 32]: the bits shifted out are lost. *)
(* binary.rs:1042-1046 mul_lift_2k_to_32 *)
Definition mul_lift_2k_to_32 (k : Z) (val : Share) : Share :=
  share_new (shl_usize u32 (sa val) k) (shl_usize u32 (sb val) k).
(* binary.rs:1050-1052 mul_lift_2k_to_32_many *)
Definition mul_lift_2k_to_32_many (k : Z) (vals : SliceShare) : VecShare := mul_lift_2k_to_32 k <$> vals.
(* binary.rs:1060-1064 mul_lift_2k_to_48 *)
Definition mul_lift_2k_to_48 (k : Z) (val : Share) : Share :=
  share_new (shl_usize Ring48 (ring48_from_uint (sa val)) k) (shl_usize Ring48 (ring48_from_uint (sb val)) k).
(* binary.rs:1069-1071 mul_lift_2k_to_48_many *)
Definition mul_lift_2k_to_48_many (k : Z) (vals : SliceShare) : VecShare := mul_lift_2k_to_48 k <$> vals.

Section Protocols.
Context {R : Rng}.

(** The bit-slicing, the local sharing of the components and the adder both
    lifts start with. *)
(* binary.rs:1089-1118 lift (carries) *)
Definition lift_carries (shares : VecShare) (len : nat) : M R (VecShare * VecShare) :=
  x ← liftr (transpose_pack_u64_u16 shares);
  s ← get;
  '(x1, x2, x3) ← liftr (split_packed_additive_components (own_role (network_session s)) x);
  binary_add_3_get_two_carries net_u64 x1 x2 x3 len.

(* binary.rs:1076-1135 lift *)
Definition lift (shares : VecShare) : M R VecShare :=
  let len := length shares in
  let x_a := (fun share => share_new (sa share) (sb share)) <$> shares in
  '(b1, b2) ← lift_carries shares len;
  b ← bit_inject net_u16 (vs_extend b1 b2);
  '(b1, b2) ← liftr (vs_split_at b len);
  let b1 := mul_lift_2k_to_32_many 16 b1 in
  let b2 := mul_lift_2k_to_32_many 17 b2 in
  mret (vs_sub_assign u32 (vs_sub_assign u32 x_a b1) b2).

(* binary.rs:1140-1202 lift_to_ring48 *)
Definition lift_to_ring48 (shares : VecShare) : M R VecShare :=
  let len := length shares in
  let x_a := (fun share => share_new (sa share) (sb share)) <$> shares in
  '(b1, b2) ← lift_carries shares len;
  b ← bit_inject net_u32 (vs_extend b1 b2);
  '(b1, b2) ← liftr (vs_split_at b len);
  let b1 := mul_lift_2k_to_48_many 16 b1 in
  let b2 := mul_lift_2k_to_48_many 17 b2 in
  mret (vs_sub_assign Ring48 (vs_sub_assign Ring48 x_a b1) b2).

(** [for v in ..iter_mut() { v.add_assign_const_role(c, role) }]. *)
Definition add_const_all (T : IntRing2k) (c : Z) (v : VecShare) : M R VecShare :=
  s ← get;
  liftr (mapM_result (fun x => add_assign_const_role T x c (role_index (own_role (network_session s)))) v).

(* ops.rs:608-624 batch_signed_lift *)
Definition batch_signed_lift (pre_lift : VecShare) : M R VecShare :=
  pre_lift ← add_const_all u16 (2 ^ 15) pre_lift;
  lifted_values ← lift pre_lift;
  add_const_all u32 ((2 ^ 32 - 2 ^ 15) mod 2 ^ 32) lifted_values.

(* ops.rs:628-634 batch_signed_lift_vec *)
Definition batch_signed_lift_vec (pre_lift : list Share) : M R (list Share) := batch_signed_lift pre_lift.

(* ops.rs:639-658 batch_signed_lift_ring48 *)
Definition batch_signed_lift_ring48 (pre_lift : VecShare) : M R VecShare :=
  pre_lift ← add_const_all u16 (2 ^ 15) pre_lift;
  lifted_values ← lift_to_ring48 pre_lift;
  add_const_all Ring48 (Z.land (2 ^ 48 - 2 ^ 15) MASK_48) lifted_values.

(* ops.rs:662-668 batch_signed_lift_vec_ring48 *)
Definition batch_signed_lift_vec_ring48 (pre_lift : list Share) : M R (list Share) :=
  batch_signed_lift_ring48 pre_lift.
End Protocols.

(** ** Sharing the components *)

(** [a2b_pre] shares the three components of a value. *)
Lemma a2b_pre_spec (T : IntRing2k) `{!IntRing2kOk T} s c :
  rep_valid T s c ->
  exists x1 x2 x3, (forall i, a2b_pre T (party_role i) (s @ i) = Ok (x1 @ i, x2 @ i, x3 @ i)) /\
    shares_xor T x1 (at0 c) /\ shares_xor T x2 (at1 c) /\ shares_xor T x3 (at2 c).
Proof.
  intros [Hs Hc]. set (z := re_zero T). assert (valid T z) as Vz by apply valid_zero.
  assert (z = 0) as Hz by apply ir_zero_eq.
  assert (forall c' x, valid3 T c' -> xor3 c' = x -> shares_xor T (tof (fun i => mkShare (c' @ i) (c' @ (prev_id i)))) x) as H
    by (intros c' x Hc' Hx; by apply bin3_replicate).
  eexists _, _, _. split; [|split_and!; [apply (H (Tri (at0 c) z z))|apply (H (Tri z (at1 c) z))|apply (H (Tri z z (at2 c)))]];
    try (unfold xor3; cbn [at0 at1 at2]; by rewrite Hz, ?Z.lxor_0_r).
  - intros i. rewrite !tget_tof, Hs. by destruct i.
  - intros []; [apply (Hc ID0)|done..].
  - intros []; [done|apply (Hc ID1)|done].
  - intros []; [done..|apply (Hc ID2)].
Qed.

Lemma a2b_words_tvec v cs :
  tvec (rep_valid u64) v cs ->
  exists x1 x2 x3,
    (forall i, a2b_words (party_role i) (v @ i) = Ok (x1 @ i, x2 @ i, x3 @ i)) /\
    tvec (shares_xor u64) x1 ((fun c => c @ ID0) <$> cs) /\ tvec (shares_xor u64) x2 ((fun c => c @ ID1) <$> cs) /\
    tvec (shares_xor u64) x3 ((fun c => c @ ID2) <$> cs).
Proof.
  induction 1 as [|s v c cs Hs Hv (x1 & x2 & x3 & He & H1 & H2 & H3)].
  { exists tnil, tnil, tnil. split_and!; [by intros []|constructor..]. }
  destruct (a2b_pre_spec u64 s c Hs) as (y1 & y2 & y3 & Ey & Y1 & Y2 & Y3).
  exists (tcons y1 x1), (tcons y2 x2), (tcons y3 x3). rewrite !fmap_cons. split_and!; [|by constructor..].
  intros i. rewrite !tget_tcons. cbn [a2b_words]. by rewrite Ey, He.
Qed.

Lemma word_components w n (F : PartyID -> bitfun) i :
  (fun c => c @ i) <$> ((fun j => tof (fun i => word_of w (F i j))) <$> seq 0 n)
  = (fun j => word_of w (F i j)) <$> seq 0 n.
Proof. rewrite <- list_fmap_compose. apply list_fmap_ext. intros k j _. cbn. by rewrite tget_tof. Qed.

Lemma a2b_words_spec n v F :
  holds3 n v F ->
  exists x1 x2 x3,
    (forall i, a2b_words (party_role i) (v @ i) = Ok (x1 @ i, x2 @ i, x3 @ i)) /\
    vholds (T:=net_u64) n x1 (F ID0) /\ vholds (T:=net_u64) n x2 (F ID1) /\ vholds (T:=net_u64) n x3 (F ID2).
Proof.
  unfold holds3, vholds, words. change (Z.to_nat (K net_u64)) with 64%nat. generalize 64%nat. intros w Hv.
  destruct (a2b_words_tvec v _ Hv) as (x1 & x2 & x3 & He & H). rewrite !word_components in H. eauto.
Qed.

Lemma split_components_spec n p Fs :
  tvec (holds3 n) p Fs ->
  exists x1 x2 x3,
    (forall i, split_packed_additive_components (party_role i) (p @ i) = Ok (x1 @ i, x2 @ i, x3 @ i)) /\
    tvec (vholds (T:=net_u64) n) x1 ((fun F => F ID0) <$> Fs) /\
    tvec (vholds (T:=net_u64) n) x2 ((fun F => F ID1) <$> Fs) /\
    tvec (vholds (T:=net_u64) n) x3 ((fun F => F ID2) <$> Fs).
Proof.
  induction 1 as [|v p F Fs Hv Hp (x1 & x2 & x3 & He & H1 & H2 & H3)].
  { exists tnil, tnil, tnil. split_and!; [by intros []|constructor..]. }
  destruct (a2b_words_spec n v F Hv) as (y1 & y2 & y3 & He' & H1' & H2' & H3').
  exists (tcons y1 x1), (tcons y2 x2), (tcons y3 x3). split_and!; [|by constructor..].
  intros i. rewrite !tget_tcons. cbn [split_packed_additive_components]. by rewrite He', He.
Qed.

(** ** The carries *)

(** The integer sum of the components. *)
Definition total (c : tri Z) : Z := at0 c + at1 c + at2 c.

Lemma comp_range T cs i e : Forall (valid3 T) cs -> 0 < K T -> 0 <= comp cs i e < 2 ^ K T.
Proof.
  intros Hcs HK. unfold comp. destruct (cs !! e) as [c|] eqn:E.
  - exact (Forall_lookup_1 _ _ _ _ Hcs E i).
  - pose proof (Z.pow_pos_nonneg 2 (K T)). destruct i; cbn; lia.
Qed.

Lemma comp_planes (cs : list (tri Z)) i k :
  (fun F => F i) <$> ((fun b i j l => Z.testbit (comp cs i (64 * j + l)) (Z.of_nat b)) <$> seq 0 k)
  = (fun b j l => Z.testbit (comp cs i (64 * j + l)) (Z.of_nat b)) <$> seq 0 k.
Proof. by rewrite <- list_fmap_compose. Qed.

Lemma carries_at cs k :
  (fun e => Z.b2z (bit_at 64 (fun j l => Z.testbit
      (comp cs ID0 (64 * j + l) + comp cs ID1 (64 * j + l) + comp cs ID2 (64 * j + l)) k) e)) <$> seq 0 (length cs)
  = (fun c => Z.b2z (Z.testbit (total c) k)) <$> cs.
Proof.
  apply list_eq. intros e. rewrite !list_lookup_fmap. destruct (decide (e < length cs)%nat) as [He|He].
  - rewrite lookup_seq_lt by done. destruct (lookup_lt_is_Some_2 cs e He) as [c Hc]. rewrite Hc. cbn [fmap option_fmap option_map Nat.add].
    unfold bit_at, comp. rewrite <- Nat.div_mod_eq, Hc. done.
  - rewrite lookup_seq_ge, lookup_ge_None_2 by lia. done.
Qed.

Section LiftSpec.
Context {R : Rng} {HR : RngOk R} (ids : tri Identity) (sid : Z).

Lemma lift_carries_spec cs :
  Forall (valid3 u16) cs -> Z.of_nat (4 * length cs) < 2 ^ 32 ->
  proto (R := R) ids sid (fun i => lift_carries ((dealt cs) @ i) (length cs))
    (fun out => tvec (shares_xor Bit) (fst <$> out) ((fun c => Z.b2z (Z.testbit (total c) 16)) <$> cs) /\
                tvec (shares_xor Bit) (snd <$> out) ((fun c => Z.b2z (Z.testbit (total c) 17)) <$> cs)).
Proof.
  intros Hcs Hn. set (n := div_ceil (length cs) 64).
  destruct (transpose_rep3 u16 _ cs (dealt_rep_valid cs Hcs)) as (planes & Ep & Hp).
  destruct (split_components_spec _ _ _ Hp) as (x1 & x2 & x3 & Ex & H1 & H2 & H3).
  rewrite comp_planes in H1, H2, H3. fold n in H1, H2, H3. change (Z.to_nat (K u16)) with 16%nat in H1, H2, H3.
  unfold lift_carries.
  eapply proto_bind; [apply (proto_liftr ids sid _ planes (fun p => p = planes)); [exact Ep|done]|]. intros ? ->.
  eapply proto_bind; [apply (proto_get ids sid (fun s => in_ring ids sid s)); by intros|]. intros s Hs.
  eapply proto_bind.
  { apply (proto_liftr ids sid _ (tof (fun i => (x1 @ i, x2 @ i, x3 @ i))) (fun o => o = tof (fun i => (x1 @ i, x2 @ i, x3 @ i)))); [|done].
    intros i. rewrite tget_tof, <- Ex. by rewrite (proj1 (Hs i)). }
  intros ? ->.
  apply (proto_ext ids sid _ (fun i => binary_add_3_get_two_carries net_u64 (x1 @ i) (x2 @ i) (x3 @ i) (length cs)));
    [intros ss i _; by rewrite tget_tof|].
  assert (n * 64 <= length cs + 64)%nat as Hn'.
  { unfold n, div_ceil. pose proof (Nat.div_mod_eq (length cs + 64 - 1) 64). lia. }
  eapply proto_mono; [|apply (binary_add_3_spec ids sid n x1 x2 x3 _ _ _ (length cs) H1 H2 H3);
    rewrite ?length_fmap, ?length_seq; [done..| |apply div_ceil_le]].
  - intros out. cbn zeta. rewrite !length_fmap, !length_seq. change (Z.to_nat (K net_u64)) with 64%nat.
    intros [O1 O2]. rewrite <- !carries_at.
    assert (forall k, (fun e => Z.b2z (bit_at 64 (fun j l => Z.testbit (lane3
        ((fun b j l => Z.testbit (comp cs ID0 (64 * j + l)) (Z.of_nat b)) <$> seq 0 16)
        ((fun b j l => Z.testbit (comp cs ID1 (64 * j + l)) (Z.of_nat b)) <$> seq 0 16)
        ((fun b j l => Z.testbit (comp cs ID2 (64 * j + l)) (Z.of_nat b)) <$> seq 0 16) j l) (Z.of_nat k)) e)) <$> seq 0 (length cs)
      = (fun e => Z.b2z (bit_at 64 (fun j l => Z.testbit
      (comp cs ID0 (64 * j + l) + comp cs ID1 (64 * j + l) + comp cs ID2 (64 * j + l)) (Z.of_nat k)) e)) <$> seq 0 (length cs)) as Hk.
    { intros k. apply list_fmap_ext. intros e e' _. unfold bit_at, lane3.
      rewrite !(lane_testbits 16 (fun j l => comp cs _ (64 * j + l))) by (apply (comp_range u16); done). done. }
    rewrite Hk in O1, O2. done.
  - change (BYTES net_u64) with 8%nat. lia.
Qed.
End LiftSpec.

(** ** Reinterpretation in a wider ring *)

Definition mul_lift (T' : IntRing2k) (k : Z) (val : Share) : Share :=
  share_new (shl_usize T' (sa val) k) (shl_usize T' (sb val) k).

Section Widen.
Context {T T' : IntRing2k} {HT : IntRing2kOk T} {HT' : IntRing2kOk T'}.
Hypothesis Hle : K T <= K T'.

Lemma valid_widen x : valid T x -> valid T' x.
Proof. unfold valid. pose proof (Z.pow_le_mono_r 2 (K T) (K T')). lia. Qed.

(** Shifting the components of a sharing modulo [2^K] by enough bits yields a
    sharing in the wider ring: what overflows [2^K] is shifted out. *)
Lemma mul_lift_spec k s b :
  0 <= k < K T' -> K T' <= K T + k -> shares_add T s b ->
  shares_add T' (mul_lift T' k <$> s) ((b * 2 ^ k) mod 2 ^ K T').
Proof.
  intros Hk Hbig (c & Hs & Hc & <-). pose proof (ir_K_pos (T:=T)).
  exists ((fun x => (x * 2 ^ k) mod 2 ^ K T') <$> c). split_and!.
  - intros i. rewrite !tget_fmap, Hs. unfold mul_lift. cbn [sa sb share_new].
    by rewrite !(ir_shl_eq (T:=T')) by (apply valid_widen, Hc || lia).
  - intros i. rewrite tget_fmap. apply valid_mod.
  - unfold sum3, fmap, tri_fmap. cbn [at0 at1 at2].
    assert (total c * 2 ^ k ==[2 ^ K T'] (total c mod 2 ^ K T) * 2 ^ k) as Ht.
    { apply ceq_iff; [apply Z.pow_nonzero; lia|]. rewrite <- Z.mul_sub_distr_r.
      exists (total c / 2 ^ K T * 2 ^ (K T + k - K T')).
      rewrite <- Z.mul_assoc, <- Z.pow_add_r by lia. replace (K T + k - K T' + K T') with (K T + k) by lia.
      rewrite Z.pow_add_r by lia. pose proof (Z.div_mod (total c) (2 ^ K T)) as Hd.
      specialize (Hd ltac:(apply Z.pow_nonzero; lia)). nia. }
    transitivity ((total c mod 2 ^ K T * 2 ^ k) mod 2 ^ K T'); [|done]. apply ceq_mod_small; [apply valid_mod|].
    rewrite !(ceq_mod (2 ^ K T')), <- Ht. unfold total. ceq_ring.
Qed.

Lemma widen_spec c : valid3 T c -> 3 * 2 ^ K T <= 2 ^ K T' -> 
  shares_add T' (tof (fun i => mkShare (c @ i) (c @ (prev_id i)))) (total c).
Proof.
  intros Hc Hbig. apply add3_replicate. split.
  - intros i. apply valid_widen, Hc.
  - unfold total. apply Z.mod_small. pose proof (Hc ID0) as H0. pose proof (Hc ID1) as H1. pose proof (Hc ID2) as H2.
    unfold valid in H0, H1, H2. cbn [tget] in H0, H1, H2. lia.
Qed.
End Widen.

(** The sum of three 16-bit components is the value and two carries. *)
Lemma total_carries c :
  valid3 u16 c ->
  total c = sum3 u16 c + 2 ^ 16 * Z.b2z (Z.testbit (total c) 16) + 2 ^ 17 * Z.b2z (Z.testbit (total c) 17).
Proof.
  intros Hc. pose proof (Hc ID0) as H0. pose proof (Hc ID1) as H1. pose proof (Hc ID2) as H2.
  unfold valid in H0, H1, H2. cbn [tget K u16] in H0, H1, H2.
  unfold sum3. fold (total c). rewrite !Z.testbit_spec' by lia. change (K u16) with 16.
  assert (0 <= total c < 3 * 2 ^ 16) as Ht by (unfold total; cbn in *; lia).
  clear -Ht. change (2 ^ 16) with 65536 in *. change (2 ^ 17) with 131072. Z.to_euclidean_division_equations. lia.
Qed.

Section Lifts.
Context {R : Rng} {HR : RngOk R} (ids : tri Identity) (sid : Z).
Context {T : NetworkInt} {HT : NetworkIntOk T} {T' : IntRing2k} {HT' : IntRing2kOk T'}.

(** Both lifts, for the ring [T] the carries are injected into and the target
    ring [T']. *)
Definition lift_via (T : NetworkInt) (T' : IntRing2k) (shares : VecShare) : M R VecShare :=
  let len := length shares in
  let x_a := (fun share => share_new (sa share) (sb share)) <$> shares in
  '(b1, b2) ← lift_carries shares len;
  b ← bit_inject T (vs_extend b1 b2);
  '(b1, b2) ← liftr (vs_split_at b len);
  mret (vs_sub_assign T' (vs_sub_assign T' x_a (mul_lift T' 16 <$> b1)) (mul_lift T' 17 <$> b2)).

Lemma vs_sub_tvec v xs w ys :
  tvec (shares_add T') v xs -> tvec (shares_add T') w ys -> length xs = length ys ->
  tvec (shares_add T') (tof (fun i => vs_sub_assign T' (v @ i) (w @ i))) (zip_with (re_sub T') xs ys).
Proof.
  intros Hv Hw Hl. replace (tof _) with (tof (fun i => zip_with (share_sub T') (v @ i) (w @ i))).
  - apply (tvec_zip (shares_add T') (shares_add T') (shares_add T') (fun _ => share_sub T') (re_sub T')); [|done..]. intros. by apply share_sub_spec.
  - apply tri_ext. intros i. rewrite !tget_tof. symmetry. apply (assign2_zip_with (share_sub_assign T')).
    by rewrite (tvec_length _ _ _ i Hv), (tvec_length _ _ _ i Hw).
Qed.

Lemma lift_value c :
  valid3 u16 c -> 18 <= K T' ->
  (total c ⊖[T'] ((Z.b2z (Z.testbit (total c) 16) * 2 ^ 16) mod 2 ^ K T'))
    ⊖[T'] ((Z.b2z (Z.testbit (total c) 17) * 2 ^ 17) mod 2 ^ K T') = sum3 u16 c.
Proof.
  intros Hc HK. pose proof (Hc ID0) as H0. pose proof (Hc ID1) as H1. pose proof (Hc ID2) as H2.
  unfold valid in H0, H1, H2. cbn [tget] in H0, H1, H2. change (K u16) with 16 in H0, H1, H2.
  pose proof (Z.pow_le_mono_r 2 18 (K T') ltac:(lia) HK) as Hp.
  apply (valid_eq (T:=T')).
  - apply re_sub_valid; [apply re_sub_valid|]; [|apply valid_mod..]. unfold valid, total. lia.
  - unfold valid, sum3. change (K u16) with 16. pose proof (Z.mod_pos_bound (at0 c + at1 c + at2 c) (2 ^ 16)). lia.
  - rewrite !re_sub_ceq, !ceq_mod. apply ceq_eq. pose proof (total_carries c Hc). lia.
Qed.

Lemma lift_via_spec v xs :
  tvec (shares_add u16) v xs -> 18 <= K T' -> K T <= K T' <= K T + 16 ->
  Z.of_nat (4 * length xs) < 2 ^ 32 -> Z.of_nat (2 * length xs * BYTES T) < 2 ^ 32 ->
  proto (R := R) ids sid (fun i => lift_via T T' (v @ i)) (fun out => tvec (shares_add T') out xs).
Proof.
  intros Hv HK HTT Hn Hb. apply (shares_add_dealt (T:=net_u16)) in Hv as (cs & -> & Hcs & ->).
  rewrite length_fmap in Hn, Hb.
  assert (forall i, length ((dealt cs) @ i) = length cs) as Hd
    by (intros i; unfold dealt; rewrite tget_tof; apply length_fmap).
  set (k1 := (fun c => Z.b2z (Z.testbit (total c) 16)) <$> cs). set (k2 := (fun c => Z.b2z (Z.testbit (total c) 17)) <$> cs).
  assert (length k1 = length cs /\ length k2 = length cs) as [L1 L2] by (unfold k1, k2; by rewrite !length_fmap).
  apply (proto_ext ids sid _ (fun i => '(b1, b2) ← lift_carries ((dealt cs) @ i) (length cs);
    b ← bit_inject T (vs_extend b1 b2); '(b1, b2) ← liftr (vs_split_at b (length cs));
    mret (vs_sub_assign T' (vs_sub_assign T' ((dealt cs) @ i) (mul_lift T' 16 <$> b1)) (mul_lift T' 17 <$> b2)))).
  { intros s i _. unfold lift_via. rewrite Hd, share_new_id. done. }
  eapply proto_bind; [by apply (lift_carries_spec ids sid cs)|]. intros o [H1 H2]. fold k1 in H1. fold k2 in H2.
  apply (proto_ext ids sid _ (fun i => b ← bit_inject T ((tapp (fst <$> o) (snd <$> o)) @ i);
    '(b1, b2) ← liftr (vs_split_at b (length cs));
    mret (vs_sub_assign T' (vs_sub_assign T' ((dealt cs) @ i) (mul_lift T' 16 <$> b1)) (mul_lift T' 17 <$> b2)))).
  { intros s i _. unfold tapp. rewrite tget_tof, !tget_fmap. by destruct (o @ i). }
  eapply proto_bind.
  { apply (bit_inject_spec ids sid _ (k1 ++ k2)); [by apply tvec_app|]. rewrite length_app, L1, L2. lia. }
  intros b Hbb. pose proof (tvec_take _ (length cs) _ _ Hbb) as B1. pose proof (tvec_drop _ (length cs) _ _ Hbb) as B2.
  rewrite take_app_length' in B1 by done. rewrite drop_app_length' in B2 by done.
  eapply proto_bind.
  { apply (proto_liftr ids sid _ (tof (fun i => (take (length cs) (b @ i), drop (length cs) (b @ i))))
      (fun x => x = tof (fun i => (take (length cs) (b @ i), drop (length cs) (b @ i))))); [|done].
    intros i. unfold vs_split_at, slice_split_at. rewrite (tvec_length _ _ _ i Hbb), length_app, L1, tget_tof.
    by rewrite (proj2 (Nat.ltb_ge _ _)) by lia. }
  intros ? ->.
  assert (tvec (shares_add T') (dealt cs) (total <$> cs)) as X.
  { apply (dealt_tvec (valid3 u16)); [|done]. intros c Hc. pose proof (Z.pow_le_mono_r 2 18 (K T')).
    apply (widen_spec (T:=u16)); change (K u16) with 16; done || lia. }
  assert (forall k w ks, 16 <= k <= 17 -> tvec (shares_add T) w ks ->
    tvec (shares_add T') (tof (fun i => mul_lift T' k <$> w @ i)) ((fun y => (y * 2 ^ k) mod 2 ^ K T') <$> ks)) as Hml.
  { intros k w ks Hk. apply (tvec_map _ _ (fun _ => mul_lift T' k)). intros s x Hs.
    apply (mul_lift_spec (T:=T)); [lia|lia|lia|exact Hs]. }
  pose proof (vs_sub_tvec _ _ _ _ (vs_sub_tvec _ _ _ _ X (Hml 16 _ _ ltac:(lia) B1)
    ltac:(by rewrite !length_fmap)) (Hml 17 _ _ ltac:(lia) B2) ltac:(rewrite length_zip_with, !length_fmap; lia)) as Hout.
  match type of Hout with tvec _ ?o ?l =>
    eapply proto_ext; [|apply (proto_ret ids sid o)]; [|replace (sum3 net_u16 <$> cs) with l; [exact Hout|]] end.
  - intros s i _. cbn beta. by rewrite !tget_tof, !tget_fmap.
  - unfold k1, k2. clear -Hcs HK HT'. induction Hcs as [|c cs Hc Hcs IH]; [done|]. rewrite !fmap_cons. cbn [zip_with].
    rewrite IH. f_equal. by apply lift_value.
Qed.
End Lifts.

(** ** Signed lifts *)

(** The value a party adds a public constant to. *)
Definition add_const_value (T : IntRing2k) (c : Z) (i : PartyID) (x : Share) : Share :=
  match i with
  | ID0 => mkShare (sa x +[T] c) (sb x)
  | ID1 => mkShare (sa x) (sb x +[T] c)
  | ID2 => x
  end.

(** A 16-bit word as a signed number. *)
Definition signed16 (x : Z) : Z := if x <? 2 ^ 15 then x else x - 2 ^ 16.

Section Signed.
Context {R : Rng} {HR : RngOk R} (ids : tri Identity) (sid : Z).

Lemma add_const_all_spec (T : IntRing2k) `{!IntRing2kOk T} c v xs :
  valid T c -> tvec (shares_add T) v xs ->
  proto (R := R) ids sid (fun i => add_const_all T c (v @ i))
    (fun out => tvec (shares_add T) out ((fun x => x +[T] c) <$> xs)).
Proof.
  intros Hc Hv. unfold add_const_all.
  eapply proto_bind; [apply (proto_get ids sid (fun s => in_ring ids sid s)); by intros|]. intros s Hs.
  apply (proto_liftr ids sid _ (tof (fun i => add_const_value T c i <$> v @ i))).
  - intros i. rewrite tget_tof. apply mapM_result_ok. intros x _. rewrite (proj1 (Hs i)). by destruct i.
  - apply (tvec_map (shares_add T) (shares_add T) (add_const_value T c)); [|done]. intros r x Hr.
    eapply (add_const_role_spec r x c); [done|done|]. intros i. rewrite tget_tof. by destruct i.
Qed.

Lemma signed_value (T : IntRing2k) `{!IntRing2kOk T} c x :
  18 <= K T -> valid u16 x -> c ==[2 ^ K T] - 2 ^ 15 -> valid T c ->
  (x +[u16] 2 ^ 15) +[T] c = signed16 x mod 2 ^ K T.
Proof.
  intros HK Hx Hc Vc. pose proof (Z.pow_le_mono_r 2 18 (K T) ltac:(lia) HK) as Hp.
  unfold valid in Hx. change (K u16) with 16 in Hx.
  assert (x +[u16] 2 ^ 15 = signed16 x + 2 ^ 15) as ->.
  { change (x +[u16] 2 ^ 15) with ((x + 2 ^ 15) mod 2 ^ 16). unfold signed16.
    destruct (Z.ltb_spec x (2 ^ 15)); [apply Z.mod_small; lia|].
    replace (x + 2 ^ 15) with (x - 2 ^ 16 + 2 ^ 15 + 1 * 2 ^ 16) by lia. rewrite Z.mod_add by lia. apply Z.mod_small. lia. }
  apply valid_eq_mod; [|rewrite re_add_ceq, Hc; ceq_ring].
  apply re_add_valid; [|done]. unfold valid, signed16. destruct (Z.ltb_spec x (2 ^ 15)); lia.
Qed.

Lemma signed_values (T : IntRing2k) `{!IntRing2kOk T} c v xs :
  18 <= K T -> tvec (shares_add u16) v xs -> c ==[2 ^ K T] - 2 ^ 15 -> valid T c ->
  (fun y => y +[T] c) <$> ((fun x => x +[u16] 2 ^ 15) <$> xs) = (fun x => signed16 x mod 2 ^ K T) <$> xs.
Proof.
  intros HK Hv Hc Vc. induction Hv as [|s v x xs Hs Hv IH]; [done|]. rewrite !fmap_cons, IH. f_equal.
  apply (signed_value T c x HK); [exact (shares_add_valid (T:=u16) s x Hs)|exact Hc|exact Vc].
Qed.

(** C2: Lifting is correct: 16-bit shares of [x] become 32-bit shares, resp.
    48-bit shares, of the same integer [x] in [[0, 2^16)], although the
    components of the input wrap around modulo [2^16]. *)
Theorem lift_correct v xs :
  tvec (shares_add u16) v xs -> Z.of_nat (8 * length xs) < 2 ^ 32 ->
  proto (R := R) ids sid (fun i => lift (v @ i)) (fun out => tvec (shares_add u32) out xs) /\
  proto (R := R) ids sid (fun i => lift_to_ring48 (v @ i)) (fun out => tvec (shares_add Ring48) out xs).
Proof.
  intros Hv Hn. split.
  - apply (lift_via_spec ids sid (T:=net_u16) (T':=u32) v xs Hv); cbn; lia.
  - apply (lift_via_spec ids sid (T:=net_u32) (T':=Ring48) v xs Hv); cbn; lia.
Qed.

(** The signed lifts extend the sign: a 16-bit word [x] becomes the residue
    of its two's-complement value in the 32-bit and in the 48-bit ring. *)
Theorem batch_signed_lift_correct v xs :
  tvec (shares_add u16) v xs -> Z.of_nat (8 * length xs) < 2 ^ 32 ->
  proto (R := R) ids sid (fun i => batch_signed_lift (v @ i))
    (fun out => tvec (shares_add u32) out ((fun x => signed16 x mod 2 ^ 32) <$> xs)) /\
  proto (R := R) ids sid (fun i => batch_signed_lift_ring48 (v @ i))
    (fun out => tvec (shares_add Ring48) out ((fun x => signed16 x mod 2 ^ 48) <$> xs)).
Proof.
  intros Hv Hn. split.
  - eapply proto_bind; [by apply (add_const_all_spec u16 (2 ^ 15) v xs)|]. intros w Hw.
    eapply proto_bind; [apply (lift_via_spec ids sid (T:=net_u16) (T':=u32) w _ Hw); rewrite ?length_fmap; cbn; lia|].
    intros l Hl. eapply proto_mono; [|apply (add_const_all_spec u32 ((2 ^ 32 - 2 ^ 15) mod 2 ^ 32)); [vm_compute; done|exact Hl]].
    intros out Hout. by rewrite (signed_values u32 _ v xs) in Hout by (done || vm_compute; done).
  - eapply proto_bind; [by apply (add_const_all_spec u16 (2 ^ 15) v xs)|]. intros w Hw.
    eapply proto_bind; [apply (lift_via_spec ids sid (T:=net_u32) (T':=Ring48) w _ Hw); rewrite ?length_fmap; cbn; lia|].
    intros l Hl. eapply proto_mono; [|apply (add_const_all_spec Ring48 (Z.land (2 ^ 48 - 2 ^ 15) MASK_48)); [vm_compute; done|exact Hl]].
    intros out Hout. by rewrite (signed_values Ring48 _ v xs) in Hout by (done || vm_compute; done).
Qed.
End Signed.

Lemma lift_correct_witness :
  let v := dealt [Tri 65535 65535 65535; Tri 40000 40000 1] in
  proto (R := counter_rng) demo_ids 2 (fun i => lift (v @ i))
    (fun out => tvec (shares_add u32) out [65533; 14465]) /\
  proto (R := counter_rng) demo_ids 2 (fun i => lift_to_ring48 (v @ i))
    (fun out => tvec (shares_add Ring48) out [65533; 14465]).
Proof.
  apply (lift_correct demo_ids 2 _ [65533; 14465]); [|cbn; lia].
  apply (dealt_add u16 [Tri 65535 65535 65535; Tri 40000 40000 1]). solve_valid3.
Defined.

Lemma batch_signed_lift_correct_witness :
  let v := dealt [Tri 65535 65535 65535; Tri 40000 40000 1] in
  proto (R := counter_rng) demo_ids 2 (fun i => batch_signed_lift (v @ i))
    (fun out => tvec (shares_add u32) out [2 ^ 32 - 3; 14465]) /\
  proto (R := counter_rng) demo_ids 2 (fun i => batch_signed_lift_ring48 (v @ i))
    (fun out => tvec (shares_add Ring48) out [2 ^ 48 - 3; 14465]).
Proof.
  apply (batch_signed_lift_correct demo_ids 2 _ [65533; 14465]); [|cbn; lia].
  apply (dealt_add u16 [Tri 65535 65535 65535; Tri 40000 40000 1]). solve_valid3.
Defined.
