(* ===== verification/Ops.v ===== *)
(** * Arithmetic protocols: [ampc-actor-utils/src/protocol/ops.rs]

    Key setup, resharing of local products, opening, conversion of Shamir
    products to replicated shares, comparison with zero, and the oblivious
    selections and swaps built from them. *)

From S2P Require Import Prelude IntRing RingImpl Party Share VecShare Transpose Value Net Prf Proto Circuits Binary Adder Inject Convert.
From stdpp Require Import option base list numbers strings gmap.
From Stdlib Require Import ZArith Lia.
Local Open Scope Z_scope.

(** ** Definitions *)

Section Protocols.
Context {R : Rng}.

(** The closure may index out of range, so it returns a result. *)
(* ops.rs:40-70 reshare_products *)
Definition reshare_products (T : NetworkInt) (n : nat) (expr : nat -> result Z) : M R (list Share) :=
  '(prf_my, prf_prev) ← with_rng (gen_rands_batch R T n);
  round_a ← liftr (mapM_result (fun '(i, (my_r, prev_r)) => e ← expr i; Ok ((my_r ⊖[T] prev_r) +[T] e))
                     (zip (seq 0 n) (zip prf_my prf_prev)));
  _ ← net (fun n => send_next n (new_network_vec T round_a));
  v ← net receive_prev;
  round_b ← liftr (into_vec T v);
  mret (zip_with share_new round_a round_b).

(* ops.rs:82-92 setup_replicated_prf *)
Definition setup_replicated_prf (session : NetworkSession) (my_seed : list Z) : proc (result (Prf R)) :=
  r ← send_next session (PrfKey my_seed);
  match r with
  | Err e => Ret (Err e)
  | Ok _ =>
      other ← receive_prev session;
      Ret (match other with
           | Ok (PrfKey seed) => Ok (prf_new R my_seed seed)
           | _ => bail "Could not deserialize PrfKey"
           end)
  end.

(** [decode] of [setup_shared_seed]. *)
Definition decode_seed (msg : result NetworkValue) : result (list Z) :=
  match msg with Ok (PrfKey seed) => Ok seed | _ => bail "Could not deserialize PrfKey" end.

(* ops.rs:98-116 setup_shared_seed *)
Definition setup_shared_seed (my_seed : list Z) : M R (list Z) :=
  _ ← net (fun n => send_next n (PrfKey my_seed));
  m ← liftp receive_prev;
  prev_seed ← liftr (decode_seed m);
  _ ← net (fun n => send_prev n (PrfKey my_seed));
  m ← liftp receive_next;
  next_seed ← liftr (decode_seed m);
  mret (zip_with Z.lxor (zip_with Z.lxor my_seed prev_seed) next_seed).

(* ops.rs:121-153 galois_ring_to_rep3_components *)
Definition galois_ring_to_rep3_components (items : list Z) : M R (list Z * list Z) :=
  '(prf_my_values, prf_prev_values) ← with_rng (gen_rands_batch R net_u16 (length items));
  let masked_items := izip3 (fun x a b => (a ⊖[u16] b) +[u16] x) items prf_my_values prf_prev_values in
  _ ← net (fun n => send_next n (VecRing16 masked_items));
  m ← liftp receive_prev;
  shares_b ← liftr (match m with
                    | Ok (VecRing16 message) => Ok message
                    | _ => bail "Error in receiving in galois_ring_to_rep3 operation"
                    end);
  mret (masked_items, shares_b).

(* ops.rs:158-168 galois_ring_to_rep3 *)
Definition galois_ring_to_rep3 (items : list Z) : M R (list Share) :=
  '(shares_a, shares_b) ← galois_ring_to_rep3_components items;
  mret (zip_with share_new shares_a shares_b).

(* ops.rs:171-179 lt_zero_and_open_u16 *)
Definition lt_zero_and_open_u16 (distances : list Share) : M R (list bool) :=
  bits ← extract_msb_batch net_u16 (HTr := Transpose64_u16) distances;
  v ← open_bin bits;
  mret (bit_convert <$> v).

(* ops.rs:197-209 gte_zero_and_open_u16 *)
Definition gte_zero_and_open_u16 (distances : list Share) : M R (list bool) :=
  bits ← extract_msb_batch net_u16 (HTr := Transpose64_u16) distances;
  v ← open_bin bits;
  mret ((fun x => negb (bit_convert x)) <$> v).

(* ops.rs:183-194 sub_pub *)
Definition sub_pub (T : IntRing2k) (role : Role) (share : Share) (rhs : Z) : result Share :=
  if Z.eqb (role_index role) 0 then Ok (mkShare (sa share ⊖[T] rhs) (sb share))
  else if Z.eqb (role_index role) 1 then Ok (mkShare (sa share) (sb share ⊖[T] rhs))
  else if Z.eqb (role_index role) 2 then Ok share
  else panic "internal error: entered unreachable code".

(** A vector of one element travels as the element variant. *)
Definition vec_or_element (T : NetworkInt) (v : list Z) : NetworkValue :=
  match v with [x] => new_network_element T x | _ => new_network_vec T v end.

(* ops.rs:215-242 open_ring *)
Definition open_ring (T : NetworkInt) (shares : list Share) : M R (list Z) :=
  let message := vec_or_element T (sb <$> shares) in
  _ ← net (fun n => send_next n message);
  m ← liftp receive_prev;
  c ← liftr (map_err "Error in receiving in open operation" (v ← m; into_vec T v));
  mret (zip_with (fun s c => sa s +[T] sb s +[T] c) shares c).

(* ops.rs:247-277 open_ring_element_broadcast *)
Definition open_ring_element_broadcast (T : NetworkInt) (shares : list Z) : M R (list Z) :=
  let message := vec_or_element T shares in
  _ ← net (fun n => send_next n message);
  _ ← net (fun n => send_prev n message);
  m ← liftp receive_prev;
  b ← liftr (map_err "Error in receiving in open operation" (v ← m; into_vec T v));
  m ← liftp receive_next;
  c ← liftr (map_err "Error in receiving in open operation" (v ← m; into_vec T v));
  mret (izip3 (fun a b c => a +[T] b +[T] c) shares b c).

(* ops.rs:286-316 reshare_mux *)
Definition reshare_mux (T : NetworkInt) (n_elements fields_per_element : nat) (control_bits : list Share)
    (get_field : nat -> nat -> result (Share * Share)) : M R (list Share) :=
  if (fields_per_element =? 0)%nat
  then liftr (bail "reshare_mux: fields_per_element must be greater than zero") else
  if (length control_bits <? n_elements)%nat
  then liftr (bail "reshare_mux: control_bits length is smaller than n_elements") else
  reshare_products T (n_elements * fields_per_element) (fun i =>
    let j := (i / fields_per_element)%nat in
    let f := (i mod fields_per_element)%nat in
    c ← index control_bits j;
    '(left_, right_) ← get_field j f;
    let diff := share_sub T left_ right_ in
    Ok (sa c *[T] sa diff +[T] sb c *[T] sa diff +[T] sa c *[T] sb diff +[T] sa right_)).

(* ops.rs:322-350 conditionally_select_distance *)
Definition conditionally_select_distance (T : NetworkInt) (distances : list (DistanceShare * DistanceShare))
    (control_bits : list Share) : M R (list DistanceShare) :=
  if negb (length distances =? length control_bits)%nat
  then liftr (bail "Number of distances must match number of control bits") else
  products ← reshare_mux T (length distances) 2 control_bits (fun j f =>
    '(d1, d2) ← index distances j;
    Ok (if (f =? 0)%nat then (code_dot d1, code_dot d2) else (mask_dot d1, mask_dot d2)));
  mret ((fun '(code, mask) => mkDistance code mask) <$> tuples2 products).

Definition IdDistance : Type := Share * DistanceShare.

(** [T::from(left_id.wrapping_sub(right_id))] and the share of the selected
    id: [c * diff + right_id]. *)
(* ops.rs:389-396 conditionally_select_distances_with_plain_ids (closure) *)
Definition select_plain_id (T : IntRing2k) (role : Z) (left_id right_id : Z) (c : Share) : result Share :=
  let diff := (left_id - right_id) mod 2 ^ 32 in
  add_assign_const_role T (share_scale T c diff) right_id role.

(* ops.rs:353-398 conditionally_select_distances_with_plain_ids *)
Definition conditionally_select_distances_with_plain_ids (T : NetworkInt)
    (left_distances right_distances : list (Z * DistanceShare)) (control_bits : list Share)
    : M R (list IdDistance) :=
  let n := length left_distances in
  if (n =? 0)%nat then liftr (bail "Distances must not be empty") else
  if negb (n =? length control_bits)%nat
  then liftr (bail "Number of distances must match number of control bits") else
  if negb (n =? length right_distances)%nat
  then liftr (bail "Left and right distances must have the same length") else
  products ← reshare_mux T n 2 control_bits (fun j f =>
    '(_, left_) ← index left_distances j;
    '(_, right_) ← index right_distances j;
    Ok (if (f =? 0)%nat then (code_dot left_, code_dot right_) else (mask_dot left_, mask_dot right_)));
  let distances := (fun '(code, mask) => mkDistance code mask) <$> tuples2 products in
  s ← get;
  ids ← liftr (mapM_result (fun '(left_, right_, c) =>
      select_plain_id T (role_index (own_role (network_session s))) (fst left_) (fst right_) c)
    (zip (zip left_distances right_distances) control_bits));
  mret (zip ids distances).

(** The three fields of a pair of entries. *)
Definition id_field (f : nat) (left_ right_ : IdDistance) : result (Share * Share) :=
  match f with
  | 0%nat => Ok (fst left_, fst right_)
  | 1%nat => Ok (code_dot (snd left_), code_dot (snd right_))
  | 2%nat => Ok (mask_dot (snd left_), mask_dot (snd right_))
  | _ => panic "internal error: entered unreachable code"
  end.

(* ops.rs:401-438 conditionally_select_distances_with_shared_ids *)
Definition conditionally_select_distances_with_shared_ids (T : NetworkInt)
    (left_distances right_distances : list IdDistance) (control_bits : list Share) : M R (list IdDistance) :=
  if (length left_distances =? 0)%nat then liftr (bail "Distances must not be empty") else
  let n := length left_distances in
  if negb (n =? length control_bits)%nat
  then liftr (bail "Number of distances must match number of control bits") else
  if negb (n =? length right_distances)%nat
  then liftr (bail "Left and right distances must have the same length") else
  flat_res ← reshare_mux T n 3 control_bits (fun j f =>
    left_ ← index left_distances j;
    right_ ← index right_distances j;
    id_field f left_ right_);
  mret ((fun '(id, code, mask) => (id, mkDistance code mask)) <$> tuples3 flat_res).

(** The guard on the index pairs. *)
Definition indices_ok (indices : list (nat * nat)) (list_len : nat) : bool :=
  forallb (fun '(idx1, idx2) => negb ((list_len <=? idx1)%nat || (list_len <=? idx2)%nat)) indices.

(** [list[idx] = value]: in range by the guard above. *)
Definition set_index {A} (l : list A) (idx : nat) (x : A) : result (list A) :=
  if (idx <? length l)%nat then Ok (<[idx := x]> l) else panic "index out of bounds".

(** Both entries of a pair are derived from the selected one. *)
Definition second_distance (T : IntRing2k) (d1 d2 first : DistanceShare) : DistanceShare :=
  mkDistance (share_sub T (share_add T (code_dot d1) (code_dot d2)) (code_dot first))
             (share_sub T (share_add T (mask_dot d1) (mask_dot d2)) (mask_dot first)).

Fixpoint swap_chunks (T : IntRing2k) (list0 : list IdDistance) (chunks : list (list Share))
    (indices : list (nat * nat)) (swapped_list : list IdDistance) : result (list IdDistance) :=
  match chunks, indices with
  | chunk :: chunks, (idx1, idx2) :: indices =>
      first_id ← index chunk 0;
      c1 ← index chunk 1;
      c2 ← index chunk 2;
      let first_dist := mkDistance c1 c2 in
      '(id1, dist1) ← index list0 idx1;
      '(id2, dist2) ← index list0 idx2;
      let second_id := share_sub T (share_add T id1 id2) first_id in
      let second_dist := second_distance T dist1 dist2 first_dist in
      swapped_list ← set_index swapped_list idx1 (first_id, first_dist);
      swapped_list ← set_index swapped_list idx2 (second_id, second_dist);
      swap_chunks T list0 chunks indices swapped_list
  | _, _ => Ok swapped_list
  end.

(* ops.rs:542-603 conditionally_swap_distances *)
Definition conditionally_swap_distances (T : NetworkInt) (swap_when_zero_bits : list Share)
    (list0 : list IdDistance) (indices : list (nat * nat)) : M R (list IdDistance) :=
  if negb (length swap_when_zero_bits =? length indices)%nat
  then liftr (bail "swap bits and indices must have the same length") else
  if negb (indices_ok indices (length list0)) then liftr (bail "index out of bounds in swap_indices") else
  swap_bits_lifted ← bit_inject T swap_when_zero_bits;
  selected ← reshare_mux T (length indices) 3 swap_bits_lifted (fun j f =>
    '(idx1, idx2) ← index indices j;
    left_ ← index list0 idx1;
    right_ ← index list0 idx2;
    id_field f left_ right_);
  liftr (swap_chunks T list0 (chunks 3 selected) indices list0).

(** The loop of the variant with plain ids. *)
Fixpoint swap_plain (T : IntRing2k) (role : Z) (list0 : list (Z * DistanceShare))
    (work : list (Share * (nat * nat) * DistanceShare * DistanceShare)) (swapped_list : list IdDistance)
    : result (list IdDistance) :=
  match work with
  | [] => Ok swapped_list
  | (bit, (idx1, idx2), first_d, second_d) :: work =>
      '(id1, _) ← index list0 idx1;
      '(id2, _) ← index list0 idx2;
      first_id ← select_plain_id T role id1 id2 bit;
      second_id ← add_assign_const_role T (share_neg T first_id) ((id1 + id2) mod 2 ^ 32) role;
      swapped_list ← set_index swapped_list idx1 (first_id, first_d);
      swapped_list ← set_index swapped_list idx2 (second_id, second_d);
      swap_plain T role list0 work swapped_list
  end.

(* ops.rs:450-529 conditionally_swap_distances_plain_ids *)
Definition conditionally_swap_distances_plain_ids (T : NetworkInt) (swap_when_zero_bits : list Share)
    (list0 : list (Z * DistanceShare)) (indices : list (nat * nat)) : M R (list IdDistance) :=
  if negb (length swap_when_zero_bits =? length indices)%nat
  then liftr (bail "swap bits and indices must have the same length") else
  if negb (indices_ok indices (length list0)) then liftr (bail "index out of bounds in swap_indices") else
  s ← get;
  let role := role_index (own_role (network_session s)) in
  swapped_list ← liftr (mapM_result (fun '(id, d) => shared_index ← share_from_const T id role; Ok (shared_index, d)) list0);
  swap_bits_lifted ← bit_inject T swap_when_zero_bits;
  distances_to_swap ← liftr (mapM_result (fun '(idx1, idx2) =>
    '(_, d1) ← index list0 idx1; '(_, d2) ← index list0 idx2; Ok (d1, d2)) indices);
  first_distances ← conditionally_select_distance T distances_to_swap swap_bits_lifted;
  let second_distances := zip_with (fun '(d1, d2) first_d => second_distance T d1 d2 first_d)
                            distances_to_swap first_distances in
  liftr (swap_plain T role list0
    (zip (zip (zip swap_bits_lifted indices) first_distances) second_distances) swapped_list).
End Protocols.

(** ** Keys *)

(** The three network sessions of a ring. *)
Definition ring_networks (ids : tri Identity) (sid : Z) (n : tri NetworkSession) : Prop :=
  forall i, ring_network ids sid i (n @ i).

(** Key setup establishes the invariant every protocol relies on: whatever
    the schedule, each party ends with a PRF whose own generator is the one its
    successor holds for its predecessor, built from the exchanged seeds. *)
Theorem setup_replicated_prf_synced (R : Rng) ids sid (n : tri NetworkSession) (seeds : tri (list Z)) :
  distinct ids -> ring_networks ids sid n ->
  exists m (prfs : tri (Prf R)),
    (forall i, prfs @ i = prf_new R (seeds @ i) (seeds @ (prev_id i))) /\
    (forall i, my_prf (prfs @ i) = prev_prf (prfs @ (next_id i))) /\
    forall k c, nsteps (step ids) k (init (tof (fun i => setup_replicated_prf (n @ i) (seeds @ i)))) c ->
      (k <= m)%nat /\ nsteps (step ids) (m - k) c (finished (Ok <$> prfs)).
Proof.
  intros Hids Hn. set (prfs := tof (fun i => prf_new R (seeds @ i) (seeds @ (prev_id i)))).
  destruct (wp_run ids (tof (fun i => setup_replicated_prf (R := R) (n @ i) (seeds @ i))) (fun out => out = Ok <$> prfs))
    as (m & out & Hm & ->).
  { set (k := fun i (r : result unit) => pbind (Ret r) (fun r => match r with
      | Err e => Ret (Err e)
      | Ok _ => other ← receive_prev (n @ i); Ret (match other with
           | Ok (PrfKey seed) => Ok (prf_new R (seeds @ i) seed) | _ => bail "Could not deserialize PrfKey" end) end)).
    assert (tof (fun i => setup_replicated_prf (R := R) (n @ i) (seeds @ i))
      = tof (fun i => Send (ids @ (next_id i)) ((PrfKey <$> seeds) @ i) (k i))) as ->.
    { apply tri_ext. intros i. rewrite !tget_tof, tget_fmap. unfold setup_replicated_prf, send_next.
      by rewrite (next_identity_ring _ _ _ _ (Hn i)). }
    apply wp_send_all.
    assert (tof (fun i => k i (Ok tt)) = tof (fun i => Recv (ids @ (prev_id i)) (fun r => pbind (Ret r) (fun other => Ret (match other with
           | Ok (PrfKey seed) => Ok (prf_new R (seeds @ i) seed) | _ => bail "Could not deserialize PrfKey" end))))) as ->.
    { apply tri_ext. intros i. rewrite !tget_tof. unfold k. cbn. unfold receive_prev.
      by rewrite (prev_identity_ring _ _ _ _ (Hn i)). }
    eapply (wp_recv_all ids _ no_messages prev_id); [apply push_next_recv|].
    match goal with |- wp _ _ ?q _ => replace q with (Ret <$> (Ok <$> prfs)) by (by apply tri_ext; intros []) end.
    by apply wp_ret. }
  exists m, prfs. split_and!; [intros i; unfold prfs; by rewrite tget_tof|by intros []|].
  intros k c Hk. by apply (schedule_independence ids _ m k _ c Hids Hm).
Qed.

Definition demo_networks (sid : Z) : tri NetworkSession := network_session <$> demo_sessions sid.

Lemma setup_replicated_prf_synced_witness :
  exists m (prfs : tri (Prf counter_rng)),
    (forall i, prfs @ i = prf_new counter_rng ((Tri [1] [2] [3]) @ i) ((Tri [1] [2] [3]) @ (prev_id i))) /\
    (forall i, my_prf (prfs @ i) = prev_prf (prfs @ (next_id i))) /\
    forall k c, nsteps (step demo_ids) k
        (init (tof (fun i => setup_replicated_prf ((demo_networks 0) @ i) ((Tri [1] [2] [3]) @ i)))) c ->
      (k <= m)%nat /\ nsteps (step demo_ids) (m - k) c (finished (Ok <$> prfs)).
Proof.
  apply (setup_replicated_prf_synced counter_rng demo_ids 0 (demo_networks 0) (Tri [1] [2] [3])); [apply demo_distinct|].
  intros i. unfold demo_networks. rewrite tget_fmap. apply (demo_ring 0).
Defined.

Section SharedSeed.
Context {R : Rng} (ids : tri Identity) (sid : Z).

Lemma lxor_rotations (a b c : list Z) :
  length a = length b -> length a = length c ->
  zip_with Z.lxor (zip_with Z.lxor a b) c = zip_with Z.lxor (zip_with Z.lxor b a) c /\
  zip_with Z.lxor (zip_with Z.lxor a b) c = zip_with Z.lxor (zip_with Z.lxor a c) b.
Proof.
  revert b c. induction a as [|x a IH]; intros [|y b] [|z c] Hb Hc; try done. cbn [zip_with].
  destruct (IH b c) as [IH1 IH2]; [by injection Hb|by injection Hc|]. rewrite <- IH1, <- IH2.
  split; f_equal; xor_crush.
Qed.

(** [setup_shared_seed] makes the three parties agree: each of them obtains
    the byte-wise XOR of the three seeds. *)
Theorem setup_shared_seed_agrees (seeds : tri (list Z)) :
  (forall i, length (seeds @ i) = PRF_KEY_SIZE) ->
  proto (R := R) ids sid (fun i => setup_shared_seed (seeds @ i)) (fun out => forall i,
    out @ i = zip_with Z.lxor (zip_with Z.lxor (seeds @ ID0) (seeds @ ID1)) (seeds @ ID2)).
Proof.
  intros Hl. apply (proto_ext ids sid _ (fun i => _ ← net (fun n => send_next n ((PrfKey <$> seeds) @ i));
    m ← liftp receive_prev; prev_seed ← liftr (decode_seed m);
    _ ← net (fun n => send_prev n (PrfKey (seeds @ i)));
    m ← liftp receive_next; next_seed ← liftr (decode_seed m);
    mret (zip_with Z.lxor (zip_with Z.lxor (seeds @ i) prev_seed) next_seed)));
    [intros s i _; unfold setup_shared_seed; by rewrite tget_fmap|].
  apply (proto_round ids sid (PrfKey <$> seeds)). eapply proto_bind.
  { apply (proto_liftr ids sid _ (tof (fun i => seeds @ (prev_id i))) (fun x => x = tof (fun i => seeds @ (prev_id i)))); [|done].
    intros i. by rewrite tget_tof, tget_fmap. }
  intros ? ->. apply (proto_ext ids sid _ (fun i => _ ← net (fun n => send_prev n ((PrfKey <$> seeds) @ i));
    m ← liftp receive_next; next_seed ← liftr (decode_seed m);
    mret (zip_with Z.lxor (zip_with Z.lxor (seeds @ i) (seeds @ (prev_id i))) next_seed)));
    [intros s i _; by rewrite tget_fmap, tget_tof|].
  apply (proto_round_prev ids sid (PrfKey <$> seeds)). eapply proto_bind.
  { apply (proto_liftr ids sid _ (tof (fun i => seeds @ (next_id i))) (fun x => x = tof (fun i => seeds @ (next_id i)))); [|done].
    intros i. by rewrite tget_tof, tget_fmap. }
  intros ? ->. eapply proto_ext; [|apply (proto_ret ids sid (tof (fun i =>
    zip_with Z.lxor (zip_with Z.lxor (seeds @ i) (seeds @ (prev_id i))) (seeds @ (next_id i)))))].
  { intros s i _. cbn beta. by rewrite !tget_tof. }
  pose proof (Hl ID0) as L0. pose proof (Hl ID1) as L1. pose proof (Hl ID2) as L2. cbn [tget] in L0, L1, L2.
  intros i. rewrite tget_tof. destruct i; cbn [tget prev_id next_id].
  - by apply lxor_rotations; congruence.
  - by apply lxor_rotations; congruence.
  - rewrite (proj2 (lxor_rotations (at2 seeds) (at1 seeds) (at0 seeds) ltac:(congruence) ltac:(congruence))).
    rewrite (proj1 (lxor_rotations (at2 seeds) (at0 seeds) (at1 seeds) ltac:(congruence) ltac:(congruence))).
    by apply lxor_rotations; congruence.
Qed.
End SharedSeed.

Lemma setup_shared_seed_agrees_witness :
  let seeds := Tri (replicate 16 1) (replicate 16 2) (replicate 16 4) in
  proto (R := counter_rng) demo_ids 0 (fun i => setup_shared_seed (seeds @ i))
    (fun out => forall i, out @ i = replicate 16 7).
Proof. apply (setup_shared_seed_agrees demo_ids 0 (Tri (replicate 16 1) (replicate 16 2) (replicate 16 4))). by intros []. Defined.

(** ** Resharing *)

Lemma mapM_enumerate {A B} (f : nat -> A -> result B) (l : list A) (ys : list B) k :
  length l = length ys ->
  (forall j x y, l !! j = Some x -> ys !! j = Some y -> f (k + j)%nat x = Ok y) ->
  mapM_result (fun '(i, x) => f i x) (zip (seq k (length l)) l) = Ok ys.
Proof.
  revert ys k. induction l as [|x l IH]; intros [|y ys] k Hl H; try done. cbn.
  rewrite <- (Nat.add_0_r k) at 1. rewrite (H 0%nat x y) by done. cbn.
  rewrite (IH ys (S k)); [done|by injection Hl|].
  intros j x' y' Hx Hy. rewrite <- (H (S j) x' y' Hx Hy). f_equal. lia.
Qed.

Section Reshare.
Context {R : Rng} {HR : RngOk R} (ids : tri Identity) (sid : Z).
Context {T : NetworkInt} {HT : NetworkIntOk T}.

(** Components that sum to [xs], masked and sent around, are shares of [xs]. *)
Lemma reshare_products_spec (expr : PartyID -> nat -> result Z) (e : tri (list Z)) xs :
  tvec (add3 T) e xs -> (forall i k y, (e @ i) !! k = Some y -> expr i k = Ok y) ->
  proto (R := R) ids sid (fun i => reshare_products T (length xs) (expr i))
    (fun out => tvec (shares_add T) out xs).
Proof.
  intros He Hx. eapply proto_bind; [apply (proto_rands ids sid T (length xs) (fun x => exists r : tri (list Z),
    (forall i, length (r @ i) = length xs /\ Forall (valid T) (r @ i)) /\
    x = tof (fun i => (r @ i, r @ (prev_id i))))); eauto|].
  intros ? (r & Hr & ->).
  set (d := tof (fun i => zip_with (fun '(m, p) y => (m ⊖[T] p) +[T] y) (zip (r @ i) (r @ (prev_id i))) (e @ i))).
  assert (tvec (add3 T) d xs) as Hd.
  { refine (mask_vec T (add3 T) (fun m p y => (m ⊖[T] p) +[T] y) r e xs _ Hr He).
    intros r0 a x Hr0 Ha. exact (mask_add3 T r0 a x Hr0 Ha). }
  assert (forall i, mapM_result (fun '(k, (my_r, prev_r)) => e ← expr i k; Ok ((my_r ⊖[T] prev_r) +[T] e))
    (zip (seq 0 (length xs)) (zip (r @ i) (r @ (prev_id i)))) = Ok (d @ i)) as Hm.
  { intros i. unfold d. rewrite tget_tof.
    assert (length (zip (r @ i) (r @ (prev_id i))) = length xs) as Hz
      by (rewrite length_zip_with, !(fun i => proj1 (Hr i)); lia).
    rewrite <- Hz.
    apply (mapM_enumerate (fun k '(my_r, prev_r) => e ← expr i k; Ok ((my_r ⊖[T] prev_r) +[T] e))).
    - rewrite length_zip_with, length_zip_with, !(fun i => proj1 (Hr i)), (tvec_length _ _ _ i He). lia.
    - intros j [m p] y Hmp Hy. cbn [Nat.add]. rewrite lookup_zip_with, Hmp in Hy. cbn in Hy.
      destruct ((e @ i) !! j) as [y'|] eqn:Ey; [|done]. cbn in Hy. injection Hy as <-.
      by rewrite (Hx i j y' Ey). }
  apply (proto_ext ids sid _ (fun i => x ← liftr (Ok (d @ i));
    _ ← net (fun n => send_next n (new_network_vec T x));
    v ← net receive_prev; round_b ← liftr (into_vec T v); mret (zip_with share_new x round_b)));
    [intros s i _; rewrite tget_tof; cbn beta iota; by rewrite Hm|].
  eapply proto_bind; [by apply (proto_liftr ids sid _ d (fun x => x = d))|]. intros ? ->.
  apply (proto_ext ids sid _ (fun i => _ ← net (fun n => send_next n ((new_network_vec T <$> d) @ i));
    v ← net receive_prev; round_b ← liftr (into_vec T v); mret (zip_with share_new (d @ i) round_b)));
    [intros s i _; by rewrite tget_fmap|].
  apply (proto_round_net ids sid (new_network_vec T <$> d)). eapply proto_bind.
  { apply (proto_liftr ids sid _ (tof (fun i => d @ (prev_id i))) (fun x => x = tof (fun i => d @ (prev_id i)))); [|done].
    intros i. by rewrite tget_fmap, tget_tof, into_vec_vec. }
  intros ? ->. eapply proto_ext; [|apply (proto_ret ids sid (replicate3 d))].
  - intros s i _. cbn beta. unfold replicate3. by rewrite !tget_tof.
  - apply (replicate3_spec (add3 T)); [apply add3_replicate|done].
Qed.
End Reshare.

(** ** Conversion and opening *)

Section Opening.
Context {R : Rng} {HR : RngOk R} (ids : tri Identity) (sid : Z).

Lemma izip3_mask T (x a b : list Z) :
  izip3 (fun x a b => (a ⊖[T] b) +[T] x) x a b = zip_with (fun '(m, p) y => (m ⊖[T] p) +[T] y) (zip a b) x.
Proof.
  unfold izip3. revert x b. induction a as [|m a IH]; intros [|y x] [|p b]; try done. cbn. f_equal. apply IH.
Qed.

(** The refreshed components: a party's own and its predecessor's. *)
Lemma galois_components_spec (items : tri (list Z)) xs :
  tvec (add3 u16) items xs ->
  proto (R := R) ids sid (fun i => galois_ring_to_rep3_components (items @ i))
    (fun o => exists d, tvec (add3 u16) d xs /\ o = tof (fun i => (d @ i, d @ (prev_id i)))).
Proof.
  intros Hi. eapply proto_bind.
  - apply (proto_ext ids sid _ (fun _ => with_rng (gen_rands_batch R net_u16 (length xs))));
      [intros s i _; by rewrite (tvec_length _ _ _ i Hi)|].
    apply (proto_rands ids sid net_u16 (length xs) (fun x => exists r : tri (list Z),
      (forall i, length (r @ i) = length xs /\ Forall (valid u16) (r @ i)) /\
      x = tof (fun i => (r @ i, r @ (prev_id i))))); eauto.
  - intros ? (r & Hr & ->).
    set (d := tof (fun i => zip_with (fun '(m, p) y => (m ⊖[u16] p) +[u16] y) (zip (r @ i) (r @ (prev_id i))) (items @ i))).
    assert (tvec (add3 u16) d xs) as Hd.
    { refine (mask_vec u16 (add3 u16) (fun m p y => (m ⊖[u16] p) +[u16] y) r items xs _ Hr Hi).
      intros r0 a x Hr0 Ha. exact (mask_add3 u16 r0 a x Hr0 Ha). }
    set (dec := fun m : result NetworkValue => match m with
      | Ok (VecRing16 message) => Ok message
      | _ => bail "Error in receiving in galois_ring_to_rep3 operation" end).
    apply (proto_ext ids sid _ (fun i => _ ← net (fun n => send_next n ((VecRing16 <$> d) @ i));
      m ← liftp receive_prev; shares_b ← liftr (dec m); mret (d @ i, shares_b))).
    { intros s i _. rewrite tget_tof, tget_fmap. unfold d. rewrite tget_tof, <- izip3_mask. done. }
    apply (proto_round_dec ids sid (VecRing16 <$> d) dec d); [intros i; by rewrite tget_fmap|].
    eapply proto_ext; [|apply (proto_ret ids sid (tof (fun i => (d @ i, d @ (prev_id i))))); by eauto].
    intros s i _. cbn beta. by rewrite tget_tof.
Qed.

Lemma galois_ring_to_rep3_spec (items : tri (list Z)) xs :
  tvec (add3 u16) items xs ->
  proto (R := R) ids sid (fun i => galois_ring_to_rep3 (items @ i)) (fun out => tvec (shares_add u16) out xs).
Proof.
  intros Hi. eapply proto_bind; [by apply galois_components_spec|].
  intros ? (d & Hd & ->). eapply proto_ext; [|apply (proto_ret ids sid (replicate3 d))].
  - intros s i _. unfold replicate3. by rewrite !tget_tof.
  - apply (replicate3_spec (add3 u16)); [apply add3_replicate|done].
Qed.

(** The sign bits, opened. *)
Lemma sign_bits_spec v xs (f : Z -> bool) :
  tvec (shares_add u16) v xs -> Z.of_nat (length xs) + 63 < 2 ^ 31 ->
  proto (R := R) ids sid
    (fun i => bits ← extract_msb_batch net_u16 (HTr := Transpose64_u16) (v @ i); o ← open_bin bits; mret (f <$> o))
    (fun out => forall i, out @ i = (fun x => f (Z.b2z (Z.testbit x 15))) <$> xs).
Proof.
  intros Hv Hn.
  eapply proto_bind; [apply (extract_msb_batch_spec ids sid (T := net_u16) (HTr := Transpose64_u16) ltac:(done) v xs Hv)|].
  { change (BYTES net_u16) with 2%nat. lia. }
  { change (Z.to_nat (K net_u16)) with 16%nat. unfold div_ceil.
    pose proof (Nat.div_mod_eq (length xs + 64 - 1) 64). lia. }
  intros bits Hb. eapply proto_bind; [by apply (open_bin_spec ids sid _ _ Hb)|]. intros o Ho.
  eapply proto_ext; [|apply (proto_ret ids sid (tof (fun _ => (fun x => f (Z.b2z (Z.testbit x 15))) <$> xs)))].
  - intros s i _. cbn beta. by rewrite tget_tof, Ho, <- list_fmap_compose.
  - intros i. by rewrite tget_tof.
Qed.

Lemma into_vec_or_element (T : NetworkInt) `{!NetworkIntOk T} v : into_vec T (vec_or_element T v) = Ok v.
Proof. destruct v as [|x [|y v]]; [apply into_vec_vec|apply into_vec_elem|apply into_vec_vec]. Qed.

Lemma tvec_add3_components T c xs :
  tvec (add3 T) c xs -> exists cs, (forall i, c @ i = (fun t => t @ i) <$> cs) /\ Forall (valid3 T) cs /\ xs = sum3 T <$> cs.
Proof.
  induction 1 as [|t c x xs [Ht <-] Hc (cs & Hcs & Hv & ->)].
  - exists []. split_and!; [by intros []|constructor|done].
  - exists (t :: cs). split_and!; [|by constructor|done]. intros i. unfold tcons. by rewrite tget_tof, Hcs.
Qed.

Lemma add_rotations (T : IntRing2k) `{!IntRing2kOk T} c i :
  valid3 T c -> c @ i +[T] c @ (prev_id i) +[T] c @ (next_id i) = sum3 T c.
Proof.
  intros Hc. apply valid_eq_mod; [eauto 10 using re_add_valid|]. rewrite !re_add_ceq. destruct i; cbn; ceq_ring.
Qed.

Lemma open_ring_spec (T : NetworkInt) `{!NetworkIntOk T} v xs :
  tvec (shares_add T) v xs ->
  proto (R := R) ids sid (fun i => open_ring T (v @ i)) (fun out => forall i, out @ i = xs).
Proof.
  intros Hv. apply shares_add_dealt in Hv as (cs & -> & Hcs & ->).
  assert (forall i, (dealt cs) @ i = (fun c => mkShare (c @ i) (c @ (prev_id i))) <$> cs) as Hd
    by (intros i; unfold dealt; by rewrite tget_tof).
  set (d := (fun l : list Share => sb <$> l) <$> dealt cs).
  set (dec := fun m : result NetworkValue => map_err "Error in receiving in open operation" (v ← m; into_vec T v)).
  apply (proto_ext ids sid _ (fun i => _ ← net (fun n => send_next n ((vec_or_element T <$> d) @ i));
    m ← liftp receive_prev; c ← liftr (dec m);
    mret (zip_with (fun s c => sa s +[T] sb s +[T] c) ((dealt cs) @ i) c)));
    [intros s i _; unfold open_ring, d; by rewrite !tget_fmap|].
  apply (proto_round_dec ids sid (vec_or_element T <$> d) dec d).
  { intros i. unfold dec. cbn [mbind result_bind]. by rewrite tget_fmap, into_vec_or_element. }
  eapply proto_ext; [|apply (proto_ret ids sid (tof (fun _ => sum3 T <$> cs)))]; [|by intros []].
  intros s i _. cbn beta. rewrite !tget_tof. unfold d. rewrite tget_fmap, !Hd. f_equal.
  clear Hd d. replace (prev_id (prev_id i)) with (next_id i) by (by destruct i).
  induction Hcs as [|c cs Hc Hcs IH]; [done|]. rewrite !fmap_cons. cbn [zip_with sa sb]. f_equal; [|exact IH].
  by apply (add_rotations T).
Qed.

Lemma open_ring_element_broadcast_spec (T : NetworkInt) `{!NetworkIntOk T} c xs :
  tvec (add3 T) c xs ->
  proto (R := R) ids sid (fun i => open_ring_element_broadcast T (c @ i)) (fun out => forall i, out @ i = xs).
Proof.
  intros Hv. apply tvec_add3_components in Hv as (cs & Hd & Hcs & ->).
  set (dec := fun m : result NetworkValue => map_err "Error in receiving in open operation" (v ← m; into_vec T v)).
  apply (proto_ext ids sid _ (fun i => _ ← net (fun n => send_next n ((vec_or_element T <$> c) @ i));
    _ ← net (fun n => send_prev n ((vec_or_element T <$> c) @ i));
    m ← liftp receive_prev; x ← liftr (dec m); m ← liftp receive_next; y ← liftr (dec m);
    mret (izip3 (fun a b c => a +[T] b +[T] c) (c @ i) x y)));
    [intros s i _; unfold open_ring_element_broadcast; by rewrite !tget_fmap|].
  apply (proto_round_both ids sid (vec_or_element T <$> c) dec c).
  { intros i. unfold dec. cbn [mbind result_bind]. by rewrite tget_fmap, into_vec_or_element. }
  eapply proto_ext; [|apply (proto_ret ids sid (tof (fun _ => sum3 T <$> cs)))]; [|by intros []].
  intros s i _. cbn beta. rewrite !tget_tof, !Hd. f_equal.
  clear Hd. induction Hcs as [|t cs Ht Hcs IH]; [done|]. unfold izip3. rewrite !fmap_cons. cbn [zip_with]. f_equal; [|exact IH].
  by apply (add_rotations T).
Qed.
End Opening.

(** ** Claims *)

(** Opening is correct in both forms: from replicated shares ([open_ring]),
    and from one additive component per party ([open_ring_element_broadcast]),
    every party obtains the shared values, whatever their number. *)
Theorem open_ring_correct (R : Rng) ids sid (T : NetworkInt) `{!NetworkIntOk T} v c xs :
  tvec (shares_add T) v xs -> tvec (add3 T) c xs ->
  proto (R := R) ids sid (fun i => open_ring T (v @ i)) (fun out => forall i, out @ i = xs) /\
  proto (R := R) ids sid (fun i => open_ring_element_broadcast T (c @ i)) (fun out => forall i, out @ i = xs).
Proof. intros Hv Hc. split; [by apply open_ring_spec|by apply open_ring_element_broadcast_spec]. Qed.

Lemma open_ring_correct_witness :
  let c := tcons (Tri 1 2 3) (tcons (Tri (2 ^ 48 - 1) 1 0) tnil) in
  proto (R := counter_rng) demo_ids 0
    (fun i => open_ring net_ring48 ((dealt [Tri 1 2 3; Tri (2 ^ 48 - 1) 1 0]) @ i)) (fun out => forall i, out @ i = [6; 0]) /\
  proto (R := counter_rng) demo_ids 0
    (fun i => open_ring_element_broadcast net_ring48 (c @ i)) (fun out => forall i, out @ i = [6; 0]).
Proof.
  apply (open_ring_correct counter_rng demo_ids 0 net_ring48).
  - apply (dealt_add Ring48 [Tri 1 2 3; Tri (2 ^ 48 - 1) 1 0]). solve_valid3.
  - repeat (apply tvec_cons; [split; [intros []; vm_compute; done|done]|]). apply tvec_nil.
Defined.

(** C1: Thresholding works end to end: additive components of 16-bit values, one
    per party, become replicated shares, and the comparison opens to every
    party exactly which values are negative (respectively not negative) as
    signed 16-bit integers. *)
Theorem threshold_correct (R : Rng) `{!RngOk R} ids sid items xs :
  tvec (add3 u16) items xs -> Z.of_nat (length xs) + 63 < 2 ^ 31 ->
  proto (R := R) ids sid (fun i => v ← galois_ring_to_rep3 (items @ i); lt_zero_and_open_u16 v)
    (fun out => forall i, out @ i = (fun x => 2 ^ 15 <=? x) <$> xs) /\
  proto (R := R) ids sid (fun i => v ← galois_ring_to_rep3 (items @ i); gte_zero_and_open_u16 v)
    (fun out => forall i, out @ i = (fun x => x <? 2 ^ 15) <$> xs).
Proof.
  intros Hi Hn.
  assert (forall x, valid u16 x -> bit_convert (Z.b2z (Z.testbit x 15)) = (2 ^ 15 <=? x)) as Hbit.
  { intros x [H0 H1]. change (K u16) with 16 in H1. rewrite Z.testbit_eqb by lia.
    replace (bit_convert (Z.b2z ((x / 2 ^ 15) mod 2 =? 1))) with ((x / 2 ^ 15) mod 2 =? 1) by (by destruct (_ =? 1)).
    apply eq_bool_prop_intro. rewrite !Is_true_true, Z.eqb_eq, Z.leb_le.
    change (2 ^ 15) with 32768 in *. change (2 ^ 16) with 65536 in *. Z.to_euclidean_division_equations. lia. }
  assert (Forall (valid u16) xs) as Hv.
  { clear Hn. induction Hi as [|c items x xs [_ <-] Hc IH]; constructor; [apply valid_mod|done]. }
  split; (eapply proto_bind; [by apply galois_ring_to_rep3_spec|]); intros v Hs.
  - eapply proto_mono; [|by apply (sign_bits_spec ids sid v xs bit_convert)]. intros out Ho i. rewrite Ho.
    apply list_fmap_ext. intros k x Hx. apply Hbit. by apply (Forall_lookup_1 _ _ _ _ Hv Hx).
  - eapply proto_mono; [|by apply (sign_bits_spec ids sid v xs (fun x => negb (bit_convert x)))]. intros out Ho i. rewrite Ho.
    apply list_fmap_ext. intros k x Hx. cbn beta. rewrite Hbit, Z.ltb_antisym; [done|].
    by apply (Forall_lookup_1 _ _ _ _ Hv Hx).
Qed.

Lemma threshold_correct_witness :
  let items := tcons (Tri 65535 0 0) (tcons (Tri 30000 2000 767) (tcons (Tri 30000 2000 768) tnil)) in
  proto (R := counter_rng) demo_ids 0 (fun i => v ← galois_ring_to_rep3 (items @ i); lt_zero_and_open_u16 v)
    (fun out => forall i, out @ i = [true; false; true]) /\
  proto (R := counter_rng) demo_ids 0 (fun i => v ← galois_ring_to_rep3 (items @ i); gte_zero_and_open_u16 v)
    (fun out => forall i, out @ i = [false; true; false]).
Proof.
  apply (threshold_correct counter_rng demo_ids 0 _ [65535; 32767; 32768]); [|done].
  repeat (apply tvec_cons; [split; [intros []; vm_compute; done|done]|]). apply tvec_nil.
Defined.
