(* ===== verification/Select.v ===== *)
(** * Oblivious selection and swapping

    Correctness of the multiplexer of [ops.rs] and of what is built from it:
    selection of distances and of entries with ids, and conditional swaps,
    against the same operations on the values in the clear; and what happens to
    public ids in rings wider than 32 bits. *)

From S2P Require Import Prelude IntRing RingImpl Party Share VecShare Transpose Value Net Prf Proto Circuits Binary Adder Inject Convert Ops.
From stdpp Require Import option base list numbers strings gmap.
From Stdlib Require Import ZArith Lia.
Local Open Scope Z_scope.

(** ** Oblivious selection *)

Lemma Forall_zip_with_const {A B C} (P : C -> Prop) (f : A -> B -> C) l k :
  (forall x y, P (f x y)) -> Forall P (zip_with f l k).
Proof. intros H. revert k. induction l as [|x l IH]; intros [|y k]; constructor; auto. Qed.

Section Mux.
Context {R : Rng} {HR : RngOk R} (ids : tri Identity) (sid : Z).
Context {T : NetworkInt} {HT : NetworkIntOk T}.

(** What [reshare_mux] computes in the clear. *)
Definition mux (b x y : Z) : Z := b *[T] (x ⊖[T] y) +[T] y.

(** The closure of [reshare_mux], on the fields it selects from. *)
Definition mux_local (c left_ right_ : Share) : Z :=
  let diff := share_sub T left_ right_ in
  sa c *[T] sa diff +[T] sb c *[T] sa diff +[T] sa c *[T] sb diff +[T] sa right_.

(** On a bit it selects. *)
Lemma mux_bit (b : bool) x y : valid T x -> valid T y -> mux (Z.b2z b) x y = if b then x else y.
Proof.
  assert (IntRing2kOk T) by apply _. intros Hx Hy. pose proof (valid_b2z (T:=T) b). unfold mux.
  destruct b; cbn [Z.b2z] in *; ring_eq T.
Qed.

Lemma mux_add3 c b l x r y :
  shares_add T c b -> shares_add T l x -> shares_add T r y ->
  add3 T (tof (fun i => mux_local (c @ i) (l @ i) (r @ i))) (mux b x y).
Proof.
  intros (cc & Hc & Vc & <-) (cl & Hl & Vl & <-) (cr & Hr & Vr & <-). split.
  - intros i. rewrite tget_tof, Hc, Hl, Hr. unfold mux_local. cbn [sa sb].
    repeat first [apply re_add_valid|apply re_mul_valid|apply re_sub_valid|apply Vc|apply Vl|apply Vr].
  - unfold mux. symmetry. apply valid_eq_mod.
    { repeat first [apply re_add_valid|apply re_mul_valid|apply re_sub_valid|apply valid_mod]. }
    cbn. rewrite (rep3_inv _ _ Hc), (rep3_inv _ _ Hl), (rep3_inv _ _ Hr). unfold mux_local. cbn.
    rewrite re_add_ceq, re_mul_ceq, re_sub_ceq, !sum3_ceq. ring_ceq.
Qed.

(** Entries with [m] fields each, of which [field f] selects the pair the
    multiplexer works on. *)
Section Fields.
Context {X V : Type} (field : nat -> X -> Share * Share) (val : nat -> V -> Z * Z) (RX : tri X -> V -> Prop) (m : nat).
Hypothesis Hm : (0 < m)%nat.
Hypothesis Hfield : forall f t v, (f < m)%nat -> RX t v ->
  shares_add T ((fun x => (field f x).1) <$> t) (val f v).1 /\
  shares_add T ((fun x => (field f x).2) <$> t) (val f v).2.

Definition mux_entry (b : Z) (v : V) : list Z := (fun f => mux b (val f v).1 (val f v).2) <$> seq 0 m.
Definition local_entry (c : Share) (x : X) : list Z :=
  (fun f => mux_local c (field f x).1 (field f x).2) <$> seq 0 m.

Lemma entry_add3 c b t v :
  shares_add T c b -> RX t v -> tvec (add3 T) (tof (fun i => local_entry (c @ i) (t @ i))) (mux_entry b v).
Proof.
  intros Hc Ht. apply tvec_intro.
  - intros i. rewrite tget_tof. unfold local_entry, mux_entry. by rewrite !length_fmap.
  - intros k x. unfold mux_entry. rewrite list_lookup_fmap. intros (f & Hk & ->)%fmap_Some.
    exists (tof (fun i => mux_local (c @ i) (((fun x => (field f x).1) <$> t) @ i) (((fun x => (field f x).2) <$> t) @ i))).
    split; [|destruct (Hfield f t v); [by apply lookup_seq in Hk; lia|done|by apply mux_add3]].
    intros i. rewrite !tget_tof, !tget_fmap. unfold local_entry. by rewrite list_lookup_fmap, Hk.
Qed.

Lemma reshare_mux_spec (gf : PartyID -> nat -> nat -> result (Share * Share)) c bs E vs :
  tvec (shares_add T) c bs -> tvec RX E vs -> length bs = length vs ->
  (forall i j f x, (E @ i) !! j = Some x -> (f < m)%nat -> gf i j f = Ok (field f x)) ->
  proto (R := R) ids sid (fun i => reshare_mux T (length vs) m (c @ i) (gf i))
    (fun out => tvec (shares_add T) out (concat (zip_with mux_entry bs vs))).
Proof.
  intros Hc HE Hl Hgf.
  assert (length (concat (zip_with mux_entry bs vs)) = length vs * m)%nat as Hlen.
  { rewrite (length_concat_const m), length_zip_with by (apply Forall_zip_with_const; intros; unfold mux_entry; by rewrite length_fmap, length_seq).
    f_equal. lia. }
  eapply proto_ext; [|apply (reshare_products_spec ids sid (fun i k =>
    c0 ← index (c @ i) (k / m); '(left_, right_) ← gf i (k / m)%nat (k mod m)%nat; Ok (mux_local c0 left_ right_))
    (tof (fun i => concat (zip_with local_entry (c @ i) (E @ i)))))].
  - intros s i _. unfold reshare_mux. cbn beta. rewrite Hlen, (tvec_length _ _ _ i Hc), Hl.
    rewrite (proj2 (Nat.eqb_neq m 0)), Nat.ltb_irrefl by lia. done.
  - pose proof (tvec_concat (add3 T) _ _ (tvec_zip (shares_add T) RX (tvec (add3 T)) (fun _ => local_entry) mux_entry
      c bs E vs (fun s x r y => entry_add3 s x r y) Hc HE)) as H.
    by replace (tof (fun i => concat (zip_with local_entry (c @ i) (E @ i)))) with
      (concat (A:=Z) <$> tof (fun i => zip_with local_entry (c @ i) (E @ i))) by done.
  - intros i k y. rewrite tget_tof, (concat_lookup m) by
      (done || (apply Forall_zip_with_const; intros; unfold local_entry; by rewrite length_fmap, length_seq)).
    rewrite lookup_zip_with. unfold index. intros Hy.
    destruct ((c @ i) !! (k / m)%nat) as [c0|] eqn:Ec; [|done]. destruct ((E @ i) !! (k / m)%nat) as [x|] eqn:Ex; [|done].
    pose proof (Nat.mod_upper_bound k m). cbn in Hy |- *. rewrite (Hgf i _ _ x Ex) by lia.
    unfold local_entry in Hy. rewrite list_lookup_fmap, lookup_seq_lt in Hy by lia. cbn in *.
    destruct (field (k mod m) x). by injection Hy as <-.
Qed.
End Fields.
End Mux.

(** ** Selection and swapping of distances *)

(** Three shares of a distance, and of an entry with an id. *)
Definition distance_holds (T : IntRing2k) (d : tri DistanceShare) (x : Z * Z) : Prop :=
  shares_add T (code_dot <$> d) x.1 /\ shares_add T (mask_dot <$> d) x.2.
Definition entry_holds (T : IntRing2k) (t : tri IdDistance) (x : Z * (Z * Z)) : Prop :=
  shares_add T (fst <$> t) x.1 /\ distance_holds T (snd <$> t) x.2.
Definition pair_holds {A B} (P : tri A -> B -> Prop) (t : tri (A * A)) (x : B * B) : Prop :=
  P (fst <$> t) x.1 /\ P (snd <$> t) x.2.

Lemma tuples2_tvec {A B} (P : tri A -> B -> Prop) v ps :
  tvec P v (concat ((fun p => [p.1; p.2]) <$> ps)) -> tvec (pair_holds P) (tuples2 <$> v) ps.
Proof.
  revert v. induction ps as [|[x y] ps IH]; intros v Hv.
  { apply tvec_nil_inv in Hv as ->. apply tvec_nil. }
  apply tvec_cons_inv in Hv as (s & w & -> & Hs & Hv). apply tvec_cons_inv in Hv as (r & w' & -> & Hr & Hv).
  refine (tvec_cons (pair_holds P) (tof (fun i => (s @ i, r @ i))) _ (x, y) ps _ (IH _ Hv)).
  split; [by destruct s|by destruct r].
Qed.

Lemma tuples3_tvec {A B} (P : tri A -> B -> Prop) v (ps : list (B * (B * B))) :
  tvec P v (concat ((fun p => [p.1; p.2.1; p.2.2]) <$> ps)) ->
  tvec (fun t x => P (fst ∘ fst <$> t) x.1 /\ P (snd ∘ fst <$> t) x.2.1 /\ P (snd <$> t) x.2.2) (tuples3 <$> v) ps.
Proof.
  revert v. induction ps as [|(x & y & z) ps IH]; intros v Hv.
  { apply tvec_nil_inv in Hv as ->. apply tvec_nil. }
  apply tvec_cons_inv in Hv as (s & w & -> & Hs & Hv). apply tvec_cons_inv in Hv as (r & w' & -> & Hr & Hv).
  apply tvec_cons_inv in Hv as (q & w'' & -> & Hq & Hv).
  refine (tvec_cons (fun t x => P (fst ∘ fst <$> t) x.1 /\ P (snd ∘ fst <$> t) x.2.1 /\ P (snd <$> t) x.2.2)
    (tof (fun i => (s @ i, r @ i, q @ i))) _ (x, (y, z)) ps _ (IH _ Hv)).
  split_and!; [by destruct s|by destruct r|by destruct q].
Qed.

Lemma tvec_insert {A B} (P : tri A -> B -> Prop) v xs k t x :
  tvec P v xs -> P t x -> tvec P (tof (fun i => <[k := t @ i]> (v @ i))) (<[k := x]> xs).
Proof.
  intros Hv Ht. revert k. induction Hv as [|s v y xs Hs Hv IH]; intros k.
  { replace (tof _) with (tnil (A:=A)) by (by apply tri_ext; intros []). apply tvec_nil. }
  destruct k as [|k].
  - replace (tof _) with (tcons t v) by (by apply tri_ext; intros []). by constructor.
  - exact (tvec_cons P _ _ _ _ Hs (IH k)).
Qed.

Section Select.
Context {R : Rng} {HR : RngOk R} (ids : tri Identity) (sid : Z).
Context {T : NetworkInt} {HT : NetworkIntOk T}.

Definition mux2 (b : Z) (p : (Z * Z) * (Z * Z)) : Z * Z :=
  (mux (T:=T) b p.1.1 p.2.1, mux (T:=T) b p.1.2 p.2.2).
Definition mux3 (b : Z) (p : (Z * (Z * Z)) * (Z * (Z * Z))) : Z * (Z * Z) :=
  (mux (T:=T) b p.1.1 p.2.1, mux2 b (p.1.2, p.2.2)).

(** The fields of a pair of distances and of a pair of entries. *)
Definition distance_field (f : nat) (p : DistanceShare * DistanceShare) : Share * Share :=
  if (f =? 0)%nat then (code_dot p.1, code_dot p.2) else (mask_dot p.1, mask_dot p.2).
Definition distance_val (f : nat) (p : (Z * Z) * (Z * Z)) : Z * Z :=
  if (f =? 0)%nat then (p.1.1, p.2.1) else (p.1.2, p.2.2).
Definition entry_field (f : nat) (p : IdDistance * IdDistance) : Share * Share :=
  match f with 0%nat => (p.1.1, p.2.1) | 1%nat => (code_dot p.1.2, code_dot p.2.2)
             | _ => (mask_dot p.1.2, mask_dot p.2.2) end.
Definition entry_val (f : nat) (p : (Z * (Z * Z)) * (Z * (Z * Z))) : Z * Z :=
  match f with 0%nat => (p.1.1, p.2.1) | 1%nat => (p.1.2.1, p.2.2.1) | _ => (p.1.2.2, p.2.2.2) end.

Lemma distance_field_holds f t v : (f < 2)%nat -> pair_holds (distance_holds T) t v ->
  shares_add T ((fun x => (distance_field f x).1) <$> t) (distance_val f v).1 /\
  shares_add T ((fun x => (distance_field f x).2) <$> t) (distance_val f v).2.
Proof. intros Hf [[H1 H2] [H3 H4]]. destruct t, f as [|[|f]]; [done|done|lia]. Qed.

Lemma entry_field_holds f t v : (f < 3)%nat -> pair_holds (entry_holds T) t v ->
  shares_add T ((fun x => (entry_field f x).1) <$> t) (entry_val f v).1 /\
  shares_add T ((fun x => (entry_field f x).2) <$> t) (entry_val f v).2.
Proof. intros Hf [(H1 & H2 & H3) (H4 & H5 & H6)]. destruct t, f as [|[|[|f]]]; [done..|lia]. Qed.

Lemma concat_mux2 bs ps :
  concat (zip_with (mux_entry (T:=T) distance_val 2) bs ps) = concat ((fun p => [p.1; p.2]) <$> zip_with mux2 bs ps).
Proof. f_equal. revert ps. induction bs as [|b bs IH]; intros [|p ps]; [done..|]. cbn. by f_equal. Qed.
Lemma concat_mux3 bs ps :
  concat (zip_with (mux_entry (T:=T) entry_val 3) bs ps)
  = concat ((fun p => [p.1; p.2.1; p.2.2]) <$> zip_with mux3 bs ps).
Proof. f_equal. revert ps. induction bs as [|b bs IH]; intros [|p ps]; [done..|]. cbn. by f_equal. Qed.

(** The selections, for any pair of field access paths. *)
Lemma select_distances_spec (gf : PartyID -> nat -> nat -> result (Share * Share)) c bs E vs :
  tvec (shares_add T) c bs -> tvec (pair_holds (distance_holds T)) E vs -> length bs = length vs ->
  (forall i j f x, (E @ i) !! j = Some x -> (f < 2)%nat -> gf i j f = Ok (distance_field f x)) ->
  proto (R := R) ids sid (fun i => products ← reshare_mux T (length vs) 2 (c @ i) (gf i);
      mret ((fun '(code, mask) => mkDistance code mask) <$> tuples2 products))
    (fun out => tvec (distance_holds T) out (zip_with mux2 bs vs)).
Proof.
  intros Hc HE Hl Hgf. eapply proto_bind; [exact (reshare_mux_spec ids sid distance_field distance_val
    (pair_holds (distance_holds T)) 2 ltac:(lia) distance_field_holds gf c bs E vs Hc HE Hl Hgf)|].
  intros out Ho. rewrite concat_mux2 in Ho. apply tuples2_tvec in Ho.
  eapply proto_ext; [|apply (proto_ret ids sid (tof (fun i => (fun '(code, mask) => mkDistance code mask) <$> (tuples2 <$> out) @ i)))].
  { intros s i _. cbn beta. by rewrite tget_tof, tget_fmap. }
  rewrite <- (list_fmap_id (zip_with mux2 bs vs)).
  refine (tvec_map (pair_holds (shares_add T)) (distance_holds T) (fun _ '(code, mask) => mkDistance code mask) id _ _ _ Ho).
  intros [[] [] []] x [H1 H2]. by split.
Qed.

Lemma select_entries_spec (gf : PartyID -> nat -> nat -> result (Share * Share)) c bs E vs :
  tvec (shares_add T) c bs -> tvec (pair_holds (entry_holds T)) E vs -> length bs = length vs ->
  (forall i j f x, (E @ i) !! j = Some x -> (f < 3)%nat -> gf i j f = Ok (entry_field f x)) ->
  proto (R := R) ids sid (fun i => reshare_mux T (length vs) 3 (c @ i) (gf i))
    (fun out => tvec (shares_add T) out (concat ((fun p => [p.1; p.2.1; p.2.2]) <$> zip_with mux3 bs vs))).
Proof.
  intros Hc HE Hl Hgf. eapply proto_mono; [|exact (reshare_mux_spec ids sid entry_field entry_val
    (pair_holds (entry_holds T)) 3 ltac:(lia) entry_field_holds gf c bs E vs Hc HE Hl Hgf)].
  intros out Ho. by rewrite <- concat_mux3.
Qed.

(** On bits the multiplexer picks one of the two entries. *)
Definition pick {A} (b : bool) (p : A * A) : A := if b then p.1 else p.2.

Lemma pair_holds_mux3 t v b :
  pair_holds (entry_holds T) t v -> mux3 (Z.b2z b) v = pick b v.
Proof.
  intros [(H1 & H2 & H3) (H4 & H5 & H6)]. unfold mux3, mux2. cbn [fst snd].
  rewrite !mux_bit by (by eapply shares_add_valid). by destruct b, v as [(? & ? & ?) (? & ? & ?)].
Qed.
Lemma pair_holds_mux2 t v b :
  pair_holds (distance_holds T) t v -> mux2 (Z.b2z b) v = pick b v.
Proof.
  intros [[H2 H3] [H5 H6]]. unfold mux2. cbn [fst snd].
  rewrite !mux_bit by (by eapply shares_add_valid). by destruct b, v as [(? & ?) (? & ?)].
Qed.
Lemma zip_pick {A V} (P : tri A -> V -> Prop) (f : Z -> V * V -> V) E vs (bs : list bool) :
  (forall t v b, pair_holds P t v -> f (Z.b2z b) v = pick b v) ->
  tvec (pair_holds P) E vs -> zip_with f (Z.b2z <$> bs) vs = zip_with pick bs vs.
Proof.
  intros H HE. revert bs. induction HE as [|t E v vs Ht HE IH]; intros [|b bs]; [done..|].
  cbn. f_equal; [by eapply H|apply IH].
Qed.

Lemma select_distance_spec c bs E vs :
  tvec (shares_add T) c (Z.b2z <$> bs) -> tvec (pair_holds (distance_holds T)) E vs -> length bs = length vs ->
  proto (R := R) ids sid (fun i => conditionally_select_distance T (E @ i) (c @ i))
    (fun out => tvec (distance_holds T) out (zip_with pick bs vs)).
Proof.
  intros Hc HE Hl. rewrite <- (zip_pick (distance_holds T) mux2 E vs bs pair_holds_mux2 HE).
  eapply proto_ext; [|apply (select_distances_spec (fun i j f => '(d1, d2) ← index (E @ i) j;
    Ok (if (f =? 0)%nat then (code_dot d1, code_dot d2) else (mask_dot d1, mask_dot d2))) c _ E vs Hc HE)].
  - intros s i _. unfold conditionally_select_distance.
    rewrite (tvec_length _ _ _ i HE), (tvec_length _ _ _ i Hc), length_fmap, Hl, Nat.eqb_refl. done.
  - by rewrite length_fmap.
  - intros i j f [d1 d2] Hx Hf. by rewrite (index_lookup _ _ _ Hx).
Qed.

Lemma select_shared_ids_spec c bs L ls Rr rs :
  tvec (shares_add T) c (Z.b2z <$> bs) -> tvec (entry_holds T) L ls -> tvec (entry_holds T) Rr rs ->
  length bs = length ls -> length rs = length ls -> ls <> [] ->
  proto (R := R) ids sid (fun i => conditionally_select_distances_with_shared_ids T (L @ i) (Rr @ i) (c @ i))
    (fun out => tvec (entry_holds T) out (zip_with pick bs (zip ls rs))).
Proof.
  intros Hc HL HRr Hb Hl Hne.
  set (E := tof (fun i => zip (L @ i) (Rr @ i))).
  assert (tvec (pair_holds (entry_holds T)) E (zip ls rs)) as HE.
  { refine (tvec_zip (entry_holds T) (entry_holds T) (pair_holds (entry_holds T)) (fun _ => pair) pair L ls Rr rs _ HL HRr).
    intros [] x [] y Hx Hy. by split. }
  assert (length (zip ls rs) = length ls) as Hz by (rewrite length_zip_with; lia).
  rewrite <- (zip_pick (entry_holds T) mux3 E _ bs pair_holds_mux3 HE).
  eapply proto_ext with (m' := fun i => flat_res ← reshare_mux T (length (zip ls rs)) 3 (c @ i) (fun j f =>
      left_ ← index (L @ i) j; right_ ← index (Rr @ i) j; id_field f left_ right_);
    mret ((fun '(id, code, mask) => (id, mkDistance code mask)) <$> tuples3 flat_res)).
  { intros s i _. unfold conditionally_select_distances_with_shared_ids.
    rewrite (tvec_length _ _ _ i HL), (tvec_length _ _ _ i HRr), (tvec_length _ _ _ i Hc), length_fmap, Hb, Hl, Hz, !Nat.eqb_refl.
    cbn [negb]. by destruct ls. }
  eapply proto_bind; [apply (select_entries_spec _ c _ E _ Hc HE); [by rewrite length_fmap, Hz|]|].
  - intros i j f [l r] Hx Hf. unfold E in Hx. rewrite tget_tof, lookup_zip_with in Hx.
    destruct ((L @ i) !! j) as [l'|] eqn:El; [|done]. destruct ((Rr @ i) !! j) as [r'|] eqn:Er; [|done].
    cbn in Hx. injection Hx as <- <-. rewrite (index_lookup _ _ _ El), (index_lookup _ _ _ Er).
    destruct f as [|[|[|f]]]; [done..|lia].
  - intros out Ho. apply tuples3_tvec in Ho.
    eapply proto_ext; [|apply (proto_ret ids sid
      (tof (fun i => (fun '(id, code, mask) => (id, mkDistance code mask)) <$> (tuples3 <$> out) @ i)))].
    { intros s i _. cbn beta. by rewrite tget_tof, tget_fmap. }
    rewrite <- (list_fmap_id (zip_with mux3 (Z.b2z <$> bs) (zip ls rs))).
    refine (tvec_map _ (entry_holds T) (fun _ '(id, code, mask) => (id, mkDistance code mask)) id _ _ _ Ho).
    intros [[[] ?] [[] ?] [[] ?]] x (H1 & H2 & H3). by split_and!.
Qed.
End Select.

(** ** Swaps *)

Section Swap.
Context {T : NetworkInt} {HT : NetworkIntOk T}.

Abbreviation entry_value := (Z * (Z * Z))%type.

(** The entry that was not selected. *)
Definition other (v1 v2 p : entry_value) : entry_value :=
  (v1.1 +[T] v2.1 ⊖[T] p.1, (v1.2.1 +[T] v2.2.1 ⊖[T] p.2.1, v1.2.2 +[T] v2.2.2 ⊖[T] p.2.2)).

(** The loop in the clear: every pair is read from the original list. *)
Fixpoint place (vs : list entry_value) (work : list ((nat * nat) * (entry_value * entry_value)))
    : list entry_value :=
  match work with
  | [] => vs
  | ((idx1, idx2), (p, q)) :: work => place (<[idx2 := q]> (<[idx1 := p]> vs)) work
  end.

Definition lookup_entry (vs : list entry_value) (k : nat) : entry_value := default (0, (0, 0)) (vs !! k).

Definition swap_work (vs ps : list entry_value) (indices : list (nat * nat)) :=
  zip_with (fun '(idx1, idx2) p => ((idx1, idx2), (p, other (lookup_entry vs idx1) (lookup_entry vs idx2) p))) indices ps.

Lemma entry_other_holds t1 v1 t2 v2 t p :
  entry_holds T t1 v1 -> entry_holds T t2 v2 -> entry_holds T t p ->
  entry_holds T (tof (fun i => (share_sub T (share_add T (t1 @ i).1 (t2 @ i).1) (t @ i).1,
    second_distance T (t1 @ i).2 (t2 @ i).2 (t @ i).2))) (other v1 v2 p).
Proof.
  assert (IntRing2kOk T) by apply _. intros (A1 & A2 & A3) (B1 & B2 & B3) (C1 & C2 & C3).
  split; [|split].
  - exact (share_sub_spec _ _ _ _ (share_add_spec _ _ _ _ A1 B1) C1).
  - exact (share_sub_spec _ _ _ _ (share_add_spec _ _ _ _ A2 B2) C2).
  - exact (share_sub_spec _ _ _ _ (share_add_spec _ _ _ _ A3 B3) C3).
Qed.

Lemma set_index_ok {A} (l : list A) k x : (k < length l)%nat -> set_index l k x = Ok (<[k := x]> l).
Proof. intros Hk. unfold set_index. by rewrite (proj2 (Nat.ltb_lt _ _) Hk). Qed.

Lemma indices_ok_cons i1 i2 l n : indices_ok ((i1, i2) :: l) n = true -> (i1 < n)%nat /\ (i2 < n)%nat /\ indices_ok l n = true.
Proof. unfold indices_ok. cbn. rewrite andb_true_iff, negb_true_iff, orb_false_iff, !Nat.leb_gt. tauto. Qed.

Lemma chunks3_cons {A} (x y z : A) l : chunks 3 (x :: y :: z :: l) = [x; y; z] :: chunks 3 l.
Proof. exact (chunks_app 3 [x; y; z] l ltac:(lia) eq_refl). Qed.

(** The parties' loops, on shares of the selected entries. *)
Lemma swap_chunks_spec list0 vs0 ps indices sel acc vs :
  tvec (entry_holds T) list0 vs0 ->
  tvec (shares_add T) sel (concat ((fun p => [p.1; p.2.1; p.2.2]) <$> ps)) ->
  length ps = length indices -> indices_ok indices (length vs0) = true ->
  tvec (entry_holds T) acc vs -> length vs = length vs0 ->
  exists out, (forall i, swap_chunks T (list0 @ i) (chunks 3 (sel @ i)) indices (acc @ i) = Ok (out @ i)) /\
    tvec (entry_holds T) out (place vs (swap_work vs0 ps indices)).
Proof.
  intros H0. revert indices sel acc vs. induction ps as [|(x & y & z) ps IH];
    intros [|[i1 i2] indices] sel acc vs Hs Hl Hi Ha Hlen; try done.
  { exists acc. split; [|done]. intros i. by destruct (chunks 3 (sel @ i)). }
  apply indices_ok_cons in Hi as (L1 & L2 & Hi).
  apply tvec_cons_inv in Hs as (s0 & w & -> & Hs0 & Hs). apply tvec_cons_inv in Hs as (s1 & w' & -> & Hs1 & Hs).
  apply tvec_cons_inv in Hs as (s2 & w'' & -> & Hs2 & Hs).
  destruct (lookup_lt_is_Some_2 vs0 i1 L1) as [v1 E1]. destruct (lookup_lt_is_Some_2 vs0 i2 L2) as [v2 E2].
  destruct (tvec_lookup _ _ _ _ _ H0 E1) as (t1 & T1 & P1). destruct (tvec_lookup _ _ _ _ _ H0 E2) as (t2 & T2 & P2).
  set (t := tof (fun i => (s0 @ i, mkDistance (s1 @ i) (s2 @ i)))).
  assert (entry_holds T t (x, (y, z))) as Ht by (split; [by destruct s0|split; [by destruct s1|by destruct s2]]).
  pose proof (entry_other_holds _ _ _ _ _ _ P1 P2 Ht) as Ho.
  pose proof (tvec_insert _ _ _ i2 _ _ (tvec_insert _ _ _ i1 _ _ Ha Ht) Ho) as Ha'.
  destruct (IH indices w'' _ _ Hs ltac:(by injection Hl) Hi Ha') as (out & Hout & Hv);
    [by rewrite !length_insert|].
  exists out. split; [|].
  - intros i. rewrite !tget_tcons, chunks3_cons. cbn [swap_chunks]. unfold index. cbn [lookup list_lookup mbind result_bind].
    rewrite T1, T2. cbn. destruct (t1 @ i) as [a1 d1] eqn:X1, (t2 @ i) as [a2 d2] eqn:X2. cbn.
    pose proof (tvec_length _ _ _ i Ha) as La.
    assert (i2 < length (acc @ i))%nat as L2' by lia.
    rewrite set_index_ok by lia. cbn. rewrite set_index_ok by (by rewrite length_insert). cbn.
    rewrite <- (Hout i). rewrite !tget_tof. unfold t. rewrite !tget_tof, X1, X2. done.
  - cbn [swap_work zip_with place]. unfold lookup_entry. rewrite E1, E2. exact Hv.
Qed.

(** A conditional swap in the clear: a zero bit swaps. *)
Definition swap_if (vs : list entry_value) (w : (nat * nat) * bool) : list entry_value :=
  let '((i1, i2), b) := w in
  if b then vs else <[i2 := lookup_entry vs i1]> (<[i1 := lookup_entry vs i2]> vs).

Definition flat_indices (indices : list (nat * nat)) : list nat := concat ((fun '(i, j) => [i; j]) <$> indices).

Definition in_ring_values (vs : list entry_value) : Prop :=
  Forall (fun v => valid T v.1 /\ valid T v.2.1 /\ valid T v.2.2) vs.

Lemma other_pick v1 v2 (b : bool) :
  valid T v1.1 /\ valid T v1.2.1 /\ valid T v1.2.2 -> valid T v2.1 /\ valid T v2.2.1 /\ valid T v2.2.2 ->
  other v1 v2 (pick b (v1, v2)) = pick (negb b) (v1, v2).
Proof.
  assert (IntRing2kOk T) by apply _. intros (A1 & A2 & A3) (B1 & B2 & B3).
  unfold other. destruct b, v1 as (? & ? & ?), v2 as (? & ? & ?); cbn in *; f_equal; [|f_equal| |f_equal]; ring_eq T.
Qed.

Lemma swap_step_other vs i1 i2 b k :
  k <> i1 -> k <> i2 -> swap_if vs ((i1, i2), b) !! k = vs !! k.
Proof. intros H1 H2. destruct b; [done|]. cbn. by rewrite !list_lookup_insert_ne. Qed.

(** On disjoint pairs, placing selections made on the original list is
    swapping one pair after the other. *)
Lemma place_swaps vs0 vs bs indices :
  in_ring_values vs0 -> length bs = length indices -> indices_ok indices (length vs0) = true ->
  NoDup (flat_indices indices) -> length vs = length vs0 ->
  (forall k, k ∈ flat_indices indices -> vs !! k = vs0 !! k) ->
  place vs (swap_work vs0 (zip_with pick bs
    ((fun '(i, j) => (lookup_entry vs0 i, lookup_entry vs0 j)) <$> indices)) indices)
  = foldl swap_if vs (zip indices bs).
Proof.
  intros Hv. revert bs vs. induction indices as [|[i1 i2] indices IH]; intros [|b bs] vs Hl Hi Hnd Hlen Heq; try done.
  apply indices_ok_cons in Hi as (L1 & L2 & Hi).
  cbn in Hnd. apply NoDup_cons in Hnd as [N1 Hnd]. apply NoDup_cons in Hnd as [N2 Hnd].
  destruct (lookup_lt_is_Some_2 vs0 i1 L1) as [v1 E1]. destruct (lookup_lt_is_Some_2 vs0 i2 L2) as [v2 E2].
  assert (vs !! i1 = Some v1) as F1 by (rewrite Heq by (by left); done).
  assert (vs !! i2 = Some v2) as F2 by (rewrite Heq by (by right; left); done).
  assert (<[i2 := pick (negb b) (v1, v2)]> (<[i1 := pick b (v1, v2)]> vs) = swap_if vs ((i1, i2), b)) as Hstep.
  { destruct b; cbn; unfold lookup_entry; rewrite ?F1, ?F2; [|done].
    by rewrite (list_insert_id vs i1), list_insert_id. }
  assert (lookup_entry vs0 i1 = v1 /\ lookup_entry vs0 i2 = v2) as [W1 W2] by (unfold lookup_entry; by rewrite E1, E2).
  cbn [fmap list_fmap zip_with swap_work place foldl zip]. rewrite !W1, !W2.
  rewrite other_pick by (by eapply (Forall_lookup_1 _ vs0) in Hv; eauto).
  rewrite Hstep. apply IH; [by injection Hl|done|done| |].
  - rewrite <- Hstep, !length_insert. done.
  - intros k Hk. rewrite swap_step_other; [|set_solver..]. apply Heq. cbn. by right; right.
Qed.
End Swap.

Section SwapProtocol.
Context {R : Rng} {HR : RngOk R} (ids : tri Identity) (sid : Z).
Context {T : NetworkInt} {HT : NetworkIntOk T}.

Lemma entries_in_ring L vs : tvec (entry_holds T) L vs -> in_ring_values (T:=T) vs.
Proof.
  induction 1 as [|t L v vs (H1 & H2 & H3) HL IH]; constructor; [|done].
  split_and!; by eapply shares_add_valid.
Qed.

(** The pairs the indices select. *)
Lemma indexed_pairs L vs indices :
  tvec (entry_holds T) L vs -> indices_ok indices (length vs) = true ->
  exists E, tvec (pair_holds (entry_holds T)) E ((fun '(i, j) => (lookup_entry vs i, lookup_entry vs j)) <$> indices) /\
    forall i k x, (E @ i) !! k = Some x -> exists i1 i2, indices !! k = Some (i1, i2) /\
      (L @ i) !! i1 = Some x.1 /\ (L @ i) !! i2 = Some x.2.
Proof.
  intros HL. induction indices as [|[i1 i2] indices IH]; intros Hi.
  { exists tnil. split; [apply tvec_nil|]. intros [] k x; by rewrite lookup_nil. }
  apply indices_ok_cons in Hi as (L1 & L2 & Hi). destruct (IH Hi) as (E & HE & HEx).
  destruct (lookup_lt_is_Some_2 vs i1 L1) as [v1 E1]. destruct (lookup_lt_is_Some_2 vs i2 L2) as [v2 E2].
  destruct (tvec_lookup _ _ _ _ _ HL E1) as (t1 & T1 & P1). destruct (tvec_lookup _ _ _ _ _ HL E2) as (t2 & T2 & P2).
  exists (tcons (tof (fun i => (t1 @ i, t2 @ i))) E). split.
  - cbn. unfold lookup_entry at 1 2. rewrite E1, E2. apply tvec_cons; [|done]. split; [by destruct t1|by destruct t2].
  - intros i [|k] x.
    + rewrite tget_tcons, tget_tof. intros [= <-]. exists i1, i2. cbn. auto.
    + rewrite tget_tcons. apply HEx.
Qed.

Lemma swap_distances_spec bits bs L vs indices :
  tvec (shares_xor Bit) bits (Z.b2z <$> bs) -> tvec (entry_holds T) L vs ->
  length bs = length indices -> indices_ok indices (length vs) = true -> NoDup (flat_indices indices) ->
  Z.of_nat (length bs * BYTES T) < 2 ^ 32 ->
  proto (R := R) ids sid (fun i => conditionally_swap_distances T (bits @ i) (L @ i) indices)
    (fun out => tvec (entry_holds T) out (foldl swap_if vs (zip indices bs))).
Proof.
  intros Hb HL Hl Hi Hnd Hn. destruct (indexed_pairs L vs indices HL Hi) as (E & HE & HEx).
  set (ps := (fun '(i, j) => (lookup_entry vs i, lookup_entry vs j)) <$> indices) in *.
  assert (length ps = length indices) as Hps by apply length_fmap.
  eapply proto_ext with (m' := fun i => lifted ← bit_inject T (bits @ i);
    selected ← reshare_mux T (length ps) 3 lifted (fun j f => '(idx1, idx2) ← index indices j;
      left_ ← index (L @ i) idx1; right_ ← index (L @ i) idx2; id_field f left_ right_);
    liftr (swap_chunks T (L @ i) (chunks 3 selected) indices (L @ i))).
  { intros s i _. unfold conditionally_swap_distances.
    by rewrite (tvec_length _ _ _ i Hb), (tvec_length _ _ _ i HL), length_fmap, Hl, Hi, Nat.eqb_refl, Hps. }
  eapply proto_bind; [apply (bit_inject_spec ids sid bits _ Hb); by rewrite length_fmap|]. intros lifted Hc.
  eapply proto_bind; [apply (select_entries_spec ids sid (fun i j f => '(idx1, idx2) ← index indices j;
      left_ ← index (L @ i) idx1; right_ ← index (L @ i) idx2; id_field f left_ right_) lifted _ E ps Hc HE)|].
  { by rewrite length_fmap, Hps. }
  { intros i j f x Hx Hf. destruct (HEx i j x Hx) as (i1 & i2 & H0 & H1 & H2).
    rewrite (index_lookup _ _ _ H0). cbn. rewrite (index_lookup _ _ _ H1). cbn. rewrite (index_lookup _ _ _ H2). cbn.
    destruct f as [|[|[|f]]]; [done..|lia]. }
  intros sel Hs. rewrite (zip_pick (entry_holds T) mux3 E ps bs pair_holds_mux3 HE) in Hs.
  destruct (swap_chunks_spec L vs (zip_with pick bs ps) indices sel L vs HL Hs) as (out & Hout & Hv);
    [rewrite length_zip_with; lia|done|done|done|].
  unfold ps in Hv. rewrite place_swaps in Hv; [|by eapply entries_in_ring|done..].
  by apply (proto_liftr ids sid _ out).
Qed.
End SwapProtocol.

(** ** Claims *)

(** An oblivious swap is a swap: from XOR-shared control bits and shared
    entries (id, code and mask distance), with in-range pairwise disjoint index
    pairs, the three parties obtain shares of the list in which exactly the
    pairs with a zero bit are exchanged, one after the other. *)
Theorem conditionally_swap_distances_correct (R : Rng) `{!RngOk R} ids sid (T : NetworkInt) `{!NetworkIntOk T}
    bits bs L vs indices :
  tvec (shares_xor Bit) bits (Z.b2z <$> bs) -> tvec (entry_holds T) L vs ->
  length bs = length indices -> indices_ok indices (length vs) = true -> NoDup (flat_indices indices) ->
  Z.of_nat (length bs * BYTES T) < 2 ^ 32 ->
  proto (R := R) ids sid (fun i => conditionally_swap_distances T (bits @ i) (L @ i) indices)
    (fun out => tvec (entry_holds T) out (foldl swap_if vs (zip indices bs))).
Proof. intros. by apply swap_distances_spec. Qed.

(** Shares of [x] with the whole value in the first component. *)
Definition plain_share (x : Z) : tri Share := tof (fun i => mkShare ((Tri x 0 0) @ i) ((Tri x 0 0) @ (prev_id i))).
Definition plain_entry (x y z : Z) : tri IdDistance :=
  tof (fun i => ((plain_share x) @ i, mkDistance ((plain_share y) @ i) ((plain_share z) @ i))).

Lemma plain_share_holds T `{!IntRing2kOk T} x : valid T x -> shares_add T (plain_share x) x.
Proof.
  intros Hx. pose proof (valid_b2z (T:=T) false) as H0. cbn in H0.
  exists (Tri x 0 0). split; [apply rep3_tof|]. split; [by intros []|].
  unfold sum3. cbn. rewrite !Z.add_0_r. symmetry. by apply valid_eq_mod.
Qed.

Lemma plain_entry_holds T `{!IntRing2kOk T} x y z :
  valid T x -> valid T y -> valid T z -> entry_holds T (plain_entry x y z) (x, (y, z)).
Proof. intros. split; [|split]; by apply plain_share_holds. Qed.

Lemma conditionally_swap_distances_correct_witness :
  proto (R := counter_rng) demo_ids 0 (fun i => conditionally_swap_distances net_u32
      ((dealt [Tri 1 1 0; Tri 1 0 0]) @ i)
      ((tcons (plain_entry 1 10 11) (tcons (plain_entry 2 20 21) (tcons (plain_entry 3 30 31) (tcons (plain_entry 4 40 41) tnil)))) @ i)
      [(0%nat, 1%nat); (2%nat, 3%nat)])
    (fun out => tvec (entry_holds u32) out [(2, (20, 21)); (1, (10, 11)); (3, (30, 31)); (4, (40, 41))]).
Proof.
  apply (conditionally_swap_distances_correct counter_rng demo_ids 0 net_u32 _ [false; true] _
    [(1, (10, 11)); (2, (20, 21)); (3, (30, 31)); (4, (40, 41))]).
  - apply (dealt_xor Bit [Tri 1 1 0; Tri 1 0 0]). solve_valid3.
  - repeat (apply tvec_cons; [apply (plain_entry_holds u32); split; done|]). apply tvec_nil.
  - done.
  - done.
  - apply (bool_decide_unpack _). done.
  - done.
Defined.

(** Oblivious selection is correct: with arithmetic shares of bits as
    control, the parties obtain shares of the first entry of every pair whose
    bit is one and of the second otherwise, for pairs of distances and for
    entries with shared ids. *)
Theorem conditionally_select_correct (R : Rng) `{!RngOk R} ids sid (T : NetworkInt) `{!NetworkIntOk T}
    c bs E vs L ls Rr rs :
  tvec (shares_add T) c (Z.b2z <$> bs) ->
  tvec (pair_holds (distance_holds T)) E vs -> length bs = length vs ->
  tvec (entry_holds T) L ls -> tvec (entry_holds T) Rr rs ->
  length bs = length ls -> length rs = length ls -> ls <> [] ->
  proto (R := R) ids sid (fun i => conditionally_select_distance T (E @ i) (c @ i))
    (fun out => tvec (distance_holds T) out (zip_with pick bs vs)) /\
  proto (R := R) ids sid (fun i => conditionally_select_distances_with_shared_ids T (L @ i) (Rr @ i) (c @ i))
    (fun out => tvec (entry_holds T) out (zip_with pick bs (zip ls rs))).
Proof. intros. split; [by apply select_distance_spec|by apply select_shared_ids_spec]. Qed.

Lemma conditionally_select_correct_witness :
  let c := dealt [Tri 1 0 0; Tri 5 (2 ^ 32 - 5) 0] in
  let e := fun x y => tof (fun i => ((plain_entry 0 x y) @ i).2) in
  let E := tcons (tof (fun i => ((e 1 2) @ i, (e 3 4) @ i))) (tcons (tof (fun i => ((e 5 6) @ i, (e 7 8) @ i))) tnil) in
  let L := tcons (plain_entry 1 10 11) (tcons (plain_entry 2 20 21) tnil) in
  let Rr := tcons (plain_entry 3 30 31) (tcons (plain_entry 4 40 41) tnil) in
  proto (R := counter_rng) demo_ids 0 (fun i => conditionally_select_distance net_u32 (E @ i) (c @ i))
    (fun out => tvec (distance_holds u32) out [(1, 2); (7, 8)]) /\
  proto (R := counter_rng) demo_ids 0
    (fun i => conditionally_select_distances_with_shared_ids net_u32 (L @ i) (Rr @ i) (c @ i))
    (fun out => tvec (entry_holds u32) out [(1, (10, 11)); (4, (40, 41))]).
Proof.
  apply (conditionally_select_correct counter_rng demo_ids 0 net_u32 _ [true; false] _
    [((1, 2), (3, 4)); ((5, 6), (7, 8))] _ [(1, (10, 11)); (2, (20, 21))] _ [(3, (30, 31)); (4, (40, 41))]).
  - apply (dealt_add u32 [Tri 1 0 0; Tri 5 (2 ^ 32 - 5) 0]). solve_valid3.
  - repeat (apply tvec_cons; [split; (apply (plain_entry_holds u32 0); split; done)|]). apply tvec_nil.
  - done.
  - repeat (apply tvec_cons; [apply (plain_entry_holds u32); split; done|]). apply tvec_nil.
  - repeat (apply tvec_cons; [apply (plain_entry_holds u32); split; done|]). apply tvec_nil.
  - done.
  - done.
  - done.
Defined.

(** ** Public ids *)

(** The id selected by a one bit, in the clear. *)
Lemma select_plain_id_holds T `{!IntRing2kOk T} c b left_id right_id s' :
  shares_add T c b -> valid T ((left_id - right_id) mod 2 ^ 32) -> valid T right_id ->
  (forall i, select_plain_id T (party_index i) left_id right_id (c @ i) = Ok (s' @ i)) ->
  shares_add T s' (b *[T] ((left_id - right_id) mod 2 ^ 32) +[T] right_id).
Proof.
  intros Hc Hd Hr Hs. eapply add_const_role_spec; [done|by eapply (share_scale_spec (T:=T))|].
  intros i. rewrite tget_fmap. apply Hs.
Qed.

(** Public ids survive selection in a 32-bit ring and not in a wider one: the
    difference of the ids is reduced modulo [2^32] before it is widened, so in
    [Ring48] or [u64] a selected left id below the right one comes back with
    [2^32] added. *)
Theorem select_plain_id_width (T : IntRing2k) `{!IntRing2kOk T} (c s' : tri Share) left_id right_id :
  32 <= K T -> 0 <= left_id < 2 ^ 32 -> 0 <= right_id < 2 ^ 32 -> shares_add T c 1 ->
  (forall i, select_plain_id T (party_index i) left_id right_id (c @ i) = Ok (s' @ i)) ->
  shares_add T s' (if decide (K T = 32 \/ right_id <= left_id) then left_id else left_id + 2 ^ 32).
Proof.
  intros HK Hl Hr Hc Hs.
  assert (2 ^ 32 <= 2 ^ K T) as Hp by (apply Z.pow_le_mono_r; lia).
  assert (K T <> 32 -> 2 ^ 33 <= 2 ^ K T) as Hp' by (intros; apply Z.pow_le_mono_r; lia).
  pose proof (Z.mod_pos_bound (left_id - right_id) (2 ^ 32) ltac:(lia)) as Hd.
  assert (valid T ((left_id - right_id) mod 2 ^ 32) /\ valid T right_id) as [Vd Vr] by (unfold valid; lia).
  pose proof (select_plain_id_holds T c 1 left_id right_id s' Hc Vd Vr Hs) as H.
  replace (if decide _ then _ else _) with (1 *[T] ((left_id - right_id) mod 2 ^ 32) +[T] right_id); [done|].
  pose proof (valid_b2z (T:=T) true) as V1. cbn in V1.
  apply (valid_eq (T:=T)); [eauto with valid|case_decide; unfold valid; [lia|]; specialize (Hp' ltac:(tauto)); lia|].
  rewrite (re_add_ceq (T:=T)), (re_mul_ceq (T:=T)). case_decide as Hc'.
  - destruct Hc' as [E|Hle].
    + rewrite E. rewrite ceq_mod. ceq_ring.
    + rewrite Z.mod_small by lia. ceq_ring.
  - apply ceq_eq. rewrite <- (Z.mod_add _ 1) by lia. rewrite Z.mod_small; lia.
Qed.

Lemma select_plain_id_width_witness :
  let c := plain_share 1 in
  shares_add Ring48 (tof (fun i => match select_plain_id Ring48 (party_index i) 3 7 (c @ i) with Ok s => s | Err _ => share_zero Ring48 end))
    (3 + 2 ^ 32).
Proof.
  apply (select_plain_id_width Ring48 (plain_share 1) _ 3 7); [done|done|done|apply (plain_share_holds Ring48); vm_compute; done|by intros []].
Defined.
