(* ===== verification/Workpool.v ===== *)
(** * Work pool messages: [network/workpool/{value,payload,mod}.rs]

    The envelope the leader and its workers exchange, its wire format, the
    reader that cuts messages out of a byte stream and the writer that batches
    queued messages into one write.  Byte streams are lists of bytes; a read
    past the end of the stream is the I/O error [read_exact] returns. *)

From S2P Require Import Prelude Value.
From stdpp Require Import base list numbers strings sets.
From Stdlib Require Import ZArith Lia.
Local Open Scope Z_scope.

(** ** Payloads *)

(** An application object behind [dyn ToBytes]: what its two methods return. *)
(* workpool/payload.rs:5-8 ToBytes *)
Record ToBytes := mkToBytes { tb_len : nat; tb_bytes : list Z }.

(** The contract of the trait: [len] announces what [to_bytes] writes. *)
Definition to_bytes_ok (p : ToBytes) : Prop := tb_len p = length (tb_bytes p).

(* workpool/payload.rs:18-21 Payload *)
Inductive Payload :=
| PBytes (b : list Z)
| PDyn (p : ToBytes).

(* workpool/payload.rs:31-36 Payload::len *)
Definition payload_len (self : Payload) : nat :=
  match self with PBytes b => length b | PDyn p => tb_len p end.

(* workpool/payload.rs:45-55 Payload::to_bytes *)
Definition payload_to_bytes (self : Payload) : list Z :=
  match self with PBytes b => b | PDyn a => tb_bytes a end.

Definition payload_ok (self : Payload) : Prop :=
  match self with PBytes _ => True | PDyn p => to_bytes_ok p end.

(** ** Envelopes *)

Definition MAX_PAYLOAD_SIZE : Z := 50 * 1024 * 1024.

(* workpool/value.rs:9-25 NetworkValue *)
Inductive WpValue :=
| WJob (job_id worker_id : Z) (payload : Payload)
| WPendingJobsRequest (worker_id : Z)
| WPendingJobsReply (worker_id : Z) (job_ids : list Z)
| WCancel (job_id worker_id : Z).

(* workpool/value.rs:29-34 DescriptorByte *)
Inductive WpDescriptor := DJob | DPendingJobsRequest | DPendingJobsReply | DCancel.

Definition wp_descriptor_u8 (d : WpDescriptor) : Z :=
  match d with DJob => 1 | DPendingJobsRequest => 3 | DPendingJobsReply => 4 | DCancel => 5 end.

(** [TryFromPrimitive]. *)
Definition wp_descriptor_try_from (b : Z) : result WpDescriptor :=
  if b =? 1 then Ok DJob else if b =? 3 then Ok DPendingJobsRequest
  else if b =? 4 then Ok DPendingJobsReply else if b =? 5 then Ok DCancel
  else bail "invalid descriptor byte".

(* workpool/value.rs:39-50 DescriptorByte::header_len *)
Definition header_len (d : WpDescriptor) : nat :=
  match d with DJob => 11 | DPendingJobsRequest => 3 | DPendingJobsReply => 7 | DCancel => 7 end.

(* workpool/value.rs:62-69 NetworkValue::get_descriptor_byte *)
Definition wp_descriptor (self : WpValue) : WpDescriptor :=
  match self with
  | WJob _ _ _ => DJob
  | WPendingJobsRequest _ => DPendingJobsRequest
  | WPendingJobsReply _ _ => DPendingJobsReply
  | WCancel _ _ => DCancel
  end.

Definition SIZE_OF_JOB_ID : nat := 4.

(* workpool/value.rs:72-82 NetworkValue::byte_len *)
Definition wp_byte_len (self : WpValue) : nat :=
  match self with
  | WJob _ _ payload => header_len DJob + payload_len payload
  | WPendingJobsReply _ job_ids => header_len DPendingJobsReply + length job_ids * SIZE_OF_JOB_ID
  | v => header_len (wp_descriptor v)
  end.

(** [n as u32] then [to_le_bytes]: a longer payload has its length truncated. *)
Definition len_u32_bytes (n : nat) : list Z := to_le_bytes 4 (Z.of_nat n mod 2 ^ 32).

(* workpool/value.rs:90-122 NetworkValue::serialize *)
Definition wp_serialize (self : WpValue) (buf : list Z) : list Z :=
  let buf := buf ++ [wp_descriptor_u8 (wp_descriptor self)] in
  match self with
  | WJob job_id worker_id payload =>
      buf ++ to_le_bytes 4 job_id ++ to_le_bytes 2 worker_id ++ len_u32_bytes (payload_len payload)
          ++ payload_to_bytes payload
  | WPendingJobsRequest worker_id => buf ++ to_le_bytes 2 worker_id
  | WPendingJobsReply worker_id job_ids =>
      buf ++ to_le_bytes 2 worker_id ++ len_u32_bytes (length job_ids * SIZE_OF_JOB_ID)
          ++ concat (to_le_bytes 4 <$> job_ids)
  | WCancel job_id worker_id => buf ++ to_le_bytes 4 job_id ++ to_le_bytes 2 worker_id
  end.

(** [u32::from_le_bytes(bytes[i..j].try_into()?)]. *)
Definition le_at (bytes : list Z) (i j : nat) : result Z := b ← slice bytes i j; Ok (from_le_bytes b).

(* workpool/value.rs:125-204 NetworkValue::deserialize *)
Definition wp_deserialize (bytes : list Z) : result WpValue :=
  if (length bytes =? 0)%nat then bail "invalid input: Empty buffer" else
  b0 ← index bytes 0;
  descriptor ← wp_descriptor_try_from b0;
  let header := header_len descriptor in
  if (length bytes <? header)%nat then bail "invalid input: Buffer too short" else
  match descriptor with
  | DJob =>
      job_id ← le_at bytes 1 5;
      worker_id ← le_at bytes 5 7;
      payload_len ← le_at bytes 7 11;
      if Z.of_nat (length bytes) <? Z.of_nat header + payload_len
      then bail "invalid input: Incomplete payload" else
      payload ← slice bytes 11 (11 + Z.to_nat payload_len);
      Ok (WJob job_id worker_id (PBytes payload))
  | DPendingJobsRequest => worker_id ← le_at bytes 1 3; Ok (WPendingJobsRequest worker_id)
  | DPendingJobsReply =>
      worker_id ← le_at bytes 1 3;
      payload_len ← le_at bytes 3 header;
      if Z.of_nat (length bytes) <? Z.of_nat header + payload_len
      then bail "invalid input: Incomplete PendingJobsReply payload" else
      let payload_len := Z.to_nat payload_len in
      if negb (payload_len mod SIZE_OF_JOB_ID =? 0)%nat
      then bail "invalid input: PendingJobsReply payload_len not divisible by JobId size" else
      job_ids ← mapM_result (fun k => let idx := (header + k * SIZE_OF_JOB_ID)%nat in
                               le_at bytes idx (idx + SIZE_OF_JOB_ID))
                  (seq 0 (payload_len / SIZE_OF_JOB_ID));
      Ok (WPendingJobsReply worker_id job_ids)
  | DCancel => job_id ← le_at bytes 1 5; worker_id ← le_at bytes 5 7; Ok (WCancel job_id worker_id)
  end.

(* workpool/value.rs:207-211 NetworkValue::to_network *)
Definition wp_to_network (self : WpValue) : list Z := wp_serialize self [].

(** ** Streams *)

(** [reader.read_exact(buf)] of [n] bytes. *)
Definition read_exact (reader : list Z) (n : nat) : result (list Z * list Z) :=
  if (length reader <? n)%nat then bail "io err" else Ok (take n reader, drop n reader).

(* workpool/mod.rs:120-157 read_single_message *)
Definition read_single_message (reader : list Z) : result (WpValue * list Z) :=
  '(buf, reader) ← read_exact reader 1;
  b0 ← index buf 0;
  descriptor ← wp_descriptor_try_from b0;
  let header := header_len descriptor in
  '(hd, reader) ← read_exact reader (header - 1);
  let buf := buf ++ hd in
  payload_len ← match descriptor with
    | DJob => le_at buf 7 11
    | DPendingJobsReply => le_at buf 3 7
    | DPendingJobsRequest | DCancel => Ok 0
    end;
  if MAX_PAYLOAD_SIZE <? payload_len then bail "invalid input: Payload size exceeds maximum" else
  '(buf, reader) ← (if 0 <? payload_len
                    then '(p, reader) ← read_exact reader (Z.to_nat payload_len); Ok (buf ++ p, reader)
                    else Ok (buf, reader));
  v ← wp_deserialize buf;
  Ok (v, reader).

(** The loop handles every message before it reads the next; [handled] are the
    messages passed to the handler, the result is why it stopped.  Every message
    takes at least one byte, so the stream's length bounds the iterations. *)
(* workpool/mod.rs:103-116 read_and_parse_inbound *)
Fixpoint read_and_parse_inbound (fuel : nat) (reader : list Z) : list WpValue * error :=
  match fuel with
  | O => ([], Panic "out of fuel")
  | S fuel =>
      match read_single_message reader with
      | Err e => ([], e)
      | Ok (v, reader) => let '(handled, e) := read_and_parse_inbound fuel reader in (v :: handled, e)
      end
  end.

Definition MAX_TO_BATCH : Z := 64 * 1024 * 1024.

(** The inner loop: queued messages join the buffer until it is full. *)
Fixpoint batch_more (max : Z) (queue : list WpValue) (buf : list Z) (sent : list WpValue)
    : list Z * list WpValue * list WpValue :=
  match queue with
  | [] => (buf, sent, [])
  | msg :: queue =>
      let buf := wp_serialize msg buf in
      if max <=? Z.of_nat (length buf) then (buf, sent ++ [msg], queue)
      else batch_more max queue buf (sent ++ [msg])
  end.

(** One iteration of the writer: the bytes it writes, the messages its hook saw,
    and what stays queued. *)
(* workpool/mod.rs:73-101 serialize_and_write_outbound *)
Definition write_batch (msg : WpValue) (queue : list WpValue) : list Z * list WpValue * list WpValue :=
  batch_more MAX_TO_BATCH queue (wp_serialize msg []) [msg].

(** ** Round trips *)

Definition u16_ok' (x : Z) : Prop := 0 <= x < 2 ^ 16.
Definition u32_ok' (x : Z) : Prop := 0 <= x < 2 ^ 32.

(** Values of the field types, with a payload the reader accepts. *)
Definition wp_ok (v : WpValue) : Prop :=
  match v with
  | WJob job_id worker_id payload =>
      u32_ok' job_id /\ u16_ok' worker_id /\ payload_ok payload /\ Z.of_nat (payload_len payload) <= MAX_PAYLOAD_SIZE
  | WPendingJobsRequest worker_id => u16_ok' worker_id
  | WPendingJobsReply worker_id job_ids =>
      u16_ok' worker_id /\ Forall u32_ok' job_ids /\ Z.of_nat (length job_ids * SIZE_OF_JOB_ID) <= MAX_PAYLOAD_SIZE
  | WCancel job_id worker_id => u32_ok' job_id /\ u16_ok' worker_id
  end.

(** A payload arrives as bytes. *)
Definition received (v : WpValue) : WpValue :=
  match v with WJob j w p => WJob j w (PBytes (payload_to_bytes p)) | v => v end.

(** The bytes of the fixed-width fields. *)
Lemma le2_bytes x : u16_ok' x -> exists a b, to_le_bytes 2 x = [a; b] /\ from_le_bytes [a; b] = x.
Proof. intros Hx. eexists _, _. split; [reflexivity|]. by apply (from_to_le 2). Qed.
Lemma le4_bytes x : u32_ok' x -> exists a b c d, to_le_bytes 4 x = [a; b; c; d] /\ from_le_bytes [a; b; c; d] = x.
Proof. intros Hx. eexists _, _, _, _. split; [reflexivity|]. by apply (from_to_le 4). Qed.
Lemma len_bytes n : Z.of_nat n <= MAX_PAYLOAD_SIZE ->
  exists a b c d, len_u32_bytes n = [a; b; c; d] /\ from_le_bytes [a; b; c; d] = Z.of_nat n.
Proof.
  intros Hn. unfold len_u32_bytes. rewrite Z.mod_small by (unfold MAX_PAYLOAD_SIZE in Hn; lia).
  apply le4_bytes. unfold u32_ok', MAX_PAYLOAD_SIZE in *. lia.
Qed.

Lemma payload_length p : payload_ok p -> length (payload_to_bytes p) = payload_len p.
Proof. by destruct p. Qed.

Lemma job_ids_read pre ids k :
  Forall u32_ok' ids ->
  mapM_result (fun j => le_at (pre ++ concat (to_le_bytes 4 <$> ids)) (length pre + (j - k) * 4) (length pre + (j - k) * 4 + 4))
    (seq k (length ids)) = Ok ids.
Proof.
  intros Hids. revert pre k. induction Hids as [|x ids Hx Hids IH]; intros pre k; [done|].
  cbn [length seq mapM_result fmap list_fmap concat]. rewrite Nat.sub_diag, Nat.mul_0_l, Nat.add_0_r.
  assert (le_at (pre ++ to_le_bytes 4 x ++ concat (to_le_bytes 4 <$> ids)) (length pre) (length pre + 4) = Ok x) as ->.
  { unfold le_at. rewrite (slice_app _ pre (to_le_bytes 4 x) (concat (to_le_bytes 4 <$> ids)));
      [|done|done|by rewrite length_to_le]. cbn [mbind result_bind]. by rewrite from_to_le. }
  cbn [mbind result_bind]. rewrite app_assoc.
  erewrite mapM_result_ext; [rewrite (IH (pre ++ to_le_bytes 4 x) (S k)); reflexivity|].
  intros j [Hj _]%elem_of_seq. rewrite length_app, length_to_le. f_equal; lia.
Qed.

(** Decoding a whole message. *)
Lemma wp_deserialize_wire v : wp_ok v -> wp_deserialize (wp_to_network v) = Ok (received v).
Proof.
  destruct v as [j w p|w|w ids|j w]; intros Hv; unfold wp_to_network, wp_serialize; cbn [app wp_descriptor wp_descriptor_u8].
  - destruct Hv as (Hj & Hw & Hp & Hn). rewrite <- payload_length in Hn |- * by done.
    destruct (le4_bytes j Hj) as (? & ? & ? & ? & -> & E1), (le2_bytes w Hw) as (? & ? & -> & E2),
      (len_bytes _ Hn) as (? & ? & ? & ? & -> & E3).
    cbn -[from_le_bytes Z.ltb Z.of_nat slice]. unfold le_at. cbn -[from_le_bytes Z.ltb Z.of_nat].
    rewrite !take_0, E1, E2, E3, (proj2 (Z.ltb_ge _ _)), Nat2Z.id by lia.
    match goal with |- context [slice (?b0 :: ?b1 :: ?b2 :: ?b3 :: ?b4 :: ?b5 :: ?b6 :: ?b7 :: ?b8 :: ?b9 :: ?b10 :: _) _ _] =>
      rewrite (slice_app _ [b0; b1; b2; b3; b4; b5; b6; b7; b8; b9; b10] (payload_to_bytes p) []) end;
      [done|by rewrite app_nil_r|done|done].
  - destruct (le2_bytes w Hv) as (? & ? & -> & E2). cbn -[from_le_bytes]. by rewrite E2.
  - destruct Hv as (Hw & Hids & Hn). destruct (le2_bytes w Hw) as (a & b & -> & E2), (len_bytes _ Hn) as (c & d & e & f & -> & E3).
    pose proof (job_ids_read [4; a; b; c; d; e; f] ids 0 Hids) as Hr.
    cbn [app] in *. set (bytes := 4 :: a :: b :: c :: d :: e :: f :: concat (to_le_bytes 4 <$> ids)) in *.
    assert (length bytes = 7 + length ids * 4)%nat as Hl.
    { unfold bytes. cbn [length]. rewrite (length_concat_const 4), length_fmap; [lia|].
      apply Forall_fmap, Forall_true. intros. apply length_to_le. }
    unfold wp_deserialize. rewrite Hl. cbn [Nat.add Nat.eqb]. unfold bytes at 1. cbn -[le_at Z.ltb Z.of_nat Nat.div Nat.modulo].
    fold bytes. replace (le_at bytes 1 3) with (Ok w) by (unfold le_at, bytes; cbn -[from_le_bytes]; by rewrite E2).
    replace (le_at bytes 3 7) with (Ok (Z.of_nat (length ids * SIZE_OF_JOB_ID)))
      by (unfold le_at, bytes; cbn -[from_le_bytes]; by rewrite take_0, E3).
    cbn [mbind result_bind]. unfold SIZE_OF_JOB_ID. rewrite (proj2 (Z.ltb_ge _ _)), Nat2Z.id by lia.
    rewrite Nat.Div0.mod_mul, Nat.div_mul by lia. cbn [Nat.eqb negb].
    erewrite mapM_result_ext; [rewrite Hr; done|]. intros k _. cbn [length]. by rewrite Nat.sub_0_r.
  - destruct Hv as (Hj & Hw). destruct (le4_bytes j Hj) as (? & ? & ? & ? & -> & E1), (le2_bytes w Hw) as (? & ? & -> & E2).
    cbn -[from_le_bytes]. by rewrite E1, E2.
Qed.

Lemma read_exact_app a rest : read_exact (a ++ rest) (length a) = Ok (a, rest).
Proof.
  unfold read_exact. rewrite length_app, (proj2 (Nat.ltb_ge _ _)) by lia.
  by rewrite take_app_length, drop_app_length.
Qed.

(** Reading a message whose frame is a header [hd] that announces [body]. *)
Lemma read_single_frame d b hd body rest v :
  wp_descriptor_try_from b = Ok d -> length hd = (header_len d - 1)%nat ->
  match d with
  | DJob => le_at (b :: hd) 7 11
  | DPendingJobsReply => le_at (b :: hd) 3 7
  | DPendingJobsRequest | DCancel => Ok 0
  end = Ok (Z.of_nat (length body)) ->
  Z.of_nat (length body) <= MAX_PAYLOAD_SIZE ->
  wp_deserialize (b :: hd ++ body) = Ok v ->
  read_single_message (b :: (hd ++ body) ++ rest) = Ok (v, rest).
Proof.
  intros Hd Hh Hl Hm Hv. unfold read_single_message.
  change (b :: (hd ++ body) ++ rest) with ([b] ++ (hd ++ body) ++ rest).
  rewrite (read_exact_app [b]). cbn [mbind result_bind index lookup list_lookup]. unfold index. cbn [lookup list_lookup].
  rewrite Hd. cbn [mbind result_bind]. rewrite <- app_assoc, <- Hh, read_exact_app. cbn [mbind result_bind app].
  rewrite Hl. cbn [mbind result_bind]. rewrite (proj2 (Z.ltb_ge _ _)) by done.
  destruct (0 <? Z.of_nat (length body)) eqn:E.
  - rewrite Nat2Z.id, read_exact_app. cbn [mbind result_bind app]. by rewrite Hv.
  - apply Z.ltb_ge in E. destruct body; [|cbn in E; lia]. rewrite app_nil_r in Hv. cbn [mbind result_bind app]. by rewrite Hv.
Qed.

Lemma read_single_wire v rest : wp_ok v -> read_single_message (wp_to_network v ++ rest) = Ok (received v, rest).
Proof.
  intros Hv. pose proof (wp_deserialize_wire v Hv) as Hd. revert Hv Hd.
  unfold wp_to_network, wp_serialize. destruct v as [j w p|w|w ids|j w]; intros Hv Hd; cbn [app wp_descriptor wp_descriptor_u8] in *.
  - destruct Hv as (Hj & Hw & Hp & Hn). rewrite <- payload_length in Hn, Hd |- * by done.
    destruct (len_bytes _ Hn) as (a & b & c & d & E & E3). rewrite E in Hd |- *.
    replace (to_le_bytes 4 j ++ to_le_bytes 2 w ++ [a; b; c; d] ++ payload_to_bytes p)
      with ((to_le_bytes 4 j ++ to_le_bytes 2 w ++ [a; b; c; d]) ++ payload_to_bytes p) in * by (by rewrite <- !app_assoc).
    apply (read_single_frame DJob); [done|done| |done|done].
    unfold le_at. cbn -[from_le_bytes Z.of_nat]. by rewrite E3.
  - rewrite <- (app_nil_r (to_le_bytes 2 w)) in Hd |- *. by apply (read_single_frame DPendingJobsRequest).
  - destruct Hv as (Hw & Hids & Hn). destruct (len_bytes _ Hn) as (a & b & c & d & E & E3). rewrite E in Hd |- *.
    replace (to_le_bytes 2 w ++ [a; b; c; d] ++ concat (to_le_bytes 4 <$> ids))
      with ((to_le_bytes 2 w ++ [a; b; c; d]) ++ concat (to_le_bytes 4 <$> ids)) in * by (by rewrite <- !app_assoc).
    assert (length (concat (to_le_bytes 4 <$> ids)) = length ids * SIZE_OF_JOB_ID)%nat as Hl.
    { rewrite (length_concat_const 4), length_fmap; [done|]. apply Forall_fmap, Forall_true. intros. apply length_to_le. }
    apply (read_single_frame DPendingJobsReply); [done|done| |by rewrite Hl|done].
    rewrite Hl. unfold le_at. cbn -[from_le_bytes Z.of_nat Nat.mul]. by rewrite E3.
  - replace (to_le_bytes 4 j ++ to_le_bytes 2 w) with ((to_le_bytes 4 j ++ to_le_bytes 2 w) ++ []) in * by apply app_nil_r.
    by apply (read_single_frame DCancel).
Qed.

(** Messages written back to back. *)
Lemma wp_serialize_app v buf : wp_serialize v buf = buf ++ wp_to_network v.
Proof. unfold wp_to_network, wp_serialize. destruct v; cbn [app]; by rewrite <- !app_assoc. Qed.

Lemma wire_nonempty v : (0 < length (wp_to_network v))%nat.
Proof. unfold wp_to_network, wp_serialize. destruct v; cbn; lia. Qed.

Lemma batch_more_spec max queue buf sent :
  exists pre post, queue = pre ++ post /\
    batch_more max queue buf sent = (buf ++ concat (wp_to_network <$> pre), sent ++ pre, post).
Proof.
  revert buf sent. induction queue as [|m queue IH]; intros buf sent; cbn [batch_more].
  - exists [], []. by rewrite !app_nil_r.
  - rewrite wp_serialize_app. destruct (max <=? _).
    + exists [m], queue. cbn. by rewrite app_nil_r.
    + destruct (IH (buf ++ wp_to_network m) (sent ++ [m])) as (pre & post & -> & ->).
      exists (m :: pre), post. cbn. by rewrite <- !app_assoc.
Qed.

Lemma read_stream vs rest fuel :
  Forall wp_ok vs -> (length vs < fuel)%nat -> (forall e, read_single_message rest <> Ok e) ->
  exists e, read_single_message rest = Err e /\
    read_and_parse_inbound fuel (concat (wp_to_network <$> vs) ++ rest) = (received <$> vs, e).
Proof.
  intros Hvs. revert fuel. induction Hvs as [|v vs Hv Hvs IH]; intros [|fuel] Hf Hr; try (cbn in Hf; lia).
  - cbn. destruct (read_single_message rest) as [x|e]; [by destruct (Hr x)|eauto].
  - destruct (IH fuel) as (e & He & IH'); [cbn in Hf; lia|done|]. exists e. split; [done|].
    cbn. rewrite <- app_assoc, read_single_wire by done. by rewrite IH'.
Qed.

(** ** Claims *)

(** The work pool's framing is transparent: whatever prefix of its queue a
    writer batches into one write, the reader at the other end of the stream
    hands exactly these messages to its handler, in order and each once, with
    dynamic payloads as bytes, and then waits for the rest of the stream; the
    queue keeps exactly the messages not written. *)
Theorem workpool_stream_roundtrip msg queue :
  Forall wp_ok (msg :: queue) ->
  let '(buf, sent, queued) := write_batch msg queue in
  sent ++ queued = msg :: queue /\ (0 < length sent)%nat /\
  read_and_parse_inbound (S (length buf)) buf = (received <$> sent, Eyre "io err").
Proof.
  intros Hok. unfold write_batch.
  destruct (batch_more_spec MAX_TO_BATCH queue (wp_serialize msg []) [msg]) as (pre & post & -> & ->).
  split; [done|]. split; [cbn; lia|].
  change (wp_serialize msg [] ++ concat (wp_to_network <$> pre)) with (concat (wp_to_network <$> ([msg] ++ pre))).
  rewrite app_comm_cons in Hok. apply Forall_app in Hok as [Hok _].
  set (vs := [msg] ++ pre) in *.
  destruct (read_stream vs [] (S (length (concat (wp_to_network <$> vs)))) Hok) as (e & He & Hr); [|done|].
  - clear. induction vs as [|v vs IH]; [cbn; lia|]. cbn [fmap list_fmap concat length] in *. rewrite length_app.
    pose proof (wire_nonempty v). lia.
  - rewrite app_nil_r in Hr. rewrite Hr. by injection He as <-.
Qed.

Lemma workpool_stream_roundtrip_witness :
  let msg := WJob 7 2 (PDyn (mkToBytes 3 [10; 20; 30])) in
  let queue := [WCancel 7 2; WPendingJobsReply 2 [1; 2 ^ 32 - 1]; WPendingJobsRequest 65535] in
  let '(buf, sent, queued) := write_batch msg queue in
  sent ++ queued = msg :: queue /\ (0 < length sent)%nat /\
  read_and_parse_inbound (S (length buf)) buf
  = ([WJob 7 2 (PBytes [10; 20; 30]); WCancel 7 2; WPendingJobsReply 2 [1; 2 ^ 32 - 1]; WPendingJobsRequest 65535], Eyre "io err").
Proof.
  apply (workpool_stream_roundtrip (WJob 7 2 (PDyn (mkToBytes 3 [10; 20; 30])))
    [WCancel 7 2; WPendingJobsReply 2 [1; 2 ^ 32 - 1]; WPendingJobsRequest 65535]).
  repeat constructor; done.
Defined.

(** ** Every stream *)

Definition no_panic {A} (r : result A) : Prop := match r with Err (Panic _) => False | _ => True end.

Lemma no_panic_bind {A B} (r : result A) (f : A -> result B) :
  no_panic r -> (forall x, r = Ok x -> no_panic (f x)) -> no_panic (r ≫= f).
Proof. destruct r; cbn; auto. Qed.
Lemma no_panic_slice {A} (l : list A) i j : (i <= j <= length l)%nat -> no_panic (slice l i j).
Proof. intros H. by rewrite slice_ok. Qed.
Lemma no_panic_le_at l i j : (i <= j <= length l)%nat -> no_panic (le_at l i j).
Proof. intros H. unfold le_at. by rewrite slice_ok. Qed.
Lemma no_panic_index {A} (l : list A) i : (i < length l)%nat -> no_panic (index l i).
Proof. intros H. unfold index. by destruct (lookup_lt_is_Some_2 l i H) as [x ->]. Qed.
Lemma no_panic_mapM {A B} (f : A -> result B) l : (forall x, x ∈ l -> no_panic (f x)) -> no_panic (mapM_result f l).
Proof.
  induction l as [|x l IH]; intros H; [done|]. cbn. apply no_panic_bind; [apply H; set_solver|].
  intros. apply no_panic_bind; [apply IH; set_solver|done].
Qed.
Lemma no_panic_descriptor b : no_panic (wp_descriptor_try_from b).
Proof. unfold wp_descriptor_try_from. by repeat case_match. Qed.
Lemma le_at_nonneg l i j x : Forall byte_ok l -> le_at l i j = Ok x -> 0 <= x.
Proof.
  intros Hl. unfold le_at. destruct (slice l i j) as [b|] eqn:E; [|done]. apply slice_inv in E as [-> _].
  intros [= <-]. apply from_le_range. by apply Forall_take, Forall_drop.
Qed.

Create HintDb no_panic.
#[export] Hint Resolve no_panic_bind no_panic_slice no_panic_le_at no_panic_index no_panic_mapM no_panic_descriptor : no_panic.

(** Every slice the decoder takes is in range: it fails with an error or
    succeeds, on any bytes. *)
Lemma wp_deserialize_no_panic bytes : Forall byte_ok bytes -> no_panic (wp_deserialize bytes).
Proof.
  intros Hb. unfold wp_deserialize. destruct (Nat.eqb_spec (length bytes) 0) as [|Hne]; [done|].
  apply no_panic_bind; [apply no_panic_index; lia|]. intros b0 _. apply no_panic_bind; [apply no_panic_descriptor|].
  intros d _. destruct (Nat.ltb_spec (length bytes) (header_len d)); [done|]. destruct d; cbn [header_len] in *.
  - do 2 (apply no_panic_bind; [apply no_panic_le_at; lia|]; intros ? _).
    apply no_panic_bind; [apply no_panic_le_at; lia|]. intros n Hn%le_at_nonneg; [|done].
    destruct (Z.ltb_spec (Z.of_nat (length bytes)) (Z.of_nat 11 + n)); [done|].
    apply no_panic_bind; [apply no_panic_slice; lia|done].
  - apply no_panic_bind; [apply no_panic_le_at; lia|done].
  - apply no_panic_bind; [apply no_panic_le_at; lia|]. intros w _.
    apply no_panic_bind; [apply no_panic_le_at; lia|]. intros n Hn%le_at_nonneg; [|done].
    destruct (Z.ltb_spec (Z.of_nat (length bytes)) (Z.of_nat 7 + n)); [done|].
    destruct (Nat.eqb_spec (Z.to_nat n mod SIZE_OF_JOB_ID) 0) as [Hm|]; [|done]. cbn [negb].
    apply no_panic_bind; [|done]. apply no_panic_mapM. intros k [_ Hk]%elem_of_seq. apply no_panic_le_at.
    pose proof (Nat.div_mod_eq (Z.to_nat n) SIZE_OF_JOB_ID). unfold SIZE_OF_JOB_ID in *. lia.
  - do 2 (apply no_panic_bind; [apply no_panic_le_at; lia|]; intros ? _). done.
Qed.

Lemma read_exact_inv r n a b : read_exact r n = Ok (a, b) -> a ++ b = r /\ length a = n.
Proof.
  unfold read_exact. destruct (Nat.ltb_spec (length r) n); [done|]. intros [= <- <-].
  by rewrite take_drop, length_take, Nat.min_l.
Qed.

Lemma read_exact_err r n e : read_exact r n = Err e -> e = Eyre "io err".
Proof. unfold read_exact. case_match; by intros [= <-]. Qed.

(** One message: no panic, and at least a byte consumed. *)
Lemma read_single_total r :
  Forall byte_ok r -> no_panic (read_single_message r) /\
    forall v rest, read_single_message r = Ok (v, rest) -> Forall byte_ok rest /\ (length rest < length r)%nat.
Proof.
  intros Hr. unfold read_single_message.
  destruct (read_exact r 1) as [[b r1]|e] eqn:E1; [|by apply read_exact_err in E1 as ->].
  apply read_exact_inv in E1 as [<- Lb]. destruct b as [|b [|? ?]]; try done.
  apply Forall_app in Hr as [Hb Hr1]. cbn [mbind result_bind]. unfold index. cbn [lookup list_lookup mbind result_bind].
  pose proof (no_panic_descriptor b). destruct (wp_descriptor_try_from b) as [d|]; [|by split]. cbn [mbind result_bind].
  destruct (read_exact r1 (header_len d - 1)) as [[hd r2]|e] eqn:E2; [|by apply read_exact_err in E2 as ->].
  apply read_exact_inv in E2 as [<- Lh]. apply Forall_app in Hr1 as [Hh Hr2]. cbn [mbind result_bind].
  set (buf := [b] ++ hd). assert (Forall byte_ok buf) as Hbuf by by apply Forall_app.
  assert (length buf = header_len d) as Lbuf by (unfold buf; cbn [app length]; rewrite Lh; by destruct d).
  match goal with |- context [mbind _ ?m] => set (pl := m) end.
  assert (no_panic pl) as Hpl by (unfold pl; destruct d; try done; apply no_panic_le_at; rewrite Lbuf; cbn; lia).
  destruct pl as [n|e]; [|by split]. cbn [mbind result_bind]. destruct (MAX_PAYLOAD_SIZE <? n); [by split|].
  destruct (0 <? n); cbn [mbind result_bind].
  - destruct (read_exact r2 (Z.to_nat n)) as [[p r3]|e] eqn:E3; [|by apply read_exact_err in E3 as ->].
    apply read_exact_inv in E3 as [<- Lp]. apply Forall_app in Hr2 as [Hp Hr3]. cbn [mbind result_bind].
    pose proof (wp_deserialize_no_panic (buf ++ p) ltac:(by apply Forall_app)) as Hnp.
    destruct (wp_deserialize (buf ++ p)); [|by split]. split; [done|]. intros v rest [= <- <-]. split; [done|].
    rewrite !length_app. cbn. lia.
  - pose proof (wp_deserialize_no_panic buf Hbuf) as Hnp.
    destruct (wp_deserialize buf); [|by split]. split; [done|]. intros v rest [= <- <-]. split; [done|].
    rewrite !length_app. cbn. lia.
Qed.

(** The receive loop is total: on any byte stream, however malformed, it
    never panics, consumes at least a byte per message, and so stops with an
    I/O or decoding error after at most as many messages as there are bytes. *)
Theorem read_and_parse_inbound_total stream :
  Forall byte_ok stream ->
  let '(handled, e) := read_and_parse_inbound (S (length stream)) stream in
  (length handled <= length stream)%nat /\ exists msg, e = Eyre msg.
Proof.
  intros Hs. assert (forall fuel s, Forall byte_ok s -> (length s < fuel)%nat ->
    (length (read_and_parse_inbound fuel s).1 <= length s)%nat /\ exists msg, (read_and_parse_inbound fuel s).2 = Eyre msg) as H.
  { induction fuel as [|fuel IH]; intros s Hok Hf; [lia|]. cbn [read_and_parse_inbound].
    destruct (read_single_total s Hok) as [Hnp Hlen]. destruct (read_single_message s) as [[v rest]|[m|m]].
    - destruct (Hlen v rest eq_refl) as [Hok' Hl]. destruct (IH rest Hok') as [IH1 IH2]; [lia|].
      destruct (read_and_parse_inbound fuel rest). cbn in *. split; [lia|done].
    - cbn. split; [lia|eauto].
    - done. }
  destruct (H (S (length stream)) stream Hs) as [H1 H2]; [lia|].
  destruct (read_and_parse_inbound (S (length stream)) stream). done.
Qed.

Lemma read_and_parse_inbound_total_witness :
  let '(handled, e) := read_and_parse_inbound 9 [3; 0; 0; 1; 255; 255; 255; 255] in
  (length handled <= 8)%nat /\ exists msg, e = Eyre msg.
Proof. apply (read_and_parse_inbound_total [3; 0; 0; 1; 255; 255; 255; 255]). repeat constructor; done. Defined.
