(* ===== verification/JobTracker.v ===== *)
(** * The leader's job tracker: [network/workpool/leader/job_tracker.rs]

    The tracker is a concurrent map from job ids to pending jobs, shared by the
    leader task and one manager task per worker.  Every operation below is one
    locked access of the map, except [record_response], which releases the entry
    before it completes the job: it is two steps, and other tasks may run in
    between.  A oneshot sender is the number of its channel; what happens to
    it is the list of outputs. *)

From S2P Require Import Prelude Value Workpool.
From stdpp Require Import base list numbers strings sets gmap sorting fin_maps.
From Stdlib Require Import ZArith Lia.
Local Open Scope Z_scope.

(** ** Data *)

(* workpool/mod.rs:23-36 WorkpoolError *)
Inductive WorkpoolError :=
| JobsLost (worker_id job_id : Z)
| ResponseLost (worker_id job_id : Z)
| SendFailed
| InvalidInput (msg : string)
| Cancelled
| Timeout_.

(* leader/mod.rs:32-36 WorkerRsp *)
Record WorkerRsp := mkRsp { rsp_payload : WorkpoolError + Payload; rsp_job_id : Z; rsp_worker_id : Z }.

(** [WorkpoolRes]. *)
Definition WorkpoolRes : Type := WorkpoolError + list WorkerRsp.

(* job_tracker.rs:12-18 JobType *)
Inductive JobType :=
| ScatterGather (worker_ids : gset Z)
| Broadcast (num_workers : Z).

(* job_tracker.rs:21-28 PendingJob *)
Record PendingJob := mkPending {
  registered : gset Z;
  pending : gset Z;
  results : gmap Z WorkerRsp;
  response_tx : Z;
}.

(** What becomes of a oneshot sender: a result is sent on it, or it is dropped
    and the receiver sees the channel closed. *)
Inductive output :=
| Delivered (tx : Z) (res : WorkpoolRes)
| Dropped (tx : Z).
Definition output_tx (o : output) : Z := match o with Delivered tx _ => tx | Dropped tx => tx end.

(** [JobTracker]: the [DashMap] of pending jobs. *)
Abbreviation JobTracker := (gmap Z PendingJob).

(** ** Operations *)

(* job_tracker.rs:43-47 JobTracker::new *)
Definition tracker_new : JobTracker := ∅.

(* job_tracker.rs:31-34 PendingJob::send_results *)
Definition send_results (self : PendingJob) : output :=
  Delivered (response_tx self) (inr ((map_to_list (results self)).*2)).

Definition job_workers (t : JobType) : gset Z :=
  match t with
  | ScatterGather worker_ids => worker_ids
  | Broadcast num_workers => list_to_set (seqZ 0 num_workers)
  end.

(** A job inserted under a used id drops the sender of the old one. *)
(* job_tracker.rs:49-68 JobTracker::register_job *)
Definition register_job (self : JobTracker) (job_id : Z) (job_type : JobType) (response_tx_ : Z)
    : JobTracker * list output :=
  let pending := mkPending (job_workers job_type) ∅ ∅ response_tx_ in
  (<[job_id := pending]> self,
   match self !! job_id with Some old => [Dropped (response_tx old)] | None => [] end).

(* job_tracker.rs:70-87 JobTracker::set_to_pending *)
Definition set_to_pending (self : JobTracker) (job_id worker_id : Z) : JobTracker * result unit :=
  match self !! job_id with
  | None => (self, bail "Job not found")
  | Some jobs =>
      if decide (worker_id ∈ registered jobs) then
        (<[job_id := mkPending (registered jobs ∖ {[worker_id]}) ({[worker_id]} ∪ pending jobs)
                       (results jobs) (response_tx jobs)]> self, Ok tt)
      else (self, bail "Worker for job was not registered")
  end.

(** The access to the entry in [record_response]: whether the job is now
    complete. *)
Definition record_entry (self : JobTracker) (response : WorkerRsp) : JobTracker * result bool :=
  let job_id := rsp_job_id response in
  let worker_id := rsp_worker_id response in
  match self !! job_id with
  | None => (self, bail "Job not found")
  | Some jobs =>
      if decide (worker_id ∈ pending jobs) then
        let jobs' := mkPending (registered jobs) (pending jobs ∖ {[worker_id]})
                       (<[worker_id := response]> (results jobs)) (response_tx jobs) in
        (<[job_id := jobs']> self, Ok (bool_decide (pending jobs' = ∅) && bool_decide (registered jobs' = ∅)))
      else (self, bail "Worker for job was not pending or already completed")
  end.

(* job_tracker.rs:147-154 JobTracker::complete_job *)
Definition complete_job (self : JobTracker) (job_id : Z) : JobTracker * list output :=
  match self !! job_id with
  | None => (self, [])
  | Some job => (delete job_id self, [send_results job])
  end.

(** With no other task in between. *)
(* job_tracker.rs:89-114 JobTracker::record_response *)
Definition record_response (self : JobTracker) (response : WorkerRsp) : JobTracker * list output * result unit :=
  match record_entry self response with
  | (self, Err e) => (self, [], Err e)
  | (self, Ok false) => (self, [], Ok tt)
  | (self, Ok true) => (complete_job self (rsp_job_id response), Ok tt)
  end.

(** The jobs sent to the worker that it does not have. *)
Definition dropped_jobs (self : JobTracker) (worker_id : Z) (pending_jobs : list Z) : list Z :=
  (map_to_list (filter (fun '(job_id, job) => worker_id ∈ pending job /\ job_id ∉ pending_jobs) self)).*1.

Definition lost_response (worker_id job_id : Z) : WorkerRsp :=
  mkRsp (inl (JobsLost worker_id job_id)) job_id worker_id.

(* job_tracker.rs:120-144 JobTracker::validate_pending_jobs *)
Definition validate_pending_jobs (self : JobTracker) (worker_id : Z) (pending_jobs : list Z)
    : JobTracker * list output :=
  foldl (fun '(self, out) job_id =>
           let '(self, o, _) := record_response self (lost_response worker_id job_id) in (self, out ++ o))
        (self, []) (dropped_jobs self worker_id pending_jobs).

(* job_tracker.rs:157-166 JobTracker::cancel_job *)
Definition cancel_job (self : JobTracker) (job_id : Z) : JobTracker * list output * result (list Z) :=
  match self !! job_id with
  | None => (self, [], bail "Job not found")
  | Some job => (delete job_id self, [Dropped (response_tx job)], Ok (merge_sort Z.le (elements (pending job))))
  end.

(* job_tracker.rs:168-170 JobTracker::pending_count *)
Definition pending_count (self : JobTracker) : nat := size self.

(** ** The tracker as a transition system

    [completing] are the calls of [complete_job] that are due, and [submitted]
    records the job id and the workers every channel was registered with. *)
Record TrackerState := mkState {
  jobs : JobTracker;
  completing : list Z;
  outputs : list output;
  submitted : gmap Z (Z * gset Z);
}.

Definition tracker_init : TrackerState := mkState tracker_new [] [] ∅.

(** Job ids come from a counter of the leader's handle, an [AtomicU32] that starts
    at 0 and wraps around: they are fresh in the runs with at most 2^32 jobs, which
    are the runs below. *)
Definition fresh_job (s : TrackerState) (job_id : Z) : Prop :=
  forall tx j ws, submitted s !! tx = Some (j, ws) -> j <> job_id.

Inductive tracker_step (s : TrackerState) : TrackerState -> Prop :=
| step_register job_id t tx j o :
    submitted s !! tx = None -> fresh_job s job_id -> register_job (jobs s) job_id t tx = (j, o) ->
    tracker_step s (mkState j (completing s) (outputs s ++ o) (<[tx := (job_id, job_workers t)]> (submitted s)))
| step_set_to_pending job_id worker_id j r :
    set_to_pending (jobs s) job_id worker_id = (j, r) ->
    tracker_step s (mkState j (completing s) (outputs s) (submitted s))
| step_record response j r :
    record_entry (jobs s) response = (j, r) ->
    tracker_step s (mkState j (match r with Ok true => rsp_job_id response :: completing s | _ => completing s end)
                            (outputs s) (submitted s))
| step_complete pre job_id post j o :
    completing s = pre ++ job_id :: post -> complete_job (jobs s) job_id = (j, o) ->
    tracker_step s (mkState j (pre ++ post) (outputs s ++ o) (submitted s))
| step_cancel job_id j o r :
    cancel_job (jobs s) job_id = (j, o, r) ->
    tracker_step s (mkState j (completing s) (outputs s ++ o) (submitted s)).

Definition reachable : TrackerState -> Prop := rtc tracker_step tracker_init.

(** ** Invariant *)

(** A pending job: every worker it was registered with is in exactly one of
    the three states, and its answers are filed under the right key. *)
Record job_ok (job_id : Z) (ws : gset Z) (job : PendingJob) : Prop := {
  jo_disjoint : registered job ## pending job;
  jo_done : dom (results job) ## registered job ∪ pending job;
  jo_workers : registered job ∪ pending job ∪ dom (results job) = ws;
  jo_results w rsp : results job !! w = Some rsp -> rsp_worker_id rsp = w /\ rsp_job_id rsp = job_id;
}.

(** What a caller may receive for a job. *)
Definition delivery_ok (job_id : Z) (ws : gset Z) (o : output) : Prop :=
  match o with
  | Delivered _ (inr rs) => NoDup (rsp_worker_id <$> rs) /\ list_to_set (rsp_worker_id <$> rs) = ws /\
      Forall (fun r => rsp_job_id r = job_id) rs
  | Delivered _ (inl _) => False
  | Dropped _ => True
  end.

Record tracker_inv (s : TrackerState) : Prop := {
  ti_job id job : jobs s !! id = Some job -> exists ws,
    submitted s !! response_tx job = Some (id, ws) /\ job_ok id ws job /\
    response_tx job ∉ output_tx <$> outputs s;
  ti_output o : o ∈ outputs s -> exists id ws, submitted s !! output_tx o = Some (id, ws) /\
    delivery_ok id ws o /\ jobs s !! id = None;
  ti_once : NoDup (output_tx <$> outputs s);
  ti_unique tx tx' id ws ws' : submitted s !! tx = Some (id, ws) -> submitted s !! tx' = Some (id, ws') -> tx = tx';
  ti_completing id : id ∈ completing s -> (exists tx ws, submitted s !! tx = Some (id, ws)) /\
    forall job, jobs s !! id = Some job -> registered job = ∅ /\ pending job = ∅;
  ti_open id job : jobs s !! id = Some job -> registered job = ∅ -> pending job = ∅ -> results job <> ∅ ->
    id ∈ completing s;
}.

Lemma init_inv : tracker_inv tracker_init.
Proof. split; cbn; [done|set_solver|constructor|done|set_solver|done]. Qed.

Lemma send_results_ok id ws job :
  job_ok id ws job -> registered job = ∅ -> pending job = ∅ -> delivery_ok id ws (send_results job).
Proof.
  intros [_ _ Hw Hr] Hreg Hpend. cbn.
  assert (rsp_worker_id <$> (map_to_list (results job)).*2 = (map_to_list (results job)).*1) as E.
  { rewrite <- list_fmap_compose. apply list_fmap_ext. intros k [w rsp] Hk. cbn.
    apply list_elem_of_lookup_2, elem_of_map_to_list in Hk. by apply Hr in Hk as [-> _]. }
  rewrite E. split_and!.
  - apply NoDup_fst_map_to_list.
  - rewrite <- Hw, Hreg, Hpend. apply set_eq. intros w. rewrite elem_of_list_to_set, list_elem_of_fmap. split.
    + intros ([w' rsp] & -> & Hin%elem_of_map_to_list). apply elem_of_union_r, elem_of_dom. eauto.
    + intros Hin. assert (w ∈ dom (results job)) as [rsp Hd]%elem_of_dom by set_solver.
      exists (w, rsp). split; [done|]. by apply elem_of_map_to_list.
  - apply Forall_forall. intros r ([w rsp] & -> & Hin%elem_of_map_to_list)%list_elem_of_fmap. by apply Hr in Hin as [_ ?].
Qed.

(** ** Every step preserves it *)

Lemma set_to_pending_ok id ws job w :
  w ∈ registered job -> job_ok id ws job ->
  job_ok id ws (mkPending (registered job ∖ {[w]}) ({[w]} ∪ pending job) (results job) (response_tx job)).
Proof.
  intros Hw [Hd Hdone Hws Hr]. split; cbn; [set_solver|set_solver| |done].
  rewrite <- Hws. apply set_eq. intros x. destruct (decide (x = w)); set_solver.
Qed.

Lemma record_ok ws job rsp :
  rsp_worker_id rsp ∈ pending job -> job_ok (rsp_job_id rsp) ws job ->
  job_ok (rsp_job_id rsp) ws (mkPending (registered job) (pending job ∖ {[rsp_worker_id rsp]})
    (<[rsp_worker_id rsp := rsp]> (results job)) (response_tx job)).
Proof.
  intros Hw [Hd Hdone Hws Hr]. split; cbn.
  - set_solver.
  - rewrite dom_insert_L. set_solver.
  - rewrite dom_insert_L, <- Hws. apply set_eq. intros x. destruct (decide (x = rsp_worker_id rsp)); set_solver.
  - intros w r. rewrite lookup_insert_Some. intros [[<- <-]|[_ H]]; [done|by apply Hr].
Qed.

Section Steps.
Context (s : TrackerState) (Hs : tracker_inv s).

(** An entry keeps its channel and its workers while it is updated. *)
Lemma update_inv id job job' comp :
  jobs s !! id = Some job -> response_tx job' = response_tx job ->
  (forall ws, job_ok id ws job -> job_ok id ws job') ->
  (forall k, k ∈ completing s -> k ∈ comp) ->
  (forall k, k ∈ comp -> k ∈ completing s \/ k = id) ->
  (id ∈ comp -> registered job' = ∅ /\ pending job' = ∅) ->
  (registered job' = ∅ -> pending job' = ∅ -> results job' <> ∅ -> id ∈ comp) ->
  tracker_inv (mkState (<[id := job']> (jobs s)) comp (outputs s) (submitted s)).
Proof.
  intros Hid Htx Hok Hsub Hsup Hcomp Hopen. destruct Hs as [Hjob Hout Honce Huniq Hcompl Hop]. split; cbn.
  - intros k jk Hk. destruct (decide (k = id)) as [->|Hne].
    + rewrite lookup_insert_eq in Hk. injection Hk as <-. rewrite Htx.
      destruct (Hjob id job Hid) as (ws & ? & ? & ?). eauto.
    + rewrite lookup_insert_ne in Hk by done. by apply Hjob.
  - intros o Ho. destruct (Hout o Ho) as (k & ws & Hk & Hd & Hn). exists k, ws. split_and!; [done..|].
    rewrite lookup_insert_ne; [done|congruence].
  - done.
  - done.
  - intros k Hk. split.
    + destruct (Hsup k Hk) as [?| ->]; [by apply Hcompl|]. destruct (Hjob id job Hid) as (ws & ? & _). eauto.
    + intros jk Hjk. destruct (decide (k = id)) as [->|Hne].
      * rewrite lookup_insert_eq in Hjk. injection Hjk as <-. auto.
      * rewrite lookup_insert_ne in Hjk by done. destruct (Hsup k Hk) as [Hin|]; [by eapply Hcompl|done].
  - intros k jk Hk. destruct (decide (k = id)) as [->|Hne].
    + rewrite lookup_insert_eq in Hk. injection Hk as <-. auto.
    + rewrite lookup_insert_ne in Hk by done. intros. apply Hsub. by eapply Hop.
Qed.

(** An entry leaves the map when its channel is used up. *)
Lemma remove_inv id job o comp :
  jobs s !! id = Some job -> output_tx o = response_tx job ->
  (forall ws, job_ok id ws job -> delivery_ok id ws o) ->
  (forall k, k ∈ comp -> k ∈ completing s) -> (forall k, k ∈ completing s -> k <> id -> k ∈ comp) ->
  tracker_inv (mkState (delete id (jobs s)) comp (outputs s ++ [o]) (submitted s)).
Proof.
  intros Hid Htx Hd Hsub Hsup. destruct Hs as [Hjob Hout Honce Huniq Hcompl Hop].
  destruct (Hjob id job Hid) as (ws & Hws & Hok & Hfresh). split; cbn.
  - intros k jk Hk. apply lookup_delete_Some in Hk as [Hne Hk]. destruct (Hjob k jk Hk) as (ws' & Hk' & ? & Hf).
    exists ws'. split_and!; [done..|]. rewrite fmap_app. apply not_elem_of_app. split; [done|]. cbn.
    rewrite list_elem_of_singleton, Htx. intros E. rewrite E in Hk'. congruence.
  - intros o' [Ho|Ho]%elem_of_app.
    + destruct (Hout o' Ho) as (k & ws' & Hk & Hd' & Hn). exists k, ws'. split_and!; [done..|].
      apply lookup_delete_None. auto.
    + apply list_elem_of_singleton in Ho as ->. exists id, ws. rewrite Htx. split_and!; [done|auto|].
      by apply lookup_delete_None; left.
  - rewrite fmap_app. apply NoDup_app. split_and!; [done| |apply NoDup_singleton]. cbn.
    intros tx Hin. rewrite list_elem_of_singleton, Htx. by intros ->.
  - done.
  - intros k Hk. split; [by apply Hcompl, Hsub|]. intros jk Hjk. apply lookup_delete_Some in Hjk as [_ Hjk].
    eapply Hcompl; [by apply Hsub|done].
  - intros k jk Hk. apply lookup_delete_Some in Hk as [Hne Hk]. intros. apply Hsup; [by eapply Hop|done].
Qed.

Lemma register_inv id t tx j o :
  submitted s !! tx = None -> fresh_job s id -> register_job (jobs s) id t tx = (j, o) ->
  tracker_inv (mkState j (completing s) (outputs s ++ o) (<[tx := (id, job_workers t)]> (submitted s))).
Proof.
  intros Htx Hfresh Hr. destruct Hs as [Hjob Hout Honce Huniq Hcompl Hop].
  assert (jobs s !! id = None) as Hid.
  { destruct (jobs s !! id) as [job|] eqn:E; [|done]. destruct (Hjob id job E) as (ws & Hws & _). by destruct (Hfresh _ _ _ Hws). }
  unfold register_job in Hr. rewrite Hid in Hr. injection Hr as <- <-. rewrite app_nil_r.
  assert (forall k ws tx', submitted s !! tx' = Some (k, ws) -> tx' <> tx) as Hne by congruence. split; cbn.
  - intros k jk Hk. destruct (decide (k = id)) as [->|Hkid].
    + rewrite lookup_insert_eq in Hk. injection Hk as <-. exists (job_workers t). cbn. rewrite lookup_insert_eq.
      split_and!; [done|split; cbn; set_solver|]. intros (o & Ho & Ho')%list_elem_of_fmap.
      destruct (Hout o Ho') as (? & ? & Hk & _). congruence.
    + rewrite lookup_insert_ne in Hk by done. destruct (Hjob k jk Hk) as (ws & Hws & ? & ?). exists ws.
      rewrite lookup_insert_ne by (by apply not_eq_sym; eapply Hne). done.
  - intros o Ho. destruct (Hout o Ho) as (k & ws & Hk & ? & ?). exists k, ws.
    rewrite lookup_insert_ne by (by apply not_eq_sym; eapply Hne). split_and!; [done..|].
    rewrite lookup_insert_ne; [done|]. by apply not_eq_sym, (Hfresh _ _ _ Hk).
  - done.
  - intros tx1 tx2 k ws1 ws2 H1 H2. destruct (decide (tx1 = tx)) as [->|], (decide (tx2 = tx)) as [->|]; [done|..].
    + rewrite lookup_insert_eq in H1. rewrite lookup_insert_ne in H2 by done. injection H1 as <- <-. by destruct (Hfresh _ _ _ H2).
    + rewrite lookup_insert_eq in H2. rewrite lookup_insert_ne in H1 by done. injection H2 as <- <-. by destruct (Hfresh _ _ _ H1).
    + rewrite lookup_insert_ne in H1, H2 by done. by eapply Huniq.
  - intros k Hk. destruct (Hcompl k Hk) as [(tx' & ws & Hk') Hj]. split.
    + exists tx', ws. rewrite lookup_insert_ne; [done|]. by apply not_eq_sym; eapply Hne.
    + intros jk. rewrite lookup_insert_ne by (by apply not_eq_sym, (Hfresh _ _ _ Hk')). apply Hj.
  - intros k jk Hk. destruct (decide (k = id)) as [->|]; [|rewrite lookup_insert_ne in Hk by done; by eapply Hop].
    rewrite lookup_insert_eq in Hk. injection Hk as <-. done.
Qed.

Lemma set_to_pending_inv id w j r :
  set_to_pending (jobs s) id w = (j, r) -> tracker_inv (mkState j (completing s) (outputs s) (submitted s)).
Proof.
  unfold set_to_pending. destruct (jobs s !! id) as [job|] eqn:Hid; [|intros [= <- <-]; by destruct s].
  case_decide as Hw; intros [= <- <-]; [|by destruct s]. apply (update_inv id job); auto.
  - intros ws. by apply set_to_pending_ok.
  - intros Hin. destruct (ti_completing _ Hs id Hin) as [_ Hc]. destruct (Hc job Hid). set_solver.
  - cbn. set_solver.
Qed.

Lemma record_inv rsp j r :
  record_entry (jobs s) rsp = (j, r) ->
  tracker_inv (mkState j (match r with Ok true => rsp_job_id rsp :: completing s | _ => completing s end) (outputs s) (submitted s)).
Proof.
  unfold record_entry. destruct (jobs s !! rsp_job_id rsp) as [job|] eqn:Hid; [|intros [= <- <-]; by destruct s].
  case_decide as Hw; intros [= <- <-]; [|by destruct s]. cbn [pending registered].
  assert (rsp_job_id rsp ∉ completing s) as Hnc.
  { intros Hin. destruct (ti_completing _ Hs _ Hin) as [_ Hc]. destruct (Hc job Hid). set_solver. }
  destruct (bool_decide_reflect (pending job ∖ {[rsp_worker_id rsp]} = ∅)) as [E1|E1],
    (bool_decide_reflect (registered job = ∅)) as [E2|E2]; cbn [andb];
    (apply (update_inv _ job); [done|done|intros ws; by apply record_ok|..]); cbn; try done; set_solver.
Qed.

Lemma complete_inv pre id post j o :
  completing s = pre ++ id :: post -> complete_job (jobs s) id = (j, o) ->
  tracker_inv (mkState j (pre ++ post) (outputs s ++ o) (submitted s)).
Proof.
  intros Hc. unfold complete_job. destruct (jobs s !! id) as [job|] eqn:Hid; intros [= <- <-].
  - assert (id ∈ completing s) as Hin by (rewrite Hc; set_solver).
    destruct (ti_completing _ Hs id Hin) as [_ Hj]. destruct (Hj job Hid) as [Hr Hp].
    apply (remove_inv id job); [done|done| | |].
    + intros ws Hok. by apply send_results_ok.
    + rewrite Hc. set_solver.
    + rewrite Hc. set_solver.
  - rewrite app_nil_r. destruct Hs as [Hjob Hout Honce Huniq Hcompl Hop]. split; cbn; [done..| |].
    + intros k Hk. apply Hcompl. rewrite Hc. set_solver.
    + intros k jk Hk Hr Hp Hne. pose proof (Hop k jk Hk Hr Hp Hne) as Hin. rewrite Hc in Hin.
      assert (k <> id) by congruence. set_solver.
Qed.

Lemma cancel_inv id j o r :
  cancel_job (jobs s) id = (j, o, r) -> tracker_inv (mkState j (completing s) (outputs s ++ o) (submitted s)).
Proof.
  unfold cancel_job. destruct (jobs s !! id) as [job|] eqn:Hid; intros [= <- <- <-].
  - by apply (remove_inv id job).
  - rewrite app_nil_r. by destruct s.
Qed.
End Steps.

Lemma step_inv s s' : tracker_inv s -> tracker_step s s' -> tracker_inv s'.
Proof.
  intros Hs. destruct 1; eauto using register_inv, set_to_pending_inv, record_inv, complete_inv, cancel_inv.
Qed.

Lemma reachable_inv s : reachable s -> tracker_inv s.
Proof.
  assert (forall s0, tracker_inv s0 -> rtc tracker_step s0 s -> tracker_inv s) as H; [|by apply H, init_inv].
  intros s0 H0 Hr. induction Hr as [|s0 s1 s2 Hstep Hr IH]; [done|]. apply IH. by eapply step_inv.
Qed.

(** ** Runs

    Calls one after the other, for the fate of one job among others. *)
Inductive event :=
| EvRegister (job_id : Z) (t : JobType) (tx : Z)
| EvSend (job_id worker_id : Z)
| EvReply (response : WorkerRsp)
| EvCancel (job_id : Z).

Definition event_job (ev : event) : Z :=
  match ev with EvRegister id _ _ => id | EvSend id _ => id | EvReply r => rsp_job_id r | EvCancel id => id end.

Definition apply_event (self : JobTracker) (ev : event) : JobTracker * list output :=
  match ev with
  | EvRegister id t tx => register_job self id t tx
  | EvSend id w => ((set_to_pending self id w).1, [])
  | EvReply r => (record_response self r).1
  | EvCancel id => (cancel_job self id).1
  end.

Fixpoint run (self : JobTracker) (out : list output) (evs : list event) : JobTracker * list output :=
  match evs with
  | [] => (self, out)
  | ev :: evs => let '(self, o) := apply_event self ev in run self (out ++ o) evs
  end.

(** Calls for another job leave a job alone. *)
Lemma apply_other self ev id : event_job ev <> id -> (apply_event self ev).1 !! id = self !! id.
Proof.
  intros Hne. destruct ev as [k t tx|k w|r|k]; cbn in *.
  - by rewrite lookup_insert_ne.
  - unfold set_to_pending. repeat case_match; cbn; by rewrite ?lookup_insert_ne.
  - unfold record_response, record_entry, complete_job. destruct (self !! rsp_job_id r); [|done].
    case_decide; [|done]. destruct (_ && _); cbn; [rewrite lookup_insert_eq; cbn; rewrite lookup_delete_ne by done|];
      by rewrite lookup_insert_ne.
  - unfold cancel_job. destruct (self !! k); cbn; [by rewrite lookup_delete_ne|done].
Qed.

Lemma run_out self out evs : exists o, run self out evs = ((run self [] evs).1, out ++ o) /\ (run self [] evs).2 = o.
Proof.
  revert self out. induction evs as [|ev evs IH]; intros self out; cbn; [by exists []; rewrite app_nil_r|].
  destruct (apply_event self ev) as [self' o]. destruct (IH self' (out ++ o)) as (o1 & -> & E1).
  destruct (IH self' o) as (o2 & E2 & E3). exists (o ++ o2). rewrite E2. cbn. rewrite E3 in E1. subst. by rewrite app_assoc.
Qed.

(** Orders in which every worker of job [id] is sent its part and answers it,
    with calls for other jobs anywhere. *)
Inductive script (id : Z) : gset Z -> gset Z -> list event -> Prop :=
| script_nil : script id ∅ ∅ []
| script_other reg pend ev evs : event_job ev <> id -> script id reg pend evs -> script id reg pend (ev :: evs)
| script_send reg pend w evs :
    w ∈ reg -> script id (reg ∖ {[w]}) ({[w]} ∪ pend) evs -> script id reg pend (EvSend id w :: evs)
| script_reply reg pend rsp evs :
    rsp_job_id rsp = id -> rsp_worker_id rsp ∈ pend ->
    script id reg (pend ∖ {[rsp_worker_id rsp]}) evs -> script id reg pend (EvReply rsp :: evs).

Lemma script_rest id reg pend evs self out :
  script id reg pend evs -> reg = ∅ -> pend = ∅ -> self !! id = None ->
  (run self out evs).1 !! id = None /\ forall rsp, EvReply rsp ∈ evs -> rsp_job_id rsp <> id.
Proof.
  intros Hs. revert self out. induction Hs as [|reg pend ev evs Hev Hs IH|reg pend w evs Hw Hs IH|reg pend rsp evs Hr Hw Hs IH];
    intros self out E1 E2 Hid; [split; [done|set_solver]| |set_solver|set_solver]. cbn.
  destruct (apply_event self ev) as [self' o] eqn:Ea.
  destruct (IH self' (out ++ o) E1 E2) as [IH1 IH2].
  { pose proof (apply_other self ev id Hev) as H. rewrite Ea in H. cbn in H. by rewrite H. }
  split; [done|]. intros rsp [<-|Hin]%elem_of_cons; [done|auto].
Qed.

Lemma script_completes id ws reg pend evs self out job :
  script id reg pend evs -> self !! id = Some job -> job_ok id ws job ->
  registered job = reg -> pending job = pend -> reg ∪ pend <> ∅ ->
  (run self out evs).1 !! id = None /\
  exists rs, Delivered (response_tx job) (inr rs) ∈ (run self out evs).2 /\
    delivery_ok id ws (Delivered (response_tx job) (inr rs)) /\
    forall rsp, rsp ∈ rs <-> (exists w, results job !! w = Some rsp) \/ (EvReply rsp ∈ evs /\ rsp_job_id rsp = id).
Proof.
  intros Hs. revert self out job.
  induction Hs as [|reg pend ev evs Hev Hs IH|reg pend w evs Hw Hs IH|reg pend rsp evs Hr Hw Hs IH];
    intros self out job Hid Hok <- <- Hne.
  - set_solver.
  - cbn. destruct (apply_event self ev) as [self' o] eqn:Ea.
    pose proof (apply_other self ev id Hev) as H. rewrite Ea in H. cbn in H.
    destruct (IH self' (out ++ o) job) as (H1 & rs & H2 & H3 & H4); [congruence|done..|].
    split; [done|]. exists rs. split; [done|]. split; [done|]. intros rsp. rewrite H4. set_solver.
  - cbn. unfold set_to_pending. rewrite Hid, decide_True by done. cbn.
    destruct (IH (<[id := mkPending (registered job ∖ {[w]}) ({[w]} ∪ pending job) (results job) (response_tx job)]> self)
      (out ++ []) (mkPending (registered job ∖ {[w]}) ({[w]} ∪ pending job) (results job) (response_tx job)))
      as (H1 & rs & H2 & H3 & H4); [apply lookup_insert_eq|by apply set_to_pending_ok|done|done|set_solver|].
    split; [done|]. exists rs. split; [done|]. split; [done|]. intros rsp. rewrite H4. set_solver.
  - set (job' := mkPending (registered job) (pending job ∖ {[rsp_worker_id rsp]})
      (<[rsp_worker_id rsp := rsp]> (results job)) (response_tx job)).
    assert (job_ok id ws job') as Hok' by (subst id; by apply record_ok).
    assert (forall r, (exists w, results job' !! w = Some r) <-> (exists w, results job !! w = Some r) \/ r = rsp) as Hres.
    { intros r. cbn. assert (results job !! rsp_worker_id rsp = None) as Hnone.
      { apply not_elem_of_dom. pose proof (jo_done _ _ _ Hok). set_solver. }
      setoid_rewrite lookup_insert_Some. split.
      - intros (w & [[_ <-]|[_ H]]); eauto.
      - intros [(w & H)| ->]; [exists w; right; split; congruence|eexists; by left]. }
    cbn [run apply_event]. unfold record_response, record_entry. rewrite Hr, Hid, decide_True by done. cbn zeta. fold job'.
    destruct (decide (registered job ∪ pending job' = ∅)) as [E|E].
    + rewrite !bool_decide_true by set_solver. cbn [andb]. unfold complete_job. rewrite lookup_insert_eq. cbn [fst].
      destruct (script_rest id _ _ evs (delete id (<[id := job']> self)) (out ++ [send_results job']) Hs) as [Hn Hno];
        [set_solver|set_solver|apply lookup_delete_eq|]. split; [done|].
      exists ((map_to_list (results job')).*2). split; [|split].
      * destruct (run_out (delete id (<[id := job']> self)) (out ++ [send_results job']) evs) as (o & -> & _). cbn. set_solver.
      * apply (send_results_ok id ws job'); [done|set_solver|set_solver].
      * intros r. rewrite list_elem_of_fmap. setoid_rewrite elem_of_cons. split.
        -- intros ([w r'] & -> & H%elem_of_map_to_list). destruct (proj1 (Hres r')) as [H'| ->]; eauto.
        -- intros H. assert (exists w, results job' !! w = Some r) as [w Hw'].
           { apply Hres. destruct H as [?|[[[= ->]|Hin] He]]; [by left|by right|by destruct (Hno _ Hin)]. }
           exists (w, r). split; [done|]. by apply elem_of_map_to_list.
    + assert (bool_decide (pending job' = ∅) && bool_decide (registered job' = ∅) = false) as Eb.
      { apply andb_false_iff. destruct (decide (pending job' = ∅)); [right|left]; apply bool_decide_false; set_solver. }
      rewrite Eb. cbn [fst].
      destruct (IH (<[id := job']> self) (out ++ []) job') as (H1 & rs & H2 & H3 & H4);
        [apply lookup_insert_eq|done|done|done|done|]. split; [done|]. exists rs. split; [done|]. split; [done|].
      intros r. rewrite H4, Hres. setoid_rewrite elem_of_cons. split.
      * intros [[?| ->]|[? ?]]; [by left|right; split; [by left|done]|right; split; [by right|done]].
      * intros [?|[[[= ->]|?] ?]]; [by left; left|by left; right|by right].
Qed.

(** A job stays when one of its workers is never sent its part, or when it has
    none. *)
Lemma job_stays id evs self out job :
  self !! id = Some job ->
  (exists w, w ∈ registered job /\ EvSend id w ∉ evs) \/ (registered job = ∅ /\ pending job = ∅) ->
  (forall t tx, EvRegister id t tx ∉ evs) -> EvCancel id ∉ evs ->
  exists job', (run self out evs).1 !! id = Some job' /\ response_tx job' = response_tx job.
Proof.
  revert self out job. induction evs as [|ev evs IH]; intros self out job Hid Hst Hreg Hc; [cbn; eauto|]. cbn.
  destruct (apply_event self ev) as [self' o] eqn:Ea.
  destruct (decide (event_job ev = id)) as [Hev|Hev].
  2:{ pose proof (apply_other self ev id Hev) as H. rewrite Ea in H. cbn in H.
      apply IH; [congruence|set_solver|set_solver|set_solver]. }
  destruct ev as [k t tx|k w|r|k]; cbn in Hev, Ea; [subst k; by destruct (Hreg t tx); left| | |subst k; by destruct Hc; left].
  - subst k. unfold set_to_pending in Ea. rewrite Hid in Ea. case_decide as Hw; cbn in Ea; injection Ea as <- <-.
    + destruct (IH (<[id := mkPending (registered job ∖ {[w]}) ({[w]} ∪ pending job) (results job) (response_tx job)]> self)
        (out ++ []) _ (lookup_insert_eq _ _ _)) as (job' & ? & ?); [|set_solver|set_solver|by exists job'].
      destruct Hst as [(w' & Hw' & Hns)|[? _]]; [|set_solver]. left. exists w'. cbn.
      assert (w' <> w) by (intros ->; apply Hns; by left). set_solver.
    + apply IH; [done|set_solver|set_solver|set_solver].
  - unfold record_response, record_entry in Ea. rewrite Hev, Hid in Ea. case_decide as Hw; cbn in Ea.
    + destruct Hst as [(w' & Hw' & Hns)|[_ ?]]; [|set_solver].
      rewrite (bool_decide_false (registered job = ∅)), andb_false_r in Ea by set_solver. cbn in Ea. injection Ea as <- <-.
      destruct (IH (<[id := mkPending (registered job) (pending job ∖ {[rsp_worker_id r]}) (<[rsp_worker_id r := r]> (results job)) (response_tx job)]> self)
        (out ++ []) _ (lookup_insert_eq _ _ _)) as (job' & ? & ?); [|set_solver|set_solver|by exists job'].
      left. exists w'. set_solver.
    + injection Ea as <- <-. apply IH; [done|set_solver|set_solver|set_solver].
Qed.

(** ** Claims *)

(** C3: In every reachable state of the tracker, whatever tasks register jobs,
    record sends and answers, complete and cancel them, in any interleaving:
    each worker of a pending job is in exactly one of registered, pending and
    answered; each caller's channel is used at most once, and never while its
    job is pending; and a result that is delivered holds exactly one answer of
    every worker the job was registered with, each for this job. *)
Theorem tracker_invariant s : reachable s -> tracker_inv s.
Proof. apply reachable_inv. Qed.

Definition demo_rsp (j w : Z) : WorkerRsp := mkRsp (inr (PBytes [])) j w.

(** A broadcast to one worker, up to the point where its completion is due. *)
Lemma demo_reachable :
  exists s, reachable s /\ completing s = [5] /\ submitted s !! 1 = Some (5, {[0]}).
Proof.
  eexists. split_and!.
  - eapply rtc_l; [eapply (step_register _ 5 (Broadcast 1) 1); [done|done|reflexivity]|].
    eapply rtc_l; [eapply (step_set_to_pending _ 5 0); reflexivity|].
    eapply rtc_l; [eapply (step_record _ (demo_rsp 5 0)); reflexivity|]. apply rtc_refl.
  - done.
  - done.
Qed.

Lemma tracker_invariant_witness : exists s, tracker_inv s /\ completing s = [5].
Proof. destruct demo_reachable as (s & Hs & Hc & _). exists s. split; [apply (tracker_invariant s Hs)|done]. Defined.

(** A registered job completes under every schedule: in whatever order its
    workers are sent their parts and answer, with calls for other jobs anywhere
    in between, the job leaves the tracker and its caller receives exactly the
    answers that were recorded for it, one per worker. *)
Theorem job_completes self id t tx evs :
  job_workers t <> ∅ -> script id (job_workers t) ∅ evs ->
  let '(self', out) := run self [] (EvRegister id t tx :: evs) in
  self' !! id = None /\
  exists rs, Delivered tx (inr rs) ∈ out /\ delivery_ok id (job_workers t) (Delivered tx (inr rs)) /\
    forall rsp, rsp ∈ rs <-> EvReply rsp ∈ evs /\ rsp_job_id rsp = id.
Proof.
  intros Hne Hs. cbn [run apply_event register_job].
  set (job := mkPending (job_workers t) ∅ ∅ tx).
  destruct (script_completes id (job_workers t) _ _ evs (<[id := job]> self)
    ([] ++ match self !! id with Some old => [Dropped (response_tx old)] | None => [] end) job Hs)
    as (H1 & rs & H2 & H3 & H4); [apply lookup_insert_eq|split; cbn; set_solver|done|done|set_solver|].
  destruct (run _ _ evs) as [self' out]. split; [done|]. exists rs. split; [done|]. split; [done|].
  intros rsp. rewrite H4. cbn. split; [|by right]. intros [(w & Hw)|?]; [by rewrite lookup_empty in Hw|done].
Qed.

Lemma job_completes_witness :
  let evs := [EvSend 7 1; EvReply (demo_rsp 7 1); EvSend 8 1; EvSend 7 0; EvCancel 9; EvReply (demo_rsp 7 0)] in
  let '(self', out) := run ∅ [] (EvRegister 7 (Broadcast 2) 3 :: evs) in
  self' !! 7 = None /\
  exists rs, Delivered 3 (inr rs) ∈ out /\ delivery_ok 7 (job_workers (Broadcast 2)) (Delivered 3 (inr rs)) /\
    forall rsp, rsp ∈ rs <-> EvReply rsp ∈ evs /\ rsp_job_id rsp = 7.
Proof.
  apply (job_completes ∅ 7 (Broadcast 2) 3
    [EvSend 7 1; EvReply (demo_rsp 7 1); EvSend 8 1; EvSend 7 0; EvCancel 9; EvReply (demo_rsp 7 0)]); [done|].
  apply script_send; [set_solver|]. apply script_reply; [done|set_solver|]. apply script_other; [done|].
  apply script_send; [set_solver|]. apply script_other; [done|]. apply script_reply; [done|set_solver|].
  match goal with |- script _ ?r ?p [] => replace r with (∅ : gset Z) by done; replace p with (∅ : gset Z) by done end.
  apply script_nil.
Defined.

(** A job can be left waiting for ever: when the leader fails to hand a
    worker its part, the failure it reports in the worker's name is refused,
    because the worker is registered and not pending, and nothing but a
    cancellation takes the job out of the tracker; the same holds of a broadcast
    in a pool without workers. *)
Theorem unsent_job_stalls self id t tx w evs :
  (w ∈ job_workers t /\ EvSend id w ∉ evs) \/ job_workers t = ∅ ->
  (forall t tx, EvRegister id t tx ∉ evs) -> EvCancel id ∉ evs ->
  let '(self', out) := run self [] (EvRegister id t tx :: EvReply (mkRsp (inl SendFailed) id w) :: evs) in
  exists job, self' !! id = Some job /\ response_tx job = tx.
Proof.
  intros Hw Hreg Hc. cbn [run apply_event register_job].
  set (job := mkPending (job_workers t) ∅ ∅ tx). set (self1 := <[id := job]> self).
  assert (record_response self1 (mkRsp (inl SendFailed) id w)
    = (self1, [], bail "Worker for job was not pending or already completed")) as ->.
  { unfold record_response, record_entry. cbn. unfold self1. rewrite lookup_insert_eq.
    by rewrite decide_False by (cbn; set_solver). }
  cbn [fst]. rewrite app_nil_r.
  destruct (job_stays id evs self1 ([] ++ match self !! id with Some old => [Dropped (response_tx old)] | None => [] end) job)
    as (job' & H1 & H2); [apply lookup_insert_eq| |done|done|].
  - destruct Hw as [[H1 H2]|E]; [left; by exists w|right; by split].
  - destruct (run _ _ evs). by exists job'.
Qed.

Lemma unsent_job_stalls_witness :
  let '(self', out) := run ∅ [] [EvRegister 7 (Broadcast 2) 3; EvReply (mkRsp (inl SendFailed) 7 1); EvSend 7 0; EvReply (demo_rsp 7 0)] in
  exists job, self' !! 7 = Some job /\ response_tx job = 3.
Proof.
  apply (unsent_job_stalls ∅ 7 (Broadcast 2) 3 1 [EvSend 7 0; EvReply (demo_rsp 7 0)]).
  - left. split; [set_solver|]. intros [[=]|[[=]|[]%elem_of_nil]%elem_of_cons]%elem_of_cons.
  - intros t tx [[=]|[[=]|[]%elem_of_nil]%elem_of_cons]%elem_of_cons.
  - intros [[=]|[[=]|[]%elem_of_nil]%elem_of_cons]%elem_of_cons.
Defined.
