(* ===== verification/WorkpoolLink.v ===== *)
(** * Leader and worker: [leader/leader_task.rs], [worker/worker_task.rs]

    The handlers of the two tasks and of the connection between them.  Channels
    are queues; a command channel whose receiver is gone is [None].  The last
    part runs one worker's connection as a transition system, with
    disconnections that lose what is in flight and the reconciliation of jobs
    after a reconnection. *)

From S2P Require Import Prelude Value Workpool JobTracker.
From stdpp Require Import base list numbers strings sets gmap fin_maps.
From Stdlib Require Import ZArith Lia.
Local Open Scope Z_scope.

(** ** The leader *)

(* leader/mod.rs:38-41 WorkerJob *)
Record WorkerJob := mkWorkerJob { wj_payload : Payload; wj_worker_id : Z }.

(* leader/mod.rs:45-59 Job *)
Inductive LeaderJob :=
| JBroadcast (payload : Payload) (result_rsp job_id : Z)
| JScatterGather (msgs : list WorkerJob) (result_rsp job_id : Z)
| JCancel (job_id : Z).

(** What the leader task works on: the tracker, the command channel of every
    worker, the queue of responses, and what was done with callers' channels. *)
Record LeaderState := mkLeader {
  l_tracker : JobTracker;
  l_cmd : list (option (list WpValue));
  l_rsp : list WorkerRsp;
  l_out : list output;
}.

(** [cmd_tx.send(v)] on the channel of worker [i]; whether it succeeded. *)
Definition send_cmd (cmd : list (option (list WpValue))) (i : nat) (v : WpValue)
    : list (option (list WpValue)) * bool :=
  match cmd !! i with
  | Some (Some q) => (<[i := Some (q ++ [v])]> cmd, true)
  | _ => (cmd, false)
  end.

(** Hand its part to each worker; a failure is queued as the worker's answer. *)
Fixpoint send_parts (job_id : Z) (parts : list (Z * Payload)) (cmd : list (option (list WpValue)))
    (rsp : list WorkerRsp) : list (option (list WpValue)) * list WorkerRsp :=
  match parts with
  | [] => (cmd, rsp)
  | (worker_id, payload) :: parts =>
      let '(cmd, sent) := send_cmd cmd (Z.to_nat worker_id) (WJob job_id worker_id payload) in
      send_parts job_id parts cmd
        (if sent then rsp else rsp ++ [mkRsp (inl SendFailed) job_id worker_id])
  end.

(** [worker_cmd_ch.len() as WorkerId]. *)
Definition worker_count (cmd : list (option (list WpValue))) : Z := Z.of_nat (length cmd) mod 2 ^ 16.

(* leader_task.rs:125-198 send_to_workpool *)
Definition send_to_workpool (job : LeaderJob) (st : LeaderState) : LeaderState :=
  match job with
  | JBroadcast payload result_rsp job_id =>
      let '(tracker, o) := register_job (l_tracker st) job_id (Broadcast (worker_count (l_cmd st))) result_rsp in
      let parts := (fun i => (Z.of_nat i mod 2 ^ 16, payload)) <$> seq 0 (length (l_cmd st)) in
      let '(cmd, rsp) := send_parts job_id parts (l_cmd st) (l_rsp st) in
      mkLeader tracker cmd rsp (l_out st ++ o)
  | JScatterGather msgs result_rsp job_id =>
      if existsb (fun msg => (length (l_cmd st) <=? Z.to_nat (wj_worker_id msg))%nat) msgs
      then mkLeader (l_tracker st) (l_cmd st) (l_rsp st)
             (l_out st ++ [Delivered result_rsp (inl (InvalidInput "invalid worker id"))])
      else
        let worker_ids := list_to_set (wj_worker_id <$> msgs) in
        let '(tracker, o) := register_job (l_tracker st) job_id (ScatterGather worker_ids) result_rsp in
        let '(cmd, rsp) := send_parts job_id ((fun m => (wj_worker_id m, wj_payload m)) <$> msgs) (l_cmd st) (l_rsp st) in
        mkLeader tracker cmd rsp (l_out st ++ o)
  | JCancel job_id =>
      let '(tracker, o, _) := cancel_job (l_tracker st) job_id in
      mkLeader tracker (l_cmd st) (l_rsp st) (l_out st ++ o)
  end.

(** The branch of the loop that takes a response; an error is only logged. *)
(* leader_task.rs:89-123 leader_task *)
Definition leader_take_response (st : LeaderState) : option LeaderState :=
  match l_rsp st with
  | [] => None
  | r :: rsp => let '(tracker, o, _) := record_response (l_tracker st) r in
                Some (mkLeader tracker (l_cmd st) rsp (l_out st ++ o))
  end.

(** The hook that runs before a message is written. *)
Definition leader_pre_send (msg : WpValue) (tracker : JobTracker) : JobTracker :=
  match msg with WJob job_id worker_id _ => (set_to_pending tracker job_id worker_id).1 | _ => tracker end.

(* leader_task.rs:347-376 leader_forward_inbound_msg *)
Definition leader_forward_inbound_msg (network_value : WpValue) (tx : list WorkerRsp) : result (list WorkerRsp) :=
  match network_value with
  | WJob job_id worker_id payload => Ok (tx ++ [mkRsp (inr payload) job_id worker_id])
  | WPendingJobsReply _ _ => Ok tx
  | WCancel _ _ => Ok tx
  | WPendingJobsRequest _ => bail "invalid input: received PendingJobsRequest from worker"
  end.

(** The validation of [scatter_gather], and the id the job gets. *)
Fixpoint check_workers (num_workers : nat) (seen : list Z) (msgs : list WorkerJob) : WorkpoolError + unit :=
  match msgs with
  | [] => inr tt
  | msg :: msgs =>
      if (num_workers <=? Z.to_nat (wj_worker_id msg))%nat then inl (InvalidInput "invalid worker id")
      else if bool_decide (wj_worker_id msg ∈ seen) then inl (InvalidInput "duplicate worker id")
      else check_workers num_workers (wj_worker_id msg :: seen) msgs
  end.

(* leader/mod.rs:145-178 LeaderHandle::scatter_gather *)
Definition scatter_gather (num_workers : nat) (next_job_id : Z) (msgs : list WorkerJob) (result_tx : Z)
    : (WorkpoolError + LeaderJob) * Z :=
  if (length msgs =? 0)%nat then (inl (InvalidInput "empty"), next_job_id) else
  match check_workers num_workers [] msgs with
  | inl e => (inl e, next_job_id)
  | inr _ => (inr (JScatterGather msgs result_tx next_job_id), (next_job_id + 1) mod 2 ^ 32)
  end.

(* leader/mod.rs:121-139 LeaderHandle::broadcast *)
Definition broadcast (next_job_id : Z) (payload : Payload) (result_tx : Z) : LeaderJob * Z :=
  (JBroadcast payload result_tx next_job_id, (next_job_id + 1) mod 2 ^ 32).

(** ** The worker *)

(** The jobs received and not answered, the jobs handed to the application,
    the queue of its answers, and whether it still holds its [WorkerHandle]. *)
Record WorkerState := mkWorker {
  w_pending : gset Z;
  w_jobs : list (Z * Z * Payload);
  w_rsp : list WpValue;
  w_open : bool;
}.

(** A job is noted as pending before it is handed over, also when that fails
    because the application has dropped its handle. *)
(* worker_task.rs:202-252 worker_handle_inbound_msg *)
Definition worker_handle_inbound_msg (network_value : WpValue) (st : WorkerState)
    : WorkerState * result unit :=
  match network_value with
  | WJob job_id worker_id payload =>
      let pending := {[job_id]} ∪ w_pending st in
      if w_open st then (mkWorker pending (w_jobs st ++ [(job_id, worker_id, payload)]) (w_rsp st) true, Ok tt)
      else (mkWorker pending (w_jobs st) (w_rsp st) false, bail "send failed")
  | WPendingJobsRequest worker_id =>
      (mkWorker (w_pending st) (w_jobs st) (w_rsp st ++ [WPendingJobsReply worker_id (elements (w_pending st))]) (w_open st), Ok tt)
  | WCancel _ _ => (st, Ok tt)
  | WPendingJobsReply _ _ => (st, bail "invalid input: Received PendingJobsReply from leader")
  end.

(** The application answers a job it was handed, in any order. *)
(* worker/mod.rs:28-35 Job::send_result *)
Definition send_result (job : Z * Z * Payload) (payload : Payload) (rsp : list WpValue) : list WpValue :=
  let '(job_id, worker_id, _) := job in rsp ++ [WJob job_id worker_id payload].

(** The hook that runs before an answer is written. *)
Definition worker_pre_send (msg : WpValue) (pending : gset Z) : gset Z :=
  match msg with WJob job_id _ _ => pending ∖ {[job_id]} | _ => pending end.

(** ** The handshake *)

(* worker_task.rs:175-200 worker_handshake *)
Definition worker_handshake (conn : list Z) (pending_job_ids : list Z) : result (list Z) :=
  '(msg, _) ← read_single_message conn;
  match msg with
  | WPendingJobsRequest worker_id => Ok (wp_to_network (WPendingJobsReply worker_id pending_job_ids))
  | _ => bail "handshake failed. expected PendingJobsRequest"
  end.

Definition leader_query (worker_id : Z) : list Z := wp_to_network (WPendingJobsRequest worker_id).

(* leader_task.rs:324-345 leader_handshake *)
Definition leader_handshake (conn : list Z) : result (list Z) :=
  '(msg, _) ← read_single_message conn;
  match msg with
  | WPendingJobsReply _ job_ids => Ok job_ids
  | _ => bail "handshake failed. expected PendingJobsReply"
  end.

(** The leader learns exactly the jobs the worker holds. *)
Lemma handshake_correct w ids :
  u16_ok' w -> Forall u32_ok' ids -> Z.of_nat (length ids * SIZE_OF_JOB_ID) <= MAX_PAYLOAD_SIZE ->
  (reply ← worker_handshake (leader_query w) ids; leader_handshake reply) = Ok ids.
Proof.
  intros Hw Hids Hn. unfold worker_handshake, leader_handshake, leader_query.
  rewrite <- (app_nil_r (wp_to_network (WPendingJobsRequest w))), read_single_wire by done. cbn [mbind result_bind received].
  rewrite <- (app_nil_r (wp_to_network (WPendingJobsReply w ids))), read_single_wire by done. done.
Qed.

(** ** One connection *)

(** Worker [w]'s connection: what is in flight each way, and whether it is up. *)
Record Link := mkLink {
  leader : LeaderState;
  worker : WorkerState;
  to_worker : list WpValue;
  to_leader : list WpValue;
  connected : bool;
}.

Definition value_job (v : WpValue) : option Z := match v with WJob id _ _ => Some id | _ => None end.

(** The steps that move a job on: the writers and readers of the two ends, the
    application's answers, and the leader task. *)
Inductive link_step (w : Z) (s : Link) : Link -> Prop :=
| link_write msg q :
    connected s = true -> l_cmd (leader s) !! Z.to_nat w = Some (Some (msg :: q)) ->
    link_step w s (mkLink (mkLeader (leader_pre_send msg (l_tracker (leader s))) (<[Z.to_nat w := Some q]> (l_cmd (leader s)))
        (l_rsp (leader s)) (l_out (leader s))) (worker s) (to_worker s ++ [msg]) (to_leader s) true)
| link_worker_read msg q st :
    connected s = true -> to_worker s = msg :: q -> worker_handle_inbound_msg msg (worker s) = (st, Ok tt) ->
    link_step w s (mkLink (leader s) st q (to_leader s) true)
| link_answer pre job post payload :
    w_jobs (worker s) = pre ++ job :: post ->
    link_step w s (mkLink (leader s) (mkWorker (w_pending (worker s)) (pre ++ post) (send_result job payload (w_rsp (worker s))) (w_open (worker s)))
        (to_worker s) (to_leader s) (connected s))
| link_worker_write msg q :
    connected s = true -> w_rsp (worker s) = msg :: q ->
    link_step w s (mkLink (leader s) (mkWorker (worker_pre_send msg (w_pending (worker s))) (w_jobs (worker s)) q (w_open (worker s)))
        (to_worker s) (to_leader s ++ [msg]) true)
| link_read msg q rsp :
    connected s = true -> to_leader s = msg :: q -> leader_forward_inbound_msg msg (l_rsp (leader s)) = Ok rsp ->
    link_step w s (mkLink (mkLeader (l_tracker (leader s)) (l_cmd (leader s)) rsp (l_out (leader s))) (worker s)
        (to_worker s) q true)
| link_record st :
    leader_take_response (leader s) = Some st ->
    link_step w s (mkLink st (worker s) (to_worker s) (to_leader s) (connected s)).

(** The reconciliation after a handshake. *)
(* leader_task.rs:254-258 worker_mgr (after the handshake) *)
Definition leader_reconcile (w : Z) (pending_jobs : list Z) (st : LeaderState) : LeaderState :=
  let '(tracker, o) := validate_pending_jobs (l_tracker st) w pending_jobs in
  mkLeader tracker (l_cmd st) (l_rsp st) (l_out st ++ o).

(** What else can happen: new jobs, the other workers' progress, a lost
    connection with everything in flight, a reconnection, an answer written to a
    connection that the leader gave up before the reconciliation, the end of the
    worker's manager, which drops the receiver of its command channel with the
    commands in it, the application dropping its handle with some of the jobs it
    was handed, and a job that the worker reads after that and refuses. *)
Inductive env_step (w : Z) (s : Link) : Link -> Prop :=
| env_submit job :
    (forall id, (exists p tx, job = JBroadcast p tx id) \/ (exists m tx, job = JScatterGather m tx id) ->
       l_tracker (leader s) !! id = None) ->
    (forall m tx id, job = JScatterGather m tx id -> Forall (fun m => 0 <= wj_worker_id m) m) ->
    env_step w s (mkLink (send_to_workpool job (leader s)) (worker s) (to_worker s) (to_leader s) (connected s))
| env_other_send id w' :
    w' <> w -> env_step w s (mkLink (mkLeader (set_to_pending (l_tracker (leader s)) id w').1 (l_cmd (leader s))
        (l_rsp (leader s)) (l_out (leader s))) (worker s) (to_worker s) (to_leader s) (connected s))
| env_other_answer rsp :
    rsp_worker_id rsp <> w -> env_step w s (mkLink (mkLeader (l_tracker (leader s)) (l_cmd (leader s))
        (l_rsp (leader s) ++ [rsp]) (l_out (leader s))) (worker s) (to_worker s) (to_leader s) (connected s))
| env_disconnect :
    env_step w s (mkLink (leader s) (worker s) [] [] false)
| env_reconnect :
    connected s = false ->
    env_step w s (mkLink (leader_reconcile w (elements (w_pending (worker s))) (leader s)) (worker s) [] [] true)
| env_lost_answer msg q :
    connected s = false -> w_rsp (worker s) = msg :: q ->
    env_step w s (mkLink (leader s) (mkWorker (worker_pre_send msg (w_pending (worker s))) (w_jobs (worker s)) q (w_open (worker s)))
        (to_worker s) (to_leader s) false)
| env_close :
    env_step w s (mkLink (mkLeader (l_tracker (leader s)) (<[Z.to_nat w := None]> (l_cmd (leader s))) (l_rsp (leader s)) (l_out (leader s)))
        (worker s) (to_worker s) (to_leader s) (connected s))
| env_drop_handle jobs :
    jobs `sublist_of` w_jobs (worker s) ->
    env_step w s (mkLink (leader s) (mkWorker (w_pending (worker s)) jobs (w_rsp (worker s)) false) (to_worker s) (to_leader s) (connected s))
| env_refused msg q st e :
    connected s = true -> to_worker s = msg :: q -> worker_handle_inbound_msg msg (worker s) = (st, Err e) ->
    env_step w s (mkLink (leader s) st q (to_leader s) true).

Definition link_init (num_workers : nat) : Link :=
  mkLink (mkLeader ∅ (replicate num_workers (Some [])) [] []) (mkWorker ∅ [] [] true) [] [] false.
Definition any_step (w : Z) (s s' : Link) : Prop := link_step w s s' \/ env_step w s s'.

(** ** Effects on one job *)

Lemma record_response_effect t r id job' :
  (record_response t r).1.1 !! id = Some job' ->
  exists job, t !! id = Some job /\ registered job' = registered job /\ pending job' ⊆ pending job /\
    (rsp_job_id r = id -> rsp_worker_id r ∉ pending job').
Proof.
  unfold record_response, record_entry, complete_job. destruct (t !! rsp_job_id r) as [j|] eqn:E; cbn.
  2:{ intros H. exists job'. split_and!; [done..|]. intros <-. congruence. }
  case_decide as Hw; cbn.
  - destruct (_ && _); cbn; [rewrite lookup_insert_eq; cbn; intros [Hne H]%lookup_delete_Some; rewrite lookup_insert_ne in H by done;
      exists job'; by split_and!|].
    rewrite lookup_insert_Some. intros [[<- <-]|[Hne H]]; [|by exists job'; split_and!].
    exists j. cbn. split_and!; [done|done|set_solver|set_solver].
  - intros H. exists job'. split_and!; [done..|]. intros <-. congruence.
Qed.

Lemma set_to_pending_effect t k w' id job' :
  (set_to_pending t k w').1 !! id = Some job' ->
  exists job, t !! id = Some job /\
    (forall w, w ∈ registered job' -> w ∈ registered job /\ ~ (k = id /\ w' = w)) /\
    (forall w, w ∈ pending job' -> w ∈ pending job \/ (k = id /\ w' = w)).
Proof.
  unfold set_to_pending. destruct (t !! k) as [j|] eqn:E; cbn.
  2:{ intros H. exists job'. split_and!; [done| |by left]. intros w Hw. split; [done|]. intros [<- _]. congruence. }
  case_decide as Hw; cbn.
  - rewrite lookup_insert_Some. intros [[<- <-]|[Hne H]]; cbn.
    + exists j. split_and!; [done|set_solver|set_solver].
    + exists job'. split_and!; [done| |by left]. intros w Hw'. split; [done|]. by intros [<- _].
  - intros H. exists job'. split_and!; [done| |by left]. intros w Hw'. split; [done|]. intros [<- <-]. congruence.
Qed.

(** Reconciliation takes the worker off every job it does not report, and
    changes nothing else. *)
Lemma validate_pending_effect t w ids id job' :
  (validate_pending_jobs t w ids).1 !! id = Some job' ->
  exists job, t !! id = Some job /\ registered job' = registered job /\ pending job' ⊆ pending job /\
    (w ∈ pending job' -> id ∈ ids).
Proof.
  assert (forall D t0 out, (foldl (fun '(self, out) job_id =>
      let '(self, o, _) := record_response self (lost_response w job_id) in (self, out ++ o)) (t0, out) D).1 !! id = Some job' ->
    exists job, t0 !! id = Some job /\ registered job' = registered job /\ pending job' ⊆ pending job /\
      (id ∈ D -> w ∉ pending job')) as H.
  { induction D as [|k D IH]; intros t0 out; cbn.
    - intros H. exists job'. split_and!; [done..|]. by intros ?%elem_of_nil.
    - destruct (record_response t0 (lost_response w k)) as [[t1 o] e] eqn:E. intros H.
      destruct (IH t1 (out ++ o) H) as (j1 & H1 & Hr1 & Hp1 & Hw1).
      pose proof (record_response_effect t0 (lost_response w k) id j1) as Heff. rewrite E in Heff.
      destruct (Heff H1) as (j0 & H0 & Hr0 & Hp0 & Hw0). exists j0. split_and!; [done|congruence|set_solver|].
      intros [->|Hin]%elem_of_cons; [|auto]. specialize (Hw0 eq_refl). set_solver. }
  intros Hv. destruct (H (dropped_jobs t w ids) t [] Hv) as (job & Hj & Hr & Hp & Hd).
  exists job. split_and!; [done..|]. intros Hw. destruct (decide (id ∈ ids)) as [|Hnin]; [done|].
  destruct Hd; [|done]. apply list_elem_of_fmap. exists (id, job). split; [done|].
  apply elem_of_map_to_list, map_lookup_filter_Some. split; [done|]. split; [set_solver|done].
Qed.

Lemma length_send_cmd cmd i v : length (send_cmd cmd i v).1 = length cmd.
Proof. unfold send_cmd. repeat case_match; cbn; by rewrite ?length_insert. Qed.

Lemma length_send_parts id parts cmd rsp : length (send_parts id parts cmd rsp).1 = length cmd.
Proof.
  revert cmd rsp. induction parts as [|[k p] parts IH]; intros cmd rsp; cbn [send_parts]; [done|].
  pose proof (length_send_cmd cmd (Z.to_nat k) (WJob id k p)) as Hl. destruct (send_cmd _ _ _) as [cmd' sent]. by rewrite IH.
Qed.

(** A closed channel stays closed. *)
Lemma send_parts_closed id parts cmd rsp i : cmd !! i = Some None -> (send_parts id parts cmd rsp).1 !! i = Some None.
Proof.
  revert cmd rsp. induction parts as [|[k p] parts IH]; intros cmd rsp Hi; cbn [send_parts]; [done|].
  destruct (send_cmd cmd (Z.to_nat k) (WJob id k p)) as [cmd' sent] eqn:Es. apply IH. unfold send_cmd in Es.
  destruct (cmd !! Z.to_nat k) as [[q|]|] eqn:Ek; injection Es as <- <-; [|done..].
  rewrite list_lookup_insert_ne; [done|congruence].
Qed.

(** Distribution of the parts: the queue of an open channel [w] grows by the
    parts for [w]. *)
Lemma send_parts_queue id parts cmd rsp w q :
  0 <= w -> Forall (fun p => 0 <= p.1) parts -> cmd !! Z.to_nat w = Some (Some q) ->
  exists q', (send_parts id parts cmd rsp).1 !! Z.to_nat w = Some (Some (q ++ q')) /\
    Forall (fun v => exists p, v = WJob id w p) q' /\ (w ∈ parts.*1 -> q' <> []).
Proof.
  intros Hw Hp. revert cmd rsp q. induction Hp as [|[w' p] parts Hw' Hp IH]; intros cmd rsp q Hq; cbn [send_parts].
  { exists []. rewrite app_nil_r. split_and!; [done|done|set_solver]. }
  destruct (decide (w' = w)) as [->|Hne].
  - unfold send_cmd. rewrite Hq.
    destruct (IH (<[Z.to_nat w := Some (q ++ [WJob id w p])]> cmd) rsp (q ++ [WJob id w p])) as (q' & H1 & H2 & _).
    { apply list_lookup_insert_eq. by eapply lookup_lt_Some. }
    exists (WJob id w p :: q'). rewrite <- app_assoc in H1. split_and!; [done|constructor; eauto|done].
  - destruct (send_cmd cmd (Z.to_nat w') (WJob id w' p)) as [cmd' sent] eqn:Es.
    assert (cmd' !! Z.to_nat w = Some (Some q)) as Hq'.
    { cbn in Hw'. unfold send_cmd in Es. repeat case_match; injection Es as <- <-; [|done..].
      rewrite list_lookup_insert_ne by lia. done. }
    destruct (IH cmd' (if sent then rsp else rsp ++ [mkRsp (inl SendFailed) id w']) q Hq') as (q' & H1 & H2 & H3).
    exists q'. split_and!; [done|done|]. cbn. set_solver.
Qed.

(** ** No job is forgotten *)

Definition value_for (w : Z) (v : WpValue) : Prop := exists id p, v = WJob id w p.
Definition jobs_of (vs : list WpValue) : list Z := omap value_job vs.

(** Where a job that the leader awaits from [w] can be. *)
Definition in_flight (w : Z) (s : Link) (id : Z) : Prop :=
  id ∈ jobs_of (to_worker s) \/ id ∈ w_pending (worker s) \/ id ∈ jobs_of (to_leader s) \/
  exists r, r ∈ l_rsp (leader s) /\ rsp_worker_id r = w /\ rsp_job_id r = id.

Record link_inv (w : Z) (s : Link) : Prop := {
  li_worker : 0 <= w < Z.of_nat (length (l_cmd (leader s))) /\ Z.of_nat (length (l_cmd (leader s))) < 2 ^ 16;
  li_queue : (exists q, l_cmd (leader s) !! Z.to_nat w = Some (Some q) /\ Forall (value_for w) q /\
      forall id job, l_tracker (leader s) !! id = Some job -> w ∈ registered job -> id ∈ jobs_of q) \/
    l_cmd (leader s) !! Z.to_nat w = Some None;
  li_wire : Forall (value_for w) (to_worker s) /\ Forall (value_for w) (w_rsp (worker s)) /\
    Forall (value_for w) (to_leader s) /\ Forall (fun j => j.1.2 = w) (w_jobs (worker s));
  li_pending id job : connected s = true -> l_tracker (leader s) !! id = Some job -> w ∈ pending job -> in_flight w s id;
  li_answer id : w_open (worker s) = true -> id ∈ w_pending (worker s) -> id ∈ (fun j => j.1.1) <$> w_jobs (worker s) \/ id ∈ jobs_of (w_rsp (worker s));
}.

Lemma jobs_of_cons v vs id : id ∈ jobs_of (v :: vs) <-> value_job v = Some id \/ id ∈ jobs_of vs.
Proof.
  unfold jobs_of. rewrite !list_elem_of_omap. split.
  - intros (x & [->|Hx]%elem_of_cons & H); [by left|right; eauto].
  - intros [H|(x & Hx & H)]; [exists v; split; [left|done]|exists x; split; [by right|done]].
Qed.
Lemma jobs_of_app vs us id : id ∈ jobs_of (vs ++ us) <-> id ∈ jobs_of vs \/ id ∈ jobs_of us.
Proof. unfold jobs_of. rewrite omap_app. apply elem_of_app. Qed.
Lemma jobs_of_job j w p id : id ∈ jobs_of [WJob j w p] <-> id = j.
Proof. rewrite jobs_of_cons. cbn. split; [intros [[= ->]|[]%elem_of_nil]; done|intros ->; by left]. Qed.

(** What the invariant says of the leader's side alone, transported along an
    update of the tracker that only takes workers off. *)
Lemma tracker_shrinks w s t' out :
  link_inv w s ->
  (forall id job', t' !! id = Some job' -> exists job, l_tracker (leader s) !! id = Some job /\
     (w ∈ registered job' -> w ∈ registered job) /\ (w ∈ pending job' -> w ∈ pending job)) ->
  link_inv w (mkLink (mkLeader t' (l_cmd (leader s)) (l_rsp (leader s)) out) (worker s) (to_worker s) (to_leader s) (connected s)).
Proof.
  intros [Hw Hcmd Hwire Hpend Hans] Ht. split; cbn; [done| |done| |done].
  - destruct Hcmd as [(q & Hq & Hqf & Hreg)|Hq]; [left|by right].
    exists q. split_and!; [done..|]. intros id job' Hj Hr. destruct (Ht id job' Hj) as (job & ? & ? & _). eauto.
  - intros id job' Hc Hj Hp. destruct (Ht id job' Hj) as (job & ? & _ & ?). eapply (Hpend id job); auto.
Qed.

Lemma link_write_inv w s msg q :
  link_inv w s -> connected s = true -> l_cmd (leader s) !! Z.to_nat w = Some (Some (msg :: q)) ->
  link_inv w (mkLink (mkLeader (leader_pre_send msg (l_tracker (leader s))) (<[Z.to_nat w := Some q]> (l_cmd (leader s)))
    (l_rsp (leader s)) (l_out (leader s))) (worker s) (to_worker s ++ [msg]) (to_leader s) true).
Proof.
  intros [Hw [(q' & Hq & Hqf & Hreg)|Hq] (W1 & W2 & W3 & W4) Hpend Hans] Hc Hcmd; [|congruence].
  rewrite Hq in Hcmd. injection Hcmd as ->. apply Forall_cons in Hqf as [(k & p & ->) Hqf].
  assert (Z.to_nat w < length (l_cmd (leader s)))%nat by lia. split; cbn.
  - by rewrite length_insert.
  - left. exists q. split_and!; [by apply list_lookup_insert_eq|done|]. intros id job' Hj Hr.
    destruct (set_to_pending_effect _ _ _ _ _ Hj) as (job & Hj0 & Hrs & _). destruct (Hrs w Hr) as [Hr0 Hne].
    pose proof (Hreg id job Hj0 Hr0) as Hin. apply jobs_of_cons in Hin as [[= ->]|?]; [|done]. by destruct Hne.
  - split_and!; [apply Forall_app; split; [done|repeat constructor; unfold value_for; eauto]|done..].
  - intros id job' _ Hj Hp. destruct (set_to_pending_effect _ _ _ _ _ Hj) as (job & Hj0 & _ & Hps).
    destruct (Hps w Hp) as [Hp0|[-> _]].
    + destruct (Hpend id job Hc Hj0 Hp0) as [?|[?|[?|?]]]; [left; apply jobs_of_app; by left|by right; left|by right; right; left|by right; right; right].
    + left. apply jobs_of_app. right. by apply jobs_of_job.
  - done.
Qed.

Lemma link_worker_read_inv w s msg q st :
  link_inv w s -> connected s = true -> to_worker s = msg :: q -> worker_handle_inbound_msg msg (worker s) = (st, Ok tt) ->
  link_inv w (mkLink (leader s) st q (to_leader s) true).
Proof.
  intros [Hw Hq (W1 & W2 & W3 & W4) Hpend Hans] Hc Ht Hh. rewrite Ht in W1. apply Forall_cons in W1 as [(k & p & ->) W1].
  cbn in Hh. destruct (w_open (worker s)) eqn:Eo; [|done]. injection Hh as <-. split; cbn; [done|done| | |].
  - split_and!; [done..|]. apply Forall_app. split; [done|by repeat constructor].
  - intros id job _ Hj Hp. unfold in_flight. cbn.
    destruct (Hpend id job Hc Hj Hp) as [H|[?|[?|?]]]; [|set_solver|by right; right; left|by right; right; right].
    rewrite Ht, jobs_of_cons in H. destruct H as [[= ->]|?]; [right; left; set_solver|by left].
  - intros id _ [->%elem_of_singleton|Hin]%elem_of_union.
    + left. rewrite fmap_app. set_solver.
    + destruct (Hans id eq_refl Hin); [left; rewrite fmap_app; set_solver|by right].
Qed.

Lemma link_answer_inv w s pre job post payload :
  link_inv w s -> w_jobs (worker s) = pre ++ job :: post ->
  link_inv w (mkLink (leader s) (mkWorker (w_pending (worker s)) (pre ++ post) (send_result job payload (w_rsp (worker s))) (w_open (worker s)))
    (to_worker s) (to_leader s) (connected s)).
Proof.
  intros [Hw Hq (W1 & W2 & W3 & W4) Hpend Hans] Hj. destruct job as [[k wk] p]. rewrite Hj in W4, Hans.
  apply Forall_app in W4 as [W4 W5]. apply Forall_cons in W5 as [E W5]. cbn in E. subst wk.
  split; cbn; [done|done| |done|].
  - split_and!; [done| |done|by apply Forall_app]. apply Forall_app. split; [done|repeat constructor; unfold value_for; eauto].
  - intros id Ho Hin. rewrite jobs_of_app, jobs_of_job. destruct (Hans id Ho Hin) as [H|H]; [|by right; left].
    rewrite fmap_app, elem_of_app, fmap_cons, elem_of_cons in H. rewrite fmap_app, elem_of_app. cbn in H. tauto.
Qed.

Lemma worker_write_answers w s msg q :
  link_inv w s -> w_rsp (worker s) = msg :: q ->
  Forall (value_for w) q /\ forall id, w_open (worker s) = true -> id ∈ worker_pre_send msg (w_pending (worker s)) ->
    id ∈ (fun j => j.1.1) <$> w_jobs (worker s) \/ id ∈ jobs_of q.
Proof.
  intros [Hw Hq (W1 & W2 & W3 & W4) Hpend Hans] Hr. rewrite Hr in W2, Hans. apply Forall_cons in W2 as [(k & p & ->) W2]. split; [done|]. cbn.
  intros id Ho [Hin Hne]%elem_of_difference. destruct (Hans id Ho Hin) as [?|H]; [by left|].
  apply jobs_of_cons in H as [[= ->]|?]; [set_solver|by right].
Qed.

Lemma link_worker_write_inv w s msg q :
  link_inv w s -> connected s = true -> w_rsp (worker s) = msg :: q ->
  link_inv w (mkLink (leader s) (mkWorker (worker_pre_send msg (w_pending (worker s))) (w_jobs (worker s)) q (w_open (worker s)))
    (to_worker s) (to_leader s ++ [msg]) true).
Proof.
  intros Hs Hc Hr. pose proof (proj2 (worker_write_answers w s msg q Hs Hr)) as Hans'.
  destruct Hs as [Hw Hq (W1 & W2 & W3 & W4) Hpend _]. rewrite Hr in W2.
  apply Forall_cons in W2 as [(k & p & ->) W2]. split; cbn; [done|done| | |exact Hans'].
  - split_and!; [done|done| |done]. apply Forall_app. split; [done|repeat constructor; unfold value_for; eauto].
  - intros id job _ Hj Hp. unfold in_flight. cbn. rewrite jobs_of_app, jobs_of_job.
    destruct (Hpend id job Hc Hj Hp) as [?|[?|[?|?]]]; [by left| |tauto|tauto].
    destruct (decide (id = k)); [tauto|]. right. left. set_solver.
Qed.

Lemma link_read_inv w s msg q rsp :
  link_inv w s -> connected s = true -> to_leader s = msg :: q -> leader_forward_inbound_msg msg (l_rsp (leader s)) = Ok rsp ->
  link_inv w (mkLink (mkLeader (l_tracker (leader s)) (l_cmd (leader s)) rsp (l_out (leader s))) (worker s) (to_worker s) q true).
Proof.
  intros [Hw Hq (W1 & W2 & W3 & W4) Hpend Hans] Hc Ht Hf. rewrite Ht in W3. apply Forall_cons in W3 as [(k & p & ->) W3].
  cbn in Hf. injection Hf as <-. split; cbn; [done|done|done| |done].
  intros id job _ Hj Hp. unfold in_flight. cbn.
  destruct (Hpend id job Hc Hj Hp) as [?|[?|[H|(r & Hr & E1 & E2)]]]; [by left|by right; left| |].
  - rewrite Ht, jobs_of_cons in H. destruct H as [[= ->]|?]; [|by right; right; left].
    right; right; right. eexists. split; [apply elem_of_app; right; by left|done].
  - right; right; right. exists r. split_and!; [apply elem_of_app; by left|done..].
Qed.

Lemma link_record_inv w s st :
  link_inv w s -> leader_take_response (leader s) = Some st ->
  link_inv w (mkLink st (worker s) (to_worker s) (to_leader s) (connected s)).
Proof.
  intros [Hw Hcmd Hwire Hpend Hans]. unfold leader_take_response.
  destruct (l_rsp (leader s)) as [|r rsp] eqn:Er; [done|].
  pose proof (record_response_effect (l_tracker (leader s)) r) as Heff.
  destruct (record_response (l_tracker (leader s)) r) as [[t' o] e]. cbn in Heff. intros [= <-]. split; cbn; [done| |done| |done].
  - destruct Hcmd as [(q & Hq & Hqf & Hreg)|Hq]; [left|by right].
    exists q. split_and!; [done..|]. intros id job' Hj Hr. destruct (Heff id job' Hj) as (job & Hj0 & E & _). rewrite E in Hr. eauto.
  - intros id job' Hc Hj Hp. destruct (Heff id job' Hj) as (job & Hj0 & _ & Hsub & Hnot). unfold in_flight. cbn.
    destruct (Hpend id job Hc Hj0 ltac:(set_solver)) as [?|[?|[?|(r' & Hr' & E1 & E2)]]]; [tauto..|].
    rewrite Er in Hr'. apply elem_of_cons in Hr' as [->|Hr']; [|right; right; right; eauto].
    by destruct (Hnot E2); rewrite E1.
Qed.

Lemma forall_value_for id w q : Forall (fun v => exists p, v = WJob id w p) q -> Forall (value_for w) q.
Proof. intros H. eapply Forall_impl; [exact H|]. intros v (p & ->). unfold value_for. eauto. Qed.

(** A job and its parts arrive together. *)
Lemma submit_parts_inv w s id ws parts rsp tx out :
  link_inv w s -> l_tracker (leader s) !! id = None -> (w ∈ ws -> w ∈ parts.*1) -> Forall (fun p => 0 <= p.1) parts ->
  let t' := <[id := mkPending ws ∅ ∅ tx]> (l_tracker (leader s)) in
  (forall r, r ∈ l_rsp (leader s) -> r ∈ rsp) ->
  link_inv w (mkLink (mkLeader t' (send_parts id parts (l_cmd (leader s)) rsp).1 (send_parts id parts (l_cmd (leader s)) rsp).2 out)
    (worker s) (to_worker s) (to_leader s) (connected s)).
Proof.
  intros [Hw Hcmd Hwire Hpend Hans] Hid Hws Hp t' Hrsp.
  assert (forall r, r ∈ rsp -> r ∈ (send_parts id parts (l_cmd (leader s)) rsp).2) as Hgrow.
  { clear. generalize (l_cmd (leader s)) as cmd. revert rsp. induction parts as [|[k p] parts IH]; intros rsp cmd r Hr; cbn; [done|].
    destruct (send_cmd _ _ _) as [cmd' sent]. apply IH. destruct sent; [done|apply elem_of_app; by left]. }
  split; cbn.
  - by rewrite length_send_parts.
  - destruct Hcmd as [(q & Hq & Hqf & Hreg)|Hq]; [left|right; by apply send_parts_closed].
    destruct (send_parts_queue id parts (l_cmd (leader s)) rsp w q ltac:(lia) Hp Hq) as (q' & H1 & H2 & H3).
    exists (q ++ q'). split_and!; [done|apply Forall_app; split; [done|by eapply forall_value_for]|].
    intros k job. unfold t'. rewrite lookup_insert_Some. rewrite jobs_of_app. intros [[<- <-]|[Hne Hj]] Hr; [|left; eauto].
    right. cbn in Hr. destruct q' as [|v q']; [by destruct H3; auto|]. apply Forall_cons in H2 as [(p & ->) _].
    apply jobs_of_cons. by left.
  - done.
  - intros k job Hc. unfold t'. rewrite lookup_insert_Some. intros [[<- <-]|[Hne Hj]] Hp'; [cbn in Hp'; set_solver|].
    unfold in_flight. cbn. destruct (Hpend k job Hc Hj Hp') as [?|[?|[?|(r & Hr & ?)]]]; [tauto..|]. right; right; right. eauto.
  - done.
Qed.

Lemma submit_inv w s job :
  link_inv w s ->
  (forall id, (exists p tx, job = JBroadcast p tx id) \/ (exists m tx, job = JScatterGather m tx id) ->
     l_tracker (leader s) !! id = None) ->
  (forall m tx id, job = JScatterGather m tx id -> Forall (fun m => 0 <= wj_worker_id m) m) ->
  link_inv w (mkLink (send_to_workpool job (leader s)) (worker s) (to_worker s) (to_leader s) (connected s)).
Proof.
  intros Hs Hfresh Hpos. destruct job as [p tx id|msgs tx id|id]; cbn [send_to_workpool].
  - pose proof (Hfresh id ltac:(eauto)) as Hid. unfold register_job. rewrite Hid.
    set (parts := (fun i => (Z.of_nat i mod 2 ^ 16, p)) <$> seq 0 (length (l_cmd (leader s)))).
    pose proof (submit_parts_inv w s id (job_workers (Broadcast (worker_count (l_cmd (leader s))))) parts (l_rsp (leader s)) tx
      (l_out (leader s) ++ []) Hs Hid) as H.
    destruct (send_parts id parts (l_cmd (leader s)) (l_rsp (leader s))) as [cmd rsp]. apply H; [| |done].
    + intros _. destruct (li_worker _ _ Hs) as [Hw Hl]. apply list_elem_of_fmap. exists (w, p). split; [done|].
      apply list_elem_of_fmap. exists (Z.to_nat w). split; [f_equal; rewrite Z2Nat.id by lia; symmetry; apply Z.mod_small; lia|].
      apply elem_of_seq. lia.
    + apply Forall_fmap, Forall_true. intros i. apply Z.mod_pos_bound. lia.
  - destruct (existsb _ msgs).
    { apply tracker_shrinks; [done|]. eauto 10. }
    pose proof (Hfresh id ltac:(eauto)) as Hid. unfold register_job. rewrite Hid.
    set (parts := (fun m => (wj_worker_id m, wj_payload m)) <$> msgs).
    pose proof (submit_parts_inv w s id (job_workers (ScatterGather (list_to_set (wj_worker_id <$> msgs)))) parts (l_rsp (leader s)) tx
      (l_out (leader s) ++ []) Hs Hid) as H.
    destruct (send_parts id parts (l_cmd (leader s)) (l_rsp (leader s))) as [cmd rsp]. apply H; [| |done].
    + cbn. rewrite elem_of_list_to_set. unfold parts. rewrite <- list_fmap_compose. done.
    + apply Forall_fmap. by apply (Hpos msgs tx id).
  - unfold cancel_job. destruct (l_tracker (leader s) !! id) eqn:E; (apply tracker_shrinks; [done|]).
    + intros k job' [_ H]%lookup_delete_Some. eauto 10.
    + eauto 10.
Qed.

Lemma reconnect_inv w s :
  link_inv w s ->
  link_inv w (mkLink (leader_reconcile w (elements (w_pending (worker s))) (leader s)) (worker s) [] [] true).
Proof.
  intros [Hw Hcmd (W1 & W2 & W3 & W4) Hpend Hans]. unfold leader_reconcile.
  pose proof (validate_pending_effect (l_tracker (leader s)) w (elements (w_pending (worker s)))) as Heff.
  destruct (validate_pending_jobs _ _ _) as [t' o]. cbn in Heff. split; cbn; [done| | | |done].
  - destruct Hcmd as [(q & Hq & Hqf & Hreg)|Hq]; [left|by right]. exists q. split_and!; [done..|]. intros id job' Hj Hr. destruct (Heff id job' Hj) as (job & Hj0 & E & _). rewrite E in Hr. eauto.
  - split_and!; [constructor|done|constructor|done].
  - intros id job' _ Hj Hp. destruct (Heff id job' Hj) as (job & _ & _ & _ & Hin). right; left. cbn. by apply elem_of_elements, Hin.
Qed.

Lemma lost_answer_inv w s msg q :
  link_inv w s -> connected s = false -> w_rsp (worker s) = msg :: q ->
  link_inv w (mkLink (leader s) (mkWorker (worker_pre_send msg (w_pending (worker s))) (w_jobs (worker s)) q (w_open (worker s)))
    (to_worker s) (to_leader s) false).
Proof.
  intros Hs Hc Hr. destruct (worker_write_answers w s msg q Hs Hr) as [Hq Hans]. destruct Hs as [Hw Hcmd (W1 & W2 & W3 & W4) _ _].
  by split.
Qed.

Lemma sublist_Forall {A} (P : A -> Prop) l k : l `sublist_of` k -> Forall P k -> Forall P l.
Proof. induction 1; [done| |]; intros [? ?]%Forall_cons; [constructor|]; auto. Qed.

(** A job that the worker could not hand over is among those it reports. *)
Lemma refused_inv w s msg q st e :
  link_inv w s -> connected s = true -> to_worker s = msg :: q -> worker_handle_inbound_msg msg (worker s) = (st, Err e) ->
  link_inv w (mkLink (leader s) st q (to_leader s) true).
Proof.
  intros [Hw Hq (W1 & W2 & W3 & W4) Hpend Hans] Hc Ht Hh. rewrite Ht in W1. apply Forall_cons in W1 as [(k & p & ->) W1].
  cbn in Hh. destruct (w_open (worker s)) eqn:Eo; [done|]. injection Hh as <- _. split; cbn; [done|done|done| |done].
  intros id job _ Hj Hp. unfold in_flight. cbn.
  destruct (Hpend id job Hc Hj Hp) as [H|[?|[?|?]]]; [|set_solver|by right; right; left|by right; right; right].
  rewrite Ht, jobs_of_cons in H. destruct H as [[= ->]|?]; [right; left; set_solver|by left].
Qed.

Lemma any_step_inv w s s' : link_inv w s -> any_step w s s' -> link_inv w s'.
Proof.
  intros Hs [H|H]; destruct H.
  - by apply link_write_inv.
  - by eapply link_worker_read_inv.
  - by eapply link_answer_inv.
  - by apply link_worker_write_inv.
  - by eapply link_read_inv.
  - by apply link_record_inv.
  - by apply submit_inv.
  - apply tracker_shrinks; [done|]. intros k job' Hj. destruct (set_to_pending_effect _ _ _ _ _ Hj) as (job & Hj0 & H1 & H2).
    exists job. split_and!; [done|intros ?; by apply H1|]. intros Hp. destruct (H2 w Hp) as [?|[_ ->]]; done.
  - destruct Hs as [Hw Hq Hwire Hpend Hans]. split; cbn; [done|done|done| |done].
    intros k job Hc Hj Hp. unfold in_flight. cbn.
    destruct (Hpend k job Hc Hj Hp) as [?|[?|[?|(r & ? & ?)]]]; [tauto..|]. right; right; right. exists r.
    split; [apply elem_of_app; by left|done].
  - destruct Hs as [Hw Hq (W1 & W2 & W3 & W4) Hpend Hans]. split; cbn; [done|done|by split_and!|done|done].
  - by apply reconnect_inv.
  - by apply lost_answer_inv.
  - destruct Hs as [Hw Hq Hwire Hpend Hans]. split; cbn; [by rewrite length_insert| |done|done|done].
    right. apply list_lookup_insert_eq. lia.
  - destruct Hs as [Hw Hq (W1 & W2 & W3 & W4) Hpend Hans]. split; cbn; [done|done| |done|done].
    split_and!; [done..|]. by eapply sublist_Forall.
  - by eapply refused_inv.
Qed.

Lemma link_init_inv w n : 0 <= w < Z.of_nat n -> Z.of_nat n < 2 ^ 16 -> link_inv w (link_init n).
Proof.
  intros Hw Hn. split; cbn.
  - rewrite length_replicate. lia.
  - left. exists []. split_and!; [apply lookup_replicate_2; lia|done|done].
  - done.
  - done.
  - set_solver.
Qed.

Lemma reachable_link_inv w n s :
  0 <= w < Z.of_nat n -> Z.of_nat n < 2 ^ 16 -> rtc (any_step w) (link_init n) s -> link_inv w s.
Proof.
  intros Hw Hn. assert (forall s0, link_inv w s0 -> rtc (any_step w) s0 s -> link_inv w s) as H; [|by apply H, link_init_inv].
  intros s0 H0 Hr. induction Hr as [|s0 s1 s2 Hstep Hr IH]; [done|]. apply IH. by eapply any_step_inv.
Qed.

(** ** Progress *)

Definition queue_length (w : Z) (s : Link) : nat :=
  match l_cmd (leader s) !! Z.to_nat w with Some (Some q) => length q | _ => 0 end.

(** Every step moves a message one station on. *)
Definition work (w : Z) (s : Link) : nat :=
  6 * queue_length w s + 5 * length (to_worker s) + 4 * length (w_jobs (worker s)) + 3 * length (w_rsp (worker s))
  + 2 * length (to_leader s) + length (l_rsp (leader s)).

Lemma link_step_work w s s' : link_inv w s -> link_step w s s' -> (work w s' < work w s)%nat.
Proof.
  intros Hs Hstep. unfold work, queue_length. destruct Hstep as [msg q Hc Hq|msg q st Hc Ht Hh|pre job post payload Hj|msg q Hc Hr|msg q rsp Hc Ht Hf|st Ht]; cbn.
  - assert (Z.to_nat w < length (l_cmd (leader s)))%nat by (by eapply lookup_lt_Some).
    rewrite list_lookup_insert_eq, Hq, length_app by done. cbn. lia.
  - destruct (li_wire _ _ Hs) as (W1 & _). rewrite Ht in *. apply Forall_cons in W1 as [(k & p & ->) _].
    cbn in Hh. destruct (w_open (worker s)); [|done]. injection Hh as <-. cbn. rewrite length_app. cbn. lia.
  - rewrite Hj. unfold send_result. destruct job as [[k wk] p]. rewrite !length_app. cbn. lia.
  - rewrite Hr, length_app. cbn. lia.
  - destruct (li_wire _ _ Hs) as (_ & _ & W3 & _). rewrite Ht in *. apply Forall_cons in W3 as [(k & p & ->) _].
    cbn in Hf. injection Hf as <-. rewrite length_app. cbn. lia.
  - unfold leader_take_response in Ht. destruct (l_rsp (leader s)) as [|r rsp]; [done|].
    destruct (record_response _ _) as [[t' o] e]. injection Ht as <-. cbn. lia.
Qed.

Lemma quiescent_done w s :
  link_inv w s -> connected s = true -> l_cmd (leader s) !! Z.to_nat w <> Some None -> w_open (worker s) = true ->
  (forall s', link_step w s s' -> False) ->
  forall id job, l_tracker (leader s) !! id = Some job -> ~ (w ∈ registered job) /\ ~ (w ∈ pending job).
Proof.
  intros Hs Hc Hcl Ho Hstuck. pose proof Hs as [Hw [(q & Hq & Hqf & Hreg)|] (W1 & W2 & W3 & W4) Hpend Hans]; [|done].
  assert (q = []) as ->.
  { destruct q as [|v q]; [done|]. destruct (Hstuck _ (link_write w s v q Hc Hq)). }
  assert (to_worker s = []) as E1.
  { destruct (to_worker s) as [|v q] eqn:E; [done|]. apply Forall_cons in W1 as [(k & p & ->) _].
    exfalso. eapply Hstuck, (link_worker_read w s _ q _ Hc E). cbn. by rewrite Ho. }
  assert (w_jobs (worker s) = []) as E2.
  { destruct (w_jobs (worker s)) as [|j q] eqn:E; [done|]. destruct (Hstuck _ (link_answer w s [] j q (PBytes []) E)). }
  assert (w_rsp (worker s) = []) as E3.
  { destruct (w_rsp (worker s)) as [|v q] eqn:E; [done|]. destruct (Hstuck _ (link_worker_write w s v q Hc E)). }
  assert (to_leader s = []) as E4.
  { destruct (to_leader s) as [|v q] eqn:E; [done|]. apply Forall_cons in W3 as [(k & p & ->) _].
    destruct (Hstuck _ (link_read w s _ q _ Hc E eq_refl)). }
  assert (l_rsp (leader s) = []) as E5.
  { destruct (leader_take_response (leader s)) as [st|] eqn:E; [destruct (Hstuck _ (link_record w s st E))|].
    unfold leader_take_response in E. destruct (l_rsp (leader s)); [done|]. by destruct (record_response _ _) as [[? ?] ?]. }
  intros id job Hj. split.
  - intros Hr. by apply (Hreg id job Hj), elem_of_nil in Hr.
  - intros Hp. destruct (Hpend id job Hc Hj Hp) as [H|[H|[H|(r & H & _)]]].
    + rewrite E1 in H. by apply elem_of_nil in H.
    + apply (Hans _ Ho) in H as [H|H]; [rewrite E2 in H|rewrite E3 in H]; by apply elem_of_nil in H.
    + rewrite E4 in H. by apply elem_of_nil in H.
    + rewrite E5 in H. by apply elem_of_nil in H.
Qed.

(** ** Claims *)

(** Take one step of a concrete run and keep the state small. *)
Ltac link_norm :=
  cbn [leader worker to_worker to_leader connected l_tracker l_cmd l_rsp l_out w_pending w_jobs w_rsp
       w_open send_to_workpool register_job leader_reconcile leader_pre_send worker_pre_send].
Tactic Notation "link_run" uconstr(rule) := eapply rtc_l; [left; by eapply rule|]; link_norm.
Tactic Notation "env_run" uconstr(rule) := eapply rtc_l; [right; by eapply rule|]; link_norm.

(** C34: No job is forgotten: in every state reached by jobs, answers,
    disconnections that lose everything in flight and reconnections, the steps
    of a worker's connection (writes, reads, answers, the leader's bookkeeping)
    are finitely many unless something new happens; and once none is left on an
    open connection, while the worker's manager runs and the application holds
    its handle, no job in the leader's tracker still waits for this worker,
    neither to be sent to it nor to be answered. *)
Theorem no_job_forgotten w n s :
  0 <= w < Z.of_nat n -> Z.of_nat n < 2 ^ 16 -> rtc (any_step w) (link_init n) s ->
  (forall k s', nsteps (link_step w) k s s' -> (k <= work w s)%nat) /\
  (connected s = true -> l_cmd (leader s) !! Z.to_nat w <> Some None -> w_open (worker s) = true -> (forall s', link_step w s s' -> False) ->
   forall id job, l_tracker (leader s) !! id = Some job -> ~ (w ∈ registered job) /\ ~ (w ∈ pending job)).
Proof.
  intros Hw Hn Hr. pose proof (reachable_link_inv w n s Hw Hn Hr) as Hs. split; [|intros; by eapply quiescent_done].
  intros k s' Hk. clear Hr. induction Hk as [s|k s s1 s2 Hstep Hk IH]; [lia|].
  pose proof (link_step_work w s s1 Hs Hstep). assert (link_inv w s1) as H1 by (by eapply any_step_inv; [|left]).
  specialize (IH H1). lia.
Qed.

(** A job for two workers, of which worker 0 has answered: nothing is left to do
    on its connection, and the job is still tracked, for worker 1 only. *)
Lemma no_job_forgotten_witness :
  exists s job, rtc (any_step 0) (link_init 2) s /\ connected s = true /\ l_tracker (leader s) !! 3 = Some job /\
    (forall s', link_step 0 s s' -> False) /\ 1 ∈ registered job /\ ~ (0 ∈ registered job) /\ ~ (0 ∈ pending job).
Proof.
  assert (exists s job, rtc (any_step 0) (link_init 2) s /\ connected s = true /\ l_tracker (leader s) !! 3 = Some job /\
    (forall s', link_step 0 s s' -> False) /\ 1 ∈ registered job /\
    l_cmd (leader s) !! 0%nat <> Some None /\ w_open (worker s) = true) as (s & job & Hs & Hc & Hj & Hq & H1 & Hcl & Ho).
  { eexists _, _. split_and!.
    - env_run env_reconnect. env_run (env_submit _ _ (JBroadcast (PBytes [1]) 9 3)).
      link_run link_write. link_run link_worker_read.
      link_run (link_answer _ _ [] (3, 0, PBytes [1]) [] (PBytes [42])).
      link_run link_worker_write. link_run link_read. link_run link_record. apply rtc_refl.
    - done.
    - vm_compute. reflexivity.
    - intros s' H. inversion H as [? ? ? Hc|? ? ? ? Hc|pre ? ? ? Hc|? ? ? Hc|? ? ? ? Hc|? Hc]; simplify_eq/=. by destruct pre.
    - vm_compute. reflexivity.
    - done.
    - done. }
  exists s, job. split_and!; try done; apply (proj2 (no_job_forgotten 0 2 s ltac:(lia) ltac:(lia) Hs) Hc Hcl Ho Hq 3 job Hj).
Defined.

(** When the application has dropped its handle, the worker notes the next job
    as pending, cannot hand it over, and closes the connection; after the
    reconnection it reports the job as pending, and nothing is left to do, while
    the leader waits for an answer that never comes. *)
Lemma refused_job_awaited :
  exists s job, rtc (any_step 0) (link_init 1) s /\ connected s = true /\ (forall s', link_step 0 s s' -> False) /\
    l_tracker (leader s) !! 3 = Some job /\ 0 ∈ pending job.
Proof.
  eexists _, _. split_and!.
  - env_run (env_drop_handle _ _ []). env_run env_reconnect. env_run (env_submit _ _ (JBroadcast (PBytes [1]) 9 3)).
    link_run link_write. env_run env_refused. env_run env_disconnect. env_run env_reconnect. apply rtc_refl.
  - done.
  - intros s' H. inversion H as [? ? ? Hc|? ? ? ? Hc|pre ? ? ? Hc|? ? ? Hc|? ? ? ? Hc|? Hc]; simplify_eq/=. by destruct pre.
  - vm_compute. reflexivity.
  - vm_compute. reflexivity.
Qed.

(** The reconciliation can overtake an answer that has arrived: the leader reads
    the worker's answer, the connection drops and is re-established before the
    leader task takes the answer from its queue, and the caller is told that the
    job was lost. *)
Lemma queued_answer_reported_lost :
  exists s, rtc (any_step 0) (link_init 1) s /\
    mkRsp (inr (PBytes [42])) 3 0 ∈ l_rsp (leader s) /\
    Delivered 9 (inr [mkRsp (inl (JobsLost 0 3)) 3 0]) ∈ l_out (leader s).
Proof.
  eexists. split_and!.
  - env_run env_reconnect. env_run (env_submit _ _ (JBroadcast (PBytes [1]) 9 3)).
    link_run link_write. link_run link_worker_read.
    link_run (link_answer _ _ [] (3, 0, PBytes [1]) [] (PBytes [42])).
    link_run link_worker_write. link_run link_read.
    env_run env_disconnect. env_run env_reconnect. apply rtc_refl.
  - by left.
  - by left.
Qed.
