(* ===== verification/WorkpoolTasks.v ===== *)
(** * The loops of the work pool: [leader/leader_task.rs], [leader/mod.rs],
    [worker/worker_task.rs], [worker/mod.rs]

    The leader runs a manager per worker and the worker a task; both connect,
    exchange the pending jobs, serve the connection until it breaks, and start
    again.  The two loops do not move together: one side may have left a
    connection that the other still writes to, a connection may be open on one
    side only, and the worker serves from the moment it has replied, before the
    leader has seen the reply.  The theorem relates them to the simpler system
    of WorkpoolLink.v, whose two ends are connected or not. *)

From S2P Require Import Prelude Party Value Net Workpool JobTracker WorkpoolLink.
From stdpp Require Import base list numbers strings sets gmap fin_maps relations.
From Stdlib Require Import ZArith Lia.
Local Open Scope Z_scope.

(** ** Handles *)

(* leader/mod.rs:93-99 LeaderHandle *)
Record LeaderHandle := mkLeaderHandle { next_job_id : Z; num_workers : nat }.

(** [addr]: the address parses; [listen]: the listener is created. *)
(* leader/mod.rs:212-263 build_leader_handle *)
Definition build_leader_handle (addr : result unit) (listen : result unit) (worker_ids : list Identity) : result (LeaderHandle * LeaderState) :=
  _ ← addr;
  _ ← listen;
  Ok (mkLeaderHandle 0 (length worker_ids), mkLeader ∅ (replicate (length worker_ids) (Some [])) [] []).

(* leader/mod.rs:73-80 JobHandle::cancel *)
Definition job_cancel (job_id : Z) : LeaderJob := JCancel job_id.

(** The outcome of awaiting a job: what the leader sent, or an error when it
    dropped the channel. *)
(* leader/mod.rs:86-90 JobHandle::poll *)
Definition job_poll (received : option (WorkpoolError + list WorkerRsp)) : WorkpoolError + list WorkerRsp :=
  default (inl SendFailed) received.

(** One look at the channels of the workers: whether each is connected ([None]:
    its manager is gone), whether the handle is cancelled, and which branch of
    the [select!] is taken when both could be. *)
Record look := mkLook { flags : list (option bool); cancelled : bool; prefer_cancel : bool }.

Fixpoint wait_from (idx : nat) (todo : nat) (l : look) : nat * option (WorkpoolError + unit) :=
  match todo with
  | O => (idx, Some (inr tt))
  | S todo =>
      if cancelled l && prefer_cancel l then (idx, Some (inl Cancelled)) else
      match flags l !! idx with
      | Some (Some true) => wait_from (S idx) todo l
      | Some None | None => (idx, Some (inl SendFailed))
      | Some (Some false) => (idx, if cancelled l then Some (inl Cancelled) else None)
      end
  end.

(** The loop over the looks it takes; [timeout]: the time is up when they end. *)
(* leader/mod.rs:187-209 LeaderHandle::wait_for_all_connections *)
Fixpoint wait_for_all_connections (idx n : nat) (timeout : bool) (looks : list look) : option (WorkpoolError + unit) :=
  match looks with
  | [] => if (n <=? idx)%nat then Some (inr tt) else if timeout then Some (inl Timeout_) else None
  | l :: looks =>
      match wait_from idx (n - idx) l with
      | (_, Some r) => Some r
      | (idx, None) => wait_for_all_connections idx n timeout looks
      end
  end.

(** ** The two loops *)

(** Where the manager of a worker is; [live]: the worker is, or was, at the
    other end of the connection. *)
Inductive mgr_phase := MConnecting | MHandshake (live : bool) | MServing | MStopped.
(** Where the worker is; in the handshake it holds the jobs it will report. *)
Inductive task_phase := TConnecting | THandshake (live : bool) (pending_job_ids : list Z) | TServing | TStopped.

(** The leader with the manager of worker [w] and the flag it publishes, the
    worker, and what is on the wires of their latest common connection. *)
Record Tasks := mkTasks {
  t_leader : LeaderState;
  t_mgr : mgr_phase;
  t_flag : bool;
  t_worker : WorkerState;
  t_task : task_phase;
  wire_down : list WpValue;  (* to the worker *)
  wire_up : list WpValue;    (* to the leader *)
}.

(* leader_task.rs:32-87 spawn *)
Definition tasks_init (num_workers : nat) : Tasks :=
  mkTasks (mkLeader ∅ (replicate num_workers (Some [])) [] []) MConnecting false (mkWorker ∅ [] [] true) TConnecting [] [].

(** [worker_mgr] returns and drops [cmd_rx]: commands sent from then on fail. *)
(* leader_task.rs:313-320 worker_mgr (shutdown) *)
Definition drop_commands (w : Z) (l : LeaderState) : LeaderState :=
  mkLeader (l_tracker l) (<[Z.to_nat w := None]> (l_cmd l)) (l_rsp l) (l_out l).

(** The manager.  A connection that opens with the worker at its other end is
    [tasks_connect]; one without is [mgr_connect_alone].  A failed attempt to
    connect changes nothing. *)
(* leader_task.rs:201-320 worker_mgr *)
Inductive mgr_step (w : Z) (s : Tasks) : Tasks -> Prop :=
| mgr_connect_alone :
    t_mgr s = MConnecting ->
    mgr_step w s (mkTasks (t_leader s) (MHandshake false) (t_flag s) (t_worker s) (t_task s) (wire_down s) (wire_up s))
| mgr_handshake w' ids q :
    t_mgr s = MHandshake true -> wire_up s = WPendingJobsReply w' ids :: q ->
    mgr_step w s (mkTasks (leader_reconcile w ids (t_leader s)) MServing true (t_worker s) (t_task s) (wire_down s) q)
| mgr_handshake_failed live :
    t_mgr s = MHandshake live ->
    mgr_step w s (mkTasks (t_leader s) MConnecting (t_flag s) (t_worker s) (t_task s) (wire_down s) (wire_up s))
| mgr_write msg q :
    t_mgr s = MServing -> l_cmd (t_leader s) !! Z.to_nat w = Some (Some (msg :: q)) ->
    mgr_step w s (mkTasks (mkLeader (leader_pre_send msg (l_tracker (t_leader s))) (<[Z.to_nat w := Some q]> (l_cmd (t_leader s)))
        (l_rsp (t_leader s)) (l_out (t_leader s))) MServing (t_flag s) (t_worker s) (t_task s) (wire_down s ++ [msg]) (wire_up s))
| mgr_read msg q rsp :
    t_mgr s = MServing -> wire_up s = msg :: q -> leader_forward_inbound_msg msg (l_rsp (t_leader s)) = Ok rsp ->
    mgr_step w s (mkTasks (mkLeader (l_tracker (t_leader s)) (l_cmd (t_leader s)) rsp (l_out (t_leader s))) MServing (t_flag s)
        (t_worker s) (t_task s) (wire_down s) q)
| mgr_closed :
    t_mgr s = MServing ->
    mgr_step w s (mkTasks (t_leader s) MConnecting false (t_worker s) (t_task s) (wire_down s) (wire_up s))
| mgr_shutdown :
    mgr_step w s (mkTasks (drop_commands w (t_leader s)) MStopped (match t_mgr s with MHandshake _ | MServing => false | _ => t_flag s end)
        (t_worker s) (t_task s) (wire_down s) (wire_up s)).

(** The worker. *)
(* worker_task.rs:49-170 worker_task *)
Inductive task_step (s : Tasks) : Tasks -> Prop :=
| task_connect_alone :
    t_task s = TConnecting ->
    task_step s (mkTasks (t_leader s) (t_mgr s) (t_flag s) (t_worker s) (THandshake false (elements (w_pending (t_worker s)))) (wire_down s) (wire_up s))
| task_handshake w' ids q :
    t_task s = THandshake true ids -> wire_down s = WPendingJobsRequest w' :: q ->
    task_step s (mkTasks (t_leader s) (t_mgr s) (t_flag s) (t_worker s) TServing q (wire_up s ++ [WPendingJobsReply w' ids]))
| task_handshake_failed live ids :
    t_task s = THandshake live ids ->
    task_step s (mkTasks (t_leader s) (t_mgr s) (t_flag s) (t_worker s) TConnecting (wire_down s) (wire_up s))
| task_write msg q :
    t_task s = TServing -> w_rsp (t_worker s) = msg :: q ->
    task_step s (mkTasks (t_leader s) (t_mgr s) (t_flag s) (mkWorker (worker_pre_send msg (w_pending (t_worker s))) (w_jobs (t_worker s)) q (w_open (t_worker s)))
        TServing (wire_down s) (wire_up s ++ [msg]))
| task_read msg q st :
    t_task s = TServing -> wire_down s = msg :: q -> worker_handle_inbound_msg msg (t_worker s) = (st, Ok tt) ->
    task_step s (mkTasks (t_leader s) (t_mgr s) (t_flag s) st TServing q (wire_up s))
| task_refused msg q st e :
    t_task s = TServing -> wire_down s = msg :: q -> worker_handle_inbound_msg msg (t_worker s) = (st, Err e) ->
    task_step s (mkTasks (t_leader s) (t_mgr s) (t_flag s) st TConnecting q (wire_up s))
| task_closed :
    t_task s = TServing ->
    task_step s (mkTasks (t_leader s) (t_mgr s) (t_flag s) (t_worker s) TConnecting (wire_down s) (wire_up s))
| task_shutdown :
    task_step s (mkTasks (t_leader s) (t_mgr s) (t_flag s) (t_worker s) TStopped (wire_down s) (wire_up s)).

(** The rest: a connection between the two, on which the leader at once sends
    its request; the application's answers, and that it drops its handle; the
    leader task; new jobs and the other workers. *)
Inductive pool_step (w : Z) (s : Tasks) : Tasks -> Prop :=
| tasks_connect :
    t_mgr s = MConnecting -> t_task s = TConnecting ->
    pool_step w s (mkTasks (t_leader s) (MHandshake true) (t_flag s) (t_worker s) (THandshake true (elements (w_pending (t_worker s))))
        [WPendingJobsRequest w] [])
| tasks_answer pre job post payload :
    w_jobs (t_worker s) = pre ++ job :: post ->
    pool_step w s (mkTasks (t_leader s) (t_mgr s) (t_flag s)
        (mkWorker (w_pending (t_worker s)) (pre ++ post) (send_result job payload (w_rsp (t_worker s))) (w_open (t_worker s))) (t_task s) (wire_down s) (wire_up s))
| tasks_drop_handle jobs :
    jobs `sublist_of` w_jobs (t_worker s) ->
    pool_step w s (mkTasks (t_leader s) (t_mgr s) (t_flag s) (mkWorker (w_pending (t_worker s)) jobs (w_rsp (t_worker s)) false)
        (t_task s) (wire_down s) (wire_up s))
| tasks_leader l :
    leader_take_response (t_leader s) = Some l ->
    pool_step w s (mkTasks l (t_mgr s) (t_flag s) (t_worker s) (t_task s) (wire_down s) (wire_up s))
| tasks_submit job :
    (forall id, (exists p tx, job = JBroadcast p tx id) \/ (exists m tx, job = JScatterGather m tx id) ->
       l_tracker (t_leader s) !! id = None) ->
    (forall m tx id, job = JScatterGather m tx id -> Forall (fun m => 0 <= wj_worker_id m) m) ->
    pool_step w s (mkTasks (send_to_workpool job (t_leader s)) (t_mgr s) (t_flag s) (t_worker s) (t_task s) (wire_down s) (wire_up s))
| tasks_other_send id w' :
    w' <> w -> pool_step w s (mkTasks (mkLeader (set_to_pending (l_tracker (t_leader s)) id w').1 (l_cmd (t_leader s))
        (l_rsp (t_leader s)) (l_out (t_leader s))) (t_mgr s) (t_flag s) (t_worker s) (t_task s) (wire_down s) (wire_up s))
| tasks_other_answer rsp :
    rsp_worker_id rsp <> w -> pool_step w s (mkTasks (mkLeader (l_tracker (t_leader s)) (l_cmd (t_leader s))
        (l_rsp (t_leader s) ++ [rsp]) (l_out (t_leader s))) (t_mgr s) (t_flag s) (t_worker s) (t_task s) (wire_down s) (wire_up s)).

Definition tasks_step (w : Z) (s s' : Tasks) : Prop := mgr_step w s s' \/ task_step s s' \/ pool_step w s s'.

(** ** The refinement *)

(** The answers that the worker has written and the abstract worker has not. *)
Definition written_worker (written : list WpValue) (a : WorkerState) : WorkerState -> Prop := fun c =>
  w_rsp a = written ++ w_rsp c /\ w_jobs a = w_jobs c /\ w_open a = w_open c /\ w_pending c = foldl (fun p m => worker_pre_send m p) (w_pending a) written.

Definition mgr_left (m : mgr_phase) : Prop := m <> MHandshake true /\ m <> MServing.
Definition task_left (t : task_phase) : Prop := t <> TServing /\ forall ids, t <> THandshake true ids.

(** - [rel_up]: the leader has reconciled on the latest connection, and one
      side is still on it;
    - [rel_lag]: the worker has replied, but the leader has not seen the reply,
      or left before; the abstract worker has not yet written its answers;
    - [rel_down]: otherwise. *)
Inductive rel (w : Z) (s : Tasks) (a : Link) : Prop :=
| rel_up :
    connected a = true -> worker a = t_worker s -> to_worker a = wire_down s -> to_leader a = wire_up s -> leader a = t_leader s ->
    (t_mgr s = MServing /\ (t_task s = TServing \/ task_left (t_task s)) \/ mgr_left (t_mgr s) /\ t_task s = TServing) -> rel w s a
| rel_lag written :
    connected a = false -> to_worker a = [] -> to_leader a = [] -> leader a = t_leader s -> written_worker written (worker a) (t_worker s) ->
    wire_down s = [] ->
    (t_mgr s = MHandshake true /\ (t_task s = TServing \/ task_left (t_task s)) /\
       wire_up s = WPendingJobsReply w (elements (w_pending (worker a))) :: written \/
     mgr_left (t_mgr s) /\ t_task s = TServing) -> rel w s a
| rel_down :
    connected a = false -> to_worker a = [] -> to_leader a = [] -> leader a = t_leader s -> worker a = t_worker s ->
    t_mgr s <> MServing -> t_task s <> TServing -> (t_mgr s = MHandshake true -> wire_up s = []) ->
    (forall ids, t_task s = THandshake true ids -> ids = elements (w_pending (t_worker s)) /\ wire_down s = [WPendingJobsRequest w] /\
       (t_mgr s = MHandshake true \/ mgr_left (t_mgr s))) -> rel w s a.

(** The abstract worker writes what the worker has written: to the leader when
    the connection is up, to nobody when it is down. *)
Lemma catch_up_writes w written a c :
  connected a = true -> written_worker written (worker a) c ->
  rtc (any_step w) a (mkLink (leader a) c (to_worker a) (to_leader a ++ written) true).
Proof.
  revert a. induction written as [|m written IH]; intros a Hc (Hr & Hj & Ho & Hp); cbn in *.
  - rewrite app_nil_r. destruct a as [l [p j r o] tw tl cn], c as [p' j' r' o']; cbn in *. by subst.
  - eapply rtc_l; [left; by apply (link_worker_write w a m (written ++ w_rsp c))|].
    pose proof (IH (mkLink (leader a) (mkWorker (worker_pre_send m (w_pending (worker a))) (w_jobs (worker a)) (written ++ w_rsp c) (w_open (worker a)))
      (to_worker a) (to_leader a ++ [m]) true) eq_refl ltac:(done)) as H. cbn in H. by rewrite <- app_assoc in H.
Qed.

Lemma catch_up_lost w written a c :
  connected a = false -> written_worker written (worker a) c ->
  rtc (any_step w) a (mkLink (leader a) c (to_worker a) (to_leader a) false).
Proof.
  revert a. induction written as [|m written IH]; intros a Hc (Hr & Hj & Ho & Hp); cbn in *.
  - destruct a as [l [p j r o] tw tl cn], c as [p' j' r' o']; cbn in *. by subst.
  - eapply rtc_l; [right; by apply (env_lost_answer w a m (written ++ w_rsp c))|]. by apply (IH (mkLink _ _ _ _ false)).
Qed.

(** A side leaves, and the other has left before. *)
Lemma both_left w s a m f t :
  rel w s a -> mgr_left m -> task_left t ->
  exists a', rtc (any_step w) a a' /\ rel w (mkTasks (t_leader s) m f (t_worker s) t (wire_down s) (wire_up s)) a'.
Proof.
  intros Hrel [Hm1 Hm2] [Ht1 Ht2].
  assert (forall a', connected a' = false -> to_worker a' = [] -> to_leader a' = [] -> leader a' = t_leader s -> worker a' = t_worker s ->
    rel w (mkTasks (t_leader s) m f (t_worker s) t (wire_down s) (wire_up s)) a') as Hdown.
  { intros a' Hd1 Hd2 Hd3 Hd4 Hd5. apply rel_down; cbn; try done. intros ids Hi. by destruct (Ht2 ids). }
  destruct Hrel as [Hc Hw _ _ Hl _|written Hc H1 H2 Hl Hw _ _|Hc H1 H2 Hl Hw _ _ _ _].
  - eexists. split; [apply rtc_once; right; apply (env_disconnect w a)|]. by apply Hdown.
  - eexists. split; [by apply (catch_up_lost w written a)|]. by apply Hdown.
  - exists a. split; [done|]. by apply Hdown.
Qed.

Lemma mgr_leaves w s a m f :
  rel w s a -> mgr_left m ->
  exists a', rtc (any_step w) a a' /\ rel w (mkTasks (t_leader s) m f (t_worker s) (t_task s) (wire_down s) (wire_up s)) a'.
Proof.
  intros Hrel Hm. pose proof Hrel as Hrel'.
  destruct Hrel' as [Hc Hw Hd Hu Hl [[_ [Ht|Ht]]|[_ Ht]]|written Hc Hd Hu Hl Hw Hdn [(_ & [Ht|Ht] & _)|[_ Ht]]|Hc Hd Hu Hl Hw H1 H2 H3 H4];
    try (by apply both_left); exists a; (split; [done|]).
  - apply rel_up; cbn; auto.
  - apply rel_up; cbn; auto.
  - eapply rel_lag; cbn; eauto.
  - eapply rel_lag; cbn; eauto.
  - destruct Hm as [Hm1 Hm2]. apply rel_down; cbn; try done. intros ids Hi. destruct (H4 ids Hi) as (? & ? & _). split_and!; [done|done|]. by right.
Qed.

(** A change of the leader's state alone. *)
Lemma rel_leader w s a l :
  rel w s a ->
  rel w (mkTasks l (t_mgr s) (t_flag s) (t_worker s) (t_task s) (wire_down s) (wire_up s)) (mkLink l (worker a) (to_worker a) (to_leader a) (connected a)).
Proof.
  intros [? ? ? ? ? ?|written ? ? ? ? ? ? ?|? ? ? ? ? ? ? ? ?]; [by apply rel_up|by eapply rel_lag|by apply rel_down].
Qed.

Lemma rel_leader_eq w s a : rel w s a -> leader a = t_leader s.
Proof. by destruct 1. Qed.

Lemma mgr_stops w s a f :
  rel w s a ->
  exists a', rtc (any_step w) a a' /\ rel w (mkTasks (drop_commands w (t_leader s)) MStopped f (t_worker s) (t_task s) (wire_down s) (wire_up s)) a'.
Proof.
  intros Hrel. destruct (mgr_leaves w s a MStopped f Hrel) as (a' & Ha & Hrel'); [done|].
  eexists. split; [eapply rtc_r; [exact Ha|right; apply (env_close w a')]|].
  pose proof (rel_leader_eq _ _ _ Hrel') as ->. by apply (rel_leader w _ a' (drop_commands w (t_leader s))) in Hrel'.
Qed.

Lemma task_leaves w s a t :
  rel w s a -> task_left t ->
  exists a', rtc (any_step w) a a' /\ rel w (mkTasks (t_leader s) (t_mgr s) (t_flag s) (t_worker s) t (wire_down s) (wire_up s)) a'.
Proof.
  intros Hrel Ht. pose proof Hrel as Hrel'.
  destruct Hrel' as [Hc Hw Hd Hu Hl [[Hm _]|[Hm _]]|written Hc Hd Hu Hl Hw Hdn [(Hm & _ & Hup)|[Hm _]]|Hc Hd Hu Hl Hw H1 H2 H3 H4];
    try (by apply both_left); exists a; (split; [done|]).
  - apply rel_up; cbn; auto.
  - eapply rel_lag; cbn; eauto.
  - destruct Ht as [Ht1 Ht2]. apply rel_down; cbn; try done. intros ids Hi. by destruct (Ht2 ids).
Qed.

Lemma mgr_sim w s s' a : rel w s a -> mgr_step w s s' -> exists a', rtc (any_step w) a a' /\ rel w s' a'.
Proof.
  intros Hrel Hstep. destruct Hstep as [Hm|w' ids q Hm Hq|live Hm|msg q Hm Hq|msg q rsp Hm Hq Hf|Hm|]; try (by apply mgr_leaves); [| | |by apply mgr_stops].
  - destruct Hrel as [? ? ? ? ? [[? _]|[[? _] _]]|written Hc Hd Hu Hl Hw Hdn [(_ & Ht & Hup)|[[? _] _]]|? ? ? ? ? ? ? Hh _]; try congruence.
    2: { rewrite (Hh Hm) in Hq. done. }
    rewrite Hup in Hq. injection Hq as <- <- <-. eexists. split.
    + eapply rtc_l; [right; by apply env_reconnect|]. apply (catch_up_writes w written); [done|exact Hw].
    + cbn. rewrite Hl. apply rel_up; cbn; auto.
  - destruct Hrel as [Hc Hw Hd Hu Hl [[_ Ht]|[[_ ?] _]]|? ? ? ? ? ? ? [(? & _)|[[_ ?] _]]|]; try congruence.
    eexists. split; [apply rtc_once; left; apply (link_write w a msg q); [done|by rewrite Hl]|].
    rewrite Hl, Hw, Hd, Hu. apply rel_up; cbn; auto.
  - destruct Hrel as [Hc Hw Hd Hu Hl [[_ Ht]|[[_ ?] _]]|? ? ? ? ? ? ? [(? & _)|[[_ ?] _]]|]; try congruence.
    eexists. split; [apply rtc_once; left; apply (link_read w a msg q rsp); [done|congruence|by rewrite Hl]|].
    rewrite Hl, Hw, Hd. apply rel_up; cbn; auto.
Qed.

Lemma task_sim w s s' a : rel w s a -> task_step s s' -> exists a', rtc (any_step w) a a' /\ rel w s' a'.
Proof.
  intros Hrel Hstep. destruct Hstep as [Ht|w' ids q Ht Hq|live ids Ht|msg q Ht Hq|msg q st Ht Hq Hh|msg q st e Ht Hq Hh|Ht|]; try (by apply task_leaves).
  - destruct Hrel as [? ? ? ? ? [[_ [?|[_ Hn]]]|[_ ?]]|? ? ? ? ? ? ? [(_ & [?|[_ Hn]] & _)|[_ ?]]|Hc Hd Hu Hl Hw H1 H2 H3 H4]; try congruence; try (by destruct (Hn ids)).
    destruct (H4 ids Ht) as (-> & Hdn & Hm). rewrite Hdn in Hq. injection Hq as <- <-. exists a. split; [done|].
    apply (rel_lag w _ a []); cbn; try done.
    + by rewrite Hw.
    + destruct Hm as [Hm|Hm]; [left|by right]. rewrite (H3 Hm), Hw. auto.
  - destruct Hrel as [Hc Hw Hd Hu Hl Hph|written Hc Hd Hu Hl (Hr & Hj & Ho & Hp) Hdn Hph|]; [| |congruence].
    + eexists. split; [apply rtc_once; left; apply (link_worker_write w a msg q); [done|by rewrite Hw]|].
      rewrite Hl, Hw, Hd, Hu. apply rel_up; cbn; auto. destruct Hph as [[? _]|[? _]]; auto.
    + exists a. split; [done|]. apply (rel_lag w _ a (written ++ [msg])); cbn; try done.
      * split_and!; cbn; [by rewrite <- app_assoc, Hr, Hq|done|done|by rewrite foldl_app, <- Hp].
      * destruct Hph as [(Hm & _ & Hup)|[Hm _]]; [left|by right]. rewrite Hup. auto.
  - destruct Hrel as [Hc Hw Hd Hu Hl Hph|written Hc Hd Hu Hl Hw Hdn Hph|]; [|congruence..].
    eexists. split; [apply rtc_once; left; apply (link_worker_read w a msg q st); [done|congruence|by rewrite Hw]|].
    rewrite Hl, Hu. apply rel_up; cbn; auto. destruct Hph as [[? _]|[? _]]; auto.
  - destruct Hrel as [Hc Hw Hd Hu Hl Hph|written Hc Hd Hu Hl Hw Hdn Hph|]; [|congruence..].
    assert (rel w (mkTasks (t_leader s) (t_mgr s) (t_flag s) st TServing q (wire_up s)) (mkLink (leader a) st q (to_leader a) true)) as Hrel.
    { rewrite Hl, Hu. apply rel_up; cbn; auto. destruct Hph as [[? _]|[? _]]; auto. }
    destruct (task_leaves _ _ _ TConnecting Hrel) as (a' & Ha & Hrel'); [done|]. exists a'. split; [|done].
    eapply rtc_l; [right; apply (env_refused w a msg q st e); [done|congruence|by rewrite Hw]|done].
Qed.

Lemma pool_sim w s s' a : rel w s a -> pool_step w s s' -> exists a', rtc (any_step w) a a' /\ rel w s' a'.
Proof.
  intros Hrel Hstep. pose proof (rel_leader_eq w s a Hrel) as El.
  destruct Hstep as [Hm Ht|pre job post payload Hj|jobs Hj|l Hl|job Hid Hpos|id w' Hw|rsp Hw].
  - destruct Hrel as [? ? ? ? ? [[? _]|[_ ?]]|written ? ? ? ? ? ? [(? & _)|[_ ?]]|Hc Hd Hu Hl Hw H1 H2 H3 H4]; try congruence.
    exists a. split; [done|]. apply rel_down; cbn; try done. intros ids [= <-]. auto.
  - destruct Hrel as [Hc Hw Hd Hu Hl Hph|written Hc Hd Hu Hl (Hr & Hjobs & Ho & Hp) Hdn Hph|Hc Hd Hu Hl Hw H1 H2 H3 H4].
    + eexists. split; [apply rtc_once; left; apply (link_answer w a pre job post payload); by rewrite Hw|]. rewrite Hl, Hw, Hd, Hu, Hc. by apply rel_up.
    + eexists. split; [apply rtc_once; left; apply (link_answer w a pre job post payload); by rewrite Hjobs|]. rewrite Hd, Hu, Hc, Hl.
      apply (rel_lag w _ _ written); cbn; try done. split_and!; cbn; [|done|done|done]. unfold send_result. destruct job as [[k wk] pl]. by rewrite Hr, app_assoc.
    + eexists. split; [apply rtc_once; left; apply (link_answer w a pre job post payload); by rewrite Hw|]. rewrite Hl, Hw, Hd, Hu, Hc. by apply rel_down.
  - destruct Hrel as [Hc Hw Hd Hu Hl Hph|written Hc Hd Hu Hl (Hr & Hjobs & Ho & Hp) Hdn Hph|Hc Hd Hu Hl Hw H1 H2 H3 H4].
    + eexists. split; [apply rtc_once; right; apply (env_drop_handle w a jobs); by rewrite Hw|]. rewrite Hl, Hw, Hd, Hu, Hc. by apply rel_up.
    + eexists. split; [apply rtc_once; right; apply (env_drop_handle w a jobs); by rewrite Hjobs|]. rewrite Hd, Hu, Hc, Hl.
      by apply (rel_lag w _ _ written).
    + eexists. split; [apply rtc_once; right; apply (env_drop_handle w a jobs); by rewrite Hw|]. rewrite Hl, Hw, Hd, Hu, Hc. by apply rel_down.
  - eexists. split; [apply rtc_once; left; apply (link_record w a l); by rewrite El|]. by apply rel_leader.
  - eexists. split; [apply rtc_once; right; apply (env_submit w a job); [by rewrite El|done]|]. rewrite El. by apply rel_leader.
  - eexists. split; [apply rtc_once; right; by apply (env_other_send w a id w')|]. rewrite El. by apply rel_leader.
  - eexists. split; [apply rtc_once; right; by apply (env_other_answer w a rsp)|]. rewrite El. by apply rel_leader.
Qed.

(** The flag the manager publishes is up exactly while it serves. *)
Lemma flag_step w s s' : (t_flag s = true <-> t_mgr s = MServing) -> tasks_step w s s' -> (t_flag s' = true <-> t_mgr s' = MServing).
Proof.
  intros Hf [H|[H|H]]; destruct H; cbn; try done; try (split; [intros HH; apply Hf in HH|]; congruence); try tauto.
  destruct (t_mgr s) eqn:E; split; try done; intros H0; apply Hf in H0; done.
Qed.

(** ** Claims *)

(** C33: The loops of the leader and of a worker refine the system of
    WorkpoolLink.v.  However their connections open and break, on one side
    before the other, on one side only, in the middle of the handshake or after
    the worker has begun to answer, the leader's state is one that the simple
    system reaches, its view of the worker being brought up to date at every
    handshake; and while the manager tells the callers that the worker is
    connected, every job that the leader awaits from this worker is on its way,
    at the worker, or among the answers. *)
Theorem tasks_refine_link w n s :
  0 <= w < Z.of_nat n -> Z.of_nat n < 2 ^ 16 -> rtc (tasks_step w) (tasks_init n) s ->
  exists a, rtc (any_step w) (link_init n) a /\ rel w s a /\ leader a = t_leader s /\ (t_flag s = true <-> t_mgr s = MServing) /\
    (t_flag s = true -> worker a = t_worker s /\
      forall id job, l_tracker (t_leader s) !! id = Some job -> w ∈ pending job ->
        id ∈ jobs_of (wire_down s) \/ id ∈ w_pending (t_worker s) \/ id ∈ jobs_of (wire_up s) \/
        exists r, r ∈ l_rsp (t_leader s) /\ rsp_worker_id r = w /\ rsp_job_id r = id).
Proof.
  intros Hw Hn Hr.
  assert (exists a, rtc (any_step w) (link_init n) a /\ rel w s a /\ (t_flag s = true <-> t_mgr s = MServing)) as (a & Ha & Hrel & Hf).
  { revert s Hr. apply (rtc_ind_r (R := tasks_step w) (fun s => exists a, rtc (any_step w) (link_init n) a /\ rel w s a /\ (t_flag s = true <-> t_mgr s = MServing)));
      [|intros s1 s2 _ Hs (a & Ha & Hrel & Hf)].
    - exists (link_init n). split_and!; [done| |done]. by apply rel_down.
    - assert (exists a', rtc (any_step w) a a' /\ rel w s2 a') as (a' & Ha' & Hrel').
      { destruct Hs as [Hs|[Hs|Hs]]; [by eapply mgr_sim|by eapply task_sim|by eapply pool_sim]. }
      exists a'. split_and!; [by transitivity a|done|by eapply flag_step]. }
  exists a. split_and!; [done|done|by apply rel_leader_eq in Hrel|apply Hf|]. intros Hflag. apply Hf in Hflag.
  destruct Hrel as [Hc Hwk Hd Hu Hl _|? ? ? ? ? ? ? [(? & _)|[[_ ?] _]]|]; try congruence. split; [done|]. intros id job Hj Hp.
  pose proof (li_pending _ _ (reachable_link_inv w n a Hw Hn Ha) id job Hc ltac:(by rewrite Hl) Hp) as Hin.
  unfold in_flight in Hin. by rewrite Hd, Hwk, Hu, Hl in Hin.
Qed.

(** A run in which the worker replies and the leader sends it a job. *)
Lemma tasks_refine_link_witness :
  exists s, rtc (tasks_step 0) (tasks_init 2) s /\ t_flag s = true /\ 3 ∈ jobs_of (wire_down s) /\
    exists a, rtc (any_step 0) (link_init 2) a /\ leader a = t_leader s /\ worker a = t_worker s.
Proof.
  assert (exists s, rtc (tasks_step 0) (tasks_init 2) s /\ t_flag s = true /\ 3 ∈ jobs_of (wire_down s)) as (s & Hs & Hf & Hj).
  { eexists. split.
    - eapply rtc_l; [right; right; by apply tasks_connect|]. eapply rtc_l; [right; left; by eapply task_handshake|].
      eapply rtc_l; [left; by eapply mgr_handshake|].
      eapply rtc_l; [right; right; apply (tasks_submit _ _ (JBroadcast (PBytes [1]) 9 3)); done|].
      eapply rtc_l; [left; by eapply mgr_write|]. apply rtc_refl.
    - split; [done|]. by left. }
  exists s. split_and!; [done..|]. destruct (tasks_refine_link 0 2 s ltac:(lia) ltac:(lia) Hs) as (a & Ha & _ & Hl & _ & Hw).
  exists a. split_and!; [done|done|]. by apply Hw.
Defined.

(** ** Waiting for the workers *)

Lemma wait_from_seen idx todo l idx' r :
  wait_from idx todo l = (idx', r) ->
  (idx <= idx')%nat /\ (forall i, (idx <= i < idx')%nat -> flags l !! i = Some (Some true)) /\ (r = Some (inr tt) -> idx' = (idx + todo)%nat).
Proof.
  revert idx. induction todo as [|todo IH]; intros idx; cbn; [intros [= <- <-]; split_and!; intros; lia|].
  destruct (_ && _); [intros [= <- <-]; split_and!; [lia|lia|done]|].
  destruct (flags l !! idx) as [[[]|]|] eqn:E.
  - intros (H1 & H2 & H3)%IH. split_and!; [lia| |intros ?%H3; lia]. intros i Hi. destruct (decide (i = idx)) as [->|]; [done|]. apply H2. lia.
  - intros [= <- <-]. split_and!; [lia|lia|by destruct (cancelled l)].
  - intros [= <- <-]. split_and!; [lia|lia|done].
  - intros [= <- <-]. split_and!; [lia|lia|done].
Qed.

(** When the wait succeeds, every worker has been connected, the workers in
    their order; not necessarily all at the same time. *)
Theorem wait_ok_seen n timeout looks idx :
  wait_for_all_connections idx n timeout looks = Some (inr tt) ->
  forall i, (idx <= i < n)%nat -> exists l, l ∈ looks /\ flags l !! i = Some (Some true).
Proof.
  revert idx. induction looks as [|l looks IH]; intros idx; cbn.
  - destruct (Nat.leb_spec n idx); [intros; lia|]. by destruct timeout.
  - destruct (wait_from idx (n - idx) l) as [idx' [r|]] eqn:E; apply wait_from_seen in E as (H1 & H2 & H3).
    + intros [= ->] i Hi. exists l. split; [by left|]. apply H2. specialize (H3 eq_refl). lia.
    + intros Hw i Hi. destruct (decide (i < idx')%nat) as [Hlt|]; [exists l; split; [by left|apply H2; lia]|].
      destruct (IH idx' Hw i) as (l' & Hl' & Hf); [lia|]. exists l'. split; [by right|done].
Qed.

Example wait_not_at_once :
  wait_for_all_connections 0 2 false [mkLook [Some true; Some false] false false; mkLook [Some false; Some true] false false] = Some (inr tt).
Proof. reflexivity. Qed.
