(* ===== verification/Shuffle.v ===== *)
(** * Oblivious shuffle: [ampc-actor-utils/src/protocol/shuffle.rs]

    Three parties permute batches of shared entries by a permutation of which
    each knows two of three factors.  The correctness theorem says that the
    outcome is a sharing of the permuted batches: first what the parties
    compute, as gathers of flat vectors, then the run over the network. *)

From S2P Require Import Prelude IntRing RingImpl Party Share VecShare Transpose Value Net Prf Proto Circuits Binary Adder Inject Convert Ops Select.
From stdpp Require Import option base list numbers strings gmap.
From Stdlib Require Import ZArith Lia.
Local Open Scope Z_scope.

(** ** Definitions *)

(* shuffle.rs:39-53 shuffle_triplets *)
Definition shuffle_triplets (perm : list Z) (data : list Z) (batch_size : nat) : result (list Z) :=
  batches ← chunks_checked (batch_size * 3) data;
  res ← mapM_result (fun batch => mapM_result (fun i =>
      let start := (Z.to_nat i * 3)%nat in slice batch start (start + 3)) perm) batches;
  Ok (concat (concat res)).

Section Protocol.
Context {R : Rng}.

(** [session.prf.gen_permutation(size)?]; [fuel] bounds the rejected draws of
    one sample. *)
Definition with_permutation (fuel : nat) (size : Z) : M R (list Z * list Z) := fun s =>
  match gen_permutation R fuel size (prf s) with
  | Some (Ok (x, p)) => Ret (with_prf s p, x)
  | Some (Err e) => Raise e
  | None => Raise (Panic "out of fuel")
  end.

(** [(0..n).map(|_| prf.gen_rands()).unzip()]. *)
Fixpoint gen_rands_many (T : IntRing2k) (n : nat) (p : Prf R) : (list Z * list Z) * Prf R :=
  match n with
  | O => (([], []), p)
  | S n => let '((a, b), p) := gen_rands R T p in
           let '((la, lb), p) := gen_rands_many T n p in ((a :: la, b :: lb), p)
  end.

(** The components of the shares, entry by entry. *)
Definition flat_a (distances : list IdDistance) : list Z :=
  concat ((fun '(id, d) => [sa id; sa (code_dot d); sa (mask_dot d)]) <$> distances).
Definition flat_b (distances : list IdDistance) : list Z :=
  concat ((fun '(id, d) => [sb id; sb (code_dot d); sb (mask_dot d)]) <$> distances).

(* shuffle.rs:136-175 shuffle_party_0 *)
Definition shuffle_party_0 (T : NetworkInt) (fuel : nat) (distances : list IdDistance) (batch_size : nat)
    : M R (list IdDistance) :=
  let n := length distances in
  '(pi_01, pi_20) ← with_permutation fuel (Z.of_nat batch_size);
  let a := flat_a distances in
  let b := flat_b distances in
  '(z01, z20) ← with_rng (gen_rands_many T (length a));
  x0 ← liftr (ab ← vec_add T a b; v ← vec_add T ab z01; shuffle_triplets pi_01 v batch_size);
  x1 ← liftr (v ← vec_add T x0 z20; shuffle_triplets pi_20 v batch_size);
  _ ← net (fun n => send_ring_vec_next T n x1);
  '(tilde_b, tilde_a) ← with_rng (gen_rands_many T (3 * n));
  mret (reconstruct_id_distance_vector tilde_b tilde_a).

(* shuffle.rs:177-233 shuffle_party_1 *)
Definition shuffle_party_1 (T : NetworkInt) (fuel : nat) (distances : list IdDistance) (batch_size : nat)
    : M R (list IdDistance) :=
  '(pi_12, pi_01) ← with_permutation fuel (Z.of_nat batch_size);
  let c := flat_a distances in
  '(z12, z01) ← with_rng (gen_rands_many T (length c));
  y0 ← liftr (v ← vec_sub T c z01; shuffle_triplets pi_01 v batch_size);
  _ ← net (fun n => send_ring_vec_next T n y0);
  x1 ← net (fun n => receive_ring_vec_prev T n);
  x2 ← liftr (v ← vec_add T x1 z12; shuffle_triplets pi_12 v batch_size);
  tilde_b ← with_rng (gen_from_prev T (length x2));
  tilde_c1 ← liftr (vec_sub T x2 tilde_b);
  _ ← net (fun n => send_ring_vec_next T n tilde_c1);
  tilde_c2 ← net (fun n => receive_ring_vec_next T n);
  tilde_c ← liftr (vec_add T tilde_c1 tilde_c2);
  mret (reconstruct_id_distance_vector tilde_c tilde_b).

(* shuffle.rs:235-281 shuffle_party_2 *)
Definition shuffle_party_2 (T : NetworkInt) (fuel : nat) (distances : list IdDistance) (batch_size : nat)
    : M R (list IdDistance) :=
  let n := length distances in
  '(pi_20, pi_12) ← with_permutation fuel (Z.of_nat batch_size);
  '(z20, z12) ← with_rng (gen_rands_many T (3 * n));
  y0 ← net (fun n => receive_ring_vec_prev T n);
  y1 ← liftr (v ← vec_sub T y0 z20; shuffle_triplets pi_20 v batch_size);
  y2 ← liftr (v ← vec_sub T y1 z12; shuffle_triplets pi_12 v batch_size);
  tilde_a ← with_rng (gen_from_my T (length y2));
  tilde_c2 ← liftr (vec_sub T y2 tilde_a);
  _ ← net (fun n => send_ring_vec_prev T n tilde_c2);
  tilde_c1 ← net (fun n => receive_ring_vec_prev T n);
  tilde_c ← liftr (vec_add T tilde_c1 tilde_c2);
  mret (reconstruct_id_distance_vector tilde_a tilde_c).

(** [(session_id + own_role as u32) % 3] in 32-bit arithmetic: the sum wraps
    around in a release build. *)
Definition shuffle_role (s : NetworkSession) : Z := ((session_id s + role_index (own_role s)) mod 2 ^ 32) mod 3.

(* shuffle.rs:97-134 random_shuffle_batch *)
Definition random_shuffle_batch (T : NetworkInt) (fuel : nat) (distances : list (list IdDistance))
    : M R (list (list IdDistance)) :=
  if (length distances =? 0)%nat then liftr (bail "Input distances cannot be empty") else
  first ← liftr (index distances 0);
  let batch_size := length first in
  if negb (forallb (fun batch => length batch =? batch_size)%nat distances)
  then liftr (bail "All batches must have the same length") else
  let flattened_distances := concat distances in
  s ← get;
  let role := shuffle_role (network_session s) in
  flattened_results ←
    (if Z.eqb role 0 then shuffle_party_0 T fuel flattened_distances batch_size
     else if Z.eqb role 1 then shuffle_party_1 T fuel flattened_distances batch_size
     else if Z.eqb role 2 then shuffle_party_2 T fuel flattened_distances batch_size
     else liftr (bail "Invalid shuffle role"));
  liftr (chunks_checked batch_size flattened_results).
End Protocol.

(** ** Shuffling is gathering *)

Definition gather (idx : list nat) (l : list Z) : list Z := (fun j => default 0 (l !! j)) <$> idx.

(** The positions of the triplets [perm] selects, in [k] batches. *)
Definition triplet_idx (perm : list Z) : list nat :=
  concat ((fun i => [Z.to_nat i * 3; Z.to_nat i * 3 + 1; Z.to_nat i * 3 + 2]%nat) <$> perm).
Fixpoint shuffle_idx (perm : list Z) (bs k : nat) : list nat :=
  match k with
  | O => []
  | S k => triplet_idx perm ++ (Nat.add (bs * 3) <$> shuffle_idx perm bs k)
  end.

Definition perm_ok (bs : nat) (perm : list Z) : Prop :=
  length perm = bs /\ Forall (fun i => 0 <= i < Z.of_nat bs) perm.

Lemma gather_app idx1 idx2 l : gather (idx1 ++ idx2) l = gather idx1 l ++ gather idx2 l.
Proof. apply fmap_app. Qed.
Lemma gather_shift m idx l : gather (Nat.add m <$> idx) l = gather idx (drop m l).
Proof.
  unfold gather. rewrite <- list_fmap_compose. apply list_fmap_ext. intros k j _. cbn. by rewrite lookup_drop.
Qed.
Lemma length_gather idx l : length (gather idx l) = length idx.
Proof. apply length_fmap. Qed.

Lemma gather_zip f idx a b :
  length a = length b -> Forall (fun j => (j < length a)%nat) idx ->
  gather idx (zip_with f a b) = zip_with f (gather idx a) (gather idx b).
Proof.
  intros Hl. induction 1 as [|j idx Hj Hidx IH]; [done|]. unfold gather in *. rewrite !fmap_cons. cbn [zip_with].
  rewrite IH. f_equal. rewrite lookup_zip_with.
  destruct (lookup_lt_is_Some_2 a j Hj) as [x ->]. by destruct (lookup_lt_is_Some_2 b j ltac:(lia)) as [y ->].
Qed.

Lemma gather_valid T `{!IntRing2kOk T} idx l : Forall (valid T) l -> Forall (valid T) (gather idx l).
Proof.
  intros Hl. apply Forall_fmap, Forall_true. intros j. cbn. destruct (l !! j) eqn:E; [by apply (Forall_lookup_1 _ _ _ _ Hl E)|].
  apply (valid_b2z (T:=T) false).
Qed.

Lemma shuffle_idx_bound perm bs k :
  perm_ok bs perm -> length (shuffle_idx perm bs k) = (k * (bs * 3))%nat /\
    Forall (fun j => (j < k * (bs * 3))%nat) (shuffle_idx perm bs k).
Proof.
  intros [Hl Hp]. assert (length (triplet_idx perm) = bs * 3 /\ Forall (fun j => (j < bs * 3)%nat) (triplet_idx perm))%nat as [Tl Tf].
  { rewrite <- Hl. split.
    - unfold triplet_idx. rewrite (length_concat_const 3), length_fmap; [done|]. by apply Forall_fmap, Forall_true.
    - rewrite Hl. unfold triplet_idx. apply Forall_concat, Forall_fmap. eapply Forall_impl; [exact Hp|]. intros i Hi.
      repeat (apply Forall_cons_2; [cbn in *; lia|]). apply Forall_nil_2. }
  induction k as [|k [IHl IHf]]; [by split|]. cbn [shuffle_idx]. split.
  - rewrite length_app, length_fmap, Tl, IHl. lia.
  - apply Forall_app. split; [eapply Forall_impl; [exact Tf|]; cbn; lia|].
    apply Forall_fmap. eapply Forall_impl; [exact IHf|]. cbn. lia.
Qed.

Lemma slice3 (l : list Z) j : (j + 3 <= length l)%nat -> slice l j (j + 3) = Ok (gather [j; j + 1; j + 2]%nat l).
Proof.
  intros Hj. rewrite slice_ok by lia. replace (j + 3 - j)%nat with 3%nat by lia. f_equal.
  destruct (lookup_lt_is_Some_2 l j ltac:(lia)) as [x Ex], (lookup_lt_is_Some_2 l (j + 1) ltac:(lia)) as [y Ey],
    (lookup_lt_is_Some_2 l (j + 2) ltac:(lia)) as [z Ez].
  unfold gather. cbn. rewrite Ex, Ey, Ez. rewrite (drop_S l x j Ex). cbn [take]. f_equal.
  rewrite (drop_S l y (S j)) by (by rewrite <- Ey; f_equal; lia). cbn [take]. f_equal.
  rewrite (drop_S l z (S (S j))) by (rewrite <- Ez; f_equal; lia). done.
Qed.

Lemma shuffle_batch perm bs (batch : list Z) :
  Forall (fun i => 0 <= i < Z.of_nat bs) perm -> length batch = (bs * 3)%nat ->
  mapM_result (fun i => slice batch (Z.to_nat i * 3) (Z.to_nat i * 3 + 3)) perm
  = Ok ((fun i => gather [Z.to_nat i * 3; Z.to_nat i * 3 + 1; Z.to_nat i * 3 + 2]%nat batch) <$> perm).
Proof.
  intros Hp Hl. apply (mapM_result_ok _ (fun i => gather [Z.to_nat i * 3; Z.to_nat i * 3 + 1; Z.to_nat i * 3 + 2]%nat batch)).
  intros i Hi. rewrite Forall_forall in Hp. specialize (Hp i Hi). apply slice3. lia.
Qed.

Lemma gather_triplets perm l :
  gather (triplet_idx perm) l
  = concat ((fun i => gather [Z.to_nat i * 3; Z.to_nat i * 3 + 1; Z.to_nat i * 3 + 2]%nat l) <$> perm).
Proof. induction perm as [|i perm IH]; [done|]. unfold triplet_idx in *. rewrite !fmap_cons. cbn [concat]. by rewrite gather_app, IH. Qed.

Lemma gather_take idx n l : Forall (fun j => (j < n)%nat) idx -> gather idx (take n l) = gather idx l.
Proof.
  intros H. apply list_fmap_ext. intros k j Hj. rewrite lookup_take_lt; [done|]. by apply (Forall_lookup_1 _ _ _ _ H Hj).
Qed.

Lemma shuffle_triplets_gather perm bs k data :
  (0 < bs)%nat -> perm_ok bs perm -> length data = (k * (bs * 3))%nat ->
  shuffle_triplets perm data bs = Ok (gather (shuffle_idx perm bs k) data).
Proof.
  intros Hbs Hp Hl. unfold shuffle_triplets, chunks_checked. rewrite (proj2 (Nat.eqb_neq _ _)) by lia. cbn [mbind result_bind].
  assert (exists res, mapM_result (fun batch => mapM_result (fun i => slice batch (Z.to_nat i * 3) (Z.to_nat i * 3 + 3)) perm)
    (chunks (bs * 3) data) = Ok res /\ concat (concat res) = gather (shuffle_idx perm bs k) data) as (res & E & Eg);
    [|cbn zeta; rewrite E; cbn; by rewrite Eg].
  revert data Hl. induction k as [|k IH]; intros data Hl; [destruct data; [by exists []|done]|].
  rewrite chunks_cons by first [lia|intros ->; cbn in Hl; lia].
  destruct (IH (drop (bs * 3) data)) as (res & E & Eg); [rewrite length_drop; lia|].
  eexists. cbn [mapM_result]. rewrite (shuffle_batch perm bs) by first [apply Hp|rewrite length_take; lia].
  cbn [mbind result_bind]. rewrite E. cbn [mbind result_bind]. split; [reflexivity|].
  cbn [concat shuffle_idx]. rewrite concat_app, Eg, gather_app, gather_shift, <- gather_triplets. f_equal.
  apply gather_take. destruct (shuffle_idx_bound perm bs 1 Hp) as [_ H]. cbn [shuffle_idx] in H.
  apply Forall_app in H as [H _]. eapply Forall_impl; [exact H|]. cbn. lia.
Qed.

(** ** What the parties compute *)

Definition at_ (l : list Z) (j : nat) : Z := default 0 (l !! j).

Lemma at_zip f a b j : (j < length a)%nat -> (j < length b)%nat -> at_ (zip_with f a b) j = f (at_ a j) (at_ b j).
Proof.
  intros Ha Hb. unfold at_. rewrite lookup_zip_with.
  destruct (lookup_lt_is_Some_2 a j Ha) as [x ->]. by destruct (lookup_lt_is_Some_2 b j Hb) as [y ->].
Qed.

Lemma at_gather idx l j : (j < length idx)%nat -> at_ (gather idx l) j = at_ l (default 0%nat (idx !! j)).
Proof. intros H. unfold at_, gather. rewrite list_lookup_fmap. by destruct (lookup_lt_is_Some_2 idx j H) as [i ->]. Qed.

Lemma at_valid T `{!IntRing2kOk T} l j : Forall (valid T) l -> valid T (at_ l j).
Proof.
  intros Hl. unfold at_. destruct (l !! j) eqn:E; [by apply (Forall_lookup_1 _ _ _ _ Hl E)|apply (valid_b2z (T:=T) false)].
Qed.

Lemma tvec_at (P : tri Z -> Z -> Prop) v xs n :
  (forall i, length (v @ i) = n) -> length xs = n ->
  (forall j, (j < n)%nat -> P (tof (fun i => at_ (v @ i) j)) (at_ xs j)) -> tvec P v xs.
Proof.
  intros Hv Hx H. apply tvec_intro; [intros i; by rewrite Hv|]. intros k x Hk.
  assert (k < n)%nat as Hlt by (rewrite <- Hx; by eapply lookup_lt_Some).
  exists (tof (fun i => at_ (v @ i) k)). split.
  - intros i. rewrite tget_tof. unfold at_. by destruct (lookup_lt_is_Some_2 (v @ i) k ltac:(by rewrite Hv)) as [y ->].
  - specialize (H k Hlt). unfold at_ at 2 in H. by rewrite Hk in H.
Qed.

Lemma at_bound (idx : list nat) n j :
  Forall (fun i => (i < n)%nat) idx -> (j < length idx)%nat -> (default 0%nat (idx !! j) < n)%nat.
Proof. intros H Hj. destruct (lookup_lt_is_Some_2 idx j Hj) as [i E]. rewrite E. by apply (Forall_lookup_1 _ _ _ _ H E). Qed.

Lemma sum3_parties {T} p0 (t : tri Z) : sum3 T t = (t @ p0 + t @ (next_id p0) + t @ (prev_id p0)) mod 2 ^ K T.
Proof. unfold sum3. f_equal. destruct p0; cbn; lia. Qed.
Lemma sum3_by_role {T} p0 (u v w : list Z) j :
  sum3 T (tof (fun i => at_ ((by_role p0 u v w) @ i) j)) = (at_ u j + at_ v j + at_ w j) mod 2 ^ K T.
Proof. rewrite (sum3_parties p0), !tget_tof, by_role_0, by_role_1, by_role_2. done. Qed.

Section Algebra.
Context {T : IntRing2k} {HT : IntRing2kOk T} (n : nat) (i01 i20 i12 : list nat).
Context (H01 : length i01 = n /\ Forall (fun j => (j < n)%nat) i01).
Context (H20 : length i20 = n /\ Forall (fun j => (j < n)%nat) i20).
Context (H12 : length i12 = n /\ Forall (fun j => (j < n)%nat) i12).
Context (c : tri (list Z)) (z0 z1 z2 ta tb : list Z).
Context (Hc : forall i, length (c @ i) = n /\ Forall (valid T) (c @ i)).
Context (Hz0 : length z0 = n /\ Forall (valid T) z0) (Hz1 : length z1 = n /\ Forall (valid T) z1)
        (Hz2 : length z2 = n /\ Forall (valid T) z2).
Context (Ha : length ta = n /\ Forall (valid T) ta) (Hb : length tb = n /\ Forall (valid T) tb).
Context (p0 : PartyID).

Definition x1_ := gather i20 (zip_with (re_add T) (gather i01
  (zip_with (re_add T) (zip_with (re_add T) (c @ p0) (c @ (prev_id p0))) z0)) z2).
Definition x2_ := gather i12 (zip_with (re_add T) x1_ z1).
Definition y0_ := gather i01 (zip_with (re_sub T) (c @ (next_id p0)) z0).
Definition y2_ := gather i12 (zip_with (re_sub T) (gather i20 (zip_with (re_sub T) y0_ z2)) z1).
Definition c1_ := zip_with (re_sub T) x2_ tb.
Definition c2_ := zip_with (re_sub T) y2_ ta.
Definition tc_ := zip_with (re_add T) c1_ c2_.

Lemma shuffle_lengths : length x1_ = n /\ length x2_ = n /\ length y0_ = n /\ length y2_ = n /\
  length c1_ = n /\ length c2_ = n /\ length tc_ = n.
Proof.
  unfold tc_, c1_, c2_, x2_, y2_, x1_, y0_. rewrite !length_zip_with, !length_gather.
  destruct H01, H20, H12, Ha, Hb. lia.
Qed.

Lemma zip_valid (f : Z -> Z -> Z) a b :
  (forall x y, valid T x -> valid T y -> valid T (f x y)) -> Forall (valid T) a -> Forall (valid T) b ->
  Forall (valid T) (zip_with f a b).
Proof.
  intros Hf Va. revert b. induction Va as [|x a Hx Va IH]; intros b Vb; [constructor|].
  destruct Vb; [constructor|]. cbn. constructor; auto.
Qed.

Lemma shuffle_valid : Forall (valid T) x1_ /\ Forall (valid T) x2_ /\ Forall (valid T) y0_ /\ Forall (valid T) y2_ /\
  Forall (valid T) c1_ /\ Forall (valid T) c2_ /\ Forall (valid T) tc_.
Proof.
  assert (Forall (valid T) x1_) as V1.
  { unfold x1_. repeat first [apply (gather_valid T)|apply zip_valid; [apply re_add_valid| |]]; first [done|apply Hc|apply Hz0|apply Hz2]. }
  assert (Forall (valid T) x2_) as V2 by (apply (gather_valid T); [apply zip_valid; [apply re_add_valid|done|apply Hz1]]).
  assert (Forall (valid T) y0_) as V3 by (apply (gather_valid T); [apply zip_valid; [apply re_sub_valid|apply Hc|apply Hz0]]).
  assert (Forall (valid T) y2_) as V4.
  { unfold y2_. repeat first [exact V3|apply (gather_valid T)|apply zip_valid; [apply re_sub_valid| |]]; first [apply Hz1|apply Hz2]. }
  assert (Forall (valid T) c1_) as V5 by (apply zip_valid; [apply re_sub_valid|done|apply Hb]).
  assert (Forall (valid T) c2_) as V6 by (apply zip_valid; [apply re_sub_valid|done|apply Ha]).
  split_and!; try done. by apply zip_valid; [apply re_add_valid| |].
Qed.

(** The three components of the outcome add up to the permuted sum. *)
Lemma shuffle_sums (sums : list Z) :
  tvec (add3 T) c sums ->
  tvec (add3 T) (by_role p0 tb tc_ ta) (gather i12 (gather i20 (gather i01 sums))).
Proof.
  intros Hs. destruct shuffle_lengths as (L1 & L2 & L3 & L4 & L5 & L6 & L7). destruct shuffle_valid as (V1 & V2 & V3 & V4 & V5 & V6 & V7).
  assert (length sums = n) as Ls by (rewrite <- (tvec_length _ _ _ ID0 Hs); apply Hc).
  apply (tvec_at _ _ _ n); [intros i; destruct Ha, Hb; by destruct i, p0|by rewrite !length_gather; apply H12|].
  intros j Hj. set (a := default 0%nat (i12 !! j)). set (b := default 0%nat (i20 !! a)). set (d := default 0%nat (i01 !! b)).
  assert (a < n)%nat as La by (apply at_bound; [apply H12|destruct H12; lia]).
  assert (b < n)%nat as Lb by (apply at_bound; [apply H20|destruct H20; lia]).
  assert (d < n)%nat as Ld by (apply at_bound; [apply H01|destruct H01; lia]).
  assert (at_ (gather i12 (gather i20 (gather i01 sums))) j = at_ sums d) as ->.
  { destruct H01, H20, H12. rewrite at_gather by lia. fold a. rewrite at_gather by lia. fold b. by rewrite at_gather by lia. }
  assert (add3 T (tof (fun i => at_ (c @ i) d)) (at_ sums d)) as [_ Hsum].
  { destruct (lookup_lt_is_Some_2 sums d ltac:(lia)) as [x Ex]. destruct (tvec_lookup _ _ _ _ _ Hs Ex) as (t & Ht & HP).
    unfold at_. rewrite Ex. cbn. replace (tof _) with t; [done|]. apply tri_ext. intros i. by rewrite tget_tof, Ht. }
  split.
  - intros i. rewrite tget_tof. destruct Ha, Hb. destruct i, p0; cbn; apply at_valid; done.
  - rewrite <- Hsum.
    assert (at_ tc_ j = (at_ x2_ j ⊖[T] at_ tb j) +[T] (at_ y2_ j ⊖[T] at_ ta j)) as Etc.
    { unfold tc_, c1_, c2_. destruct Ha, Hb. rewrite at_zip, at_zip, at_zip by (rewrite ?length_zip_with; lia). done. }
    assert (at_ x2_ j = at_ (c @ p0) d +[T] at_ (c @ (prev_id p0)) d +[T] at_ z0 d +[T] at_ z2 b +[T] at_ z1 a) as Ex.
    { unfold x2_, x1_. destruct H01, H20, H12, Hz0, Hz1, Hz2. pose proof (proj1 (Hc p0)). pose proof (proj1 (Hc (prev_id p0))).
      repeat first [rewrite at_gather by (fold a; fold b; lia); fold a; fold b; fold d|rewrite at_zip by (rewrite ?length_gather, ?length_zip_with; lia)]. done. }
    assert (at_ y2_ j = (at_ (c @ (next_id p0)) d ⊖[T] at_ z0 d) ⊖[T] at_ z2 b ⊖[T] at_ z1 a) as Ey.
    { unfold y2_, y0_. destruct H01, H20, H12, Hz0, Hz1, Hz2. pose proof (proj1 (Hc (next_id p0))).
      repeat first [rewrite at_gather by (fold a; fold b; lia); fold a; fold b; fold d|rewrite at_zip by (rewrite ?length_gather, ?length_zip_with; lia)]. done. }
    rewrite (sum3_by_role p0), (sum3_parties p0). apply ceq_mod_small; [apply valid_mod|]. rewrite ceq_mod, Etc, Ex, Ey, !tget_tof.
    ring_ceq.
Qed.
End Algebra.

(** ** Entries *)

Definition flat_vals (vs : list (Z * (Z * Z))) : list Z := concat ((fun v => [v.1; v.2.1; v.2.2]) <$> vs).

(** A batch in the order of [perm]. *)
Definition permute (perm : list Z) (b : list (Z * (Z * Z))) : list (Z * (Z * Z)) :=
  (fun i => lookup_entry b (Z.to_nat i)) <$> perm.

Lemma length_flat_vals vs : length (flat_vals vs) = (length vs * 3)%nat.
Proof. unfold flat_vals. rewrite (length_concat_const 3), length_fmap; [done|]. by apply Forall_fmap, Forall_true. Qed.

Lemma flat_vals_app vs ws : flat_vals (vs ++ ws) = flat_vals vs ++ flat_vals ws.
Proof. unfold flat_vals. by rewrite fmap_app, concat_app. Qed.

Lemma gather_entry b k :
  (k < length b)%nat ->
  gather [k * 3; k * 3 + 1; k * 3 + 2]%nat (flat_vals b)
  = [(lookup_entry b k).1; (lookup_entry b k).2.1; (lookup_entry b k).2.2].
Proof.
  intros Hk. destruct (lookup_lt_is_Some_2 b k Hk) as [v Hv]. unfold gather, flat_vals, lookup_entry. rewrite Hv. cbn.
  rewrite !(concat_lookup 3) by first [lia|by apply Forall_fmap, Forall_true].
  rewrite Nat.Div0.mod_mul, Nat.div_mul by lia.
  replace ((k * 3 + 1) / 3)%nat with k by (apply (Nat.div_unique _ _ _ 1); lia).
  replace ((k * 3 + 2) / 3)%nat with k by (apply (Nat.div_unique _ _ _ 2); lia).
  replace ((k * 3 + 1) mod 3)%nat with 1%nat by (apply (Nat.mod_unique _ _ k); lia).
  replace ((k * 3 + 2) mod 3)%nat with 2%nat by (apply (Nat.mod_unique _ _ k); lia).
  by rewrite !list_lookup_fmap, Hv.
Qed.

(** Shuffling the flat vector permutes every batch. *)
Lemma gather_flat perm bs batches :
  perm_ok bs perm -> Forall (fun b => length b = bs) batches ->
  gather (shuffle_idx perm bs (length batches)) (flat_vals (concat batches))
  = flat_vals (concat (permute perm <$> batches)).
Proof.
  intros Hp. induction 1 as [|b batches Hb Hbs IH]; [done|]. cbn [length shuffle_idx concat fmap list_fmap].
  rewrite gather_app, gather_shift, !flat_vals_app, drop_app_length' by (by rewrite length_flat_vals, Hb).
  rewrite IH. f_equal.
  rewrite <- (gather_take _ (bs * 3)), take_app_length' by
    first [by rewrite length_flat_vals, Hb|destruct (shuffle_idx_bound perm bs 1 Hp) as [_ H]; cbn [shuffle_idx] in H;
      apply Forall_app in H as [H _]; eapply Forall_impl; [exact H|]; cbn; lia].
  rewrite gather_triplets. unfold flat_vals at 2, permute. rewrite <- list_fmap_compose. f_equal.
  apply list_fmap_ext. intros k i Hi. cbn. apply gather_entry. destruct Hp as [_ Hf].
  pose proof (Forall_lookup_1 _ _ _ _ Hf Hi). cbn in *. lia.
Qed.

Lemma permute_id b : permute (Z.of_nat <$> seq 0 (length b)) b = b.
Proof.
  unfold permute. rewrite <- list_fmap_compose. apply list_eq. intros k. rewrite list_lookup_fmap.
  destruct (decide (k < length b)%nat) as [Hk|Hk].
  - rewrite lookup_seq_lt by done. cbn. rewrite Nat2Z.id. unfold lookup_entry.
    by destruct (lookup_lt_is_Some_2 b k Hk) as [v ->].
  - by rewrite lookup_seq_ge, (lookup_ge_None_2 b k) by lia.
Qed.

Lemma permute_perm perm b : perm ≡ₚ (Z.of_nat <$> seq 0 (length b)) -> permute perm b ≡ₚ b.
Proof. intros Hp. transitivity (permute (Z.of_nat <$> seq 0 (length b)) b); [by apply fmap_Permutation|]. by rewrite permute_id. Qed.

Lemma perm_ok_perm bs perm : perm ≡ₚ (Z.of_nat <$> seq 0 bs) -> perm_ok bs perm.
Proof.
  intros Hp. split; [by rewrite Hp, length_fmap, length_seq|]. rewrite Hp. apply Forall_fmap, Forall_seq. cbn. lia.
Qed.

Lemma length_permute perm b : length (permute perm b) = length perm.
Proof. apply length_fmap. Qed.

(** The components of the flattened shares. *)
Lemma entry_components T (D : tri (list IdDistance)) vs :
  tvec (entry_holds T) D vs ->
  exists c : tri (list Z), tvec (add3 T) c (flat_vals vs) /\
    forall i, flat_a (D @ i) = c @ i /\ flat_b (D @ i) = c @ (prev_id i).
Proof.
  induction 1 as [|t D v vs [(c1 & H1 & V1 & S1) [(c2 & H2 & V2 & S2) (c3 & H3 & V3 & S3)]] HD (c & Hc & IH)].
  { exists tnil. split; [apply tvec_nil|by intros []]. }
  exists (tcons c1 (tcons c2 (tcons c3 c))). split.
  - refine (tvec_cons _ _ _ _ _ _ (tvec_cons _ _ _ _ _ _ (tvec_cons _ _ _ _ _ _ Hc))); by split.
  - intros i. rewrite !tget_tcons. destruct (IH i) as [<- <-].
    specialize (H1 i). specialize (H2 i). specialize (H3 i). unfold flat_a, flat_b. rewrite !fmap_cons.
    destruct t as [[? []] [? []] [? []]], i; cbn in H1, H2, H3 |- *; by rewrite H1, H2, H3.
Qed.

(** The entries three component vectors share. *)
Lemma reconstruct_entries T (t : tri (list Z)) ws :
  tvec (add3 T) t (flat_vals ws) ->
  tvec (entry_holds T) (tof (fun i => reconstruct_id_distance_vector (t @ i) (t @ (prev_id i)))) ws.
Proof.
  intros Ht. apply (replicate3_spec _ _ _ _ (add3_replicate T)) in Ht. apply tuples3_tvec in Ht.
  apply (tvec_map _ (entry_holds T) (fun _ '(id, code, mask) => (id, mkDistance code mask)) (fun x => x)) in Ht.
  - rewrite list_fmap_id in Ht. refine (eq_ind _ (fun u => tvec (entry_holds T) u ws) Ht _ _).
    apply tri_ext. intros i. rewrite !tget_tof, tget_fmap. unfold replicate3. by rewrite tget_tof.
  - intros s x (H1 & H2 & H3). split; [|split].
    + replace (fst <$> _) with (fst ∘ fst <$> s); [done|]. destruct s as [[[] ?] [[] ?] [[] ?]]. done.
    + replace (code_dot <$> _) with (snd ∘ fst <$> s); [done|]. destruct s as [[[] ?] [[] ?] [[] ?]]. done.
    + replace (mask_dot <$> _) with (snd <$> s); [done|]. destruct s as [[[] ?] [[] ?] [[] ?]]. done.
Qed.

(** ** The run *)

Lemma gen_rands_many_split R T n (p : Prf R) :
  let g := gen_many R T n in
  gen_rands_many T n p = (((g (my_prf p)).1, (g (prev_prf p)).1), mkPrf (g (my_prf p)).2 (g (prev_prf p)).2).
Proof.
  revert p. induction n as [|n IH]; intros p; [by destruct p|]. cbn [gen_rands_many gen_many]. unfold gen_rands.
  destruct (gen R T (my_prf p)) as [a g1]. destruct (gen R T (prev_prf p)) as [b g2]. rewrite IH. cbn.
  by destruct (gen_many R T n g1), (gen_many R T n g2).
Qed.

(** Part 0 sends once; parts 1 and 2 exchange one message more in each
    direction. *)
Lemma wp_shuffle {A} ids (p0 : PartyID) (p : tri (proc A)) x y c1 c2 k0 k1 k1' k1'' k1''' k2 k2' k2'' o0 o1 o2 Q :
  let p1 := next_id p0 in let p2 := prev_id p0 in
  p @ p0 = Send (ids @ p1) x k0 -> k0 (Ok tt) = Ret o0 ->
  p @ p1 = Send (ids @ p2) y k1 -> k1 (Ok tt) = Recv (ids @ p0) k1' ->
  k1' (Ok x) = Send (ids @ p2) c1 k1'' -> k1'' (Ok tt) = Recv (ids @ p2) k1''' -> k1''' (Ok c2) = Ret o1 ->
  p @ p2 = Recv (ids @ p1) k2 -> k2 (Ok y) = Send (ids @ p1) c2 k2' -> k2' (Ok tt) = Recv (ids @ p1) k2'' ->
  k2'' (Ok c1) = Ret o2 ->
  Q no_messages (by_role p0 o0 o1 o2) ->
  wp ids no_messages p Q.
Proof.
  intros p1 p2 E0 F0 E1 F1 G1 H1 I1 E2 F2 G2 H2 HQ.
  eapply (wp_send _ _ _ p0 p1); [exact E0|].
  eapply (wp_send _ _ _ p1 p2); [rewrite tget_tset_ne by (by destruct p0); exact E1|].
  eapply (wp_recv _ _ _ p1 p0 x); [rewrite tget_tset; exact F1|by destruct p0|].
  eapply (wp_send _ _ _ p1 p2 c1); [rewrite tget_tset; exact G1|].
  eapply (wp_recv _ _ _ p2 p1 y); [rewrite !tget_tset_ne by (by destruct p0); exact E2|by destruct p0|].
  eapply (wp_send _ _ _ p2 p1 c2); [rewrite tget_tset; exact F2|].
  eapply (wp_recv _ _ _ p2 p1 c1); [rewrite tget_tset; exact G2|by destruct p0|].
  eapply (wp_recv _ _ _ p1 p2 c2);
    [rewrite !tget_tset_ne by (by destruct p0); rewrite tget_tset; exact H1|by destruct p0|].
  rewrite F0, I1, H2. match goal with |- wp _ ?ch ?q _ =>
    replace ch with no_messages by (by destruct p0);
    replace q with (Ret <$> (by_role p0 o0 o1 o2)) by (by destruct p0) end.
  by apply wp_ret.
Qed.

Section Shapes.
Context {R : Rng} {T : NetworkInt} (fuel bs : nat) (s : Session R) (nx pv : Identity).
Hypothesis Hn : next_identity (network_session s) = Ok nx.
Hypothesis Hp : prev_identity (network_session s) = Ok pv.

Ltac shape := unfold net, liftr, mbind, M_bind, mret, M_ret, send_ring_vec_next, send_ring_vec_prev,
  receive_ring_vec_prev, receive_ring_vec_next, receive_ring_vec, with_permutation, with_rng in *; cbn.

Lemma shuffle_party_0_shape d pi_01 pi_20 p1 z01 z20 p2 x0 x1 tb ta p3 :
  gen_permutation R fuel (Z.of_nat bs) (prf s) = Some (Ok ((pi_01, pi_20), p1)) ->
  gen_rands_many T (length (flat_a d)) p1 = ((z01, z20), p2) ->
  (ab ← vec_add T (flat_a d) (flat_b d); v ← vec_add T ab z01; shuffle_triplets pi_01 v bs) = Ok x0 ->
  (v ← vec_add T x0 z20; shuffle_triplets pi_20 v bs) = Ok x1 ->
  gen_rands_many T (3 * length d) p2 = ((tb, ta), p3) ->
  exists k, shuffle_party_0 T fuel d bs s = Send nx (ring_vec_message T x1) k /\
    k (Ok tt) = Ret (with_prf s p3, reconstruct_id_distance_vector tb ta).
Proof.
  intros Hg Hz H0 H1 Ht. eexists. split.
  - unfold shuffle_party_0. shape. rewrite Hg. cbn. rewrite Hz. cbn. rewrite H0. cbn. rewrite H1. cbn. rewrite Hn. reflexivity.
  - cbn in Ht |- *. rewrite Ht. reflexivity.
Qed.

Lemma shuffle_party_1_shape d pi_12 pi_01 p1 z12 z01 p2 y0 :
  gen_permutation R fuel (Z.of_nat bs) (prf s) = Some (Ok ((pi_12, pi_01), p1)) ->
  gen_rands_many T (length (flat_a d)) p1 = ((z12, z01), p2) ->
  (v ← vec_sub T (flat_a d) z01; shuffle_triplets pi_01 v bs) = Ok y0 ->
  exists k k', shuffle_party_1 T fuel d bs s = Send nx (ring_vec_message T y0) k /\ k (Ok tt) = Recv pv k' /\
    forall m x1 x2 tb p3 c1, into_vec T m = Ok x1 ->
      (v ← vec_add T x1 z12; shuffle_triplets pi_12 v bs) = Ok x2 ->
      gen_from_prev T (length x2) p2 = (tb, p3) -> vec_sub T x2 tb = Ok c1 ->
      exists k2 k3, k' (Ok m) = Send nx (ring_vec_message T c1) k2 /\ k2 (Ok tt) = Recv nx k3 /\
        forall m' c2 tc, into_vec T m' = Ok c2 -> vec_add T c1 c2 = Ok tc ->
          k3 (Ok m') = Ret (with_prf s p3, reconstruct_id_distance_vector tc tb).
Proof.
  intros Hg Hz H0. eexists _, _. split; [|split].
  - unfold shuffle_party_1. shape. rewrite Hg. cbn. rewrite Hz. cbn. rewrite H0. cbn. rewrite Hn. reflexivity.
  - cbn. rewrite Hp. reflexivity.
  - intros m x1 x2 tb p3 c1 Hm H2 Ht Hc. eexists _, _. split; [|split].
    + shape. rewrite Hm. cbn. rewrite H2. cbn. rewrite Ht. cbn. rewrite Hc. cbn. rewrite Hn. reflexivity.
    + cbn. rewrite Hn. reflexivity.
    + intros m' c2 tc Hm' Htc. cbn. rewrite Hm'. cbn. rewrite Htc. reflexivity.
Qed.

Lemma shuffle_party_2_shape d pi_20 pi_12 p1 z20 z12 p2 :
  gen_permutation R fuel (Z.of_nat bs) (prf s) = Some (Ok ((pi_20, pi_12), p1)) ->
  gen_rands_many T (3 * length d) p1 = ((z20, z12), p2) ->
  exists k, shuffle_party_2 T fuel d bs s = Recv pv k /\
    forall m y0 y1 y2 ta p3 c2, into_vec T m = Ok y0 ->
      (v ← vec_sub T y0 z20; shuffle_triplets pi_20 v bs) = Ok y1 ->
      (v ← vec_sub T y1 z12; shuffle_triplets pi_12 v bs) = Ok y2 ->
      gen_from_my T (length y2) p2 = (ta, p3) -> vec_sub T y2 ta = Ok c2 ->
      exists k2 k3, k (Ok m) = Send pv (ring_vec_message T c2) k2 /\ k2 (Ok tt) = Recv pv k3 /\
        forall m' c1 tc, into_vec T m' = Ok c1 -> vec_add T c1 c2 = Ok tc ->
          k3 (Ok m') = Ret (with_prf s p3, reconstruct_id_distance_vector ta tc).
Proof.
  intros Hg Hz. eexists. split.
  - unfold shuffle_party_2. shape. cbn in Hz. rewrite Hg. cbn. rewrite Hz. cbn. rewrite Hp. reflexivity.
  - intros m y0 y1 y2 ta p3 c2 Hm H1 H2 Ht Hc. eexists _, _. split; [|split].
    + shape. rewrite Hm. cbn. rewrite H1. cbn. rewrite H2. cbn. rewrite Ht. cbn. rewrite Hc. cbn. rewrite Hp. reflexivity.
    + cbn. rewrite Hp. reflexivity.
    + intros m' c1 tc Hm' Htc. cbn. rewrite Hm'. cbn. rewrite Htc. reflexivity.
Qed.
End Shapes.

Section Spec.
Context {R : Rng} {HR : RngOk R} (fuel : nat) {HS : SamplerOk R fuel} (ids : tri Identity) (sid : Z).
Context {T : NetworkInt} {HT : NetworkIntOk T}.
Context (bs k : nat) (Hbs : (0 < bs)%nat).

Lemma shuffle_step msg f v z perm :
  perm_ok bs perm -> length v = (k * (bs * 3))%nat -> length z = (k * (bs * 3))%nat ->
  (w ← vec_op msg f v z; shuffle_triplets perm w bs) = Ok (gather (shuffle_idx perm bs k) (zip_with f v z)).
Proof.
  intros Hp Hv Hz. rewrite vec_op_ok by lia. cbn [mbind result_bind].
  apply shuffle_triplets_gather; [done|done|]. rewrite length_zip_with. lia.
Qed.

Lemma wire_vec v : length v = (k * (bs * 3))%nat -> Forall (valid T) v ->
  Z.of_nat (k * (bs * 3) * BYTES T) < 2 ^ 32 -> into_vec T (ring_vec_message T v) = Ok v.
Proof. intros Hl Hv Hb. apply into_vec_message; [done|]. split; [done|]. by rewrite Hl. Qed.

(** One run, given the permutations [pi i], masks [z i] and output components
    [w i] that the generators shared by [i] and its successor yield. *)
Section Run.
Context (D : tri (list IdDistance)) (c : tri (list Z)) (s : tri (Session R)).
Context (pi : PartyID -> list Z) (z w : PartyID -> list Z) (g1 g2 g3 : PartyID -> rng R).
Let n := (k * (bs * 3))%nat.
Let p0 := rotation sid.
Let idx i := shuffle_idx (pi i) bs k.
Hypothesis Hb : Z.of_nat (k * (bs * 3) * BYTES T) < 2 ^ 32.
Hypothesis Hring : in_ring ids sid s.
Hypothesis HD : forall i, (3 * length (D @ i))%nat = n /\ flat_a (D @ i) = c @ i /\ flat_b (D @ i) = c @ (prev_id i).
Hypothesis Hc : forall i, length (c @ i) = n /\ Forall (valid T) (c @ i).
Hypothesis Hpi : forall i, perm_ok bs (pi i).
Hypothesis Hg : forall i, gen_permutation R fuel (Z.of_nat bs) (prf (s @ i))
  = Some (Ok ((pi i, pi (prev_id i)), mkPrf (g1 i) (g1 (prev_id i)))).
Hypothesis Hz : forall i, gen_many R T n (g1 i) = (z i, g2 i).
Hypothesis Hw : forall i, gen_many R T n (g2 i) = (w i, g3 i).

Let X1 := x1_ (T:=T) (idx p0) (idx (prev_id p0)) c (z p0) (z (prev_id p0)) p0.
Let X2 := x2_ (T:=T) (idx p0) (idx (prev_id p0)) (idx (next_id p0)) c (z p0) (z (next_id p0)) (z (prev_id p0)) p0.
Let Y0 := y0_ (T:=T) (idx p0) c (z p0) p0.
Let Y2 := y2_ (T:=T) (idx p0) (idx (prev_id p0)) (idx (next_id p0)) c (z p0) (z (next_id p0)) (z (prev_id p0)) p0.
Let C1 := zip_with (re_sub T) X2 (w p0).
Let C2 := zip_with (re_sub T) Y2 (w (prev_id p0)).
Let TC := zip_with (re_add T) C1 C2.

Lemma run_facts :
  (forall i, length (z i) = n /\ Forall (valid T) (z i)) /\ (forall i, length (w i) = n /\ Forall (valid T) (w i)) /\
  (forall i, length (idx i) = n /\ Forall (fun j => (j < n)%nat) (idx i)) /\
  (length X1 = n /\ length X2 = n /\ length Y0 = n /\ length Y2 = n /\ length C1 = n /\ length C2 = n /\ length TC = n) /\
  into_vec T (ring_vec_message T X1) = Ok X1 /\ into_vec T (ring_vec_message T Y0) = Ok Y0 /\
  into_vec T (ring_vec_message T C1) = Ok C1 /\ into_vec T (ring_vec_message T C2) = Ok C2.
Proof.
  assert (IntRing2kOk T) as HK by apply _.
  assert (forall i, length (z i) = n /\ Forall (valid T) (z i)) as Vz
    by (intros i; pose proof (gen_many_spec R T n (g1 i)) as H; by rewrite Hz in H).
  assert (forall i, length (w i) = n /\ Forall (valid T) (w i)) as Vw
    by (intros i; pose proof (gen_many_spec R T n (g2 i)) as H; by rewrite Hw in H).
  assert (forall i, length (idx i) = n /\ Forall (fun j => (j < n)%nat) (idx i)) as Hi by (intros i; by apply shuffle_idx_bound).
  pose proof (shuffle_lengths (T:=T) n _ _ _ (Hi p0) (Hi (prev_id p0)) (Hi (next_id p0)) c _ _ _ _ _ (Vz p0)
    (Vz (next_id p0)) (Vz (prev_id p0)) (Vw (prev_id p0)) (Vw p0) p0) as HL.
  pose proof (shuffle_valid (T:=T) n (idx p0) (idx (prev_id p0)) (idx (next_id p0)) c _ _ _ _ _ Hc (Vz p0)
    (Vz (next_id p0)) (Vz (prev_id p0)) (Vw (prev_id p0)) (Vw p0) p0) as (V1 & _ & V2 & _ & V3 & V4 & _).
  split; [done|]. split; [done|]. split; [done|]. split; [exact HL|]. destruct HL as (L1 & _ & L2 & _ & L3 & L4 & _).
  split_and!; by apply wire_vec.
Qed.

Lemma part_0_run : exists k0,
  shuffle_party_0 T fuel (D @ p0) bs (s @ p0) = Send (ids @ (next_id p0)) (ring_vec_message T X1) k0 /\
  k0 (Ok tt) = Ret (with_prf (s @ p0) (mkPrf (g3 p0) (g3 (prev_id p0))), reconstruct_id_distance_vector (w p0) (w (prev_id p0))).
Proof.
  destruct run_facts as (Vz & Vw & Hi & _). destruct (HD p0) as (L & Ea & Eb).
  pose proof (Hc p0) as [La _]. pose proof (Hc (prev_id p0)) as [Lb _].
  apply (shuffle_party_0_shape fuel bs (s @ p0) _ (next_identity_ring _ _ _ _ (Hring p0)) (D @ p0) _ _ _ (z p0) (z (prev_id p0))
    (mkPrf (g2 p0) (g2 (prev_id p0))) (gather (idx p0) (zip_with (re_add T) (zip_with (re_add T) (c @ p0) (c @ (prev_id p0))) (z p0))) X1
    (w p0) (w (prev_id p0)) (mkPrf (g3 p0) (g3 (prev_id p0))) (Hg p0)).
  - rewrite Ea, La, gen_rands_many_split. cbn. by rewrite !Hz.
  - rewrite Ea, Eb. unfold vec_add. rewrite (vec_op_ok _ _ (c @ p0)) by lia. cbn [mbind result_bind].
    apply shuffle_step; [done|rewrite length_zip_with; unfold n in *; lia|apply Vz].
  - apply shuffle_step; [done|rewrite length_gather; apply Hi|apply Vz].
  - rewrite L, gen_rands_many_split. cbn. by rewrite !Hw.
Qed.

Lemma part_1_run : exists k1 k1' k1'' k1''',
  shuffle_party_1 T fuel (D @ (next_id p0)) bs (s @ (next_id p0)) = Send (ids @ (prev_id p0)) (ring_vec_message T Y0) k1 /\
  k1 (Ok tt) = Recv (ids @ p0) k1' /\
  k1' (Ok (ring_vec_message T X1)) = Send (ids @ (prev_id p0)) (ring_vec_message T C1) k1'' /\
  k1'' (Ok tt) = Recv (ids @ (prev_id p0)) k1''' /\
  k1''' (Ok (ring_vec_message T C2)) = Ret (with_prf (s @ (next_id p0)) (mkPrf (g2 (next_id p0)) (g3 p0)), reconstruct_id_distance_vector TC (w p0)).
Proof.
  destruct run_facts as (Vz & Vw & Hi & (L1 & L2 & _ & _ & LC1 & LC2 & _) & I1 & _ & _ & I2).
  destruct (HD (next_id p0)) as (L & Ea & _). pose proof (Hc (next_id p0)) as [La _]. pose proof (Hg (next_id p0)) as Hg1.
  pose proof (prev_identity_ring _ _ _ _ (Hring (next_id p0))) as Hpv. pose proof (next_identity_ring _ _ _ _ (Hring (next_id p0))) as Hnx.
  rewrite prev_next in Hg1, Hpv. replace (next_id (next_id p0)) with (prev_id p0) in Hnx by (by destruct p0).
  destruct (shuffle_party_1_shape (T:=T) fuel bs _ _ _ Hnx Hpv (D @ (next_id p0)) _ _ _ (z (next_id p0)) (z p0)
    (mkPrf (g2 (next_id p0)) (g2 p0)) Y0 Hg1) as (k1 & k1' & E & E' & F).
  { rewrite Ea, La, gen_rands_many_split. cbn. by rewrite !Hz. }
  { rewrite Ea. apply shuffle_step; [done|done|apply Vz]. }
  destruct (F _ X1 X2 (w p0) (mkPrf (g2 (next_id p0)) (g3 p0)) C1 I1) as (k2 & k3 & G & G' & H).
  { apply shuffle_step; [done|done|apply Vz]. }
  { rewrite L2. unfold gen_from_prev. cbn. by rewrite Hw. }
  { apply vec_op_ok. rewrite L2. symmetry. apply Vw. }
  exists k1, k1', k2, k3. split_and!; try done. apply (H _ C2); [done|]. apply vec_op_ok. lia.
Qed.

Lemma part_2_run : exists k2 k2' k2'',
  shuffle_party_2 T fuel (D @ (prev_id p0)) bs (s @ (prev_id p0)) = Recv (ids @ (next_id p0)) k2 /\
  k2 (Ok (ring_vec_message T Y0)) = Send (ids @ (next_id p0)) (ring_vec_message T C2) k2' /\
  k2' (Ok tt) = Recv (ids @ (next_id p0)) k2'' /\
  k2'' (Ok (ring_vec_message T C1)) = Ret (with_prf (s @ (prev_id p0)) (mkPrf (g3 (prev_id p0)) (g2 (next_id p0))), reconstruct_id_distance_vector (w (prev_id p0)) TC).
Proof.
  destruct run_facts as (Vz & Vw & Hi & (_ & _ & L1 & L2 & LC1 & LC2 & _) & _ & I1 & I2 & _).
  destruct (HD (prev_id p0)) as (L & _). pose proof (Hg (prev_id p0)) as Hg1.
  pose proof (prev_identity_ring _ _ _ _ (Hring (prev_id p0))) as Hpv.
  replace (prev_id (prev_id p0)) with (next_id p0) in Hg1, Hpv by (by destruct p0).
  destruct (shuffle_party_2_shape (T:=T) fuel bs _ _ Hpv (D @ (prev_id p0)) _ _ _ (z (prev_id p0)) (z (next_id p0))
    (mkPrf (g2 (prev_id p0)) (g2 (next_id p0))) Hg1) as (k2 & E & F).
  { rewrite L, gen_rands_many_split. cbn. by rewrite !Hz. }
  destruct (F _ Y0 (gather (idx (prev_id p0)) (zip_with (re_sub T) Y0 (z (prev_id p0)))) Y2 (w (prev_id p0))
    (mkPrf (g3 (prev_id p0)) (g2 (next_id p0))) C2 I1) as (k2' & k3 & G & G' & H).
  { apply shuffle_step; [done|done|apply Vz]. }
  { apply shuffle_step; [done|rewrite length_gather; apply Hi|apply Vz]. }
  { rewrite L2. unfold gen_from_my. cbn. by rewrite Hw. }
  { apply vec_op_ok. rewrite L2. symmetry. apply Vw. }
  exists k2, k2', k3. split_and!; try done. apply (H _ C1); [done|]. apply vec_op_ok. lia.
Qed.

Lemma shuffle_exec sums :
  tvec (add3 T) c sums ->
  exec ids no_messages (fun i => (by_role p0 (shuffle_party_0 T fuel (D @ i) bs)
      (shuffle_party_1 T fuel (D @ i) bs) (shuffle_party_2 T fuel (D @ i) bs)) @ i) s
    (fun ch s' out => ch = no_messages /\ ring_sessions ids sid s' /\ exists t,
       tvec (add3 T) t (gather (idx (next_id p0)) (gather (idx (prev_id p0)) (gather (idx p0) sums))) /\
       out = tof (fun i => reconstruct_id_distance_vector (t @ i) (t @ (prev_id i)))).
Proof.
  intros Hs. destruct run_facts as (Vz & Vw & Hi & _). destruct part_0_run as (k0 & E0 & F0).
  destruct part_1_run as (k1 & k1' & k1'' & k1''' & E1 & F1 & G1 & H1 & I1).
  destruct part_2_run as (k2 & k2' & k2'' & E2 & F2 & G2 & H2).
  eapply (wp_shuffle ids p0); [rewrite tget_tof, by_role_0; exact E0|exact F0|rewrite tget_tof, by_role_1; exact E1|exact F1|exact G1|
    exact H1|exact I1|rewrite tget_tof, by_role_2; exact E2|exact F2|exact G2|exact H2|].
  split; [done|]. split; [split|].
  - rewrite by_role_fmap. by eapply by_role_in_ring.
  - intros i. rewrite by_role_fmap. unfold p0. by destruct i, (rotation sid).
  - exists (by_role p0 (w p0) TC (w (prev_id p0))). split.
    + exact (shuffle_sums n _ _ _ (Hi p0) (Hi (prev_id p0)) (Hi (next_id p0)) c _ _ _ _ _ Hc (Vz p0) (Vz (next_id p0))
        (Vz (prev_id p0)) (Vw (prev_id p0)) (Vw p0) p0 sums Hs).
    + rewrite by_role_fmap. unfold p0. by destruct (rotation sid).
Qed.
End Run.

(** The permutations the parties draw at the start of a shuffle: [pi @ i] is the
    one party [i] shares with its successor, and so each party knows two. *)
Definition drawn (s : tri (Session R)) (pi : tri (list Z)) : Prop :=
  forall i, pi @ i ≡ₚ (Z.of_nat <$> seq 0 bs) /\
    exists p, gen_permutation R fuel (Z.of_nat bs) (prf (s @ i)) = Some (Ok ((pi @ i, pi @ (prev_id i)), p)).

(** The three parts permute every batch by all three permutations. *)
Lemma shuffle_parts_spec (D : tri (list IdDistance)) batches s :
  tvec (entry_holds T) D (concat batches) -> Forall (fun b => length b = bs) batches -> length batches = k -> (0 < k)%nat ->
  Z.of_nat (k * (bs * 3) * BYTES T) < 2 ^ 32 -> ring_sessions ids sid s ->
  exists pi, drawn s pi /\
    exec (R := R) ids no_messages (fun i => (by_role (rotation sid) (shuffle_party_0 T fuel (D @ i) bs)
      (shuffle_party_1 T fuel (D @ i) bs) (shuffle_party_2 T fuel (D @ i) bs)) @ i) s
    (fun ch s' out => ch = no_messages /\ ring_sessions ids sid s' /\
       tvec (entry_holds T) out (concat ((permute (pi @ (next_id (rotation sid))) ∘ permute (pi @ (prev_id (rotation sid)))
         ∘ permute (pi @ (rotation sid))) <$> batches))).
Proof.
  intros HD Hlen Hk Hk0 Hb [Hring Hsync]. assert (IntRing2kOk T) as HK by apply _. set (p0 := rotation sid).
  destruct (entry_components T D _ HD) as (c & Hc & Hab). pose proof (wr_bytes (T:=T)) as HB.
  assert (length (concat batches) = k * bs)%nat as Lc by (rewrite (length_concat_const bs); [by rewrite Hk|done]).
  set (h := fun i => half_permutation R fuel (Z.of_nat bs) (my_prf (prf (s @ i)))).
  assert (forall i, (h i).1 ≡ₚ (Z.of_nat <$> seq 0 bs)) as Hh
    by (intros i; unfold h; etrans; [apply half_permutation_perm|by rewrite Nat2Z.id]).
  assert (forall i, perm_ok bs (h i).1) as Hp by (intros i; apply perm_ok_perm, Hh).
  exists (tof (fun i => (h i).1)). split.
  { intros i. rewrite !tget_tof. split; [done|]. rewrite (gen_permutation_split R fuel) by nia. unfold h.
    replace (prev_prf (prf (s @ i))) with (my_prf (prf (s @ (prev_id i)))) by (by rewrite Hsync, next_prev). by eexists. }
  rewrite !tget_tof.
  eapply exec_mono; [|apply (shuffle_exec D c s (fun i => (h i).1)
    (fun i => (gen_many R T (k * (bs * 3)) (h i).2).1) (fun i => (gen_many R T (k * (bs * 3)) (gen_many R T (k * (bs * 3)) (h i).2).2).1)
    (fun i => (h i).2) (fun i => (gen_many R T (k * (bs * 3)) (h i).2).2)
    (fun i => (gen_many R T (k * (bs * 3)) (gen_many R T (k * (bs * 3)) (h i).2).2).2)) with (sums := flat_vals (concat batches))]; try done.
  - intros ch s' out (-> & Hs' & t & Ht & ->). split; [done|]. split; [done|]. apply reconstruct_entries.
    assert (forall perm bb, perm_ok bs perm -> Forall (fun b => length b = bs) bb ->
      Forall (fun b => length b = bs) (permute perm <$> bb)) as Hl.
    { intros perm bb [Hpl _] _. apply Forall_fmap, Forall_true. intros b. cbn. by rewrite length_permute. }
    subst k. rewrite gather_flat in Ht by done.
    rewrite <- (length_fmap (permute (h p0).1)), gather_flat in Ht by auto.
    rewrite <- (length_fmap (permute (h (prev_id p0)).1)), gather_flat in Ht by auto.
    by rewrite <- !list_fmap_compose in Ht.
  - intros i. rewrite (tvec_length _ _ _ i HD), Lc. destruct (Hab i). split_and!; [lia|done..].
  - intros i. split; [rewrite (tvec_length _ _ _ i Hc), length_flat_vals, Lc; lia|].
    destruct (tvec_add3_components T _ _ Hc) as (cs & -> & Hv & _). apply Forall_fmap.
    eapply Forall_impl; [exact Hv|]. intros t Ht. apply Ht.
  - intros i. rewrite (gen_permutation_split R fuel) by nia. unfold h.
    by replace (prev_prf (prf (s @ i))) with (my_prf (prf (s @ (prev_id i)))) by (by rewrite Hsync, next_prev).
  - intros i. apply surjective_pairing.
  - intros i. apply surjective_pairing.
Qed.
End Spec.

Lemma tvec_concat2 {A B} (P : tri A -> B -> Prop) (D : tri (list (list A))) xss i :
  tvec (tvec P) D xss -> length (D @ i) = length xss /\ (length <$> D @ i) = (length <$> xss).
Proof.
  intros H. split; [by eapply tvec_length|]. induction H as [|t D xs xss Ht HD IH]; [by destruct i|].
  rewrite tget_tcons, !fmap_cons, IH. f_equal. by eapply tvec_length.
Qed.

(** Below the last two session ids the part a party plays is the one of the
    binary protocols. *)
Lemma shuffle_role_small ids sid i n :
  ring_network ids sid i n -> 0 <= sid < 2 ^ 32 - 2 -> shuffle_role n = rotated_role n.
Proof.
  intros (Hr & Hs & _) Hb. unfold shuffle_role, rotated_role. rewrite Hr, Hs. rewrite (Z.mod_small _ (2 ^ 32)); [by rewrite Z.add_comm|].
  destruct i; cbn; lia.
Qed.

Lemma equal_lengths_forallb {A} (bs : nat) (l : list (list A)) :
  Forall (fun b => length b = bs) l -> forallb (fun b => length b =? bs)%nat l = true.
Proof. intros H. induction H as [|b l Hb H IH]; [done|]. cbn. by rewrite Hb, Nat.eqb_refl. Qed.

(** Batches of one length pass the checks, and every party takes its part. *)
Lemma random_shuffle_batch_part {R} (T : NetworkInt) fuel ids sid i (s : Session R) d bs :
  ring_network ids sid i (network_session s) -> 0 <= sid < 2 ^ 32 - 2 -> d <> [] -> Forall (fun b => length b = bs) d ->
  random_shuffle_batch T fuel d s
  = (r ← (by_role (rotation sid) (shuffle_party_0 T fuel (concat d) bs) (shuffle_party_1 T fuel (concat d) bs)
        (shuffle_party_2 T fuel (concat d) bs)) @ i; liftr (chunks_checked bs r)) s.
Proof.
  intros Hs Hsid Hne Hl. unfold random_shuffle_batch. destruct d as [|b d]; [done|].
  pose proof (Forall_inv Hl) as Hb. cbn in Hb.
  replace (length (b :: d) =? 0)%nat with false by done.
  change (mbind ?f (liftr (index (b :: d) 0)) s) with (f b s). cbn beta zeta.
  rewrite Hb, (equal_lengths_forallb bs) by done. cbn [negb].
  change (mbind ?f get s) with (f s s). cbn beta zeta.
  rewrite (shuffle_role_small _ _ _ _ Hs Hsid), (rotated_role_party ids sid i _ Hs).
  unfold by_role. rewrite tget_tof. by repeat case_decide.
Qed.

(** Three permutations one after the other. *)
Lemma permute_three bs p q r (b : list (Z * (Z * Z))) :
  p ≡ₚ (Z.of_nat <$> seq 0 bs) -> q ≡ₚ (Z.of_nat <$> seq 0 bs) -> r ≡ₚ (Z.of_nat <$> seq 0 bs) -> length b = bs ->
  permute p (permute q (permute r b)) ≡ₚ b /\ length (permute p (permute q (permute r b))) = bs.
Proof.
  intros Hp Hq Hr <-.
  assert (forall p (b' : list (Z * (Z * Z))), p ≡ₚ (Z.of_nat <$> seq 0 (length b)) -> b' ≡ₚ b -> permute p b' ≡ₚ b) as H.
  { intros p' b' Hp' Hb'. etrans; [apply permute_perm; by rewrite Hb'|done]. }
  assert (permute p (permute q (permute r b)) ≡ₚ b) as E by auto. split; [done|]. by rewrite E.
Qed.

(** C10: The oblivious shuffle is correct: from shares of batches of one length
    the three parties, each playing the part the session id assigns to it,
    obtain shares of the same batches, all reordered by the composition of the
    three permutations [pi] that pairs of parties draw from the generators they
    share at the start: first the one of part 0 with part 1, then that of part
    2 with part 0, then that of part 1 with part 2.  No entry is lost or
    duplicated, and the run neither fails nor leaves a message or the shared
    generators out of step. *)
Theorem random_shuffle_correct (R : Rng) `{!RngOk R} fuel `{!SamplerOk R fuel} ids sid (T : NetworkInt) `{!NetworkIntOk T}
    (D : tri (list (list IdDistance))) batches bs s :
  0 <= sid < 2 ^ 32 - 2 -> batches <> [] -> (0 < bs)%nat -> Forall (fun b => length b = bs) batches ->
  Z.of_nat (length batches * (bs * 3) * BYTES T) < 2 ^ 32 ->
  tvec (tvec (entry_holds T)) D batches ->
  ring_sessions ids sid s ->
  exists pi : tri (list Z),
    (forall i, pi @ i ≡ₚ (Z.of_nat <$> seq 0 bs) /\
       exists p, gen_permutation R fuel (Z.of_nat bs) (prf (s @ i)) = Some (Ok ((pi @ i, pi @ (prev_id i)), p))) /\
    let p0 := rotation sid in
    let sigma b := permute (pi @ (next_id p0)) (permute (pi @ (prev_id p0)) (permute (pi @ p0) b)) in
    exec (R := R) ids no_messages (fun i => random_shuffle_batch T fuel (D @ i)) s
      (fun ch s' out => ch = no_messages /\ ring_sessions ids sid s' /\
         tvec (tvec (entry_holds T)) out (sigma <$> batches) /\ Forall2 (≡ₚ) (sigma <$> batches) batches).
Proof.
  intros Hsid Hne Hbs Hl Hb HD Hs.
  assert (forall i, Forall (fun b => length b = bs) (D @ i) /\ D @ i <> []) as HDl.
  { intros i. destruct (tvec_concat2 _ _ _ i HD) as [H1 H2]. split.
    - apply (Forall_fmap length (fun n => n = bs)). rewrite H2. by apply Forall_fmap.
    - intros E. rewrite E in H1. by destruct batches. }
  destruct (shuffle_parts_spec fuel ids sid bs (length batches) Hbs (concat (A:=IdDistance) <$> D) batches s) as (pi & Hpi & Hrun);
    [by apply tvec_concat|done|done|destruct batches; [done|cbn; lia]|done|done|].
  exists pi. split; [exact Hpi|]. intros p0 sigma.
  assert (forall b, length b = bs -> sigma b ≡ₚ b /\ length (sigma b) = bs) as Hsigma
    by (intros b Hbl; apply (permute_three bs); [apply Hpi..|done]).
  apply (exec_ext _ _ _ (fun i => r ← (by_role p0 (shuffle_party_0 T fuel ((concat (A:=IdDistance) <$> D) @ i) bs)
    (shuffle_party_1 T fuel ((concat (A:=IdDistance) <$> D) @ i) bs) (shuffle_party_2 T fuel ((concat (A:=IdDistance) <$> D) @ i) bs)) @ i;
    liftr (chunks_checked bs r))).
  { intros i. rewrite tget_fmap. apply (random_shuffle_batch_part T fuel ids sid i _ _ bs (proj1 Hs i)); try apply HDl; done. }
  apply exec_bind.
  eapply exec_mono; [|exact Hrun]. intros ch s' out (-> & Hs' & Hout).
  apply (exec_liftr _ _ _ (chunks bs <$> out)).
  - intros i. unfold chunks_checked. rewrite (proj2 (Nat.eqb_neq _ _)), tget_fmap by lia. done.
  - split; [done|]. split; [done|]. split.
    + apply tvec_chunks; [done| |exact Hout]. apply Forall_fmap. eapply Forall_impl; [exact Hl|]. intros b Hbl. by apply Hsigma.
    + apply Forall2_fmap_l, Forall_Forall2_diag. eapply Forall_impl; [exact Hl|]. intros b Hbl. by apply Hsigma.
Qed.

Definition demo_batches : list (list (Z * (Z * Z))) := [[(1, (10, 100)); (2, (20, 200)); (3, (30, 300))]; [(4, (40, 400)); (5, (50, 500)); (6, (60, 600))]].

Definition demo_entries : tri (list (list IdDistance)) :=
  tcons (tcons (plain_entry 1 10 100) (tcons (plain_entry 2 20 200) (tcons (plain_entry 3 30 300) tnil)))
    (tcons (tcons (plain_entry 4 40 400) (tcons (plain_entry 5 50 500) (tcons (plain_entry 6 60 600) tnil))) tnil).

(** The parties draw the permutations [0; 2; 1], [1; 2; 0] and [2; 1; 0]. *)
Lemma random_shuffle_correct_witness :
  exec demo_ids no_messages (fun i => random_shuffle_batch net_u32 2 (demo_entries @ i)) (demo_sessions 7)
    (fun ch s' out => ch = no_messages /\ ring_sessions demo_ids 7 s' /\
       tvec (tvec (entry_holds u32)) out [[(2, (20, 200)); (3, (30, 300)); (1, (10, 100))]; [(5, (50, 500)); (6, (60, 600)); (4, (40, 400))]]).
Proof.
  destruct (random_shuffle_correct counter_rng 2 demo_ids 7 net_u32 demo_entries demo_batches 3 (demo_sessions 7)) as (pi & Hpi & Hrun).
  - done.
  - done.
  - lia.
  - by repeat constructor.
  - done.
  - do 2 (apply tvec_cons; [repeat (apply tvec_cons; [apply (plain_entry_holds u32); split; done|]); apply tvec_nil|]). apply tvec_nil.
  - apply demo_ring.
  - cbv zeta in Hrun. refine (exec_mono _ _ _ _ _ _ _ Hrun). intros ch s' out (? & ? & Hout & _). split; [done|]. split; [done|].
    assert (pi = Tri [0; 2; 1] [1; 2; 0] [2; 1; 0]) as ->.
    { apply tri_ext. intros i. destruct (Hpi i) as (_ & q & E), i; vm_compute in E; by injection E. }
    exact Hout.
Defined.

(** A session id among the last two of its type wraps around: in session
    [2^32 - 1] two parties take part 0 and none takes part 2. *)
Lemma shuffle_roles_collide ids n0 n1 n2 :
  ring_network ids (2 ^ 32 - 1) ID0 n0 -> ring_network ids (2 ^ 32 - 1) ID1 n1 -> ring_network ids (2 ^ 32 - 1) ID2 n2 ->
  shuffle_role n0 = 0 /\ shuffle_role n1 = 0 /\ shuffle_role n2 = 1.
Proof.
  intros (H0 & S0 & _) (H1 & S1 & _) (H2 & S2 & _). unfold shuffle_role. by rewrite H0, H1, H2, S0, S1, S2.
Qed.

(** Batches of no entries pass the checks, and the first two parts panic on
    the chunk size. *)
Lemma shuffle_empty_batch_panics {R} (T : NetworkInt) fuel ids sid i (s : Session R) :
  ring_network ids sid i (network_session s) -> 0 <= sid < 2 ^ 32 - 2 -> i <> prev_id (rotation sid) ->
  random_shuffle_batch T fuel [[]] s = Raise (Panic "chunk size must be non-zero").
Proof.
  intros Hs Hsid Hi. rewrite (random_shuffle_batch_part T fuel ids sid i s [[]] 0 Hs Hsid) by first [done|by repeat constructor].
  assert (i = rotation sid \/ i = next_id (rotation sid)) as [-> | ->] by (destruct i, (rotation sid); naive_solver);
    rewrite ?by_role_0, ?by_role_1; done.
Qed.

(** No batch, or batches of different lengths, are refused before anything is
    drawn or sent. *)
Lemma random_shuffle_batch_rejects {R} (T : NetworkInt) fuel (s : Session R) d :
  d = [] \/ (exists b b', b ∈ d /\ b' ∈ d /\ length b <> length b') ->
  exists msg, random_shuffle_batch T fuel d s = Raise (Eyre msg).
Proof.
  intros H. destruct d as [|b0 d]; [by eexists|]. destruct H as [|(b & b' & Hb & Hb' & Hne)]; [done|].
  unfold random_shuffle_batch. replace (length (b0 :: d) =? 0)%nat with false by done.
  change (mbind ?f (liftr (index (b0 :: d) 0)) s) with (f b0 s). cbn beta zeta.
  destruct (forallb _ (b0 :: d)) eqn:E; [|by eexists]. exfalso. rewrite forallb_forall in E. apply Hne.
  pose proof (E b (proj1 (list_elem_of_In _ _) Hb)) as E1. pose proof (E b' (proj1 (list_elem_of_In _ _) Hb')) as E2.
  apply Nat.eqb_eq in E1, E2. congruence.
Qed.
