(* ===== verification/F64.v ===== *)
(** * Double precision numbers

    The few operations on [f64] that thresholds are computed with, over the
    Standard Library's executable model of IEEE binary64 (round to nearest,
    ties to even). *)

From S2P Require Import Prelude.
From stdpp Require Import base numbers.
From Stdlib Require Import ZArith Lia SpecFloat.
Local Open Scope Z_scope.

Definition f64 : Type := spec_float.
Definition f64_mul : f64 -> f64 -> f64 := SFmul 53 1024.
Definition f64_add : f64 -> f64 -> f64 := SFadd 53 1024.
Definition f64_sub : f64 -> f64 -> f64 := SFsub 53 1024.
Definition f64_div : f64 -> f64 -> f64 := SFdiv 53 1024.

(** [m * 2^e], rounded: literals and the conversion of an integer. *)
Definition f64_lit (m e : Z) : f64 := binary_normalize 53 1024 m e false.
Definition f64_of_int (z : Z) : f64 := f64_lit z 0.

(** The literal [0.375]. *)
Definition f64_three_eighths : f64 := f64_lit 3 (-3).

(** [x as iN] and [x as uN]: truncation towards zero, saturating at the bounds
    of the type; not-a-number becomes zero. *)
Definition f64_clamp (lo hi : Z) (x : f64) : Z :=
  match x with
  | S754_zero _ | S754_nan => 0
  | S754_infinity s => if s then lo else hi
  | S754_finite s m e =>
      let v := if 0 <=? e then Z.pos m * 2 ^ e else Z.pos m / 2 ^ (- e) in
      Z.max lo (Z.min hi (if s then - v else v))
  end.
Definition f64_as_u32 : f64 -> Z := f64_clamp 0 (2 ^ 32 - 1).
Definition f64_as_u64 : f64 -> Z := f64_clamp 0 (2 ^ 64 - 1).
Definition f64_as_i64 : f64 -> Z := f64_clamp (- 2 ^ 63) (2 ^ 63 - 1).

Lemma f64_clamp_range lo hi x : lo <= 0 <= hi -> lo <= f64_clamp lo hi x <= hi.
Proof. intros H. unfold f64_clamp. destruct x as [s|s| |s m e]; [lia|destruct s; lia|lia|lia]. Qed.

(** Below the bound of [i64] the two 64-bit conversions of a number that is not
    negative agree. *)
Lemma f64_as_i64_u64 x : f64_as_u64 x < 2 ^ 63 -> 0 <= f64_as_i64 x -> f64_as_i64 x = f64_as_u64 x.
Proof.
  unfold f64_as_u64, f64_as_i64, f64_clamp. destruct x as [s|s| |s m e]; try (destruct s; lia). lia.
Qed.

(** [x.round()]: to the nearest integer, halves away from zero, keeping the sign
    of a result that is zero. *)
Definition f64_round (x : f64) : f64 :=
  match x with
  | S754_finite s m e =>
      if 0 <=? e then x
      else let n := (Z.pos m + 2 ^ (- e - 1)) / 2 ^ (- e) in binary_normalize 53 1024 (if s then - n else n) 0 s
  | _ => x
  end.

Example f64_round_halves :
  f64_round (f64_lit 5 (-1)) = f64_of_int 3 /\ f64_round (f64_lit (-5) (-1)) = f64_of_int (-3) /\
  f64_round (f64_lit 9 (-2)) = f64_of_int 2 /\ f64_round (f64_lit (-1) (-3)) = S754_zero true.
Proof. vm_compute. done. Qed.
