(* ===== verification/Compare.v ===== *)
(** * Comparison of distances: [protocol/fhd_ops.rs], [protocol/nhd_ops.rs] and
    [protocol/anon_stats.rs]

    A distance is a pair of dot products, [code] and [mask], shared in a ring.
    The fractional (FHD) and the normalized (NHD) Hamming distance are compared
    with public thresholds and with each other by the sign of a polynomial in
    the shares.  The theorems say what the signs decide about the dot products
    as integers, as long as these are in the range of a 12800-bit iris code. *)

From S2P Require Import Prelude IntRing RingImpl Party Share VecShare Transpose Value Net Prf Proto Circuits Binary Adder Inject Convert Lift Ops Select F64.
From stdpp Require Import option base list numbers strings gmap.
From Stdlib Require Import ZArith Lia SpecFloat.
Local Open Scope Z_scope.

(** ** Definitions: fractional Hamming distance *)

(** [ops::B]. *)
Definition B : Z := 2 ^ 16.

Abbreviation DistancePair := (DistanceShare * DistanceShare)%type.

(* fhd_ops.rs:68-74 translate_threshold_a *)
Definition translate_threshold_a (t : f64) : result Z :=
  if SFleb (f64_of_int 0) t && SFleb t (f64_of_int 1)
  then Ok (f64_as_u32 (f64_mul (f64_sub (f64_of_int 1) (f64_mul (f64_of_int 2) t)) (f64_of_int B)))
  else panic "Threshold must be in the range [0, 1]".

(* fhd_ops.rs:28-31 FusedFhdDotShares *)
Record FusedFhdDotShares := mkFused { local : list Z; previous : list Z }.

(* fhd_ops.rs:35-37 FusedFhdDotShares::len *)
Definition fused_len (self : FusedFhdDotShares) : nat := (length (local self) / 2)%nat.

(* fhd_ops.rs:39-41 FusedFhdDotShares::is_empty *)
Definition fused_is_empty (self : FusedFhdDotShares) : bool := (length (local self) =? 0)%nat.

(* fhd_ops.rs:46-63 FusedFhdDotShares::select *)
Definition fused_select (self : FusedFhdDotShares) (indices : list nat) : result (list Share * list Share) :=
  pairs ← mapM_result (fun idx =>
    if negb (idx <? fused_len self)%nat then bail "dot-product index is out of bounds" else
    let offset := (idx * 2)%nat in
    la ← index (local self) offset; pa ← index (previous self) offset;
    lb ← index (local self) (offset + 1); pb ← index (previous self) (offset + 1);
    Ok (mkShare la pa, mkShare lb pb)) indices;
  Ok (pairs.*1, pairs.*2).

Section Protocols.
Context {R : Rng}.

(* fhd_ops.rs:85-101 fhd_greater_than_threshold *)
Definition fhd_greater_than_threshold (distances : list DistanceShare) (threshold_ratio : f64) : M R (list Share) :=
  a ← liftr (translate_threshold_a threshold_ratio);
  let diffs := (fun d => let x := share_scale u32 (mask_dot d) a in
                         let y := share_scale u32 (code_dot d) B in share_sub u32 y x) <$> distances in
  extract_msb_batch net_u32 (HTr := Transpose64_u32) diffs.

(* fhd_ops.rs:110-117 lift_fhd_mask_dots *)
Definition lift_fhd_mask_dots (mask_dots : list Share) : M R (list Share) := lift mask_dots.

(* fhd_ops.rs:125-142 fhd_greater_than_threshold_pre_lifted_masks *)
Definition fhd_greater_than_threshold_pre_lifted_masks (code_dots mask_dots : list Share) (threshold_ratio : f64)
    : M R (list Share) :=
  if negb (length code_dots =? length mask_dots)%nat
  then liftr (bail "code and mask dot batches must have equal lengths") else
  a ← liftr (translate_threshold_a threshold_ratio);
  let diffs := zip_with (fun code_dot mask_dot => share_sub u32 (mul_lift_2k_to_32 16 code_dot) (share_scale u32 mask_dot a))
                 code_dots mask_dots in
  extract_msb_batch net_u32 (HTr := Transpose64_u32) diffs.

(* fhd_ops.rs:185-194 cross_mul *)
Definition cross_mul (distances : list DistancePair) : M R (list Share) :=
  reshare_products net_u32 (length distances) (fun i =>
    '(d1, d2) ← index distances i;
    Ok (share_mul u32 (code_dot d2) (mask_dot d1) ⊖[u32] share_mul u32 (code_dot d1) (mask_dot d2))).

(* fhd_ops.rs:203-209 oblivious_cross_compare *)
Definition oblivious_cross_compare (distances : list DistancePair) : M R (list Share) :=
  diff ← cross_mul distances;
  extract_msb_batch net_u32 (HTr := Transpose64_u32) diff.

(* fhd_ops.rs:218-225 cross_compare *)
Definition cross_compare (distances : list DistancePair) : M R (list bool) :=
  bits ← oblivious_cross_compare distances;
  opened_b ← open_bin bits;
  mret (bit_convert <$> opened_b).

(* fhd_ops.rs:236-246 oblivious_cross_compare_lifted *)
Definition oblivious_cross_compare_lifted (distances : list DistancePair) : M R (list Share) :=
  bits ← oblivious_cross_compare distances;
  bit_inject net_u32 bits.

(* fhd_ops.rs:252-260 min_of_pair_batch *)
Definition min_of_pair_batch (distances : list DistancePair) : M R (list DistanceShare) :=
  bits ← oblivious_cross_compare_lifted distances;
  conditionally_select_distance net_u32 distances bits.

(** ** Definitions: normalized Hamming distance *)

Definition NHD_LINEAR_COEFF : Z := 10.
Definition NHD_CORRECTION : Z := 73728.

(** The distance whose product the [k]th expression of the first round is. *)
Definition nhd_operand (distances : list DistancePair) (k : nat) : result DistanceShare :=
  '(d1, d2) ← index distances (k / 2);
  Ok (if (k mod 2 =? 0)%nat then d1 else d2).

(* nhd_ops.rs:39-75 nhd_cross_mul *)
Definition nhd_cross_mul (distances : list DistancePair) : M R (list Share) :=
  let n := length distances in
  products ← reshare_products net_ring48 (2 * n) (fun k =>
    d ← nhd_operand distances k;
    let linear := share_sub Ring48 (mask_dot d) (share_scale Ring48 (code_dot d) NHD_LINEAR_COEFF) in
    Ok (share_mul Ring48 (mask_dot d) linear));
  nmrs ← liftr (mapM_result (fun i =>
    '(d1, d2) ← index distances i;
    p1 ← index products (2 * i); p2 ← index products (2 * i + 1);
    Ok (share_sub Ring48 p1 (share_scale Ring48 (code_dot d1) NHD_CORRECTION),
        share_sub Ring48 p2 (share_scale Ring48 (code_dot d2) NHD_CORRECTION))) (seq 0 n));
  reshare_products net_ring48 n (fun i =>
    '(nmr1, nmr2) ← index nmrs i; '(d1, d2) ← index distances i;
    Ok (share_mul Ring48 nmr1 (mask_dot d2) ⊖[Ring48] share_mul Ring48 nmr2 (mask_dot d1))).

(* nhd_ops.rs:90-96 nhd_oblivious_cross_compare *)
Definition nhd_oblivious_cross_compare (distances : list DistancePair) : M R (list Share) :=
  diff ← nhd_cross_mul distances;
  extract_msb_batch net_ring48 (HTr := Transpose64_ring48) diff.

(* nhd_ops.rs:79-86 nhd_cross_compare *)
Definition nhd_cross_compare (distances : list DistancePair) : M R (list bool) :=
  bits ← nhd_oblivious_cross_compare distances;
  opened_b ← open_bin bits;
  mret (bit_convert <$> opened_b).

(* nhd_ops.rs:101-109 nhd_oblivious_cross_compare_lifted *)
Definition nhd_oblivious_cross_compare_lifted (distances : list DistancePair) : M R (list Share) :=
  bits ← nhd_oblivious_cross_compare distances;
  bit_inject net_ring48 bits.

(* nhd_ops.rs:113-119 nhd_min_of_pair_batch *)
Definition nhd_min_of_pair_batch (distances : list DistancePair) : M R (list DistanceShare) :=
  bits ← nhd_oblivious_cross_compare_lifted distances;
  conditionally_select_distance net_ring48 distances bits.

(* nhd_ops.rs:123-132 nhd_lift_distances *)
Definition nhd_lift_distances (pre_lift : list Share) : M R (list DistanceShare) :=
  lifted ← batch_signed_lift_vec_ring48 pre_lift;
  liftr (mapM_result (fun chunk => c ← index chunk 0; m ← index chunk 1; Ok (mkDistance c m)) (chunks 2 lifted)).

(** [25.0 * B as f64 * threshold_ratio]. *)
Definition nhd_threshold_term (threshold_ratio : f64) : f64 :=
  f64_mul (f64_mul (f64_of_int 25) (f64_of_int B)) threshold_ratio.

(* nhd_ops.rs:142-169 nhd_greater_than_threshold *)
Definition nhd_greater_than_threshold (distances : list DistanceShare) (threshold_ratio : f64) : M R (list Share) :=
  let a := ring48_wrapping_sub 774144 (f64_as_u64 (nhd_threshold_term threshold_ratio)) in
  products ← reshare_products net_ring48 (length distances) (fun i =>
    d ← index distances i;
    let linear := share_sub Ring48 (share_scale Ring48 (code_dot d) 50) (share_scale Ring48 (mask_dot d) 5) in
    Ok (share_mul Ring48 (mask_dot d) linear));
  results ← liftr (mapM_result (fun '(i, product) =>
    d ← index distances i;
    Ok (share_add Ring48 (share_sub Ring48 product (share_scale Ring48 (mask_dot d) a))
          (share_scale Ring48 (code_dot d) 368640))) (zip (seq 0 (length products)) products));
  extract_msb_batch net_ring48 (HTr := Transpose64_ring48) results.

(** ** Definitions: bucket statistics *)

(* anon_stats.rs:15-38 compare_against_thresholds_batched *)
Definition compare_against_thresholds_batched (threshold_a_terms : list Z) (distances : list DistanceShare) : M R (list Share) :=
  let diffs := concat ((fun a => (fun d => let x := share_scale u32 (mask_dot d) a in
                                           let y := share_scale u32 (code_dot d) B in share_sub u32 x y) <$> distances)
                 <$> threshold_a_terms) in
  msbs ← extract_msb_batch net_u32 (HTr := Transpose64_u32) diffs;
  bit_inject net_u32 msbs.

(** [for &t in threshold_a_terms { .. msbs.extend(..) }]. *)
(* anon_stats.rs:49-52 nhd_compare_against_thresholds_batched (loop) *)
Fixpoint nhd_threshold_loop (threshold_a_terms : list f64) (distances : list DistanceShare) (msbs : list Share) : M R (list Share) :=
  match threshold_a_terms with
  | [] => mret msbs
  | t :: ts =>
      results ← nhd_greater_than_threshold distances t;
      nhd_threshold_loop ts distances (msbs ++ (share_not Bit <$> results))
  end.

(* anon_stats.rs:43-60 nhd_compare_against_thresholds_batched *)
Definition nhd_compare_against_thresholds_batched (threshold_a_terms : list f64) (distances : list DistanceShare) : M R (list Share) :=
  msbs ← nhd_threshold_loop threshold_a_terms distances [];
  bit_inject net_u32 msbs.

(** [chunk.reduce(|a, b| a + b).unwrap_or_default()]. *)
Definition sum_chunk (chunk : list Share) : Share :=
  match chunk with [] => share_zero u32 | x :: xs => foldl (share_add u32) x xs end.

(* anon_stats.rs:65-81 compare_threshold_buckets *)
Definition compare_threshold_buckets (threshold_a_terms : list Z) (distances : list DistanceShare) : M R (list Share) :=
  sums ← compare_against_thresholds_batched threshold_a_terms distances;
  buckets ← liftr (chunks_checked (length distances) sums);
  mret (sum_chunk <$> buckets).

(* anon_stats.rs:86-103 nhd_compare_threshold_buckets *)
Definition nhd_compare_threshold_buckets (threshold_a_terms : list f64) (distances : list DistanceShare) : M R (list Share) :=
  sums ← nhd_compare_against_thresholds_batched threshold_a_terms distances;
  buckets ← liftr (chunks_checked (length distances) sums);
  mret (sum_chunk <$> buckets).

(** The first distance of every group and the number of the others. *)
Definition first_distances (distances : list (list DistanceShare)) : result (list DistanceShare) :=
  mapM_result (fun group => match group with d :: _ => Ok d | [] => bail "Expected at least one distance in the group" end) distances.

(** One pass of the [while] loop: the next distance of every group with what
    the group was reduced to so far; the first distance of a finished group
    serves as a dummy. *)
Definition next_pairs (distances : list (list DistanceShare)) (sizes : list nat) (reduced : list DistanceShare)
    : result (list DistancePair) :=
  news ← mapM_result (fun '(group, size) => index group size) (zip distances sizes);
  Ok (zip news reduced).

(** The [while] loop, for either comparison; [fuel] bounds the passes. *)
Fixpoint reduce_loop (min_pairs : list DistancePair -> M R (list DistanceShare)) (fuel : nat)
    (distances : list (list DistanceShare)) (sizes : list nat) (reduced : list DistanceShare) : M R (list DistanceShare) :=
  if forallb (fun size => size =? 0)%nat sizes then mret reduced else
  match fuel with
  | O => liftr (panic "out of fuel")
  | S fuel =>
      pairs ← liftr (next_pairs distances sizes reduced);
      reduced ← min_pairs pairs;
      reduce_loop min_pairs fuel distances (pred <$> sizes) reduced
  end.

(* anon_stats.rs:106-147 reduce_to_min_distance_batch *)
Definition reduce_to_min_distance_batch (distances : list (list DistanceShare)) : M R (list DistanceShare) :=
  reduced ← liftr (first_distances distances);
  let sizes := (fun group => length group - 1)%nat <$> distances in
  reduce_loop min_of_pair_batch (max_list sizes) distances sizes reduced.

(* anon_stats.rs:149-190 nhd_reduce_to_min_distance_batch *)
Definition nhd_reduce_to_min_distance_batch (distances : list (list DistanceShare)) : M R (list DistanceShare) :=
  reduced ← liftr (first_distances distances);
  let sizes := (fun group => length group - 1)%nat <$> distances in
  reduce_loop nhd_min_of_pair_batch (max_list sizes) distances sizes reduced.

(* anon_stats.rs:198-208 compare_min_threshold_buckets *)
Definition compare_min_threshold_buckets (threshold_a_terms : list Z) (distances : list (list DistanceShare)) : M R (list Share) :=
  reduced ← reduce_to_min_distance_batch distances;
  compare_threshold_buckets threshold_a_terms reduced.

(* anon_stats.rs:210-225 compare_min_threshold_buckets_score_normalization *)
Definition compare_min_threshold_buckets_score_normalization (terms : list f64) (distances : list (list DistanceShare))
    : M R (list Share) :=
  reduced ← nhd_reduce_to_min_distance_batch distances;
  nhd_compare_threshold_buckets terms reduced.
End Protocols.

(** The check on dot products in the clear. *)
(* nhd_ops.rs:177-181 nhd_plaintext_is_match *)
Definition nhd_plaintext_is_match (hd md : Z) (threshold_ratio : f64) : bool :=
  let a_plain := 405504 - f64_as_i64 (nhd_threshold_term threshold_ratio) in
  md * (100 * hd - 45 * md) + a_plain * md + 737280 * hd <? 0.

(** ** Shares of integers *)

(** Shares of the residue of [z]. *)
Definition shares_int (T : IntRing2k) (s : tri Share) (z : Z) : Prop := shares_add T s (z mod 2 ^ K T).

(** A distance as integers, and three shares of it. *)
Abbreviation dist := (Z * Z)%type.
Definition residues (T : IntRing2k) (d : dist) : dist := (d.1 mod 2 ^ K T, d.2 mod 2 ^ K T).
Definition dist_int (T : IntRing2k) (t : tri DistanceShare) (d : dist) : Prop := distance_holds T t (residues T d).

(** The top bit of a [k]-bit residue is the sign of an integer in range. *)
Lemma sign_bit k z : 0 < k -> - 2 ^ (k - 1) <= z < 2 ^ (k - 1) -> Z.testbit (z mod 2 ^ k) (k - 1) = (z <? 0).
Proof.
  intros Hk Hz. assert (2 ^ k = 2 * 2 ^ (k - 1)) as E by (rewrite <- Z.pow_succ_r by lia; f_equal; lia).
  assert (0 < 2 ^ (k - 1)) by lia. apply Z.b2z_inj. rewrite Z.testbit_spec' by lia. destruct (Z.ltb_spec z 0).
  - rewrite <- (Z.mod_add z 1) by lia. rewrite (Z.mod_small (z + 1 * 2 ^ k)) by lia.
    rewrite <- (Z.div_unique_pos _ _ 1 (z + 1 * 2 ^ k - 2 ^ (k - 1))) by lia. done.
  - rewrite (Z.mod_small z), Z.div_small by lia. done.
Qed.

Section Integers.
Context {T : IntRing2k} {HT : IntRing2kOk T}.

Lemma shares_int_eq s x y : shares_int T s x -> x ==[2 ^ K T] y -> shares_int T s y.
Proof. intros H E. unfold shares_int, ceq in *. by rewrite <- E. Qed.
Lemma shares_int_add s r x y : shares_int T s x -> shares_int T r y -> shares_int T (tmap2 (share_add T) s r) (x + y).
Proof.
  intros Hs Hr. unfold shares_int. replace ((x + y) mod _) with ((x mod 2 ^ K T) +[T] (y mod 2 ^ K T)); [by apply share_add_spec|].
  apply valid_eq_mod; [eauto using re_add_valid, valid_mod|]. rewrite re_add_ceq, !ceq_mod. done.
Qed.
Lemma shares_int_sub s r x y : shares_int T s x -> shares_int T r y -> shares_int T (tmap2 (share_sub T) s r) (x - y).
Proof.
  intros Hs Hr. unfold shares_int. replace ((x - y) mod _) with ((x mod 2 ^ K T) ⊖[T] (y mod 2 ^ K T)); [by apply share_sub_spec|].
  apply valid_eq_mod; [eauto using re_sub_valid, valid_mod|]. rewrite re_sub_ceq, !ceq_mod. done.
Qed.
Lemma shares_int_scale s x k : valid T k -> shares_int T s x -> shares_int T ((fun s => share_scale T s k) <$> s) (x * k).
Proof.
  intros Hk Hs. unfold shares_int. replace ((x * k) mod _) with ((x mod 2 ^ K T) *[T] k); [by apply share_scale_spec|].
  apply valid_eq_mod; [eauto using re_mul_valid, valid_mod|]. rewrite re_mul_ceq, ceq_mod. done.
Qed.

(** Three components of the residue of [z]. *)
Definition add3_int (c : tri Z) (z : Z) : Prop := add3 T c (z mod 2 ^ K T).

Lemma add3_int_mul s r x y : shares_int T s x -> shares_int T r y -> add3_int (tmap2 (share_mul T) s r) (x * y).
Proof.
  intros Hs Hr. unfold add3_int. replace ((x * y) mod _) with ((x mod 2 ^ K T) *[T] (y mod 2 ^ K T)); [by apply share_mul_add3|].
  apply valid_eq_mod; [eauto using re_mul_valid, valid_mod|]. rewrite re_mul_ceq, !ceq_mod. done.
Qed.
Lemma add3_int_sub c d x y : add3_int c x -> add3_int d y -> add3_int (tmap2 (re_sub T) c d) (x - y).
Proof.
  intros [Hc Ex] [Hd Ey]. unfold tmap2. split; [intros i; rewrite tget_tof; by apply re_sub_valid|].
  unfold sum3 in *. cbn. symmetry. apply valid_eq_mod; [apply valid_mod|].
  rewrite ceq_mod, <- (ceq_mod _ x), <- (ceq_mod _ y), <- Ex, <- Ey, !ceq_mod. ring_ceq.
Qed.

(** The sign of an integer within range. *)
Lemma msb_sign z : - 2 ^ (K T - 1) <= z < 2 ^ (K T - 1) -> Z.testbit (z mod 2 ^ K T) (K T - 1) = (z <? 0).
Proof. apply sign_bit. pose proof (ir_K_pos (T:=T)). lia. Qed.
End Integers.

(** ** The sign of shared integers *)

Section Signs.
Context {R : Rng} {HR : RngOk R} (ids : tri Identity) (sid : Z).
Context {T : NetworkInt} {HT : NetworkIntOk T} {HTr : Transpose64 T}.

(** Batches of up to half a billion fit every message. *)
Definition batch_fits (n : nat) : Prop := 8 * Z.of_nat n + 512 <= 2 ^ 32.

Lemma batch_fits_msb n : (2 <= BYTES T <= 8)%nat -> batch_fits n ->
  2 <= K T /\ Z.of_nat (n * BYTES T) < 2 ^ 32 /\ Z.of_nat (Z.to_nat (K T) * div_ceil n 64 * 8) < 2 ^ 32.
Proof.
  unfold batch_fits, div_ceil. intros Hb Hn. rewrite (wr_K (T:=T)). pose proof (Nat.div_mod_eq (n + 64 - 1) 64).
  pose proof (Nat.mod_upper_bound (n + 64 - 1) 64). split_and!; [lia|nia|].
  replace (Z.to_nat (8 * Z.of_nat (BYTES T))) with (8 * BYTES T)%nat by lia.
  set (q := ((n + 64 - 1) / 64)%nat) in *. nia.
Qed.

Lemma signs_spec v zs :
  (2 <= BYTES T <= 8)%nat -> batch_fits (length zs) -> tvec (shares_int T) v zs ->
  Forall (fun z => - 2 ^ (K T - 1) <= z < 2 ^ (K T - 1)) zs ->
  proto (R := R) ids sid (fun i => extract_msb_batch T (v @ i))
    (fun out => tvec (shares_xor Bit) out ((fun z => Z.b2z (z <? 0)) <$> zs)).
Proof.
  intros Hb Hn Hv Hr. destruct (batch_fits_msb _ Hb Hn) as (HK & H1 & H2).
  eapply proto_mono; [|apply (extract_msb_batch_spec ids sid HK v ((fun z => z mod 2 ^ K T) <$> zs))]; rewrite ?length_fmap; try done.
  - intros out. rewrite <- list_fmap_compose. intros Ho.
    replace ((fun z => Z.b2z (z <? 0)) <$> zs) with ((fun x => Z.b2z (Z.testbit x (K T - 1))) ∘ (fun z => z mod 2 ^ K T) <$> zs); [done|].
    apply list_fmap_ext. intros k z Hz. cbn. f_equal. apply msb_sign. by apply (Forall_lookup_1 _ _ _ _ Hr Hz).
  - pose proof (tvec_map _ (shares_add T) (fun _ s => s) (fun z => z mod 2 ^ K T) v zs (fun s x H => ltac:(destruct s; exact H)) Hv) as H.
    replace v with (tof (fun i => (fun s => s) <$> v @ i)); [done|]. apply tri_ext. intros i. by rewrite tget_tof, list_fmap_id.
Qed.
End Signs.

(** Products of shared integers, one per entry. *)
Lemma int_products_spec {R} {HR : RngOk R} ids sid (T : NetworkInt) {HT : NetworkIntOk T} {X V}
    (RX : tri X -> V -> Prop) (f : X -> Z) (g : V -> Z) (expr : PartyID -> nat -> result Z) E vs :
  (forall t v, RX t v -> add3_int (T:=T) (tof (fun i => f (t @ i))) (g v)) ->
  tvec RX E vs -> (forall i k x, (E @ i) !! k = Some x -> expr i k = Ok (f x)) ->
  proto (R := R) ids sid (fun i => reshare_products T (length vs) (expr i)) (fun out => tvec (shares_int T) out (g <$> vs)).
Proof.
  intros Hf HE Hx. pose proof (tvec_map RX (fun t x => add3 T t (x mod 2 ^ K T)) (fun _ => f) g E vs Hf HE) as H.
  apply (proj2 (tvec_fmap_r (add3 T) (fun z => z mod 2 ^ K T) _ _)) in H. rewrite <- (length_fmap g vs), <- (length_fmap (fun z => z mod 2 ^ K T) (g <$> vs)).
  eapply proto_mono; [|eapply (reshare_products_spec ids sid expr); [exact H|]].
  - intros out Ho. exact (proj1 (tvec_fmap_r _ _ _ _) Ho).
  - intros i k y. rewrite tget_tof, list_lookup_fmap. intros (x & E' & ->)%fmap_Some. by apply Hx.
Qed.

(** The signs of integers computed locally, one per entry. *)
Lemma local_signs_spec {R} {HR : RngOk R} ids sid (T : NetworkInt) {HT : NetworkIntOk T} {HTr : Transpose64 T} {X V}
    (RX : tri X -> V -> Prop) (f : X -> Share) (g : V -> Z) (p : V -> bool) E vs :
  (2 <= BYTES T <= 8)%nat -> batch_fits (length vs) ->
  (forall t v, RX t v -> shares_int T (tof (fun i => f (t @ i))) (g v)) -> (forall v, p v = (g v <? 0)) ->
  tvec RX E vs -> Forall (fun v => - 2 ^ (K T - 1) <= g v < 2 ^ (K T - 1)) vs ->
  proto (R := R) ids sid (fun i => extract_msb_batch T (f <$> E @ i))
    (fun out => tvec (shares_xor Bit) out ((fun v => Z.b2z (p v)) <$> vs)).
Proof.
  intros Hb Hn Hf Hp HE Hr. apply (proto_ext ids sid _ (fun i => extract_msb_batch T ((tof (fun i => f <$> E @ i)) @ i))).
  { intros s i _. by rewrite tget_tof. }
  eapply proto_mono; [|apply (signs_spec ids sid _ (g <$> vs))].
  - intros out. rewrite <- list_fmap_compose. intros Ho.
    replace ((fun v => Z.b2z (p v)) <$> vs) with ((fun z => Z.b2z (z <? 0)) ∘ g <$> vs); [done|].
    apply list_fmap_ext. intros k v _. cbn. by rewrite Hp.
  - done.
  - by rewrite length_fmap.
  - exact (tvec_map RX (shares_int T) (fun _ => f) g E vs Hf HE).
  - by apply Forall_fmap.
Qed.

(** Comparing pairs by the sign of a shared integer, opening the bits, and
    selecting one of each pair by them. *)
Section Select.
Context {R : Rng} {HR : RngOk R} (ids : tri Identity) (sid : Z) (T : NetworkInt) {HT : NetworkIntOk T}.
Context (m : PartyID -> M R (list Share)).

Lemma compare_signs {HTr : Transpose64 T} {V} (g : V -> Z) (p : V -> bool) vs :
  (2 <= BYTES T <= 8)%nat -> batch_fits (length vs) ->
  proto ids sid m (fun out => tvec (shares_int T) out (g <$> vs)) -> (forall v, p v = (g v <? 0)) ->
  Forall (fun v => - 2 ^ (K T - 1) <= g v < 2 ^ (K T - 1)) vs ->
  proto ids sid (fun i => diff ← m i; extract_msb_batch T diff) (fun out => tvec (shares_xor Bit) out (Z.b2z <$> (p <$> vs))).
Proof.
  intros Hb Hn Hm Hp Hr. eapply proto_bind; [exact Hm|]. intros diff Hd.
  eapply proto_mono; [|eapply (signs_spec ids sid); [done| |exact Hd|by apply Forall_fmap]]; [|by rewrite length_fmap].
  intros out Ho. refine (eq_ind _ (tvec (shares_xor Bit) out) Ho _ _). rewrite <- !list_fmap_compose.
  apply list_fmap_ext. intros k v _. cbn. by rewrite Hp.
Qed.

Lemma open_bits bs :
  proto ids sid m (fun out => tvec (shares_xor Bit) out (Z.b2z <$> bs)) ->
  proto ids sid (fun i => bits ← m i; o ← open_bin bits; mret (bit_convert <$> o)) (fun out => forall i, out @ i = bs).
Proof.
  intros Hm. eapply proto_bind; [exact Hm|]. intros bits Hb. eapply proto_bind; [by apply (open_bin_spec ids sid _ _ Hb)|]. intros o Ho.
  eapply proto_ext; [|apply (proto_ret ids sid (tof (fun _ => bs))); intros i; by rewrite tget_tof].
  intros s i _. cbn beta. rewrite tget_tof, Ho. f_equal. rewrite <- list_fmap_compose. rewrite <- (list_fmap_id bs) at 2.
  apply list_fmap_ext. intros k b _. by destruct b.
Qed.

Lemma select_nearer (near : dist * dist -> bool) E ps :
  (BYTES T <= 8)%nat -> batch_fits (length ps) -> tvec (pair_holds (dist_int T)) E ps ->
  proto ids sid m (fun out => tvec (shares_xor Bit) out (Z.b2z <$> (near <$> ps))) ->
  proto ids sid (fun i => bits ← (bits ← m i; bit_inject T bits); conditionally_select_distance T (E @ i) bits)
    (fun out => tvec (dist_int T) out ((fun p => pick (near p) p) <$> ps)).
Proof.
  intros Hb Hn HE Hm. eapply proto_bind; [eapply proto_bind; [exact Hm|]|].
  - intros bits Hbits. apply (bit_inject_spec ids sid _ _ Hbits). rewrite !length_fmap. unfold batch_fits in Hn. nia.
  - intros bits Hbits.
    eapply proto_mono; [|apply (select_distance_spec ids sid _ _ _ ((fun p => (residues T p.1, residues T p.2)) <$> ps) Hbits)].
    + intros out Ho. apply (proj1 (tvec_fmap_r (distance_holds T) (residues T) out _)).
      refine (eq_ind _ (tvec (distance_holds T) out) Ho _ _). rewrite <- list_fmap_compose. clear. induction ps as [|p ps IH]; [done|].
      rewrite !fmap_cons. cbn [zip_with]. rewrite IH. f_equal. cbn. unfold pick. by destruct (near p).
    + apply (proj2 (tvec_fmap_r (pair_holds (distance_holds T)) _ E ps)). exact HE.
    + by rewrite !length_fmap.
Qed.
End Select.

(** ** Fractional Hamming distance *)

(** Dot products of iris codes: at most [2^14] bits, of which the mask counts
    the compared ones and the code the agreeing less the differing ones. *)
Definition in_range (d : dist) : Prop := 0 <= d.2 < 2 ^ 14 /\ Z.abs d.1 <= d.2.
#[export] Instance in_range_dec d : Decision (in_range d).
Proof. unfold in_range. apply _. Defined.

(** [d1] is strictly nearer than [d2]: a larger part of its compared bits agrees. *)
Definition fhd_nearer (d1 d2 : dist) : bool := d2.1 * d1.2 <? d1.1 * d2.2.
Definition fhd_min (p : dist * dist) : dist := pick (fhd_nearer p.1 p.2) p.
(** Further away than the threshold [a / B] allows. *)
Definition fhd_beyond (a : Z) (d : dist) : bool := d.1 * B <? d.2 * a.

Section FHD.
Context {R : Rng} {HR : RngOk R} (ids : tri Identity) (sid : Z).

Lemma fhd_diff_int a t d :
  valid u32 a -> dist_int u32 t d ->
  shares_int u32 (tof (fun i => share_sub u32 (share_scale u32 (code_dot (t @ i)) B) (share_scale u32 (mask_dot (t @ i)) a)))
    (d.1 * B - d.2 * a).
Proof.
  intros Ha [Hc Hm].
  exact (shares_int_sub (T:=u32) _ _ _ _ (shares_int_scale (T:=u32) _ _ B ltac:(done) Hc) (shares_int_scale (T:=u32) _ _ a Ha Hm)).
Qed.

Lemma fhd_diff_range a d : 0 <= a <= B -> in_range d -> - 2 ^ (K u32 - 1) <= d.1 * B - d.2 * a < 2 ^ (K u32 - 1).
Proof. unfold in_range, B. change (K u32) with 32. intros Ha (Hm & Hc). nia. Qed.

Lemma fhd_greater_than_threshold_spec D ds t a :
  tvec (dist_int u32) D ds -> Forall in_range ds -> batch_fits (length ds) ->
  translate_threshold_a t = Ok a -> 0 <= a <= B ->
  proto (R := R) ids sid (fun i => fhd_greater_than_threshold (D @ i) t)
    (fun out => tvec (shares_xor Bit) out ((fun d => Z.b2z (fhd_beyond a d)) <$> ds)).
Proof.
  intros HD Hr Hn Ha Hab. assert (valid u32 a) as Va by (unfold valid, B in *; change (K u32) with 32; lia).
  apply (proto_ext ids sid _ (fun i => extract_msb_batch net_u32 (HTr := Transpose64_u32)
    ((fun d => share_sub u32 (share_scale u32 (code_dot d) B) (share_scale u32 (mask_dot d) a)) <$> D @ i))).
  { intros s i _. unfold fhd_greater_than_threshold. by rewrite Ha. }
  apply (local_signs_spec ids sid net_u32 (dist_int u32) _ (fun d => d.1 * B - d.2 * a)); try done.
  - cbn. lia.
  - intros tt d. by apply fhd_diff_int.
  - intros d. unfold fhd_beyond. destruct (Z.ltb_spec (d.1 * B) (d.2 * a)); lia.
  - eapply Forall_impl; [exact Hr|]. intros d. by apply fhd_diff_range.
Qed.

Lemma cross_int t p :
  pair_holds (dist_int u32) t p ->
  add3_int (T:=u32) (tof (fun i => share_mul u32 (code_dot (t @ i).2) (mask_dot (t @ i).1)
                           ⊖[u32] share_mul u32 (code_dot (t @ i).1) (mask_dot (t @ i).2)))
    (p.2.1 * p.1.2 - p.1.1 * p.2.2).
Proof.
  intros [[Hc1 Hm1] [Hc2 Hm2]]. exact (add3_int_sub (T:=u32) _ _ _ _ (add3_int_mul _ _ _ _ Hc2 Hm1) (add3_int_mul _ _ _ _ Hc1 Hm2)).
Qed.

Lemma cross_mul_spec E ps :
  tvec (pair_holds (dist_int u32)) E ps ->
  proto (R := R) ids sid (fun i => cross_mul (E @ i))
    (fun out => tvec (shares_int u32) out ((fun p => p.2.1 * p.1.2 - p.1.1 * p.2.2) <$> ps)).
Proof.
  intros HE. eapply proto_ext; [|apply (int_products_spec ids sid net_u32 (pair_holds (dist_int u32))
    (fun d => share_mul u32 (code_dot d.2) (mask_dot d.1) ⊖[u32] share_mul u32 (code_dot d.1) (mask_dot d.2)) _
    (fun i k => '(d1, d2) ← index (E @ i) k;
       Ok (share_mul u32 (code_dot d2) (mask_dot d1) ⊖[u32] share_mul u32 (code_dot d1) (mask_dot d2))) E ps cross_int HE)].
  - intros s i _. unfold cross_mul. by rewrite (tvec_length _ _ _ i HE).
  - intros i k [d1 d2] Hk. unfold index. by rewrite Hk.
Qed.

Definition pair_in_range (p : dist * dist) : Prop := in_range p.1 /\ in_range p.2.

Lemma oblivious_cross_compare_spec E ps :
  tvec (pair_holds (dist_int u32)) E ps -> Forall pair_in_range ps -> batch_fits (length ps) ->
  proto (R := R) ids sid (fun i => oblivious_cross_compare (E @ i))
    (fun out => tvec (shares_xor Bit) out (Z.b2z <$> ((fun p => fhd_nearer p.1 p.2) <$> ps))).
Proof.
  intros HE Hr Hn. apply (compare_signs ids sid net_u32 (HTr:=Transpose64_u32) _ (fun p => p.2.1 * p.1.2 - p.1.1 * p.2.2)); try done.
  - cbn. lia.
  - by apply cross_mul_spec.
  - intros p. unfold fhd_nearer. destruct (Z.ltb_spec (p.2.1 * p.1.2) (p.1.1 * p.2.2)); lia.
  - eapply Forall_impl; [exact Hr|]. intros [d1 d2] [[Hm1 Hc1] [Hm2 Hc2]]. cbn in *. nia.
Qed.

Lemma min_of_pair_batch_spec E ps :
  tvec (pair_holds (dist_int u32)) E ps -> Forall pair_in_range ps -> batch_fits (length ps) ->
  proto (R := R) ids sid (fun i => min_of_pair_batch (E @ i)) (fun out => tvec (dist_int u32) out (fhd_min <$> ps)).
Proof.
  intros HE Hr Hn. apply (select_nearer ids sid net_u32 _ (fun p => fhd_nearer p.1 p.2) E ps); try done; [cbn; lia|].
  by apply oblivious_cross_compare_spec.
Qed.
End FHD.

(** ** Normalized Hamming distance *)

Definition nmr (d : dist) : Z := d.2 * (d.2 - d.1 * NHD_LINEAR_COEFF) - d.1 * NHD_CORRECTION.
(** [d1] is strictly nearer than [d2]. *)
Definition nhd_nearer (d1 d2 : dist) : bool := nmr d1 * d2.2 <? nmr d2 * d1.2.
Definition nhd_min (p : dist * dist) : dist := pick (nhd_nearer p.1 p.2) p.

Definition flat_pairs {A} (l : list (A * A)) : list A := concat ((fun p => [p.1; p.2]) <$> l).

Lemma length_flat_pairs {A} (l : list (A * A)) : length (flat_pairs l) = (2 * length l)%nat.
Proof. unfold flat_pairs. rewrite (length_concat_const 2), length_fmap; [lia|]. by apply Forall_fmap, Forall_true. Qed.

Lemma flat_pairs_lookup {A} (l : list (A * A)) k :
  flat_pairs l !! k = (fun p => if (k mod 2 =? 0)%nat then p.1 else p.2) <$> l !! (k / 2)%nat.
Proof.
  unfold flat_pairs. rewrite (concat_lookup 2) by first [lia|by apply Forall_fmap, Forall_true].
  rewrite list_lookup_fmap. destruct (l !! (k / 2)%nat) as [p|]; [|done].
  change ([p.1; p.2] !! (k mod 2)%nat = Some (if (k mod 2 =? 0)%nat then p.1 else p.2)).
  pose proof (Nat.mod_upper_bound k 2). destruct (k mod 2)%nat as [|[|m]]; [done|done|lia].
Qed.

Lemma flat_pairs_tvec {A V} (P : tri A -> V -> Prop) E ps :
  tvec (pair_holds P) E ps -> tvec P (flat_pairs <$> E) (flat_pairs ps).
Proof.
  induction 1 as [|t E p ps [H1 H2] HE IH]; [apply tvec_nil|].
  refine (eq_ind _ (fun u => tvec P u _) (tvec_cons P (fst <$> t) _ _ _ H1 (tvec_cons P (snd <$> t) _ _ _ H2 IH)) _ _).
  apply tri_ext. intros i. by destruct i.
Qed.

Lemma tuples2_lookup {A} (l : list A) i p :
  tuples2 l !! i = Some p -> l !! (2 * i)%nat = Some p.1 /\ l !! (2 * i + 1)%nat = Some p.2.
Proof.
  revert i. assert (forall n l, (length l <= n)%nat -> forall i, tuples2 l !! i = Some p ->
    l !! (2 * i)%nat = Some p.1 /\ l !! (2 * i + 1)%nat = Some p.2) as H; [|by apply (H (length l))].
  clear l. induction n as [|n IH]; intros [|x [|y l]] Hl i; try done; [cbn in Hl; lia|].
  destruct i as [|i]; cbn [tuples2]; [by intros [= <-]|]. cbn [lookup list_lookup]. intros Hi. cbn in Hl.
  destruct (IH l ltac:(lia) i Hi) as [H1 H2].
  replace (2 * S i)%nat with (S (S (2 * i))) by lia. replace (S (S (2 * i)) + 1)%nat with (S (S (2 * i + 1))) by lia. done.
Qed.

Lemma mapM_result_seq {A} (f : nat -> result A) (l : list A) :
  (forall i x, l !! i = Some x -> f i = Ok x) -> mapM_result f (seq 0 (length l)) = Ok l.
Proof.
  assert (forall (l : list A) f n, (forall i x, l !! i = Some x -> f (n + i)%nat = Ok x) ->
    mapM_result f (seq n (length l)) = Ok l) as H; [|intros Hf; apply (H l f 0%nat); done].
  clear. induction l as [|x l IH]; intros f n Hf; [done|]. cbn [length seq mapM_result].
  rewrite <- (Nat.add_0_r n) at 1. rewrite (Hf 0%nat x) by done. cbn [mbind result_bind].
  rewrite (IH f (S n)); [done|]. intros i y Hi. replace (S n + i)%nat with (n + S i)%nat by lia. by apply Hf.
Qed.

Lemma mapM_result_enumerate {A B C} (f : A -> B -> C) (l : list A) (k : list B) :
  length l = length k ->
  mapM_result (fun '(i, x) => y ← index k i; Ok (f x y)) (zip (seq 0 (length l)) l) = Ok (zip_with f l k).
Proof.
  intros Hl. assert (forall l j k, length l = length k -> mapM_result (fun '(i, x) => y ← index (j ++ k) i; Ok (f x y))
    (zip (seq (length j) (length l)) l) = Ok (zip_with f l k)) as H; [|exact (H l [] k Hl)].
  clear. induction l as [|x l IH]; intros j [|y k] Hl; try done. cbn [length seq zip zip_with mapM_result].
  assert (index (j ++ y :: k) (length j) = Ok y) as -> by (unfold index; by rewrite lookup_app_r, Nat.sub_diag by lia).
  specialize (IH (j ++ [y]) k ltac:(cbn in Hl; lia)). rewrite length_app, Nat.add_1_r, <- app_assoc in IH. cbn [app] in IH.
  by rewrite IH.
Qed.

Section NHD.
Context {R : Rng} {HR : RngOk R} (ids : tri Identity) (sid : Z).

Lemma nhd_product_int t d :
  dist_int Ring48 t d ->
  add3_int (T:=Ring48) (tof (fun i => share_mul Ring48 (mask_dot (t @ i))
      (share_sub Ring48 (mask_dot (t @ i)) (share_scale Ring48 (code_dot (t @ i)) NHD_LINEAR_COEFF))))
    (d.2 * (d.2 - d.1 * NHD_LINEAR_COEFF)).
Proof.
  intros [Hc Hm]. exact (add3_int_mul (T:=Ring48) _ _ _ _ Hm (shares_int_sub (T:=Ring48) _ _ _ _ Hm
    (shares_int_scale (T:=Ring48) _ _ NHD_LINEAR_COEFF ltac:(vm_compute; done) Hc))).
Qed.

Definition nhd_correct (product : Share) (d : DistanceShare) : Share :=
  share_sub Ring48 product (share_scale Ring48 (code_dot d) NHD_CORRECTION).

Lemma nhd_correct_int s t z d :
  shares_int Ring48 s z -> dist_int Ring48 t d -> shares_int Ring48 (tmap2 nhd_correct s t) (z - d.1 * NHD_CORRECTION).
Proof.
  intros Hs [Hc Hm]. exact (shares_int_sub (T:=Ring48) _ _ _ _ Hs
    (shares_int_scale (T:=Ring48) _ _ NHD_CORRECTION ltac:(vm_compute; done) Hc)).
Qed.

(** Both numerators of a pair, with the pair. *)
Definition nhd_entry (t : tri ((Share * Share) * DistancePair)) (p : dist * dist) : Prop :=
  pair_holds (shares_int Ring48) (fst <$> t) (nmr p.1, nmr p.2) /\ pair_holds (dist_int Ring48) (snd <$> t) p.

Lemma nhd_entry_int t p :
  nhd_entry t p ->
  add3_int (T:=Ring48) (tof (fun i => share_mul Ring48 (t @ i).1.1 (mask_dot (t @ i).2.2)
      ⊖[Ring48] share_mul Ring48 (t @ i).1.2 (mask_dot (t @ i).2.1))) (nmr p.1 * p.2.2 - nmr p.2 * p.1.2).
Proof.
  intros [[Hn1 Hn2] [[_ Hm1] [_ Hm2]]].
  exact (add3_int_sub (T:=Ring48) _ _ _ _ (add3_int_mul _ _ _ _ Hn1 Hm2) (add3_int_mul _ _ _ _ Hn2 Hm1)).
Qed.
(** The first round. *)
Lemma nhd_products_spec E ps :
  tvec (pair_holds (dist_int Ring48)) E ps ->
  proto (R := R) ids sid (fun i => reshare_products net_ring48 (2 * length (E @ i)) (fun k =>
      d ← nhd_operand (E @ i) k;
      let linear := share_sub Ring48 (mask_dot d) (share_scale Ring48 (code_dot d) NHD_LINEAR_COEFF) in
      Ok (share_mul Ring48 (mask_dot d) linear)))
    (fun out => tvec (pair_holds (shares_int Ring48)) (tuples2 <$> out)
       ((fun p => (p.1.2 * (p.1.2 - p.1.1 * NHD_LINEAR_COEFF), p.2.2 * (p.2.2 - p.2.1 * NHD_LINEAR_COEFF))) <$> ps)).
Proof.
  intros HE. eapply proto_mono; [|eapply proto_ext; [|apply (int_products_spec ids sid net_ring48 (dist_int Ring48)
    (fun d => share_mul Ring48 (mask_dot d) (share_sub Ring48 (mask_dot d) (share_scale Ring48 (code_dot d) NHD_LINEAR_COEFF))) _
    (fun i k => d ← nhd_operand (E @ i) k;
       let linear := share_sub Ring48 (mask_dot d) (share_scale Ring48 (code_dot d) NHD_LINEAR_COEFF) in
       Ok (share_mul Ring48 (mask_dot d) linear)) (flat_pairs <$> E) (flat_pairs ps) nhd_product_int)]].
  - intros out Ho. apply tuples2_tvec. refine (eq_ind _ (tvec (shares_int Ring48) out) Ho _ _).
    clear. induction ps as [|[d1 d2] ps IH]; [done|]. unfold flat_pairs in *. rewrite !fmap_cons. cbn [concat app fmap list_fmap] in *. by rewrite IH.
  - intros s i _. by rewrite length_flat_pairs, (tvec_length _ _ _ i HE).
  - by apply flat_pairs_tvec.
  - intros i k x. rewrite tget_fmap, flat_pairs_lookup. intros (p & Hp & ->)%fmap_Some.
    unfold nhd_operand, index. rewrite Hp. destruct p. cbn. by destruct (k mod 2 =? 0)%nat.
Qed.

Lemma nhd_cross_mul_spec E ps :
  tvec (pair_holds (dist_int Ring48)) E ps ->
  proto (R := R) ids sid (fun i => nhd_cross_mul (E @ i))
    (fun out => tvec (shares_int Ring48) out ((fun p => nmr p.1 * p.2.2 - nmr p.2 * p.1.2) <$> ps)).
Proof.
  intros HE. eapply proto_bind; [by apply (nhd_products_spec E ps)|]. intros products Hp.
  set (f := fun (p : Share * Share) (d : DistancePair) => (nhd_correct p.1 d.1, nhd_correct p.2 d.2)).
  set (N := tof (fun i => zip_with f (tuples2 (products @ i)) (E @ i))). apply (proj1 (tvec_fmap_r _ _ _ _)) in Hp.
  assert (tvec (fun t p => pair_holds (shares_int Ring48) t (nmr p.1, nmr p.2)) N ps) as HN.
  { refine (eq_ind _ (fun u => tvec _ u ps) (tvec_zip_same _ _ _ f _ _ _ _ Hp HE) _ _);
      [|apply tri_ext; intros i; unfold N; by rewrite !tget_tof, tget_fmap].
    intros s t p [H1 H2] [H3 H4]. split; [exact (nhd_correct_int _ _ _ _ H1 H3)|exact (nhd_correct_int _ _ _ _ H2 H4)]. }
  eapply proto_bind; [apply (proto_liftr ids sid _ N (fun x => x = N)); [|done]|].
  - intros i. replace (length (E @ i)) with (length (N @ i)) by (by rewrite (tvec_length _ _ _ i HN), (tvec_length _ _ _ i HE)).
    apply mapM_result_seq. intros k x. unfold N. rewrite tget_tof. intros Hk. apply lookup_zip_with_Some in Hk as ([p1 p2] & [d1 d2] & -> & Hk & Hd).
    apply tuples2_lookup in Hk as [Hk1 Hk2]. unfold index. by rewrite Hd, Hk1, Hk2.
  - intros ? ->. pose proof (tvec_zip_same _ _ nhd_entry pair _ _ _ (fun s t p H1 H2 => ltac:(split; [destruct s, t; exact H1|destruct s, t; exact H2])) HN HE) as HZ.
    eapply proto_ext; [|apply (int_products_spec ids sid net_ring48 nhd_entry
      (fun x => share_mul Ring48 x.1.1 (mask_dot x.2.2) ⊖[Ring48] share_mul Ring48 x.1.2 (mask_dot x.2.1)) _
      (fun i k => '(nmr1, nmr2) ← index (N @ i) k; '(d1, d2) ← index (E @ i) k;
         Ok (share_mul Ring48 nmr1 (mask_dot d2) ⊖[Ring48] share_mul Ring48 nmr2 (mask_dot d1))) _ _ nhd_entry_int HZ)].
    + intros s i _. by rewrite (tvec_length _ _ _ i HE).
    + intros i k x. rewrite tget_tof. intros Hk. apply lookup_zip_with_Some in Hk as ([n1 n2] & [d1 d2] & -> & Hk & Hd).
      unfold index. by rewrite Hk, Hd.
Qed.

Lemma nmr_bound d : in_range d -> Z.abs (nmr d) <= 4160749568.
Proof. unfold nmr, in_range, NHD_LINEAR_COEFF, NHD_CORRECTION. intros [Hm Hc]. nia. Qed.

Lemma nhd_cross_range p : pair_in_range p -> - 2 ^ 47 <= nmr p.1 * p.2.2 - nmr p.2 * p.1.2 < 2 ^ 47.
Proof.
  intros [H1 H2]. pose proof (nmr_bound _ H1). pose proof (nmr_bound _ H2). destruct H1 as [M1 _], H2 as [M2 _].
  assert (Z.abs (nmr p.1 * p.2.2) <= 4160749568 * 16383) by (rewrite Z.abs_mul; nia).
  assert (Z.abs (nmr p.2 * p.1.2) <= 4160749568 * 16383) by (rewrite Z.abs_mul; nia). lia.
Qed.

Lemma nhd_oblivious_cross_compare_spec E ps :
  tvec (pair_holds (dist_int Ring48)) E ps -> Forall pair_in_range ps -> batch_fits (length ps) ->
  proto (R := R) ids sid (fun i => nhd_oblivious_cross_compare (E @ i))
    (fun out => tvec (shares_xor Bit) out (Z.b2z <$> ((fun p => nhd_nearer p.1 p.2) <$> ps))).
Proof.
  intros HE Hr Hn. apply (compare_signs ids sid net_ring48 (HTr:=Transpose64_ring48) _ (fun p => nmr p.1 * p.2.2 - nmr p.2 * p.1.2)); try done.
  - cbn. lia.
  - by apply nhd_cross_mul_spec.
  - intros p. unfold nhd_nearer. destruct (Z.ltb_spec (nmr p.1 * p.2.2) (nmr p.2 * p.1.2)); lia.
  - eapply Forall_impl; [exact Hr|]. apply nhd_cross_range.
Qed.

Lemma nhd_min_of_pair_batch_spec E ps :
  tvec (pair_holds (dist_int Ring48)) E ps -> Forall pair_in_range ps -> batch_fits (length ps) ->
  proto (R := R) ids sid (fun i => nhd_min_of_pair_batch (E @ i)) (fun out => tvec (dist_int Ring48) out (nhd_min <$> ps)).
Proof.
  intros HE Hr Hn. apply (select_nearer ids sid net_ring48 _ (fun p => nhd_nearer p.1 p.2) E ps); try done; [cbn; lia|].
  by apply nhd_oblivious_cross_compare_spec.
Qed.

(** What the threshold comparison evaluates, [tau] being the threshold's term. *)
Definition nhd_value (tau : Z) (d : dist) : Z := d.2 * (d.1 * 50 - d.2 * 5) - d.2 * (774144 - tau) + d.1 * 368640.
Definition nhd_beyond (tau : Z) (d : dist) : bool := nhd_value tau d <? 0.

Lemma nhd_threshold_int tau s t d :
  shares_int Ring48 s (d.2 * (d.1 * 50 - d.2 * 5)) -> dist_int Ring48 t d -> 0 <= tau < 2 ^ 64 ->
  shares_int Ring48 (tof (fun i => share_add Ring48 (share_sub Ring48 (s @ i) (share_scale Ring48 (mask_dot (t @ i))
      (ring48_wrapping_sub 774144 tau))) (share_scale Ring48 (code_dot (t @ i)) 368640))) (nhd_value tau d).
Proof.
  intros Hs [Hc Hm] Ht. set (a := ring48_wrapping_sub 774144 tau).
  assert (a = (774144 - tau) mod 2 ^ 48) as Ea.
  { unfold a, ring48_wrapping_sub, MASK_48. change (wrapping_sub u64 774144 tau) with ((774144 - tau) mod 2 ^ 64).
    change (2 ^ 48 - 1) with (Z.ones 48). rewrite Z.land_ones by done. apply Z.mod_mod_divide. by exists (2 ^ 16). }
  assert (valid Ring48 a) as Va by (rewrite Ea; apply (valid_mod (T:=Ring48))).
  eapply shares_int_eq; [exact (shares_int_add (T:=Ring48) _ _ _ _ (shares_int_sub (T:=Ring48) _ _ _ _ Hs
    (shares_int_scale (T:=Ring48) _ _ a Va Hm)) (shares_int_scale (T:=Ring48) _ _ 368640 ltac:(vm_compute; done) Hc))|].
  unfold nhd_value. rewrite Ea. change (K Ring48) with 48. by rewrite ceq_mod.
Qed.

Lemma nhd_value_range tau d : in_range d -> 0 <= tau <= 2 ^ 21 -> - 2 ^ 47 <= nhd_value tau d < 2 ^ 47.
Proof.
  unfold nhd_value, in_range. intros [Hm Hc] Ht. assert (Z.abs (d.2 * (d.1 * 50 - d.2 * 5)) <= 16384 * (16384 * 55)) by (rewrite Z.abs_mul; nia).
  assert (Z.abs (d.2 * (774144 - tau)) <= 16384 * 2 ^ 21) by (rewrite Z.abs_mul; nia). lia.
Qed.

Lemma nhd_greater_than_threshold_spec D ds t :
  let tau := f64_as_u64 (nhd_threshold_term t) in
  tvec (dist_int Ring48) D ds -> Forall in_range ds -> batch_fits (length ds) -> tau <= 2 ^ 21 ->
  proto (R := R) ids sid (fun i => nhd_greater_than_threshold (D @ i) t)
    (fun out => tvec (shares_xor Bit) out ((fun d => Z.b2z (nhd_beyond tau d)) <$> ds)).
Proof.
  intros tau HD Hr Hn Ht. assert (0 <= tau) as Ht0 by (apply (f64_clamp_range 0 (2 ^ 64 - 1)); lia).
  eapply proto_bind.
  { eapply proto_ext; [|apply (int_products_spec ids sid net_ring48 (dist_int Ring48) (fun d => share_mul Ring48 (mask_dot d)
      (share_sub Ring48 (share_scale Ring48 (code_dot d) 50) (share_scale Ring48 (mask_dot d) 5))) (fun d => d.2 * (d.1 * 50 - d.2 * 5))
      (fun i k => d ← index (D @ i) k;
         let linear := share_sub Ring48 (share_scale Ring48 (code_dot d) 50) (share_scale Ring48 (mask_dot d) 5) in
         Ok (share_mul Ring48 (mask_dot d) linear)) D ds); [|exact HD|]].
    - intros s i _. by rewrite (tvec_length _ _ _ i HD).
    - intros x d [Hc Hm]. exact (add3_int_mul (T:=Ring48) _ _ _ _ Hm (shares_int_sub (T:=Ring48) _ _ _ _
        (shares_int_scale (T:=Ring48) _ _ 50 ltac:(vm_compute; done) Hc) (shares_int_scale (T:=Ring48) _ _ 5 ltac:(vm_compute; done) Hm))).
    - intros i k d Hk. unfold index. by rewrite Hk. }
  intros products Hp. set (f := fun product d => share_add Ring48 (share_sub Ring48 product (share_scale Ring48 (mask_dot d)
    (ring48_wrapping_sub 774144 tau))) (share_scale Ring48 (code_dot d) 368640)).
  set (V := tof (fun i => zip_with f (products @ i) (D @ i))).
  eapply proto_bind; [apply (proto_liftr ids sid _ V (fun x => x = V)); [|done]|].
  - intros i. unfold V. rewrite tget_tof. apply (mapM_result_enumerate f).
    by rewrite (tvec_length _ _ _ i Hp), length_fmap, (tvec_length _ _ _ i HD).
  - intros ? ->. apply (proj1 (tvec_fmap_r _ _ _ _)) in Hp.
    pose proof (tvec_zip_same _ _ (fun s d => shares_int Ring48 s (nhd_value tau d)) f _ _ _
      (fun s r d H1 H2 => nhd_threshold_int tau s r d H1 H2 ltac:(lia)) Hp HD) as HV.
    eapply proto_mono; [|apply (signs_spec ids sid (T:=net_ring48) (HTr:=Transpose64_ring48) V (nhd_value tau <$> ds))].
    + intros out Ho. by rewrite <- list_fmap_compose in Ho.
    + cbn. lia.
    + by rewrite length_fmap.
    + exact (proj2 (tvec_fmap_r _ _ _ _) HV).
    + apply Forall_fmap. eapply Forall_impl; [exact Hr|]. intros d Hd. cbn. apply nhd_value_range; [done|lia].
Qed.
End NHD.

(** ** Buckets *)

(** The number of distances that satisfy [p]. *)
Definition count (p : dist -> bool) (ds : list dist) : Z := Z.of_nat (length (List.filter p ds)).

Lemma count_cons p d ds : count p (d :: ds) = Z.b2z (p d) + count p ds.
Proof. unfold count. cbn. destruct (p d); cbn [length Z.b2z]; lia. Qed.
Lemma count_bound p ds : 0 <= count p ds <= Z.of_nat (length ds).
Proof. induction ds as [|d ds IH]; [done|]. rewrite count_cons. cbn [length]. destruct (p d); cbn [Z.b2z]; lia. Qed.

(** The sum of a chunk is shared by the sums of the shares. *)
Lemma sum_chunk_spec v xs :
  tvec (shares_int u32) v xs -> shares_int u32 (sum_chunk <$> v) (foldr Z.add 0 xs).
Proof.
  intros Hv. destruct Hv as [|s v x xs Hs Hv].
  { exists (Tri 0 0 0). split_and!; [by intros []|by intros []|done]. }
  assert (shares_int u32 (tof (fun i => foldl (share_add u32) (s @ i) (v @ i))) (x + foldr Z.add 0 xs)) as H;
    [|by destruct s, v].
  revert s x Hs. induction Hv as [|r v y ys Hr Hv IH]; intros s x Hs.
  - cbn. rewrite Z.add_0_r. by destruct s.
  - specialize (IH _ _ (shares_int_add (T:=u32) _ _ _ _ Hs Hr)). cbn [foldr]. rewrite Z.add_assoc.
    destruct s, r, v. exact IH.
Qed.

Lemma fmap_concat {A V} (f : A -> V) (l : list (list A)) : fmap (M:=list) f (concat l) = concat (fmap (M:=list) (fmap (M:=list) f) l).
Proof. induction l as [|x l IH]; [done|]. cbn [concat]. by rewrite fmap_app, IH. Qed.

Lemma tvec_flat_map {X A V} (P : tri A -> V -> Prop) (F : X -> PartyID -> list A) (G : X -> list V) l :
  (forall x, x ∈ l -> tvec P (tof (F x)) (G x)) -> tvec P (tof (fun i => concat ((fun x => F x i) <$> l))) (concat (G <$> l)).
Proof.
  induction l as [|x l IH]; intros H; [apply tvec_nil|].
  refine (eq_ind _ (fun u => tvec P u _) (tvec_app _ _ _ _ _ (H x (list_elem_of_here _ _)) (IH _)) _ _).
  - intros y Hy. apply H. by apply list_elem_of_further.
  - apply tri_ext. intros i. by destruct i.
Qed.

(** Per threshold, the number of distances whose bit is set. *)
Lemma bucket_sums {X} (p : X -> dist -> bool) (xs : list X) (ds : list dist) v :
  (0 < length ds)%nat -> Z.of_nat (length ds) < 2 ^ 32 ->
  tvec (shares_add u32) v (concat ((fun x => (fun d => Z.b2z (p x d)) <$> ds) <$> xs)) ->
  tvec (shares_add u32) (fmap (M:=list) sum_chunk <$> (chunks (length ds) <$> v)) ((fun x => count (p x) ds) <$> xs).
Proof.
  intros Hd Hb Hv. apply (tvec_chunks _ (length ds)) in Hv; [|done|apply Forall_fmap, Forall_true; intros x; cbn; by rewrite length_fmap].
  apply (proj1 (tvec_fmap_r _ _ _ _)) in Hv. apply (proj2 (tvec_fmap_r _ _ _ _)).
  assert (forall t x, tvec (shares_add u32) t ((fun d => Z.b2z (p x d)) <$> ds) -> shares_add u32 (sum_chunk <$> t) (count (p x) ds)) as Hs.
  { intros t x Ht. pose proof (count_bound (p x) ds) as Hc. rewrite <- (Z.mod_small (count (p x) ds) (2 ^ K u32)) by (change (K u32) with 32; lia).
    replace (count (p x) ds) with (foldr Z.add 0 ((fun d => Z.b2z (p x d)) <$> ds)).
    - apply sum_chunk_spec. apply (proj2 (tvec_fmap_r _ _ _ _)). apply (proj1 (tvec_fmap_r _ _ _ _)) in Ht.
      eapply tvec_impl; [|exact Ht]. intros s d Hsd. cbn in *. unfold shares_int.
      rewrite Z.mod_small; [done|]. change (K u32) with 32. destruct (p x d); cbn; lia.
    - clear. induction ds as [|d ds IH]; [done|]. rewrite fmap_cons, count_cons. cbn [foldr]. by rewrite IH. }
  pose proof (tvec_map _ (fun t x => shares_add u32 t (count (p x) ds)) (fun _ => sum_chunk) (fun x => x) _ _ Hs Hv) as H.
  rewrite list_fmap_id in H. refine (eq_ind _ (fun u => tvec _ u xs) H _ _). apply tri_ext. intros i. by rewrite tget_tof, !tget_fmap.
Qed.

(** Within the threshold [a / B]: strictly nearer. *)
Definition fhd_within (a : Z) (d : dist) : bool := d.2 * a <? d.1 * B.

Section Buckets.
Context {R : Rng} {HR : RngOk R} (ids : tri Identity) (sid : Z).

Lemma compare_against_thresholds_spec D ds terms :
  tvec (dist_int u32) D ds -> Forall in_range ds -> Forall (fun a => 0 <= a <= B) terms ->
  batch_fits (length terms * length ds) ->
  proto (R := R) ids sid (fun i => compare_against_thresholds_batched terms (D @ i))
    (fun out => tvec (shares_add u32) out (concat ((fun a => (fun d => Z.b2z (fhd_within a d)) <$> ds) <$> terms))).
Proof.
  intros HD Hr Ha Hn. rewrite Forall_forall in Ha.
  set (F := fun a i => (fun d => share_sub u32 (share_scale u32 (mask_dot d) a) (share_scale u32 (code_dot d) B)) <$> D @ i).
  assert (tvec (shares_int u32) (tof (fun i => concat ((fun a => F a i) <$> terms)))
    (concat ((fun a => (fun d => d.2 * a - d.1 * B) <$> ds) <$> terms))) as Hd.
  { apply tvec_flat_map. intros a Hin. specialize (Ha a Hin).
    refine (tvec_map (dist_int u32) (shares_int u32) (fun _ => _) _ D ds _ HD). intros t d [Hc Hm].
    assert (valid u32 a) as Va by (unfold valid, B in *; change (K u32) with 32; lia).
    exact (shares_int_sub (T:=u32) _ _ _ _ (shares_int_scale (T:=u32) _ _ a Va Hm) (shares_int_scale (T:=u32) _ _ B ltac:(done) Hc)). }
  assert (length (concat ((fun a => (fun d => d.2 * a - d.1 * B) <$> ds) <$> terms)) = (length terms * length ds)%nat) as Hl.
  { rewrite (length_concat_const (length ds)), length_fmap; [done|]. apply Forall_fmap, Forall_true. intros a. cbn. by rewrite length_fmap. }
  apply (proto_ext ids sid _ (fun i => msbs ← extract_msb_batch net_u32 (HTr := Transpose64_u32)
    ((tof (fun i => concat ((fun a => F a i) <$> terms))) @ i); bit_inject net_u32 msbs)); [intros s i _; by rewrite tget_tof|].
  eapply proto_bind; [eapply (signs_spec ids sid (T:=net_u32)); [cbn; lia|by rewrite Hl|exact Hd|]|].
  - apply Forall_concat, Forall_fmap, Forall_forall. intros a Hin. cbn. apply Forall_fmap. eapply Forall_impl; [exact Hr|].
    intros d Hd'. cbn. specialize (Ha a Hin). destruct Hd' as [Hm Hc]. unfold B in *. nia.
  - intros bits Hb. eapply proto_mono; [|apply (bit_inject_spec ids sid (T:=net_u32) _ _ Hb)].
    + intros out Ho. refine (eq_ind _ (tvec (shares_add u32) out) Ho _ _). rewrite fmap_concat, <- list_fmap_compose. f_equal.
      apply list_fmap_ext. intros k a _. cbn. rewrite <- list_fmap_compose. apply list_fmap_ext. intros j d _. cbn. f_equal.
      unfold fhd_within. destruct (Z.ltb_spec (d.2 * a) (d.1 * B)); lia.
    + rewrite length_fmap, Hl. unfold batch_fits in Hn. cbn [BYTES]. cbn. lia.
Qed.

(** The sums per threshold, of either comparison. *)
Lemma buckets_of_sums {X} (m : PartyID -> M R (list Share)) (p : X -> dist -> bool) terms D ds :
  ds <> [] -> Z.of_nat (length ds) < 2 ^ 32 -> (forall i, length (D @ i) = length ds) ->
  proto ids sid m (fun out => tvec (shares_add u32) out (concat ((fun a => (fun d => Z.b2z (p a d)) <$> ds) <$> terms))) ->
  proto ids sid (fun i => sums ← m i; buckets ← liftr (chunks_checked (length (D @ i : list DistanceShare)) sums); mret (sum_chunk <$> buckets))
    (fun out => tvec (shares_add u32) out ((fun a => count (p a) ds) <$> terms)).
Proof.
  intros Hne Hn HD Hm. assert (0 < length ds)%nat as Hpos by (destruct ds; [done|cbn; lia]).
  eapply proto_bind; [exact Hm|]. intros sums Hs. apply bucket_sums in Hs; [|done|done].
  eapply proto_bind; [apply (proto_liftr ids sid _ (chunks (length ds) <$> sums) (fun x => x = chunks (length ds) <$> sums)); [|done]|].
  - intros i. unfold chunks_checked. rewrite HD, (proj2 (Nat.eqb_neq _ _)), tget_fmap by lia. done.
  - intros ? ->. eapply proto_ext; [|apply (proto_ret ids sid _ _ Hs)]. intros s i _. cbn beta. by rewrite !tget_fmap.
Qed.

Lemma compare_threshold_buckets_spec D ds terms :
  tvec (dist_int u32) D ds -> ds <> [] -> Forall in_range ds -> Forall (fun a => 0 <= a <= B) terms ->
  batch_fits (length terms * length ds) -> batch_fits (length ds) ->
  proto (R := R) ids sid (fun i => compare_threshold_buckets terms (D @ i))
    (fun out => tvec (shares_add u32) out ((fun a => count (fhd_within a) ds) <$> terms)).
Proof.
  intros HD Hne Hr Ha Hn Hn'. unfold compare_threshold_buckets.
  apply (buckets_of_sums (fun i => compare_against_thresholds_batched terms (D @ i))); [done|unfold batch_fits in *; lia| |].
  - intros i. by eapply tvec_length.
  - by apply compare_against_thresholds_spec.
Qed.

(** The normalized distance, one threshold after the other. *)
Lemma nhd_threshold_loop_spec D ds terms v bs :
  tvec (dist_int Ring48) D ds -> Forall in_range ds -> batch_fits (length ds) ->
  Forall (fun t => f64_as_u64 (nhd_threshold_term t) <= 2 ^ 21) terms -> tvec (shares_xor Bit) v bs ->
  proto (R := R) ids sid (fun i => nhd_threshold_loop terms (D @ i) (v @ i))
    (fun out => tvec (shares_xor Bit) out (bs ++ concat ((fun t => (fun d =>
       Z.b2z (negb (nhd_beyond (f64_as_u64 (nhd_threshold_term t)) d))) <$> ds) <$> terms))).
Proof.
  intros HD Hr Hn Ht. revert v bs. induction Ht as [|t terms Ht Hts IH]; intros v bs Hv.
  { cbn [nhd_threshold_loop fmap list_fmap concat]. rewrite app_nil_r. by apply proto_ret. }
  cbn [nhd_threshold_loop]. eapply proto_bind; [by apply (nhd_greater_than_threshold_spec ids sid D ds t)|]. intros r Hres.
  assert (tvec (shares_xor Bit) (tof (fun i => share_not Bit <$> r @ i))
    ((fun d => Z.b2z (negb (nhd_beyond (f64_as_u64 (nhd_threshold_term t)) d))) <$> ds)) as Hnot.
  { apply (proj1 (tvec_fmap_r _ _ _ _)) in Hres. apply (proj2 (tvec_fmap_r _ _ _ _)).
    refine (eq_ind _ (tvec _ _) (tvec_map _ _ (fun _ => share_not Bit) (fun x => x) _ _ _ Hres) _ (list_fmap_id _)).
    intros s d Hs. cbn in Hs. pose proof (share_not_spec (T:=Bit) _ _ Hs) as H. destruct s. by destruct (nhd_beyond _ d). }
  eapply proto_mono; [|eapply proto_ext; [|apply (IH _ _ (tvec_app _ _ _ _ _ Hv Hnot))]].
  - intros out Ho. rewrite fmap_cons. cbn [concat]. by rewrite app_assoc.
  - intros s i _. cbn beta. f_equal. destruct v, i; done.
Qed.

Definition nhd_within (t : f64) (d : dist) : bool := negb (nhd_beyond (f64_as_u64 (nhd_threshold_term t)) d).

Lemma nhd_compare_threshold_buckets_spec D ds terms :
  tvec (dist_int Ring48) D ds -> ds <> [] -> Forall in_range ds ->
  Forall (fun t => f64_as_u64 (nhd_threshold_term t) <= 2 ^ 21) terms ->
  batch_fits (length terms * length ds) -> batch_fits (length ds) ->
  proto (R := R) ids sid (fun i => nhd_compare_threshold_buckets terms (D @ i))
    (fun out => tvec (shares_add u32) out ((fun t => count (nhd_within t) ds) <$> terms)).
Proof.
  intros HD Hne Hr Ha Hn Hn'. unfold nhd_compare_threshold_buckets.
  apply (buckets_of_sums (fun i => nhd_compare_against_thresholds_batched terms (D @ i))); [done|unfold batch_fits in *; lia| |].
  { intros i. by eapply tvec_length. }
  eapply proto_bind; [eapply proto_ext; [|by apply (nhd_threshold_loop_spec D ds terms tnil [] HD Hr Hn' Ha (tvec_nil _))]|].
  - intros s i _. cbn beta. unfold tnil. by rewrite tget_tof.
  - intros bits Hb. apply (bit_inject_spec ids sid (T:=net_u32) _ _ Hb). cbn [app].
    rewrite (length_concat_const (length ds)), length_fmap; [unfold batch_fits in Hn; cbn [BYTES]; cbn; lia|].
    apply Forall_fmap, Forall_true. intros t. cbn. by rewrite length_fmap.
Qed.
End Buckets.

(** ** Minimum of a group *)

Section Minimum.
Context {R : Rng} {HR : RngOk R} (ids : tri Identity) (sid : Z) (T : IntRing2k).
Context (min_pairs : list DistancePair -> M R (list DistanceShare)) (near : dist -> dist -> bool) (ok : dist -> Prop).
Hypothesis near_irrefl : forall d, near d d = false.
Hypothesis near_trans : forall d e f, ok d -> ok e -> ok f -> near d e = true -> near e f = true -> near d f = true.
Hypothesis Hmin : forall E ps, tvec (pair_holds (dist_int T)) E ps -> Forall (fun p => ok p.1 /\ ok p.2) ps -> batch_fits (length ps) ->
  proto (R := R) ids sid (fun i => min_pairs (E @ i)) (fun out => tvec (dist_int T) out ((fun p => pick (near p.1 p.2) p) <$> ps)).

(** [r] is a member of the group that none of the others is nearer than, the
    first and those after [size] being considered. *)
Definition best_so_far (g : list dist) (size : nat) (r : dist) : Prop :=
  r ∈ g /\ (size < length g)%nat /\ forall j d, g !! j = Some d -> (j = 0 \/ size < j)%nat -> near d r = false.

(** A nearest member. *)
Definition nearest (g : list dist) (r : dist) : Prop := r ∈ g /\ Forall (fun d => near d r = false) g.

Definition at_size (g : list dist) (size : nat) : dist := default (0, 0) (g !! size).

Lemma best_step g size r :
  Forall ok g -> best_so_far g size r ->
  best_so_far g (pred size) (pick (near (at_size g size) r) (at_size g size, r)) /\ ok (at_size g size) /\ ok r.
Proof.
  intros Hok (Hr & Hs & Hb). destruct (lookup_lt_is_Some_2 g size Hs) as [n Hn]. replace (at_size g size) with n by (unfold at_size; by rewrite Hn).
  rewrite Forall_forall in Hok. pose proof (Hok n (list_elem_of_lookup_2 _ _ _ Hn)) as On. pose proof (Hok r Hr) as Or.
  split; [|done]. unfold pick. destruct (near n r) eqn:E; cbn.
  - split; [exact (list_elem_of_lookup_2 _ _ _ Hn)|]. split; [lia|]. intros j d Hj Hc.
    destruct (decide (j = size)) as [->|Hne]; [assert (d = n) as -> by congruence; apply near_irrefl|].
    destruct (near d n) eqn:E'; [|done]. rewrite <- (Hb j d Hj) by lia. symmetry.
    eapply near_trans; [exact (Hok d (list_elem_of_lookup_2 _ _ _ Hj))|exact On|exact Or|done|done].
  - split; [done|]. split; [lia|]. intros j d Hj Hc. destruct (decide (j = size)) as [->|Hne]; [congruence|]. apply (Hb j d Hj). lia.
Qed.

Lemma best_done g r : best_so_far g 0 r -> nearest g r.
Proof.
  intros (Hr & _ & Hb). split; [done|]. apply Forall_lookup. intros j d Hj. apply (Hb j d Hj). lia.
Qed.

(** The pairs of one pass. *)
Lemma next_pairs_spec D gs sizes r rs :
  tvec (tvec (dist_int T)) D gs -> tvec (dist_int T) r rs -> Forall2 (fun g size => (size < length g)%nat) gs sizes ->
  exists X, (forall i, next_pairs (D @ i) sizes (r @ i) = Ok (X @ i)) /\
    tvec (pair_holds (dist_int T)) X (zip (zip_with at_size gs sizes) rs).
Proof.
  intros HD. revert sizes r rs. induction HD as [|t D g gs Ht HD IH]; intros sizes r rs Hr Hs.
  { exists tnil. apply Forall2_nil_inv_l in Hs as ->. split; [intros i; by destruct i|apply tvec_nil]. }
  apply Forall2_cons_inv_l in Hs as (size & sizes' & Hs & Hss & ->).
  destruct (lookup_lt_is_Some_2 g size Hs) as [n Hn]. destruct (tvec_lookup _ _ _ _ _ Ht Hn) as (tn & Htn & Hdn).
  assert (forall i, index (t @ i) size = Ok (tn @ i)) as Hi by (intros i; unfold index; by rewrite Htn).
  destruct Hr as [|s r x rs Hx Hr].
  { destruct (IH sizes' tnil [] (tvec_nil _) Hss) as (X & HX & _). exists tnil. split; [|apply tvec_nil]. intros i. specialize (HX i).
    unfold next_pairs in *. unfold tcons, tnil in *. rewrite !tget_tof in *. cbn. rewrite Hi. cbn.
    destruct (mapM_result _ (zip (D @ i) sizes')) as [ys|]; [done|done]. }
  destruct (IH sizes' r rs Hr Hss) as (X & HX & HT). exists (tcons (tof (fun i => (tn @ i, s @ i))) X). split.
  - intros i. specialize (HX i). unfold next_pairs in *. unfold tcons. rewrite !tget_tof. cbn. rewrite Hi. cbn.
    destruct (mapM_result _ (zip (D @ i) sizes')) as [ys|]; [|done]. cbn in *. by injection HX as <-.
  - cbn [zip_with]. apply tvec_cons; [|done]. unfold at_size. rewrite Hn. split; [by destruct tn|by destruct s].
Qed.

(** The state of the loop. *)
Definition loop_inv (gs : list (list dist)) (sizes : list nat) (rs : list dist) : Prop :=
  length sizes = length gs /\ length rs = length gs /\
  forall k g size x, gs !! k = Some g -> sizes !! k = Some size -> rs !! k = Some x -> best_so_far g size x.

Definition pass (gs : list (list dist)) (sizes : list nat) (rs : list dist) : list (dist * dist) := zip (zip_with at_size gs sizes) rs.

Lemma length_pass gs sizes rs : loop_inv gs sizes rs -> length (pass gs sizes rs) = length gs.
Proof. intros (H1 & H2 & _). unfold pass. rewrite !length_zip_with. lia. Qed.

Lemma loop_inv_step gs sizes rs :
  Forall (Forall ok) gs -> loop_inv gs sizes rs ->
  loop_inv gs (pred <$> sizes) ((fun p => pick (near p.1 p.2) p) <$> pass gs sizes rs) /\
  Forall (fun p => ok p.1 /\ ok p.2) (pass gs sizes rs).
Proof.
  intros Hok Hi. pose proof (length_pass _ _ _ Hi) as Hl. destruct Hi as (L1 & L2 & Hb). rewrite Forall_lookup in Hok. split.
  - split; [by rewrite length_fmap|]. split; [by rewrite length_fmap|]. intros k g size x Hg Hs Hx.
    apply list_lookup_fmap_Some in Hs as (size0 & -> & Hs). apply list_lookup_fmap_Some in Hx as ([n r] & -> & Hp).
    apply lookup_zip_with_Some in Hp as (n' & r' & [= -> ->] & Hn & Hr). apply lookup_zip_with_Some in Hn as (g' & s' & -> & Hg' & Hs').
    assert (g' = g) as -> by congruence. assert (s' = size0) as -> by congruence. cbn.
    apply best_step; [by eapply Hok|by eapply Hb].
  - apply Forall_lookup. intros k [n r] Hp.
    apply lookup_zip_with_Some in Hp as (n' & r' & [= -> ->] & Hn & Hr). apply lookup_zip_with_Some in Hn as (g & size & -> & Hg & Hs).
    by apply (best_step g size r'); [eapply Hok|eapply Hb].
Qed.

Lemma loop_inv_done gs sizes rs :
  loop_inv gs sizes rs -> Forall (fun size => size = 0%nat) sizes -> Forall2 nearest gs rs.
Proof.
  intros (L1 & L2 & Hb) Hz. apply Forall2_same_length_lookup_2; [done|]. intros k g x Hg Hx. apply best_done.
  destruct (lookup_lt_is_Some_2 sizes k) as [size Hs]; [rewrite L1; by eapply lookup_lt_Some|].
  pose proof (Forall_lookup_1 _ _ _ _ Hz Hs) as ->. by eapply Hb.
Qed.

Lemma reduce_loop_spec fuel D gs sizes r rs :
  tvec (tvec (dist_int T)) D gs -> tvec (dist_int T) r rs -> batch_fits (length gs) -> Forall (Forall ok) gs ->
  Forall (fun size => (size <= fuel)%nat) sizes -> loop_inv gs sizes rs ->
  proto (R := R) ids sid (fun i => reduce_loop min_pairs fuel (D @ i) sizes (r @ i))
    (fun out => exists rs, tvec (dist_int T) out rs /\ Forall2 nearest gs rs).
Proof.
  intros HD Hr Hn Hok. revert sizes r rs Hr. induction fuel as [|fuel IH]; intros sizes r rs Hr Hf Hi;
    (destruct (forallb (fun size => size =? 0)%nat sizes) eqn:Ez; cbn [reduce_loop]; rewrite Ez).
  1,3: apply proto_ret; exists rs; (split; [done|]); eapply loop_inv_done; [done|]; apply Forall_forall; intros x Hx;
    apply Nat.eqb_eq; rewrite forallb_forall in Ez; by apply Ez, list_elem_of_In.
  - exfalso. apply not_true_iff_false in Ez. apply Ez, forallb_forall. intros x Hx%list_elem_of_In. rewrite Forall_forall in Hf.
    specialize (Hf x Hx). apply Nat.eqb_eq. lia.
  - destruct (next_pairs_spec D gs sizes r rs HD Hr) as (X & HX & HT).
    { apply Forall2_same_length_lookup_2; [symmetry; apply Hi|]. intros k g size Hg Hs. destruct Hi as (L1 & L2 & Hb).
      destruct (lookup_lt_is_Some_2 rs k) as [x Hx]; [rewrite L2; by eapply lookup_lt_Some|]. by apply (Hb k g size x Hg Hs Hx). }
    eapply proto_bind; [by apply (proto_liftr ids sid _ X (fun x => x = X))|]. intros ? ->.
    destruct (loop_inv_step _ _ _ Hok Hi) as [Hi' Hok'].
    eapply proto_bind; [apply (Hmin X (pass gs sizes rs) HT Hok'); by rewrite length_pass|]. intros r' Hr'.
    apply (IH _ _ _ Hr'); [|done]. apply Forall_fmap. eapply Forall_impl; [exact Hf|]. cbn. lia.
Qed.

Lemma first_distances_spec D gs :
  tvec (tvec (dist_int T)) D gs -> Forall (fun g => g <> []) gs ->
  exists F, (forall i, first_distances (D @ i) = Ok (F @ i)) /\ tvec (dist_int T) F ((fun g => at_size g 0) <$> gs).
Proof.
  intros HD Hne. induction HD as [|t D g gs Ht HD IH]; [exists tnil; split; [by intros []|apply tvec_nil]|].
  apply Forall_cons in Hne as [Hg Hne]. destruct (IH Hne) as (F & HF & HT). destruct g as [|d g]; [done|].
  apply tvec_cons_inv in Ht as (s & t' & -> & Hs & _). exists (tcons s F). split; [|by apply tvec_cons].
  intros i. unfold tcons. rewrite !tget_tof. unfold first_distances in *. cbn [mapM_result]. by rewrite HF.
Qed.

Lemma loop_inv_first gs :
  Forall (fun g => g <> []) gs -> loop_inv gs ((fun g => length g - 1)%nat <$> gs) ((fun g => at_size g 0) <$> gs).
Proof.
  intros Hne. split; [by rewrite length_fmap|]. split; [by rewrite length_fmap|]. intros k g size x Hg Hs Hx.
  rewrite list_lookup_fmap, Hg in Hs. rewrite list_lookup_fmap, Hg in Hx. injection Hs as <-. injection Hx as <-. pose proof (Forall_lookup_1 _ _ _ _ Hne Hg) as Hn.
  destruct g as [|d g]; [done|]. split; [apply list_elem_of_here|]. split; [cbn; lia|].
  intros j e Hj [-> | Hlt]; [by injection Hj as <-|]. apply lookup_lt_Some in Hj. cbn in *. lia.
Qed.

(** Reducing groups that are not empty yields a nearest member of each. *)
Lemma reduce_min_spec D gs :
  tvec (tvec (dist_int T)) D gs -> Forall (fun g => g <> []) gs -> Forall (Forall ok) gs -> batch_fits (length gs) ->
  proto (R := R) ids sid (fun i => reduced ← liftr (first_distances (D @ i));
      reduce_loop min_pairs (max_list ((fun g => length g - 1)%nat <$> D @ i)) (D @ i) ((fun g => length g - 1)%nat <$> D @ i) reduced)
    (fun out => exists rs, tvec (dist_int T) out rs /\ Forall2 nearest gs rs).
Proof.
  intros HD Hne Hok Hn. destruct (first_distances_spec D gs HD Hne) as (F & HF & HT).
  eapply proto_bind; [by apply (proto_liftr ids sid _ F (fun x => x = F))|]. intros ? ->.
  set (sizes := (fun g => length g - 1)%nat <$> gs).
  apply (proto_ext ids sid _ (fun i => reduce_loop min_pairs (max_list sizes) (D @ i) sizes (F @ i))).
  - intros s i _. cbn beta. replace ((fun g => length g - 1)%nat <$> D @ i) with sizes; [done|]. unfold sizes.
    pose proof (tvec_tvec_lengths _ _ _ i HD) as Hl. clear -Hl. revert Hl. generalize (D @ i) as l. induction gs as [|g gs IH]; intros [|x l]; try done.
    rewrite !fmap_cons. intros [= H1 H2]. rewrite H1, (IH l H2). done.
  - apply (reduce_loop_spec _ D gs sizes F _ HD HT Hn Hok); [|by apply loop_inv_first].
    apply Forall_forall. intros x Hx. by apply max_list_elem_of_le.
Qed.
End Minimum.

(** ** Groups with a match *)

Definition ok_dist (d : dist) : Prop := in_range d /\ 0 < d.2.

Lemma fhd_nearer_irrefl d : fhd_nearer d d = false.
Proof. unfold fhd_nearer. apply Z.ltb_ge. lia. Qed.
Lemma fhd_nearer_trans d e f :
  ok_dist d -> ok_dist e -> ok_dist f -> fhd_nearer d e = true -> fhd_nearer e f = true -> fhd_nearer d f = true.
Proof. unfold fhd_nearer, ok_dist. rewrite !Z.ltb_lt. intros [_ Hd] [_ He] [_ Hf] H1 H2. nia. Qed.
Lemma nhd_nearer_irrefl d : nhd_nearer d d = false.
Proof. unfold nhd_nearer. apply Z.ltb_ge. lia. Qed.
Lemma nhd_nearer_trans d e f :
  ok_dist d -> ok_dist e -> ok_dist f -> nhd_nearer d e = true -> nhd_nearer e f = true -> nhd_nearer d f = true.
Proof.
  unfold nhd_nearer, ok_dist. rewrite !Z.ltb_lt. intros [_ Hd] [_ He] [_ Hf] H1 H2.
  generalize dependent (nmr d). generalize dependent (nmr e). generalize dependent (nmr f). intros. nia.
Qed.

(** A nearest member is within a threshold when some member is. *)
Lemma nearest_exists (near : dist -> dist -> bool) (within : dist -> bool) g r :
  (forall d r, ok_dist d -> ok_dist r -> near d r = false -> within d = true -> within r = true) ->
  Forall ok_dist g -> nearest near g r -> within r = existsb within g.
Proof.
  intros Hw Hok [Hr Hn]. symmetry. rewrite Forall_forall in Hok, Hn. destruct (within r) eqn:E.
  - apply existsb_exists. exists r. split; [by apply list_elem_of_In|done].
  - apply not_true_iff_false. intros (d & Hd%list_elem_of_In & Hdw)%existsb_exists.
    assert (within r = true) by (apply (Hw d r); auto). congruence.
Qed.

Lemma fhd_within_mono a d r :
  0 <= a -> ok_dist d -> ok_dist r -> fhd_nearer d r = false -> fhd_within a d = true -> fhd_within a r = true.
Proof.
  unfold fhd_nearer, fhd_within, ok_dist. rewrite Z.ltb_ge, !Z.ltb_lt. intros Ha [_ Hd] [_ Hr] H1 H2. unfold B in *.
  assert (d.2 * (r.2 * a) < d.2 * (r.1 * 2 ^ 16)); nia.
Qed.

Lemma nhd_value_nmr tau d : nhd_value tau d = - 5 * nmr d - d.2 * (774144 - tau).
Proof. unfold nhd_value, nmr, NHD_LINEAR_COEFF, NHD_CORRECTION. ring. Qed.

Lemma nhd_within_mono t d r :
  ok_dist d -> ok_dist r -> nhd_nearer d r = false -> nhd_within t d = true -> nhd_within t r = true.
Proof.
  unfold nhd_nearer, nhd_within, nhd_beyond, ok_dist. rewrite Z.ltb_ge, !negb_true_iff, !Z.ltb_ge, !nhd_value_nmr.
  generalize (774144 - f64_as_u64 (nhd_threshold_term t)) as k. intros k [_ Hd] [_ Hr] H1 H2.
  generalize dependent (nmr d). generalize dependent (nmr r). intros u v H1 H2.
  assert (d.2 * (5 * u + r.2 * k) <= 0); nia.
Qed.

Lemma count_nearest {X} (near : dist -> dist -> bool) (within : X -> dist -> bool) gs rs x :
  (forall d r, ok_dist d -> ok_dist r -> near d r = false -> within x d = true -> within x r = true) ->
  Forall (Forall ok_dist) gs -> Forall2 (nearest near) gs rs ->
  count (within x) rs = Z.of_nat (length (List.filter (existsb (within x)) gs)).
Proof.
  intros Hw Hok H. induction H as [|g r gs rs Hg Hgs IH]; [done|]. apply Forall_cons in Hok as [Hok Hoks].
  rewrite count_cons, IH by done. rewrite (nearest_exists near (within x) g r Hw Hok Hg). cbn [List.filter].
  destruct (existsb (within x) g); cbn [length Z.b2z]; lia.
Qed.

Lemma nearest_ok near gs rs : Forall (Forall ok_dist) gs -> Forall2 (nearest near) gs rs -> Forall in_range rs.
Proof.
  intros Hok H. induction H as [|g r gs rs [Hg _] Hgs IH]; [constructor|]. apply Forall_cons in Hok as [Hok Hoks].
  constructor; [|by apply IH]. rewrite Forall_forall in Hok. by apply Hok.
Qed.

(** Either reduction leaves a nearest member of every group, and the sums then
    count the groups with a member within each threshold. *)
Section Groups.
Context {R : Rng} {HR : RngOk R} (ids : tri Identity) (sid : Z) (gs : list (list dist)).
Context (Hg : Forall (fun g => g <> []) gs) (Hok : Forall (Forall ok_dist) gs) (Hn : batch_fits (length gs)).

Lemma ok_pairs_in_range (ps : list (dist * dist)) : Forall (fun p => ok_dist p.1 /\ ok_dist p.2) ps -> Forall pair_in_range ps.
Proof. intros H. eapply Forall_impl; [exact H|]. intros p [[? _] [? _]]. by split. Qed.

Lemma reduce_fhd_spec D :
  tvec (tvec (dist_int u32)) D gs ->
  proto (R := R) ids sid (fun i => reduce_to_min_distance_batch (D @ i))
    (fun out => exists rs, tvec (dist_int u32) out rs /\ Forall2 (nearest fhd_nearer) gs rs).
Proof.
  intros HD. apply (reduce_min_spec ids sid u32 min_of_pair_batch fhd_nearer ok_dist fhd_nearer_irrefl fhd_nearer_trans) with (gs := gs);
    try done. intros E ps HE Hp Hl. apply min_of_pair_batch_spec; auto using ok_pairs_in_range.
Qed.

Lemma reduce_nhd_spec D :
  tvec (tvec (dist_int Ring48)) D gs ->
  proto (R := R) ids sid (fun i => nhd_reduce_to_min_distance_batch (D @ i))
    (fun out => exists rs, tvec (dist_int Ring48) out rs /\ Forall2 (nearest nhd_nearer) gs rs).
Proof.
  intros HD. apply (reduce_min_spec ids sid Ring48 nhd_min_of_pair_batch nhd_nearer ok_dist nhd_nearer_irrefl nhd_nearer_trans) with (gs := gs);
    try done. intros E ps HE Hp Hl. apply nhd_min_of_pair_batch_spec; auto using ok_pairs_in_range.
Qed.

(** The number of groups with a member that satisfies [p]. *)
Definition groups_with (p : dist -> bool) : Z := Z.of_nat (length (List.filter (existsb p) gs)).

Lemma nearest_nonempty near rs : gs <> [] -> Forall2 (nearest near) gs rs -> length rs = length gs /\ rs <> [].
Proof. intros Hne H. pose proof (Forall2_length _ _ _ H) as Hl. split; [done|]. intros ->. by destruct gs. Qed.

Lemma compare_min_fhd_spec D terms :
  gs <> [] -> Forall (fun a => 0 <= a <= B) terms -> batch_fits (length terms * length gs) -> tvec (tvec (dist_int u32)) D gs ->
  proto (R := R) ids sid (fun i => compare_min_threshold_buckets terms (D @ i))
    (fun out => tvec (shares_add u32) out ((fun a => groups_with (fhd_within a)) <$> terms)).
Proof.
  intros Hne Ha Hn' HD. eapply proto_bind; [by apply reduce_fhd_spec|]. intros r (rs & Hr & Hnear).
  destruct (nearest_nonempty _ _ Hne Hnear) as [Hl Hn0].
  eapply proto_mono; [|apply (compare_threshold_buckets_spec ids sid r rs terms Hr Hn0); rewrite ?Hl; [by eapply nearest_ok|done..]].
  intros out Ho. refine (eq_ind _ (tvec (shares_add u32) out) Ho _ _). apply list_fmap_ext. intros k a Hk.
  apply (count_nearest fhd_nearer fhd_within); [|done..]. intros d x Od Ox Hnr Hw. apply (fhd_within_mono a d x); try done.
  apply (Forall_lookup_1 _ _ _ _ Ha Hk).
Qed.

Lemma compare_min_nhd_spec D ts :
  gs <> [] -> Forall (fun t => f64_as_u64 (nhd_threshold_term t) <= 2 ^ 21) ts -> batch_fits (length ts * length gs) ->
  tvec (tvec (dist_int Ring48)) D gs ->
  proto (R := R) ids sid (fun i => compare_min_threshold_buckets_score_normalization ts (D @ i))
    (fun out => tvec (shares_add u32) out ((fun t => groups_with (nhd_within t)) <$> ts)).
Proof.
  intros Hne Ht Hn' HD. eapply proto_bind; [by apply reduce_nhd_spec|]. intros r (rs & Hr & Hnear).
  destruct (nearest_nonempty _ _ Hne Hnear) as [Hl Hn0].
  eapply proto_mono; [|apply (nhd_compare_threshold_buckets_spec ids sid r rs ts Hr Hn0); rewrite ?Hl; [by eapply nearest_ok|done..]].
  intros out Ho. refine (eq_ind _ (tvec (shares_add u32) out) Ho _ _). apply list_fmap_ext. intros k t Hk.
  apply (count_nearest nhd_nearer nhd_within); [|done..]. intros d x Od Ox Hnr Hw. by apply (nhd_within_mono t d x).
Qed.
End Groups.

(** The bucket statistics over groups of distances are correct, for the
    fractional and for the normalized Hamming distance: the protocol reduces
    every group to a nearest member, and returns, for every threshold, shares
    of the number of groups that have a member within the threshold.  (Dot
    products are those of codes of less than [2^14] bits, with a mask that is
    not empty, so that no sign computation overflows its ring.) *)
Theorem compare_min_threshold_buckets_correct (R : Rng) `{!RngOk R} ids sid D32 D48 gs terms ts :
  gs <> [] -> Forall (fun g => g <> []) gs -> Forall (Forall ok_dist) gs ->
  Forall (fun a => 0 <= a <= B) terms -> Forall (fun t => f64_as_u64 (nhd_threshold_term t) <= 2 ^ 21) ts ->
  batch_fits (length terms * length gs) -> batch_fits (length ts * length gs) -> batch_fits (length gs) ->
  tvec (tvec (dist_int u32)) D32 gs -> tvec (tvec (dist_int Ring48)) D48 gs ->
  proto (R := R) ids sid (fun i => compare_min_threshold_buckets terms (D32 @ i))
    (fun out => tvec (shares_add u32) out ((fun a => Z.of_nat (length (List.filter (existsb (fhd_within a)) gs))) <$> terms)) /\
  proto (R := R) ids sid (fun i => compare_min_threshold_buckets_score_normalization ts (D48 @ i))
    (fun out => tvec (shares_add u32) out ((fun t => Z.of_nat (length (List.filter (existsb (nhd_within t)) gs))) <$> ts)).
Proof.
  intros Hne Hg Hok Ha Ht H1 H2 H3 HD32 HD48. split; [by apply compare_min_fhd_spec|by apply compare_min_nhd_spec].
Qed.

(** Shares a dealer hands out. *)
Definition plain_dist (T : IntRing2k) (d : dist) : tri DistanceShare :=
  tof (fun i => mkDistance ((plain_share (residues T d).1) @ i) ((plain_share (residues T d).2) @ i)).

Lemma plain_dist_int T `{!IntRing2kOk T} d : dist_int T (plain_dist T d) d.
Proof. split; [apply (plain_share_holds T (residues T d).1)|apply (plain_share_holds T (residues T d).2)]; apply valid_mod. Qed.

Definition demo_groups : list (list dist) := [[(100, 200); (-50, 300)]; [(10, 400)]; [(5, 10); (390, 400); (6, 8)]].
Definition deal_groups (T : IntRing2k) : tri (list (list DistanceShare)) :=
  foldr (fun g v => tcons (foldr (fun d u => tcons (plain_dist T d) u) tnil g) v) tnil demo_groups.
Lemma deal_groups_hold T `{!IntRing2kOk T} : tvec (tvec (dist_int T)) (deal_groups T) demo_groups.
Proof.
  unfold deal_groups. induction demo_groups as [|g gs IH]; [apply tvec_nil|]. cbn [foldr]. apply tvec_cons; [|done].
  clear IH. induction g as [|d g IH]; [apply tvec_nil|]. cbn [foldr]. apply tvec_cons; [by apply plain_dist_int|done].
Qed.

Lemma compare_min_threshold_buckets_correct_witness :
  proto (R := counter_rng) demo_ids 4 (fun i => compare_min_threshold_buckets [16384; 6553] ((deal_groups u32) @ i))
    (fun out => tvec (shares_add u32) out [2; 2]) /\
  proto (R := counter_rng) demo_ids 4 (fun i => compare_min_threshold_buckets_score_normalization [f64_three_eighths] ((deal_groups Ring48) @ i))
    (fun out => tvec (shares_add u32) out [2]).
Proof.
  apply (compare_min_threshold_buckets_correct counter_rng demo_ids 4 (deal_groups u32) (deal_groups Ring48) demo_groups [16384; 6553] [f64_three_eighths]);
    [done|by repeat constructor|repeat (apply Forall_cons_2; [repeat (apply Forall_cons_2; [vm_compute; done|]); apply Forall_nil_2|]); apply Forall_nil_2
    |repeat (apply Forall_cons_2; [vm_compute; done|]); apply Forall_nil_2|repeat (apply Forall_cons_2; [vm_compute; done|]); apply Forall_nil_2
    |vm_compute; done..|apply (deal_groups_hold u32)|apply (deal_groups_hold Ring48)].
Defined.

(** C36: The normalized distance is compared with a threshold as the check in
    the clear does, except on the boundary: with [md] compared bits of which
    [hd] differ, the protocol's bit is set exactly when the plaintext check
    finds no match and the threshold is not met with equality; on the boundary
    the protocol accepts and the plaintext check does not. *)
Theorem nhd_greater_than_threshold_plaintext (R : Rng) `{!RngOk R} ids sid D hds t :
  let tau := f64_as_u64 (nhd_threshold_term t) in
  tvec (dist_int Ring48) D ((fun '(hd, md) => (md - 2 * hd, md)) <$> hds) ->
  Forall (fun '(hd, md) => 0 <= hd <= md /\ md < 2 ^ 14) hds -> batch_fits (length hds) ->
  f64_as_i64 (nhd_threshold_term t) = tau -> tau <= 2 ^ 21 ->
  proto (R := R) ids sid (fun i => nhd_greater_than_threshold (D @ i) t)
    (fun out => tvec (shares_xor Bit) out ((fun '(hd, md) => Z.b2z (negb (nhd_plaintext_is_match hd md t
       || (md * (100 * hd - 45 * md) + (405504 - tau) * md + 737280 * hd =? 0)))) <$> hds)).
Proof.
  intros tau HD Hr Hn Ht Hb.
  eapply proto_mono; [|apply (nhd_greater_than_threshold_spec ids sid D _ t HD); rewrite ?length_fmap; try done].
  - intros out Ho. refine (eq_ind _ (tvec (shares_xor Bit) out) Ho _ _). rewrite <- list_fmap_compose. apply list_fmap_ext. intros k [hd md] _.
    cbn. f_equal. unfold nhd_beyond, nhd_plaintext_is_match. rewrite Ht. fold tau. set (v := md * (100 * hd - 45 * md) + (405504 - tau) * md + 737280 * hd).
    replace (nhd_value tau (md - 2 * hd, md)) with (- v) by (unfold v, nhd_value; cbn; ring).
    destruct (Z.ltb_spec v 0), (Z.eqb_spec v 0), (Z.ltb_spec (- v) 0); cbn; first [done|lia].
  - apply Forall_fmap. eapply Forall_impl; [exact Hr|]. intros [hd md] [H1 H2]. unfold in_range. cbn. lia.
Qed.

Lemma nhd_greater_than_threshold_plaintext_witness :
  let D := tcons (plain_dist Ring48 (160, 200)) (tcons (plain_dist Ring48 (0, 0)) (tcons (plain_dist Ring48 (-20, 100)) tnil)) in
  proto (R := counter_rng) demo_ids 0 (fun i => nhd_greater_than_threshold (D @ i) f64_three_eighths)
    (fun out => tvec (shares_xor Bit) out [0; 0; 1]) /\
  nhd_plaintext_is_match 20 200 f64_three_eighths = true /\ nhd_plaintext_is_match 0 0 f64_three_eighths = false.
Proof.
  split; [|split; vm_compute; reflexivity].
  apply (nhd_greater_than_threshold_plaintext counter_rng demo_ids 0 _ [(20, 200); (0, 0); (60, 100)] f64_three_eighths);
    [repeat (apply tvec_cons; [apply (plain_dist_int Ring48)|]); apply tvec_nil|repeat (apply Forall_cons_2; [vm_compute; done|]); apply Forall_nil_2
    |vm_compute; done|vm_compute; done|vm_compute; done].
Defined.
