(* ===== verification/AnonThreshold.v ===== *)
(** * The fixed anonymous-statistics threshold: [protocol/binary.rs] and
    [protocol/fhd_ops.rs]

    The dense comparison with the threshold 0.375 works on 16-bit dot products
    without lifting them: the sign of [4 code - mask] in 18 bits, corrected by
    the two overflow bits of the mask's components, by two ripple adders run in
    lockstep.  The theorems say that the circuit computes that sign, on either
    of its two inputs, and that the generic path over lifted masks yields the
    same bits. *)

From S2P Require Import Prelude IntRing RingImpl Party Share VecShare Transpose Value Net Prf Proto Circuits Binary Adder Inject Convert Lift Ops Select F64 Compare.
From stdpp Require Import option base list numbers strings gmap.
From Stdlib Require Import ZArith Lia SpecFloat.
Local Open Scope Z_scope.

(** ** Definitions *)

Definition MASK_BITS : nat := 16.
Definition EXPRESSION_BITS : nat := 18.

(* binary.rs:36-41 ThreeWayAdderParts *)
Record ThreeWayAdderParts := mkParts {
  part_s : list VecShare;
  part_x1x3 : list VecShare;
  part_x2x3 : list VecShare;
  part_x3 : list VecShare;
}.

Definition parts_width (n : nat) (p : ThreeWayAdderParts) : bool :=
  (length (part_s p) =? n)%nat && (length (part_x1x3 p) =? n)%nat
  && (length (part_x2x3 p) =? n)%nat && (length (part_x3 p) =? n)%nat.

(* binary.rs:1577-1600 transpose_u16_block *)
Definition transpose_u16_block (input : list Z) : result (list Z) :=
  res ← mapM_result (fun bit =>
          x0 ← index input bit; x1 ← index input (16 + bit); x2 ← index input (32 + bit); x3 ← index input (48 + bit);
          Ok (pack_words 64 16 [x0; x1; x2; x3])) (seq 0 16);
  butterfly (word_swp (T:=u64)) 64 16 8 0x00ff00ff00ff00ff res.

(* binary.rs:1603-1623 transpose_u32_block *)
Definition transpose_u32_block (input : list Z) : result (list Z) :=
  res ← mapM_result (fun bit =>
          x0 ← index input bit; x1 ← index input (32 + bit); Ok (pack_words 64 32 [x0; x1])) (seq 0 32);
  butterfly (word_swp (T:=u64)) 64 32 16 0x0000ffff0000ffff res.

(** [((code << 2).wrapping_sub(mask)) & EXPRESSION_MASK] on [u32]. *)
(* binary.rs:1750-1753 extract_anon_stats_msb_batch (component) *)
Definition expression_component (code mask : Z) : Z :=
  Z.land (wrapping_sub u32 (Z.shiftl code 2 mod 2 ^ 32) mask) (2 ^ 18 - 1).

(** One array of 64 lanes, zero where there is no comparison. *)
Definition lane_array (f : nat -> result Z) (start stop : nat) : result (list Z) :=
  vals ← mapM_result f (seq start (stop - start));
  Ok (vals ++ replicate (64 - length vals) 0).

Definition lane_code (xs : list Z) (comparison : nat) : result Z := index xs (comparison * 2).
Definition lane_mask (xs : list Z) (comparison : nat) : result Z := index xs (comparison * 2 + 1).
Definition lane_expression (xs : list Z) (comparison : nat) : result Z :=
  code ← lane_code xs comparison; mask ← lane_mask xs comparison; Ok (expression_component code mask).

(** [plane.push(Share::new(a, b))] for every plane. *)
Definition push_planes (planes : list VecShare) (a b : list Z) : list VecShare :=
  assign2 (fun plane s => plane ++ [s]) planes (zip_with mkShare a b).

(** [for word in ..packed_words]; [n] words are left. *)
(* binary.rs:1650-1692 pack_anon_stats_components (loop) *)
Fixpoint pack_words_loop (comparisons : nat) (local previous : list Z) (n word : nat) (masks expressions : list VecShare)
    : result (list VecShare * list VecShare) :=
  match n with
  | O => Ok (masks, expressions)
  | S n =>
      let start := (word * 64)%nat in
      let stop := Nat.min (start + 64) comparisons in
      local_masks ← lane_array (lane_mask local) start stop;
      previous_masks ← lane_array (lane_mask previous) start stop;
      local_expressions ← lane_array (lane_expression local) start stop;
      previous_expressions ← lane_array (lane_expression previous) start stop;
      local_masks ← transpose_u16_block local_masks;
      previous_masks ← transpose_u16_block previous_masks;
      local_expressions ← transpose_u32_block local_expressions;
      previous_expressions ← transpose_u32_block previous_expressions;
      pack_words_loop comparisons local previous n (S word)
        (push_planes masks local_masks previous_masks)
        (push_planes expressions (take EXPRESSION_BITS local_expressions) (take EXPRESSION_BITS previous_expressions))
  end.

(* binary.rs:1628-1695 pack_anon_stats_components *)
Definition pack_anon_stats_components (local previous : list Z) : result (list VecShare * list VecShare) :=
  if negb (length local =? length previous)%nat
  then bail "local and previous component batches must have equal lengths" else
  if negb (length local mod 2 =? 0)%nat
  then bail "anonymous-threshold input must contain interleaved code/mask pairs" else
  let comparisons := (length local / 2)%nat in
  let packed_words := div_ceil comparisons 64 in
  pack_words_loop comparisons local previous packed_words 0 (replicate 16 []) (replicate EXPRESSION_BITS []).

(* binary.rs:614-643 project_packed_components *)
Definition project_packed_components (role : Role) (packed : list VecShare) (component_mask : Z) : result (list VecShare) :=
  if role_index role <? 3 then
    let previous_role := (role_index role + 2) mod 3 in
    let keep_a := negb (Z.land component_mask (Z.shiftl 1 (role_index role)) =? 0) in
    let keep_b := negb (Z.land component_mask (Z.shiftl 1 previous_role) =? 0) in
    Ok (fmap (M:=list) (fun plane : VecShare =>
          fmap (M:=list) (fun share => mkShare (if keep_a then sa share else 0) (if keep_b then sb share else 0)) plane) packed)
  else bail "cannot project Rep3 components for role".

Section Protocols.
Context {R : Rng}.

(** [for offset in 0..14]: the bits that are updated in place are not read
    again; [n] layers are left. *)
(* binary.rs:547-569 binary_add_anon_threshold_from_parts (loop) *)
Fixpoint carry_layers (mask_s mask_c expression_s expression_c : list VecShare) (n offset : nat)
    (mask_carry expression_carry : VecShare) : M R (VecShare * VecShare) :=
  match n with
  | O => mret (mask_carry, expression_carry)
  | S n =>
      mask_s_bit ← liftr (index mask_s (offset + 2));
      mask_c_bit ← liftr (index mask_c (offset + 1));
      let mask_s_bit := vs_xor_assign u64 mask_s_bit mask_carry in
      let mask_c_bit := vs_xor_assign u64 mask_c_bit mask_carry in
      expression_s_bit ← liftr (index expression_s (offset + 2));
      expression_c_bit ← liftr (index expression_c (offset + 1));
      let expression_s_bit := vs_xor_assign u64 expression_s_bit expression_carry in
      let expression_c_bit := vs_xor_assign u64 expression_c_bit expression_carry in
      next ← and_many_grouped net_u64 [(mask_s_bit, mask_c_bit); (expression_s_bit, expression_c_bit)];
      n0 ← liftr (index next 0); n1 ← liftr (index next 1);
      carry_layers mask_s mask_c expression_s expression_c n (S offset)
        (vs_xor_assign u64 mask_carry n0) (vs_xor_assign u64 expression_carry n1)
  end.

(** The rounds after the carry-save step. *)
(* binary.rs:530-607 binary_add_anon_threshold_from_parts (after the first round) *)
Definition threshold_ripple (ms mask_c : list VecShare) (mask_c_msb : VecShare) (es expression_c : list VecShare) : M R VecShare :=
  ms1 ← liftr (index ms 1); mc0 ← liftr (index mask_c 0);
  es1 ← liftr (index es 1); ec0 ← liftr (index expression_c 0);
  first ← and_many_grouped net_u64 [(ms1, mc0); (es1, ec0)];
  mask_carry ← liftr (index first 0); expression_carry ← liftr (index first 1);
  '(mask_carry, expression_carry) ← carry_layers ms mask_c es expression_c 14 0 mask_carry expression_carry;
  let mask_carry_16 := vs_xor_assign u64 mask_c_msb mask_carry in
  expression_s_16 ← liftr (index es 16); expression_c_15 ← liftr (index expression_c 15);
  let expression_bit_16 := vs_xor_assign u64 (vs_xor_assign u64 expression_s_16 expression_c_15) expression_carry in
  let expression_s_16 := vs_xor_assign u64 expression_s_16 expression_carry in
  let expression_c_15 := vs_xor_assign u64 expression_c_15 expression_carry in
  final_round ← and_many_grouped net_u64 [(expression_s_16, expression_c_15); (mask_c_msb, mask_carry); (expression_bit_16, mask_carry_16)];
  f0 ← liftr (index final_round 0); mask_carry_17 ← liftr (index final_round 1); carry_into_sign ← liftr (index final_round 2);
  let expression_carry := vs_xor_assign u64 expression_carry f0 in
  result ← liftr (ok_or (last es) "missing expression sign bit");
  ec16 ← liftr (index expression_c 16);
  mret (vs_xor_assign u64 (vs_xor_assign u64 (vs_xor_assign u64 (vs_xor_assign u64 result ec16) expression_carry) mask_carry_17) carry_into_sign).

(* binary.rs:497-607 binary_add_anon_threshold_from_parts *)
Definition binary_add_anon_threshold_from_parts (mask expression : ThreeWayAdderParts) : M R VecShare :=
  if negb (parts_width MASK_BITS mask && parts_width EXPRESSION_BITS expression)
  then liftr (bail "invalid bit width for fused anonymous-threshold adder") else
  let expression_x1x3 := removelast (part_x1x3 expression) in
  let expression_x2x3 := removelast (part_x2x3 expression) in
  let expression_x3_without_msb := removelast (part_x3 expression) in
  let initial_groups := zip (part_x1x3 mask) (part_x2x3 mask) ++ zip expression_x1x3 expression_x2x3 in
  carries ← and_many_grouped net_u64 initial_groups;
  let expression_c := drop MASK_BITS carries in
  let mask_c := take MASK_BITS carries in
  let mask_c := transposed_pack_xor_assign u64 mask_c (part_x3 mask) in
  let expression_c := transposed_pack_xor_assign u64 expression_c expression_x3_without_msb in
  mask_c_msb ← liftr (ok_or (last mask_c) "missing mask carry");
  threshold_ripple (part_s mask) (removelast mask_c) mask_c_msb (part_s expression) expression_c.

(* binary.rs:445-493 binary_add_anon_threshold_fused *)
Definition binary_add_anon_threshold_fused (mask_x1 mask_x2 mask_x3 expression_x1 expression_x2 expression_x3 : list VecShare) : M R VecShare :=
  if negb ((length mask_x1 =? MASK_BITS)%nat && (length mask_x2 =? MASK_BITS)%nat && (length mask_x3 =? MASK_BITS)%nat
           && (length expression_x1 =? EXPRESSION_BITS)%nat && (length expression_x2 =? EXPRESSION_BITS)%nat
           && (length expression_x3 =? EXPRESSION_BITS)%nat)
  then liftr (bail "invalid bit width for fused anonymous-threshold adder") else
  let parts x1 x2 x3 :=
    let x2x3 := transposed_pack_xor_assign u64 x2 x3 in
    let s := transposed_pack_xor u64 x1 x2x3 in
    let x1x3 := transposed_pack_xor_assign u64 x1 x3 in
    mkParts s x1x3 x2x3 x3 in
  binary_add_anon_threshold_from_parts (parts mask_x1 mask_x2 mask_x3) (parts expression_x1 expression_x2 expression_x3).

(* binary.rs:647-677 binary_add_anon_threshold_from_packed_rep3 *)
Definition binary_add_anon_threshold_from_packed_rep3 (mask expression : list VecShare) : M R VecShare :=
  s ← get;
  let role := own_role (network_session s) in
  mask_x1x3 ← liftr (project_packed_components role mask 5);
  mask_x2x3 ← liftr (project_packed_components role mask 6);
  mask_x3 ← liftr (project_packed_components role mask 4);
  expression_x1x3 ← liftr (project_packed_components role expression 5);
  expression_x2x3 ← liftr (project_packed_components role expression 6);
  expression_x3 ← liftr (project_packed_components role expression 4);
  binary_add_anon_threshold_from_parts (mkParts mask mask_x1x3 mask_x2x3 mask_x3)
    (mkParts expression expression_x1x3 expression_x2x3 expression_x3).

(* binary.rs:1699-1713 extract_anon_stats_msb_batch_from_components *)
Definition extract_anon_stats_msb_batch_from_components (local previous : list Z) : M R (list Share) :=
  if (length local =? 0)%nat && (length previous =? 0)%nat then mret [] else
  let result_len := (length local / 2)%nat in
  '(masks, expressions) ← liftr (pack_anon_stats_components local previous);
  bit_17 ← binary_add_anon_threshold_from_packed_rep3 masks expressions;
  mret (vs_truncate (convert_to_bits u64 bit_17) result_len).

(* binary.rs:1729-1779 extract_anon_stats_msb_batch *)
Definition extract_anon_stats_msb_batch (code_dots mask_dots : list Share) : M R (list Share) :=
  if negb (length code_dots =? length mask_dots)%nat then liftr (bail "code and mask batches must have equal lengths") else
  if (length code_dots =? 0)%nat then mret [] else
  let result_len := length code_dots in
  packed_masks ← liftr (transpose_pack_u64_u16 mask_dots);
  s ← get;
  let role := own_role (network_session s) in
  '(mask_x1, mask_x2, mask_x3) ← liftr (split_packed_additive_components role packed_masks);
  let raw_expression := zip_with (fun code mask =>
    mkShare (expression_component (sa code) (sa mask)) (expression_component (sb code) (sb mask))) code_dots mask_dots in
  packed_expression ← liftr (transpose_pack_u64_u32 raw_expression);
  let packed_expression := take 18 packed_expression in
  '(expression_x1, expression_x2, expression_x3) ← liftr (split_packed_additive_components role packed_expression);
  bit_17 ← binary_add_anon_threshold_fused mask_x1 mask_x2 mask_x3 expression_x1 expression_x2 expression_x3;
  mret (vs_truncate (convert_to_bits u64 bit_17) result_len).

(* fhd_ops.rs:153-164 fhd_greater_than_anon_stats_from_galois *)
Definition fhd_greater_than_anon_stats_from_galois (interleaved_dots : list Z) : M R (list Share * FusedFhdDotShares) :=
  if negb (length interleaved_dots mod 2 =? 0)%nat
  then liftr (bail "anonymous-threshold input must contain interleaved code/mask pairs") else
  '(local, previous) ← galois_ring_to_rep3_components interleaved_dots;
  bits ← extract_anon_stats_msb_batch_from_components local previous;
  mret (bits, mkFused local previous).

(* fhd_ops.rs:172-178 fhd_greater_than_anon_stats_threshold *)
Definition fhd_greater_than_anon_stats_threshold (code_dots mask_dots : list Share) : M R (list Share) :=
  extract_anon_stats_msb_batch code_dots mask_dots.
End Protocols.

(** ** The circuit *)

Abbreviation vh := (vholds (T:=net_u64)).

Lemma split_last_two {A} (l : list A) k :
  length l = (3 + k)%nat -> exists c0 c' x y, l = c0 :: c' ++ [x; y] /\ length c' = k.
Proof.
  intros Hl. destruct l as [|c0 l]; try done. cbn in Hl.
  pose proof (length_drop l k) as Hd. rewrite <- (take_drop k l).
  destruct (drop k l) as [|x [|y [|? ?]]]; cbn in Hd; try lia.
  exists c0, (take k l), x, y. split; [done|]. rewrite length_take. lia.
Qed.
Lemma split_last1 {A} (l : list A) k :
  length l = (2 + k)%nat -> exists c0 c' x, l = c0 :: c' ++ [x] /\ length c' = k.
Proof.
  intros Hl. destruct l as [|c0 l]; try done. destruct l as [|x l _] using rev_ind; [done|].
  exists c0, l, x. split; [done|]. cbn in Hl. rewrite length_app in Hl. cbn in Hl. lia.
Qed.
Lemma split_first {A} (l : list A) k : length l = (2 + k)%nat -> exists x y l', l = x :: y :: l' /\ length l' = k.
Proof. intros Hl. destruct l as [|x [|y l]]; try done. exists x, y, l. cbn in Hl. by split; [|lia]. Qed.
Lemma split_ends {A} (l : list A) k :
  length l = (4 + k)%nat -> exists s0 s1 s' x y, l = s0 :: s1 :: s' ++ [x; y] /\ length s' = k.
Proof.
  intros Hl. destruct l as [|s0 l]; [done|]. destruct (split_last_two l k) as (s1 & s' & x & y & -> & H); [cbn in Hl; lia|].
  by exists s0, s1, s', x, y.
Qed.

Section Circuit.
Context {R : Rng} {HR : RngOk R} (ids : tri Identity) (sid : Z).
Context (n : nat).
Hypothesis Hn : Z.of_nat (33 * n * 8) < 2 ^ 32.

(** A round of grouped ANDs, its result unpacked entry by entry. *)
Lemma grouped_round (p q : tri (list VecShare)) fs gs m :
  tvec (vh n) p fs -> tvec (vh n) q gs -> length fs = length gs -> (length fs <= 33)%nat ->
  (forall i, zip (p @ i) (q @ i) = m i) ->
  proto (R := R) ids sid (fun i => and_many_grouped net_u64 (m i)) (fun out => tvec (vh n) out (zip_with bf_and fs gs)).
Proof.
  intros Hp Hq Hl H33 Hm. apply (proto_ext ids sid _ (fun i => and_many_grouped net_u64 (zip (p @ i) (q @ i)))).
  { intros s i _. by rewrite Hm. }
  apply (planes_grouped ids sid n p fs q gs Hp Hq Hl).
  eapply Z.le_lt_trans; [|exact Hn]. apply inj_le. change (BYTES net_u64) with 8%nat.
  apply Nat.mul_le_mono_r, Nat.mul_le_mono_r, H33.
Qed.

Lemma proto_index {A B X} (P : tri A -> B -> Prop) v xs k x (m : PartyID -> A -> M R X) Q :
  tvec P v xs -> xs !! k = Some x ->
  (forall s, (forall i, index (v @ i) k = Ok (s @ i)) -> P s x -> proto ids sid (fun i => m i (s @ i)) Q) ->
  proto ids sid (fun i => y ← liftr (index (v @ i) k); m i y) Q.
Proof.
  intros Hv Hx Hm. destruct (tvec_index P v xs k x Hv Hx) as (s & Hs & HP).
  eapply proto_bind; [apply (proto_liftr ids sid _ s (fun t => t = s)); done|]. intros t ->. by apply Hm.
Qed.

(** The operands of one position of both adders, with the carries added. *)
Lemma lane_bits_from (fs : list bitfun) k m f j l :
  fs !! k = Some f -> lane_bits (take (S m) (drop k fs)) j l = f j l :: lane_bits (take m (drop (S k) fs)) j l.
Proof. intros H. by rewrite (drop_S _ _ _ H). Qed.

Lemma carry_layers_spec (ms mc es ec : tri (list VecShare)) fms fmc fes fec m offset mcr ecr f g :
  tvec (vh n) ms fms -> tvec (vh n) mc fmc -> tvec (vh n) es fes -> tvec (vh n) ec fec ->
  (offset + 2 + m <= length fms)%nat -> (offset + 1 + m <= length fmc)%nat ->
  (offset + 2 + m <= length fes)%nat -> (offset + 1 + m <= length fec)%nat ->
  vh n mcr f -> vh n ecr g ->
  proto (R := R) ids sid (fun i => carry_layers (ms @ i) (mc @ i) (es @ i) (ec @ i) m offset (mcr @ i) (ecr @ i))
    (fun out =>
       vh n (fst <$> out) (fun j l => carry_out (f j l) (lane_bits (take m (drop (offset + 2) fms)) j l)
                                        (lane_bits (take m (drop (offset + 1) fmc)) j l)) /\
       vh n (snd <$> out) (fun j l => carry_out (g j l) (lane_bits (take m (drop (offset + 2) fes)) j l)
                                        (lane_bits (take m (drop (offset + 1) fec)) j l))).
Proof.
  intros Hms Hmc Hes Hec. revert offset mcr ecr f g.
  induction m as [|m IH]; intros offset mcr ecr f g L1 L2 L3 L4 Hf Hg.
  { apply (proto_ext ids sid _ (fun i => mret ((tof (fun i => (mcr @ i, ecr @ i))) @ i))); [intros s i _; by rewrite tget_tof|].
    apply proto_ret. split.
    - replace (fst <$> _) with mcr by (apply tri_ext; intros i; by rewrite tget_fmap, tget_tof).
      eapply vholds_ext; [|exact Hf]. done.
    - replace (snd <$> _) with ecr by (apply tri_ext; intros i; by rewrite tget_fmap, tget_tof).
      eapply vholds_ext; [|exact Hg]. done. }
  destruct (lookup_lt_is_Some_2 fms (offset + 2)) as [a Ea]; [lia|].
  destruct (lookup_lt_is_Some_2 fmc (offset + 1)) as [b Eb]; [lia|].
  destruct (lookup_lt_is_Some_2 fes (offset + 2)) as [c Ec]; [lia|].
  destruct (lookup_lt_is_Some_2 fec (offset + 1)) as [d Ed]; [lia|].
  cbn [carry_layers].
  eapply (proto_index (vh n)); [exact Hms|exact Ea|]. intros a' _ Ha.
  eapply (proto_index (vh n)); [exact Hmc|exact Eb|]. intros b' _ Hb.
  eapply (proto_index (vh n)); [exact Hes|exact Ec|]. intros c' _ Hc.
  eapply (proto_index (vh n)); [exact Hec|exact Ed|]. intros d' _ Hd.
  pose proof (vholds_xor_assign n _ _ _ _ Ha Hf) as Ha2. pose proof (vholds_xor_assign n _ _ _ _ Hb Hf) as Hb2.
  pose proof (vholds_xor_assign n _ _ _ _ Hc Hg) as Hc2. pose proof (vholds_xor_assign n _ _ _ _ Hd Hg) as Hd2.
  eapply proto_bind.
  { apply (grouped_round _ _ _ _ _ (tvec_cons _ _ _ _ _ Ha2 (tvec_cons _ _ _ _ _ Hc2 (tvec_nil _)))
      (tvec_cons _ _ _ _ _ Hb2 (tvec_cons _ _ _ _ _ Hd2 (tvec_nil _)))); [done|cbn; lia|].
    intros []; reflexivity. }
  intros nx Hnx. cbn [zip_with] in Hnx.
  eapply (proto_index (vh n)); [exact Hnx|done|]. intros n0 _ Hn0.
  eapply (proto_index (vh n)); [exact Hnx|done|]. intros n1 _ Hn1.
  pose proof (vholds_xor_assign n _ _ _ _ Hf Hn0) as Hf'. pose proof (vholds_xor_assign n _ _ _ _ Hg Hn1) as Hg'.
  eapply proto_ext; [|eapply proto_mono; [|exact (IH (S offset) _ _ _ _ ltac:(lia) ltac:(lia) ltac:(lia) ltac:(lia) Hf' Hg')]].
  { intros s i _. cbn beta. by rewrite !tget_tof. }
  intros out [Ho1 Ho2]. split; (eapply vholds_ext; [|eassumption]); intros j l _ _.
  - rewrite (lane_bits_from fms _ _ a) by done. rewrite (lane_bits_from fmc _ _ b) by done. cbn [carry_out Nat.add].
    f_equal. unfold bf_xor, bf_and. by destruct (a j l), (b j l), (f j l).
  - rewrite (lane_bits_from fes _ _ c) by done. rewrite (lane_bits_from fec _ _ d) by done. cbn [carry_out Nat.add].
    f_equal. unfold bf_xor, bf_and. by destruct (c j l), (d j l), (g j l).
Qed.

(** The parts of the sums of three bit-sliced numbers. *)
Definition parts_hold (P : tri ThreeWayAdderParts) (f1 f2 f3 : list bitfun) : Prop :=
  tvec (vh n) (part_s <$> P) (csa_s f1 f2 f3) /\ tvec (vh n) (part_x1x3 <$> P) (zip_with bf_xor f1 f3) /\
  tvec (vh n) (part_x2x3 <$> P) (zip_with bf_xor f2 f3) /\ tvec (vh n) (part_x3 <$> P) f3.

(** What the circuit computes in a lane: the overflow of the mask's summands
    above 16 bits is added to the expression at bit 16; the result is bit 17. *)
Definition anon_bit (m e : list bitfun * list bitfun * list bitfun) : bitfun := fun j l =>
  let '(m1, m2, m3) := m in let '(e1, e2, e3) := e in
  Z.testbit (lane3 e1 e2 e3 j l + 2 ^ 16 * (lane3 m1 m2 m3 j l / 2 ^ 16)) 17.

End Circuit.

(** Three 16-bit numbers: the bits of their sum above 16. *)
Lemma lane3_high m1 m2 m3 j l :
  length m1 = 16%nat -> length m2 = 16%nat -> length m3 = 16%nat ->
  lane3 m1 m2 m3 j l / 2 ^ 16
  = Z.b2z (Z.testbit (lane3 m1 m2 m3 j l) 16) + 2 * Z.b2z (Z.testbit (lane3 m1 m2 m3 j l) 17).
Proof.
  intros H1 H2 H3. set (x := lane3 m1 m2 m3 j l).
  assert (0 <= x < 3 * 2 ^ 16) as Hx.
  { unfold x, lane3, lane.
    pose proof (of_bits_range ((fun f : bitfun => f j l) <$> m1)) as R1. pose proof (of_bits_range ((fun f : bitfun => f j l) <$> m2)) as R2.
    pose proof (of_bits_range ((fun f : bitfun => f j l) <$> m3)) as R3. rewrite length_fmap, H1 in R1. rewrite length_fmap, H2 in R2.
    rewrite length_fmap, H3 in R3. change (2 ^ Z.of_nat 16) with (2 ^ 16) in *. lia. }
  rewrite !Z.testbit_spec' by lia. change (2 ^ 17) with (2 ^ 16 * 2). rewrite <- Z.div_div by lia.
  set (q := x / 2 ^ 16). assert (0 <= q < 3) as Hq by (unfold q; split; [apply Z.div_pos; lia|apply Z.div_lt_upper_bound; lia]).
  assert (q = 0 \/ q = 1 \/ q = 2) as [-> | [-> | ->]] by lia; done.
Qed.

(** The lanes of the expression, from the carries the layers leave. *)
Lemma expression_lane f1 f2 f3 t1 t2 t3 s0 s1 s' s16 s17 c0 c' c15 c16 j l :
  length f1 = length f2 -> length f1 = length f3 -> length s' = length c' ->
  csa_s (f1 ++ [t1]) (f2 ++ [t2]) (f3 ++ [t3]) = s0 :: s1 :: s' ++ [s16; s17] ->
  csa_c f1 f2 f3 = c0 :: c' ++ [c15; c16] ->
  let cr := carry_out false (lane_bits (s1 :: s') j l) (lane_bits (c0 :: c') j l) in
  let x := lane3 (f1 ++ [t1]) (f2 ++ [t2]) (f3 ++ [t3]) j l in
  Z.testbit x (Z.of_nat (2 + length s')) = xorb (xorb (s16 j l) (c15 j l)) cr /\
  Z.testbit x (Z.of_nat (3 + length s'))
  = xorb (xorb (s17 j l) (c16 j l)) (xorb (s16 j l && c15 j l) (cr && xorb (s16 j l) (c15 j l))).
Proof.
  intros H2 H3 Hl Hs Hc cr x.
  assert (exists tc, csa_c (f1 ++ [t1]) (f2 ++ [t2]) (f3 ++ [t3]) = c0 :: c' ++ [c15; c16; tc]) as [tc Hc'].
  { eexists. unfold csa_c in *. rewrite !zip_with_app by (rewrite ?length_zip_with; lia). rewrite Hc.
    cbn. by rewrite <- app_assoc. }
  destruct (csa_lanes (f1 ++ [t1]) (f2 ++ [t2]) (f3 ++ [t3]) j l) as [Ls Lc]. rewrite Hs in Ls. rewrite Hc' in Lc.
  assert (x = of_bits (lane_bits (s0 :: s1 :: s' ++ [s16; s17]) j l) + 2 * of_bits (lane_bits (c0 :: c' ++ [c15; c16; tc]) j l)) as ->.
  { rewrite Ls, Lc. unfold x, lane3, lane. fold (lane_bits (f1 ++ [t1]) j l) (lane_bits (f2 ++ [t2]) j l) (lane_bits (f3 ++ [t3]) j l).
    apply csa_spec; unfold lane_bits; rewrite !length_fmap, !length_app; cbn; lia. }
  assert (forall f g, lane_bits (f ++ g) j l = lane_bits f j l ++ lane_bits g j l) as Happ by (intros; apply fmap_app).
  assert (forall f, length (lane_bits f j l) = length f) as Hlen by (intros f; apply length_fmap).
  split.
  - pose proof (csa_bit (s0 j l) (lane_bits (s1 :: s') j l) (lane_bits (c0 :: c') j l) (s16 j l) (c15 j l) [s17 j l] [c16 j l; tc j l]) as H.
    rewrite !Hlen in H. specialize (H ltac:(cbn; lia)). unfold cr. rewrite <- H. f_equal.
    f_equal; [|f_equal]; f_equal; rewrite ?(app_comm_cons s'), ?(app_comm_cons c'); unfold lane_bits; cbn; by rewrite fmap_app.
  - pose proof (csa_bit (s0 j l) (lane_bits (s1 :: s' ++ [s16]) j l) (lane_bits (c0 :: c' ++ [c15]) j l) (s17 j l) (c16 j l) [] [tc j l]) as H.
    rewrite !Hlen in H. cbn [length] in H. rewrite !length_app in H. cbn [length] in H. specialize (H ltac:(lia)).
    replace (S (S (length s' + 1))) with (3 + length s')%nat in H by lia.
    replace (xorb (s16 j l && c15 j l) (cr && xorb (s16 j l) (c15 j l)))
      with (carry_out false (lane_bits (s1 :: s' ++ [s16]) j l) (lane_bits (c0 :: c' ++ [c15]) j l)).
    + rewrite <- H. f_equal. f_equal; [|f_equal]; f_equal; unfold lane_bits; cbn; rewrite !fmap_app, <- !app_assoc; done.
    + rewrite (app_comm_cons s'), (app_comm_cons c'), !Happ. apply carry_out_snoc. rewrite !Hlen. cbn. lia.
Qed.

Lemma lookup_tail {A} (l k : list A) m e x : m = (length l + e)%nat -> k !! e = Some x -> (l ++ k) !! m = Some x.
Proof. intros -> H. rewrite lookup_app_r by lia. by replace (length l + e - length l)%nat with e by lia. Qed.

Lemma first_carry f g fs gs j l :
  carry_out (bf_and f g j l) (lane_bits fs j l) (lane_bits gs j l) = carry_out false (lane_bits (f :: fs) j l) (lane_bits (g :: gs) j l).
Proof. unfold lane_bits. rewrite !fmap_cons. cbn [carry_out]. by rewrite andb_false_l, xorb_false_r. Qed.

Lemma proto_bind2 {R ids sid A B C} (m : PartyID -> M R (A * B)) (k : PartyID -> A -> B -> M R C) (P : tri A -> tri B -> Prop) Q :
  proto ids sid m (fun out => P (fst <$> out) (snd <$> out)) ->
  (forall a b, P a b -> proto ids sid (fun i => k i (a @ i) (b @ i)) Q) ->
  proto ids sid (fun i => '(x, y) ← m i; k i x y) Q.
Proof.
  intros Hm Hk. eapply proto_bind; [exact Hm|]. intros out Ho.
  apply (proto_ext ids sid _ (fun i => k i ((fst <$> out) @ i) ((snd <$> out) @ i))); [|by apply Hk].
  intros s i _. rewrite !tget_fmap. by destruct (out @ i).
Qed.

Lemma proto_liftr3 {R ids sid A B C X} (r : PartyID -> result (A * B * C)) (x : tri A) (y : tri B) (z : tri C) (k : PartyID -> A -> B -> C -> M R X) Q :
  (forall i, r i = Ok (x @ i, y @ i, z @ i)) -> proto ids sid (fun i => k i (x @ i) (y @ i) (z @ i)) Q ->
  proto ids sid (fun i => '(a, b, c) ← liftr (r i); k i a b c) Q.
Proof.
  intros Hr Hk. eapply proto_bind.
  { apply (proto_liftr ids sid r (tof (fun i => (x @ i, y @ i, z @ i))) (fun o => o = tof (fun i => (x @ i, y @ i, z @ i)))); [|done].
    intros i. by rewrite tget_tof. }
  intros ? ->. eapply proto_ext; [|exact Hk]. intros s i _. cbn beta. by rewrite tget_tof.
Qed.

Section FromParts.
Context {R : Rng} {HR : RngOk R} (ids : tri Identity) (sid : Z).
Context (n : nat).
Hypothesis Hn : Z.of_nat (33 * n * 8) < 2 ^ 32.

Lemma threshold_ripple_spec ms mc dm' es ec m0 m1 m' d0 d' dm s0 s1 s' s16 s17 c0 c' c15 c16 :
  tvec (vh n) ms (m0 :: m1 :: m') -> tvec (vh n) mc (d0 :: d') -> vh n dm' dm ->
  tvec (vh n) es (s0 :: s1 :: s' ++ [s16; s17]) -> tvec (vh n) ec (c0 :: c' ++ [c15; c16]) ->
  length m' = 14%nat -> length d' = 14%nat -> length s' = 14%nat -> length c' = 14%nat ->
  proto (R := R) ids sid (fun i => threshold_ripple (ms @ i) (mc @ i) (dm' @ i) (es @ i) (ec @ i))
    (fun out => vh n out (fun j l =>
       let mcr := carry_out false (lane_bits (m1 :: m') j l) (lane_bits (d0 :: d') j l) in
       let ecr := carry_out false (lane_bits (s1 :: s') j l) (lane_bits (c0 :: c') j l) in
       let bit16 := xorb (xorb (s16 j l) (c15 j l)) ecr in
       let bit17 := xorb (xorb (s17 j l) (c16 j l)) (xorb (s16 j l && c15 j l) (ecr && xorb (s16 j l) (c15 j l))) in
       xorb (xorb bit17 (dm j l && mcr)) (bit16 && xorb (dm j l) mcr))).
Proof.
  intros Hms Hmc Hdm Hes Hec Lm Ld Ls Lc. unfold threshold_ripple.
  destruct (tvec_ok_last _ "missing expression sign bit" _ _ s17 Hes) as (z & Hz & Hzd).
  { change (s0 :: s1 :: s' ++ [s16; s17]) with ((s0 :: s1 :: s') ++ [s16; s17]). rewrite (app_assoc _ [s16] [s17]). apply last_snoc. }
  eapply (proto_index ids sid (vh n)); [exact Hms|done|]. intros a Ea Ha.
  eapply (proto_index ids sid (vh n)); [exact Hmc|done|]. intros b Eb Hb.
  eapply (proto_index ids sid (vh n)); [exact Hes|done|]. intros c Ec Hc.
  eapply (proto_index ids sid (vh n)); [exact Hec|done|]. intros d Ed Hd.
  eapply proto_bind.
  { apply (grouped_round ids sid n Hn _ _ _ _ _ (tvec_cons _ _ _ _ _ Ha (tvec_cons _ _ _ _ _ Hc (tvec_nil _)))
      (tvec_cons _ _ _ _ _ Hb (tvec_cons _ _ _ _ _ Hd (tvec_nil _)))); [done|cbn; lia|].
    intros []; reflexivity. }
  intros nx Hnx. cbn [zip_with] in Hnx.
  eapply (proto_index ids sid (vh n)); [exact Hnx|done|]. intros n0 _ Hn0.
  eapply (proto_index ids sid (vh n)); [exact Hnx|done|]. intros n1 _ Hn1.
  eapply (proto_bind2 (R:=R) _ _ (fun a b =>
    vh n a (fun j l => carry_out false (lane_bits (m1 :: m') j l) (lane_bits (d0 :: d') j l)) /\
    vh n b (fun j l => carry_out false (lane_bits (s1 :: s') j l) (lane_bits (c0 :: c') j l)))).
  { eapply proto_mono; [|apply (carry_layers_spec ids sid n Hn ms mc es ec _ _ _ _ 14 0 n0 n1 (bf_and m1 d0) (bf_and s1 c0) Hms Hmc Hes Hec);
      [..|exact Hn0|exact Hn1]; cbn; rewrite ?length_app; cbn; lia].
    intros out [Hm He]. cbn [Nat.add drop] in Hm, He. rewrite !drop_0, !take_ge in Hm by lia.
    rewrite !drop_0, !take_app_length' in He by lia.
    split; (eapply vholds_ext; [|eassumption]); intros j l _ _; apply first_carry. }
  intros mcr ecr [Hm He].
  eapply (proto_index ids sid (vh n)); [exact Hes|apply (lookup_tail (s0 :: s1 :: s') _ 16 0); [cbn; lia|done]|]. intros u Eu Hu.
  eapply (proto_index ids sid (vh n)); [exact Hec|apply (lookup_tail (c0 :: c') _ 15 0); [cbn; lia|done]|]. intros v Ev Hv.
  pose proof (vholds_xor_assign n _ _ _ _ Hu He) as Hue. pose proof (vholds_xor_assign n _ _ _ _ Hv He) as Hve.
  pose proof (vholds_xor_assign n _ _ _ _ (vholds_xor_assign n _ _ _ _ Hu Hv) He) as Hb16.
  pose proof (vholds_xor_assign n _ _ _ _ Hdm Hm) as Hm16.
  eapply proto_bind.
  { apply (grouped_round ids sid n Hn _ _ _ _ _
      (tvec_cons _ _ _ _ _ Hue (tvec_cons _ _ _ _ _ Hdm (tvec_cons _ _ _ _ _ Hb16 (tvec_nil _))))
      (tvec_cons _ _ _ _ _ Hve (tvec_cons _ _ _ _ _ Hm (tvec_cons _ _ _ _ _ Hm16 (tvec_nil _))))); [done|cbn; lia|].
    intros []; reflexivity. }
  intros fr Hfr. cbn [zip_with] in Hfr.
  eapply (proto_index ids sid (vh n)); [exact Hfr|done|]. intros f0 _ Hf0.
  eapply (proto_index ids sid (vh n)); [exact Hfr|done|]. intros f1 _ Hf1.
  eapply (proto_index ids sid (vh n)); [exact Hfr|done|]. intros f2 _ Hf2.
  eapply proto_bind; [apply (proto_liftr ids sid _ z (fun v => vh n v s17)); done|]. intros rs Hrs. cbn beta in Hrs.
  eapply (proto_index ids sid (vh n)); [exact Hec|apply (lookup_tail (c0 :: c') _ 16 1); [cbn; lia|done]|]. intros w Ew Hw.
  pose proof (vholds_xor_assign n _ _ _ _ (vholds_xor_assign n _ _ _ _ (vholds_xor_assign n _ _ _ _
    (vholds_xor_assign n _ _ _ _ Hrs Hw) (vholds_xor_assign n _ _ _ _ He Hf0)) Hf1) Hf2) as Hr.
  eapply proto_ext; [|eapply proto_ret, vholds_ext; [|exact Hr]].
  { intros s i _. cbn beta. by rewrite !tget_tof. }
  intros j l _ _. unfold bf_xor, bf_and.
  set (e := carry_out false (lane_bits (s1 :: s') j l) (lane_bits (c0 :: c') j l)).
  set (m := carry_out false (lane_bits (m1 :: m') j l) (lane_bits (d0 :: d') j l)).
  by destruct (s16 j l), (s17 j l), (c15 j l), (c16 j l), (dm j l), e, m.
Qed.

(** The lane value of the last round is [anon_bit]. *)
Lemma anon_lane m1 m2 m3 f1 f2 f3 t1 t2 t3 m0 ms1 m' d0 d' dm s0 s1 s' s16 s17 c0 c' c15 c16 j l :
  length m1 = 16%nat -> length m2 = 16%nat -> length m3 = 16%nat ->
  length f1 = 17%nat -> length f2 = 17%nat -> length f3 = 17%nat ->
  csa_s m1 m2 m3 = m0 :: ms1 :: m' -> csa_c m1 m2 m3 = d0 :: d' ++ [dm] ->
  csa_s (f1 ++ [t1]) (f2 ++ [t2]) (f3 ++ [t3]) = s0 :: s1 :: s' ++ [s16; s17] -> csa_c f1 f2 f3 = c0 :: c' ++ [c15; c16] ->
  length s' = 14%nat -> length c' = 14%nat ->
  let mcr := carry_out false (lane_bits (ms1 :: m') j l) (lane_bits (d0 :: d') j l) in
  let ecr := carry_out false (lane_bits (s1 :: s') j l) (lane_bits (c0 :: c') j l) in
  let bit16 := xorb (xorb (s16 j l) (c15 j l)) ecr in
  let bit17 := xorb (xorb (s17 j l) (c16 j l)) (xorb (s16 j l && c15 j l) (ecr && xorb (s16 j l) (c15 j l))) in
  xorb (xorb bit17 (dm j l && mcr)) (bit16 && xorb (dm j l) mcr)
  = anon_bit (m1, m2, m3) (f1 ++ [t1], f2 ++ [t2], f3 ++ [t3]) j l.
Proof.
  intros L1 L2 L3 K1 K2 K3 Hms Hmc Hes Hec Ls Lc mcr ecr bit16 bit17.
  destruct (lane_two_carries m1 m2 m3 m0 (ms1 :: m') (d0 :: d') dm j l) as [Q0 Q1]; [congruence..|done|done|].
  destruct (expression_lane f1 f2 f3 t1 t2 t3 s0 s1 s' s16 s17 c0 c' c15 c16 j l) as [E16 E17]; [congruence..|done|done|].
  fold mcr in Q0, Q1. fold ecr in E16, E17. fold bit16 in E16. fold bit17 in E17.
  rewrite L1 in Q0, Q1. rewrite Ls in E16, E17.
  unfold anon_bit. rewrite lane3_high by done.
  change (Z.of_nat 16) with 16 in Q0. change (Z.of_nat 17) with 17 in Q1. change (Z.of_nat (2 + 14)) with 16 in E16. change (Z.of_nat (3 + 14)) with 17 in E17.
  rewrite Q0, Q1. change 17 with (16 + 1). rewrite add_two_bits by lia. change (16 + 1) with 17. by rewrite E16, E17.
Qed.

Lemma parts_width_ok P f1 f2 f3 k i :
  parts_hold n P f1 f2 f3 -> length f1 = k -> length f2 = k -> length f3 = k -> parts_width k (P @ i) = true.
Proof.
  intros (Hs & H13 & H23 & H3) <- L2 L3. destruct (length_csa f1 f2 f3) as [Ls _]; [congruence..|].
  pose proof (tvec_length _ _ _ i Hs) as A1. pose proof (tvec_length _ _ _ i H13) as A2.
  pose proof (tvec_length _ _ _ i H23) as A3. pose proof (tvec_length _ _ _ i H3) as A4.
  rewrite tget_fmap in A1, A2, A3, A4. rewrite length_zip_with in A2, A3.
  unfold parts_width. rewrite !andb_true_iff, !Nat.eqb_eq. lia.
Qed.

Lemma from_parts_spec Mk E m1 m2 m3 f1 f2 f3 t1 t2 t3 :
  length m1 = 16%nat -> length m2 = 16%nat -> length m3 = 16%nat ->
  length f1 = 17%nat -> length f2 = 17%nat -> length f3 = 17%nat ->
  parts_hold n Mk m1 m2 m3 -> parts_hold n E (f1 ++ [t1]) (f2 ++ [t2]) (f3 ++ [t3]) ->
  proto (R := R) ids sid (fun i => binary_add_anon_threshold_from_parts (Mk @ i) (E @ i))
    (fun out => vh n out (anon_bit (m1, m2, m3) (f1 ++ [t1], f2 ++ [t2], f3 ++ [t3]))).
Proof.
  intros L1 L2 L3 K1 K2 K3 HM HE. pose proof HM as (Hms & Hm13 & Hm23 & Hm3). pose proof HE as (Hes & He13 & He23 & He3).
  assert (forall i, parts_width MASK_BITS (Mk @ i) && parts_width EXPRESSION_BITS (E @ i) = true) as Hw.
  { intros i. rewrite (parts_width_ok Mk m1 m2 m3 MASK_BITS i), (parts_width_ok E _ _ _ EXPRESSION_BITS i HE); try done;
      unfold EXPRESSION_BITS; rewrite length_app; cbn; lia. }
  pose proof (tvec_removelast _ _ _ He13) as He13'. pose proof (tvec_removelast _ _ _ He23) as He23'.
  pose proof (tvec_removelast _ _ _ He3) as He3'.
  rewrite zip_with_app in He13', He23' by congruence. cbn [zip_with] in He13', He23'. rewrite removelast_app_one in He13', He23', He3'.
  pose proof (tvec_app _ _ _ _ _ Hm13 He13') as HA. pose proof (tvec_app _ _ _ _ _ Hm23 He23') as HB.
  set (A := tapp _ _) in HA. set (B := tapp _ _) in HB. set (x3 := removelast (A:=VecShare) <$> (part_x3 <$> E)) in He3'.
  apply (proto_ext ids sid _ (fun i => carries ← and_many_grouped net_u64 (zip (A @ i) (B @ i));
    mask_c_msb ← liftr (ok_or (last (transposed_pack_xor_assign u64 (take MASK_BITS carries) ((part_x3 <$> Mk) @ i))) "missing mask carry");
    threshold_ripple (part_s (Mk @ i)) (removelast (transposed_pack_xor_assign u64 (take MASK_BITS carries) ((part_x3 <$> Mk) @ i)))
      mask_c_msb (part_s (E @ i)) (transposed_pack_xor_assign u64 (drop MASK_BITS carries) (x3 @ i)))).
  { intros s i _. unfold binary_add_anon_threshold_from_parts. rewrite Hw. cbn [negb].
    assert (length (part_x1x3 (Mk @ i)) = length (part_x2x3 (Mk @ i))) as Hl.
    { pose proof (tvec_length _ _ _ i Hm13) as A1. pose proof (tvec_length _ _ _ i Hm23) as A2.
      rewrite tget_fmap in A1, A2. rewrite A1, A2, !length_zip_with. lia. }
    unfold A, B, tapp. rewrite !tget_tof, <- zip_with_app by exact Hl. unfold x3. by rewrite !tget_fmap. }
  eapply proto_bind.
  { apply (grouped_round ids sid n Hn A B _ _ _ HA HB); [..|done]; rewrite !length_app, !length_zip_with; lia. }
  intros car Hcar. rewrite zip_with_app in Hcar by (rewrite !length_zip_with; lia).
  pose proof (tvec_take _ MASK_BITS _ _ Hcar) as Hc1. pose proof (tvec_drop _ MASK_BITS _ _ Hcar) as Hc2.
  rewrite take_app_length' in Hc1 by (rewrite !length_zip_with; unfold MASK_BITS; lia).
  rewrite drop_app_length' in Hc2 by (rewrite !length_zip_with; unfold MASK_BITS; lia).
  apply (planes_xor_assign n) with (q := part_x3 <$> Mk) (gs := m3) in Hc1; [|rewrite !length_zip_with; lia|done].
  apply (planes_xor_assign n) with (q := x3) (gs := f3) in Hc2; [|rewrite !length_zip_with; lia|done].
  fold (csa_c m1 m2 m3) in Hc1. fold (csa_c f1 f2 f3) in Hc2.
  set (mc := tof _) in Hc1. set (ec := tof _) in Hc2.
  apply (proto_ext ids sid _ (fun i => mask_c_msb ← liftr (ok_or (last (mc @ i)) "missing mask carry");
    threshold_ripple ((part_s <$> Mk) @ i) ((removelast (A:=VecShare) <$> mc) @ i) mask_c_msb ((part_s <$> E) @ i) (ec @ i))).
  { intros s i _. unfold mc, ec. by rewrite !tget_fmap, !tget_tof, !tget_fmap. }
  destruct (length_csa m1 m2 m3) as [Lms Lmc]; [congruence..|]. destruct (length_csa f1 f2 f3) as [_ Lec]; [congruence..|].
  destruct (length_csa (f1 ++ [t1]) (f2 ++ [t2]) (f3 ++ [t3])) as [Les _]; [rewrite !length_app; cbn; lia..|].
  destruct (split_ends (csa_s (f1 ++ [t1]) (f2 ++ [t2]) (f3 ++ [t3])) 14) as (s0 & s1 & s' & s16 & s17 & Es & Ls); [rewrite Les, length_app; cbn; lia|].
  destruct (split_first (csa_s m1 m2 m3) 14) as (m0 & ms1 & m' & Em & Lm'); [lia|].
  destruct (split_last1 (csa_c m1 m2 m3) 14) as (d0 & d' & dm & Ed & Ld); [lia|].
  destruct (split_last_two (csa_c f1 f2 f3) 14) as (c0 & c' & c15 & c16 & Ec & Lc); [lia|].
  destruct (tvec_ok_last _ "missing mask carry" _ _ dm Hc1) as (x & Hx & Hxd); [rewrite Ed, app_comm_cons; apply last_snoc|].
  eapply proto_bind; [apply (proto_liftr ids sid _ x (fun v => vh n v dm)); done|]. intros dm' Hdm. cbn beta in Hdm.
  apply tvec_removelast in Hc1. rewrite Ed, app_comm_cons, removelast_app_one in Hc1. rewrite Em in Hms. rewrite Es in Hes. rewrite Ec in Hc2.
  eapply proto_mono; [|apply (threshold_ripple_spec _ _ dm' _ _ m0 ms1 m' d0 d' dm s0 s1 s' s16 s17 c0 c' c15 c16 Hms Hc1 Hdm Hes Hc2); done].
  intros out Ho. eapply vholds_ext; [|exact Ho]. intros j l _ _. by apply (anon_lane m1 m2 m3 f1 f2 f3 t1 t2 t3 m0 ms1 m' d0 d' dm s0).
Qed.
End FromParts.

(** ** What the bits mean *)

Lemma expression_component_eq code mask :
  0 <= code < 2 ^ 16 -> 0 <= mask < 2 ^ 16 -> expression_component code mask = (4 * code - mask) mod 2 ^ 18.
Proof.
  intros Hc Hm. unfold expression_component. rewrite Z.shiftl_mul_pow2, (Z.mod_small (code * 2 ^ 2)) by lia.
  change (2 ^ 18 - 1) with (Z.ones 18). rewrite Z.land_ones by lia.
  change (wrapping_sub u32 (code * 2 ^ 2) mask) with ((code * 2 ^ 2 - mask) mod 2 ^ 32).
  refine (ceq_pow_le 18 32 _ _ _ _); [lia|]. rewrite ceq_mod. ceq_ring.
Qed.

(** Bit 17 of the corrected expression of a distance in range: the sign of
    [4 code - mask], i.e. whether it is beyond the threshold [16384 / 2^16]. *)
Lemma anon_sum_bit (c m : tri Z) (d : dist) :
  valid3 u16 c -> valid3 u16 m -> sum3 u16 c = d.1 mod 2 ^ 16 -> sum3 u16 m = d.2 mod 2 ^ 16 -> in_range d ->
  Z.testbit (Lift.total (tof (fun i => expression_component (c @ i) (m @ i))) + 2 ^ 16 * (Lift.total m / 2 ^ 16)) 17
  = fhd_beyond 16384 d.
Proof.
  intros Vc Vm Hc Hm Hd. unfold sum3 in Hc, Hm. fold (Lift.total c) in Hc. fold (Lift.total m) in Hm. change (K u16) with 16 in *.
  assert (forall x (t : tri Z), valid3 u16 t -> 0 <= t @ x < 2 ^ 16) as Hv by (intros x t Ht; apply Ht).
  rewrite <- (Z.mod_pow2_bits_low _ 18 17) by lia.
  assert ((Lift.total (tof (fun i => expression_component (c @ i) (m @ i))) + 2 ^ 16 * (Lift.total m / 2 ^ 16)) mod 2 ^ 18
          = (4 * d.1 - d.2) mod 2 ^ 18) as ->.
  { unfold Lift.total at 1. cbn [at0 at1 at2 tof]. rewrite !expression_component_eq by auto.
    pose proof (Z.div_mod (Lift.total m) (2 ^ 16) ltac:(lia)) as E1. pose proof (Z.div_mod (Lift.total c) (2 ^ 16) ltac:(lia)) as E2.
    pose proof (Z.div_mod d.1 (2 ^ 16) ltac:(lia)) as E3. rewrite Hm, (Z.mod_small d.2) in E1 by (unfold in_range in Hd; lia).
    rewrite Hc in E2. set (q := Lift.total m / 2 ^ 16) in *.
    change (((4 * c @ ID0 - m @ ID0) mod 2 ^ 18 + (4 * c @ ID1 - m @ ID1) mod 2 ^ 18 + (4 * c @ ID2 - m @ ID2) mod 2 ^ 18
      + 2 ^ 16 * q) ==[2 ^ 18] (4 * d.1 - d.2)).
    rewrite !ceq_mod. apply ceq_iff; [done|]. exists (Lift.total c / 2 ^ 16 - d.1 / 2 ^ 16). unfold Lift.total in E1, E2 |- *. cbn [tget] in *. lia. }
  unfold in_range in Hd. change 17 with (18 - 1). rewrite sign_bit by lia. unfold fhd_beyond, B.
  apply eq_true_iff_eq. rewrite !Z.ltb_lt. lia.
Qed.

(** The components of a comparison's code and mask, those of its expression,
    and the distance they stand for. *)
Definition expression_of (p : tri Z * tri Z) : tri Z := tof (fun i => expression_component (p.1 @ i) (p.2 @ i)).

Definition compares (p : tri Z * tri Z) (d : dist) : Prop :=
  valid3 u16 p.1 /\ valid3 u16 p.2 /\ sum3 u16 p.1 = d.1 mod 2 ^ 16 /\ sum3 u16 p.2 = d.2 mod 2 ^ 16 /\ in_range d.

(** The bit planes of the components of party [i]. *)
Definition planes_of (cs : list (tri Z)) (k : nat) (i : PartyID) : list bitfun :=
  (fun b j l => Z.testbit (comp cs i (64 * j + l)) (Z.of_nat b)) <$> seq 0 k.
Definition planes3 (cs : list (tri Z)) (k : nat) : list bitfun * list bitfun * list bitfun :=
  (planes_of cs k ID0, planes_of cs k ID1, planes_of cs k ID2).

Lemma length_planes_of cs k i : length (planes_of cs k i) = k.
Proof. unfold planes_of. by rewrite length_fmap, length_seq. Qed.

Lemma comp_bound k cs i e :
  Forall (fun c => forall i, 0 <= c @ i < 2 ^ Z.of_nat k) cs -> 0 <= comp cs i e < 2 ^ Z.of_nat k.
Proof.
  intros Hcs. unfold comp. destruct (cs !! e) as [c|] eqn:E; [exact (Forall_lookup_1 _ _ _ _ Hcs E i)|].
  pose proof (Z.pow_pos_nonneg 2 (Z.of_nat k)). destruct i; cbn; lia.
Qed.

Lemma lane3_planes cs k j l :
  Forall (fun c => forall i, 0 <= c @ i < 2 ^ Z.of_nat k) cs ->
  lane3 (planes_of cs k ID0) (planes_of cs k ID1) (planes_of cs k ID2) j l
  = Lift.total (default (Tri 0 0 0) (cs !! (64 * j + l)%nat)).
Proof.
  intros Hcs. pose proof (fun i e => comp_bound k cs i e Hcs) as H.
  unfold lane3, planes_of. rewrite !(lane_testbits k (fun j l => comp cs _ (64 * j + l))) by apply H. done.
Qed.

Lemma expression_range p d i : compares p d -> 0 <= (expression_of p) @ i < 2 ^ 18.
Proof.
  intros (Vc & Vm & _). unfold expression_of. rewrite tget_tof, expression_component_eq by (apply Vc || apply Vm).
  apply Z.mod_pos_bound. lia.
Qed.

(** The circuit's output on the planes of the masks and of the expressions. *)
Lemma anon_bits_value ps ds :
  Forall2 compares ps ds ->
  (fun e => Z.b2z (bit_at 64 (anon_bit (planes3 ps.*2 16) (planes3 (expression_of <$> ps) 18)) e)) <$> seq 0 (length ds)
  = (fun d => Z.b2z (fhd_beyond 16384 d)) <$> ds.
Proof.
  intros H. pose proof (Forall2_length _ _ _ H) as Hl.
  apply list_eq. intros e. rewrite !list_lookup_fmap. destruct (decide (e < length ds)%nat) as [He|He].
  2: { by rewrite lookup_seq_ge, lookup_ge_None_2 by lia. }
  rewrite lookup_seq_lt by done. destruct (lookup_lt_is_Some_2 ds e He) as [d Hd]. rewrite Hd. cbn [fmap option_fmap option_map Nat.add].
  destruct (Forall2_lookup_r _ _ _ _ _ H Hd) as ([c m] & Hp & Hc). do 2 f_equal.
  unfold bit_at, anon_bit, planes3. rewrite !lane3_planes, <- Nat.div_mod_eq, !list_lookup_fmap, Hp.
  - destruct Hc as (Vc & Vm & Sc & Sm & Hr). by apply anon_sum_bit.
  - apply Forall_fmap. eapply Forall2_Forall_l; [exact H|]. apply Forall_true. intros d' p' Hp' i. apply Hp'.
  - apply Forall_fmap. eapply Forall2_Forall_l; [exact H|]. apply Forall_true. intros d' p' Hp' i. by apply (expression_range p' d').
Qed.

Section Dense.
Context {R : Rng} {HR : RngOk R} (ids : tri Identity) (sid : Z).

Lemma fused_parts n x1 x2 x3 f1 f2 f3 :
  tvec (vh n) x1 f1 -> tvec (vh n) x2 f2 -> tvec (vh n) x3 f3 -> length f1 = length f2 -> length f1 = length f3 ->
  parts_hold n (tof (fun i =>
    let x2x3 := transposed_pack_xor_assign u64 (x2 @ i) (x3 @ i) in
    mkParts (transposed_pack_xor u64 (x1 @ i) x2x3) (transposed_pack_xor_assign u64 (x1 @ i) (x3 @ i)) x2x3 (x3 @ i))) f1 f2 f3.
Proof.
  intros H1 H2 H3 L2 L3. pose proof (planes_xor_assign n _ _ _ _ (eq_trans (eq_sym L2) L3) H2 H3) as H23.
  pose proof (planes_xor_assign n _ _ _ _ L3 H1 H3) as H13. pose proof (planes_xor n _ _ _ _ H1 H23) as Hs.
  split_and!; [exact Hs|exact H13|exact H23|by destruct x3].
Qed.

Lemma anon_fused_spec n (cs es : list (tri Z)) x1 x2 x3 y1 y2 y3 :
  Z.of_nat (33 * n * 8) < 2 ^ 32 ->
  tvec (vh n) x1 (planes_of cs 16 ID0) -> tvec (vh n) x2 (planes_of cs 16 ID1) -> tvec (vh n) x3 (planes_of cs 16 ID2) ->
  tvec (vh n) y1 (planes_of es 18 ID0) -> tvec (vh n) y2 (planes_of es 18 ID1) -> tvec (vh n) y3 (planes_of es 18 ID2) ->
  proto (R := R) ids sid (fun i => binary_add_anon_threshold_fused (x1 @ i) (x2 @ i) (x3 @ i) (y1 @ i) (y2 @ i) (y3 @ i))
    (fun out => vh n out (anon_bit (planes3 cs 16) (planes3 es 18))).
Proof.
  intros Hn H1 H2 H3 G1 G2 G3.
  pose proof (fused_parts n x1 x2 x3 _ _ _ H1 H2 H3 ltac:(by rewrite !length_planes_of) ltac:(by rewrite !length_planes_of)) as HM.
  pose proof (fused_parts n y1 y2 y3 _ _ _ G1 G2 G3 ltac:(by rewrite !length_planes_of) ltac:(by rewrite !length_planes_of)) as HE.
  set (Mk := tof _) in HM. set (E := tof _) in HE.
  apply (proto_ext ids sid _ (fun i => binary_add_anon_threshold_from_parts (Mk @ i) (E @ i))).
  { intros s i _. unfold binary_add_anon_threshold_fused, Mk, E.
    rewrite (tvec_length _ _ _ i H1), (tvec_length _ _ _ i H2), (tvec_length _ _ _ i H3),
      (tvec_length _ _ _ i G1), (tvec_length _ _ _ i G2), (tvec_length _ _ _ i G3), !length_planes_of, !tget_tof. done. }
  apply (from_parts_spec ids sid n Hn Mk E _ _ _ (planes_of es 17 ID0) (planes_of es 17 ID1) (planes_of es 17 ID2));
    rewrite ?length_planes_of; done.
Qed.

Lemma compares_valid ps ds :
  Forall2 compares ps ds -> Forall (valid3 u16) ps.*1 /\ Forall (valid3 u16) ps.*2 /\ Forall (valid3 u32) (expression_of <$> ps).
Proof.
  intros H. rewrite !Forall_fmap. split_and!; (eapply Forall2_Forall_l; [exact H|]; apply Forall_true; intros d p Hp).
  - apply Hp.
  - apply Hp.
  - intros i. pose proof (expression_range p d i Hp). unfold valid. change (K u32) with 32. lia.
Qed.

Lemma expressions_dealt ps i :
  zip_with (fun code mask => mkShare (expression_component (sa code) (sa mask)) (expression_component (sb code) (sb mask)))
    ((dealt ps.*1) @ i) ((dealt ps.*2) @ i) = (dealt (expression_of <$> ps)) @ i.
Proof.
  unfold dealt. rewrite !tget_tof. induction ps as [|p ps IH]; [done|]. rewrite !fmap_cons. cbn [zip_with].
  rewrite IH. f_equal. unfold expression_of. by rewrite !tget_tof.
Qed.

(** The direct circuit on shares of codes and masks. *)
Lemma extract_anon_stats_spec ps ds :
  Forall2 compares ps ds -> batch_fits (length ds) ->
  proto (R := R) ids sid (fun i => extract_anon_stats_msb_batch ((dealt ps.*1) @ i) ((dealt ps.*2) @ i))
    (fun out => tvec (shares_xor Bit) out ((fun d => Z.b2z (fhd_beyond 16384 d)) <$> ds)).
Proof.
  intros H Hn. pose proof (Forall2_length _ _ _ H) as Hl. destruct (compares_valid ps ds H) as (V1 & V2 & V3).
  assert (forall (cs : list (tri Z)) i, length ((dealt cs) @ i) = length cs) as Hd by (intros cs i; unfold dealt; by rewrite tget_tof, length_fmap).
  destruct (decide (length ds = 0)%nat) as [E0|E0].
  { apply (proto_ext ids sid _ (fun i => mret (tnil @ i))).
    - intros s i _. unfold extract_anon_stats_msb_batch. rewrite !Hd, !length_fmap, Hl, E0. by destruct i.
    - apply proto_ret. destruct ds; [constructor|done]. }
  set (n := div_ceil (length ds) 64).
  destruct (transpose_rep3 u16 _ ps.*2 (dealt_rep_valid ps.*2 V2)) as (pm & Epm & Hpm).
  destruct (transpose_rep3 u32 _ _ (dealt_rep_valid _ V3)) as (pe & Epe & Hpe).
  apply (tvec_take _ 18) in Hpe. rewrite <- fmap_take, take_seq in Hpe. rewrite length_fmap, Hl in Hpm, Hpe. fold n in Hpm, Hpe.
  destruct (split_components_spec _ _ _ Hpm) as (x1 & x2 & x3 & Ex & H1 & H2 & H3).
  destruct (split_components_spec _ _ _ Hpe) as (y1 & y2 & y3 & Ey & G1 & G2 & G3).
  rewrite comp_planes in H1, H2, H3, G1, G2, G3.
  apply (proto_ext ids sid _ (fun i =>
    packed_masks ← liftr (transpose_pack_u64_u16 ((dealt ps.*2) @ i)); s ← get;
    '(x1, x2, x3) ← liftr (split_packed_additive_components (own_role (network_session s)) packed_masks);
    packed_expression ← liftr (transpose_pack_u64_u32 ((dealt (expression_of <$> ps)) @ i));
    '(y1, y2, y3) ← liftr (split_packed_additive_components (own_role (network_session s)) (take 18 packed_expression));
    bit_17 ← binary_add_anon_threshold_fused x1 x2 x3 y1 y2 y3;
    mret (vs_truncate (convert_to_bits u64 bit_17) (length ds)))).
  { intros s i Hs. unfold extract_anon_stats_msb_batch. rewrite !Hd, !length_fmap, Nat.eqb_refl, Hl. cbn [negb].
    by rewrite (proj2 (Nat.eqb_neq _ _) E0), expressions_dealt. }
  eapply proto_bind; [apply (proto_liftr ids sid _ pm (fun p => p = pm)); [exact Epm|done]|]. intros ? ->.
  eapply proto_bind; [apply (proto_get ids sid (fun s => in_ring ids sid s)); by intros|]. intros s Hs.
  apply (proto_liftr3 _ x1 x2 x3); [intros i; by rewrite (proj1 (Hs i)), <- Ex|].
  eapply proto_bind; [apply (proto_liftr ids sid _ pe (fun p => p = pe)); [exact Epe|done]|]. intros ? ->.
  apply (proto_liftr3 _ y1 y2 y3); [intros i; by rewrite (proj1 (Hs i)), <- Ey, tget_fmap|].
  assert (n * 64 <= length ds + 64)%nat as Hn'.
  { unfold n, div_ceil. pose proof (Nat.div_mod_eq (length ds + 64 - 1) 64). lia. }
  eapply proto_bind; [apply (anon_fused_spec n ps.*2 (expression_of <$> ps) x1 x2 x3 y1 y2 y3); try done; unfold batch_fits in Hn; lia|].
  intros out Ho. apply (vholds_bits n _ _ (length ds)) in Ho; [|apply div_ceil_le]. change (Z.to_nat (K net_u64)) with 64%nat in Ho.
  rewrite anon_bits_value in Ho by done.
  eapply proto_ext; [|apply (proto_ret ids sid _ _ Ho)]. intros s_ i _. cbn beta. by rewrite tget_tof.
Qed.

(** The generic path: the masks lifted to 32 bits, the codes shifted by 16. *)
Lemma pre_lifted_spec C Mk ds a t :
  tvec (fun s d => shares_int u16 s d.1) C ds -> tvec (fun s d => shares_int u32 s d.2) Mk ds ->
  Forall in_range ds -> batch_fits (length ds) -> translate_threshold_a t = Ok a -> 0 <= a <= B ->
  proto (R := R) ids sid (fun i => fhd_greater_than_threshold_pre_lifted_masks (C @ i) (Mk @ i) t)
    (fun out => tvec (shares_xor Bit) out ((fun d => Z.b2z (fhd_beyond a d)) <$> ds)).
Proof.
  intros HC HM Hr Hn Ha Hab. assert (valid u32 a) as Va by (unfold valid, B in *; change (K u32) with 32; lia).
  assert (tvec (shares_int u32) (tof (fun i => zip_with (fun code_dot mask_dot =>
    share_sub u32 (mul_lift_2k_to_32 16 code_dot) (share_scale u32 mask_dot a)) (C @ i) (Mk @ i))) ((fun d => d.1 * B - d.2 * a) <$> ds)) as HD.
  { apply (proj2 (tvec_fmap_r _ _ _ _)). refine (tvec_zip_same _ _ _ _ _ _ _ _ HC HM). intros s r d Hs Hr'.
    assert (shares_int u32 (mul_lift u32 16 <$> s) (d.1 * B)) as Hc.
    { pose proof (mul_lift_spec (T:=u16) (T':=u32) ltac:(done) 16 s _ ltac:(cbn; lia) ltac:(cbn; lia) Hs) as H.
      unfold shares_int. replace ((d.1 * B) mod 2 ^ K u32) with ((d.1 mod 2 ^ K u16 * 2 ^ 16) mod 2 ^ K u32); [exact H|].
      change (K u16) with 16. change (K u32) with 32. unfold B. change (2 ^ 32) with (2 ^ 16 * 2 ^ 16). rewrite !Z.mul_mod_distr_r by lia.
      by rewrite Zmod_mod. }
    exact (shares_int_sub (T:=u32) _ _ _ _ Hc (shares_int_scale (T:=u32) _ _ a Va Hr')). }
  set (V := tof _) in HD.
  eapply proto_ext; [|eapply proto_mono; [|apply (signs_spec ids sid (T:=net_u32) (HTr:=Transpose64_u32) V ((fun d => d.1 * B - d.2 * a) <$> ds));
    [cbn; lia|by rewrite length_fmap|exact HD|]]].
  - intros s i _. unfold fhd_greater_than_threshold_pre_lifted_masks.
    rewrite (tvec_length _ _ _ i HC), (tvec_length _ _ _ i HM), Nat.eqb_refl, Ha. unfold V. cbn beta. by rewrite tget_tof.
  - intros out. rewrite <- list_fmap_compose. intros Ho. refine (eq_ind _ (tvec (shares_xor Bit) out) Ho _ _).
    apply list_fmap_ext. intros k d _. cbn. f_equal. unfold fhd_beyond. destruct (Z.ltb_spec (d.1 * B) (d.2 * a)); lia.
  - apply Forall_fmap. eapply Forall_impl; [exact Hr|]. intros d. by apply fhd_diff_range.
Qed.

(** Shares of the codes and masks, as components. *)
Lemma compares_of_shares C Mk ds :
  tvec (fun s d => shares_int u16 s d.1) C ds -> tvec (fun s d => shares_int u16 s d.2) Mk ds -> Forall in_range ds ->
  exists ps, C = dealt ps.*1 /\ Mk = dealt ps.*2 /\ Forall2 compares ps ds.
Proof.
  intros HC. revert Mk. induction HC as [|s C d ds (c & Hs & Vc & Sc) HC IH]; intros Mk HM Hr.
  { apply tvec_nil_inv in HM as ->. by exists []. }
  apply tvec_cons_inv in HM as (r & Mk' & -> & (m & Hm & Vm & Sm) & HM). inversion Hr as [|? ? Hd Hr']; subst.
  destruct (IH Mk' HM Hr') as (ps & -> & -> & Hp). exists ((c, m) :: ps).
  split_and!; [apply tri_ext; intros i; unfold dealt; rewrite tget_tcons, !tget_tof, !fmap_cons; cbn; by rewrite ?Hs, ?Hm..|].
  constructor; [|done]. by split_and!.
Qed.

Lemma lift_masks_spec Mk ds :
  tvec (fun s d => shares_int u16 s d.2) Mk ds -> Forall in_range ds -> batch_fits (length ds) ->
  proto (R := R) ids sid (fun i => lift_fhd_mask_dots (Mk @ i)) (fun out => tvec (fun s d => shares_int u32 s d.2) out ds).
Proof.
  intros HM Hr Hn. pose proof (proj2 (tvec_fmap_r (shares_int u16) (fun d : dist => d.2) _ _) HM) as HM'.
  apply (proj2 (tvec_fmap_r (shares_add u16) (fun z => z mod 2 ^ K u16) _ _)) in HM'.
  eapply proto_mono; [|apply (lift_via_spec ids sid (T:=net_u16) (T':=u32) Mk _ HM'); rewrite ?length_fmap; unfold batch_fits in Hn; cbn; lia].
  intros out Ho. apply (proj1 (tvec_fmap_r _ (fun d : dist => d.2) _ _)). apply (proj1 (tvec_fmap_r (shares_add u32) (fun z => z mod 2 ^ K u32) _ _)).
  refine (eq_ind _ (tvec (shares_add u32) out) Ho _ _). rewrite <- !list_fmap_compose. apply list_fmap_ext. intros k d Hd. cbn.
  pose proof (Forall_lookup_1 _ _ _ _ Hr Hd) as [Hm _]. rewrite !Z.mod_small by (cbn; lia). done.
Qed.
End Dense.

(** Shares dealt by their components. *)
Lemma dealt_ints (cs : list (tri Z)) (ds : list dist) (g : dist -> Z) :
  Forall2 (fun c d => valid3 u16 c /\ sum3 u16 c = g d mod 2 ^ K u16) cs ds -> tvec (fun s d => shares_int u16 s (g d)) (dealt cs) ds.
Proof.
  induction 1 as [|c d cs ds [Vc Sc] H IH]; [apply tvec_nil|].
  exact (tvec_cons (fun s d => shares_int u16 s (g d)) (tof (fun i => mkShare (c @ i) (c @ (prev_id i)))) (dealt cs) d ds
    (ex_intro _ c (conj (rep3_tof c) (conj Vc Sc))) IH).
Qed.

(** ** Claims *)

(** The direct 18-bit circuit for the anonymous-statistics threshold and the
    generic path agree.  On three-party shares of a batch of code and mask dot
    products in range, [fhd_greater_than_anon_stats_threshold] returns shares
    of one bit per pair saying that the distance is beyond 0.375 (that is, that
    [4 code < mask]); lifting the masks to 32 bits and running
    [fhd_greater_than_threshold_pre_lifted_masks] with the threshold 0.375
    returns shares of the same bits. *)
Theorem anon_threshold_agrees (R : Rng) `{!RngOk R} ids sid C Mk ds :
  tvec (fun s d => shares_int u16 s d.1) C ds -> tvec (fun s d => shares_int u16 s d.2) Mk ds ->
  Forall in_range ds -> batch_fits (length ds) ->
  let beyond := (fun d => Z.b2z (4 * d.1 <? d.2)) <$> ds in
  proto (R := R) ids sid (fun i => fhd_greater_than_anon_stats_threshold (C @ i) (Mk @ i))
    (fun out => tvec (shares_xor Bit) out beyond) /\
  proto (R := R) ids sid (fun i => lifted ← lift_fhd_mask_dots (Mk @ i);
      fhd_greater_than_threshold_pre_lifted_masks (C @ i) lifted f64_three_eighths)
    (fun out => tvec (shares_xor Bit) out beyond).
Proof.
  intros HC HM Hr Hn beyond. assert (beyond = (fun d => Z.b2z (fhd_beyond 16384 d)) <$> ds) as ->.
  { apply list_fmap_ext. intros k d _. f_equal. unfold fhd_beyond, B. apply eq_true_iff_eq. rewrite !Z.ltb_lt. lia. }
  split.
  - destruct (compares_of_shares C Mk ds HC HM Hr) as (ps & -> & -> & Hp). by apply extract_anon_stats_spec.
  - eapply proto_bind; [by apply lift_masks_spec|]. intros m Hm.
    apply pre_lifted_spec; [done..|by vm_compute|unfold B; lia].
Qed.

Lemma anon_threshold_agrees_witness :
  let C := dealt [Tri 65000 600 36; Tri 1 2 65512] in
  let Mk := dealt [Tri 65000 600 136; Tri 60000 5000 736] in
  proto (R := counter_rng) demo_ids 3 (fun i => fhd_greater_than_anon_stats_threshold (C @ i) (Mk @ i))
    (fun out => tvec (shares_xor Bit) out [0; 1]) /\
  proto (R := counter_rng) demo_ids 3 (fun i => lifted ← lift_fhd_mask_dots (Mk @ i);
      fhd_greater_than_threshold_pre_lifted_masks (C @ i) lifted f64_three_eighths)
    (fun out => tvec (shares_xor Bit) out [0; 1]).
Proof.
  apply (anon_threshold_agrees counter_rng demo_ids 3 _ _ [(100, 200); (-21, 200)]);
    [..|repeat (apply Forall_cons_2; [vm_compute; done|]); apply Forall_nil_2|vm_compute; done];
    (refine (dealt_ints [_; _] [(100, 200); (-21, 200)] _ _); repeat (apply Forall2_cons; split; [split; [intros []; vm_compute; done|done]|]); apply Forall2_nil_2).
Defined.
