(* ===== verification/AnonPacked.v ===== *)
(** * The anonymous threshold on refreshed components: [protocol/binary.rs] and
    [protocol/fhd_ops.rs]

    The dense path of [fhd_greater_than_anon_stats_from_galois]: the two
    component lists a party holds after the refresh are bit-sliced word by word
    without building shares, and the operands of the adders are projections of
    the packed shares.  The theorem says that the bits are those of
    AnonThreshold.v and that the returned holder keeps sharings of the dot
    products. *)

From S2P Require Import Prelude IntRing RingImpl Party Share VecShare Transpose Value Net Prf Proto Circuits Binary Adder Inject Convert Lift Ops Select F64 Compare AnonThreshold.
From stdpp Require Import option base list numbers strings gmap.
From Stdlib Require Import ZArith Lia.
Local Open Scope Z_scope.

(** ** Transposing one component *)

Section Component.
Context (f : Share -> Z).
Hypothesis Hf : forall j m x y, (word_swp (T:=u64) j m (f x) (f y)) = (f (share_swp u64 j m x y).1, f (share_swp u64 j m x y).2).

Lemma butterfly_component n j m res rows :
  Z.of_nat j < 64 -> 0 <= m -> butterfly (share_swp u64) 64 n j m rows = Ok res ->
  butterfly (word_swp (T:=u64)) 64 n j m (f <$> rows) = Ok (f <$> res).
Proof.
  intros Hj Hm Hb.
  destruct (bf_outer_sim (fun x s => x = f s) 64 (word_swp (T:=u64)) (share_swp u64)
    ltac:(intros ? ? ? ? ? ? _ _ -> ->; rewrite Hf; split; reflexivity) n 7 j m (f <$> rows) rows res Hj Hm) as (r & Hr & H); [|done|].
  - apply Forall2_fmap_l, Forall_Forall2_diag, Forall_true. done.
  - unfold butterfly. rewrite Hr. f_equal. clear Hr Hb. induction H as [|x s xs ss -> H IH]; [done|]. by rewrite fmap_cons, IH.
Qed.

Lemma index_component a i : (i < length a)%nat -> index (f <$> a) i = Ok (f (share_at a i)).
Proof. intros Hi. unfold index, share_at. rewrite list_lookup_fmap. by destruct (lookup_lt_is_Some_2 a i Hi) as [x ->]. Qed.

Hypothesis Hp : forall s xs, f (pack_shares 64 s xs) = pack_words 64 s (f <$> xs).

Lemma u16_block_component a res :
  length a = 64%nat -> share_transpose16x64 a = Ok res -> transpose_u16_block (f <$> a) = Ok (f <$> res).
Proof.
  intros Hl H. unfold share_transpose16x64 in H. unfold transpose_u16_block.
  rewrite (mapM_result_ok _ (fun i => share64_from_share16s (share_at a i) (share_at a (16 + i)) (share_at a (32 + i)) (share_at a (48 + i)))) in H;
    [|intros i Hi%elem_of_seq; by rewrite !index_share_at by lia].
  rewrite (mapM_result_ok _ (fun i => f (share64_from_share16s (share_at a i) (share_at a (16 + i)) (share_at a (32 + i)) (share_at a (48 + i)))));
    [|intros i Hi%elem_of_seq; rewrite !index_component by lia; cbn [mbind result_bind]; unfold share64_from_share16s; by rewrite Hp].
  cbn [mbind result_bind] in *. apply butterfly_component in H; [|done..]. by rewrite <- list_fmap_compose in H.
Qed.

Lemma u32_block_component a res :
  length a = 64%nat -> share_transpose32x64 a = Ok res -> transpose_u32_block (f <$> a) = Ok (f <$> res).
Proof.
  intros Hl H. unfold share_transpose32x64 in H. unfold transpose_u32_block.
  rewrite (mapM_result_ok _ (fun i => share64_from_share32s (share_at a i) (share_at a (32 + i)))) in H;
    [|intros i Hi%elem_of_seq; by rewrite !index_share_at by lia].
  rewrite (mapM_result_ok _ (fun i => f (share64_from_share32s (share_at a i) (share_at a (32 + i)))));
    [|intros i Hi%elem_of_seq; rewrite !index_component by lia; cbn [mbind result_bind]; unfold share64_from_share32s; by rewrite Hp].
  cbn [mbind result_bind] in *. apply butterfly_component in H; [|done..]. by rewrite <- list_fmap_compose in H.
Qed.
End Component.

Lemma swp_sa j m x y : word_swp (T:=u64) j m (sa x) (sa y) = (sa (share_swp u64 j m x y).1, sa (share_swp u64 j m x y).2).
Proof. done. Qed.
Lemma swp_sb j m x y : word_swp (T:=u64) j m (sb x) (sb y) = (sb (share_swp u64 j m x y).1, sb (share_swp u64 j m x y).2).
Proof. done. Qed.

(** ** Packing *)

(** The planes of the first [w] words. *)
Definition planes_words (n w : nat) (v : VecShare) (planes : list VecShare) : Prop :=
  length planes = n /\ forall b plane, planes !! b = Some plane ->
    length plane = w /\
    forall j s, plane !! j = Some s ->
      bits_ok 64 s /\
      forall l, (l < 64)%nat ->
        Z.testbit (sa s) (Z.of_nat l) = Z.testbit (sa (share_at v (64 * j + l))) (Z.of_nat b) /\
        Z.testbit (sb s) (Z.of_nat l) = Z.testbit (sb (share_at v (64 * j + l))) (Z.of_nat b).

Lemma push_planes_spec n w v planes a res :
  planes_words n w v planes -> transposed 64 n a res ->
  (forall l, (l < 64)%nat -> share_at a l = share_at v (64 * w + l)) ->
  planes_words n (S w) v (push_planes planes (sa <$> res) (sb <$> res)).
Proof.
  intros [Hl Hp] [Hr Ht] Ha. unfold push_planes.
  assert (zip_with mkShare (sa <$> res) (sb <$> res) = res) as ->.
  { clear. induction res as [|[] res IH]; [done|]. rewrite !fmap_cons. cbn. by rewrite IH. }
  rewrite assign2_zip_with by congruence. split; [rewrite length_zip_with; lia|].
  intros b plane H. apply lookup_zip_with_Some in H as (p & s & -> & Hb & Hs).
  destruct (Hp b p Hb) as [Lp Hbits]. split; [rewrite length_app; cbn; lia|].
  intros j s' Hj. apply lookup_app_Some in Hj as [Hj|[Hj Hj']]; [by apply Hbits|].
  apply list_lookup_singleton_Some in Hj' as [Ej ->]. assert (j = w) as -> by lia.
  destruct (Ht b _ Hs) as [Hok Hbit]. split; [done|]. intros l Hlt. rewrite <- (Ha l Hlt). by apply Hbit.
Qed.

Lemma lane_array_spec (f : nat -> result Z) (g : nat -> Z) start stop :
  (start <= stop <= start + 64)%nat -> (forall k, (start <= k < stop)%nat -> f k = Ok (g k)) ->
  (forall k, (stop <= k < start + 64)%nat -> g k = 0) ->
  lane_array f start stop = Ok ((fun l => g (start + l)%nat) <$> seq 0 64).
Proof.
  intros Hs Hf Hg. unfold lane_array. rewrite (mapM_result_ok _ g); [|intros k Hk%elem_of_seq; apply Hf; lia].
  cbn [mbind result_bind]. f_equal. rewrite length_fmap, length_seq.
  apply list_eq. intros l. destruct (decide (l < stop - start)%nat) as [Hl|Hl].
  - rewrite lookup_app_l by (rewrite length_fmap, length_seq; lia). rewrite !list_lookup_fmap, !lookup_seq_lt by lia. done.
  - rewrite lookup_app_r by (rewrite length_fmap, length_seq; lia). rewrite length_fmap, length_seq, list_lookup_fmap.
    destruct (decide (l < 64)%nat) as [H64|H64].
    + rewrite lookup_seq_lt by done. rewrite lookup_replicate_2 by lia. cbn. rewrite Hg by lia. done.
    + rewrite lookup_seq_ge by lia. apply lookup_replicate_None. lia.
Qed.

(** The interleaved components party [i] holds. *)
Definition interleaved (ps : list (tri Z * tri Z)) (i : PartyID) : list Z := concat ((fun p => [p.1 @ i; p.2 @ i]) <$> ps).

Lemma interleaved_lookup ps i k p :
  ps !! k = Some p -> index (interleaved ps i) (k * 2) = Ok (p.1 @ i) /\ index (interleaved ps i) (k * 2 + 1) = Ok (p.2 @ i).
Proof.
  revert k. induction ps as [|q ps IH]; intros [|k] H; try done.
  - injection H as ->. done.
  - destruct (IH k H) as [H1 H2]. unfold index in *. cbn. split; [exact H1|exact H2].
Qed.

Lemma length_interleaved ps i : length (interleaved ps i) = (length ps * 2)%nat.
Proof. induction ps as [|p ps IH]; [done|]. cbn. unfold interleaved in IH. rewrite IH. done. Qed.

Lemma comp_out cs i k : (length cs <= k)%nat -> comp cs i k = 0.
Proof. intros H. unfold comp. rewrite lookup_ge_None_2 by done. by destruct i. Qed.

Lemma lane_mask_array ps i word :
  (word * 64 < length ps)%nat ->
  lane_array (lane_mask (interleaved ps i)) (word * 64) (Nat.min (word * 64 + 64) (length ps))
  = Ok ((fun l => comp ps.*2 i (word * 64 + l)) <$> seq 0 64).
Proof.
  intros Hw. apply (lane_array_spec _ (comp ps.*2 i)); [lia|..].
  - intros k Hk. unfold lane_mask, comp. destruct (lookup_lt_is_Some_2 ps k) as [p Hp]; [lia|].
    rewrite (proj2 (interleaved_lookup ps i k p Hp)), list_lookup_fmap, Hp. done.
  - intros k Hk. apply comp_out. rewrite length_fmap. lia.
Qed.

Lemma lane_expression_array ps i word :
  (word * 64 < length ps)%nat ->
  lane_array (lane_expression (interleaved ps i)) (word * 64) (Nat.min (word * 64 + 64) (length ps))
  = Ok ((fun l => comp (expression_of <$> ps) i (word * 64 + l)) <$> seq 0 64).
Proof.
  intros Hw. apply (lane_array_spec _ (comp (expression_of <$> ps) i)); [lia|..].
  - intros k Hk. unfold lane_expression, lane_code, lane_mask, comp. destruct (lookup_lt_is_Some_2 ps k) as [p Hp]; [lia|].
    destruct (interleaved_lookup ps i k p Hp) as [H1 H2]. rewrite H1, H2, list_lookup_fmap, Hp.
    cbn [mbind result_bind fmap option_fmap option_map from_option id]. unfold expression_of. by destruct i.
  - intros k Hk. apply comp_out. rewrite length_fmap. lia.
Qed.

(** One block of 64 shares, its components side by side. *)
Definition block_of (cs : list (tri Z)) (i : PartyID) (word : nat) : list Share :=
  (fun l => mkShare (comp cs i (word * 64 + l)) (comp cs (prev_id i) (word * 64 + l))) <$> seq 0 64.

Lemma block_components cs i word :
  (fun l => comp cs i (word * 64 + l)) <$> seq 0 64 = sa <$> block_of cs i word /\
  (fun l => comp cs (prev_id i) (word * 64 + l)) <$> seq 0 64 = sb <$> block_of cs i word.
Proof. unfold block_of. by rewrite <- !list_fmap_compose. Qed.

Lemma block_of_share_at T cs v i word l :
  tvec (rep_valid T) v cs -> (l < 64)%nat -> share_at (block_of cs i word) l = share_at (v @ i) (64 * word + l).
Proof.
  intros Hv Hl. rewrite (share_at_rep T v cs i _ Hv). unfold share_at, block_of.
  rewrite list_lookup_fmap, lookup_seq_lt by done. cbn [default fmap option_fmap option_map].
  by replace (64 * word + l)%nat with (word * 64 + (0 + l))%nat by lia.
Qed.

Lemma block_bits_ok n cs i word :
  Forall (fun c => forall i, 0 <= c @ i < 2 ^ Z.of_nat n) cs -> Forall (bits_ok n) (block_of cs i word).
Proof.
  intros Hcs. pose proof (fun i e => comp_bound n cs i e Hcs) as H.
  unfold block_of. apply Forall_fmap, Forall_true. intros l. split; apply H.
Qed.

(** The loop packs the words one after another. *)
Lemma pack_words_loop_spec ps ds i n word masks expressions :
  Forall2 compares ps ds ->
  (word + n = div_ceil (length ps) 64)%nat ->
  planes_words 16 word ((dealt ps.*2) @ i) masks -> planes_words 18 word ((dealt (expression_of <$> ps)) @ i) expressions ->
  exists masks' expressions',
    pack_words_loop (length ps) (interleaved ps i) (interleaved ps (prev_id i)) n word masks expressions = Ok (masks', expressions') /\
    planes_words 16 (word + n) ((dealt ps.*2) @ i) masks' /\ planes_words 18 (word + n) ((dealt (expression_of <$> ps)) @ i) expressions'.
Proof.
  intros H. destruct (compares_valid ps ds H) as (_ & V2 & V3). revert word masks expressions.
  induction n as [|n IH]; intros word masks expressions Hn Hm He.
  { exists masks, expressions. rewrite Nat.add_0_r. done. }
  assert (word * 64 < length ps)%nat as Hw.
  { unfold div_ceil in Hn. pose proof (Nat.div_mod_eq (length ps + 64 - 1) 64). lia. }
  assert (forall cs, length (block_of cs i word) = 64%nat) as Hl by (intros; unfold block_of; by rewrite length_fmap, length_seq).
  destruct (share_transpose16x64_spec (block_of ps.*2 i word) (Hl _)) as (r & Er & Hr).
  { apply (block_bits_ok 16). eapply Forall_impl; [exact V2|]. intros c Hc. exact Hc. }
  destruct (share_transpose32x64_spec (block_of (expression_of <$> ps) i word) (Hl _)) as (q & Eq & Hq).
  { apply (block_bits_ok 32). eapply Forall_impl; [exact V3|]. intros c Hc. exact Hc. }
  cbn [pack_words_loop]. rewrite !lane_mask_array, !lane_expression_array by done. cbn [mbind result_bind].
  destruct (block_components ps.*2 i word) as [-> ->]. destruct (block_components (expression_of <$> ps) i word) as [-> ->].
  rewrite (u16_block_component sa swp_sa (fun _ _ => eq_refl) _ _ (Hl _) Er), (u16_block_component sb swp_sb (fun _ _ => eq_refl) _ _ (Hl _) Er).
  rewrite (u32_block_component sa swp_sa (fun _ _ => eq_refl) _ _ (Hl _) Eq), (u32_block_component sb swp_sb (fun _ _ => eq_refl) _ _ (Hl _) Eq).
  cbn [mbind result_bind]. rewrite <- !fmap_take, <- Nat.add_succ_comm. apply IH; [lia|..].
  - refine (push_planes_spec 16 word _ _ _ r Hm Hr _). intros l Hl'.
    apply (block_of_share_at u16); [by apply dealt_rep_valid|done].
  - refine (push_planes_spec 18 word _ _ _ (take EXPRESSION_BITS q) He _ _); [apply (transposed_take 64 32 18 _ q ltac:(lia) Hq)|]. intros l Hl'.
    apply (block_of_share_at u32); [by apply dealt_rep_valid|done].
Qed.

Lemma planes_words_nil n v : planes_words n 0 v (replicate n []).
Proof.
  split; [apply length_replicate|]. intros b plane Hp. apply lookup_replicate in Hp as [-> _]. split; [done|]. by intros [].
Qed.

Lemma pack_components_spec ps ds :
  Forall2 compares ps ds ->
  exists masks expressions,
    (forall i, pack_anon_stats_components (interleaved ps i) (interleaved ps (prev_id i)) = Ok (masks @ i, expressions @ i)) /\
    tvec (holds3 (div_ceil (length ds) 64)) masks ((fun b i j l => Z.testbit (comp ps.*2 i (64 * j + l)) (Z.of_nat b)) <$> seq 0 16) /\
    tvec (holds3 (div_ceil (length ds) 64)) expressions
      ((fun b i j l => Z.testbit (comp (expression_of <$> ps) i (64 * j + l)) (Z.of_nat b)) <$> seq 0 18).
Proof.
  intros H. pose proof (Forall2_length _ _ _ H) as Hl. destruct (compares_valid ps ds H) as (_ & V2 & V3).
  assert (forall i, exists m e, pack_anon_stats_components (interleaved ps i) (interleaved ps (prev_id i)) = Ok (m, e) /\
    bit_planes 64 16 ((dealt ps.*2) @ i) m /\ bit_planes 64 18 ((dealt (expression_of <$> ps)) @ i) e) as Hi.
  { intros i. destruct (pack_words_loop_spec ps ds i (div_ceil (length ps) 64) 0 _ _ H eq_refl (planes_words_nil 16 _) (planes_words_nil 18 _))
      as (m & e & E & Hm & He). exists m, e. unfold pack_anon_stats_components. rewrite !length_interleaved, Nat.eqb_refl, Nat.Div0.mod_mul, Nat.div_mul by done.
    split; [exact E|]. unfold bit_planes, dealt in *. rewrite !tget_tof, !length_fmap in *. by split. }
  destruct (Hi ID0) as (m0 & e0 & E0 & M0 & X0), (Hi ID1) as (m1 & e1 & E1 & M1 & X1), (Hi ID2) as (m2 & e2 & E2 & M2 & X2).
  exists (Tri m0 m1 m2), (Tri e0 e1 e2). rewrite <- Hl.
  split_and!; [by intros []|..].
  - rewrite <- (length_fmap snd ps). apply (planes_rep3 u16 16 (dealt ps.*2)); [by apply dealt_rep_valid|by intros []].
  - rewrite <- (length_fmap expression_of ps). apply (planes_rep3 u32 18 (dealt (expression_of <$> ps))); [by apply dealt_rep_valid|by intros []].
Qed.

(** ** Projecting packed shares onto components *)

Definition kept (component_mask : Z) (F : PartyID -> bitfun) : PartyID -> bitfun :=
  fun i => if Z.testbit component_mask (party_index i) then F i else fun _ _ => false.

Lemma word_of_zero w : word_of w (fun _ => false) = 0.
Proof.
  apply Z.bits_inj'. intros k Hk. rewrite Z.testbit_0_l, <- (Z2Nat.id k) by done.
  by rewrite (proj2 (word_of_spec w _)), andb_false_r.
Qed.

Lemma project_spec n (p : tri (list VecShare)) Fs mask :
  tvec (holds3 n) p Fs ->
  exists q, (forall i, project_packed_components (party_role i) (p @ i) mask = Ok (q @ i)) /\ tvec (holds3 n) q (kept mask <$> Fs).
Proof.
  intros Hp. set (keep := fun i : PartyID => Z.testbit mask (party_index i)).
  set (proj := fun (i : PartyID) (s : Share) => mkShare (if keep i then sa s else 0) (if keep (prev_id i) then sb s else 0)).
  exists (tof (fun i => (fun plane : VecShare => proj i <$> plane) <$> p @ i)). split.
  { intros i. rewrite tget_tof. unfold project_packed_components.
    assert (forall k, 0 <= k -> negb (Z.land mask (Z.shiftl 1 k) =? 0) = Z.testbit mask k) as Hbit.
    { intros k Hk. rewrite Z.shiftl_1_l. destruct (Z.testbit mask k) eqn:E.
      - apply negb_true_iff, Z.eqb_neq. intros H0. assert (Z.testbit (Z.land mask (2 ^ k)) k = false) as Hf by (by rewrite H0, Z.testbit_0_l).
        rewrite Z.land_spec, E, Z.pow2_bits_true in Hf by done. done.
      - apply negb_false_iff, Z.eqb_eq. apply Z.bits_inj'. intros b Hb. rewrite Z.land_spec, Z.testbit_0_l, Z.pow2_bits_eqb by done.
        destruct (Z.eqb_spec k b) as [->|]; [by rewrite E|by rewrite andb_false_r]. }
    rewrite (Hbit (role_index (party_role i))) by (destruct i; cbn; lia).
    rewrite (Hbit ((role_index (party_role i) + 2) mod 3)) by (apply Z.mod_pos_bound; lia). by destruct i. }
  induction Hp as [|v p F Fs Hv Hp IH]; [constructor|]. rewrite fmap_cons.
  refine (tvec_cons (holds3 n) (tof (fun i => proj i <$> v @ i)) _ _ _ _ IH).
  unfold holds3 in *. revert v Hv. generalize (seq 0 n). intros js. induction js as [|j js IHj]; intros v Hv.
  { apply tvec_nil_inv in Hv as ->. constructor. }
  rewrite fmap_cons in Hv. apply tvec_cons_inv in Hv as (s & w & -> & [Hs Hc] & Hw). rewrite fmap_cons.
  refine (tvec_cons (rep_valid u64) (tof (fun i => proj i (s @ i))) _ _ _ _ (IHj w Hw)).
  assert (forall i, word_of 64 (kept mask F i j) = if keep i then word_of 64 (F i j) else 0) as Hk.
  { intros i. unfold kept, keep. destruct (Z.testbit mask (party_index i)); [done|apply word_of_zero]. }
  split.
  - intros i. rewrite tget_tof, Hs. unfold proj. cbn [sa sb]. by rewrite !tget_tof, !Hk.
  - intros i. rewrite tget_tof, Hk. specialize (Hc i). rewrite tget_tof in Hc. destruct (keep i); [done|]. unfold valid. cbn. lia.
Qed.

(** ** The adder's operands *)

Lemma planes_ext n v fs gs :
  tvec (vh n) v fs -> Forall2 (fun f g : bitfun => forall j l, f j l = g j l) fs gs -> tvec (vh n) v gs.
Proof.
  intros Hv. revert gs. induction Hv as [|s v f fs Hs Hv IH]; intros gs H; inversion H as [|? g ? gs' Hfg Hgs]; subst; [constructor|].
  constructor; [|by apply IH]. eapply vholds_ext; [|exact Hs]. intros j l _ _. apply Hfg.
Qed.

Lemma planes_xor3 n v Fs :
  tvec (holds3 n) v Fs -> tvec (vh n) v ((fun (F : PartyID -> bitfun) j l => xorb (xorb (F ID0 j l) (F ID1 j l)) (F ID2 j l)) <$> Fs).
Proof. induction 1 as [|s v F Fs Hs Hv IH]; [constructor|]. rewrite fmap_cons. constructor; [by apply holds3_xor|done]. Qed.

Lemma tof_tget {A} (t : tri A) : tof (fun i => t @ i) = t.
Proof. by destruct t. Qed.

Lemma packed_parts n p Fs x13 x23 x3 :
  tvec (holds3 n) p Fs -> tvec (holds3 n) x13 (kept 5 <$> Fs) -> tvec (holds3 n) x23 (kept 6 <$> Fs) -> tvec (holds3 n) x3 (kept 4 <$> Fs) ->
  parts_hold n (tof (fun i => mkParts (p @ i) (x13 @ i) (x23 @ i) (x3 @ i)))
    ((fun F => F ID0) <$> Fs) ((fun F => F ID1) <$> Fs) ((fun F => F ID2) <$> Fs).
Proof.
  intros Hp H13 H23 H3. apply planes_xor3 in Hp, H13, H23, H3. rewrite <- list_fmap_compose in H13, H23, H3.
  assert (forall (g h : (PartyID -> bitfun) -> bitfun), (forall F j l, g F j l = h F j l) ->
    Forall2 (fun f g : bitfun => forall j l, f j l = g j l) (g <$> Fs) (h <$> Fs)) as Hext.
  { intros g h Hgh. clear - Hgh. induction Fs as [|F Fs IH]; [constructor|]. rewrite !fmap_cons. constructor; [apply Hgh|done]. }
  assert (forall (g h : (PartyID -> bitfun) -> bitfun),
    zip_with bf_xor (g <$> Fs) (h <$> Fs) = (fun F => bf_xor (g F) (h F)) <$> Fs) as Hzip.
  { intros g h. clear. induction Fs as [|F Fs IH]; [done|]. rewrite !fmap_cons. cbn [zip_with]. by rewrite IH. }
  unfold parts_hold, csa_s. rewrite !Hzip.
  split_and!; match goal with |- tvec _ (?f <$> tof ?g) _ => change (f <$> tof g) with (tof (fun i => f (g i))); cbn [part_s part_x1x3 part_x2x3 part_x3]; rewrite tof_tget end.
  - refine (planes_ext n _ _ _ Hp (Hext _ _ _)). intros F j l. unfold bf_xor. by rewrite xorb_assoc.
  - refine (planes_ext n _ _ _ H13 (Hext _ _ _)). intros F j l. unfold bf_xor, compose, kept. cbn. by destruct (F ID0 j l), (F ID2 j l).
  - refine (planes_ext n _ _ _ H23 (Hext _ _ _)). intros F j l. unfold bf_xor, compose, kept. cbn. by destruct (F ID1 j l), (F ID2 j l).
  - refine (planes_ext n _ _ _ H3 (Hext _ _ _)). intros F j l. unfold compose, kept. cbn. by destruct (F ID2 j l).
Qed.

Section Packed.
Context {R : Rng} {HR : RngOk R} (ids : tri Identity) (sid : Z).

Lemma from_packed_spec n (cs es : list (tri Z)) masks expressions :
  Z.of_nat (33 * n * 8) < 2 ^ 32 ->
  tvec (holds3 n) masks ((fun b i j l => Z.testbit (comp cs i (64 * j + l)) (Z.of_nat b)) <$> seq 0 16) ->
  tvec (holds3 n) expressions ((fun b i j l => Z.testbit (comp es i (64 * j + l)) (Z.of_nat b)) <$> seq 0 18) ->
  proto (R := R) ids sid (fun i => binary_add_anon_threshold_from_packed_rep3 (masks @ i) (expressions @ i))
    (fun out => vh n out (anon_bit (planes3 cs 16) (planes3 es 18))).
Proof.
  intros Hn Hm He.
  destruct (project_spec n _ _ 5 Hm) as (m13 & Em13 & Hm13). destruct (project_spec n _ _ 6 Hm) as (m23 & Em23 & Hm23).
  destruct (project_spec n _ _ 4 Hm) as (m3 & Em3 & Hm3).
  destruct (project_spec n _ _ 5 He) as (e13 & Ee13 & He13). destruct (project_spec n _ _ 6 He) as (e23 & Ee23 & He23).
  destruct (project_spec n _ _ 4 He) as (e3 & Ee3 & He3).
  pose proof (packed_parts n _ _ _ _ _ Hm Hm13 Hm23 Hm3) as HM. pose proof (packed_parts n _ _ _ _ _ He He13 He23 He3) as HE.
  rewrite !comp_planes in HM, HE. set (Mk := tof _) in HM. set (E := tof _) in HE.
  unfold binary_add_anon_threshold_from_packed_rep3.
  eapply proto_bind; [apply (proto_get ids sid (fun s => in_ring ids sid s)); by intros|]. intros s Hs.
  apply (proto_ext ids sid _ (fun i => binary_add_anon_threshold_from_parts (Mk @ i) (E @ i))).
  { intros s' i _. rewrite (proj1 (Hs i)), Em13, Em23, Em3, Ee13, Ee23, Ee3. unfold Mk, E. by rewrite !tget_tof. }
  apply (from_parts_spec ids sid n Hn Mk E _ _ _ (planes_of es 17 ID0) (planes_of es 17 ID1) (planes_of es 17 ID2));
    rewrite ?length_fmap, ?length_seq, ?length_planes_of; done.
Qed.

Lemma from_components_spec ps ds :
  Forall2 compares ps ds -> batch_fits (length ds) ->
  proto (R := R) ids sid (fun i => extract_anon_stats_msb_batch_from_components (interleaved ps i) (interleaved ps (prev_id i)))
    (fun out => tvec (shares_xor Bit) out ((fun d => Z.b2z (fhd_beyond 16384 d)) <$> ds)).
Proof.
  intros H Hn. pose proof (Forall2_length _ _ _ H) as Hl.
  destruct (decide (length ds = 0)%nat) as [E0|E0].
  { apply (proto_ext ids sid _ (fun i => mret (tnil @ i))).
    - intros s i _. unfold extract_anon_stats_msb_batch_from_components. rewrite !length_interleaved, Hl, E0. by destruct i.
    - apply proto_ret. destruct ds; [apply tvec_nil|done]. }
  destruct (pack_components_spec ps ds H) as (masks & expressions & Ep & Hm & He). set (n := div_ceil (length ds) 64) in *.
  apply (proto_ext ids sid _ (fun i => bit_17 ← binary_add_anon_threshold_from_packed_rep3 (masks @ i) (expressions @ i);
    mret (vs_truncate (convert_to_bits u64 bit_17) (length ds)))).
  { intros s i _. unfold extract_anon_stats_msb_batch_from_components. rewrite Ep, !length_interleaved, Nat.div_mul, Hl by done.
    rewrite (proj2 (Nat.eqb_neq _ 0)) by lia. done. }
  assert (n * 64 <= length ds + 64)%nat as Hn'.
  { unfold n, div_ceil. pose proof (Nat.div_mod_eq (length ds + 64 - 1) 64). lia. }
  eapply proto_bind; [apply (from_packed_spec n ps.*2 (expression_of <$> ps)); try done; unfold batch_fits in Hn; lia|].
  intros out Ho. apply (vholds_bits n _ _ (length ds)) in Ho; [|apply div_ceil_le]. change (Z.to_nat (K net_u64)) with 64%nat in Ho.
  rewrite anon_bits_value in Ho by done.
  eapply proto_ext; [|apply (proto_ret ids sid _ _ Ho)]. intros s i _. cbn beta. by rewrite tget_tof.
Qed.
End Packed.

(** ** From the local dot products *)

Definition flat_dists (ds : list dist) : list Z := concat ((fun d => [d.1 mod 2 ^ 16; d.2 mod 2 ^ 16]) <$> ds).

Lemma components_of_add3 (d : tri (list Z)) ds :
  tvec (add3 u16) d (flat_dists ds) -> Forall in_range ds ->
  exists ps, (forall i, d @ i = interleaved ps i) /\ Forall2 compares ps ds.
Proof.
  revert d. induction ds as [|x ds IH]; intros d Hd Hr.
  { apply tvec_nil_inv in Hd as ->. exists []. split; [by intros []|constructor]. }
  inversion Hr as [|? ? Hx Hr']; subst.
  apply tvec_cons_inv in Hd as (c & d1 & -> & [Vc Sc] & Hd). apply tvec_cons_inv in Hd as (m & d2 & -> & [Vm Sm] & Hd).
  destruct (IH d2 Hd Hr') as (ps & Hp & H). exists ((c, m) :: ps). split; [|by constructor].
  intros i. rewrite !tget_tcons, Hp. done.
Qed.

Lemma length_flat_dists ds : length (flat_dists ds) = (length ds * 2)%nat.
Proof. induction ds as [|d ds IH]; [done|]. cbn. unfold flat_dists in IH. by rewrite IH. Qed.

(** Selecting candidates from the holder. *)
Lemma fused_select_spec ps ds idxs sel :
  Forall2 compares ps ds -> Forall2 (fun k d => ds !! k = Some d) idxs sel ->
  exists C Mk, (forall i, fused_select (mkFused (interleaved ps i) (interleaved ps (prev_id i))) idxs = Ok (C @ i, Mk @ i)) /\
    tvec (fun s d => shares_int u16 s d.1) C sel /\ tvec (fun s d => shares_int u16 s d.2) Mk sel.
Proof.
  intros H. induction 1 as [|k d idxs sel Hk Hs (C & Mk & E & HC & HM)].
  { exists tnil, tnil. split_and!; [by intros []|constructor..]. }
  destruct (Forall2_lookup_r _ _ _ _ _ H Hk) as (p & Hp & Vc & Vm & Sc & Sm & _).
  exists (tcons (tof (fun i => mkShare (p.1 @ i) (p.1 @ (prev_id i)))) C), (tcons (tof (fun i => mkShare (p.2 @ i) (p.2 @ (prev_id i)))) Mk).
  split_and!.
  - intros i. rewrite !tget_tcons, !tget_tof. specialize (E i). unfold fused_select in *. cbn [mapM_result].
    assert ((k <? fused_len (mkFused (interleaved ps i) (interleaved ps (prev_id i))))%nat = true) as ->.
    { apply Nat.ltb_lt. unfold fused_len. cbn [local]. rewrite length_interleaved, Nat.div_mul by done. by eapply lookup_lt_Some. }
    destruct (interleaved_lookup ps i k p Hp) as [E1 E2]. destruct (interleaved_lookup ps (prev_id i) k p Hp) as [E3 E4].
    cbn [negb local previous]. rewrite E1, E2, E3, E4. cbn [mbind result_bind].
    destruct (mapM_result _ idxs) as [pairs|] eqn:Em; [|done]. cbn [mbind result_bind] in *. injection E as <- <-. done.
  - constructor; [|done]. eexists. split; [apply rep3_tof|]. by split.
  - constructor; [|done]. eexists. split; [apply rep3_tof|]. by split.
Qed.

(** C15: The dense anonymous-statistics scan from the parties' local dot products:
    given additive sharings of interleaved code and mask dot products in range,
    [fhd_greater_than_anon_stats_from_galois] returns shares of the bits that
    say which distances are beyond 0.375 -- the word-by-word bit slicing and
    the projected adder operands compute what the direct circuit computes on
    shares -- and a holder from which selecting any valid indices yields
    replicated shares of exactly those distances. *)
Theorem anon_threshold_from_galois (R : Rng) `{!RngOk R} ids sid items ds :
  tvec (add3 u16) items (flat_dists ds) -> Forall in_range ds -> batch_fits (length ds) ->
  proto (R := R) ids sid (fun i => fhd_greater_than_anon_stats_from_galois (items @ i))
    (fun out => tvec (shares_xor Bit) (fst <$> out) ((fun d => Z.b2z (4 * d.1 <? d.2)) <$> ds) /\
       forall idxs sel, Forall2 (fun k d => ds !! k = Some d) idxs sel ->
         exists C Mk, (forall i, fused_select ((snd <$> out) @ i) idxs = Ok (C @ i, Mk @ i)) /\
           tvec (fun s d => shares_int u16 s d.1) C sel /\ tvec (fun s d => shares_int u16 s d.2) Mk sel).
Proof.
  intros Hi Hr Hn.
  apply (proto_ext ids sid _ (fun i => '(local, previous) ← galois_ring_to_rep3_components (items @ i);
    bits ← extract_anon_stats_msb_batch_from_components local previous; mret (bits, mkFused local previous))).
  { intros s i _. unfold fhd_greater_than_anon_stats_from_galois.
    by rewrite (tvec_length _ _ _ i Hi), length_flat_dists, Nat.Div0.mod_mul. }
  eapply proto_bind; [by apply galois_components_spec|]. intros ? (d & Hd & ->).
  destruct (components_of_add3 d ds Hd Hr) as (ps & Hp & H).
  apply (proto_ext ids sid _ (fun i => bits ← extract_anon_stats_msb_batch_from_components (interleaved ps i) (interleaved ps (prev_id i));
    mret (bits, mkFused (interleaved ps i) (interleaved ps (prev_id i))))); [intros s i _; by rewrite tget_tof, !Hp|].
  eapply proto_bind; [by apply from_components_spec|]. intros bits Hb.
  eapply proto_ext; [|apply (proto_ret ids sid (tof (fun i => (bits @ i, mkFused (interleaved ps i) (interleaved ps (prev_id i))))))].
  { intros s i _. cbn beta. by rewrite tget_tof. }
  split.
  - replace (fst <$> _) with bits by (apply tri_ext; intros i; by rewrite tget_fmap, tget_tof).
    refine (eq_ind _ (tvec (shares_xor Bit) bits) Hb _ _). apply list_fmap_ext. intros k x _. f_equal. unfold fhd_beyond, B.
    apply eq_true_iff_eq. rewrite !Z.ltb_lt. lia.
  - intros idxs sel Hs. destruct (fused_select_spec ps ds idxs sel H Hs) as (C & Mk & E & HC & HM).
    exists C, Mk. split; [|done]. intros i. rewrite tget_fmap, tget_tof. exact (E i).
Qed.

Lemma anon_threshold_from_galois_witness :
  let items := tcons (Tri 65000 600 36) (tcons (Tri 65000 600 136) (tcons (Tri 1 2 65512) (tcons (Tri 60000 5000 736) tnil))) in
  proto (R := counter_rng) demo_ids 3 (fun i => fhd_greater_than_anon_stats_from_galois (items @ i))
    (fun out => tvec (shares_xor Bit) (fst <$> out) [0; 1] /\
       forall idxs sel, Forall2 (fun k d => [(100, 200); (-21, 200)] !! k = Some d) idxs sel ->
         exists C Mk, (forall i, fused_select ((snd <$> out) @ i) idxs = Ok (C @ i, Mk @ i)) /\
           tvec (fun s d => shares_int u16 s d.1) C sel /\ tvec (fun s d => shares_int u16 s d.2) Mk sel).
Proof.
  apply (anon_threshold_from_galois counter_rng demo_ids 3 _ [(100, 200); (-21, 200)]);
    [|repeat (apply Forall_cons_2; [vm_compute; done|]); apply Forall_nil_2|vm_compute; done].
  repeat (apply (tvec_cons (add3 u16)); [split; [intros []; vm_compute; split; congruence|vm_compute; reflexivity]|]). apply tvec_nil.
Defined.
