(* ===== verification/Sync.v ===== *)
(** * Agreement on a job: [ampc-actor-utils/src/sync.rs]

    Before they work on a job the parties compare its hash, and whether each of
    them finds its input valid, by one exchange of messages with both
    neighbours. *)

From S2P Require Import Prelude IntRing RingImpl Party Share VecShare Value Net Prf Proto.
From stdpp Require Import option base list numbers strings gmap.
From Stdlib Require Import ZArith Lia.
Local Open Scope Z_scope.

(** ** Definitions *)

Definition JOB_HASH_LEN : nat := 32.

Section Protocols.
Context {R : Rng}.

(** The exchange both functions begin with. *)
(* ampc-actor-utils/src/sync.rs:19-24 sync_on_job_hash (exchange) *)
Definition exchange (local : NetworkValue) : M R (NetworkValue * NetworkValue) :=
  _ ← net (fun n => send_next n local);
  _ ← net (fun n => send_prev n local);
  from_next ← net receive_next;
  from_prev ← net receive_prev;
  mret (from_next, from_prev).

(** The digests in the order of the parties. *)
(* ampc-actor-utils/src/sync.rs:26-31 sync_on_job_hash (by role) *)
Definition by_party {A} (role : Z) (local from_next from_prev : A) : result (list A) :=
  if role =? 0 then Ok [local; from_next; from_prev] else
  if role =? 1 then Ok [from_prev; local; from_next] else
  if role =? 2 then Ok [from_next; from_prev; local] else bail "Invalid party id".

(* ampc-actor-utils/src/sync.rs:33-41 sync_on_job_hash (bytes of a message) *)
Definition hash_bytes (nv : NetworkValue) : result (list Z) :=
  match nv with
  | VBytes b => if (length b =? JOB_HASH_LEN)%nat then Ok b else bail "Unexpected network value in job hash sync"
  | _ => bail "Unexpected network value in job hash sync"
  end.

(* ampc-actor-utils/src/sync.rs:12-54 sync_on_job_hash *)
Definition sync_on_job_hash (hash : list Z) : M R bool :=
  let local := VBytes hash in
  '(from_next, from_prev) ← exchange local;
  s ← get;
  all ← liftr (by_party (role_index (own_role (network_session s))) local from_next from_prev);
  all_bytes ← liftr (mapM_result hash_bytes all);
  b0 ← liftr (index all_bytes 0); b1 ← liftr (index all_bytes 1); b2 ← liftr (index all_bytes 2);
  mret (bool_decide (b0 = b1) && bool_decide (b1 = b2)).

(* ampc-actor-utils/src/sync.rs:75-90 sync_on_job_validity (one peer) *)
Definition check_peer (hash : list Z) (all_valid : bool) (peer : NetworkValue) : result bool :=
  match peer with
  | VBytes bytes =>
      if negb (length bytes =? JOB_HASH_LEN + 1)%nat then bail "Unexpected frame length in job validity sync" else
      if negb (bool_decide (take JOB_HASH_LEN bytes = hash)) then bail "Mismatched job hashes in job validity sync" else
      flag ← index bytes JOB_HASH_LEN;
      if flag =? 0 then Ok false else
      if flag =? 1 then Ok all_valid else bail "Invalid validity flag in job validity sync"
  | _ => bail "Unexpected network value in job validity sync (expected bytes)"
  end.

(* ampc-actor-utils/src/sync.rs:74-91 sync_on_job_validity (both peers) *)
Definition check_peers (hash : list Z) (valid : bool) (from_next from_prev : NetworkValue) : result bool :=
  all_valid ← check_peer hash valid from_next;
  check_peer hash all_valid from_prev.

Definition validity_frame (hash : list Z) (valid : bool) : NetworkValue := VBytes (hash ++ [Z.b2z valid]).

(* ampc-actor-utils/src/sync.rs:61-92 sync_on_job_validity *)
Definition sync_on_job_validity (hash : list Z) (valid : bool) : M R bool :=
  '(from_next, from_prev) ← exchange (validity_frame hash valid);
  liftr (check_peers hash valid from_next from_prev).
End Protocols.

(** ** The exchange *)

Section Exchange.
Context {R : Rng} (ids : tri Identity) (sid : Z).

(** Every party ends with the messages of its successor and its predecessor. *)
Lemma exec_exchange (v : tri NetworkValue) s :
  in_ring ids sid s ->
  exec (R := R) ids no_messages (fun i => exchange (v @ i)) s
    (fun ch s' out => ch = no_messages /\ s' = s /\ forall i, out @ i = (v @ (next_id i), v @ (prev_id i))).
Proof.
  intros Hs. unfold exchange. apply exec_bind. apply (exec_send_next ids sid _ _ v); [apply Hs|].
  apply (exec_bind ids _ (fun i => net (fun n => send_prev n (v @ i))) (fun i _ =>
    fn ← net receive_next; fp ← net receive_prev; mret (fn, fp))).
  apply (exec_send_prev ids sid _ _ v); [apply Hs|].
  apply (exec_bind ids _ (fun i => net receive_next) (fun i fn => fp ← net receive_prev; mret (fn, fp))).
  apply exec_net.
  apply (exec_receive_next ids sid _ (push next_id no_messages v) _ (tof (fun i => v @ (next_id i)))); [apply Hs|by intros [] []|].
  eexists. split; [done|].
  apply (exec_bind ids _ (fun i => net receive_prev) (fun i fp => mret ((tof (fun i => v @ (next_id i))) @ i, fp))).
  apply exec_net.
  apply (exec_receive_prev ids sid _ no_messages _ (tof (fun i => v @ (prev_id i)))); [apply Hs|apply push_next_recv|].
  eexists. split; [done|].
  eapply exec_ext; [|apply (exec_ret ids _ (tof (fun i => (v @ (next_id i), v @ (prev_id i)))))].
  { intros i. by rewrite !tget_tof. }
  split; [done|]. split; [done|]. intros i. by rewrite tget_tof.
Qed.

Lemma exchange_spec (v : tri NetworkValue) :
  proto (R := R) ids sid (fun i => exchange (v @ i)) (fun out => forall i, out @ i = (v @ (next_id i), v @ (prev_id i))).
Proof. intros s Hs. eapply exec_mono; [|apply exec_exchange, Hs]. by intros ch s' x (-> & -> & Hx). Qed.
End Exchange.

(** ** Claims *)

Definition all_equal {A} `{!EqDecision A} (t : tri A) : bool :=
  bool_decide (at0 t = at1 t) && bool_decide (at1 t = at2 t).

Lemma all_equal_iff {A} `{!EqDecision A} (t : tri A) i :
  all_equal t = bool_decide (t @ (next_id i) = t @ i) && bool_decide (t @ (prev_id i) = t @ i).
Proof.
  unfold all_equal. apply eq_true_iff_eq. rewrite !andb_true_iff, !bool_decide_eq_true. destruct t, i; cbn; split; intros [? ?]; split; congruence.
Qed.

(** Agreement on a job's hash: whatever 32-byte digests the three parties
    start with, all three end with the same answer, which is true exactly when
    the digests are equal. *)
Theorem sync_on_job_hash_correct (R : Rng) ids sid (h : tri (list Z)) :
  (forall i, length (h @ i) = JOB_HASH_LEN) ->
  proto (R := R) ids sid (fun i => sync_on_job_hash (h @ i)) (fun out => out = tof (fun _ => all_equal h)).
Proof.
  intros Hl. unfold sync_on_job_hash.
  eapply proto_bind.
  { apply (proto_ext ids sid _ (fun i => exchange ((VBytes <$> h) @ i))); [intros s i _; by rewrite tget_fmap|].
    apply exchange_spec. }
  intros x Hx. cbn beta in Hx.
  apply (proto_ext ids sid _ (fun i => s ← get;
    all ← liftr (by_party (role_index (own_role (network_session s))) (VBytes (h @ i)) (VBytes (h @ (next_id i))) (VBytes (h @ (prev_id i))));
    all_bytes ← liftr (mapM_result hash_bytes all);
    b0 ← liftr (index all_bytes 0); b1 ← liftr (index all_bytes 1); b2 ← liftr (index all_bytes 2);
    mret (bool_decide (b0 = b1) && bool_decide (b1 = b2)))); [intros s i _; by rewrite Hx, !tget_fmap|].
  eapply proto_bind; [apply (proto_get ids sid (fun s => in_ring ids sid s)); by intros|]. intros s Hs.
  apply (proto_ext ids sid _ (fun i => mret ((tof (fun _ => all_equal h)) @ i))); [|by apply proto_ret].
  intros s' i _. rewrite (proj1 (Hs i)), tget_tof.
  assert (mapM_result hash_bytes [VBytes (h @ ID0); VBytes (h @ ID1); VBytes (h @ ID2)] = Ok [h @ ID0; h @ ID1; h @ ID2]) as Hm.
  { cbn [mapM_result hash_bytes]. by rewrite !Hl. }
  assert (by_party (role_index (party_role i)) (VBytes (h @ i)) (VBytes (h @ (next_id i))) (VBytes (h @ (prev_id i)))
    = Ok [VBytes (h @ ID0); VBytes (h @ ID1); VBytes (h @ ID2)]) as -> by by destruct i.
  change (liftr (R:=R) (Ok [VBytes (h @ ID0); VBytes (h @ ID1); VBytes (h @ ID2)]) ≫= (fun all => all_bytes ← liftr (mapM_result hash_bytes all);
    b0 ← liftr (index all_bytes 0); b1 ← liftr (index all_bytes 1); b2 ← liftr (index all_bytes 2);
    mret (bool_decide (b0 = b1) && bool_decide (b1 = b2))))
  with (all_bytes ← liftr (R:=R) (mapM_result hash_bytes [VBytes (h @ ID0); VBytes (h @ ID1); VBytes (h @ ID2)]);
    b0 ← liftr (index all_bytes 0); b1 ← liftr (index all_bytes 1); b2 ← liftr (index all_bytes 2);
    mret (bool_decide (b0 = b1) && bool_decide (b1 = b2))). by rewrite Hm.
Qed.

Lemma check_peer_spec hash all_valid h v :
  length h = JOB_HASH_LEN ->
  check_peer hash all_valid (validity_frame h v)
  = if bool_decide (h = hash) then Ok (all_valid && v) else Err (Eyre "Mismatched job hashes in job validity sync").
Proof.
  intros Hl. unfold check_peer, validity_frame. rewrite length_app, Hl. cbn [length]. rewrite Nat.eqb_refl, take_app_length' by done.
  cbn [negb]. case_bool_decide; [|done]. cbn [negb]. unfold index. rewrite lookup_app_r, Hl, Nat.sub_diag by lia. cbn.
  destruct v; cbn; by rewrite ?andb_true_r, ?andb_false_r.
Qed.

Lemma check_peers_spec (h : tri (list Z)) (valid : tri bool) i :
  (forall i, length (h @ i) = JOB_HASH_LEN) ->
  check_peers (h @ i) (valid @ i) (validity_frame (h @ (next_id i)) (valid @ (next_id i))) (validity_frame (h @ (prev_id i)) (valid @ (prev_id i)))
  = if all_equal h then Ok (at0 valid && at1 valid && at2 valid) else Err (Eyre "Mismatched job hashes in job validity sync").
Proof.
  intros Hl. unfold check_peers. rewrite (all_equal_iff h i), !check_peer_spec by done.
  case_bool_decide; [|done]. cbn [mbind result_bind]. rewrite !check_peer_spec by done.
  case_bool_decide; [|done]. cbn [andb]. f_equal. destruct valid as [[] [] []], i; done.
Qed.

(** Agreement on a job's validity.  After the exchange, when the three digests
    are equal every party accepts exactly when all three found their input
    valid; when they are not, every party -- not only the one that differs --
    fails with the mismatch error. *)
Theorem sync_on_job_validity_correct (R : Rng) ids sid (h : tri (list Z)) (valid : tri bool) :
  (forall i, length (h @ i) = JOB_HASH_LEN) ->
  proto (R := R) ids sid (fun i => attempt (sync_on_job_validity (h @ i) (valid @ i)))
    (fun out => out = tof (fun _ =>
       if all_equal h then Ok (at0 valid && at1 valid && at2 valid)
       else Err (Eyre "Mismatched job hashes in job validity sync"))).
Proof.
  intros Hl s Hs. apply exec_attempt_bind. set (v := tof (fun i => validity_frame (h @ i) (valid @ i))).
  eapply exec_ext; [|eapply exec_mono; [|apply (exec_exchange ids sid v), Hs]]; [intros i; unfold v; by rewrite tget_tof|].
  intros ch s' x (-> & -> & Hx). split; [done|].
  eapply exec_ext; [|apply (exec_ret ids _ (tof (fun _ => if all_equal h then Ok (at0 valid && at1 valid && at2 valid)
       else Err (Eyre "Mismatched job hashes in job validity sync"))))]; [|by split].
  intros i. rewrite Hx, tget_tof. unfold v. rewrite !tget_tof. unfold attempt, liftr.
  rewrite check_peers_spec by done. by destruct (all_equal h).
Qed.

Lemma sync_on_job_hash_correct_witness :
  let h := Tri (replicate 32 171) (replicate 32 171) (replicate 32 205) in
  proto (R := counter_rng) demo_ids 0 (fun i => sync_on_job_hash (h @ i)) (fun out => out = tof (fun _ => false)).
Proof. apply (sync_on_job_hash_correct counter_rng demo_ids 0 (Tri (replicate 32 171) (replicate 32 171) (replicate 32 205))). by intros []. Defined.

Lemma sync_on_job_validity_correct_witness :
  let h := tof (fun _ => replicate 32 171) in
  proto (R := counter_rng) demo_ids 0 (fun i => attempt (sync_on_job_validity (h @ i) ((Tri true false true) @ i)))
    (fun out => out = tof (fun _ => Ok false)).
Proof. apply (sync_on_job_validity_correct counter_rng demo_ids 0 (tof (fun _ => replicate 32 171)) (Tri true false true)). by intros []. Defined.
