(* ===== verification/Modifications.v ===== *)
(** * Recovery of modifications: [ampc-server-utils/src/modifications.rs] and
    [modifications/postgres.rs]

    Every party logs the operations that change the gallery.  After a restart
    the parties exchange snapshots of their logs; each compares its own with
    all of them and plans what to roll forward and what to drop.  The theorems
    say that the plans of the parties fit together: whatever order the
    snapshots arrive in, the logs agree afterwards, a second comparison finds
    nothing left to do, and a mutation that was already applied is not applied
    again. *)

From S2P Require Import Prelude.
From stdpp Require Import base list numbers strings option sets sorting gmap.
From Stdlib Require Import ZArith Lia Btauto.
Local Open Scope Z_scope.

(** ** Definitions *)

(* modifications.rs:37-40 ModificationInputReference *)
Inductive ModificationInputReference := RefS3 (reference : string) | RefInline (reference : string).

#[export] Instance reference_eq_dec : EqDecision ModificationInputReference.
Proof. solve_decision. Defined.

(* modifications.rs:11-14 ModificationStatus *)
Inductive ModificationStatus := InProgress | Completed.

Definition MOD_STATUS_IN_PROGRESS : string := "IN_PROGRESS".
Definition MOD_STATUS_COMPLETED : string := "COMPLETED".

(* modifications.rs:17-22 ModificationStatus::fmt *)
Definition status_to_string (s : ModificationStatus) : string :=
  match s with InProgress => MOD_STATUS_IN_PROGRESS | Completed => MOD_STATUS_COMPLETED end.

(* modifications.rs:27-33 ModificationStatus::from_str *)
Definition status_from_str (s : string) : option ModificationStatus :=
  if bool_decide (s = MOD_STATUS_IN_PROGRESS) then Some InProgress else
  if bool_decide (s = MOD_STATUS_COMPLETED) then Some Completed else None.

(* modifications.rs:84-94 Modification *)
Record Modification := mkMod {
  mod_id : Z;
  serial_id : option Z;
  request_type : string;
  input : option ModificationInputReference;
  status : string;
  persisted : bool;
  result_message_body : option string;
}.

(* modifications.rs:97-105 Modification::eq *)
Definition mod_eqb (x y : Modification) : bool :=
  bool_decide (mod_id x = mod_id y) && bool_decide (serial_id x = serial_id y)
  && bool_decide (request_type x = request_type y) && bool_decide (input x = input y)
  && bool_decide (status x = status y) && bool_decide (persisted x = persisted y).

(* modifications.rs:134-146 Modification::mark_completed *)
Definition mark_completed (self : Modification) (persisted : bool) (result_message_body : string) (updated_serial_id : option Z)
    : Modification :=
  mkMod (mod_id self) (match updated_serial_id with Some s => Some s | None => serial_id self end)
    (request_type self) (input self) (status_to_string Completed) persisted (Some result_message_body).

(** [iter().max()] of an [i64] iterator. *)
Definition max_of (l : list Z) : option Z :=
  match l with [] => None | x :: l => Some (foldl Z.max x l) end.
Definition min_of (l : list Z) : option Z :=
  match l with [] => None | x :: l => Some (foldl Z.min x l) end.

Definition saturating_sub_i64 (x y : Z) : Z := Z.min (2 ^ 63 - 1) (Z.max (- 2 ^ 63) (x - y)).

(* modifications.rs:197-216 ensure_modification_lookback *)
Definition ensure_modification_lookback (all : list (list Modification)) (max_lookback : Z) : result unit :=
  let completed_max_mod_ids := (fun state => max_of (mod_id <$> filter (fun m => status m = MOD_STATUS_COMPLETED) state)) <$> all in
  let ids := omap id completed_max_mod_ids in
  match min_of ids, max_of ids with
  | Some min_id, Some max_id =>
      if saturating_sub_i64 max_id min_id mod 2 ^ 64 <=? max_lookback then Ok tt
      else bail "Modification ID difference across nodes is too large"
  | _, _ => Ok tt
  end.

(* modifications.rs:219-225 requires_modification_apply *)
Definition requires_modification_apply (modification : Modification) (local : option Modification) : bool :=
  persisted modification
  && negb (match local with Some m => bool_decide (status m = MOD_STATUS_COMPLETED) && persisted m | None => false end).

Definition ensure (b : bool) (msg : string) : result unit := if b then Ok tt else bail msg.

(** [for m in modifications]: [first] is the first of them, [serial] what has
    been seen so far. *)
(* modifications.rs:378-402 check_modifications_consistency (loop) *)
Fixpoint check_consistency_loop (first : Modification) (serial : option Z) (mods : list Modification) : result unit :=
  match mods with
  | [] => Ok tt
  | m :: mods =>
      _ ← ensure (bool_decide (mod_id first = mod_id m)) "Inconsistent modification IDs";
      _ ← ensure (bool_decide (request_type first = request_type m)) "Inconsistent request types";
      _ ← ensure (bool_decide (input first = input m)) "Inconsistent input references";
      _ ← ensure (bool_decide (status m = MOD_STATUS_IN_PROGRESS) || bool_decide (status m = MOD_STATUS_COMPLETED)) "Unexpected modification state";
      match serial_id m with
      | Some current =>
          _ ← ensure (match serial with Some previous => previous =? current | None => true end) "Inconsistent serial IDs";
          check_consistency_loop first (Some current) mods
      | None => check_consistency_loop first serial mods
      end
  end.

(* modifications.rs:373-405 check_modifications_consistency *)
Definition check_modifications_consistency (modifications : list Modification) : result unit :=
  match modifications with
  | [] => panic "Empty modifications"
  | first :: _ => check_consistency_loop first None modifications
  end.

(** [BTreeMap::entry(k).or_default().push(m)]: the map as its entries in the
    order of the keys. *)
Fixpoint btree_push {V} (k : Z) (m : V) (g : list (Z * list V)) : list (Z * list V) :=
  match g with
  | [] => [(k, [m])]
  | (k', l) :: g' =>
      if k <? k' then (k, [m]) :: g
      else if k =? k' then (k', l ++ [m]) :: g'
      else (k', l) :: btree_push k m g'
  end.

(** What one group asks of the local party. *)
Inductive action := Update (m : Modification) | Delete (m : Modification) | Keep.

(* modifications.rs:327-336 compare_modifications (first completed) *)
Definition pick_completed (serial : option Z) (group_mods : list Modification) : result Modification :=
  let completed := filter (fun m => status m = MOD_STATUS_COMPLETED) group_mods in
  match List.find (fun m => bool_decide (serial_id m = serial)) completed with
  | Some m => Ok m
  | None => match completed with m :: _ => Ok m | [] => panic "At least one completed modification" end
  end.

(* modifications.rs:303-366 compare_modifications (one group) *)
Definition analyze_group (my : list Modification) (g : Z * list Modification) : result action :=
  let '(id, group_mods) := g in
  _ ← check_modifications_consistency group_mods;
  let local_copy := List.find (fun m => mod_id m =? id) my in
  let any_completed := existsb (fun m => bool_decide (status m = status_to_string Completed)) group_mods in
  let all_in_progress := forallb (fun m => bool_decide (status m = status_to_string InProgress)) group_mods in
  let any_persisted := existsb persisted group_mods in
  if all_in_progress then
    Ok (match local_copy with Some local_m => Delete local_m | None => Keep end)
  else if any_completed then
    let serial := head (omap serial_id group_mods) in
    first_completed ← pick_completed serial group_mods;
    match local_copy with
    | None => Ok Keep
    | Some local_m =>
        if negb (bool_decide (status local_m = status_to_string Completed))
           || negb (Bool.eqb (persisted local_m) any_persisted)
           || negb (bool_decide (serial_id local_m = serial))
        then Ok (Update (mkMod (mod_id first_completed) serial (request_type first_completed) (input first_completed)
                   (status_to_string Completed) any_persisted (result_message_body first_completed)))
        else Ok Keep
    end
  else bail "Unexpected modification state".

(** [for (id, group_mods) in &grouped]. *)
(* modifications.rs:302-367 compare_modifications (loop) *)
Fixpoint analyze_groups (my : list Modification) (groups : list (Z * list Modification)) (to_update to_delete : list Modification)
    : result (list Modification * list Modification) :=
  match groups with
  | [] => Ok (to_update, to_delete)
  | g :: groups =>
      a ← analyze_group my g;
      match a with
      | Update m => analyze_groups my groups (to_update ++ [m]) to_delete
      | Delete m => analyze_groups my groups to_update (to_delete ++ [m])
      | Keep => analyze_groups my groups to_update to_delete
      end
  end.

(* modifications.rs:289-371 compare_modifications *)
Definition compare_modifications (my : list Modification) (all : list (list Modification))
    : result (list Modification * list Modification) :=
  let grouped := foldl (fun g m => btree_push (mod_id m) m g) [] (concat all) in
  analyze_groups my grouped [] [].

(* modifications.rs:185-188 RollForwardModification *)
Record RollForwardModification := mkRollForward { modification : Modification; apply_mutation : bool }.

(* modifications.rs:191-194 ModificationRecoveryPlan *)
Record ModificationRecoveryPlan := mkPlan { updates : list RollForwardModification; deletes : list Modification }.

(* modifications.rs:227-250 recovery_plan *)
Definition recovery_plan (local : list Modification) (all : list (list Modification)) (max_lookback : Z)
    : result ModificationRecoveryPlan :=
  _ ← ensure_modification_lookback all max_lookback;
  '(updates, deletes) ← compare_modifications local all;
  Ok (mkPlan ((fun m => mkRollForward m (requires_modification_apply m (List.find (fun l => mod_id l =? mod_id m) local))) <$> updates)
             deletes).

(** The rows of the table, one per id; the statements match rows by id. *)
(* modifications/postgres.rs:185-239 update_modifications *)
Definition update_modifications (rows : list Modification) (modifications : list Modification) : list Modification :=
  (fun row => match List.find (fun data => mod_id data =? mod_id row) modifications with
              | Some data => mkMod (mod_id row) (serial_id data) (request_type row) (input row) (status data) (persisted data)
                               (result_message_body data)
              | None => row
              end) <$> rows.

(* modifications/postgres.rs:241-269 delete_modifications *)
Definition delete_modifications (rows : list Modification) (modifications : list Modification) : list Modification :=
  filter (fun row => mod_id row ∉ (mod_id <$> modifications)) rows.

(** *** Replaying the results of operations that are done *)

Section replay.
(** The calls of [publish], and how each ends. *)
Context (publish : string -> list string -> result unit).

(* modifications.rs:262-276 replay_modification_results (grouping) *)
Fixpoint group_bodies (modifications : list Modification) (request_type_order : list string) (grouped : gmap string (list string))
    : gmap string (list string) :=
  match modifications with
  | [] => grouped
  | m :: modifications =>
      match result_message_body m with
      | None => group_bodies modifications request_type_order grouped
      | Some body =>
          if bool_decide (request_type m ∈ request_type_order)
          then group_bodies modifications request_type_order (<[request_type m := default [] (grouped !! request_type m) ++ [body]]> grouped)
          else group_bodies modifications request_type_order grouped
      end
  end.

(** The calls made are kept with the outcome. *)
(* modifications.rs:277-281 replay_modification_results (publishing) *)
Fixpoint publish_groups (request_type_order : list string) (grouped : gmap string (list string)) (calls : list (string * list string))
    : list (string * list string) * result unit :=
  match request_type_order with
  | [] => (calls, Ok tt)
  | t :: order =>
      match grouped !! t with
      | None => publish_groups order grouped calls
      | Some bodies =>
          match publish t bodies with
          | Ok _ => publish_groups order (delete t grouped) (calls ++ [(t, bodies)])
          | Err e => (calls ++ [(t, bodies)], Err e)
          end
      end
  end.

(* modifications.rs:253-283 replay_modification_results *)
Definition replay_modification_results (modifications : list Modification) (request_type_order : list string)
    : list (string * list string) * result unit :=
  publish_groups request_type_order (group_bodies modifications request_type_order ∅) [].
End replay.

(** ** Grouping *)

Definition group_of (k : Z) (l : list Modification) : list Modification := filter (fun m => mod_id m = k) l.

(** The keys of the map, in order. *)
Fixpoint insert_key (k : Z) (ks : list Z) : list Z :=
  match ks with
  | [] => [k]
  | k' :: ks' => if k <? k' then k :: ks else if k =? k' then ks else k' :: insert_key k ks'
  end.

Lemma elem_of_insert_key k k' ks : k' ∈ insert_key k ks <-> k' = k \/ k' ∈ ks.
Proof.
  induction ks as [|x ks IH]; cbn; [set_solver|]. destruct (Z.ltb_spec k x); [set_solver|].
  destruct (Z.eqb_spec k x) as [->|]; set_solver.
Qed.

Lemma insert_key_sorted k ks : StronglySorted Z.lt ks -> StronglySorted Z.lt (insert_key k ks).
Proof.
  induction 1 as [|x ks Hs IH Hx]; cbn; [repeat constructor|]. destruct (Z.ltb_spec k x).
  - constructor; [by constructor|]. constructor; [done|]. eapply Forall_impl; [exact Hx|]. intros; lia.
  - destruct (Z.eqb_spec k x) as [->|]; [by constructor|]. constructor; [done|]. apply Forall_forall.
    intros y [->|Hy]%elem_of_insert_key; [lia|]. by eapply Forall_forall in Hx.
Qed.

Lemma btree_push_keys {V} (F : Z -> list V) k m ks :
  StronglySorted Z.lt ks -> (k ∉ ks -> F k = []) ->
  btree_push k m ((fun k => (k, F k)) <$> ks)
  = (fun x => (x, if decide (x = k) then F x ++ [m] else F x)) <$> insert_key k ks.
Proof.
  intros Hs. induction Hs as [|x ks Hs IH Hx]; intros Hk.
  { cbn. rewrite decide_True by done. rewrite Hk by set_solver. done. }
  rewrite fmap_cons. cbn [btree_push insert_key].
  assert (forall ks' : list Z, (forall y, y ∈ ks' -> y <> k) ->
    (fun x => (x, F x)) <$> ks' = (fun x => (x, if decide (x = k) then F x ++ [m] else F x)) <$> ks') as Hsame.
  { intros ks' H. apply list_fmap_ext. intros j y Hy. rewrite decide_False; [done|]. apply H. by eapply list_elem_of_lookup_2. }
  destruct (Z.ltb_spec k x) as [Hlt|Hge].
  - rewrite fmap_cons, <- Hsame, fmap_cons.
    + rewrite decide_True by done. rewrite Hk; [done|]. intros [->|Hin]%elem_of_cons; [lia|]. eapply Forall_forall in Hx; [|done]. lia.
    + intros y [->|Hin]%elem_of_cons; [lia|]. eapply Forall_forall in Hx; [|done]. lia.
  - destruct (Z.eqb_spec k x) as [->|Hne].
    + rewrite fmap_cons, decide_True by done. f_equal. apply Hsame. intros y Hin. eapply Forall_forall in Hx; [|done]. lia.
    + rewrite fmap_cons, decide_False by done. f_equal. apply IH. intros Hin. apply Hk. intros [->|]%elem_of_cons; done.
Qed.

Definition keys (l : list Modification) : list Z := foldl (fun ks m => insert_key (mod_id m) ks) [] l.

Lemma keys_snoc l m : keys (l ++ [m]) = insert_key (mod_id m) (keys l).
Proof. unfold keys. by rewrite foldl_app. Qed.

Lemma elem_of_keys l k : k ∈ keys l <-> exists m, m ∈ l /\ mod_id m = k.
Proof.
  induction l as [|m l IH] using rev_ind; [set_solver|]. rewrite keys_snoc, elem_of_insert_key, IH.
  setoid_rewrite elem_of_app. setoid_rewrite list_elem_of_singleton. split.
  - intros [->|(x & Hx & <-)]; eauto.
  - intros (x & [Hx| ->] & <-); eauto.
Qed.

Lemma keys_sorted l : StronglySorted Z.lt (keys l).
Proof. induction l as [|m l IH] using rev_ind; [constructor|]. rewrite keys_snoc. by apply insert_key_sorted. Qed.

Lemma keys_NoDup l : NoDup (keys l).
Proof.
  pose proof (keys_sorted l) as H. induction H as [|x ks Hs IH Hx]; constructor; [|done].
  intros Hin. eapply Forall_forall in Hx; [|done]. lia.
Qed.

(** The map built by the pushes: one group per id, in the order of the ids. *)
Lemma grouped_keys l : foldl (fun g m => btree_push (mod_id m) m g) [] l = (fun k => (k, group_of k l)) <$> keys l.
Proof.
  induction l as [|m l IH] using rev_ind; [done|]. rewrite foldl_app, keys_snoc. cbn [foldl]. rewrite IH, btree_push_keys.
  - apply list_fmap_ext. intros j x _. f_equal. unfold group_of. rewrite filter_app, filter_cons, filter_nil.
    destruct (decide (x = mod_id m)) as [->|Hne]; [by rewrite decide_True|]. rewrite decide_False, app_nil_r by congruence. done.
  - apply keys_sorted.
  - intros Hk. unfold group_of. destruct (filter _ l) as [|x fl] eqn:E; [done|]. exfalso. apply Hk, elem_of_keys. exists x.
    assert (x ∈ filter (fun y => mod_id y = mod_id m) l) as Hx by (rewrite E; by left). apply list_elem_of_filter in Hx as [? ?]. done.
Qed.

(** ** Consistent groups *)

Definition settled_status (m : Modification) : Prop := status m = MOD_STATUS_IN_PROGRESS \/ status m = MOD_STATUS_COMPLETED.

Definition same_operation (x y : Modification) : Prop :=
  mod_id x = mod_id y /\ request_type x = request_type y /\ input x = input y.

(** The records of one operation, as the parties report them. *)
Definition consistent (group : list Modification) : Prop :=
  (forall x y, x ∈ group -> y ∈ group -> same_operation x y) /\ Forall settled_status group /\
  (forall s s', s ∈ omap serial_id group -> s' ∈ omap serial_id group -> s = s').

Lemma bind_ensure {A} b msg (k : unit -> result A) y : (ensure b msg ≫= k) = Ok y <-> b = true /\ k tt = Ok y.
Proof. unfold ensure. destruct b; cbn; [tauto|]. split; [done|by intros [? _]]. Qed.

Lemma check_loop_spec first serial mods :
  check_consistency_loop first serial mods = Ok tt <->
  Forall (fun m => same_operation first m /\ settled_status m) mods /\
  (forall s s', s ∈ option_list serial ++ omap serial_id mods -> s' ∈ option_list serial ++ omap serial_id mods -> s = s').
Proof.
  revert serial. induction mods as [|m mods IH]; intros serial.
  { cbn. rewrite app_nil_r. split; [|done]. intros _. split; [constructor|]. intros s s'. destruct serial; set_solver. }
  cbn [check_consistency_loop]. rewrite !bind_ensure, !bool_decide_eq_true, orb_true_iff, !bool_decide_eq_true.
  rewrite Forall_cons. unfold same_operation at 1, settled_status at 1. cbn [omap list_omap].
  destruct (serial_id m) as [c|] eqn:Em; cbn [option_list].
  - rewrite bind_ensure, IH. cbn [option_list]. split.
    + intros (? & ? & ? & ? & Hc & Hf & Ha). split_and!; [done..|]. intros s s' Hs Hs'. apply Ha.
      * destruct serial as [p|]; [|set_solver]. apply Z.eqb_eq in Hc as ->. set_solver.
      * destruct serial as [p|]; [|set_solver]. apply Z.eqb_eq in Hc as ->. set_solver.
    + intros ((((? & ? & ?) & ?) & Hf) & Ha). split_and!; try done.
      * destruct serial as [p|]; [|done]. apply Z.eqb_eq. apply Ha; set_solver.
      * intros s s' Hs Hs'. apply Ha; set_solver.
  - rewrite IH. tauto.
Qed.

Lemma check_consistency_spec group :
  check_modifications_consistency group = Ok tt <-> group <> [] /\ consistent group.
Proof.
  unfold check_modifications_consistency. destruct group as [|first rest]; [split; [done|by intros [? _]]|].
  rewrite check_loop_spec. cbn [option_list app]. unfold consistent. split.
  - intros [Hf Ha]. split; [done|]. rewrite Forall_forall in Hf. split_and!; [|apply Forall_forall; intros x Hx; by apply Hf|done].
    intros x y Hx Hy. destruct (Hf x Hx) as [(? & ? & ?) _], (Hf y Hy) as [(? & ? & ?) _]. split_and!; congruence.
  - intros [_ (Ho & Hs & Ha)]. split; [|done]. rewrite Forall_forall in Hs |- *. intros x Hx. split; [|by apply Hs].
    apply Ho; [by left|done].
Qed.

Lemma consistent_perm g g' : g ≡ₚ g' -> consistent g -> consistent g'.
Proof.
  intros Hp (Ho & Hs & Ha). split_and!.
  - intros x y. rewrite <- Hp. apply Ho.
  - by rewrite <- Hp.
  - intros s s'. rewrite <- Hp. apply Ha.
Qed.

(** ** What becomes of an operation *)

Definition in_progress (m : Modification) : bool := bool_decide (status m = status_to_string InProgress).

(** Dropped while nobody has completed it; otherwise completed, with the serial
    id anyone knows, and persisted when anyone has persisted it. *)
Definition settled (group : list Modification) : option (option Z * bool) :=
  if forallb in_progress group then None else Some (head (omap serial_id group), existsb persisted group).

Lemma forallb_perm {A} (f : A -> bool) l k : l ≡ₚ k -> forallb f l = forallb f k.
Proof. induction 1; cbn; [done|by f_equal|btauto|congruence]. Qed.
Lemma existsb_perm {A} (f : A -> bool) l k : l ≡ₚ k -> existsb f l = existsb f k.
Proof. induction 1; cbn; [done|by f_equal|btauto|congruence]. Qed.

Lemma settled_perm g g' : g ≡ₚ g' -> consistent g -> settled g = settled g'.
Proof.
  intros Hp (_ & _ & Ha). unfold settled. rewrite (forallb_perm _ _ _ Hp), (existsb_perm _ _ _ Hp). destruct (forallb _ g'); [done|].
  do 2 f_equal. assert (omap serial_id g ≡ₚ omap serial_id g') as Ho by by rewrite Hp.
  destruct (omap serial_id g) as [|s l] eqn:E; [by apply Permutation_nil in Ho as ->|].
  destruct (omap serial_id g') as [|s' l'] eqn:E'; [symmetry in Ho; by apply Permutation_nil in Ho|].
  cbn. f_equal. apply Ha; [by left|]. rewrite Ho. by left.
Qed.

Definition in_sync (l : Modification) (s : option Z) (p : bool) : bool :=
  bool_decide (status l = status_to_string Completed) && Bool.eqb (persisted l) p && bool_decide (serial_id l = s).

Definition rolled (f : Modification) (s : option Z) (p : bool) : Modification :=
  mkMod (mod_id f) s (request_type f) (input f) (status_to_string Completed) p (result_message_body f).

Definition planned (local : option Modification) (group : list Modification) (a : action) : Prop :=
  match local, settled group with
  | None, _ => a = Keep
  | Some l, None => a = Delete l
  | Some l, Some (s, p) => if in_sync l s p then a = Keep else exists f, f ∈ group /\ a = Update (rolled f s p)
  end.

Definition find_id (k : Z) (l : list Modification) : option Modification := List.find (fun m => mod_id m =? k) l.

(** A consistent group that is not all in progress has a completed record. *)
Lemma some_completed group :
  Forall settled_status group -> forallb in_progress group = false ->
  exists f, f ∈ group /\ status f = MOD_STATUS_COMPLETED.
Proof.
  induction 1 as [|m group [Hm|Hm] Hg IH]; cbn; [done|..].
  - unfold in_progress at 1. rewrite Hm, bool_decide_eq_true_2 by done. cbn. intros H. destruct (IH H) as (f & Hf & Hc). exists f. split; [by right|done].
  - intros _. exists m. split; [by left|done].
Qed.

Lemma pick_completed_ok s group :
  (exists f, f ∈ group /\ status f = MOD_STATUS_COMPLETED) -> exists f, f ∈ group /\ pick_completed s group = Ok f.
Proof.
  intros (f & Hf & Hc). unfold pick_completed. set (c := filter _ group).
  destruct (List.find _ c) as [x|] eqn:E.
  - exists x. apply List.find_some in E as [Hx _]. apply list_elem_of_In, list_elem_of_filter in Hx as [_ Hx]. done.
  - assert (f ∈ c) as Hfc by (by apply list_elem_of_filter). destruct c as [|x c'] eqn:Ec; [set_solver|]. exists x. split; [|done].
    assert (x ∈ filter (fun m => status m = MOD_STATUS_COMPLETED) group) as Hx by (fold c; rewrite Ec; by left).
    by apply list_elem_of_filter in Hx as [_ Hx].
Qed.

Lemma analyze_group_ok my k group :
  group <> [] -> consistent group -> exists a, analyze_group my (k, group) = Ok a /\ planned (find_id k my) group a.
Proof.
  intros Hne Hc. pose proof Hc as (_ & Hs & _). unfold analyze_group.
  rewrite (proj2 (check_consistency_spec group)) by done. cbn [mbind result_bind].
  fold (find_id k my). unfold planned, settled. fold in_progress. change (fun m => bool_decide (status m = status_to_string InProgress)) with in_progress.
  destruct (forallb in_progress group) eqn:Hip.
  { destruct (find_id k my); eauto. }
  destruct (some_completed group Hs Hip) as (f & Hf & Hst).
  assert (existsb (fun m => bool_decide (status m = status_to_string Completed)) group = true) as ->.
  { apply existsb_exists. exists f. split; [by apply list_elem_of_In|]. by apply bool_decide_eq_true. }
  set (s := head (omap serial_id group)). destruct (pick_completed_ok s group) as (c & Hc' & ->); [by exists f|]. cbn [mbind result_bind].
  destruct (find_id k my) as [l|]; [|eauto]. unfold in_sync.
  assert (negb (bool_decide (status l = status_to_string Completed)) || negb (Bool.eqb (persisted l) (existsb persisted group))
    || negb (bool_decide (serial_id l = s)) = negb (bool_decide (status l = status_to_string Completed) &&
      Bool.eqb (persisted l) (existsb persisted group) && bool_decide (serial_id l = s))) as -> by btauto.
  destruct (_ && _ && _); cbn; eauto.
Qed.

Lemma analyze_group_spec my k group a :
  analyze_group my (k, group) = Ok a -> group <> [] /\ consistent group /\ planned (find_id k my) group a.
Proof.
  intros H. assert (group <> [] /\ consistent group) as [Hne Hc].
  { apply check_consistency_spec. unfold analyze_group in H. destruct (check_modifications_consistency group) as [[]|]; done. }
  split_and!; [done..|]. destruct (analyze_group_ok my k group Hne Hc) as (a' & Ha' & Hp). congruence.
Qed.

(** ** The plan *)

Definition updates_of (acts : list action) : list Modification := omap (fun a => match a with Update m => Some m | _ => None end) acts.
Definition deletes_of (acts : list action) : list Modification := omap (fun a => match a with Delete m => Some m | _ => None end) acts.

Lemma analyze_groups_spec my groups u d plan :
  analyze_groups my groups u d = Ok plan <->
  exists acts, Forall2 (fun g a => analyze_group my g = Ok a) groups acts /\ plan = (u ++ updates_of acts, d ++ deletes_of acts).
Proof.
  revert u d. induction groups as [|g groups IH]; intros u d; cbn [analyze_groups].
  { split.
    - intros [= <-]. exists []. split; [constructor|]. cbn. by rewrite !app_nil_r.
    - intros (acts & H & ->). inversion H. cbn. by rewrite !app_nil_r. }
  destruct (analyze_group my g) as [a|e] eqn:E; cbn [mbind result_bind].
  - transitivity (exists acts, Forall2 (fun g a => analyze_group my g = Ok a) groups acts /\ plan = (u ++ updates_of (a :: acts), d ++ deletes_of (a :: acts))).
    + destruct a as [m|m|]; rewrite IH; cbn [updates_of deletes_of omap list_omap];
        (split; intros (acts & Ha & ->); exists acts; split; [done| |done|]); unfold updates_of, deletes_of; by rewrite <- ?app_assoc.
    + split.
      * intros (acts & Ha & ->). exists (a :: acts). split; [by constructor|done].
      * intros (acts' & Ha & ->). inversion Ha as [|? a' ? acts Ea Hg]; subst. rewrite E in Ea. injection Ea as <-. eauto.
  - split; [done|]. intros (acts & Ha & _). inversion Ha as [|? a ? ? Ea Hg]; subst. congruence.
Qed.

(** A plan is made exactly when every group is consistent, and holds for every
    id what the group asks for. *)
Lemma compare_spec my all plan :
  compare_modifications my all = Ok plan <->
  exists acts, Forall2 (fun k a => analyze_group my (k, group_of k (concat all)) = Ok a) (keys (concat all)) acts /\
    plan = (updates_of acts, deletes_of acts).
Proof.
  unfold compare_modifications. rewrite grouped_keys, analyze_groups_spec. cbn [app].
  split; intros (acts & H & ->); exists acts; (split; [|done]); by apply Forall2_fmap_l in H || by apply Forall2_fmap_l.
Qed.

Lemma elem_of_group k l m : m ∈ group_of k l <-> m ∈ l /\ mod_id m = k.
Proof. unfold group_of. rewrite list_elem_of_filter. tauto. Qed.

Lemma find_id_Some k l m : find_id k l = Some m -> m ∈ l /\ mod_id m = k.
Proof. intros [H1 H2%Z.eqb_eq]%List.find_some. split; [by apply list_elem_of_In|done]. Qed.

Lemma find_id_None k l : find_id k l = None <-> k ∉ mod_id <$> l.
Proof.
  induction l as [|m l IH]; [cbn; set_solver|]. unfold find_id in *. cbn [List.find]. rewrite fmap_cons, not_elem_of_cons.
  destruct (Z.eqb_spec (mod_id m) k); [split; [done|intros [? _]; congruence]|]. rewrite IH. split; [split; [congruence|done]|tauto].
Qed.

Definition action_id (a : action) : option Z :=
  match a with Update m | Delete m => Some (mod_id m) | Keep => None end.

Lemma analyze_id my k l a : analyze_group my (k, group_of k l) = Ok a -> action_id a = Some k \/ a = Keep.
Proof.
  intros (_ & _ & Hp)%analyze_group_spec. unfold planned in Hp. destruct (find_id k my) as [r|] eqn:E; [|by right].
  destruct (settled _) as [[s p]|].
  - destruct (in_sync r s p); [by right|]. destruct Hp as (f & [_ Hf]%elem_of_group & ->). left. cbn. by rewrite Hf.
  - subst a. apply find_id_Some in E as [_ E]. left. cbn. by rewrite E.
Qed.

(** The entry of the plan for an id. *)
Lemma plan_entry my l ks acts k :
  NoDup ks -> Forall2 (fun k a => analyze_group my (k, group_of k l) = Ok a) ks acts -> k ∈ ks ->
  exists a, analyze_group my (k, group_of k l) = Ok a /\
    find_id k (updates_of acts) = match a with Update m => Some m | _ => None end /\
    (k ∈ mod_id <$> deletes_of acts <-> exists m, a = Delete m).
Proof.
  intros Hnd H. induction H as [|k' a ks acts Ha H IH]; [set_solver|]. inversion Hnd as [|? ? Hk' Hnd']; subst.
  assert (k' ∉ ks -> find_id k' (updates_of acts) = None /\ k' ∉ mod_id <$> deletes_of acts) as Hout.
  { clear - H. intros Hk. induction H as [|x b ks acts Hb H IH]; [cbn; set_solver|].
    apply not_elem_of_cons in Hk as [Hne Hk]. destruct (IH Hk) as [I1 I2]. destruct (analyze_id _ _ _ _ Hb) as [Hid | ->]; [|done].
    destruct b as [m|m|]; cbn in Hid; [| |done]; injection Hid as Hid.
    - split; [|exact I2]. change (updates_of (Update m :: acts)) with (m :: updates_of acts). unfold find_id in *. cbn [List.find].
      destruct (Z.eqb_spec (mod_id m) k'); [congruence|done].
    - split; [exact I1|]. change (deletes_of (Delete m :: acts)) with (m :: deletes_of acts). rewrite fmap_cons, not_elem_of_cons. split; [congruence|done]. }
  intros [->|Hin]%elem_of_cons.
  - exists a. destruct (Hout Hk') as [O1 O2]. split; [done|]. destruct (analyze_id _ _ _ _ Ha) as [Hid | ->].
    + destruct a as [m|m|]; cbn in Hid; [| |done]; injection Hid as Hid.
      * change (updates_of (Update m :: acts)) with (m :: updates_of acts). unfold find_id. cbn [List.find]. rewrite Hid, Z.eqb_refl. split; [done|].
        split; [done|by intros []].
      * change (deletes_of (Delete m :: acts)) with (m :: deletes_of acts). split; [exact O1|]. split; [by eauto|]. intros _. rewrite fmap_cons, Hid. by left.
    + split; [exact O1|]. split; [done|by intros []].
  - destruct (IH Hnd' Hin) as (b & Hb & H1 & H2). exists b. split; [done|].
    assert (k <> k') as Hne by (intros ->; done). destruct (analyze_id _ _ _ _ Ha) as [Hid | ->]; [|done].
    destruct a as [m|m|]; cbn in Hid; [| |done]; injection Hid as Hid.
    + split; [|exact H2]. change (updates_of (Update m :: acts)) with (m :: updates_of acts). unfold find_id in *. cbn [List.find].
      destruct (Z.eqb_spec (mod_id m) k); [congruence|done].
    + split; [exact H1|]. change (deletes_of (Delete m :: acts)) with (m :: deletes_of acts). rewrite fmap_cons, elem_of_cons, <- H2. split; [|by right].
      intros [?|?]; [congruence|done].
Qed.

(** ** Applying a plan *)

Definition apply_plan (rows : list Modification) (plan : list Modification * list Modification) : list Modification :=
  delete_modifications (update_modifications rows plan.1) plan.2.

Lemma find_update k rows u :
  find_id k (update_modifications rows u)
  = (fun row => match find_id k u with
                | Some data => mkMod (mod_id row) (serial_id data) (request_type row) (input row) (status data) (persisted data) (result_message_body data)
                | None => row end) <$> find_id k rows.
Proof.
  induction rows as [|r rows IH]; [done|]. unfold update_modifications in *. rewrite fmap_cons. unfold find_id at 1 3. cbn [List.find].
  fold (find_id (mod_id r) u).
  assert (mod_id (match find_id (mod_id r) u with
    | Some data => mkMod (mod_id r) (serial_id data) (request_type r) (input r) (status data) (persisted data) (result_message_body data)
    | None => r end) = mod_id r) as -> by by destruct (find_id (mod_id r) u).
  destruct (Z.eqb_spec (mod_id r) k) as [<-|]; [done|]. exact IH.
Qed.

Lemma find_delete k rows d :
  find_id k (delete_modifications rows d) = if decide (k ∈ mod_id <$> d) then None else find_id k rows.
Proof.
  unfold delete_modifications. induction rows as [|r rows IH]; [by case_decide|]. rewrite filter_cons. unfold find_id at 2. cbn [List.find].
  destruct (decide (mod_id r ∉ mod_id <$> d)) as [Hr|Hr].
  - unfold find_id at 1. cbn [List.find]. destruct (Z.eqb_spec (mod_id r) k) as [<-|]; [by rewrite decide_False|]. exact IH.
  - destruct (Z.eqb_spec (mod_id r) k) as [<-|]; [|exact IH]. rewrite IH. by destruct (decide (mod_id r ∈ mod_id <$> d)).
Qed.

(** After the plan a logged operation is what its group settles to. *)
Definition recovered (r : Modification) (group : list Modification) (r' : option Modification) : Prop :=
  match settled group with
  | None => r' = None
  | Some (s, p) => exists body, r' = Some (mkMod (mod_id r) s (request_type r) (input r) MOD_STATUS_COMPLETED p body)
  end.

Lemma recovered_row my all plan r :
  my ∈ all -> compare_modifications my all = Ok plan -> find_id (mod_id r) my = Some r ->
  consistent (group_of (mod_id r) (concat all)) /\ recovered r (group_of (mod_id r) (concat all)) (find_id (mod_id r) (apply_plan my plan)).
Proof.
  intros Hmy (acts & Ha & ->)%compare_spec Hr. set (k := mod_id r).
  assert (r ∈ concat all) as Hra.
  { apply list_elem_of_In, in_concat. exists my. split; apply list_elem_of_In; [done|]. by apply find_id_Some in Hr as [? _]. }
  destruct (plan_entry my (concat all) (keys (concat all)) acts k (keys_NoDup _) Ha) as (a & E & Hu & Hd).
  { apply elem_of_keys. by exists r. }
  apply analyze_group_spec in E as (_ & Hc & Hp). split; [done|]. unfold recovered, apply_plan, planned in *. cbn [fst snd].
  rewrite find_delete, find_update, Hu. fold k in Hr. rewrite Hr in Hp |- *.
  destruct (settled (group_of k (concat all))) as [[s p]|].
  - destruct (in_sync r s p) eqn:Hin.
    + subst a. rewrite decide_False by (rewrite Hd; by intros []). cbn. unfold in_sync in Hin.
      apply andb_true_iff in Hin as [[H1 H2]%andb_true_iff H3]. apply bool_decide_eq_true in H1, H3. apply Bool.eqb_prop in H2.
      exists (result_message_body r). f_equal. destruct r. cbn in *. by subst.
    + destruct Hp as (f & Hf & ->). rewrite decide_False by (rewrite Hd; by intros []). cbn. eauto.
  - subst a. rewrite decide_True; [done|]. apply Hd. eauto.
Qed.

Lemma compare_ok my all :
  (exists plan, compare_modifications my all = Ok plan) <-> forall k, k ∈ keys (concat all) -> consistent (group_of k (concat all)).
Proof.
  split.
  - intros (plan & (acts & Ha & _)%compare_spec) k Hk. apply list_elem_of_lookup in Hk as [j Hj].
    destruct (Forall2_lookup_l _ _ _ _ _ Ha Hj) as (a & _ & E). by apply analyze_group_spec in E as (_ & ? & _).
  - intros H. assert (exists acts, Forall2 (fun k a => analyze_group my (k, group_of k (concat all)) = Ok a) (keys (concat all)) acts) as (acts & Ha).
    { assert (forall ks, (forall k, k ∈ ks -> k ∈ keys (concat all)) ->
        exists acts, Forall2 (fun k a => analyze_group my (k, group_of k (concat all)) = Ok a) ks acts) as Hks; [|by apply Hks].
      induction ks as [|k ks IH]; intros Hin; [by exists []|]. destruct IH as (acts & Ha); [set_solver|].
      destruct (analyze_group_ok my k (group_of k (concat all))) as (a & Ea & _); [|apply H; set_solver|by exists (a :: acts); constructor].
      assert (k ∈ keys (concat all)) as (m & Hm & <-)%elem_of_keys by set_solver. intros E.
      assert (m ∈ group_of (mod_id m) (concat all)) as Hg by (by apply elem_of_group). rewrite E in Hg. set_solver. }
    eexists. apply compare_spec. eauto.
Qed.

Lemma group_perm k l l' : l ≡ₚ l' -> group_of k l ≡ₚ group_of k l'.
Proof. intros H. unfold group_of. by rewrite H. Qed.

Lemma mod_eqb_same x y :
  mod_eqb x y = true <-> mod_id x = mod_id y /\ serial_id x = serial_id y /\ request_type x = request_type y /\ input x = input y /\
    status x = status y /\ persisted x = persisted y.
Proof. unfold mod_eqb. rewrite !andb_true_iff, !bool_decide_eq_true. tauto. Qed.

Lemma elem_of_concat_snapshot {A} (x : A) l ls : x ∈ l -> l ∈ ls -> x ∈ concat ls.
Proof. intros Hx Hl. apply list_elem_of_In, in_concat. exists l. split; by apply list_elem_of_In. Qed.

(** Two parties that see the same snapshots recover an operation alike. *)
Lemma recovered_agree all all' r r' x y :
  concat all ≡ₚ concat all' -> mod_id r = mod_id r' -> r ∈ concat all -> r' ∈ concat all' ->
  consistent (group_of (mod_id r) (concat all)) ->
  recovered r (group_of (mod_id r) (concat all)) x -> recovered r' (group_of (mod_id r') (concat all')) y ->
  option_Forall2 (fun x y => mod_eqb x y = true) x y.
Proof.
  intros Hp Hid Hr Hr' Hc Hx Hy. unfold recovered in *. rewrite <- Hid in Hy.
  rewrite <- (settled_perm _ _ (group_perm (mod_id r) _ _ Hp) Hc) in Hy.
  destruct (settled _) as [[s p]|]; [|subst; constructor]. destruct Hx as (b & ->), Hy as (b' & ->). constructor.
  destruct Hc as (Ho & _). destruct (Ho r r') as (? & ? & ?); [by apply elem_of_group|apply elem_of_group; by rewrite Hp|].
  apply mod_eqb_same. cbn. done.
Qed.

(** ** A recovered log *)

Lemma find_id_unique l r : NoDup (mod_id <$> l) -> r ∈ l -> find_id (mod_id r) l = Some r.
Proof.
  induction l as [|m l IH]; [set_solver|]. rewrite fmap_cons. intros [Hm Hnd]%NoDup_cons [->|Hr]%elem_of_cons; unfold find_id in *; cbn [List.find].
  - by rewrite Z.eqb_refl.
  - destruct (Z.eqb_spec (mod_id m) (mod_id r)) as [E|]; [|by apply IH]. exfalso. apply Hm. rewrite E. by apply list_elem_of_fmap_2.
Qed.

Lemma update_ids rows u : mod_id <$> update_modifications rows u = mod_id <$> rows.
Proof.
  unfold update_modifications. rewrite <- list_fmap_compose. apply list_fmap_ext. intros j r _. cbn. by destruct (List.find _ u).
Qed.

Lemma apply_plan_ids rows plan : NoDup (mod_id <$> rows) -> NoDup (mod_id <$> apply_plan rows plan).
Proof.
  intros H. unfold apply_plan, delete_modifications. rewrite <- (update_ids rows plan.1) in H.
  eapply sublist_NoDup; [exact H|]. apply fmap_sublist, sublist_filter.
Qed.

Lemma apply_plan_row rows plan r : r ∈ apply_plan rows plan -> exists r0, r0 ∈ rows /\ mod_id r0 = mod_id r.
Proof.
  unfold apply_plan, delete_modifications. intros [_ Hr]%list_elem_of_filter.
  apply (list_elem_of_fmap_2 mod_id) in Hr. rewrite update_ids in Hr. apply list_elem_of_fmap in Hr as (r0 & -> & Hr0). eauto.
Qed.

(** A row of a recovered log, and the row it comes from. *)
Lemma recovered_log_row all plans r :
  Forall (fun my => NoDup (mod_id <$> my)) all ->
  Forall2 (fun my plan => compare_modifications my all = Ok plan) all plans ->
  r ∈ concat (zip_with apply_plan all plans) ->
  exists r0 s p, r0 ∈ concat all /\ mod_id r0 = mod_id r /\ consistent (group_of (mod_id r) (concat all)) /\
    settled (group_of (mod_id r) (concat all)) = Some (s, p) /\
    exists body, r = mkMod (mod_id r) s (request_type r0) (input r0) MOD_STATUS_COMPLETED p body.
Proof.
  intros Hnd Hp Hr. apply list_elem_of_In, in_concat in Hr as (rows & Hrows & Hr).
  apply list_elem_of_In in Hrows, Hr. apply elem_of_lookup_zip_with in Hrows as (j & my & plan & -> & Hmy & Hplan).
  pose proof (Forall2_lookup_lr _ _ _ _ _ _ Hp Hmy Hplan) as Hc. cbn in Hc. pose proof (Forall_lookup_1 _ _ _ _ Hnd Hmy) as Hn. cbn in Hn.
  apply list_elem_of_lookup_2 in Hmy. destruct (apply_plan_row _ _ _ Hr) as (r0 & Hr0 & Hid).
  destruct (recovered_row my all plan r0 Hmy Hc (find_id_unique _ _ Hn Hr0)) as [Hcons Hrec].
  rewrite Hid in *. rewrite (find_id_unique _ _ (apply_plan_ids _ plan Hn) Hr) in Hrec. unfold recovered in Hrec.
  destruct (settled _) as [[s p]|]; [|done]. destruct Hrec as (body & [= Hrec]). exists r0, s, p. split_and!; try done.
  - by eapply elem_of_concat_snapshot.
  - exists body. rewrite Hid in Hrec. exact Hrec.
Qed.

(** A group of rows that agree settles to what they agree on. *)
Lemma settled_uniform group s p :
  group <> [] -> Forall (fun m => status m = MOD_STATUS_COMPLETED /\ serial_id m = s /\ persisted m = p) group ->
  settled group = Some (s, p).
Proof.
  intros Hne H. destruct group as [|m group]; [done|]. inversion H as [|? ? (Hm & Hs & Hp) H']; subst. unfold settled. cbn [forallb].
  unfold in_progress at 1. rewrite Hm, bool_decide_eq_false_2 by done. cbn [andb existsb omap list_omap].
  do 2 f_equal.
  - destruct (serial_id m) eqn:E; [done|]. clear - H'. induction H' as [|x l (_ & Hx & _) H IH]; [done|]. cbn. by rewrite Hx.
  - destruct (persisted m) eqn:E; [done|]. clear - H'. induction H' as [|x l (_ & _ & Hx) H IH]; [done|]. cbn. by rewrite Hx.
Qed.

Lemma recovered_group all plans k :
  Forall (fun my => NoDup (mod_id <$> my)) all ->
  Forall2 (fun my plan => compare_modifications my all = Ok plan) all plans ->
  let group := group_of k (concat (zip_with apply_plan all plans)) in
  group <> [] -> consistent group /\ exists s p, settled group = Some (s, p) /\ forall r, r ∈ group -> in_sync r s p = true.
Proof.
  intros Hnd Hp group Hne. assert (exists s p, consistent (group_of k (concat all)) /\ forall r, r ∈ group -> exists r0 body,
    r0 ∈ group_of k (concat all) /\ r = mkMod k s (request_type r0) (input r0) MOD_STATUS_COMPLETED p body) as (s & p & (Ho & _) & Hrows).
  { assert (exists r, r ∈ group) as (r & Hr) by (destruct group as [|r ?]; [done|exists r; by left]).
    apply elem_of_group in Hr as [Hr <-]. destruct (recovered_log_row _ _ _ Hnd Hp Hr) as (_ & s & p & _ & _ & Hc & Hs & _).
    exists s, p. split; [done|]. intros r' [Hr' Hid]%elem_of_group. destruct (recovered_log_row _ _ _ Hnd Hp Hr') as (r0 & s' & p' & H0 & Hid0 & _ & Hs' & body & E).
    rewrite Hid in *. rewrite Hs in Hs'. injection Hs' as <- <-. exists r0, body. split; [by apply elem_of_group|done]. }
  assert (Forall (fun m => status m = MOD_STATUS_COMPLETED /\ serial_id m = s /\ persisted m = p) group) as Hall.
  { apply Forall_forall. intros r Hr. destruct (Hrows r Hr) as (r0 & body & _ & ->). done. }
  split.
  - split_and!.
    + intros x y Hx Hy. destruct (Hrows x Hx) as (x0 & bx & Hx0 & ->), (Hrows y Hy) as (y0 & by_ & Hy0 & ->).
      destruct (Ho x0 y0 Hx0 Hy0) as (? & ? & ?). cbn. done.
    + eapply Forall_impl; [exact Hall|]. intros m (Hm & _). by right.
    + intros a b Ha Hb. apply list_elem_of_omap in Ha as (x & Hx & Hxa), Hb as (y & Hy & Hyb).
      pose proof (proj1 (Forall_forall _ _) Hall x Hx) as (_ & E1 & _). pose proof (proj1 (Forall_forall _ _) Hall y Hy) as (_ & E2 & _). congruence.
  - exists s, p. split; [by apply settled_uniform|]. intros r Hr. pose proof (proj1 (Forall_forall _ _) Hall r Hr) as (E1 & E2 & E3).
    unfold in_sync. rewrite E1, E2, E3, !bool_decide_eq_true_2 by done. by rewrite Bool.eqb_reflx.
Qed.

Lemma keep_nothing acts : Forall (eq Keep) acts -> updates_of acts = [] /\ deletes_of acts = [].
Proof. induction 1 as [|? acts <- _ [IHu IHd]]; [done|]. by split. Qed.

Lemma elem_of_updates my l ks acts u :
  Forall2 (fun k a => analyze_group my (k, group_of k l) = Ok a) ks acts -> u ∈ updates_of acts ->
  analyze_group my (mod_id u, group_of (mod_id u) l) = Ok (Update u).
Proof.
  intros Ha (a & Hin & E)%list_elem_of_omap. apply list_elem_of_lookup in Hin as [j Hj].
  destruct (Forall2_lookup_r _ _ _ _ _ Ha Hj) as (k & _ & Hk). destruct a as [m|m|]; simplify_eq.
  destruct (analyze_id _ _ _ _ Hk) as [[= ->]|?]; done.
Qed.

Lemma settled_persisted l k :
  consistent (group_of k l) ->
  (exists s, settled (group_of k l) = Some (s, true)) <->
  (exists m, m ∈ l /\ mod_id m = k /\ status m = MOD_STATUS_COMPLETED) /\ (exists m, m ∈ l /\ mod_id m = k /\ persisted m = true).
Proof.
  intros (_ & Hs & _). unfold settled.
  assert (forall Q : Modification -> Prop, (exists m, m ∈ l /\ mod_id m = k /\ Q m) <-> exists m, m ∈ group_of k l /\ Q m) as Hg.
  { intros Q. setoid_rewrite elem_of_group. split; intros (m & ?); exists m; tauto. }
  rewrite (Hg (fun m => status m = _)), (Hg (fun m => persisted m = _)). clear Hg.
  destruct (forallb in_progress _) eqn:Hip.
  - split; [by intros []|]. intros [(m & Hm & Hc) _]. rewrite forallb_forall in Hip. specialize (Hip m).
    apply list_elem_of_In in Hm. apply Hip, bool_decide_eq_true in Hm. by rewrite Hc in Hm.
  - split.
    + intros (s & [= _ He]). split; [by apply some_completed|]. apply existsb_exists in He as (m & Hm & Hpm). apply list_elem_of_In in Hm. eauto.
    + intros (_ & m & Hm & Hpm). assert (existsb persisted (group_of k l) = true) as ->; [|eauto].
      apply existsb_exists. exists m. split; [by apply list_elem_of_In|done].
Qed.

(** What a plan asks to be applied to the gallery. *)
Lemma plan_applies my all lookback P k r :
  my ∈ all -> recovery_plan my all lookback = Ok P -> find_id k my = Some r ->
  consistent (group_of k (concat all)) /\
  ((exists u, u ∈ updates P /\ mod_id (modification u) = k /\ apply_mutation u = true)
   <-> (exists s, settled (group_of k (concat all)) = Some (s, true)) /\ ~ (status r = MOD_STATUS_COMPLETED /\ persisted r = true)).
Proof.
  intros Hmy HP Hr. unfold recovery_plan in HP. destruct (ensure_modification_lookback all lookback); [|done]. cbn [mbind result_bind] in HP.
  destruct (compare_modifications my all) as [[u d]|] eqn:Hc; [|done]. injection HP as <-. cbn [updates].
  apply compare_spec in Hc as (acts & Ha & [= -> ->]). pose proof (find_id_Some _ _ _ Hr) as [Hrm Hrk].
  destruct (plan_entry my (concat all) (keys (concat all)) acts k (keys_NoDup _) Ha) as (a & E & Hu & _).
  { apply elem_of_keys. exists r. split; [by eapply elem_of_concat_snapshot|done]. }
  pose proof (analyze_group_spec _ _ _ _ E) as (_ & Hcons & Hp). split; [done|]. unfold planned in Hp. rewrite Hr in Hp.
  transitivity (exists m, a = Update m /\ requires_modification_apply m (Some r) = true).
  - setoid_rewrite list_elem_of_fmap. split.
    + intros (x0 & (m & -> & Hm) & Hid & Happ). cbn in Hid, Happ. exists m. pose proof (elem_of_updates _ _ _ _ _ Ha Hm) as Em.
      rewrite Hid, E in Em. injection Em as ->. split; [done|]. fold (find_id (mod_id m) my) in Happ. by rewrite Hid, Hr in Happ.
    + intros (m & -> & Happ). apply find_id_Some in Hu as [Hm Hid]. eexists. split; [exists m; by split|]. cbn.
      split; [done|]. fold (find_id (mod_id m) my). by rewrite Hid, Hr.
  - unfold requires_modification_apply. destruct (settled _) as [[s p]|].
    + unfold in_sync in Hp. destruct (bool_decide (status r = status_to_string Completed) && _ && _) eqn:Es.
      * apply andb_true_iff in Es as [[E1 E2]%andb_true_iff _]. apply bool_decide_eq_true in E1. apply Bool.eqb_prop in E2. subst a.
        split; [by intros (m & ? & _)|]. intros ((s' & [= _ ->]) & Hn). exfalso. apply Hn. done.
      * destruct Hp as (f & _ & ->). split.
        -- intros (m & [= <-] & [Hpm Hn]%andb_true_iff). cbn in Hpm. subst p. split; [eauto|]. intros [H1 H2].
           by rewrite H1, H2, bool_decide_eq_true_2 in Hn.
        -- intros ((s' & [= _ ->]) & Hn). exists (rolled f s true). split; [done|]. cbn. apply negb_true_iff, andb_false_iff.
           destruct (persisted r); [left|by right]. apply bool_decide_eq_false. intros ?. by apply Hn.
    + subst a. split; [by intros (m & ? & _)|]. by intros ((s & ?) & _).
Qed.

(** ** Replay *)

Definition bodies_of (t : string) (modifications : list Modification) : list string :=
  omap result_message_body (filter (fun m => request_type m = t) modifications).

Definition nonempty_group (t : string) (bodies : list string) : option (string * list string) :=
  match bodies with [] => None | _ => Some (t, bodies) end.

Lemma group_bodies_lookup order t mods g :
  t ∈ order ->
  group_bodies mods order g !! t = match bodies_of t mods with [] => g !! t | bodies => Some (default [] (g !! t) ++ bodies) end.
Proof.
  intros Ht. revert g. induction mods as [|m mods IH]; intros g; [done|]. cbn [group_bodies]. unfold bodies_of in *. rewrite filter_cons.
  destruct (decide (request_type m = t)) as [Hm|Hm].
  - cbn [omap list_omap]. destruct (result_message_body m) as [b|]; [|apply IH]. rewrite bool_decide_eq_true_2 by (by rewrite Hm).
    rewrite IH, Hm, lookup_insert_eq. destruct (omap _ _) as [|b' l]; [done|]. cbn. by rewrite <- app_assoc.
  - destruct (result_message_body m); [|apply IH]. case_bool_decide; [|apply IH]. rewrite IH. by rewrite lookup_insert_ne by done.
Qed.

Lemma publish_groups_all publish order g calls :
  NoDup order -> (forall t b, publish t b = Ok tt) ->
  publish_groups publish order g calls = (calls ++ omap (fun t => pair t <$> g !! t) order, Ok tt).
Proof.
  intros Hnd Hok. revert g calls. induction Hnd as [|t order Ht Hnd IH]; intros g calls; cbn [publish_groups]; [by rewrite app_nil_r|].
  cbn [omap list_omap]. destruct (g !! t) as [b|]; cbn [fmap option_fmap option_map]; [|apply IH]. rewrite Hok, IH, <- app_assoc. cbn [app].
  do 3 f_equal. apply list_omap_ext. apply Forall_Forall2_diag, Forall_forall. intros x Hx. rewrite lookup_delete_ne; [done|]. by intros ->.
Qed.

(** The bodies of the operations that have one go out grouped by request type,
    the groups in the given order and each group in the order of the log. *)
Lemma replay_publishes publish mods order :
  NoDup order -> (forall t b, publish t b = Ok tt) ->
  replay_modification_results publish mods order = (omap (fun t => nonempty_group t (bodies_of t mods)) order, Ok tt).
Proof.
  intros Hnd Hok. unfold replay_modification_results. rewrite publish_groups_all by done. cbn [app]. f_equal. apply list_omap_ext.
  apply Forall_Forall2_diag, Forall_forall. intros t Ht. rewrite group_bodies_lookup by done. unfold nonempty_group.
  destruct (bodies_of t mods); [by rewrite lookup_empty|done].
Qed.

(** ** Claims *)

Definition same_rows (x y : option Modification) : Prop := option_Forall2 (fun x y => mod_eqb x y = true) x y.

(** C16: The parties recover alike.  When two parties compare their own logs with
    the same snapshots, received in any order, the second makes a plan whenever
    the first does; and after each has applied its own plan to its own table, an
    operation that both had logged is dropped by both, or stands in both logs
    with the same serial id, request, input, status and persisted flag. *)
Theorem recovery_agrees (my my' : list Modification) (all all' : list (list Modification)) (plan : list Modification * list Modification)
  (Hall : all ≡ₚ all') (Hmy : my ∈ all) (Hmy' : my' ∈ all') (Hplan : compare_modifications my all = Ok plan) :
  exists plan', compare_modifications my' all' = Ok plan' /\
    forall k r r', find_id k my = Some r -> find_id k my' = Some r' ->
      same_rows (find_id k (apply_plan my plan)) (find_id k (apply_plan my' plan')).
Proof.
  assert (concat all ≡ₚ concat all') as Hc by by rewrite Hall.
  assert (exists plan', compare_modifications my' all' = Ok plan') as (plan' & Hplan').
  { apply compare_ok. intros k (m & Hm & Hid)%elem_of_keys. eapply consistent_perm; [apply group_perm, Hc|].
    apply (proj1 (compare_ok my all)); [eauto|]. apply elem_of_keys. exists m. by rewrite Hc. }
  exists plan'. split; [done|]. intros k r r' Hr Hr'. pose proof (find_id_Some _ _ _ Hr) as [Hin <-]. pose proof (find_id_Some _ _ _ Hr') as [Hin' Hid].
  destruct (recovered_row my all plan r Hmy Hplan Hr) as [Hcons Hrec]. rewrite <- Hid in Hr'.
  destruct (recovered_row my' all' plan' r' Hmy' Hplan' Hr') as [_ Hrec']. rewrite <- Hid at 2.
  apply (recovered_agree all all' r r'); try done; by eapply elem_of_concat_snapshot.
Qed.

Definition demo_mod (id : Z) (serial : option Z) (st : string) (p : bool) : Modification :=
  mkMod id serial "uniqueness" (Some (RefS3 "s3://shares")) st p None.

(** Three parties: operation 1 is done everywhere, operation 2 finished at one
    party only, operation 3 was started by two of them. *)
Definition demo_log0 : list Modification :=
  [demo_mod 1 (Some 7) MOD_STATUS_COMPLETED true; demo_mod 2 None MOD_STATUS_IN_PROGRESS false; demo_mod 3 None MOD_STATUS_IN_PROGRESS false].
Definition demo_log1 : list Modification :=
  [demo_mod 1 (Some 7) MOD_STATUS_COMPLETED true; demo_mod 2 (Some 8) MOD_STATUS_COMPLETED true; demo_mod 3 None MOD_STATUS_IN_PROGRESS false].
Definition demo_log2 : list Modification :=
  [demo_mod 1 (Some 7) MOD_STATUS_COMPLETED true; demo_mod 2 (Some 8) MOD_STATUS_COMPLETED false].

Lemma recovery_agrees_witness :
  exists plan plan', compare_modifications demo_log0 [demo_log0; demo_log1; demo_log2] = Ok plan /\
    compare_modifications demo_log2 [demo_log2; demo_log0; demo_log1] = Ok plan' /\
    same_rows (find_id 2 (apply_plan demo_log0 plan)) (find_id 2 (apply_plan demo_log2 plan')).
Proof.
  destruct (recovery_agrees demo_log0 demo_log2 [demo_log0; demo_log1; demo_log2] [demo_log2; demo_log0; demo_log1]
    ([demo_mod 2 (Some 8) MOD_STATUS_COMPLETED true], [demo_mod 3 None MOD_STATUS_IN_PROGRESS false])) as (plan' & Hp & H).
  - apply (Permutation_app_comm [demo_log0; demo_log1] [demo_log2]).
  - by left.
  - by left.
  - vm_compute. reflexivity.
  - eexists. exists plan'. split; [vm_compute; reflexivity|]. split; [exact Hp|].
    exact (H 2 (demo_mod 2 None MOD_STATUS_IN_PROGRESS false) (demo_mod 2 (Some 8) MOD_STATUS_COMPLETED false) eq_refl eq_refl).
Defined.

(** C17: Recovery settles.  When every party applies the plan it made from the
    same snapshots, comparing the recovered logs again succeeds for every party
    and asks for nothing: no update and no deletion. *)
Theorem recovery_settles (all : list (list Modification)) (plans : list (list Modification * list Modification))
  (Hids : Forall (fun my => NoDup (mod_id <$> my)) all)
  (Hplans : Forall2 (fun my plan => compare_modifications my all = Ok plan) all plans) :
  let all' := zip_with apply_plan all plans in
  Forall (fun my => compare_modifications my all' = Ok ([], [])) all'.
Proof.
  intros all'. apply Forall_forall. intros my Hmy.
  assert (forall k, k ∈ keys (concat all') -> group_of k (concat all') <> []) as Hne.
  { intros k (m & Hm & Hid)%elem_of_keys E. assert (m ∈ group_of k (concat all')) as Hg by (by apply elem_of_group). rewrite E in Hg. set_solver. }
  destruct (proj2 (compare_ok my all')) as (plan & Hplan).
  { intros k Hk. by apply (recovered_group all plans k Hids Hplans), Hne. }
  rewrite Hplan. apply compare_spec in Hplan as (acts & Ha & ->).
  destruct (keep_nothing acts) as [-> ->]; [|done]. apply Forall_forall. intros a (j & Hj)%list_elem_of_lookup.
  destruct (Forall2_lookup_r _ _ _ _ _ Ha Hj) as (k & Hk & E). apply analyze_group_spec in E as (Hg & _ & Hp). unfold planned in Hp.
  destruct (find_id k my) as [r|] eqn:Hr; [|done]. destruct (recovered_group all plans k Hids Hplans Hg) as (_ & s & p & Hs & Hsync).
  fold all' in Hs, Hsync. rewrite Hs, Hsync in Hp; [done|]. apply find_id_Some in Hr as [Hr Hid]. apply elem_of_group. split; [|done].
  by eapply elem_of_concat_snapshot.
Qed.

Definition demo_plans : list (list Modification * list Modification) :=
  [([demo_mod 2 (Some 8) MOD_STATUS_COMPLETED true], [demo_mod 3 None MOD_STATUS_IN_PROGRESS false]);
   ([], [demo_mod 3 None MOD_STATUS_IN_PROGRESS false]);
   ([demo_mod 2 (Some 8) MOD_STATUS_COMPLETED true], [])].

Lemma recovery_settles_witness :
  Forall (fun my => compare_modifications my (zip_with apply_plan [demo_log0; demo_log1; demo_log2] demo_plans) = Ok ([], []))
    (zip_with apply_plan [demo_log0; demo_log1; demo_log2] demo_plans).
Proof.
  apply (recovery_settles [demo_log0; demo_log1; demo_log2] demo_plans).
  - repeat constructor; set_solver.
  - repeat (apply Forall2_cons_2; [vm_compute; reflexivity|]). apply Forall2_nil_2.
Defined.

(** C18: A mutation is applied exactly when it is owed.  The recovery plan of a
    party tells it to apply the mutation of an operation it has logged exactly
    when some party completed the operation and some party persisted it, unless
    the party itself has already completed and persisted it: shares that are
    already in the gallery are never replayed, and none is left out. *)
Theorem recovery_applies_once (my : list Modification) (all : list (list Modification)) (max_lookback : Z) (P : ModificationRecoveryPlan)
  (k : Z) (r : Modification)
  (Hmy : my ∈ all) (HP : recovery_plan my all max_lookback = Ok P) (Hr : find_id k my = Some r) :
  (exists u, u ∈ updates P /\ mod_id (modification u) = k /\ apply_mutation u = true)
  <-> (exists m, m ∈ concat all /\ mod_id m = k /\ status m = MOD_STATUS_COMPLETED) /\
      (exists m, m ∈ concat all /\ mod_id m = k /\ persisted m = true) /\
      ~ (status r = MOD_STATUS_COMPLETED /\ persisted r = true).
Proof.
  destruct (plan_applies my all max_lookback P k r Hmy HP Hr) as [Hc ->]. rewrite (settled_persisted _ _ Hc). tauto.
Qed.

Lemma recovery_applies_once_witness :
  exists P u, recovery_plan demo_log0 [demo_log0; demo_log1; demo_log2] 100 = Ok P /\
    u ∈ updates P /\ mod_id (modification u) = 2 /\ apply_mutation u = true.
Proof.
  destruct (recovery_plan demo_log0 [demo_log0; demo_log1; demo_log2] 100) as [P|] eqn:E; [|vm_compute in E; discriminate].
  exists P. destruct (proj2 (recovery_applies_once demo_log0 [demo_log0; demo_log1; demo_log2] 100 P 2
    (demo_mod 2 None MOD_STATUS_IN_PROGRESS false) (list_elem_of_here _ _) E eq_refl)) as (u & Hu).
  - split_and!.
    + exists (demo_mod 2 (Some 8) MOD_STATUS_COMPLETED true). split; [cbn; set_solver|done].
    + exists (demo_mod 2 (Some 8) MOD_STATUS_COMPLETED true). split; [cbn; set_solver|done].
    + by intros [? _].
  - exists u. split; [done|]. exact Hu.
Defined.
