(* ===== verification/Buckets.v ===== *)
(** * Histograms of anonymised statistics: [ampc-anon-stats/src/types.rs] and
    [anon_stats/buckets.rs]

    The protocols open cumulative counts: how many distances lie within each
    threshold, in one dimension or for every pair of thresholds in two.  Filling
    the buckets turns them into the histogram that is reported.  The theorem of
    this file is that decumulation gives the exact number of distances in each
    bucket, whatever distances the cumulative counts were taken of. *)

From S2P Require Import Prelude F64.
From stdpp Require Import base list numbers option strings sorting.
From Stdlib Require Import ZArith Lia SpecFloat Bool.
Local Open Scope Z_scope.

(** ** Labels of a job *)

(* ampc-anon-stats/src/types.rs:10-15 AnonStatsOperation *)
Inductive AnonStatsOperation := Uniqueness | Reauth | Recovery.

(* ampc-anon-stats/src/types.rs:18-20 AnonStatsOperation (into i16) *)
Definition operation_to_i16 (o : AnonStatsOperation) : Z :=
  match o with Uniqueness => 0 | Reauth => 1 | Recovery => 2 end.

(* ampc-anon-stats/src/types.rs:26-33 AnonStatsOperation::try_from *)
Definition operation_try_from (value : Z) : result AnonStatsOperation :=
  if value =? 0 then Ok Uniqueness else if value =? 1 then Ok Reauth else if value =? 2 then Ok Recovery
  else bail "Unknown anon stats operation value".

(* ampc-anon-stats/src/types.rs:37-41 Eye *)
Inductive Eye := LeftEye | RightEye.

(* ampc-anon-stats/src/types.rs:44-49 Eye::other *)
Definition eye_other (e : Eye) : Eye := match e with LeftEye => RightEye | RightEye => LeftEye end.

(* ampc-anon-stats/src/types.rs:63-69 DistanceFunction *)
Inductive DistanceFunction := FHD | NHD | HD | QuantizedCosine.

(* ampc-anon-stats/src/types.rs:84-88 AnonStatsResultSource *)
Inductive AnonStatsResultSource := Legacy | Aggregator.

(* ampc-anon-stats/src/types.rs:115-118 AnonStatsOrientation *)
Inductive AnonStatsOrientation := Normal | Mirror.

(* ampc-anon-stats/src/types.rs:122-127 AnonStatsContext *)
Inductive AnonStatsContext := GPU | HNSW | FACE | DI.

Definition context_code (c : AnonStatsContext) : Z := match c with GPU => 0 | HNSW => 1 | FACE => 2 | DI => 3 end.

(* ampc-anon-stats/src/types.rs:91-95 AnonStatsOrigin *)
Record AnonStatsOrigin := mkOrigin { side : option Eye; orientation : AnonStatsOrientation; context : AnonStatsContext }.

(* ampc-anon-stats/src/types.rs:98-111 AnonStatsOrigin (into i16) *)
Definition origin_to_i16 (origin : AnonStatsOrigin) : Z :=
  let side_val := match side origin with Some LeftEye => 0 | Some RightEye => 1 | None => 2 end in
  let orientation_val := match orientation origin with Normal => 0 | Mirror => 1 end in
  Z.lor (Z.lor (Z.shiftl side_val 9) (Z.shiftl orientation_val 8)) (context_code (context origin)).

(** The codes stored in the database tell operations and origins apart. *)
Lemma operation_codes o : operation_try_from (operation_to_i16 o) = Ok o.
Proof. by destruct o. Qed.

Lemma origin_codes_distinct o o' : origin_to_i16 o = origin_to_i16 o' -> o = o'.
Proof. destruct o as [[[]|] [] []], o' as [[[]|] [] []]; vm_compute; intros; simplify_eq; done. Qed.

(** ** The rows of a job *)

Section mapping.
Context {T : Type}.

(* ampc-anon-stats/src/types.rs:130-132 AnonStatsMapping *)
Record AnonStatsMapping := mkMapping { stats : list (Z * T) }.

(** [sort_by_key] is stable: a row goes after the rows with its key. *)
Fixpoint insert_row (row : Z * T) (rows : list (Z * T)) : list (Z * T) :=
  match rows with
  | [] => [row]
  | r :: rows' => if row.1 <? r.1 then row :: rows else r :: insert_row row rows'
  end.
Definition sort_rows (rows : list (Z * T)) : list (Z * T) := foldl (fun acc row => insert_row row acc) [] rows.

(* ampc-anon-stats/src/types.rs:135-139 AnonStatsMapping::new *)
Definition mapping_new (stats : list (Z * T)) : AnonStatsMapping := mkMapping (sort_rows stats).

(* ampc-anon-stats/src/types.rs:141-143 AnonStatsMapping::len *)
Definition mapping_len (self : AnonStatsMapping) : nat := length (stats self).

(* ampc-anon-stats/src/types.rs:144-146 AnonStatsMapping::is_empty *)
Definition mapping_is_empty (self : AnonStatsMapping) : bool := match stats self with [] => true | _ => false end.

(* ampc-anon-stats/src/types.rs:147-153 AnonStatsMapping::get_ranges *)
Definition get_ranges (self : AnonStatsMapping) : Z * Z :=
  match stats self with
  | [] => (0, 0)
  | first :: _ => (first.1, match last (stats self) with Some r => r.1 | None => 0 end)
  end.

(** The hasher is [SipHasher13]. *)
(* ampc-anon-stats/src/types.rs:154-160 AnonStatsMapping::get_id_hash *)
Definition get_id_hash (hash : list Z -> Z) (self : AnonStatsMapping) : Z := hash (fst <$> stats self).

(* ampc-anon-stats/src/types.rs:162-164 AnonStatsMapping::into_bundles *)
Definition into_bundles (self : AnonStatsMapping) : list T := snd <$> stats self.

(* ampc-anon-stats/src/types.rs:166-168 AnonStatsMapping::truncate *)
Definition mapping_truncate (self : AnonStatsMapping) (new_size : nat) : AnonStatsMapping := mkMapping (take new_size (stats self)).

Lemma insert_row_perm row rows : insert_row row rows ≡ₚ row :: rows.
Proof.
  induction rows as [|r rows IH]; cbn; [done|]. destruct (row.1 <? r.1); [done|]. rewrite IH. apply Permutation_swap.
Qed.

Lemma sort_rows_perm rows : sort_rows rows ≡ₚ rows.
Proof.
  unfold sort_rows. induction rows as [|r rows IH] using rev_ind; [done|]. rewrite foldl_app. cbn. rewrite insert_row_perm, IH.
  apply Permutation_cons_append.
Qed.

Lemma insert_row_sorted row rows :
  StronglySorted Z.le (fst <$> rows) -> StronglySorted Z.le (fst <$> insert_row row rows).
Proof.
  induction rows as [|r rows IH]; cbn; [repeat constructor|]. inversion 1 as [|? ? Hs Hr]; subst. destruct (Z.ltb_spec row.1 r.1).
  - cbn. constructor; [done|]. constructor; [lia|]. eapply Forall_impl; [exact Hr|]. intros; lia.
  - cbn. constructor; [by apply IH|]. rewrite insert_row_perm. constructor; [lia|done].
Qed.

Lemma sort_rows_sorted rows : StronglySorted Z.le (fst <$> sort_rows rows).
Proof.
  unfold sort_rows. induction rows as [|r rows IH] using rev_ind; [constructor|]. rewrite foldl_app. by apply insert_row_sorted.
Qed.
End mapping.
Arguments AnonStatsMapping : clear implicits.

Lemma sorted_perm_unique (l k : list Z) : StronglySorted Z.le l -> StronglySorted Z.le k -> l ≡ₚ k -> l = k.
Proof. intros. eapply (StronglySorted_unique Z.le); done. Qed.

(** Parties that hold the same ids, stored in any order, line their rows up: the
    ids of the jobs they build are the same, in order, and stay the same when
    they are cut to a common size.  So are the digests they compare. *)
Lemma jobs_aligned {T U} (rows : list (Z * T)) (rows' : list (Z * U)) n hash :
  (fst <$> rows) ≡ₚ (fst <$> rows') ->
  fst <$> stats (mapping_truncate (mapping_new rows) n) = fst <$> stats (mapping_truncate (mapping_new rows') n) /\
  get_id_hash hash (mapping_truncate (mapping_new rows) n) = get_id_hash hash (mapping_truncate (mapping_new rows') n).
Proof.
  intros H. assert (fst <$> sort_rows rows = fst <$> sort_rows rows') as E.
  { apply sorted_perm_unique; [apply sort_rows_sorted..|]. by rewrite !sort_rows_perm. }
  assert (fst <$> stats (mapping_truncate (mapping_new rows) n) = fst <$> stats (mapping_truncate (mapping_new rows') n)) as E'.
  { cbn. by rewrite !fmap_take, E. }
  split; [done|]. unfold get_id_hash. by rewrite E'.
Qed.

(** ** Buckets *)

(* buckets.rs:13-15 round_boundary *)
Definition round_boundary (value : f64) : f64 :=
  f64_div (f64_round (f64_mul value (f64_of_int (10 ^ 12)))) (f64_of_int (10 ^ 12)).

(* buckets.rs:19-22 BucketResult *)
Record BucketResult := mkBucket { count : Z; hamming_distance_bucket : f64 * f64 }.

(** Times are seconds; the times at which the code asks for the clock are
    arguments. *)
(* buckets.rs:34-58 BucketStatistics *)
Record BucketStatistics := mkStatistics {
  buckets : list BucketResult;
  n_buckets : nat;
  match_distances_buffer_size : nat;
  party_id : nat;
  operation : AnonStatsOperation;
  eye : option Eye;
  distance_function : DistanceFunction;
  source : AnonStatsResultSource;
  start_time_utc_timestamp : Z;
  end_time_utc_timestamp : option Z;
  next_start_time_utc_timestamp : option Z;
  is_mirror_orientation : bool;
}.

(* buckets.rs:89-112 BucketStatistics::new *)
Definition statistics_new (now : Z) (match_distances_buffer_size n_buckets party_id : nat) (eye : option Eye)
    (distance_function : DistanceFunction) (source : AnonStatsResultSource) (operation : option AnonStatsOperation) : BucketStatistics :=
  mkStatistics [] n_buckets match_distances_buffer_size party_id (default Uniqueness operation) eye distance_function source
    now None None false.

(* buckets.rs:140-153 BucketStatistics::fill_buckets (count of a bucket) *)
Definition decumulated (buckets_array : list Z) (i : nat) : Z :=
  let previous_count := match i with O => 0 | S k => nth k buckets_array 0 end in
  if previous_count <=? nth i buckets_array 0 then nth i buckets_array 0 - previous_count else 0.

(** Buckets of equal width, with the boundaries rounded. *)
(* buckets.rs:135-138 BucketStatistics::fill_buckets (boundaries) *)
Definition uniform_limits (match_threshold_ratio : f64) (n : nat) (i : nat) : f64 * f64 :=
  let step := f64_div match_threshold_ratio (f64_of_int (Z.of_nat n)) in
  (round_boundary (f64_mul step (f64_of_int (Z.of_nat i))), round_boundary (f64_mul step (f64_of_int (Z.of_nat (i + 1))))).

(* buckets.rs:121-169 BucketStatistics::fill_buckets *)
Definition fill_buckets (now : Z) (self : BucketStatistics) (buckets_array : list Z) (match_threshold_ratio : f64)
    (start_timestamp : option Z) : BucketStatistics :=
  mkStatistics
    ((fun i => mkBucket (decumulated buckets_array i) (uniform_limits match_threshold_ratio (n_buckets self) i)) <$> seq 0 (length buckets_array))
    (n_buckets self) (match_distances_buffer_size self) (party_id self) (operation self) (eye self) (distance_function self) (source self)
    (default (start_time_utc_timestamp self) start_timestamp) (Some now) (Some now) (is_mirror_orientation self).

(* buckets.rs:174-178 Bucket2DResult *)
Record Bucket2DResult := mkBucket2D {
  count_2d : Z;
  left_hamming_distance_bucket : f64 * f64;
  right_hamming_distance_bucket : f64 * f64;
}.

(* buckets.rs:198-228 BucketStatistics2D *)
Record BucketStatistics2D := mkStatistics2D {
  buckets_2d : list Bucket2DResult;
  n_buckets_per_side : nat;
  match_distances_buffer_size_2d : nat;
  party_id_2d : nat;
  operation_2d : AnonStatsOperation;
  distance_function_2d : DistanceFunction;
  source_2d : AnonStatsResultSource;
  start_time_utc_timestamp_2d : Z;
  end_time_utc_timestamp_2d : option Z;
  next_start_time_utc_timestamp_2d : option Z;
  is_mirror_orientation_2d : bool;
  left_opposite_mirror_match : option bool;
  right_opposite_mirror_match : option bool;
  sampling_rate : option Z;
}.

(* buckets.rs:275-301 BucketStatistics2D::new *)
Definition statistics_2d_new (now : Z) (match_distances_buffer_size n_buckets_per_side party_id : nat)
    (distance_function : DistanceFunction) (source : AnonStatsResultSource) (operation : option AnonStatsOperation)
    (left_opposite_mirror_match right_opposite_mirror_match : option bool) : BucketStatistics2D :=
  mkStatistics2D [] n_buckets_per_side match_distances_buffer_size party_id (default Uniqueness operation) distance_function source
    now None None false left_opposite_mirror_match right_opposite_mirror_match None.

(** [*c.get(idx).unwrap_or(&0)]. *)
Definition cell_at (c : list Z) (idx : nat) : Z := default 0 (c !! idx).

(** Inclusion and exclusion; a negative count is clamped. *)
(* buckets.rs:332-371 BucketStatistics2D::fill_buckets (count of a cell) *)
Definition decumulated_2d (n : nat) (c : list Z) (idx : nat) : Z :=
  let i := (idx / n)%nat in
  let j := (idx mod n)%nat in
  let c_ij := cell_at c idx in
  let c_im1_j := if (0 <? i)%nat then cell_at c (idx - n) else 0 in
  let c_i_jm1 := if (0 <? j)%nat then cell_at c (idx - 1) else 0 in
  let c_im1_jm1 := if ((0 <? i) && (0 <? j))%nat then cell_at c (idx - n - 1) else 0 in
  let cell := c_ij - c_im1_j - c_i_jm1 + c_im1_jm1 in
  if cell <? 0 then 0 else cell.

(** Cells without a count are left out. *)
Definition filled_cells (limits : nat -> f64 * f64) (n : nat) (c : list Z) : list Bucket2DResult :=
  omap (fun idx => let cell := decumulated_2d n c idx in
                   if 0 <? cell then Some (mkBucket2D cell (limits (idx / n)%nat) (limits (idx mod n)%nat)) else None)
    (seq 0 (n * n)).

Definition filled_2d (now : Z) (self : BucketStatistics2D) (n : nat) (cells : list Bucket2DResult) (start_timestamp : option Z)
    : BucketStatistics2D :=
  mkStatistics2D cells n (match_distances_buffer_size_2d self) (party_id_2d self) (operation_2d self) (distance_function_2d self)
    (source_2d self) (default (start_time_utc_timestamp_2d self) start_timestamp) (Some now) (Some now) (is_mirror_orientation_2d self)
    (left_opposite_mirror_match self) (right_opposite_mirror_match self) (sampling_rate self).

(* buckets.rs:307-399 BucketStatistics2D::fill_buckets *)
Definition fill_buckets_2d (now : Z) (self : BucketStatistics2D) (cumulative : list Z) (match_threshold_ratio : f64)
    (start_timestamp : option Z) : BucketStatistics2D :=
  let n := n_buckets_per_side self in
  filled_2d now self n (filled_cells (uniform_limits match_threshold_ratio n) n cumulative) start_timestamp.

(** [i16::MIN]. *)
Definition I16_MIN : Z := - 2 ^ 15.

(* buckets.rs:438-443 BucketStatistics2D::fill_buckets_di (bucket limits) *)
Definition limits_di (thresholds : list Z) (k : nat) : f64 * f64 :=
  let edges := f64_of_int I16_MIN :: (f64_of_int <$> thresholds) in
  (nth k edges (S754_zero false), nth (k + 1) edges (S754_zero false)).

(* buckets.rs:403-493 BucketStatistics2D::fill_buckets_di *)
Definition fill_buckets_di (now : Z) (self : BucketStatistics2D) (cumulative : list Z) (thresholds : list Z)
    (start_timestamp : option Z) : BucketStatistics2D :=
  let n := length thresholds in
  filled_2d now self n (filled_cells (limits_di thresholds) n cumulative) start_timestamp.

(** ** Cumulative counts *)

(** The number of things a test accepts. *)
Definition number {D} (p : D -> bool) (ds : list D) : Z := Z.of_nat (length (List.filter p ds)).

Lemma number_cons {D} (p : D -> bool) d ds : number p (d :: ds) = (if p d then 1 else 0) + number p ds.
Proof. unfold number. cbn. destruct (p d); cbn [length]; lia. Qed.

Lemma number_nonneg {D} (p : D -> bool) ds : 0 <= number p ds.
Proof. unfold number. lia. Qed.

(** [within i d]: the distance [d] is accepted by the [i]-th of [n] thresholds.
    What one threshold accepts the next accepts too. *)
Definition nested {D} (within : nat -> D -> bool) (n : nat) (d : D) : Prop :=
  forall i, (S i < n)%nat -> within i d = true -> within (S i) d = true.

(** The test one threshold earlier. *)
Definition before {D} (within : nat -> D -> bool) (i : nat) (d : D) : bool := match i with O => false | S k => within k d end.

(** Bucket [i]: accepted by threshold [i] and by none before. *)
Definition in_bucket {D} (within : nat -> D -> bool) (i : nat) (d : D) : bool := within i d && negb (before within i d).

Lemma before_within {D} (within : nat -> D -> bool) n i d :
  nested within n d -> (i < n)%nat -> before within i d = true -> within i d = true.
Proof. intros H Hi. destruct i as [|i]; [done|]. by apply H. Qed.

Section cumulative.
Context {D : Type} (within : nat -> D -> bool) (n : nat).

Definition cumulative_counts (ds : list D) : list Z := (fun i => number (within i) ds) <$> seq 0 n.

Lemma number_in_bucket i ds :
  Forall (nested within n) ds -> (i < n)%nat ->
  number (in_bucket within i) ds = number (within i) ds - number (before within i) ds.
Proof.
  intros H Hi. induction H as [|d ds Hd H IH]; [done|]. rewrite !number_cons, IH. unfold in_bucket.
  pose proof (before_within within n i d Hd Hi) as Hb. destruct (within i d), (before within i d); cbn; lia || by specialize (Hb eq_refl).
Qed.

Lemma cumulative_nth ds i : (i < n)%nat -> nth i (cumulative_counts ds) 0 = number (within i) ds.
Proof.
  intros H. apply nth_lookup_Some. unfold cumulative_counts. rewrite list_lookup_fmap, lookup_seq_lt by done. done.
Qed.

Lemma number_false {E} (p : E -> bool) ds : (forall d, p d = false) -> number p ds = 0.
Proof. intros H. induction ds as [|d ds IH]; [done|]. rewrite number_cons, H, IH. done. Qed.

Lemma decumulated_in_bucket ds i :
  Forall (nested within n) ds -> (i < n)%nat -> decumulated (cumulative_counts ds) i = number (in_bucket within i) ds.
Proof.
  intros Hds H. pose proof (number_nonneg (in_bucket within i) ds) as Hp. rewrite number_in_bucket in * by done. unfold decumulated.
  rewrite cumulative_nth by done. set (c := match i with O => 0 | S k => nth k (cumulative_counts ds) 0 end).
  assert (c = number (before within i) ds) as ->.
  { unfold c. destruct i as [|i]; [by rewrite number_false|]. rewrite cumulative_nth by lia. done. }
  destruct (Z.leb_spec (number (before within i) ds) (number (within i) ds)); lia.
Qed.

(** Bucket by bucket, the number of distances in it. *)
Definition histogram_1d (limits : nat -> f64 * f64) (ds : list D) : list BucketResult :=
  (fun i => mkBucket (number (in_bucket within i) ds) (limits i)) <$> seq 0 n.

Lemma filled_buckets_histogram now self ratio start ds :
  Forall (nested within n) ds ->
  buckets (fill_buckets now self (cumulative_counts ds) ratio start) = histogram_1d (uniform_limits ratio (n_buckets self)) ds.
Proof.
  intros Hds. unfold fill_buckets, histogram_1d. cbn [buckets]. unfold cumulative_counts at 2. rewrite length_fmap, length_seq.
  apply list_fmap_ext. intros k i (-> & Hk)%lookup_seq. cbn [Nat.add]. by rewrite decumulated_in_bucket.
Qed.
End cumulative.

Lemma cell_index n i j : (i < n)%nat -> (j < n)%nat -> ((i * n + j) / n = i /\ (i * n + j) mod n = j)%nat.
Proof.
  intros Hi Hj. split.
  - rewrite Nat.div_add_l, Nat.div_small by lia. lia.
  - rewrite Nat.add_comm, Nat.Div0.mod_add. by apply Nat.mod_small.
Qed.

Section cumulative_2d.
Context {D E : Type} (wl : nat -> D -> bool) (wr : nat -> E -> bool).

(** Row-major: the pairs accepted by threshold [i] on the left and [j] on the
    right. *)
Definition both (p : D -> bool) (q : E -> bool) (d : D * E) : bool := p d.1 && q d.2.

Definition cumulative_counts_2d (n : nat) (ds : list (D * E)) : list Z :=
  (fun idx => number (both (wl (idx / n)%nat) (wr (idx mod n)%nat)) ds) <$> seq 0 (n * n).

Definition nested_2d (n : nat) (d : D * E) : Prop := nested wl n d.1 /\ nested wr n d.2.

Lemma number_in_cell n i j ds :
  Forall (nested_2d n) ds -> (i < n)%nat -> (j < n)%nat ->
  number (both (in_bucket wl i) (in_bucket wr j)) ds
  = number (both (wl i) (wr j)) ds - number (both (before wl i) (wr j)) ds
    - number (both (wl i) (before wr j)) ds + number (both (before wl i) (before wr j)) ds.
Proof.
  intros H Hi Hj. induction H as [|[l r] ds [Hl Hr] H IH]; [done|]. rewrite !number_cons, IH. unfold both, in_bucket. cbn [fst snd] in *.
  pose proof (before_within wl n i l Hl Hi) as H1. pose proof (before_within wr n j r Hr Hj) as H2.
  destruct (wl i l), (wr j r), (before wl i l), (before wr j r); cbn; try lia;
    by (discriminate H1 || discriminate H2 || specialize (H1 eq_refl) || specialize (H2 eq_refl)).
Qed.

Lemma cell_at_counts n ds i j :
  (i < n)%nat -> (j < n)%nat -> cell_at (cumulative_counts_2d n ds) (i * n + j) = number (both (wl i) (wr j)) ds.
Proof.
  intros Hi Hj. assert (i * n + j < n * n)%nat by nia. unfold cell_at, cumulative_counts_2d.
  rewrite list_lookup_fmap, lookup_seq_lt by done. cbn. destruct (cell_index n i j Hi Hj) as [-> ->]. done.
Qed.

Lemma decumulated_in_cell n ds i j :
  Forall (nested_2d n) ds -> (i < n)%nat -> (j < n)%nat ->
  decumulated_2d n (cumulative_counts_2d n ds) (i * n + j) = number (both (in_bucket wl i) (in_bucket wr j)) ds.
Proof.
  intros Hds Hi Hj. pose proof (number_nonneg (both (in_bucket wl i) (in_bucket wr j)) ds) as Hp. rewrite (number_in_cell n) in * by done.
  destruct (cell_index n i j Hi Hj) as [Ed Em]. unfold decumulated_2d. cbv zeta. rewrite Ed, Em, cell_at_counts by done.
  assert ((if (0 <? i)%nat then cell_at (cumulative_counts_2d n ds) (i * n + j - n) else 0) = number (both (before wl i) (wr j)) ds) as ->.
  { destruct i as [|i]; cbn [Nat.ltb Nat.leb]; [by rewrite number_false|]. replace (S i * n + j - n)%nat with (i * n + j)%nat by lia. rewrite cell_at_counts by lia. done. }
  assert ((if (0 <? j)%nat then cell_at (cumulative_counts_2d n ds) (i * n + j - 1) else 0) = number (both (wl i) (before wr j)) ds) as ->.
  { destruct j as [|j]; cbn [Nat.ltb Nat.leb]; [rewrite number_false; [done|]; intros d; apply andb_false_r|].
    replace (i * n + S j - 1)%nat with (i * n + j)%nat by lia. rewrite cell_at_counts by lia. done. }
  assert ((if ((0 <? i)%nat && (0 <? j)%nat)%bool then cell_at (cumulative_counts_2d n ds) (i * n + j - n - 1) else 0)
    = number (both (before wl i) (before wr j)) ds) as ->.
  { destruct i as [|i]; cbn [Nat.ltb Nat.leb andb]; [by rewrite number_false|].
    destruct j as [|j]; cbn [Nat.ltb Nat.leb andb]; [rewrite number_false; [done|]; intros d; apply andb_false_r|].
    replace (S i * n + S j - n - 1)%nat with (i * n + j)%nat by lia. rewrite cell_at_counts by lia. done. }
  destruct (Z.ltb_spec (number (both (wl i) (wr j)) ds - number (both (before wl i) (wr j)) ds - number (both (wl i) (before wr j)) ds
    + number (both (before wl i) (before wr j)) ds) 0); lia.
Qed.

(** The cells in row-major order, the empty ones left out. *)
Definition histogram_2d (limits : nat -> f64 * f64) (n : nat) (ds : list (D * E)) : list Bucket2DResult :=
  omap (fun idx => let c := number (both (in_bucket wl (idx / n)%nat) (in_bucket wr (idx mod n)%nat)) ds in
                   if 0 <? c then Some (mkBucket2D c (limits (idx / n)%nat) (limits (idx mod n)%nat)) else None) (seq 0 (n * n)).

Lemma filled_cells_histogram limits n ds :
  Forall (nested_2d n) ds -> filled_cells limits n (cumulative_counts_2d n ds) = histogram_2d limits n ds.
Proof.
  intros Hds. unfold filled_cells, histogram_2d. apply list_omap_ext, Forall_Forall2_diag, Forall_forall. intros idx Hidx.
  apply elem_of_seq in Hidx. assert (n <> 0)%nat as Hn by lia. pose proof (Nat.div_mod idx n Hn) as Hd. pose proof (Nat.mod_upper_bound idx n Hn).
  assert (idx / n < n)%nat by (apply Nat.Div0.div_lt_upper_bound; lia).
  rewrite <- (decumulated_in_cell n ds (idx / n) (idx mod n)) by done.
  replace (idx / n * n + idx mod n)%nat with idx by lia. done.
Qed.
End cumulative_2d.
