(* ===== verification/AnonJobs.v ===== *)
(** * Anonymised statistics jobs: [anon_stats/iris_1d.rs], [anon_stats/iris_2d.rs]
    and [anon_stats/face.rs]

    A job takes shares of distances, has the three parties compare them with
    public thresholds, opens only the cumulative counts and reports them as a
    histogram.  This file composes the protocols of [Lift], [Convert], [Inject],
    [Compare] and [Ops] with the buckets of [Buckets]. *)

From S2P Require Import Prelude IntRing RingImpl Party Share VecShare Transpose Value Net Prf Proto Circuits Binary Adder Inject Convert Lift Ops Select F64 Compare Buckets.
From stdpp Require Import option base list numbers strings gmap.
From Stdlib Require Import ZArith Lia SpecFloat Sorted.
Local Open Scope Z_scope.

(** ** Definitions *)

(** The fields the jobs use. *)
(* server/config/mod.rs:46-83 AnonStatsServerConfig (bucket counts) *)
Record AnonStatsServerConfig := mkConfig {
  cfg_party_id : nat;
  n_buckets_1d : nat;
  n_buckets_1d_reauth : nat;
  n_buckets_2d : nat;
  n_buckets_2d_reauth : nat;
  nhd_threshold_ratio : f64;
  n_buckets_1d_nhd : nat;
  n_buckets_2d_nhd : nat;
  face_bucket_thresholds : list Z;
  di_2d_bucket_thresholds : list Z;
}.

(** [0.375] and [0.5]. *)
Definition MATCH_THRESHOLD_RATIO : f64 := f64_three_eighths.
Definition MATCH_THRESHOLD_RATIO_REAUTH : f64 := f64_lit 1 (-1).

(** [upper / n as f64 * x as f64]. *)
Definition bucket_edge (upper : f64) (n_buckets x : nat) : f64 :=
  f64_mul (f64_div upper (f64_of_int (Z.of_nat n_buckets))) (f64_of_int (Z.of_nat x)).

(* anon_stats/mod.rs:16-22 calculate_iris_threshold_a *)
Definition calculate_iris_threshold_a (n_buckets : nat) (upper_match_threshold_ratio : f64) : result (list Z) :=
  mapM_result (fun x => translate_threshold_a (bucket_edge upper_match_threshold_ratio n_buckets x)) (seq 1 n_buckets).

(* anon_stats/mod.rs:24-31 calculate_iris_threshold_score_normalization *)
Definition calculate_iris_threshold_score_normalization (n_buckets : nat) (upper_match_threshold_ratio : f64) : list f64 :=
  bucket_edge upper_match_threshold_ratio n_buckets <$> seq 1 n_buckets.

Abbreviation DistanceBundle1D := (list DistanceShare).
Abbreviation DistanceBundle2D := (list DistanceShare * list DistanceShare)%type.

(* iris_1d.rs:43-50 lift_bundles_1d (one bundle) *)
Fixpoint lifted_bundle (lifted_flattened : list Share) (chunk_size idx : nat) : result DistanceBundle1D :=
  match chunk_size with
  | O => Ok []
  | S chunk_size =>
      code_dot ← index lifted_flattened idx;
      mask_dot ← index lifted_flattened (idx + 1);
      rest ← lifted_bundle lifted_flattened chunk_size (idx + 2);
      Ok (mkDistance code_dot mask_dot :: rest)
  end.

(* iris_1d.rs:156-162 lift_bundles_u48_1d (one bundle) *)
Fixpoint lifted_u48_bundle (lifted_flattened : list DistanceShare) (chunk_size idx : nat) : result DistanceBundle1D :=
  match chunk_size with
  | O => Ok []
  | S chunk_size =>
      d ← index lifted_flattened idx;
      rest ← lifted_u48_bundle lifted_flattened chunk_size (idx + 1);
      Ok (d :: rest)
  end.

(** The closure over [idx], mapped over the sizes: [bundle n idx] takes [n]
    distances, of [per] entries each. *)
(* iris_1d.rs:38-53 lift_bundles_1d (original shape) *)
Fixpoint in_original_shape (bundle : nat -> nat -> result DistanceBundle1D) (per : nat) (sizes : list nat) (idx : nat)
    : result (list DistanceBundle1D * nat) :=
  match sizes with
  | [] => Ok ([], idx)
  | n :: sizes =>
      b ← bundle n idx;
      '(bs, idx') ← in_original_shape bundle per sizes (idx + per * n);
      Ok (b :: bs, idx')
  end.

Definition flattened_bundles (bundles : list DistanceBundle1D) : list Share :=
  concat ((fun b => concat ((fun d => [code_dot d; mask_dot d]) <$> b)) <$> bundles).

Section Jobs.
Context {R : Rng}.

(* iris_1d.rs:27-55 lift_bundles_1d *)
Definition lift_bundles_1d (bundles : list DistanceBundle1D) : M R (list DistanceBundle1D) :=
  lifted_flattened ← batch_signed_lift_vec (flattened_bundles bundles);
  '(lifted, idx) ← liftr (in_original_shape (lifted_bundle lifted_flattened) 2 (length <$> bundles) 0);
  if (idx =? length lifted_flattened)%nat then mret lifted
  else liftr (panic "assertion failed: idx == lifted_flattened.len()").

(* iris_1d.rs:141-167 lift_bundles_u48_1d *)
Definition lift_bundles_u48_1d (bundles : list DistanceBundle1D) : M R (list DistanceBundle1D) :=
  lifted_flattened ← nhd_lift_distances (flattened_bundles bundles);
  '(lifted, idx) ← liftr (in_original_shape (lifted_u48_bundle lifted_flattened) 1 (length <$> bundles) 0);
  if (idx =? length lifted_flattened)%nat then mret lifted
  else liftr (panic "assertion failed: idx == lifted_flattened.len()").

Definition is_mirror (origin : AnonStatsOrigin) : bool := match orientation origin with Mirror => true | Normal => false end.

Definition with_mirror (s : BucketStatistics) (b : bool) : BucketStatistics :=
  mkStatistics (buckets s) (n_buckets s) (match_distances_buffer_size s) (party_id s) (operation s) (eye s) (distance_function s) (source s)
    (start_time_utc_timestamp s) (end_time_utc_timestamp s) (next_start_time_utc_timestamp s) b.

(** The clock is read when the statistics are created and when they are filled:
    [t0] and [t1]. *)
Section Clock.
Context (t0 t1 : Z) (config : AnonStatsServerConfig) (origin : AnonStatsOrigin) (operation : option AnonStatsOperation)
  (start_timestamp : option Z).

(* iris_1d.rs:66-73 process_1d_inner (buckets and threshold) *)
Definition params_1d : nat * f64 :=
  match operation with
  | Some Reauth => (n_buckets_1d_reauth config, MATCH_THRESHOLD_RATIO_REAUTH)
  | None | Some Uniqueness | Some Recovery => (n_buckets_1d config, MATCH_THRESHOLD_RATIO)
  end.

(* iris_1d.rs:81-93 process_1d_inner (report) *)
Definition report_1d (job_size num_buckets : nat) (f : DistanceFunction) (match_threshold_ratio : f64) (buckets : list Z) : BucketStatistics :=
  fill_buckets t1 (with_mirror (statistics_new t0 job_size num_buckets (cfg_party_id config) (side origin) f Aggregator operation)
    (is_mirror origin)) buckets match_threshold_ratio start_timestamp.

(* iris_1d.rs:57-94 process_1d_inner *)
Definition process_1d_inner (job_size : nat) (lifted_data : list DistanceBundle1D) : M R BucketStatistics :=
  let '(num_buckets, match_threshold_ratio) := params_1d in
  translated_thresholds ← liftr (calculate_iris_threshold_a num_buckets match_threshold_ratio);
  bucket_result_shares ← compare_min_threshold_buckets translated_thresholds lifted_data;
  buckets ← open_ring net_u32 bucket_result_shares;
  mret (report_1d job_size num_buckets FHD match_threshold_ratio buckets).

(* iris_1d.rs:96-117 process_1d_anon_stats_job *)
Definition process_1d_anon_stats_job (job : AnonStatsMapping DistanceBundle1D) : M R BucketStatistics :=
  lifted_data ← lift_bundles_1d (into_bundles job);
  process_1d_inner (mapping_len job) lifted_data.

(* iris_1d.rs:119-139 process_1d_lifted_anon_stats_job *)
Definition process_1d_lifted_anon_stats_job (job : AnonStatsMapping DistanceBundle1D) : M R BucketStatistics :=
  process_1d_inner (mapping_len job) (into_bundles job).

(* iris_1d.rs:178-185 process_1d_anon_stats_score_normalization_inner (buckets and threshold) *)
Definition params_1d_nhd : nat * f64 :=
  match operation with
  | Some Reauth => (n_buckets_1d_reauth config, MATCH_THRESHOLD_RATIO_REAUTH)
  | None | Some Uniqueness | Some Recovery => (n_buckets_1d_nhd config, nhd_threshold_ratio config)
  end.

(* iris_1d.rs:169-210 process_1d_anon_stats_score_normalization_inner *)
Definition process_1d_anon_stats_score_normalization_inner (job_size : nat) (lifted_data : list DistanceBundle1D) : M R BucketStatistics :=
  let '(num_buckets, match_threshold_ratio) := params_1d_nhd in
  let translated_thresholds := calculate_iris_threshold_score_normalization num_buckets match_threshold_ratio in
  bucket_result_shares ← compare_min_threshold_buckets_score_normalization translated_thresholds lifted_data;
  buckets ← open_ring net_u32 bucket_result_shares;
  mret (report_1d job_size num_buckets NHD match_threshold_ratio buckets).

(* iris_1d.rs:212-233 process_1d_anon_stats_score_normalization_job *)
Definition process_1d_anon_stats_score_normalization_job (job : AnonStatsMapping DistanceBundle1D) : M R BucketStatistics :=
  lifted_data ← lift_bundles_u48_1d (into_bundles job);
  process_1d_anon_stats_score_normalization_inner (mapping_len job) lifted_data.

(* iris_1d.rs:235-255 process_1d_lifted_anon_stats_score_normalization_job *)
Definition process_1d_lifted_anon_stats_score_normalization_job (job : AnonStatsMapping DistanceBundle1D) : M R BucketStatistics :=
  process_1d_anon_stats_score_normalization_inner (mapping_len job) (into_bundles job).
End Clock.
End Jobs.

(** ** Flattening and lifting *)

Definition flat_share (b : DistanceBundle1D) : list Share := concat ((fun d => [code_dot d; mask_dot d]) <$> b).
Definition flat_dist (g : list dist) : list Z := concat ((fun d : dist => [d.1; d.2]) <$> g).

Lemma flat_share_cons d b : flat_share (d :: b) = code_dot d :: mask_dot d :: flat_share b.
Proof. done. Qed.
Lemma flat_share_length b : length (flat_share b) = (2 * length b)%nat.
Proof. induction b as [|d b IH]; [done|]. rewrite flat_share_cons. cbn [length]. lia. Qed.
Lemma flat_dist_length g : length (flat_dist g) = (2 * length g)%nat.
Proof. induction g as [|d g IH]; [done|]. cbn [flat_dist fmap list_fmap concat app length]. unfold flat_dist in IH. cbn in *. lia. Qed.

Lemma tvec_split {A V} (P : tri A -> V -> Prop) v xs ys :
  tvec P v (xs ++ ys) -> exists v1 v2, v = tapp v1 v2 /\ tvec P v1 xs /\ tvec P v2 ys.
Proof.
  intros H. exists (take (length xs) <$> v), (drop (length xs) <$> v). split_and!.
  - apply tri_ext. intros i. unfold tapp. rewrite tget_tof, !tget_fmap. by rewrite take_drop.
  - pose proof (tvec_take _ (length xs) _ _ H) as Ht. by rewrite take_app_length in Ht.
  - pose proof (tvec_drop _ (length xs) _ _ H) as Hd. by rewrite drop_app_length in Hd.
Qed.

Section Flatten.
Context (T : IntRing2k).

Lemma flatten_group D g : tvec (dist_int T) D g -> tvec (shares_int T) (flat_share <$> D) (flat_dist g).
Proof.
  induction 1 as [|t D d g [Hc Hm] HD IH]; [constructor|]. change (flat_dist (d :: g)) with (d.1 :: d.2 :: flat_dist g).
  refine (eq_ind _ (fun v => tvec (shares_int T) v _) (tvec_cons (shares_int T) _ _ d.1 _ Hc (tvec_cons (shares_int T) _ _ d.2 _ Hm IH)) _ _).
  apply tri_ext. intros i. destruct i; done.
Qed.

Lemma unflatten_group v g :
  tvec (shares_int T) v (flat_dist g) -> exists D, v = flat_share <$> D /\ tvec (dist_int T) D g.
Proof.
  revert v. induction g as [|d g IH]; intros v Hv.
  { apply tvec_nil_inv in Hv as ->. exists tnil. split; [done|constructor]. }
  change (flat_dist (d :: g)) with (d.1 :: d.2 :: flat_dist g) in Hv.
  apply tvec_cons_inv in Hv as (c & w & -> & Hc & Hv). apply tvec_cons_inv in Hv as (m & u & -> & Hm & Hv).
  destruct (IH u Hv) as (D & -> & HD). exists (tcons (tof (fun i => mkDistance (c @ i) (m @ i))) D). split.
  - apply tri_ext. intros i. by destruct i.
  - constructor; [|done]. split; [by destruct c|by destruct m].
Qed.

Lemma flatten_groups D gs : tvec (tvec (dist_int T)) D gs -> tvec (shares_int T) (flattened_bundles <$> D) (concat (flat_dist <$> gs)).
Proof.
  induction 1 as [|t D g gs Hg HD IH]; [constructor|]. cbn [fmap list_fmap concat].
  refine (eq_ind _ (fun v => tvec (shares_int T) v _) (tvec_app _ _ _ _ _ (flatten_group _ _ Hg) IH) _ _).
  apply tri_ext. intros i. by destruct i.
Qed.

Lemma unflatten_groups v gs :
  tvec (shares_int T) v (concat (flat_dist <$> gs)) -> exists D, v = flattened_bundles <$> D /\ tvec (tvec (dist_int T)) D gs.
Proof.
  revert v. induction gs as [|g gs IH]; intros v Hv.
  { apply tvec_nil_inv in Hv as ->. exists tnil. split; [done|constructor]. }
  cbn [fmap list_fmap concat] in Hv. apply tvec_split in Hv as (v1 & v2 & -> & H1 & H2).
  apply unflatten_group in H1 as (Dg & -> & Hg). destruct (IH _ H2) as (D & -> & HD). exists (tcons Dg D). split.
  - apply tri_ext. intros i. by destruct i.
  - by constructor.
Qed.
End Flatten.

Lemma lifted_bundle_flat pre b post n :
  n = length pre -> lifted_bundle (pre ++ flat_share b ++ post) (length b) n = Ok b.
Proof.
  intros ->. revert pre. induction b as [|d b IH]; intros pre; [done|]. cbn [length lifted_bundle]. unfold index at 1 2.
  rewrite flat_share_cons. cbn [app]. rewrite (list_lookup_middle _ _ _ (length pre) eq_refl). cbn [mbind result_bind].
  rewrite (cons_middle (code_dot d)), app_assoc. rewrite (list_lookup_middle (pre ++ [code_dot d])) by (rewrite length_app; cbn; lia).
  cbn [mbind result_bind]. rewrite (cons_middle (mask_dot d)), app_assoc.
  replace (length pre + 2)%nat with (length ((pre ++ [code_dot d]) ++ [mask_dot d])) by (rewrite !length_app; cbn; lia).
  rewrite IH. cbn. by destruct d.
Qed.

Lemma lifted_u48_bundle_flat pre b post n : n = length pre -> lifted_u48_bundle (pre ++ b ++ post) (length b) n = Ok b.
Proof.
  intros ->. revert pre. induction b as [|d b IH]; intros pre; [done|]. cbn [length lifted_u48_bundle]. unfold index at 1.
  cbn [app]. rewrite (list_lookup_middle _ _ _ (length pre) eq_refl). cbn [mbind result_bind].
  rewrite (cons_middle d), app_assoc. replace (length pre + 1)%nat with (length (pre ++ [d])) by (rewrite !length_app; cbn; lia).
  by rewrite IH.
Qed.

(** Reading the bundles back in their original shape. *)
Lemma original_shape {A} (flat : DistanceBundle1D -> list A) (bundle : list A -> nat -> nat -> result DistanceBundle1D) per pre bs :
  (forall b, length (flat b) = (per * length b)%nat) ->
  (forall pre b post n, n = length pre -> bundle (pre ++ flat b ++ post) (length b) n = Ok b) ->
  in_original_shape (bundle (pre ++ concat (flat <$> bs))) per (length <$> bs) (length pre)
  = Ok (bs, (length (pre ++ concat (flat <$> bs)))%nat).
Proof.
  intros Hl Hb. revert pre. induction bs as [|b bs IH]; intros pre; [cbn; by rewrite app_nil_r|].
  rewrite !fmap_cons. cbn [concat in_original_shape]. rewrite Hb by done. cbn [mbind result_bind].
  rewrite <- Hl, <- length_app, app_assoc, IH. done.
Qed.

Lemma signed16_residue z : - 2 ^ 15 <= z < 2 ^ 15 -> signed16 (z mod 2 ^ 16) = z.
Proof.
  intros Hz. unfold signed16. destruct (Z.ltb_spec z 0).
  - rewrite <- (Z.mod_add z 1) by lia. rewrite Z.mod_small by lia. destruct (Z.ltb_spec (z + 1 * 2 ^ 16) (2 ^ 15)); lia.
  - rewrite Z.mod_small by lia. destruct (Z.ltb_spec z (2 ^ 15)); lia.
Qed.

Lemma flat_in_range gs : Forall (Forall in_range) gs -> Forall (fun z => - 2 ^ 15 <= z < 2 ^ 15) (concat (flat_dist <$> gs)).
Proof.
  intros H. apply Forall_concat, Forall_fmap. eapply Forall_impl; [exact H|]. intros g Hg. cbn. apply Forall_concat, Forall_fmap.
  eapply Forall_impl; [exact Hg|]. intros d Hd. cbn. unfold in_range in Hd. repeat constructor; lia.
Qed.

Lemma flat_length gs : length (concat (flat_dist <$> gs)) = (2 * length (concat gs))%nat.
Proof. induction gs as [|g gs IH]; [done|]. rewrite fmap_cons. cbn [concat]. rewrite !length_app, flat_dist_length, IH. lia. Qed.

(** A job of up to 2^28 distances fits the messages of the lift. *)
Definition job_fits (gs : list (list dist)) : Prop := 16 * Z.of_nat (length (concat gs)) < 2 ^ 32.

Section LiftBundles.
Context {R : Rng} {HR : RngOk R} (ids : tri Identity) (sid : Z).

Lemma lift_signed_spec v zs :
  tvec (shares_int u16) v zs -> Forall (fun z => - 2 ^ 15 <= z < 2 ^ 15) zs -> 8 * Z.of_nat (length zs) < 2 ^ 32 ->
  proto (R := R) ids sid (fun i => batch_signed_lift (v @ i)) (fun out => tvec (shares_int u32) out zs) /\
  proto (R := R) ids sid (fun i => batch_signed_lift_ring48 (v @ i)) (fun out => tvec (shares_int Ring48) out zs).
Proof.
  intros Hv Hr Hn. apply (proj2 (tvec_fmap_r (shares_add u16) (fun z => z mod 2 ^ K u16) v zs)) in Hv.
  destruct (batch_signed_lift_correct ids sid (R:=R) v _ Hv) as [H32 H48]; [rewrite length_fmap; lia|].
  assert (forall (T : IntRing2k) out, tvec (shares_add T) out ((fun x => signed16 x mod 2 ^ K T) <$> ((fun z => z mod 2 ^ K u16) <$> zs)) ->
    tvec (shares_int T) out zs) as Hout.
  { intros T out Ho. apply (proj1 (tvec_fmap_r (shares_add T) (fun z => z mod 2 ^ K T) out zs)). refine (eq_ind _ (tvec (shares_add T) out) Ho _ _).
    rewrite <- list_fmap_compose. apply list_fmap_ext. intros k z Hz. cbn. change (2 ^ K u16) with (2 ^ 16). rewrite signed16_residue; [done|].
    apply (Forall_lookup_1 _ _ _ _ Hr Hz). }
  split; (eapply proto_mono; [|by eassumption]); [exact (Hout u32)|exact (Hout Ring48)].
Qed.

Lemma lift_bundles_1d_spec D gs :
  tvec (tvec (dist_int u16)) D gs -> Forall (Forall in_range) gs -> job_fits gs ->
  proto (R := R) ids sid (fun i => lift_bundles_1d (D @ i)) (fun out => tvec (tvec (dist_int u32)) out gs).
Proof.
  intros HD Hr Hn. unfold job_fits in Hn. pose proof (flatten_groups u16 D gs HD) as Hv.
  destruct (lift_signed_spec _ _ Hv (flat_in_range _ Hr)) as [H32 _]; [rewrite flat_length; lia|].
  eapply proto_bind; [eapply proto_ext; [|exact H32]; intros s i _; cbn beta; by rewrite tget_fmap|]. intros l Hl.
  apply unflatten_groups in Hl as (L & -> & HL).
  eapply proto_ext; [|apply (proto_ret ids sid L); exact HL]. intros s i _. cbn beta. rewrite tget_fmap.
  replace (length <$> D @ i) with (length <$> L @ i).
  - change (flattened_bundles (L @ i)) with (concat (flat_share <$> L @ i)).
    pose proof (original_shape flat_share lifted_bundle 2 [] (L @ i) flat_share_length lifted_bundle_flat) as E. cbn [app length] in E.
    rewrite E. unfold liftr, mbind, M_bind. cbn. by rewrite Nat.eqb_refl.
  - by rewrite (tvec_tvec_lengths _ _ _ i HL), (tvec_tvec_lengths _ _ _ i HD).
Qed.

Lemma nhd_lift_distances_spec D gs :
  tvec (tvec (dist_int u16)) D gs -> Forall (Forall in_range) gs -> job_fits gs ->
  proto (R := R) ids sid (fun i => nhd_lift_distances (flattened_bundles (D @ i)))
    (fun out => exists L, out = concat (A:=DistanceShare) <$> L /\ tvec (tvec (dist_int Ring48)) L gs).
Proof.
  intros HD Hr Hn. unfold job_fits in Hn. pose proof (flatten_groups u16 D gs HD) as Hv.
  destruct (lift_signed_spec _ _ Hv (flat_in_range _ Hr)) as [_ H48]; [rewrite flat_length; lia|].
  eapply proto_bind; [eapply proto_ext; [|exact H48]; intros s i _; cbn beta; by rewrite tget_fmap|]. intros l Hl.
  apply unflatten_groups in Hl as (L & -> & HL).
  apply (proto_liftr ids sid _ (concat (A:=DistanceShare) <$> L)); [|by exists L]. intros i. rewrite !tget_fmap. clear.
  assert (flattened_bundles (L @ i) = flat_share (concat (L @ i))) as ->.
  { unfold flattened_bundles, flat_share. induction (L @ i) as [|b bs IH]; [done|]. rewrite fmap_cons. cbn [concat]. by rewrite fmap_app, concat_app, IH. }
  induction (concat (L @ i)) as [|d b IH]; [done|]. rewrite flat_share_cons, chunks_cons by (done || lia). cbn [take drop mapM_result].
  rewrite drop_0, IH. cbn. by destruct d.
Qed.

Lemma lift_bundles_u48_1d_spec D gs :
  tvec (tvec (dist_int u16)) D gs -> Forall (Forall in_range) gs -> job_fits gs ->
  proto (R := R) ids sid (fun i => lift_bundles_u48_1d (D @ i)) (fun out => tvec (tvec (dist_int Ring48)) out gs).
Proof.
  intros HD Hr Hn. eapply proto_bind; [by apply nhd_lift_distances_spec|]. intros l (L & -> & HL).
  eapply proto_ext; [|apply (proto_ret ids sid L); exact HL]. intros s i _. cbn beta. rewrite tget_fmap.
  replace (length <$> D @ i) with (length <$> L @ i).
  - pose proof (original_shape (fun b => b) lifted_u48_bundle 1 [] (L @ i) ltac:(intros; lia) lifted_u48_bundle_flat) as E.
    rewrite list_fmap_id in E. cbn [app length] in E. rewrite E. unfold liftr, mbind, M_bind. cbn. by rewrite Nat.eqb_refl.
  - by rewrite (tvec_tvec_lengths _ _ _ i HL), (tvec_tvec_lengths _ _ _ i HD).
Qed.
End LiftBundles.

(** ** Thresholds *)

(** A group is within a threshold when one of its distances is. *)
Definition fhd_group_within (terms : list Z) (k : nat) (g : list dist) : bool := existsb (fhd_within (nth k terms 0)) g.
Definition nhd_group_within (ts : list f64) (k : nat) (g : list dist) : bool := existsb (nhd_within (nth k ts (S754_zero false))) g.

(** Later thresholds accept more: the translated threshold falls as the ratio
    rises. *)
Definition terms_ok (terms : list Z) : Prop := Forall (fun a => 0 <= a <= B) terms /\ StronglySorted Z.ge terms.

Definition nhd_term (t : f64) : Z := f64_as_u64 (nhd_threshold_term t).
Definition nhd_terms_ok (ts : list f64) : Prop :=
  Forall (fun t => nhd_term t <= 2 ^ 21) ts /\ StronglySorted Z.le (nhd_term <$> ts).

Lemma sorted_step {A} (P : A -> A -> Prop) l (d : A) k : StronglySorted P l -> (S k < length l)%nat -> P (nth k l d) (nth (S k) l d).
Proof.
  intros H. revert k. induction H as [|x l Hs IH Hx]; intros k Hk; [cbn in Hk; lia|]. destruct k as [|k].
  - destruct l as [|y l]; [cbn in Hk; lia|]. by apply Forall_inv in Hx.
  - apply (IH k). cbn in Hk. lia.
Qed.

Lemma existsb_impl {A} (p q : A -> bool) l : Forall (fun x => p x = true -> q x = true) l -> existsb p l = true -> existsb q l = true.
Proof. induction 1 as [|x l Hx H IH]; [done|]. cbn. rewrite !orb_true_iff. intros [?|?]; [left|right]; auto. Qed.

Lemma fhd_group_nested terms g : terms_ok terms -> Forall ok_dist g -> nested (fhd_group_within terms) (length terms) g.
Proof.
  intros [_ Hs] Hg k Hk. apply existsb_impl. eapply Forall_impl; [exact Hg|]. intros d [_ Hd]. pose proof (sorted_step Z.ge terms 0 k Hs Hk).
  cbn beta. unfold fhd_within. rewrite !Z.ltb_lt. nia.
Qed.

Lemma nhd_group_nested ts g : nhd_terms_ok ts -> Forall ok_dist g -> nested (nhd_group_within ts) (length ts) g.
Proof.
  intros [_ Hs] Hg k Hk. apply existsb_impl. eapply Forall_impl; [exact Hg|]. intros d [_ Hd].
  pose proof (sorted_step Z.le (nhd_term <$> ts) (nhd_term (S754_zero false)) k Hs ltac:(by rewrite length_fmap)) as Hle.
  change (nth ?k (nhd_term <$> ts) (nhd_term ?t)) with (nth k (map nhd_term ts) (nhd_term t)) in Hle. rewrite !map_nth in Hle.
  cbn beta. unfold nhd_within, nhd_beyond. fold (nhd_term (nth k ts (S754_zero false))) (nhd_term (nth (S k) ts (S754_zero false))).
  rewrite !negb_true_iff, !Z.ltb_ge, !nhd_value_nmr. nia.
Qed.

Lemma mapM_result_length {A V} (f : A -> result V) l ys : mapM_result f l = Ok ys -> length ys = length l.
Proof.
  revert ys. induction l as [|x l IH]; intros ys; cbn [mapM_result]; [by intros [= <-]|].
  destruct (f x) as [y|]; [|done]. cbn [mbind result_bind]. destruct (mapM_result f l) as [zs|]; [|done]. cbn [mbind result_bind].
  intros [= <-]. cbn. by rewrite (IH zs).
Qed.

Lemma translated_length n ratio terms : calculate_iris_threshold_a n ratio = Ok terms -> length terms = n.
Proof. unfold calculate_iris_threshold_a. intros H. apply mapM_result_length in H. by rewrite H, length_seq. Qed.

Lemma fmap_nth {A V} (f : A -> V) (l : list A) d : f <$> l = (fun k => f (nth k l d)) <$> seq 0 (length l).
Proof.
  induction l as [|x l IH]; [done|]. cbn [length seq]. rewrite !fmap_cons, IH, <- fmap_S_seq, <- list_fmap_compose. done.
Qed.

(** The counts the protocols open are the cumulative counts of the groups. *)
Lemma groups_cumulative {A} (within : A -> dist -> bool) (terms : list A) d gs :
  (fun a => groups_with gs (within a)) <$> terms
  = cumulative_counts (fun k g => existsb (within (nth k terms d)) g) (length terms) gs.
Proof. apply (fmap_nth (fun a => groups_with gs (within a))). Qed.

(** ** One-dimensional jobs *)

(** The report a party should publish: bucket by bucket the number of groups
    whose nearest distance lies in the bucket. *)
Definition reported_1d (t0 t1 : Z) (config : AnonStatsServerConfig) (origin : AnonStatsOrigin) (operation : option AnonStatsOperation)
    (start_timestamp : option Z) (f : DistanceFunction) (ratio : f64) (n : nat) (within : nat -> list dist -> bool) (gs : list (list dist))
    : BucketStatistics :=
  mkStatistics (histogram_1d within n (uniform_limits ratio n) gs) n (length gs) (cfg_party_id config) (default Uniqueness operation)
    (side origin) f Aggregator (default t0 start_timestamp) (Some t1) (Some t1) (is_mirror origin).

Lemma report_1d_reported t0 t1 config origin operation start f ratio n within gs :
  Forall (nested within n) gs ->
  report_1d t0 t1 config origin operation start (length gs) n f ratio (cumulative_counts within n gs)
  = reported_1d t0 t1 config origin operation start f ratio n within gs.
Proof.
  intros Hn. pose proof (filled_buckets_histogram within n t1
    (with_mirror (statistics_new t0 (length gs) n (cfg_party_id config) (side origin) f Aggregator operation) (is_mirror origin)) ratio start gs Hn) as H.
  unfold reported_1d. cbn [n_buckets with_mirror statistics_new] in H. rewrite <- H. reflexivity.
Qed.

(** A party's job with its clock and its configuration. *)
Section Job1D.
Context {R : Rng} {HR : RngOk R} (ids : tri Identity) (sid : Z).
Context (t0 t1 : tri Z) (config : tri AnonStatsServerConfig) (origin : AnonStatsOrigin) (operation : option AnonStatsOperation)
  (start : option Z) (gs : list (list dist)).
Context (Hne : gs <> []) (Hg : Forall (fun g => g <> []) gs) (Hok : Forall (Forall ok_dist) gs) (Hn : batch_fits (length gs)).

Lemma process_1d_inner_spec n ratio terms D :
  (forall i, params_1d (config @ i) operation = (n, ratio)) -> calculate_iris_threshold_a n ratio = Ok terms -> terms_ok terms ->
  batch_fits (n * length gs) -> tvec (tvec (dist_int u32)) D gs ->
  proto (R := R) ids sid (fun i => process_1d_inner (t0 @ i) (t1 @ i) (config @ i) origin operation start (length gs) (D @ i))
    (fun out => forall i, out @ i = reported_1d (t0 @ i) (t1 @ i) (config @ i) origin operation start FHD ratio n (fhd_group_within terms) gs).
Proof.
  intros Hp Ht Hterms Hfit HD. pose proof (translated_length _ _ _ Ht) as Hl. rewrite <- Hl in Hfit.
  apply (proto_ext ids sid _ (fun i => shares ← compare_min_threshold_buckets terms (D @ i); buckets ← open_ring net_u32 shares;
    mret (report_1d (t0 @ i) (t1 @ i) (config @ i) origin operation start (length gs) n FHD ratio buckets))).
  { intros s i _. unfold process_1d_inner. rewrite Hp, Ht. unfold liftr, mbind, M_bind. done. }
  eapply proto_bind; [apply (compare_min_fhd_spec ids sid gs Hg Hok Hn D terms Hne); [apply Hterms|done..]|].
  intros shares Hs. eapply proto_bind; [exact (open_ring_spec ids sid net_u32 _ _ Hs)|]. intros b Hb.
  set (X := tof (fun i => reported_1d (t0 @ i) (t1 @ i) (config @ i) origin operation start FHD ratio n (fhd_group_within terms) gs)).
  eapply proto_ext; [|apply (proto_ret ids sid X); intros i; unfold X; by rewrite tget_tof].
  intros s i _. unfold X. rewrite tget_tof, Hb, (groups_cumulative fhd_within terms 0), Hl.
  rewrite report_1d_reported; [done|]. eapply Forall_impl; [exact Hok|]. intros g Hgok. rewrite <- Hl. by apply fhd_group_nested.
Qed.

Lemma process_1d_nhd_inner_spec n ratio D :
  let ts := calculate_iris_threshold_score_normalization n ratio in
  (forall i, params_1d_nhd (config @ i) operation = (n, ratio)) -> nhd_terms_ok ts ->
  batch_fits (n * length gs) -> tvec (tvec (dist_int Ring48)) D gs ->
  proto (R := R) ids sid
    (fun i => process_1d_anon_stats_score_normalization_inner (t0 @ i) (t1 @ i) (config @ i) origin operation start (length gs) (D @ i))
    (fun out => forall i, out @ i = reported_1d (t0 @ i) (t1 @ i) (config @ i) origin operation start NHD ratio n (nhd_group_within ts) gs).
Proof.
  intros ts Hp Hterms Hfit HD. assert (length ts = n) as Hl by (unfold ts, calculate_iris_threshold_score_normalization; by rewrite length_fmap, length_seq).
  rewrite <- Hl in Hfit.
  apply (proto_ext ids sid _ (fun i => shares ← compare_min_threshold_buckets_score_normalization ts (D @ i); buckets ← open_ring net_u32 shares;
    mret (report_1d (t0 @ i) (t1 @ i) (config @ i) origin operation start (length gs) n NHD ratio buckets))).
  { intros s i _. unfold process_1d_anon_stats_score_normalization_inner. by rewrite Hp. }
  eapply proto_bind; [apply (compare_min_nhd_spec ids sid gs Hg Hok Hn D ts Hne); [apply Hterms|done..]|].
  intros shares Hs. eapply proto_bind; [exact (open_ring_spec ids sid net_u32 _ _ Hs)|]. intros b Hb.
  set (X := tof (fun i => reported_1d (t0 @ i) (t1 @ i) (config @ i) origin operation start NHD ratio n (nhd_group_within ts) gs)).
  eapply proto_ext; [|apply (proto_ret ids sid X); intros i; unfold X; by rewrite tget_tof].
  intros s i _. unfold X. rewrite tget_tof, Hb, (groups_cumulative nhd_within ts (S754_zero false)), Hl.
  rewrite report_1d_reported; [done|]. eapply Forall_impl; [exact Hok|]. intros g Hgok. rewrite <- Hl. by apply nhd_group_nested.
Qed.
End Job1D.

Lemma job_length {T V} (P : tri T -> V -> Prop) (job : tri (AnonStatsMapping T)) xs i :
  tvec P (into_bundles <$> job) xs -> mapping_len (job @ i) = length xs.
Proof. intros H. rewrite <- (tvec_length _ _ _ i H), tget_fmap. unfold into_bundles, mapping_len. by rewrite length_fmap. Qed.

Lemma groups_in_range gs : Forall (Forall ok_dist) gs -> Forall (Forall in_range) gs.
Proof. intros H. eapply Forall_impl; [exact H|]. intros g Hg. eapply Forall_impl; [exact Hg|]. by intros d [? _]. Qed.

(** ** Claims *)

(** C12: The one-dimensional statistics are exact, for the fractional and for the
    normalized Hamming distance.  From 16-bit shares of the dot products of
    groups of distances, every party that runs the job publishes the histogram
    of the groups: bucket [k] counts the groups whose nearest distance is within
    threshold [k] and not within threshold [k - 1], no more and no less, with
    the metadata of the job.  The thresholds are those the code computes in
    double precision, of which only the order is assumed. *)
Theorem process_1d_correct (R : Rng) `{!RngOk R} ids sid (t0 t1 : tri Z) (config : tri AnonStatsServerConfig) origin operation start
    (job : tri (AnonStatsMapping DistanceBundle1D)) (gs : list (list dist)) n ratio terms n' ratio' :
  gs <> [] -> Forall (fun g => g <> []) gs -> Forall (Forall ok_dist) gs -> tvec (tvec (dist_int u16)) (into_bundles <$> job) gs ->
  batch_fits (length gs) -> batch_fits (n * length gs) -> batch_fits (n' * length gs) -> job_fits gs ->
  (forall i, params_1d (config @ i) operation = (n, ratio)) -> (forall i, params_1d_nhd (config @ i) operation = (n', ratio')) ->
  calculate_iris_threshold_a n ratio = Ok terms -> terms_ok terms ->
  nhd_terms_ok (calculate_iris_threshold_score_normalization n' ratio') ->
  proto (R := R) ids sid (fun i => process_1d_anon_stats_job (t0 @ i) (t1 @ i) (config @ i) origin operation start (job @ i))
    (fun out => forall i, out @ i
       = reported_1d (t0 @ i) (t1 @ i) (config @ i) origin operation start FHD ratio n (fhd_group_within terms) gs) /\
  proto (R := R) ids sid (fun i => process_1d_anon_stats_score_normalization_job (t0 @ i) (t1 @ i) (config @ i) origin operation start (job @ i))
    (fun out => forall i, out @ i
       = reported_1d (t0 @ i) (t1 @ i) (config @ i) origin operation start NHD ratio' n'
           (nhd_group_within (calculate_iris_threshold_score_normalization n' ratio')) gs).
Proof.
  intros Hne Hg Hok HD Hn Hf Hf' Hj Hp Hp' Ht Hterms Hts. pose proof (groups_in_range gs Hok) as Hr.
  assert (forall i, into_bundles (job @ i) = (into_bundles <$> job) @ i) as Hb by (intros i; by rewrite tget_fmap).
  split.
  - eapply (proto_bind ids sid (fun i => lift_bundles_1d (into_bundles (job @ i)))).
    { eapply proto_ext; [|by apply (lift_bundles_1d_spec ids sid _ _ HD)]. intros s i _. cbn beta. by rewrite Hb. }
    intros L HL. cbn beta. eapply proto_ext; [|by apply (process_1d_inner_spec ids sid t0 t1 config origin operation start gs Hne Hg Hok Hn n ratio terms L)].
    intros s i _. cbn beta. by rewrite (job_length _ _ _ i HD).
  - eapply (proto_bind ids sid (fun i => lift_bundles_u48_1d (into_bundles (job @ i)))).
    { eapply proto_ext; [|by apply (lift_bundles_u48_1d_spec ids sid _ _ HD)]. intros s i _. cbn beta. by rewrite Hb. }
    intros L HL. cbn beta. eapply proto_ext; [|by apply (process_1d_nhd_inner_spec ids sid t0 t1 config origin operation start gs Hne Hg Hok Hn n' ratio' L)].
    intros s i _. cbn beta. by rewrite (job_length _ _ _ i HD).
Qed.

(** The default numbers of buckets. *)
Definition demo_config : AnonStatsServerConfig :=
  mkConfig 0 10 20 10 15 (f64_div (f64_of_int 4) (f64_of_int 10)) 400 400 [-100; 0; 100] [-100; 0; 100].

Definition ordered (P : Z -> Z -> bool) (l : list Z) : bool := forallb (fun '(x, y) => P x y) (zip l (tail l)).

Lemma ordered_sorted (P : Z -> Z -> bool) (Q : Z -> Z -> Prop) l :
  (forall x y, P x y = true -> Q x y) -> (forall x y z, Q x y -> Q y z -> Q x z) -> ordered P l = true -> StronglySorted Q l.
Proof.
  intros HP HQ H. apply Sorted_StronglySorted; [exact HQ|]. induction l as [|x l IH]; [constructor|]. destruct l as [|y l]; [repeat constructor|].
  unfold ordered in H. cbn in H. apply andb_true_iff in H as [H1 H2]. constructor; [by apply IH|]. constructor. auto.
Qed.

Lemma terms_ok_check terms : forallb (fun a => (0 <=? a) && (a <=? B)) terms && ordered Z.geb terms = true -> terms_ok terms.
Proof.
  intros [H1 H2]%andb_true_iff. split.
  - apply Forall_forall. intros a Ha. rewrite forallb_forall in H1. specialize (H1 a (proj1 (list_elem_of_In _ _) Ha)). lia.
  - eapply ordered_sorted; [..|exact H2]; intros; lia.
Qed.

Lemma nhd_terms_ok_check ts : forallb (fun t => nhd_term t <=? 2 ^ 21) ts && ordered Z.leb (nhd_term <$> ts) = true -> nhd_terms_ok ts.
Proof.
  intros [H1 H2]%andb_true_iff. split.
  - apply Forall_forall. intros a Ha. rewrite forallb_forall in H1. specialize (H1 a (proj1 (list_elem_of_In _ _) Ha)). lia.
  - eapply ordered_sorted; [..|exact H2]; intros; lia.
Qed.

(** The thresholds of the default configuration, and of 375 buckets, are in
    order: 10, 20 for reauthentication, 400 for the normalized distance. *)
Lemma default_terms_ok :
  (exists terms, calculate_iris_threshold_a 10 MATCH_THRESHOLD_RATIO = Ok terms /\ terms_ok terms) /\
  (exists terms, calculate_iris_threshold_a 375 MATCH_THRESHOLD_RATIO = Ok terms /\ terms_ok terms) /\
  (exists terms, calculate_iris_threshold_a 20 MATCH_THRESHOLD_RATIO_REAUTH = Ok terms /\ terms_ok terms) /\
  nhd_terms_ok (calculate_iris_threshold_score_normalization 20 MATCH_THRESHOLD_RATIO_REAUTH) /\
  nhd_terms_ok (calculate_iris_threshold_score_normalization 400 (nhd_threshold_ratio demo_config)).
Proof.
  split_and!; [eexists; split; [vm_compute; reflexivity|apply terms_ok_check; vm_compute; reflexivity]..| |];
    apply nhd_terms_ok_check; vm_compute; reflexivity.
Qed.

Definition demo_job : tri (AnonStatsMapping DistanceBundle1D) :=
  tof (fun i => mapping_new (zip [3; 7; 9] ((deal_groups u16) @ i))).

Lemma demo_job_holds : tvec (tvec (dist_int u16)) (into_bundles <$> demo_job) demo_groups.
Proof.
  assert (into_bundles <$> demo_job = deal_groups u16) as -> by (vm_compute; reflexivity). apply deal_groups_hold. exact _.
Qed.

Lemma demo_groups_ok : Forall (Forall ok_dist) demo_groups.
Proof. repeat (apply Forall_cons_2; [repeat (apply Forall_cons_2; [vm_compute; done|]); apply Forall_nil_2|]). apply Forall_nil_2. Qed.

Lemma process_1d_correct_witness :
  exists within within',
    proto (R := counter_rng) demo_ids 4 (fun i => process_1d_anon_stats_job 5 6 demo_config (mkOrigin (Some LeftEye) Normal HNSW) None None (demo_job @ i))
      (fun out => forall i, out @ i = reported_1d 5 6 demo_config (mkOrigin (Some LeftEye) Normal HNSW) None None FHD MATCH_THRESHOLD_RATIO 10 within demo_groups) /\
    proto (R := counter_rng) demo_ids 4
      (fun i => process_1d_anon_stats_score_normalization_job 5 6 demo_config (mkOrigin (Some LeftEye) Normal HNSW) None None (demo_job @ i))
      (fun out => forall i, out @ i = reported_1d 5 6 demo_config (mkOrigin (Some LeftEye) Normal HNSW) None None NHD
         (nhd_threshold_ratio demo_config) 400 within' demo_groups) /\
    (count <$> histogram_1d within 10 (uniform_limits MATCH_THRESHOLD_RATIO 10) demo_groups) = [1; 0; 0; 0; 0; 0; 1; 0; 0; 0].
Proof.
  destruct (calculate_iris_threshold_a 10 MATCH_THRESHOLD_RATIO) as [terms|] eqn:E; [|vm_compute in E; discriminate].
  assert (terms_ok terms) as Ht.
  { apply terms_ok_check. vm_compute in E. injection E as <-. vm_compute. reflexivity. }
  assert (nhd_terms_ok (calculate_iris_threshold_score_normalization 400 (nhd_threshold_ratio demo_config))) as Hts
    by (apply nhd_terms_ok_check; vm_compute; reflexivity).
  exists (fhd_group_within terms), (nhd_group_within (calculate_iris_threshold_score_normalization 400 (nhd_threshold_ratio demo_config))).
  destruct (process_1d_correct counter_rng demo_ids 4 (tof (fun _ => 5)) (tof (fun _ => 6)) (tof (fun _ => demo_config))
    (mkOrigin (Some LeftEye) Normal HNSW) None None demo_job demo_groups 10 MATCH_THRESHOLD_RATIO terms 400 (nhd_threshold_ratio demo_config))
    as [H1 H2];
    [discriminate|clear; by repeat constructor|exact demo_groups_ok|exact demo_job_holds|clear; vm_compute; done..|intros []; vm_compute; reflexivity|intros []; vm_compute; reflexivity|exact E|exact Ht|exact Hts|].
  split_and!.
  - eapply proto_mono; [|eapply proto_ext; [|exact H1]]; [intros out Ho i; specialize (Ho i); by destruct i|intros s i _; by destruct i].
  - eapply proto_mono; [|eapply proto_ext; [|exact H2]]; [intros out Ho i; specialize (Ho i); by destruct i|intros s i _; by destruct i].
  - vm_compute in E. injection E as <-. vm_compute. reflexivity.
Defined.
