(* ===== verification/AnonJobs2D.v ===== *)
(** * Two-dimensional and face statistics: [anon_stats/iris_2d.rs] and
    [anon_stats/face.rs]

    For pairs of distances the parties multiply the comparison bits of the two
    sides locally and open only the sums, one per pair of thresholds, masked by
    fresh shares of zero. *)

From S2P Require Import Prelude IntRing RingImpl Party Share VecShare Transpose Value Net Prf Proto Circuits Binary Adder Inject Convert Lift Ops Select F64 Compare Buckets AnonJobs.
From stdpp Require Import option base list numbers strings gmap.
From Stdlib Require Import ZArith Lia SpecFloat Sorted.
Local Open Scope Z_scope.

(** ** Definitions *)

(* iris_2d.rs:113-115 process_2d_inner (sum of products) *)
Definition product_sum (left_chunk right_chunk : list Share) : Z :=
  foldl (fun acc x => acc +[u32] x) 0 (zip_with (share_mul u32) left_chunk right_chunk).

(** The two loops over chunks, in order; [bucket_ids] counts the cells. *)
(* iris_2d.rs:106-120 process_2d_inner (outer product) *)
Fixpoint outer_product (chunk_pairs : list (list Share * list Share)) (bucket_ids : nat) (bucket_shares : list Z) : result (list Z) :=
  match chunk_pairs with
  | [] => Ok bucket_shares
  | (left_chunk, right_chunk) :: rest =>
      if negb (length left_chunk =? length right_chunk)%nat
      then panic "assertion failed: left_chunk.len() == right_chunk.len()" else
      b ← index bucket_shares bucket_ids;
      bucket_shares ← set_index bucket_shares bucket_ids (b +[u32] product_sum left_chunk right_chunk);
      outer_product rest (bucket_ids + 1) bucket_shares
  end.

Section Jobs2D.
Context {R : Rng}.

(* iris_2d.rs:98-104 process_2d_inner (shares of zero) *)
Fixpoint zero_bucket_shares (n : nat) : M R (list Z) :=
  match n with
  | O => mret []
  | S n =>
      z ← with_rng (gen_zero_share R u32);
      rest ← zero_bucket_shares n;
      mret (0 +[u32] z :: rest)
  end.

(* iris_2d.rs:95-122 process_2d_inner (combining both sides) *)
Definition combine_comparisons (job_size num_buckets : nat) (comparisons_left comparisons_right : list Share) : M R (list Z) :=
  bucket_shares ← zero_bucket_shares (num_buckets * num_buckets);
  bucket_shares ← liftr (if (job_size =? 0)%nat then Ok bucket_shares else
    outer_product (lc ← chunks job_size comparisons_left; rc ← chunks job_size comparisons_right; [(lc, rc)]) 0 bucket_shares);
  open_ring_element_broadcast net_u32 bucket_shares.

Definition with_mirror_2d (s : BucketStatistics2D) (b : bool) (rate : option Z) : BucketStatistics2D :=
  mkStatistics2D (buckets_2d s) (n_buckets_per_side s) (match_distances_buffer_size_2d s) (party_id_2d s) (operation_2d s)
    (distance_function_2d s) (source_2d s) (start_time_utc_timestamp_2d s) (end_time_utc_timestamp_2d s) (next_start_time_utc_timestamp_2d s) b
    (left_opposite_mirror_match s) (right_opposite_mirror_match s) rate.

(* iris_2d.rs:37-50 lift_bundles_2d *)
Definition lift_bundles_2d (bundles : list DistanceBundle2D) : M R (list DistanceBundle2D) :=
  lifted_left ← lift_bundles_1d (fst <$> bundles);
  lifted_right ← lift_bundles_1d (snd <$> bundles);
  mret (zip lifted_left lifted_right).

Section Clock.
Context (t0 t1 : Z) (config : AnonStatsServerConfig) (origin : AnonStatsOrigin) (operation : option AnonStatsOperation)
  (start_timestamp : option Z).

(* iris_2d.rs:63-70 process_2d_inner (buckets and threshold) *)
Definition params_2d : nat * f64 :=
  match operation with
  | Some Reauth => (n_buckets_2d_reauth config, MATCH_THRESHOLD_RATIO_REAUTH)
  | None | Some Uniqueness | Some Recovery => (n_buckets_2d config, MATCH_THRESHOLD_RATIO)
  end.

(* iris_2d.rs:217-224 process_2d_anon_stats_score_normalization_inner (buckets and threshold) *)
Definition params_2d_nhd : nat * f64 :=
  match operation with
  | Some Reauth => (n_buckets_2d_reauth config, MATCH_THRESHOLD_RATIO_REAUTH)
  | None | Some Uniqueness | Some Recovery => (n_buckets_2d_nhd config, nhd_threshold_ratio config)
  end.

(* iris_2d.rs:123-135 process_2d_inner (report) *)
Definition report_2d (job_size num_buckets : nat) (f : DistanceFunction) (upper_threshold : f64) (buckets : list Z) : BucketStatistics2D :=
  fill_buckets_2d t1
    (with_mirror_2d (statistics_2d_new t0 job_size num_buckets (cfg_party_id config) f Aggregator operation None None) (is_mirror origin) None)
    buckets upper_threshold start_timestamp.

(* iris_2d.rs:53-136 process_2d_inner *)
Definition process_2d_inner (job_size : nat) (lifted_left lifted_right : list DistanceBundle1D) : M R BucketStatistics2D :=
  let '(num_buckets, upper_threshold) := params_2d in
  translated_thresholds ← liftr (calculate_iris_threshold_a num_buckets upper_threshold);
  lifted_min_left ← reduce_to_min_distance_batch lifted_left;
  lifted_min_right ← reduce_to_min_distance_batch lifted_right;
  comparisons_left ← compare_against_thresholds_batched translated_thresholds lifted_min_left;
  comparisons_right ← compare_against_thresholds_batched translated_thresholds lifted_min_right;
  buckets ← combine_comparisons job_size num_buckets comparisons_left comparisons_right;
  mret (report_2d job_size num_buckets FHD upper_threshold buckets).

(* iris_2d.rs:138-173 process_2d_anon_stats_job *)
Definition process_2d_anon_stats_job (job : AnonStatsMapping DistanceBundle2D) : M R BucketStatistics2D :=
  lifted_left ← lift_bundles_1d (fst <$> into_bundles job);
  lifted_right ← lift_bundles_1d (snd <$> into_bundles job);
  process_2d_inner (mapping_len job) lifted_left lifted_right.

(* iris_2d.rs:175-204 process_2d_lifted_anon_stats_job *)
Definition process_2d_lifted_anon_stats_job (job : AnonStatsMapping DistanceBundle2D) : M R BucketStatistics2D :=
  process_2d_inner (mapping_len job) (fst <$> into_bundles job) (snd <$> into_bundles job).

(* iris_2d.rs:207-291 process_2d_anon_stats_score_normalization_inner *)
Definition process_2d_anon_stats_score_normalization_inner (job_size : nat) (lifted_left lifted_right : list DistanceBundle1D)
    : M R BucketStatistics2D :=
  let '(num_buckets, upper_threshold) := params_2d_nhd in
  let translated_thresholds := calculate_iris_threshold_score_normalization num_buckets upper_threshold in
  lifted_min_left ← nhd_reduce_to_min_distance_batch lifted_left;
  lifted_min_right ← nhd_reduce_to_min_distance_batch lifted_right;
  comparisons_left ← nhd_compare_against_thresholds_batched translated_thresholds lifted_min_left;
  comparisons_right ← nhd_compare_against_thresholds_batched translated_thresholds lifted_min_right;
  buckets ← combine_comparisons job_size num_buckets comparisons_left comparisons_right;
  mret (report_2d job_size num_buckets NHD upper_threshold buckets).

(* iris_2d.rs:293-326 process_2d_anon_stats_score_normalization_job *)
Definition process_2d_anon_stats_score_normalization_job (job : AnonStatsMapping DistanceBundle2D) : M R BucketStatistics2D :=
  lifted_left ← lift_bundles_u48_1d (fst <$> into_bundles job);
  lifted_right ← lift_bundles_u48_1d (snd <$> into_bundles job);
  process_2d_anon_stats_score_normalization_inner (mapping_len job) lifted_left lifted_right.

(* iris_2d.rs:328-355 process_2d_lifted_anon_stats_score_normalization_job *)
Definition process_2d_lifted_anon_stats_score_normalization_job (job : AnonStatsMapping DistanceBundle2D) : M R BucketStatistics2D :=
  process_2d_anon_stats_score_normalization_inner (mapping_len job) (fst <$> into_bundles job) (snd <$> into_bundles job).

(** [i16 as u16]; one bit per distance, set when it is below the threshold. *)
(* iris_2d.rs:367-372 compare_against_thresholds_di (one threshold) *)
Definition compare_below (threshold : Z) (distances : list Share) : M R (list Share) :=
  s ← get;
  shifted ← liftr (mapM_result (fun share => sub_pub u16 (own_role (network_session s)) share (threshold mod 2 ^ 16)) distances);
  bits ← extract_msb_batch net_u16 (HTr := Transpose64_u16) shifted;
  bit_inject net_u32 bits.

(* iris_2d.rs:365-374 compare_against_thresholds_di (loop) *)
Fixpoint compare_di_loop (thresholds : list Z) (distances : list Share) (comparisons : list Share) : M R (list Share) :=
  match thresholds with
  | [] => mret comparisons
  | threshold :: thresholds =>
      injected ← compare_below threshold distances;
      compare_di_loop thresholds distances (comparisons ++ injected)
  end.

(* iris_2d.rs:360-376 compare_against_thresholds_di *)
Definition compare_against_thresholds_di (thresholds : list Z) (distances : list Share) : M R (list Share) :=
  compare_di_loop thresholds distances [].

(* iris_2d.rs:432-446 process_di_2d_anon_stats_job (report) *)
Definition report_di (job_size : nat) (thresholds : list Z) (rate : Z) (lm rm : bool) (buckets : list Z) : BucketStatistics2D :=
  fill_buckets_di t1
    (with_mirror_2d (statistics_2d_new t0 job_size (length thresholds) (cfg_party_id config) QuantizedCosine Aggregator operation (Some lm) (Some rm))
       (is_mirror origin) (Some rate))
    buckets thresholds start_timestamp.

(* iris_2d.rs:378-447 process_di_2d_anon_stats_job *)
Definition process_di_2d_anon_stats_job (job : AnonStatsMapping (Share * Share)) (sampling_rate : Z) (left_mirror right_mirror : bool)
    : M R BucketStatistics2D :=
  let thresholds := di_2d_bucket_thresholds config in
  comparisons_left ← compare_against_thresholds_di thresholds (fst <$> into_bundles job);
  comparisons_right ← compare_against_thresholds_di thresholds (snd <$> into_bundles job);
  buckets ← combine_comparisons (mapping_len job) (length thresholds) comparisons_left comparisons_right;
  mret (report_di (mapping_len job) thresholds sampling_rate left_mirror right_mirror buckets).

(* face.rs:49-64 process_face_distance_job (sums) *)
Fixpoint face_sums (thresholds : list Z) (job : list Share) (buckets : list Share) : M R (list Share) :=
  match thresholds with
  | [] => mret buckets
  | threshold :: thresholds =>
      sums ← compare_below threshold job;
      face_sums thresholds job (buckets ++ [foldl (share_add u32) (share_zero u32) sums])
  end.

(** Consecutive pairs of [(bucket, threshold)]; the counts are [usize]s, whose
    difference wraps around. *)
(* face.rs:84-95 process_face_distance_job (buckets) *)
Definition face_buckets (buckets_opened thresholds : list Z) : result (list BucketResult) :=
  if negb (length buckets_opened =? length thresholds)%nat
  then panic "itertools: .zip_eq() reached end of one iterator before the other" else
  let entries := zip buckets_opened thresholds in
  Ok ((fun '((bucket, threshold), (bucket_end, threshold_end)) =>
         mkBucket ((bucket_end - bucket) mod 2 ^ 64) (f64_of_int threshold, f64_of_int threshold_end)) <$> zip entries (tail entries)).

(* face.rs:38-100 process_face_distance_job *)
Definition process_face_distance_job (job : list Share) : M R BucketStatistics :=
  let thresholds := face_bucket_thresholds config in
  buckets ← face_sums thresholds job [];
  buckets_opened ← open_ring net_u32 buckets;
  let stats := statistics_new t0 (length job) (length thresholds) (cfg_party_id config) None HD Aggregator operation in
  bs ← liftr (face_buckets buckets_opened thresholds);
  mret (mkStatistics bs (n_buckets stats) (match_distances_buffer_size stats) (party_id stats) (Buckets.operation stats) (eye stats)
    (distance_function stats) (source stats) (default t0 start_timestamp) (Some t1) (next_start_time_utc_timestamp stats)
    (is_mirror_orientation stats)).
End Clock.
End Jobs2D.

(** ** Sums of products *)

Section Sums.
Context {T : IntRing2k} {HT : IntRing2kOk T}.

Lemma add3_int_zero : add3_int (T:=T) (tof (fun _ => 0)) 0.
Proof.
  split; [intros i; rewrite tget_tof; apply (valid_mod (T:=T) 0)|]. unfold sum3. cbn. done.
Qed.

Lemma add3_int_add c d x y : add3_int (T:=T) c x -> add3_int (T:=T) d y -> add3_int (T:=T) (tmap2 (re_add T) c d) (x + y).
Proof.
  intros [Hc Ex] [Hd Ey]. unfold tmap2. split; [intros i; rewrite tget_tof; by apply re_add_valid|].
  unfold sum3 in *. cbn. symmetry. apply valid_eq_mod; [apply valid_mod|].
  rewrite ceq_mod, <- (ceq_mod _ x), <- (ceq_mod _ y), <- Ex, <- Ey, !ceq_mod. ring_ceq.
Qed.
End Sums.

(** The sum of the products, shared by one component per party. *)
Lemma product_sum_spec L xs Rr ys :
  tvec (shares_int u32) L xs -> tvec (shares_int u32) Rr ys ->
  add3_int (T:=u32) (tof (fun i => product_sum (L @ i) (Rr @ i))) (foldr Z.add 0 (zip_with Z.mul xs ys)).
Proof.
  intros HL HR. pose proof (tvec_zip (shares_int u32) (shares_int u32) (add3_int (T:=u32)) (fun _ => share_mul u32) Z.mul L xs Rr ys
    (fun s x r y Hs Hr => add3_int_mul (T:=u32) s r x y Hs Hr) HL HR) as H.
  assert (forall v zs a x, tvec (add3_int (T:=u32)) v zs -> add3_int (T:=u32) a x ->
    add3_int (T:=u32) (tof (fun i => foldl (fun acc x => acc +[u32] x) (a @ i) (v @ i))) (x + foldr Z.add 0 zs)) as Hfold.
  { clear. intros v zs a x Hv. revert a x. induction Hv as [|s v z zs Hs Hv IH]; intros a x Ha.
    - cbn. rewrite Z.add_0_r. by destruct a.
    - specialize (IH _ _ (add3_int_add (T:=u32) _ _ _ _ Ha Hs)). cbn [foldr]. rewrite Z.add_assoc. by destruct a, s, v. }
  pose proof (Hfold _ _ _ _ H (add3_int_zero (T:=u32))) as G. rewrite Z.add_0_l in G. destruct L, Rr. exact G.
Qed.

Lemma sum_both {D E} (p : D -> bool) (q : E -> bool) ls rs :
  length ls = length rs ->
  foldr Z.add 0 (zip_with Z.mul (Z.b2z <$> (p <$> ls)) (Z.b2z <$> (q <$> rs))) = number (both p q) (zip ls rs).
Proof.
  revert rs. induction ls as [|l ls IH]; intros [|r rs] Hl; try done. rewrite !fmap_cons. cbn [zip_with foldr zip].
  rewrite number_cons, IH by (cbn in Hl; lia). unfold both. cbn. by destruct (p l), (q r).
Qed.

Lemma number_le {D} (p : D -> bool) ds : number p ds <= Z.of_nat (length ds).
Proof. induction ds as [|d ds IH]; [done|]. rewrite number_cons. cbn [length]. destruct (p d); lia. Qed.

(** ** Cells *)

Definition pairs {A C} (xs : list A) (ys : list C) : list (A * C) := x ← xs; y ← ys; [(x, y)].

Lemma pairs_cons {A C} (x : A) xs (ys : list C) : pairs (x :: xs) ys = (pair x <$> ys) ++ pairs xs ys.
Proof. unfold pairs. rewrite bind_cons. f_equal. Qed.

Lemma length_pairs {A C} (xs : list A) (ys : list C) : length (pairs xs ys) = (length xs * length ys)%nat.
Proof. induction xs as [|x xs IH]; [done|]. rewrite pairs_cons, length_app, length_fmap, IH. done. Qed.

Lemma pairs_fmap {A C A' C'} (f : A -> A') (g : C -> C') xs ys :
  pairs (f <$> xs) (g <$> ys) = (fun '(x, y) => (f x, g y)) <$> pairs xs ys.
Proof.
  induction xs as [|x xs IH]; [done|]. rewrite fmap_cons, !pairs_cons, fmap_app, IH. f_equal.
  rewrite <- !list_fmap_compose. done.
Qed.

(** Row-major order. *)
Lemma pairs_seq n : pairs (seq 0 n) (seq 0 n) = (fun idx => (idx / n, idx mod n)%nat) <$> seq 0 (n * n).
Proof.
  assert (forall m, (m <= n)%nat -> pairs (seq 0 m) (seq 0 n) = (fun idx => (idx / n, idx mod n)%nat) <$> seq 0 (m * n)) as H; [|by apply H].
  induction m as [|m IH]; intros Hm; [done|]. rewrite seq_S, Nat.mul_succ_l, seq_app, fmap_app, <- IH by lia. cbn [Nat.add].
  assert (forall (l : list nat) x, pairs (l ++ [x]) (seq 0 n) = pairs l (seq 0 n) ++ (pair x <$> seq 0 n)) as ->.
  { intros l x. induction l as [|y l IHl]; [by rewrite app_nil_l, pairs_cons, app_nil_r|]. cbn [app]. by rewrite !pairs_cons, IHl, app_assoc. }
  f_equal.
  apply list_eq. intros k. rewrite !list_lookup_fmap. destruct (decide (k < n)%nat) as [Hk|Hk].
  - rewrite !lookup_seq_lt by done. cbn. destruct (cell_index n m k ltac:(lia) Hk) as [-> ->]. done.
  - rewrite !lookup_seq_ge by lia. done.
Qed.

Lemma tvec_pairs {A V A' V'} (P : tri A -> V -> Prop) (Q : tri A' -> V' -> Prop) v xs w ys :
  tvec P v xs -> tvec Q w ys ->
  tvec (fun t xy => P (fst <$> t) xy.1 /\ Q (snd <$> t) xy.2) (tof (fun i => pairs (v @ i) (w @ i))) (pairs xs ys).
Proof.
  intros Hv Hw. induction Hv as [|s v x xs Hs Hv IH]; [constructor|]. rewrite pairs_cons.
  assert (tvec (fun t xy => P (fst <$> t) xy.1 /\ Q (snd <$> t) xy.2) (tof (fun i => pair (s @ i) <$> w @ i)) (pair x <$> ys)) as H1.
  { apply (tvec_map Q _ (fun i => pair (s @ i)) (pair x)); [|done]. intros r y Hr. split; [by destruct s|by destruct r]. }
  refine (eq_ind _ (fun u => tvec _ u _) (tvec_app _ _ _ _ _ H1 IH) _ _). apply tri_ext. intros i.
  unfold tapp. rewrite !tget_tof. unfold tcons. by rewrite tget_tof, pairs_cons.
Qed.

Lemma outer_product_ok pre cur ps k :
  k = length pre -> length cur = length ps -> Forall (fun p => length (p.1) = length (p.2)) ps ->
  outer_product ps k (pre ++ cur) = Ok (pre ++ zip_with (fun b p => b +[u32] product_sum p.1 p.2) cur ps).
Proof.
  intros -> Hl Hp. revert pre cur Hl. induction Hp as [|[l r] ps Hlr Hp IH]; intros pre cur Hl.
  - destruct cur; [|done]. done.
  - destruct cur as [|b cur]; [done|]. cbn [outer_product]. cbn in Hlr. rewrite Hlr, Nat.eqb_refl. cbn [negb].
    rewrite (index_lookup _ _ b) by (by apply list_lookup_middle). cbn [mbind result_bind].
    rewrite set_index_ok by (rewrite length_app; cbn; lia). cbn [mbind result_bind]. rewrite insert_app_r_alt, Nat.sub_diag by lia. cbn [insert list_insert].
    rewrite (cons_middle _ pre cur). rewrite app_assoc.
    replace (length pre + 1)%nat with (length (pre ++ [b +[u32] product_sum l r])) by (rewrite length_app; cbn; lia).
    rewrite IH by (cbn in Hl; lia). rewrite <- app_assoc. done.
Qed.

Section Combine.
Context {R : Rng} {HR : RngOk R} (ids : tri Identity) (sid : Z).

(** Neighbours subtract what the other adds. *)
Lemma proto_zero_share (T : IntRing2k) `{!IntRing2kOk T} :
  proto (R := R) ids sid (fun _ => with_rng (gen_zero_share R T)) (fun z => add3 T z 0).
Proof.
  intros s [Hn Hp]. apply exec_with_rng. split; [done|].
  set (r := tof (fun i => (gen R T (my_prf (prf (s @ i)))).1)).
  assert (forall i, gen_zero_share R T (prf (s @ i))
    = (r @ i ⊖[T] r @ (prev_id i), mkPrf (gen R T (my_prf (prf (s @ i)))).2 (gen R T (my_prf (prf (s @ (prev_id i))))).2)) as He.
  { intros i. unfold gen_zero_share, gen_rands, r. rewrite !tget_tof. pose proof (Hp (prev_id i)) as Hi. rewrite next_prev in Hi. rewrite Hi.
    destruct (gen R T (my_prf (prf (s @ i)))). cbn. by destruct (gen R T (prev_prf (prf (s @ i)))). }
  split.
  - split; [intros i; rewrite tget_tof; apply Hn|]. intros i. rewrite !tget_tof, !He. cbn. by rewrite prev_next.
  - assert (valid3 T r) as Hr by (intros i; unfold r; rewrite tget_tof; by apply rng_gen_valid). split.
    + intros i. rewrite tget_tof, He. cbn [fst]. apply re_sub_valid; apply Hr.
    + unfold sum3. cbn [tof at0 at1 at2]. rewrite !He. cbn [fst prev_id]. symmetry. apply ceq_mod_small; [apply (valid_b2z false)|]. ring_ceq.
Qed.

Lemma zero_bucket_shares_spec n :
  proto (R := R) ids sid (fun _ => zero_bucket_shares n) (fun z => tvec (add3_int (T:=u32)) z (replicate n 0)).
Proof.
  induction n as [|n IH]; [apply (proto_ret ids sid tnil); constructor|]. cbn [zero_bucket_shares replicate].
  eapply proto_bind; [apply (proto_zero_share u32)|]. intros z Hz. eapply proto_bind; [exact IH|]. intros rest Hrest.
  eapply proto_ext; [|apply (proto_ret ids sid (tcons (tmap2 (re_add u32) (tof (fun _ => 0)) z) rest)); constructor; [|done]].
  - intros s i _. cbn beta. unfold tcons, tmap2. by rewrite !tget_tof.
  - apply (add3_int_add (T:=u32) _ _ 0 0); [apply add3_int_zero|exact Hz].
Qed.

(** The local part: cell by cell, components of the number of pairs both of
    whose bits are set. *)
Lemma outer_product_spec {D E X Y} (pl : X -> D -> bool) (pr : Y -> E -> bool) xs ys (ls : list D) (rs : list E) z CL CR :
  length ls = length rs -> (0 < length ls)%nat -> Z.of_nat (length ls) < 2 ^ 32 ->
  tvec (add3_int (T:=u32)) z (replicate (length (pairs xs ys)) 0) ->
  tvec (shares_add u32) CL (concat ((fun x => (fun d => Z.b2z (pl x d)) <$> ls) <$> xs)) ->
  tvec (shares_add u32) CR (concat ((fun y => (fun d => Z.b2z (pr y d)) <$> rs) <$> ys)) ->
  exists w, (forall i, outer_product (pairs (chunks (length ls) (CL @ i)) (chunks (length ls) (CR @ i))) 0 (z @ i) = Ok (w @ i)) /\
    tvec (add3_int (T:=u32)) w ((fun '(x, y) => number (both (pl x) (pr y)) (zip ls rs)) <$> pairs xs ys).
Proof.
  intros Hlr Hpos Hb Hz HL HRr.
  apply (tvec_chunks _ (length ls)) in HL; [|done|apply Forall_fmap, Forall_true; intros x; cbn; by rewrite length_fmap].
  apply (tvec_chunks _ (length ls)) in HRr; [|done|apply Forall_fmap, Forall_true; intros x; cbn; by rewrite length_fmap].
  pose proof (tvec_pairs _ _ _ _ _ _ HL HRr) as HP. rewrite pairs_fmap in HP. apply (proj1 (tvec_fmap_r _ _ _ _)) in HP.
  set (W := tof (fun i => zip_with (fun b p => b +[u32] product_sum p.1 p.2) (z @ i) (pairs (chunks (length ls) (CL @ i)) (chunks (length ls) (CR @ i))))).
  exists W. split.
  - intros i. unfold W. rewrite tget_tof. apply (outer_product_ok [] (z @ i)); [done| |].
    + pose proof (tvec_length _ _ _ i HP) as H1. rewrite tget_tof, !tget_fmap in H1. rewrite (tvec_length _ _ _ i Hz), length_replicate. by symmetry.
    + apply Forall_lookup. intros k p Hk. pose proof (tvec_length _ _ _ i HP) as H1. rewrite tget_tof, !tget_fmap in H1.
      destruct (lookup_lt_is_Some_2 (pairs xs ys) k) as [xy Hxy]; [rewrite <- H1; by eapply lookup_lt_Some|].
      destruct (tvec_lookup _ _ _ k xy HP Hxy) as (t & Ht & Hq). specialize (Ht i). rewrite tget_tof, !tget_fmap, Hk in Ht. injection Ht as ->.
      destruct xy as [x y]. destruct Hq as [Hq1 Hq2]. cbn beta iota delta [fst snd] in Hq1, Hq2. pose proof (tvec_length _ _ _ i Hq1) as E1.
      pose proof (tvec_length _ _ _ i Hq2) as E2. rewrite tget_fmap, length_fmap in E1. rewrite tget_fmap, length_fmap in E2. congruence.
  - assert (zip_with (fun b '(x, y) => b + number (both (pl x) (pr y)) (zip ls rs)) (replicate (length (pairs xs ys)) 0) (pairs xs ys)
      = (fun '(x, y) => number (both (pl x) (pr y)) (zip ls rs)) <$> pairs xs ys) as <-.
    { clear. induction (pairs xs ys) as [|[x y] l IH]; [done|]. cbn [length replicate zip_with]. by rewrite IH. }
    refine (eq_ind _ (fun u => tvec _ u _) (tvec_zip (add3_int (T:=u32)) _ (add3_int (T:=u32)) (fun _ b p => b +[u32] product_sum p.1 p.2)
      (fun b '(x, y) => b + number (both (pl x) (pr y)) (zip ls rs)) z _ _ _ _ Hz HP) _ _).
    + intros b x t [u v] Hb0 [H1 H2]. cbn [fst snd] in H1, H2.
      assert (forall (V : tri (list Share)) (bs : list bool), tvec (shares_add u32) V (Z.b2z <$> bs) -> tvec (shares_int u32) V (Z.b2z <$> bs)) as Hint.
      { intros V bs HV. apply (proj1 (tvec_fmap_r _ _ _ _)) in HV. apply (proj2 (tvec_fmap_r _ _ _ _)). eapply tvec_impl; [|exact HV].
        intros t' c Hc. unfold shares_int. rewrite Z.mod_small; [done|]. change (K u32) with 32. destruct c; cbn; lia. }
      pose proof (product_sum_spec _ _ _ _ (Hint _ (pl u <$> ls) ltac:(by rewrite <- list_fmap_compose))
        (Hint _ (pr v <$> rs) ltac:(by rewrite <- list_fmap_compose))) as Hps.
      rewrite (sum_both (pl u) (pr v) ls rs Hlr) in Hps. pose proof (add3_int_add (T:=u32) _ _ _ _ Hb0 Hps) as H. by destruct b, t.
    + unfold W. apply tri_ext. intros i. by rewrite !tget_tof, !tget_fmap.
Qed.

(** Cell by cell, the number of pairs both of whose bits are set. *)
Lemma combine_comparisons_spec {D E X Y} (pl : X -> D -> bool) (pr : Y -> E -> bool) xs ys ls rs n CL CR :
  length ls = length rs -> length xs = n -> length ys = n -> Z.of_nat (length ls) < 2 ^ 32 ->
  tvec (shares_add u32) CL (concat ((fun x => (fun d => Z.b2z (pl x d)) <$> ls) <$> xs)) ->
  tvec (shares_add u32) CR (concat ((fun y => (fun d => Z.b2z (pr y d)) <$> rs) <$> ys)) ->
  proto (R := R) ids sid (fun i => combine_comparisons (length ls) n (CL @ i) (CR @ i))
    (fun out => forall i, out @ i = (fun '(x, y) => number (both (pl x) (pr y)) (zip ls rs)) <$> pairs xs ys).
Proof.
  intros Hlr Hx Hy Hb HL HRr. eapply proto_bind; [apply (zero_bucket_shares_spec (n * n))|]. intros z Hz.
  assert (n * n = length (pairs xs ys))%nat as Hnn by (rewrite length_pairs; congruence). cbn beta in Hz. rewrite Hnn in Hz.
  set (cells := (fun '(x, y) => number (both (pl x) (pr y)) (zip ls rs)) <$> pairs xs ys).
  assert (forall p, 0 <= number p (zip ls rs) < 2 ^ 32) as Hcell.
  { intros p. pose proof (number_nonneg p (zip ls rs)). pose proof (number_le p (zip ls rs)) as Hle. rewrite length_zip in Hle. lia. }
  assert (exists w, (forall i, (if (length ls =? 0)%nat then Ok (z @ i) else
      outer_product (pairs (chunks (length ls) (CL @ i)) (chunks (length ls) (CR @ i))) 0 (z @ i)) = Ok (w @ i)) /\
    tvec (add3 u32) w cells) as (w & Hw & Hcells).
  { destruct (Nat.eqb_spec (length ls) 0) as [H0|H0].
    - exists z. split; [done|]. unfold cells. destruct ls; [|done]. cbn [zip_with].
      replace ((fun '(x, y) => number (both (pl x) (pr y)) []) <$> pairs xs ys) with (replicate (length (pairs xs ys)) 0).
      { apply (proj2 (tvec_fmap_r (add3 u32) (fun z => z mod 2 ^ K u32) _ _)) in Hz. by rewrite fmap_replicate in Hz. }
      clear. induction (pairs xs ys) as [|[x y] l IH]; [done|]. cbn [length replicate]. by rewrite IH.
    - destruct (outer_product_spec pl pr xs ys ls rs z CL CR) as (w & Hw & Hc); try done; [lia|].
      exists w. split; [done|]. apply (proj2 (tvec_fmap_r _ _ _ _)). apply (proj1 (tvec_fmap_r _ _ _ _)) in Hc.
      eapply tvec_impl; [|exact Hc]. intros t [x y] Ht. unfold add3_int in Ht. cbn in Ht. rewrite Z.mod_small in Ht; [done|]. apply Hcell. }
  eapply proto_bind; [apply (proto_liftr ids sid _ w (fun x => x = w) Hw); done|]. intros ? ->.
  by apply (open_ring_element_broadcast_spec ids sid net_u32).
Qed.
End Combine.

(** ** Two-dimensional jobs *)

(** The cells the protocol opens are the cumulative counts of the pairs. *)
Lemma cells_cumulative {X Y D E} (pl : X -> D -> bool) (pr : Y -> E -> bool) xs ys dx dy n ds :
  length xs = n -> length ys = n ->
  (fun '(x, y) => number (both (pl x) (pr y)) ds) <$> pairs xs ys
  = cumulative_counts_2d (fun k => pl (nth k xs dx)) (fun k => pr (nth k ys dy)) n ds.
Proof.
  intros Hx Hy. rewrite <- (list_fmap_id xs) at 1. rewrite <- (list_fmap_id ys) at 1.
  rewrite (fmap_nth id xs dx), (fmap_nth id ys dy), Hx, Hy, pairs_fmap, pairs_seq. rewrite <- !list_fmap_compose. done.
Qed.

(** The report a party should publish about pairs of groups. *)
Definition reported_2d (t0 t1 : Z) (config : AnonStatsServerConfig) (origin : AnonStatsOrigin) (operation : option AnonStatsOperation)
    (start_timestamp : option Z) (f : DistanceFunction) (ratio : f64) (n : nat) (within : nat -> list dist -> bool)
    (ds : list (list dist * list dist)) : BucketStatistics2D :=
  mkStatistics2D (histogram_2d within within (uniform_limits ratio n) n ds) n (length ds) (cfg_party_id config) (default Uniqueness operation)
    f Aggregator (default t0 start_timestamp) (Some t1) (Some t1) (is_mirror origin) None None None.

Lemma report_2d_reported t0 t1 config origin operation start f ratio n within ds :
  Forall (nested_2d within within n) ds ->
  report_2d t0 t1 config origin operation start (length ds) n f ratio (cumulative_counts_2d within within n ds)
  = reported_2d t0 t1 config origin operation start f ratio n within ds.
Proof.
  intros Hn. unfold report_2d, fill_buckets_2d. cbn [n_buckets_per_side with_mirror_2d statistics_2d_new].
  by rewrite filled_cells_histogram.
Qed.

(** Comparing nearest members is comparing groups. *)
Lemma number_nearest (near : dist -> dist -> bool) (p q : dist -> bool) gl gr rl rr :
  (forall d r, ok_dist d -> ok_dist r -> near d r = false -> p d = true -> p r = true) ->
  (forall d r, ok_dist d -> ok_dist r -> near d r = false -> q d = true -> q r = true) ->
  Forall (Forall ok_dist) gl -> Forall (Forall ok_dist) gr -> Forall2 (nearest near) gl rl -> Forall2 (nearest near) gr rr ->
  number (both p q) (zip rl rr) = number (both (existsb p) (existsb q)) (zip gl gr).
Proof.
  intros Hp Hq Hl Hr H. revert gr rr Hr. induction H as [|g r gl rl Hg H IH]; intros gr rr Hr H2; [done|].
  destruct H2 as [|g' r' gr rr Hg' H2]; [done|]. cbn [zip zip_with]. apply Forall_cons in Hl as [Hlg Hl], Hr as [Hrg Hr].
  rewrite !number_cons, (IH Hl gr rr Hr H2). unfold both. cbn [fst snd].
  by rewrite (nearest_exists near p g r Hp Hlg Hg), (nearest_exists near q g' r' Hq Hrg Hg').
Qed.

Section Job2D.
Context {R : Rng} {HR : RngOk R} (ids : tri Identity) (sid : Z).
Context (t0 t1 : tri Z) (config : tri AnonStatsServerConfig) (origin : AnonStatsOrigin) (operation : option AnonStatsOperation)
  (start : option Z) (gl gr : list (list dist)).
Context (Hlen : length gl = length gr) (Hgl : Forall (fun g => g <> []) gl) (Hgr : Forall (fun g => g <> []) gr)
  (Hokl : Forall (Forall ok_dist) gl) (Hokr : Forall (Forall ok_dist) gr) (Hn : batch_fits (length gl)).

Lemma nested_pairs within n :
  (forall g, Forall ok_dist g -> nested within n g) -> Forall (nested_2d within within n) (zip gl gr).
Proof.
  intros H. apply Forall_lookup. intros k [a b] (Ha & Hb)%lookup_zip_Some. split; apply H; [exact (Forall_lookup_1 _ _ _ _ Hokl Ha)|exact (Forall_lookup_1 _ _ _ _ Hokr Hb)].
Qed.

(** What the fractional and the normalized job have in common. *)
Lemma pairs_of_groups_spec {A Y} (T : IntRing2k) (within : A -> dist -> bool) (near : dist -> dist -> bool) (terms : list A) (default : A) n
    (ml mr : PartyID -> M R (list DistanceShare)) (cmp : list DistanceShare -> M R (list Share)) (F : PartyID -> list Z -> Y) :
  length terms = n ->
  proto ids sid ml (fun out => exists rs, tvec (dist_int T) out rs /\ Forall2 (nearest near) gl rs) ->
  proto ids sid mr (fun out => exists rs, tvec (dist_int T) out rs /\ Forall2 (nearest near) gr rs) ->
  (forall D ds, tvec (dist_int T) D ds -> Forall in_range ds -> length ds = length gl ->
     proto ids sid (fun i => cmp (D @ i))
       (fun out => tvec (shares_add u32) out (concat ((fun a => (fun d => Z.b2z (within a d)) <$> ds) <$> terms)))) ->
  (forall a d r, a ∈ terms -> ok_dist d -> ok_dist r -> near d r = false -> within a d = true -> within a r = true) ->
  let W := fun k g => existsb (within (nth k terms default)) g in
  proto ids sid (fun i => l ← ml i; r ← mr i; cl ← cmp l; cr ← cmp r; b ← combine_comparisons (length gl) n cl cr; mret (F i b))
    (fun out => forall i, out @ i = F i (cumulative_counts_2d W W n (zip gl gr))).
Proof.
  intros Hl Hml Hmr Hcmp Hmono W. eapply proto_bind; [exact Hml|]. intros l (rl & Hrl & Hnl).
  eapply proto_bind; [exact Hmr|]. intros r (rr & Hrr & Hnr).
  pose proof (Forall2_length _ _ _ Hnl) as El. pose proof (Forall2_length _ _ _ Hnr) as Er.
  eapply proto_bind; [apply (Hcmp l rl Hrl); [exact (nearest_ok near gl rl Hokl Hnl)|by rewrite El]|]. intros cl Hcl.
  eapply proto_bind; [apply (Hcmp r rr Hrr); [exact (nearest_ok near gr rr Hokr Hnr)|congruence]|]. intros cr Hcr. rewrite El. eapply proto_bind.
  { apply (combine_comparisons_spec ids sid within within terms terms rl rr n cl cr); try done; [congruence|].
    rewrite <- El. unfold batch_fits in Hn. lia. }
  intros b Hb. eapply proto_ext; [|apply (proto_ret ids sid (tof (fun i => F i (cumulative_counts_2d W W n (zip gl gr))))); intros i; by rewrite tget_tof].
  intros s i _. cbn beta. rewrite tget_tof, Hb. do 2 f_equal.
  unfold W. rewrite <- (cells_cumulative (fun a => existsb (within a)) (fun a => existsb (within a)) terms terms default default n) by done.
  apply list_fmap_ext. intros k [x y] Hk. apply list_elem_of_lookup_2 in Hk. unfold pairs in Hk. apply list_elem_of_bind in Hk as (x' & Hk & Hx).
  apply list_elem_of_bind in Hk as (y' & Hk & Hy). apply list_elem_of_singleton in Hk. injection Hk as -> ->.
  apply (number_nearest near); try done; intros d e; by apply Hmono.
Qed.

Lemma process_2d_inner_spec n ratio terms DL DR :
  (forall i, params_2d (config @ i) operation = (n, ratio)) -> calculate_iris_threshold_a n ratio = Ok terms -> terms_ok terms ->
  batch_fits (n * length gl) -> tvec (tvec (dist_int u32)) DL gl -> tvec (tvec (dist_int u32)) DR gr ->
  proto (R := R) ids sid (fun i => process_2d_inner (t0 @ i) (t1 @ i) (config @ i) origin operation start (length gl) (DL @ i) (DR @ i))
    (fun out => forall i, out @ i
       = reported_2d (t0 @ i) (t1 @ i) (config @ i) origin operation start FHD ratio n (fhd_group_within terms) (zip gl gr)).
Proof.
  intros Hp Ht Hterms Hfit HL HRr. pose proof (translated_length _ _ _ Ht) as Hl.
  eapply proto_mono; [|eapply proto_ext; [|apply (pairs_of_groups_spec u32 fhd_within fhd_nearer terms 0 n
    (fun i => reduce_to_min_distance_batch (DL @ i)) (fun i => reduce_to_min_distance_batch (DR @ i)) (compare_against_thresholds_batched terms)
    (fun i b => report_2d (t0 @ i) (t1 @ i) (config @ i) origin operation start (length gl) n FHD ratio b))]].
  - intros out Ho i. rewrite Ho, <- report_2d_reported, length_zip, <- Hlen, Nat.min_id; [done|].
    apply nested_pairs. intros g Hg. rewrite <- Hl. by apply fhd_group_nested.
  - intros s i _. unfold process_2d_inner. rewrite Hp, Ht. unfold liftr, mbind, M_bind. done.
  - done.
  - by apply (reduce_fhd_spec ids sid gl).
  - apply (reduce_fhd_spec ids sid gr); try done; by rewrite <- Hlen.
  - intros D ds HD Hr Hd. apply (compare_against_thresholds_spec ids sid D ds terms HD Hr); [apply Hterms|by rewrite Hl, Hd].
  - intros a d r Ha. destruct Hterms as [Hrng _]. rewrite Forall_forall in Hrng. apply fhd_within_mono. by apply Hrng.
Qed.

Lemma nhd_compare_against_thresholds_spec D ds ts :
  tvec (dist_int Ring48) D ds -> Forall in_range ds -> batch_fits (length ds) -> nhd_terms_ok ts -> batch_fits (length ts * length ds) ->
  proto (R := R) ids sid (fun i => nhd_compare_against_thresholds_batched ts (D @ i))
    (fun out => tvec (shares_add u32) out (concat ((fun t => (fun d => Z.b2z (nhd_within t d)) <$> ds) <$> ts))).
Proof.
  intros HD Hr Hd Hts Hfit.
  eapply proto_bind; [eapply proto_ext; [|by apply (nhd_threshold_loop_spec ids sid D ds ts tnil [] HD Hr Hd (proj1 Hts) (tvec_nil _))]|].
  - intros s i _. cbn beta. unfold tnil. by rewrite tget_tof.
  - intros bits Hb. apply (bit_inject_spec ids sid (T:=net_u32) _ _ Hb). cbn [app].
    rewrite (length_concat_const (length ds)), length_fmap; [unfold batch_fits in Hfit; cbn [BYTES]; cbn; lia|].
    apply Forall_fmap, Forall_true. intros t. cbn. by rewrite length_fmap.
Qed.

Lemma process_2d_nhd_inner_spec n ratio DL DR :
  let ts := calculate_iris_threshold_score_normalization n ratio in
  (forall i, params_2d_nhd (config @ i) operation = (n, ratio)) -> nhd_terms_ok ts ->
  batch_fits (n * length gl) -> tvec (tvec (dist_int Ring48)) DL gl -> tvec (tvec (dist_int Ring48)) DR gr ->
  proto (R := R) ids sid
    (fun i => process_2d_anon_stats_score_normalization_inner (t0 @ i) (t1 @ i) (config @ i) origin operation start (length gl) (DL @ i) (DR @ i))
    (fun out => forall i, out @ i
       = reported_2d (t0 @ i) (t1 @ i) (config @ i) origin operation start NHD ratio n (nhd_group_within ts) (zip gl gr)).
Proof.
  intros ts Hp Hterms Hfit HL HRr.
  assert (length ts = n) as Hl by (unfold ts, calculate_iris_threshold_score_normalization; by rewrite length_fmap, length_seq).
  eapply proto_mono; [|eapply proto_ext; [|apply (pairs_of_groups_spec Ring48 nhd_within nhd_nearer ts (S754_zero false) n
    (fun i => nhd_reduce_to_min_distance_batch (DL @ i)) (fun i => nhd_reduce_to_min_distance_batch (DR @ i)) (nhd_compare_against_thresholds_batched ts)
    (fun i b => report_2d (t0 @ i) (t1 @ i) (config @ i) origin operation start (length gl) n NHD ratio b))]].
  - intros out Ho i. rewrite Ho, <- report_2d_reported, length_zip, <- Hlen, Nat.min_id; [done|].
    apply nested_pairs. intros g Hg. rewrite <- Hl. by apply nhd_group_nested.
  - intros s i _. unfold process_2d_anon_stats_score_normalization_inner. by rewrite Hp.
  - done.
  - by apply (reduce_nhd_spec ids sid gl).
  - apply (reduce_nhd_spec ids sid gr); try done; by rewrite <- Hlen.
  - intros D ds HD Hr Hd. apply nhd_compare_against_thresholds_spec; try done; by rewrite ?Hl, Hd.
  - intros a d r Ha. apply nhd_within_mono.
Qed.
End Job2D.

(** ** Scores against thresholds *)

(** [sub_pub] at each party. *)
Definition sub_value (T : IntRing2k) (c : Z) (i : PartyID) (x : Share) : Share :=
  match i with ID0 => mkShare (sa x ⊖[T] c) (sb x) | ID1 => mkShare (sa x) (sb x ⊖[T] c) | ID2 => x end.

Lemma sub_value_spec (T : IntRing2k) `{!IntRing2kOk T} s x c :
  shares_int T s x -> shares_int T (tof (fun i => sub_value T (c mod 2 ^ K T) i (s @ i))) (x - c).
Proof.
  intros (d & Hs & Hd & E). exists (tset d ID0 (at0 d ⊖[T] (c mod 2 ^ K T))). split_and!.
  - intros i. rewrite tget_tof, Hs. by destruct i.
  - intros []; cbn; [apply re_sub_valid; [apply (Hd ID0)|apply valid_mod]|apply (Hd ID1)|apply (Hd ID2)].
  - symmetry. apply valid_eq_mod; [apply valid_mod|]. cbn. rewrite ceq_mod, <- (ceq_mod _ x), <- E. unfold sum3. rewrite !ceq_mod.
    rewrite re_sub_ceq, ceq_mod. ring_ceq.
Qed.

(** Scores and thresholds are 16-bit integers whose difference does not wrap
    around. *)
Definition comparable (t d : Z) : Prop := - 2 ^ 15 <= d - t < 2 ^ 15.

Section Scores.
Context {R : Rng} {HR : RngOk R} (ids : tri Identity) (sid : Z).

Lemma compare_below_spec t v ds :
  tvec (shares_int u16) v ds -> Forall (comparable t) ds -> batch_fits (length ds) ->
  proto (R := R) ids sid (fun i => compare_below t (v @ i)) (fun out => tvec (shares_add u32) out ((fun d => Z.b2z (d <? t)) <$> ds)).
Proof.
  intros Hv Hc Hn. set (w := tof (fun i => sub_value u16 (t mod 2 ^ 16) i <$> v @ i)).
  assert (tvec (shares_int u16) w ((fun d => d - t) <$> ds)) as Hw.
  { apply (tvec_map (shares_int u16) (shares_int u16) (sub_value u16 (t mod 2 ^ 16)) (fun d => d - t)); [|done]. intros s d Hs. by apply (sub_value_spec u16). }
  eapply proto_bind; [apply (proto_get ids sid (fun s => in_ring ids sid s)); by intros|]. intros s Hs.
  eapply proto_bind; [apply (proto_liftr ids sid _ w (fun x => x = w)); [|done]|].
  - intros i. unfold w. rewrite tget_tof. apply mapM_result_ok. intros x _. rewrite (proj1 (Hs i)). by destruct i.
  - intros ? ->. eapply proto_bind; [eapply (signs_spec ids sid (T:=net_u16) (HTr:=Transpose64_u16) w _); [cbn; lia| |exact Hw|]|].
    + by rewrite length_fmap.
    + apply Forall_fmap. exact Hc.
    + intros bits Hb. eapply proto_mono; [|apply (bit_inject_spec ids sid (T:=net_u32) _ _ Hb)].
      * intros out Ho. refine (eq_ind _ (tvec (shares_add u32) out) Ho _ _). rewrite <- !list_fmap_compose. apply list_fmap_ext. intros k d _. cbn.
        f_equal. destruct (Z.ltb_spec (d - t) 0), (Z.ltb_spec d t); lia || done.
      * rewrite !length_fmap. unfold batch_fits in Hn. cbn [BYTES]. cbn. lia.
Qed.

Lemma compare_di_loop_spec ts v ds acc xs :
  tvec (shares_int u16) v ds -> Forall (fun t => Forall (comparable t) ds) ts -> batch_fits (length ds) -> tvec (shares_add u32) acc xs ->
  proto (R := R) ids sid (fun i => compare_di_loop ts (v @ i) (acc @ i))
    (fun out => tvec (shares_add u32) out (xs ++ concat ((fun t => (fun d => Z.b2z (d <? t)) <$> ds) <$> ts))).
Proof.
  intros Hv Hts Hn. revert acc xs. induction Hts as [|t ts Ht Hts IH]; intros acc xs Hacc.
  { cbn [compare_di_loop fmap list_fmap concat]. rewrite app_nil_r. by apply proto_ret. }
  cbn [compare_di_loop]. eapply proto_bind; [by apply (compare_below_spec t v ds)|]. intros r Hr.
  eapply proto_mono; [|eapply proto_ext; [|apply (IH _ _ (tvec_app _ _ _ _ _ Hacc Hr))]].
  - intros out Ho. rewrite fmap_cons. cbn [concat]. by rewrite app_assoc.
  - intros s i _. cbn beta. unfold tapp. by rewrite tget_tof.
Qed.

Lemma compare_di_spec ts v ds :
  tvec (shares_int u16) v ds -> Forall (fun t => Forall (comparable t) ds) ts -> batch_fits (length ds) ->
  proto (R := R) ids sid (fun i => compare_against_thresholds_di ts (v @ i))
    (fun out => tvec (shares_add u32) out (concat ((fun t => (fun d => Z.b2z (d <? t)) <$> ds) <$> ts))).
Proof.
  intros Hv Hts Hn. eapply proto_ext; [|exact (compare_di_loop_spec ts v ds tnil [] Hv Hts Hn (tvec_nil _))].
  intros s i _. cbn beta. unfold tnil. by rewrite tget_tof.
Qed.

(** The face sums. *)
Lemma sum_all_spec v xs :
  tvec (shares_int u32) v xs -> shares_int u32 (tof (fun i => foldl (share_add u32) (share_zero u32) (v @ i))) (foldr Z.add 0 xs).
Proof.
  intros Hv. assert (forall s x, shares_int u32 s x -> shares_int u32 (tof (fun i => foldl (share_add u32) (s @ i) (v @ i))) (x + foldr Z.add 0 xs)) as H.
  { induction Hv as [|r v y ys Hr Hv IH]; intros s x Hs; [cbn; rewrite Z.add_0_r; by destruct s|].
    specialize (IH _ _ (shares_int_add (T:=u32) _ _ _ _ Hs Hr)). cbn [foldr]. rewrite Z.add_assoc. by destruct s, r, v. }
  assert (shares_int u32 (tof (fun _ => share_zero u32)) 0) as Hz.
  { exists (Tri 0 0 0). split_and!; [by intros []|by intros []|done]. }
  specialize (H _ _ Hz). rewrite Z.add_0_l in H. refine (eq_ind _ (fun t => shares_int u32 t _) H _ _). apply tri_ext. intros i. by rewrite !tget_tof.
Qed.

Lemma sum_bits {D} (p : D -> bool) ds : foldr Z.add 0 ((fun d => Z.b2z (p d)) <$> ds) = number p ds.
Proof. induction ds as [|d ds IH]; [done|]. rewrite fmap_cons, number_cons. cbn [foldr]. rewrite IH. by destruct (p d). Qed.

Lemma face_sums_spec ts v ds acc xs :
  tvec (shares_int u16) v ds -> Forall (fun t => Forall (comparable t) ds) ts -> batch_fits (length ds) -> tvec (shares_add u32) acc xs ->
  proto (R := R) ids sid (fun i => face_sums ts (v @ i) (acc @ i))
    (fun out => tvec (shares_add u32) out (xs ++ ((fun t => number (fun d => d <? t) ds) <$> ts))).
Proof.
  intros Hv Hts Hn. revert acc xs. induction Hts as [|t ts Ht Hts IH]; intros acc xs Hacc.
  { cbn [face_sums fmap list_fmap]. rewrite app_nil_r. by apply proto_ret. }
  cbn [face_sums]. eapply proto_bind; [by apply (compare_below_spec t v ds)|]. intros r Hr.
  assert (shares_add u32 (tof (fun i => foldl (share_add u32) (share_zero u32) (r @ i))) (number (fun d => d <? t) ds)) as Hs.
  { assert (tvec (shares_int u32) r ((fun d => Z.b2z (d <? t)) <$> ds)) as Hr'.
    { apply (proj1 (tvec_fmap_r _ _ _ _)) in Hr. apply (proj2 (tvec_fmap_r _ _ _ _)). eapply tvec_impl; [|exact Hr].
      intros u d Hd. unfold shares_int. rewrite Z.mod_small; [done|]. change (K u32) with 32. destruct (d <? t); cbn; lia. }
    apply sum_all_spec in Hr'. rewrite sum_bits in Hr'. unfold shares_int in Hr'. rewrite Z.mod_small in Hr'; [done|].
    pose proof (number_nonneg (fun d => d <? t) ds). pose proof (number_le (fun d => d <? t) ds). unfold batch_fits in Hn. change (K u32) with 32. lia. }
  eapply proto_mono; [|eapply proto_ext; [|apply (IH _ _ (tvec_app _ _ _ _ _ Hacc (tvec_cons _ _ _ _ _ Hs (tvec_nil _))))]].
  - intros out Ho. rewrite fmap_cons. by rewrite <- app_assoc in Ho.
  - intros s i _. cbn beta. unfold tapp, tcons, tnil. by rewrite !tget_tof.
Qed.
End Scores.

(** ** Reports *)

(** Scores between consecutive thresholds, the first inclusive. *)
Definition face_histogram (ts ds : list Z) : list BucketResult :=
  (fun '(a, b) => mkBucket (number (fun d => (a <=? d) && (d <? b)) ds) (f64_of_int a, f64_of_int b)) <$> zip ts (tail ts).

Lemma number_between a b ds :
  a <= b -> number (fun d => (a <=? d) && (d <? b)) ds = number (fun d => d <? b) ds - number (fun d => d <? a) ds.
Proof.
  intros Hab. induction ds as [|d ds IH]; [done|]. rewrite !number_cons, IH.
  destruct (Z.leb_spec a d), (Z.ltb_spec d b), (Z.ltb_spec d a); cbn; lia.
Qed.

Lemma face_buckets_histogram ts ds :
  StronglySorted Z.le ts -> Z.of_nat (length ds) < 2 ^ 64 ->
  face_buckets ((fun t => number (fun d => d <? t) ds) <$> ts) ts = Ok (face_histogram ts ds).
Proof.
  intros Hs Hb. unfold face_buckets. rewrite length_fmap, Nat.eqb_refl. cbn [negb]. f_equal. unfold face_histogram.
  induction Hs as [|t ts Hs IH Ht]; [done|]. destruct ts as [|u ts]; [done|]. rewrite !fmap_cons. cbn [zip zip_with tail] in IH |- *.
  rewrite !fmap_cons in IH. cbn [zip zip_with tail] in IH. rewrite fmap_cons, IH, fmap_cons. f_equal. apply Forall_inv in Ht.
  rewrite number_between by done. f_equal. apply Z.mod_small.
  pose proof (number_nonneg (fun d => (t <=? d) && (d <? u)) ds) as H0. rewrite number_between in H0 by done.
  pose proof (number_le (fun d => d <? u) ds). pose proof (number_nonneg (fun d => d <? t) ds). lia.
Qed.

Definition reported_face (t0 t1 : Z) (config : AnonStatsServerConfig) (operation : option AnonStatsOperation) (start_timestamp : option Z)
    (ds : list Z) : BucketStatistics :=
  let ts := face_bucket_thresholds config in
  mkStatistics (face_histogram ts ds) (length ts) (length ds) (cfg_party_id config) (default Uniqueness operation) None HD Aggregator
    (default t0 start_timestamp) (Some t1) None false.

(** Bucket [k] of the scores: below threshold [k] and not below the one before. *)
Definition below (ts : list Z) (k : nat) (d : Z) : bool := d <? nth k ts 0.

Definition reported_di (t0 t1 : Z) (config : AnonStatsServerConfig) (origin : AnonStatsOrigin) (operation : option AnonStatsOperation)
    (start_timestamp : option Z) (rate : Z) (lm rm : bool) (ds : list (Z * Z)) : BucketStatistics2D :=
  let ts := di_2d_bucket_thresholds config in
  mkStatistics2D (histogram_2d (below ts) (below ts) (limits_di ts) (length ts) ds) (length ts) (length ds) (cfg_party_id config)
    (default Uniqueness operation) QuantizedCosine Aggregator (default t0 start_timestamp) (Some t1) (Some t1) (is_mirror origin)
    (Some lm) (Some rm) (Some rate).

Lemma below_nested ts d : StronglySorted Z.le ts -> nested (below ts) (length ts) d.
Proof.
  intros Hs k Hk. unfold below. rewrite !Z.ltb_lt. pose proof (sorted_step Z.le ts 0 k Hs Hk). lia.
Qed.

Lemma report_di_reported t0 t1 config origin operation start rate lm rm ds :
  StronglySorted Z.le (di_2d_bucket_thresholds config) ->
  report_di t0 t1 config origin operation start (length ds) (di_2d_bucket_thresholds config) rate lm rm
    (cumulative_counts_2d (below (di_2d_bucket_thresholds config)) (below (di_2d_bucket_thresholds config)) (length (di_2d_bucket_thresholds config)) ds)
  = reported_di t0 t1 config origin operation start rate lm rm ds.
Proof.
  intros Hs. unfold report_di, fill_buckets_di. rewrite filled_cells_histogram; [done|].
  apply Forall_true. intros d. split; by apply below_nested.
Qed.

Lemma tvec_components {A A' V V'} (P : tri A -> V -> Prop) (Q : tri A' -> V' -> Prop) w xs :
  tvec (fun t xy => P (fst <$> t) xy.1 /\ Q (snd <$> t) xy.2) w xs ->
  tvec P (tof (fun i => fst <$> w @ i)) (fst <$> xs) /\ tvec Q (tof (fun i => snd <$> w @ i)) (snd <$> xs).
Proof.
  intros H. split; (eapply (tvec_map _ _ (fun _ => _)); [|exact H]); intros t xy [H1 H2]; cbn; by destruct t.
Qed.

(** ** Claims *)

(** C11: The two-dimensional statistics are exact, for the fractional and for the
    normalized Hamming distance.  From 16-bit shares of the dot products of
    pairs of groups of distances, one group per eye, every party publishes the
    two-dimensional histogram: a cell is present when some pair has its left
    group in the cell's left bucket and its right group in the right bucket, and
    its count is the number of such pairs. *)
Theorem process_2d_correct (R : Rng) `{!RngOk R} ids sid (t0 t1 : tri Z) (config : tri AnonStatsServerConfig) origin operation start
    (job : tri (AnonStatsMapping DistanceBundle2D)) (ds : list (list dist * list dist)) n ratio terms n' ratio' :
  Forall (fun d => (d.1 <> [] /\ Forall ok_dist d.1) /\ (d.2 <> [] /\ Forall ok_dist d.2)) ds ->
  tvec (fun t d => tvec (dist_int u16) (fst <$> t) d.1 /\ tvec (dist_int u16) (snd <$> t) d.2) (into_bundles <$> job) ds ->
  batch_fits (length ds) -> batch_fits (n * length ds) -> batch_fits (n' * length ds) -> job_fits (fst <$> ds) -> job_fits (snd <$> ds) ->
  (forall i, params_2d (config @ i) operation = (n, ratio)) -> (forall i, params_2d_nhd (config @ i) operation = (n', ratio')) ->
  calculate_iris_threshold_a n ratio = Ok terms -> terms_ok terms ->
  nhd_terms_ok (calculate_iris_threshold_score_normalization n' ratio') ->
  proto (R := R) ids sid (fun i => process_2d_anon_stats_job (t0 @ i) (t1 @ i) (config @ i) origin operation start (job @ i))
    (fun out => forall i, out @ i
       = reported_2d (t0 @ i) (t1 @ i) (config @ i) origin operation start FHD ratio n (fhd_group_within terms) ds) /\
  proto (R := R) ids sid (fun i => process_2d_anon_stats_score_normalization_job (t0 @ i) (t1 @ i) (config @ i) origin operation start (job @ i))
    (fun out => forall i, out @ i
       = reported_2d (t0 @ i) (t1 @ i) (config @ i) origin operation start NHD ratio' n'
           (nhd_group_within (calculate_iris_threshold_score_normalization n' ratio')) ds).
Proof.
  intros Hds HD Hn Hf Hf' Hjl Hjr Hp Hp' Ht Hterms Hts. destruct (tvec_components _ _ _ _ HD) as [HL HRr].
  set (gl := fst <$> ds) in *. set (gr := snd <$> ds) in *.
  assert (length gl = length ds) as El by apply length_fmap. assert (length gr = length ds) as Er by apply length_fmap.
  assert (zip gl gr = ds) as Ez. { unfold gl, gr. clear. induction ds as [|[a b] l IH]; [done|]. rewrite !fmap_cons. cbn. by rewrite IH. }
  assert (Forall (fun g => g <> []) gl /\ Forall (Forall ok_dist) gl /\ Forall (fun g => g <> []) gr /\ Forall (Forall ok_dist) gr) as (Hgl & Hokl & Hgr & Hokr).
  { unfold gl, gr. split_and!; apply Forall_fmap; (eapply Forall_impl; [exact Hds|]); intros d [[? ?] [? ?]]; done. }
  assert (forall i, mapping_len (job @ i) = length gl) as Hm by (intros i; by rewrite (job_length _ _ _ i HD)).
  rewrite <- Ez, <- El in *. split.
  - eapply (proto_bind ids sid (fun i => lift_bundles_1d (fst <$> into_bundles (job @ i)))).
    { eapply proto_ext; [|apply (lift_bundles_1d_spec ids sid _ _ HL); [by apply groups_in_range|done]]. intros s i _. cbn beta. by rewrite tget_tof, tget_fmap. }
    intros l Hl. eapply (proto_bind ids sid (fun i => lift_bundles_1d (snd <$> into_bundles (job @ i)))).
    { eapply proto_ext; [|apply (lift_bundles_1d_spec ids sid _ _ HRr); [by apply groups_in_range|done]]. intros s i _. cbn beta. by rewrite tget_tof, tget_fmap. }
    intros r Hr. eapply proto_ext;
      [|by apply (process_2d_inner_spec ids sid t0 t1 config origin operation start gl gr ltac:(congruence) Hgl Hgr Hokl Hokr Hn n ratio terms l r)].
    intros s i _. cbn beta. by rewrite Hm.
  - eapply (proto_bind ids sid (fun i => lift_bundles_u48_1d (fst <$> into_bundles (job @ i)))).
    { eapply proto_ext; [|apply (lift_bundles_u48_1d_spec ids sid _ _ HL); [by apply groups_in_range|done]]. intros s i _. cbn beta. by rewrite tget_tof, tget_fmap. }
    intros l Hl. eapply (proto_bind ids sid (fun i => lift_bundles_u48_1d (snd <$> into_bundles (job @ i)))).
    { eapply proto_ext; [|apply (lift_bundles_u48_1d_spec ids sid _ _ HRr); [by apply groups_in_range|done]]. intros s i _. cbn beta. by rewrite tget_tof, tget_fmap. }
    intros r Hr. eapply proto_ext;
      [|by apply (process_2d_nhd_inner_spec ids sid t0 t1 config origin operation start gl gr ltac:(congruence) Hgl Hgr Hokl Hokr Hn n' ratio' l r)].
    intros s i _. cbn beta. by rewrite Hm.
Qed.

(** C13: The Deep Identifier statistics are exact.  From 16-bit shares of pairs
    of similarity scores, every party publishes the two-dimensional histogram of
    the scores over the configured thresholds: bucket [k] of a side holds the
    scores from threshold [k - 1], inclusive, to threshold [k], exclusive, and
    scores at or above the last threshold are counted in no cell. *)
Theorem process_di_correct (R : Rng) `{!RngOk R} ids sid (t0 t1 : tri Z) (config : tri AnonStatsServerConfig) origin operation start
    (job : tri (AnonStatsMapping (Share * Share))) rate lm rm (ts : list Z) (ds : list (Z * Z)) :
  (forall i, di_2d_bucket_thresholds (config @ i) = ts) -> StronglySorted Z.le ts ->
  Forall (fun t => Forall (fun d => comparable t d.1 /\ comparable t d.2) ds) ts -> batch_fits (length ds) ->
  tvec (fun t d => shares_int u16 (fst <$> t) d.1 /\ shares_int u16 (snd <$> t) d.2) (into_bundles <$> job) ds ->
  proto (R := R) ids sid (fun i => process_di_2d_anon_stats_job (t0 @ i) (t1 @ i) (config @ i) origin operation start (job @ i) rate lm rm)
    (fun out => forall i, out @ i = reported_di (t0 @ i) (t1 @ i) (config @ i) origin operation start rate lm rm ds).
Proof.
  intros Hcfg Hs Hc Hn HD. destruct (tvec_components _ _ _ _ HD) as [HL HRr].
  assert (zip ds.*1 ds.*2 = ds) as Ez by (clear; induction ds as [|[a b] l IH]; [done|]; rewrite !fmap_cons; cbn; by rewrite IH).
  assert (Forall (fun t => Forall (comparable t) ds.*1) ts /\ Forall (fun t => Forall (comparable t) ds.*2) ts) as [Hcl Hcr].
  { split; (eapply Forall_impl; [exact Hc|]); intros t H; apply Forall_fmap; (eapply Forall_impl; [exact H|]); by intros d []. }
  apply (proto_ext ids sid _ (fun i => cl ← compare_against_thresholds_di ts ((tof (fun i => fst <$> (into_bundles <$> job) @ i)) @ i);
    cr ← compare_against_thresholds_di ts ((tof (fun i => snd <$> (into_bundles <$> job) @ i)) @ i);
    b ← combine_comparisons (length ds.*1) (length ts) cl cr;
    mret (report_di (t0 @ i) (t1 @ i) (config @ i) origin operation start (length ds) ts rate lm rm b))).
  { intros s i _. unfold process_di_2d_anon_stats_job. by rewrite Hcfg, !tget_tof, !tget_fmap, (job_length _ _ _ i HD), length_fmap. }
  eapply proto_bind; [apply (compare_di_spec ids sid ts _ _ HL Hcl); by rewrite length_fmap|]. intros cl Hl.
  eapply proto_bind; [apply (compare_di_spec ids sid ts _ _ HRr Hcr); by rewrite length_fmap|]. intros cr Hr. eapply proto_bind.
  { apply (combine_comparisons_spec ids sid (fun t d => d <? t) (fun t d => d <? t) ts ts _ ds.*2 (length ts) cl cr);
      rewrite ?length_fmap; try done. unfold batch_fits in Hn. lia. }
  intros b Hb. set (X := tof (fun i => reported_di (t0 @ i) (t1 @ i) (config @ i) origin operation start rate lm rm ds)).
  eapply proto_ext; [|apply (proto_ret ids sid X); intros i; unfold X; by rewrite tget_tof].
  intros s i _. cbn beta. unfold X. rewrite tget_tof, Hb, Ez, <- report_di_reported by by rewrite Hcfg. rewrite Hcfg.
  rewrite (cells_cumulative (fun t d => d <? t) (fun t d => d <? t) ts ts 0 0 (length ts)) by done. done.
Qed.

(** C14: The face statistics are exact.  From 16-bit shares of scores, every
    party publishes, for consecutive thresholds [a] and [b], the number of
    scores [d] with [a <= d < b]. *)
Theorem process_face_correct (R : Rng) `{!RngOk R} ids sid (t0 t1 : tri Z) (config : tri AnonStatsServerConfig) operation start
    (job : tri (list Share)) (ts ds : list Z) :
  (forall i, face_bucket_thresholds (config @ i) = ts) -> StronglySorted Z.le ts ->
  Forall (fun t => Forall (comparable t) ds) ts -> batch_fits (length ds) -> tvec (shares_int u16) job ds ->
  proto (R := R) ids sid (fun i => process_face_distance_job (t0 @ i) (t1 @ i) (config @ i) operation start (job @ i))
    (fun out => forall i, out @ i = reported_face (t0 @ i) (t1 @ i) (config @ i) operation start ds).
Proof.
  intros Hcfg Hs Hc Hn Hjob.
  apply (proto_ext ids sid _ (fun i => sums ← face_sums ts (job @ i) (tnil @ i); b ← open_ring net_u32 sums; bs ← liftr (face_buckets b ts);
    mret (mkStatistics bs (length ts) (length ds) (cfg_party_id (config @ i)) (default Uniqueness operation) None HD Aggregator
      (default (t0 @ i) start) (Some (t1 @ i)) None false))).
  { intros s i _. unfold process_face_distance_job, tnil. rewrite Hcfg, tget_tof, (tvec_length _ _ _ i Hjob). done. }
  eapply proto_bind; [exact (face_sums_spec ids sid ts job ds tnil [] Hjob Hc Hn (tvec_nil _))|]. intros sums Hsums.
  eapply proto_bind; [exact (open_ring_spec ids sid net_u32 _ _ Hsums)|]. intros b Hb. cbn [app] in Hb.
  eapply proto_bind; [apply (proto_liftr ids sid _ (tof (fun _ => face_histogram ts ds)) (fun x => x = tof (fun _ => face_histogram ts ds))); [|done]|].
  { intros i. rewrite Hb, tget_tof. apply face_buckets_histogram; [done|]. unfold batch_fits in Hn. lia. }
  intros ? ->. set (X := tof (fun i => reported_face (t0 @ i) (t1 @ i) (config @ i) operation start ds)).
  eapply proto_ext; [|apply (proto_ret ids sid X); intros i; unfold X; by rewrite tget_tof].
  intros s i _. cbn beta. unfold X, reported_face. by rewrite !tget_tof, Hcfg.
Qed.

(** Shares a dealer hands out. *)
Definition deal_scores (ds : list Z) : tri (list Share) := foldr (fun d v => tcons (plain_share (d mod 2 ^ 16)) v) tnil ds.
Lemma deal_scores_hold ds : tvec (shares_int u16) (deal_scores ds) ds.
Proof.
  unfold deal_scores. induction ds as [|d ds IH]; [apply tvec_nil|]. cbn [foldr]. apply tvec_cons; [|done].
  apply (plain_share_holds u16). apply (valid_mod (T:=u16)).
Qed.

Definition deal_pairs (ds : list (Z * Z)) : tri (AnonStatsMapping (Share * Share)) :=
  tof (fun i => mapping_new (zip (Z.of_nat <$> seq 0 (length ds)) (zip ((deal_scores ds.*1) @ i) ((deal_scores ds.*2) @ i)))).

Definition demo_scores : list (Z * Z) := [(-200, 50); (-100, -100); (20, 99); (99, 20); (500, 0)].

Lemma demo_pairs_hold :
  tvec (fun t d => shares_int u16 (fst <$> t) d.1 /\ shares_int u16 (snd <$> t) d.2) (into_bundles <$> deal_pairs demo_scores) demo_scores.
Proof.
  assert (into_bundles <$> deal_pairs demo_scores
    = foldr (fun d v => tcons (tof (fun i => ((plain_share (d.1 mod 2 ^ 16)) @ i, (plain_share (d.2 mod 2 ^ 16)) @ i))) v) tnil demo_scores) as ->
    by (vm_compute; reflexivity).
  induction demo_scores as [|d ds IH]; [apply tvec_nil|]. cbn [foldr]. apply tvec_cons; [|done].
  split; (refine (eq_ind _ (fun t => shares_int u16 t _) (plain_share_holds u16 _ (valid_mod (T:=u16) _)) _ _); apply tri_ext; intros []; done).
Qed.

Lemma demo_thresholds_sorted : StronglySorted Z.le [-100; 0; 100].
Proof. repeat constructor; lia. Qed.

Lemma process_di_correct_witness :
  exists stats, fmap (M:=list) count_2d (buckets_2d stats) = ([1; 1; 2]) /\
  proto (R := counter_rng) demo_ids 3
    (fun i => process_di_2d_anon_stats_job 5 6 demo_config (mkOrigin None Normal Buckets.DI) None None ((deal_pairs demo_scores) @ i) 100 false false)
    (fun out => forall i, out @ i = stats).
Proof.
  exists (reported_di 5 6 demo_config (mkOrigin None Normal Buckets.DI) None None 100 false false demo_scores).
  split; [vm_compute; reflexivity|].
  eapply proto_mono; [|eapply proto_ext; [|apply (process_di_correct counter_rng demo_ids 3 (tof (fun _ => 5)) (tof (fun _ => 6))
    (tof (fun _ => demo_config)) (mkOrigin None Normal Buckets.DI) None None (deal_pairs demo_scores) 100 false false [-100; 0; 100] demo_scores)]].
  - intros out Ho i. specialize (Ho i). by destruct i.
  - intros s i _. by destruct i.
  - by intros [].
  - exact demo_thresholds_sorted.
  - repeat (apply Forall_cons_2; [repeat (apply Forall_cons_2; [vm_compute; done|]); apply Forall_nil_2|]); apply Forall_nil_2.
  - vm_compute; done.
  - exact demo_pairs_hold.
Defined.

Lemma process_face_correct_witness :
  exists stats, fmap (M:=list) Buckets.count (buckets stats) = ([1; 3]) /\
  proto (R := counter_rng) demo_ids 3
    (fun i => process_face_distance_job 5 6 demo_config None None ((deal_scores [-100; 20; 99; 0; 500]) @ i)) (fun out => forall i, out @ i = stats).
Proof.
  exists (reported_face 5 6 demo_config None None [-100; 20; 99; 0; 500]). split; [vm_compute; reflexivity|].
  eapply proto_mono; [|eapply proto_ext; [|apply (process_face_correct counter_rng demo_ids 3 (tof (fun _ => 5)) (tof (fun _ => 6))
    (tof (fun _ => demo_config)) None None (deal_scores [-100; 20; 99; 0; 500]) [-100; 0; 100] [-100; 20; 99; 0; 500])]].
  - intros out Ho i. specialize (Ho i). by destruct i.
  - intros s i _. by destruct i.
  - by intros [].
  - exact demo_thresholds_sorted.
  - repeat (apply Forall_cons_2; [repeat (apply Forall_cons_2; [vm_compute; done|]); apply Forall_nil_2|]); apply Forall_nil_2.
  - vm_compute; done.
  - apply deal_scores_hold.
Defined.

Definition demo_pairs_of_groups : list (list dist * list dist) := zip demo_groups (rev demo_groups).

Definition demo_job_2d : tri (AnonStatsMapping DistanceBundle2D) :=
  tof (fun i => mapping_new (zip [3; 7; 9] (zip ((deal_groups u16) @ i) (rev ((deal_groups u16) @ i))))).

Definition deal_group (g : list dist) : tri (list DistanceShare) := foldr (fun d u => tcons (plain_dist u16 d) u) tnil g.

Lemma deal_group_holds g : tvec (dist_int u16) (deal_group g) g.
Proof. unfold deal_group. induction g as [|d g IH]; [apply tvec_nil|]. cbn [foldr]. apply tvec_cons; [|done]. apply plain_dist_int. exact _. Qed.

Lemma demo_job_2d_holds :
  tvec (fun t d => tvec (dist_int u16) (fst <$> t) d.1 /\ tvec (dist_int u16) (snd <$> t) d.2) (into_bundles <$> demo_job_2d) demo_pairs_of_groups.
Proof.
  assert (into_bundles <$> demo_job_2d
    = foldr (fun d v => tcons (tof (fun i => ((deal_group d.1) @ i, (deal_group d.2) @ i))) v) tnil demo_pairs_of_groups) as ->
    by (vm_compute; reflexivity).
  induction demo_pairs_of_groups as [|d ds IH]; [apply tvec_nil|]. cbn [foldr]. apply tvec_cons; [|done].
  split; (refine (eq_ind _ (fun t => tvec (dist_int u16) t _) (deal_group_holds _) _ _); apply tri_ext; intros []; done).
Qed.

Lemma demo_pairs_ok :
  Forall (fun d : list dist * list dist => (d.1 <> [] /\ Forall ok_dist d.1) /\ (d.2 <> [] /\ Forall ok_dist d.2)) demo_pairs_of_groups.
Proof.
  repeat (apply Forall_cons_2; [split; (split; [discriminate|repeat (apply Forall_cons_2; [vm_compute; done|]); apply Forall_nil_2])|]).
  apply Forall_nil_2.
Qed.

Lemma process_2d_correct_witness :
  exists within within',
    proto (R := counter_rng) demo_ids 4 (fun i => process_2d_anon_stats_job 5 6 demo_config (mkOrigin None Mirror HNSW) None None (demo_job_2d @ i))
      (fun out => forall i, out @ i
         = reported_2d 5 6 demo_config (mkOrigin None Mirror HNSW) None None FHD MATCH_THRESHOLD_RATIO 10 within demo_pairs_of_groups) /\
    proto (R := counter_rng) demo_ids 4
      (fun i => process_2d_anon_stats_score_normalization_job 5 6 demo_config (mkOrigin None Mirror HNSW) None None (demo_job_2d @ i))
      (fun out => forall i, out @ i = reported_2d 5 6 demo_config (mkOrigin None Mirror HNSW) None None NHD
         (nhd_threshold_ratio demo_config) 400 within' demo_pairs_of_groups) /\
    fmap (M:=list) count_2d (histogram_2d within within (uniform_limits MATCH_THRESHOLD_RATIO 10) 10 demo_pairs_of_groups) = [1; 1].
Proof.
  destruct (calculate_iris_threshold_a 10 MATCH_THRESHOLD_RATIO) as [terms|] eqn:E; [|vm_compute in E; discriminate].
  assert (terms_ok terms) as Ht.
  { apply terms_ok_check. vm_compute in E. injection E as <-. vm_compute. reflexivity. }
  assert (nhd_terms_ok (calculate_iris_threshold_score_normalization 400 (nhd_threshold_ratio demo_config))) as Hts
    by (apply nhd_terms_ok_check; vm_compute; reflexivity).
  exists (fhd_group_within terms), (nhd_group_within (calculate_iris_threshold_score_normalization 400 (nhd_threshold_ratio demo_config))).
  destruct (process_2d_correct counter_rng demo_ids 4 (tof (fun _ => 5)) (tof (fun _ => 6)) (tof (fun _ => demo_config))
    (mkOrigin None Mirror HNSW) None None demo_job_2d demo_pairs_of_groups 10 MATCH_THRESHOLD_RATIO terms 400 (nhd_threshold_ratio demo_config))
    as [H1 H2];
    [exact demo_pairs_ok|exact demo_job_2d_holds|clear; vm_compute; done..|intros []; vm_compute; reflexivity|intros []; vm_compute; reflexivity
    |exact E|exact Ht|exact Hts|].
  split_and!.
  - eapply proto_mono; [|eapply proto_ext; [|exact H1]]; [intros out Ho i; specialize (Ho i); by destruct i|intros s i _; by destruct i].
  - eapply proto_mono; [|eapply proto_ext; [|exact H2]]; [intros out Ho i; specialize (Ho i); by destruct i|intros s i _; by destruct i].
  - vm_compute in E. injection E as <-. vm_compute. reflexivity.
Defined.
