(* ===== verification/GroundTruth.v ===== *)
(** * Test data and references of the statistics jobs: the modules
    [test_helper] of [anon_stats/iris_1d.rs], [iris_2d.rs] and [face.rs]

    The crate exports generators that draw plain distances and share them among
    three parties, and for each job a reference that computes the expected report
    from the plain distances.  The generated shares meet the hypotheses of the
    theorems on the jobs, and the references compute the histograms that these
    theorems speak about. *)

From S2P Require Import Prelude IntRing RingImpl Party Share VecShare Transpose Value Net Prf Proto Circuits Binary Adder Inject Convert Lift Ops Select F64 Compare Buckets AnonJobs AnonJobs2D.
From stdpp Require Import option base list numbers strings gmap.
From Stdlib Require Import ZArith Lia SpecFloat Sorted.
Local Open Scope Z_scope.

(** ** Drawing numbers *)

(** [Rng::gen_range(lo..hi)]: a number of the range, which must not be empty. *)
Class GenRange (R : Rng) := range_draw : Z -> Z -> rng R -> Z * rng R.
Class GenRangeOk (R : Rng) `{!GenRange R} : Prop := range_draw_in lo hi r : lo < hi -> lo <= (range_draw lo hi r).1 < hi.

(** A function that draws from the generator it is given. *)
Definition Gen (R : Rng) (A : Type) : Type := rng R -> result (A * rng R).
#[export] Instance gen_ret R : MRet (Gen R) := fun A x r => Ok (x, r).
#[export] Instance gen_bind R : MBind (Gen R) := fun A B f m r => match m r with Ok (x, r) => f x r | Err e => Err e end.

(** [Vec<_>] of equally many entries per party. *)
Definition multiunzip {A} (l : list (tri A)) : tri (list A) := tof (fun i => (fun t => t @ i) <$> l).

(** Plain distances with one list of shares per party. *)
(* iris_1d.rs:263-268 TestDistances *)
Record TestDistances (D B : Type) := mkTest { distances : list D; shares0 : list B; shares1 : list B; shares2 : list B }.
Arguments mkTest {D B} _ _ _ _.
Arguments distances {D B} _.
Arguments shares0 {D B} _.
Arguments shares1 {D B} _.
Arguments shares2 {D B} _.
Definition test_shares {D B} (t : TestDistances D B) : tri (list B) := Tri (shares0 t) (shares1 t) (shares2 t).
Definition test_of {D B} (ds : list D) (s : tri (list B)) : TestDistances D B := mkTest ds (at0 s) (at1 s) (at2 s).

Section Generators.
Context {R : Rng} `{!GenRange R}.

Definition gen_u16 : Gen R Z := fun r => Ok (gen R u16 r).
Definition gen_range (lo hi : Z) : Gen R Z := fun r =>
  if hi <=? lo then panic "cannot sample empty range" else Ok (range_draw lo hi r).

(** [(0..n).map(|_| draw).collect()]. *)
Fixpoint repeat_gen {A} (n : nat) (draw : Gen R A) : Gen R (list A) :=
  match n with
  | O => mret []
  | S n => x ← draw; xs ← repeat_gen n draw; mret (x :: xs)
  end.

(** A loop over a list that draws for each entry. *)
Fixpoint map_gen {A B} (f : A -> Gen R B) (l : list A) : Gen R (list B) :=
  match l with
  | [] => mret []
  | x :: l => y ← f x; ys ← map_gen f l; mret (y :: ys)
  end.

(** The three replicated shares made of two draws. *)
(* iris_2d.rs:762-784 TestDiDistances::generate_shares (share_value) *)
Definition share_value (x : Z) : Gen R (tri Share) :=
  s1 ← gen_u16;
  s2 ← gen_u16;
  let s3 := wrapping_sub u16 (wrapping_sub u16 (x mod 2 ^ 16) s1) s2 in
  mret (Tri (mkShare s1 s3) (mkShare s2 s1) (mkShare s3 s2)).

(* iris_1d.rs:288-330 TestDistances::generate_ground_truth_input (shares of an item) *)
Definition share_item (x : dist) : Gen R (tri DistanceShare) :=
  share1 ← gen_u16;
  share2 ← gen_u16;
  let share3 := wrapping_sub u16 (wrapping_sub u16 (x.1 mod 2 ^ 16) share1) share2 in
  mshare1 ← gen_u16;
  mshare2 ← gen_u16;
  let mshare3 := wrapping_sub u16 (wrapping_sub u16 (x.2 mod 2 ^ 16) mshare1) mshare2 in
  mret (Tri (mkDistance (mkShare share1 share3) (mkShare mshare1 mshare3))
            (mkDistance (mkShare share2 share1) (mkShare mshare2 mshare1))
            (mkDistance (mkShare share3 share2) (mkShare mshare3 mshare2))).

(** The mask is drawn before the code. *)
(* iris_1d.rs:281-287 TestDistances::generate_ground_truth_input (item) *)
Definition draw_item : Gen R dist :=
  mask ← gen_range 6000 12000;
  code ← gen_range (-12000) 12000;
  mret (code, mask).

(** The entries at [idx], [idx + 1], ... *)
Fixpoint bundle_at {A} (items : list A) (idx size : nat) : result (list A) :=
  match size with
  | O => Ok []
  | S size => x ← index items idx; rest ← bundle_at items (idx + 1) size; Ok (x :: rest)
  end.

Fixpoint bundles_at {A} (items : list A) (idx : nat) (sizes : list nat) : result (list (list A) * nat) :=
  match sizes with
  | [] => Ok ([], idx)
  | size :: sizes =>
      bundle ← bundle_at items idx size;
      rest ← bundles_at items (idx + size) sizes;
      Ok (bundle :: rest.1, rest.2)
  end.

(* iris_1d.rs:332-344 TestDistances::generate_ground_truth_input (bundles) *)
Definition into_sizes {A} (n : nat) (sizes : list nat) (items : list A) : result (list (list A)) :=
  bundles ← bundles_at items 0 sizes;
  if (bundles.2 =? n)%nat then Ok bundles.1 else panic "assertion failed: idx == items.len()".

Definition lift_gen {A} (m : result A) : Gen R A := fun r => match m with Ok x => Ok (x, r) | Err e => Err e end.

(* iris_2d.rs:476-585 TestDistances::generate_ground_truth_input (generate_items) *)
Definition generate_items (sizes : list nat) : Gen R (list (list dist) * tri (list DistanceBundle1D)) :=
  items ← repeat_gen (sum_list sizes) draw_item;
  shares ← map_gen share_item items;
  let s := multiunzip shares in
  bundles ← lift_gen (into_sizes (length items) sizes items);
  b1 ← lift_gen (into_sizes (length items) sizes (at0 s));
  b2 ← lift_gen (into_sizes (length items) sizes (at1 s));
  b3 ← lift_gen (into_sizes (length items) sizes (at2 s));
  mret (bundles, Tri b1 b2 b3).

(* iris_1d.rs:276-279 TestDistances::generate_ground_truth_input (sizes) *)
Definition draw_sizes (num_bundles max_rotations : nat) : Gen R (list nat) :=
  repeat_gen num_bundles (n ← gen_range 1 (Z.of_nat max_rotations + 1); mret (Z.to_nat n)).

(* iris_1d.rs:271-393 TestDistances::generate_ground_truth_input *)
Definition generate_1d (num_bundles max_rotations : nat) : Gen R (TestDistances (list dist) DistanceBundle1D) :=
  sizes ← draw_sizes num_bundles max_rotations;
  '(bundles, s) ← generate_items sizes;
  mret (test_of bundles s).

(* iris_2d.rs:466-600 TestDistances::generate_ground_truth_input *)
Definition generate_2d (num_bundles max_rotations : nat) : Gen R (TestDistances (list dist * list dist) DistanceBundle2D) :=
  sizes ← draw_sizes num_bundles max_rotations;
  '(items_left, shares_left) ← generate_items sizes;
  '(items_right, shares_right) ← generate_items sizes;
  mret (test_of (zip items_left items_right) (tof (fun i => zip (shares_left @ i) (shares_right @ i)))).

(* iris_2d.rs:790-799 TestDiDistances::generate_shares (one pair) *)
Definition draw_pair (lo hi : Z) : Gen R ((Z * Z) * tri (Share * Share)) :=
  l_score ← gen_range lo hi;
  r_score ← gen_range lo hi;
  l ← share_value l_score;
  r ← share_value r_score;
  mret ((l_score, r_score), tof (fun i => (l @ i, r @ i))).

(* iris_2d.rs:756-806 TestDiDistances::generate_shares *)
Definition generate_di (num_pairs : nat) (lo hi : Z) : Gen R (TestDistances (Z * Z) (Share * Share)) :=
  rows ← repeat_gen num_pairs (draw_pair lo hi);
  mret (test_of rows.*1 (multiunzip rows.*2)).

(** [x as i16]. *)
Definition as_i16 (x : Z) : Z := signed16 (x mod 2 ^ 16).

(* face.rs:128-150 TestDistances::generate_ground_truth_input (shares of a distance) *)
Definition share_face (distance : Z) : Gen R (tri Share) :=
  share0 ← gen_u16;
  share1 ← gen_u16;
  let share2 := as_i16 (as_i16 (distance - as_i16 share0) - as_i16 share1) mod 2 ^ 16 in
  mret (Tri (mkShare share0 share2) (mkShare share1 share0) (mkShare share2 share1)).

(* face.rs:117-158 TestDistances::generate_ground_truth_input *)
Definition generate_face (num_distances : nat) : Gen R (TestDistances Z Share) :=
  ds ← repeat_gen num_distances (gen_range (-1000) 5001);
  shares ← map_gen share_face ds;
  mret (test_of ds (multiunzip shares)).
End Generators.

(** ** The references *)

Section Counting.
Context {D : Type} (w : Z).

(** [acc[i + j] += 1] for the tests [j] that accept [d]; the counters have [w]
    bits. *)
Fixpoint count_row (tests : list (D -> bool)) (i : nat) (d : D) (acc : list Z) : result (list Z) :=
  match tests with
  | [] => Ok acc
  | test :: tests =>
      c ← index acc i;
      acc ← set_index acc i ((c + Z.b2z (test d)) mod 2 ^ w);
      count_row tests (i + 1) d acc
  end.

(** The rows of a square of side [n], row [i] at [i * n]. *)
Fixpoint count_rows (n : nat) (rows : list (list (D -> bool))) (i : nat) (d : D) (acc : list Z) : result (list Z) :=
  match rows with
  | [] => Ok acc
  | row :: rows => acc ← count_row row (i * n) d acc; count_rows n rows (i + 1) d acc
  end.

(** A loop over all the values. *)
Fixpoint count_all (step : D -> list Z -> result (list Z)) (ds : list D) (acc : list Z) : result (list Z) :=
  match ds with
  | [] => Ok acc
  | d :: ds => acc ← step d acc; count_all step ds acc
  end.
End Counting.

(** [iter.windows(2)] and [iter.enumerate()]. *)
Definition windows2 {A} (l : list A) : list (A * A) := zip l (tail l).
Definition enumerate {A} (l : list A) : list (nat * A) := zip (seq 0 (length l)) l.

(** The differences of consecutive counts. *)
(* face.rs:171-178 TestDistances::ground_truth_buckets (buckets) *)
Definition window_counts {A} (limit : A -> f64) (counts : list Z) (thresholds : list A) : result (list BucketResult) :=
  mapM_result (fun '(i, (a, b)) => c' ← index counts (i + 1); c ← index counts i; Ok (mkBucket ((c' - c) mod 2 ^ 64) (limit a, limit b)))
    (enumerate (windows2 thresholds)).

(* face.rs:161-180 TestDistances::ground_truth_buckets *)
Definition face_ground_truth_buckets (t : TestDistances Z Share) (thresholds : list Z) : result (list BucketResult) :=
  buckets ← count_all (count_row 64 ((fun threshold d => d <? threshold) <$> thresholds) 0) (distances t) (replicate (length thresholds) 0);
  window_counts f64_of_int buckets thresholds.

(** The tests of a pair against all pairs of thresholds, a row per threshold of
    the left side. *)
Definition test_rows {X D} (accept : X -> D -> bool) (thresholds : list X) : list (list (D * D -> bool)) :=
  (fun x => (fun y d => accept x d.1 && accept y d.2) <$> thresholds) <$> thresholds.

(* iris_2d.rs:811-839 TestDiDistances::ground_truth_buckets *)
Definition di_ground_truth_buckets (t0 t1 : Z) (t : TestDistances (Z * Z) (Share * Share)) (thresholds : list Z) (operation : option AnonStatsOperation)
    : result BucketStatistics2D :=
  let n := length thresholds in
  cumulative ← count_all (count_rows 32 n (test_rows (fun threshold d => d <? threshold) thresholds) 0) (distances t) (replicate (n * n) 0);
  Ok (fill_buckets_di t1 (statistics_2d_new t0 (length (distances t)) n 0 QuantizedCosine Aggregator operation None None) cumulative thresholds None).

(* iris_1d.rs:396-398 TestDistances::ground_truth_buckets (fhd) *)
Definition fhd (d : dist) : f64 :=
  f64_div (f64_sub (f64_of_int d.2) (f64_of_int d.1)) (f64_mul (f64_of_int d.2) (f64_of_int 2)).

(** [0.45f64]. *)
Definition f64_045 : f64 := f64_div (f64_of_int 45) (f64_of_int 100).

(* iris_1d.rs:467-471 TestDistances::nhd_ground_truth_buckets (nhd) *)
Definition nhd (d : dist) : f64 :=
  f64_sub f64_045 (f64_mul (f64_sub f64_045 (fhd d)) (f64_add (f64_mul (f64_of_int d.2) (f64_lit 1 (-14))) f64_045)).

(** [reduce]: of two equal distances the later one is kept. *)
Definition nearest (f : dist -> f64) (g : list dist) : option dist :=
  match g with [] => None | d :: g => Some (foldl (fun a b => if SFltb (f a) (f b) then a else b) d g) end.

(* iris_1d.rs:407-420 TestDistances::ground_truth_buckets (reduce) *)
Definition reduce_group (f : dist -> f64) (g : list dist) : result dist :=
  match nearest f g with Some d => Ok d | None => panic "Expected at least one distance in the group" end.

(* iris_1d.rs:399-402 TestDistances::ground_truth_buckets (thresholds) *)
Definition fhd_edge (t : Z) : f64 := f64_sub (f64_lit 1 (-1)) (f64_div (f64_of_int t) (f64_mul (f64_of_int 2) (f64_of_int 65536))).

(** [0.5 - code / (2 * mask)] in one dimension, [fhd] in two. *)
(* iris_1d.rs:422-431 TestDistances::ground_truth_buckets (comparison) *)
Definition fhd_accepts_1d (t : Z) (d : dist) : bool :=
  SFltb (f64_sub (f64_lit 1 (-1)) (f64_div (f64_of_int d.1) (f64_mul (f64_of_int 2) (f64_of_int d.2)))) (fhd_edge t).
(* iris_2d.rs:634-655 TestDistances::ground_truth_buckets (comparison) *)
Definition fhd_accepts_2d (t : Z) (d : dist) : bool := SFltb (fhd d) (fhd_edge t).
(* iris_1d.rs:489-497 TestDistances::nhd_ground_truth_buckets (comparison) *)
Definition nhd_accepts (t : f64) (d : dist) : bool := SFleb (nhd d) t.

(* iris_1d.rs:444-457 TestDistances::ground_truth_buckets (buckets) *)
Definition buckets_from_zero (counts : list Z) (thresholds : list f64) : result (list BucketResult) :=
  c ← index counts 0;
  t ← index thresholds 0;
  rest ← window_counts id counts thresholds;
  Ok (mkBucket c (f64_of_int 0, t) :: rest).

Section References.
Context {X : Type} (f : dist -> f64) (accepts : X -> dist -> bool) (thresholds : list X).

(** The reduced distances of the groups against all thresholds. *)
Definition count_groups (gs : list (list dist)) : result (list Z) :=
  ds ← mapM_result (reduce_group f) gs;
  count_all (count_row 64 (accepts <$> thresholds) 0) ds (replicate (length thresholds) 0).

Definition count_group_pairs (gs : list (list dist * list dist)) : result (list Z) :=
  let n := length thresholds in
  ds ← mapM_result (fun g => l ← reduce_group f g.1; r ← reduce_group f g.2; Ok (l, r)) gs;
  count_all (count_rows 32 n (test_rows accepts thresholds) 0) ds (replicate (n * n) 0).

Definition reference_1d (now : Z) (function : DistanceFunction) (edges : list f64) (gs : list (list dist)) : result BucketStatistics :=
  expected ← count_groups gs;
  bs ← buckets_from_zero expected edges;
  let stats := statistics_new now (length gs) (length thresholds) 0 None function Aggregator None in
  Ok (mkStatistics bs (n_buckets stats) (match_distances_buffer_size stats) (party_id stats) (Buckets.operation stats) (eye stats)
    (distance_function stats) (source stats) (start_time_utc_timestamp stats) (end_time_utc_timestamp stats) (next_start_time_utc_timestamp stats)
    (is_mirror_orientation stats)).

Definition reference_2d (t0 t1 : Z) (function : DistanceFunction) (gs : list (list dist * list dist)) : result BucketStatistics2D :=
  expected ← count_group_pairs gs;
  Ok (fill_buckets_2d t1 (statistics_2d_new t0 (length gs) (length thresholds) 0 function Aggregator None None None) expected MATCH_THRESHOLD_RATIO None).
End References.

(* iris_1d.rs:395-460 TestDistances::ground_truth_buckets *)
Definition ground_truth_buckets_1d (now : Z) (t : TestDistances (list dist) DistanceBundle1D) (translated_thresholds : list Z) : result BucketStatistics :=
  reference_1d fhd fhd_accepts_1d translated_thresholds now FHD (fhd_edge <$> translated_thresholds) (distances t).

(* iris_1d.rs:462-524 TestDistances::nhd_ground_truth_buckets *)
Definition nhd_ground_truth_buckets_1d (now : Z) (t : TestDistances (list dist) DistanceBundle1D) (thresholds : list f64) : result BucketStatistics :=
  reference_1d nhd nhd_accepts thresholds now NHD thresholds (distances t).

(* iris_2d.rs:602-668 TestDistances::ground_truth_buckets *)
Definition ground_truth_buckets_2d (t0 t1 : Z) (t : TestDistances (list dist * list dist) DistanceBundle2D) (translated_thresholds : list Z)
    : result BucketStatistics2D :=
  reference_2d fhd fhd_accepts_2d translated_thresholds t0 t1 FHD (distances t).

(* iris_2d.rs:670-740 TestDistances::nhd_ground_truth_buckets *)
Definition nhd_ground_truth_buckets_2d (t0 t1 : Z) (t : TestDistances (list dist * list dist) DistanceBundle2D) (thresholds : list f64)
    : result BucketStatistics2D :=
  reference_2d nhd nhd_accepts thresholds t0 t1 NHD (distances t).

(** ** What the generators return *)

(** Whatever the state of the generator, [m] returns and the result satisfies
    [P]. *)
Definition gens {R : Rng} {A} (m : Gen R A) (P : A -> Prop) : Prop := forall r, exists x r', m r = Ok (x, r') /\ P x.

Section Generated.
Context {R : Rng} {HR : RngOk R} `{!GenRange R} {HG : GenRangeOk R}.

Lemma gens_ret {A} (x : A) (P : A -> Prop) : P x -> gens (R := R) (mret x) P.
Proof. intros H r. by exists x, r. Qed.

Lemma gens_bind {A B} (m : Gen R A) (f : A -> Gen R B) (P : A -> Prop) (Q : B -> Prop) :
  gens m P -> (forall x, P x -> gens (f x) Q) -> gens (m ≫= f) Q.
Proof.
  intros Hm Hf r. destruct (Hm r) as (x & r1 & E & Hx). destruct (Hf x Hx r1) as (y & r2 & E2 & Hy). exists y, r2. split; [|done].
  change ((m ≫= f) r) with (match m r with Ok (x, r) => f x r | Err e => Err e end). by rewrite E.
Qed.

Lemma gens_mono {A} (m : Gen R A) (P Q : A -> Prop) : (forall x, P x -> Q x) -> gens m P -> gens m Q.
Proof. intros H Hm r. destruct (Hm r) as (x & r' & E & Hx). eauto. Qed.

Lemma gens_lift {A} (m : result A) (x : A) (P : A -> Prop) : m = Ok x -> P x -> gens (R := R) (lift_gen m) P.
Proof. intros -> H r. by exists x, r. Qed.

Lemma gens_u16 : gens (R := R) gen_u16 (valid u16).
Proof. intros r. exists (gen R u16 r).1, (gen R u16 r).2. split; [unfold gen_u16; by destruct (gen R u16 r)|]. by apply rng_gen_valid, _. Qed.

Lemma gens_range lo hi : lo < hi -> gens (R := R) (gen_range lo hi) (fun x => lo <= x < hi).
Proof.
  intros H r. exists (range_draw lo hi r).1, (range_draw lo hi r).2. split; [|by apply range_draw_in].
  unfold gen_range. destruct (Z.leb_spec hi lo); [lia|]. by destruct (range_draw lo hi r).
Qed.

Lemma gens_repeat {A} n (draw : Gen R A) (P : A -> Prop) : gens draw P -> gens (repeat_gen n draw) (fun l => length l = n /\ Forall P l).
Proof.
  intros H. induction n as [|n IH]; [by apply gens_ret|]. eapply gens_bind; [exact H|]. intros x Hx.
  eapply gens_bind; [exact IH|]. intros l [Hl Hp]. apply gens_ret. split; [cbn; lia|by constructor].
Qed.

Lemma gens_map {A B} (f : A -> Gen R (tri B)) (P : tri B -> A -> Prop) l :
  (forall x, gens (f x) (fun t => P t x)) -> gens (map_gen f l) (fun ts => tvec P (multiunzip ts) l).
Proof.
  intros H. induction l as [|x l IH]; [apply gens_ret, tvec_nil|]. eapply gens_bind; [apply H|]. intros t Ht.
  eapply gens_bind; [exact IH|]. intros ts Hts. apply gens_ret. exact (tvec_cons P _ _ _ _ Ht Hts).
Qed.

(** Two draws and the difference are shares of a value. *)
Lemma rest_share x s1 s2 s3 :
  valid u16 s1 -> valid u16 s2 -> s3 = (x - s1 - s2) mod 2 ^ 16 -> shares_int u16 (Tri (mkShare s1 s3) (mkShare s2 s1) (mkShare s3 s2)) x.
Proof.
  intros H1 H2 ->. exists (Tri s1 s2 ((x - s1 - s2) mod 2 ^ 16)). split_and!; [by intros []| |].
  - intros []; cbn; [done..|apply (valid_mod (T := u16))].
  - unfold sum3. cbn [at0 at1 at2]. change (K u16) with 16. rewrite Z.add_mod_idemp_r by done. f_equal. lia.
Qed.

Lemma rest_wrapping x s1 s2 : wrapping_sub u16 (wrapping_sub u16 (x mod 2 ^ 16) s1) s2 = (x - s1 - s2) mod 2 ^ 16.
Proof.
  change (wrapping_sub u16) with (fun a b => (a - b) mod 2 ^ 16). cbn beta. rewrite Zminus_mod_idemp_l, <- Z.sub_add_distr, Zminus_mod_idemp_l.
  by rewrite Z.sub_add_distr.
Qed.

Lemma as_i16_ceq x : as_i16 x ==[2 ^ 16] x.
Proof.
  unfold as_i16, signed16. destruct (x mod 2 ^ 16 <? 2 ^ 15); [apply ceq_mod|]. rewrite <- (ceq_mod _ x) at 2.
  unfold ceq. by rewrite <- (Z.mod_add (x mod 2 ^ 16 - 2 ^ 16) 1) by done; f_equal; lia.
Qed.

Lemma share_value_shares x : gens (R := R) (share_value x) (fun t => shares_int u16 t x).
Proof.
  eapply gens_bind; [apply gens_u16|]. intros s1 H1. eapply gens_bind; [apply gens_u16|]. intros s2 H2.
  by apply gens_ret, rest_share, rest_wrapping.
Qed.

Lemma share_face_shares x : gens (R := R) (share_face x) (fun t => shares_int u16 t x).
Proof.
  eapply gens_bind; [apply gens_u16|]. intros s1 H1. eapply gens_bind; [apply gens_u16|]. intros s2 H2.
  apply gens_ret, rest_share; [done..|]. change (as_i16 (as_i16 (x - as_i16 s1) - as_i16 s2) ==[2 ^ 16] x - s1 - s2). by rewrite !as_i16_ceq.
Qed.

Lemma share_item_shares x : gens (R := R) (share_item x) (fun t => dist_int u16 t x).
Proof.
  eapply gens_bind; [apply gens_u16|]. intros s1 H1. eapply gens_bind; [apply gens_u16|]. intros s2 H2.
  eapply gens_bind; [apply gens_u16|]. intros m1 H3. eapply gens_bind; [apply gens_u16|]. intros m2 H4.
  apply gens_ret. split; by apply rest_share, rest_wrapping.
Qed.

(** The distances the generator draws. *)
Definition drawn (d : dist) : Prop := -12000 <= d.1 < 12000 /\ 6000 <= d.2 < 12000.

Lemma draw_item_drawn : gens (R := R) draw_item drawn.
Proof.
  eapply gens_bind; [by apply gens_range|]. intros mask Hm. eapply gens_bind; [by apply gens_range|]. intros code Hc.
  by apply gens_ret.
Qed.

(** Cutting a list into pieces of given sizes. *)
Fixpoint cut {A} (sizes : list nat) (l : list A) : list (list A) :=
  match sizes with [] => [] | n :: sizes => take n l :: cut sizes (drop n l) end.

Lemma bundle_at_take {A} (items : list A) idx size :
  (idx + size <= length items)%nat -> bundle_at items idx size = Ok (take size (drop idx items)).
Proof.
  revert idx. induction size as [|size IH]; intros idx H; [done|]. cbn [bundle_at].
  destruct (lookup_lt_is_Some_2 items idx) as [x Hx]; [lia|]. rewrite (index_lookup _ _ _ Hx). cbn [mbind result_bind].
  rewrite IH by lia. cbn. by rewrite (drop_S items x idx), Nat.add_1_r by done.
Qed.

Lemma bundles_at_cut {A} (items : list A) sizes idx :
  (idx + sum_list sizes <= length items)%nat ->
  bundles_at items idx sizes = Ok (cut sizes (drop idx items), (idx + sum_list sizes)%nat).
Proof.
  revert idx. induction sizes as [|n sizes IH]; intros idx H; [cbn; by rewrite Nat.add_0_r|]. cbn [bundles_at].
  change (sum_list (n :: sizes)) with (n + sum_list sizes)%nat in *.
  rewrite bundle_at_take by lia. cbn [mbind result_bind]. rewrite IH by lia. cbn [cut fst snd]. rewrite drop_drop. cbn. by rewrite Nat.add_assoc.
Qed.

Lemma into_sizes_cut {A} (items : list A) sizes : length items = sum_list sizes -> into_sizes (length items) sizes items = Ok (cut sizes items).
Proof. intros H. unfold into_sizes. rewrite bundles_at_cut by lia. cbn. by rewrite H, Nat.eqb_refl. Qed.

Lemma tvec_cut {A B} (P : tri A -> B -> Prop) sizes v xs : tvec P v xs -> tvec (tvec P) (cut sizes <$> v) (cut sizes xs).
Proof.
  revert v xs. induction sizes as [|n sizes IH]; intros v xs H; [apply tvec_nil|].
  exact (tvec_cons (tvec P) _ _ _ _ (tvec_take P n _ _ H) (IH _ _ (tvec_drop P n _ _ H))).
Qed.

Lemma cut_lengths {A} sizes (l : list A) : length l = sum_list sizes -> length <$> cut sizes l = sizes.
Proof.
  revert l. induction sizes as [|n sizes IH]; intros l H; [done|]. change (sum_list (n :: sizes)) with (n + sum_list sizes)%nat in H.
  cbn [cut]. rewrite fmap_cons, length_take, IH by (rewrite length_drop; lia). f_equal. lia.
Qed.

Lemma cut_Forall {A} (P : A -> Prop) sizes l : Forall P l -> Forall (Forall P) (cut sizes l).
Proof. revert l. induction sizes as [|n sizes IH]; intros l H; constructor; [by apply Forall_take|by apply IH, Forall_drop]. Qed.

Lemma generate_items_spec sizes :
  gens (R := R) (generate_items sizes)
    (fun p => length <$> p.1 = sizes /\ Forall (Forall drawn) p.1 /\ tvec (tvec (dist_int u16)) p.2 p.1).
Proof.
  eapply gens_bind; [apply gens_repeat, draw_item_drawn|]. intros items [Hl Hd].
  eapply gens_bind; [apply gens_map, share_item_shares|]. intros ts Hts.
  assert (forall i, into_sizes (length items) sizes ((multiunzip ts) @ i) = Ok (cut sizes ((multiunzip ts) @ i))) as Hc.
  { intros i. rewrite <- (tvec_length _ _ _ i Hts). apply into_sizes_cut. by rewrite (tvec_length _ _ _ i Hts). }
  eapply gens_bind; [eapply (gens_lift _ _ (eq (cut sizes items))); [by apply into_sizes_cut|done]|]. intros ? <-.
  eapply gens_bind; [eapply (gens_lift _ _ (eq _)); [apply (Hc ID0)|reflexivity]|]. intros ? <-.
  eapply gens_bind; [eapply (gens_lift _ _ (eq _)); [apply (Hc ID1)|reflexivity]|]. intros ? <-.
  eapply gens_bind; [eapply (gens_lift _ _ (eq _)); [apply (Hc ID2)|reflexivity]|]. intros ? <-.
  apply gens_ret. cbn [fst snd]. split_and!; [by apply cut_lengths|by apply cut_Forall|]. exact (tvec_cut _ sizes _ _ Hts).
Qed.

Lemma draw_sizes_spec n m :
  (0 < m)%nat -> gens (R := R) (draw_sizes n m) (fun sizes => length sizes = n /\ Forall (fun k => 1 <= k <= m)%nat sizes).
Proof.
  intros Hm. apply gens_repeat. eapply gens_bind; [apply gens_range; lia|]. intros k Hk. apply gens_ret. cbn beta in *. lia.
Qed.

(** A group of test distances: between one and [m] of them, each drawn from its
    range. *)
Definition drawn_group (m : nat) (g : list dist) : Prop := (1 <= length g <= m)%nat /\ Forall drawn g.

Lemma drawn_groups m gs : Forall (fun k => 1 <= k <= m)%nat (length <$> gs) -> Forall (Forall drawn) gs -> Forall (drawn_group m) gs.
Proof. rewrite Forall_fmap. rewrite !Forall_forall. intros H1 H2 g Hg. split; [by apply H1|by apply H2]. Qed.

Lemma test_of_shares {D B} (ds : list D) (v : tri (list B)) : test_shares (test_of ds v) = v.
Proof. by destruct v. Qed.

(** The generators return, and their shares are shares of their distances: the
    three lists are what the parties of a job hold.  With no rotation allowed
    there is no size to draw. *)
Theorem generated_1d n m :
  (0 < m)%nat ->
  gens (R := R) (generate_1d n m)
    (fun t => length (distances t) = n /\ Forall (drawn_group m) (distances t) /\ tvec (tvec (dist_int u16)) (test_shares t) (distances t)).
Proof.
  intros Hm. eapply gens_bind; [by apply draw_sizes_spec|]. intros sizes [Hn Hs].
  eapply gens_bind; [apply generate_items_spec|]. intros [gs v] (Hl & Hd & Hv). apply gens_ret. rewrite test_of_shares. cbn [distances test_of fst snd] in *.
  split_and!; [by rewrite <- (length_fmap length), Hl| |done]. apply drawn_groups; [by rewrite Hl|done].
Qed.

Theorem generated_2d n m :
  (0 < m)%nat ->
  gens (R := R) (generate_2d n m)
    (fun t => length (distances t) = n /\ Forall (fun d => drawn_group m d.1 /\ drawn_group m d.2) (distances t) /\
       tvec (fun t d => tvec (dist_int u16) (fst <$> t) d.1 /\ tvec (dist_int u16) (snd <$> t) d.2) (test_shares t) (distances t)).
Proof.
  intros Hm. eapply gens_bind; [by apply draw_sizes_spec|]. intros sizes [Hn Hs].
  eapply gens_bind; [apply generate_items_spec|]. intros [gl vl] (Hl & Hdl & Hvl). eapply gens_bind; [apply generate_items_spec|].
  intros [gr vr] (Hr & Hdr & Hvr). apply gens_ret. rewrite test_of_shares. cbn [distances test_of fst snd] in *.
  assert (length gl = n /\ length gr = n) as [El Er] by (split; [rewrite <- (length_fmap length), Hl|rewrite <- (length_fmap length), Hr]; done).
  split_and!; [rewrite length_zip; lia| |].
  - assert (Forall (drawn_group m) gl) as Fl by (apply drawn_groups; [by rewrite Hl|done]).
    assert (Forall (drawn_group m) gr) as Fr by (apply drawn_groups; [by rewrite Hr|done]).
    clear -Fl Fr El Er. revert gr Fr n El Er. induction Fl as [|g gl Hg Fl IH]; intros gr Fr n El Er; [constructor|].
    destruct Fr as [|g' gr Hg' Fr]; constructor; [done|]. apply (IH gr Fr (length gl)); [done|]. cbn in *. lia.
  - apply (tvec_zip (tvec (dist_int u16)) (tvec (dist_int u16)) _ (fun _ => pair) pair); [|done..].
    intros s x r y Hs' Hr'. split; by destruct s, r.
Qed.

Theorem generated_face n :
  gens (R := R) (generate_face n)
    (fun t => length (distances t) = n /\ Forall (fun d => -1000 <= d <= 5000) (distances t) /\ tvec (shares_int u16) (test_shares t) (distances t)).
Proof.
  eapply gens_bind; [by apply gens_repeat, gens_range|]. intros ds [Hn Hd]. eapply gens_bind; [apply gens_map, share_face_shares|].
  intros ts Hts. apply gens_ret. rewrite test_of_shares. split_and!; [done| |done]. eapply Forall_impl; [exact Hd|]. cbn. lia.
Qed.

Lemma draw_pair_spec lo hi :
  lo < hi ->
  gens (R := R) (draw_pair lo hi)
    (fun p => (lo <= p.1.1 < hi /\ lo <= p.1.2 < hi) /\ shares_int u16 (fst <$> p.2) p.1.1 /\ shares_int u16 (snd <$> p.2) p.1.2).
Proof.
  intros H. eapply gens_bind; [by apply gens_range|]. intros x Hx. eapply gens_bind; [by apply gens_range|]. intros y Hy.
  eapply gens_bind; [apply share_value_shares|]. intros l Hl. eapply gens_bind; [apply share_value_shares|]. intros r Hr.
  apply gens_ret. split; [done|]. cbn [fst snd]. by destruct l, r.
Qed.

Theorem generated_di n lo hi :
  lo < hi ->
  gens (R := R) (generate_di n lo hi)
    (fun t => length (distances t) = n /\ Forall (fun d => lo <= d.1 < hi /\ lo <= d.2 < hi) (distances t) /\
       tvec (fun t d => shares_int u16 (fst <$> t) d.1 /\ shares_int u16 (snd <$> t) d.2) (test_shares t) (distances t)).
Proof.
  intros H. eapply gens_bind; [by apply gens_repeat, draw_pair_spec|]. intros rows [Hn Hr]. apply gens_ret.
  rewrite test_of_shares. cbn [distances test_of]. split_and!.
  - by rewrite length_fmap.
  - apply Forall_fmap. eapply Forall_impl; [exact Hr|]. by intros p [].
  - clear Hn. induction Hr as [|p rows [_ Hp] Hr IH]; [apply tvec_nil|]. exact (tvec_cons _ p.2 _ p.1 _ Hp IH).
Qed.
End Generated.

(** Without rotations the first size cannot be drawn. *)
Lemma generate_no_rotations {R : Rng} `{!GenRange R} n r : generate_1d (R := R) (S n) 0 r = panic "cannot sample empty range".
Proof. reflexivity. Qed.

(** ** What the references compute *)

Section Counted.
Context {D : Type} (w : Z).

Lemma count_row_spec (tests : list (D -> bool)) d pre mid post i :
  i = length pre -> length mid = length tests ->
  count_row w tests i d (pre ++ mid ++ post) = Ok (pre ++ zip_with (fun (test : D -> bool) c => (c + Z.b2z (test d)) mod 2 ^ w) tests mid ++ post).
Proof.
  revert pre mid i. induction tests as [|test tests IH]; intros pre mid i -> Hm; [by destruct mid|]. destruct mid as [|c mid]; [done|].
  cbn [count_row]. rewrite (index_lookup _ _ c) by by rewrite lookup_app_r, Nat.sub_diag by lia. cbn [mbind result_bind].
  rewrite set_index_ok by (rewrite length_app; cbn; lia). cbn [mbind result_bind]. rewrite insert_app_r_alt, Nat.sub_diag by lia.
  cbn [insert list_insert app zip_with]. set (c' := (c + Z.b2z (test d)) mod 2 ^ w).
  change (pre ++ c' :: mid ++ post) with (pre ++ [c'] ++ mid ++ post). rewrite (app_assoc pre).
  rewrite IH by (rewrite ?length_app; cbn in *; lia). by rewrite <- app_assoc.
Qed.

Lemma count_row_app (r1 r2 : list (D -> bool)) i d acc :
  count_row w (r1 ++ r2) i d acc = (acc ← count_row w r1 i d acc; count_row w r2 (i + length r1) d acc).
Proof.
  revert i acc. induction r1 as [|t r1 IH]; intros i acc; [cbn; by rewrite Nat.add_0_r|]. cbn [app count_row length].
  destruct (index acc i) as [c|]; [|done]. cbn [mbind result_bind]. destruct (set_index acc i _) as [acc'|]; [|done]. cbn [mbind result_bind].
  rewrite IH. by replace (i + 1 + length r1)%nat with (i + S (length r1))%nat by lia.
Qed.

(** The rows of the square are one long row. *)
Lemma count_rows_concat n (rows : list (list (D -> bool))) i d acc :
  Forall (fun row => length row = n) rows -> count_rows w n rows i d acc = count_row w (concat rows) (i * n) d acc.
Proof.
  intros H. revert i acc. induction H as [|row rows Hr H IH]; intros i acc; [done|]. cbn [count_rows concat]. rewrite count_row_app, Hr.
  destruct (count_row w row (i * n) d acc); [|done]. cbn [mbind result_bind]. rewrite IH. f_equal. lia.
Qed.

Lemma count_all_from (tests : list (D -> bool)) ds (h : (D -> bool) -> Z) :
  count_all (count_row w tests 0) ds ((fun t => h t mod 2 ^ w) <$> tests) = Ok ((fun t => (h t + number t ds) mod 2 ^ w) <$> tests).
Proof.
  revert h. induction ds as [|d ds IH]; intros h; cbn [count_all].
  { f_equal. apply list_fmap_ext. intros _ t _. by rewrite Z.add_0_r. }
  set (mid := (fun t => h t mod 2 ^ w) <$> tests).
  pose proof (count_row_spec tests d [] mid [] 0 eq_refl) as E. rewrite !app_nil_r in E. cbn [app] in E. rewrite E by apply length_fmap.
  cbn [mbind result_bind].
  assert (zip_with (fun (test : D -> bool) c => (c + Z.b2z (test d)) mod 2 ^ w) tests mid = (fun t => (h t + Z.b2z (t d)) mod 2 ^ w) <$> tests) as ->.
  { unfold mid. clear. induction tests as [|t tests IH]; [done|]. rewrite !fmap_cons. cbn [zip_with]. by rewrite IH, Zplus_mod_idemp_l. }
  rewrite (IH (fun t => h t + Z.b2z (t d))). f_equal. apply list_fmap_ext. intros _ t _. rewrite number_cons. f_equal. destruct (t d); cbn; lia.
Qed.

(** Counters that do not overflow hold the numbers of accepted values. *)
Lemma count_all_spec (tests : list (D -> bool)) ds n :
  n = length tests -> Z.of_nat (length ds) < 2 ^ w ->
  count_all (count_row w tests 0) ds (replicate n 0) = Ok ((fun t => number t ds) <$> tests).
Proof.
  intros -> H. pose proof (count_all_from tests ds (fun _ => 0)) as E.
  replace ((fun _ : D -> bool => 0 mod 2 ^ w) <$> tests) with (replicate (length tests) 0) in E.
  2:{ clear. induction tests as [|t tests IH]; [done|]. rewrite fmap_cons. cbn [length replicate]. by rewrite IH, Zmod_0_l. }
  rewrite E. f_equal. apply list_fmap_ext. intros _ t _. rewrite Z.add_0_l. apply Z.mod_small.
  pose proof (number_nonneg t ds). pose proof (number_le t ds). lia.
Qed.
End Counted.

Lemma count_pairs_spec {X D} (accept : X -> D -> bool) (x0 : X) thresholds (ds : list (D * D)) :
  Z.of_nat (length ds) < 2 ^ 32 ->
  count_all (count_rows 32 (length thresholds) (test_rows accept thresholds) 0) ds (replicate (length thresholds * length thresholds) 0)
  = Ok (cumulative_counts_2d (fun k => accept (nth k thresholds x0)) (fun k => accept (nth k thresholds x0)) (length thresholds) ds).
Proof.
  intros H. set (n := length thresholds). set (tests := (fun '(x, y) => both (accept x) (accept y)) <$> pairs thresholds thresholds).
  assert (concat (test_rows accept thresholds) = tests) as Et.
  { assert (forall us ts, concat ((fun x => (fun y (d : D * D) => accept x d.1 && accept y d.2) <$> us) <$> ts)
      = (fun '(x, y) => both (accept x) (accept y)) <$> pairs ts us) as Hc; [|apply Hc]. clear. intros us ts.
    induction ts as [|x ts IH]; [done|]. rewrite pairs_cons, fmap_app, fmap_cons. cbn [concat]. rewrite IH, <- list_fmap_compose. done. }
  assert (forall d acc, count_rows 32 n (test_rows accept thresholds) 0 d acc = count_row 32 tests 0 d acc) as Er.
  { intros d acc. rewrite count_rows_concat, Et; [done|]. apply Forall_fmap, Forall_true. intros x. cbn. by rewrite length_fmap. }
  assert (forall ds acc, count_all (count_rows 32 n (test_rows accept thresholds) 0) ds acc = count_all (count_row 32 tests 0) ds acc) as Ea.
  { clear -Er. intros ds. induction ds as [|d ds IH]; intros acc; [done|]. cbn [count_all]. rewrite Er.
    destruct (count_row 32 tests 0 d acc); [|done]. apply IH. }
  rewrite Ea, count_all_spec; [|by unfold tests; rewrite length_fmap, length_pairs|done].
  f_equal. rewrite <- (cells_cumulative accept accept thresholds thresholds x0 x0 n ds) by done. unfold tests. rewrite <- list_fmap_compose.
  apply list_fmap_ext. by intros _ [x y] _.
Qed.

Lemma windows_nth {A} (l : list A) (a : A) : windows2 l = (fun i => (nth i l a, nth (i + 1) l a)) <$> seq 0 (length l - 1).
Proof.
  unfold windows2. induction l as [|x l IH]; [done|]. destruct l as [|y l]; [done|]. cbn [tail zip zip_with] in *.
  cbn [length Nat.sub] in *. rewrite Nat.sub_0_r in *. cbn [seq]. rewrite fmap_cons, <- fmap_S_seq, <- list_fmap_compose. f_equal. exact IH.
Qed.

Lemma enumerate_fmap_seq {A} (f : nat -> A) n : enumerate (f <$> seq 0 n) = (fun i => (i, f i)) <$> seq 0 n.
Proof.
  unfold enumerate. rewrite length_fmap, length_seq. generalize 0%nat. induction n as [|n IH]; intros k; [done|]. cbn [seq]. rewrite !fmap_cons.
  cbn [zip zip_with]. by rewrite IH.
Qed.

Lemma window_counts_spec {A} (limit : A -> f64) counts (l : list A) (a : A) :
  length counts = length l ->
  window_counts limit counts l
  = Ok ((fun i => mkBucket ((nth (i + 1) counts 0 - nth i counts 0) mod 2 ^ 64) (limit (nth i l a), limit (nth (i + 1) l a))) <$> seq 0 (length l - 1)).
Proof.
  intros Hl. unfold window_counts. rewrite (windows_nth l a), enumerate_fmap_seq.
  set (g := fun p : nat * (A * A) => mkBucket ((nth (p.1 + 1) counts 0 - nth p.1 counts 0) mod 2 ^ 64) (limit p.2.1, limit p.2.2)).
  rewrite (mapM_result_ok _ g).
  - rewrite <- list_fmap_compose. done.
  - intros p (i & -> & Hi)%list_elem_of_fmap. apply elem_of_seq in Hi.
    assert (forall k, (k < length l)%nat -> index counts k = Ok (nth k counts 0)) as Hk.
    { intros k Hk. apply index_lookup. destruct (nth_lookup_or_length counts k 0); [done|lia]. }
    rewrite !Hk by lia. done.
Qed.

(** The reference of the face job returns the histogram that
    [process_face_correct] says the parties publish. *)
Theorem face_ground_truth_reported t ts t0 t1 config operation start :
  face_bucket_thresholds config = ts -> StronglySorted Z.le ts -> Z.of_nat (length (distances t)) < 2 ^ 64 ->
  face_ground_truth_buckets t ts = Ok (buckets (reported_face t0 t1 config operation start (distances t))).
Proof.
  intros Hcfg Hs Hn. unfold face_ground_truth_buckets, reported_face. rewrite count_all_spec, Hcfg by (rewrite ?length_fmap; done).
  cbn [mbind result_bind buckets]. rewrite <- list_fmap_compose, (window_counts_spec _ _ _ 0) by apply length_fmap. f_equal. unfold face_histogram.
  change (zip ts (tail ts)) with (windows2 ts). rewrite (windows_nth ts 0), <- list_fmap_compose. apply list_fmap_ext.
  intros i ? (-> & Hi)%lookup_seq. cbn [compose Nat.add]. rewrite !(fmap_nth _ ts 0).
  assert (forall k, (k < length ts)%nat ->
    nth k ((fun k => (fun t0 => number (fun d => d <? t0) (distances t)) (nth k ts 0)) <$> seq 0 (length ts)) 0 = number (fun d => d <? nth k ts 0) (distances t)) as Hk.
  { intros k Hk. apply nth_lookup_Some. rewrite list_lookup_fmap, lookup_seq_lt by done. done. }
  cbn beta in Hk. unfold compose. rewrite !Hk by lia. rewrite Nat.add_1_r. pose proof (sorted_step Z.le ts 0 i Hs ltac:(lia)) as Hle.
  rewrite number_between by done. f_equal. apply Z.mod_small.
  pose proof (number_nonneg (fun d => (nth i ts 0 <=? d) && (d <? nth (S i) ts 0)) (distances t)) as Hp. rewrite number_between in Hp by done.
  pose proof (number_le (fun d => d <? nth (S i) ts 0) (distances t)). pose proof (number_nonneg (fun d => d <? nth i ts 0) (distances t)). lia.
Qed.

(** The same for the Deep Identifier job and [process_di_correct]. *)
Theorem di_ground_truth_reported t ts t0 t1 operation u0 u1 config origin start rate lm rm :
  di_2d_bucket_thresholds config = ts -> StronglySorted Z.le ts -> Z.of_nat (length (distances t)) < 2 ^ 32 ->
  exists stats, di_ground_truth_buckets t0 t1 t ts operation = Ok stats /\
    buckets_2d stats = buckets_2d (reported_di u0 u1 config origin operation start rate lm rm (distances t)).
Proof.
  intros Hcfg Hs Hn. unfold di_ground_truth_buckets. rewrite (count_pairs_spec (fun t d => d <? t) 0) by done. eexists. split; [reflexivity|].
  unfold fill_buckets_di, reported_di. cbn [buckets_2d filled_2d]. rewrite Hcfg. apply filled_cells_histogram.
  apply Forall_true. intros d. split; by apply below_nested.
Qed.

(** The distance [reduce] keeps of a group that is not empty. *)
Definition nearest_of (f : dist -> f64) (g : list dist) : dist := default (0, 0) (nearest f g).

(** The [k]-th threshold accepts the group. *)
Definition reference_within {X} (f : dist -> f64) (accepts : X -> dist -> bool) (thresholds : list X) (x0 : X) (k : nat) (g : list dist) : bool :=
  accepts (nth k thresholds x0) (nearest_of f g).

(** Buckets that start at zero and end at the thresholds. *)
Definition limits_from_zero (edges : list f64) (i : nat) : f64 * f64 :=
  (nth i (f64_of_int 0 :: edges) (f64_of_int 0), nth i edges (f64_of_int 0)).

Lemma number_fmap {A D} (h : A -> D) (p : D -> bool) l : number p (h <$> l) = number (fun x => p (h x)) l.
Proof. induction l as [|x l IH]; [done|]. rewrite fmap_cons, !number_cons, IH. done. Qed.

Lemma number_ext {D} (p q : D -> bool) l : Forall (fun d => p d = q d) l -> number p l = number q l.
Proof. induction 1 as [|d l Hd H IH]; [done|]. by rewrite !number_cons, Hd, IH. Qed.

Lemma reduce_group_ok f g : g <> [] -> reduce_group f g = Ok (nearest_of f g).
Proof. by destruct g. Qed.

Lemma reduce_groups f gs : Forall (fun g => g <> []) gs -> mapM_result (reduce_group f) gs = Ok (nearest_of f <$> gs).
Proof. intros H. apply mapM_result_ok. intros g Hg. apply reduce_group_ok. revert g Hg. by apply Forall_forall. Qed.

Section Referenced.
Context {X : Type} (f : dist -> f64) (accepts : X -> dist -> bool) (thresholds : list X) (x0 : X).
Let within := reference_within f accepts thresholds x0.

Lemma count_groups_spec gs :
  Forall (fun g => g <> []) gs -> Z.of_nat (length gs) < 2 ^ 64 ->
  count_groups f accepts thresholds gs = Ok (cumulative_counts within (length thresholds) gs).
Proof.
  intros Hg Hn. unfold count_groups. rewrite reduce_groups by done. cbn [mbind result_bind].
  rewrite count_all_spec by (rewrite ?length_fmap; done). f_equal. rewrite <- list_fmap_compose, (fmap_nth _ thresholds x0).
  apply list_fmap_ext. intros _ k _. exact (number_fmap (nearest_of f) (accepts (nth k thresholds x0)) gs).
Qed.

(** Cumulative counts become the histogram, the first bucket starting at zero. *)
Lemma buckets_from_zero_spec edges gs :
  length edges = length thresholds -> thresholds <> [] -> Z.of_nat (length gs) < 2 ^ 64 -> Forall (nested within (length thresholds)) gs ->
  buckets_from_zero (cumulative_counts within (length thresholds) gs) edges
  = Ok (histogram_1d within (length thresholds) (limits_from_zero edges) gs).
Proof.
  intros He Hne Hn Hd. set (n := length thresholds) in *. assert (0 < n)%nat as H0 by (unfold n; destruct thresholds; [done|cbn; lia]).
  assert (forall k, (k < n)%nat -> nth k (cumulative_counts within n gs) 0 = number (within k) gs) as Hk by (intros; by apply cumulative_nth).
  unfold buckets_from_zero. rewrite (index_lookup _ 0 (number (within 0%nat) gs)), (index_lookup edges 0 (nth 0 edges (f64_of_int 0))).
  2:{ destruct edges; [cbn in He; lia|done]. }
  2:{ unfold cumulative_counts. rewrite list_lookup_fmap, lookup_seq_lt by done. done. }
  cbn [mbind result_bind]. rewrite (window_counts_spec _ _ _ (f64_of_int 0)) by (unfold cumulative_counts; rewrite length_fmap, length_seq; done).
  cbn [mbind result_bind]. f_equal. unfold histogram_1d. rewrite He.
  assert (seq 0 n = 0%nat :: seq 1 (n - 1)) as -> by (destruct n; [lia|]; cbn [seq]; by rewrite Nat.sub_1_r). rewrite fmap_cons. f_equal.
  - unfold limits_from_zero. cbn [nth]. f_equal. rewrite (number_in_bucket within n) by done. cbn [before]. rewrite (number_false (fun _ => false)) by done. lia.
  - rewrite <- fmap_S_seq, <- list_fmap_compose. apply list_fmap_ext. intros i ? (-> & Hi)%lookup_seq. cbn [compose Nat.add]. unfold compose.
    rewrite !Hk, Nat.add_1_r by lia. unfold limits_from_zero. cbn [nth]. f_equal. rewrite (number_in_bucket within n) by (done || lia). cbn [before].
    apply Z.mod_small. pose proof (number_nonneg (in_bucket within (S i)) gs) as Hp. rewrite (number_in_bucket within n) in Hp by (done || lia).
    pose proof (number_le (within (S i)) gs). pose proof (number_nonneg (before within (S i)) gs). lia.
Qed.

Lemma reference_1d_histogram now function edges gs :
  length edges = length thresholds -> thresholds <> [] -> Z.of_nat (length gs) < 2 ^ 64 -> Forall (fun g => g <> []) gs ->
  Forall (nested within (length thresholds)) gs ->
  exists stats, reference_1d f accepts thresholds now function edges gs = Ok stats /\
    buckets stats = histogram_1d within (length thresholds) (limits_from_zero edges) gs.
Proof.
  intros. unfold reference_1d. rewrite count_groups_spec by done. cbn [mbind result_bind]. rewrite buckets_from_zero_spec by done.
  by eexists.
Qed.

Lemma reference_2d_histogram t0 t1 function gs :
  Z.of_nat (length gs) < 2 ^ 32 -> Forall (fun g => g.1 <> [] /\ g.2 <> []) gs ->
  Forall (nested_2d within within (length thresholds)) gs ->
  exists stats, reference_2d f accepts thresholds t0 t1 function gs = Ok stats /\
    buckets_2d stats = histogram_2d within within (uniform_limits MATCH_THRESHOLD_RATIO (length thresholds)) (length thresholds) gs.
Proof.
  intros Hn Hg Hd. unfold reference_2d, count_group_pairs.
  rewrite (mapM_result_ok _ (fun g => (nearest_of f g.1, nearest_of f g.2))).
  2:{ intros g Hin. apply Forall_forall with (x := g) in Hg as [H1 H2]; [|done]. by rewrite !reduce_group_ok. }
  cbn [mbind result_bind]. rewrite (count_pairs_spec accepts x0) by by rewrite length_fmap. eexists. split; [reflexivity|].
  unfold fill_buckets_2d. cbn [buckets_2d filled_2d statistics_2d_new n_buckets_per_side]. rewrite <- (filled_cells_histogram within within) by done.
  f_equal. apply list_fmap_ext. intros _ idx _. exact (number_fmap (fun g => (nearest_of f g.1, nearest_of f g.2)) (both _ _) gs).
Qed.
End Referenced.

(** ** References and jobs *)

(** Two tests that give the same answers for [n] thresholds. *)
Definition agree {D} (within within' : nat -> D -> bool) (n : nat) (d : D) : Prop := forall k, (k < n)%nat -> within k d = within' k d.

Lemma agree_in_bucket {D} (within within' : nat -> D -> bool) n d : agree within within' n d -> agree (in_bucket within) (in_bucket within') n d.
Proof. intros H k Hk. unfold in_bucket. rewrite H by done. destruct k as [|k]; [done|]. cbn [before]. by rewrite H by lia. Qed.

Lemma agree_nested {D} (within within' : nat -> D -> bool) n d : agree within within' n d -> nested within' n d -> nested within n d.
Proof. intros H Hn i Hi. rewrite !H by lia. by apply Hn. Qed.

Lemma agree_counts {D} (within within' : nat -> D -> bool) n limits limits' ds :
  Forall (agree within within' n) ds -> Buckets.count <$> histogram_1d within n limits ds = Buckets.count <$> histogram_1d within' n limits' ds.
Proof.
  intros H. unfold histogram_1d. rewrite <- !list_fmap_compose. apply list_fmap_ext. intros k ? (-> & Hk)%lookup_seq. cbn.
  apply number_ext. eapply Forall_impl; [exact H|]. intros d Hd. by apply (agree_in_bucket within within' n).
Qed.

Lemma agree_cells {D} (within within' : nat -> D -> bool) n limits (ds : list (D * D)) :
  Forall (fun d => agree within within' n d.1 /\ agree within within' n d.2) ds ->
  histogram_2d within within limits n ds = histogram_2d within' within' limits n ds.
Proof.
  intros H. unfold histogram_2d. apply list_omap_ext, Forall_Forall2_diag, Forall_forall. intros idx Hidx. apply elem_of_seq in Hidx.
  assert (n <> 0)%nat as Hn by lia. pose proof (Nat.mod_upper_bound idx n Hn). assert (idx / n < n)%nat by (apply Nat.Div0.div_lt_upper_bound; lia).
  assert (number (both (in_bucket within (idx / n)%nat) (in_bucket within (idx mod n)%nat)) ds
    = number (both (in_bucket within' (idx / n)%nat) (in_bucket within' (idx mod n)%nat)) ds) as ->; [|done].
  apply number_ext. eapply Forall_impl; [exact H|]. intros d [Hl Hr]. unfold both. f_equal; by apply (agree_in_bucket within within' n).
Qed.

(** The reference of the one-dimensional job counts what
    [process_1d_correct] says the parties publish, for groups on which the
    comparison in floating point agrees with the exact one. *)
Theorem ground_truth_1d_reported t terms now t0 t1 config origin operation start ratio :
  terms_ok terms -> terms <> [] -> Z.of_nat (length (distances t)) < 2 ^ 64 ->
  Forall (fun g => g <> [] /\ Forall ok_dist g) (distances t) ->
  Forall (agree (reference_within fhd fhd_accepts_1d terms 0) (fhd_group_within terms) (length terms)) (distances t) ->
  exists stats, ground_truth_buckets_1d now t terms = Ok stats /\
    Buckets.count <$> buckets stats
    = Buckets.count <$> buckets (reported_1d t0 t1 config origin operation start FHD ratio (length terms) (fhd_group_within terms) (distances t)).
Proof.
  intros Ht Hne Hn Hg Ha. destruct (reference_1d_histogram fhd fhd_accepts_1d terms 0 now FHD (fhd_edge <$> terms) (distances t)) as (stats & E & Hb).
  - apply length_fmap.
  - done.
  - done.
  - eapply Forall_impl; [exact Hg|]. by intros g [].
  - rewrite Forall_forall in Hg, Ha |- *. intros g Hin. eapply agree_nested; [by apply Ha|]. by apply fhd_group_nested, Hg.
  - exists stats. split; [exact E|]. rewrite Hb. by apply agree_counts.
Qed.

(** The same for the normalized distance. *)
Theorem nhd_ground_truth_1d_reported t ts now t0 t1 config origin operation start ratio :
  nhd_terms_ok ts -> ts <> [] -> Z.of_nat (length (distances t)) < 2 ^ 64 ->
  Forall (fun g => g <> [] /\ Forall ok_dist g) (distances t) ->
  Forall (agree (reference_within nhd nhd_accepts ts (S754_zero false)) (nhd_group_within ts) (length ts)) (distances t) ->
  exists stats, nhd_ground_truth_buckets_1d now t ts = Ok stats /\
    Buckets.count <$> buckets stats
    = Buckets.count <$> buckets (reported_1d t0 t1 config origin operation start NHD ratio (length ts) (nhd_group_within ts) (distances t)).
Proof.
  intros Ht Hne Hn Hg Ha. destruct (reference_1d_histogram nhd nhd_accepts ts (S754_zero false) now NHD ts (distances t)) as (stats & E & Hb); try done.
  - eapply Forall_impl; [exact Hg|]. by intros g [].
  - rewrite Forall_forall in Hg, Ha |- *. intros g Hin. eapply agree_nested; [by apply Ha|]. by apply nhd_group_nested, Hg.
  - exists stats. split; [exact E|]. rewrite Hb. by apply agree_counts.
Qed.

(** In two dimensions the reference returns the cells that
    [process_2d_correct] says the parties publish, with their limits when the job
    uses [MATCH_THRESHOLD_RATIO]. *)
Theorem ground_truth_2d_reported t terms t0 t1 u0 u1 config origin operation start :
  terms_ok terms -> Z.of_nat (length (distances t)) < 2 ^ 32 ->
  Forall (fun g => (g.1 <> [] /\ Forall ok_dist g.1) /\ (g.2 <> [] /\ Forall ok_dist g.2)) (distances t) ->
  Forall (fun g => agree (reference_within fhd fhd_accepts_2d terms 0) (fhd_group_within terms) (length terms) g.1 /\
                   agree (reference_within fhd fhd_accepts_2d terms 0) (fhd_group_within terms) (length terms) g.2) (distances t) ->
  exists stats, ground_truth_buckets_2d t0 t1 t terms = Ok stats /\
    buckets_2d stats
    = buckets_2d (reported_2d u0 u1 config origin operation start FHD MATCH_THRESHOLD_RATIO (length terms) (fhd_group_within terms) (distances t)).
Proof.
  intros Ht Hn Hg Ha. destruct (reference_2d_histogram fhd fhd_accepts_2d terms 0 t0 t1 FHD (distances t)) as (stats & E & Hb).
  - done.
  - eapply Forall_impl; [exact Hg|]. by intros g [[] []].
  - rewrite Forall_forall in Hg, Ha |- *. intros g Hin. destruct (Hg g Hin) as [[_ H1] [_ H2]], (Ha g Hin) as [A1 A2].
    split; (eapply agree_nested; [eassumption|]); by apply fhd_group_nested.
  - exists stats. split; [exact E|]. rewrite Hb. by apply agree_cells.
Qed.

(** ** Concrete data *)

#[export] Instance counter_range : GenRange counter_rng := fun lo hi r => (lo + (r * 7919) mod (hi - lo), r + 1).
#[export] Instance counter_range_ok : GenRangeOk counter_rng.
Proof. intros lo hi r H. unfold range_draw, counter_range. cbn. pose proof (Z.mod_pos_bound (r * 7919) (hi - lo)). lia. Qed.

Definition agree_check {D} (within within' : nat -> D -> bool) (n : nat) (ds : list D) : bool :=
  forallb (fun d => forallb (fun k => eqb (within k d) (within' k d)) (seq 0 n)) ds.

Lemma agree_check_spec {D} (within within' : nat -> D -> bool) n ds : agree_check within within' n ds = true -> Forall (agree within within' n) ds.
Proof.
  unfold agree_check. rewrite forallb_forall, Forall_forall. intros H d Hd k Hk. apply list_elem_of_In in Hd. specialize (H d Hd).
  rewrite forallb_forall in H. apply eqb_prop, H, in_seq. lia.
Qed.

Definition demo_test : TestDistances (list dist) DistanceBundle1D := test_of demo_groups (deal_groups u16).

(** The groups of the examples, with the default numbers of buckets: the two
    comparisons agree. *)
Example references_agree :
  match calculate_iris_threshold_a 10 MATCH_THRESHOLD_RATIO with
  | Ok terms =>
      agree_check (reference_within fhd fhd_accepts_1d terms 0) (fhd_group_within terms) 10 demo_groups &&
      agree_check (reference_within fhd fhd_accepts_2d terms 0) (fhd_group_within terms) 10 demo_groups
  | Err _ => false
  end = true /\
  (let ts := calculate_iris_threshold_score_normalization 10 (nhd_threshold_ratio demo_config) in
   agree_check (reference_within nhd nhd_accepts ts (S754_zero false)) (nhd_group_within ts) 10 demo_groups) = true.
Proof. split; vm_compute; reflexivity. Qed.

(** The counts of the reference for the examples. *)
Example ground_truth_demo :
  (terms ← calculate_iris_threshold_a 10 MATCH_THRESHOLD_RATIO; stats ← ground_truth_buckets_1d 0 demo_test terms; Ok (Buckets.count <$> buckets stats))
  = Ok [1; 0; 0; 0; 0; 0; 1; 0; 0; 0].
Proof. vm_compute. reflexivity. Qed.

(** An entry drawn by the counter generator. *)
Example generate_face_demo :
  (fun p : TestDistances Z Share * Z => distances p.1) <$> generate_face (R := counter_rng) 3 5 = Ok [-1000 + (5 * 7919) mod 6001; -1000 + (6 * 7919) mod 6001; -1000 + (7 * 7919) mod 6001].
Proof. reflexivity. Qed.
