(* ===== verification/AnonStore.v ===== *)
(** * The store of anonymised statistics: [ampc-anon-stats/src/store/mod.rs]

    Producers insert bundles of distance shares, each under a match id and with
    the origin and operation they belong to; the job loop counts, fetches and
    marks them, or clears them.  A table is its rows, in whatever order the
    database keeps them, and its sequence of ids; every statement the code sends
    is a function of the table.  [bincode] is a parameter.

    The specification is a log of pending entries in the order of insertion,
    labelled with values of the source's types: no codes, bytes, flags, chunks
    or transactions.  Every call on a table gets the answers of the log
    ([execute_simulates]); StoreSpec.v puts the tables of the store together. *)

From S2P Require Import Prelude F64 Buckets.
From stdpp Require Import base list numbers option strings sorting.
From Stdlib Require Import ZArith Lia Sorted.
Local Open Scope Z_scope.

#[export] Instance Eye_eq_dec : EqDecision Eye.
Proof. solve_decision. Defined.
#[export] Instance AnonStatsOrientation_eq_dec : EqDecision AnonStatsOrientation.
Proof. solve_decision. Defined.
#[export] Instance AnonStatsContext_eq_dec : EqDecision AnonStatsContext.
Proof. solve_decision. Defined.
#[export] Instance AnonStatsOrigin_eq_dec : EqDecision AnonStatsOrigin.
Proof. solve_decision. Defined.
#[export] Instance AnonStatsOperation_eq_dec : EqDecision AnonStatsOperation.
Proof. solve_decision. Defined.

(** ** Tables *)

(** [bincode::serialize] and [bincode::deserialize] at a type of bundles. *)
Class Bincode (T : Type) := { bincode_serialize : T -> list Z; bincode_deserialize : list Z -> option T }.
Class BincodeOk (T : Type) `{!Bincode T} : Prop :=
  bincode_roundtrip x : bincode_deserialize (bincode_serialize x) = Some x.

(** The columns of all tables; [row_key] is [match_id], resp. [query_id], and
    [row_extra] holds the columns that only one table has. *)
Record row (X : Type) := mkRow {
  row_id : Z;
  row_key : Z;
  row_bundle : list Z;
  row_processed : bool;
  row_origin : Z;
  row_operation : Z;
  row_extra : X;
}.
Arguments mkRow {X} _ _ _ _ _ _ _.
Arguments row_id {X} _.
Arguments row_key {X} _.
Arguments row_bundle {X} _.
Arguments row_processed {X} _.
Arguments row_origin {X} _.
Arguments row_operation {X} _.
Arguments row_extra {X} _.

(** [nextval]: the next value of the sequence behind [BIGSERIAL]. *)
Record table (X : Type) := mkTable { rows : list (row X); nextval : Z }.
Arguments mkTable {X} _ _.
Arguments rows {X} _.
Arguments nextval {X} _.

(** The columns of [anon_stats_2d_di] alone: the sampling rate and the two
    mirror matches; [anon_stats_face] alone has the size of the bundle. *)
Abbreviation di_meta := (Z * bool * bool)%type.

(* store/mod.rs:15-18 AnonStatsStore *)
Record AnonStatsStore := mkStore {
  anon_stats_1d : table unit;
  anon_stats_1d_lifted : table unit;
  anon_stats_2d : table unit;
  anon_stats_2d_lifted : table unit;
  anon_stats_2d_di : table di_meta;
  anon_stats_face : table Z;
}.

Definition set_1d s t := mkStore t (anon_stats_1d_lifted s) (anon_stats_2d s) (anon_stats_2d_lifted s) (anon_stats_2d_di s) (anon_stats_face s).
Definition set_1d_lifted s t := mkStore (anon_stats_1d s) t (anon_stats_2d s) (anon_stats_2d_lifted s) (anon_stats_2d_di s) (anon_stats_face s).
Definition set_2d s t := mkStore (anon_stats_1d s) (anon_stats_1d_lifted s) t (anon_stats_2d_lifted s) (anon_stats_2d_di s) (anon_stats_face s).
Definition set_2d_lifted s t := mkStore (anon_stats_1d s) (anon_stats_1d_lifted s) (anon_stats_2d s) t (anon_stats_2d_di s) (anon_stats_face s).
Definition set_2d_di s t := mkStore (anon_stats_1d s) (anon_stats_1d_lifted s) (anon_stats_2d s) (anon_stats_2d_lifted s) t (anon_stats_face s).
Definition set_face s t := mkStore (anon_stats_1d s) (anon_stats_1d_lifted s) (anon_stats_2d s) (anon_stats_2d_lifted s) (anon_stats_2d_di s) t.

(** ** Statements *)

Section Statements.
Context {X : Type} `{!EqDecision X}.
Implicit Types (t : table X) (r : row X).

(** [WHERE processed = FALSE AND origin = $1 [AND operation = $2] ..]: an
    absent parameter leaves its condition out. *)
Definition available (origin : AnonStatsOrigin) (operation : option AnonStatsOperation) (extra : option X) r : bool :=
  negb (row_processed r) && (row_origin r =? origin_to_i16 origin)
  && match operation with Some op => row_operation r =? operation_to_i16 op | None => true end
  && match extra with Some x => bool_decide (row_extra r = x) | None => true end.

(** [ORDER BY key ASC]. *)
Definition key_le (key : row X -> Z) : relation (row X) := fun r r' => key r <= key r'.
#[export] Instance key_le_dec key : RelDecision (key_le key) := fun r r' => decide (key r <= key r').
Definition order_by (key : row X -> Z) (rs : list (row X)) : list (row X) := merge_sort (key_le key) rs.

(** [usize as i64]. *)
Definition limit_i64 (limit : Z) : Z := if limit <? 2 ^ 63 then limit else limit - 2 ^ 64.

(** [ORDER BY id ASC LIMIT n]; the database refuses a negative limit. *)
Definition first_rows (limit : Z) (rs : list (row X)) : result (list (row X)) :=
  if limit <? 0 then bail "LIMIT must not be negative"
  else Ok (take (Z.to_nat (Z.min limit (Z.of_nat (length rs)))) (order_by row_id rs)).

(* store/mod.rs:56-77 AnonStatsStore::num_available_anon_stats *)
Definition num_available_anon_stats t (origin : AnonStatsOrigin) (operation : option AnonStatsOperation) (extra : option X) : Z :=
  Z.of_nat (length (filter (available origin operation extra) (rows t))).

(* store/mod.rs:160-169 AnonStatsStore::get_available_anon_stats (row) *)
Definition decode_row {T} `{!Bincode T} r : result (Z * (Z * T)) :=
  match bincode_deserialize (row_bundle r) with
  | Some bundle => Ok (row_id r, (row_key r, bundle))
  | None => bail "Failed to deserialize distance bundle"
  end.

(* store/mod.rs:138-179 AnonStatsStore::get_available_anon_stats *)
Definition get_available_anon_stats {T} `{!Bincode T} t (origin : AnonStatsOrigin) (operation : option AnonStatsOperation)
    (extra : option X) (limit : Z) : result (list Z * list (Z * T)) :=
  res ← first_rows (limit_i64 limit) (filter (available origin operation extra) (rows t));
  pairs ← mapM_result decode_row res;
  Ok (pairs.*1, pairs.*2).

Definition mark_row (ids : list Z) r : row X :=
  if bool_decide (row_id r ∈ ids)
  then mkRow (row_id r) (row_key r) (row_bundle r) true (row_origin r) (row_operation r) (row_extra r) else r.

(* store/mod.rs:272-287 AnonStatsStore::mark_anon_stats_processed *)
Definition mark_anon_stats_processed t (ids : list Z) : table X := mkTable (mark_row ids <$> rows t) (nextval t).

(** The table without the rows, and how many there were. *)
(* store/mod.rs:312-331 AnonStatsStore::clear_unprocessed_anon_stats *)
Definition clear_unprocessed_anon_stats t (origin : AnonStatsOrigin) (operation : option AnonStatsOperation) (extra : option X)
    : table X * Z :=
  (mkTable (filter (fun r => ~ available origin operation extra r) (rows t)) (nextval t),
   Z.of_nat (length (filter (available origin operation extra) (rows t)))).
End Statements.

(** ** Insertion *)

Section Insertion.
(** [max_binds]: how many bind parameters the database takes in a statement. *)
Context (max_binds : nat).

Definition ANON_STATS_INSERT_BATCH_SIZE : nat := Z.to_nat 10000.

Section Batch.
Context {X T : Type} `{!Bincode T}.
(** The parameters bound for a row, and the constraint on the extra columns. *)
Context (binds : nat) (check : X -> bool).

(** [INSERT INTO .. VALUES ..]: every row draws an id; a row that violates the
    constraint ends the statement. *)
Fixpoint insert_rows (t : table X) (stats : list (Z * X * T)) (origin operation : Z) : table X * result unit :=
  match stats with
  | [] => (t, Ok tt)
  | (id, x, bundle) :: stats =>
      let r := mkRow (nextval t) id (bincode_serialize bundle) false origin operation x in
      if check x then insert_rows (mkTable (rows t ++ [r]) (nextval t + 1)) stats origin operation
      else (mkTable (rows t) (nextval t + 1), bail "violates check constraint")
  end.

(** The outcome of a statement is the number of rows it inserted. *)
Definition execute_insert (t : table X) (chunk : list (Z * X * T)) (origin operation : Z) : table X * result nat :=
  if (max_binds <? length chunk * binds)%nat then (t, bail "too many arguments for query")
  else let '(t', res) := insert_rows t chunk origin operation in
       (t', _ ← res; Ok (length (rows t') - length (rows t))%nat).

(* store/mod.rs:413-443 AnonStatsStore::insert_anon_stats_batch (chunks) *)
Fixpoint insert_chunks (t : table X) (cs : list (list (Z * X * T))) (origin operation : Z) : table X * result unit :=
  match cs with
  | [] => (t, Ok tt)
  | chunk :: cs =>
      match execute_insert t chunk origin operation with
      | (t', Ok rows_affected) =>
          if negb (rows_affected =? length chunk)%nat then (t', bail "Expected to insert more rows")
          else insert_chunks t' cs origin operation
      | (t', Err e) => (t', Err e)
      end
  end.

(** A transaction that is not committed leaves the rows as they were; the ids
    it drew are not drawn again. *)
Definition insert_transaction (t : table X) (stats : list (Z * X * T)) (origin : AnonStatsOrigin) (operation : AnonStatsOperation)
    : table X * result unit :=
  if bool_decide (length stats = 0%nat) then (t, Ok tt) else
  match insert_chunks t (chunks ANON_STATS_INSERT_BATCH_SIZE stats) (origin_to_i16 origin) (operation_to_i16 operation) with
  | (t', Ok _) => (t', Ok tt)
  | (t', Err e) => (mkTable (rows t) (nextval t'), Err e)
  end.
End Batch.

Section Inserts.
Context {T : Type} `{!Bincode T}.

(* store/mod.rs:393-445 AnonStatsStore::insert_anon_stats_batch *)
Definition insert_anon_stats_batch (t : table unit) (anon_stats : list (Z * T)) (origin : AnonStatsOrigin) (operation : AnonStatsOperation)
    : table unit * result unit :=
  insert_transaction 4 (fun _ => true) t ((fun '(id, bundle) => (id, tt, bundle)) <$> anon_stats) origin operation.

(** The constraint [anon_stats_2d_di_sampling_rate_check] of the migrations. *)
Definition sampling_rate_check (x : di_meta) : bool := (1 <=? x.1.1) && (x.1.1 <=? 100).

(* store/mod.rs:447-526 AnonStatsStore::insert_anon_stats_batch_with_sampling_metadata *)
Definition insert_anon_stats_batch_with_sampling_metadata (t : table di_meta) (anon_stats : list (Z * di_meta * T))
    (origin : AnonStatsOrigin) (operation : AnonStatsOperation) : table di_meta * result unit :=
  insert_transaction 7 sampling_rate_check t anon_stats origin operation.
End Inserts.
End Insertion.

(** ** The methods of the store *)

Section Methods.
Implicit Types (self : AnonStatsStore) (origin : AnonStatsOrigin) (operation : option AnonStatsOperation).

(* store/mod.rs:79-86 AnonStatsStore::num_available_anon_stats_1d *)
Definition num_available_anon_stats_1d self origin operation : Z :=
  num_available_anon_stats (anon_stats_1d self) origin operation None.
(* store/mod.rs:88-95 AnonStatsStore::num_available_anon_stats_1d_lifted *)
Definition num_available_anon_stats_1d_lifted self origin operation : Z :=
  num_available_anon_stats (anon_stats_1d_lifted self) origin operation None.
(* store/mod.rs:97-104 AnonStatsStore::num_available_anon_stats_2d *)
Definition num_available_anon_stats_2d self origin operation : Z :=
  num_available_anon_stats (anon_stats_2d self) origin operation None.
(* store/mod.rs:129-136 AnonStatsStore::num_available_anon_stats_2d_lifted *)
Definition num_available_anon_stats_2d_lifted self origin operation : Z :=
  num_available_anon_stats (anon_stats_2d_lifted self) origin operation None.
(* store/mod.rs:106-126 AnonStatsStore::num_available_anon_stats_2d_di *)
Definition num_available_anon_stats_2d_di self origin (operation : AnonStatsOperation) (sampling_rate : Z)
    (left_opposite_mirror_match right_opposite_mirror_match : bool) : Z :=
  num_available_anon_stats (anon_stats_2d_di self) origin (Some operation)
    (Some (sampling_rate, left_opposite_mirror_match, right_opposite_mirror_match)).

(* store/mod.rs:183-191 AnonStatsStore::get_available_anon_stats_1d *)
Definition get_available_anon_stats_1d {T} `{!Bincode T} self origin operation (limit : Z) : result (list Z * list (Z * T)) :=
  get_available_anon_stats (anon_stats_1d self) origin operation None limit.
(* store/mod.rs:194-202 AnonStatsStore::get_available_anon_stats_1d_lifted *)
Definition get_available_anon_stats_1d_lifted {T} `{!Bincode T} self origin operation (limit : Z) : result (list Z * list (Z * T)) :=
  get_available_anon_stats (anon_stats_1d_lifted self) origin operation None limit.
(* store/mod.rs:206-214 AnonStatsStore::get_available_anon_stats_2d *)
Definition get_available_anon_stats_2d {T} `{!Bincode T} self origin operation (limit : Z) : result (list Z * list (Z * T)) :=
  get_available_anon_stats (anon_stats_2d self) origin operation None limit.
(* store/mod.rs:262-270 AnonStatsStore::get_available_anon_stats_2d_lifted *)
Definition get_available_anon_stats_2d_lifted {T} `{!Bincode T} self origin operation (limit : Z) : result (list Z * list (Z * T)) :=
  get_available_anon_stats (anon_stats_2d_lifted self) origin operation None limit.
(* store/mod.rs:216-258 AnonStatsStore::get_available_anon_stats_2d_di *)
Definition get_available_anon_stats_2d_di {T} `{!Bincode T} self origin (operation : AnonStatsOperation) (sampling_rate : Z)
    (left_opposite_mirror_match right_opposite_mirror_match : bool) (limit : Z) : result (list Z * list (Z * T)) :=
  get_available_anon_stats (anon_stats_2d_di self) origin (Some operation)
    (Some (sampling_rate, left_opposite_mirror_match, right_opposite_mirror_match)) limit.

(* store/mod.rs:289-292 AnonStatsStore::mark_anon_stats_processed_1d *)
Definition mark_anon_stats_processed_1d self (ids : list Z) : AnonStatsStore :=
  set_1d self (mark_anon_stats_processed (anon_stats_1d self) ids).
(* store/mod.rs:293-296 AnonStatsStore::mark_anon_stats_processed_1d_lifted *)
Definition mark_anon_stats_processed_1d_lifted self (ids : list Z) : AnonStatsStore :=
  set_1d_lifted self (mark_anon_stats_processed (anon_stats_1d_lifted self) ids).
(* store/mod.rs:297-300 AnonStatsStore::mark_anon_stats_processed_2d *)
Definition mark_anon_stats_processed_2d self (ids : list Z) : AnonStatsStore :=
  set_2d self (mark_anon_stats_processed (anon_stats_2d self) ids).
(* store/mod.rs:307-310 AnonStatsStore::mark_anon_stats_processed_2d_lifted *)
Definition mark_anon_stats_processed_2d_lifted self (ids : list Z) : AnonStatsStore :=
  set_2d_lifted self (mark_anon_stats_processed (anon_stats_2d_lifted self) ids).
(* store/mod.rs:302-305 AnonStatsStore::mark_anon_stats_processed_2d_di *)
Definition mark_anon_stats_processed_2d_di self (ids : list Z) : AnonStatsStore :=
  set_2d_di self (mark_anon_stats_processed (anon_stats_2d_di self) ids).
(* store/mod.rs:631-634 AnonStatsStore::mark_anon_stats_processed_face *)
Definition mark_anon_stats_processed_face self (ids : list Z) : AnonStatsStore :=
  set_face self (mark_anon_stats_processed (anon_stats_face self) ids).

(* store/mod.rs:333-340 AnonStatsStore::clear_unprocessed_anon_stats_1d *)
Definition clear_unprocessed_anon_stats_1d self origin operation : AnonStatsStore * Z :=
  let '(t, n) := clear_unprocessed_anon_stats (anon_stats_1d self) origin operation None in (set_1d self t, n).
(* store/mod.rs:342-349 AnonStatsStore::clear_unprocessed_anon_stats_1d_lifted *)
Definition clear_unprocessed_anon_stats_1d_lifted self origin operation : AnonStatsStore * Z :=
  let '(t, n) := clear_unprocessed_anon_stats (anon_stats_1d_lifted self) origin operation None in (set_1d_lifted self t, n).
(* store/mod.rs:351-358 AnonStatsStore::clear_unprocessed_anon_stats_2d *)
Definition clear_unprocessed_anon_stats_2d self origin operation : AnonStatsStore * Z :=
  let '(t, n) := clear_unprocessed_anon_stats (anon_stats_2d self) origin operation None in (set_2d self t, n).
(* store/mod.rs:382-389 AnonStatsStore::clear_unprocessed_anon_stats_2d_lifted *)
Definition clear_unprocessed_anon_stats_2d_lifted self origin operation : AnonStatsStore * Z :=
  let '(t, n) := clear_unprocessed_anon_stats (anon_stats_2d_lifted self) origin operation None in (set_2d_lifted self t, n).
(* store/mod.rs:622-629 AnonStatsStore::clear_unprocessed_anon_stats_face *)
Definition clear_unprocessed_anon_stats_face self origin operation : AnonStatsStore * Z :=
  let '(t, n) := clear_unprocessed_anon_stats (anon_stats_face self) origin operation None in (set_face self t, n).
(* store/mod.rs:360-380 AnonStatsStore::clear_unprocessed_anon_stats_2d_di *)
Definition clear_unprocessed_anon_stats_2d_di self origin (operation : AnonStatsOperation) (sampling_rate : Z)
    (left_opposite_mirror_match right_opposite_mirror_match : bool) : AnonStatsStore * Z :=
  let '(t, n) := clear_unprocessed_anon_stats (anon_stats_2d_di self) origin (Some operation)
    (Some (sampling_rate, left_opposite_mirror_match, right_opposite_mirror_match)) in (set_2d_di self t, n).

Section Insert.
Context (max_binds : nat) {T : Type} `{!Bincode T}.

(* store/mod.rs:528-536 AnonStatsStore::insert_anon_stats_batch_1d *)
Definition insert_anon_stats_batch_1d self (anon_stats : list (Z * T)) origin (operation : AnonStatsOperation)
    : AnonStatsStore * result unit :=
  let '(t, r) := insert_anon_stats_batch max_binds (anon_stats_1d self) anon_stats origin operation in (set_1d self t, r).
(* store/mod.rs:537-545 AnonStatsStore::insert_anon_stats_batch_1d_lifted *)
Definition insert_anon_stats_batch_1d_lifted self (anon_stats : list (Z * T)) origin (operation : AnonStatsOperation)
    : AnonStatsStore * result unit :=
  let '(t, r) := insert_anon_stats_batch max_binds (anon_stats_1d_lifted self) anon_stats origin operation in (set_1d_lifted self t, r).
(* store/mod.rs:546-554 AnonStatsStore::insert_anon_stats_batch_2d *)
Definition insert_anon_stats_batch_2d self (anon_stats : list (Z * T)) origin (operation : AnonStatsOperation)
    : AnonStatsStore * result unit :=
  let '(t, r) := insert_anon_stats_batch max_binds (anon_stats_2d self) anon_stats origin operation in (set_2d self t, r).
(* store/mod.rs:573-581 AnonStatsStore::insert_anon_stats_batch_2d_lifted *)
Definition insert_anon_stats_batch_2d_lifted self (anon_stats : list (Z * T)) origin (operation : AnonStatsOperation)
    : AnonStatsStore * result unit :=
  let '(t, r) := insert_anon_stats_batch max_binds (anon_stats_2d_lifted self) anon_stats origin operation in (set_2d_lifted self t, r).
(* store/mod.rs:559-572 AnonStatsStore::insert_anon_stats_batch_2d_di *)
Definition insert_anon_stats_batch_2d_di self (anon_stats : list (Z * di_meta * T)) origin (operation : AnonStatsOperation)
    : AnonStatsStore * result unit :=
  let '(t, r) := insert_anon_stats_batch_with_sampling_metadata max_binds (anon_stats_2d_di self) anon_stats origin operation in
  (set_2d_di self t, r).
End Insert.

(** *** Faces *)

(** One row holds the distances of a query; [D] is the type of a distance. *)
Context {D : Type} `{!Bincode (list D)}.

(* store/mod.rs:588-619 AnonStatsStore::insert_anon_stats_face *)
Definition insert_anon_stats_face self (anon_stats : list D) (query_id : Z) origin (operation : AnonStatsOperation) : AnonStatsStore :=
  match anon_stats with
  | [] => self
  | _ =>
      let t := anon_stats_face self in
      let r := mkRow (nextval t) query_id (bincode_serialize anon_stats) false (origin_to_i16 origin) (operation_to_i16 operation)
                 (Z.of_nat (length anon_stats)) in
      set_face self (mkTable (rows t ++ [r]) (nextval t + 1))
  end.

Definition sum_Z (l : list Z) : Z := foldr Z.add 0 l.

(** The cast of the sum fails when it does not fit. *)
(* store/mod.rs:637-659 AnonStatsStore::num_available_anon_stats_face *)
Definition num_available_anon_stats_face self origin operation : result Z :=
  let sum := sum_Z (row_extra <$> filter (available origin operation None) (rows (anon_stats_face self))) in
  if sum <? 2 ^ 63 then Ok sum else bail "bigint out of range".

(** The loop over the rows that are streamed; [fetched] is a [usize]. *)
(* store/mod.rs:690-710 AnonStatsStore::get_available_anon_stats_face (loop) *)
Fixpoint fetch_faces (stream : list (row Z)) (limit fetched : Z) (ids query_ids : list Z) (ret : list D) : result (list Z * list Z * list D) :=
  match stream with
  | [] => Ok (ids, query_ids, ret)
  | r :: stream =>
      match bincode_deserialize (row_bundle r) with
      | None => bail "Failed to deserialize distance bundle"
      | Some distances =>
          let fetched := (fetched + row_extra r) mod 2 ^ 64 in
          let ret := ret ++ distances in
          let query_ids := query_ids ++ [row_key r] in
          let ids := ids ++ [row_id r] in
          if limit <=? fetched then Ok (ids, query_ids, ret) else fetch_faces stream limit fetched ids query_ids ret
      end
  end.

(* store/mod.rs:663-712 AnonStatsStore::get_available_anon_stats_face *)
Definition get_available_anon_stats_face self origin operation (limit : Z) : result (list Z * list Z * list D) :=
  fetch_faces (order_by row_key (filter (available origin operation None) (rows (anon_stats_face self)))) limit 0 [] [] [].
End Methods.

(** ** Specification: a log of pending entries *)

Section Specification.
Context {X T : Type} `{!EqDecision X}.

Record entry := mkEntry {
  e_id : Z;
  e_match : Z;
  e_bundle : T;
  e_origin : AnonStatsOrigin;
  e_operation : AnonStatsOperation;
  e_extra : X;
}.

(** Pending entries in the order of insertion; ids below [fresh_id] are used. *)
Record log := mkLog { entries : list entry; fresh_id : Z }.

Definition wanted (origin : AnonStatsOrigin) (operation : option AnonStatsOperation) (extra : option X) (e : entry) : bool :=
  bool_decide (e_origin e = origin)
  && match operation with Some op => bool_decide (e_operation e = op) | None => true end
  && match extra with Some x => bool_decide (e_extra e = x) | None => true end.

(** The calls on a table and what they return. *)
Inductive call :=
| NumAvailable (origin : AnonStatsOrigin) (operation : option AnonStatsOperation) (extra : option X)
| GetAvailable (origin : AnonStatsOrigin) (operation : option AnonStatsOperation) (extra : option X) (limit : Z)
| MarkProcessed (ids : list Z)
| ClearUnprocessed (origin : AnonStatsOrigin) (operation : option AnonStatsOperation) (extra : option X)
| InsertBatch (stats : list (Z * X * T)) (origin : AnonStatsOrigin) (operation : AnonStatsOperation).

Inductive answer :=
| Number (n : Z)
| Entries (ids : list Z) (stats : list (Z * T))
| Done
| Failed.

(** The entries of a batch, with ids from [n] on. *)
Fixpoint number_from (n : Z) (stats : list (Z * X * T)) (origin : AnonStatsOrigin) (operation : AnonStatsOperation) : list entry :=
  match stats with
  | [] => []
  | (k, x, b) :: stats => mkEntry n k b origin operation x :: number_from (n + 1) stats origin operation
  end.

(** The batches the database takes. *)
Definition accepted (max_binds binds : nat) (check : X -> bool) (stats : list (Z * X * T)) : Prop :=
  Forall (fun v => check v.1.2 = true) stats /\ (length stats `min` ANON_STATS_INSERT_BATCH_SIZE * binds <= max_binds)%nat.

Inductive spec_step (ok : list (Z * X * T) -> Prop) (l : log) : call -> answer -> log -> Prop :=
| spec_num o p x : spec_step ok l (NumAvailable o p x) (Number (Z.of_nat (length (filter (wanted o p x) (entries l))))) l
| spec_get o p x limit :
    0 <= limit < 2 ^ 63 ->
    let es := take (Z.to_nat limit) (filter (wanted o p x) (entries l)) in
    spec_step ok l (GetAvailable o p x limit) (Entries (e_id <$> es) ((fun e => (e_match e, e_bundle e)) <$> es)) l
| spec_get_refused o p x limit : 2 ^ 63 <= limit < 2 ^ 64 -> spec_step ok l (GetAvailable o p x limit) Failed l
| spec_mark ids : spec_step ok l (MarkProcessed ids) Done (mkLog (filter (fun e => e_id e ∉ ids) (entries l)) (fresh_id l))
| spec_clear o p x :
    spec_step ok l (ClearUnprocessed o p x) (Number (Z.of_nat (length (filter (wanted o p x) (entries l)))))
      (mkLog (filter (fun e => ~ wanted o p x e) (entries l)) (fresh_id l))
| spec_insert stats o p :
    ok stats ->
    spec_step ok l (InsertBatch stats o p) Done
      (mkLog (entries l ++ number_from (fresh_id l) stats o p) (fresh_id l + Z.of_nat (length stats)))
| spec_insert_refused stats o p n :
    ~ ok stats -> fresh_id l <= n -> spec_step ok l (InsertBatch stats o p) Failed (mkLog (entries l) n).
End Specification.
Arguments entry : clear implicits.
Arguments log : clear implicits.
Arguments call : clear implicits.
Arguments answer : clear implicits.

Section Execution.
Context {X T : Type} `{!EqDecision X, !Bincode T}.
Context (max_binds binds : nat) (check : X -> bool).

Definition of_result {A} (f : A -> answer T) (r : result A) : answer T :=
  match r with Ok x => f x | Err _ => Failed end.

(** The calls on a table whose rows are counted one by one and fetched in the
    order of their ids, that is on every table but that of the faces. *)
Definition execute (t : table X) (c : call X T) : table X * answer T :=
  match c with
  | NumAvailable o p x => (t, Number (num_available_anon_stats t o p x))
  | GetAvailable o p x limit => (t, of_result (fun r => Entries r.1 r.2) (get_available_anon_stats t o p x limit))
  | MarkProcessed ids => (mark_anon_stats_processed t ids, Done)
  | ClearUnprocessed o p x => let '(t, n) := clear_unprocessed_anon_stats t o p x in (t, Number n)
  | InsertBatch stats o p => let '(t, r) := insert_transaction max_binds binds check t stats o p in (t, of_result (fun _ => Done) r)
  end.
End Execution.

(** ** Lemmas: rows and entries *)

Lemma filter_fmap_eq {A B} (P : B -> Prop) `{!forall y, Decision (P y)} (Q : A -> Prop) `{!forall x, Decision (Q x)} (f : A -> B) (l : list A) :
  (forall x, P (f x) <-> Q x) -> filter P (f <$> l) = f <$> filter Q l.
Proof.
  intros Hi. induction l as [|x l IH]; [done|]. rewrite fmap_cons, !filter_cons, IH.
  destruct (decide (P (f x))), (decide (Q x)); [done| | |done]; exfalso; naive_solver.
Qed.

Lemma StronglySorted_app_lt (l k : list Z) n :
  StronglySorted Z.lt l -> Forall (fun x => x < n) l -> StronglySorted Z.lt k -> Forall (fun x => n <= x) k ->
  StronglySorted Z.lt (l ++ k).
Proof.
  intros Hl Hn Hk Hm. induction Hl as [|x l Hl IH Hx]; [done|]. apply Forall_cons in Hn as [Hxn Hn]. cbn. constructor; [by apply IH|].
  apply Forall_app. split; [done|]. eapply Forall_impl; [exact Hm|]. cbn in *. intros; lia.
Qed.

Lemma Forall_filter_l {A} (Q P : A -> Prop) `{!forall x, Decision (P x)} (l : list A) : Forall Q l -> Forall Q (filter P l).
Proof. rewrite !Forall_forall. intros HQ x [_ Hx]%list_elem_of_filter. auto. Qed.

Section Refinement.
Context {X T : Type} `{!EqDecision X, !Bincode T, !BincodeOk T}.
Context (max_binds binds : nat) (check : X -> bool).
Implicit Types (t : table X) (l : log X T) (e : entry X T).

Definition to_row e : row X :=
  mkRow (e_id e) (e_match e) (bincode_serialize (e_bundle e)) false (origin_to_i16 (e_origin e)) (operation_to_i16 (e_operation e)) (e_extra e).

Definition unprocessed (r : row X) : Prop := row_processed r = false.
#[local] Instance unprocessed_dec r : Decision (unprocessed r).
Proof. unfold unprocessed. apply _. Defined.

(** The unprocessed rows of the table are the entries of the log. *)
Record refines t l : Prop := {
  refines_rows : filter unprocessed (rows t) ≡ₚ to_row <$> entries l;
  refines_sorted : StronglySorted Z.lt (e_id <$> entries l);
  refines_bound : Forall (fun i => i < fresh_id l) (e_id <$> entries l);
  refines_fresh : fresh_id l = nextval t;
}.

Lemma available_to_row o p x e : available o p x (to_row e) = wanted o p x e.
Proof.
  unfold available, wanted. cbn [to_row row_processed row_origin row_operation row_extra negb andb].
  assert ((origin_to_i16 (e_origin e) =? origin_to_i16 o) = bool_decide (e_origin e = o)) as ->.
  { apply eq_true_iff_eq. rewrite Z.eqb_eq, bool_decide_eq_true. split; [apply origin_codes_distinct|by intros ->]. }
  assert (forall q, (operation_to_i16 (e_operation e) =? operation_to_i16 q) = bool_decide (e_operation e = q)) as Hq.
  { intros q. by destruct (e_operation e), q. }
  by destruct p; [rewrite Hq|].
Qed.

Lemma available_unprocessed o p x (r : row X) : Is_true (available o p x r) <-> Is_true (available o p x r) /\ unprocessed r.
Proof. unfold available, unprocessed. destruct (row_processed r); cbn; naive_solver. Qed.

(** A filter on the available rows, and on the entries they stand for. *)
Lemma filter_available t l o p x :
  refines t l -> filter (available o p x) (rows t) ≡ₚ to_row <$> filter (wanted o p x) (entries l).
Proof.
  intros H. rewrite <- (filter_fmap_eq (available o p x) (wanted o p x)) by (intros; by rewrite available_to_row).
  rewrite <- (refines_rows t l H), list_filter_filter.
  erewrite (list_filter_iff (available o p x)); [done|]. intros r. apply available_unprocessed.
Qed.

(** Rows with distinct ids have one order by id. *)
Lemma order_by_unique (rs : list (row X)) (es : list (entry X T)) :
  StronglySorted Z.lt (e_id <$> es) -> rs ≡ₚ to_row <$> es -> order_by row_id rs = to_row <$> es.
Proof.
  intros Hs Hp. unfold order_by.
  assert (Transitive (key_le (X := X) row_id)) by (intros ???; unfold key_le; lia).
  assert (Total (key_le (X := X) row_id)) by (intros ??; unfold key_le; lia).
  apply (StronglySorted_unique_strong (key_le row_id)).
  - intros r r'. rewrite (merge_sort_Permutation _ rs), Hp, !list_elem_of_fmap. intros (e & -> & He) (e' & -> & He'). unfold key_le. cbn.
    intros ? ?. f_equal. assert (e_id e = e_id e') as E by lia. clear -Hs He He' E.
    induction es as [|e0 es IH]; [by apply not_elem_of_nil in He|]. rewrite fmap_cons in Hs; apply StronglySorted_inv in Hs as [Hs' Hlt].
    rewrite Forall_fmap, Forall_forall in Hlt. cbn in Hlt.
    apply elem_of_cons in He as [->|He], He' as [->|He']; [done|apply Hlt in He'; cbn in *; lia|apply Hlt in He; cbn in *; lia|auto].
  - by apply StronglySorted_merge_sort.
  - clear -Hs. induction es as [|e0 es IH]; [constructor|]. rewrite fmap_cons in Hs; apply StronglySorted_inv in Hs as [Hs' Hlt]. rewrite fmap_cons. constructor; [by apply IH|].
    rewrite Forall_fmap in Hlt. apply Forall_fmap. eapply Forall_impl; [exact Hlt|]. intros e He. unfold key_le. cbn in *. lia.
  - by rewrite (merge_sort_Permutation _ rs).
Qed.

Lemma sorted_filter (P : entry X T -> Prop) `{HP : !forall e, Decision (P e)} (es : list (entry X T)) :
  StronglySorted Z.lt (e_id <$> es) -> StronglySorted Z.lt (e_id <$> filter P es).
Proof.
  induction es as [|e es IH]; [done|]. rewrite fmap_cons. intros [Hs Hlt]%StronglySorted_inv. rewrite filter_cons.
  case_decide; [|by apply IH]. rewrite fmap_cons. constructor; [by apply IH|].
  rewrite Forall_fmap in Hlt |- *. by apply Forall_filter_l.
Qed.

(** What remains of the log after some entries have gone. *)
Lemma refines_filter t l rs (P : entry X T -> Prop) `{HP : !forall e, Decision (P e)} :
  refines t l -> filter unprocessed rs ≡ₚ to_row <$> filter P (entries l) ->
  refines (mkTable rs (nextval t)) (mkLog (filter P (entries l)) (fresh_id l)).
Proof.
  intros H Hp. split; cbn; [done|by apply sorted_filter, (refines_sorted t l)| |by apply refines_fresh].
  pose proof (refines_bound t l H) as Hb. rewrite Forall_fmap in Hb |- *. by apply Forall_filter_l.
Qed.

Lemma first_rows_spec t l o p x limit :
  refines t l -> 0 <= limit ->
  first_rows limit (filter (available o p x) (rows t)) = Ok (to_row <$> take (Z.to_nat limit) (filter (wanted o p x) (entries l))).
Proof.
  intros H Hl. unfold first_rows. rewrite (proj2 (Z.ltb_ge limit 0)) by lia. f_equal.
  pose proof (filter_available t l o p x H) as Hp. rewrite (order_by_unique _ _ (sorted_filter _ _ (refines_sorted t l H)) Hp).
  rewrite Hp, length_fmap, <- fmap_take. f_equal.
  destruct (decide (limit <= Z.of_nat (length (filter (wanted o p x) (entries l))))) as [Hle|Hle].
  - by rewrite Z.min_l by lia.
  - by rewrite !take_ge by lia.
Qed.

Lemma decode_rows (es : list (entry X T)) :
  mapM_result decode_row (to_row <$> es) = Ok ((fun e => (e_id e, (e_match e, e_bundle e))) <$> es).
Proof.
  induction es as [|e es IH]; [done|]. rewrite !fmap_cons. cbn [mapM_result]. rewrite IH. unfold decode_row. cbn.
  by rewrite bincode_roundtrip.
Qed.

Lemma get_available_spec t l o p x limit :
  refines t l -> 0 <= limit < 2 ^ 63 ->
  let es := take (Z.to_nat limit) (filter (wanted o p x) (entries l)) in
  get_available_anon_stats t o p x limit = Ok (e_id <$> es, (fun e => (e_match e, e_bundle e)) <$> es).
Proof.
  intros H Hl es. unfold get_available_anon_stats, limit_i64. rewrite (proj2 (Z.ltb_lt limit (2 ^ 63))) by lia.
  rewrite (first_rows_spec t l) by (done || lia). cbn [mbind result_bind]. fold es. rewrite decode_rows. cbn [mbind result_bind].
  by rewrite <- !list_fmap_compose.
Qed.

Lemma get_available_refused t o p x limit :
  2 ^ 63 <= limit < 2 ^ 64 -> exists err, get_available_anon_stats (T := T) t o p x limit = Err err.
Proof.
  intros Hl. unfold get_available_anon_stats, limit_i64, first_rows. rewrite (proj2 (Z.ltb_ge limit (2 ^ 63))) by lia.
  rewrite (proj2 (Z.ltb_lt (limit - 2 ^ 64) 0)) by lia. by eexists.
Qed.

Lemma mark_spec t l ids :
  refines t l ->
  refines (mark_anon_stats_processed t ids) (mkLog (filter (fun e => e_id e ∉ ids) (entries l)) (fresh_id l)).
Proof.
  intros H. apply refines_filter; [done|].
  rewrite <- (filter_fmap_eq (fun r => row_id r ∉ ids) (fun e => e_id e ∉ ids)) by done. rewrite <- (refines_rows t l H).
  clear H. unfold mark_anon_stats_processed. cbn [rows]. induction (rows t) as [|r rs IH]; [done|].
  rewrite fmap_cons. destruct (decide (row_id r ∈ ids)) as [Hi|Hi].
  - rewrite filter_cons_False; [|unfold mark_row, unprocessed; rewrite bool_decide_eq_true_2 by done; done].
    rewrite IH, filter_cons. case_decide; [|done]. rewrite filter_cons_False; [done|naive_solver].
  - unfold mark_row at 1. rewrite bool_decide_eq_false_2 by done. rewrite !filter_cons. case_decide; [|done].
    rewrite filter_cons_True by done. by rewrite IH.
Qed.

Lemma clear_spec t l o p x :
  refines t l ->
  refines (clear_unprocessed_anon_stats t o p x).1 (mkLog (filter (fun e => ~ wanted o p x e) (entries l)) (fresh_id l)).
Proof.
  intros H. apply refines_filter; [done|].
  rewrite <- (filter_fmap_eq (fun r => ~ available o p x r) (fun e => ~ wanted o p x e)) by (intros; by rewrite available_to_row).
  rewrite <- (refines_rows t l H), !list_filter_filter.
  erewrite (list_filter_iff (fun r => _ /\ _)); [done|]. intros r. cbn. tauto.
Qed.

Lemma count_available t l o p x : refines t l -> length (filter (available o p x) (rows t)) = length (filter (wanted o p x) (entries l)).
Proof. intros H. by rewrite (filter_available t l o p x H), length_fmap. Qed.

(** *** Insertion *)

Lemma number_from_app n (k s : list (Z * X * T)) o p :
  number_from n (k ++ s) o p = number_from n k o p ++ number_from (n + Z.of_nat (length k)) s o p.
Proof.
  revert n. induction k as [|[[m x] b] k IH]; intros n; cbn [app number_from length]; [by rewrite Z.add_0_r|].
  rewrite IH. cbn [app]. do 3 f_equal. lia.
Qed.

Lemma length_number_from n (s : list (Z * X * T)) o p : length (number_from n s o p) = length s.
Proof. revert n. induction s as [|[[m x] b] s IH]; intros n; cbn; [done|]. by rewrite IH. Qed.

Lemma number_from_ids n (s : list (Z * X * T)) o p :
  StronglySorted Z.lt (e_id <$> number_from n s o p) /\
  Forall (fun i => n <= i < n + Z.of_nat (length s)) (e_id <$> number_from n s o p).
Proof.
  revert n. induction s as [|[[m x] b] s IH]; intros n; cbn [number_from]; [repeat constructor|]. rewrite fmap_cons. cbn [e_id length].
  destruct (IH (n + 1)) as [Hs Hb]. split; constructor; [done| |lia|]; (eapply Forall_impl; [exact Hb|]); cbn; lia.
Qed.

(** A statement inserts all its rows, or fails; either way ids only grow. *)
Lemma insert_rows_spec t (s : list (Z * X * T)) o p :
  match insert_rows check t s (origin_to_i16 o) (operation_to_i16 p) with
  | (t', Ok _) => Forall (fun v => check v.1.2 = true) s /\
      t' = mkTable (rows t ++ (to_row <$> number_from (nextval t) s o p)) (nextval t + Z.of_nat (length s))
  | (t', Err _) => ~ Forall (fun v => check v.1.2 = true) s /\ nextval t <= nextval t'
  end.
Proof.
  revert t. induction s as [|[[m x] b] s IH]; intros t; cbn [insert_rows].
  - split; [done|]. cbn. rewrite app_nil_r, Z.add_0_r. by destruct t.
  - destruct (check x) eqn:Hx.
    + set (t1 := mkTable _ _). specialize (IH t1). destruct (insert_rows _ _ _ _ _) as [t' [u|err]]; destruct IH as [H1 H2].
      * split; [by constructor|]. rewrite H2. subst t1. cbn [rows nextval number_from length]. rewrite fmap_cons, <- app_assoc. cbn [app]. f_equal. lia.
      * split; [|subst t1; cbn in H2; lia]. intros HF. by apply Forall_cons in HF as [_ HF].
    + split; [|cbn; lia]. intros HF. apply Forall_cons in HF as [HF _]. cbn in HF. congruence.
Qed.

Lemma execute_insert_spec t (c : list (Z * X * T)) o p :
  match execute_insert max_binds binds check t c (origin_to_i16 o) (operation_to_i16 p) with
  | (t', Ok n) => (Forall (fun v => check v.1.2 = true) c /\ (length c * binds <= max_binds)%nat) /\ n = length c /\
      t' = mkTable (rows t ++ (to_row <$> number_from (nextval t) c o p)) (nextval t + Z.of_nat (length c))
  | (t', Err _) => ~ (Forall (fun v => check v.1.2 = true) c /\ (length c * binds <= max_binds)%nat) /\ nextval t <= nextval t'
  end.
Proof.
  unfold execute_insert. destruct (Nat.ltb_spec max_binds (length c * binds)).
  - split; [intros [_ ?]; lia|lia].
  - pose proof (insert_rows_spec t c o p) as Hi. destruct (insert_rows _ _ _ _ _) as [t' [u|err]]; destruct Hi as [H1 H2]; cbn [mbind result_bind].
    + split; [done|]. split; [|done]. rewrite H2. cbn [rows]. rewrite length_app, length_fmap, length_number_from. lia.
    + split; [|done]. intros [? _]. done.
Qed.

Lemma insert_chunks_spec cs t o p :
  match insert_chunks max_binds binds check t cs (origin_to_i16 o) (operation_to_i16 p) with
  | (t', Ok _) => Forall (fun c => Forall (fun v => check v.1.2 = true) c /\ (length c * binds <= max_binds)%nat) cs /\
      t' = mkTable (rows t ++ (to_row <$> number_from (nextval t) (concat cs) o p)) (nextval t + Z.of_nat (length (concat cs)))
  | (t', Err _) => ~ Forall (fun c => Forall (fun v => check v.1.2 = true) c /\ (length c * binds <= max_binds)%nat) cs /\ nextval t <= nextval t'
  end.
Proof.
  revert t. induction cs as [|c cs IH]; intros t; cbn [insert_chunks].
  - split; [done|]. cbn. rewrite app_nil_r, Z.add_0_r. by destruct t.
  - pose proof (execute_insert_spec t c o p) as Hc. destruct (execute_insert _ _ _ _ _ _ _) as [t1 [n|err]]; destruct Hc as [H1 H2].
    + destruct H2 as [-> H2]. rewrite Nat.eqb_refl. cbn [negb]. specialize (IH t1). rewrite H2 in IH. rewrite H2.
      destruct (insert_chunks _ _ _ _ _ _ _) as [t' [u|err]]; destruct IH as [H3 H4]; cbn [rows nextval] in H4.
      * split; [by constructor|]. cbn [concat]. rewrite H4, number_from_app, fmap_app, <- app_assoc, length_app. f_equal. lia.
      * split; [|lia]. intros HF. by apply Forall_cons in HF as [_ HF].
    + split; [|done]. intros HF. by apply Forall_cons in HF as [HF _].
Qed.

(** The first chunk is the longest. *)
Lemma chunks_accepted B (s : list (Z * X * T)) :
  (0 < B)%nat ->
  Forall (fun c => Forall (fun v => check v.1.2 = true) c /\ (length c * binds <= max_binds)%nat) (chunks B s)
  <-> Forall (fun v => check v.1.2 = true) s /\ (length s `min` B * binds <= max_binds)%nat.
Proof.
  intros HB. revert s. apply (chunk_ind B); [done| |].
  { rewrite chunks_nil. cbn. split; [intros _; split; [done|lia]|done]. }
  intros s Hs IH. rewrite chunks_cons, Forall_cons, IH, length_take, length_drop by done.
  rewrite <- (take_drop B s) at 5. rewrite Forall_app, (Nat.min_comm B).
  assert ((length s - B) `min` B <= length s `min` B)%nat as Hm by lia.
  pose proof (Nat.mul_le_mono_r _ _ binds Hm). split; [intros ([? ?] & ? & ?); done|].
  intros [[? ?] ?]. repeat split; try done; lia.
Qed.

(** A batch is inserted as a whole or not at all. *)
Lemma insert_transaction_outcome t (s : list (Z * X * T)) o p :
  match insert_transaction max_binds binds check t s o p with
  | (t', Ok _) => accepted max_binds binds check s /\
      t' = mkTable (rows t ++ (to_row <$> number_from (nextval t) s o p)) (nextval t + Z.of_nat (length s))
  | (t', Err _) => ~ accepted max_binds binds check s /\ rows t' = rows t /\ nextval t <= nextval t'
  end.
Proof.
  unfold insert_transaction. case_bool_decide as Hs.
  { destruct s; [|done]. cbn. split; [split; [done|cbn; lia]|]. rewrite app_nil_r, Z.add_0_r. by destruct t. }
  pose proof (insert_chunks_spec (chunks ANON_STATS_INSERT_BATCH_SIZE s) t o p) as Hc.
  assert (0 < ANON_STATS_INSERT_BATCH_SIZE)%nat as HB by (unfold ANON_STATS_INSERT_BATCH_SIZE; lia).
  rewrite concat_chunks in Hc by done.
  destruct (insert_chunks _ _ _ _ _ _ _) as [t' [u|err]]; destruct Hc as [H1 H2]; rewrite chunks_accepted in H1 by done; done.
Qed.

(** Rows with the next ids are entries at the end of the log. *)
Lemma refines_append t l (s : list (Z * X * T)) o p :
  refines t l ->
  refines (mkTable (rows t ++ (to_row <$> number_from (nextval t) s o p)) (nextval t + Z.of_nat (length s)))
    (mkLog (entries l ++ number_from (fresh_id l) s o p) (fresh_id l + Z.of_nat (length s))).
Proof.
  intros [Hr Hst Hb Hf]. rewrite <- Hf.
  destruct (number_from_ids (fresh_id l) s o p) as [Hns Hnb]. split; cbn [rows nextval entries fresh_id]; [| | |done].
  - rewrite filter_app, Hr, fmap_app. f_equiv. clear. induction (number_from _ _ _ _) as [|e es IH]; [done|].
    rewrite fmap_cons, filter_cons_True by done. by rewrite IH.
  - rewrite fmap_app. eapply StronglySorted_app_lt; [done|done|done|]. eapply Forall_impl; [exact Hnb|]. cbn. lia.
  - rewrite fmap_app, Forall_app. split; (eapply Forall_impl; [eassumption|]); cbn; lia.
Qed.

Lemma insert_spec t l (s : list (Z * X * T)) o p :
  refines t l ->
  match insert_transaction max_binds binds check t s o p with
  | (t', Ok _) => accepted max_binds binds check s /\
      refines t' (mkLog (entries l ++ number_from (fresh_id l) s o p) (fresh_id l + Z.of_nat (length s)))
  | (t', Err _) => ~ accepted max_binds binds check s /\ fresh_id l <= nextval t' /\ refines t' (mkLog (entries l) (nextval t'))
  end.
Proof.
  intros H. pose proof (insert_transaction_outcome t s o p) as Hc.
  destruct (insert_transaction _ _ _ _ _ _ _) as [t' [u|err]]; destruct Hc as [H1 H2]; (split; [done|]).
  - rewrite H2. by apply refines_append.
  - destruct H as [Hr Hst Hb Hf], H2 as [H2 H3]. split; [lia|]. split; cbn; [by rewrite H2|done| |done]. eapply Forall_impl; [exact Hb|]. cbn. lia.
Qed.

(** *** Simulation *)

Lemma execute_simulates t l c :
  refines t l -> (forall o p x limit, c = GetAvailable o p x limit -> 0 <= limit < 2 ^ 64) ->
  exists l', spec_step (accepted max_binds binds check) l c (execute max_binds binds check t c).2 l' /\
    refines (execute max_binds binds check t c).1 l'.
Proof.
  intros H Hlim. destruct c as [o p x|o p x limit|ids|o p x|s o p]; cbn [execute fst snd].
  - exists l. split; [|done]. unfold num_available_anon_stats. rewrite (count_available t l o p x H). constructor.
  - exists l. split; [|done]. specialize (Hlim _ _ _ _ eq_refl). destruct (decide (limit < 2 ^ 63)).
    + rewrite (get_available_spec t l) by (done || lia). apply spec_get. lia.
    + destruct (get_available_refused t o p x limit) as [err ->]; [lia|]. constructor. lia.
  - eexists. split; [constructor|]. by apply mark_spec.
  - eexists. split; [|by apply (clear_spec t l o p x)]. cbn. rewrite (count_available t l o p x H). constructor.
  - pose proof (insert_spec t l s o p H) as Hi. destruct (insert_transaction _ _ _ _ _ _ _) as [t' [u|err]]; cbn [of_result].
    + destruct Hi as [Ha Hr]. eexists. split; [by constructor|done].
    + destruct Hi as (Ha & Hn & Hr). eexists. split; [by apply (spec_insert_refused _ _ _ _ _ (nextval t'))|done].
Qed.

Lemma refines_rearrange t l rs : rs ≡ₚ rows t -> refines t l -> refines (mkTable rs (nextval t)) l.
Proof. intros Hp [Hr Hs Hb Hf]. split; [|done..]. cbn. by rewrite Hp. Qed.
End Refinement.

(** *** Fetching and marking *)

Section Consumption.
Context {X T : Type} `{!EqDecision X, !Bincode T, !BincodeOk T}.
Implicit Types (t : table X) (l : log X T).

Lemma sorted_ids_NoDup (es : list (entry X T)) : StronglySorted Z.lt (e_id <$> es) -> NoDup (e_id <$> es).
Proof.
  generalize (e_id <$> es). induction 1 as [|x k Hk IH Hx]; constructor; [|done].
  intros Hi. rewrite Forall_forall in Hx. apply Hx in Hi. lia.
Qed.

Lemma filter_all {A} (P : A -> Prop) `{HP : !forall x, Decision (P x)} (k : list A) : Forall P k -> filter P k = k.
Proof. induction 1 as [|x k Hx Hk IH]; [done|]. by rewrite filter_cons_True, IH. Qed.

Lemma filter_none {A} (P : A -> Prop) `{HP : !forall x, Decision (P x)} (k : list A) : Forall (fun x => ~ P x) k -> filter P k = [].
Proof. induction 1 as [|x k Hx Hk IH]; [done|]. by rewrite filter_cons_False, IH. Qed.

Lemma filter_comm {A} (P Q : A -> Prop) `{HP : !forall x, Decision (P x), HQ : !forall x, Decision (Q x)} (k : list A) :
  filter P (filter Q k) = filter Q (filter P k).
Proof. rewrite !list_filter_filter. apply list_filter_iff. intros x. tauto. Qed.

Lemma filter_not_in_prefix (es : list (entry X T)) n :
  NoDup (e_id <$> es) -> filter (fun e => e_id e ∉ (e_id <$> take n es)) es = drop n es.
Proof.
  intros Hn. rewrite <- (take_drop n es), fmap_app in Hn. apply NoDup_app in Hn as (_ & Hd & _).
  transitivity (filter (fun e => e_id e ∉ (e_id <$> take n es)) (take n es ++ drop n es)); [by rewrite take_drop|].
  rewrite filter_app, filter_none, filter_all; [done| |]; apply Forall_forall; intros e He.
  - intros Hi. apply (Hd _ Hi). by apply list_elem_of_fmap_2.
  - intros Hni. apply Hni. by apply list_elem_of_fmap_2.
Qed.

(** Fetching some entries and marking them leaves the others, in their order. *)
Lemma consume_spec t l o p x limit ids (stats : list (Z * T)) :
  refines t l -> 0 <= limit < 2 ^ 63 -> get_available_anon_stats t o p x limit = Ok (ids, stats) ->
  stats = (fun e => (e_match e, e_bundle e)) <$> take (Z.to_nat limit) (filter (wanted o p x) (entries l)) /\
  exists l', refines (mark_anon_stats_processed t ids) l' /\
    filter (wanted o p x) (entries l') = drop (Z.to_nat limit) (filter (wanted o p x) (entries l)).
Proof.
  intros H Hl Hg. rewrite (get_available_spec t l) in Hg by done. injection Hg as <- <-. split; [done|].
  eexists. split; [by apply mark_spec|]. cbn [entries]. rewrite filter_comm.
  apply filter_not_in_prefix, sorted_ids_NoDup, sorted_filter, (refines_sorted t l H).
Qed.
End Consumption.

(** *** Faces *)

Section Faces.
Context {D : Type} `{!Bincode (list D), !BincodeOk (list D)}.

(** A row as [insert_anon_stats_face] writes it. *)
Definition face_row (r : row Z) (ds : list D) : Prop :=
  row_bundle r = bincode_serialize ds /\ row_extra r = Z.of_nat (length ds).

(** Rows are taken until the limit is reached, and no further, but for the first;
    the distances are counted in 64 bits. *)
Lemma fetch_faces_loop stream (dss : list (list D)) limit fetched ids query_ids ret :
  Forall2 face_row stream dss ->
  exists k, fetch_faces stream limit fetched ids query_ids ret
      = Ok (ids ++ (row_id <$> take k stream), query_ids ++ (row_key <$> take k stream), ret ++ concat (take k dss)) /\
    (k <= length stream)%nat /\ (stream <> [] -> (0 < k)%nat) /\
    (k = length stream \/ limit <= (fetched + Z.of_nat (length (concat (take k dss)))) mod 2 ^ 64) /\
    (forall j, (0 < j < k)%nat -> (fetched + Z.of_nat (length (concat (take j dss)))) mod 2 ^ 64 < limit).
Proof.
  intros H. revert fetched ids query_ids ret. induction H as [|r ds stream dss [Hb Hx] _ IH]; intros fetched ids query_ids ret.
  { exists 0%nat. cbn. rewrite !app_nil_r. split; [done|]. split; [done|]. split; [done|]. split; [by left|lia]. }
  cbn [fetch_faces]. rewrite Hb, bincode_roundtrip, Hx.
  destruct (Z.leb_spec limit ((fetched + Z.of_nat (length ds)) mod 2 ^ 64)) as [Hl|Hl].
  - exists 1%nat. cbn [take concat]. rewrite app_nil_r. split; [done|]. cbn [length]. split; [lia|]. split; [lia|]. split; [by right|lia].
  - destruct (IH ((fetched + Z.of_nat (length ds)) mod 2 ^ 64) (ids ++ [row_id r]) (query_ids ++ [row_key r]) (ret ++ ds)) as (k & -> & Hle & _ & Hk & Hj).
    assert (forall n, (fetched + Z.of_nat (length ds + n)) mod 2 ^ 64 = ((fetched + Z.of_nat (length ds)) mod 2 ^ 64 + Z.of_nat n) mod 2 ^ 64) as Hm.
    { intros n. rewrite Zplus_mod_idemp_l. f_equal. lia. }
    exists (S k). cbn [take]. rewrite !fmap_cons. cbn [concat length]. rewrite <- !app_assoc, length_app, Hm. split; [done|].
    split; [lia|]. split; [lia|]. split; [destruct Hk; [left; lia|by right]|].
    intros [|[|j]] Hj'; [lia|cbn [take concat]; by rewrite app_nil_r|]. change (take (S (S j)) (ds :: dss)) with (ds :: take (S j) dss).
    cbn [concat]. rewrite length_app, Hm. apply Hj. lia.
Qed.

Lemma fetch_faces_spec stream (dss : list (list D)) limit fetched ids query_ids ret :
  Forall2 face_row stream dss -> 0 <= fetched -> fetched + Z.of_nat (length (concat dss)) < 2 ^ 64 ->
  exists k, fetch_faces stream limit fetched ids query_ids ret
      = Ok (ids ++ (row_id <$> take k stream), query_ids ++ (row_key <$> take k stream), ret ++ concat (take k dss)) /\
    (k = length stream \/ limit <= fetched + Z.of_nat (length (concat (take k dss)))) /\
    (forall j, (0 < j < k)%nat -> fetched + Z.of_nat (length (concat (take j dss))) < limit).
Proof.
  intros H Hf Hs. destruct (fetch_faces_loop stream dss limit fetched ids query_ids ret H) as (k & E & _ & _ & Hk & Hj).
  assert (forall j, (fetched + Z.of_nat (length (concat (take j dss)))) mod 2 ^ 64 = fetched + Z.of_nat (length (concat (take j dss)))) as Hm.
  { intros j. apply Z.mod_small. rewrite <- (take_drop j dss), concat_app, length_app in Hs. lia. }
  exists k. rewrite <- Hm. split; [done|]. split; [done|]. intros j Hj'. rewrite <- Hm. by apply Hj.
Qed.

Lemma sum_sizes stream (dss : list (list D)) : Forall2 face_row stream dss -> sum_Z (row_extra <$> stream) = Z.of_nat (length (concat dss)).
Proof.
  induction 1 as [|r ds stream dss [_ Hx] _ IH]; [done|]. rewrite fmap_cons. unfold sum_Z in *. cbn [foldr concat]. rewrite IH, Hx, length_app. lia.
Qed.

Lemma sum_Z_perm (k k' : list Z) : k ≡ₚ k' -> sum_Z k = sum_Z k'.
Proof. unfold sum_Z. induction 1; cbn; lia. Qed.

(** When as many distances are pending as are asked for, at least that many are
    returned, and fewer without the last row; whatever order the database gives
    rows of one query. *)
Theorem get_faces_enough (self : AnonStatsStore) o p limit n (dss : list (list D)) :
  Forall2 face_row (order_by row_key (filter (available o p None) (rows (anon_stats_face self)))) dss ->
  num_available_anon_stats_face self o p = Ok n -> 0 < limit <= n ->
  exists k ids query_ids, get_available_anon_stats_face self o p limit = Ok (ids, query_ids, concat (take (S k) dss)) /\
    Z.of_nat (length (concat (take k dss))) < limit <= Z.of_nat (length (concat (take (S k) dss))).
Proof.
  unfold num_available_anon_stats_face, get_available_anon_stats_face. set (avail := filter _ _). intros HF Hn Hl.
  assert (sum_Z (row_extra <$> avail) = Z.of_nat (length (concat dss))) as Hsum.
  { rewrite <- (sum_sizes _ _ HF). apply sum_Z_perm. unfold order_by. by rewrite (merge_sort_Permutation (key_le row_key) avail). }
  rewrite Hsum in Hn. destruct (Z.ltb_spec (Z.of_nat (length (concat dss))) (2 ^ 63)) as [Hlt|]; [|done]. injection Hn as <-.
  destruct (fetch_faces_spec _ dss limit 0 [] [] [] HF) as (k & Hk & Hend & Hj); [lia..|]. cbn [app] in Hk.
  assert (limit <= Z.of_nat (length (concat (take k dss)))) as Hle.
  { destruct Hend as [->|?]; [|lia]. rewrite (Forall2_length _ _ _ HF), take_ge by done. lia. }
  destruct k as [|k]; [rewrite take_0 in Hle; cbn in Hle; lia|]. exists k. do 2 eexists. split; [exact Hk|]. split; [|lia].
  destruct k as [|k]; [rewrite take_0; cbn; lia|]. specialize (Hj (S k)). lia.
Qed.
End Faces.

(** ** Claims *)

(** What PostgreSQL's protocol allows: the number of parameters is 16 bits wide. *)
Definition MAX_BIND_PARAMETERS : nat := Z.to_nat 65535.

Definition is_ok {A} (r : result A) : bool := match r with Ok _ => true | Err _ => false end.

Lemma accepted_plain {T} (s : list (Z * unit * T)) : accepted MAX_BIND_PARAMETERS 4 (fun _ => true) s.
Proof.
  split; [by apply Forall_true|]. unfold MAX_BIND_PARAMETERS, ANON_STATS_INSERT_BATCH_SIZE. lia.
Qed.

Lemma accepted_di {T} (s : list (Z * di_meta * T)) :
  Forall (fun v => sampling_rate_check v.1.2 = true) s ->
  accepted MAX_BIND_PARAMETERS 7 sampling_rate_check s <-> (Z.of_nat (length s) <= 9362).
Proof.
  intros Hc. unfold accepted, MAX_BIND_PARAMETERS, ANON_STATS_INSERT_BATCH_SIZE. split; [intros [_ ?]; lia|]. intros ?. split; [done|lia].
Qed.

Lemma insert_plain_ok {T} `{!Bincode T} (t : table unit) (s : list (Z * T)) o p :
  is_ok (insert_anon_stats_batch MAX_BIND_PARAMETERS t s o p).2 = true.
Proof.
  unfold insert_anon_stats_batch.
  pose proof (insert_transaction_outcome MAX_BIND_PARAMETERS 4 (fun _ => true) t ((fun '(id, bundle) => (id, tt, bundle)) <$> s) o p) as H.
  destruct (insert_transaction _ _ _ _ _ _ _) as [t' [u|e]]; [done|]. destruct H as [[] _]. apply accepted_plain.
Qed.

(** C39: the chunks of the Deep Identifier insertion are too large for the database.
    With 65535 parameters to a statement, the four tables that are inserted into
    by the same kind of batch, [anon_stats_1d], [anon_stats_1d_lifted],
    [anon_stats_2d] and [anon_stats_2d_lifted], take batches of any length; a
    batch of at least 9363 rows for the Deep Identifier table is refused as a
    whole, though every row is valid: a chunk of 10000 rows binds 70000
    parameters. *)
Theorem di_batch_limit {T} `{!Bincode T} (self : AnonStatsStore) (s : list (Z * T)) (sd : list (Z * di_meta * T)) o p :
  Forall (fun v => sampling_rate_check v.1.2 = true) sd ->
  is_ok (insert_anon_stats_batch_1d MAX_BIND_PARAMETERS self s o p).2 = true /\
  is_ok (insert_anon_stats_batch_1d_lifted MAX_BIND_PARAMETERS self s o p).2 = true /\
  is_ok (insert_anon_stats_batch_2d MAX_BIND_PARAMETERS self s o p).2 = true /\
  is_ok (insert_anon_stats_batch_2d_lifted MAX_BIND_PARAMETERS self s o p).2 = true /\
  is_ok (insert_anon_stats_batch_2d_di MAX_BIND_PARAMETERS self sd o p).2 = (Z.of_nat (length sd) <=? 9362) /\
  (9362 < Z.of_nat (length sd) ->
   rows (anon_stats_2d_di (insert_anon_stats_batch_2d_di MAX_BIND_PARAMETERS self sd o p).1) = rows (anon_stats_2d_di self)).
Proof.
  intros Hc. pose proof (fun t => insert_plain_ok t s o p) as H1.
  unfold insert_anon_stats_batch_1d, insert_anon_stats_batch_1d_lifted, insert_anon_stats_batch_2d, insert_anon_stats_batch_2d_lifted.
  do 4 (split; [match goal with |- context [insert_anon_stats_batch _ ?t _ _ _] => specialize (H1 t); by destruct (insert_anon_stats_batch _ _ _ _ _) end|]).
  unfold insert_anon_stats_batch_2d_di, insert_anon_stats_batch_with_sampling_metadata.
  pose proof (insert_transaction_outcome MAX_BIND_PARAMETERS 7 sampling_rate_check (anon_stats_2d_di self) sd o p) as H2.
  pose proof (accepted_di sd Hc) as Ha.
  destruct (insert_transaction _ 7 _ _ _ _ _) as [t2 [u2|e2]]; destruct H2 as [H2 H3]; rewrite Ha in H2; cbn.
  - split; [symmetry; by apply Z.leb_le|lia].
  - split; [symmetry; apply Z.leb_gt; lia|]. intros _. apply H3.
Qed.

(** *** Witnesses *)

#[local] Instance bincode_Z : Bincode Z :=
  {| bincode_serialize x := [x]; bincode_deserialize l := match l with [x] => Some x | _ => None end |}.
#[local] Instance bincode_Z_ok : BincodeOk Z.
Proof. done. Qed.

Definition demo_origin : AnonStatsOrigin := mkOrigin (Some LeftEye) Normal HNSW.

Definition empty_store : AnonStatsStore :=
  mkStore (mkTable [] 1) (mkTable [] 1) (mkTable [] 1) (mkTable [] 1) (mkTable [] 1) (mkTable [] 1).
Definition demo_di_batch : list (Z * di_meta * Z) := replicate (Z.to_nat 9363) (5, (50, true, false), 17).

Lemma di_batch_limit_witness :
  is_ok (insert_anon_stats_batch_2d_di MAX_BIND_PARAMETERS empty_store demo_di_batch demo_origin Uniqueness).2 = false.
Proof.
  destruct (di_batch_limit empty_store [(3, 30)] demo_di_batch demo_origin Uniqueness) as (_ & _ & _ & _ & -> & _).
  - unfold demo_di_batch. apply Forall_replicate. reflexivity.
  - unfold demo_di_batch. rewrite length_replicate. reflexivity.
Defined.
