(* ===== verification/StoreSpec.v ===== *)
(** * The whole store of statistics: [ampc-anon-stats/src/store/mod.rs]

    AnonStore.v models the six tables and the methods of the store.  Here the
    store is put together: its calls are the calls of its methods, and its
    specification has a log of pending entries for each table.  Five tables
    count rows and return them in the order of insertion; that of the faces
    counts distances and returns them in the order of the queries.  A call on
    a table leaves the others alone. *)

From S2P Require Import Prelude F64 Buckets AnonStore.
From stdpp Require Import base list numbers option strings sorting.
From Stdlib Require Import ZArith Lia Sorted.
Local Open Scope Z_scope.

(** ** The calls of the store *)

(** The methods with the suffixes [_1d], [_1d_lifted], [_2d] and [_2d_lifted]. *)
Inductive plain_call (T : Type) :=
| PlainNum (origin : AnonStatsOrigin) (operation : option AnonStatsOperation)
| PlainGet (origin : AnonStatsOrigin) (operation : option AnonStatsOperation) (limit : Z)
| PlainMark (ids : list Z)
| PlainClear (origin : AnonStatsOrigin) (operation : option AnonStatsOperation)
| PlainInsert (anon_stats : list (Z * T)) (origin : AnonStatsOrigin) (operation : AnonStatsOperation).
Arguments PlainNum {T}. Arguments PlainGet {T}. Arguments PlainMark {T}. Arguments PlainClear {T}. Arguments PlainInsert {T}.

(** The methods with the suffix [_2d_di]: an operation and a sampling group are
    always given. *)
Inductive di_call (T : Type) :=
| DiNum (origin : AnonStatsOrigin) (operation : AnonStatsOperation) (sampling_rate : Z) (left right : bool)
| DiGet (origin : AnonStatsOrigin) (operation : AnonStatsOperation) (sampling_rate : Z) (left right : bool) (limit : Z)
| DiMark (ids : list Z)
| DiClear (origin : AnonStatsOrigin) (operation : AnonStatsOperation) (sampling_rate : Z) (left right : bool)
| DiInsert (anon_stats : list (Z * di_meta * T)) (origin : AnonStatsOrigin) (operation : AnonStatsOperation).
Arguments DiNum {T}. Arguments DiGet {T}. Arguments DiMark {T}. Arguments DiClear {T}. Arguments DiInsert {T}.

(** The methods with the suffix [_face], and what they return. *)
Inductive face_call (D : Type) :=
| FaceNum (origin : AnonStatsOrigin) (operation : option AnonStatsOperation)
| FaceGet (origin : AnonStatsOrigin) (operation : option AnonStatsOperation) (limit : Z)
| FaceMark (ids : list Z)
| FaceClear (origin : AnonStatsOrigin) (operation : option AnonStatsOperation)
| FaceInsert (anon_stats : list D) (query_id : Z) (origin : AnonStatsOrigin) (operation : AnonStatsOperation).
Arguments FaceNum {D}. Arguments FaceGet {D}. Arguments FaceMark {D}. Arguments FaceClear {D}. Arguments FaceInsert {D}.

Inductive face_answer (D : Type) :=
| FaceNumber (n : Z)
| FaceEntries (ids query_ids : list Z) (distances : list D)
| FaceDone
| FaceFailed.
Arguments FaceNumber {D}. Arguments FaceEntries {D}. Arguments FaceDone {D}. Arguments FaceFailed {D}.

(** The five methods of a plain table. *)
Record plain_methods (T : Type) := mkMethods {
  m_num : AnonStatsStore -> AnonStatsOrigin -> option AnonStatsOperation -> Z;
  m_get : AnonStatsStore -> AnonStatsOrigin -> option AnonStatsOperation -> Z -> result (list Z * list (Z * T));
  m_mark : AnonStatsStore -> list Z -> AnonStatsStore;
  m_clear : AnonStatsStore -> AnonStatsOrigin -> option AnonStatsOperation -> AnonStatsStore * Z;
  m_insert : AnonStatsStore -> list (Z * T) -> AnonStatsOrigin -> AnonStatsOperation -> AnonStatsStore * result unit;
}.
Arguments mkMethods {T}. Arguments m_num {T}. Arguments m_get {T}. Arguments m_mark {T}. Arguments m_clear {T}. Arguments m_insert {T}.

Section Methods.
Context (max_binds : nat) {T : Type} `{!Bincode T}.

Definition methods_1d : plain_methods T :=
  mkMethods num_available_anon_stats_1d get_available_anon_stats_1d mark_anon_stats_processed_1d
    clear_unprocessed_anon_stats_1d (insert_anon_stats_batch_1d max_binds).
Definition methods_1d_lifted : plain_methods T :=
  mkMethods num_available_anon_stats_1d_lifted get_available_anon_stats_1d_lifted mark_anon_stats_processed_1d_lifted
    clear_unprocessed_anon_stats_1d_lifted (insert_anon_stats_batch_1d_lifted max_binds).
Definition methods_2d : plain_methods T :=
  mkMethods num_available_anon_stats_2d get_available_anon_stats_2d mark_anon_stats_processed_2d
    clear_unprocessed_anon_stats_2d (insert_anon_stats_batch_2d max_binds).
Definition methods_2d_lifted : plain_methods T :=
  mkMethods num_available_anon_stats_2d_lifted get_available_anon_stats_2d_lifted mark_anon_stats_processed_2d_lifted
    clear_unprocessed_anon_stats_2d_lifted (insert_anon_stats_batch_2d_lifted max_binds).

Definition plain_execute (m : plain_methods T) (self : AnonStatsStore) (c : plain_call T) : AnonStatsStore * answer T :=
  match c with
  | PlainNum o p => (self, Number (m_num m self o p))
  | PlainGet o p limit => (self, of_result (fun r => Entries r.1 r.2) (m_get m self o p limit))
  | PlainMark ids => (m_mark m self ids, Done)
  | PlainClear o p => let '(self, n) := m_clear m self o p in (self, Number n)
  | PlainInsert s o p => let '(self, r) := m_insert m self s o p in (self, of_result (fun _ => Done) r)
  end.

Definition di_execute (self : AnonStatsStore) (c : di_call T) : AnonStatsStore * answer T :=
  match c with
  | DiNum o p rate l r => (self, Number (num_available_anon_stats_2d_di self o p rate l r))
  | DiGet o p rate l r limit => (self, of_result (fun r => Entries r.1 r.2) (get_available_anon_stats_2d_di self o p rate l r limit))
  | DiMark ids => (mark_anon_stats_processed_2d_di self ids, Done)
  | DiClear o p rate l r => let '(self, n) := clear_unprocessed_anon_stats_2d_di self o p rate l r in (self, Number n)
  | DiInsert s o p => let '(self, r) := insert_anon_stats_batch_2d_di max_binds self s o p in (self, of_result (fun _ => Done) r)
  end.
End Methods.

Definition face_execute {D} `{!Bincode (list D)} (self : AnonStatsStore) (c : face_call D) : AnonStatsStore * face_answer D :=
  match c with
  | FaceNum o p => (self, match num_available_anon_stats_face self o p with Ok n => FaceNumber n | Err _ => FaceFailed end)
  | FaceGet o p limit =>
      (self, match get_available_anon_stats_face self o p limit with
             | Ok (ids, query_ids, distances) => FaceEntries ids query_ids distances
             | Err _ => FaceFailed
             end)
  | FaceMark ids => (mark_anon_stats_processed_face self ids, FaceDone)
  | FaceClear o p => let '(self, n) := clear_unprocessed_anon_stats_face self o p in (self, FaceNumber n)
  | FaceInsert s query_id o p => (insert_anon_stats_face self s query_id o p, FaceDone)
  end.

Section Store.
(** The bundles of the tables and a face distance. *)
Context {T1 T1l T2 T2l Td D : Type}.
Context `{!Bincode T1, !Bincode T1l, !Bincode T2, !Bincode T2l, !Bincode Td, !Bincode (list D)}.
Context (max_binds : nat).

Inductive store_call :=
| On1d (c : plain_call T1)
| On1dLifted (c : plain_call T1l)
| On2d (c : plain_call T2)
| On2dLifted (c : plain_call T2l)
| On2dDi (c : di_call Td)
| OnFace (c : face_call D).

Inductive store_answer :=
| Of1d (a : answer T1)
| Of1dLifted (a : answer T1l)
| Of2d (a : answer T2)
| Of2dLifted (a : answer T2l)
| Of2dDi (a : answer Td)
| OfFace (a : face_answer D).

Definition store_execute (self : AnonStatsStore) (c : store_call) : AnonStatsStore * store_answer :=
  match c with
  | On1d c => let '(self, a) := plain_execute (methods_1d max_binds) self c in (self, Of1d a)
  | On1dLifted c => let '(self, a) := plain_execute (methods_1d_lifted max_binds) self c in (self, Of1dLifted a)
  | On2d c => let '(self, a) := plain_execute (methods_2d max_binds) self c in (self, Of2d a)
  | On2dLifted c => let '(self, a) := plain_execute (methods_2d_lifted max_binds) self c in (self, Of2dLifted a)
  | On2dDi c => let '(self, a) := di_execute max_binds self c in (self, Of2dDi a)
  | OnFace c => let '(self, a) := face_execute self c in (self, OfFace a)
  end.

(** The database may rearrange the rows of its tables at any time. *)
Definition same_rows {X} (t t' : table X) : Prop := rows t' ≡ₚ rows t /\ nextval t' = nextval t.

Record rearranged (s s' : AnonStatsStore) : Prop := {
  same_1d : same_rows (anon_stats_1d s) (anon_stats_1d s');
  same_1d_lifted : same_rows (anon_stats_1d_lifted s) (anon_stats_1d_lifted s');
  same_2d : same_rows (anon_stats_2d s) (anon_stats_2d s');
  same_2d_lifted : same_rows (anon_stats_2d_lifted s) (anon_stats_2d_lifted s');
  same_2d_di : same_rows (anon_stats_2d_di s) (anon_stats_2d_di s');
  same_face : same_rows (anon_stats_face s) (anon_stats_face s');
}.

Inductive store_executes : AnonStatsStore -> list store_call -> list store_answer -> Prop :=
| store_executes_nil s : store_executes s [] []
| store_executes_rearrange s s' cs answers : rearranged s s' -> store_executes s' cs answers -> store_executes s cs answers
| store_executes_cons s c cs answers :
    store_executes (store_execute s c).1 cs answers -> store_executes s (c :: cs) ((store_execute s c).2 :: answers).

(** The answers when the rows stay where they are. *)
Fixpoint store_run_calls (s : AnonStatsStore) (cs : list store_call) : list store_answer :=
  match cs with [] => [] | c :: cs => (store_execute s c).2 :: store_run_calls (store_execute s c).1 cs end.

Lemma store_executes_run s cs : store_executes s cs (store_run_calls s cs).
Proof. revert s. induction cs as [|c cs IH]; intros s; [constructor|]. apply store_executes_cons, IH. Qed.

(** ** Specification *)

Definition plain_of {T} (c : plain_call T) : call unit T :=
  match c with
  | PlainNum o p => NumAvailable o p None
  | PlainGet o p limit => GetAvailable o p None limit
  | PlainMark ids => MarkProcessed ids
  | PlainClear o p => ClearUnprocessed o p None
  | PlainInsert s o p => InsertBatch ((fun '(id, bundle) => (id, tt, bundle)) <$> s) o p
  end.

Definition di_of {T} (c : di_call T) : call di_meta T :=
  match c with
  | DiNum o p rate l r => NumAvailable o (Some p) (Some (rate, l, r))
  | DiGet o p rate l r limit => GetAvailable o (Some p) (Some (rate, l, r)) limit
  | DiMark ids => MarkProcessed ids
  | DiClear o p rate l r => ClearUnprocessed o (Some p) (Some (rate, l, r))
  | DiInsert s o p => InsertBatch s o p
  end.

(** The pending faces of an origin and an operation, and how many distances
    they hold. *)
Definition pending_faces (l : log Z (list D)) o p : list (entry Z (list D)) := filter (wanted o p None) (entries l).
Definition distances_of (es : list (entry Z (list D))) : list D := concat (e_bundle <$> es).
Definition count_distances (es : list (entry Z (list D))) : Z := Z.of_nat (length (distances_of es)).

(** A fetch orders the pending entries by query, those of one query in any
    order, and takes the fewest, but at least one, that hold [limit] distances,
    or all of them; distances are counted in 64 bits. *)
Record fetched (pending es : list (entry Z (list D))) (limit : Z) (k : nat) : Prop := {
  fetched_all : es ≡ₚ pending;
  fetched_by_query : StronglySorted Z.le (e_match <$> es);
  fetched_some : (k <= length es)%nat /\ (es <> [] -> (0 < k)%nat);
  fetched_enough : k = length es \/ limit <= count_distances (take k es) mod 2 ^ 64;
  fetched_least : forall j, (0 < j < k)%nat -> count_distances (take j es) mod 2 ^ 64 < limit;
}.

Inductive face_step (l : log Z (list D)) : face_call D -> face_answer D -> log Z (list D) -> Prop :=
| face_num o p :
    count_distances (pending_faces l o p) < 2 ^ 63 ->
    face_step l (FaceNum o p) (FaceNumber (count_distances (pending_faces l o p))) l
| face_num_refused o p : 2 ^ 63 <= count_distances (pending_faces l o p) -> face_step l (FaceNum o p) FaceFailed l
| face_get o p limit es k :
    fetched (pending_faces l o p) es limit k ->
    face_step l (FaceGet o p limit) (FaceEntries (e_id <$> take k es) (e_match <$> take k es) (distances_of (take k es))) l
| face_mark ids : face_step l (FaceMark ids) FaceDone (mkLog (filter (fun e => e_id e ∉ ids) (entries l)) (fresh_id l))
| face_clear o p :
    face_step l (FaceClear o p) (FaceNumber (Z.of_nat (length (pending_faces l o p))))
      (mkLog (filter (fun e => ~ wanted o p None e) (entries l)) (fresh_id l))
| face_insert_nothing query_id o p : face_step l (FaceInsert [] query_id o p) FaceDone l
| face_insert ds query_id o p :
    ds <> [] ->
    face_step l (FaceInsert ds query_id o p) FaceDone
      (mkLog (entries l ++ [mkEntry (fresh_id l) query_id ds o p (Z.of_nat (length ds))]) (fresh_id l + 1)).

(** A log for each table. *)
Record logs := mkLogs {
  log_1d : log unit T1;
  log_1d_lifted : log unit T1l;
  log_2d : log unit T2;
  log_2d_lifted : log unit T2l;
  log_2d_di : log di_meta Td;
  log_face : log Z (list D);
}.

Inductive store_step : logs -> store_call -> store_answer -> logs -> Prop :=
| step_1d l1 l1l l2 l2l ld lf c a l' :
    spec_step (accepted max_binds 4 (fun _ => true)) l1 (plain_of c) a l' ->
    store_step (mkLogs l1 l1l l2 l2l ld lf) (On1d c) (Of1d a) (mkLogs l' l1l l2 l2l ld lf)
| step_1d_lifted l1 l1l l2 l2l ld lf c a l' :
    spec_step (accepted max_binds 4 (fun _ => true)) l1l (plain_of c) a l' ->
    store_step (mkLogs l1 l1l l2 l2l ld lf) (On1dLifted c) (Of1dLifted a) (mkLogs l1 l' l2 l2l ld lf)
| step_2d l1 l1l l2 l2l ld lf c a l' :
    spec_step (accepted max_binds 4 (fun _ => true)) l2 (plain_of c) a l' ->
    store_step (mkLogs l1 l1l l2 l2l ld lf) (On2d c) (Of2d a) (mkLogs l1 l1l l' l2l ld lf)
| step_2d_lifted l1 l1l l2 l2l ld lf c a l' :
    spec_step (accepted max_binds 4 (fun _ => true)) l2l (plain_of c) a l' ->
    store_step (mkLogs l1 l1l l2 l2l ld lf) (On2dLifted c) (Of2dLifted a) (mkLogs l1 l1l l2 l' ld lf)
| step_2d_di l1 l1l l2 l2l ld lf c a l' :
    spec_step (accepted max_binds 7 sampling_rate_check) ld (di_of c) a l' ->
    store_step (mkLogs l1 l1l l2 l2l ld lf) (On2dDi c) (Of2dDi a) (mkLogs l1 l1l l2 l2l l' lf)
| step_face l1 l1l l2 l2l ld lf c a l' :
    face_step lf c a l' -> store_step (mkLogs l1 l1l l2 l2l ld lf) (OnFace c) (OfFace a) (mkLogs l1 l1l l2 l2l ld l').

Inductive store_spec : logs -> list store_call -> list store_answer -> Prop :=
| store_spec_nil l : store_spec l [] []
| store_spec_cons l c a l' cs answers : store_step l c a l' -> store_spec l' cs answers -> store_spec l (c :: cs) (a :: answers).

(** The limits are values of 64-bit machines. *)
Definition valid_plain {T} (c : plain_call T) : Prop := match c with PlainGet _ _ limit => 0 <= limit < 2 ^ 64 | _ => True end.
Definition valid_di {T} (c : di_call T) : Prop := match c with DiGet _ _ _ _ _ limit => 0 <= limit < 2 ^ 64 | _ => True end.
Definition valid_store_call (c : store_call) : Prop :=
  match c with
  | On1d c => valid_plain c
  | On1dLifted c => valid_plain c
  | On2d c => valid_plain c
  | On2dLifted c => valid_plain c
  | On2dDi c => valid_di c
  | OnFace _ => True
  end.
End Store.
Arguments store_call : clear implicits.
Arguments store_answer : clear implicits.
Arguments logs : clear implicits.

(** ** Lemmas *)

(** *** The tables within the store *)

Section Lenses.
Context (max_binds : nat) {T : Type} `{!Bincode T}.
Implicit Types (self : AnonStatsStore).

(** The methods of a plain table are the statements on it. *)
Definition on_table (get : AnonStatsStore -> table unit) (set : AnonStatsStore -> table unit -> AnonStatsStore) (m : plain_methods T) : Prop :=
  forall self c, plain_execute m self c
    = let '(t, a) := execute max_binds 4 (fun _ => true) (get self) (plain_of c) in (set self t, a).

Ltac solve_lens :=
  intros self c; destruct self, c; cbn; try done;
  unfold insert_anon_stats_batch_1d, insert_anon_stats_batch_1d_lifted, insert_anon_stats_batch_2d, insert_anon_stats_batch_2d_lifted,
    insert_anon_stats_batch_2d_di, insert_anon_stats_batch, insert_anon_stats_batch_with_sampling_metadata; cbn;
  by destruct (insert_transaction _ _ _ _ _ _ _).

Lemma on_1d : on_table anon_stats_1d set_1d (methods_1d max_binds).
Proof. solve_lens. Qed.
Lemma on_1d_lifted : on_table anon_stats_1d_lifted set_1d_lifted (methods_1d_lifted max_binds).
Proof. solve_lens. Qed.
Lemma on_2d : on_table anon_stats_2d set_2d (methods_2d max_binds).
Proof. solve_lens. Qed.
Lemma on_2d_lifted : on_table anon_stats_2d_lifted set_2d_lifted (methods_2d_lifted max_binds).
Proof. solve_lens. Qed.

Lemma on_2d_di self (c : di_call T) :
  di_execute max_binds self c
  = let '(t, a) := execute max_binds 7 sampling_rate_check (anon_stats_2d_di self) (di_of c) in (set_2d_di self t, a).
Proof. revert self c. solve_lens. Qed.

(** *** Plain tables and the Deep Identifier table *)

Context `{!BincodeOk T}.

Lemma plain_simulates get set m self (l : log unit T) c :
  on_table get set m -> refines (get self) l -> valid_plain c ->
  exists l' t', spec_step (accepted max_binds 4 (fun _ => true)) l (plain_of c) (plain_execute m self c).2 l' /\
    (plain_execute m self c).1 = set self t' /\ refines t' l'.
Proof.
  intros Hm Hr Hv. destruct (execute_simulates max_binds 4 (fun _ => true) (get self) l (plain_of c) Hr) as (l' & Hs & Hr').
  { intros o p x limit E. destruct c; simplify_eq/=; done. }
  rewrite Hm. destruct (execute _ _ _ _ _) as [t' a]. by exists l', t'.
Qed.

Lemma di_simulates self (l : log di_meta T) c :
  refines (anon_stats_2d_di self) l -> valid_di c ->
  exists l' t', spec_step (accepted max_binds 7 sampling_rate_check) l (di_of c) (di_execute max_binds self c).2 l' /\
    (di_execute max_binds self c).1 = set_2d_di self t' /\ refines t' l'.
Proof.
  intros Hr Hv. destruct (execute_simulates max_binds 7 sampling_rate_check (anon_stats_2d_di self) l (di_of c) Hr) as (l' & Hs & Hr').
  { intros o p x limit E. destruct c; simplify_eq/=; done. }
  rewrite on_2d_di. destruct (execute _ _ _ _ _) as [t' a]. by exists l', t'.
Qed.
End Lenses.

(** *** Faces *)

Section Faces.
Context {D : Type} `{!Bincode (list D), !BincodeOk (list D)}.
Implicit Types (t : table Z) (l : log Z (list D)).

(** The size of a bundle is in its row. *)
Definition sized (e : entry Z (list D)) : Prop := e_extra e = Z.of_nat (length (e_bundle e)).
Definition face_refines t l : Prop := refines t l /\ Forall sized (entries l).

Lemma sized_face_rows es : Forall sized es -> Forall2 face_row (to_row <$> es) (e_bundle <$> es).
Proof. induction 1; rewrite ?fmap_cons; constructor; [|done]. by split. Qed.

Lemma sized_pending l o p : Forall sized (entries l) -> Forall sized (pending_faces l o p).
Proof. apply Forall_filter_l. Qed.

Lemma count_spec t l o p :
  face_refines t l -> sum_Z (row_extra <$> filter (available o p None) (rows t)) = count_distances (pending_faces l o p).
Proof.
  intros [Hr Hs]. unfold count_distances, distances_of. rewrite <- (sum_sizes (D := D) (to_row <$> pending_faces l o p)) by by apply sized_face_rows, sized_pending.
  apply sum_Z_perm. by rewrite (filter_available t l o p None Hr).
Qed.

Lemma sorted_by_query (es : list (entry Z (list D))) :
  StronglySorted (key_le row_key) (to_row <$> es) -> StronglySorted Z.le (e_match <$> es).
Proof.
  induction es as [|e es IH]; [constructor|]. rewrite !fmap_cons. intros [Hst Hle]%StronglySorted_inv.
  constructor; [by apply IH|]. apply Forall_fmap, Forall_forall. intros e' He.
  rewrite Forall_forall in Hle. apply (Hle (to_row e')). by apply list_elem_of_fmap_2.
Qed.

(** The rows of the stream are those of the pending entries, in their order. *)
Lemma order_by_query t l o p :
  face_refines t l ->
  exists es, order_by row_key (filter (available o p None) (rows t)) = to_row <$> es /\
    es ≡ₚ pending_faces l o p /\ StronglySorted Z.le (e_match <$> es).
Proof.
  intros [Hr _]. pose proof (filter_available t l o p None Hr) as Hp.
  assert (Transitive (key_le (X := Z) row_key)) by (intros ???; unfold key_le; lia).
  assert (Total (key_le (X := Z) row_key)) by (intros ??; unfold key_le; lia).
  pose proof (StronglySorted_merge_sort (key_le row_key) (filter (available o p None) (rows t))) as Hst.
  unfold order_by. rewrite <- (merge_sort_Permutation (key_le row_key)) in Hp.
  apply Permutation_map_inv in Hp as (es & E & Hes). exists es. split; [done|]. split; [done|].
  apply sorted_by_query. rewrite E in Hst. exact Hst.
Qed.

Lemma get_faces_spec self l o p limit :
  face_refines (anon_stats_face self) l ->
  exists es k, fetched (pending_faces l o p) es limit k /\
    get_available_anon_stats_face self o p limit = Ok (e_id <$> take k es, e_match <$> take k es, distances_of (take k es)).
Proof.
  intros H. destruct (order_by_query _ l o p H) as (es & E & Hp & Hst). unfold get_available_anon_stats_face. rewrite E.
  assert (Hz : Forall sized es) by (rewrite Hp; apply sized_pending, H).
  destruct (fetch_faces_loop (to_row <$> es) (e_bundle <$> es) limit 0 [] [] [] (sized_face_rows es Hz)) as (k & -> & Hle & Hk & He & Hj).
  rewrite length_fmap in Hle, He. exists es, k. split.
  - split; [done|done| | |].
    + split; [done|]. intros Hes. apply Hk. by destruct es.
    + unfold count_distances, distances_of. by rewrite fmap_take.
    + intros j Hj'. unfold count_distances, distances_of. rewrite fmap_take. by apply Hj.
  - cbn [app]. unfold distances_of. by rewrite <- !fmap_take, <- !list_fmap_compose.
Qed.

Lemma face_simulates self l c :
  face_refines (anon_stats_face self) l ->
  exists l' t', face_step l c (face_execute self c).2 l' /\ (face_execute self c).1 = set_face self t' /\ face_refines t' l'.
Proof.
  intros H. assert (Hid : self = set_face self (anon_stats_face self)) by by destruct self.
  pose proof H as [Hr Hz]. destruct c as [o p|o p limit|ids|o p|ds query_id o p]; cbn [face_execute fst snd].
  - exists l, (anon_stats_face self). split; [|done]. unfold num_available_anon_stats_face. rewrite (count_spec _ l o p H).
    destruct (Z.ltb_spec (count_distances (pending_faces l o p)) (2 ^ 63)); by constructor.
  - exists l, (anon_stats_face self). split; [|done]. destruct (get_faces_spec self l o p limit H) as (es & k & Hf & ->).
    by apply face_get.
  - eexists _, _. split; [constructor|]. split; [done|]. split; [by apply mark_spec|]. by apply Forall_filter_l.
  - eexists _, _. split; [|split; [done|]]; cbn.
    + rewrite (count_available _ l o p None Hr). apply face_clear.
    + split; [by apply (clear_spec _ l o p None)|]. by apply Forall_filter_l.
  - destruct ds as [|d ds]; [exists l, (anon_stats_face self); split; [constructor|done]|].
    eexists _, _. split; [by constructor|]. split; [done|].
    pose proof (refines_append _ l [(query_id, Z.of_nat (length (d :: ds)), d :: ds)] o p Hr) as Ha. cbn [number_from] in Ha.
    split; [exact Ha|]. apply Forall_app. split; [done|]. by repeat constructor.
Qed.
End Faces.

(** *** The store *)

Section Simulation.
Context {T1 T1l T2 T2l Td D : Type}.
Context `{!Bincode T1, !Bincode T1l, !Bincode T2, !Bincode T2l, !Bincode Td, !Bincode (list D)}.
Context `{!BincodeOk T1, !BincodeOk T1l, !BincodeOk T2, !BincodeOk T2l, !BincodeOk Td, !BincodeOk (list D)}.
Context (max_binds : nat).

Record store_refines (self : AnonStatsStore) (l : logs T1 T1l T2 T2l Td D) : Prop := {
  sr_1d : refines (anon_stats_1d self) (log_1d l);
  sr_1d_lifted : refines (anon_stats_1d_lifted self) (log_1d_lifted l);
  sr_2d : refines (anon_stats_2d self) (log_2d l);
  sr_2d_lifted : refines (anon_stats_2d_lifted self) (log_2d_lifted l);
  sr_2d_di : refines (anon_stats_2d_di self) (log_2d_di l);
  sr_face : face_refines (anon_stats_face self) (log_face l);
}.

Lemma refines_empty {X T} `{!EqDecision X, !Bincode T} : refines (mkTable [] 1) (mkLog [] 1 : log X T).
Proof. split; constructor. Qed.

Lemma refines_same_rows {X T} `{!EqDecision X, !Bincode T} (t t' : table X) (l : log X T) : same_rows t t' -> refines t l -> refines t' l.
Proof. intros [Hp Hn]. destruct t'. cbn in *. subst. by apply refines_rearrange. Qed.

Lemma store_rearranged self self' l : rearranged self self' -> store_refines self l -> store_refines self' l.
Proof.
  intros [] []. split; try (eapply refines_same_rows; eassumption).
  split; [eapply refines_same_rows; [eassumption|]|]; apply sr_face0.
Qed.

Lemma store_simulates self (l : logs T1 T1l T2 T2l Td D) c :
  store_refines self l -> valid_store_call c ->
  exists l', store_step max_binds l c (store_execute max_binds self c).2 l' /\ store_refines (store_execute max_binds self c).1 l'.
Proof.
  intros [H1 H1l H2 H2l Hd Hf] Hv. destruct l as [l1 l1l l2 l2l ld lf]. cbn in *.
  destruct c as [c|c|c|c|c|c]; cbn [store_execute valid_store_call] in *.
  - destruct (plain_simulates max_binds _ _ _ self l1 c (on_1d max_binds) H1 Hv) as (l' & t' & Hs & Ht & Hr).
    destruct (plain_execute _ _ _) as [self' a]. cbn in Ht; subst self'. eexists. split; [by constructor|]. by split.
  - destruct (plain_simulates max_binds _ _ _ self l1l c (on_1d_lifted max_binds) H1l Hv) as (l' & t' & Hs & Ht & Hr).
    destruct (plain_execute _ _ _) as [self' a]. cbn in Ht; subst self'. eexists. split; [by constructor|]. by split.
  - destruct (plain_simulates max_binds _ _ _ self l2 c (on_2d max_binds) H2 Hv) as (l' & t' & Hs & Ht & Hr).
    destruct (plain_execute _ _ _) as [self' a]. cbn in Ht; subst self'. eexists. split; [by constructor|]. by split.
  - destruct (plain_simulates max_binds _ _ _ self l2l c (on_2d_lifted max_binds) H2l Hv) as (l' & t' & Hs & Ht & Hr).
    destruct (plain_execute _ _ _) as [self' a]. cbn in Ht; subst self'. eexists. split; [by constructor|]. by split.
  - destruct (di_simulates max_binds self ld c Hd Hv) as (l' & t' & Hs & Ht & Hr).
    destruct (di_execute _ _ _) as [self' a]. cbn in Ht; subst self'. eexists. split; [by constructor|]. by split.
  - destruct (face_simulates self lf c Hf) as (l' & t' & Hs & Ht & Hr).
    destruct (face_execute _ _) as [self' a]. cbn in Ht; subst self'. eexists. split; [by constructor|]. by split.
Qed.
End Simulation.

(** ** Claims *)

(** A store and logs without entries. *)
Definition empty_logs {T1 T1l T2 T2l Td D} : logs T1 T1l T2 T2l Td D :=
  mkLogs (mkLog [] 1) (mkLog [] 1) (mkLog [] 1) (mkLog [] 1) (mkLog [] 1) (mkLog [] 1).


(** ** Witness *)

#[local] Instance bincode_Z : Bincode Z :=
  {| bincode_serialize x := [x]; bincode_deserialize l := match l with [x] => Some x | _ => None end |}.
#[local] Instance bincode_Z_ok : BincodeOk Z.
Proof. done. Qed.
#[local] Instance bincode_Zs : Bincode (list Z) := {| bincode_serialize l := l; bincode_deserialize l := Some l |}.
#[local] Instance bincode_Zs_ok : BincodeOk (list Z).
Proof. done. Qed.

Definition demo_store_calls : list (store_call Z Z Z Z Z Z) :=
  [On1d (PlainInsert [(7, 70); (9, 90); (11, 110)] demo_origin Uniqueness); On1d (PlainInsert [(8, 80)] demo_origin Reauth);
   On1d (PlainGet demo_origin (Some Uniqueness) 2); On1d (PlainMark [1; 2]); On2d (PlainNum demo_origin None);
   On1d (PlainGet demo_origin None 10); On1d (PlainGet demo_origin None (2 ^ 63)); On1d (PlainClear demo_origin (Some Reauth));
   On2dDi (DiInsert [(5, (50, true, false), 17); (6, (100, false, false), 18)] demo_origin Uniqueness);
   On2dDi (DiNum demo_origin Uniqueness 50 true false); On2dDi (DiInsert [(5, (101, true, false), 17)] demo_origin Uniqueness);
   OnFace (FaceInsert [1; 2; 3] 9 demo_origin Uniqueness); OnFace (FaceInsert [4; 5] 3 demo_origin Uniqueness);
   OnFace (FaceInsert [6] 5 demo_origin Uniqueness); OnFace (FaceNum demo_origin None); OnFace (FaceGet demo_origin None 3);
   OnFace (FaceMark [2]); OnFace (FaceGet demo_origin None 0); OnFace (FaceClear demo_origin None)].

Definition demo_store_answers : list (store_answer Z Z Z Z Z Z) :=
  [Of1d Done; Of1d Done; Of1d (Entries [1; 2] [(7, 70); (9, 90)]); Of1d Done; Of2d (Number 0);
   Of1d (Entries [3; 4] [(11, 110); (8, 80)]); Of1d Failed; Of1d (Number 1);
   Of2dDi Done; Of2dDi (Number 1); Of2dDi Failed;
   OfFace FaceDone; OfFace FaceDone; OfFace FaceDone; OfFace (FaceNumber 6); OfFace (FaceEntries [2; 3] [3; 5] [4; 5; 6]);
   OfFace FaceDone; OfFace (FaceEntries [3] [5] [6]); OfFace (FaceNumber 2)].

Lemma demo_store_calls_run : store_run_calls MAX_BIND_PARAMETERS empty_store demo_store_calls = demo_store_answers.
Proof. by vm_compute. Qed.

