(* ===== verification/JobSync.v ===== *)
(** * Agreement on a job: [ampc-anon-stats/src/server/sync.rs]

    The parties of the statistics server fetch the rows of a job from their own
    stores.  They first agree on how many rows to take, by broadcasting how many
    each of them has, and then compare a hash of the match ids they took.  The
    theorem composes the store, the rows of a job and the exchange: whatever the
    stores hold, the parties take equally many rows, the oldest ones, and go on
    when the match ids agree. *)

From S2P Require Import Prelude IntRing RingImpl Party Share VecShare Value Net Prf Proto Sync F64 Buckets AnonStore.
From stdpp Require Import option base list numbers strings gmap.
From Stdlib Require Import ZArith Lia.
Local Open Scope Z_scope.

(** ** Definitions *)

Section Protocols.
Context {R : Rng}.

(** The sends and receives are those of [exchange]. *)
(* server/sync.rs:34-46 broadcast *)
Definition broadcast_values (value : NetworkValue) : M R (list NetworkValue) :=
  '(next_value, prev_value) ← exchange value;
  s ← get;
  liftr (by_party (role_index (own_role (network_session s))) value next_value prev_value).

(* server/sync.rs:61-70 broadcast_u64 (one value) *)
Definition u64_of_value (nv : NetworkValue) : result Z :=
  match nv with
  | VBytes b => if negb (length b =? 8)%nat then bail "Unexpected byte length for usize" else Ok (from_le_bytes b)
  | _ => bail "Unexpected network value type"
  end.

(* server/sync.rs:54-72 broadcast_u64 *)
Definition broadcast_u64 (value : Z) : M R (list Z) :=
  broadcasted_values ← broadcast_values (VBytes (to_le_bytes 8 value));
  liftr (mapM_result u64_of_value broadcasted_values).

(** A [usize] is 64 bits wide: both conversions succeed. *)
Definition usize_try_from (x : Z) : result Z := if x <? 2 ^ 64 then Ok x else panic "value fits into usize".

(* server/sync.rs:48-52 broadcast_usize *)
Definition broadcast_usize (value : Z) : M R (list Z) :=
  broadcasted_sizes ← broadcast_u64 value;
  liftr (mapM_result usize_try_from broadcasted_sizes).

(* server/sync.rs:6-17 sync_on_job_sizes *)
Definition sync_on_job_sizes (job_size : Z) : M R Z :=
  sizes ← broadcast_usize job_size;
  liftr (match sizes with [] => panic "called `Option::unwrap()` on a `None` value" | x :: xs => Ok (foldl Z.min x xs) end).

(* server/sync.rs:19-32 sync_on_id_hash *)
Definition sync_on_id_hash (id_hash : Z) : M R bool :=
  broadcast_hashes ← broadcast_u64 id_hash;
  mret (forallb (fun h => h =? id_hash) broadcast_hashes).

(** The calls a server makes for a job, on its store [t] and, when the rows are
    fetched, [t']; [hash] is the [SipHasher13] digest. *)
Definition fetch_job {X T} `{!EqDecision X, !Bincode T} (hash : list Z -> Z) (t t' : table X) o p x
    : M R (list Z * list (Z * T) * bool) :=
  size ← sync_on_job_sizes (num_available_anon_stats t o p x);
  '(ids, stats) ← liftr (get_available_anon_stats t' o p x size);
  agreed ← sync_on_id_hash (get_id_hash hash (mapping_new stats));
  mret (ids, stats, agreed).
End Protocols.

(** ** Lemmas *)

Section Lemmas.
Context {R : Rng} (ids : tri Identity) (sid : Z).

Definition values {A} (v : tri A) : list A := [v @ ID0; v @ ID1; v @ ID2].

Lemma by_party_values {A} (v : tri A) i :
  by_party (role_index (party_role i)) (v @ i) (v @ (next_id i)) (v @ (prev_id i)) = Ok (values v).
Proof. by destruct i. Qed.

Lemma broadcast_spec (v : tri NetworkValue) :
  proto (R := R) ids sid (fun i => broadcast_values (v @ i)) (fun out => out = tof (fun _ => values v)).
Proof.
  unfold broadcast_values. eapply proto_bind; [apply exchange_spec|]. intros x Hx. cbn beta in Hx.
  apply (proto_ext ids sid _ (fun i => s ← get;
    liftr (by_party (role_index (own_role (network_session s))) (v @ i) (v @ (next_id i)) (v @ (prev_id i))))); [intros s i _; by rewrite Hx|].
  eapply proto_bind; [apply (proto_get ids sid (fun s => in_ring ids sid s)); by intros|]. intros s Hs.
  apply (proto_liftr ids sid _ (tof (fun _ => values v))); [|done].
  intros i. by rewrite (proj1 (Hs i)), tget_tof, by_party_values.
Qed.

Lemma broadcast_u64_spec (v : tri Z) :
  (forall i, 0 <= v @ i < 2 ^ 64) ->
  proto (R := R) ids sid (fun i => broadcast_u64 (v @ i)) (fun out => out = tof (fun _ => values v)).
Proof.
  intros Hv. unfold broadcast_u64. eapply proto_bind.
  { apply (proto_ext ids sid _ (fun i => broadcast_values (((fun x => VBytes (to_le_bytes 8 x)) <$> v) @ i))); [intros s i _; by rewrite tget_fmap|].
    apply broadcast_spec. }
  intros out ->. apply (proto_liftr ids sid _ (tof (fun _ => values v))); [|done].
  intros i. rewrite !tget_tof. unfold values. rewrite !tget_fmap. cbn [mapM_result u64_of_value].
  rewrite !length_to_le. cbn [Nat.eqb negb]. by rewrite !from_to_le by apply Hv.
Qed.

Definition minimum (v : tri Z) : Z := Z.min (Z.min (v @ ID0) (v @ ID1)) (v @ ID2).

Lemma minimum_le v i : minimum v <= v @ i.
Proof. unfold minimum. destruct i; lia. Qed.

Lemma minimum_attained v : exists i, minimum v = v @ i.
Proof.
  unfold minimum. destruct (Z.min_spec (v @ ID0) (v @ ID1)) as [[_ ->]|[_ ->]].
  - destruct (Z.min_spec (v @ ID0) (v @ ID2)) as [[_ ->]|[_ ->]]; by eexists.
  - destruct (Z.min_spec (v @ ID1) (v @ ID2)) as [[_ ->]|[_ ->]]; by eexists.
Qed.

Lemma sync_on_job_sizes_spec (n : tri Z) :
  (forall i, 0 <= n @ i < 2 ^ 64) ->
  proto (R := R) ids sid (fun i => sync_on_job_sizes (n @ i)) (fun out => out = tof (fun _ => minimum n)).
Proof.
  intros Hn. unfold sync_on_job_sizes, broadcast_usize. eapply proto_bind.
  { eapply proto_bind; [by apply broadcast_u64_spec|]. intros out ->.
    apply (proto_liftr ids sid _ (tof (fun _ => values n)) (fun out => out = tof (fun _ => values n))); [|done].
    intros i. rewrite !tget_tof. unfold values, usize_try_from. cbn [mapM_result].
    by rewrite !(proj2 (Z.ltb_lt _ _)) by apply Hn. }
  intros out ->. apply (proto_liftr ids sid _ (tof (fun _ => minimum n))); [|done]. intros i. by rewrite !tget_tof.
Qed.

Lemma sync_on_id_hash_spec (h : tri Z) :
  (forall i, 0 <= h @ i < 2 ^ 64) ->
  proto (R := R) ids sid (fun i => sync_on_id_hash (h @ i)) (fun out => out = tof (fun _ => all_equal h)).
Proof.
  intros Hh. unfold sync_on_id_hash. eapply proto_bind; [by apply broadcast_u64_spec|]. intros out ->.
  apply (proto_ext ids sid _ (fun i => mret ((tof (fun _ => all_equal h)) @ i))); [|by apply proto_ret].
  intros s i _. rewrite !tget_tof. unfold values. cbn [forallb]. rewrite (all_equal_iff h i). f_equal.
  destruct h as [a b c], i; cbn; apply eq_true_iff_eq; rewrite !andb_true_iff, !bool_decide_eq_true, !Z.eqb_eq; naive_solver.
Qed.

Lemma all_equal_tof (f : PartyID -> Z) : all_equal (tof f) = true <-> forall i j, f i = f j.
Proof.
  unfold all_equal. cbn. rewrite andb_true_iff, !bool_decide_eq_true. split.
  - intros [H1 H2] [] []; congruence.
  - intros H. split; apply H.
Qed.
End Lemmas.

(** ** Claims *)

Section Agreement.
Context {X T : Type} `{!EqDecision X, !Bincode T, !BincodeOk T}.

(** The pending entries of a party for the job. *)
Definition pending (l : log X T) o p x : list (entry X T) := filter (wanted o p x) (entries l).
Definition job_entry (e : entry X T) : Z * T := (e_match e, e_bundle e).
Definition pending_counts (l : tri (log X T)) o p x : tri Z := tof (fun i => Z.of_nat (length (pending (l @ i) o p x))).

(** The first rows, fetched from a store that has grown since they were counted. *)
Lemma fetch_counted (t t' : table X) (l l' : log X T) o p x m :
  refines t l -> refines t' l' -> pending l o p x `prefix_of` pending l' o p x ->
  0 <= m <= Z.of_nat (length (pending l o p x)) -> m < 2 ^ 63 ->
  let es := take (Z.to_nat m) (pending l o p x) in
  get_available_anon_stats t' o p x m = Ok (e_id <$> es, job_entry <$> es) /\ Z.of_nat (length es) = m.
Proof.
  intros H H' [more Hmore] Hm Hm' es. rewrite (get_available_spec t' l') by (done || lia). fold (pending l' o p x).
  rewrite Hmore, take_app_le by lia. split; [done|]. unfold es. rewrite length_take. lia.
Qed.

(** The hash of the match ids of a job's rows. *)
Definition job_hash (hash : list Z -> Z) (es : list (entry X T)) : Z := get_id_hash hash (mapping_new (job_entry <$> es)).

(** Rows with the same match ids have the same hash, in whatever order. *)
Lemma job_hash_perm hash (es es' : list (entry X T)) :
  (e_match <$> es) ≡ₚ (e_match <$> es') -> job_hash hash es = job_hash hash es'.
Proof.
  intros Hp. unfold job_hash, get_id_hash. f_equal. apply sorted_perm_unique; [apply sort_rows_sorted..|]. cbn [mapping_new stats].
  rewrite !sort_rows_perm, <- !list_fmap_compose. done.
Qed.

(** Every party counts, and can fetch, at least the common number of rows. *)
Lemma job_rows (t t' : tri (table X)) (l l' : tri (log X T)) o p x i :
  let n := pending_counts l o p x in let m := minimum n in
  (forall i, refines (t @ i) (l @ i)) -> refines (t' @ i) (l' @ i) ->
  pending (l @ i) o p x `prefix_of` pending (l' @ i) o p x -> (forall i, n @ i < 2 ^ 63) ->
  let es := take (Z.to_nat m) (pending (l @ i) o p x) in
  num_available_anon_stats (t @ i) o p x = n @ i /\ 0 <= n @ i < 2 ^ 64 /\
  get_available_anon_stats (t' @ i) o p x m = Ok (e_id <$> es, job_entry <$> es) /\ Z.of_nat (length es) = m.
Proof.
  intros n m H H' Hp Hc es.
  assert (forall j, n @ j = Z.of_nat (length (pending (l @ j) o p x))) as Hn by (intros j; unfold n, pending_counts; by rewrite tget_tof).
  assert (0 <= m <= n @ i) as Hm.
  { split; [destruct (minimum_attained n) as [j Hj]; unfold m; rewrite Hj, Hn; lia|apply minimum_le]. }
  split; [unfold num_available_anon_stats; by rewrite Hn, (count_available _ _ o p x (H i))|].
  specialize (Hc i). split; [lia|]. rewrite Hn in Hm, Hc. apply (fetch_counted (t @ i) (t' @ i) (l @ i) (l' @ i)); try done. lia.
Qed.
End Agreement.

(** C9: three parties agree on a job.  Let each party count the pending rows of its
    store, synchronise the count, fetch that many rows, and synchronise the hash
    of their match ids; rows may be inserted between the count and the fetch.
    Then every party fetches the same number of rows, the least of the three
    counts, and they are its oldest; all three get the same verdict, which is
    positive exactly when the hashes of all three parties are equal, and so it is
    when the parties fetched rows with the same match ids, in whatever order they
    were inserted. *)
Theorem job_agreement {X T} `{!EqDecision X, !Bincode T, !BincodeOk T} (R : Rng) ids sid hash
    (t t' : tri (table X)) (l l' : tri (log X T)) o p x :
  (forall i, refines (t @ i) (l @ i)) -> (forall i, refines (t' @ i) (l' @ i)) ->
  (forall i, pending (l @ i) o p x `prefix_of` pending (l' @ i) o p x) ->
  (forall i, (pending_counts l o p x) @ i < 2 ^ 63) -> (forall k, 0 <= hash k < 2 ^ 64) ->
  proto (R := R) ids sid (fun i => fetch_job (T := T) hash (t @ i) (t' @ i) o p x)
    (fun out => exists m agreed, m = minimum (pending_counts l o p x) /\
       (forall i, let es := take (Z.to_nat m) (pending (l @ i) o p x) in
          out @ i = (e_id <$> es, job_entry <$> es, agreed) /\ Z.of_nat (length es) = m) /\
       (agreed = true <-> forall i j, job_hash hash (take (Z.to_nat m) (pending (l @ i) o p x)) = job_hash hash (take (Z.to_nat m) (pending (l @ j) o p x))) /\
       ((forall i j, (e_match <$> take (Z.to_nat m) (pending (l @ i) o p x)) ≡ₚ (e_match <$> take (Z.to_nat m) (pending (l @ j) o p x))) ->
        agreed = true)).
Proof.
  intros H H' Hp Hc Hh. unfold fetch_job. set (n := pending_counts l o p x). set (m := minimum n).
  set (es i := take (Z.to_nat m) (pending (l @ i) o p x)).
  assert (forall i, num_available_anon_stats (t @ i) o p x = n @ i /\ 0 <= n @ i < 2 ^ 64 /\
    get_available_anon_stats (t' @ i) o p x m = Ok (e_id <$> es i, job_entry <$> es i) /\ Z.of_nat (length (es i)) = m) as Hes.
  { intros i. by apply (job_rows t t' l l'). }
  set (hs := tof (fun i => job_hash hash (es i))).
  eapply proto_bind.
  { eapply proto_ext; [|apply (sync_on_job_sizes_spec ids sid n)]; [intros s i _; by rewrite (proj1 (Hes i))|]. intros i. apply Hes. }
  intros out ->. eapply proto_bind.
  { apply (proto_liftr ids sid _ (tof (fun i => (e_id <$> es i, job_entry <$> es i))) (fun out => out = tof (fun i => (e_id <$> es i, job_entry <$> es i)))); [|done].
    intros i. rewrite !tget_tof. apply Hes. }
  intros out ->. apply (proto_ext ids sid _ (fun i => agreed ← sync_on_id_hash (hs @ i); mret (e_id <$> es i, job_entry <$> es i, agreed))).
  { intros s i _. unfold hs. by rewrite !tget_tof. }
  eapply proto_bind; [apply (sync_on_id_hash_spec ids sid hs); intros i; unfold hs; rewrite tget_tof; apply Hh|].
  intros out ->. apply (proto_ext ids sid _ (fun i => mret ((tof (fun i => (e_id <$> es i, job_entry <$> es i, all_equal hs))) @ i))).
  { intros s i _. by rewrite !tget_tof. }
  apply proto_ret. exists m, (all_equal hs). split; [done|]. split; [intros i; rewrite tget_tof; split; [done|apply Hes]|].
  assert (all_equal hs = true <-> forall i j, job_hash hash (es i) = job_hash hash (es j)) as Hiff by by apply all_equal_tof.
  split; [exact Hiff|]. intros Hperm. apply Hiff. intros i j. apply job_hash_perm, Hperm.
Qed.

(** *** Witness *)

#[local] Instance bincode_Z : Bincode Z :=
  {| bincode_serialize x := [x]; bincode_deserialize l := match l with [x] => Some x | _ => None end |}.
#[local] Instance bincode_Z_ok : BincodeOk Z.
Proof. done. Qed.

(** Logs with three, two and two entries; the second party's are inserted in
    another order. *)
Definition demo_entry (i m b : Z) : entry unit Z := mkEntry i m b demo_origin Uniqueness tt.
Definition demo_logs : tri (log unit Z) :=
  Tri (mkLog [demo_entry 1 7 70; demo_entry 2 9 90; demo_entry 4 11 110] 5)
      (mkLog [demo_entry 3 9 91; demo_entry 5 7 71] 6) (mkLog [demo_entry 1 7 72; demo_entry 2 9 92] 3).
Definition demo_tables : tri (table unit) := (fun l => mkTable (to_row <$> entries l) (fresh_id l)) <$> demo_logs.

Lemma demo_refines i : refines (demo_tables @ i) (demo_logs @ i).
Proof.
  destruct i; split; cbn [demo_tables demo_logs fmap tri_fmap tget at0 at1 at2 rows nextval entries fresh_id list_fmap e_id demo_entry];
    first [by rewrite !filter_cons_True by done | repeat constructor].
Qed.

(** A hash that tells short lists of small numbers apart. *)
Definition demo_hash (k : list Z) : Z := foldl (fun h x => h * 1000 + x) 1 k mod 2 ^ 64.

(** The third party took other rows. *)
Definition demo_other_logs : tri (log unit Z) :=
  Tri (at0 demo_logs) (at1 demo_logs) (mkLog [demo_entry 1 7 72; demo_entry 2 8 92] 3).
Definition demo_other_tables : tri (table unit) := (fun l => mkTable (to_row <$> entries l) (fresh_id l)) <$> demo_other_logs.

Lemma demo_other_refines i : refines (demo_other_tables @ i) (demo_other_logs @ i).
Proof.
  destruct i; split; cbn [demo_other_tables demo_other_logs demo_logs fmap tri_fmap tget at0 at1 at2 rows nextval entries fresh_id list_fmap e_id demo_entry];
    first [by rewrite !filter_cons_True by done | repeat constructor].
Qed.

(** The verdict is positive for the same match ids, and negative for others. *)
Lemma job_agreement_witness :
  proto (R := counter_rng) demo_ids 0 (fun i => fetch_job (T := Z) demo_hash (demo_tables @ i) (demo_tables @ i) demo_origin None None)
    (fun out => (out @ ID0).2 = true /\ (out @ ID1).1.2 = [(9, 91); (7, 71)]) /\
  proto (R := counter_rng) demo_ids 0 (fun i => fetch_job (T := Z) demo_hash (demo_other_tables @ i) (demo_other_tables @ i) demo_origin None None)
    (fun out => (out @ ID0).2 = false /\ (out @ ID2).1.2 = [(7, 72); (8, 92)]).
Proof.
  split.
  - eapply proto_mono; [|apply (job_agreement counter_rng demo_ids 0 demo_hash demo_tables demo_tables demo_logs demo_logs demo_origin None None)].
    + intros out (m & agreed & -> & Hout & _ & Hag). split.
      * rewrite (proj1 (Hout ID0)). apply Hag. intros [] []; vm_compute; by repeat constructor.
      * rewrite (proj1 (Hout ID1)). reflexivity.
    + apply demo_refines.
    + apply demo_refines.
    + by intros i.
    + intros []; reflexivity.
    + intros k. apply Z.mod_pos_bound. lia.
  - eapply proto_mono; [|apply (job_agreement counter_rng demo_ids 0 demo_hash demo_other_tables demo_other_tables demo_other_logs demo_other_logs demo_origin None None)].
    + intros out (m & agreed & -> & Hout & Hag & _). split.
      * rewrite (proj1 (Hout ID0)). destruct agreed; [|done]. exfalso. pose proof (proj1 Hag eq_refl ID0 ID2) as E. vm_compute in E. discriminate E.
      * rewrite (proj1 (Hout ID2)). reflexivity.
    + apply demo_other_refines.
    + apply demo_other_refines.
    + by intros i.
    + intros []; reflexivity.
    + intros k. apply Z.mod_pos_bound. lia.
Defined.
