(* ===== verification/ModStore.v ===== *)
(** * Persistence of modifications: [modifications/postgres.rs] and the JSON forms
    of [modifications.rs] in [ampc-server-utils]

    A row of the table keeps, besides what the parties compare, the input of the
    operation: a reference to it, or the bytes themselves, which never leave the
    party.  The statements of recovery are stated in [Modifications] on what the
    parties compare; here they are statements on the rows, and the theorems say
    that the two commute and that the stored input survives them. *)

From S2P Require Import Prelude F64 Buckets AnonStore Modifications.
From stdpp Require Import base list numbers strings option sets sorting.
From Stdlib Require Import ZArith Lia Sorted.
Local Open Scope Z_scope.

(** ** JSON *)

(** [serde_json::Value]; the text form of a number that is no integer is kept. *)
Inductive json :=
| JNull
| JBool (b : bool)
| JInteger (n : Z)
| JFloat (text : string)
| JString (s : string)
| JArray (l : list json)
| JObject (fields : list (string * json)).

(** [Map::insert] on a key that is present replaces its value. *)
Definition json_insert (key : string) (v : json) (fields : list (string * json)) : list (string * json) :=
  (fun f => if bool_decide (f.1 = key) then (key, v) else f) <$> fields.

(* modifications.rs:43-53 ModificationInputReference::serialize *)
Definition reference_to_json (r : ModificationInputReference) : json :=
  match r with RefS3 reference => JString reference | RefInline reference => JObject [("inline", JString reference)] end.

(** [untagged, deny_unknown_fields]: a string, or an object with this field only. *)
(* modifications.rs:57-68 ModificationInputReference::deserialize *)
Definition reference_from_json (j : json) : result ModificationInputReference :=
  match j with
  | JString reference => Ok (RefS3 reference)
  | JObject [(key, JString inline)] =>
      if bool_decide (key = "inline") then Ok (RefInline inline) else bail "data did not match any variant of untagged enum Reference"
  | _ => bail "data did not match any variant of untagged enum Reference"
  end.

Section NodeId.
(** [serde_json::from_str] and [serde_json::to_string]. *)
Context (from_str : string -> option json) (to_string : json -> string).

(* modifications.rs:149-178 Modification::update_result_message_node_id *)
Definition update_result_message_node_id (self : Modification) (party_id : Z) : result Modification :=
  match result_message_body self with
  | None => bail "Result message body is None"
  | Some message =>
      match from_str message with
      | None => bail "Invalid JSON message"
      | Some (JObject obj) =>
          if bool_decide ("node_id" ∈ obj.*1) then
            Ok (mkMod (mod_id self) (serial_id self) (request_type self) (input self) (status self) (persisted self)
                  (Some (to_string (JObject (json_insert "node_id" (JInteger party_id) obj)))))
          else bail "Message body does not contain node_id"
      | Some _ => bail "Result message body must be a JSON object"
      end
  end.
End NodeId.

(** ** The table *)

(* modifications.rs:72-75 ModificationInput *)
Inductive ModificationInput := InputS3 (reference : string) | InputInline (reference : string) (bytes : list Z).

(* modifications.rs:78-81 ModificationInputStorage *)
Inductive ModificationInputStorage := StorageS3 | StorageInline.

(** All columns. *)
Record mod_row := mkModRow {
  mr_id : Z;
  mr_serial_id : option Z;
  mr_request_type : string;
  mr_s3_url : option string;
  mr_input_reference : option string;
  mr_request : option (list Z);
  mr_status : string;
  mr_persisted : bool;
  mr_result_message_body : option string;
}.

Record mod_table := mkModTable { mod_rows : list mod_row; mod_nextval : Z }.

(** The columns that are selected. *)
(* modifications/postgres.rs:11-19 StoredModification *)
Record StoredModification := mkStored {
  sm_id : Z;
  sm_serial_id : option Z;
  sm_request_type : string;
  sm_input_reference : option string;
  sm_status : string;
  sm_persisted : bool;
  sm_result_message_body : option string;
}.

(* modifications/postgres.rs:22-35 StoredModification::into_modification *)
Definition into_modification (self : StoredModification) (storage : ModificationInputStorage) : Modification :=
  mkMod (sm_id self) (sm_serial_id self) (sm_request_type self)
    ((match storage with StorageS3 => RefS3 | StorageInline => RefInline end) <$> sm_input_reference self)
    (sm_status self) (sm_persisted self) (sm_result_message_body self).

(** [s3_url AS input_reference], or [input_reference]. *)
Definition select_columns (storage : ModificationInputStorage) (r : mod_row) : StoredModification :=
  mkStored (mr_id r) (mr_serial_id r) (mr_request_type r)
    (match storage with StorageS3 => mr_s3_url r | StorageInline => mr_input_reference r end)
    (mr_status r) (mr_persisted r) (mr_result_message_body r).

Definition insert_row_returning (t : mod_table) (r : Z -> mod_row) (storage : ModificationInputStorage) : mod_table * result Modification :=
  let r := r (mod_nextval t) in
  (mkModTable (mod_rows t ++ [r]) (mod_nextval t + 1), Ok (into_modification (select_columns storage r) storage)).

(* modifications/postgres.rs:38-103 insert_modification *)
Definition insert_modification (t : mod_table) (serial_id : option Z) (request_type : string) (input : option ModificationInput)
    (storage : ModificationInputStorage) : mod_table * result Modification :=
  match storage, input with
  | StorageInline, Some (InputInline reference bytes) =>
      insert_row_returning t (fun id => mkModRow id serial_id request_type None (Some reference) (Some bytes) MOD_STATUS_IN_PROGRESS false None) storage
  | StorageS3, Some (InputS3 reference) =>
      insert_row_returning t (fun id => mkModRow id serial_id request_type (Some reference) None None MOD_STATUS_IN_PROGRESS false None) storage
  | StorageS3, None =>
      insert_row_returning t (fun id => mkModRow id serial_id request_type None None None MOD_STATUS_IN_PROGRESS false None) storage
  | StorageInline, None => (t, bail "Inline modification storage requires an input")
  | _, _ => (t, bail "Modification input source does not match storage")
  end.

(** [ORDER BY id DESC]. *)
Definition id_ge : relation mod_row := fun r r' => mr_id r' <= mr_id r.
#[export] Instance id_ge_dec : RelDecision id_ge := fun r r' => decide (mr_id r' <= mr_id r).

(* modifications/postgres.rs:105-145 last_modifications *)
Definition last_modifications (t : mod_table) (count : Z) (storage : ModificationInputStorage) : result (list Modification) :=
  let limit := limit_i64 count in
  if limit <? 0 then bail "LIMIT must not be negative"
  else Ok ((fun r => into_modification (select_columns storage r) storage)
             <$> take (Z.to_nat (Z.min limit (Z.of_nat (length (mod_rows t))))) (merge_sort id_ge (mod_rows t))).

(* modifications/postgres.rs:147-183 load_modification_input *)
Definition load_modification_input (t : mod_table) (m : Modification) (storage : ModificationInputStorage) : result ModificationInput :=
  match storage, input m with
  | StorageS3, Some (RefS3 reference) => Ok (InputS3 reference)
  | StorageInline, Some (RefInline reference) =>
      match List.find (fun r => (mr_id r =? mod_id m) && bool_decide (mr_input_reference r = Some reference)) (mod_rows t) with
      | None => bail "Loading local input for modification"
      | Some r =>
          bytes ← ok_or (mr_request r) "Missing local input for modification";
          Ok (InputInline reference bytes)
      end
  | _, None => bail "Missing input reference for modification"
  | _, _ => bail "Modification input source does not match storage"
  end.

(** The statements of recovery, on all columns. *)
Definition update_row (ms : list Modification) (r : mod_row) : mod_row :=
  match List.find (fun data => mod_id data =? mr_id r) ms with
  | Some data => mkModRow (mr_id r) (serial_id data) (mr_request_type r) (mr_s3_url r) (mr_input_reference r) (mr_request r)
                   (status data) (persisted data) (result_message_body data)
  | None => r
  end.
Definition update_rows (t : mod_table) (ms : list Modification) : mod_table := mkModTable (update_row ms <$> mod_rows t) (mod_nextval t).
Definition delete_rows (t : mod_table) (ms : list Modification) : mod_table :=
  mkModTable (filter (fun r => mr_id r ∉ (mod_id <$> ms)) (mod_rows t)) (mod_nextval t).

(* modifications/postgres.rs:271-276 clear_modifications_table *)
Definition clear_modifications_table (t : mod_table) : mod_table := mkModTable [] (mod_nextval t).

(** ** Lemmas *)

Lemma reference_json_roundtrip r : reference_from_json (reference_to_json r) = Ok r.
Proof. by destruct r. Qed.

(** Changing the node id of a message leaves what the parties compare alone. *)
Lemma update_node_id_eq from_str to_string m party_id m' :
  update_result_message_node_id from_str to_string m party_id = Ok m' -> mod_eqb m m' = true.
Proof.
  unfold update_result_message_node_id. destruct (result_message_body m); [|done]. destruct (from_str _) as [[]|]; try done.
  case_bool_decide; [|done]. intros [= <-]. unfold mod_eqb. cbn. by rewrite !bool_decide_eq_true_2.
Qed.

(** What a party compares of its table. *)
Definition view (storage : ModificationInputStorage) (t : mod_table) : list Modification :=
  (fun r => into_modification (select_columns storage r) storage) <$> mod_rows t.

(** The rows have distinct ids, below the next one. *)
Record table_ok (t : mod_table) : Prop := {
  table_ids : NoDup (mr_id <$> mod_rows t);
  table_next : Forall (fun r => mr_id r < mod_nextval t) (mod_rows t);
}.

(** One round of recovery on the table. *)
Definition recover_table (t : mod_table) (plan : list Modification * list Modification) : mod_table :=
  delete_rows (update_rows t plan.1) plan.2.

Lemma update_row_id ms r : mr_id (update_row ms r) = mr_id r.
Proof. unfold update_row. by destruct (List.find _ ms). Qed.

Lemma insert_ok t r st : table_ok t -> mr_id (r (mod_nextval t)) = mod_nextval t -> table_ok (insert_row_returning t r st).1.
Proof.
  intros [Hn Hb] Hr. split; cbn.
  - rewrite fmap_app. apply NoDup_app. split; [done|]. split; [|apply NoDup_singleton].
    intros x Hx Hx'. cbn in Hx'. apply list_elem_of_singleton in Hx'. apply list_elem_of_fmap in Hx as (r' & -> & Hr').
    rewrite Forall_forall in Hb. apply Hb in Hr'. lia.
  - apply Forall_app. split; [eapply Forall_impl; [exact Hb|]; cbn; lia|]. repeat constructor. lia.
Qed.

Lemma insert_modification_ok t serial ty i st : table_ok t -> table_ok (insert_modification t serial ty i st).1.
Proof. intros H. unfold insert_modification. destruct st, i as [[|]|]; try done; by apply insert_ok. Qed.

Lemma recover_ok t plan : table_ok t -> table_ok (recover_table t plan).
Proof.
  intros [Hn Hb]. split; cbn.
  - eapply sublist_NoDup; [|apply fmap_sublist, sublist_filter]. rewrite <- list_fmap_compose.
    erewrite list_fmap_ext; [exact Hn|]. intros ? r _. apply update_row_id.
  - apply Forall_filter_l, Forall_fmap. eapply Forall_impl; [exact Hb|]. intros r Hr. cbn. by rewrite update_row_id.
Qed.

Lemma find_row (f : mod_row -> bool) (rs : list mod_row) r :
  NoDup (mr_id <$> rs) -> r ∈ rs -> f r = true -> (forall r', f r' = true -> mr_id r' = mr_id r) -> List.find f rs = Some r.
Proof.
  intros Hn Hr Hf Hid. induction rs as [|r0 rs IH]; [by apply not_elem_of_nil in Hr|]. rewrite fmap_cons in Hn. apply NoDup_cons in Hn as [Hn0 Hn].
  cbn. destruct (f r0) eqn:E.
  - apply elem_of_cons in Hr as [->|Hr]; [done|]. destruct Hn0. rewrite (Hid _ E). by apply list_elem_of_fmap_2.
  - apply elem_of_cons in Hr as [->|Hr]; [congruence|]. by apply IH.
Qed.

(** The row of an operation and its input. *)
Definition row_input (st : ModificationInputStorage) (i : ModificationInput) (r : mod_row) : Prop :=
  match st, i with
  | StorageInline, InputInline reference bytes => mr_input_reference r = Some reference /\ mr_request r = Some bytes
  | StorageS3, InputS3 reference => mr_s3_url r = Some reference
  | _, _ => False
  end.
Definition holds_input (t : mod_table) (k : Z) (st : ModificationInputStorage) (i : ModificationInput) : Prop :=
  exists r, r ∈ mod_rows t /\ mr_id r = k /\ row_input st i r.

Lemma recover_holds t plan k st i :
  k ∉ (mod_id <$> plan.2) -> holds_input t k st i -> holds_input (recover_table t plan) k st i.
Proof.
  intros Hk (r & Hr & Hid & Hi). exists (update_row plan.1 r). cbn. split; [|split; [by rewrite update_row_id|]].
  - apply list_elem_of_filter. rewrite update_row_id, Hid. split; [done|]. by apply list_elem_of_fmap_2.
  - unfold row_input, update_row in *. destruct (List.find _ _), st, i; done.
Qed.

Lemma recover_rounds_hold t plans k st i :
  table_ok t -> holds_input t k st i -> (forall plan, plan ∈ plans -> k ∉ (mod_id <$> plan.2)) ->
  table_ok (foldl recover_table t plans) /\ holds_input (foldl recover_table t plans) k st i.
Proof.
  revert t. induction plans as [|plan plans IH]; intros t Ht Hh Hp; [done|]. cbn. apply IH.
  - by apply recover_ok.
  - apply recover_holds; [|done]. apply Hp. by left.
  - intros q Hq. apply Hp. by right.
Qed.

Lemma insert_holds t serial ty i st t' m :
  insert_modification t serial ty (Some i) st = (t', Ok m) -> holds_input t' (mod_id m) st i.
Proof.
  unfold insert_modification, insert_row_returning. destruct st, i; intros [= <- <-]; eexists; cbn; (split; [apply elem_of_app; right; apply list_elem_of_singleton; done|done]).
Qed.

Lemma load_held t m st i :
  table_ok t -> holds_input t (mod_id m) st i -> m ∈ view st t -> load_modification_input t m st = Ok i.
Proof.
  intros [Hn _] (r & Hr & Hid & Hi) (r' & -> & Hr')%list_elem_of_fmap. cbn in Hid.
  assert (r' = r) as ->.
  { apply (inj Some). rewrite <- (find_row (fun x => mr_id x =? mr_id r) (mod_rows t) r), <- (find_row (fun x => mr_id x =? mr_id r) (mod_rows t) r');
      try done; rewrite <- ?Hid, ?Z.eqb_refl; try done; intros x Hx; apply Z.eqb_eq in Hx; lia. }
  unfold load_modification_input, row_input in *. destruct st, i as [reference|reference bytes]; cbn; try done; [by rewrite Hi|].
  destruct Hi as [Href Hreq]. rewrite Href. cbn. rewrite (find_row _ _ r); [by rewrite Hreq|done|done| |].
  - rewrite Z.eqb_refl, Href. by rewrite bool_decide_eq_true_2.
  - intros x [Hx _]%andb_true_iff. by apply Z.eqb_eq in Hx.
Qed.

Lemma view_update storage t ms : view storage (update_rows t ms) = update_modifications (view storage t) ms.
Proof.
  unfold view, update_rows, update_modifications. cbn [mod_rows]. rewrite <- !list_fmap_compose. apply list_fmap_ext. intros ? r _.
  unfold compose, update_row. cbn [mod_id into_modification select_columns sm_id]. by destruct (List.find _ ms), storage.
Qed.

Lemma view_delete storage t ms : view storage (delete_rows t ms) = delete_modifications (view storage t) ms.
Proof. unfold view, delete_rows, delete_modifications. cbn [mod_rows]. symmetry. by apply filter_fmap_eq. Qed.

(** ** Theorems *)

(** Recovery of the table is recovery of what the parties compare: the plans of
    [Modifications] are carried out on the rows as they are there. *)
Theorem view_recover storage t plan : view storage (recover_table t plan) = apply_plan (view storage t) plan.
Proof. unfold recover_table, apply_plan. by rewrite view_delete, view_update. Qed.

(** C19: the input of an operation is never lost to recovery.  Insert an operation with
    its input; then, however often the party recovers, as long as no plan drops
    the operation, loading the input of what the table says of the operation
    returns it, from the reference or from the bytes that only this party
    has. *)
Theorem input_survives_recovery t serial ty i storage t' m plans m' :
  table_ok t -> insert_modification t serial ty (Some i) storage = (t', Ok m) ->
  (forall plan, plan ∈ plans -> mod_id m ∉ (mod_id <$> plan.2)) ->
  m' ∈ view storage (foldl recover_table t' plans) -> mod_id m' = mod_id m ->
  load_modification_input (foldl recover_table t' plans) m' storage = Ok i.
Proof.
  intros Ht Hi Hp Hm Hid. pose proof (insert_modification_ok t serial ty (Some i) storage Ht) as Ht'. rewrite Hi in Ht'.
  apply insert_holds in Hi. destruct (recover_rounds_hold t' plans _ _ _ Ht' Hi Hp) as [Hok Hh].
  apply load_held; [done|by rewrite Hid|done].
Qed.

(** *** Witness *)

Definition demo_mod_table : mod_table :=
  mkModTable [mkModRow 3 (Some 8) "reauth" (Some "old") None None MOD_STATUS_COMPLETED true None] 5.
Definition demo_input : ModificationInput := InputInline "request-5" [1; 2; 3].
Definition demo_inserted : mod_table := (insert_modification demo_mod_table None "uniqueness" (Some demo_input) StorageInline).1.
Definition demo_modification : Modification :=
  mkMod 5 None "uniqueness" (Some (RefInline "request-5")) MOD_STATUS_IN_PROGRESS false None.
Definition demo_completed : Modification := mark_completed demo_modification true "{}" (Some 9).
Definition demo_plans : list (list Modification * list Modification) :=
  [([demo_completed], [mkMod 3 (Some 8) "reauth" None MOD_STATUS_COMPLETED true None])].

Lemma input_survives_recovery_witness :
  load_modification_input (foldl recover_table demo_inserted demo_plans) demo_completed StorageInline = Ok demo_input.
Proof.
  apply (input_survives_recovery demo_mod_table None "uniqueness" demo_input StorageInline demo_inserted demo_modification demo_plans).
  - split; repeat constructor; by try apply not_elem_of_nil.
  - reflexivity.
  - intros plan Hp. apply list_elem_of_singleton in Hp as ->. cbn. by rewrite list_elem_of_singleton.
  - apply list_elem_of_singleton. reflexivity.
  - reflexivity.
Defined.
