(* ===== verification/Heartbeat.v ===== *)
(** * Heartbeat: [init_heartbeat_task] of [ampc-server-utils/src/server_coordination.rs]
    and [shutdown_handler.rs]

    A task polls the health endpoint of the two peers in turn.  The task is a
    state machine whose input is what each request came back with; it goes on,
    returns because a shutdown has been triggered, or panics.  The reference is a
    predicate on the history of one peer that says when the peer counts as
    healthy; the theorems say that the task goes on exactly while both peers are
    healthy by that predicate, and that it never panics once it is initialised. *)

From S2P Require Import Prelude.
From stdpp Require Import base list numbers strings option gmap sets.
From Stdlib Require Import ZArith Lia.
Local Open Scope Z_scope.

(** ** Shutdown handler *)

(** The two cancellation tokens and the counter of pending batches; a [usize]
    counter wraps around. *)
(* shutdown_handler.rs:13-18 ShutdownHandler *)
Record ShutdownHandler := mkHandler {
  ct_cancelled : bool;
  network_ct_cancelled : bool;
  n_batches_pending_completion : Z;
}.

(* shutdown_handler.rs:29-36 ShutdownHandler::new *)
Definition handler_new : ShutdownHandler := mkHandler false false 0.

(* shutdown_handler.rs:38-40 ShutdownHandler::is_shutting_down *)
Definition is_shutting_down (self : ShutdownHandler) : bool := ct_cancelled self.

(* shutdown_handler.rs:42-44 ShutdownHandler::trigger_manual_shutdown *)
Definition trigger_manual_shutdown (self : ShutdownHandler) : ShutdownHandler :=
  mkHandler true (network_ct_cancelled self) (n_batches_pending_completion self).

(* shutdown_handler.rs:63-67 ShutdownHandler::increment_batches_pending_completion *)
Definition increment_batches_pending_completion (self : ShutdownHandler) : ShutdownHandler :=
  mkHandler (ct_cancelled self) (network_ct_cancelled self) ((n_batches_pending_completion self + 1) mod 2 ^ 64).

(* shutdown_handler.rs:69-73 ShutdownHandler::decrement_batches_pending_completion *)
Definition decrement_batches_pending_completion (self : ShutdownHandler) : ShutdownHandler :=
  mkHandler (ct_cancelled self) (network_ct_cancelled self) ((n_batches_pending_completion self - 1) mod 2 ^ 64).

(** What the other tasks do to the handler between two looks of the waiting
    loop, and whether the timeout has elapsed by then. *)
Record look := mkLook { updates_between : ShutdownHandler -> ShutdownHandler; timed_out : bool }.

(** [None]: the looks do not suffice to decide. *)
(* shutdown_handler.rs:75-94 ShutdownHandler::wait_for_pending_batches_completion *)
Fixpoint wait_for_pending_batches_completion (self : ShutdownHandler) (looks : list look) : option (ShutdownHandler * result unit) :=
  if 0 <? n_batches_pending_completion self then
    match looks with
    | [] => None
    | l :: looks =>
        if timed_out l then Some (self, bail "timeout waiting for shutdown with batches still pending")
        else wait_for_pending_batches_completion (updates_between l self) looks
    end
  else Some (if is_shutting_down self then mkHandler (ct_cancelled self) true (n_batches_pending_completion self) else self, Ok tt).

(** ** The heartbeat task *)

(* server_coordination.rs:28-34 ReadyProbeResponse *)
Record ReadyProbeResponse := mkProbe {
  image_name : string;
  uuid : string;
  shutting_down : bool;
  verified_peers : gset string;
  is_ready : bool;
}.

(** How a request ends: with a parsed response, or in one of the failures the
    task treats alike (no connection, timeout, status, body). *)
Abbreviation probe := (option ReadyProbeResponse).

(** What the task knows of a peer. *)
Record peer := mkPeer {
  last_response : string;
  connected : bool;
  retries : Z;
  consecutive_failures : Z;
}.

Definition peer_new : peer := mkPeer "" false 0 0.

(** The two peers, the sender that signals the end of initialisation, and the
    shutdown handler. *)
Record heartbeat := mkHeartbeat { peers : peer * peer; heartbeat_tx : bool; handler : ShutdownHandler }.

Definition heartbeat_new (h : ShutdownHandler) : heartbeat := mkHeartbeat (peer_new, peer_new) true h.

(** The task goes on, returns, or panics. *)
Inductive outcome := Running (s : heartbeat) | Returned (s : heartbeat) | Panicked (msg : string).

Section Heartbeat.
Context (heartbeat_initial_retries : Z) (verified : gset string).

Definition MAX_CONSECUTIVE_FAILURES : Z := 3.

(** A peer's state after a request; [true] when a shutdown is to be triggered. *)
Inductive peer_outcome := PeerOk (p : peer) (shutdown : bool) | PeerPanic (msg : string).

(* server_coordination.rs:586-641 init_heartbeat_task (failed request) *)
Definition on_failure (p : peer) : peer_outcome :=
  if bool_decide (last_response p = "") && (retries p <? heartbeat_initial_retries)
  then PeerOk (mkPeer (last_response p) (connected p) (retries p + 1) (consecutive_failures p)) false
  else if bool_decide (last_response p = "")
  then PeerPanic "Node did not respond with success during heartbeat init phase, killing server..."
  else
    let failures := consecutive_failures p + 1 in
    PeerOk (mkPeer (last_response p) (connected p) (retries p) failures) (MAX_CONSECUTIVE_FAILURES <=? failures).

(* server_coordination.rs:643-708 init_heartbeat_task (response) *)
Definition on_response (p : peer) (r : ReadyProbeResponse) : peer_outcome :=
  let p := mkPeer (last_response p) (connected p) (retries p) 0 in
  if bool_decide (last_response p = "") then
    if negb (bool_decide (uuid r ∈ verified))
    then PeerPanic "Node reported UUID not seen during startup handshake, killing server..."
    else PeerOk (mkPeer (uuid r) true (retries p) 0) false
  else if negb (bool_decide (uuid r = last_response p)) then PeerOk p true
  else if shutting_down r then PeerOk p true
  else PeerOk p false.

Definition on_probe (p : peer) (x : probe) : peer_outcome :=
  match x with Some r => on_response p r | None => on_failure p end.

Definition get_peer (s : heartbeat) (i : bool) : peer := if i then (peers s).2 else (peers s).1.
Definition set_peer (s : heartbeat) (i : bool) (p : peer) : peer * peer := if i then ((peers s).1, p) else (p, (peers s).2).

(** One request of the [for] loop, to the peer [i]; [stop] is a shutdown that is
    triggered elsewhere while the request is under way.  The receiver of the
    signal is dropped only on a shutdown, which is checked for just before. *)
(* server_coordination.rs:559-709 init_heartbeat_task (one request) *)
Definition beat (s : heartbeat) (i : bool) (x : probe) (stop : bool) : outcome :=
  if is_shutting_down (handler s) then Returned s else
  let s := if stop then mkHeartbeat (peers s) (heartbeat_tx s) (trigger_manual_shutdown (handler s)) else s in
  if is_shutting_down (handler s) then Returned s else
  match on_probe (get_peer s i) x with
  | PeerPanic msg => Panicked msg
  | PeerOk p shutdown =>
      let ps := set_peer s i p in
      let tx := heartbeat_tx s && negb (connected ps.1 && connected ps.2) in
      let h := if shutdown && negb (is_shutting_down (handler s)) then trigger_manual_shutdown (handler s) else handler s in
      Running (mkHeartbeat ps tx h)
  end.

(** A round asks both peers. *)
Record round := mkRound { first_probe : probe; first_stop : bool; second_probe : probe; second_stop : bool }.

(* server_coordination.rs:558-712 init_heartbeat_task (loop) *)
Fixpoint heartbeat_loop (s : heartbeat) (rounds : list round) : outcome :=
  match rounds with
  | [] => Running s
  | r :: rounds =>
      match beat s false (first_probe r) (first_stop r) with
      | Running s =>
          match beat s true (second_probe r) (second_stop r) with
          | Running s => heartbeat_loop s rounds
          | o => o
          end
      | o => o
      end
  end.

(** ** The reference: a healthy peer *)

(** The peer answers with the uuid it first reported and is not going down. *)
Definition agrees (first : string) (x : probe) : bool :=
  match x with Some r => bool_decide (uuid r = first) && negb (shutting_down r) | None => true end.

(** At no time have three requests in a row failed. *)
Fixpoint no_three_failures (xs : list probe) : bool :=
  match xs with
  | None :: None :: None :: _ => false
  | _ :: xs => no_three_failures xs
  | [] => true
  end.

Fixpoint healthy_from (retries : Z) (xs : list probe) : bool :=
  match xs with
  | [] => true
  | None :: xs => (0 <? retries) && healthy_from (retries - 1) xs
  | Some r :: xs => bool_decide (uuid r ∈ verified) && forallb (agrees (uuid r)) xs && no_three_failures xs
  end.

(** [healthy xs]: at most the allowed number of failures, then a first response
    with a verified uuid, then only responses with that uuid, from a peer that is
    not shutting down, and never three failures in a row. *)
Definition healthy (xs : list probe) : bool := healthy_from heartbeat_initial_retries xs.

(** ** Lemmas: one peer *)

(** The peer after the requests [xs], when none of them ends the task. *)
Fixpoint peer_run (p : peer) (xs : list probe) : option peer :=
  match xs with
  | [] => Some p
  | x :: xs => match on_probe p x with PeerOk p false => peer_run p xs | _ => None end
  end.

(** [no_three_failures] with the number of failures seen so far. *)
Fixpoint failures_below (f : Z) (xs : list probe) : bool :=
  match xs with
  | [] => true
  | None :: xs => (f + 1 <? 3) && failures_below (f + 1) xs
  | Some _ :: xs => failures_below 0 xs
  end.

Lemma failures_below_spec xs f :
  (f < 3)%nat -> failures_below (Z.of_nat f) xs = no_three_failures (replicate f None ++ xs).
Proof.
  revert f; induction xs as [|[r|] xs IH]; intros f Hf; simpl.
  - destruct f as [|[|[|]]]; first [reflexivity | lia].
  - change 0 with (Z.of_nat 0). rewrite (IH 0%nat) by lia. destruct f as [|[|[|]]]; first [reflexivity | lia].
  - destruct (decide (f = 2%nat)) as [->|]; [reflexivity|].
    rewrite (proj2 (Z.ltb_lt _ _)) by lia. simpl.
    replace (Z.of_nat f + 1) with (Z.of_nat (S f)) by lia. rewrite (IH (S f)) by lia.
    destruct f as [|[|[|]]]; first [reflexivity | lia].
Qed.

Lemma peer_run_connected u c rt f xs :
  u <> "" -> is_Some (peer_run (mkPeer u c rt f) xs) <-> forallb (agrees u) xs && failures_below f xs = true.
Proof.
  intros Hu; revert f; induction xs as [|[r|] xs IH]; intros f; simpl.
  - split; [done | by eexists].
  - unfold on_response; simpl. rewrite bool_decide_eq_false_2 by done.
    destruct (bool_decide_reflect (uuid r = u)) as [E|E]; simpl.
    + destruct (shutting_down r); simpl; [|apply IH]. split; [intros []; done | done].
    + split; [intros []; done | done].
  - unfold on_failure; simpl. rewrite bool_decide_eq_false_2 by done. simpl.
    unfold MAX_CONSECUTIVE_FAILURES.
    destruct (Z.leb_spec 3 (f + 1)), (Z.ltb_spec (f + 1) 3); try lia; simpl.
    + rewrite andb_false_r. split; [intros []; done | done].
    + apply IH.
Qed.

Lemma peer_run_initial rt f xs :
  "" ∉ verified ->
  is_Some (peer_run (mkPeer "" false rt f) xs) <-> healthy_from (heartbeat_initial_retries - rt) xs = true.
Proof.
  intros Hv; revert rt f; induction xs as [|[r|] xs IH]; intros rt f; simpl.
  - split; [done | by eexists].
  - unfold on_response; simpl.
    destruct (bool_decide_reflect (uuid r ∈ verified)) as [E|E]; simpl.
    + rewrite peer_run_connected by (intros E'; apply Hv; rewrite <- E'; exact E).
      change 0 with (Z.of_nat 0). by rewrite failures_below_spec by lia.
    + split; [intros []; done | done].
  - unfold on_failure; simpl.
    destruct (Z.ltb_spec rt heartbeat_initial_retries), (Z.ltb_spec 0 (heartbeat_initial_retries - rt)); try lia; simpl.
    + rewrite IH. by rewrite Z.sub_add_distr.
    + split; [intros []; done | done].
Qed.

Lemma peer_run_healthy xs :
  "" ∉ verified -> is_Some (peer_run peer_new xs) <-> healthy xs = true.
Proof. intros Hv. unfold peer_new, healthy. rewrite peer_run_initial by done. by rewrite Z.sub_0_r. Qed.

(** ** Lemmas: the task *)

Definition undisturbed (r : round) : Prop := first_stop r = false /\ second_stop r = false.

(** The task runs and no shutdown has been triggered. *)
Definition goes_on (o : outcome) : Prop := exists s, o = Running s /\ is_shutting_down (handler s) = false.

Lemma beat_shutting_down s i x stop : is_shutting_down (handler s) = true -> beat s i x stop = Returned s.
Proof. intros E. unfold beat. by rewrite E. Qed.

Lemma loop_shutting_down s rounds : is_shutting_down (handler s) = true -> ~ goes_on (heartbeat_loop s rounds).
Proof.
  intros E [s' [E' H]]. destruct rounds as [|r rounds]; simpl in E'.
  - simplify_eq. congruence.
  - rewrite beat_shutting_down in E' by done. done.
Qed.

(** One request of a task that no other task stops. *)
Lemma beat_spec s i x :
  is_shutting_down (handler s) = false ->
  beat s i x false =
  match on_probe (get_peer s i) x with
  | PeerPanic msg => Panicked msg
  | PeerOk p shutdown =>
      Running (mkHeartbeat (set_peer s i p) (heartbeat_tx s && negb (connected (set_peer s i p).1 && connected (set_peer s i p).2))
        (if shutdown then trigger_manual_shutdown (handler s) else handler s))
  end.
Proof. intros E. unfold beat. rewrite E. destruct (on_probe _ x) as [p []|]; reflexivity. Qed.

Lemma heartbeat_loop_peers rounds s :
  is_shutting_down (handler s) = false -> Forall undisturbed rounds ->
  goes_on (heartbeat_loop s rounds) <->
  is_Some (peer_run (get_peer s false) (first_probe <$> rounds)) /\ is_Some (peer_run (get_peer s true) (second_probe <$> rounds)).
Proof.
  revert s; induction rounds as [|r rounds IH]; intros s E HF; simpl.
  { split; [by split; eexists | intros _; by exists s]. }
  apply Forall_cons in HF as [[E1 E2] HF]. rewrite E1, E2, beat_spec by done.
  simpl. destruct (on_probe (peers s).1 (first_probe r)) as [p []|] eqn:Ep.
  2: rewrite beat_spec by done; simpl in *; destruct (on_probe (peers s).2 (second_probe r)) as [q []|] eqn:Eq.
  - rewrite beat_shutting_down by done. split; [intros [? [? _]]; done | intros [[? ?] _]; done].
  - split; [intros H; by apply loop_shutting_down in H | intros [_ [? ?]]; done].
  - by apply (IH (mkHeartbeat (p, q) _ (handler s))).
  - split; [intros [? [? _]]; done | intros [_ [? ?]]; done].
  - split; [intros [? [? _]]; done | intros [[? ?] _]; done].
Qed.

(** Initialisation has ended exactly when both peers have responded. *)
Definition heartbeat_inv (s : heartbeat) : Prop :=
  (forall i, connected (get_peer s i) = bool_decide (last_response (get_peer s i) <> "")) /\
  heartbeat_tx s = negb (connected (get_peer s false) && connected (get_peer s true)).

Lemma heartbeat_new_inv h : heartbeat_inv (heartbeat_new h).
Proof. split; [intros [] |]; reflexivity. Qed.

Definition peer_inv (p : peer) : Prop := connected p = bool_decide (last_response p <> "").

Lemma on_probe_inv p x p' b :
  "" ∉ verified -> peer_inv p -> on_probe p x = PeerOk p' b -> peer_inv p' /\ (connected p = true -> connected p' = true).
Proof.
  unfold peer_inv. intros Hv Hp. destruct x as [r|]; simpl; unfold on_response, on_failure; simpl;
    repeat case_match; intros [= <- <-]; simpl; split; auto; try done.
  symmetry. apply bool_decide_eq_true_2. intros E.
  match goal with H : negb (bool_decide _) = false |- _ => apply negb_false_iff, bool_decide_eq_true in H end.
  congruence.
Qed.

Lemma beat_inv s i x stop s' :
  "" ∉ verified -> heartbeat_inv s -> beat s i x stop = Running s' ->
  heartbeat_inv s' /\ (heartbeat_tx s = false -> heartbeat_tx s' = false).
Proof.
  intros Hv [Hc Ht]. unfold beat.
  destruct (is_shutting_down (handler s)); [done|]. destruct stop; [done|].
  destruct (is_shutting_down (handler s)); [done|].
  destruct (on_probe (get_peer s i) x) as [p b|] eqn:E; [|done]. intros [= <-].
  apply on_probe_inv in E as [Hp Hm]; [|done|apply Hc]. split; [split|]; simpl.
  - pose proof (Hc false); pose proof (Hc true). intros []; destruct i; simpl in *; done.
  - rewrite Ht. destruct i; simpl in *; destruct (connected (peers s).1), (connected (peers s).2), (connected p); naive_solver.
  - intros ->. done.
Qed.

(** A task that has been initialised does not panic on a request. *)
Lemma beat_no_panic s i x stop msg :
  heartbeat_inv s -> heartbeat_tx s = false -> beat s i x stop <> Panicked msg.
Proof.
  intros [Hc Ht] E. rewrite E in Ht. symmetry in Ht. apply negb_false_iff, andb_true_iff in Ht as [H1 H2].
  assert (Hl : last_response (get_peer s i) <> "").
  { apply (bool_decide_eq_true (last_response (get_peer s i) <> "")). rewrite <- Hc. by destruct i. }
  unfold beat. destruct (is_shutting_down _); [done|]. destruct stop; [done|].
  destruct (is_shutting_down _); [done|].
  destruct (on_probe (get_peer s i) x) as [|m] eqn:Ep; [done|].
  exfalso. revert Ep. destruct x as [r|]; simpl; unfold on_response, on_failure; simpl;
    rewrite bool_decide_eq_false_2 by done; simpl; repeat case_match; done.
Qed.

Lemma heartbeat_loop_inv rounds s s' :
  "" ∉ verified -> heartbeat_inv s -> heartbeat_loop s rounds = Running s' -> heartbeat_inv s'.
Proof.
  intros Hv; revert s; induction rounds as [|r rounds IH]; simpl; intros s Hi E; [by simplify_eq|].
  destruct (beat s false _ _) as [s1| |] eqn:E1; [|done..]. apply beat_inv in E1 as [Hi1 _]; [|done..].
  destruct (beat s1 true _ _) as [s2| |] eqn:E2; [|done..]. apply beat_inv in E2 as [Hi2 _]; [|done..].
  by eapply IH.
Qed.

Lemma heartbeat_loop_no_panic rounds s msg :
  "" ∉ verified -> heartbeat_inv s -> heartbeat_tx s = false -> heartbeat_loop s rounds <> Panicked msg.
Proof.
  intros Hv; revert s; induction rounds as [|r rounds IH]; simpl; intros s Hi Ht; [done|].
  destruct (beat s false _ _) as [s1| |m] eqn:E1; [|done|].
  2: { by apply beat_no_panic in E1. }
  apply beat_inv in E1 as [Hi1 Ht1]; [|done..].
  destruct (beat s1 true _ _) as [s2| |m] eqn:E2; [|done|].
  2: { apply beat_no_panic in E2; auto. }
  apply beat_inv in E2 as [Hi2 Ht2]; [|done..]. auto.
Qed.
End Heartbeat.

(** ** Claims *)

(** C21: the heartbeat task implements the specification of a healthy peer.  From
    its start, as long as no other task triggers a shutdown, the task runs on
    with no shutdown triggered if and only if the history of each of the two
    peers is healthy: at most [heartbeat_initial_retries] failed requests, then a
    response with a uuid of the startup handshake, then only responses with that
    same uuid from a peer that is not shutting down, never three failures in a
    row.  On any other history it has triggered the shutdown, returned or
    panicked. *)
Theorem heartbeat_refines_healthy (retries : Z) (verified : gset string) (h : ShutdownHandler) (rounds : list round)
  (Hv : "" ∉ verified) (Hh : is_shutting_down h = false) (Hr : Forall undisturbed rounds) :
  goes_on (heartbeat_loop retries verified (heartbeat_new h) rounds) <->
  healthy retries verified (first_probe <$> rounds) = true /\ healthy retries verified (second_probe <$> rounds) = true.
Proof. rewrite heartbeat_loop_peers by done. by rewrite !peer_run_healthy by done. Qed.

(** the task never panics once it has signalled the end of its
    initialisation, which it does exactly when both peers have responded,
    whatever the peers do from then on and whichever task triggers a shutdown:
    a failing, restarted or departing peer leads to a graceful shutdown. *)
Theorem heartbeat_initialised_no_panic (retries : Z) (verified : gset string) (h : ShutdownHandler) (before after : list round)
  (s : heartbeat) (Hv : "" ∉ verified)
  (Hs : heartbeat_loop retries verified (heartbeat_new h) before = Running s) :
  (heartbeat_tx s = false <-> connected (get_peer s false) = true /\ connected (get_peer s true) = true) /\
  (heartbeat_tx s = false -> forall msg, heartbeat_loop retries verified s after <> Panicked msg).
Proof.
  pose proof (heartbeat_loop_inv _ _ _ _ _ Hv (heartbeat_new_inv h) Hs) as Hi. split.
  - destruct Hi as [_ ->]. by rewrite negb_false_iff, andb_true_iff.
  - intros Ht msg. by apply heartbeat_loop_no_panic.
Qed.

(** ** Witnesses *)

Definition demo_up (u : string) : probe := Some (mkProbe "image" u false ∅ true).
Definition demo_rounds : list round :=
  [mkRound None false (demo_up "b") false; mkRound (demo_up "a") false None false;
   mkRound None false (demo_up "b") false; mkRound None false None false].

Lemma demo_peers : "" ∉ ({["a"; "b"]} : gset string).
Proof. set_solver. Qed.

Lemma heartbeat_refines_healthy_witness :
  goes_on (heartbeat_loop 2 {["a"; "b"]} (heartbeat_new handler_new) demo_rounds).
Proof.
  apply (heartbeat_refines_healthy 2 {["a"; "b"]} handler_new demo_rounds).
  - exact demo_peers.
  - reflexivity.
  - by repeat constructor.
  - vm_compute. split; reflexivity.
Defined.

(** After two rounds both peers are known; then one restarts: the task goes down
    without a panic. *)
Lemma heartbeat_initialised_no_panic_witness :
  exists s, heartbeat_loop 2 {["a"; "b"]} (heartbeat_new handler_new) (take 2 demo_rounds) = Running s /\
    heartbeat_tx s = false /\
    forall msg, heartbeat_loop 2 {["a"; "b"]} s [mkRound (demo_up "c") false (demo_up "b") false] <> Panicked msg.
Proof.
  eexists; split; [vm_compute; reflexivity|]. split; [reflexivity|].
  apply (heartbeat_initialised_no_panic 2 {["a"; "b"]} handler_new (take 2 demo_rounds));
    [exact demo_peers | vm_compute; reflexivity | reflexivity].
Defined.
