(* ===== verification/Lifecycle.v ===== *)
(** * Lifecycle of the statistics server: [server/lifecycle.rs], [server/coordination.rs]
    and [server/health.rs] of [ampc-anon-stats]

    The main task of a server calls [startup], [set_ready], [iteration] and
    [cleanup]; a signal handler or another task may trigger the shutdown at any
    time, and the health endpoint reads the two flags of the server while they
    are being changed.  A call is a tree of the atomic accesses it makes; the
    main task, the shutdown and a health request step in any order.  The theorem
    says what a health response can be trusted for, whatever the interleaving. *)

From S2P Require Import Prelude Heartbeat.
From stdpp Require Import base list numbers strings option relations.
From Stdlib Require Import ZArith Lia.
Local Open Scope Z_scope.

(** ** State *)

(** The shutdown handler and the flags shared with the health endpoint. *)
(* server/coordination.rs:12-15 CoordinationHandles *)
Record server := mkServer { shutdown : ShutdownHandler; ready_flag : bool; shutting_down_flag : bool }.

Definition server_new : server := mkServer handler_new false false.

Definition store_ready (s : server) (b : bool) : server := mkServer (shutdown s) b (shutting_down_flag s).
Definition store_shutting_down (s : server) (b : bool) : server := mkServer (shutdown s) (ready_flag s) b.
Definition on_shutdown (s : server) (f : ShutdownHandler -> ShutdownHandler) : server :=
  mkServer (f (shutdown s)) (ready_flag s) (shutting_down_flag s).
Definition cancel_network (h : ShutdownHandler) : ShutdownHandler :=
  mkHandler (ct_cancelled h) true (n_batches_pending_completion h).

(** ** Calls *)

(** The accesses of a call, in order.  [Select] is [select! { biased; .. }]: it
    polls the shutdown, then the work ([PollWork]), and again.  [Drain] is the
    work under a timeout; [None] is the timeout.  [W] is what the work returns. *)
Inductive prog (W A : Type) :=
| Return (x : A)
| IsShuttingDown (k : bool -> prog W A)
| StoreReady (b : bool) (k : prog W A)
| StoreShuttingDown (b : bool) (k : prog W A)
| TriggerShutdown (k : prog W A)
| CancelNetwork (k : prog W A)
| Select (k : option (result W) -> prog W A)
| PollWork (k : option (result W) -> prog W A)
| Drain (k : option (result W) -> prog W A).
Arguments Return {W A} _.
Arguments IsShuttingDown {W A} _.
Arguments StoreReady {W A} _ _.
Arguments StoreShuttingDown {W A} _ _.
Arguments TriggerShutdown {W A} _.
Arguments CancelNetwork {W A} _.
Arguments Select {W A} _.
Arguments PollWork {W A} _.
Arguments Drain {W A} _.

Section Calls.
Context {W : Type}.

(* server/coordination.rs:26-29 CoordinationHandles::mark_shutting_down *)
Definition mark_shutting_down {A} (k : prog W A) : prog W A := StoreReady false (StoreShuttingDown true k).

(* server/lifecycle.rs:12-29 startup *)
Definition startup : prog W (result (option W)) :=
  Select (fun o => match o with
    | None => mark_shutting_down (Return (Ok None))
    | Some result => Return (x ← result; Ok (Some x))
    end).

(* server/lifecycle.rs:31-41 set_ready *)
Definition set_ready : prog W unit :=
  IsShuttingDown (fun b =>
    if b then mark_shutting_down (Return tt)
    else StoreReady true (IsShuttingDown (fun b => if b then mark_shutting_down (Return tt) else Return tt))).

End Calls.

(* server/lifecycle.rs:43-75 iteration *)
Definition iteration : prog unit (result unit) :=
  IsShuttingDown (fun b =>
    if b then mark_shutting_down (Return (Ok tt))
    else Select (fun o => match o with
      | None => mark_shutting_down (Drain (fun o => match o with
          | Some result => Return (map_err "anon stats iteration failed while draining" result)
          | None => Return (bail "anon stats shutdown drain timed out; publication or processed marking may be incomplete")
          end))
      | Some result => Return result
      end)).

(** ** Background tasks *)

(** How a task ends. *)
Inductive task_end := FinishedOk | FinishedErr (e : error) | PanickedTask | CancelledTask.

(** The tasks that have ended and are not joined yet, in the order they will be
    joined, and how the tasks that still run end once they are aborted. *)
(* task_monitor.rs:20-22 TaskMonitor *)
Record TaskMonitor := mkTasks { ended : list task_end; running : list task_end }.

(* task_monitor.rs:164-170 TaskMonitor::panic_with_task_status *)
Definition panic_with_task_status (r : task_end) : result unit :=
  match r with
  | PanickedTask | CancelledTask => panic "Monitored task was panicked or cancelled"
  | FinishedErr _ => panic "Monitored task returned an error"
  | FinishedOk => panic "Monitored task unexpectedly finished without an error"
  end.

(* task_monitor.rs:149-159 TaskMonitor::resume_panic *)
Definition resume_panic (r : task_end) : result unit :=
  match r with
  | PanickedTask => panic "task panicked"
  | FinishedErr _ => panic "task failed"
  | FinishedOk | CancelledTask => Ok tt
  end.

(* task_monitor.rs:71-76 TaskMonitor::check_tasks *)
Definition check_tasks (self : TaskMonitor) : result TaskMonitor :=
  match ended self with [] => Ok self | r :: _ => _ ← panic_with_task_status r; Ok self end.

(** An aborted task counts as ended when it is joined. *)
(* task_monitor.rs:84-88 TaskMonitor::abort_all *)
Definition abort_all (self : TaskMonitor) : result TaskMonitor :=
  self ← check_tasks self; Ok (mkTasks (ended self ++ running self) []).

(* task_monitor.rs:95-111 TaskMonitor::check_tasks_finished *)
Definition check_tasks_finished (self : TaskMonitor) : result TaskMonitor :=
  _ ← mapM_result resume_panic (ended self);
  if bool_decide (length (running self) = 0%nat) then Ok (mkTasks [] []) else panic "monitored tasks hung even when aborted".

(* task_monitor.rs:114-121 TaskMonitor::check_tasks_finished_ignoring_hangs *)
Definition check_tasks_finished_ignoring_hangs (self : TaskMonitor) : result TaskMonitor :=
  _ ← mapM_result resume_panic (ended self); Ok (mkTasks [] (running self)).

(* task_monitor.rs:130-142 TaskMonitor::abort_and_wait_for_finish *)
Definition abort_and_wait_for_finish (self : TaskMonitor) : result TaskMonitor :=
  self ← abort_all self;
  _ ← mapM_result resume_panic (ended self);
  Ok (mkTasks [] []).

(* server/lifecycle.rs:77-86 check_background_tasks *)
Definition check_background_tasks (tasks : TaskMonitor) : TaskMonitor * result unit :=
  match ended tasks with
  | [] => (tasks, Ok tt)
  | r :: rest => (mkTasks rest (running tasks),
      match r with
      | FinishedOk => bail "anon stats background task unexpectedly finished"
      | FinishedErr _ | PanickedTask | CancelledTask => bail "anon stats background task failed"
      end)
  end.

(* server/lifecycle.rs:102-109 cleanup (error of a task) *)
Definition cleanup_task_error (r : task_end) : option error :=
  match r with
  | CancelledTask => None
  | PanickedTask => Some (Eyre "anon stats background task failed during cleanup")
  | FinishedErr _ => Some (Eyre "anon stats background task failed during cleanup")
  | FinishedOk => Some (Eyre "anon stats background task unexpectedly finished")
  end.

(** The loop keeps the first error. *)
(* server/lifecycle.rs:100-114 cleanup (join) *)
Fixpoint cleanup_join (cleanup_error : option error) (joined : list task_end) : option error :=
  match joined with
  | [] => cleanup_error
  | r :: joined =>
      let cleanup_error := match cleanup_task_error r, cleanup_error with Some e, None => Some e | _, c => c end in
      cleanup_join cleanup_error joined
  end.

(* server/lifecycle.rs:88-120 cleanup *)
Definition cleanup {W} (tasks : TaskMonitor) (r : result unit) : prog W (result unit) :=
  TriggerShutdown (mark_shutting_down (CancelNetwork (Return (
    _ ← r; match cleanup_join None (ended tasks ++ running tasks) with Some error => Err error | None => Ok tt end)))).

(** ** The server at work *)

(** A health request reads one flag, then the other. *)
(* server/health.rs:49-60 spawn_healthcheck_server_with_state (health) *)
Inductive request :=
| NotAsked
| ReadShuttingDown (shutting_down : bool)
| Answered (shutting_down is_ready : bool).

Record system := mkSystem { srv : server; task : prog unit unit; health : request }.

Fixpoint forget {W A} (p : prog W A) : prog W unit :=
  match p with
  | Return _ => Return tt
  | IsShuttingDown k => IsShuttingDown (fun b => forget (k b))
  | StoreReady b k => StoreReady b (forget k)
  | StoreShuttingDown b k => StoreShuttingDown b (forget k)
  | TriggerShutdown k => TriggerShutdown (forget k)
  | CancelNetwork k => CancelNetwork (forget k)
  | Select k => Select (fun o => forget (k o))
  | PollWork k => PollWork (fun o => forget (k o))
  | Drain k => Drain (fun o => forget (k o))
  end.

(** The calls the main task makes, in any order. *)
Inductive lifecycle_call : prog unit unit -> Prop :=
| call_startup : lifecycle_call (forget (startup (W := unit)))
| call_set_ready : lifecycle_call set_ready
| call_iteration : lifecycle_call (forget iteration)
| call_cleanup tasks r : lifecycle_call (forget (cleanup (W := unit) tasks r)).

(** One access of a call. *)
Inductive task_step {W A} (s : server) : prog W A -> server -> prog W A -> Prop :=
| step_is_shutting_down k : task_step s (IsShuttingDown k) s (k (is_shutting_down (shutdown s)))
| step_store_ready b k : task_step s (StoreReady b k) (store_ready s b) k
| step_store_shutting_down b k : task_step s (StoreShuttingDown b k) (store_shutting_down s b) k
| step_trigger k : task_step s (TriggerShutdown k) (on_shutdown s trigger_manual_shutdown) k
| step_cancel_network k : task_step s (CancelNetwork k) (on_shutdown s cancel_network) k
| step_select_shutdown k : is_shutting_down (shutdown s) = true -> task_step s (Select k) s (k None)
| step_select_work k : is_shutting_down (shutdown s) = false -> task_step s (Select k) s (PollWork k)
| step_work_done k r : task_step s (PollWork k) s (k (Some r))
| step_work_pending k : task_step s (PollWork k) s (Select k)
| step_drain k o : task_step s (Drain k) s (k o).

Inductive system_step : system -> system -> Prop :=
| sys_call s p q : lifecycle_call p -> system_step (mkSystem s (Return tt) q) (mkSystem s p q)
| sys_task s p s' p' q : task_step s p s' p' -> system_step (mkSystem s p q) (mkSystem s' p' q)
| sys_shutdown s p q : system_step (mkSystem s p q) (mkSystem (on_shutdown s trigger_manual_shutdown) p q)
| sys_ask s p q : system_step (mkSystem s p q) (mkSystem s p (ReadShuttingDown (shutting_down_flag s)))
| sys_answer s p d : system_step (mkSystem s p (ReadShuttingDown d)) (mkSystem s p (Answered d (ready_flag s))).

Definition system_new : system := mkSystem server_new (Return tt) NotAsked.

(** ** Lemmas *)

(** [careful r d g p]: from flags [r] (ready) and [d] (shutting down), with the
    shutdown triggered if [g], the call [p] never stores a ready flag after the
    other one, and stores the other one only when the server is not ready and
    the shutdown has been triggered. *)
Fixpoint careful {W A} (r d g : bool) (p : prog W A) : Prop :=
  match p with
  | Return _ => True
  | IsShuttingDown k => careful r d true (k true) /\ (g = false -> careful r d false (k false))
  | StoreReady b k => (b = true -> d = false) /\ careful b d g k
  | StoreShuttingDown b k => r = false /\ g = true /\ b = true /\ careful r true g k
  | TriggerShutdown k => careful r d true k
  | CancelNetwork k => careful r d g k
  | Select k | PollWork k => careful r d true (k None) /\ (forall x, careful r d g (k (Some x)))
  | Drain k => forall o, careful r d g (k o)
  end.

Lemma careful_triggered {W A} (p : prog W A) r d g : careful r d g p -> careful r d true p.
Proof.
  revert r d g. induction p as [x|k IH|b k IH|b k IH|k IH|k IH|k IH|k IH|k IH]; intros r d g; cbn; naive_solver.
Qed.

Lemma careful_forget {W A} (p : prog W A) r d g : careful r d g p -> careful r d g (forget p).
Proof. revert r d g. induction p; intros r d g; cbn; naive_solver. Qed.

(** Every call is careful, from flags that do not contradict each other. *)
Lemma calls_careful p r d g : lifecycle_call p -> (d = true -> r = false /\ g = true) -> careful r d g p.
Proof.
  intros Hp Hd. destruct Hp; [apply careful_forget| |apply careful_forget|apply careful_forget]; cbn.
  - naive_solver.
  - split; [naive_solver|]. intros ->. destruct d; [naive_solver|]. naive_solver.
  - split; [naive_solver|]. intros _. repeat split; try done. by intros [].
  - naive_solver.
Qed.

(** The flags never contradict each other, the rest of the call keeps it so, and
    a health request that has seen the shutdown will not see a ready server. *)
Definition consistent (y : system) : Prop :=
  let s := srv y in
  let g := is_shutting_down (shutdown s) in
  (shutting_down_flag s = true -> ready_flag s = false /\ g = true) /\
  careful (ready_flag s) (shutting_down_flag s) g (task y) /\
  match health y with
  | NotAsked => True
  | ReadShuttingDown d => d = true -> shutting_down_flag s = true
  | Answered d r => d = true -> r = false /\ shutting_down_flag s = true
  end.

Lemma task_step_consistent s p s' p' q :
  task_step s p s' p' -> consistent (mkSystem s p q) -> consistent (mkSystem s' p' q).
Proof.
  intros Hs (Hf & Hc & Hq). unfold consistent in *. cbn [srv task health] in *.
  destruct Hs as [k|b k|b k|k|k|k Hg|k Hg|k r|k|k o];
    cbn [store_ready store_shutting_down on_shutdown shutdown ready_flag shutting_down_flag careful] in *.
  - split; [done|]. split; [|done]. destruct (is_shutting_down (shutdown s)); [apply Hc|by apply Hc].
  - destruct Hc as [Hb Hc]. split; [|split; [done|by destruct q]]. intros Hd. destruct b; [|naive_solver]. rewrite Hb in Hd by done. done.
  - destruct Hc as (Hr & Hg & -> & Hc). split; [done|]. split; [done|]. destruct q; naive_solver.
  - split; [naive_solver|]. split; [done|]. destruct q; naive_solver.
  - done.
  - split; [done|]. split; [|done]. rewrite Hg. apply Hc.
  - done.
  - split; [done|]. split; [apply Hc|done].
  - done.
  - done.
Qed.

Lemma system_step_consistent y y' : system_step y y' -> consistent y -> consistent y'.
Proof.
  destruct 1 as [s p q Hp|s p s' p' q Hs|s p q|s p q|s p d].
  - intros (Hf & _ & Hq). split; [done|]. split; [|done]. by apply calls_careful.
  - by apply task_step_consistent.
  - intros (Hf & Hc & Hq). unfold consistent in *. cbn in *. split; [naive_solver|]. split; [by eapply careful_triggered|]. destruct q; naive_solver.
  - intros (Hf & Hc & _). split; [exact Hf|]. split; [exact Hc|]. by cbn.
  - intros (Hf & Hc & Hq). split; [done|]. split; [done|]. cbn in *. intros Hd. split; [apply Hf|]; by apply Hq.
Qed.

Lemma reachable_consistent y : rtc system_step system_new y -> consistent y.
Proof.
  intros H. assert (consistent system_new) as H0 by done. revert H0. induction H as [|y y' y'' Hs _ IH]; [done|].
  intros H0. by eapply IH, system_step_consistent.
Qed.

(** A call never takes the flag of a shutdown back. *)
Lemma shutting_down_stays y y' :
  system_step y y' -> consistent y -> shutting_down_flag (srv y) = true -> shutting_down_flag (srv y') = true.
Proof.
  destruct 1 as [| s p s' p' q Hs| | |]; try done. intros (_ & Hc & _). cbn in *. destruct Hs; cbn in *; try done. naive_solver.
Qed.

(** The server has reported the shutdown. *)
Definition final (y : system) : Prop :=
  consistent y /\ shutting_down_flag (srv y) = true /\
  match health y with NotAsked => True | ReadShuttingDown d => d = true | Answered d r => d = true /\ r = false end.

Lemma final_reachable y y' : rtc system_step y y' -> final y -> final y'.
Proof.
  induction 1 as [|y y' y'' Hs _ IH]; [done|]. intros (Hc & Hd & Hl). apply IH. split; [by eapply system_step_consistent|].
  split; [by eapply shutting_down_stays|]. destruct Hc as (Hf & _). destruct Hs; cbn in *; try done. naive_solver.
Qed.

(** *** Background tasks *)

Lemma cleanup_join_some e joined : cleanup_join (Some e) joined = Some e.
Proof. induction joined as [|r joined IH]; [done|]. cbn. by destruct (cleanup_task_error r). Qed.

Lemma cleanup_join_none joined : cleanup_join None joined = None <-> Forall (eq CancelledTask) joined.
Proof.
  induction joined as [|r joined IH]; cbn; [done|]. rewrite Forall_cons. destruct r; cbn; rewrite ?cleanup_join_some, ?IH; naive_solver.
Qed.

(** Cleaning up ends the tasks that [abort_and_wait_for_finish] panics on: an
    early end is a returned error, and an error of the work comes first. *)
Lemma cleanup_reports_early_end e running :
  abort_and_wait_for_finish (mkTasks [FinishedErr e] running) = panic "Monitored task returned an error" /\
  cleanup_join None ([FinishedErr e] ++ running) = Some (Eyre "anon stats background task failed during cleanup").
Proof. split; [done|]. cbn. apply cleanup_join_some. Qed.

(** ** Claims *)

(** C27: what a health response says can be trusted, whatever the interleaving of the
    main task, the shutdown and the requests, whose two reads are not atomic.  A
    response that calls the server shutting down does not call it ready, is
    given only after the shutdown was triggered, and every request made after it
    gets the same answer, whatever the server does next. *)
Theorem health_response_final y y' r d' r' :
  rtc system_step system_new y -> health y = Answered true r ->
  rtc system_step (mkSystem (srv y) (task y) NotAsked) y' -> health y' = Answered d' r' ->
  r = false /\ is_shutting_down (shutdown (srv y)) = true /\ d' = true /\ r' = false.
Proof.
  intros Hy Hh Hy' Hh'. destruct (reachable_consistent y Hy) as (Hf & Hc & Hq). rewrite Hh in Hq.
  destruct (Hq eq_refl) as [-> Hd]. destruct (Hf Hd) as [_ Hg]. split; [done|]. split; [done|].
  assert (final (mkSystem (srv y) (task y) NotAsked)) as H0 by done.
  pose proof (final_reachable _ _ Hy' H0) as (_ & _ & Hl). by rewrite Hh' in Hl.
Qed.

(** *** Witness *)

(** The shutdown arrives between the check and the store of [set_ready]; the
    health request is answered at the end, and once more. *)
Lemma demo_set_ready :
  rtc system_step system_new (mkSystem (mkServer (trigger_manual_shutdown handler_new) false true) (Return tt) (Answered true false)).
Proof.
  eapply rtc_l; [apply sys_call, call_set_ready|].
  eapply rtc_l; [apply sys_task, step_is_shutting_down|]. cbn.
  eapply rtc_l; [apply sys_shutdown|].
  eapply rtc_l; [apply sys_task, step_store_ready|].
  eapply rtc_l; [apply sys_task, step_is_shutting_down|]. cbn.
  eapply rtc_l; [apply sys_task, step_store_ready|].
  eapply rtc_l; [apply sys_task, step_store_shutting_down|].
  eapply rtc_l; [apply sys_ask|].
  eapply rtc_l; [apply sys_answer|]. apply rtc_refl.
Qed.

Lemma health_response_final_witness :
  is_shutting_down (shutdown (mkServer (trigger_manual_shutdown handler_new) false true)) = true.
Proof.
  set (y := mkSystem (mkServer (trigger_manual_shutdown handler_new) false true) (Return tt) (Answered true false)).
  destruct (health_response_final y y false true false) as (_ & H & _); [exact demo_set_ready|reflexivity| |reflexivity|exact H].
  eapply rtc_l; [apply sys_ask|]. eapply rtc_l; [apply sys_answer|]. apply rtc_refl.
Defined.
