(* ===== verification/Startup.v ===== *)
(** * Startup: the barriers of [ampc-server-utils/src/server_coordination.rs]

    Before it loads its data a node waits until its peers are starting up too and
    until every node has seen every other one; before it serves requests it
    waits until its peers are ready.  The first part models the queries and the
    waiting loops on the responses they meet.  The second part is the fleet:
    three nodes that run these loops, query each other and restart in any order;
    the theorems say what a node that has passed a barrier knows of the others. *)

From S2P Require Import Prelude Heartbeat.
From stdpp Require Import base list numbers strings option gmap sets sorting.
From Stdlib Require Import ZArith Lia Ascii.
Local Open Scope Z_scope.

(** ** Configuration *)

(* ampc-server-utils/src/config.rs:36-85 ServerCoordinationConfig *)
Record ServerCoordinationConfig := mkConfig {
  party_id : nat;
  node_hostnames : list string;
  healthcheck_ports : list string;
  image_name : string;
  heartbeat_interval_secs : Z;
  heartbeat_initial_retries : Z;
  http_query_retry_delay_ms : Z;
  http_query_timeout_ms : Z;
  startup_sync_timeout_secs : Z;
  startup_visibility_barrier_disabled : bool;
}.

(* ampc-server-utils/src/config.rs:88-114 default_node_hostnames (and the other defaults) *)
Definition default_config : ServerCoordinationConfig := mkConfig 0
  (replicate 3 "localhost") (replicate 3 "3000") "" 2 10 1000 10000 300 false.

(** [str::parse] to an unsigned type below [bound]: an optional plus sign and at
    least one decimal digit, no more than the type holds. *)
Fixpoint parse_digits (bound acc : Z) (s : string) : option Z :=
  match s with
  | EmptyString => Some acc
  | String c s =>
      let d := Z.of_nat (Ascii.nat_of_ascii c) - 48 in
      if (0 <=? d) && (d <=? 9) && (acc * 10 + d <? bound) then parse_digits bound (acc * 10 + d) s else None
  end.

Definition parse_uint (bound : Z) (s : string) : option Z :=
  match s with
  | EmptyString => None
  | String "+"%char EmptyString => None
  | String "+"%char s => parse_digits bound 0 s
  | s => parse_digits bound 0 s
  end.

(* ampc-server-utils/src/config.rs:125-137 ServerCoordinationConfig::get_own_healthcheck_port *)
Definition get_own_healthcheck_port (self : ServerCoordinationConfig) : result Z :=
  port ← ok_or (healthcheck_ports self !! party_id self) "party_id is out of bounds for healthcheck_ports";
  ok_or (parse_uint (2 ^ 64) port) "Failed to parse healthcheck port".

(** ** Queries *)

(* server_coordination.rs:37-46 get_check_addresses *)
Definition get_check_addresses (hostnames ports : list string) (endpoint : string) : list string :=
  zip_with (fun host port => "http://" +:+ host +:+ ":" +:+ port +:+ "/" +:+ endpoint)%string hostnames ports.

Definition NODE_COUNT : nat := 3.

(** [sorted_by] is stable: an insertion sort. *)
Fixpoint insert_by {A} (a : nat * A) (l : list (nat * A)) : list (nat * A) :=
  match l with [] => [a] | b :: l => if (a.1 <=? b.1)%nat then a :: b :: l else b :: insert_by a l end.
Definition sorted_by {A} (l : list (nat * A)) : list (nat * A) := foldr insert_by [] l.

(** The peers of a node, in ascending order, with their address. *)
(* server_coordination.rs:833-839 try_get_endpoint_other_nodes (addresses) *)
Definition node_urls (config : ServerCoordinationConfig) (endpoint : string) : result (list string) :=
  let full_urls := get_check_addresses (node_hostnames config) (healthcheck_ports config) endpoint in
  urls ← mapM_result (fun j => let i := ((party_id config + j) mod NODE_COUNT)%nat in
                               url ← index full_urls i; Ok (i, url)) [1; 2]%nat;
  Ok (snd <$> sorted_by urls).

Section Queries.
Context {B : Type}.

(** How an attempt of a task ends: no response, a response whose body could not
    be read, or a status with a body. *)
Inductive attempt := NoResponse | NoBody (status : Z) | Answer (status : Z) (body : B).

(** A task repeats its attempts; [None]: the time is up before one succeeds. *)
(* server_coordination.rs:850-903 try_get_endpoint_other_nodes (task) *)
Fixpoint query_task (attempts : list attempt) : option (Z * B) :=
  match attempts with
  | [] => None
  | Answer status body :: _ => Some (status, body)
  | _ :: attempts => query_task attempts
  end.

(** [attempts url] are the attempts made for [url] within
    [startup_sync_timeout_secs]. *)
(* server_coordination.rs:826-928 try_get_endpoint_other_nodes *)
Definition try_get_endpoint_other_nodes (attempts : string -> list attempt) (config : ServerCoordinationConfig)
    (endpoint : string) : result (list (Z * B)) :=
  urls ← node_urls config endpoint;
  ok_or (mapM (fun url => query_task (attempts url)) urls) "Startup sync timed out".

(** ** The waiting loops *)

(** [serde_json::from_slice] of a body. *)
Context (from_slice : B -> option ReadyProbeResponse).

Definition deserialize (r : Z * B) : result ReadyProbeResponse :=
  ok_or (from_slice r.2) "Failed to deserialize ReadyProbeResponse".
End Queries.
Arguments attempt : clear implicits.

Abbreviation uuids := (gset string).

(** The responses of a round of [wait_for_others_unready]: the set of verified
    peers grows response by response, also when a later one cannot be read. *)
(* server_coordination.rs:322-351 wait_for_others_unready (responses) *)
Fixpoint unready_round (my_uuid : string) (verified : uuids) (resps : list (result ReadyProbeResponse)) : uuids * result (list string) :=
  match resps with
  | [] => (verified, Ok [])
  | Err e :: _ => (verified, Err e)
  | Ok r :: resps =>
      let '(verified, unverified_ready_peers) := unready_round my_uuid ({[uuid r]} ∪ verified) resps in
      (verified, l ← unverified_ready_peers;
                 Ok (if is_ready r && negb (bool_decide (my_uuid ∈ verified_peers r)) then uuid r :: l else l))
  end.

(* server_coordination.rs:1019-1030 current_startup_uuid_set *)
Definition current_startup_uuid_set (my_uuid : string) (peer_responses : list ReadyProbeResponse) : uuids :=
  {[my_uuid]} ∪ list_to_set (uuid <$> peer_responses).

(** The set order and the sort only matter for the log: the set is kept. *)
(* server_coordination.rs:1032-1045 missing_startup_visibility *)
Definition missing_startup_visibility (expected_uuids : uuids) (peer_uuid : string) (peer_verified_peers : uuids) : uuids :=
  filter (fun u => u <> peer_uuid /\ u ∉ peer_verified_peers) expected_uuids.

(* server_coordination.rs:982-997 wait_until_startup_visibility_is_complete (incomplete visibility) *)
Definition incomplete_visibility (expected_uuids : uuids) (peer_responses : list ReadyProbeResponse) : list (string * uuids) :=
  omap (fun r => let missing := missing_startup_visibility expected_uuids (uuid r) (verified_peers r) in
                 if bool_decide (missing = ∅) then None else Some (uuid r, missing)) peer_responses.

(** [Ok None]: visibility is complete. *)
(* server_coordination.rs:966-1002 wait_until_startup_visibility_is_complete (responses) *)
Definition visibility_round (my_uuid : string) (verified : uuids) (resps : list (result ReadyProbeResponse)) : uuids * result (list (string * uuids)) :=
  match mapM_result id resps with
  | Err e => (verified, Err e)
  | Ok peer_responses =>
      (list_to_set (uuid <$> peer_responses) ∪ verified,
       Ok (incomplete_visibility (current_startup_uuid_set my_uuid peer_responses) peer_responses))
  end.

(** All peers are ready; a peer that was not verified is an error. *)
(* server_coordination.rs:790-811 wait_for_others_ready (responses) *)
Fixpoint ready_round (verified : uuids) (all_ready : bool) (resps : list (result ReadyProbeResponse)) : result bool :=
  match resps with
  | [] => Ok all_ready
  | r :: resps =>
      r ← r;
      if negb (bool_decide (uuid r ∈ verified)) then bail "Peer reported UUID not seen during startup handshake; a peer has restarted and the fleet must restart"
      else ready_round verified (if is_ready r then all_ready else false) resps
  end.

(** A round of a waiting loop: what the query returns, whether the deadline has
    passed when the responses have been looked at, and whether it has passed
    after the pause. *)
Record poll (B : Type) := mkPoll { responses : result (list (Z * B)); expired : bool; expired_after : bool }.
Arguments mkPoll {B}. Arguments responses {B}. Arguments expired {B}. Arguments expired_after {B}.

Section Loops.
Context {B : Type} (from_slice : B -> option ReadyProbeResponse) (my_uuid : string).

(** The loops return the set of verified peers with their result; [None]: the
    rounds do not suffice to decide. *)
(* server_coordination.rs:305-401 wait_for_others_unready *)
Fixpoint wait_for_others_unready (verified : uuids) (rounds : list (poll B)) : option (uuids * result unit) :=
  match rounds with
  | [] => None
  | p :: rounds =>
      match responses p with
      | Err e => Some (verified, Err e)
      | Ok resps =>
          let '(verified, unverified_ready_peers) := unready_round my_uuid verified (deserialize from_slice <$> resps) in
          match unverified_ready_peers with
          | Err e => Some (verified, Err e)
          | Ok [] => Some (verified, Ok tt)
          | Ok _ =>
              if expired p || expired_after p then Some (verified, bail "One or more nodes were not unready (and did not verify us)")
              else wait_for_others_unready verified rounds
          end
      end
  end.

(* server_coordination.rs:938-1017 wait_until_startup_visibility_is_complete *)
Fixpoint wait_until_startup_visibility_is_complete (verified : uuids) (rounds : list (poll B)) : option (uuids * result unit) :=
  match rounds with
  | [] => None
  | p :: rounds =>
      match responses p with
      | Err e =>
          if negb (expired p) then wait_until_startup_visibility_is_complete verified rounds
          else Some (verified, Err e)
      | Ok resps =>
          let '(verified, incomplete) := visibility_round my_uuid verified (deserialize from_slice <$> resps) in
          match incomplete with
          | Err e => Some (verified, Err e)
          | Ok [] => Some (verified, Ok tt)
          | Ok _ =>
              if expired p then Some (verified, bail "Timed out waiting for full peer visibility during startup")
              else wait_until_startup_visibility_is_complete verified rounds
          end
      end
  end.

(** The metrics of the phases are left out. *)
(* server_coordination.rs:431-476 wait_for_startup_barriers *)
Definition wait_for_startup_barriers (config : ServerCoordinationConfig) (verified : uuids) (unready visibility : list (poll B)) : option (uuids * result unit) :=
  match wait_for_others_unready verified unready with
  | None => None
  | Some (verified, Err e) => Some (verified, Err e)
  | Some (verified, Ok _) =>
      if startup_visibility_barrier_disabled config then Some (verified, Ok tt)
      else wait_until_startup_visibility_is_complete verified visibility
  end.

(** There is no deadline; a query that fails is repeated. *)
(* server_coordination.rs:773-820 wait_for_others_ready *)
Fixpoint wait_for_others_ready (verified : uuids) (rounds : list (poll B)) : option (result unit) :=
  match rounds with
  | [] => None
  | p :: rounds =>
      match responses p with
      | Err _ => wait_for_others_ready verified rounds
      | Ok resps =>
          match ready_round verified true (deserialize from_slice <$> resps) with
          | Err e => Some (Err e)
          | Ok true => Some (Ok tt)
          | Ok false => wait_for_others_ready verified rounds
          end
      end
  end.
End Loops.

(** ** The fleet

    The nodes are numbered from 0 to 2.  A node is in one of the waiting loops or
    past them.  A query of a loop fetches the responses of the two peers one
    after the other, at any time; they lie in [n_inbox] until both are there and
    the round of the loop is run on them. *)

Inductive phase := WaitUnready | WaitVisibility | Passed | WaitReady | Serving | Failed.

#[export] Instance phase_eq_dec : EqDecision phase.
Proof. solve_decision. Defined.

(** [n_generation] is the set [expected_uuids] of the round that completed the
    visibility barrier. *)
Record node := mkNode {
  n_uuid : string;
  n_verified : uuids;
  n_ready : bool;
  n_shutting_down : bool;
  n_phase : phase;
  n_inbox : nat -> option ReadyProbeResponse;
  n_generation : uuids;
}.

(** [born] records the uuids ever drawn, with the node and the time. *)
Record fleet := mkFleet { nodes : nat -> node; born : gmap string (nat * nat); clock : nat }.

(** A node that has just started; [Uuid::new_v4] draws a uuid not seen before. *)
(* server_coordination.rs:154-162 start_coordination_server_with_extra_routes (state) *)
Definition started (u : string) : node := mkNode u ∅ false false WaitUnready (fun _ => None) ∅.

(* server_coordination.rs:186-202 start_coordination_server_with_extra_routes (health) *)
Definition health (image : string) (n : node) : ReadyProbeResponse :=
  mkProbe image (n_uuid n) (n_shutting_down n) (n_verified n) (n_ready n).

(* server_coordination.rs:759-763 set_node_ready *)
Definition set_node_ready (n : node) : node :=
  mkNode (n_uuid n) (n_verified n) true (n_shutting_down n) WaitReady (fun _ => None) (n_generation n).

Definition peers_of (i : nat) : list nat := filter (fun j => j <> i) (seq 0 3).

Definition upd {A} (f : nat -> A) (i : nat) (x : A) : nat -> A := fun j => if decide (j = i) then x else f j.

(** One round of the loop the node is in, on the responses of its peers. *)
Definition run_round (n : node) (resps : list ReadyProbeResponse) : option node :=
  let empty := fun _ => None in
  match n_phase n with
  | WaitUnready =>
      let '(verified, r) := unready_round (n_uuid n) (n_verified n) (Ok <$> resps) in
      Some (mkNode (n_uuid n) verified (n_ready n) (n_shutting_down n)
        (match r with Ok [] => WaitVisibility | Ok _ => WaitUnready | Err _ => Failed end) empty (n_generation n))
  | WaitVisibility =>
      let '(verified, r) := visibility_round (n_uuid n) (n_verified n) (Ok <$> resps) in
      Some (match r with
      | Ok [] => mkNode (n_uuid n) verified (n_ready n) (n_shutting_down n) Passed empty (current_startup_uuid_set (n_uuid n) resps)
      | Ok _ => mkNode (n_uuid n) verified (n_ready n) (n_shutting_down n) WaitVisibility empty (n_generation n)
      | Err _ => mkNode (n_uuid n) verified (n_ready n) (n_shutting_down n) Failed empty (n_generation n)
      end)
  | WaitReady =>
      Some (mkNode (n_uuid n) (n_verified n) (n_ready n) (n_shutting_down n)
        (match ready_round (n_verified n) true (Ok <$> resps) with Ok true => Serving | Ok false => WaitReady | Err _ => Failed end)
        empty (n_generation n))
  | _ => None
  end.

(** What happens next: a node fetches the health of a peer, runs a round,
    declares itself ready after the barriers, begins to shut down, gives up, or
    is started again. *)
Inductive action :=
| Fetch (i k : nat)
| Round (i : nat)
| SetReady (i : nat)
| ShutDown (i : nat)
| GiveUp (i : nat)
| Restart (i : nat) (u : string).

Definition with_node (s : fleet) (i : nat) (n : node) : fleet := mkFleet (upd (nodes s) i n) (born s) (clock s).

Section Fleet.
Context (image : string).

(** [None]: the action is not possible. *)
Definition step (s : fleet) (a : action) : option fleet :=
  match a with
  | Fetch i k =>
      let n := nodes s i in
      if decide (i < 3 /\ k ∈ peers_of i)%nat
      then Some (with_node s i (mkNode (n_uuid n) (n_verified n) (n_ready n) (n_shutting_down n) (n_phase n)
             (upd (n_inbox n) k (Some (health image (nodes s k)))) (n_generation n)))
      else None
  | Round i =>
      if decide (i < 3)%nat
      then resps ← mapM (n_inbox (nodes s i)) (peers_of i); with_node s i <$> run_round (nodes s i) resps
      else None
  | SetReady i =>
      if decide (i < 3 /\ n_phase (nodes s i) = Passed)%nat
      then Some (with_node s i (set_node_ready (nodes s i))) else None
  | ShutDown i =>
      let n := nodes s i in
      if decide (i < 3)%nat
      then Some (with_node s i (mkNode (n_uuid n) (n_verified n) (n_ready n) true (n_phase n) (n_inbox n) (n_generation n)))
      else None
  | GiveUp i =>
      let n := nodes s i in
      if decide (i < 3)%nat
      then Some (with_node s i (mkNode (n_uuid n) (n_verified n) (n_ready n) (n_shutting_down n) Failed (n_inbox n) (n_generation n)))
      else None
  | Restart i u =>
      if decide (i < 3 /\ born s !! u = None)%nat
      then Some (mkFleet (upd (nodes s) i (started u)) (<[u := (i, clock s)]> (born s)) (S (clock s)))
      else None
  end.

Fixpoint run (s : fleet) (l : list action) : option fleet :=
  match l with [] => Some s | a :: l => s ← step s a; run s l end.
End Fleet.

(** The three nodes start with distinct uuids. *)
Definition fleet_new (u0 u1 u2 : string) : fleet :=
  mkFleet (fun i => started (match i with 0 => u0 | 1 => u1 | _ => u2 end)%nat)
    (<[u2 := (2, 2)]> (<[u1 := (1, 1)]> {[u0 := (0, 0)]}))%nat 3.

(** The node has passed both barriers since it was started. *)
Definition passed (n : node) : bool := negb (bool_decide (n_generation n = ∅)).

(** ** Lemmas: the rounds *)

Lemma unready_round_verified my_uuid resps verified :
  (unready_round my_uuid verified (Ok <$> resps)).1 = list_to_set (uuid <$> resps) ∪ verified.
Proof.
  revert verified; induction resps as [|r resps IH]; intros verified; simpl; [set_solver|].
  specialize (IH ({[uuid r]} ∪ verified)). destruct (unready_round _ _ _). simpl in *. set_solver.
Qed.

Lemma mapM_result_id {A} (l : list A) : mapM_result id (Ok <$> l) = Ok l.
Proof.
  induction l as [|x l IH]; [done|].
  transitivity (ys ← mapM_result id (Ok <$> l); Ok (x :: ys)); [done | by rewrite IH].
Qed.

Lemma visibility_round_spec my_uuid verified resps :
  visibility_round my_uuid verified (Ok <$> resps) =
  (list_to_set (uuid <$> resps) ∪ verified, Ok (incomplete_visibility (current_startup_uuid_set my_uuid resps) resps)).
Proof. unfold visibility_round. by rewrite mapM_result_id. Qed.

Lemma missing_startup_visibility_empty expected u vs :
  missing_startup_visibility expected u vs = ∅ <-> expected ∖ {[u]} ⊆ vs.
Proof.
  unfold missing_startup_visibility. split.
  - intros E v Hv. destruct (decide (v ∈ vs)) as [|Hn]; [done|].
    exfalso. apply (not_elem_of_empty (C := uuids) v). rewrite <- E. apply elem_of_filter. set_solver.
  - intros H. apply elem_of_equiv_empty_L. intros v Hv. apply elem_of_filter in Hv as [[? ?] ?]. set_solver.
Qed.

(** Visibility is complete exactly when every peer reports the others. *)
Lemma incomplete_visibility_nil expected resps :
  incomplete_visibility expected resps = [] <-> forall r, r ∈ resps -> expected ∖ {[uuid r]} ⊆ verified_peers r.
Proof.
  induction resps as [|r resps IH]; simpl; [set_solver|].
  case_bool_decide as E; rewrite missing_startup_visibility_empty in E.
  - rewrite IH. set_solver.
  - split; [done|]. intros H. exfalso. apply E, H. set_solver.
Qed.

Lemma ready_round_true verified b resps :
  ready_round verified b (Ok <$> resps) = Ok true ->
  b = true /\ forall r, r ∈ resps -> uuid r ∈ verified /\ is_ready r = true.
Proof.
  revert b; induction resps as [|r resps IH]; simpl; intros b H.
  - simplify_eq. split; [done | set_solver].
  - case_bool_decide as E; simpl in H; [|done]. apply IH in H as [Hb H].
    destruct (is_ready r) eqn:Er; [|done]. split; [done|]. intros r' [->|Hr]%elem_of_cons; auto.
Qed.

Lemma peers_of_spec i k : k ∈ peers_of i <-> (k < 3 /\ k <> i)%nat.
Proof. unfold peers_of. rewrite list_elem_of_filter, elem_of_seq. lia. Qed.

Lemma upd_same {A} (f : nat -> A) i x : upd f i x i = x.
Proof. unfold upd. by rewrite decide_True. Qed.
Lemma upd_other {A} (f : nat -> A) i j x : j <> i -> upd f i x j = f j.
Proof. intros. unfold upd. by rewrite decide_False. Qed.

(** ** Lemmas: the waiting loops *)

Section LoopLemmas.
Context {B : Type} (from_slice : B -> option ReadyProbeResponse) (my_uuid : string).

(** A loop is decided at the latest by a round that ends past the deadline. *)
Lemma wait_for_others_unready_decides verified rounds :
  Exists (fun p => expired p = true) rounds -> is_Some (wait_for_others_unready from_slice my_uuid verified rounds).
Proof.
  intros H; revert verified; induction H as [p rounds E|p rounds _ IH]; intros verified; simpl;
    (destruct (responses p) as [resps|]; [|eauto]); destruct (unready_round _ _ _) as [v [[|]|]]; eauto.
  - rewrite E. simpl. eauto.
  - destruct (expired p || expired_after p); eauto.
Qed.

Lemma wait_visibility_decides verified rounds :
  Exists (fun p => expired p = true) rounds -> is_Some (wait_until_startup_visibility_is_complete from_slice my_uuid verified rounds).
Proof.
  intros H; revert verified; induction H as [p rounds E|p rounds _ IH]; intros verified; simpl;
    destruct (responses p) as [resps|]; [..|destruct (expired p); simpl; eauto];
    try (destruct (visibility_round _ _ _) as [v [[|]|]]; eauto).
  - rewrite E. eauto.
  - rewrite E. simpl. eauto.
  - destruct (expired p); eauto.
Qed.

(** When the visibility barrier lets a node through, its last query met peers
    that reported every other uuid, and all of them are verified. *)
Lemma wait_visibility_ok verified rounds verified' :
  wait_until_startup_visibility_is_complete from_slice my_uuid verified rounds = Some (verified', Ok tt) ->
  verified ⊆ verified' /\
  exists p resps peer_responses, p ∈ rounds /\ responses p = Ok resps /\
    mapM_result (deserialize from_slice) resps = Ok peer_responses /\
    list_to_set (uuid <$> peer_responses) ⊆ verified' /\
    forall r, r ∈ peer_responses -> current_startup_uuid_set my_uuid peer_responses ∖ {[uuid r]} ⊆ verified_peers r.
Proof.
  revert verified; induction rounds as [|p rounds IH]; intros verified; simpl; [done|].
  destruct (responses p) as [resps|] eqn:Ep.
  - unfold visibility_round at 1.
    replace (mapM_result id (deserialize from_slice <$> resps)) with (mapM_result (deserialize from_slice) resps).
    2: { clear. induction resps as [|r resps IH]; simpl; [done|]. by rewrite IH. }
    destruct (mapM_result (deserialize from_slice) resps) as [prs|] eqn:Em; [|done].
    destruct (incomplete_visibility _ prs) eqn:Ei.
    + intros [= <-]. split; [set_solver|]. exists p, resps, prs. split; [set_solver|]. split; [done|]. split; [done|].
      split; [set_solver|]. by apply incomplete_visibility_nil.
    + destruct (expired p); [done|]. intros (HV & p' & rs & prs' & H & ?)%IH. split; [set_solver|].
      exists p', rs, prs'. split; [set_solver|done].
  - destruct (expired p); simpl; [done|]. intros (HV & p' & rs & prs' & H & ?)%IH. split; [done|].
    exists p', rs, prs'. split; [set_solver|done].
Qed.
End LoopLemmas.

(** ** Lemmas: what a node knows of its peers *)

(** [u] is a uuid of node [k], and no uuid of [k] in [V] is newer. *)
Definition latest (s : fleet) (V : uuids) (k : nat) (u : string) : Prop :=
  exists t, born s !! u = Some (k, t) /\ forall v t', v ∈ V -> born s !! v = Some (k, t') -> (t' <= t)%nat.

(** If node [k] still has the uuid [u], it has verified [W]; it has passed. *)
Definition knows (s : fleet) (k : nat) (u : string) (W : uuids) : Prop :=
  n_uuid (nodes s k) = u -> W ⊆ n_verified (nodes s k).
Definition has_passed (s : fleet) (k : nat) (u : string) : Prop :=
  n_uuid (nodes s k) = u -> passed (nodes s k) = true.

(** Later states: uuids are only added; a node that keeps its uuid verifies more
    and stays past the barrier, another one has a new uuid. *)
Record later (s s' : fleet) : Prop := {
  later_born : born s ⊆ born s';
  later_same k : n_uuid (nodes s' k) = n_uuid (nodes s k) ->
    n_verified (nodes s k) ⊆ n_verified (nodes s' k) /\ (passed (nodes s k) = true -> passed (nodes s' k) = true);
  later_new k : n_uuid (nodes s' k) <> n_uuid (nodes s k) -> born s !! n_uuid (nodes s' k) = None;
}.

Lemma later_lookup s s' v kt : later s s' -> born s !! v = Some kt -> born s' !! v = Some kt.
Proof. intros L H. exact (lookup_weaken _ _ _ _ H (later_born _ _ L)). Qed.

Lemma latest_later s s' V k u : later s s' -> V ⊆ dom (born s) -> latest s V k u -> latest s' V k u.
Proof.
  intros L HV (t & Hu & Ht). exists t. split; [by eapply later_lookup|].
  intros v t' Hv Hv'. apply HV in Hv as Hd. apply elem_of_dom in Hd as [kt Hd].
  rewrite (later_lookup _ _ _ _ L Hd) in Hv'. simplify_eq. by eapply Ht.
Qed.

Lemma later_keeps s s' k u kt :
  later s s' -> born s !! u = Some kt -> n_uuid (nodes s' k) = u -> n_uuid (nodes s k) = u.
Proof.
  intros L Hu E. destruct (decide (n_uuid (nodes s' k) = n_uuid (nodes s k))) as [E'|E']; [congruence|].
  apply (later_new _ _ L) in E'. congruence.
Qed.

Lemma knows_later s s' k u W kt : later s s' -> born s !! u = Some kt -> knows s k u W -> knows s' k u W.
Proof.
  intros L Hu H E. pose proof (later_keeps _ _ _ _ _ L Hu E) as E'.
  destruct (later_same _ _ L k) as [HV _]; [congruence|]. specialize (H E'). set_solver.
Qed.

Lemma has_passed_later s s' k u kt : later s s' -> born s !! u = Some kt -> has_passed s k u -> has_passed s' k u.
Proof.
  intros L Hu H E. pose proof (later_keeps _ _ _ _ _ L Hu E) as E'.
  destruct (later_same _ _ L k) as [_ HP]; [congruence|]. auto.
Qed.

(** ** The invariant *)

(** A response of node [k] that node [n] holds. *)
Definition response_ok (s : fleet) (V : uuids) (k : nat) (r : ReadyProbeResponse) : Prop :=
  latest s V k (uuid r) /\ knows s k (uuid r) (verified_peers r) /\ (is_ready r = true -> has_passed s k (uuid r)).

(** What the barrier has established: the generation has one uuid of each peer,
    the latest one verified, and these peers have verified the generation. *)
Definition generation_ok (s : fleet) (i : nat) (n : node) : Prop :=
  exists f : nat -> string,
    n_generation n = {[n_uuid n]} ∪ list_to_set (f <$> peers_of i) /\
    forall k, k ∈ peers_of i ->
      latest s (n_verified n) k (f k) /\ f k ∈ n_verified n /\ knows s k (f k) (n_generation n ∖ {[f k]}).

(** The barrier is passed in the phases after it, and it is before it that the
    set of verified peers grows. *)
Definition phase_ok (n : node) : Prop :=
  match n_phase n with
  | WaitUnready | WaitVisibility => passed n = false /\ n_ready n = false
  | Passed | WaitReady | Serving => passed n = true
  | Failed => n_ready n = true -> passed n = true
  end.

Record node_inv (s : fleet) (i : nat) (n : node) : Prop := {
  node_verified : n_verified n ⊆ dom (born s);
  node_inbox k r : k ∈ peers_of i -> n_inbox n k = Some r -> response_ok s (n_verified n) k r;
  node_phase : phase_ok n;
  node_generation : passed n = true -> generation_ok s i n;
  node_serving k : n_phase n = Serving -> k ∈ peers_of i ->
    exists u, u ∈ n_verified n /\ latest s (n_verified n) k u /\ has_passed s k u;
}.

Lemma node_ready_passed s i n : node_inv s i n -> n_ready n = true -> passed n = true.
Proof. intros H Hr. pose proof (node_phase _ _ _ H) as Hp. unfold phase_ok in Hp. destruct (n_phase n); naive_solver congruence. Qed.

Lemma latest_born s V k u : latest s V k u -> exists t, born s !! u = Some (k, t).
Proof. intros (t & H & _). by exists t. Qed.

Lemma response_ok_later s s' V k r : later s s' -> V ⊆ dom (born s) -> response_ok s V k r -> response_ok s' V k r.
Proof.
  intros L HV (Hl & Hk & Hp). destruct (latest_born _ _ _ _ Hl) as [t Ht].
  split; [by eapply latest_later|]. split; [by eapply knows_later|]. intros Hr. eapply has_passed_later; eauto.
Qed.

Lemma node_inv_later s s' i n : later s s' -> node_inv s i n -> node_inv s' i n.
Proof.
  intros L [HV Hi Hp Hg Hs]. split.
  - pose proof (subseteq_dom _ _ (later_born _ _ L)). set_solver.
  - intros k r Hk Hr. eapply response_ok_later; eauto.
  - done.
  - intros P. destruct (Hg P) as (f & E & H). exists f. split; [done|]. intros k Hk.
    destruct (H k Hk) as (Hl & Hf & Hw). destruct (latest_born _ _ _ _ Hl) as [t Ht].
    split; [by eapply latest_later|]. split; [done|]. by eapply knows_later.
  - intros k P Hk. destruct (Hs k P Hk) as (u & Hu & Hl & Hh). destruct (latest_born _ _ _ _ Hl) as [t Ht].
    exists u. split; [done|]. split; [by eapply latest_later|]. by eapply has_passed_later.
Qed.

Record fleet_inv (s : fleet) : Prop := {
  inv_current i : (i < 3)%nat -> exists t, born s !! n_uuid (nodes s i) = Some (i, t) /\
    forall v t', born s !! v = Some (i, t') -> (t' <= t)%nat;
  inv_clock v k t : born s !! v = Some (k, t) -> (t < clock s)%nat;
  inv_times v w k t : born s !! v = Some (k, t) -> born s !! w = Some (k, t) -> v = w;
  inv_nodes i : (i < 3)%nat -> node_inv s i (nodes s i);
}.

(** *** Preservation *)

Lemma with_node_later s i n :
  n_uuid n = n_uuid (nodes s i) -> n_verified (nodes s i) ⊆ n_verified n ->
  (passed (nodes s i) = true -> passed n = true) -> later s (with_node s i n).
Proof.
  intros Hu HV HP. split; simpl; [done|..]; intros k; unfold upd; destruct (decide (k = i)) as [->|];
    intros E; try split; auto; try done; congruence.
Qed.

(** A step of one node that keeps its uuid. *)
Lemma with_node_inv s i n :
  fleet_inv s -> (i < 3)%nat -> node_inv s i n ->
  n_uuid n = n_uuid (nodes s i) -> n_verified (nodes s i) ⊆ n_verified n ->
  (passed (nodes s i) = true -> passed n = true) -> fleet_inv (with_node s i n).
Proof.
  intros [Hc Hk Ht Hn] Hi Hi' Hu HV HP.
  pose proof (with_node_later s i n Hu HV HP) as L. split; simpl; [|done..|].
  - intros j Hj. unfold upd. destruct (decide (j = i)) as [->|]; [rewrite Hu|]; auto.
  - intros j Hj. apply (node_inv_later s); [done|]. unfold upd. destruct (decide (j = i)) as [->|]; auto.
Qed.

(** The current state of a peer is a good response. *)
Lemma health_ok image s V k : fleet_inv s -> (k < 3)%nat -> response_ok s V k (health image (nodes s k)).
Proof.
  intros H Hk. destruct (inv_current s H k Hk) as (t & Ht & Hl). split; [|split].
  - exists t. split; [done|]. intros v t' _ Hv. by apply (Hl v).
  - intros _. done.
  - intros Hr _. apply (node_ready_passed s k); [by apply (inv_nodes s H)|done].
Qed.

Lemma fetch_inv image s i k :
  fleet_inv s -> (i < 3)%nat -> k ∈ peers_of i ->
  let n := nodes s i in
  node_inv s i (mkNode (n_uuid n) (n_verified n) (n_ready n) (n_shutting_down n) (n_phase n)
    (upd (n_inbox n) k (Some (health image (nodes s k)))) (n_generation n)).
Proof.
  intros H Hi Hk. destruct (inv_nodes s H i Hi) as [HV Hb Hp Hg Hs].
  split; simpl; auto. intros k' r Hk'. unfold upd. destruct (decide (k' = k)) as [->|]; [|auto].
  intros [= <-]. apply health_ok; [done|]. apply peers_of_spec in Hk. lia.
Qed.

(** A round is run on a response of each peer. *)
Lemma mapM_inbox s i n resps :
  node_inv s i n -> mapM (n_inbox n) (peers_of i) = Some resps ->
  exists g, resps = g <$> peers_of i /\ forall k, k ∈ peers_of i -> response_ok s (n_verified n) k (g k).
Proof.
  intros H E. apply mapM_Some in E. exists (fun k => default (mkProbe "" "" false ∅ false) (n_inbox n k)).
  assert (Hf : resps = (fun k => default (mkProbe "" "" false ∅ false) (n_inbox n k)) <$> peers_of i).
  { clear H. induction E as [|k r ks rs Hk _ IH]; simpl; [done|]. by rewrite Hk, IH. }
  split; [done|]. intros k Hk. apply list_elem_of_lookup in Hk as Hj. destruct Hj as [j Hj].
  destruct (Forall2_lookup_l _ _ _ _ _ E Hj) as (r & _ & Hr). rewrite Hr. by apply (node_inbox _ _ _ H).
Qed.

Section Round.
Context (s : fleet) (i : nat) (V : uuids) (g : nat -> ReadyProbeResponse)
  (HV : V ⊆ dom (born s)) (Hg : forall k, k ∈ peers_of i -> response_ok s V k (g k)).

(** The set of verified peers after the round. *)
Let V' : uuids := list_to_set (uuid <$> (g <$> peers_of i)) ∪ V.

Lemma round_verified_elem v : v ∈ V' <-> (exists k, k ∈ peers_of i /\ v = uuid (g k)) \/ v ∈ V.
Proof.
  unfold V'. rewrite elem_of_union, elem_of_list_to_set, <- list_fmap_compose, list_elem_of_fmap. naive_solver.
Qed.

Lemma round_verified : V' ⊆ dom (born s).
Proof.
  intros v. rewrite round_verified_elem. intros [(k & Hk & ->)|Hv]; [|set_solver].
  destruct (latest_born _ _ _ _ (proj1 (Hg k Hk))) as [t Ht]. by eapply elem_of_dom_2.
Qed.

(** The response of a peer is still the latest. *)
Lemma round_latest k : k ∈ peers_of i -> latest s V' k (uuid (g k)).
Proof.
  intros Hk. destruct (proj1 (Hg k Hk)) as (t & Hu & Ht). exists t. split; [done|].
  intros v t'. rewrite round_verified_elem. intros [(k' & Hk' & ->)|Hv] Hb; [|by eapply Ht].
  destruct (latest_born _ _ _ _ (proj1 (Hg k' Hk'))) as [t2 Ht2]. assert (k' = k) as -> by congruence.
  rewrite Hu in Hb. by simplify_eq.
Qed.

Lemma round_generation n :
  n_verified n = V' -> n_generation n = current_startup_uuid_set (n_uuid n) (g <$> peers_of i) ->
  incomplete_visibility (n_generation n) (g <$> peers_of i) = [] -> generation_ok s i n.
Proof.
  intros EV EG HI. exists (fun k => uuid (g k)). split.
  { rewrite EG. unfold current_startup_uuid_set. by rewrite <- list_fmap_compose. }
  intros k Hk. rewrite EV. split; [by apply round_latest|]. split; [apply round_verified_elem; eauto|].
  intros E. pose proof (proj1 (incomplete_visibility_nil _ _) HI (g k)) as HW.
  pose proof (proj1 (proj2 (Hg k Hk)) E) as HK.
  specialize (HW ltac:(by apply list_elem_of_fmap_2)). set_solver.
Qed.
End Round.

Lemma passed_generation n : n_uuid n ∈ n_generation n -> passed n = true.
Proof. intros H. unfold passed. rewrite bool_decide_eq_false_2; [done|]. set_solver. Qed.

Lemma run_round_keeps n resps n' :
  run_round n resps = Some n' -> n_uuid n' = n_uuid n /\ n_verified n ⊆ n_verified n' /\ (passed n = true -> passed n' = true).
Proof.
  unfold run_round. destruct (n_phase n); [..|done]; try done.
  - pose proof (unready_round_verified (n_uuid n) resps (n_verified n)) as E.
    destruct (unready_round _ _ _) as [V r]; simpl in E. intros [= <-]; simpl. split; [done|]. set_solver.
  - rewrite visibility_round_spec. destruct (incomplete_visibility _ _); intros [= <-]; simpl.
    + split; [done|]. split; [set_solver|]. intros _. apply passed_generation. simpl.
      unfold current_startup_uuid_set. set_solver.
    + split; [done|]. split; [set_solver|done].
  - by intros [= <-].
Qed.

Lemma round_inv s i n resps n' :
  node_inv s i n -> mapM (n_inbox n) (peers_of i) = Some resps -> run_round n resps = Some n' -> node_inv s i n'.
Proof.
  intros H HM HR. destruct (mapM_inbox _ _ _ _ H HM) as (g & -> & Hg).
  destruct H as [HV Hb Hp HG Hs]. unfold run_round in HR. unfold phase_ok in Hp.
  destruct (n_phase n) eqn:Eph; try done.
  - pose proof (unready_round_verified (n_uuid n) (g <$> peers_of i) (n_verified n)) as E.
    destruct (unready_round _ _ _) as [V r]; simpl in E. injection HR as <-. destruct Hp as [Hp Hr]. split; simpl.
    + rewrite E. by apply round_verified.
    + done.
    + unfold phase_ok, passed in *; simpl. destruct r as [[|]|]; simpl; auto. congruence.
    + unfold passed in *; simpl. congruence.
    + intros k. destruct r as [[|]|]; done.
  - rewrite visibility_round_spec in HR. destruct Hp as [Hp Hr].
    destruct (incomplete_visibility _ _) eqn:EI; injection HR as <-; split; simpl; try done.
    + by apply round_verified.
    + unfold phase_ok; simpl. apply passed_generation. simpl. unfold current_startup_uuid_set. set_solver.
    + intros _. by eapply round_generation.
    + by apply round_verified.
    + unfold passed in *; simpl in *. congruence.
  - injection HR as <-. destruct (ready_round _ _ _) as [[]|] eqn:ER; split; simpl; auto; try done; try exact HG; try (intros _; exact Hp).
    intros k _ Hk. apply ready_round_true in ER as [_ ER].
    destruct (ER (g k)) as [Hv Hr]; [by apply list_elem_of_fmap_2|].
    destruct (Hg k Hk) as (Hl & _ & HP). exists (uuid (g k)). auto.
Qed.

Lemma restart_later s i u : fleet_inv s -> (i < 3)%nat -> born s !! u = None ->
  later s (mkFleet (upd (nodes s) i (started u)) (<[u := (i, clock s)]> (born s)) (S (clock s))).
Proof.
  intros H Hi Hu. destruct (inv_current s H i Hi) as (t & Ht & _). split; simpl.
  - by apply insert_subseteq.
  - intros k. unfold upd. destruct (decide (k = i)) as [->|]; simpl; [congruence|done].
  - intros k. unfold upd. destruct (decide (k = i)) as [->|]; simpl; done.
Qed.

Lemma started_inv s i u : node_inv s i (started u).
Proof. split; simpl; try done; set_solver. Qed.

Lemma restart_inv s i u : fleet_inv s -> (i < 3)%nat -> born s !! u = None ->
  fleet_inv (mkFleet (upd (nodes s) i (started u)) (<[u := (i, clock s)]> (born s)) (S (clock s))).
Proof.
  intros H Hi Hu. pose proof (restart_later s i u H Hi Hu) as L. destruct H as [Hc Hk Ht Hn]. split; simpl.
  - intros j Hj. unfold upd. destruct (decide (j = i)) as [->|].
    + exists (clock s). split; [apply lookup_insert_eq|]. intros v t'.
      rewrite lookup_insert. case_decide; intros E; simplify_eq; [done|]. apply Hk in E. lia.
    + destruct (Hc j Hj) as (t & Hb & Hl). exists t. split.
      * rewrite lookup_insert_ne; [done|congruence].
      * intros v t'. rewrite lookup_insert. case_decide; intros E; simplify_eq. by apply (Hl v).
  - intros v k t. rewrite lookup_insert. case_decide; intros E; simplify_eq; [lia|]. apply Hk in E. lia.
  - intros v w k t. rewrite !lookup_insert. intros E1 E2. repeat case_decide; simplify_eq; try done; [..|by eapply Ht];
      match goal with E : born s !! _ = _ |- _ => apply Hk in E; lia end.
  - intros j Hj. unfold upd. destruct (decide (j = i)) as [->|]; [apply started_inv|].
    apply (node_inv_later s); auto.
Qed.

Lemma fleet_step_inv image s a s' : fleet_inv s -> step image s a = Some s' -> fleet_inv s'.
Proof.
  intros H. pose proof (inv_nodes s H) as Hn. destruct a as [i k|i|i|i|i|i u]; simpl.
  - case_decide as E; [|done]. intros [= <-]. apply with_node_inv; [done|lia|apply fetch_inv; tauto|done..].
  - case_decide as E; [|done]. intros (resps & HM & HR)%bind_Some. apply fmap_Some in HR as (n' & HR & ->).
    destruct (run_round_keeps _ _ _ HR) as (Hu & HV & HP). apply with_node_inv; auto. eapply round_inv; eauto.
  - case_decide as E; [|done]. destruct E as [Hi Ep]. intros [= <-]. apply with_node_inv; auto.
    destruct (Hn i Hi) as [HV Hb Hp Hg Hs]. unfold phase_ok in Hp. rewrite Ep in Hp. by split.
  - case_decide as E; [|done]. intros [= <-]. apply with_node_inv; auto. destruct (Hn i E) as [HV Hb Hp Hg Hs]. by split.
  - case_decide as E; [|done]. intros [= <-]. apply with_node_inv; auto. destruct (Hn i E) as [HV Hb Hp Hg Hs].
    split; try done. intros Hr. by apply (node_ready_passed s i (nodes s i)).
  - case_decide as E; [|done]. intros [= <-]. apply restart_inv; tauto.
Qed.

Lemma run_inv image l s s' : fleet_inv s -> run image s l = Some s' -> fleet_inv s'.
Proof.
  revert s; induction l as [|a l IH]; simpl; intros s H E; [by simplify_eq|].
  apply bind_Some in E as (s1 & E1 & E2). eapply IH; [|done]. by eapply fleet_step_inv.
Qed.

Lemma fleet_new_inv u0 u1 u2 : NoDup [u0; u1; u2] -> fleet_inv (fleet_new u0 u1 u2).
Proof.
  intros Hd. apply NoDup_cons in Hd as [H0 Hd]. apply NoDup_cons in Hd as [H1 _].
  assert (Hl : forall v k t, born (fleet_new u0 u1 u2) !! v = Some (k, t) <->
    ((v = u0 /\ k = 0 /\ t = 0) \/ (v = u1 /\ k = 1 /\ t = 1) \/ (v = u2 /\ k = 2 /\ t = 2))%nat).
  { intros v k t. simpl. rewrite !lookup_insert, lookup_singleton. rewrite not_elem_of_cons in H0. repeat case_decide; subst; set_solver. }
  split.
  - intros i Hi. exists i. split; [apply Hl | intros v t' Hv; apply Hl in Hv; lia].
    destruct i as [|[|[|]]]; simpl; first [tauto | lia].
  - intros v k t Hv. apply Hl in Hv. simpl. lia.
  - intros v w k t Hv Hw. apply Hl in Hv, Hw. destruct Hv as [|[|]], Hw as [|[|]]; naive_solver lia.
  - intros i _. apply started_inv.
Qed.

(** ** Lemmas: agreement *)

Lemma generation_total s i n : (i < 3)%nat -> generation_ok s i n ->
  exists f : nat -> string, f i = n_uuid n /\ n_generation n = list_to_set (f <$> seq 0 3) /\
    forall k, k ∈ peers_of i ->
      latest s (n_verified n) k (f k) /\ f k ∈ n_verified n /\ knows s k (f k) (n_generation n ∖ {[f k]}).
Proof.
  intros Hi (f & E & H). exists (fun k => if decide (k = i) then n_uuid n else f k).
  split; [by rewrite decide_True|]. split.
  - rewrite E. destruct i as [|[|[|]]]; [..|lia]; simpl; set_solver.
  - intros k Hk. rewrite decide_False; [by apply H|]. apply peers_of_spec in Hk. lia.
Qed.

Lemma latest_le s V k u v t : latest s V k u -> v ∈ V -> born s !! v = Some (k, t) ->
  exists t', born s !! u = Some (k, t') /\ (t <= t')%nat.
Proof. intros (t' & Hu & Ht) Hv Hb. exists t'. split; [done|]. by apply (Ht v). Qed.

(** The latest uuid of a node that a set with its current one holds. *)
Lemma latest_current s V k u : fleet_inv s -> (k < 3)%nat -> latest s V k u -> n_uuid (nodes s k) ∈ V -> u = n_uuid (nodes s k).
Proof.
  intros H Hk Hl Hv. destruct (inv_current s H k Hk) as (t & Hc & Ht).
  destruct (latest_le _ _ _ _ _ _ Hl Hv Hc) as (t' & Hu & Hle). pose proof (Ht _ _ Hu).
  assert (t = t') as -> by lia. by eapply (inv_times s H).
Qed.

Lemma latest_mutual s V W k u v : fleet_inv s -> latest s V k u -> latest s W k v -> u ∈ W -> v ∈ V -> u = v.
Proof.
  intros H Hu Hv HuW HvV. destruct (latest_born _ _ _ _ Hu) as [t Ht], (latest_born _ _ _ _ Hv) as [t' Ht'].
  destruct (latest_le _ _ _ _ _ _ Hu HvV Ht') as (? & ? & ?), (latest_le _ _ _ _ _ _ Hv HuW Ht) as (? & ? & ?).
  simplify_eq. assert (t = t') as -> by lia. by eapply (inv_times s H).
Qed.

Lemma elem_of_generation (f : nat -> string) v : v ∈ (list_to_set (f <$> seq 0 3) : uuids) <-> exists k, (k < 3)%nat /\ v = f k.
Proof. rewrite elem_of_list_to_set, list_elem_of_fmap. setoid_rewrite elem_of_seq. naive_solver lia. Qed.

(** A uuid of node [k] in a generation is the one at [k]. *)
Lemma generation_owner s i n f k t :
  fleet_inv s -> (i < 3)%nat -> n = nodes s i -> f i = n_uuid n -> (forall k, k ∈ peers_of i -> latest s (n_verified n) k (f k)) ->
  forall v, v ∈ (list_to_set (f <$> seq 0 3) : uuids) -> born s !! v = Some (k, t) -> v = f k.
Proof.
  intros H Hi -> Hf Hl v Hv Hb. apply elem_of_generation in Hv as (l & Hl3 & ->).
  destruct (decide (l = i)) as [->|Hn].
  - destruct (inv_current s H i Hi) as (t' & Ht' & _). congruence.
  - destruct (latest_born _ _ _ _ (Hl l ltac:(apply peers_of_spec; lia))) as [t' Ht']. congruence.
Qed.

Lemma generations_agree s i j :
  fleet_inv s -> (i < 3)%nat -> (j < 3)%nat -> passed (nodes s i) = true -> passed (nodes s j) = true ->
  n_uuid (nodes s j) ∈ n_generation (nodes s i) -> n_generation (nodes s i) = n_generation (nodes s j).
Proof.
  intros H Hi Hj Pi Pj Hin. destruct (decide (i = j)) as [->|Hij]; [done|].
  destruct (generation_total s i _ Hi (node_generation _ _ _ (inv_nodes s H i Hi) Pi)) as (f & Fi & EG & HF).
  destruct (generation_total s j _ Hj (node_generation _ _ _ (inv_nodes s H j Hj) Pj)) as (f' & Fj & EG' & HF').
  destruct (inv_current s H i Hi) as (ti & Hti & _), (inv_current s H j Hj) as (tj & Htj & _).
  assert (Hji : j ∈ peers_of i) by (apply peers_of_spec; lia).
  assert (Hij' : i ∈ peers_of j) by (apply peers_of_spec; lia).
  assert (Efj : f j = n_uuid (nodes s j)).
  { symmetry. apply (generation_owner s i _ f j tj H Hi eq_refl Fi (fun k Hk => proj1 (HF k Hk))); [by rewrite <- EG|done]. }
  destruct (HF j Hji) as (_ & _ & Kj). specialize (Kj (eq_sym Efj)).
  assert (In : forall k, (k < 3)%nat -> f k ∈ n_generation (nodes s i)) by (intros k Hk; rewrite EG; apply elem_of_generation; eauto).
  assert (In' : forall k, (k < 3)%nat -> f' k ∈ n_generation (nodes s j)) by (intros k Hk; rewrite EG'; apply elem_of_generation; eauto).
  assert (Efi : f' i = n_uuid (nodes s i)).
  { apply (latest_current s (n_verified (nodes s j))); [done|done|apply HF'; done|].
    apply Kj. apply elem_of_difference. split; [rewrite <- Fi; auto|]. rewrite not_elem_of_singleton. congruence. }
  destruct (HF' i Hij') as (_ & _ & Ki). specialize (Ki (eq_sym Efi)).
  rewrite EG, EG'. f_equal. apply list_fmap_ext. intros l k Hk. apply lookup_seq in Hk as [-> Hk]. simpl.
  destruct (decide (l = i)) as [->|Hli]; [congruence|]. destruct (decide (l = j)) as [->|Hlj]; [congruence|].
  destruct (HF l) as (L & _ & _); [apply peers_of_spec; lia|]. destruct (HF' l) as (L' & _ & _); [apply peers_of_spec; lia|].
  destruct (latest_born _ _ _ _ L) as [t Ht], (latest_born _ _ _ _ L') as [t' Ht'].
  apply (latest_mutual s _ _ l _ _ H L L').
  - apply Kj. apply elem_of_difference. split; [auto|]. rewrite not_elem_of_singleton. congruence.
  - apply Ki. apply elem_of_difference. split; [auto|]. rewrite not_elem_of_singleton. congruence.
Qed.

Lemma generation_visible s i j :
  fleet_inv s -> (i < 3)%nat -> (j < 3)%nat -> passed (nodes s i) = true -> n_uuid (nodes s j) ∈ n_generation (nodes s i) ->
  n_generation (nodes s i) ∖ {[n_uuid (nodes s j)]} ⊆ n_verified (nodes s j).
Proof.
  intros H Hi Hj Pi Hin.
  destruct (generation_total s i _ Hi (node_generation _ _ _ (inv_nodes s H i Hi) Pi)) as (f & Fi & EG & HF).
  destruct (inv_current s H j Hj) as (tj & Htj & _).
  assert (Efj : n_uuid (nodes s j) = f j).
  { apply (generation_owner s i _ f j tj H Hi eq_refl Fi (fun k Hk => proj1 (HF k Hk))); [by rewrite <- EG|done]. }
  destruct (decide (j = i)) as [->|Hji].
  - intros v [Hv Hn]%elem_of_difference. rewrite EG in Hv. apply elem_of_generation in Hv as (k & Hk & ->).
    destruct (decide (k = i)) as [->|]; [set_solver|]. destruct (HF k) as (_ & Hv & _); [apply peers_of_spec; lia|done].
  - destruct (HF j) as (_ & _ & K); [apply peers_of_spec; lia|]. rewrite Efj. by apply K.
Qed.

(** A generation that holds the current uuids is the set of these. *)
Lemma generation_current s i :
  fleet_inv s -> (i < 3)%nat -> passed (nodes s i) = true ->
  (forall k, (k < 3)%nat -> n_uuid (nodes s k) ∈ n_generation (nodes s i)) ->
  n_generation (nodes s i) = list_to_set ((fun k => n_uuid (nodes s k)) <$> seq 0 3) /\
  forall k, k ∈ peers_of i -> n_uuid (nodes s k) ∈ n_verified (nodes s i).
Proof.
  intros H Hi Pi Hc.
  destruct (generation_total s i _ Hi (node_generation _ _ _ (inv_nodes s H i Hi) Pi)) as (f & Fi & EG & HF).
  assert (Ef : forall k, (k < 3)%nat -> n_uuid (nodes s k) = f k).
  { intros k Hk. destruct (inv_current s H k Hk) as (t & Ht & _).
    apply (generation_owner s i _ f k t H Hi eq_refl Fi (fun k Hk => proj1 (HF k Hk))); [rewrite <- EG; auto|done]. }
  split.
  - rewrite EG. f_equal. apply list_fmap_ext. intros l k Hk. apply lookup_seq in Hk as [-> Hk]. simpl. symmetry. by apply Ef.
  - intros k Hk. rewrite Ef by (apply peers_of_spec in Hk; lia).
    by destruct (HF k Hk) as (_ & Hv & _).
Qed.

(** ** Claims *)

(** C20: nodes that start, restart and query each other in any order agree on who
    takes part.  When node [i] has passed the startup barriers and node [j] still
    runs under the uuid that [i] saw, [j] has verified every other uuid [i] saw;
    and when [j] has passed the barriers as well, both have seen the very same
    three uuids, even if the third node was restarted between their queries. *)
Theorem startup_barrier_agreement (image u0 u1 u2 : string) (l : list action) (s : fleet) (i j : nat)
  (Hu : NoDup [u0; u1; u2]) (Hs : run image (fleet_new u0 u1 u2) l = Some s) (Hi : (i < 3)%nat) (Hj : (j < 3)%nat)
  (Pi : passed (nodes s i) = true) (Hin : n_uuid (nodes s j) ∈ n_generation (nodes s i)) :
  n_generation (nodes s i) ∖ {[n_uuid (nodes s j)]} ⊆ n_verified (nodes s j) /\
  (passed (nodes s j) = true -> n_generation (nodes s i) = n_generation (nodes s j)).
Proof.
  pose proof (run_inv _ _ _ _ (fleet_new_inv _ _ _ Hu) Hs) as H.
  split; [by apply generation_visible | by intros Pj; apply generations_agree].
Qed.

(** when one node serves, having waited for the others to be ready, and no
    node has been restarted since it passed the barriers, then all three nodes
    have passed the barriers, with the same set of participants, which is the set
    of the three uuids now running, and each has verified the two others. *)
Theorem startup_complete (image u0 u1 u2 : string) (l : list action) (s : fleet) (i : nat)
  (Hu : NoDup [u0; u1; u2]) (Hs : run image (fleet_new u0 u1 u2) l = Some s) (Hi : (i < 3)%nat)
  (Pi : n_phase (nodes s i) = Serving)
  (Hin : forall k, (k < 3)%nat -> n_uuid (nodes s k) ∈ n_generation (nodes s i)) :
  forall k, (k < 3)%nat ->
    passed (nodes s k) = true /\
    n_generation (nodes s k) = list_to_set ((fun k => n_uuid (nodes s k)) <$> seq 0 3) /\
    n_generation (nodes s k) ∖ {[n_uuid (nodes s k)]} ⊆ n_verified (nodes s k).
Proof.
  pose proof (run_inv _ _ _ _ (fleet_new_inv _ _ _ Hu) Hs) as H. pose proof (inv_nodes s H i Hi) as Hn.
  assert (P : passed (nodes s i) = true) by (pose proof (node_phase _ _ _ Hn) as E; unfold phase_ok in E; by rewrite Pi in E).
  destruct (generation_current s i H Hi P Hin) as [EG HV].
  intros k Hk. assert (Pk : passed (nodes s k) = true).
  { destruct (decide (k = i)) as [->|]; [done|]. assert (Hp : k ∈ peers_of i) by (apply peers_of_spec; lia).
    destruct (node_serving _ _ _ Hn k Pi Hp) as (u & Hu' & Hl & Hp'). apply Hp'.
    symmetry. by apply (latest_current s (n_verified (nodes s i))); auto. }
  pose proof (generations_agree s i k H Hi Hk P Pk (Hin k Hk)) as E.
  split; [done|]. rewrite <- E. split; [done|]. apply generation_visible; auto.
Qed.

(** ** Witnesses *)

Definition demo_query (i : nat) : list action := (Fetch i <$> peers_of i) ++ [Round i].

(** Node 2 restarts while the others wait; then all pass, and serve. *)
Definition demo_startup : list action :=
  demo_query 0 ++ [Restart 2 "d"] ++ concat (demo_query <$> [1; 2; 0; 1; 2])%nat.
Definition demo_serve : list action :=
  [SetReady 0; SetReady 1; SetReady 2]%nat ++ concat (demo_query <$> [0; 1; 2])%nat.

Definition demo_fleet (l : list action) : fleet := default (fleet_new "" "" "") (run "image" (fleet_new "a" "b" "c") l).

Lemma demo_uuids : NoDup ["a"; "b"; "c"].
Proof. by apply (bool_decide_unpack _). Qed.

Lemma demo_fleet_runs l :
  match run "image" (fleet_new "a" "b" "c") l with Some _ => true | None => false end = true ->
  run "image" (fleet_new "a" "b" "c") l = Some (demo_fleet l).
Proof. unfold demo_fleet. by destruct (run _ _ l). Qed.

Lemma demo_startup_runs : run "image" (fleet_new "a" "b" "c") demo_startup = Some (demo_fleet demo_startup).
Proof. apply demo_fleet_runs. vm_compute. reflexivity. Qed.

Lemma demo_serve_runs : run "image" (fleet_new "a" "b" "c") (demo_startup ++ demo_serve) = Some (demo_fleet (demo_startup ++ demo_serve)).
Proof. apply demo_fleet_runs. vm_compute. reflexivity. Qed.

Lemma startup_barrier_agreement_witness :
  n_generation (nodes (demo_fleet demo_startup) 0) = n_generation (nodes (demo_fleet demo_startup) 2).
Proof.
  apply (startup_barrier_agreement "image" "a" "b" "c" demo_startup (demo_fleet demo_startup) 0 2);
    [exact demo_uuids | exact demo_startup_runs | lia | lia | vm_compute; reflexivity | | vm_compute; reflexivity].
  apply (bool_decide_unpack _). vm_compute. exact I.
Defined.

Lemma startup_complete_witness :
  passed (nodes (demo_fleet (demo_startup ++ demo_serve)) 2) = true.
Proof.
  apply (startup_complete "image" "a" "b" "c" (demo_startup ++ demo_serve) (demo_fleet (demo_startup ++ demo_serve)) 0);
    [exact demo_uuids | exact demo_serve_runs | lia | vm_compute; reflexivity | | lia].
  intros [|[|[|k]]] Hk; [..|lia]; apply (bool_decide_unpack _); vm_compute; exact I.
Defined.
