(* ===== verification/BatchSync.v ===== *)
(** * BatchSync: [batch_sync.rs], [startup_sync.rs] and [gallery_sync.rs] of
    [ampc-server-utils/src]

    Three nodes ask each other for their view of the next batch, of the requests
    in it they accept, of their configuration and of their database, and go on
    with what they have in common.  An endpoint is a function of the state it
    serves; a client is a loop over the attempts it makes before its time is up.
    The theorems say that the three nodes come to the same result. *)

From S2P Require Import Prelude Heartbeat Startup Modifications.
From stdpp Require Import base list numbers strings option gmap sets.
From Stdlib Require Import ZArith Lia.
Local Open Scope Z_scope.

(** ** Batches *)

(* batch_sync.rs:23-26 BatchSyncSharedState *)
Record BatchSyncSharedState := mkShared { shared_batch_id : Z; shared_messages_to_poll : Z }.

(* batch_sync.rs:30-33 BatchSyncState *)
Record BatchSyncState := mkBatch { messages_to_poll : Z; batch_id : Z }.

(* batch_sync.rs:37-40 BatchSyncEntries *)
Record BatchSyncEntries := mkEntries { valid_entries : list bool; batch_sha : list Z }.

(** The body of a response, as far as a client can parse it. *)
Inductive body (A : Type) := Json (x : A) | Text (msg : string).
Arguments Json {A}. Arguments Text {A}.

Definition from_body {A} (b : body A) : option A := match b with Json x => Some x | Text _ => None end.

(* batch_sync.rs:124-160 batch_sync_routes (batch-sync-state) *)
Definition serve_batch_sync_state (shared : BatchSyncSharedState) (requested : Z) : Z * body BatchSyncState :=
  if negb (requested =? shared_batch_id shared) then (409, Text "Batch ID mismatch")
  else (200, Json (mkBatch (shared_messages_to_poll shared) (shared_batch_id shared))).

(** The two global variables, read together. *)
(* batch_sync.rs:515-527 get_own_batch_sync_entries *)
Definition get_own_batch_sync_entries (current_batch_valid_entries : list bool) (current_batch_sha : list Z) : BatchSyncEntries :=
  mkEntries current_batch_valid_entries current_batch_sha.

(* batch_sync.rs:161-177 batch_sync_routes (batch-sync-entries) *)
Definition serve_batch_sync_entries (current_batch_valid_entries : list bool) (current_batch_sha : list Z) : Z * body BatchSyncEntries :=
  (200, Json (get_own_batch_sync_entries current_batch_valid_entries current_batch_sha)).

Definition is_success (status : Z) : bool := (200 <=? status) && (status <? 300).

(** How an attempt ends: no response, or a status and a body. *)
Abbreviation reply A := (option (Z * body A)).

(** The polling loop for one party: the first response that is accepted; [None]:
    the time is up. *)
(* batch_sync.rs:231-309 get_batch_sync_states (loop) *)
Fixpoint poll_batch_sync_state (reference_batch_id : Z) (attempts : list (reply BatchSyncState)) : option BatchSyncState :=
  match attempts with
  | [] => None
  | None :: attempts => poll_batch_sync_state reference_batch_id attempts
  | Some (status, b) :: attempts =>
      if negb (is_success status) then poll_batch_sync_state reference_batch_id attempts
      else match from_body b with
      | None => poll_batch_sync_state reference_batch_id attempts
      | Some state =>
          if batch_id state <? reference_batch_id then poll_batch_sync_state reference_batch_id attempts else Some state
      end
  end.

(** The own state first, then the two others; the reason of a timeout is left out
    of the error. *)
(* batch_sync.rs:197-363 get_batch_sync_states *)
Definition get_batch_sync_states (own_state : option BatchSyncState) (next prev : list (reply BatchSyncState)) : result (list BatchSyncState) :=
  own_sync_state ← ok_or own_state "own_state must be provided";
  let reference_batch_id := batch_id own_sync_state in
  s1 ← ok_or (poll_batch_sync_state reference_batch_id next) "Timeout waiting for party to reach batch_id";
  s2 ← ok_or (poll_batch_sync_state reference_batch_id prev) "Timeout waiting for party to reach batch_id";
  Ok [own_sync_state; s1; s2].

(* batch_sync.rs:405-469 get_batch_sync_entries (loop) *)
Fixpoint poll_batch_sync_entries (own_sha : list Z) (attempts : list (reply BatchSyncEntries)) : option BatchSyncEntries :=
  match attempts with
  | [] => None
  | None :: attempts => poll_batch_sync_entries own_sha attempts
  | Some (status, b) :: attempts =>
      if negb (is_success status) then poll_batch_sync_entries own_sha attempts
      else match from_body b with
      | None => poll_batch_sync_entries own_sha attempts
      | Some state =>
          if negb (bool_decide (batch_sha state = own_sha)) then poll_batch_sync_entries own_sha attempts else Some state
      end
  end.

(* batch_sync.rs:376-513 get_batch_sync_entries *)
Definition get_batch_sync_entries (own_state : option BatchSyncEntries) (next prev : list (reply BatchSyncEntries)) : result (list BatchSyncEntries) :=
  own_sync_state ← ok_or own_state "own_state must be provided";
  s1 ← ok_or (poll_batch_sync_entries (batch_sha own_sync_state) next) "Timeout waiting for party to reach batch hash";
  s2 ← ok_or (poll_batch_sync_entries (batch_sha own_sync_state) prev) "Timeout waiting for party to reach batch hash";
  Ok [own_sync_state; s1; s2].

(** The [min] of the counts, 0 when there are none. *)
(* batch_sync.rs:108-114 BatchSyncResult::messages_to_poll *)
Definition result_messages_to_poll (all_states : list BatchSyncState) : Z :=
  match messages_to_poll <$> all_states with [] => 0 | m :: ms => foldl Z.min m ms end.

(* batch_sync.rs:57-61 BatchSyncEntriesResult::sha_matches *)
Definition sha_matches (my_state : BatchSyncEntries) (all_states : list BatchSyncEntries) : bool :=
  forallb (fun s => bool_decide (batch_sha s = batch_sha my_state)) all_states.

(** The closure of the fold: [acc[i] = false] where the entry is false; out of
    range it panics. *)
(* batch_sync.rs:69-76 BatchSyncEntriesResult::valid_entries (one state) *)
Fixpoint clear_entries (acc : list bool) (i : nat) (entries : list bool) : result (list bool) :=
  match entries with
  | [] => Ok acc
  | entry :: entries =>
      if negb entry
      then if (i <? length acc)%nat then clear_entries (<[i := false]> acc) (S i) entries else panic "index out of bounds"
      else clear_entries acc (S i) entries
  end.

(* batch_sync.rs:63-78 BatchSyncEntriesResult::valid_entries *)
Definition result_valid_entries (my_state : BatchSyncEntries) (all_states : list BatchSyncEntries) : result (list bool) :=
  foldl (fun acc s => a ← acc; clear_entries a 0 (valid_entries s))
    (Ok (replicate (length (valid_entries my_state)) true)) all_states.

(** ** Startup state *)

(* startup_sync.rs:6-11 StartupSyncState *)
Record StartupSyncState (C : Type) := mkStartup {
  db_len : Z;
  next_sns_sequence_num : option Z;
  common_config : C;
  modifications : list Modification;
}.
Arguments mkStartup {C}. Arguments db_len {C}. Arguments next_sns_sequence_num {C}.
Arguments common_config {C}. Arguments modifications {C}.

(** [Option]'s order: [None] is the least. *)
Definition option_max (a b : option Z) : option Z :=
  match a, b with
  | Some x, Some y => Some (Z.max x y)
  | None, o | o, None => o
  end.

(* startup_sync.rs:80-103 StartupSyncResult::max_sns_sequence_num *)
Definition max_sns_sequence_num {C} (all_states : list (StartupSyncState C)) : result (option Z) :=
  let sequence_nums := next_sns_sequence_num <$> all_states in
  let any_empty_queues := existsb (fun q => bool_decide (q = None)) sequence_nums in
  let any_non_empty_queues := existsb (fun q => negb (bool_decide (q = None))) sequence_nums in
  if any_empty_queues && any_non_empty_queues then panic "Can not deduce max SNS sequence number safely. Restarting..."
  else match sequence_nums with [] => panic "can get max u128 value" | q :: qs => Ok (foldl option_max q qs) end.

(* startup_sync.rs:106-122 StartupSyncResult::check_common_config *)
Fixpoint check_common_config {C} `{EqDecision C} (my_state : StartupSyncState C) (all_states : list (StartupSyncState C)) : result unit :=
  match all_states with
  | [] => Ok tt
  | s :: all_states =>
      if bool_decide (common_config my_state = common_config s) then check_common_config my_state all_states
      else bail "Inconsistent common config!"
  end.

(* server_coordination.rs:739-755 get_others_sync_state *)
Definition get_others_sync_state {B C} (from_slice : B -> option (StartupSyncState C)) (attempts : string -> list (attempt B))
    (config : ServerCoordinationConfig) : result (list (StartupSyncState C)) :=
  connected_and_ready ← try_get_endpoint_other_nodes attempts config "startup-sync";
  mapM_result (fun r => ok_or (from_slice r.2) "Failed to deserialize sync state") connected_and_ready.

(** ** Galleries *)

(* gallery_sync.rs:10-14 GalleryState *)
Record GalleryState := mkGallery { gallery_db_len : Z; next_available_serial_id : Z; serial_ids_digest : list Z }.

#[export] Instance GalleryState_eq_dec : EqDecision GalleryState.
Proof. solve_decision. Defined.

(* gallery_sync.rs:17-28 ensure_gallery_consistency *)
Fixpoint ensure_gallery_consistency (local : GalleryState) (peers : list (nat * GalleryState)) : result unit :=
  match peers with
  | [] => Ok tt
  | (party, peer) :: peers =>
      if bool_decide (local = peer) then ensure_gallery_consistency local peers else bail "Gallery mismatch with party"
  end.

(* gallery_sync.rs:31-37 ensure_gallery_unchanged *)
Definition ensure_gallery_unchanged (before after : GalleryState) : result unit :=
  if bool_decide (before = after) then Ok tt else bail "Gallery changed during startup loading".

(* gallery_sync.rs:45-54 GallerySync::routes *)
Definition serve_gallery (published : option GalleryState) : Z * body GalleryState :=
  match published with Some s => (200, Json s) | None => (503, Text "") end.

(** The loop of [check]: queries are repeated until no peer is unavailable.
    [None]: the time is up. *)
(* gallery_sync.rs:63-88 GallerySync::check (loop) *)
Fixpoint gather_gallery (rounds : list (result (list (Z * body GalleryState)))) : option (result (list (Z * body GalleryState))) :=
  match rounds with
  | [] => None
  | Err e :: _ => Some (Err e)
  | Ok responses :: rounds =>
      if forallb (fun r => negb (r.1 =? 503)) responses then Some (Ok responses) else gather_gallery rounds
  end.

(* gallery_sync.rs:89-98 GallerySync::check (comparison) *)
Fixpoint check_responses (local : GalleryState) (responses : list (nat * (Z * body GalleryState))) : result unit :=
  match responses with
  | [] => Ok tt
  | (party, (status, b)) :: responses =>
      if negb (is_success status) then bail "Party returned an error for post-recovery gallery state"
      else peer ← ok_or (from_body b) "Invalid gallery state from party";
           _ ← ensure_gallery_consistency local [(party, peer)];
           check_responses local responses
  end.

(** The state that is published, and the result. *)
(* gallery_sync.rs:57-100 GallerySync::check *)
Definition gallery_check (party_id : nat) (local : GalleryState) (rounds : list (result (list (Z * body GalleryState)))) : option GalleryState * result unit :=
  (Some local,
   responses ← match gather_gallery rounds with
               | None => bail "Timed out gathering post-recovery gallery state"
               | Some r => r
               end;
   let parties := filter (fun party => party <> party_id) (seq 0 3) in
   check_responses local (zip parties responses)).

(** ** Lemmas: batches *)

(** What a peer answers: nothing, or a text (an error page, or a body that does
    not parse), or what its endpoint serves from a state it has had.  [m b] is the
    count the peer publishes for batch [b]. *)
Inductive state_reply (m : Z -> Z) (requested : Z) : reply BatchSyncState -> Prop :=
| state_none : state_reply m requested None
| state_text status msg : state_reply m requested (Some (status, Text msg))
| state_served shared :
    (shared_batch_id shared = requested -> shared_messages_to_poll shared = m requested) ->
    state_reply m requested (Some (serve_batch_sync_state shared requested)).

Inductive entries_reply (E : list Z -> list bool) : reply BatchSyncEntries -> Prop :=
| entries_none : entries_reply E None
| entries_text status msg : entries_reply E (Some (status, Text msg))
| entries_served sha : entries_reply E (Some (serve_batch_sync_entries (E sha) sha)).

(** A state that is accepted is that of the batch asked for. *)
Lemma poll_batch_sync_state_spec m b attempts s :
  Forall (state_reply m b) attempts -> poll_batch_sync_state b attempts = Some s -> s = mkBatch (m b) b.
Proof.
  induction 1 as [|x attempts Hx _ IH]; simpl; [done|].
  destruct Hx as [|status msg|shared Hs]; [done|by destruct (is_success status)|].
  unfold serve_batch_sync_state. destruct (Z.eqb_spec b (shared_batch_id shared)) as [->|]; simpl; [|done].
  rewrite Z.ltb_irrefl. intros [= <-]. by rewrite Hs.
Qed.

Lemma poll_batch_sync_entries_spec E sha attempts s :
  Forall (entries_reply E) attempts -> poll_batch_sync_entries sha attempts = Some s -> s = mkEntries (E sha) sha.
Proof.
  induction 1 as [|x attempts Hx _ IH]; simpl; [done|].
  destruct Hx as [|status msg|sha']; [done|by destruct (is_success status)|].
  simpl. case_bool_decide as Es; simpl; [|done]. intros [= <-]. by subst.
Qed.

Lemma bind_Ok {A B} (f : A -> result B) (m : result A) y : (x ← m; f x) = Ok y -> exists x, m = Ok x /\ f x = Ok y.
Proof. destruct m as [x|]; [by exists x|done]. Qed.

Lemma ok_or_Ok {A} (o : option A) msg x : ok_or o msg = Ok x -> o = Some x.
Proof. destruct o; simpl; [by intros [= ->]|done]. Qed.

Lemma clear_entries_app pre acc entries :
  length acc = length entries -> clear_entries (pre ++ acc) (length pre) entries = Ok (pre ++ zip_with andb acc entries).
Proof.
  revert pre acc; induction entries as [|e entries IH]; intros pre [|a acc] Hl; simpl in *; try done.
  destruct e; simpl.
  - rewrite andb_true_r. specialize (IH (pre ++ [a]) acc ltac:(lia)).
    rewrite length_app, Nat.add_1_r, <- !app_assoc in IH. done.
  - rewrite (proj2 (Nat.ltb_lt _ _)) by (rewrite length_app; simpl; lia).
    rewrite insert_app_r_alt, Nat.sub_diag by lia. simpl. rewrite andb_false_r.
    specialize (IH (pre ++ [false]) acc ltac:(lia)). rewrite length_app, Nat.add_1_r, <- !app_assoc in IH. done.
Qed.

Lemma clear_entries_spec acc entries :
  length acc = length entries -> clear_entries acc 0 entries = Ok (zip_with andb acc entries).
Proof. apply (clear_entries_app []). Qed.

(** An entry that is false and beyond the own entries is an index out of range. *)
Lemma clear_entries_panics acc i entries k :
  entries !! k = Some false -> (length acc <= i + k)%nat -> clear_entries acc i entries = panic "index out of bounds".
Proof.
  revert acc i k; induction entries as [|e entries IH]; intros acc i k Hk Hl; [done|].
  destruct k as [|k]; simpl in Hk.
  - simplify_eq. simpl. by rewrite (proj2 (Nat.ltb_ge _ _)) by lia.
  - destruct e; simpl; [by eapply IH; [done|lia]|].
    destruct (_ <? _)%nat; [|done]. eapply IH; [done|]. rewrite length_insert. lia.
Qed.

Lemma zip_with_andb_true l : zip_with andb (replicate (length l) true) l = l.
Proof. induction l as [|x l IH]; simpl; [done|]. by rewrite IH. Qed.

Lemma result_valid_entries_spec my a b c :
  length (valid_entries a) = length (valid_entries my) -> length (valid_entries b) = length (valid_entries my) ->
  length (valid_entries c) = length (valid_entries my) ->
  result_valid_entries my [a; b; c] =
  Ok (zip_with andb (zip_with andb (valid_entries a) (valid_entries b)) (valid_entries c)).
Proof.
  intros Ha Hb Hc. unfold result_valid_entries. simpl. rewrite <- Ha.
  rewrite clear_entries_spec by (by rewrite length_replicate). simpl. rewrite zip_with_andb_true.
  rewrite clear_entries_spec by congruence. simpl.
  rewrite clear_entries_spec; [done|]. rewrite length_zip_with. lia.
Qed.

Lemma zip_andb_comm l k : zip_with andb l k = zip_with andb k l.
Proof. revert k; induction l as [|x l IH]; intros [|y k]; simpl; [done..|]. by rewrite IH, andb_comm. Qed.
Lemma zip_andb_assoc l k m : zip_with andb (zip_with andb l k) m = zip_with andb l (zip_with andb k m).
Proof. revert k m; induction l as [|x l IH]; intros [|y k] [|z m]; simpl; [done..|]. by rewrite IH, andb_assoc. Qed.

(** ** Lemmas: startup state and galleries *)

Lemma foldl_option_max q qs :
  (forall x, x ∈ q :: qs -> x <> None) ->
  exists m, foldl option_max q qs = Some m /\ Some m ∈ q :: qs /\ forall x, Some x ∈ q :: qs -> x <= m.
Proof.
  revert q; induction qs as [|q' qs IH]; intros q H; simpl.
  - destruct q as [m|]; [|by destruct (H None); set_solver]. exists m. split; [done|]. split; [set_solver|].
    intros x Hx. apply list_elem_of_singleton in Hx. simplify_eq. lia.
  - destruct q as [a|]; [|by destruct (H None); set_solver]. destruct q' as [b|]; [|by destruct (H None); set_solver].
    destruct (IH (Some (Z.max a b))) as (m & Hm & Hin & Hmax); [set_solver|]. exists m. split; [done|]. split.
    + apply elem_of_cons in Hin as [[= ->]|Hin]; [|set_solver].
      destruct (Z.max_spec a b) as [[_ ->]|[_ ->]]; set_solver.
    + intros x Hx. pose proof (Hmax (Z.max a b) ltac:(set_solver)).
      apply elem_of_cons in Hx as [[= ->]|Hx]; [lia|]. apply elem_of_cons in Hx as [[= ->]|Hx]; [lia|]. apply Hmax. set_solver.
Qed.

(** Either all queues are empty, or none is and the result is the greatest head;
    a mixture panics. *)
Lemma max_sns_sequence_num_spec {C} (all_states : list (StartupSyncState C)) r :
  max_sns_sequence_num all_states = Ok r ->
  match r with
  | None => Forall (fun s => next_sns_sequence_num s = None) all_states
  | Some m => Forall (fun s => exists x, next_sns_sequence_num s = Some x /\ x <= m) all_states /\
              Exists (fun s => next_sns_sequence_num s = Some m) all_states
  end.
Proof.
  unfold max_sns_sequence_num.
  destruct (existsb (fun q => bool_decide (q = None)) _) eqn:E1, (existsb (fun q => negb (bool_decide (q = None))) _) eqn:E2; [done|..]; cbn [andb].
  - assert (HF : Forall (fun s => next_sns_sequence_num s = None) all_states).
    { apply Forall_forall. intros s Hs. destruct (next_sns_sequence_num s) eqn:Es; [|done].
      apply not_true_iff_false in E2. destruct E2. apply existsb_exists. exists (next_sns_sequence_num s).
      rewrite <- list_elem_of_In, Es. split; [rewrite <- Es; by apply list_elem_of_fmap_2|done]. }
    destruct all_states as [|s ss]; [done|]. rewrite fmap_cons. intros [= <-].
    apply Forall_cons in HF as HF'. destruct HF' as [-> HF'].
    assert (En : foldl option_max None (next_sns_sequence_num <$> ss) = None).
    { clear -HF'. induction HF' as [|s ss Hs _ IH]; simpl; [done|]. by rewrite Hs. }
    by rewrite En.
  - assert (HF : forall x, x ∈ next_sns_sequence_num <$> all_states -> x <> None).
    { intros x Hx ->. apply not_true_iff_false in E1. destruct E1. apply existsb_exists. exists None.
      by rewrite <- list_elem_of_In. }
    destruct all_states as [|s ss]; [done|]. rewrite fmap_cons in *. intros [= <-].
    destruct (foldl_option_max _ _ HF) as (m & -> & Hin & Hmax). split.
    + apply Forall_forall. intros s' Hs'. apply (list_elem_of_fmap_2 next_sns_sequence_num) in Hs' as Hx.
      destruct (next_sns_sequence_num s') as [x|] eqn:Ex; [|by apply HF in Hx]. exists x. split; [done|]. by apply Hmax.
    + apply Exists_exists. change (Some m ∈ next_sns_sequence_num <$> s :: ss) in Hin.
      apply list_elem_of_fmap in Hin as (s' & ? & ?). eauto.
  - destruct all_states as [|s ss]; [done|]. exfalso. simpl in E1, E2. by destruct (next_sns_sequence_num s).
Qed.

Lemma check_common_config_spec {C} `{EqDecision C} (my_state : StartupSyncState C) all_states :
  check_common_config my_state all_states = Ok tt <-> Forall (fun s => common_config s = common_config my_state) all_states.
Proof.
  induction all_states as [|s all_states IH]; simpl; [done|]. rewrite Forall_cons, <- IH. case_bool_decide; naive_solver.
Qed.

(** The check succeeds exactly when both peers published the local state. *)
Lemma check_responses_spec local p1 p2 k1 k2 :
  check_responses local [(k1, serve_gallery p1); (k2, serve_gallery p2)] = Ok tt <-> p1 = Some local /\ p2 = Some local.
Proof. destruct p1 as [g1|], p2 as [g2|]; simpl; repeat case_bool_decide; naive_solver. Qed.

Definition min3 (m : nat -> Z -> Z) (b : Z) : Z := Z.min (m 0%nat b) (Z.min (m 1%nat b) (m 2%nat b)).
Definition and3 (E : nat -> list Z -> list bool) (sha : list Z) : list bool :=
  zip_with andb (E 0%nat sha) (zip_with andb (E 1%nat sha) (E 2%nat sha)).

(** ** Claims *)

(** C23: the nodes agree on the size of a batch.  Let node [n] publish the count
    [m n b] for batch [b].  Whatever else the two peers of node [i] answer while
    it polls them (nothing, errors, bodies that do not parse, conflicts because
    they are at another batch), when [get_batch_sync_states] succeeds the number
    of messages to poll is the minimum of the three counts for this very batch:
    it does not depend on [i]. *)
Theorem batch_size_agreement (m : nat -> Z -> Z) (b : Z) (i : nat) (next prev : list (reply BatchSyncState)) (states : list BatchSyncState)
  (Hi : (i < 3)%nat)
  (Hn : Forall (state_reply (m ((i + 1) mod 3)%nat) b) next) (Hp : Forall (state_reply (m ((i + 2) mod 3)%nat) b) prev)
  (Hs : get_batch_sync_states (Some (mkBatch (m i b) b)) next prev = Ok states) :
  result_messages_to_poll states = min3 m b.
Proof.
  unfold get_batch_sync_states in Hs. simpl in Hs.
  apply bind_Ok in Hs as (s1 & H1 & Hs). apply bind_Ok in Hs as (s2 & H2 & [= <-]).
  apply ok_or_Ok, poll_batch_sync_state_spec with (1 := Hn) in H1 as ->.
  apply ok_or_Ok, poll_batch_sync_state_spec with (1 := Hp) in H2 as ->.
  unfold result_messages_to_poll, min3. destruct i as [|[|[|]]]; [..|lia]; simpl; lia.
Qed.

(** C24: the nodes agree on the valid requests of a batch.  Let [E n sha] be the
    entries node [n] publishes with the hash [sha] of its batch, all of one
    length.  Whatever else the peers of node [i] answer, when
    [get_batch_sync_entries] succeeds all hashes match, the combination does not
    panic, and an entry counts as valid exactly when all three nodes find it
    valid: the result does not depend on [i]. *)
Theorem batch_entries_agreement (E : nat -> list Z -> list bool) (sha : list Z) (len i : nat)
  (next prev : list (reply BatchSyncEntries)) (states : list BatchSyncEntries)
  (Hi : (i < 3)%nat) (Hl : forall n, (n < 3)%nat -> length (E n sha) = len)
  (Hn : Forall (entries_reply (E ((i + 1) mod 3)%nat)) next) (Hp : Forall (entries_reply (E ((i + 2) mod 3)%nat)) prev)
  (Hs : get_batch_sync_entries (Some (mkEntries (E i sha) sha)) next prev = Ok states) :
  sha_matches (mkEntries (E i sha) sha) states = true /\
  result_valid_entries (mkEntries (E i sha) sha) states = Ok (and3 E sha).
Proof.
  unfold get_batch_sync_entries in Hs. simpl in Hs.
  apply bind_Ok in Hs as (s1 & H1 & Hs). apply bind_Ok in Hs as (s2 & H2 & [= <-]).
  apply ok_or_Ok, poll_batch_sync_entries_spec with (1 := Hn) in H1 as ->.
  apply ok_or_Ok, poll_batch_sync_entries_spec with (1 := Hp) in H2 as ->.
  split; [unfold sha_matches; simpl; by rewrite !bool_decide_eq_true_2|].
  rewrite result_valid_entries_spec by (simpl; rewrite !Hl by (try lia; apply Nat.mod_upper_bound; lia); done).
  unfold and3; simpl. f_equal. destruct i as [|[|[|]]]; [..|lia]; simpl; rewrite zip_andb_assoc; [done|..].
  - rewrite <- zip_andb_assoc. apply zip_andb_comm.
  - by rewrite zip_andb_comm, zip_andb_assoc.
Qed.

(** ** Witnesses *)

Definition demo_counts (n : nat) (b : Z) : Z := match n with 0%nat => 7 | 1%nat => 4 | _ => 9 end.

(** Party 1 is first unreachable and then at the batch before; party 2 first
    returns an error page. *)
Definition demo_next : list (reply BatchSyncState) :=
  [None; Some (serve_batch_sync_state (mkShared 4 100) 5); Some (serve_batch_sync_state (mkShared 5 4) 5)].
Definition demo_prev : list (reply BatchSyncState) :=
  [Some (500, Text "error"); Some (serve_batch_sync_state (mkShared 5 9) 5)].

Lemma batch_size_agreement_witness :
  exists states, get_batch_sync_states (Some (mkBatch 7 5)) demo_next demo_prev = Ok states /\ result_messages_to_poll states = 4.
Proof.
  eexists. split; [reflexivity|].
  apply (batch_size_agreement demo_counts 5 0 demo_next demo_prev); [lia|..|reflexivity].
  - repeat constructor; done.
  - repeat constructor; done.
Defined.

Definition demo_entries (n : nat) (sha : list Z) : list bool :=
  match n with 0%nat => [true; true; false] | 1%nat => [true; false; true] | _ => [true; true; true] end.

Lemma batch_entries_agreement_witness :
  exists states,
    get_batch_sync_entries (Some (mkEntries (demo_entries 1 [1; 2]) [1; 2]))
      [None; Some (serve_batch_sync_entries (demo_entries 2 [1; 2]) [1; 2])]
      [Some (serve_batch_sync_entries (demo_entries 0 [0; 0]) [0; 0]); Some (serve_batch_sync_entries (demo_entries 0 [1; 2]) [1; 2])] = Ok states /\
    result_valid_entries (mkEntries (demo_entries 1 [1; 2]) [1; 2]) states = Ok [true; false; false].
Proof.
  eexists. split; [reflexivity|].
  apply (batch_entries_agreement demo_entries [1; 2] 3 1
    [None; Some (serve_batch_sync_entries (demo_entries 2 [1; 2]) [1; 2])]
    [Some (serve_batch_sync_entries (demo_entries 0 [0; 0]) [0; 0]); Some (serve_batch_sync_entries (demo_entries 0 [1; 2]) [1; 2])]);
    [lia | intros [|[|]] _; reflexivity | repeat constructor | repeat constructor | reflexivity].
Defined.
