(* ===== verification/Coordination.v ===== *)
(** * The coordination server: its routes and the start of the heartbeat
    ([ampc-server-utils/src/server_coordination.rs])

    The server that a node starts answers the queries of the startup barriers,
    of the heartbeat and of the batches; callers may add routes of their own.
    The second part is [init_heartbeat_task], which starts the heartbeat and
    waits until both peers have responded. *)

From S2P Require Import Prelude Heartbeat Startup Modifications BatchSync.
From stdpp Require Import base list numbers strings option gmap sets.
From Stdlib Require Import ZArith Lia.
Local Open Scope Z_scope.

(** ** Routers *)

(** The router of [axum], for literal paths and the method GET.  Adding a path
    that is already there panics, as merging two routers with a common path
    does. *)
Class Router (H : Type) := {
  router : Type;
  router_new : router;
  route : string -> H -> router -> option router;
  merge : router -> router -> option router;
  dispatch : router -> string -> option H;
}.
Class RouterOk (H : Type) `{!Router H} : Prop := {
  dispatch_new p : dispatch router_new p = None;
  route_spec p h r :
    match route p h r with
    | None => is_Some (dispatch r p)
    | Some r' => dispatch r p = None /\ forall q, dispatch r' q = if decide (q = p) then Some h else dispatch r q
    end;
  merge_spec r s :
    match merge r s with
    | None => exists p, is_Some (dispatch r p) /\ is_Some (dispatch s p)
    | Some r' => (forall p, dispatch r p = None \/ dispatch s p = None) /\ forall p, dispatch r' p = dispatch r p ∪ dispatch s p
    end;
}.

Definition or_panic {A} (o : option A) : result A :=
  match o with Some x => Ok x | None => panic "Overlapping method route" end.

(** ** Handlers *)

(** What the handlers share with the rest of the node: its readiness, its
    verified peers and its shutdown handler (in [node]), the state of the batch,
    and the global variables of the batch. *)
Record shared := mkState {
  sh_node : node;
  sh_batch : BatchSyncSharedState;
  sh_valid_entries : list bool;
  sh_sha : list Z;
}.

(** What a body parses to. *)
Inductive content (T : Type) :=
| CHealth (r : ReadyProbeResponse)
| CState (x : T)
| CBatch (b : body BatchSyncState)
| CEntries (b : body BatchSyncEntries)
| CText (s : string).
Arguments CHealth {T} _.
Arguments CState {T} _.
Arguments CBatch {T} _.
Arguments CEntries {T} _.
Arguments CText {T} _.

(** A handler reads the shared state and the [batch_id] of the query, if there
    is one; without it the extractor of the batch state rejects the request. *)
Definition handler (T : Type) : Type := shared -> option Z -> Z * content T.

Section Server.
Context {T : Type} `{!Router (handler T)} {HRouter : RouterOk (handler T)}.

(* server_coordination.rs:186-202 start_coordination_server_with_extra_routes (health handler) *)
Definition handle_health (image : string) : handler T := fun s _ => (200, CHealth (health image (sh_node s))).

(* server_coordination.rs:203-212 start_coordination_server_with_extra_routes (ready handler) *)
Definition handle_ready : handler T := fun s _ => if n_ready (sh_node s) then (200, CText "ready") else (503, CText "").

(** The state at the time the server was started. *)
(* server_coordination.rs:213-219 start_coordination_server_with_extra_routes (startup-sync handler) *)
Definition handle_startup_sync (my_state : T) : handler T := fun _ _ => (200, CState my_state).

(* batch_sync.rs:124-160 batch_sync_routes (state handler) *)
Definition handle_batch_state : handler T := fun s q =>
  match q with
  | Some requested => let a := serve_batch_sync_state (sh_batch s) requested in (a.1, CBatch a.2)
  | None => (400, CText "Failed to deserialize query string")
  end.
(* batch_sync.rs:161-177 batch_sync_routes (entries handler) *)
Definition handle_batch_entries : handler T := fun s _ =>
  let a := serve_batch_sync_entries (sh_valid_entries s) (sh_sha s) in (a.1, CEntries a.2).

(* batch_sync.rs:122-178 batch_sync_routes *)
Definition batch_sync_routes : result (@router (handler T) _) :=
  r ← or_panic (route "/batch-sync-state" handle_batch_state router_new);
  or_panic (route "/batch-sync-entries" handle_batch_entries r).

(** [pprof] is the router of the profiler, empty without the feature. *)
(* server_coordination.rs:185-232 start_coordination_server_with_extra_routes (routes) *)
Definition coordination_routes (image : string) (my_state : T) (with_batch : bool) (pprof : @router (handler T) _) (extra : option (@router (handler T) _))
    : result (@router (handler T) _) :=
  app ← or_panic (route "/health" (handle_health image) router_new);
  app ← or_panic (route "/ready" handle_ready app);
  app ← or_panic (route "/startup-sync" (handle_startup_sync my_state) app);
  app ← (if with_batch then b ← batch_sync_routes; or_panic (merge app b) else Ok app);
  app ← or_panic (merge app pprof);
  match extra with Some e => or_panic (merge app e) | None => Ok app end.

(** The node that is started, with the port and the routes of its server.  The
    port is looked up before the server is spawned. *)
(* server_coordination.rs:141-277 start_coordination_server_with_extra_routes *)
Definition start_coordination_server_with_extra_routes (config : ServerCoordinationConfig) (u : string) (my_state : T) (with_batch : bool)
    (pprof : @router (handler T) _) (extra : option (@router (handler T) _)) : result (node * Z * @router (handler T) _) :=
  port ← (match get_own_healthcheck_port config with Ok p => Ok p | Err _ => panic "Failed to get healthcheck port for this server" end);
  app ← coordination_routes (Startup.image_name config) my_state with_batch pprof extra;
  Ok (started u, port, app).

(* server_coordination.rs:117-136 start_coordination_server *)
Definition start_coordination_server (config : ServerCoordinationConfig) (u : string) (my_state : T) (with_batch : bool)
    (pprof : @router (handler T) _) : result (node * Z * @router (handler T) _) :=
  start_coordination_server_with_extra_routes config u my_state with_batch pprof None.

(** A path without a route is not found. *)
Definition get (app : @router (handler T) _) (path : string) (s : shared) (query : option Z) : Z * content T :=
  match dispatch app path with Some h => h s query | None => (404, CText "") end.

(** ** What the server answers *)

Lemma route_fresh p h r : dispatch r p = None -> exists r', route p h r = Some r' /\ forall q, dispatch r' q = if decide (q = p) then Some h else dispatch r q.
Proof. intros E. pose proof (route_spec p h r) as H. destruct (route p h r) as [r'|]; [destruct H; eauto|]. rewrite E in H. by destruct H. Qed.

Lemma or_panic_merge r s app : or_panic (merge r s) = Ok app ->
  (forall p, dispatch r p = None \/ dispatch s p = None) /\ forall p, dispatch app p = dispatch r p ∪ dispatch s p.
Proof. pose proof (merge_spec r s) as H. by destruct (merge r s); [intros [= <-]|]. Qed.

(** The router has exactly the handlers of [l]. *)
Definition serves (r : @router (handler T) _) (l : list (string * handler T)) : Prop :=
  forall p, dispatch r p = snd <$> head (filter (fun e => e.1 = p) l).

Lemma serves_new : serves router_new [].
Proof. intros p. by rewrite dispatch_new. Qed.

Lemma serves_route r l p h r' : serves r l -> route p h r = Some r' -> serves r' ((p, h) :: l).
Proof.
  intros Hr E q. pose proof (route_spec p h r) as H. rewrite E in H. destruct H as [_ ->]. rewrite filter_cons. cbn.
  repeat case_decide; subst; try done; by rewrite Hr.
Qed.

Lemma serves_ok r l p h : serves r l -> p ∉ l.*1 -> exists r', or_panic (route p h r) = Ok r' /\ serves r' ((p, h) :: l).
Proof.
  intros Hr Hp. destruct (route_fresh p h r) as (r' & E & _).
  - rewrite Hr. assert (filter (fun e => e.1 = p) l = []) as ->; [|done]. clear -Hp. induction l as [|[q k] l IH]; [done|].
    rewrite fmap_cons, elem_of_cons in Hp. rewrite filter_cons. case_decide as E; cbn in E; [naive_solver|]. apply IH. naive_solver.
  - exists r'. rewrite E. split; [done|]. by eapply serves_route.
Qed.

(** The routes of the server itself. *)
Definition main_handlers (image : string) (my_state : T) : list (string * handler T) :=
  [("/startup-sync", handle_startup_sync my_state); ("/ready", handle_ready); ("/health", handle_health image)].
Definition batch_handlers (with_batch : bool) : list (string * handler T) :=
  if with_batch then [("/batch-sync-entries", handle_batch_entries); ("/batch-sync-state", handle_batch_state)] else [].
Definition own_handlers (image : string) (my_state : T) (with_batch : bool) : list (string * handler T) :=
  main_handlers image my_state ++ batch_handlers with_batch.

Lemma serves_lookup r l p h : serves r l -> NoDup l.*1 -> (p, h) ∈ l -> dispatch r p = Some h.
Proof.
  intros Hr Hn Hin. rewrite Hr. clear Hr r. induction l as [|[q k] l IH]; [by apply elem_of_nil in Hin|].
  rewrite fmap_cons, NoDup_cons in Hn. destruct Hn as [Hq Hn]. rewrite filter_cons. apply elem_of_cons in Hin as [[= <- <-]|Hin].
  - by case_decide.
  - case_decide as E; [|by apply IH]. cbn in E. subst. destruct Hq. apply list_elem_of_fmap. by exists (p, h).
Qed.

Lemma serves_app r l r' l' app :
  serves r l -> serves r' l' -> or_panic (merge r r') = Ok app -> serves app (l ++ l').
Proof.
  intros Hr Hr' Hm p. apply or_panic_merge in Hm as [_ ->]. rewrite Hr, Hr', filter_app. by destruct (filter _ l), (filter _ l').
Qed.

Lemma batch_sync_routes_serves : exists b, batch_sync_routes = Ok b /\ serves b (batch_handlers true).
Proof.
  destruct (serves_ok router_new [] "/batch-sync-state" handle_batch_state serves_new) as (r1 & E1 & H1); [apply not_elem_of_nil|].
  destruct (serves_ok r1 _ "/batch-sync-entries" handle_batch_entries H1) as (r2 & E2 & H2); [cbn; set_solver|].
  exists r2. split; [|done]. unfold batch_sync_routes. rewrite E1. exact E2.
Qed.

Lemma main_routes image my_state :
  exists r, (app ← or_panic (route "/health" (handle_health image) router_new); app ← or_panic (route "/ready" handle_ready app);
             or_panic (route "/startup-sync" (handle_startup_sync my_state) app)) = Ok r /\ serves r (main_handlers image my_state).
Proof.
  destruct (serves_ok router_new [] "/health" (handle_health image) serves_new) as (r1 & E1 & H1); [apply not_elem_of_nil|].
  destruct (serves_ok r1 _ "/ready" handle_ready H1) as (r2 & E2 & H2); [cbn; set_solver|].
  destruct (serves_ok r2 _ "/startup-sync" (handle_startup_sync my_state) H2) as (r3 & E3 & H3); [cbn; set_solver|].
  exists r3. split; [|done]. rewrite E1. cbn. rewrite E2. exact E3.
Qed.

(** The own routes of a server that starts are reached whatever routes are added,
    and the added ones too; a router that takes a path of the server is refused. *)
Lemma coordination_routes_spec image my_state with_batch pprof extra app :
  coordination_routes image my_state with_batch pprof extra = Ok app ->
  (forall p h, (p, h) ∈ own_handlers image my_state with_batch -> dispatch app p = Some h) /\
  (forall p, is_Some (dispatch pprof p) -> dispatch app p = dispatch pprof p) /\
  (forall e p, extra = Some e -> is_Some (dispatch e p) ->
     dispatch app p = dispatch e p /\ p ∉ (own_handlers image my_state with_batch).*1).
Proof.
  destruct (main_routes image my_state) as (r3 & E3 & H3). unfold coordination_routes.
  destruct (or_panic (route "/health" _ _)) as [r1|]; [|done]. cbn [mbind result_bind] in E3 |- *. destruct (or_panic (route "/ready" _ _)) as [r2|]; [|done]. cbn [mbind result_bind] in E3 |- *.
  rewrite E3. cbn [mbind result_bind].
  set (own := if with_batch then _ else _). destruct own as [app1|] eqn:E; [|done]. cbn [mbind result_bind].
  assert (serves app1 (own_handlers image my_state with_batch)) as Hown.
  { subst own. destruct with_batch; [|injection E as <-; done]. destruct batch_sync_routes_serves as (b & Eb & Hb). rewrite Eb in E. cbn in E.
    exact (serves_app _ _ _ _ _ H3 Hb E). }
  assert (NoDup (own_handlers image my_state with_batch).*1) as Hnd.
  { destruct with_batch; cbn; repeat (apply NoDup_cons; split; [set_solver|]); apply NoDup_nil_2. }
  destruct (or_panic (merge app1 pprof)) as [app2|] eqn:E2; [|done]. cbn [mbind result_bind]. apply or_panic_merge in E2 as [D2 U2]. intros Ha.
  assert (forall p h, dispatch app1 p = Some h -> dispatch app2 p = Some h) as S2 by (intros p h Hp; rewrite U2, Hp; by destruct (dispatch pprof p)).
  assert (forall p, is_Some (dispatch pprof p) -> dispatch app2 p = dispatch pprof p) as S3.
  { intros p [h Hp]. destruct (D2 p) as [Hn|Hn]; [|congruence]. rewrite U2, Hn. by destruct (dispatch pprof p). }
  destruct extra as [e|]; [|injection Ha as <-; split_and!; [|done|done]; intros p h Hin; apply S2; by eapply serves_lookup].
  apply or_panic_merge in Ha as [D U]. split_and!.
  - intros p h Hin. pose proof (S2 p h (serves_lookup _ _ _ _ Hown Hnd Hin)) as Hp. rewrite U, Hp. by destruct (dispatch e p).
  - intros p Hp. rewrite U, S3 by done. destruct Hp as [h ->]. by destruct (dispatch e p).
  - intros e' p [= <-] [h Hp]. destruct (D p) as [Hn|Hn]; [|congruence]. split; [rewrite U, Hn; by destruct (dispatch e p)|].
    intros ([q k] & -> & Hin)%list_elem_of_fmap. cbn in Hn. by rewrite (S2 q k (serves_lookup _ _ _ _ Hown Hnd Hin)) in Hn.
Qed.

Lemma parse_digits_bound bound acc s n : 0 <= acc < bound -> parse_digits bound acc s = Some n -> 0 <= n < bound.
Proof.
  revert acc. induction s as [|c s IH]; intros acc Ha; cbn; [by intros [= <-]|].
  destruct ((0 <=? _) && _ && _) eqn:E; [|done]. apply IH. lia.
Qed.

Lemma parse_uint_bound bound s n : 0 < bound -> parse_uint bound s = Some n -> 0 <= n < bound.
Proof.
  intros Hb. unfold parse_uint. repeat case_match; try done; apply parse_digits_bound; lia.
Qed.

(** What a started server answers in any later state of its node: its health as
    it is then, 503 on [/ready] until the node is set ready, and the state it was
    started with, also after that state has changed. *)
Theorem started_server_answers config u my_state with_batch pprof extra n port app s q :
  start_coordination_server_with_extra_routes config u my_state with_batch pprof extra = Ok (n, port, app) ->
  n = started u /\ 0 <= port < 2 ^ 64 /\
  get app "/health" s q = (200, CHealth (health (Startup.image_name config) (sh_node s))) /\
  get app "/ready" s q = (if n_ready (sh_node s) then (200, CText "ready") else (503, CText "")) /\
  get app "/startup-sync" s q = (200, CState my_state) /\
  (forall requested, with_batch = true -> get app "/batch-sync-state" s (Some requested)
     = ((serve_batch_sync_state (sh_batch s) requested).1, CBatch (serve_batch_sync_state (sh_batch s) requested).2)) /\
  (forall e p h, extra = Some e -> dispatch e p = Some h -> get app p s q = h s q).
Proof.
  unfold start_coordination_server_with_extra_routes. destruct (get_own_healthcheck_port config) as [port'|] eqn:Ep; [|done]. cbn [mbind result_bind].
  destruct (coordination_routes _ _ _ _ _) as [app'|] eqn:E; [|done]. cbn [mbind result_bind]. intros [= <- <- <-].
  apply coordination_routes_spec in E as (Hown & _ & Hext). unfold get.
  assert (0 <= port' < 2 ^ 64) as [Hp1 Hp2].
  { unfold get_own_healthcheck_port in Ep. destruct (ok_or _ _) as [x|]; [|done]. cbn [mbind result_bind] in Ep.
    destruct (parse_uint _ x) as [z|] eqn:Ez; [|done]. injection Ep as <-. by apply (parse_uint_bound (2 ^ 64) x). }
  split_and!; try done.
  - by rewrite (Hown "/health" (handle_health (Startup.image_name config))) by (unfold own_handlers, main_handlers; set_solver).
  - by rewrite (Hown "/ready" handle_ready) by (unfold own_handlers, main_handlers; set_solver).
  - by rewrite (Hown "/startup-sync" (handle_startup_sync my_state)) by (unfold own_handlers, main_handlers; set_solver).
  - intros requested ->. by rewrite (Hown "/batch-sync-state" handle_batch_state) by (unfold own_handlers, main_handlers, batch_handlers; set_solver).
  - intros e p h -> Hp. destruct (Hext e p eq_refl) as [-> _]; [by rewrite Hp|]. by rewrite Hp.
Qed.
End Server.

(** ** A router as a map *)

#[export] Instance map_router (H : Type) : Router H := {
  router := gmap string H;
  router_new := ∅;
  route p h r := match r !! p with None => Some (<[p := h]> r) | Some _ => None end;
  merge r s := if decide (r ##ₘ s) then Some (r ∪ s) else None;
  dispatch r p := r !! p;
}.

#[export] Instance map_router_ok (H : Type) : RouterOk H.
Proof.
  split.
  - intros p. apply lookup_empty.
  - intros p h r. cbn in r |- *. destruct (r !! p) eqn:E; [by eexists|]. split; [done|]. intros q. case_decide; subst; [by rewrite lookup_insert_eq|by rewrite lookup_insert_ne].
  - intros r s. cbn in r, s |- *. case_decide as E.
    + split; [|intros p; apply lookup_union]. intros p. destruct (r !! p) eqn:Er; [|by left]. right. by eapply map_disjoint_Some_l.
    + destruct (decide (map_Exists (fun p _ => is_Some (s !! p)) r)) as [(p & x & Hr & Hs)|Hn]; [exists p; split; [by eexists|done]|].
      destruct E. apply map_disjoint_spec. intros p x y Hr Hs. apply Hn. exists p, x. by rewrite Hs.
Qed.

(** A server with one added route, and one whose added route is taken. *)
Definition demo_extra (p : string) : gmap string (handler nat) := {[ p := fun _ _ => (200, CText "watermark") ]}.
Definition demo_start (p : string) : result (node * Z * gmap string (handler nat)) :=
  start_coordination_server_with_extra_routes default_config "u" 7%nat true (∅ : gmap string (handler nat)) (Some (demo_extra p)).
Definition demo_shared (n : node) : shared := mkState n (mkShared 4 10) [true] [1; 2].

Example started_server_demo :
  match demo_start "/rerand-watermark" with
  | Ok (n, port, app) =>
      port = 3000 /\
      get app "/ready" (demo_shared n) None = (503, CText "") /\
      get app "/ready" (demo_shared (set_node_ready n)) None = (200, CText "ready") /\
      get app "/startup-sync" (demo_shared n) None = (200, CState 7%nat) /\
      get app "/batch-sync-state" (demo_shared n) (Some 3) = (409, CBatch (Text "Batch ID mismatch")) /\
      get app "/batch-sync-state" (demo_shared n) (Some 4) = (200, CBatch (Json (mkBatch 10 4))) /\
      get app "/rerand-watermark" (demo_shared n) None = (200, CText "watermark") /\
      get app "/other" (demo_shared n) None = (404, CText "")
  | Err _ => False
  end /\
  demo_start "/health" = panic "Overlapping method route".
Proof. vm_compute. split_and!; reflexivity. Qed.

(** ** The start of the heartbeat *)

Section Init.
Context (heartbeat_initial_retries : Z) (verified : gset string).

Abbreviation beat := (beat heartbeat_initial_retries verified).
Abbreviation heartbeat_loop := (heartbeat_loop heartbeat_initial_retries verified).

(** The requests one after the other, to the next and the previous node in
    turn: the task may be observed after any of them. *)
Fixpoint heartbeat_requests (s : heartbeat) (i : bool) (reqs : list (probe * bool)) : outcome :=
  match reqs with
  | [] => Running s
  | (x, stop) :: reqs => match beat s i x stop with Running s => heartbeat_requests s (negb i) reqs | o => o end
  end.

(** What the caller finds when it is woken: a shutdown first, then the signal
    of the task, or that the task has panicked and dropped its end. *)
(* server_coordination.rs:726-733 init_heartbeat_task (wait) *)
Definition init_resume (o : outcome) : option (result unit) :=
  match o with
  | Panicked _ => Some (bail "channel closed")
  | Running s | Returned s =>
      if is_shutting_down (Heartbeat.handler s) then Some (bail "Shutdown interrupted heartbeat initialization")
      else if heartbeat_tx s then None else Some (Ok tt)
  end.

(** [looks]: the numbers of requests made when the caller is woken.  It returns
    at the first look at which there is something to return. *)
(* server_coordination.rs:522-734 init_heartbeat_task *)
Definition init_heartbeat_task (h : ShutdownHandler) (reqs : list (probe * bool)) (looks : list nat) : option (result unit) :=
  head (omap (fun n => init_resume (heartbeat_requests (heartbeat_new h) false (take n reqs))) looks).

Lemma loop_requests s rounds :
  heartbeat_loop s rounds = heartbeat_requests s false (r ← rounds; [(first_probe r, first_stop r); (second_probe r, second_stop r)]).
Proof.
  revert s. induction rounds as [|r rounds IH]; intros s; [done|]. cbn. destruct (beat s false _ _) as [s1| |]; [|done..].
  cbn. destruct (beat s1 true _ _) as [s2| |]; [|done..]. apply IH.
Qed.

(** A peer that has responded is one of the startup handshake. *)
Definition known (p : peer) : Prop := last_response p = "" \/ last_response p ∈ verified.

Lemma on_probe_known p x p' b : known p -> on_probe heartbeat_initial_retries verified p x = PeerOk p' b -> known p'.
Proof.
  unfold known. intros Hp. destruct x as [r|]; cbn; unfold on_response, on_failure; cbn; repeat case_match; intros [= <- <-]; cbn; try done.
  right. match goal with H : negb (bool_decide (_ ∈ verified)) = false |- _ => by apply negb_false_iff, bool_decide_eq_true in H end.
Qed.

Lemma requests_known s i reqs s' :
  (forall j, known (get_peer s j)) -> heartbeat_requests s i reqs = Running s' -> forall j, known (get_peer s' j).
Proof.
  revert s i. induction reqs as [|[x stop] reqs IH]; intros s i Hk; cbn; [by intros [= <-]|].
  destruct (beat s i x stop) as [s1| |] eqn:E; [|done..]. apply IH. revert E. unfold Heartbeat.beat. destruct (is_shutting_down (Heartbeat.handler s)); [done|].
  destruct stop; [done|]. destruct (is_shutting_down (Heartbeat.handler s)); [done|].
  destruct (on_probe _ _ (get_peer s i) x) as [p b|] eqn:Ep; [|done]. intros [= <-]. apply on_probe_known in Ep; [|done].
  intros j. pose proof (Hk true). pose proof (Hk false). by destruct i, j.
Qed.

Lemma requests_inv s i reqs s' :
  "" ∉ verified -> heartbeat_inv s -> heartbeat_requests s i reqs = Running s' -> heartbeat_inv s'.
Proof.
  intros Hv. revert s i. induction reqs as [|[x stop] reqs IH]; intros s i Hi; cbn; [by intros [= <-]|].
  destruct (beat s i x stop) as [s1| |] eqn:E; [|done..]. apply IH. by apply (beat_inv heartbeat_initial_retries verified) in E as [? _].
Qed.

(** C29: a node starts to work only beside the peers of its startup.  Whatever the
    requests to the two peers find, and whenever the caller of
    [init_heartbeat_task] is woken while they are made: when it gets [Ok], then
    at that moment the heartbeat task is running, both peers have responded, the
    last response of each has a uuid that was verified in the startup handshake,
    and nothing had begun to shut the node down. *)
Theorem heartbeat_initialised h reqs looks :
  "" ∉ verified -> init_heartbeat_task h reqs looks = Some (Ok tt) ->
  exists n s, n ∈ looks /\ heartbeat_requests (heartbeat_new h) false (take n reqs) = Running s /\
    is_shutting_down (Heartbeat.handler s) = false /\ forall i, last_response (get_peer s i) ∈ verified.
Proof.
  intros Hv. unfold init_heartbeat_task. induction looks as [|n looks IH]; [done|]. cbn [omap list_omap].
  destruct (init_resume _) as [r|] eqn:E; [|intros H; destruct (IH H) as (m & s & Hm & ?); exists m, s; split; [apply elem_of_cons; by right|done]].
  cbn [head]. intros [= ->]. destruct (heartbeat_requests (heartbeat_new h) false (take n reqs)) as [s|s|] eqn:Er; cbn in E; [| |done].
  - destruct (is_shutting_down (Heartbeat.handler s)) eqn:Es; [done|]. destruct (heartbeat_tx s) eqn:Et; [done|].
    exists n, s. split_and!; [apply elem_of_cons; by left|done|done|]. intros i.
    apply requests_inv in Er as Hi; [|done|apply heartbeat_new_inv]. destruct Hi as [Hc Ht]. rewrite Et in Ht. symmetry in Ht.
    apply negb_false_iff, andb_true_iff in Ht as [H1 H2].
    assert (forall j, known (get_peer (heartbeat_new h) j)) as H0 by (intros []; by left).
    destruct (requests_known _ _ _ _ H0 Er i) as [Hl|Hl]; [|done]. specialize (Hc i). rewrite Hl, bool_decide_eq_false_2 in Hc by naive_solver. destruct i; congruence.
  - exfalso. destruct (is_shutting_down (Heartbeat.handler s)) eqn:Es; [done|]. clear -Er Es. revert Er. generalize (heartbeat_new h), false.
    generalize (take n reqs). intros l. induction l as [|[x stop] l IH]; intros s0 i; cbn; [done|]. destruct (beat s0 i x stop) as [s1|s1|] eqn:Eb; [apply IH| |done].
    intros [= ->]. revert Eb. unfold Heartbeat.beat. destruct (is_shutting_down (Heartbeat.handler s0)) eqn:E0; [intros [= ->]; congruence|].
    destruct stop; [intros [= <-]; cbn in Es; done|]. rewrite E0. by destruct (on_probe _ _ _ _).
Qed.

Lemma first_response x :
  on_probe heartbeat_initial_retries verified peer_new (Some x)
  = if bool_decide (uuid x ∈ verified) then PeerOk (mkPeer (uuid x) true 0 0) false
    else PeerPanic "Node reported UUID not seen during startup handshake, killing server...".
Proof. unfold on_probe, on_response. cbn [last_response peer_new]. rewrite bool_decide_eq_true_2 by done. by destruct (bool_decide _). Qed.

(** It gets past it as soon as both peers have responded. *)
Theorem heartbeat_starts h x y :
  is_shutting_down h = false -> uuid x ∈ verified -> uuid y ∈ verified ->
  init_heartbeat_task h [(Some x, false); (Some y, false)] [1; 2]%nat = Some (Ok tt).
Proof.
  intros Hh Hx Hy. unfold init_heartbeat_task. cbn [omap list_omap take heartbeat_requests]. rewrite beat_spec by done.
  cbn [get_peer heartbeat_new peers fst]. rewrite first_response, bool_decide_eq_true_2 by done. cbn [init_resume]. cbn [Heartbeat.handler heartbeat_tx].
  change (Heartbeat.handler (heartbeat_new h)) with h. rewrite Hh. cbn [set_peer fst snd connected peers heartbeat_new peer_new andb negb].
  rewrite beat_spec by done. cbn [get_peer peers snd]. rewrite first_response, bool_decide_eq_true_2 by done. cbn. by rewrite Hh.
Qed.

(** A peer whose uuid was not seen in the handshake stops it. *)
Theorem heartbeat_stranger h x reqs :
  is_shutting_down h = false -> uuid x ∉ verified -> init_heartbeat_task h ((Some x, false) :: reqs) [1]%nat = Some (bail "channel closed").
Proof.
  intros Hh Hx. unfold init_heartbeat_task. cbn [omap list_omap take heartbeat_requests]. rewrite beat_spec by done.
  cbn [get_peer heartbeat_new peers fst]. by rewrite first_response, bool_decide_eq_false_2.
Qed.
End Init.

(** The second peer is first out of reach; the caller is woken after each request. *)
Lemma heartbeat_initialised_witness :
  exists n s, n ∈ [1; 2; 3; 4]%nat /\
    heartbeat_requests 2 {["a"; "b"]} (heartbeat_new handler_new) false
      (take n [(demo_up "a", false); (None, false); (demo_up "a", false); (demo_up "b", false)]) = Running s /\
    is_shutting_down (Heartbeat.handler s) = false /\ forall i, last_response (get_peer s i) ∈ ({["a"; "b"]} : gset string).
Proof.
  apply (heartbeat_initialised 2 {["a"; "b"]} handler_new
    [(demo_up "a", false); (None, false); (demo_up "a", false); (demo_up "b", false)] [1; 2; 3; 4]%nat).
  - exact demo_peers.
  - vm_compute. reflexivity.
Defined.
