(* ===== verification/QueueSync.v ===== *)
(** * QueueSync: [ampc-server-utils/src/sqs.rs]

    Each node has a queue of its own, fed from one topic.  At startup a node looks
    at the sequence number at the top of its queue; the nodes exchange these
    numbers, take the maximum, and delete what is below it.  The queue service is
    a parameter: a class states the part of its contract the code relies on.  The
    theorem is that all queues then have the same message at the top. *)

From S2P Require Import Prelude Heartbeat Startup Modifications BatchSync.
From stdpp Require Import base list numbers strings option gmap sets.
From Stdlib Require Import ZArith Lia Sorting.Sorted.
Local Open Scope Z_scope.

(** ** The queue service *)

(** A FIFO queue of message bodies.  [stream] is what the queue holds and what
    will arrive in it, in the order of delivery.  [receive] is a long poll for one
    message: an error, or the messages received, which are none or the first one
    (none also when the queue is not empty); it does not remove the message.
    [delete_top] deletes the message received last, [release_top] makes it visible
    again. *)
Class Queue (Q B : Type) := {
  stream : Q -> list B;
  receive : Q -> result (Q * option (list B));
  delete_top : Q -> result Q;
  release_top : Q -> result Q;
  receive_spec q q' m : receive q = Ok (q', m) ->
    stream q' = stream q /\ match m with None => True | Some ms => exists b rest, ms = [b] /\ stream q = b :: rest end;
  delete_top_spec q q' : delete_top q = Ok q' -> stream q' = tail (stream q);
  release_top_spec q q' : release_top q = Ok q' -> stream q' = stream q;
}.

Section Sqs.
Context {Q B : Type} `{Queue Q B}.

(** [serde_json::from_str::<SQSMessage>] of a body, as far as it is used: the
    field [SequenceNumber]. *)
Context (from_str : B -> option string).

(* sqs.rs:71-89 get_next_sns_seq_num (one message) *)
Definition parse_sequence_num (corrupt : string) (b : B) : result Z :=
  match from_str b with
  | None => bail corrupt
  | Some s => ok_or (parse_uint (2 ^ 128) s) "sequence number is not a number"
  end.

(* sqs.rs:52-93 get_next_sns_seq_num *)
Definition get_next_sns_seq_num (q : Q) : result (Q * option Z) :=
  '(q, messages) ← receive q;
  match messages with
  | Some [b] =>
      n ← parse_sequence_num "Found corrupt message in queue while parsing SNS message from body" b; Ok (q, Some n)
  | Some _ => bail "Expected exactly one message"
  | None => Ok (q, None)
  end.

(** The loop, for at most [fuel] rounds; [None]: it goes on. *)
(* sqs.rs:155-208 delete_messages_until_sequence_num (loop) *)
Fixpoint delete_loop (fuel : nat) (q : Q) (target_sequence_num : Z) : option (Q * result unit) :=
  match fuel with
  | O => None
  | S fuel =>
      match receive q with
      | Err e => Some (q, Err e)
      | Ok (q, None) => delete_loop fuel q target_sequence_num
      | Ok (q, Some [b]) =>
          match parse_sequence_num "message is not a valid SQS message" b with
          | Err e => Some (q, Err e)
          | Ok sequence_num =>
              if sequence_num <? target_sequence_num
              then match delete_top q with
                   | Err e => Some (q, Err e)
                   | Ok q => delete_loop fuel q target_sequence_num
                   end
              else match release_top q with
                   | Err e => Some (q, Err e)
                   | Ok q => Some (q, Ok tt)
                   end
          end
      | Ok (q, Some _) => Some (q, bail "Expected exactly one message in the queue")
      end
  end.

(* sqs.rs:115-211 delete_messages_until_sequence_num *)
Definition delete_messages_until_sequence_num (fuel : nat) (q : Q) (my_sequence_num target_sequence_num : option Z) : option (Q * result unit) :=
  match target_sequence_num with
  | None =>
      match my_sequence_num with
      | Some _ => Some (q, bail "SQS target sequence number is None, but my sequence number is Some. This should not happen.")
      | None => Some (q, Ok tt)
      end
  | Some target_sequence_num =>
      match my_sequence_num with
      | Some my_sequence_num =>
          if my_sequence_num =? target_sequence_num then Some (q, Ok tt) else delete_loop fuel q target_sequence_num
      | None => delete_loop fuel q target_sequence_num
      end
  end.

(** The attributes the service returns, when it returns any. *)
(* sqs.rs:222-251 get_approximate_number_of_messages *)
Definition get_approximate_number_of_messages (response : result (option (gmap string string))) : result Z :=
  attributes ← map_err "Failed to get queue attributes from SQS" response;
  attributes ← ok_or attributes "No attributes returned from GetQueueAttributes";
  num_messages_str ← ok_or (attributes !! "ApproximateNumberOfMessages") "ApproximateNumberOfMessages attribute not found";
  ok_or (parse_uint (2 ^ 32) num_messages_str) "Failed to parse ApproximateNumberOfMessages".

(** ** Lemmas *)

(** Every body parses; [num] is its sequence number. *)
Context (num : B -> Z) (Hnum : forall corrupt b, parse_sequence_num corrupt b = Ok (num b)).

Lemma get_next_sns_seq_num_spec q q' n :
  get_next_sns_seq_num q = Ok (q', n) ->
  stream q' = stream q /\ forall x, n = Some x -> exists b rest, stream q = b :: rest /\ num b = x.
Proof.
  unfold get_next_sns_seq_num. destruct (receive q) as [[q1 m]|] eqn:Er; [|done].
  destruct (receive_spec _ _ _ Er) as [E Hm]. simpl. destruct m as [ms|]; [|by intros [= <- <-]].
  destruct Hm as (b & rest & -> & Eb). rewrite Hnum. simpl. intros [= <- <-]. split; [done|]. intros x [= <-]. eauto.
Qed.

(** The loop removes a prefix of the messages, all below the target, and leaves a
    message that is not below it at the top. *)
Lemma delete_loop_spec fuel q target q' :
  delete_loop fuel q target = Some (q', Ok tt) ->
  exists deleted b rest, stream q = deleted ++ b :: rest /\ stream q' = b :: rest /\
    Forall (fun m => num m < target) deleted /\ target <= num b.
Proof.
  revert q; induction fuel as [|fuel IH]; intros q; simpl; [done|].
  destruct (receive q) as [[q1 m]|] eqn:Er; [|done]. destruct (receive_spec _ _ _ Er) as [E1 Hm].
  destruct m as [ms|]; [|by rewrite <- E1; apply IH].
  destruct Hm as (b & rest & -> & Eb). rewrite Hnum. destruct (Z.ltb_spec (num b) target) as [Hlt|Hge].
  - destruct (delete_top q1) as [q2|] eqn:Ed; [|done]. apply delete_top_spec in Ed.
    rewrite E1, Eb in Ed. simpl in Ed. intros (deleted & b' & rest' & E & Eq & Hf & Ht)%IH.
    exists (b :: deleted), b', rest'. rewrite Eb, <- Ed, E. split; [done|]. split; [done|]. by split; [constructor|].
  - destruct (release_top q1) as [q2|] eqn:Ed; [|done]. apply release_top_spec in Ed. intros [= <-].
    exists [], b, rest. by rewrite Ed, E1, Eb.
Qed.

(** The messages of a topic carry increasing numbers. *)
Definition increasing (l : list B) : Prop := StronglySorted (fun a b => num a < num b) l.

Lemma increasing_app pre b rest m : increasing (pre ++ b :: rest) -> m ∈ pre -> num m < num b.
Proof.
  unfold increasing. induction pre as [|a pre IH]; simpl; intros Hs Hm; [set_solver|].
  apply StronglySorted_inv in Hs as [Hs Hf]. rewrite Forall_forall in Hf.
  apply elem_of_cons in Hm as [->|Hm]; [apply Hf; set_solver|auto].
Qed.

(** There is one place to cut a list at its first element that fails a test. *)
Lemma cut_unique (P : B -> Prop) pre pre' b b' rest rest' :
  pre ++ b :: rest = pre' ++ b' :: rest' -> Forall P pre -> Forall P pre' -> ~ P b -> ~ P b' -> b :: rest = b' :: rest'.
Proof.
  intros E Hp Hp' Hb Hb'. revert pre' E Hp'; induction Hp as [|a pre Ha _ IH]; intros [|a' pre'] E Hp'; simpl in E; simplify_eq.
  - done.
  - apply Forall_cons in Hp' as [? _]. done.
  - done.
  - apply Forall_cons in Hp' as [_ ?]. by apply (IH pre').
Qed.

(** What is left of a queue after the deletion: the topic from the target on. *)
Lemma delete_messages_spec T fuel q q' my pre b rest :
  increasing T -> T = pre ++ b :: rest -> (exists k, stream q = drop k T) ->
  (exists x xs, stream q = x :: xs /\ num x = my) -> my <= num b ->
  delete_messages_until_sequence_num fuel q (Some my) (Some (num b)) = Some (q', Ok tt) ->
  stream q' = b :: rest.
Proof.
  intros HT ET [k Ek] (x & xs & Ex & <-) Hle Hd. simpl in Hd.
  set (P := fun m => num m < num b).
  assert (Hpre : Forall P pre) by (apply Forall_forall; intros m Hm; apply (increasing_app pre b rest); [by rewrite <- ET|done]).
  assert (Htake : Forall P (take k T)).
  { apply Forall_forall. intros m Hm. unfold P. enough (num m < num x) by lia.
    apply (increasing_app (take k T) x xs); [|done]. by rewrite <- Ex, Ek, take_drop. }
  destruct (Z.eqb_spec (num x) (num b)) as [E|_].
  - injection Hd as <-. rewrite Ex. apply (cut_unique P (take k T) pre); [|done|done|unfold P; lia..].
    by rewrite <- Ex, Ek, take_drop.
  - apply delete_loop_spec in Hd as (deleted & b' & rest' & E & -> & Hf & Ht).
    apply (cut_unique P (take k T ++ deleted) pre); [|by apply Forall_app|done|unfold P; lia..].
    by rewrite <- app_assoc, <- E, Ek, take_drop.
Qed.
End Sqs.

(** The startup states of three nodes with the given queue heads. *)
Definition with_head {C} (c : C) (my : option Z) : StartupSyncState C := mkStartup 0 my c [].

(** ** Claims *)

(** C22: the queues of the three nodes are aligned at startup.  Let the queues be
    fed, from different places on, by one topic [T] whose messages have
    increasing sequence numbers.  Each node looks at the number at the top of its
    queue, the maximum of the three is taken, and each node deletes messages up to
    it.  When this succeeds with a number [t], every queue goes on with the same
    messages, the first of which is the message numbered [t]; when no node saw a
    message nothing is deleted. *)
Theorem queues_aligned {Q B C : Type} `{Queue Q B} (from_str : B -> option string) (num : B -> Z) (c : C) (fuel : nat) (T : list B)
  (q p q' : nat -> Q) (my : nat -> option Z) (target : option Z)
  (Hnum : forall corrupt b, parse_sequence_num from_str corrupt b = Ok (num b)) (HT : increasing num T)
  (Hq : forall i, (i < 3)%nat -> exists k, stream (q i) = drop k T)
  (Hpeek : forall i, (i < 3)%nat -> get_next_sns_seq_num from_str (q i) = Ok (p i, my i))
  (Hmax : max_sns_sequence_num (with_head c ∘ my <$> seq 0 3) = Ok target)
  (Hdel : forall i, (i < 3)%nat -> delete_messages_until_sequence_num from_str fuel (p i) (my i) target = Some (q' i, Ok tt)) :
  match target with
  | Some t => exists b rest, num b = t /\ forall i, (i < 3)%nat -> stream (q' i) = b :: rest
  | None => forall i, (i < 3)%nat -> stream (q' i) = stream (q i)
  end.
Proof.
  apply max_sns_sequence_num_spec in Hmax. destruct target as [t|].
  - destruct Hmax as [Hall Hone]. rewrite Forall_fmap, Forall_forall in Hall.
    apply Exists_exists in Hone as (s & Hs & Et). apply list_elem_of_fmap in Hs as (m & -> & Hm). simpl in Et.
    apply elem_of_seq in Hm. assert (Hm3 : (m < 3)%nat) by lia. clear Hm.
    destruct (get_next_sns_seq_num_spec from_str num Hnum _ _ _ (Hpeek m Hm3)) as [Ep Hb].
    destruct (Hb t Et) as (b & rest & Eb & <-). destruct (Hq m Hm3) as [k Ek]. exists b, rest. split; [done|].
    intros i Hi. destruct (Hall i) as (x & Ex & Hle); [apply elem_of_seq; lia|]. simpl in Ex.
    destruct (get_next_sns_seq_num_spec from_str num Hnum _ _ _ (Hpeek i Hi)) as [Ep' Hb'].
    specialize (Hdel i Hi). rewrite Ex in Hdel.
    apply (delete_messages_spec from_str num Hnum T fuel (p i) (q' i) x (take k T) b rest HT); [|..|done].
    + by rewrite <- Eb, Ek, take_drop.
    + rewrite Ep'. auto.
    + rewrite Ep'. auto.
    + done.
  - intros i Hi. rewrite Forall_fmap, Forall_forall in Hmax. specialize (Hmax i ltac:(apply elem_of_seq; lia)). simpl in Hmax.
    specialize (Hdel i Hi). rewrite Hmax in Hdel. injection Hdel as <-.
    apply (get_next_sns_seq_num_spec from_str num Hnum _ _ _ (Hpeek i Hi)).
Qed.

(** ** Witness *)

(** A queue as a list of bodies that all have arrived. *)
#[export] Instance list_queue (B : Type) : Queue (list B) B.
Proof.
  refine {| stream q := q;
            receive q := Ok (q, match q with [] => None | b :: _ => Some [b] end);
            delete_top q := Ok (tail q);
            release_top q := Ok q |}.
  - intros q q' m [= <- <-]. split; [done|]. destruct q; eauto.
  - by intros q q' [= <-].
  - by intros q q' [= <-].
Defined.

Definition demo_topic : list nat := [3; 5; 8; 9]%nat.
Definition demo_queue (i : nat) : list nat := drop (match i with 0 => 1 | 1 => 2 | _ => 0 end)%nat demo_topic.
Definition demo_digit (b : nat) : option string := Some (String (Ascii.ascii_of_nat (48 + b mod 10)) "").
Definition demo_num (b : nat) : Z := Z.of_nat (b mod 10).

Lemma demo_parse corrupt b : parse_sequence_num demo_digit corrupt b = Ok (demo_num b).
Proof.
  unfold demo_digit, demo_num, parse_sequence_num. pose proof (Nat.mod_upper_bound b 10 ltac:(lia)) as Hb.
  revert Hb. generalize (b mod 10)%nat. intros n Hn. do 10 (destruct n as [|n]; [reflexivity|]). lia.
Qed.

Lemma demo_topic_increasing : increasing demo_num demo_topic.
Proof. repeat constructor. Qed.

Lemma queues_aligned_witness :
  exists b rest, demo_num b = 8 /\ forall i, (i < 3)%nat -> stream (([8; 9] : list nat)%nat) = b :: rest.
Proof.
  apply (queues_aligned demo_digit demo_num tt 5 demo_topic demo_queue demo_queue (fun _ => [8; 9]%nat)
    (fun i => match i with 0%nat => Some 5 | 1%nat => Some 8 | _ => Some 3 end) (Some 8)).
  - exact demo_parse.
  - exact demo_topic_increasing.
  - intros i _. eexists. reflexivity.
  - intros [|[|[|]]] Hi; [reflexivity..|lia].
  - reflexivity.
  - intros [|[|[|]]] Hi; [reflexivity..|lia].
Defined.
