(* ===== verification/Embedding.v ===== *)
(** * Embedding: [ampc-secret-sharing/src/iris_vector.rs] and [face_vector.rs]

    An embedding is a vector of 512 [i8]; it is shared four entries at a time in
    the Galois ring.  One of two shared embeddings is multiplied by the Lagrange
    coefficients and written in basis B; the inner products that the parties then
    compute on their own [u16] arrays add up to the inner product of the
    embeddings.  The generators that draw random embeddings (for tests) are not
    modelled; base64 is a parameter. *)

From S2P Require Import Prelude IntRing RingImpl Party Galois Value.
From stdpp Require Import base list numbers strings.
From Stdlib Require Import ZArith Lia Ring.
Local Open Scope Z_scope.

(** ** Definitions *)

(* iris_vector.rs:18-18 IRIS_VECTOR_SIZE *)
Definition IRIS_VECTOR_SIZE : nat := 512.
(* face_vector.rs:14-14 FACE_VECTOR_SIZE *)
Definition FACE_VECTOR_SIZE : nat := 512.

(** [as u16] of an [i8] extends the sign; [as u8] and [as i8] keep the bits. *)
Definition as_u16 (x : Z) : Z := x mod 2 ^ 16.
Definition as_u8 (x : Z) : Z := x mod 2 ^ 8.
Definition as_i8 (x : Z) : Z := if x mod 2 ^ 8 <? 2 ^ 7 then x mod 2 ^ 8 else x mod 2 ^ 8 - 2 ^ 8.
Definition as_i16 (x : Z) : Z := if x mod 2 ^ 16 <? 2 ^ 15 then x mod 2 ^ 16 else x mod 2 ^ 16 - 2 ^ 16.

Definition valid_i8 (x : Z) : Prop := - 2 ^ 7 <= x < 2 ^ 7.
Definition fits_i16 (x : Z) : bool := (- 2 ^ 15 <=? x) && (x <? 2 ^ 15).

(** [i16] arithmetic: an overflow panics when overflow checks are compiled in, as
    in a debug build, and wraps around in a release build. *)
Definition check_i16 (overflow_checks : bool) (x : Z) : result Z :=
  if fits_i16 x then Ok x else if overflow_checks then panic "attempt to add with overflow" else Ok (as_i16 x).

Fixpoint sum_i16 (overflow_checks : bool) (acc : Z) (l : list Z) : result Z :=
  match l with [] => Ok acc | x :: l => acc ← check_i16 overflow_checks (acc + x); sum_i16 overflow_checks acc l end.

(** The products [(a as i16) * (b as i16)] of two [i8] fit. *)
(* iris_vector.rs:73-79 IrisVector::dot *)
Definition iris_dot (overflow_checks : bool) (self other : list Z) : result Z := sum_i16 overflow_checks 0 (zip_with Z.mul self other).

(* face_vector.rs:52-58 FaceVector::dot *)
Definition face_dot : bool -> list Z -> list Z -> result Z := iris_dot.

Definition coefs {B} (x : GaloisRingElement B) : list Z := [g0 x; g1 x; g2 x; g3 x].

Section Sharing.
Context {R : Type} (rng_u16x4 : R -> (Z * Z * Z * Z) * R) (rng_u16 : R -> Z * R).

(** The entries [i], .., [i + 3] of an embedding. *)
Definition chunk_element (c : Z * Z * Z * Z) : GaloisRingElement BasisA :=
  let '(a, b, c, d) := c in mkG (as_u16 a) (as_u16 b) (as_u16 c) (as_u16 d).

(** The loop over the chunks; the arrays of the parties are filled from the front. *)
(* iris_vector.rs:217-232 IrisVector::secret_share (loop) *)
Fixpoint share_loop (encode : GaloisRingElement Monomial -> R -> list ShamirGaloisRingShare * R)
    (chunks : list (Z * Z * Z * Z)) (shares : list (list Z)) (rng : R) : list (list Z) * R :=
  match chunks with
  | [] => (shares, rng)
  | c :: chunks =>
      let element := to_monomial (chunk_element c) in
      let '(share, rng) := encode element rng in
      share_loop encode chunks (zip_with (fun arr s => arr ++ coefs (sh_y s)) shares share) rng
  end.

(* iris_vector.rs:199-235 IrisVector::secret_share *)
Definition iris_secret_share (self : list Z) (rng : R) : result (list (list Z) * R) :=
  if negb (IRIS_VECTOR_SIZE mod 4 =? 0)%nat then bail "Vector size must be divisible by 4"
  else Ok (share_loop (encode_3_mat rng_u16) (chunks_exact4 self) (replicate 3 []) rng).

(* iris_vector.rs:245-283 IrisVector::secret_share_5_parties *)
Definition iris_secret_share_5_parties (self : list Z) (rng : R) : result (list (list Z) * R) :=
  if negb (IRIS_VECTOR_SIZE mod 4 =? 0)%nat then bail "Vector size must be divisible by 4"
  else Ok (share_loop (encode_5_mat rng_u16x4) (chunks_exact4 self) (replicate 5 []) rng).

(* face_vector.rs:179-215 FaceVector::secret_share *)
Definition face_secret_share (self : list Z) (rng : R) : result (list (list Z) * R) :=
  if negb (FACE_VECTOR_SIZE mod 4 =? 0)%nat then bail "Vector size must be divisible by 4"
  else Ok (share_loop (encode_3_mat rng_u16) (chunks_exact4 self) (replicate 3 []) rng).
End Sharing.

(** One chunk of a share times a Lagrange coefficient, in basis B. *)
(* iris_vector.rs:378-391 IrisSecretSharedVector::multiply_lagrange_coeffs (one chunk) *)
Definition weigh_chunk (lagrange : GaloisRingElement Monomial) (c : Z * Z * Z * Z) : list Z :=
  let '(a, b, c, d) := c in coefs (to_basis_B (gmul (mkG a b c d) lagrange)).

(** [lagrange_coeffs[id - 1]] panics unless [id] is 1, 2 or 3. *)
(* iris_vector.rs:376-392 IrisSecretSharedVector::multiply_lagrange_coeffs *)
Definition multiply_lagrange_coeffs (self : list Z) (id : nat) : result (list Z) :=
  lagrange_coeffs ← deg_2_lagrange_polys_at_zero;
  if (id =? 0)%nat then panic "index out of bounds"
  else l ← index lagrange_coeffs (id - 1); Ok (concat (weigh_chunk l <$> chunks_exact4 self)).

(* face_vector.rs:237-253 FaceSecretSharedVector::multiply_lagrange_coeffs *)
Definition face_multiply_lagrange_coeffs : list Z -> nat -> result (list Z) := multiply_lagrange_coeffs.

(* iris_vector.rs:39-52 IrisSecretSharedVector::from_protobuf_share *)
Definition from_protobuf_share (pb_share : list Z) : result (list Z) :=
  if negb (length pb_share =? IRIS_VECTOR_SIZE)%nat then bail "Expected 512 elements"
  else mapM_result (fun chunk => if chunk <? 2 ^ 16 then Ok chunk else bail "out of range integral type conversion attempted") pb_share.

Section Base64.
Context {S : Type} (encode : list Z -> S) (decode : S -> option (list Z)).

(* iris_vector.rs:287-290 IrisVector::to_base64 *)
Definition iris_to_base64 (self : list Z) : S := encode (as_u8 <$> self).

(* iris_vector.rs:292-308 IrisVector::from_base64 *)
Definition iris_from_base64 (s : S) : result (list Z) :=
  bytes ← ok_or (decode s) "IrisVector base64 decode failed";
  if negb (length bytes =? IRIS_VECTOR_SIZE)%nat then bail "Invalid IrisVector base64 length"
  else Ok (as_i8 <$> bytes).

(* iris_vector.rs:346-352 IrisSecretSharedVector::to_base64 *)
Definition share_to_base64 (self : list Z) : S := encode (concat (to_le_bytes 2 <$> self)).

(** [chunks_exact(2)] *)
Fixpoint chunks_exact2 (l : list Z) : list (list Z) :=
  match l with a :: b :: l => [a; b] :: chunks_exact2 l | _ => [] end.

(* iris_vector.rs:354-371 IrisSecretSharedVector::from_base64 *)
Definition share_from_base64 (s : S) : result (list Z) :=
  bytes ← ok_or (decode s) "IrisSecretSharedVector base64 decode failed";
  if negb (length bytes =? IRIS_VECTOR_SIZE * 2)%nat then bail "Invalid IrisSecretSharedVector base64 length"
  else Ok (from_le_bytes <$> chunks_exact2 bytes).
End Base64.

(** The [Deserialize] instances: the sequence is accepted when it has 512 entries. *)
(* iris_vector.rs:405-423 Deserialize for IrisSecretSharedVector *)
Definition deserialize_share (vec : list Z) : result (list Z) :=
  if negb (length vec =? IRIS_VECTOR_SIZE)%nat then bail "Expected 512 elements" else Ok vec.

(* face_vector.rs:266-284 Deserialize for FaceSecretSharedVector *)
Definition deserialize_face_share (vec : list Z) : result (list Z) :=
  if negb (length vec =? FACE_VECTOR_SIZE)%nat then bail "Expected 512 elements" else Ok vec.

(** ** Reference: the inner product of two integer vectors *)

Fixpoint zdot (x y : list Z) : Z :=
  match x, y with a :: x, b :: y => a * b + zdot x y | _, _ => 0 end.

(** What a party computes on its arrays: [u16] products and sums that wrap. *)
Definition share_dot (x y : list Z) : Z := foldl wadd 0 (zip_with wmul x y).

(** ** Lemmas: one chunk *)

Definition share_at (k : nat) (x r : GaloisRingElement Monomial) : GaloisRingElement Monomial := gadd x (gmul r (ES k)).

#[local] Instance to_basis_B_proper : Proper (geq 16 ==> geq 16) to_basis_B.
Proof.
  intros x y (H0 & H1 & H2 & H3).
  destruct (to_basis_B_ceq x) as (X0 & X1 & X2 & X3), (to_basis_B_ceq y) as (Y0 & Y1 & Y2 & Y3).
  unfold geq. rewrite X0, X1, X2, X3, Y0, Y1, Y2, Y3, H0, H1, H2, H3. done.
Qed.

Lemma to_basis_B_add x y : g0 (to_basis_B (gadd x y)) ==[2 ^ 16] g0 (to_basis_B x) + g0 (to_basis_B y).
Proof.
  destruct (to_basis_B_ceq (gadd x y)) as (-> & _), (to_basis_B_ceq x) as (-> & _), (to_basis_B_ceq y) as (-> & _).
  cbn [gadd g0 g1 g2 g3]. rewrite !wadd_ceq16. ceq_ring.
Qed.

Lemma zdot_coefs {B C} (x : GaloisRingElement B) (y : GaloisRingElement C) : zdot (coefs x) (coefs y) ==[2 ^ 16] dot x y.
Proof. rewrite dot_ceq. simpl. ceq_ring. Qed.

Lemma dot_comm {B C} (x : GaloisRingElement B) (y : GaloisRingElement C) : dot x y ==[2 ^ 16] dot y x.
Proof. rewrite !dot_ceq. ceq_ring. Qed.

Lemma weighed_dot x y l : zdot (coefs x) (coefs (to_basis_B (gmul y l))) ==[2 ^ 16] g0 (to_basis_B (gmul (gmul y l) x)).
Proof. rewrite basis_B_mul, zdot_coefs. apply dot_comm. Qed.

(** The three parties' inner products on a chunk add up to that of the secrets. *)
Lemma chunk_dot L1 L2 L3 (a b : GaloisRingElement BasisA) r s :
  geq 16 (gadd (gadd L1 L2) L3) ONE ->
  geq 16 (gadd (gadd (gmul L1 (ES 1)) (gmul L2 (ES 2))) (gmul L3 (ES 3))) ZERO ->
  geq 16 (gadd (gadd (gmul L1 (gmul (ES 1) (ES 1))) (gmul L2 (gmul (ES 2) (ES 2)))) (gmul L3 (gmul (ES 3) (ES 3)))) ZERO ->
  let x k := coefs (share_at k (to_monomial a) r) in
  let y k l := coefs (to_basis_B (gmul (share_at k (to_monomial b) s) l)) in
  zdot (x 1%nat) (y 1%nat L1) + zdot (x 2%nat) (y 2%nat L2) + zdot (x 3%nat) (y 3%nat L3) ==[2 ^ 16] zdot (coefs a) (coefs b).
Proof.
  intros M0 M1 M2. cbv zeta. rewrite !weighed_dot, <- !to_basis_B_add. unfold share_at.
  revert M1 M2. generalize (ES 1) (ES 2) (ES 3). intros z1 z2 z3 M1 M2. rewrite zdot_coefs, <- basis_B_product.
  set (u := to_monomial a). set (v := to_monomial b).
  match goal with |- g0 (to_basis_B ?e) ==[_] _ => assert (E : geq 16 e (gmul u v)) end.
  { transitivity (gadd (gadd (gmul (gmul u v) (gadd (gadd L1 L2) L3))
      (gmul (gadd (gmul u s) (gmul r v)) (gadd (gadd (gmul L1 z1) (gmul L2 z2)) (gmul L3 z3))))
      (gmul (gmul r s) (gadd (gadd (gmul L1 (gmul z1 z1)) (gmul L2 (gmul z2 z2))) (gmul L3 (gmul z3 z3))))).
    - ring.
    - rewrite M0, M1, M2. ring. }
  exact (proj1 (to_basis_B_proper _ _ E)).
Qed.

(** Five shares of a chunk give it back. *)
Lemma encode_5_reconstructs {R} (rng_u16x4 : R -> (Z * Z * Z * Z) * R) s rng :
  gvalid s -> reconstruct_deg_4_shares (encode_5_mat rng_u16x4 s rng).1 = Ok s.
Proof.
  intros Hs. rewrite encode_5_mat_correct. unfold encode_5. destruct (galois_random rng_u16x4 rng) as [r rng'].
  destruct (galois_random rng_u16x4 rng') as [t ?].
  destruct deg_4_lagrange as (L1 & L2 & L3 & L4 & L5 & HL & M0 & M1 & M2 & _ & _).
  unfold reconstruct_deg_4_shares, reconstruct. rewrite HL. cbn -[gadd gmul ES]. f_equal.
  apply geq_16; [auto with valid|done|].
  transitivity (gadd (gadd (gmul s (moment5 L1 L2 L3 L4 L5 0)) (gmul r (moment5 L1 L2 L3 L4 L5 1))) (gmul t (moment5 L1 L2 L3 L4 L5 2))).
  - unfold moment5. cbn [gpow_ref]. ring.
  - rewrite M0, M1, M2. ring.
Qed.

(** ** Lemmas: vectors *)

Lemma zdot_app x y x' y' : length x = length y -> zdot (x ++ x') (y ++ y') = zdot x y + zdot x' y'.
Proof.
  revert y; induction x as [|a x IH]; intros [|b y] Hl; simpl in *; try done. rewrite IH by lia. ring.
Qed.

Lemma share_dot_ceq x y : share_dot x y ==[2 ^ 16] zdot x y.
Proof.
  unfold share_dot. enough (H : forall acc, foldl wadd acc (zip_with wmul x y) ==[2 ^ 16] acc + zdot x y).
  { rewrite H. ceq_ring. }
  revert y; induction x as [|a x IH]; intros [|b y] acc; simpl; try ceq_ring.
  rewrite IH, wadd_ceq16, wmul_ceq16. ceq_ring.
Qed.

Definition chunk_list (c : Z * Z * Z * Z) : list Z := let '(a, b, c, d) := c in [a; b; c; d].

Lemma concat_chunks_exact4 k l : length l = (4 * k)%nat -> concat (chunk_list <$> chunks_exact4 l) = l /\ length (chunks_exact4 l) = k.
Proof.
  revert l; induction k as [|k IH]; intros l Hl.
  - destruct l; [done|simpl in Hl; lia].
  - destruct l as [|a [|b [|c [|d l]]]]; simpl in Hl; try lia.
    destruct (IH l ltac:(lia)) as [E1 E2]. cbn [chunks_exact4 fmap list_fmap concat chunk_list length app].
    split; [by do 4 f_equal | by f_equal].
Qed.

Lemma chunks_exact4_coefs {B} (l : list (GaloisRingElement B)) :
  chunks_exact4 (concat (coefs <$> l)) = (fun x => (g0 x, g1 x, g2 x, g3 x)) <$> l.
Proof. induction l as [|x l IH]; [done|]. cbn [fmap list_fmap concat coefs app chunks_exact4]. by f_equal. Qed.

Lemma zdot_as_u16 c d : zdot (coefs (chunk_element c)) (coefs (chunk_element d)) ==[2 ^ 16] zdot (chunk_list c) (chunk_list d).
Proof. destruct c as [[[? ?] ?] ?], d as [[[? ?] ?] ?]. simpl. unfold as_u16. by rewrite !ceq_mod. Qed.

(** The arrays of party [k], for the random elements [rs]. *)
Definition party_share (k : nat) (chunks : list (Z * Z * Z * Z)) (rs : list (GaloisRingElement Monomial)) : list (GaloisRingElement Monomial) :=
  zip_with (fun c r => share_at k (to_monomial (chunk_element c)) r) chunks rs.

Lemma share_loop_3 {R} (rng_u16 : R -> Z * R) chunks s1 s2 s3 rng :
  exists rs rng', length rs = length chunks /\
    share_loop (encode_3_mat rng_u16) chunks [s1; s2; s3] rng =
    ([s1 ++ concat (coefs <$> party_share 1 chunks rs); s2 ++ concat (coefs <$> party_share 2 chunks rs);
      s3 ++ concat (coefs <$> party_share 3 chunks rs)], rng').
Proof.
  revert s1 s2 s3 rng; induction chunks as [|c chunks IH]; intros s1 s2 s3 rng.
  { exists [], rng. by rewrite !app_nil_r. }
  pose proof (encode_3_mat_correct rng_u16 (to_monomial (chunk_element c)) rng) as E.
  destruct (rng_u16 rng) as [i4 rng1], (rng_u16 rng1) as [i5 rng2], (rng_u16 rng2) as [i6 rng3], (rng_u16 rng3) as [i7 rng4].
  cbn [share_loop]. rewrite E. cbn [fmap list_fmap seq zip_with sh_y].
  destruct (IH (s1 ++ coefs (share_at 1 (to_monomial (chunk_element c)) (mkG i4 i5 i6 i7)))
    (s2 ++ coefs (share_at 2 (to_monomial (chunk_element c)) (mkG i4 i5 i6 i7)))
    (s3 ++ coefs (share_at 3 (to_monomial (chunk_element c)) (mkG i4 i5 i6 i7))) rng4) as (rs & rng' & Hl & Hs).
  exists (mkG i4 i5 i6 i7 :: rs), rng'. split; [simpl; by f_equal|].
  unfold share_at in Hs at 1 2 3. rewrite Hs. cbn [party_share zip_with fmap list_fmap concat]. by rewrite <- !app_assoc.
Qed.

Lemma multiply_lagrange_spec Ls (l : GaloisRingElement Monomial) id xs :
  deg_2_lagrange_polys_at_zero = Ok Ls -> Ls !! id = Some l ->
  multiply_lagrange_coeffs (concat (coefs <$> xs)) (S id) = Ok (concat ((fun x => coefs (to_basis_B (gmul x l))) <$> xs)).
Proof.
  intros HL Hl. unfold multiply_lagrange_coeffs. rewrite HL. cbn -[concat weigh_chunk chunks_exact4 fmap].
  rewrite Nat.sub_0_r, (index_lookup _ _ _ Hl). cbn -[concat weigh_chunk chunks_exact4 fmap].
  rewrite chunks_exact4_coefs, <- list_fmap_compose. done.
Qed.

(** The inner products of the parties' arrays add up, chunk by chunk. *)
Lemma shares_zdot L1 L2 L3 ca cb ra rb :
  geq 16 (gadd (gadd L1 L2) L3) ONE ->
  geq 16 (gadd (gadd (gmul L1 (ES 1)) (gmul L2 (ES 2))) (gmul L3 (ES 3))) ZERO ->
  geq 16 (gadd (gadd (gmul L1 (gmul (ES 1) (ES 1))) (gmul L2 (gmul (ES 2) (ES 2)))) (gmul L3 (gmul (ES 3) (ES 3)))) ZERO ->
  length ca = length cb -> length ra = length ca -> length rb = length cb ->
  let x k := concat (coefs <$> party_share k ca ra) in
  let y k l := concat ((fun x => coefs (to_basis_B (gmul x l))) <$> party_share k cb rb) in
  zdot (x 1%nat) (y 1%nat L1) + zdot (x 2%nat) (y 2%nat L2) + zdot (x 3%nat) (y 3%nat L3) ==[2 ^ 16]
  zdot (concat (chunk_list <$> ca)) (concat (chunk_list <$> cb)).
Proof.
  intros M0 M1 M2. cbv zeta. revert cb ra rb; induction ca as [|c ca IH]; intros [|d cb] [|r ra] [|s rb] H1 H2 H3; try done.
  specialize (IH cb ra rb ltac:(simpl in *; lia) ltac:(simpl in *; lia) ltac:(simpl in *; lia)).
  pose proof (chunk_dot L1 L2 L3 (chunk_element c) (chunk_element d) r s M0 M1 M2) as Hc. cbv zeta in Hc.
  rewrite zdot_as_u16 in Hc. unfold party_share in *. cbn [zip_with]. rewrite !fmap_cons. cbn [concat].
  rewrite !zdot_app by (by destruct c as [[[? ?] ?] ?], d as [[[? ?] ?] ?]).
  etransitivity; [|apply ceq_add; [exact Hc | exact IH]]. ceq_ring.
Qed.

Lemma sum_i16_ok checks acc l B :
  Forall (fun x => Z.abs x <= B) l -> Z.abs acc + B * Z.of_nat (length l) < 2 ^ 15 ->
  sum_i16 checks acc l = Ok (acc + foldr Z.add 0 l).
Proof.
  revert acc; induction l as [|x l IH]; intros acc Hf Hb; simpl.
  - by rewrite Z.add_0_r.
  - apply Forall_cons in Hf as [Hx Hf]. cbn [length] in Hb. unfold check_i16.
    assert (0 <= B) by lia. replace (fits_i16 (acc + x)) with true.
    + simpl. rewrite IH; [f_equal; lia|done|]. nia.
    + symmetry. unfold fits_i16. apply andb_true_iff. split; [apply Z.leb_le | apply Z.ltb_lt]; nia.
Qed.

Lemma foldr_zdot x y : foldr Z.add 0 (zip_with Z.mul x y) = zdot x y.
Proof. revert y; induction x as [|a x IH]; intros [|b y]; simpl; [done..|]. by rewrite IH. Qed.

Lemma Forall_zip_mul x y n : 0 <= n -> Forall (fun a => Z.abs a <= n) x -> Forall (fun a => Z.abs a <= n) y ->
  Forall (fun a => Z.abs a <= n * n) (zip_with Z.mul x y).
Proof.
  intros Hn Hx; revert y; induction Hx as [|a x Ha _ IH]; intros [|b y] Hy; simpl; try constructor.
  - apply Forall_cons in Hy as [Hb _]. rewrite Z.abs_mul. nia.
  - apply Forall_cons in Hy as [_ Hy]. auto.
Qed.

Lemma zdot_abs x y n : 0 <= n -> Forall (fun a => Z.abs a <= n) x -> Forall (fun a => Z.abs a <= n) y ->
  Z.abs (zdot x y) <= n * n * Z.of_nat (length x).
Proof.
  intros Hn Hx; revert y; induction Hx as [|a x Ha _ IH]; intros [|b y] Hy; cbn [zdot length]; [lia..|nia|].
  apply Forall_cons in Hy as [Hb Hy]. specialize (IH y Hy).
  assert (Z.abs (a * b) <= n * n) by (rewrite Z.abs_mul; nia). lia.
Qed.

(** Entries up to 7 in absolute value: the [i16] inner product is exact. *)
Lemma iris_dot_exact checks a b :
  length a = IRIS_VECTOR_SIZE -> length b = IRIS_VECTOR_SIZE ->
  Forall (fun x => Z.abs x <= 7) a -> Forall (fun x => Z.abs x <= 7) b ->
  iris_dot checks a b = Ok (zdot a b) /\ Z.abs (zdot a b) <= 25088.
Proof.
  intros La Lb Ha Hb. split.
  - unfold iris_dot. rewrite (sum_i16_ok _ _ _ (7 * 7)); [by rewrite foldr_zdot| by apply Forall_zip_mul|].
    rewrite length_zip_with, La, Lb. unfold IRIS_VECTOR_SIZE. simpl. lia.
  - pose proof (zdot_abs a b 7 ltac:(lia) Ha Hb) as H. rewrite La in H. unfold IRIS_VECTOR_SIZE in H. lia.
Qed.

(** The least entry of [FaceVector::random], -8, is too large: the inner product
    of the vector of all -8 with itself is 2^15, which panics or comes out as
    -2^15. *)
Lemma face_dot_overflows :
  let v := replicate FACE_VECTOR_SIZE (-8) in
  zdot v v = 2 ^ 15 /\ face_dot true v v = panic "attempt to add with overflow" /\ face_dot false v v = Ok (- 2 ^ 15).
Proof. vm_compute. done. Qed.

Lemma as_i16_exact x d : x ==[2 ^ 16] d -> - 2 ^ 15 <= d < 2 ^ 15 -> as_i16 x = d.
Proof.
  unfold ceq, as_i16. intros -> Hd. destruct (Z.ltb_spec (d mod 2 ^ 16) (2 ^ 15)).
  - destruct (Z_lt_le_dec d 0); [|by rewrite Z.mod_small by lia].
    rewrite <- (Z.mod_add d 1) in H by lia. rewrite Z.mod_small in H by lia. lia.
  - destruct (Z_lt_le_dec d 0); [|rewrite Z.mod_small in H by lia; lia].
    rewrite <- (Z.mod_add d 1) by lia. rewrite Z.mod_small by lia. lia.
Qed.

Lemma as_i8_u8 x : valid_i8 x -> as_i8 (as_u8 x) = x.
Proof.
  unfold valid_i8, as_i8, as_u8. intros Hx. rewrite Z.mod_mod by lia.
  destruct (Z_lt_le_dec x 0).
  - rewrite <- (Z.mod_add x 1), Z.mod_small by lia. destruct (Z.ltb_spec (x + 1 * 2 ^ 8) (2 ^ 7)); lia.
  - rewrite Z.mod_small by lia. destruct (Z.ltb_spec x (2 ^ 7)); lia.
Qed.

Lemma from_to_le_bytes2 x : valid u16 x -> from_le_bytes (to_le_bytes 2 x) = x.
Proof.
  unfold valid. simpl. intros Hx. change (x < 2 ^ 16) with (x < 65536) in Hx.
  pose proof (Z.div_mod x 256 ltac:(lia)). pose proof (Z.div_mod (x / 256) 256 ltac:(lia)).
  assert (x / 256 / 256 = 0) by (rewrite Z.div_div by lia; apply Z.div_small; lia). lia.
Qed.

Lemma chunks_exact2_bytes l : chunks_exact2 (concat (to_le_bytes 2 <$> l)) = to_le_bytes 2 <$> l.
Proof. induction l as [|x l IH]; [done|]. cbn [fmap list_fmap concat to_le_bytes app chunks_exact2]. by f_equal. Qed.

Lemma length_bytes2 l : length (concat (to_le_bytes 2 <$> l)) = (2 * length l)%nat.
Proof. induction l as [|x l IH]; [done|]. cbn [fmap list_fmap concat to_le_bytes app length] in *. rewrite IH. lia. Qed.

(** ** Claims *)

(** C6: matching on shared embeddings.  Share two embeddings [a] and [b] of 512
    entries with any randomness; let each of the three parties multiply its share
    of [b] by its Lagrange coefficients and take the [u16] inner product with its
    share of [a].  The three numbers add up, modulo 2^16, to the inner product of
    [a] and [b]; and when all entries are between -7 and 7, reading the sum as an
    [i16] gives exactly [IrisVector::dot], which then does not overflow, with or
    without overflow checks. *)
Theorem embedding_dot_product {R : Type} (rng_u16 : R -> Z * R) (overflow_checks : bool) (a b : list Z) (rng1 rng2 : R)
  (La : length a = IRIS_VECTOR_SIZE) (Lb : length b = IRIS_VECTOR_SIZE) :
  exists x1 x2 x3 y1 y2 y3 z1 z2 z3 rng1' rng2',
    iris_secret_share rng_u16 a rng1 = Ok ([x1; x2; x3], rng1') /\
    iris_secret_share rng_u16 b rng2 = Ok ([y1; y2; y3], rng2') /\
    multiply_lagrange_coeffs y1 1 = Ok z1 /\ multiply_lagrange_coeffs y2 2 = Ok z2 /\ multiply_lagrange_coeffs y3 3 = Ok z3 /\
    let opened := wadd (wadd (share_dot x1 z1) (share_dot x2 z2)) (share_dot x3 z3) in
    opened = zdot a b mod 2 ^ 16 /\
    (Forall (fun x => Z.abs x <= 7) a -> Forall (fun x => Z.abs x <= 7) b -> iris_dot overflow_checks a b = Ok (as_i16 opened)).
Proof.
  destruct (share_loop_3 rng_u16 (chunks_exact4 a) [] [] [] rng1) as (ra & r1 & Lra & Ea).
  destruct (share_loop_3 rng_u16 (chunks_exact4 b) [] [] [] rng2) as (rb & r2 & Lrb & Eb).
  destruct deg_2_lagrange as (L1 & L2 & L3 & HL & M0 & M1 & M2).
  destruct (concat_chunks_exact4 128 a La) as [Ca Na], (concat_chunks_exact4 128 b Lb) as [Cb Nb].
  pose proof (shares_zdot L1 L2 L3 (chunks_exact4 a) (chunks_exact4 b) ra rb M0 M1 M2 (eq_trans Na (eq_sym Nb)) Lra Lrb) as Hs. cbv zeta in Hs. rewrite Ca, Cb in Hs.
  do 11 eexists. split; [unfold iris_secret_share; simpl; f_equal; exact Ea|].
  split; [unfold iris_secret_share; simpl; f_equal; exact Eb|]. rewrite !app_nil_l.
  split; [by apply (multiply_lagrange_spec _ L1 0 _ HL)|].
  split; [by apply (multiply_lagrange_spec _ L2 1 _ HL)|].
  split; [by apply (multiply_lagrange_spec _ L3 2 _ HL)|]. cbv zeta.
  match goal with |- ?o = _ /\ _ => assert (Ho : o ==[2 ^ 16] zdot a b) end.
  { rewrite !wadd_ceq16, !share_dot_ceq. exact Hs. }
  split; [apply ceq_mod_small; [apply wadd_valid | done]|]. intros Ha Hb.
  destruct (iris_dot_exact overflow_checks a b La Lb Ha Hb) as [-> Hd]. f_equal. symmetry. apply as_i16_exact; [done|]. lia.
Qed.

(** base64 round trips.  When the base64 library decodes what it encodes,
    [from_base64] returns the embedding, respectively the share, that
    [to_base64] encoded. *)
Theorem embedding_base64_roundtrip {S : Type} (encode : list Z -> S) (decode : S -> option (list Z)) (v share : list Z)
  (Hd : forall bytes, decode (encode bytes) = Some bytes)
  (Lv : length v = IRIS_VECTOR_SIZE) (Hv : Forall valid_i8 v)
  (Ls : length share = IRIS_VECTOR_SIZE) (Hs : Forall (valid u16) share) :
  iris_from_base64 decode (iris_to_base64 encode v) = Ok v /\
  share_from_base64 decode (share_to_base64 encode share) = Ok share.
Proof.
  split.
  - unfold iris_from_base64, iris_to_base64. rewrite Hd. cbn [ok_or mbind result_bind].
    rewrite length_fmap, Lv, Nat.eqb_refl. cbn [negb]. f_equal. rewrite <- list_fmap_compose.
    rewrite <- (list_fmap_id v) at 2. apply list_fmap_ext. intros i x Hx. apply as_i8_u8.
    by apply (Forall_lookup_1 _ _ _ _ Hv Hx).
  - unfold share_from_base64, share_to_base64. rewrite Hd. cbn [ok_or mbind result_bind].
    rewrite length_bytes2, Ls. replace (2 * IRIS_VECTOR_SIZE =? IRIS_VECTOR_SIZE * 2)%nat with true by reflexivity.
    cbn [negb]. f_equal. rewrite chunks_exact2_bytes, <- list_fmap_compose.
    rewrite <- (list_fmap_id share) at 2. apply list_fmap_ext. intros i x Hx. apply from_to_le_bytes2.
    by apply (Forall_lookup_1 _ _ _ _ Hs Hx).
Qed.

(** ** Witnesses *)

Definition demo_rng (s : Z) : Z * Z := (s mod 2 ^ 16, (s * 25173 + 13849) mod 2 ^ 16).
Definition demo_a : list Z := (fun i => Z.of_nat i mod 15 - 7) <$> seq 0 512.
Definition demo_b : list Z := (fun i => Z.of_nat i mod 8 - 7) <$> seq 0 512.

Lemma embedding_dot_product_witness :
  exists opened, iris_dot true demo_a demo_b = Ok (as_i16 opened).
Proof.
  destruct (embedding_dot_product demo_rng true demo_a demo_b 1 2 eq_refl eq_refl) as
    (x1 & x2 & x3 & y1 & y2 & y3 & z1 & z2 & z3 & r1 & r2 & _ & _ & _ & _ & _ & _ & H).
  eexists. apply H; (apply Forall_forall; intros x Hx; apply list_elem_of_fmap in Hx as (i & -> & _)).
  - pose proof (Z.mod_pos_bound (Z.of_nat i) 15 ltac:(lia)). lia.
  - pose proof (Z.mod_pos_bound (Z.of_nat i) 8 ltac:(lia)). lia.
Defined.

Lemma embedding_base64_roundtrip_witness :
  iris_from_base64 Some (iris_to_base64 id demo_a) = Ok demo_a.
Proof.
  apply (embedding_base64_roundtrip id Some demo_a (replicate 512 513)); [done|reflexivity| |reflexivity|].
  - apply Forall_forall. intros x Hx. apply list_elem_of_fmap in Hx as (i & -> & _).
    pose proof (Z.mod_pos_bound (Z.of_nat i) 15 ltac:(lia)). unfold valid_i8. lia.
  - apply Forall_replicate. unfold valid. simpl. lia.
Defined.
