(* ===== verification/Striping.v ===== *)
(** * Striping: [TcpSession] of
    [ampc-actor-utils/src/network/mpc/handle/session/mod.rs]

    A session sends a message to a peer over several connections at once: the
    message is cut into fragments, which arrive in any order, mixed with the
    fragments of other messages, and are put together again.  The reference is a
    queue of messages.  The theorems say that what is received is a prefix of what
    was sent, whatever the connections do with the order of their fragments, and
    that nothing is lost. *)

From S2P Require Import Prelude IntRing RingImpl Party Value.
From stdpp Require Import base list numbers strings option gmap sets.
From Stdlib Require Import ZArith Lia.
Local Open Scope Z_scope.

(** ** Fragments *)

(** [b"AMPCSTRP"] *)
Definition STRIPE_MAGIC : list Z := [65; 77; 80; 67; 83; 84; 82; 80].
Definition STRIPE_HEADER_BYTES : nat := 32.
Definition MIN_BYTES_PER_STRIPE : nat := 256 * 1024.

(* mpc/handle/session/mod.rs:30-36 Fragment *)
Record Fragment := mkFragment { f_sequence : Z; f_total_len : Z; f_index : nat; f_count : nat; f_payload : list Z }.

Definition u32_try_from (n : nat) : result Z :=
  if Z.of_nat n <? 2 ^ 32 then Ok (Z.of_nat n) else bail "out of range integral type conversion attempted".

(* mpc/handle/session/mod.rs:39-57 Fragment::encode *)
Definition fragment_encode (sequence total_len : Z) (index count : nat) (payload : list Z) : result NetworkValue :=
  index ← u32_try_from index;
  count ← u32_try_from count;
  Ok (VBytes (STRIPE_MAGIC ++ to_le_bytes 8 sequence ++ to_le_bytes 8 total_len ++
              to_le_bytes 4 index ++ to_le_bytes 4 count ++ payload)).

(* mpc/handle/session/mod.rs:59-87 Fragment::decode *)
Definition fragment_decode (value : NetworkValue) : result Fragment :=
  match value with
  | VBytes bytes =>
      if (length bytes <? STRIPE_HEADER_BYTES)%nat then bail "striped MPC fragment is shorter than its header"
      else if negb (bool_decide (take 8 bytes = STRIPE_MAGIC)) then bail "invalid striped MPC fragment magic"
      else
        let sequence := from_le_bytes (take 8 (drop 8 bytes)) in
        let total_len := from_le_bytes (take 8 (drop 16 bytes)) in
        let index := Z.to_nat (from_le_bytes (take 4 (drop 24 bytes))) in
        let count := Z.to_nat (from_le_bytes (take 4 (drop 28 bytes))) in
        if negb (0 <? count)%nat then bail "striped MPC fragment has zero chunks"
        else if negb (index <? count)%nat then bail "striped MPC fragment index is out of range"
        else if negb (0 <? total_len) then bail "striped MPC fragment has an empty message"
        else Ok (mkFragment sequence total_len index count (drop STRIPE_HEADER_BYTES bytes))
  | _ => bail "striped MPC session received an unframed value"
  end.

(** ** Assemblies *)

(* mpc/handle/session/mod.rs:91-96 Assembly *)
Record Assembly := mkAssembly { total_len : Z; chunks : list (option (list Z)); received : nat; received_len : Z }.

(* mpc/handle/session/mod.rs:99-106 Assembly::new *)
Definition assembly_new (fragment : Fragment) : Assembly :=
  mkAssembly (f_total_len fragment) (replicate (f_count fragment) None) 0 0.

(** The assembly is left changed when the last check fails. *)
(* mpc/handle/session/mod.rs:108-125 Assembly::insert *)
Definition assembly_insert (self : Assembly) (fragment : Fragment) : Assembly * result unit :=
  if negb ((total_len self =? f_total_len fragment) && (length (chunks self) =? f_count fragment)%nat)
  then (self, bail "inconsistent striped MPC fragment metadata")
  else match chunks self !! f_index fragment with
  | None => (self, panic "index out of bounds")
  | Some (Some _) => (self, bail "duplicate striped MPC fragment")
  | Some None =>
      let received' := S (received self) in
      let received_len' := received_len self + Z.of_nat (length (f_payload fragment)) in
      if negb (received_len' <=? total_len self)
      then (mkAssembly (total_len self) (chunks self) received' received_len', bail "striped MPC fragments exceed declared message length")
      else (mkAssembly (total_len self) (<[f_index fragment := Some (f_payload fragment)]> (chunks self)) received' received_len', Ok tt)
  end.

(* mpc/handle/session/mod.rs:127-129 Assembly::is_complete *)
Definition is_complete (self : Assembly) : bool := (received self =? length (chunks self))%nat.

(* mpc/handle/session/mod.rs:131-143 Assembly::assemble *)
Definition assemble (self : Assembly) : result NetworkValue :=
  if negb (is_complete self) then bail "striped MPC message is incomplete"
  else if negb (received_len self =? total_len self) then bail "striped MPC message length mismatch"
  else bytes ← mapM_result (fun c => ok_or c "missing striped MPC fragment") (chunks self);
       deserialize (concat bytes).

(** ** A peer's streams *)

(** The sending half of a channel: what has been sent into it and not yet come
    out of the inbound channel of the other side; a closed one refuses. *)
Record OutStream := mkOut { os_open : bool; os_queue : list (Z * NetworkValue) }.

(* mpc/handle/session/mod.rs:147-154 PeerIo *)
Record PeerIo := mkPeerIo {
  tx : list OutStream;
  rx : list NetworkValue;
  next_send_sequence : Z;
  next_receive_sequence : Z;
  pending : gmap Z Assembly;
}.

(* mpc/handle/session/mod.rs:166-193 TcpSession::new (one peer) *)
Definition peer_io_new (tx : list OutStream) : PeerIo := mkPeerIo tx [] 0 0 ∅.

Definition set_tx (p : PeerIo) (t : list OutStream) : PeerIo :=
  mkPeerIo t (rx p) (next_send_sequence p) (next_receive_sequence p) (pending p).

(** [peer.tx[i].send(..)] *)
Definition stream_send (t : list OutStream) (i : nat) (msg : Z * NetworkValue) : result (list OutStream) :=
  match t !! i with
  | None => panic "index out of bounds"
  | Some o => if os_open o then Ok (<[i := mkOut true (os_queue o ++ [msg])]> t) else bail "channel closed"
  end.

(** The bytes of stripe [index]. *)
(* mpc/handle/session/mod.rs:261-267 TcpSession::send (one stripe) *)
Definition stripe (serialized : list Z) (stripe_count index : nat) : list Z :=
  let stripe_base_len := (length serialized / stripe_count)%nat in
  let extra_bytes := (length serialized mod stripe_count)%nat in
  let start := (index * stripe_base_len + index `min` extra_bytes)%nat in
  let len := (stripe_base_len + (if index <? extra_bytes then 1 else 0))%nat in
  take len (drop start serialized).

(** The loop over the stripes; on an error the fragments sent so far stay sent. *)
(* mpc/handle/session/mod.rs:264-274 TcpSession::send (loop) *)
Fixpoint send_stripes (session_id sequence : Z) (serialized : list Z) (stripe_count first_connection : nat)
    (t : list OutStream) (indices : list nat) : list OutStream * result unit :=
  match indices with
  | [] => (t, Ok tt)
  | index :: indices =>
      let connection := ((first_connection + index) mod length t)%nat in
      match fragment_encode sequence (Z.of_nat (length serialized)) index stripe_count (stripe serialized stripe_count index) with
      | Err e => (t, Err e)
      | Ok fragment =>
          match stream_send t connection (session_id, fragment) with
          | Err e => (t, Err e)
          | Ok t => send_stripes session_id sequence serialized stripe_count first_connection t indices
          end
      end
  end.

Definition get_stripe_count (connections len : nat) : nat := connections `min` (div_ceil len MIN_BYTES_PER_STRIPE `max` 1).

(* mpc/handle/session/mod.rs:232-276 TcpSession::send *)
Definition tcp_send (session_id : Z) (peer : PeerIo) (value : NetworkValue) : PeerIo * result unit :=
  if (length (tx peer) =? 0)%nat then (peer, bail "striped MPC session has no connections")
  else if (length (tx peer) =? 1)%nat then
    match stream_send (tx peer) 0 (session_id, value) with
    | Ok t => (set_tx peer t, Ok tt)
    | Err e => (peer, Err e)
    end
  else match into_network value with
  | Err e => (peer, Err e)
  | Ok serialized =>
      let stripe_count := get_stripe_count (length (tx peer)) (length serialized) in
      let sequence := next_send_sequence peer in
      if negb (sequence + 1 <? 2 ^ 64) then (peer, bail "striped MPC send sequence exhausted")
      else
        let first_connection := Z.to_nat (sequence mod Z.of_nat (length (tx peer))) in
        let '(t, r) := send_stripes session_id sequence serialized stripe_count first_connection (tx peer) (seq 0 stripe_count) in
        (mkPeerIo t (rx peer) (sequence + 1) (next_receive_sequence peer) (pending peer), r)
  end.

(* mpc/handle/session/mod.rs:203-221 TcpSession::take_completed *)
Definition take_completed (peer : PeerIo) : PeerIo * result (option NetworkValue) :=
  let sequence := next_receive_sequence peer in
  match pending peer !! sequence with
  | Some assembly =>
      if is_complete assembly then
        let removed := delete sequence (pending peer) in
        if negb (sequence + 1 <? 2 ^ 64)
        then (mkPeerIo (tx peer) (rx peer) (next_send_sequence peer) sequence removed, bail "striped MPC receive sequence exhausted")
        else (mkPeerIo (tx peer) (rx peer) (next_send_sequence peer) (sequence + 1) removed, Some <$> assemble assembly)
      else (peer, Ok None)
  | None => (peer, Ok None)
  end.

(** A fragment is taken from the channel and put into its assembly. *)
(* mpc/handle/session/mod.rs:306-318 TcpSession::receive (one fragment) *)
Definition take_fragment (max_fragments : nat) (peer : PeerIo) (value : NetworkValue) (rest : list NetworkValue) : PeerIo * result unit :=
  let peer := mkPeerIo (tx peer) rest (next_send_sequence peer) (next_receive_sequence peer) (pending peer) in
  match fragment_decode value with
  | Err e => (peer, Err e)
  | Ok fragment =>
      if negb (f_count fragment <=? max_fragments)%nat then (peer, bail "striped MPC message exceeds configured connection count")
      else if negb (next_receive_sequence peer <=? f_sequence fragment) then (peer, bail "received a stale striped MPC message")
      else
        let '(a, r) := assembly_insert (default (assembly_new fragment) (pending peer !! f_sequence fragment)) fragment in
        (mkPeerIo (tx peer) rest (next_send_sequence peer) (next_receive_sequence peer) (<[f_sequence fragment := a]> (pending peer)), r)
  end.

Definition TIMEOUT : string := "Timeout while waiting for striped message".

(** The loop ends at the latest with a timeout when the channel has no more
    messages. *)
(* mpc/handle/session/mod.rs:297-319 TcpSession::receive (loop) *)
Fixpoint receive_loop (max_fragments : nat) (fuel : nat) (peer : PeerIo) : PeerIo * result NetworkValue :=
  match take_completed peer with
  | (peer, Err e) => (peer, Err e)
  | (peer, Ok (Some value)) => (peer, Ok value)
  | (peer, Ok None) =>
      match fuel, rx peer with
      | S fuel, value :: rest =>
          match take_fragment max_fragments peer value rest with
          | (peer, Err e) => (peer, Err e)
          | (peer, Ok _) => receive_loop max_fragments fuel peer
          end
      | _, _ => (peer, bail TIMEOUT)
      end
  end.

(** One connection: the message is not framed. *)
(* mpc/handle/session/mod.rs:278-329 TcpSession::receive *)
Definition tcp_receive (max_fragments : nat) (peer : PeerIo) : PeerIo * result NetworkValue :=
  if (length (tx peer) =? 1)%nat then
    match rx peer with
    | [] => (peer, bail "Timeout while waiting for message")
    | value :: rest => (mkPeerIo (tx peer) rest (next_send_sequence peer) (next_receive_sequence peer) (pending peer), Ok value)
    end
  else receive_loop max_fragments (length (rx peer)) peer.

(** ** A link: a sender and a receiver

    The streams of the sender are the connections; a connection may deliver the
    message at its head at any time, into the one channel of the receiver. *)

Record link := mkLink { sender : PeerIo; receiver : PeerIo; sent : list NetworkValue; got : list NetworkValue; failures : list error }.

Inductive link_action := LSend (v : NetworkValue) | LDeliver (c : nat) | LReceive.

(** What the receiver should get for a value. *)
Definition arrival (v : NetworkValue) : result NetworkValue := bytes ← into_network v; deserialize bytes.

Section Link.
Context (session_id : Z) (max_fragments : nat).

(** Any result other than a value and a timeout is a failure. *)
Definition link_step (l : link) (a : link_action) : option link :=
  match a with
  | LSend v =>
      match arrival v with
      | Ok v' =>
          let '(p, r) := tcp_send session_id (sender l) v in
          Some (match r with
                | Ok _ => mkLink p (receiver l) (sent l ++ [v']) (got l) (failures l)
                | Err e => mkLink p (receiver l) (sent l) (got l) (failures l ++ [e])
                end)
      | Err _ => None
      end
  | LDeliver c =>
      match tx (sender l) !! c with
      | Some (mkOut o ((_, v) :: q)) =>
          Some (mkLink (set_tx (sender l) (<[c := mkOut o q]> (tx (sender l))))
            (mkPeerIo (tx (receiver l)) (rx (receiver l) ++ [v]) (next_send_sequence (receiver l))
               (next_receive_sequence (receiver l)) (pending (receiver l)))
            (sent l) (got l) (failures l))
      | _ => None
      end
  | LReceive =>
      let '(p, r) := tcp_receive max_fragments (receiver l) in
      Some (match r with
            | Ok v => mkLink (sender l) p (sent l) (got l ++ [v]) (failures l)
            | Err e => mkLink (sender l) p (sent l) (got l) (if decide (e = Eyre TIMEOUT) then failures l else failures l ++ [e])
            end)
  end.

Fixpoint link_run (l : link) (acts : list link_action) : option link :=
  match acts with [] => Some l | a :: acts => l ← link_step l a; link_run l acts end.
End Link.

(** [n] open connections, nothing sent. *)
Definition link_new (n : nat) : link :=
  mkLink (peer_io_new (replicate n (mkOut true []))) (peer_io_new (replicate n (mkOut true []))) [] [] [].

(** ** Lemmas: stripes *)

Lemma concat_slices {A} (st : nat -> nat) (b : list A) c :
  st 0%nat = 0%nat -> (forall i, (st i <= st (S i))%nat) ->
  concat ((fun i => take (st (S i) - st i) (drop (st i) b)) <$> seq 0 c) = take (st c) b.
Proof.
  intros H0 Hm. induction c as [|c IH]; [by rewrite H0|].
  rewrite seq_S, fmap_app, concat_app, IH. simpl. rewrite app_nil_r.
  rewrite <- (take_drop (st c) (take (st (S c)) b)) at 1.
  rewrite take_take, Nat.min_l by apply Hm. f_equal. by rewrite skipn_firstn_comm.
Qed.

(** The stripes of a message are the message. *)
Lemma concat_stripes b c : (0 < c)%nat -> concat (stripe b c <$> seq 0 c) = b.
Proof.
  intros Hc. set (q := (length b / c)%nat). set (e := (length b mod c)%nat).
  set (st := fun i => (i * q + i `min` e)%nat).
  assert (Hlen : length b = (c * q + e)%nat) by (unfold q, e; rewrite (Nat.div_mod_eq (length b) c) at 1; lia).
  assert (He : (e < c)%nat) by (apply Nat.mod_upper_bound; lia).
  transitivity (concat ((fun i => take (st (S i) - st i) (drop (st i) b)) <$> seq 0 c)).
  - f_equal. apply list_fmap_ext. intros _ i _. unfold stripe, st. fold q e. rewrite Nat.mul_succ_l. f_equal.
    generalize (i * q)%nat. intros m. destruct (Nat.ltb_spec i e); lia.
  - rewrite concat_slices; [|done|intros i; unfold st; rewrite Nat.mul_succ_l; lia]. apply take_ge. unfold st. lia.
Qed.

Lemma stripe_count_pos n len : (0 < n)%nat -> (0 < get_stripe_count n len <= n)%nat.
Proof. unfold get_stripe_count. lia. Qed.

(** ** Lemmas: chunks *)

Fixpoint filled (l : list (option (list Z))) : nat :=
  match l with [] => 0 | Some _ :: l => S (filled l) | None :: l => filled l end.
Fixpoint filled_len (l : list (option (list Z))) : Z :=
  match l with [] => 0 | Some p :: l => Z.of_nat (length p) + filled_len l | None :: l => filled_len l end.

Lemma filled_insert l i p : l !! i = Some None ->
  filled (<[i := Some p]> l) = S (filled l) /\ filled_len (<[i := Some p]> l) = filled_len l + Z.of_nat (length p).
Proof.
  revert i; induction l as [|[q|] l IH]; intros [|i] H; simpl in *; try done;
    [destruct (IH i H) as [E1 E2]; rewrite E1, E2|..|destruct (IH i H) as [E1 E2]; rewrite E1, E2]; split; lia || done.
Qed.

Lemma filled_replicate c : filled (replicate c None) = 0%nat /\ filled_len (replicate c None) = 0.
Proof. by induction c. Qed.

(** Chunks that hold, where they are filled, the pieces [g]. *)
Definition pieces (g : nat -> list Z) (k : nat) (l : list (option (list Z))) : Prop :=
  forall i p, l !! i = Some (Some p) -> p = g (k + i)%nat.

Lemma pieces_cons g k x l : pieces g k (x :: l) -> pieces g (S k) l.
Proof. intros H i p Hi. rewrite Nat.add_succ_comm. by apply (H (S i)). Qed.

Lemma pieces_len g k l : pieces g k l -> filled_len l <= Z.of_nat (length (concat (g <$> seq k (length l)))).
Proof.
  revert k; induction l as [|x l IH]; intros k H; [done|].
  specialize (IH (S k) (pieces_cons _ _ _ _ H)). cbn [length seq filled_len]. rewrite fmap_cons. cbn [concat].
  rewrite length_app. destruct x as [p|]; [|lia].
  rewrite (H 0%nat p eq_refl), Nat.add_0_r. lia.
Qed.

Lemma filled_le l : (filled l <= length l)%nat.
Proof. induction l as [|[]]; simpl; lia. Qed.

Lemma pieces_filled g k l : pieces g k l -> filled l = length l -> l = Some ∘ g <$> seq k (length l).
Proof.
  revert k; induction l as [|x l IH]; intros k H Hf; [done|]. cbn [length seq]. rewrite fmap_cons.
  pose proof (filled_le l). destruct x as [p|]; simpl in Hf; [|lia].
  rewrite (H 0%nat p eq_refl), Nat.add_0_r. f_equal. apply IH; [by eapply pieces_cons|lia].
Qed.

Lemma filled_all l : (forall i, (i < length l)%nat -> exists p, l !! i = Some (Some p)) -> filled l = length l.
Proof.
  induction l as [|x l IH]; intros H; [done|]. destruct (H 0%nat ltac:(simpl; lia)) as [p [= ->]]. simpl. f_equal.
  apply IH. intros i Hi. apply (H (S i)). simpl. lia.
Qed.

(** ** The invariant of a link *)

Section Invariant.
Context (n : nat).

(** [msgs] are the bytes of the messages sent so far; fragment [i] of message
    [s] is the value that carries it. *)
Definition msg_bytes (msgs : list (list Z)) (s : nat) : list Z := nth s msgs [].
Definition msg_count (msgs : list (list Z)) (s : nat) : nat := get_stripe_count n (length (msg_bytes msgs s)).
Definition piece (msgs : list (list Z)) (s i : nat) : list Z := stripe (msg_bytes msgs s) (msg_count msgs s) i.
Definition frag_value (msgs : list (list Z)) (f : nat * nat) : NetworkValue :=
  VBytes (STRIPE_MAGIC ++ to_le_bytes 8 (Z.of_nat f.1) ++ to_le_bytes 8 (Z.of_nat (length (msg_bytes msgs f.1))) ++
    to_le_bytes 4 (Z.of_nat f.2) ++ to_le_bytes 4 (Z.of_nat (msg_count msgs f.1)) ++ piece msgs f.1 f.2).

Definition msg_ok (b : list Z) (v : NetworkValue) : Prop := 0 < Z.of_nat (length b) < 2 ^ 64 /\ deserialize b = Ok v.

Lemma msg_count_bound msgs s : (2 <= n)%nat -> (0 < msg_count msgs s <= n)%nat.
Proof. intros Hn. apply stripe_count_pos. lia. Qed.

Lemma decode_frag msgs s i :
  (2 <= n)%nat -> Z.of_nat n < 2 ^ 32 -> Z.of_nat s < 2 ^ 64 -> 0 < Z.of_nat (length (msg_bytes msgs s)) < 2 ^ 64 -> (i < msg_count msgs s)%nat ->
  fragment_decode (frag_value msgs (s, i)) =
  Ok (mkFragment (Z.of_nat s) (Z.of_nat (length (msg_bytes msgs s))) i (msg_count msgs s) (piece msgs s i)).
Proof.
  intros Hn Hn32 Hs Hb Hi. pose proof (msg_count_bound msgs s Hn) as Hc. unfold frag_value, fragment_decode. cbn [fst snd].
  set (L := Z.of_nat (length (msg_bytes msgs s))) in *. set (p := piece msgs s i).
  set (c := msg_count msgs s) in *. set (bs := STRIPE_MAGIC ++ _).
  change (take 8 bs) with STRIPE_MAGIC. change (take 8 (drop 8 bs)) with (to_le_bytes 8 (Z.of_nat s)).
  change (take 8 (drop 16 bs)) with (to_le_bytes 8 L). change (take 4 (drop 24 bs)) with (to_le_bytes 4 (Z.of_nat i)).
  change (take 4 (drop 28 bs)) with (to_le_bytes 4 (Z.of_nat c)). change (drop STRIPE_HEADER_BYTES bs) with p.
  replace (length bs <? STRIPE_HEADER_BYTES)%nat with false
    by (symmetry; apply Nat.ltb_ge; unfold bs, STRIPE_HEADER_BYTES, STRIPE_MAGIC; rewrite !length_app, !length_to_le; cbn [length]; lia).
  rewrite bool_decide_eq_true_2 by done. cbn [negb].
  rewrite !from_to_le by (simpl; lia). rewrite !Nat2Z.id.
  rewrite (proj2 (Nat.ltb_lt 0 c)), (proj2 (Nat.ltb_lt i c)), (proj2 (Z.ltb_lt 0 L)) by lia. done.
Qed.

Lemma encode_frag msgs s i :
  (2 <= n)%nat -> Z.of_nat n < 2 ^ 32 -> (i < msg_count msgs s)%nat ->
  fragment_encode (Z.of_nat s) (Z.of_nat (length (msg_bytes msgs s))) i (msg_count msgs s) (piece msgs s i) = Ok (frag_value msgs (s, i)).
Proof.
  intros Hn Hn32 Hi. pose proof (msg_count_bound msgs s Hn). unfold fragment_encode, u32_try_from.
  rewrite !(proj2 (Z.ltb_lt _ _)) by lia. done.
Qed.

Definition assembly_ok (msgs : list (list Z)) (s : nat) (a : Assembly) : Prop :=
  total_len a = Z.of_nat (length (msg_bytes msgs s)) /\ length (chunks a) = msg_count msgs s /\
  pieces (piece msgs s) 0 (chunks a) /\ received a = filled (chunks a) /\ received_len a = filled_len (chunks a).

(** Fragment [i] of message [s] has been put into its assembly. *)
Definition have (P : gmap Z Assembly) (s i : nat) : bool :=
  match P !! Z.of_nat s with
  | Some a => match chunks a !! i with Some (Some _) => true | _ => false end
  | None => false
  end.

(** [F] are the fragments on their way. *)
Record link_inv (msgs : list (list Z)) (vs : list NetworkValue) (nr : nat) (P : gmap Z Assembly) (F : list (nat * nat)) : Prop := {
  inv_msgs : Forall2 msg_ok msgs vs;
  inv_next : (nr <= length msgs)%nat;
  inv_seq : Z.of_nat (length msgs) < 2 ^ 64;
  inv_nodup : NoDup F;
  inv_flight s i : (s, i) ∈ F <-> (nr <= s < length msgs)%nat /\ (i < msg_count msgs s)%nat /\ have P s i = false;
  inv_pending k a : P !! k = Some a -> exists s, k = Z.of_nat s /\ (nr <= s < length msgs)%nat /\ assembly_ok msgs s a;
}.

Lemma assembly_new_ok msgs s i :
  assembly_ok msgs s (assembly_new (mkFragment (Z.of_nat s) (Z.of_nat (length (msg_bytes msgs s))) i (msg_count msgs s) (piece msgs s i))).
Proof.
  unfold assembly_new. destruct (filled_replicate (msg_count msgs s)) as [E1 E2]. split_and!; simpl; [done|apply length_replicate| |done|done].
  intros j p Hj. by apply lookup_replicate_1 in Hj as [? _].
Qed.

(** A fragment that is missing is accepted. *)
Lemma assembly_insert_ok msgs s i a :
  assembly_ok msgs s a -> chunks a !! i = Some None -> concat (piece msgs s <$> seq 0 (msg_count msgs s)) = msg_bytes msgs s ->
  exists a', assembly_insert a (mkFragment (Z.of_nat s) (Z.of_nat (length (msg_bytes msgs s))) i (msg_count msgs s) (piece msgs s i)) = (a', Ok tt) /\
    assembly_ok msgs s a' /\ chunks a' = <[i := Some (piece msgs s i)]> (chunks a).
Proof.
  intros (Ht & Hl & Hp & Hr & Hrl) Hi Hc. unfold assembly_insert. cbn [f_total_len f_count f_index f_payload].
  rewrite Ht, Hl, Z.eqb_refl, Nat.eqb_refl, Hi. cbn [andb negb].
  destruct (filled_insert _ _ (piece msgs s i) Hi) as [E1 E2].
  assert (Hp' : pieces (piece msgs s) 0 (<[i := Some (piece msgs s i)]> (chunks a))).
  { intros j p Hj. destruct (decide (i = j)) as [->|Hij].
    - rewrite list_lookup_insert_eq in Hj by (by eapply lookup_lt_Some). by simplify_eq.
    - rewrite list_lookup_insert_ne in Hj by done. by apply Hp. }
  pose proof (pieces_len _ _ _ Hp') as Hle. rewrite length_insert, Hl, Hc, E2 in Hle. rewrite Hrl.
  rewrite (proj2 (Z.leb_le _ _)) by lia. cbn [negb]. eexists. split; [done|]. split; [|done].
  split_and!; simpl; [done|by rewrite length_insert|done|by rewrite E1, Hr|by rewrite E2].
Qed.

Lemma concat_pieces msgs s : (2 <= n)%nat -> concat (piece msgs s <$> seq 0 (msg_count msgs s)) = msg_bytes msgs s.
Proof. intros Hn. apply concat_stripes. by apply msg_count_bound. Qed.

(** A complete assembly gives the message back. *)
Lemma assemble_ok msgs s a v :
  (2 <= n)%nat -> assembly_ok msgs s a -> is_complete a = true -> deserialize (msg_bytes msgs s) = Ok v -> assemble a = Ok v.
Proof.
  intros Hn (Ht & Hl & Hp & Hr & Hrl) Hc Hd. unfold assemble. rewrite Hc. cbn [negb].
  unfold is_complete in Hc. apply Nat.eqb_eq in Hc. rewrite Hr in Hc.
  pose proof (pieces_filled _ _ _ Hp Hc) as E. rewrite Hl in E.
  assert (EL : filled_len (chunks a) = Z.of_nat (length (msg_bytes msgs s))).
  { rewrite E, <- (concat_pieces msgs s Hn). clear. generalize 0%nat. induction (msg_count msgs s) as [|m IH]; intros k; [done|].
    cbn [seq]. rewrite !fmap_cons. cbn [filled_len compose concat]. rewrite IH, length_app. lia. }
  rewrite Hrl, EL, Ht, Z.eqb_refl. cbn [negb]. rewrite E.
  rewrite (mapM_result_ok _ (fun c => default [] c)).
  2: { intros c Hx. apply list_elem_of_fmap in Hx as (j & -> & _). done. }
  cbn [mbind result_bind]. rewrite <- list_fmap_compose. rewrite <- Hd. f_equal. by apply concat_pieces.
Qed.

(** *** Receiving *)

Lemma inv_value msgs vs nr P F s :
  link_inv msgs vs nr P F -> (s < length msgs)%nat ->
  exists v, vs !! s = Some v /\ msg_ok (msg_bytes msgs s) v.
Proof.
  intros H Hs. destruct (lookup_lt_is_Some_2 _ _ Hs) as [b Hb].
  destruct (Forall2_lookup_l _ _ _ _ _ (inv_msgs _ _ _ _ _ H) Hb) as (v & Hv & Hok). exists v. split; [done|].
  unfold msg_bytes. by rewrite (nth_lookup_Some _ _ _ _ Hb).
Qed.

Lemma have_lookup P s i a : P !! Z.of_nat s = Some a -> have P s i = true -> exists p, chunks a !! i = Some (Some p).
Proof. unfold have. intros ->. destruct (chunks a !! i) as [[p|]|]; [by exists p|done..]. Qed.

(** The next message, when it is complete. *)
Lemma take_completed_some msgs vs nr F p a :
  (2 <= n)%nat -> link_inv msgs vs nr (pending p) F -> next_receive_sequence p = Z.of_nat nr ->
  pending p !! Z.of_nat nr = Some a -> is_complete a = true ->
  exists v, vs !! nr = Some v /\
    take_completed p = (mkPeerIo (tx p) (rx p) (next_send_sequence p) (Z.of_nat (S nr)) (delete (Z.of_nat nr) (pending p)), Ok (Some v)) /\
    link_inv msgs vs (S nr) (delete (Z.of_nat nr) (pending p)) F.
Proof.
  intros Hn H En Ha Hc. destruct (inv_pending _ _ _ _ _ H _ _ Ha) as (s & Es & Hs & Hok).
  assert (s = nr) as -> by lia. destruct (inv_value _ _ _ _ _ nr H ltac:(lia)) as (v & Hv & Hb & Hd).
  exists v. split; [done|]. split.
  - unfold take_completed. rewrite En, Ha, Hc. pose proof (inv_seq _ _ _ _ _ H).
    rewrite (proj2 (Z.ltb_lt _ _)) by lia. cbn [negb]. rewrite (assemble_ok _ _ _ v Hn Hok Hc Hd).
    do 2 f_equal. lia.
  - destruct H as [H1 H2 H3 H4 H5 H6]. split; [done|lia|done|done| |].
    + intros s i. rewrite H5. unfold have. destruct (decide (s = nr)) as [->|Hne].
      * rewrite Ha. split; [|lia]. intros (_ & Hi & Hh). exfalso.
        destruct Hok as (_ & Hl & Hp & Hr & _). unfold is_complete in Hc. apply Nat.eqb_eq in Hc.
        rewrite (pieces_filled _ _ _ Hp) in Hh by lia. rewrite list_lookup_fmap, lookup_seq_lt in Hh by lia. done.
      * rewrite lookup_delete_ne by lia. split; intros (? & ? & ?); (split; [lia|done]).
    + intros k a' Hk. apply lookup_delete_Some in Hk as [Hne Hk]. destruct (H6 _ _ Hk) as (s & -> & Hs' & Hok').
      exists s. split; [done|]. split; [lia|done].
Qed.

(** Otherwise one of its fragments is on its way, if it has been sent. *)
Lemma take_completed_none msgs vs nr F p :
  (2 <= n)%nat -> link_inv msgs vs nr (pending p) F -> next_receive_sequence p = Z.of_nat nr ->
  (forall a, pending p !! Z.of_nat nr = Some a -> is_complete a = false) ->
  take_completed p = (p, Ok None) /\ (nr < length msgs -> F <> [])%nat.
Proof.
  intros Hn H En Ha. split.
  - unfold take_completed. rewrite En. destruct (pending p !! Z.of_nat nr) as [a|] eqn:E; [|done]. by rewrite (Ha a eq_refl).
  - intros Hlt ->. pose proof (msg_count_bound msgs nr Hn).
    assert (Hall : forall i, (i < msg_count msgs nr)%nat -> have (pending p) nr i = true).
    { intros i Hi. destruct (have (pending p) nr i) eqn:E; [done|].
      assert (Hin : (nr, i) ∈ ([] : list (nat * nat))) by (apply (inv_flight _ _ _ _ _ H); auto with lia). set_solver. }
    destruct (pending p !! Z.of_nat nr) as [a|] eqn:E.
    + destruct (inv_pending _ _ _ _ _ H _ _ E) as (s & Es & _ & (_ & Hl & _ & Hr & _)). assert (s = nr) as -> by lia.
      specialize (Ha a eq_refl). unfold is_complete in Ha. apply Nat.eqb_neq in Ha. apply Ha. rewrite Hr. apply filled_all.
      intros i Hi. eapply have_lookup; [done|]. apply Hall. lia.
    + specialize (Hall 0%nat ltac:(lia)). unfold have in Hall. by rewrite E in Hall.
Qed.

Lemma take_fragment_inv msgs vs nr F max p s i rest :
  (2 <= n)%nat -> Z.of_nat n < 2 ^ 32 -> (n <= max)%nat ->
  link_inv msgs vs nr (pending p) ((s, i) :: F) -> next_receive_sequence p = Z.of_nat nr ->
  exists P', take_fragment max p (frag_value msgs (s, i)) rest =
      (mkPeerIo (tx p) rest (next_send_sequence p) (next_receive_sequence p) P', Ok tt) /\
    link_inv msgs vs nr P' F.
Proof.
  intros Hn Hn32 Hmax H En.
  destruct (proj1 (inv_flight _ _ _ _ _ H s i) ltac:(set_solver)) as (Hs & Hi & Hh).
  destruct (inv_value _ _ _ _ _ s H ltac:(lia)) as (v & Hv & Hb & Hd). pose proof (msg_count_bound msgs s Hn) as Hcb.
  pose proof (inv_seq _ _ _ _ _ H) as Hseq. unfold take_fragment. rewrite decode_frag by (done || lia).
  cbn [f_count f_sequence pending next_receive_sequence tx next_send_sequence].
  rewrite (proj2 (Nat.leb_le _ _)), En, (proj2 (Z.leb_le _ _)) by lia. cbn [negb].
  set (fr := mkFragment _ _ _ _ _).
  set (a := default (assembly_new fr) (pending p !! Z.of_nat s)).
  assert (Ha : assembly_ok msgs s a /\ chunks a !! i = Some None).
  { unfold a. unfold have in Hh. destruct (pending p !! Z.of_nat s) as [a0|] eqn:E; simpl.
    - destruct (inv_pending _ _ _ _ _ H _ _ E) as (s' & Es & _ & Hok). assert (s' = s) as -> by lia. split; [done|].
      destruct Hok as (_ & Hl & _). destruct (lookup_lt_is_Some_2 (chunks a0) i ltac:(lia)) as [c Hc].
      rewrite Hc in Hh |- *. by destruct c.
    - split; [apply assembly_new_ok|]. by apply lookup_replicate_2. }
  destruct Ha as [Hok Hnone].
  destruct (assembly_insert_ok msgs s i a Hok Hnone (concat_pieces msgs s Hn)) as (a' & Ea & Hok' & Hch).
  fold fr in Ea. rewrite Ea.
  eexists. split; [done|]. destruct H as [H1 H2 H3 H4 H5 H6].
  apply NoDup_cons in H4 as [Hnin H4]. split; [done|lia|done|done| |].
  - intros s' i'. transitivity ((s', i') ∈ (s, i) :: F /\ (s', i') <> (s, i)).
    { set_solver. }
    rewrite H5. unfold have. destruct (decide (s' = s)) as [->|Hne].
    + rewrite lookup_insert_eq, Hch. destruct (decide (i' = i)) as [->|Hni].
      * rewrite list_lookup_insert_eq by (by eapply lookup_lt_Some). naive_solver.
      * rewrite list_lookup_insert_ne by done. unfold a. destruct (pending p !! Z.of_nat s) as [a0|]; simpl; [naive_solver|].
        destruct (replicate (msg_count msgs s) None !! i') as [[q|]|] eqn:Er; [|naive_solver..].
        by apply lookup_replicate_1 in Er as [? _].
    + rewrite lookup_insert_ne by lia. naive_solver.
  - intros k a0 Hk. destruct (decide (k = Z.of_nat s)) as [->|Hne].
    + rewrite lookup_insert_eq in Hk. simplify_eq. exists s. split; [done|]. split; [lia|done].
    + rewrite lookup_insert_ne in Hk by done. auto.
Qed.

Lemma complete_dec (P : gmap Z Assembly) k :
  (exists a, P !! k = Some a /\ is_complete a = true) \/ (forall a, P !! k = Some a -> is_complete a = false).
Proof.
  destruct (P !! k) as [a|]; [|by right]. destruct (is_complete a) eqn:E; [left; eauto|right]. intros a' [= <-]. done.
Qed.

Lemma receive_loop_spec msgs vs max rids Fq : forall nr p,
  (2 <= n)%nat -> Z.of_nat n < 2 ^ 32 -> (n <= max)%nat ->
  link_inv msgs vs nr (pending p) (rids ++ Fq) -> next_receive_sequence p = Z.of_nat nr -> rx p = frag_value msgs <$> rids ->
  exists p' r nr' rids', receive_loop max (length rids) p = (p', r) /\
    link_inv msgs vs nr' (pending p') (rids' ++ Fq) /\ next_receive_sequence p' = Z.of_nat nr' /\
    rx p' = frag_value msgs <$> rids' /\ tx p' = tx p /\
    ((exists v, r = Ok v /\ vs !! nr = Some v /\ nr' = S nr) \/
     (r = bail TIMEOUT /\ nr' = nr /\ rids' = [] /\ (Fq = [] -> nr = length msgs))).
Proof.
  induction rids as [|[s i] rids IH]; intros nr p Hn Hn32 Hmax H En Erx; cbn [length receive_loop].
  - destruct (complete_dec (pending p) (Z.of_nat nr)) as [(a & Ha & Hc)|Hno].
    + destruct (take_completed_some _ _ _ _ _ _ Hn H En Ha Hc) as (v & Hv & -> & H'). do 4 eexists. split; [done|].
      split; [exact H'|]. split; [done|]. split; [done|]. split; [done|]. left. eauto.
    + destruct (take_completed_none _ _ _ _ _ Hn H En Hno) as [-> HF].
      exists p, (bail TIMEOUT), nr, []. split; [done|]. split; [done|]. split; [done|]. split; [done|]. split; [done|].
      right. split; [done|]. split; [done|]. split; [done|]. intros ->. pose proof (inv_next _ _ _ _ _ H).
      destruct (decide (nr = length msgs)); [done|]. exfalso. apply HF; [lia|done].
  - destruct (complete_dec (pending p) (Z.of_nat nr)) as [(a & Ha & Hc)|Hno].
    + destruct (take_completed_some _ _ _ _ _ _ Hn H En Ha Hc) as (v & Hv & -> & H'). do 4 eexists. split; [done|].
      split; [exact H'|]. split; [done|]. split; [exact Erx|]. split; [done|]. left. eauto.
    + destruct (take_completed_none _ _ _ _ _ Hn H En Hno) as [-> HF].
      rewrite Erx. rewrite fmap_cons.
      destruct (take_fragment_inv _ _ _ _ max p _ _ (frag_value msgs <$> rids) Hn Hn32 Hmax H En) as (P' & -> & H').
      apply (IH nr (mkPeerIo _ _ _ _ P')); done.
Qed.

(** *** Sending and delivering *)

Lemma concat_replace {A} (qs : list (list A)) c q :
  qs !! c = Some q -> exists rest, concat qs ≡ₚ q ++ rest /\ forall q', concat (<[c := q']> qs) ≡ₚ q' ++ rest.
Proof.
  revert c; induction qs as [|x qs IH]; intros [|c] H; simplify_eq/=.
  - exists (concat qs). done.
  - destruct (IH c H) as (rest & E & E'). exists (x ++ rest). split.
    + rewrite E. by rewrite !app_assoc, (Permutation_app_comm x q).
    + intros q'. rewrite E'. by rewrite !app_assoc, (Permutation_app_comm x q').
Qed.

(** The streams that hold the fragments [qids]. *)
Definition out_streams (session_id : Z) (msgs : list (list Z)) (qids : list (list (nat * nat))) : list OutStream :=
  (fun q => mkOut true ((fun f => (session_id, frag_value msgs f)) <$> q)) <$> qids.

Lemma stream_send_spec session_id msgs qids c f :
  (c < length qids)%nat ->
  exists qids', stream_send (out_streams session_id msgs qids) c (session_id, frag_value msgs f) = Ok (out_streams session_id msgs qids') /\
    length qids' = length qids /\ concat qids' ≡ₚ concat qids ++ [f].
Proof.
  intros Hc. destruct (lookup_lt_is_Some_2 _ _ Hc) as [q Hq]. exists (<[c := q ++ [f]]> qids).
  unfold stream_send, out_streams. rewrite list_lookup_fmap, Hq. cbn [fmap option_fmap option_map os_open os_queue]. split; [|split].
  - f_equal. rewrite list_fmap_insert. cbn beta. by rewrite fmap_app.
  - apply length_insert.
  - destruct (concat_replace _ _ _ Hq) as (rest & E & E'). rewrite E, E', <- !app_assoc.
    apply Permutation_app_head. apply Permutation_app_comm.
Qed.

Lemma send_stripes_spec session_id msgs s first indices qids :
  (2 <= n)%nat -> Z.of_nat n < 2 ^ 32 -> length qids = n -> Forall (fun i => (i < msg_count msgs s)%nat) indices ->
  exists qids', send_stripes session_id (Z.of_nat s) (msg_bytes msgs s) (msg_count msgs s) first (out_streams session_id msgs qids) indices
      = (out_streams session_id msgs qids', Ok tt) /\
    length qids' = n /\ concat qids' ≡ₚ concat qids ++ (pair s <$> indices).
Proof.
  intros Hn Hn32 Hl HF; revert qids Hl; induction HF as [|i indices Hi _ IH]; intros qids Hl.
  { exists qids. split; [done|]. split; [done|]. by rewrite app_nil_r. }
  cbn [send_stripes]. change (stripe (msg_bytes msgs s) (msg_count msgs s) i) with (piece msgs s i).
  rewrite encode_frag by done.
  destruct (stream_send_spec session_id msgs qids ((first + i) mod length (out_streams session_id msgs qids)) (s, i)) as (q1 & -> & L1 & E1).
  { unfold out_streams. rewrite length_fmap, Hl. apply Nat.mod_upper_bound. lia. }
  destruct (IH q1 ltac:(lia)) as (q2 & -> & L2 & E2). exists q2. split; [done|]. split; [done|].
  rewrite E2, E1, fmap_cons, <- app_assoc. done.
Qed.

Lemma msg_bytes_app msgs b s : (s < length msgs)%nat -> msg_bytes (msgs ++ [b]) s = msg_bytes msgs s.
Proof. intros H. unfold msg_bytes. by apply app_nth1. Qed.

Lemma frag_value_app msgs b f : (f.1 < length msgs)%nat -> frag_value (msgs ++ [b]) f = frag_value msgs f.
Proof. intros H. unfold frag_value, piece, msg_count. by rewrite msg_bytes_app. Qed.

Lemma assembly_ok_app msgs b s a : (s < length msgs)%nat -> assembly_ok msgs s a -> assembly_ok (msgs ++ [b]) s a.
Proof.
  intros Hs. unfold assembly_ok, pieces, piece, msg_count. by rewrite !msg_bytes_app.
Qed.

Lemma link_inv_perm msgs vs nr P F F' : F ≡ₚ F' -> link_inv msgs vs nr P F -> link_inv msgs vs nr P F'.
Proof.
  intros E [H1 H2 H3 H4 H5 H6]. split; auto; [by rewrite <- E|]. intros s i. by rewrite <- E.
Qed.

Lemma link_inv_send msgs vs nr P F b v :
  (2 <= n)%nat -> link_inv msgs vs nr P F -> msg_ok b v -> Z.of_nat (length msgs) + 1 < 2 ^ 64 ->
  link_inv (msgs ++ [b]) (vs ++ [v]) nr P (F ++ (pair (length msgs) <$> seq 0 (msg_count (msgs ++ [b]) (length msgs)))).
Proof.
  intros Hn [H1 H2 H3 H4 H5 H6] Hb Hs. split.
  - apply Forall2_app; [done|]. by constructor.
  - rewrite length_app. lia.
  - rewrite length_app. simpl. lia.
  - apply NoDup_app. split; [done|]. split.
    + intros [s i] Hin Hin'. apply H5 in Hin. apply list_elem_of_fmap in Hin' as (j & [= -> ->] & _). lia.
    + apply NoDup_fmap_2; [|apply NoDup_seq]. by intros ? ? [= ->].
  - intros s i. rewrite elem_of_app, H5, length_app. cbn [length].
    assert (Hnew : (s, i) ∈ pair (length msgs) <$> seq 0 (msg_count (msgs ++ [b]) (length msgs)) <->
      s = length msgs /\ (i < msg_count (msgs ++ [b]) (length msgs))%nat).
    { rewrite list_elem_of_fmap. setoid_rewrite elem_of_seq. naive_solver lia. }
    rewrite Hnew. destruct (decide (s < length msgs)%nat) as [Hlt|Hge].
    + assert (msg_count (msgs ++ [b]) s = msg_count msgs s) as -> by (unfold msg_count; by rewrite msg_bytes_app).
      split; [intros [?|[? _]]; [|lia]|intros ?; left]; intuition lia.
    + split; [|intros (? & ? & ?); right; split; [lia|]; by replace (length msgs) with s by lia].
      intros [(? & _)|[-> Hi]]; [lia|]. split; [lia|]. split; [done|]. unfold have.
      destruct (P !! Z.of_nat (length msgs)) as [a|] eqn:E; [|done]. destruct (H6 _ _ E) as (s' & ? & ? & _). lia.
  - intros k a Hk. destruct (H6 _ _ Hk) as (s & -> & Hs' & Hok). exists s. split; [done|]. rewrite length_app.
    split; [lia|]. apply assembly_ok_app; [lia|done].
Qed.

(** *** The link *)

Definition link_ok (session_id : Z) (bound : nat) (l : link) : Prop :=
  exists msgs nr qids rids,
    link_inv msgs (sent l) nr (pending (receiver l)) (rids ++ concat qids) /\
    tx (sender l) = out_streams session_id msgs qids /\ length qids = n /\ (length msgs <= bound)%nat /\
    next_send_sequence (sender l) = Z.of_nat (length msgs) /\
    rx (receiver l) = frag_value msgs <$> rids /\ next_receive_sequence (receiver l) = Z.of_nat nr /\
    length (tx (receiver l)) = n /\ got l = take nr (sent l) /\ failures l = [].

Lemma link_new_ok session_id : (2 <= n)%nat -> link_ok session_id 0 (link_new n).
Proof.
  intros Hn. exists [], 0%nat, (replicate n []), []. cbn [link_new sender receiver sent got failures peer_io_new tx rx pending next_send_sequence next_receive_sequence].
  split; [|split; [|split; [|split; [|split; [|split; [|split; [|split; [|split]]]]]]]]; try done.
  - assert (E : concat (replicate n ([] : list (nat * nat))) = []) by (clear; induction n; simpl; auto).
    rewrite E. split; simpl; try done; try lia; [constructor|].
    intros s i. split; [set_solver|lia].
  - unfold out_streams. by rewrite fmap_replicate.
  - apply length_replicate.
  - apply length_replicate.
Qed.

(** Fragments on their way belong to messages that were sent. *)
Lemma frag_values_app msgs vs nr P F b (l : list (nat * nat)) : link_inv msgs vs nr P F -> (forall f, f ∈ l -> f ∈ F) ->
  frag_value (msgs ++ [b]) <$> l = frag_value msgs <$> l.
Proof.
  intros H Hl. apply list_fmap_ext. intros i [s j] Hx. apply frag_value_app.
  apply list_elem_of_lookup_2, Hl, (inv_flight _ _ _ _ _ H) in Hx. simpl. lia.
Qed.

Lemma out_streams_app session_id msgs vs nr P F b qids : link_inv msgs vs nr P F -> (forall f, f ∈ concat qids -> f ∈ F) ->
  out_streams session_id (msgs ++ [b]) qids = out_streams session_id msgs qids.
Proof.
  intros H Hl. unfold out_streams. apply list_fmap_ext. intros c q Hq. f_equal.
  apply list_fmap_ext. intros i [s j] Hx. f_equal. apply frag_value_app.
  assert (Hin : (s, j) ∈ F).
  { apply Hl. apply list_elem_of_In, in_concat. exists q. rewrite <- !list_elem_of_In.
    split; by eapply list_elem_of_lookup_2. }
  apply (inv_flight _ _ _ _ _ H) in Hin. simpl. lia.
Qed.

Lemma link_send_ok session_id bound l v v' b :
  (2 <= n)%nat -> Z.of_nat n < 2 ^ 32 -> link_ok session_id bound l -> Z.of_nat bound + 1 < 2 ^ 64 ->
  into_network v = Ok b -> msg_ok b v' ->
  exists p, tcp_send session_id (sender l) v = (p, Ok tt) /\
    link_ok session_id (S bound) (mkLink p (receiver l) (sent l ++ [v']) (got l) (failures l)).
Proof.
  intros Hn Hn32 (msgs & nr & qids & rids & H & Etx & Lq & Lm & Es & Erx & Er & Lr & Eg & Ef) Hb Eb Hok.
  set (msgs' := msgs ++ [b]). set (s := length msgs).
  assert (Ebytes : msg_bytes msgs' s = b) by (unfold msg_bytes, msgs', s; rewrite app_nth2, Nat.sub_diag by lia; done).
  assert (Ltx : length (tx (sender l)) = n) by (rewrite Etx; unfold out_streams; by rewrite length_fmap).
  destruct (send_stripes_spec session_id msgs' s (Z.to_nat (Z.of_nat s mod Z.of_nat n)) (seq 0 (msg_count msgs' s)) qids Hn Hn32 Lq)
    as (qids' & E1 & L1 & P1).
  { apply Forall_forall. intros i Hi. apply elem_of_seq in Hi. lia. }
  eexists. split.
  - unfold tcp_send. rewrite Ltx, (proj2 (Nat.eqb_neq n 0)), (proj2 (Nat.eqb_neq n 1)) by lia. rewrite Eb, Es.
    rewrite (proj2 (Z.ltb_lt _ _)) by lia. cbn [negb].
    assert (Ec : get_stripe_count n (length b) = msg_count msgs' s) by (unfold msg_count; by rewrite Ebytes).
    rewrite Ec, Etx, <- (out_streams_app session_id msgs _ _ _ _ b qids H) by set_solver. fold msgs'.
    rewrite <- Ebytes at 1. fold s. rewrite E1. done.
  - exists msgs', nr, qids', rids. cbn [sender receiver sent got failures tx rx next_send_sequence next_receive_sequence pending].
    split; [|split; [done|split; [done|split; [|split; [|split; [|split; [done|split; [done|split; [|done]]]]]]]]].
    + eapply link_inv_perm; [|apply (link_inv_send _ _ _ _ _ b v' Hn H Hok); lia]. rewrite P1, app_assoc. done.
    + unfold msgs'. rewrite length_app. simpl. lia.
    + unfold msgs'. rewrite length_app. simpl. lia.
    + rewrite Erx. symmetry. apply (frag_values_app _ _ _ _ _ b rids H). set_solver.
    + rewrite Eg. pose proof (inv_next _ _ _ _ _ H). pose proof (Forall2_length _ _ _ (inv_msgs _ _ _ _ _ H)).
      rewrite take_app_le by lia. done.
Qed.

Lemma link_deliver_ok session_id bound l l' max c :
  link_ok session_id bound l -> link_step session_id max l (LDeliver c) = Some l' -> link_ok session_id bound l'.
Proof.
  intros (msgs & nr & qids & rids & H & Etx & Lq & Lm & Es & Erx & Er & Lr & Eg & Ef). simpl. rewrite Etx.
  unfold out_streams at 1. rewrite list_lookup_fmap. destruct (qids !! c) as [[|f q]|] eqn:Eq; simpl; [done| |done].
  intros [= <-]. destruct (concat_replace _ _ _ Eq) as (rest & E1 & E2).
  exists msgs, nr, (<[c := q]> qids), (rids ++ [f]).
  cbn [sender receiver sent got failures tx rx next_send_sequence next_receive_sequence pending set_tx].
  split; [|split; [|split; [by rewrite length_insert|split; [done|split; [done|split; [|done]]]]]].
  - eapply link_inv_perm; [|exact H]. rewrite E1, E2. rewrite <- app_assoc. apply Permutation_app_head. done.
  - unfold out_streams. by rewrite list_fmap_insert.
  - by rewrite Erx, fmap_app.
Qed.

Lemma link_receive_ok session_id bound l max :
  (2 <= n)%nat -> Z.of_nat n < 2 ^ 32 -> (n <= max)%nat -> link_ok session_id bound l ->
  exists p r, tcp_receive max (receiver l) = (p, r) /\
    ((exists v, r = Ok v /\ sent l !! length (got l) = Some v /\
        link_ok session_id bound (mkLink (sender l) p (sent l) (got l ++ [v]) (failures l))) \/
     (r = bail TIMEOUT /\ link_ok session_id bound (mkLink (sender l) p (sent l) (got l) (failures l)) /\
        (Forall (fun o => os_queue o = []) (tx (sender l)) -> got l = sent l))).
Proof.
  intros Hn Hn32 Hmax (msgs & nr & qids & rids & H & Etx & Lq & Lm & Es & Erx & Er & Lr & Eg & Ef).
  destruct (receive_loop_spec msgs (sent l) max rids (concat qids) nr (receiver l) Hn Hn32 Hmax H Er Erx)
    as (p & r & nr' & rids' & E & H' & Er' & Erx' & Etx' & Hcase).
  pose proof (Forall2_length _ _ _ (inv_msgs _ _ _ _ _ H)) as Hlen. pose proof (inv_next _ _ _ _ _ H) as Hnext.
  exists p, r. split.
  { unfold tcp_receive. rewrite Lr, (proj2 (Nat.eqb_neq n 1)) by lia. by rewrite Erx, length_fmap. }
  destruct Hcase as [(v & -> & Hv & ->)|(-> & -> & -> & HF)]; [left; exists v|right]; (split; [done|]); split.
  - rewrite Eg, length_take, Nat.min_l by lia. done.
  - exists msgs, (S nr), qids, rids'. cbn [sender receiver sent got failures].
    split; [done|]. repeat (split; [done || congruence|]). rewrite Eg. split; [|done].
    symmetry. by apply take_S_r.
  - exists msgs, nr, qids, []. cbn [sender receiver sent got failures].
    split; [done|]. repeat (split; [done || congruence|]). done.
  - intros Hq. rewrite Eg. enough (Hnil : concat qids = []) by (rewrite (HF Hnil), Hlen; apply firstn_all).
    rewrite Etx in Hq. unfold out_streams in Hq. rewrite Forall_fmap in Hq. clear -Hq.
    induction qids as [|q qids IH]; [done|]. apply Forall_cons in Hq as [Hq1 Hq]. simpl in Hq1.
    apply fmap_nil_inv in Hq1 as ->. simpl. auto.
Qed.

(** The messages of the program are of a size that a [usize] holds. *)
Definition fits (a : link_action) : Prop :=
  match a with LSend v => forall b, into_network v = Ok b -> Z.of_nat (length b) < 2 ^ 64 | _ => True end.

Lemma deserialize_nil v : deserialize [] <> Ok v.
Proof. done. Qed.

Lemma link_step_ok session_id max bound l a l' :
  (2 <= n)%nat -> Z.of_nat n < 2 ^ 32 -> (n <= max)%nat -> link_ok session_id bound l -> Z.of_nat bound + 1 < 2 ^ 64 -> fits a ->
  link_step session_id max l a = Some l' -> link_ok session_id (S bound) l'.
Proof.
  intros Hn Hn32 Hmax H Hb Hf E.
  assert (Hmono : forall l, link_ok session_id bound l -> link_ok session_id (S bound) l).
  { intros l0 (msgs & nr & qids & rids & ? & ? & ? & ? & ?). exists msgs, nr, qids, rids. split_and!; try done; try lia. all: tauto. }
  destruct a as [v|c|].
  - simpl in E. unfold arrival in E. destruct (into_network v) as [b|] eqn:Eb; [|done]. simpl in E.
    destruct (deserialize b) as [v'|] eqn:Ed; [|done].
    assert (Hok : msg_ok b v').
    { split; [|done]. specialize (Hf b Eb). destruct b; [by apply deserialize_nil in Ed|]. simpl in *. lia. }
    destruct (link_send_ok session_id bound l v v' b Hn Hn32 H Hb Eb Hok) as (p & Ep & Hl). rewrite Ep in E. by simplify_eq.
  - apply Hmono. by eapply link_deliver_ok.
  - apply Hmono. simpl in E. destruct (link_receive_ok session_id bound l max Hn Hn32 Hmax H) as (p & r & Ep & Hcase). rewrite Ep in E.
    destruct Hcase as [(v & -> & _ & Hl)|(-> & Hl & _)]; injection E as <-; done.
Qed.

Lemma link_run_ok session_id max acts bound l l' :
  (2 <= n)%nat -> Z.of_nat n < 2 ^ 32 -> (n <= max)%nat -> link_ok session_id bound l ->
  Z.of_nat bound + Z.of_nat (length acts) < 2 ^ 64 -> Forall fits acts ->
  link_run session_id max l acts = Some l' -> link_ok session_id (bound + length acts) l'.
Proof.
  intros Hn Hn32 Hmax; revert bound l; induction acts as [|a acts IH]; intros bound l H Hb HF E.
  - simpl in E. simplify_eq. by rewrite Nat.add_0_r.
  - apply Forall_cons in HF as [Hf HF]. simpl in E. apply bind_Some in E as (l1 & E1 & E2). cbn [length] in *.
    rewrite Nat.add_succ_r. apply (IH (S bound) l1); [|lia|done|done]. eapply link_step_ok; eauto; lia.
Qed.
End Invariant.

(** ** Claims *)

(** C5: a striped session is a queue of messages.  Over [n >= 2] connections, for
    every interleaving of sends, of deliveries by the connections and of calls of
    [receive]: the values received are exactly the first values sent, in order,
    each as it is read back from its bytes; and no call fails other than by a
    timeout. *)
Theorem striped_link_is_queue (session_id : Z) (n max_fragments : nat) (acts : list link_action) (l : link)
  (Hn : (2 <= n <= max_fragments)%nat) (Hn32 : Z.of_nat n < 2 ^ 32)
  (Hl : Z.of_nat (length acts) < 2 ^ 64) (Hf : Forall fits acts)
  (Hr : link_run session_id max_fragments (link_new n) acts = Some l) :
  got l = take (length (got l)) (sent l) /\ failures l = [].
Proof.
  destruct (link_run_ok n session_id max_fragments acts 0 (link_new n) l) as
    (msgs & nr & qids & rids & H & _ & _ & _ & _ & _ & _ & _ & Eg & Ef); try done; try lia; [apply link_new_ok; lia|].
  split; [|done]. pose proof (Forall2_length _ _ _ (inv_msgs _ _ _ _ _ _ H)). pose proof (inv_next _ _ _ _ _ _ H).
  rewrite Eg at 2. rewrite length_take, Nat.min_l by lia. done.
Qed.

(** C35: nothing is lost: once the connections have delivered everything, every
    call of [receive] returns the next value until all values sent have been
    received. *)
Theorem striped_link_complete (session_id : Z) (n max_fragments : nat) (acts : list link_action) (l : link)
  (Hn : (2 <= n <= max_fragments)%nat) (Hn32 : Z.of_nat n < 2 ^ 32)
  (Hl : Z.of_nat (length acts) < 2 ^ 64) (Hf : Forall fits acts)
  (Hr : link_run session_id max_fragments (link_new n) acts = Some l)
  (Hq : Forall (fun o => os_queue o = []) (tx (sender l))) :
  got l = sent l \/
  exists v l', link_step session_id max_fragments l LReceive = Some l' /\ got l' = got l ++ [v] /\ sent l !! length (got l) = Some v.
Proof.
  pose proof (link_run_ok n session_id max_fragments acts 0 (link_new n) l ltac:(lia) Hn32 ltac:(lia)
    (link_new_ok n session_id ltac:(lia)) ltac:(lia) Hf Hr) as Hok.
  destruct (link_receive_ok n session_id _ l max_fragments ltac:(lia) Hn32 ltac:(lia) Hok) as (p & r & Ep & [(v & -> & Hv & _)|(-> & _ & HF)]).
  - right. eexists v, _. simpl. rewrite Ep. done.
  - left. auto.
Qed.

(** A well-formed value arrives as it is. *)
Lemma arrival_wf v : wf v -> arrival v = Ok v.
Proof. intros Hv. unfold arrival. pose proof (deserialize_to_network v Hv) as E. by destruct v. Qed.

(** ** Witnesses *)

(** Two messages over three connections, the second delivered first; a message
    of more than one stripe would be too long to write down. *)
Definition demo_acts : list link_action :=
  [LSend (RingElement16 7); LSend (VecRing32 [1; 2; 3]); LDeliver 1; LReceive; LDeliver 0].

Definition demo_link : link := default (link_new 3) (link_run 9 3 (link_new 3) demo_acts).

Lemma demo_link_run : link_run 9 3 (link_new 3) demo_acts = Some demo_link.
Proof. vm_compute. reflexivity. Qed.

Lemma demo_fits : Forall fits demo_acts.
Proof. repeat constructor; intros b [= <-]; vm_compute; reflexivity. Qed.

Lemma striped_link_is_queue_witness :
  got demo_link = take (length (got demo_link)) (sent demo_link) /\ failures demo_link = [].
Proof.
  apply (striped_link_is_queue 9 3 3 demo_acts demo_link); [lia | vm_compute; reflexivity | vm_compute; reflexivity | exact demo_fits | exact demo_link_run].
Defined.

Lemma striped_link_complete_witness :
  got demo_link = sent demo_link \/
  exists v l', link_step 9 3 demo_link LReceive = Some l' /\ got l' = got demo_link ++ [v] /\ sent demo_link !! length (got demo_link) = Some v.
Proof.
  apply (striped_link_complete 9 3 3 demo_acts demo_link);
    [lia | vm_compute; reflexivity | vm_compute; reflexivity | exact demo_fits | exact demo_link_run |].
  vm_compute. repeat constructor.
Defined.
