(* ===== verification/Multiplexer.v ===== *)
(** * Multiplexer: [network/mpc/handle/session/multiplexer.rs] and
    [network/mpc/handle/control_channel.rs] of [ampc-actor-utils/src]

    All sessions with a peer share a connection: a message goes over it behind
    the id of its session, several messages may share a packet, and the other
    side sorts them out again.  A connection is the list of the bytes it carries.
    The control channel sends single values, each behind its length. *)

From S2P Require Import Prelude IntRing RingImpl Party Value.
From stdpp Require Import base list numbers strings option gmap sets.
From Stdlib Require Import ZArith Lia.
Local Open Scope Z_scope.

(** ** Definitions: outbound *)

Definition BUFFER_CAPACITY : nat := 32 * 1024.

(** [OutboundMsg]: a session id and a value. *)
Abbreviation OutboundMsg := (Z * NetworkValue)%type.

(** [buf.extend_from_slice(&session_id.to_le_bytes()); msg.serialize(&mut buf)] *)
(* session/multiplexer.rs:107-108 handle_outbound_traffic (one message) *)
Definition push_msg (buf : list Z) (m : OutboundMsg) : result (list Z) :=
  serialize m.2 (buf ++ to_le_bytes 4 m.1).

(** The inner loop: more messages are taken while they are there at once
    ([ready] says so, attempt by attempt), up to [num_sessions] of them or until
    the buffer is full.  It returns the buffer, the messages and the attempts
    that are left. *)
(* session/multiplexer.rs:112-124 handle_outbound_traffic (inner loop) *)
Fixpoint fill_packet (num_sessions buffered_msgs : Z) (buf : list Z) (msgs : list OutboundMsg) (ready : list bool) : result (list Z * list OutboundMsg * list bool) :=
  if negb (buffered_msgs <? num_sessions) then Ok (buf, msgs, ready)
  else match ready, msgs with
  | true :: ready, m :: msgs =>
      buf ← push_msg buf m;
      if (BUFFER_CAPACITY <=? length buf)%nat then Ok (buf, msgs, ready)
      else fill_packet num_sessions (buffered_msgs + 1) buf msgs ready
  | _ :: ready, _ => Ok (buf, msgs, ready)
  | [], _ => Ok (buf, msgs, [])
  end.

(** The outer loop, until the channel is closed: the packets that are written.
    Each round takes at least one message. *)
(* session/multiplexer.rs:90-150 handle_outbound_traffic *)
Fixpoint handle_outbound_traffic (fuel : nat) (num_sessions : Z) (msgs : list OutboundMsg) (ready : list bool) : result (list (list Z)) :=
  match fuel, msgs with
  | S fuel, m :: msgs =>
      buf ← push_msg [] m;
      '(buf, msgs, ready) ← fill_packet num_sessions 1 buf msgs ready;
      packets ← handle_outbound_traffic fuel num_sessions msgs ready;
      Ok (buf :: packets)
  | _, _ => Ok []
  end.

(** ** Definitions: inbound *)

(** [reader.read_exact(&mut buf[..n])] *)
Definition take_exact (reader : list Z) (k : nat) : result (list Z * list Z) :=
  if (k <=? length reader)%nat then Ok (take k reader, drop k reader) else bail "unexpected end of file".

(** The session id, the bytes of a message, and what follows. *)
(* session/multiplexer.rs:162-204 handle_inbound_traffic (one message) *)
Definition read_message (reader : list Z) : result (Z * list Z * list Z) :=
  '(session_id_buf, reader) ← take_exact reader 4;
  '(buf, reader) ← take_exact reader 1;
  nd ← map_err "invalid descriptor byte" (b ← index buf 0; descriptor_try_from b);
  '(buf, total_len, reader) ← match nd with
    | DVecRing16 | DVecRing32 | DVecRing64 | DVecRing48 | DNetworkVec | DBytes =>
        '(len, reader) ← take_exact reader 4;
        Ok (buf ++ len, (base_len nd + Z.to_nat (from_le_bytes len))%nat, reader)
    | DVecRingBit =>
        '(len, reader) ← take_exact reader 4;
        Ok (buf ++ len, (base_len nd + div_ceil (Z.to_nat (from_le_bytes len)) 8)%nat, reader)
    | _ => Ok (buf, base_len nd, reader)
    end;
  '(rest, reader) ← take_exact reader (total_len - length buf);
  Ok (from_le_bytes session_id_buf, buf ++ rest, reader).

(** The channel of a session: what has been sent into it; a closed one refuses. *)
Record channel := mkChannel { ch_open : bool; ch_queue : list NetworkValue }.

(** The loop ends with an error, at the latest when the connection ends; the
    channels as they are then. *)
(* session/multiplexer.rs:153-232 handle_inbound_traffic *)
Fixpoint handle_inbound_traffic (fuel : nat) (reader : list Z) (inbound_tx : gmap Z channel) : gmap Z channel * error :=
  match fuel with
  | O => (inbound_tx, Eyre "out of fuel")
  | S fuel =>
      match read_message reader with
      | Err e => (inbound_tx, e)
      | Ok (session_id, buf, reader) =>
          match inbound_tx !! session_id with
          | Some ch =>
              match deserialize buf with
              | Ok nv =>
                  if ch_open ch then handle_inbound_traffic fuel reader (<[session_id := mkChannel true (ch_queue ch ++ [nv])]> inbound_tx)
                  else (inbound_tx, Eyre "failed to forward message")
              | Err (Eyre _) => (inbound_tx, Eyre "failed to deserialize message")
              | Err e => (inbound_tx, e)
              end
          | None => handle_inbound_traffic fuel reader inbound_tx
          end
      end
  end.

(** ** Definitions: control channel *)

Definition MAX_MESSAGE_SIZE : nat := 1024 * 1024.
(** [b"ok"] *)
Definition SYNC_TOKEN_BYTES : list Z := [111; 107].

(** The bytes that are appended to the stream.  The shutdown token is not
    triggered. *)
(* handle/control_channel.rs:72-101 write_value *)
Definition write_value (stream : list Z) (value : NetworkValue) : result (list Z) :=
  bytes ← to_network value;
  if (MAX_MESSAGE_SIZE <? length bytes)%nat then bail "message size exceeds maximum allowed size"
  else Ok (stream ++ to_le_bytes 4 (Z.of_nat (length bytes) mod 2 ^ 32) ++ bytes).

(* handle/control_channel.rs:105-132 read_value *)
Definition read_value (stream : list Z) : result (NetworkValue * list Z) :=
  '(len_buf, stream) ← take_exact stream 4;
  let len := Z.to_nat (from_le_bytes len_buf) in
  if (MAX_MESSAGE_SIZE <? len)%nat then bail "message size exceeds maximum allowed size"
  else '(buf, stream) ← take_exact stream len;
       v ← deserialize buf; Ok (v, stream).

(** The two streams to the neighbours, outgoing and incoming. *)
Record ControlChannel := mkControl { to_next : list Z; to_prev : list Z; from_next : list Z; from_prev : list Z }.

(* handle/control_channel.rs:152-155 TcpControlChannel::sync (sends) *)
Definition sync_send (c : ControlChannel) : result ControlChannel :=
  let token := VBytes SYNC_TOKEN_BYTES in
  n ← write_value (to_next c) token;
  p ← write_value (to_prev c) token;
  Ok (mkControl n p (from_next c) (from_prev c)).

(* handle/control_channel.rs:157-170 TcpControlChannel::sync (receives) *)
Definition sync_receive (c : ControlChannel) : result ControlChannel :=
  '(next_token, n) ← read_value (from_next c);
  _ ← match next_token with
      | VBytes bytes => if bool_decide (bytes = SYNC_TOKEN_BYTES) then Ok tt else bail "invalid sync token received from next party"
      | _ => bail "invalid sync token received from next party"
      end;
  '(prev_token, p) ← read_value (from_prev c);
  _ ← match prev_token with
      | VBytes bytes => if bool_decide (bytes = SYNC_TOKEN_BYTES) then Ok tt else bail "invalid sync token received from prev party"
      | _ => bail "invalid sync token received from prev party"
      end;
  Ok (mkControl (to_next c) (to_prev c) n p).

(** ** Lemmas *)

Lemma take_exact_app a rest k : length a = k -> take_exact (a ++ rest) k = Ok (a, rest).
Proof.
  intros <-. unfold take_exact. rewrite length_app, (proj2 (Nat.leb_le _ _)) by lia.
  by rewrite take_app_length, drop_app_length.
Qed.

(** [v] is written as the bytes [b], which are those of the well-formed value
    [w]: [v] itself, or what a [PreFramed] buffer holds. *)
Definition carries (v : NetworkValue) (b : list Z) (w : NetworkValue) : Prop :=
  (forall res, serialize v res = Ok (res ++ b)) /\ wf w /\ serialize w [] = Ok b.

Lemma serialize_wf w : wf w -> exists b, forall res, serialize w res = Ok (res ++ b).
Proof.
  intros Hw. destruct w; try (eexists; intros res; apply (serialize_internal_app _ res); by apply wf_flat_flat); try done.
  destruct Hw as [Hl _]. eexists. intros res. cbn [serialize]. apply serialize_vec_eq. by apply wf_entries_flat.
Qed.

Lemma carries_wf v : wf v -> exists b, carries v b v.
Proof. intros Hv. destruct (serialize_wf v Hv) as [b Hb]. exists b. split; [done|]. split; [done|]. apply (Hb []). Qed.

Lemma carries_preframed b w : wf w -> serialize w [] = Ok b -> carries (PreFramed b) b w.
Proof. done. Qed.

Lemma serialize_inv w b : wf w -> serialize w [] = Ok b -> deserialize b = Ok w.
Proof.
  intros Hw Hb. pose proof (deserialize_to_network w Hw) as E. unfold to_network in E.
  destruct (byte_len w); [|done]. cbn [mbind result_bind] in E. by rewrite Hb in E.
Qed.

(** A message without a length field. *)
Lemma read_message_plain sid d nd t rest :
  0 <= sid < 2 ^ 32 -> d = descriptor_u8 nd -> length (d :: t) = base_len nd ->
  match nd with DVecRing16 | DVecRing32 | DVecRing64 | DVecRing48 | DNetworkVec | DBytes | DVecRingBit => false | _ => true end = true ->
  read_message (to_le_bytes 4 sid ++ (d :: t) ++ rest) = Ok (sid, d :: t, rest).
Proof.
  intros Hs -> Hl Hnd. unfold read_message. rewrite take_exact_app by apply length_to_le. cbn [mbind result_bind].
  change ((descriptor_u8 nd :: t) ++ rest) with ([descriptor_u8 nd] ++ (t ++ rest)). rewrite (take_exact_app [_] (t ++ rest)) by done. cbn [mbind result_bind index lookup list_lookup].
  rewrite descriptor_try_from_u8. cbn [map_err mbind result_bind].
  assert (Ht : length t = (base_len nd - length [descriptor_u8 nd])%nat) by (rewrite <- Hl; simpl; lia).
  rewrite from_to_le by (simpl; lia).
  destruct nd; try done; cbn [mbind result_bind]; rewrite (take_exact_app t rest) by done; done.
Qed.

(** A message with a length field. *)
Lemma read_message_payload sid d nd k t rest :
  0 <= sid < 2 ^ 32 -> d = descriptor_u8 nd -> Z.of_nat k < 2 ^ 32 ->
  match nd with
  | DVecRing16 | DVecRing32 | DVecRing64 | DVecRing48 | DNetworkVec | DBytes => length t = k
  | DVecRingBit => length t = div_ceil k 8
  | _ => False
  end ->
  read_message (to_le_bytes 4 sid ++ (d :: to_le_bytes 4 (Z.of_nat k mod 2 ^ 32) ++ t) ++ rest) =
  Ok (sid, d :: to_le_bytes 4 (Z.of_nat k mod 2 ^ 32) ++ t, rest).
Proof.
  intros Hs -> Hk Ht. unfold read_message. rewrite take_exact_app by apply length_to_le. cbn [mbind result_bind].
  set (h := to_le_bytes 4 (Z.of_nat k mod 2 ^ 32)). assert (Hh : length h = 4%nat) by apply length_to_le.
  change ((descriptor_u8 nd :: h ++ t) ++ rest) with ([descriptor_u8 nd] ++ ((h ++ t) ++ rest)). rewrite (take_exact_app [_]) by done. cbn [mbind result_bind index lookup list_lookup].
  rewrite descriptor_try_from_u8. cbn [map_err mbind result_bind].
  assert (Eh : Z.to_nat (from_le_bytes h) = k) by (by apply u32_len_bytes).
  rewrite (from_to_le 4 sid) by (simpl; lia). rewrite <- app_assoc.
  destruct nd; try done; cbn [mbind result_bind]; rewrite (take_exact_app h) by done; cbn [mbind result_bind];
    rewrite Eh, (take_exact_app t) by (rewrite length_app, Hh, Ht; simpl; lia); done.
Qed.

(** What a sender writes for a value is read as one message. *)
Lemma read_message_wire sid w b rest :
  0 <= sid < 2 ^ 32 -> wf w -> serialize w [] = Ok b ->
  read_message (to_le_bytes 4 sid ++ b ++ rest) = Ok (sid, b, rest).
Proof.
  intros Hs Hw Hb. destruct w; cbn [serialize] in Hb; unfold serialize_internal in Hb;
    cbn [get_descriptor_byte mbind result_bind] in Hb; rewrite ?serialize_vec_ring_eq in Hb by typeclasses eauto;
    try (apply Ok_inj in Hb as <-); cbn [app].
  - apply (read_message_plain _ _ DPrfKey); [done|done| |done]. destruct Hw as [Hl _]. simpl. by rewrite Hl.
  - destruct (bit_convert x); apply Ok_inj in Hb as <-; cbn [app];
      [apply (read_message_plain _ _ DRingElementBit1 []) | apply (read_message_plain _ _ DRingElementBit0 [])]; done.
  - by apply (read_message_plain _ _ DRingElement16).
  - by apply (read_message_plain _ _ DRingElement32).
  - by apply (read_message_plain _ _ DRingElement64).
  - destruct Hw as [_ Hl]. apply (read_message_payload _ _ DVecRing16); [done..|]. apply concat_to_le_length.
  - destruct Hw as [_ Hl]. apply (read_message_payload _ _ DVecRing32); [done..|]. apply concat_to_le_length.
  - destruct Hw as [_ Hl]. apply (read_message_payload _ _ DVecRing64); [done..|]. apply concat_to_le_length.
  - apply (read_message_plain _ _ DRingElement48); [done|done| |done]. cbn [length]. by rewrite length_take, length_to_le.
  - destruct Hw as [_ Hl]. apply (read_message_payload _ _ DVecRing48); [done..|]. apply concat_to_le_length.
  - apply (read_message_plain _ _ DStateChecksum); [done|done| |done]. cbn [length]. by rewrite length_app, !length_to_le.
  - destruct Hw as [Hl Hn]. rewrite serialize_vec_eq in Hb by by apply wf_entries_flat. apply Ok_inj in Hb as <-.
    cbn [app]. by apply (read_message_payload _ _ DNetworkVec).
  - by apply (read_message_plain _ _ DPrfCheck).
  - destruct Hw as [_ Hl]. by apply (read_message_payload _ _ DBytes).
  - destruct Hw as (_ & Hp & Hl). by apply (read_message_payload _ _ DVecRingBit).
  - done.
Qed.

(** The frames of messages, with what they carry. *)
Record sent_msg := mkSent { sm_session : Z; sm_value : NetworkValue; sm_bytes : list Z; sm_arrives : NetworkValue }.
Definition sent_ok (m : sent_msg) : Prop :=
  0 <= sm_session m < 2 ^ 32 /\ carries (sm_value m) (sm_bytes m) (sm_arrives m).
Definition out_msg (m : sent_msg) : OutboundMsg := (sm_session m, sm_value m).
Definition frame (m : sent_msg) : list Z := to_le_bytes 4 (sm_session m) ++ sm_bytes m.

Lemma push_msg_ok buf m : sent_ok m -> push_msg buf (out_msg m) = Ok (buf ++ frame m).
Proof. intros (_ & Hs & _). unfold push_msg, out_msg, frame. cbn [fst snd]. by rewrite Hs, <- app_assoc. Qed.

Lemma fill_packet_ok num k buf ms ready :
  Forall sent_ok ms ->
  exists taken left ready', ms = taken ++ left /\
    fill_packet num k buf (out_msg <$> ms) ready = Ok (buf ++ concat (frame <$> taken), out_msg <$> left, ready').
Proof.
  intros HF; revert k buf ready; induction HF as [|m ms Hm HF IH]; intros k buf ready.
  - exists [], [], (match (if k <? num then ready else []), k <? num with _ :: r, _ => r | [], true => [] | [], false => ready end).
    split; [done|]. cbn [fmap list_fmap concat]. rewrite app_nil_r. destruct ready as [|[] ready]; cbn [fill_packet]; by destruct (k <? num).
  - rewrite fmap_cons. destruct (k <? num) eqn:Ek.
    2: { exists [], (m :: ms), ready. split; [done|]. cbn [fmap list_fmap concat]. rewrite app_nil_r.
         destruct ready; cbn [fill_packet]; by rewrite Ek. }
    destruct ready as [|[] ready]; cbn [fill_packet]; rewrite Ek; cbn [negb].
    + exists [], (m :: ms), []. split; [done|]. cbn [fmap list_fmap concat]. by rewrite app_nil_r.
    + rewrite push_msg_ok by done. cbn [mbind result_bind]. destruct (_ <=? _)%nat.
      * exists [m], ms, ready. split; [done|]. cbn [fmap list_fmap concat]. by rewrite app_nil_r.
      * destruct (IH (k + 1) (buf ++ frame m) ready) as (taken & left & r & E & ->). exists (m :: taken), left, r.
        split; [by rewrite E|]. rewrite fmap_cons. cbn [concat]. by rewrite <- app_assoc.
    + exists [], (m :: ms), ready. split; [done|]. cbn [fmap list_fmap concat]. by rewrite app_nil_r.
Qed.

(** However the messages are put into packets, the bytes on the connection are
    their frames in order. *)
Lemma handle_outbound_ok fuel num ms ready :
  Forall sent_ok ms -> (length ms <= fuel)%nat ->
  exists packets, handle_outbound_traffic fuel num (out_msg <$> ms) ready = Ok packets /\ concat packets = concat (frame <$> ms).
Proof.
  revert ms ready; induction fuel as [|fuel IH]; intros ms ready HF Hl.
  { destruct ms; [|simpl in Hl; lia]. by exists []. }
  destruct ms as [|m ms]; [by exists []|]. apply Forall_cons in HF as [Hm HF]. rewrite fmap_cons. cbn [handle_outbound_traffic].
  rewrite push_msg_ok by done. cbn [mbind result_bind].
  destruct (fill_packet_ok num 1 ([] ++ frame m) ms ready HF) as (taken & left & r & -> & ->). cbn [mbind result_bind].
  apply Forall_app in HF as [_ HF]. destruct (IH left r HF) as (packets & -> & E).
  { cbn [length] in Hl. rewrite length_app in Hl. lia. }
  cbn [mbind result_bind]. eexists. split; [done|]. cbn [concat]. rewrite E, fmap_cons, fmap_app. cbn [concat app].
  by rewrite concat_app, app_assoc.
Qed.

(** What arrives in the channel of a session. *)
Definition delivered (sid : Z) (ms : list sent_msg) : list NetworkValue :=
  sm_arrives <$> filter (fun m => sm_session m = sid) ms.

Definition deliver_all (inbound_tx : gmap Z channel) (ms : list sent_msg) : gmap Z channel :=
  map_imap (fun sid ch => Some (mkChannel (ch_open ch) (ch_queue ch ++ delivered sid ms))) inbound_tx.

Lemma lookup_deliver_all chans ms sid :
  deliver_all chans ms !! sid = (fun ch => mkChannel (ch_open ch) (ch_queue ch ++ delivered sid ms)) <$> chans !! sid.
Proof. unfold deliver_all. rewrite map_lookup_imap. by destruct (chans !! sid). Qed.

Lemma deliver_all_nil chans : deliver_all chans [] = chans.
Proof.
  apply map_eq. intros sid. rewrite lookup_deliver_all.
  destruct (chans !! sid) as [[o q]|]; simpl; [|done]. unfold delivered. simpl. by rewrite app_nil_r.
Qed.

Lemma delivered_cons sid m ms :
  delivered sid (m :: ms) = if decide (sm_session m = sid) then sm_arrives m :: delivered sid ms else delivered sid ms.
Proof. unfold delivered. rewrite filter_cons. by destruct (decide _). Qed.

(** Does the channel of the message's session refuse it?  Sessions without a
    channel refuse nothing: their messages are dropped. *)
Definition refuses (chans : gmap Z channel) (m : sent_msg) : bool :=
  match chans !! sm_session m with Some ch => negb (ch_open ch) | None => false end.

(** The messages that are handled before the first one that is refused, and the
    error with which the loop ends. *)
Fixpoint arrived (chans : gmap Z channel) (ms : list sent_msg) : list sent_msg :=
  match ms with
  | [] => []
  | m :: ms => if refuses chans m then [] else m :: arrived chans ms
  end.

Definition loop_error (chans : gmap Z channel) (ms : list sent_msg) (e : error) : error :=
  if existsb (refuses chans) ms then Eyre "failed to forward message" else e.

(** Only whether channels are open matters, and handling a message changes that
    of none. *)
Lemma refuses_insert chans sid q q' :
  chans !! sid = Some (mkChannel true q) ->
  forall m, refuses (<[sid := mkChannel true q']> chans) m = refuses chans m.
Proof.
  intros H m. unfold refuses. destruct (decide (sid = sm_session m)) as [->|Hne].
  - by rewrite lookup_insert_eq, H.
  - by rewrite lookup_insert_ne.
Qed.

Lemma arrived_ext chans chans' ms e :
  (forall m, refuses chans m = refuses chans' m) -> arrived chans ms = arrived chans' ms /\ loop_error chans ms e = loop_error chans' ms e.
Proof.
  intros H. unfold loop_error. induction ms as [|m ms [IH1 IH2]]; [done|]. cbn [existsb arrived]. rewrite H.
  destruct (refuses chans' m); [done|]. by rewrite IH1.
Qed.

Lemma handle_inbound_ok ms rest e fuel chans :
  Forall sent_ok ms -> (length ms < fuel)%nat -> read_message rest = Err e ->
  handle_inbound_traffic fuel (concat (frame <$> ms) ++ rest) chans = (deliver_all chans (arrived chans ms), loop_error chans ms e).
Proof.
  intros HF; revert fuel chans; induction HF as [|m ms (Hs & _ & Hw & Hb) HF IH]; intros fuel chans Hl He;
    (destruct fuel as [|fuel]; [simpl in Hl; lia|]); cbn [handle_inbound_traffic].
  - cbn [fmap list_fmap concat app]. rewrite He. f_equal. by rewrite deliver_all_nil.
  - rewrite fmap_cons. cbn [concat]. unfold frame at 1. rewrite <- !app_assoc, (read_message_wire _ _ _ _ Hs Hw Hb).
    cbn [length] in Hl. unfold loop_error. cbn [arrived existsb].
    destruct (chans !! sm_session m) as [[o q]|] eqn:Ec.
    + rewrite (serialize_inv _ _ Hw Hb). cbn [ch_open ch_queue].
      assert (Er : refuses chans m = negb o) by (unfold refuses; by rewrite Ec). rewrite Er. destruct o; cbn [negb orb].
      2: { by rewrite deliver_all_nil. }
      rewrite IH by (done || lia).
      destruct (arrived_ext _ chans ms e (refuses_insert chans _ q (q ++ [sm_arrives m]) Ec)) as [-> ->]. f_equal.
      apply map_eq. intros sid. rewrite !lookup_deliver_all, delivered_cons.
      destruct (decide (sm_session m = sid)) as [<-|Hne].
      * rewrite lookup_insert_eq, Ec. simpl. by rewrite <- app_assoc.
      * by rewrite lookup_insert_ne.
    + assert (Er : refuses chans m = false) by (unfold refuses; by rewrite Ec). rewrite Er. cbn [orb].
      rewrite IH by (done || lia). f_equal. apply map_eq. intros sid. rewrite !lookup_deliver_all, delivered_cons.
      destruct (decide (sm_session m = sid)) as [<-|Hne]; [by rewrite Ec|done].
Qed.

(** The two ways in which the loop ends. *)
Lemma loop_ends chans ms e :
  ((forall m, m ∈ ms -> refuses chans m = false) /\ arrived chans ms = ms /\ loop_error chans ms e = e) \/
  (exists m later, ms = arrived chans ms ++ m :: later /\ refuses chans m = true /\ loop_error chans ms e = Eyre "failed to forward message").
Proof.
  unfold loop_error. induction ms as [|m ms IH]; [left; split; [by intros ? ?%elem_of_nil|done]|].
  cbn [existsb arrived]. destruct (refuses chans m) eqn:Er; [right; by exists m, ms|]. cbn [orb].
  destruct IH as [(Ha & -> & ->)|(m' & later & E & Hm & He)]; [left|right].
  - split; [|done]. intros x [->|Hx]%elem_of_cons; auto.
  - exists m', later. cbn [app]. by rewrite <- E.
Qed.

Lemma length_frames ms : (length ms <= length (concat (frame <$> ms)))%nat.
Proof.
  induction ms as [|m ms IH]; [done|]. rewrite fmap_cons. cbn [concat length]. rewrite length_app.
  unfold frame at 1. rewrite length_app, length_to_le. lia.
Qed.

(** A value survives the control channel, whatever follows it. *)
Lemma read_write_value v bytes stream rest :
  wf v -> to_network v = Ok bytes -> (length bytes <= MAX_MESSAGE_SIZE)%nat ->
  exists w, write_value stream v = Ok (stream ++ w) /\ read_value (w ++ rest) = Ok (v, rest).
Proof.
  intros Hv Hb Hl. assert (Hl32 : Z.of_nat (length bytes) < 2 ^ 32) by (unfold MAX_MESSAGE_SIZE in Hl; lia).
  unfold write_value. rewrite Hb. cbn [mbind result_bind]. rewrite (proj2 (Nat.ltb_ge _ _)) by done.
  eexists. split; [done|]. unfold read_value. rewrite <- app_assoc, take_exact_app by apply length_to_le.
  cbn [mbind result_bind]. rewrite u32_len_bytes by done. rewrite (proj2 (Nat.ltb_ge _ _)) by done.
  rewrite take_exact_app by done. cbn [mbind result_bind].
  pose proof (deserialize_to_network v Hv) as E. rewrite Hb in E. cbn [mbind result_bind] in E. by rewrite E.
Qed.

(** The barrier: when all three parties have sent their tokens, all three receive
    theirs and the streams are empty again. *)
Lemma sync_all :
  exists c t, sync_send (mkControl [] [] [] []) = Ok c /\ to_next c = t /\ to_prev c = t /\
    sync_receive (mkControl [] [] t t) = Ok (mkControl [] [] [] []).
Proof. eexists _, _. split; [reflexivity|]. split; [reflexivity|]. split; reflexivity. Qed.

(** ** Claims *)

(** C7: sessions do not mix, and what ends the loop.  Send any messages of any
    sessions over one connection, packed in any way, into channels of which some
    may be closed (which ones does not change meanwhile).  As long as no message
    of a session whose channel is closed comes, each session receives exactly the
    values sent in it, in the order in which they were sent, and messages of
    sessions without a channel are dropped.  The first message for a closed
    channel ends the loop for all sessions, so that each session has received
    what was sent in it before that message, with the error "failed to forward
    message"; when there is none, every message is delivered and the loop ends
    with the connection, with the error [e] of reading what follows. *)
Theorem multiplexer_delivers (ms : list sent_msg) (num_sessions : Z) (ready : list bool) (rest : list Z) (e : error) (chans : gmap Z channel)
  (Hms : Forall sent_ok ms) (He : read_message rest = Err e) :
  exists packets chans' e',
    handle_outbound_traffic (length ms) num_sessions (out_msg <$> ms) ready = Ok packets /\
    handle_inbound_traffic (S (length (concat packets))) (concat packets ++ rest) chans = (chans', e') /\
    dom chans' = dom chans /\
    (forall sid ch, chans !! sid = Some ch -> chans' !! sid = Some (mkChannel (ch_open ch) (ch_queue ch ++ delivered sid (arrived chans ms)))) /\
    (((forall m, m ∈ ms -> refuses chans m = false) /\ arrived chans ms = ms /\ e' = e) \/
     (exists m later, ms = arrived chans ms ++ m :: later /\ refuses chans m = true /\ e' = Eyre "failed to forward message")).
Proof.
  destruct (handle_outbound_ok (length ms) num_sessions ms ready Hms ltac:(lia)) as (packets & Eo & Ep).
  exists packets, (deliver_all chans (arrived chans ms)), (loop_error chans ms e). split; [done|]. rewrite Ep. split; [|split; [|split]].
  - apply handle_inbound_ok; [done| |done]. pose proof (length_frames ms). lia.
  - apply set_eq. intros sid. rewrite !elem_of_dom, lookup_deliver_all. destruct (chans !! sid); simpl; split; intros []; eauto; done.
  - intros sid ch Hc. by rewrite lookup_deliver_all, Hc.
  - apply loop_ends.
Qed.

(** ** Witness *)

Definition demo_sent : list sent_msg :=
  [mkSent 3 (RingElement16 7) [3; 7; 0] (RingElement16 7);
   mkSent 5 (PreFramed [3; 9; 1]) [3; 9; 1] (RingElement16 265);
   mkSent 3 (RingElementBit 1) [18] (RingElementBit 1)].

(** The channel of session 5 is closed. *)
Definition demo_chans : gmap Z channel := {[3 := mkChannel true []; 5 := mkChannel false [RingElement16 1]]}.

Lemma demo_sent_ok : Forall sent_ok demo_sent.
Proof.
  unfold demo_sent. repeat (apply Forall_cons; split); [..|apply Forall_nil_2]; (split; [by vm_compute|]); split.
  - intros res. exact (serialize_internal_app (RingElement16 7) res eq_refl).
  - by vm_compute.
  - done.
  - by vm_compute.
  - intros res. exact (serialize_internal_app (RingElementBit 1) res eq_refl).
  - by vm_compute.
Qed.

(** With both channels open session 3 gets both values; with that of session 5
    closed the second message ends the loop, and session 3 only gets the first. *)
Lemma multiplexer_delivers_witness :
  (exists chans' : gmap Z channel, chans' !! 3 = Some (mkChannel true [RingElement16 7; RingElementBit 1])) /\
  (exists chans' : gmap Z channel, chans' !! 3 = Some (mkChannel true [RingElement16 7])).
Proof.
  split.
  - destruct (multiplexer_delivers demo_sent 4 [true; false; true] [] (Eyre "unexpected end of file") {[3 := mkChannel true []; 5 := mkChannel true []]} demo_sent_ok eq_refl)
      as (packets & chans' & e' & _ & _ & _ & H & _).
    exists chans'. exact (H 3 (mkChannel true []) eq_refl).
  - destruct (multiplexer_delivers demo_sent 4 [true; false; true] [] (Eyre "unexpected end of file") demo_chans demo_sent_ok eq_refl)
      as (packets & chans' & e' & _ & _ & _ & H & _).
    exists chans'. exact (H 3 (mkChannel true []) eq_refl).
Defined.
