(* ===== verification/Connect.v ===== *)
(** * Connections between the parties: [network/tcp/connection] and
    [mpc/handle/network_handle.rs], [config.rs] of [ampc-actor-utils]

    One of two parties dials and the other accepts; they exchange the number of
    the connection and the identity of the dialler over the fresh byte stream,
    and the accepting party hands the stream to the task that waits for it.
    The two ends of the handshake are programs that read and write bytes, run in
    any order; a read may return less than was written.  The sessions that are
    made over the connections take their ids from a counter and use the
    connections in a rotated order. *)

From S2P Require Import Prelude IntRing RingImpl Party Share VecShare Value Net.
From stdpp Require Import base list numbers strings option gmap relations.
From Stdlib Require Import ZArith Lia.
From Stdlib Require Ascii String.
Local Open Scope Z_scope.

(** ** Configuration and session ids *)

(* mpc/handle/config.rs:4-10 MpcConfig *)
Record MpcConfig := mkMpcConfig { num_sessions : Z; num_connections : Z }.

(* mpc/handle/config.rs:13-25 MpcConfig::new *)
Definition mpc_config_new (num_connections num_sessions : Z) : result MpcConfig :=
  if num_connections <=? 0 then panic "MPC networking requires a connection" else
  if num_sessions <=? 0 then panic "MPC networking requires a session" else
  Ok (mkMpcConfig (num_sessions mod 2 ^ 32) (num_connections mod 2 ^ 32)).

(* mpc/handle/config.rs:27-33 MpcConfig::get_sessions_for_connection *)
Definition get_sessions_for_connection (self : MpcConfig) (idx : Z) : Z :=
  if idx <? num_connections self then num_sessions self else 0.

(** [next_session_id..next_session_id + config.num_sessions]. *)
(* mpc/handle/session/mod.rs:424-427 make_sessions_inner (session ids) *)
Definition session_ids (config : MpcConfig) (next_session_id : Z) : list Z :=
  (fun k => next_session_id + Z.of_nat k) <$> seq 0 (Z.to_nat (num_sessions config)).

(* mpc/handle/network_handle.rs:109-118 make_network_sessions (next session id) *)
Definition advance_session_id (config : MpcConfig) (next_session_id : Z) : Z :=
  let n := Z.min (next_session_id + num_sessions config) (2 ^ 32 - 1) in
  if (2 ^ 32 - 1) - num_sessions config <=? n then 0 else n.

(** The counter after [k] calls of [make_network_sessions]. *)
Definition session_counter (config : MpcConfig) (k : nat) : Z := Nat.iter k (advance_session_id config) 0.

(** The connections of a session, in the order in which it uses them. *)
(* mpc/handle/session/mod.rs:432-436 make_sessions_inner (rotation) *)
Definition connection_order (num_connections idx : Z) : list Z :=
  let first_connection := idx mod num_connections in
  (fun offset => (first_connection + Z.of_nat offset) mod num_connections) <$> seq 0 (Z.to_nat num_connections).

(** The results are those of the first peer, then of the second. *)
(* mpc/handle/network_handle.rs:278-283 make_connections (split) *)
Definition split_connections {A} (results : list A) : result (list A * list A) :=
  let half := (length results / 2)%nat in
  let c0 := take half results in
  let c1 := drop half results in
  if bool_decide (length c1 = length c0) then Ok (c0, c1) else panic "assertion `left == right` failed".

(** ** Who dials *)

(* tcp/mod.rs:29-53 ConnectionConfig *)
Inductive ConnectionConfig := Bidirectional | ServerSide | ClientSide.

Inductive endpoint := DialOut | WaitForPeer.

(** Identities are compared byte by byte. *)
(* tcp/connection/mod.rs:85-113 Connector::connect (endpoint) *)
Definition choose_endpoint (config : ConnectionConfig) (own_id peer_id : Identity) : endpoint :=
  match config with
  | Bidirectional => if String.ltb peer_id own_id then DialOut else WaitForPeer
  | ServerSide => WaitForPeer
  | ClientSide => DialOut
  end.

(* tcp/streams.rs:55-85 ConnectError *)
Inductive ConnectError :=
| TlsCertificateError (msg : string)
| TlsError (msg : string)
| TcpConfigFailed (msg : string)
| InvalidInput (msg : string)
| HandshakeError (msg : string)
| IoError
| OtherError (msg : string).

Definition fatal (e : ConnectError) : bool :=
  match e with TlsCertificateError _ | TlsError _ | TcpConfigFailed _ | InvalidInput _ => true | _ => false end.

(** The outcome after the attempts made so far; [None]: it goes on. *)
(* tcp/connection/mod.rs:139-177 Connector::connect_loop *)
Fixpoint connect_loop {A} (attempts : list (A + ConnectError)) : option (A + ConnectError) :=
  match attempts with
  | [] => None
  | inl stream :: _ => Some (inl stream)
  | inr err :: attempts => if fatal err then Some (inr err) else connect_loop attempts
  end.

(** ** The handshake *)

(** A program at one end of a byte stream.  [IoRead n] is [read_exact] of [n]
    bytes, [None] at the end of the stream; [IoReadSome n] is [read] into a
    buffer of [n] bytes, which may return fewer, and none at the end. *)
Inductive io (A : Type) :=
| IoRet (x : A)
| IoWrite (bytes : list Z) (k : io A)
| IoRead (n : nat) (k : option (list Z) -> io A)
| IoReadSome (n : nat) (k : list Z -> io A)
| IoClose (k : io A).
Arguments IoRet {A} _.
Arguments IoWrite {A} _ _.
Arguments IoRead {A} _ _.
Arguments IoReadSome {A} _ _.
Arguments IoClose {A} _.

(** Network byte order, [write_u32] and [read_u32]. *)
Definition to_be_u32 (x : Z) : list Z := rev (to_le_bytes 4 (x mod 2 ^ 32)).
Definition from_be_u32 (l : list Z) : Z := from_le_bytes (rev l).

Definition string_bytes (s : string) : list Z := (fun a => Z.of_N (Ascii.N_of_ascii a)) <$> String.list_ascii_of_string s.
Definition bytes_string (l : list Z) : string := String.string_of_list_ascii ((fun b => Ascii.ascii_of_N (Z.to_N b)) <$> l).

(** The lead byte of a sequence gives its length and the range of its second
    byte; the others are continuation bytes. *)
Definition utf8_lead (b : Z) : option (nat * Z * Z) :=
  if (0 <=? b) && (b <=? 0x7F) then Some (0%nat, 0, 0) else
  if (0xC2 <=? b) && (b <=? 0xDF) then Some (1%nat, 0x80, 0xBF) else
  if b =? 0xE0 then Some (2%nat, 0xA0, 0xBF) else
  if b =? 0xED then Some (2%nat, 0x80, 0x9F) else
  if (0xE1 <=? b) && (b <=? 0xEF) then Some (2%nat, 0x80, 0xBF) else
  if b =? 0xF0 then Some (3%nat, 0x90, 0xBF) else
  if (0xF1 <=? b) && (b <=? 0xF3) then Some (3%nat, 0x80, 0xBF) else
  if b =? 0xF4 then Some (3%nat, 0x80, 0x8F) else None.

(** [rest] more bytes of a sequence are due, the next one in [lo, hi]. *)
Fixpoint utf8_valid_from (rest : nat) (lo hi : Z) (l : list Z) : bool :=
  match l with
  | [] => (rest =? 0)%nat
  | b :: l =>
      match rest with
      | O => match utf8_lead b with Some (n, lo, hi) => utf8_valid_from n lo hi l | None => false end
      | S rest => (lo <=? b) && (b <=? hi) && utf8_valid_from rest 0x80 0xBF l
      end
  end.
Definition utf8_valid (l : list Z) : bool := utf8_valid_from 0 0 0 l.

Definition HANDSHAKE_OK : list Z := string_bytes "2ok".
Definition MAX_PEER_ID_LENGTH : Z := 128.

Section Outbound.
Context {A : Type} (failed : string -> io A).

(* tcp/connection/handshake.rs:13-48 outbound *)
Definition outbound (own_id : Identity) (connection_id : Z) (k : io A) : io A :=
  IoWrite (to_be_u32 connection_id)
    (IoRead 4 (fun echoed => match echoed with
      | None => failed "Failed to read stream_id"
      | Some echoed_id =>
          if negb (from_be_u32 echoed_id =? connection_id) then failed "expected another stream_id"
          else IoWrite (to_be_u32 (Z.of_nat (length (string_bytes own_id)))) (IoWrite (string_bytes own_id) k)
      end)).

(* tcp/connection/handshake.rs:84-98 outbound_ok *)
Definition outbound_ok (k : io A) : io A :=
  IoReadSome 3 (fun rsp => if negb (length rsp =? 3)%nat || negb (bool_decide (rsp = HANDSHAKE_OK)) then failed "not accepted" else k).

(* tcp/connection/handshake.rs:51-81 inbound *)
Definition inbound (k : Identity -> Z -> io A) : io A :=
  IoRead 4 (fun r => match r with
    | None => failed "Failed to read stream_id"
    | Some id =>
        let connection_id := from_be_u32 id in
        IoWrite (to_be_u32 connection_id)
          (IoRead 4 (fun r => match r with
            | None => failed "Failed to read peer_id length"
            | Some len =>
                let peer_id_length := from_be_u32 len in
                if MAX_PEER_ID_LENGTH <? peer_id_length then failed "invalid peer_id_length. too long"
                else IoRead (Z.to_nat peer_id_length) (fun r => match r with
                  | None => failed "Failed to read peer_id bytes"
                  | Some peer_id_bytes =>
                      if utf8_valid peer_id_bytes then k (bytes_string peer_id_bytes) connection_id
                      else failed "Failed to parse peer_id bytes as UTF-8"
                  end)
            end))
    end).

(* tcp/connection/handshake.rs:101-104 inbound_ok *)
Definition inbound_ok (k : io A) : io A := IoWrite HANDSHAKE_OK k.
End Outbound.

(** A failed end drops its stream. *)
Definition drop_stream {A} (msg : string) : io (A + string) := IoClose (IoRet (inr msg)).

(* tcp/connection/mod.rs:115-121 Connector::connect (client) *)
Definition dial (own_id : Identity) (connection_id : Z) : io (unit + string) :=
  outbound drop_stream own_id connection_id (outbound_ok drop_stream (IoRet (inl tt))).

(** [requested]: whether the accepting party waits for the connection, and lets
    the peer have it. *)
(* tcp/connection/listener.rs:72-119 accept_loop (one stream) *)
Definition answer_dial (requested : Identity -> Z -> bool) : io (Identity * Z + string) :=
  inbound drop_stream (fun peer_id connection_id =>
    if requested peer_id connection_id then inbound_ok (IoRet (inl (peer_id, connection_id))) else drop_stream "not requested").

(** The two ends, the bytes under way in each direction, and whether the writer
    has closed it. *)
Record link := mkLink {
  dialler : io (unit + string);
  answerer : io (Identity * Z + string);
  to_answerer : list Z;
  to_dialler : list Z;
  dialler_closed : bool;
  answerer_closed : bool;
}.

(** [io_step inp closed p inp' out p' close]: the program takes bytes from its
    input, or adds bytes to its output. *)
Inductive io_step {A} (inp : list Z) (closed : bool) : io A -> list Z -> list Z -> bool -> io A -> Prop :=
| step_write bytes k : io_step inp closed (IoWrite bytes k) inp bytes false k
| step_read n k : (n <= length inp)%nat -> io_step inp closed (IoRead n k) (drop n inp) [] false (k (Some (take n inp)))
| step_read_end n k : closed = true -> (length inp < n)%nat -> io_step inp closed (IoRead n k) [] [] false (k None)
| step_read_some n m k : (0 < m <= n)%nat -> (m <= length inp)%nat -> io_step inp closed (IoReadSome n k) (drop m inp) [] false (k (take m inp))
| step_read_some_end n k : closed = true -> inp = [] -> io_step inp closed (IoReadSome n k) [] [] false (k [])
| step_close k : io_step inp closed (IoClose k) inp [] true k.

Inductive link_step : link -> link -> Prop :=
| dialler_step c inp out close p :
    io_step (to_dialler c) (answerer_closed c) (dialler c) inp out close p ->
    link_step c (mkLink p (answerer c) (to_answerer c ++ out) inp (dialler_closed c || close) (answerer_closed c))
| answerer_step c inp out close p :
    io_step (to_answerer c) (dialler_closed c) (answerer c) inp out close p ->
    link_step c (mkLink (dialler c) p inp (to_dialler c ++ out) (dialler_closed c) (answerer_closed c || close)).

Definition link_new (own_id : Identity) (connection_id : Z) (requested : Identity -> Z -> bool) : link :=
  mkLink (dial own_id connection_id) (answer_dial requested) [] [] false false.

(** ** The accept loop *)

(* tcp/mod.rs:118-125 RuntimeTlsConfig *)
Record RuntimeTlsConfig := mkTls { validate_peer_ids : bool; peer_certs : gmap Identity (list Z) }.

(** What the code uses of [rustls]: a store with one root certificate
    ([RootCertStore::empty] and [add]), a verifier built from it
    ([WebPkiClientVerifier::builder(..).build]), and the verification of a
    client's certificate with its intermediate ones at a time. *)
Class WebPki := {
  root_store : Type;
  verifier : Type;
  add_root : list Z -> option root_store;
  build_verifier : root_store -> option verifier;
  verify_client_cert : verifier -> list Z -> list (list Z) -> Z -> bool;
}.

Section Accept.
Context {W : WebPki}.

(** [now]: the time of the check. *)
(* tcp/connection/listener.rs:136-162 is_chain_anchored_to_root *)
Definition is_chain_anchored_to_root (cert_chain : list (list Z)) (expected_root_der : list Z) (now : Z) : bool :=
  match add_root expected_root_der with
  | None => false
  | Some root_store =>
      match build_verifier root_store with
      | None => false
      | Some verifier =>
          match cert_chain with
          | [] => false
          | end_entity :: intermediates => verify_client_cert verifier end_entity intermediates now
          end
      end
  end.

(** The requests that wait, by peer and connection; a request is named by a
    number that stands for the channel to its task. *)
Abbreviation requests := (gmap Identity (gmap Z nat)).

(** What the loop meets: a request, an accepted stream with what the handshake
    found, the peer's certificates and the time, or a failed accept.  [ok_sent]:
    the last message of the handshake could be written. *)
Inductive accept_event :=
| Requested (peer_id : Identity) (connection_id : Z) (rsp : nat)
| Accepted (found : option (Identity * Z)) (chain : option (list (list Z))) (now : Z) (ok_sent : bool)
| AcceptFailed.

(** What becomes of an accepted stream. *)
Inductive accept_outcome := Delivered (rsp : nat) | Closed | Nothing.

(* tcp/connection/listener.rs:84-98 accept_loop (certificate) *)
Definition peer_valid (tls : option RuntimeTlsConfig) (peer_id : Identity) (chain : option (list (list Z))) (now : Z) : bool :=
  match tls with
  | Some tls =>
      if validate_peer_ids tls then
        match peer_certs tls !! peer_id, chain with
        | Some expected_root, Some chain => is_chain_anchored_to_root chain expected_root now
        | _, _ => false
        end
      else true
  | None => true
  end.

(* tcp/connection/listener.rs:54-124 accept_loop (one event) *)
Definition accept_step (tls : option RuntimeTlsConfig) (reqs : requests) (ev : accept_event) : requests * accept_outcome :=
  match ev with
  | Requested peer_id connection_id rsp =>
      (<[peer_id := <[connection_id := rsp]> (default ∅ (reqs !! peer_id))]> reqs, Nothing)
  | AcceptFailed => (reqs, Nothing)
  | Accepted None _ _ _ => (reqs, Closed)
  | Accepted (Some (peer_id, connection_id)) chain now ok_sent =>
      if negb (peer_valid tls peer_id chain now) then (reqs, Closed) else
      match reqs !! peer_id with
      | Some peer_map =>
          match peer_map !! connection_id with
          | Some rsp => (<[peer_id := delete connection_id peer_map]> reqs, if ok_sent then Delivered rsp else Closed)
          | None => (reqs, Closed)
          end
      | None => (reqs, Closed)
      end
  end.

(* tcp/connection/listener.rs:34-126 accept_loop *)
Fixpoint accept_loop (tls : option RuntimeTlsConfig) (reqs : requests) (evs : list accept_event) : requests * list accept_outcome :=
  match evs with
  | [] => (reqs, [])
  | ev :: evs =>
      let '(reqs, out) := accept_step tls reqs ev in
      let '(reqs, outs) := accept_loop tls reqs evs in
      (reqs, out :: outs)
  end.

(** *** A stream goes to the task that asked for it *)

(** The request that waits for a connection. *)
Definition waiting (reqs : requests) (peer_id : Identity) (connection_id : Z) : option nat :=
  m ← reqs !! peer_id; m !! connection_id.

Lemma waiting_step tls reqs ev p c rsp :
  waiting (accept_step tls reqs ev).1 p c = Some rsp -> ev = Requested p c rsp \/ waiting reqs p c = Some rsp.
Proof.
  unfold waiting. destruct ev as [p' c' r'|[[p' c']|] chain now ok|]; cbn; [| |auto..].
  - destruct (decide (p' = p)) as [->|Hp]; [|rewrite lookup_insert_ne by done; auto]. rewrite lookup_insert_eq. cbn.
    destruct (decide (c' = c)) as [->|Hc]; [rewrite lookup_insert_eq; naive_solver|]. rewrite lookup_insert_ne by done.
    destruct (reqs !! p); cbn; [auto|by rewrite lookup_empty].
  - destruct (negb _); [auto|]. destruct (reqs !! p') as [m|] eqn:Em; [|auto]. destruct (m !! c') as [r|] eqn:Er; [|auto]. cbn.
    destruct (decide (p' = p)) as [->|Hp]; [|rewrite lookup_insert_ne by done; auto]. rewrite lookup_insert_eq, Em. cbn.
    destruct (decide (c' = c)) as [->|Hc]; [by rewrite lookup_delete_eq|]. rewrite lookup_delete_ne by done. auto.
Qed.

Lemma delivered_step tls reqs ev rsp :
  (accept_step tls reqs ev).2 = Delivered rsp ->
  exists p c chain now, ev = Accepted (Some (p, c)) chain now true /\ peer_valid tls p chain now = true /\
    waiting reqs p c = Some rsp /\ waiting (accept_step tls reqs ev).1 p c = None.
Proof.
  unfold waiting. destruct ev as [p' c' r'|[[p c]|] chain now ok|]; cbn; [done| |done..].
  destruct (peer_valid tls p chain now) eqn:Hv; cbn; [|done]. destruct (reqs !! p) as [m|] eqn:Em; [|done].
  destruct (m !! c) as [r|] eqn:Er; [|done]. cbn. destruct ok; [|done]. intros [= ->]. exists p, c, chain, now.
  rewrite Em, lookup_insert_eq. cbn. rewrite lookup_delete_eq. done.
Qed.

(** The requests made in a sequence of events. *)
Definition tokens (evs : list accept_event) : list nat :=
  omap (fun ev => match ev with Requested _ _ rsp => Some rsp | _ => None end) evs.

(** Every request is made once: those still to come are not waiting yet, and
    none waits for two connections. *)
Record distinct_requests (reqs : requests) (evs : list accept_event) : Prop := {
  tokens_once : NoDup (tokens evs);
  tokens_new p c rsp : waiting reqs p c = Some rsp -> rsp ∉ tokens evs;
  tokens_apart p c p' c' rsp : waiting reqs p c = Some rsp -> waiting reqs p' c' = Some rsp -> (p, c) = (p', c');
}.

Lemma distinct_step tls reqs ev evs : distinct_requests reqs (ev :: evs) -> distinct_requests (accept_step tls reqs ev).1 evs.
Proof.
  intros [H1 H2 H3]. unfold tokens in *. cbn in H1, H2.
  assert (forall p c rsp, ev = Requested p c rsp -> rsp ∉ omap (fun ev => match ev with Requested _ _ rsp => Some rsp | _ => None end) evs) as Hev.
  { intros p c rsp ->. by apply NoDup_cons in H1 as [? _]. }
  assert (forall p c p' c' rsp, ev = Requested p c rsp -> waiting reqs p' c' = Some rsp -> False) as Hno.
  { intros p c p' c' rsp -> Hw. apply H2 in Hw. apply Hw. by left. }
  split.
  - destruct ev; try done. by apply NoDup_cons in H1 as [_ ?].
  - intros p c rsp [Hr|Hw]%waiting_step; [by eapply Hev|]. apply H2 in Hw. intros Hi. apply Hw. destruct ev; try done. by right.
  - intros p c p' c' rsp [Hr|Hw]%waiting_step [Hr'|Hw']%waiting_step; [congruence| | |by eapply H3]; exfalso; by eapply Hno.
Qed.

Lemma accept_loop_cons tls reqs ev evs :
  accept_loop tls reqs (ev :: evs) =
  ((accept_loop tls (accept_step tls reqs ev).1 evs).1, (accept_step tls reqs ev).2 :: (accept_loop tls (accept_step tls reqs ev).1 evs).2).
Proof. cbn. destruct (accept_step tls reqs ev) as [reqs' out]. cbn. by destruct (accept_loop tls reqs' evs). Qed.

(** What is neither waiting nor requested is not delivered. *)
Lemma not_delivered tls reqs evs i rsp :
  (forall p c, waiting reqs p c <> Some rsp) -> rsp ∉ tokens evs -> (accept_loop tls reqs evs).2 !! i <> Some (Delivered rsp).
Proof.
  revert reqs i. induction evs as [|ev evs IH]; intros reqs i Hw Ht; [done|]. rewrite accept_loop_cons. unfold tokens in *. cbn in Ht.
  destruct i as [|i]; cbn.
  - intros [= Hi]. apply delivered_step in Hi as (p & c & chain & now & _ & _ & Hw' & _). by eapply Hw.
  - apply IH.
    + intros p c [Hr|Hw']%waiting_step; [|by eapply Hw]. subst ev. apply Ht. by left.
    + destruct ev; try done. intros Hi. apply Ht. by right.
Qed.

(** A delivered request is gone. *)
Lemma delivered_gone tls reqs ev evs i rsp :
  distinct_requests reqs (ev :: evs) -> (accept_step tls reqs ev).2 = Delivered rsp ->
  (accept_loop tls (accept_step tls reqs ev).1 evs).2 !! i <> Some (Delivered rsp).
Proof.
  intros Hd Hi. destruct (delivered_step _ _ _ _ Hi) as (p & c & chain & now & Hev & Hv & Hw & Hn). apply not_delivered.
  - intros p' c' Hw'. destruct (waiting_step _ _ _ _ _ _ Hw') as [Hr|Hw2]; [congruence|].
    pose proof (tokens_apart _ _ Hd _ _ _ _ _ Hw Hw2) as [= <- <-]. congruence.
  - pose proof (tokens_new _ _ Hd _ _ _ Hw) as Ht. by rewrite Hev in Ht.
Qed.

Lemma delivered_from tls reqs evs i rsp :
  distinct_requests reqs evs -> (accept_loop tls reqs evs).2 !! i = Some (Delivered rsp) ->
  exists p c chain now, evs !! i = Some (Accepted (Some (p, c)) chain now true) /\ peer_valid tls p chain now = true /\
    (waiting reqs p c = Some rsp \/ exists j, (j < i)%nat /\ evs !! j = Some (Requested p c rsp)) /\
    (forall i', (accept_loop tls reqs evs).2 !! i' = Some (Delivered rsp) -> i' = i).
Proof.
  revert reqs i. induction evs as [|ev evs IH]; intros reqs i Hd Hi; [done|]. rewrite accept_loop_cons in *. cbn [snd] in *.
  destruct i as [|i]; cbn in Hi.
  - injection Hi as Hi. destruct (delivered_step _ _ _ _ Hi) as (p & c & chain & now & Hev & Hv & Hw & _). exists p, c, chain, now.
    split; [by rewrite Hev|]. split; [done|]. split; [by left|]. intros [|i'] Hi'; [done|]. exfalso. by eapply delivered_gone.
  - destruct (IH _ _ (distinct_step tls reqs ev evs Hd) Hi) as (p & c & chain & now & Hev & Hv & Ho & Hu). exists p, c, chain, now.
    split; [done|]. split; [done|]. split.
    + destruct Ho as [Hw|(j & Hj & Hr)]; [|right; exists (S j); split; [lia|done]].
      destruct (waiting_step _ _ _ _ _ _ Hw) as [->|Hw']; [right; exists 0%nat; split; [lia|done]|by left].
    + intros [|i'] Hi'; [|f_equal; by apply Hu]. exfalso. cbn in Hi'. injection Hi' as Hi'. by eapply delivered_gone.
Qed.

(** A chain is anchored when its first certificate is verified by means of the
    others and of that root alone. *)
Lemma anchored_inv chain root now :
  is_chain_anchored_to_root chain root now = true ->
  exists store v end_entity intermediates, add_root root = Some store /\ build_verifier store = Some v /\
    chain = end_entity :: intermediates /\ verify_client_cert v end_entity intermediates now = true.
Proof.
  unfold is_chain_anchored_to_root. destruct (add_root root) as [store|]; [|done]. destruct (build_verifier store) as [v|] eqn:Ev; [|done].
  destruct chain as [|e im]; [done|]. intros Hv. by exists store, v, e, im.
Qed.
End Accept.

(** ** Lemmas: session ids *)

Lemma advance_range config n :
  0 < num_sessions config < 2 ^ 32 -> 0 <= n -> 0 <= advance_session_id config n /\
  (advance_session_id config n = 0 \/ advance_session_id config n + num_sessions config < 2 ^ 32 - 1).
Proof. intros Hc Hn. unfold advance_session_id. destruct (Z.leb_spec (2 ^ 32 - 1 - num_sessions config) (Z.min (n + num_sessions config) (2 ^ 32 - 1))); lia. Qed.

Lemma session_counter_range config k :
  0 < num_sessions config < 2 ^ 32 -> 0 <= session_counter config k /\
  (session_counter config k = 0 \/ session_counter config k + num_sessions config < 2 ^ 32 - 1).
Proof.
  intros Hc. unfold session_counter. destruct k as [|k]; [cbn; lia|]. cbn. apply advance_range; [done|].
  induction k as [|k IH]; cbn; [lia|]. by apply advance_range.
Qed.

(** The counter never leaves room for an overflow: unless all ids but two are
    taken at once, every session has an id below the last two, for which the
    parts of the shuffle collide. *)
Theorem session_ids_safe config k sid :
  0 < num_sessions config < 2 ^ 32 - 1 -> sid ∈ session_ids config (session_counter config k) -> 0 <= sid < 2 ^ 32 - 2.
Proof.
  intros Hc (j & -> & Hj%elem_of_seq)%list_elem_of_fmap. pose proof (session_counter_range config k). lia.
Qed.

(** Every session uses every connection once. *)
Theorem connection_order_perm n idx :
  0 < n -> 0 <= idx -> connection_order n idx ≡ₚ Z.of_nat <$> seq 0 (Z.to_nat n).
Proof.
  intros Hn Hi. unfold connection_order. set (f := idx mod n). assert (0 <= f < n) as Hf by (apply Z.mod_pos_bound; lia).
  apply NoDup_Permutation.
  - apply NoDup_fmap_2_strong; [|apply NoDup_seq]. intros x y Hx%elem_of_seq Hy%elem_of_seq E.
    destruct (decide (f + Z.of_nat x < n)), (decide (f + Z.of_nat y < n)).
    all: rewrite ?(Z.mod_small (f + Z.of_nat x)), ?(Z.mod_small (f + Z.of_nat y)) in E by lia.
    + lia.
    + rewrite <- (Z_mod_plus_full _ (-1)), Z.mod_small in E by lia. lia.
    + symmetry in E. rewrite <- (Z_mod_plus_full _ (-1)), Z.mod_small in E by lia. lia.
    + rewrite <- (Z_mod_plus_full (f + Z.of_nat x) (-1)), <- (Z_mod_plus_full (f + Z.of_nat y) (-1)), !Z.mod_small in E by lia. lia.
  - apply NoDup_fmap_2; [apply _|apply NoDup_seq].
  - intros x. rewrite !list_elem_of_fmap. split.
    + intros (j & -> & _). pose proof (Z.mod_pos_bound (f + Z.of_nat j) n ltac:(lia)) as Hb.
      exists (Z.to_nat ((f + Z.of_nat j) mod n)). rewrite elem_of_seq. split; lia.
    + intros (j & -> & Hj%elem_of_seq). exists (Z.to_nat ((Z.of_nat j - f) mod n)). rewrite elem_of_seq.
      pose proof (Z.mod_pos_bound (Z.of_nat j - f) n ltac:(lia)). rewrite Z2Nat.id by lia. split; [|lia].
      rewrite Zplus_mod_idemp_r. replace (f + (Z.of_nat j - f)) with (Z.of_nat j) by lia. rewrite Z.mod_small; lia.
Qed.

(** Of two parties that are configured alike, one dials. *)
Theorem one_party_dials a b :
  a <> b -> choose_endpoint Bidirectional a b = DialOut <-> choose_endpoint Bidirectional b a = WaitForPeer.
Proof.
  intros Hab. unfold choose_endpoint, String.ltb. rewrite (String.compare_antisym b a).
  destruct (String.compare a b) eqn:E; cbn; [by apply String.compare_eq_iff in E|naive_solver..].
Qed.

(** ** Lemmas: the handshake *)

Lemma length_to_be x : length (to_be_u32 x) = 4%nat.
Proof. unfold to_be_u32. rewrite length_rev. apply length_to_le. Qed.

Lemma from_to_be x : 0 <= x < 2 ^ 32 -> from_be_u32 (to_be_u32 x) = x.
Proof. intros Hx. unfold from_be_u32, to_be_u32. rewrite rev_involutive, Z.mod_small by done. by apply from_to_le. Qed.

Lemma bytes_string_bytes s : bytes_string (string_bytes s) = s.
Proof.
  unfold bytes_string, string_bytes. rewrite <- list_fmap_compose. rewrite <- (String.string_of_list_ascii_of_string s) at 2. f_equal.
  rewrite <- (list_fmap_id (String.list_ascii_of_string s)) at 2. apply list_fmap_ext. intros ? a _. unfold compose. cbn.
  by rewrite N2Z.id, Ascii.ascii_N_embedding.
Qed.

Section Inversion.
Context {A : Type} (inp : list Z) (closed : bool) (inp' out : list Z) (close : bool) (p : io A).

Lemma step_write_inv bytes k : io_step inp closed (IoWrite bytes k) inp' out close p -> inp' = inp /\ out = bytes /\ close = false /\ p = k.
Proof. by inversion 1. Qed.
Lemma step_read_inv n k :
  (n <= length inp)%nat -> io_step inp closed (IoRead n k) inp' out close p ->
  inp' = drop n inp /\ out = [] /\ close = false /\ p = k (Some (take n inp)).
Proof. intros Hn. inversion 1; subst; [done|lia]. Qed.
Lemma step_read_blocked n k : closed = false -> (length inp < n)%nat -> io_step inp closed (IoRead n k) inp' out close p -> False.
Proof. intros Hc Hn. inversion 1; subst; [lia|done]. Qed.
Lemma step_read_some_blocked n k : closed = false -> inp = [] -> io_step inp closed (IoReadSome n k) inp' out close p -> False.
Proof. intros Hc ->. inversion 1; subst; [cbn in *; lia|done]. Qed.
Lemma step_ret_inv x : io_step inp closed (IoRet x) inp' out close p -> False.
Proof. by inversion 1. Qed.
Lemma step_close_inv k : io_step inp closed (IoClose k) inp' out close p -> inp' = inp /\ out = [] /\ close = true /\ p = k.
Proof. by inversion 1. Qed.
End Inversion.

Section Handshake.
Context (own_id : Identity) (cid : Z) (requested : Identity -> Z -> bool).
Hypothesis Hcid : 0 <= cid < 2 ^ 32.
Hypothesis Hlen : 0 < Z.of_nat (length (string_bytes own_id)) <= MAX_PEER_ID_LENGTH.
Hypothesis Hutf : utf8_valid (string_bytes own_id) = true.

Let B := string_bytes own_id.
Let L := to_be_u32 (Z.of_nat (length B)).
Let E := to_be_u32 cid.

(** The rest of the dialler's program after each access, and of the answerer's. *)
Let d4 : io (unit + string) := outbound_ok drop_stream (IoRet (inl tt)).
Let d3 := IoWrite B d4.
Let d2 := IoWrite L d3.
Let d1 : io (unit + string) :=
  IoRead 4 (fun echoed => match echoed with
    | None => drop_stream "Failed to read stream_id"
    | Some e => if negb (from_be_u32 e =? cid) then drop_stream "expected another stream_id" else d2
    end).
Let a4 : io (Identity * Z + string) :=
  if requested own_id cid then inbound_ok (IoRet (inl (own_id, cid))) else drop_stream "not requested".
Let after_id (r : option (list Z)) : io (Identity * Z + string) :=
  match r with
  | None => drop_stream "Failed to read peer_id bytes"
  | Some b =>
      if utf8_valid b then
        if requested (bytes_string b) cid then inbound_ok (IoRet (inl (bytes_string b, cid))) else drop_stream "not requested"
      else drop_stream "Failed to parse peer_id bytes as UTF-8"
  end.
Let a3 := IoRead (Z.to_nat (Z.of_nat (length B))) after_id.
Let a2 : io (Identity * Z + string) :=
  IoRead 4 (fun r => match r with
    | None => drop_stream "Failed to read peer_id length"
    | Some len => if MAX_PEER_ID_LENGTH <? from_be_u32 len then drop_stream "invalid peer_id_length. too long"
                  else IoRead (Z.to_nat (from_be_u32 len)) after_id
    end).
Let a1 := IoWrite E a2.
Let accepted_id : io (Identity * Z + string) := IoRet (inl (own_id, cid)).
Let refused : io (unit + string) := IoRet (inr "not accepted").

(** The states of the handshake.  [got] bytes of the last message have been read
    at once when the dialler gives up. *)
Inductive phase : link -> Prop :=
| phase_start : phase (mkLink (IoWrite E d1) (answer_dial requested) [] [] false false)
| phase_number_sent : phase (mkLink d1 (answer_dial requested) E [] false false)
| phase_number_read : phase (mkLink d1 a1 [] [] false false)
| phase_number_echoed : phase (mkLink d1 a2 [] E false false)
| phase_echo_read : phase (mkLink d2 a2 [] [] false false)
| phase_length_sent : phase (mkLink d3 a2 L [] false false)
| phase_id_sent : phase (mkLink d4 a2 (L ++ B) [] false false)
| phase_length_read : phase (mkLink d3 a3 [] [] false false)
| phase_id_under_way : phase (mkLink d4 a3 B [] false false)
| phase_id_read : phase (mkLink d4 a4 [] [] false false)
| phase_accepted : requested own_id cid = true -> phase (mkLink d4 accepted_id [] HANDSHAKE_OK false false)
| phase_done : requested own_id cid = true -> phase (mkLink (IoRet (inl tt)) accepted_id [] [] false false)
| phase_short_read got : requested own_id cid = true -> (0 < got < 3)%nat ->
    phase (mkLink (IoClose refused) accepted_id [] (drop got HANDSHAKE_OK) false false)
| phase_given_up got : requested own_id cid = true -> (0 < got < 3)%nat ->
    phase (mkLink refused accepted_id [] (drop got HANDSHAKE_OK) true false)
| phase_not_requested d : requested own_id cid = false -> (d = d4 \/ d = IoClose refused) ->
    phase (mkLink d (IoRet (inr "not requested")) [] [] false true)
| phase_refused : requested own_id cid = false -> phase (mkLink refused (IoRet (inr "not requested")) [] [] true true).

Lemma phase_init : phase (link_new own_id cid requested).
Proof. apply phase_start. Qed.

Lemma take_be x l : take 4 (to_be_u32 x ++ l) = to_be_u32 x /\ drop 4 (to_be_u32 x ++ l) = l.
Proof. split; [apply take_app_length'|apply drop_app_length']; symmetry; apply length_to_be. Qed.

Lemma take_be_nil x : take 4 (to_be_u32 x) = to_be_u32 x /\ drop 4 (to_be_u32 x) = [].
Proof. split; [apply take_ge|apply drop_ge]; by rewrite length_to_be. Qed.

Lemma length_L : from_be_u32 L = Z.of_nat (length B).
Proof. apply from_to_be. unfold MAX_PEER_ID_LENGTH in Hlen. fold B in Hlen. lia. Qed.

Lemma a4_cases :
  (requested own_id cid = true /\ a4 = inbound_ok accepted_id) \/ (requested own_id cid = false /\ a4 = drop_stream "not requested").
Proof. unfold a4, accepted_id. clear a4. case (requested own_id cid); auto. Qed.

(** A step of the dialler. *)
Lemma phase_dialler c inp out close p :
  phase c -> io_step (to_dialler c) (answerer_closed c) (dialler c) inp out close p ->
  phase (mkLink p (answerer c) (to_answerer c ++ out) inp (dialler_closed c || close) (answerer_closed c)).
Proof.
  intros Hp Hs. destruct Hp as [| | | | | | | | | |Hr|Hr|got Hr Hg|got Hr Hg|d Hr Hd|Hr];
    cbn [dialler answerer to_dialler to_answerer dialler_closed answerer_closed orb] in *;
    try (exfalso; by eapply step_ret_inv); try (exfalso; eapply step_read_blocked; [| |exact Hs]; [done|cbn; lia]);
    try (exfalso; by eapply step_read_some_blocked).
  - apply step_write_inv in Hs as (-> & -> & -> & ->). apply phase_number_sent.
  - apply step_read_inv in Hs as (-> & -> & -> & ->); [|unfold E; by rewrite length_to_be]. destruct (take_be_nil cid) as [Ht Hd].
    fold E in Ht, Hd. rewrite Ht, Hd. unfold E at 1. rewrite from_to_be, Z.eqb_refl by done. apply phase_echo_read.
  - apply step_write_inv in Hs as (-> & -> & -> & ->). apply phase_length_sent.
  - apply step_write_inv in Hs as (-> & -> & -> & ->). apply phase_id_sent.
  - apply step_write_inv in Hs as (-> & -> & -> & ->). apply phase_id_under_way.
  - inversion Hs as [| | |n m k Hm Hm' E1|n k Hc Hi E1|]; subst; [|done]. cbn [orb].
    destruct (decide (m = 3%nat)) as [->|Hne]; [by apply phase_done|].
    destruct m as [|[|[|m]]]; [lia|apply (phase_short_read 1); [done|lia]|apply (phase_short_read 2); [done|lia]|lia].
  - apply step_close_inv in Hs as (-> & -> & -> & ->). by apply phase_given_up.
  - destruct Hd as [->| ->].
    + inversion Hs as [| | |n m k Hm Hm' E1|n k Hc Hi E1|]; subst; [cbn in Hm'; lia|]. cbn [orb]. apply phase_not_requested; [done|]. by right.
    + apply step_close_inv in Hs as (-> & -> & -> & ->). by apply phase_refused.
Qed.

(** A step of the answerer. *)
Lemma phase_answerer c inp out close p :
  phase c -> io_step (to_answerer c) (dialler_closed c) (answerer c) inp out close p ->
  phase (mkLink (dialler c) p inp (to_dialler c ++ out) (dialler_closed c) (answerer_closed c || close)).
Proof.
  assert (length B <> 0%nat) as HB by (fold B in Hlen; lia).
  intros Hp Hs. destruct Hp as [| | | | | | | | | |Hr|Hr|got Hr Hg|got Hr Hg|d Hr Hd|Hr];
    cbn [dialler answerer to_dialler to_answerer dialler_closed answerer_closed orb] in *;
    try (exfalso; by eapply step_ret_inv); try (exfalso; eapply step_read_blocked; [| |exact Hs]; [done|cbn; lia]).
  - apply step_read_inv in Hs as (-> & -> & -> & ->); [|unfold E; by rewrite length_to_be]. destruct (take_be_nil cid) as [Ht Hd].
    fold E in Ht, Hd. rewrite Ht, Hd. unfold E at 1. rewrite from_to_be by done. apply phase_number_read.
  - apply step_write_inv in Hs as (-> & -> & -> & ->). apply phase_number_echoed.
  - apply step_read_inv in Hs as (-> & -> & -> & ->); [|unfold L; by rewrite length_to_be]. destruct (take_be_nil (Z.of_nat (length B))) as [Ht Hd].
    fold L in Ht, Hd. rewrite Ht, Hd, length_L, (proj2 (Z.ltb_ge _ _)) by apply Hlen. apply phase_length_read.
  - apply step_read_inv in Hs as (-> & -> & -> & ->); [|unfold L; rewrite length_app, length_to_be; lia].
    destruct (take_be (Z.of_nat (length B)) B) as [Ht Hd]. fold L in Ht, Hd. rewrite Ht, Hd, length_L, (proj2 (Z.ltb_ge _ _)) by apply Hlen.
    apply phase_id_under_way.
  - apply step_read_inv in Hs as (-> & -> & -> & ->); [|lia]. rewrite Nat2Z.id, take_ge, drop_ge by lia. unfold after_id, B.
    rewrite Hutf, bytes_string_bytes. apply phase_id_read.
  - destruct a4_cases as [[Hr Ha]|[Hr Ha]]; rewrite Ha in Hs.
    + apply step_write_inv in Hs as (-> & -> & -> & ->). by apply phase_accepted.
    + apply step_close_inv in Hs as (-> & -> & -> & ->). apply phase_not_requested; [done|]. by left.
Qed.

Lemma phase_reachable c : rtc link_step (link_new own_id cid requested) c -> phase c.
Proof.
  intros H. assert (phase (link_new own_id cid requested)) as H0 by apply phase_start. revert H0.
  induction H as [|c c' c'' Hs _ IH]; [done|]. intros H0. apply IH. destruct Hs as [c inp out close p Hs|c inp out close p Hs].
  - by apply phase_dialler.
  - by apply phase_answerer.
Qed.

(** No state of the handshake is stuck before both ends are done. *)
Lemma phase_progress c :
  phase c -> (forall c', link_step c c' -> False) ->
  (dialler c = IoRet (inl tt) /\ answerer c = accepted_id) \/ (exists r, dialler c = refused /\ answerer c = IoRet r).
Proof.
  intros Hp Hn.
  assert (forall inp out close p, io_step (to_dialler c) (answerer_closed c) (dialler c) inp out close p -> False) as Hd.
  { intros inp out close p Hs. eapply Hn, dialler_step, Hs. }
  assert (forall inp out close p, io_step (to_answerer c) (dialler_closed c) (answerer c) inp out close p -> False) as Ha.
  { intros inp out close p Hs. eapply Hn, answerer_step, Hs. }
  destruct Hp as [| | | | | | | | | |Hr|Hr|got Hr Hg|got Hr Hg|d Hr Hd'|Hr];
    cbn [dialler answerer to_dialler to_answerer dialler_closed answerer_closed] in *;
    try (exfalso; eapply Hd, step_write); try (exfalso; eapply Ha, step_write); try (exfalso; eapply Hd, step_close); try (by left); try (right; by eexists).
  - exfalso. eapply Ha, step_read. unfold E. by rewrite length_to_be.
  - exfalso. eapply Hd, step_read. unfold E. by rewrite length_to_be.
  - exfalso. eapply Ha, step_read. unfold L. rewrite length_app, length_to_be. lia.
  - exfalso. eapply Ha, step_read. rewrite Nat2Z.id. done.
  - exfalso. destruct a4_cases as [[Hr Hq]|[Hr Hq]]; rewrite Hq in Ha; [eapply Ha, step_write|eapply Ha, step_close].
  - exfalso. eapply Hd, (step_read_some _ _ _ 1); [lia|cbn; lia].
  - exfalso. destruct Hd' as [->| ->]; [by eapply Hd, step_read_some_end|eapply Hd, step_close].
Qed.

Lemma phase_sound c p k :
  phase c -> answerer c = IoRet (inl (p, k)) -> p = own_id /\ k = cid /\ requested own_id cid = true.
Proof.
  intros Hp. destruct Hp; cbn; try done; try (intros [= <- <-]; done).
  destruct a4_cases as [[Hr Hq]|[Hr Hq]]; by rewrite Hq.
Qed.

Lemma phase_dialled c : phase c -> dialler c = IoRet (inl tt) -> answerer c = accepted_id.
Proof. intros Hp. destruct Hp as [| | | | | | | | | |Hr|Hr|got Hr Hg|got Hr Hg|d Hr Hd|Hr]; cbn; try done. by destruct Hd as [->| ->]. Qed.
(** The run in which nothing is cut, up to the last message. *)
Lemma number_exchanged : rtc link_step (link_new own_id cid requested) (mkLink d2 a2 [] [] false false).
Proof.
  destruct (take_be_nil cid) as [Ht Hd]. fold E in Ht, Hd.
  assert (4 <= length E)%nat as HE by (unfold E; by rewrite length_to_be).
  assert (from_be_u32 E = cid) as Hf by (by apply from_to_be).
  eapply rtc_l; [exact (dialler_step (mkLink (IoWrite E d1) (answer_dial requested) [] [] false false) _ _ _ _ (step_write _ _ E d1))|].
  pose proof (answerer_step (mkLink d1 (answer_dial requested) E [] false false) _ _ _ _ (step_read _ _ 4 _ HE)) as Hs.
  cbn [dialler answerer to_dialler to_answerer dialler_closed answerer_closed orb app] in Hs. rewrite Ht, Hd in Hs.
  rewrite Hf in Hs. eapply rtc_l; [exact Hs|]. clear Hs.
  eapply rtc_l; [exact (answerer_step (mkLink d1 a1 [] [] false false) _ _ _ _ (step_write _ _ E a2))|].
  pose proof (dialler_step (mkLink d1 a2 [] E false false) _ _ _ _ (step_read _ _ 4 _ HE)) as Hs.
  cbn [dialler answerer to_dialler to_answerer dialler_closed answerer_closed orb app] in Hs. rewrite Ht, Hd in Hs.
  rewrite Hf, Z.eqb_refl in Hs. eapply rtc_l; [exact Hs|]. apply rtc_refl.
Qed.

Lemma identity_sent : rtc link_step (mkLink d2 a2 [] [] false false) (mkLink d4 a4 [] [] false false).
Proof.
  destruct (take_be (Z.of_nat (length B)) B) as [Ht Hd]. fold L in Ht, Hd.
  assert (4 <= length (L ++ B))%nat as HL by (unfold L; rewrite length_app, length_to_be; lia).
  eapply rtc_l; [exact (dialler_step (mkLink d2 a2 [] [] false false) _ _ _ _ (step_write _ _ L d3))|].
  eapply rtc_l; [exact (dialler_step (mkLink d3 a2 L [] false false) _ _ _ _ (step_write _ _ B d4))|].
  pose proof (answerer_step (mkLink d4 a2 (L ++ B) [] false false) _ _ _ _ (step_read _ _ 4 _ HL)) as Hs.
  cbn [dialler answerer to_dialler to_answerer dialler_closed answerer_closed orb app] in Hs.
  rewrite Ht, Hd, length_L, (proj2 (Z.ltb_ge _ _)) in Hs by apply Hlen. eapply rtc_l; [exact Hs|]. clear Hs.
  assert (Z.to_nat (Z.of_nat (length B)) <= length B)%nat as HB by lia.
  pose proof (answerer_step (mkLink d4 a3 B [] false false) _ _ _ _ (step_read _ _ _ _ HB)) as Hs.
  cbn [dialler answerer to_dialler to_answerer dialler_closed answerer_closed orb app] in Hs. rewrite Nat2Z.id, take_ge, drop_ge in Hs by lia.
  assert (after_id (Some B) = a4) as Ha by (unfold after_id, B; by rewrite Hutf, bytes_string_bytes).
  rewrite Ha in Hs. eapply rtc_l; [exact Hs|]. apply rtc_refl.
Qed.

(** Reading the first [got] bytes of the last message. *)
Lemma last_message_read got :
  requested own_id cid = true -> (0 < got <= 3)%nat ->
  rtc link_step (link_new own_id cid requested)
    (mkLink (if (got =? 3)%nat then IoRet (inl tt) else IoClose refused) accepted_id [] (drop got HANDSHAKE_OK) false false).
Proof.
  intros Hr Hg. etrans; [apply number_exchanged|]. etrans; [apply identity_sent|].
  destruct a4_cases as [[_ ->]|[Hr' _]]; [|congruence].
  eapply rtc_l; [exact (answerer_step (mkLink d4 (inbound_ok accepted_id) [] [] false false) _ _ _ _ (step_write _ _ HANDSHAKE_OK accepted_id))|].
  apply rtc_once.
  assert (got <= length HANDSHAKE_OK)%nat as Hl by (cbn; lia).
  pose proof (dialler_step (mkLink d4 accepted_id [] HANDSHAKE_OK false false) _ _ _ _ (step_read_some _ _ 3 got _ Hg Hl)) as Hs.
  destruct got as [|[|[|[|got]]]]; [lia|exact Hs..|lia].
Qed.
End Handshake.

(** ** Claims *)

(** An identity that can be sent: valid text of at most 128 bytes. *)
Definition sendable (id : Identity) : Prop :=
  0 < Z.of_nat (length (string_bytes id)) <= MAX_PEER_ID_LENGTH /\ utf8_valid (string_bytes id) = true.

(** C32: the handshake tells the accepting party the truth and does not get stuck.
    However the two ends are scheduled and however reads are cut: the identity
    and connection number that the accepting party ends with are those of the
    dialler, and only if it waits for them; the dialler succeeds only when the
    other end has accepted it; and as long as one end is not done, one of them
    can go on. *)
Theorem handshake_sound own_id cid requested c :
  0 <= cid < 2 ^ 32 -> sendable own_id -> rtc link_step (link_new own_id cid requested) c ->
  (forall p k, answerer c = IoRet (inl (p, k)) -> p = own_id /\ k = cid /\ requested own_id cid = true) /\
  (dialler c = IoRet (inl tt) -> answerer c = IoRet (inl (own_id, cid))) /\
  ((forall c', link_step c c' -> False) -> exists r r', dialler c = IoRet r /\ answerer c = IoRet r').
Proof.
  intros Hc [Hl Hu] Hr. apply phase_reachable in Hr; [|done..]. split; [|split].
  - intros p k. by apply (phase_sound own_id cid requested).
  - by apply (phase_dialled own_id cid requested).
  - intros Hn. destruct (phase_progress own_id cid requested c Hr Hn) as [[-> ->]|(r & -> & ->)]; by do 2 eexists.
Qed.

(** The last message is read with [read], which may return a part of it: then the
    dialler gives up a connection that the other end has already handed out. *)
Theorem handshake_short_read own_id cid requested :
  0 <= cid < 2 ^ 32 -> sendable own_id -> requested own_id cid = true ->
  exists c, rtc link_step (link_new own_id cid requested) c /\
    dialler c = IoRet (inr "not accepted") /\ answerer c = IoRet (inl (own_id, cid)).
Proof.
  intros Hc [Hl Hu] Hr. eexists. split; [|split].
  - eapply rtc_r; [apply (last_message_read own_id cid requested Hc Hl Hu 2 Hr); lia|]. apply dialler_step, step_close.
  - reflexivity.
  - reflexivity.
Qed.

(** *** Witness *)

Definition demo_requested (p : Identity) (k : Z) : bool := bool_decide (p = "alice") && (k =? 7).

Lemma demo_sendable : sendable "alice".
Proof. split; [vm_compute; split; congruence|reflexivity]. Qed.

Lemma demo_handshake :
  exists c, rtc link_step (link_new "alice" 7 demo_requested) c /\ dialler c = IoRet (inl tt).
Proof.
  eexists. split; [apply (last_message_read "alice" 7 demo_requested); [lia|apply demo_sendable|apply demo_sendable|reflexivity|]|].
  - exact (conj (Nat.lt_0_succ 2) (le_n 3)).
  - reflexivity.
Qed.

Lemma handshake_sound_witness :
  exists c, rtc link_step (link_new "alice" 7 demo_requested) c /\ answerer c = IoRet (inl ("alice", 7)).
Proof.
  destruct demo_handshake as (c & Hr & Hd). exists c. split; [exact Hr|].
  destruct (handshake_sound "alice" 7 demo_requested c) as (_ & H & _); [lia|exact demo_sendable|exact Hr|exact (H Hd)].
Defined.

(** The accept loop hands a stream to the task that asked for it.  When every
    request is made once, each stream that is handed out goes to a task that
    asked before for the peer and connection number found by the handshake, the
    peer's certificates lead to the root expected of it when they are checked,
    and no task is given two streams. *)
Theorem accept_loop_delivers {W : WebPki} tls evs i rsp :
  NoDup (tokens evs) -> (accept_loop tls ∅ evs).2 !! i = Some (Delivered rsp) ->
  exists p c chain now j, evs !! i = Some (Accepted (Some (p, c)) chain now true) /\ peer_valid tls p chain now = true /\
    (j < i)%nat /\ evs !! j = Some (Requested p c rsp) /\
    (forall i', (accept_loop tls ∅ evs).2 !! i' = Some (Delivered rsp) -> i' = i).
Proof.
  intros Hn Hi. assert (distinct_requests ∅ evs) as Hd.
  { split; [done|..]; unfold waiting; intros *; by rewrite lookup_empty. }
  destruct (delivered_from tls ∅ evs i rsp Hd Hi) as (p & c & chain & now & Hev & Hv & [Hw|(j & Hj & Hr)] & Hu).
  - unfold waiting in Hw. by rewrite lookup_empty in Hw.
  - by exists p, c, chain, now, j.
Qed.

Definition demo_events : list accept_event :=
  [Requested "bob" 0 5; Requested "bob" 1 6; Accepted (Some ("eve", 0)) None 10 true; Accepted (Some ("bob", 1)) (Some [[7]; [1; 2]]) 10 true;
   Accepted (Some ("bob", 1)) (Some [[7]; [1; 2]]) 11 true].

(** A toy verifier: the last certificate is the root, and valid until time 20. *)
Definition demo_webpki : WebPki := {|
  root_store := list Z;
  verifier := list Z;
  add_root root := Some root;
  build_verifier store := Some store;
  verify_client_cert root end_entity intermediates now := bool_decide (last (end_entity :: intermediates) = Some root) && (now <? 20);
|}.
#[local] Existing Instance demo_webpki.
Definition demo_tls : option RuntimeTlsConfig := Some (mkTls true {["bob" := [1; 2]]}).

Lemma accept_loop_delivers_witness :
  (accept_loop demo_tls ∅ demo_events).2 !! 3%nat = Some (Delivered 6) /\
  exists j, demo_events !! j = Some (Requested "bob" 1 6).
Proof.
  assert ((accept_loop demo_tls ∅ demo_events).2 !! 3%nat = Some (Delivered 6)) as H by reflexivity.
  split; [exact H|].
  destruct (accept_loop_delivers demo_tls demo_events 3 6) as (p & c & chain & now & j & Hev & _ & _ & Hj & _); [|exact H|].
  - apply (bool_decide_unpack _). reflexivity.
  - exists j. cbn in Hev. injection Hev as <- <- _ _. exact Hj.
Defined.
