(* ===== verification/Handle.v ===== *)
(** * The network handle: [network/mpc/handle/mod.rs], [network_handle.rs],
    [data.rs] and the wiring of [session/mod.rs] of [ampc-actor-utils/src]

    A party builds a handle from the addresses of the three parties; the handle
    opens its connections, starts a forwarder on each, and makes the sessions
    that share them.  Sessions and forwarders meet in channels, which are named
    by what they are made for.  Opening a connection, reading a certificate file
    and binding a socket are parameters; what a connection does once it is open
    is in Connect.v, Multiplexer.v and Striping.v.  The theorems compose the
    three parties: the channels of a session lead to the session with the same
    id of the peer they are meant for, and sessions pass the validation and are
    the ring that the protocols run in. *)

From S2P Require Import Prelude IntRing RingImpl Party Share VecShare Value Net Prf Proto Ops Connect.
From stdpp Require Import base list numbers strings option gmap relations.
From Stdlib Require Import ZArith Lia.
Local Open Scope Z_scope.

(** ** Building a handle *)

(* execution/local.rs:23-29 generate_local_identities *)
Definition generate_local_identities : list Identity := ["alice"; "bob"; "charlie"].

(* tcp/mod.rs:99-115 TlsConfig *)
Record TlsConfig := mkTlsConfig { tls_private_key : option string; leaf_cert : option string; root_certs : list string }.

(* mpc/handle/mod.rs:47-59 NetworkHandleArgs *)
Record NetworkHandleArgs := mkArgs {
  args_party_index : nat;
  addresses : list string;
  outbound_addresses : list string;
  connection_parallelism : Z;
  request_parallelism : Z;
  sessions_per_request : Z;
  args_tls : option TlsConfig;
}.

(* network/tcp/types.rs:18-21 Peer *)
Record Peer := mkPeer { peer_id : Identity; peer_url : string }.

(** [runtime_tls] is what the accept loop was started with. *)
(* mpc/handle/network_handle.rs:39-49 MpcNetworkHandle *)
Record MpcNetworkHandle := mkHandle {
  peers : Peer * Peer;
  my_id : Identity;
  handle_config : MpcConfig;
  next_session_id : Z;
  handle_party_index : nat;
  handle_roles : gmap Z Identity;
  runtime_tls : option RuntimeTlsConfig;
}.

Inductive IpAddr := V4 (octets : Z) | V6 (segments : Z).
Record SocketAddr := mkSocketAddr { ip : IpAddr; port : Z }.

(* network/tcp/mod.rs:176-183 to_inaddr_any *)
Definition to_inaddr_any (socket : SocketAddr) : SocketAddr :=
  match ip socket with
  | V4 _ => mkSocketAddr (V4 0) (port socket)
  | V6 _ => mkSocketAddr (V6 0) (port socket)
  end.

(** The first item of a certificate file. *)
Inductive cert_file := CannotOpen | NoCertificates | BadCertificate | FirstCertificate (der : list Z).

Section Building.
Context (pem_file_iter : string -> cert_file).

(* mpc/handle/network_handle.rs:334-358 build_runtime_tls_config (loop) *)
Definition load_peer_certs (l : list (Identity * string)) : gmap Identity (list Z) :=
  foldl (fun peer_certs '(peer_id, root_cert_path) =>
    match pem_file_iter root_cert_path with
    | FirstCertificate cert => <[peer_id := cert]> peer_certs
    | _ => peer_certs
    end) ∅ l.

(* mpc/handle/network_handle.rs:315-371 build_runtime_tls_config *)
Definition build_runtime_tls_config (tls_cfg : option TlsConfig) (peers : list Identity) (party_idx : nat) : result (option RuntimeTlsConfig) :=
  match tls_cfg with
  | None => Ok None
  | Some tls_cfg =>
      if (length (root_certs tls_cfg) <=? party_idx)%nat then bail "party idx mismatch with root certs" else
      let root_certs := delete party_idx (root_certs tls_cfg) in
      if negb (length root_certs =? length peers)%nat then bail "mismatch between root certs and peer ids" else
      let peer_certs := load_peer_certs (zip peers root_certs) in
      if negb (size peer_certs =? length peers)%nat then bail "failed to load certs for at least one peer"
      else Ok (Some (mkTls true peer_certs))
  end.

(* mpc/handle/network_handle.rs:186-231 MpcNetworkHandle::new *)
Definition handle_new (my_id : Identity) (peers : list Peer) (config : MpcConfig) (party_index : nat) (role_assignments : gmap Z Identity)
    (tls_cfg : option TlsConfig) : result MpcNetworkHandle :=
  tls ← build_runtime_tls_config tls_cfg (peer_id <$> peers) party_index;
  match peers with
  | p0 :: p1 :: _ => Ok (mkHandle (p0, p1) my_id config 0 party_index role_assignments tls)
  | _ => panic "expected at least 2 identities"
  end.

(** [enumerate().filter(|(idx, _)| *idx != my_index)]. *)
Definition without_index {A} (my_index : nat) (l : list A) : list A := delete my_index l.

(* mpc/handle/mod.rs:94-97 build_network_handle_with_timeout (peers) *)
Definition handle_peers (my_index : nat) (urls : list string) : list Peer :=
  without_index my_index ((fun '(id, url) => mkPeer id url) <$> zip generate_local_identities urls).

(* mpc/handle/mod.rs:76-80 build_network_handle_with_timeout (roles) *)
Definition local_roles : gmap Z Identity :=
  list_to_map (imap (fun index id => (role_u8 (role_new (Z.of_nat index)), id)) generate_local_identities).

(** [bind]: the listener is created; [tls_ready]: the key and the certificates
    are loaded for the listener and for the connector. *)
Context (parse_addr : string -> option SocketAddr) (bind : SocketAddr -> result unit) (tls_ready : TlsConfig -> result unit).

(* mpc/handle/mod.rs:68-169 build_network_handle_with_timeout *)
Definition build_network_handle (args : NetworkHandleArgs) : result MpcNetworkHandle :=
  let my_index := args_party_index args in
  my_identity ← index generate_local_identities my_index;
  my_address ← index (addresses args) my_index;
  my_addr ← ok_or (parse_addr my_address) "invalid socket address syntax";
  config ← mpc_config_new (connection_parallelism args) ((request_parallelism args * sessions_per_request args) mod 2 ^ 64);
  let peers := handle_peers my_index (outbound_addresses args) in
  _ ← match args_tls args with
      | Some tls =>
          if bool_decide (tls_private_key tls = None) || bool_decide (leaf_cert tls = None)
          then bail "TLS configuration is required for this operation"
          else _ ← bind (to_inaddr_any my_addr); tls_ready tls
      | None => bind (to_inaddr_any my_addr)
      end;
  handle_new my_identity peers config my_index local_roles (args_tls args).
End Building.

(** ** Connections *)

(* mpc/handle/data.rs:16-20 PeerConnections *)
Record PeerConnections (T : Type) := mkPeerConnections { pc_peers : Peer * Peer; c0 : list T; c1 : list T }.
Arguments mkPeerConnections {T} _ _ _.
Arguments pc_peers {T} _.
Arguments c0 {T} _.
Arguments c1 {T} _.

(* mpc/handle/data.rs:27-29 PeerConnections::peer_ids *)
Definition peer_ids {T} (self : PeerConnections T) : list Identity := [peer_id (pc_peers self).1; peer_id (pc_peers self).2].

(* mpc/handle/data.rs:36-42 PeerConnections::into_iter *)
Definition peer_connections {T} (self : PeerConnections T) : list (Identity * list T) :=
  [(peer_id (pc_peers self).1, c0 self); (peer_id (pc_peers self).2, c1 self)].

Section Connecting.
(** [connect]: the outcome of [tcp::connect] to a peer with a connection id. *)
Context {T : Type} (connect : Identity -> Z -> result T).

(* mpc/handle/network_handle.rs:247-284 make_connections *)
Definition make_connections (self : MpcNetworkHandle) (conns_per_peer : Z) : result (list T * list T) :=
  let attempts := (fun peer => (fun idx => connect (peer_id peer) (Z.of_nat idx)) <$> seq 0 (Z.to_nat conns_per_peer)) in
  results ← mapM_result id (attempts (peers self).1 ++ attempts (peers self).2);
  split_connections results.

(* mpc/handle/network_handle.rs:234-243 make_peer_connections *)
Definition make_peer_connections (self : MpcNetworkHandle) (conns_per_peer : Z) : result (PeerConnections T) :=
  '(c0, c1) ← make_connections self conns_per_peer;
  Ok (mkPeerConnections (peers self) c0 c1).

(** The streams to the next and to the previous party. *)
(* mpc/handle/network_handle.rs:146-181 control_channel *)
Definition control_channel (self : MpcNetworkHandle) : result (T * T) :=
  '(c0, c1) ← make_connections self 1;
  stream_to_peer0 ← ok_or (c0 !! 0%nat) "no connection to peer 0";
  stream_to_peer1 ← ok_or (c1 !! 0%nat) "no connection to peer 1";
  let my_role := role_new (Z.of_nat (handle_party_index self)) in
  next_role ← role_next my_role (Z.of_nat (size (handle_roles self)) mod 256);
  next_id ← ok_or (handle_roles self !! role_u8 next_role) "next role not found in role_assignments";
  Ok (if bool_decide (peer_id (peers self).1 = next_id) then (stream_to_peer0, stream_to_peer1) else (stream_to_peer1, stream_to_peer0)).
End Connecting.

(** ** Sessions *)

(** A channel between sessions and forwarders, named by what it is made for;
    its two ends are one channel. *)
Inductive channel := OutChannel (peer : Identity) (connection : Z) | InChannel (peer : Identity) (session : Z).
#[export] Instance channel_eq_dec : EqDecision channel.
Proof. solve_decision. Defined.

(* mpc/handle/session/mod.rs:333-338 SessionChannels *)
Record SessionChannels := mkChannels {
  outbound_tx : gmap Identity (gmap Z channel);
  outbound_rx : gmap Identity (gmap Z channel);
  inbound_tx : gmap Identity (gmap Z channel);
  inbound_rx : gmap Identity (gmap Z channel);
}.

Definition connection_ids (config : MpcConfig) : list Z := Z.of_nat <$> seq 0 (Z.to_nat (num_connections config)).

(* mpc/handle/session/mod.rs:350-383 make_channels *)
Definition make_channels (peer_ids : list Identity) (config : MpcConfig) (next_session_id : Z) : SessionChannels :=
  let outbound := list_to_map ((fun peer_id => (peer_id, list_to_map ((fun c => (c, OutChannel peer_id c)) <$> connection_ids config))) <$> peer_ids) in
  let inbound := list_to_map ((fun peer_id => (peer_id, list_to_map ((fun s => (s, InChannel peer_id s)) <$> session_ids config next_session_id))) <$> peer_ids) in
  mkChannels outbound outbound inbound inbound.

(** A task [multiplexer::run]: the stream it owns, the channels it delivers to
    by session, and the channel it sends from. *)
Record Forwarder (T : Type) := mkForwarder { fw_stream : T; fw_num_sessions : Z; fw_inbound : gmap Z channel; fw_outbound : channel }.
Arguments mkForwarder {T} _ _ _ _.
Arguments fw_stream {T} _.
Arguments fw_num_sessions {T} _.
Arguments fw_inbound {T} _.
Arguments fw_outbound {T} _.

(** The wiring of a session, peer by peer: where it sends to and receives from;
    the rest of its state is [PeerIo] of Striping.v. *)
Record TcpSession := mkTcpSession { ts_id : Z; ts_peers : list (Identity * (list channel * channel)) }.

Definition unwrap {A} (o : option A) : result A :=
  match o with Some x => Ok x | None => panic "called `Option::unwrap()` on a `None` value" end.

Section Sessions.
Context {T : Type} (config : MpcConfig).

(* mpc/handle/session/mod.rs:400-419 make_sessions_inner (connections of a peer) *)
Fixpoint spawn_peer (peer_id : Identity) (idx : nat) (conns : list T) (sc : SessionChannels) : result (SessionChannels * list (Forwarder T)) :=
  match conns with
  | [] => Ok (sc, [])
  | connection :: conns =>
      let connection_id := Z.of_nat idx mod 2 ^ 32 in
      rxs ← unwrap (outbound_rx sc !! peer_id);
      rx ← unwrap (rxs !! connection_id);
      let sc := mkChannels (outbound_tx sc) (<[peer_id := delete connection_id rxs]> (outbound_rx sc)) (inbound_tx sc) (inbound_rx sc) in
      inbound_forwarder ← unwrap (inbound_tx sc !! peer_id);
      '(sc, fws) ← spawn_peer peer_id (S idx) conns sc;
      Ok (sc, mkForwarder connection (num_sessions config) inbound_forwarder rx :: fws)
  end.

(* mpc/handle/session/mod.rs:399-420 make_sessions_inner (forwarders) *)
Fixpoint spawn_all (connections : list (Identity * list T)) (sc : SessionChannels) : result (SessionChannels * list (Forwarder T)) :=
  match connections with
  | [] => Ok (sc, [])
  | (peer_id, conns) :: connections =>
      '(sc, fws) ← spawn_peer peer_id 0 conns sc;
      '(sc, fws') ← spawn_all connections sc;
      Ok (sc, fws ++ fws')
  end.

(* mpc/handle/session/mod.rs:431-454 make_sessions_inner (peers of a session) *)
Fixpoint session_peers (idx : Z) (session_id : Z) (peer_ids : list Identity) (sc : SessionChannels)
    : result (SessionChannels * list (Identity * (list channel * channel))) :=
  match peer_ids with
  | [] => Ok (sc, [])
  | peer_id :: peer_ids =>
      if num_connections config =? 0 then panic "attempt to calculate the remainder with a divisor of zero" else
      txs ← unwrap (outbound_tx sc !! peer_id);
      tx ← mapM_result (fun connection_id => unwrap (txs !! connection_id)) (connection_order (num_connections config) idx);
      rxs ← unwrap (inbound_rx sc !! peer_id);
      rx ← unwrap (rxs !! session_id);
      let sc := mkChannels (outbound_tx sc) (outbound_rx sc) (inbound_tx sc) (<[peer_id := delete session_id rxs]> (inbound_rx sc)) in
      '(sc, rest) ← session_peers idx session_id peer_ids sc;
      Ok (sc, (peer_id, (tx, rx)) :: rest)
  end.

(* mpc/handle/session/mod.rs:424-459 make_sessions_inner (sessions) *)
Fixpoint create_sessions (peer_ids : list Identity) (idx : nat) (ids : list Z) (sc : SessionChannels) : result (list TcpSession) :=
  match ids with
  | [] => Ok []
  | session_id :: ids =>
      '(sc, ps) ← session_peers (Z.of_nat idx mod 2 ^ 32) session_id peer_ids sc;
      rest ← create_sessions peer_ids (S idx) ids sc;
      Ok (mkTcpSession session_id ps :: rest)
  end.

(* mpc/handle/session/mod.rs:385-462 make_sessions_inner *)
Definition make_sessions_inner (connections : PeerConnections T) (next_session_id : Z) (sc : SessionChannels) : result (list (Forwarder T) * list TcpSession) :=
  '(sc, fws) ← spawn_all (peer_connections connections) sc;
  sessions ← create_sessions (peer_ids connections) 0 (session_ids config next_session_id) sc;
  Ok (fws, sessions).

(* mpc/handle/session/mod.rs:340-348 make_sessions *)
Definition make_tcp_sessions (connections : PeerConnections T) (next_session_id : Z) : result (list (Forwarder T) * list TcpSession) :=
  make_sessions_inner connections next_session_id (make_channels (peer_ids connections) config next_session_id).
End Sessions.

(** ** Validation *)

(** [idx.to_le_bytes()] in the first bytes of a key. *)
Definition index_key (idx : nat) : list Z := to_le_bytes 8 (Z.of_nat idx) ++ replicate 8 0.

(* mpc/handle/network_handle.rs:296-298 validate_sessions (sends) *)
Fixpoint send_key (key : list Z) (peers : list Identity) (k : proc (result unit)) : proc (result unit) :=
  match peers with
  | [] => k
  | peer :: peers => r ← net_send (PrfKey key) peer; match r with Ok _ => send_key key peers k | Err e => Ret (Err e) end
  end.

(* mpc/handle/network_handle.rs:299-307 validate_sessions (receives) *)
Fixpoint check_keys (key : list Z) (peers : list Identity) (k : proc (result unit)) : proc (result unit) :=
  match peers with
  | [] => k
  | peer :: peers =>
      r ← net_receive peer;
      match r with
      | Err e => Ret (Err e)
      | Ok (PrfKey arr) => if bool_decide (key = arr) then check_keys key peers k else Ret (panic "assertion `left == right` failed")
      | Ok _ => Ret (bail "invalid msg received in validate_sessions()")
      end
  end.

(** The sessions one after the other.  The queues of the sessions between two
    parties are one queue here, so that a message is found only when all
    earlier ones have been received. *)
(* mpc/handle/network_handle.rs:286-310 validate_sessions *)
Fixpoint validate_sessions (peers : list Identity) (idx : nat) (num_sessions : nat) : proc (result unit) :=
  match num_sessions with
  | O => Ret (Ok tt)
  | S n => send_key (index_key idx) peers (check_keys (index_key idx) peers (validate_sessions peers (S idx) n))
  end.

Definition with_next_session_id (self : MpcNetworkHandle) (n : Z) : MpcNetworkHandle :=
  mkHandle (peers self) (my_id self) (handle_config self) n (handle_party_index self) (handle_roles self) (runtime_tls self).

(* mpc/handle/network_handle.rs:90-98 make_network_sessions (sessions) *)
Definition network_session_of (self : MpcNetworkHandle) (tcp_session : TcpSession) : NetworkSession :=
  mkNetwork (ts_id tcp_session) (handle_roles self) (role_new (Z.of_nat (handle_party_index self))).

(** Without cancellation: the call fails when a token is cancelled. *)
(* mpc/handle/network_handle.rs:64-122 make_network_sessions *)
Definition make_network_sessions {T} (connect : Identity -> Z -> result T) (self : MpcNetworkHandle)
    : proc (result (MpcNetworkHandle * list (Forwarder T) * list (TcpSession * NetworkSession))) :=
  match (connections ← make_peer_connections connect self (num_connections (handle_config self));
         make_tcp_sessions (handle_config self) connections (next_session_id self)) with
  | Err e => Ret (Err e)
  | Ok (fws, tcp_sessions) =>
      r ← validate_sessions [peer_id (peers self).1; peer_id (peers self).2] 0 (length tcp_sessions);
      Ret (_ ← r; Ok (with_next_session_id self (advance_session_id (handle_config self) (next_session_id self)), fws,
                      (fun s => (s, network_session_of self s)) <$> tcp_sessions))
  end.

(** [my_session_seed] is drawn at random; the sessions are set up in parallel,
    each over its own channels: this is the task of one of them. *)
(* mpc/handle/network_handle.rs:128-139 make_sessions (one session) *)
Definition make_session {R : Rng} (my_session_seed : list Z) (n : NetworkSession) : proc (result (Session R)) :=
  r ← setup_replicated_prf n my_session_seed;
  Ret (p ← r; Ok (mkSession n p)).

(** ** Lemmas: the wiring of one party *)

Definition has (m : gmap Identity (gmap Z channel)) (p : Identity) (k : Z) (c : channel) : Prop :=
  exists mp, m !! p = Some mp /\ mp !! k = Some c.

Lemma tagged_lookup {I A : Type} `{Countable I} (f : I -> A) (l : list I) k :
  k ∈ l -> (list_to_map ((fun x => (x, f x)) <$> l) : gmap I A) !! k = Some (f k).
Proof.
  induction l as [|x l IH]; intros Hk; [by apply elem_of_nil in Hk|]. rewrite fmap_cons. cbn.
  destruct (decide (x = k)) as [->|Hne]; [apply lookup_insert_eq|]. rewrite lookup_insert_ne by done. apply IH.
  by apply elem_of_cons in Hk as [->|?].
Qed.

Lemma tagged_has (f : Identity -> Z -> channel) (ps : list Identity) (ks : list Z) p k :
  p ∈ ps -> k ∈ ks ->
  has (list_to_map ((fun p => (p, list_to_map ((fun k => (k, f p k)) <$> ks))) <$> ps)) p k (f p k).
Proof.
  intros Hp Hk. eexists. split; [by apply (tagged_lookup (fun p => list_to_map ((fun k => (k, f p k)) <$> ks)))|]. by apply (tagged_lookup (f p)).
Qed.

Section Wiring.
Context {T : Type} (config : MpcConfig).

Lemma spawn_peer_spec p (conns : list T) idx sc fwd :
  (forall j, (idx <= j < idx + length conns)%nat -> has (outbound_rx sc) p (Z.of_nat j) (OutChannel p (Z.of_nat j))) ->
  Z.of_nat (idx + length conns) <= 2 ^ 32 -> inbound_tx sc !! p = Some fwd ->
  exists rxs, spawn_peer config p idx conns sc = Ok (mkChannels (outbound_tx sc) rxs (inbound_tx sc) (inbound_rx sc),
      imap (fun j s => mkForwarder s (num_sessions config) fwd (OutChannel p (Z.of_nat (idx + j)))) conns) /\
    forall q, q <> p -> rxs !! q = outbound_rx sc !! q.
Proof.
  revert idx sc. induction conns as [|s conns IH]; intros idx sc Hrx Hlen Hfwd; cbn [length] in *.
  - exists (outbound_rx sc). by destruct sc.
  - cbn [spawn_peer]. rewrite Z.mod_small by lia. destruct (Hrx idx ltac:(lia)) as (mp & Hmp & Hc). rewrite Hmp. cbn [unwrap mbind result_bind].
    rewrite Hc. cbn [unwrap mbind result_bind inbound_tx]. rewrite Hfwd. cbn [unwrap mbind result_bind].
    edestruct (IH (S idx)) as (rxs & Hs & Hq); [| | |rewrite Hs].
    + intros j Hj. destruct (Hrx j ltac:(lia)) as (mp' & Hmp' & Hcj). exists (delete (Z.of_nat idx) mp). cbn.
      rewrite lookup_insert_eq. split; [done|]. rewrite lookup_delete_ne by lia. congruence.
    + lia.
    + done.
    + exists rxs. cbn [outbound_tx inbound_tx inbound_rx outbound_rx mbind result_bind]. split.
      * cbn [imap]. rewrite Nat.add_0_r. do 3 f_equal. apply imap_ext. intros j x _. unfold compose. do 3 f_equal. lia.
      * intros q Hne. rewrite Hq by done. cbn. by rewrite lookup_insert_ne.
Qed.

Definition wired_forwarders (inbound : gmap Identity (gmap Z channel)) (connections : list (Identity * list T)) : list (Forwarder T) :=
  connections ≫= fun '(p, conns) =>
    imap (fun j s => mkForwarder s (num_sessions config) (default ∅ (inbound !! p)) (OutChannel p (Z.of_nat j))) conns.

Lemma spawn_all_spec (connections : list (Identity * list T)) sc :
  NoDup connections.*1 ->
  (forall p conns, (p, conns) ∈ connections -> is_Some (inbound_tx sc !! p) /\ Z.of_nat (length conns) <= 2 ^ 32 /\
    forall j, (j < length conns)%nat -> has (outbound_rx sc) p (Z.of_nat j) (OutChannel p (Z.of_nat j))) ->
  exists rxs, spawn_all config connections sc
    = Ok (mkChannels (outbound_tx sc) rxs (inbound_tx sc) (inbound_rx sc), wired_forwarders (inbound_tx sc) connections).
Proof.
  revert sc. induction connections as [|[p conns] connections IH]; intros sc Hnd H; [exists (outbound_rx sc); by destruct sc|].
  rewrite fmap_cons in Hnd. apply NoDup_cons in Hnd as [Hp Hnd]. destruct (H p conns) as ([fwd Hfwd] & Hlen & Hrx); [by left|].
  destruct (spawn_peer_spec p conns 0 sc fwd) as (rxs & Hs & Hq); [intros j Hj; apply Hrx; lia|lia|done|].
  cbn [spawn_all]. rewrite Hs. cbn [mbind result_bind].
  edestruct (IH (mkChannels (outbound_tx sc) rxs (inbound_tx sc) (inbound_rx sc))) as (rxs' & Hs'); [done| |].
  - intros q cs Hin. destruct (H q cs) as (Hf & Hl & Hr); [by right|]. cbn. split_and!; [done|done|].
    intros j Hj. destruct (Hr j Hj) as (mp & Hm & Hc). exists mp. split; [|done]. rewrite Hq; [done|]. intros ->. apply Hp.
    apply list_elem_of_fmap. by exists (p, cs).
  - rewrite Hs'. exists rxs'. cbn. do 2 f_equal. unfold wired_forwarders. cbn. by rewrite Hfwd.
Qed.
End Wiring.

(** The channels of the session at position [idx] with [peers]. *)
Definition wired_session (config : MpcConfig) (peers : list Identity) (idx : nat) (sid : Z) : TcpSession :=
  mkTcpSession sid ((fun p => (p, (OutChannel p <$> connection_order (num_connections config) (Z.of_nat idx), InChannel p sid))) <$> peers).

Section Sessions.
Context (config : MpcConfig) (Hconns : 0 < num_connections config).

Lemma connection_order_in idx c :
  0 <= idx -> c ∈ connection_order (num_connections config) idx -> c ∈ connection_ids config.
Proof. intros Hi Hc. unfold connection_ids. by rewrite <- (connection_order_perm (num_connections config) idx). Qed.

Lemma session_peers_spec idx sid ps sc :
  NoDup ps ->
  (forall p c, p ∈ ps -> c ∈ connection_ids config -> has (outbound_tx sc) p c (OutChannel p c)) ->
  (forall p, p ∈ ps -> has (inbound_rx sc) p sid (InChannel p sid)) ->
  exists rxs, session_peers config (Z.of_nat idx) sid ps sc
      = Ok (mkChannels (outbound_tx sc) (outbound_rx sc) (inbound_tx sc) rxs, ts_peers (wired_session config ps idx sid)) /\
    forall p s c, s <> sid -> has (inbound_rx sc) p s c -> has rxs p s c.
Proof.
  revert sc. induction ps as [|p ps IH]; intros sc Hnd Htx Hrx; [exists (inbound_rx sc); by destruct sc|].
  apply NoDup_cons in Hnd as [Hp Hnd]. cbn [session_peers]. destruct (Z.eqb_spec (num_connections config) 0); [lia|].
  assert (exists txs, outbound_tx sc !! p = Some txs) as [txs Htxs].
  { destruct (Htx p 0) as (txs & ? & _); [by left| |by eexists]. unfold connection_ids. apply list_elem_of_fmap. exists 0%nat. split; [done|].
    apply elem_of_seq. lia. }
  rewrite Htxs. cbn [unwrap mbind result_bind]. rewrite (mapM_result_ok _ (OutChannel p)).
  2: { intros c Hc%connection_order_in; [|lia]. destruct (Htx p c) as (txs' & H1 & H2); [by left|done|].
       rewrite Htxs in H1. injection H1 as <-. by rewrite H2. }
  destruct (Hrx p) as (rxs & Hrxs & Hc); [by left|]. cbn [mbind result_bind]. rewrite Hrxs. cbn [unwrap mbind result_bind]. rewrite Hc.
  cbn [unwrap mbind result_bind].
  edestruct (IH (mkChannels (outbound_tx sc) (outbound_rx sc) (inbound_tx sc) (<[p := delete sid rxs]> (inbound_rx sc)))) as (rxs' & Hs & Hk);
    [done| | |rewrite Hs].
  - intros q c Hq Hin. cbn. apply Htx; [by right|done].
  - intros q Hq. destruct (Hrx q) as (m & Hm & Hmc); [by right|]. exists m. cbn. rewrite lookup_insert_ne by congruence. done.
  - exists rxs'. split; [done|]. intros q s c Hne (m & Hm & Hmc). apply Hk; [done|]. cbn. destruct (decide (p = q)) as [<-|Hpq].
    + exists (delete sid rxs). rewrite lookup_insert_eq, lookup_delete_ne by done. split; [done|]. congruence.
    + exists m. by rewrite lookup_insert_ne.
Qed.

Lemma create_sessions_spec ps idx ids sc :
  NoDup ps -> NoDup ids -> Z.of_nat (idx + length ids) <= 2 ^ 32 ->
  (forall p c, p ∈ ps -> c ∈ connection_ids config -> has (outbound_tx sc) p c (OutChannel p c)) ->
  (forall p s, p ∈ ps -> s ∈ ids -> has (inbound_rx sc) p s (InChannel p s)) ->
  create_sessions config ps idx ids sc = Ok (imap (fun j => wired_session config ps (idx + j)) ids).
Proof.
  intros Hps. revert idx sc. induction ids as [|sid ids IH]; intros idx sc Hnd Hlen Htx Hrx; [done|].
  apply NoDup_cons in Hnd as [Hsid Hnd]. cbn [length] in Hlen. cbn [create_sessions]. rewrite Z.mod_small by lia.
  destruct (session_peers_spec idx sid ps sc) as (rxs & Hs & Hk); [done|done|intros p Hp; apply Hrx; [done|by left]|].
  rewrite Hs. cbn [mbind result_bind]. rewrite IH; [|done|lia|done|].
  - cbn [mbind result_bind imap]. rewrite Nat.add_0_r. do 2 f_equal. apply imap_ext. intros j x _. unfold compose. f_equal. lia.
  - intros p s Hp Hin. apply Hk; [|apply Hrx; [done|by right]]. by intros ->.
Qed.
End Sessions.

(** One party: its forwarders and its sessions, for connections that are all
    there. *)
Lemma make_tcp_sessions_spec {T} config (pc : PeerConnections T) next :
  0 < num_connections config < 2 ^ 32 -> 0 <= num_sessions config < 2 ^ 32 ->
  peer_id (pc_peers pc).1 <> peer_id (pc_peers pc).2 ->
  length (c0 pc) = Z.to_nat (num_connections config) -> length (c1 pc) = Z.to_nat (num_connections config) ->
  make_tcp_sessions config pc next
  = Ok (wired_forwarders config (inbound_tx (make_channels (peer_ids pc) config next)) (peer_connections pc),
        imap (wired_session config (peer_ids pc)) (session_ids config next)).
Proof.
  intros Hc Hs Hne H0 H1. unfold make_tcp_sessions, make_sessions_inner.
  assert (NoDup (peer_ids pc)) as Hnd by (repeat constructor; set_solver).
  destruct (spawn_all_spec config (peer_connections pc) (make_channels (peer_ids pc) config next)) as (rxs & ->).
  - exact Hnd.
  - intros p conns Hin. assert (p ∈ peer_ids pc /\ length conns = Z.to_nat (num_connections config)) as [Hp Hl].
    { unfold peer_connections, peer_ids in *. set_solver. }
    split_and!; [|lia|].
    + cbn [make_channels inbound_tx]. eexists. by apply (tagged_lookup (fun p => list_to_map ((fun s => (s, InChannel p s)) <$> session_ids config next))).
    + intros j Hj. apply (tagged_has OutChannel); [done|]. unfold connection_ids. apply list_elem_of_fmap. exists j. split; [done|]. apply elem_of_seq. lia.
  - cbn [mbind result_bind]. rewrite create_sessions_spec; [done|lia|done|..].
    + unfold session_ids. apply NoDup_fmap_2; [|apply NoDup_seq]. intros a b. lia.
    + unfold session_ids. rewrite length_fmap, length_seq. lia.
    + intros p c Hp Hin. by apply (tagged_has OutChannel).
    + intros p s Hp Hin. by apply (tagged_has InChannel).
Qed.

(** ** Lemmas: three parties *)

(** The identities of the parties, and the two peers of each. *)
Definition local_ids : tri Identity := Tri "alice" "bob" "charlie".
Definition peers_of (i : PartyID) : PartyID * PartyID :=
  match i with ID0 => (ID1, ID2) | ID1 => (ID0, ID2) | ID2 => (ID0, ID1) end.

Lemma local_ids_distinct : distinct local_ids.
Proof. by intros [] []. Qed.

Lemma peers_of_elem i j : j <> i -> j = (peers_of i).1 \/ j = (peers_of i).2.
Proof. destruct i, j; cbn; intros; by auto. Qed.

(** A handle of party [i], with the next session id [next]. *)
Definition handle_of (i : PartyID) (config : MpcConfig) (next : Z) (h : MpcNetworkHandle) : Prop :=
  peer_id (peers h).1 = local_ids @ (peers_of i).1 /\ peer_id (peers h).2 = local_ids @ (peers_of i).2 /\
  my_id h = local_ids @ i /\ handle_config h = config /\ next_session_id h = next /\
  handle_party_index h = Z.to_nat (party_index i) /\ handle_roles h = local_roles.

Lemma build_inv pem parse_addr bind tls_ready args h :
  build_network_handle pem parse_addr bind tls_ready args = Ok h ->
  exists me config, index generate_local_identities (args_party_index args) = Ok me /\
    mpc_config_new (connection_parallelism args) ((request_parallelism args * sessions_per_request args) mod 2 ^ 64) = Ok config /\
    handle_new pem me (handle_peers (args_party_index args) (outbound_addresses args)) config (args_party_index args) local_roles (args_tls args) = Ok h.
Proof.
  unfold build_network_handle. intros H. destruct (index generate_local_identities _) as [me|] eqn:Eme; cbn [mbind result_bind] in H; [|done].
  destruct (index (addresses args) _) as [a|]; cbn [mbind result_bind] in H; [|done].
  destruct (ok_or _ _) as [a'|]; cbn [mbind result_bind] in H; [|done].
  destruct (mpc_config_new _ _) as [config|]; cbn [mbind result_bind] in H; [|done]. exists me, config. split; [done|]. split; [done|].
  by destruct (match args_tls args with Some _ => _ | None => _ end) as [[]|]; cbn [mbind result_bind] in H.
Qed.

Lemma built_handle pem parse_addr bind tls_ready args i h :
  build_network_handle pem parse_addr bind tls_ready args = Ok h -> args_party_index args = Z.to_nat (party_index i) ->
  exists config, mpc_config_new (connection_parallelism args) ((request_parallelism args * sessions_per_request args) mod 2 ^ 64) = Ok config /\
    handle_of i config 0 h.
Proof.
  intros (me & config & Eme & Hc & H)%build_inv Hi. rewrite Hi in *. exists config. split; [done|].
  unfold handle_new in H. destruct (build_runtime_tls_config _ _ _ _) as [tls|]; cbn [mbind result_bind] in H; [|done].
  unfold handle_peers, without_index in H. unfold handle_of.
  destruct i; destruct (outbound_addresses args) as [|u0 [|u1 [|u2 us]]]; cbn in H, Eme; try done; injection H as <-; injection Eme as <-; done.
Qed.

(** One end of a connection; a handshake leaves the two parties with the two
    ends of one stream and the same connection id (Connect.v). *)
Record stream_end := mkEnd { end_own : Identity; end_peer : Identity; end_connection : Z }.
#[export] Instance stream_end_eq_dec : EqDecision stream_end.
Proof. solve_decision. Defined.
Definition other_end (e : stream_end) : stream_end := mkEnd (end_peer e) (end_own e) (end_connection e).

(** Every connection opens. *)
Definition connect_ok (i : PartyID) (peer : Identity) (connection : Z) : result stream_end := Ok (mkEnd (local_ids @ i) peer connection).

Lemma make_connections_ok {T} (f : Identity -> Z -> T) h n :
  make_connections (fun p c => Ok (f p c)) h n
  = Ok ((fun c => f (peer_id (peers h).1) (Z.of_nat c)) <$> seq 0 (Z.to_nat n), (fun c => f (peer_id (peers h).2) (Z.of_nat c)) <$> seq 0 (Z.to_nat n)).
Proof.
  unfold make_connections. set (g := fun p => (fun c => f (peer_id p) (Z.of_nat c)) <$> seq 0 (Z.to_nat n)).
  replace (_ ++ _) with ((Ok (A:=T)) <$> (g (peers h).1 ++ g (peers h).2)) by (rewrite fmap_app; unfold g; by rewrite <- !list_fmap_compose).
  fold (g (peers h).1) (g (peers h).2). set (l0 := g (peers h).1). set (l1 := g (peers h).2).
  assert (forall l : list T, mapM_result id (Ok <$> l) = Ok l) as ->.
  { induction l as [|x l IH]; [done|]. rewrite fmap_cons. cbn. by rewrite IH. }
  cbn [mbind result_bind]. unfold split_connections. assert (length l0 = Z.to_nat n /\ length l1 = Z.to_nat n) as [H0 H1].
  { unfold l0, l1, g. by rewrite !length_fmap, length_seq. }
  rewrite length_app. replace ((length l0 + length l1) / 2)%nat with (length l0) by (rewrite H0, H1; replace (Z.to_nat n + Z.to_nat n)%nat with (Z.to_nat n * 2)%nat by lia; by rewrite Nat.div_mul).
  rewrite take_app_length, drop_app_length, bool_decide_eq_true_2 by congruence. done.
Qed.

Lemma find_unique {A} (f : A -> bool) l x :
  x ∈ l -> f x = true -> (forall y, y ∈ l -> f y = true -> y = x) -> List.find f l = Some x.
Proof.
  intros Hx Hf Hu. induction l as [|y l IH]; [by apply elem_of_nil in Hx|]. cbn. destruct (f y) eqn:E.
  - f_equal. apply Hu; [by left|done].
  - apply IH; [|intros; apply Hu; [by right|done]]. apply elem_of_cons in Hx as [->|]; [congruence|done].
Qed.

(** ** Routes *)

Definition peer_of (s : TcpSession) (p : Identity) : option (list channel * channel) :=
  snd <$> List.find (fun e => bool_decide (e.1 = p)) (ts_peers s).

(** Where a message arrives that a party sends in its session [k] to a peer on
    the [stripe]-th channel: the forwarder that owns the channel puts it on its
    stream, and the forwarder at the other end of the stream delivers it. *)
Definition route (here there : list (Forwarder stream_end) * list TcpSession) (k stripe : nat) (to : Identity) : option channel :=
  s ← here.2 !! k;
  '(txs, _) ← peer_of s to;
  ch ← txs !! stripe;
  fw ← List.find (fun fw => bool_decide (fw_outbound fw = ch)) here.1;
  fw' ← List.find (fun fw' => bool_decide (fw_stream fw' = other_end (fw_stream fw))) there.1;
  fw_inbound fw' !! ts_id s.

(** Where the [k]-th session of a party receives from a peer. *)
Definition receives_on (wires : list (Forwarder stream_end) * list TcpSession) (k : nat) (from : Identity) : option channel :=
  s ← wires.2 !! k; snd <$> peer_of s from.

(** What party [i] has wired when all its connections are open. *)
Definition party_wires (config : MpcConfig) (next : Z) (i : PartyID) : list (Forwarder stream_end) * list TcpSession :=
  let p0 := local_ids @ (peers_of i).1 in
  let p1 := local_ids @ (peers_of i).2 in
  let ends p := mkEnd (local_ids @ i) p <$> connection_ids config in
  (wired_forwarders config (inbound_tx (make_channels [p0; p1] config next)) [(p0, ends p0); (p1, ends p1)],
   imap (wired_session config [p0; p1]) (session_ids config next)).

Lemma handle_wires i config next h :
  0 < num_connections config < 2 ^ 32 -> 0 <= num_sessions config < 2 ^ 32 -> handle_of i config next h ->
  (connections ← make_peer_connections (connect_ok i) h (num_connections (handle_config h));
   make_tcp_sessions (handle_config h) connections (next_session_id h)) = Ok (party_wires config next i).
Proof.
  intros Hc Hs (H1 & H2 & _ & -> & -> & _). unfold make_peer_connections, connect_ok.
  rewrite (make_connections_ok (fun p c => mkEnd (local_ids @ i) p c)). cbn [mbind result_bind].
  rewrite make_tcp_sessions_spec; cbn [pc_peers c0 c1]; try done.
  - unfold party_wires, peer_connections, peer_ids, connection_ids. cbn [pc_peers c0 c1]. rewrite H1, H2, <- !list_fmap_compose. done.
  - rewrite H1, H2. by destruct i.
  - by rewrite length_fmap, length_seq.
  - by rewrite length_fmap, length_seq.
Qed.

Section Routes.
Context (config : MpcConfig) (next : Z) (Hconns : 0 < num_connections config).

Lemma session_peer i k sid j :
  j <> i ->
  peer_of (wired_session config [local_ids @ (peers_of i).1; local_ids @ (peers_of i).2] k sid) (local_ids @ j)
  = Some (OutChannel (local_ids @ j) <$> connection_order (num_connections config) (Z.of_nat k), InChannel (local_ids @ j) sid).
Proof. intros Hj. destruct i, j; done. Qed.

(** The forwarders of a party: one for each peer and connection. *)
Definition forwarder (i j : PartyID) (c : Z) : Forwarder stream_end :=
  mkForwarder (mkEnd (local_ids @ i) (local_ids @ j) c) (num_sessions config)
    (list_to_map ((fun s => (s, InChannel (local_ids @ j) s)) <$> session_ids config next)) (OutChannel (local_ids @ j) c).

Lemma party_forwarders i fw :
  fw ∈ (party_wires config next i).1 <-> exists j c, j <> i /\ c ∈ connection_ids config /\ fw = forwarder i j c.
Proof.
  assert (forall j, j <> i -> default ∅ (inbound_tx (make_channels [local_ids @ (peers_of i).1; local_ids @ (peers_of i).2] config next) !! (local_ids @ j))
    = list_to_map ((fun s => (s, InChannel (local_ids @ j) s)) <$> session_ids config next)) as Hin.
  { intros j Hj. cbn [make_channels inbound_tx]. rewrite (tagged_lookup (fun p => list_to_map ((fun s => (s, InChannel p s)) <$> session_ids config next))); [done|].
    destruct (peers_of_elem i j Hj) as [-> | ->]; set_solver. }
  assert (forall p (g : nat -> stream_end -> Forwarder stream_end), imap g (mkEnd (local_ids @ i) p <$> connection_ids config)
    = (fun j => g j (mkEnd (local_ids @ i) p (Z.of_nat j))) <$> seq 0 (Z.to_nat (num_connections config))) as Himap.
  { intros p g. unfold connection_ids. rewrite <- list_fmap_compose. rewrite imap_fmap. apply list_eq. intros k. rewrite list_lookup_imap, list_lookup_fmap.
    destruct (decide (k < Z.to_nat (num_connections config))%nat) as [Hk|Hk].
    - by rewrite lookup_seq_lt.
    - by rewrite lookup_seq_ge by lia. }
  unfold party_wires, wired_forwarders. cbn [fst mbind list_bind]. rewrite app_nil_r, elem_of_app, !Himap, !list_elem_of_fmap.
  assert ((peers_of i).1 <> i) as Hi1 by by destruct i. assert ((peers_of i).2 <> i) as Hi2 by by destruct i. rewrite !Hin by done. split.
  - intros [(k & -> & Hk)|(k & -> & Hk)]; eexists _, (Z.of_nat k); (split; [|split; [|done]]; [done|]);
      unfold connection_ids; apply list_elem_of_fmap; by exists k.
  - intros (j & c & Hj & Hc & ->). unfold connection_ids in Hc. apply list_elem_of_fmap in Hc as (k & -> & Hk).
    destruct (peers_of_elem i j Hj) as [-> | ->]; [left|right]; by exists k.
Qed.

Lemma find_by_channel i j c :
  j <> i -> c ∈ connection_ids config ->
  List.find (fun fw => bool_decide (fw_outbound fw = OutChannel (local_ids @ j) c)) (party_wires config next i).1 = Some (forwarder i j c).
Proof.
  intros Hj Hc. apply find_unique.
  - apply party_forwarders. by exists j, c.
  - by apply bool_decide_eq_true_2.
  - intros fw (j' & c' & Hj' & Hc' & ->)%party_forwarders H%bool_decide_eq_true. cbn in H. injection H as Hid ->.
    by apply local_ids_distinct in Hid as ->.
Qed.

Lemma find_by_stream i j c :
  j <> i -> c ∈ connection_ids config ->
  List.find (fun fw => bool_decide (fw_stream fw = mkEnd (local_ids @ i) (local_ids @ j) c)) (party_wires config next i).1 = Some (forwarder i j c).
Proof.
  intros Hj Hc. apply find_unique.
  - apply party_forwarders. by exists j, c.
  - by apply bool_decide_eq_true_2.
  - intros fw (j' & c' & Hj' & Hc' & ->)%party_forwarders H%bool_decide_eq_true. cbn in H. injection H as Hid ->.
    by apply local_ids_distinct in Hid as ->.
Qed.

Lemma lookup_wired i k : (k < Z.to_nat (num_sessions config))%nat ->
  (party_wires config next i).2 !! k = Some (wired_session config [local_ids @ (peers_of i).1; local_ids @ (peers_of i).2] k (next + Z.of_nat k)).
Proof.
  intros Hk. unfold party_wires. cbn [snd]. rewrite list_lookup_imap. unfold session_ids. by rewrite list_lookup_fmap, lookup_seq_lt.
Qed.

Lemma routes_meet i j k stripe :
  i <> j -> (k < Z.to_nat (num_sessions config))%nat -> (stripe < Z.to_nat (num_connections config))%nat ->
  route (party_wires config next i) (party_wires config next j) k stripe (local_ids @ j) = Some (InChannel (local_ids @ i) (next + Z.of_nat k)) /\
  receives_on (party_wires config next j) k (local_ids @ i) = Some (InChannel (local_ids @ i) (next + Z.of_nat k)).
Proof.
  intros Hij Hk Hs. unfold route, receives_on. rewrite !lookup_wired by done. cbn [mbind option_bind]. rewrite !session_peer by done. cbn [mbind option_bind].
  split; [|done]. set (ord := connection_order _ _). destruct (ord !! stripe) as [c|] eqn:Hc.
  2: { apply lookup_ge_None in Hc. unfold ord, connection_order in Hc. rewrite length_fmap, length_seq in Hc. lia. }
  rewrite list_lookup_fmap, Hc. cbn [fmap option_fmap option_map mbind option_bind].
  assert (c ∈ connection_ids config) as Hin by (apply (connection_order_in config Hconns (Z.of_nat k)); [lia|by eapply list_elem_of_lookup_2]).
  rewrite (find_by_channel i j c) by done. cbn [mbind option_bind forwarder fw_stream]. unfold other_end. cbn [end_own end_peer end_connection].
  rewrite (find_by_stream j i c) by done. cbn [mbind option_bind forwarder fw_inbound wired_session ts_id].
  apply (tagged_lookup (InChannel (local_ids @ i))). unfold session_ids. apply list_elem_of_fmap. exists k. split; [done|]. apply elem_of_seq. lia.
Qed.
End Routes.

(** ** Validation *)

Definition peer_names (i : PartyID) : list Identity := [local_ids @ (peers_of i).1; local_ids @ (peers_of i).2].

(** The parties exchange a key with both peers. *)
Lemma validate_round key (k : PartyID -> proc (result unit)) Q :
  wp local_ids no_messages (tof k) Q ->
  wp local_ids no_messages (tof (fun i => send_key key (peer_names i) (check_keys key (peer_names i) (k i)))) Q.
Proof.
  intros H.
  assert (forall (a b : proc (result unit)), (if bool_decide (key = key) then a else b) = a) as Hkey by (intros; by rewrite bool_decide_eq_true_2).
  eapply (wp_send _ _ _ ID0 ID1); [reflexivity|]. eapply (wp_send _ _ _ ID0 ID2); [reflexivity|].
  eapply (wp_send _ _ _ ID1 ID0); [reflexivity|]. eapply (wp_send _ _ _ ID1 ID2); [reflexivity|].
  eapply (wp_send _ _ _ ID2 ID0); [reflexivity|]. eapply (wp_send _ _ _ ID2 ID1); [reflexivity|].
  eapply (wp_recv _ _ _ ID0 ID1); [reflexivity|reflexivity|]. cbn -[wp check_keys]. rewrite Hkey.
  eapply (wp_recv _ _ _ ID0 ID2); [reflexivity|reflexivity|]. cbn -[wp check_keys]. rewrite Hkey.
  eapply (wp_recv _ _ _ ID1 ID0); [reflexivity|reflexivity|]. cbn -[wp check_keys]. rewrite Hkey.
  eapply (wp_recv _ _ _ ID1 ID2); [reflexivity|reflexivity|]. cbn -[wp check_keys]. rewrite Hkey.
  eapply (wp_recv _ _ _ ID2 ID0); [reflexivity|reflexivity|]. cbn -[wp check_keys]. rewrite Hkey.
  eapply (wp_recv _ _ _ ID2 ID1); [reflexivity|reflexivity|]. cbn -[wp check_keys]. rewrite Hkey.
  exact H.
Qed.

Lemma validate_all idx n Q :
  Q no_messages (tof (fun _ => Ok tt)) -> wp local_ids no_messages (tof (fun i => validate_sessions (peer_names i) idx n)) Q.
Proof.
  intros HQ. revert idx. induction n as [|n IH]; intros idx; [by apply (wp_ret _ _ (tof (fun _ => Ok tt)))|]. cbn [validate_sessions].
  apply validate_round, IH.
Qed.

(** What a party holds after [make_network_sessions]. *)
Definition established (config : MpcConfig) (next : Z) (i : PartyID) (h : MpcNetworkHandle)
    : MpcNetworkHandle * list (Forwarder stream_end) * list (TcpSession * NetworkSession) :=
  (with_next_session_id h (advance_session_id config next), (party_wires config next i).1,
   (fun s => (s, network_session_of h s)) <$> (party_wires config next i).2).

Lemma make_network_sessions_wp config next (h : tri MpcNetworkHandle) :
  0 < num_connections config < 2 ^ 32 -> 0 <= num_sessions config < 2 ^ 32 -> (forall i, handle_of i config next (h @ i)) ->
  wp local_ids no_messages (tof (fun i => make_network_sessions (connect_ok i) (h @ i)))
    (fun ch out => ch = no_messages /\ out = tof (fun i => Ok (established config next i (h @ i)))).
Proof.
  intros Hc Hs Hh.
  assert (forall i, length (party_wires config next i).2 = Z.to_nat (num_sessions config)) as Hlen.
  { intros i. unfold party_wires, session_ids. cbn [snd]. by rewrite length_imap, length_fmap, length_seq. }
  set (K := fun i (r : result unit) => Ret (_ ← r; Ok (established config next i (h @ i)))).
  assert (tof (fun i => make_network_sessions (connect_ok i) (h @ i))
    = tof (fun i => pbind ((tof (fun i => validate_sessions (peer_names i) 0 (Z.to_nat (num_sessions config)))) @ i) (K i))) as ->.
  { apply tri_ext. intros i. rewrite !tget_tof. unfold make_network_sessions. rewrite (handle_wires i config next) by (done || apply Hh).
    destruct (Hh i) as (H1 & H2 & _ & H3 & H4 & _). rewrite H1, H2, H3, H4. unfold K, established. rewrite <- (Hlen i).
    by destruct (party_wires config next i) as [fws ts]. }
  apply wp_bind. apply validate_all.
  match goal with |- wp _ _ ?q _ => replace q with (Ret <$> tof (fun i => Ok (established config next i (h @ i)))) by (by apply tri_ext; intros []) end.
  by apply wp_ret.
Qed.

(** A session of a handle has the roles of the ring. *)
Lemma network_session_ring i config next h s :
  handle_of i config next h -> ring_network local_ids (ts_id s) i (network_session_of h s).
Proof.
  intros (_ & _ & _ & _ & _ & Hi & Hr). unfold network_session_of, ring_network. rewrite Hi, Hr. cbn [own_role session_id role_assignments].
  split_and!; [by destruct i|done|done|]. by intros [].
Qed.

Lemma handle_advances i config next n h : handle_of i config next h -> handle_of i config n (with_next_session_id h n).
Proof. unfold handle_of. naive_solver. Qed.

Definition wires_of (out : list (Forwarder stream_end) * list (TcpSession * NetworkSession)) : list (Forwarder stream_end) * list TcpSession :=
  (out.1, out.2.*1).

(** C30: Three handles make sessions that work.  Let the parties build their
    handles with the same parallelism, and call [make_network_sessions] any
    number of times, each time with connections that open.  Then, whatever the
    schedule, all three calls return: the validation passes and leaves no
    message behind.  The [k]-th sessions of the parties have the same id, which
    does not overflow, and are the ring in which the protocols run.  And they
    are wired to each other: a message that party [i] sends in its session [k]
    to party [j] arrives, on whichever of the connections it travels, in the
    channel from which session [k] of [j] receives from [i]. *)
Theorem handles_establish_ring pem parse_addr bind tls_ready (args : tri NetworkHandleArgs) (h : tri MpcNetworkHandle) conns sess round :
  (forall i, build_network_handle pem parse_addr bind tls_ready (args @ i) = Ok (h @ i) /\
    args_party_index (args @ i) = Z.to_nat (party_index i) /\ connection_parallelism (args @ i) = conns /\
    request_parallelism (args @ i) * sessions_per_request (args @ i) = sess) ->
  0 < conns < 2 ^ 32 -> 0 < sess < 2 ^ 32 - 1 ->
  let config := mkMpcConfig sess conns in
  let before := tof (fun i => with_next_session_id (h @ i) (session_counter config round)) in
  let after := tof (fun i => with_next_session_id (h @ i) (session_counter config (S round))) in
  exists n (out : tri (list (Forwarder stream_end) * list (TcpSession * NetworkSession))),
    (forall k c, nsteps (step local_ids) k (init (tof (fun i => make_network_sessions (connect_ok i) (before @ i)))) c ->
      (k <= n)%nat /\ nsteps (step local_ids) (n - k) c (finished (tof (fun i => Ok (after @ i, (out @ i).1, (out @ i).2))))) /\
    forall k, (k < Z.to_nat sess)%nat -> exists sid, 0 <= sid < 2 ^ 32 /\ forall i,
      (exists ts ns, (out @ i).2 !! k = Some (ts, ns) /\ ts_id ts = sid /\ ring_network local_ids sid i ns) /\
      forall j stripe, i <> j -> (stripe < Z.to_nat conns)%nat -> exists ch,
        route (wires_of (out @ i)) (wires_of (out @ j)) k stripe (local_ids @ j) = Some ch /\
        receives_on (wires_of (out @ j)) k (local_ids @ i) = Some ch.
Proof.
  intros Hb Hc Hs config before after. set (next := session_counter config round).
  assert (forall i, handle_of i config next (before @ i)) as Hh.
  { intros i. destruct (Hb i) as (Hbuild & Hi & <- & <-). destruct (built_handle _ _ _ _ _ _ _ Hbuild Hi) as (config' & Hcfg & Hof).
    unfold mpc_config_new in Hcfg. rewrite (Z.mod_small (_ * _)) in Hcfg by lia. destruct (Z.leb_spec (connection_parallelism (args @ i)) 0); [lia|].
    destruct (Z.leb_spec (request_parallelism (args @ i) * sessions_per_request (args @ i)) 0); [lia|].
    rewrite !Z.mod_small in Hcfg by lia. injection Hcfg as <-. unfold before. rewrite tget_tof. by apply (handle_advances i _ 0). }
  destruct (wp_run local_ids (tof (fun i => make_network_sessions (connect_ok i) (before @ i))) (fun out => out = tof (fun i => Ok (established config next i (before @ i)))))
    as (n & out & Hn & ->); [apply make_network_sessions_wp; [done|cbn; lia|done]|].
  exists n, (tof (fun i => ((party_wires config next i).1, (fun s => (s, network_session_of (before @ i) s)) <$> (party_wires config next i).2))). split.
  - intros k c Hk. destruct (schedule_independence local_ids _ n k _ c local_ids_distinct Hn Hk) as [Hle Hrun]. split; [done|].
    match goal with |- nsteps _ _ _ ?f => replace f with (finished (tof (fun i => Ok (established config next i (before @ i))))) end; [done|].
    done.
  - intros k Hk. exists (next + Z.of_nat k). split.
    { pose proof (session_counter_range config round ltac:(cbn; lia)) as [H0 H1]. cbn in H1. fold next in H0, H1. lia. }
    assert (forall i, wires_of ((tof (fun i => ((party_wires config next i).1, (fun s => (s, network_session_of (before @ i) s)) <$> (party_wires config next i).2))) @ i)
      = party_wires config next i) as Hw.
    { intros i. rewrite tget_tof. unfold wires_of. cbn [fst snd]. rewrite <- list_fmap_compose. unfold compose. rewrite list_fmap_id. by destruct (party_wires config next i). }
    intros i. split.
    + rewrite tget_tof. cbn [snd]. rewrite list_lookup_fmap, lookup_wired by done. eexists _, _. split; [done|]. split; [done|].
      by apply (network_session_ring i config next).
    + intros j stripe Hij Hst. rewrite !Hw. destruct (routes_meet config next ltac:(cbn; lia) i j k stripe) as [H1 H2]; [done|done|done|]. eauto.
Qed.

(** The control channel: its two streams lead to the next and the previous
    party. *)
Lemma control_channel_neighbours i config next h :
  handle_of i config next h ->
  control_channel (connect_ok i) h = Ok (mkEnd (local_ids @ i) (local_ids @ (next_id i)) 0, mkEnd (local_ids @ i) (local_ids @ (prev_id i)) 0).
Proof.
  intros (H1 & H2 & _ & _ & _ & Hi & Hr). unfold control_channel, connect_ok. rewrite (make_connections_ok (fun p c => mkEnd (local_ids @ i) p c)).
  rewrite H1, H2, Hi, Hr. by destruct i.
Qed.

(** Key setup on the sessions of three handles gives sessions that meet the
    precondition of every protocol. *)
Lemma make_session_ring (R : Rng) sid (n : tri NetworkSession) (seeds : tri (list Z)) :
  ring_networks local_ids sid n ->
  exists m (s : tri (Session R)), ring_sessions local_ids sid s /\
    forall k c, nsteps (step local_ids) k (init (tof (fun i => make_session (seeds @ i) (n @ i)))) c ->
      (k <= m)%nat /\ nsteps (step local_ids) (m - k) c (finished (Ok <$> s)).
Proof.
  intros Hn. destruct (setup_replicated_prf_synced R local_ids sid n seeds local_ids_distinct Hn) as (m & prfs & _ & Hsync & Hrun).
  destruct (Hrun 0%nat _ (nsteps_O _ _)) as [_ H0]. rewrite Nat.sub_0_r in H0.
  set (s := tof (fun i => mkSession (n @ i) (prfs @ i))).
  destruct (wp_run local_ids (tof (fun i => make_session (seeds @ i) (n @ i))) (fun out => out = Ok <$> s)) as (m' & out & Hm & ->).
  { assert (tof (fun i => make_session (R := R) (seeds @ i) (n @ i))
      = tof (fun i => pbind ((tof (fun i => setup_replicated_prf (n @ i) (seeds @ i))) @ i) (fun r => Ret (p ← r; Ok (mkSession (n @ i) p))))) as ->.
    { apply tri_ext. intros i. by rewrite !tget_tof. }
    apply wp_bind. exists no_messages, (Ok <$> prfs). split; [by eapply rtc_nsteps_2|].
    match goal with |- wp _ _ ?q _ => replace q with (Ret <$> (Ok <$> s)) by (by apply tri_ext; intros []) end. by apply wp_ret. }
  exists m', s. split.
  - split; intros i; unfold s; rewrite !tget_tof; [apply Hn|apply Hsync].
  - intros k c Hk. by apply (schedule_independence local_ids _ m' k _ c local_ids_distinct Hm).
Qed.

(** ** TLS *)

Lemma load_two pem p0 p1 r0 r1 :
  size (load_peer_certs pem [(p0, r0); (p1, r1)]) = 2%nat ->
  p0 <> p1 /\ exists cert0 cert1, pem r0 = FirstCertificate cert0 /\ pem r1 = FirstCertificate cert1 /\
    load_peer_certs pem [(p0, r0); (p1, r1)] = <[p1 := cert1]> (<[p0 := cert0]> ∅).
Proof.
  unfold load_peer_certs. cbn [foldl]. destruct (decide (p0 = p1)) as [<-|Hne].
  - destruct (pem r0), (pem r1); rewrite ?insert_insert_eq, ?insert_empty, ?map_size_singleton, ?map_size_empty; intros; exfalso; lia.
  - intros H. split; [done|]. destruct (pem r0) eqn:E0, (pem r1) eqn:E1; rewrite ?insert_empty, ?map_size_singleton, ?map_size_empty in H; try lia; eauto.
Qed.

Lemma runtime_certs pem i me urls config tls h :
  handle_new pem me (handle_peers (Z.to_nat (party_index i)) urls) config (Z.to_nat (party_index i)) local_roles (Some tls) = Ok h ->
  exists m, runtime_tls h = Some (mkTls true m) /\
    forall peer root, m !! peer = Some root -> exists j path, j <> i /\ peer = local_ids @ j /\
      root_certs tls !! Z.to_nat (party_index j) = Some path /\ pem path = FirstCertificate root.
Proof.
  unfold handle_new, build_runtime_tls_config. intros H.
  destruct (_ <=? _)%nat eqn:E1; [done|]. destruct (negb _) eqn:E2 in H; [done|]. destruct (negb _) eqn:E3 in H; [done|]. cbn [mbind result_bind] in H.
  apply negb_false_iff, Nat.eqb_eq in E2, E3.
  exists (load_peer_certs pem (zip (peer_id <$> handle_peers (Z.to_nat (party_index i)) urls) (delete (Z.to_nat (party_index i)) (root_certs tls)))). split.
  { destruct (handle_peers _ _) as [|? [|]]; [done|done|]. injection H as <-. done. }
  unfold handle_peers, without_index in *.
  assert (forall a b ra rb pa pb ca cb, pem ra = FirstCertificate ca -> pem rb = FirstCertificate cb -> a <> i -> b <> i -> pa = local_ids @ a -> pb = local_ids @ b ->
    root_certs tls !! Z.to_nat (party_index a) = Some ra -> root_certs tls !! Z.to_nat (party_index b) = Some rb ->
    forall peer root, <[pb := cb]> (<[pa := ca]> (∅ : gmap Identity (list Z))) !! peer = Some root -> exists j path, j <> i /\ peer = local_ids @ j /\
      root_certs tls !! Z.to_nat (party_index j) = Some path /\ pem path = FirstCertificate root) as Hcase.
  { intros a b ra rb pa pb ca cb Ha Hb Hai Hbi -> -> Hra Hrb peer root [[<- <-]|[_ [[<- <-]|[_ Hx]]%lookup_insert_Some]]%lookup_insert_Some;
      [by exists b, rb|by exists a, ra|by rewrite lookup_empty in Hx]. }
  destruct i; destruct urls as [|u0 [|u1 [|u2 us]]]; cbn in H; try done; clear H;
    destruct (root_certs tls) as [|r0 [|r1 [|r2 [|]]]]; try done;
    apply load_two in E3 as (_ & ca & cb & Ha & Hb & Hm); intros peer root Hl;
    match type of Hm with ?x = _ => change (x !! peer = Some root) in Hl end; rewrite Hm in Hl; revert peer root Hl;
    (by eapply (Hcase ID1 ID2); eauto) || (by eapply (Hcase ID0 ID2); eauto) || (by eapply (Hcase ID0 ID1); eauto).
Qed.

(** C31: With TLS, a handle only takes connections from the parties it
    expects.  When party [i] has built its handle, and its accept loop delivers
    a connection on which the other end calls itself [peer], then [peer] is
    another party [j], and the certificates of the connection are anchored in
    the root certificate that the configuration gives for [j]: the first of them
    is verified, by means of the others, against a store of that root alone. *)
Theorem tls_binds_peers {W : WebPki} pem parse_addr bind tls_ready args h i tls reqs reqs' peer c chain now sent rsp :
  build_network_handle pem parse_addr bind tls_ready args = Ok h ->
  args_party_index args = Z.to_nat (party_index i) -> args_tls args = Some tls ->
  accept_step (runtime_tls h) reqs (Accepted (Some (peer, c)) chain now sent) = (reqs', Delivered rsp) ->
  exists j path root certs, j <> i /\ peer = local_ids @ j /\ root_certs tls !! Z.to_nat (party_index j) = Some path /\
    pem path = FirstCertificate root /\ chain = Some certs /\ is_chain_anchored_to_root certs root now = true /\
    exists store v end_entity intermediates, add_root root = Some store /\ build_verifier store = Some v /\
      certs = end_entity :: intermediates /\ verify_client_cert v end_entity intermediates now = true.
Proof.
  intros (me & config & _ & _ & H)%build_inv Hi Htls Hacc. rewrite Hi, Htls in H.
  destruct (runtime_certs pem i me (outbound_addresses args) config tls h H) as (m & Hrt & Hm). rewrite Hrt in Hacc. cbn [accept_step peer_valid validate_peer_ids peer_certs] in Hacc.
  destruct (m !! peer) as [root|] eqn:E; [|done]. destruct (Hm peer root E) as (j & path & Hj & -> & Hpath & Hroot).
  destruct chain as [certs|]; [|done]. destruct (is_chain_anchored_to_root certs root now) eqn:Ha; [|done].
  exists j, path, root, certs. split_and!; try done. by apply anchored_inv.
Qed.

(** ** Concrete handles *)

Definition demo_args (i : PartyID) (tls : option TlsConfig) : NetworkHandleArgs :=
  mkArgs (Z.to_nat (party_index i)) ["a0"; "a1"; "a2"] ["u0"; "u1"; "u2"] 2 2 3 tls.
Definition demo_build (args : NetworkHandleArgs) : result MpcNetworkHandle :=
  build_network_handle (fun path => if bool_decide (path = "r1") then FirstCertificate [1] else FirstCertificate [2])
    (fun _ => Some (mkSocketAddr (V4 1) 80)) (fun _ => Ok tt) (fun _ => Ok tt) args.
Definition demo_handle (i : PartyID) : MpcNetworkHandle :=
  mkHandle (mkPeer (local_ids @ (peers_of i).1) (["u0"; "u1"; "u2"] !!! Z.to_nat (party_index (peers_of i).1)),
            mkPeer (local_ids @ (peers_of i).2) (["u0"; "u1"; "u2"] !!! Z.to_nat (party_index (peers_of i).2)))
    (local_ids @ i) (mkMpcConfig 6 2) 0 (Z.to_nat (party_index i)) local_roles None.

(** Six sessions over two connections, for the second time: the first session
    gets the id 6, and what alice sends in it on the second connection reaches
    charlie. *)
Lemma handles_establish_ring_witness :
  exists n (out : tri (list (Forwarder stream_end) * list (TcpSession * NetworkSession))),
    (forall k c, nsteps (step local_ids) k (init (tof (fun i => make_network_sessions (connect_ok i) (with_next_session_id (demo_handle i) 6)))) c ->
      (k <= n)%nat /\ nsteps (step local_ids) (n - k) c (finished (tof (fun i => Ok (with_next_session_id (demo_handle i) 12, (out @ i).1, (out @ i).2))))) /\
    exists ch, route (wires_of (out @ ID0)) (wires_of (out @ ID2)) 0 1 "charlie" = Some ch /\ receives_on (wires_of (out @ ID2)) 0 "alice" = Some ch.
Proof.
  destruct (handles_establish_ring (fun path => if bool_decide (path = "r1") then FirstCertificate [1] else FirstCertificate [2])
    (fun _ => Some (mkSocketAddr (V4 1) 80)) (fun _ => Ok tt) (fun _ => Ok tt) (tof (fun i => demo_args i None)) (tof demo_handle) 2 6 1)
    as (n & out & Hrun & Hwired); [|lia|lia|].
  - intros i. rewrite !tget_tof. split; [by destruct i|done].
  - exists n, out. split; [exact Hrun|]. destruct (Hwired 0%nat ltac:(lia)) as (sid & _ & H). destruct (H ID0) as [_ Hr].
    apply (Hr ID2 1%nat); [done|lia].
Defined.

#[local] Existing Instance demo_webpki.

Lemma tls_binds_peers_witness :
  exists h, demo_build (demo_args ID0 (Some (mkTlsConfig (Some "k") (Some "c") ["r0"; "r1"; "r2"]))) = Ok h /\
    accept_step (runtime_tls h) {["bob" := {[0 := 5%nat]}]} (Accepted (Some ("bob", 0)) (Some [[7]; [1]]) 10 true)
    = ({["bob" := ∅]}, Delivered 5) /\
    exists j path root certs, j <> ID0 /\ "bob" = local_ids @ j /\ ["r0"; "r1"; "r2"] !! Z.to_nat (party_index j) = Some path /\
      (if bool_decide (path = "r1") then FirstCertificate [1] else FirstCertificate [2]) = FirstCertificate root /\
      Some [[7]; [1]] = Some certs /\ is_chain_anchored_to_root certs root 10 = true.
Proof.
  eexists. split; [reflexivity|].
  match goal with |- accept_step (runtime_tls ?h) _ _ = _ /\ _ =>
    pose proof (tls_binds_peers (fun path => if bool_decide (path = "r1") then FirstCertificate [1] else FirstCertificate [2])
      (fun _ => Some (mkSocketAddr (V4 1) 80)) (fun _ => Ok tt) (fun _ => Ok tt)
      (demo_args ID0 (Some (mkTlsConfig (Some "k") (Some "c") ["r0"; "r1"; "r2"]))) h ID0 (mkTlsConfig (Some "k") (Some "c") ["r0"; "r1"; "r2"])
      {["bob" := {[0 := 5%nat]}]} {["bob" := ∅]} "bob" 0 (Some [[7]; [1]]) 10 true 5 eq_refl eq_refl eq_refl eq_refl)
      as (j & path & root & certs & H1 & H2 & H3 & H4 & H5 & H6 & _)
  end.
  split; [reflexivity|]. exists j, path, root, certs. split_and!; assumption.
Defined.
