(* ===== verification/Local.v ===== *)
(** * Local networks and metrics: [mpc/local.rs], [execution/local.rs],
    [fast_metrics.rs] of [ampc-actor-utils/src]

    The local network connects three parties of one process by channels of
    bytes; the local runtime makes a session for each of them.  The theorems:
    the channels implement the queues of Net.v that the protocols run over, and
    the sessions are the ring.  The histogram keeps a count, a sum and the
    extrema of the values recorded since the last flush; the theorem compares
    it with the list of all values cut into pieces. *)

From S2P Require Import Prelude IntRing RingImpl Party Share VecShare Value Net Prf Proto Ops Connect Handle F64.
From stdpp Require Import base list numbers strings option gmap relations.
From Stdlib Require Import ZArith Lia.
From Stdlib Require Import SpecFloat.
Local Open Scope Z_scope.

(** ** The local network *)

(** The channel of each ordered pair of parties: the messages in it. *)
Abbreviation LocalNetworkingStore := (gmap (Identity * Identity) (list (list Z))).

(* mpc/local.rs:31-44 LocalNetworkingStore::from_host_ids *)
Definition from_host_ids (identities : list Identity) : LocalNetworkingStore :=
  foldl (fun p2p v1 => foldl (fun p2p v2 => if bool_decide (v1 = v2) then p2p else <[(v1, v2) := []]> p2p) p2p identities) ∅ identities.

(* mpc/local.rs:62-78 LocalNetworking::send *)
Definition local_send (store : LocalNetworkingStore) (owner : Identity) (val : NetworkValue) (receiver : Identity) : LocalNetworkingStore * result unit :=
  match to_network val with
  | Err e => (store, Err e)
  | Ok val =>
      match store !! (owner, receiver) with
      | Some q => (<[(owner, receiver) := q ++ [val]]> store, Ok tt)
      | None => (store, bail "p2p channel retrieve error when sending")
      end
  end.

(** [None]: the call waits. *)
(* mpc/local.rs:80-95 LocalNetworking::receive *)
Definition local_receive (store : LocalNetworkingStore) (owner sender : Identity) : option (LocalNetworkingStore * result NetworkValue) :=
  match store !! (sender, owner) with
  | None => Some (store, bail "p2p channel retrieve error when receiving")
  | Some [] => None
  | Some (value :: q) => Some (<[(sender, owner) := q]> store, deserialize value)
  end.

(** The store holds what is in flight, as bytes. *)
Definition store_holds (ids : tri Identity) (store : LocalNetworkingStore) (ch : channels) : Prop :=
  forall i j, i <> j -> exists q, store !! (ids @ i, ids @ j) = Some q /\ mapM_result to_network (chan ch i j) = Ok q.

Lemma mapM_result_app {A B} (f : A -> result B) l x y q :
  mapM_result f l = Ok q -> f x = Ok y -> mapM_result f (l ++ [x]) = Ok (q ++ [y]).
Proof.
  revert q. induction l as [|z l IH]; intros q; cbn; [intros [= <-] ->; done|].
  destruct (f z) as [z'|]; cbn; [|done]. destruct (mapM_result f l) as [q'|]; cbn; [|done]. intros [= <-] Hx. by rewrite (IH q').
Qed.

Lemma store_starts ids : distinct ids -> store_holds ids (from_host_ids [ids @ ID0; ids @ ID1; ids @ ID2]) no_messages.
Proof.
  intros Hd i j Hij. exists []. split; [|by destruct i, j].
  assert (ids @ ID0 <> ids @ ID1 /\ ids @ ID0 <> ids @ ID2 /\ ids @ ID1 <> ids @ ID2) as (H01 & H02 & H12).
  { split_and!; intros H%Hd; done. }
  unfold from_host_ids. cbn [foldl].
  repeat (first [rewrite bool_decide_eq_true_2 by done | rewrite bool_decide_eq_false_2 by congruence]).
  destruct i, j; try done; rewrite !lookup_insert; repeat case_decide; simplify_eq; done.
Qed.

(** The local network is the network the protocols are proved over.  Its
    store starts with what is in flight at the start, nothing; and when it holds
    the messages in flight, a send of a value that has a wire form does to it
    what a step of the network does, a receive waits exactly when the queue is
    empty, and it returns the oldest message, well-formed values unchanged. *)
Theorem local_network_implements_queues ids store ch i j :
  distinct ids -> i <> j -> store_holds ids store ch ->
  store_holds ids (from_host_ids [ids @ ID0; ids @ ID1; ids @ ID2]) no_messages /\
  (forall v bs, to_network v = Ok bs ->
     (local_send store (ids @ i) v (ids @ j)).2 = Ok tt /\
     store_holds ids (local_send store (ids @ i) v (ids @ j)).1 (set_chan ch i j (chan ch i j ++ [v]))) /\
  (local_receive store (ids @ i) (ids @ j) = None <-> chan ch j i = []) /\
  (forall v q, chan ch j i = v :: q -> wf v ->
     exists store', local_receive store (ids @ i) (ids @ j) = Some (store', Ok v) /\ store_holds ids store' (set_chan ch j i q)).
Proof.
  intros Hd Hij Hs.
  assert (forall a b q q', a <> b -> mapM_result to_network q = Ok q' ->
    store_holds ids (<[(ids @ a, ids @ b) := q']> store) (set_chan ch a b q)) as Hset.
  { intros a b q q' Hab Hq a' b' Hab'. destruct (decide ((a, b) = (a', b'))) as [[= <- <-]|Hne].
    - exists q'. by rewrite lookup_insert_eq, chan_set.
    - rewrite chan_set_ne by done. rewrite lookup_insert_ne; [by apply Hs|]. intros [= H1%Hd H2%Hd]. by subst. }
  split; [by apply store_starts|]. split; [|split].
  - intros v bs Hv. destruct (Hs i j Hij) as (q & Hq & Hm). unfold local_send. rewrite Hv, Hq. cbn. split; [done|]. apply Hset; [done|].
    by apply mapM_result_app.
  - destruct (Hs j i ltac:(done)) as (q & Hq & Hm). unfold local_receive. rewrite Hq. destruct (chan ch j i) as [|v l]; cbn in Hm.
    + by injection Hm as <-.
    + destruct (to_network v); cbn in Hm; [|done]. destruct (mapM_result _ l); cbn in Hm; [|done]. by injection Hm as <-.
  - intros v l Hl Hwf. destruct (Hs j i ltac:(done)) as (q & Hq & Hm). rewrite Hl in Hm. cbn in Hm.
    pose proof (deserialize_to_network v Hwf) as Hr. destruct (to_network v) as [bs|]; cbn in Hm, Hr; [|done].
    destruct (mapM_result to_network l) as [q'|] eqn:Eq; cbn in Hm; [|done]. injection Hm as <-.
    eexists. unfold local_receive. rewrite Hq, Hr. split; [done|]. by apply Hset.
Qed.

(** ** The local runtime *)

(* execution/local.rs:59-69 LocalRuntime::mock_setup (seeds) *)
Definition mock_seeds : list (list Z) := (fun i => Z.of_nat i :: replicate 15 0) <$> seq 0 3.

(* execution/local.rs:80-84 LocalRuntime::new_with_network_type (roles) *)
Definition runtime_roles (identities : list Identity) : gmap Z Identity :=
  list_to_map (imap (fun index id => (role_u8 (role_new (Z.of_nat index)), id)) identities).

(* execution/local.rs:86-101 LocalRuntime::new_with_network_type (local network) *)
Definition local_network_sessions (identities : list Identity) (num_seeds : nat) : result (list NetworkSession) :=
  mapM_result (fun i => _ ← index identities i; Ok (mkNetwork 0 (runtime_roles identities) (role_new (Z.of_nat i)))) (seq 0 num_seeds).

(** The task of one player. *)
(* execution/local.rs:126-133 LocalRuntime::new_with_network_type (task) *)
Definition player_task {R : Rng} (seeds : list (list Z)) (player_id : nat) (network_session : NetworkSession) : proc (result (Session R)) :=
  match index seeds (player_id mod length seeds) with
  | Ok player_seed => make_session player_seed network_session
  | Err e => Ret (Err e)
  end.

(** [vecs] are the iterators; a round takes an item from each that has one. *)
(* mpc/handle/mod.rs:285-301 interleave_vecs *)
Fixpoint interleave_vecs {A} (fuel : nat) (iters : list (list A)) : list A :=
  match fuel with
  | O => []
  | S fuel =>
      match omap head iters with
      | [] => []
      | pushed => pushed ++ interleave_vecs fuel (tail <$> iters)
      end
  end.

(** The sessions of the local network are a ring with three agreeing
    generators, under every schedule. *)
Theorem local_runtime_ring (R : Rng) :
  exists ns, local_network_sessions generate_local_identities (length mock_seeds) = Ok ns /\
  exists m (s : tri (Session R)), ring_sessions local_ids 0 s /\
    forall k c, nsteps (step local_ids) k
        (init (tof (fun i => player_task mock_seeds (Z.to_nat (party_index i)) (nth (Z.to_nat (party_index i)) ns (mkNetwork 0 ∅ (role_new 0)))))) c ->
      (k <= m)%nat /\ nsteps (step local_ids) (m - k) c (finished (Ok <$> s)).
Proof.
  eexists. split; [reflexivity|].
  match goal with |- context [nth _ ?l _] => set (ns := l) end.
  set (n := tof (fun i => nth (Z.to_nat (party_index i)) ns (mkNetwork 0 ∅ (role_new 0)))).
  destruct (make_session_ring R 0 n (tof (fun i => Z.of_nat (Z.to_nat (party_index i)) :: replicate 15 0))) as (m & s & Hs & Hrun).
  - intros i. unfold n. rewrite tget_tof. unfold ring_network. destruct i; (split_and!; [done..|by intros []]).
  - exists m, s. split; [done|]. intros k c Hk. apply Hrun.
    match goal with |- nsteps _ _ (init ?p) _ => match type of Hk with nsteps _ _ (init ?q) _ => replace p with q end end; [done|].
    apply tri_ext. intros i. rewrite !tget_tof. unfold n. rewrite !tget_tof. by destruct i.
Qed.

(** Sessions of three parties, interleaved: the players of each session follow
    each other in the order of their roles. *)
Lemma interleave_three {A} (a b c : list A) fuel :
  length b = length a -> length c = length a -> (length a < fuel)%nat ->
  interleave_vecs fuel [a; b; c] = concat (zip_with (fun '(x, y) z => [x; y; z]) (zip a b) c).
Proof.
  revert b c fuel. induction a as [|x a IH]; intros [|y b] [|z c] fuel Hb Hc Hf; try done; destruct fuel as [|fuel]; try (cbn in Hf; lia); [done|].
  cbn [interleave_vecs omap list_omap head fmap list_fmap tail]. cbn. do 3 f_equal. apply IH; cbn in *; lia.
Qed.

(** ** Histograms *)

(* fast_metrics.rs:3-3 FLUSH_AFTER_COUNT *)
Definition FLUSH_AFTER_COUNT : nat := 1000.

Definition f64_lt (x y : f64) : bool := SFltb x y.
Definition f64_infinity : f64 := S754_infinity false.
Definition f64_neg_infinity : f64 := S754_infinity true.

(* fast_metrics.rs:5-22 FastHistogram *)
Record FastHistogram := mkHistogram { count : nat; sum : f64; min : f64; max : f64 }.

(** What a flush reports, without the rates, which divide by the time since
    the last one. *)
Record report := mkReport { r_count : nat; r_sum : f64; r_min : f64; r_max : f64; r_avg : f64 }.

(* fast_metrics.rs:25-45 FastHistogram::new *)
Definition histogram_new : FastHistogram := mkHistogram 0 (S754_zero false) f64_infinity f64_neg_infinity.

(* fast_metrics.rs:62-83 FastHistogram::flush *)
Definition flush (self : FastHistogram) : FastHistogram * list report :=
  if (count self =? 0)%nat then (self, [])
  else (histogram_new, [mkReport (count self) (sum self) (min self) (max self) (f64_div (sum self) (f64_of_int (Z.of_nat (count self))))]).

(* fast_metrics.rs:47-60 FastHistogram::record *)
Definition record (self : FastHistogram) (value : f64) : FastHistogram * list report :=
  let self := mkHistogram (S (count self)) (f64_add (sum self) value) (if f64_lt value (min self) then value else min self)
    (if f64_lt (max self) value then value else max self) in
  if (FLUSH_AFTER_COUNT <=? count self)%nat then flush self else (self, []).

(* fast_metrics.rs:94-96 FastHistogram::drop *)
Definition histogram_drop (self : FastHistogram) : list report := (flush self).2.

(** A histogram's whole life: its reports. *)
Fixpoint record_all (self : FastHistogram) (values : list f64) : FastHistogram * list report :=
  match values with
  | [] => (self, [])
  | v :: values => let '(self, r) := record self v in let '(self, rs) := record_all self values in (self, r ++ rs)
  end.
Definition life (values : list f64) : list report := let '(self, rs) := record_all histogram_new values in rs ++ histogram_drop self.

(** The report of one batch of values. *)
Definition batch_state (values : list f64) : FastHistogram :=
  mkHistogram (length values) (foldl f64_add (S754_zero false) values) (foldl (fun m v => if f64_lt v m then v else m) f64_infinity values)
    (foldl (fun m v => if f64_lt m v then v else m) f64_neg_infinity values).
Definition batch_report (values : list f64) : report :=
  let s := batch_state values in mkReport (count s) (sum s) (min s) (max s) (f64_div (sum s) (f64_of_int (Z.of_nat (count s)))).

Lemma batch_record pre v :
  mkHistogram (S (count (batch_state pre))) (f64_add (sum (batch_state pre)) v) (if f64_lt v (min (batch_state pre)) then v else min (batch_state pre))
    (if f64_lt (max (batch_state pre)) v then v else max (batch_state pre)) = batch_state (pre ++ [v]).
Proof. unfold batch_state. cbn. rewrite length_app, !foldl_app, Nat.add_1_r. done. Qed.

Lemma batch_flush pre : pre <> [] -> flush (batch_state pre) = (histogram_new, [batch_report pre]).
Proof. intros H. unfold flush. destruct pre; done. Qed.

Lemma life_from pre values :
  (length pre < FLUSH_AFTER_COUNT)%nat ->
  (let '(self, rs) := record_all (batch_state pre) values in rs ++ histogram_drop self) = batch_report <$> chunks FLUSH_AFTER_COUNT (pre ++ values).
Proof.
  revert pre. induction values as [|v values IH]; intros pre Hpre; cbn [record_all].
  - rewrite app_nil_r. unfold histogram_drop. destruct pre as [|x pre]; [done|]. rewrite batch_flush by done.
    rewrite chunks_cons, take_ge, drop_ge by (done || lia). done.
  - unfold record. rewrite batch_record. change (count (batch_state (pre ++ [v]))) with (length (pre ++ [v])). rewrite length_app. cbn [length].
    replace (pre ++ v :: values) with ((pre ++ [v]) ++ values) by by rewrite <- app_assoc.
    destruct (Nat.leb_spec FLUSH_AFTER_COUNT (length pre + 1)) as [Hle|Hlt].
    + rewrite batch_flush by (by destruct pre). specialize (IH [] ltac:(apply Nat.lt_0_succ)). change (batch_state []) with histogram_new in IH.
      destruct (record_all histogram_new values) as [self rs]. rewrite <- app_assoc, IH.
      rewrite (chunks_app _ (pre ++ [v])); [by rewrite fmap_cons|apply Nat.lt_0_succ|]. rewrite length_app. change (length [v]) with 1%nat. lia.
    + specialize (IH (pre ++ [v]) ltac:(rewrite length_app; cbn; lia)). by destruct (record_all (batch_state (pre ++ [v])) values) as [self rs].
Qed.

(** The reports of a histogram, up to and with its drop, are those of the
    recorded values in batches of [FLUSH_AFTER_COUNT]: every value is in exactly
    one report. *)
Theorem histogram_reports values : life values = batch_report <$> chunks FLUSH_AFTER_COUNT values.
Proof. apply (life_from []). apply Nat.lt_0_succ. Qed.

(** ** Concrete networks *)

Lemma local_network_implements_queues_witness :
  exists store', local_receive (local_send (from_host_ids ["alice"; "bob"; "charlie"]) "alice" (RingElement16 7) "bob").1 "bob" "alice"
    = Some (store', Ok (RingElement16 7)).
Proof.
  assert (distinct local_ids) as Hd by exact local_ids_distinct.
  assert (store_holds local_ids (from_host_ids ["alice"; "bob"; "charlie"]) no_messages) as H0 by exact (store_starts local_ids Hd).
  destruct (local_network_implements_queues local_ids _ no_messages ID0 ID1 Hd ltac:(done) H0) as (_ & Hsend & _).
  destruct (Hsend (RingElement16 7) (match to_network (RingElement16 7) with Ok bs => bs | _ => [] end)) as [_ H1]; [vm_compute; done|].
  destruct (local_network_implements_queues local_ids _ _ ID1 ID0 Hd ltac:(done) H1) as (_ & _ & _ & Hrecv).
  destruct (Hrecv (RingElement16 7) []) as (store' & Hr & _); [reflexivity|vm_compute; done|]. by exists store'.
Defined.
