(* ===== verification/Keys.v ===== *)
(** * Encryption keys: [key-manager/src/bin/key_manager.rs] and
    [ampc-server-utils/src/decryption.rs]

    Clients seal the share of each party with the public key the party has
    published in a bucket; a tool rotates the keys, and a server opens shares
    with the private key in the secret store or with the one before it.  The
    sealed boxes, base64, JSON and the two cloud services are parameters, with
    their documented behaviour as classes.  The theorem composes the tool, the
    services and the server: a share sealed with a published key can be read
    until the second rotation after it. *)

From S2P Require Import Prelude IntRing RingImpl Party Share VecShare Value Net Connect F64 Buckets AnonStore Modifications ModStore.
From stdpp Require Import base list numbers strings option gmap.
From Stdlib Require Import ZArith Lia.
Local Open Scope Z_scope.

(** ** Services and libraries *)

(** Sealed boxes, [alkali::asymmetric::seal], taken as ideal: a box opens with
    its own key and with no other.  The third argument of
    [seal_encrypt] is the randomness it draws. *)
Inductive seal_result := Opened (plaintext : list Z) | DecryptionFailed | SealFailure.
Class Seal := {
  PRIVATE_KEY_LENGTH : nat;
  PUBLIC_KEY_LENGTH : nat;
  OVERHEAD_LENGTH : nat;
  public_key_of : list Z -> option (list Z);
  seal_encrypt : list Z -> list Z -> list Z -> list Z;
  seal_decrypt : list Z -> list Z -> seal_result;
}.
Class SealOk `{!Seal} : Prop := {
  private_key_nonempty : PRIVATE_KEY_LENGTH <> 0%nat;
  public_key_length sk pk : public_key_of sk = Some pk -> length pk = PUBLIC_KEY_LENGTH;
  public_key_bytes sk pk : Forall byte_ok sk -> public_key_of sk = Some pk -> Forall byte_ok pk;
  seal_bytes m pk rnd : Forall byte_ok m -> Forall byte_ok pk -> Forall byte_ok rnd -> Forall byte_ok (seal_encrypt m pk rnd);
  seal_length m pk rnd : length (seal_encrypt m pk rnd) = (length m + OVERHEAD_LENGTH)%nat;
  seal_opens m sk pk rnd : public_key_of sk = Some pk -> seal_decrypt (seal_encrypt m pk rnd) sk = Opened m;
  seal_rejects m sk pk pk' rnd :
    public_key_of sk = Some pk' -> length pk = PUBLIC_KEY_LENGTH -> pk' <> pk -> seal_decrypt (seal_encrypt m pk rnd) sk = DecryptionFailed;
}.

(** The text that remains after leading white space, as bytes of UTF-8. *)
Fixpoint trim_start (l : list Z) : list Z :=
  match l with
  | 0xC2 :: ((0x85 | 0xA0) :: rest) => trim_start rest
  | 0xE1 :: (0x9A :: (0x80 :: rest)) => trim_start rest
  | 0xE2 :: (0x80 :: (c :: rest)) =>
      if ((0x80 <=? c) && (c <=? 0x8A)) || (c =? 0xA8) || (c =? 0xA9) || (c =? 0xAF) then trim_start rest else l
  | 0xE2 :: (0x81 :: (0x9F :: rest)) => trim_start rest
  | 0xE3 :: (0x80 :: (0x80 :: rest)) => trim_start rest
  | b :: rest => if ((9 <=? b) && (b <=? 13)) || (b =? 32) then trim_start rest else l
  | [] => []
  end.

(** [s.trim().starts_with('{')]. *)
Definition starts_with_brace (s : string) : bool :=
  match trim_start (string_bytes s) with b :: _ => b =? 123 | [] => false end.

(** Base64, [engine::general_purpose::STANDARD]. *)
Class Base64 := { b64_encode : list Z -> string; b64_decode : string -> option (list Z) }.
Class Base64Ok `{!Base64} : Prop := {
  b64_roundtrip l : Forall byte_ok l -> b64_decode (b64_encode l) = Some l;
  b64_alphabet l : starts_with_brace (b64_encode l) = false;
  b64_empty : b64_decode "" = Some [];
}.

(** The secret store and the bucket.  [get_secret] is [None] when the request
    fails, and the secret may have no string; a put returns the state after it
    and whether it succeeded. *)
Class Cloud := {
  cloud : Type;
  get_secret : cloud -> string -> string -> option (option string);
  put_secret : cloud -> string -> string -> cloud * bool;
  get_object : cloud -> string -> string -> option string;
  put_object : cloud -> string -> string -> string -> cloud * bool;
}.

Definition CURRENT_SECRET_LABEL : string := "AWSCURRENT".
Definition PREVIOUS_SECRET_LABEL : string := "AWSPREVIOUS".

(** A new version of a secret becomes the current one, and the current one the
    previous one; the services do not touch each other. *)
Class CloudOk `{!Cloud} : Prop := {
  put_secret_current c id s c' : put_secret c id s = (c', true) -> get_secret c' id CURRENT_SECRET_LABEL = Some (Some s);
  put_secret_previous c id s c' :
    put_secret c id s = (c', true) -> get_secret c' id PREVIOUS_SECRET_LABEL = get_secret c id CURRENT_SECRET_LABEL;
  put_secret_objects c id s b k : get_object (put_secret c id s).1 b k = get_object c b k;
  put_object_found c b k s c' : put_object c b k s = (c', true) -> get_object c' b k = Some s;
  put_object_secrets c b k s id stage : get_secret (put_object c b k s).1 id stage = get_secret c id stage;
}.

(** ** Servers: reading shares *)

(* decryption.rs:21-44 SharesDecodingError *)
Inductive SharesDecodingError :=
| SecretsManagerError | SecretStringNotFound | DecodingError | DecodedShareParsingToUTF8Error | ParsingKeyError | SealedBoxOpenError
| CryptoError | PreviousKeyNotFound | Base64DecodeError | SerdeError | ShareParsingError.

Definition decoding (A : Type) : Type := A + SharesDecodingError.
Definition dbind {A B} (m : decoding A) (k : A -> decoding B) : decoding B := match m with inl x => k x | inr e => inr e end.
Notation "'let!' x := m 'in' k" := (dbind m (fun x => k)) (at level 10, x pattern, m at level 100, k at level 200).
Definition or_error {A} (o : option A) (e : SharesDecodingError) : decoding A := match o with Some x => inl x | None => inr e end.

Section Decryption.
Context `{!Seal, !Base64, !Cloud}.
Context (from_str : string -> option json).

(** A key pair is its private key; the public key follows from it. *)
(* decryption.rs:130-132 SharesEncryptionKeyPair *)
Record SharesEncryptionKeyPair := mkKeyPair { private_key : list Z; public_key : list Z }.

(* decryption.rs:46-49 SharesEncryptionKeyPairs *)
Record SharesEncryptionKeyPairs := mkKeyPairs {
  current_key_pair : SharesEncryptionKeyPair;
  previous_key_pair : option SharesEncryptionKeyPair;
}.

(** [zeroize], which [drop] runs. *)
(* decryption.rs:134-145 SharesEncryptionKeyPair::zeroize *)
Definition zeroize_key_pair (self : SharesEncryptionKeyPair) : SharesEncryptionKeyPair :=
  mkKeyPair (replicate (length (private_key self)) 0) (replicate (length (public_key self)) 0).

(* decryption.rs:51-64 SharesEncryptionKeyPairs::zeroize *)
Definition zeroize_key_pairs (self : SharesEncryptionKeyPairs) : SharesEncryptionKeyPairs :=
  mkKeyPairs (zeroize_key_pair (current_key_pair self)) (zeroize_key_pair <$> previous_key_pair self).

(* decryption.rs:151-160 SharesEncryptionKeyPair::from_b64_private_key_string (JSON form) *)
Definition secret_text (sk : string) : decoding string :=
  if starts_with_brace sk then
    match from_str sk with
    | Some (JObject fields) =>
        match List.find (fun f => bool_decide (f.1 = "private-key")) fields with
        | Some (_, JString s) => inl s
        | _ => inr ParsingKeyError
        end
    | _ => inr ParsingKeyError
    end
  else inl sk.

(* decryption.rs:149-170 SharesEncryptionKeyPair::from_b64_private_key_string *)
Definition from_b64_private_key_string (sk : string) : decoding SharesEncryptionKeyPair :=
  let! sk_b64 := secret_text sk in
  let! sk_bytes := or_error (b64_decode sk_b64) DecodingError in
  if negb (length sk_bytes =? PRIVATE_KEY_LENGTH)%nat then inr ParsingKeyError else
  let! pk := or_error (public_key_of sk_bytes) CryptoError in
  inl (mkKeyPair sk_bytes pk).

(* decryption.rs:107-127 SharesEncryptionKeyPairs::from_b64_private_key_strings *)
Definition from_b64_private_key_strings (current_sk_b64_string previous_sk_b64_string : string) : decoding SharesEncryptionKeyPairs :=
  let! current_key_pair := from_b64_private_key_string current_sk_b64_string in
  if bool_decide (previous_sk_b64_string = "") then inl (mkKeyPairs current_key_pair None) else
  let! previous_key_pair := from_b64_private_key_string previous_sk_b64_string in
  inl (mkKeyPairs current_key_pair (Some previous_key_pair)).

Definition private_key_secret_id (env service_name node_id : string) : string :=
  env +:+ "/" +:+ service_name +:+ "/ecdh-private-key-" +:+ node_id.

(* decryption.rs:191-219 download_private_key_from_asm *)
Definition download_private_key_from_asm (client : cloud) (env service_name node_id version_stage : string) : decoding string :=
  match get_secret client (private_key_secret_id env service_name node_id) version_stage with
  | Some (Some data) => inl data
  | Some None => inr SecretStringNotFound
  | None => inr SecretsManagerError
  end.

(* decryption.rs:74-104 SharesEncryptionKeyPairs::from_storage *)
Definition from_storage (client : cloud) (environment service_name party_id : string) : decoding SharesEncryptionKeyPairs :=
  let! current := download_private_key_from_asm client environment service_name party_id CURRENT_SECRET_LABEL in
  let previous :=
    match download_private_key_from_asm client environment service_name party_id PREVIOUS_SECRET_LABEL with
    | inl sk => sk
    | inr _ => ""
    end in
  from_b64_private_key_strings current previous.

(* decryption.rs:173-187 SharesEncryptionKeyPair::open_sealed_box *)
Definition open_sealed_box (self : SharesEncryptionKeyPair) (code : list Z) : decoding (list Z) :=
  if (length code <? OVERHEAD_LENGTH)%nat then inr SealedBoxOpenError else
  match seal_decrypt code (private_key self) with
  | Opened m => inl m
  | DecryptionFailed => inr SealedBoxOpenError
  | SealFailure => inr CryptoError
  end.

(* decryption.rs:265-284 decrypt_binary_share *)
Definition decrypt_binary_share (share_bytes : list Z) (key_pairs : SharesEncryptionKeyPairs) : decoding (list Z) :=
  match open_sealed_box (current_key_pair key_pairs) share_bytes with
  | inl decrypted_bytes => inl decrypted_bytes
  | inr _ =>
      let! previous := or_error (previous_key_pair key_pairs) PreviousKeyNotFound in
      match open_sealed_box previous share_bytes with inl b => inl b | inr _ => inr SealedBoxOpenError end
  end.

(** [parse] is [serde_json::from_str] at the type of the share. *)
(* decryption.rs:233-254 decrypt_share *)
Definition decrypt_share {T} (parse : string -> option T) (encrypted_share_b64 : string) (key_pairs : SharesEncryptionKeyPairs) : decoding T :=
  let! share_bytes := or_error (b64_decode encrypted_share_b64) Base64DecodeError in
  let! decrypted_bytes := decrypt_binary_share share_bytes key_pairs in
  let! json_string := (if utf8_valid decrypted_bytes then inl (bytes_string decrypted_bytes) else inr DecodedShareParsingToUTF8Error) in
  or_error (parse json_string) ShareParsingError.
End Decryption.

(** ** The key manager *)

Section Manager.
Context `{!Seal, !Base64, !Cloud}.

(** [generated]: what [Keypair::generate] returns, a private and a public key.
    The outputs of the services that are printed are present. *)
(* key_manager.rs:169-250 rotate_keys *)
Definition rotate_keys (client : cloud) (generated : option (list Z * list Z)) (object_name private_key_secret_id : string)
    (dry_run : option bool) (bucket_name : string) : cloud * result unit :=
  match generated with
  | None => (client, bail "key generation failed")
  | Some (sk, pk) =>
      let pub_key_str := b64_encode pk in
      let priv_key_str := b64_encode sk in
      if default false dry_run then
        (client,
         if bool_decide (b64_decode pub_key_str = Some pk) && (length pk =? PUBLIC_KEY_LENGTH)%nat
            && bool_decide (b64_decode priv_key_str = Some sk) && (length sk =? PRIVATE_KEY_LENGTH)%nat
         then Ok tt else panic "assertion failed")
      else
        match put_secret client private_key_secret_id priv_key_str with
        | (client, false) => (client, bail "Error uploading private key to Secrets Manager")
        | (client, true) =>
            match put_object client bucket_name object_name pub_key_str with
            | (client, false) => (client, bail "Error uploading public key to S3")
            | (client, true) => (client, Ok tt)
            end
        end
  end.

(* key_manager.rs:127-166 validate_keys *)
Definition validate_keys (client : cloud) (secret_id version_stage : string) (b64_pub_key : option string)
    (object_name bucket_name : string) : result unit :=
  pub_text ← match b64_pub_key with
    | Some s => Ok s
    | None => ok_or (get_object client bucket_name object_name) "download failed"
    end;
  match b64_decode pub_text with
  | None => panic "called `Result::unwrap()` on an `Err` value"
  | Some pub_key =>
      if negb (length pub_key =? PUBLIC_KEY_LENGTH)%nat then panic "Invalid public key" else
      match get_secret client secret_id version_stage with
      | None => bail "secrets manager error"
      | Some None => panic "called `Option::unwrap()` on a `None` value"
      | Some (Some data) =>
          match b64_decode data with
          | None => panic "called `Result::unwrap()` on an `Err` value"
          | Some sk =>
              if negb (length sk =? PRIVATE_KEY_LENGTH)%nat then panic "called `Result::unwrap()` on an `Err` value" else
              match public_key_of sk with
              | None => bail "crypto error"
              | Some pk => if bool_decide (pk = pub_key) then Ok tt else panic "assertion `left == right` failed"
              end
          end
      end
  end.

(* key_manager.rs:55-75 Commands *)
Inductive Commands := Rotate (dry_run : option bool) | Validate (version_stage : string) (b64_pub_key : option string).

(** The names the tool derives from its arguments. *)
(* key_manager.rs:78-124 main *)
Definition key_manager_main (client : cloud) (generated : option (list Z * list Z)) (command : Commands)
    (node_id env app_name public_key_bucket_name public_key_object_name_prefix : string) : cloud * result unit :=
  let object_name := public_key_object_name_prefix +:+ "-" +:+ node_id in
  let secret_id := env +:+ "/" +:+ app_name +:+ "/ecdh-private-key-" +:+ node_id in
  match command with
  | Rotate dry_run => rotate_keys client generated object_name secret_id dry_run public_key_bucket_name
  | Validate version_stage b64_pub_key =>
      (client, validate_keys client secret_id version_stage b64_pub_key object_name public_key_bucket_name)
  end.
End Manager.

(** ** Lemmas *)

Section Rotation.
Context `{!Seal, !SealOk, !Base64, !Base64Ok, !Cloud, !CloudOk}.
Context (from_str : string -> option json).
Context (node_id env app_name bucket prefix : string).

(** A generated pair. *)
Definition valid_pair (kp : list Z * list Z) : Prop := Forall byte_ok kp.1 /\ length kp.1 = PRIVATE_KEY_LENGTH /\ public_key_of kp.1 = Some kp.2.

Definition published (c : cloud) : option string := get_object c bucket (prefix +:+ "-" +:+ node_id).
Definition secret (c : cloud) (stage : string) : option (option string) := get_secret c (private_key_secret_id env app_name node_id) stage.

(** The key pair [kp] is in use, and [prev] was before. *)
Definition in_use (c : cloud) (kp : list Z * list Z) (prev : option (list Z * list Z)) : Prop :=
  published c = Some (b64_encode kp.2) /\ secret c CURRENT_SECRET_LABEL = Some (Some (b64_encode kp.1)) /\
  match prev with Some p => secret c PREVIOUS_SECRET_LABEL = Some (Some (b64_encode p.1)) | None => secret c PREVIOUS_SECRET_LABEL = None end.

(** A server can read its current key, and has the previous one or none. *)
Lemma load_key kp : valid_pair kp -> from_b64_private_key_string from_str (b64_encode kp.1) = inl (mkKeyPair kp.1 kp.2).
Proof.
  intros (Hb & Hl & Hp). unfold from_b64_private_key_string, secret_text. rewrite b64_alphabet. cbn. rewrite b64_roundtrip by done. cbn.
  rewrite Hl, Nat.eqb_refl. cbn. by rewrite Hp.
Qed.

Lemma open_own kp m rnd : valid_pair kp -> open_sealed_box (mkKeyPair kp.1 kp.2) (seal_encrypt m kp.2 rnd) = inl m.
Proof.
  intros (_ & _ & Hp). unfold open_sealed_box. rewrite seal_length. destruct (Nat.ltb_spec (length m + OVERHEAD_LENGTH) OVERHEAD_LENGTH); [lia|].
  cbn. by rewrite (seal_opens m kp.1 kp.2).
Qed.

Lemma open_other kp pk m rnd :
  valid_pair kp -> length pk = PUBLIC_KEY_LENGTH -> kp.2 <> pk -> open_sealed_box (mkKeyPair kp.1 kp.2) (seal_encrypt m pk rnd) = inr SealedBoxOpenError.
Proof.
  intros (_ & _ & Hp) Hl Hne. unfold open_sealed_box. rewrite seal_length. destruct (Nat.ltb_spec (length m + OVERHEAD_LENGTH) OVERHEAD_LENGTH); [lia|].
  cbn. by rewrite (seal_rejects m kp.1 pk kp.2).
Qed.

Lemma key_text_nonempty kp : valid_pair kp -> b64_encode kp.1 <> "".
Proof.
  intros (Hb & Hl & _) He. pose proof (b64_roundtrip kp.1 Hb) as Hr. rewrite He, b64_empty in Hr. injection Hr as Hr. rewrite <- Hr in Hl.
  by apply private_key_nonempty.
Qed.

Lemma load_keys c kp prev :
  in_use c kp prev -> valid_pair kp -> (forall p, prev = Some p -> valid_pair p) ->
  from_storage from_str c env app_name node_id = inl (mkKeyPairs (mkKeyPair kp.1 kp.2) ((fun p => mkKeyPair p.1 p.2) <$> prev)).
Proof.
  intros (_ & Hc & Hp) Hk Hv. unfold from_storage, download_private_key_from_asm. unfold secret in Hc, Hp. rewrite Hc. cbn [dbind].
  unfold from_b64_private_key_strings. rewrite (load_key kp Hk). cbn [dbind]. destruct prev as [p|]; rewrite Hp; [|done].
  rewrite bool_decide_eq_false_2 by by apply key_text_nonempty, Hv. rewrite (load_key p) by by apply Hv. done.
Qed.

Lemma string_bytes_ok s : Forall byte_ok (string_bytes s).
Proof.
  apply Forall_fmap, Forall_true. intros a. unfold compose, byte_ok. pose proof (Ascii.N_ascii_bounded a). lia.
Qed.

Lemma pair_public kp : valid_pair kp -> Forall byte_ok kp.2 /\ length kp.2 = PUBLIC_KEY_LENGTH.
Proof. intros (Hb & _ & Hp). split; [by apply (public_key_bytes kp.1)|by apply (public_key_length kp.1)]. Qed.

Lemma sealing_key kp prev pk :
  valid_pair kp -> (forall p, prev = Some p -> valid_pair p) -> pk = kp.2 \/ (snd <$> prev) = Some pk ->
  Forall byte_ok pk /\ length pk = PUBLIC_KEY_LENGTH.
Proof.
  intros Hk Hv [->|Hprev]; [by apply pair_public|]. destruct prev as [p|]; [|done]. injection Hprev as <-. by apply pair_public, Hv.
Qed.

(** Boxes for the current key and for the one before are opened. *)
Lemma open_in_use kp prev pk m rnd :
  valid_pair kp -> (forall p, prev = Some p -> valid_pair p) -> pk = kp.2 \/ (snd <$> prev) = Some pk ->
  decrypt_binary_share (seal_encrypt m pk rnd) (mkKeyPairs (mkKeyPair kp.1 kp.2) ((fun p => mkKeyPair p.1 p.2) <$> prev)) = inl m.
Proof.
  intros Hk Hv Hpk. unfold decrypt_binary_share. cbn [current_key_pair previous_key_pair].
  destruct (decide (kp.2 = pk)) as [<-|Hne]; [by rewrite open_own|]. rewrite open_other by (done || by apply (sealing_key kp prev)).
  destruct Hpk as [->|Hprev]; [done|]. destruct prev as [p|]; [|done]. injection Hprev as <-. cbn. by rewrite open_own by by apply Hv.
Qed.

(** A share, as a client sends it. *)
Definition sealed_share (pk : list Z) (text : string) (rnd : list Z) : string := b64_encode (seal_encrypt (string_bytes text) pk rnd).

Lemma read_share {T} (parse : string -> option T) c kp prev pk text rnd v :
  in_use c kp prev -> valid_pair kp -> (forall p, prev = Some p -> valid_pair p) -> pk = kp.2 \/ (snd <$> prev) = Some pk ->
  Forall byte_ok rnd -> utf8_valid (string_bytes text) = true -> parse text = Some v ->
  (let! kps := from_storage from_str c env app_name node_id in decrypt_share parse (sealed_share pk text rnd) kps) = inl v.
Proof.
  intros Hu Hk Hv Hpk Hrnd Htext Hparse. rewrite (load_keys c kp prev) by done. cbn [dbind]. unfold decrypt_share, sealed_share.
  rewrite b64_roundtrip by (apply seal_bytes; [apply string_bytes_ok|by apply (sealing_key kp prev)|done]).
  cbn [or_error dbind]. rewrite open_in_use by done. cbn [dbind]. rewrite Htext. cbn [dbind].
  by rewrite bytes_string_bytes, Hparse.
Qed.

(** The rotation of the keys in use. *)
Definition rotate (c : cloud) (kp : list Z * list Z) : cloud * result unit :=
  key_manager_main c (Some kp) (Rotate None) node_id env app_name bucket prefix.

Lemma rotate_in_use c kp prev kp' c' : in_use c kp prev -> rotate c kp' = (c', Ok tt) -> in_use c' kp' (Some kp).
Proof.
  intros (_ & Hc & _). unfold rotate, key_manager_main, rotate_keys. destruct kp' as [sk pk]. cbn [default]. fold (private_key_secret_id env app_name node_id).
  destruct (put_secret c (private_key_secret_id env app_name node_id) (b64_encode sk)) as [c1 [|]] eqn:E1; [|done].
  pose proof (put_object_secrets c1 bucket (prefix +:+ "-" +:+ node_id) (b64_encode pk)) as Hs.
  destruct (put_object c1 bucket _ (b64_encode pk)) as [c2 [|]] eqn:E2; [|done]. intros [= <-]. cbn in Hs.
  unfold in_use, published, secret in *. rewrite !Hs. split; [by apply (put_object_found c1)|].
  split; [by apply (put_secret_current c)|]. by rewrite (put_secret_previous c _ _ c1 E1).
Qed.

(** A sequence of rotations that succeed, and the states they go through. *)
Inductive rotations : cloud -> list (list Z * list Z) -> list cloud -> Prop :=
| rotations_nil c : rotations c [] [c]
| rotations_cons c kp kps c' cs : valid_pair kp -> rotate c kp = (c', Ok tt) -> rotations c' kps cs -> rotations c (kp :: kps) (c :: cs).

Lemma rotations_head c kps cs : rotations c kps cs -> cs !! 0%nat = Some c.
Proof. by destruct 1. Qed.

(** The invariant: after each rotation the published key and the current
    secret are one pair, and the previous secret is the pair before. *)
Lemma rotations_in_use c kp prev kps cs i ci :
  in_use c kp prev -> valid_pair kp -> (forall p, prev = Some p -> valid_pair p) -> rotations c kps cs -> cs !! i = Some ci ->
  exists kp' prev', in_use ci kp' prev' /\ valid_pair kp' /\ (forall p, prev' = Some p -> valid_pair p) /\
    (forall cj, cs !! S i = Some cj -> exists kp'', in_use cj kp'' (Some kp') /\ valid_pair kp'').
Proof.
  intros Hu Hk Hv Hr. revert kp prev Hu Hk Hv i. induction Hr as [c|c kp1 kps c' cs Hk1 Hr1 Hr IH]; intros kp prev Hu Hk Hv [|i] Hi; try done.
  - injection Hi as <-. by exists kp, prev.
  - injection Hi as <-. exists kp, prev. split; [done|]. split; [done|]. split; [done|]. intros cj Hj. exists kp1. split; [|done].
    pose proof (rotations_head _ _ _ Hr) as Hc'. change (cs !! 0%nat = Some cj) in Hj. rewrite Hc' in Hj. injection Hj as <-. by apply (rotate_in_use c kp prev).
  - cbn in Hi |- *. apply (IH kp1 (Some kp)); [by apply (rotate_in_use c kp prev)|done|by intros p [= <-]|done].
Qed.

(** The rotation leaves keys that the tool's own validation accepts. *)
Lemma rotate_validates c kp c' :
  valid_pair kp -> rotate c kp = (c', Ok tt) ->
  key_manager_main c' None (Validate CURRENT_SECRET_LABEL None) node_id env app_name bucket prefix = (c', Ok tt).
Proof.
  intros (Hb & Hl & Hp) Hr. unfold rotate, key_manager_main, rotate_keys in Hr. destruct kp as [sk pk]. cbn [default fst snd] in *.
  destruct (put_secret c _ (b64_encode sk)) as [c1 [|]] eqn:E1; [|done].
  pose proof (put_object_secrets c1 bucket (prefix +:+ "-" +:+ node_id) (b64_encode pk)) as Hs.
  destruct (put_object c1 bucket _ (b64_encode pk)) as [c2 [|]] eqn:E2; [|done]. injection Hr as <-. cbn in Hs.
  unfold key_manager_main, validate_keys. rewrite (put_object_found c1 _ _ _ c2 E2). cbn [ok_or mbind].
  rewrite Hs, (put_secret_current c _ _ c1 E1). cbn. rewrite !b64_roundtrip by eauto using public_key_bytes. rewrite (public_key_length sk pk Hp), Hl, !Nat.eqb_refl, Hp. cbn.
  by rewrite bool_decide_eq_true_2.
Qed.

(** C25: A share that a client seals with the key a party publishes is read by
    a server that loads its keys while that key is published, and also by one
    that loads them after the next rotation: for a sequence of rotations that
    succeed, the share sealed with the key published in its i-th state is
    decrypted to its value with the keys in the secret store in states i and
    i + 1, whatever the randomness of the box. *)
Theorem rotation_keeps_shares_readable {T} (parse : string -> option T) c kp prev kps cs i j ci cj key_text pk text rnd v :
  in_use c kp prev -> valid_pair kp -> (forall p, prev = Some p -> valid_pair p) -> rotations c kps cs ->
  cs !! i = Some ci -> cs !! j = Some cj -> j = i \/ j = S i ->
  published ci = Some key_text -> b64_decode key_text = Some pk ->
  Forall byte_ok rnd -> utf8_valid (string_bytes text) = true -> parse text = Some v ->
  (let! kps := from_storage from_str cj env app_name node_id in decrypt_share parse (sealed_share pk text rnd) kps) = inl v.
Proof.
  intros Hu Hk Hv Hr Hi Hj Hij Hpub Hpk Hrnd Htext Hparse.
  destruct (rotations_in_use c kp prev kps cs i ci) as (kp' & prev' & Hu' & Hk' & Hv' & Hnext); try done.
  pose proof Hu' as (Hpub' & _). rewrite Hpub' in Hpub. injection Hpub as <-. rewrite b64_roundtrip in Hpk by by apply pair_public.
  injection Hpk as <-. destruct Hij as [-> | ->].
  - rewrite Hi in Hj. injection Hj as <-. apply (read_share _ _ kp' prev'); auto.
  - destruct (Hnext cj Hj) as (kp'' & Hu'' & Hk''). apply (read_share _ _ kp'' (Some kp')); auto. by intros p [= <-].
Qed.
End Rotation.

(** ** Concrete services *)

Module Toy.
(** A box is the recipient's key, the randomness and the message. *)
Definition seal : Seal := {|
  PRIVATE_KEY_LENGTH := 2; PUBLIC_KEY_LENGTH := 2; OVERHEAD_LENGTH := 4;
  public_key_of sk := if (length sk =? 2)%nat then Some sk else None;
  seal_encrypt m pk rnd := take 2 (pk ++ [0; 0]) ++ take 2 (rnd ++ [0; 0]) ++ m;
  seal_decrypt code sk := if bool_decide (take 2 code = sk) then Opened (drop 4 code) else DecryptionFailed;
|}.

Definition base64 : Base64 := {|
  b64_encode l := ("B" +:+ bytes_string l);
  b64_decode s := match s with "" => Some [] | String _ rest => Some (string_bytes rest) end;
|}.

(** The versions of each secret, the newest first, the objects, and whether
    each service is up. *)
Record store := mkStore { secrets : gmap string (list string); objects : gmap (string * string) string; up : bool * bool }.

Definition services : Cloud := {|
  cloud := store;
  get_secret c id stage :=
    let versions := default [] (secrets c !! id) in
    Some <$> (if bool_decide (stage = CURRENT_SECRET_LABEL) then versions !! 0%nat
              else if bool_decide (stage = PREVIOUS_SECRET_LABEL) then versions !! 1%nat else None);
  put_secret c id s :=
    if (up c).1 then (mkStore (<[id := s :: default [] (secrets c !! id)]> (secrets c)) (objects c) (up c), true) else (c, false);
  get_object c b k := objects c !! (b, k);
  put_object c b k s := if (up c).2 then (mkStore (secrets c) (<[(b, k) := s]> (objects c)) (up c), true) else (c, false);
|}.
End Toy.
#[local] Existing Instances Toy.seal Toy.base64 Toy.services.

#[local] Instance toy_seal_ok : @SealOk Toy.seal.
Proof.
  split; cbn.
  - done.
  - intros sk pk. destruct (Nat.eqb_spec (length sk) 2); [|done]. by intros [= <-].
  - intros sk pk Hb. destruct (_ =? _)%nat; [|done]. by intros [= <-].
  - assert (Forall byte_ok [0; 0]) by (repeat constructor; unfold byte_ok; lia).
    intros m pk rnd Hm Hp Hr. rewrite !Forall_app. split_and!; [apply Forall_take|apply Forall_take|done]; by apply Forall_app.
  - intros m pk rnd. rewrite !length_app, !length_take, !length_app. change (length [0; 0]) with 2%nat. lia.
  - intros m sk pk rnd. destruct (Nat.eqb_spec (length sk) 2) as [Hl|]; [|done]. intros [= <-].
    destruct sk as [|a [|b [|]]]; try done. cbn. rewrite bool_decide_eq_true_2 by done. f_equal. by destruct rnd as [|? [|]].
  - intros m sk pk pk' rnd. destruct (Nat.eqb_spec (length sk) 2) as [Hl|]; [|done]. intros [= <-] Hp Hne.
    destruct sk as [|a [|b [|]]]; try done. destruct pk as [|a' [|b' [|]]]; try done. cbn. rewrite bool_decide_eq_false_2; [done|].
    intros He. by apply Hne.
Qed.

#[local] Instance toy_base64_ok : @Base64Ok Toy.base64.
Proof.
  split; cbn; [|done..]. intros l Hl. f_equal. unfold string_bytes, bytes_string. rewrite String.list_ascii_of_string_of_list_ascii.
  rewrite <- list_fmap_compose. rewrite <- (list_fmap_id l) at 2. apply list_fmap_ext. intros i x Hx. unfold compose, id.
  assert (byte_ok x) as Hb by by eapply (Forall_lookup_1 _ l). unfold byte_ok in Hb. rewrite Ascii.N_ascii_embedding; [lia|]. apply N2Z.inj_lt. lia.
Qed.

#[local] Instance toy_services_ok : @CloudOk Toy.services.
Proof.
  split; cbn.
  - intros c id s c'. destruct (Toy.up c).1; [|done]. intros [= <-]. cbn. by rewrite lookup_insert_eq.
  - intros c id s c'. destruct (Toy.up c).1; [|done]. intros [= <-]. cbn. by rewrite lookup_insert_eq.
  - intros c id s b k. by destruct (Toy.up c).1.
  - intros c b k s c'. destruct (Toy.up c).2; [|done]. intros [= <-]. cbn. by rewrite lookup_insert_eq.
  - intros c b k s id stage. by destruct (Toy.up c).2.
Qed.

(** ** Concrete rotations *)

Definition toy_start : @cloud Toy.services :=
  {| Toy.secrets := {[ "prod/iris-mpc/ecdh-private-key-0" := [b64_encode [1; 1]] ]};
     Toy.objects := {[ ("keys", "public-key-0") := b64_encode [1; 1] ]}; Toy.up := (true, true) |}.
Definition toy_rotate (c : @cloud Toy.services) (k : list Z) : @cloud Toy.services * result unit := rotate "0" "prod" "iris-mpc" "keys" "public-key" c (k, k).
Definition toy_read (c : @cloud Toy.services) (pk : list Z) : decoding string :=
  let! kps := from_storage (fun _ => None) c "prod" "iris-mpc" "0" in decrypt_share Some (sealed_share pk "share" [7]) kps.

(** The share sealed before two rotations can be read before and after the
    first one. *)
Lemma rotation_keeps_shares_readable_witness :
  let c1 := (toy_rotate toy_start [2; 2]).1 in let c2 := (toy_rotate c1 [3; 3]).1 in
  toy_read toy_start [1; 1] = inl "share" /\ toy_read c1 [1; 1] = inl "share" /\ toy_read c2 [1; 1] = inr SealedBoxOpenError.
Proof.
  intros c1 c2.
  assert (valid_pair ([1; 1], [1; 1])) as H1 by (split_and!; [repeat constructor|..]; done).
  assert (valid_pair ([2; 2], [2; 2])) as H2 by (split_and!; [repeat constructor|..]; done).
  assert (valid_pair ([3; 3], [3; 3])) as H3 by (split_and!; [repeat constructor|..]; done).
  assert (rotations "0" "prod" "iris-mpc" "keys" "public-key" toy_start [([2; 2], [2; 2]); ([3; 3], [3; 3])] [toy_start; c1; c2]) as Hr.
  { apply (rotations_cons "0" "prod" "iris-mpc" "keys" "public-key" toy_start _ _ c1); [done|reflexivity|].
    apply (rotations_cons "0" "prod" "iris-mpc" "keys" "public-key" c1 _ _ c2); [done|reflexivity|constructor]. }
  assert (Forall byte_ok [7]) by (repeat constructor; done).
  assert (in_use "0" "prod" "iris-mpc" "keys" "public-key" toy_start ([1; 1], [1; 1]) None) as Hu by done.
  split_and!; [| |reflexivity].
  - by apply (rotation_keeps_shares_readable (fun _ => None) "0" "prod" "iris-mpc" "keys" "public-key" Some toy_start ([1; 1], [1; 1]) None
      [([2; 2], [2; 2]); ([3; 3], [3; 3])] [toy_start; c1; c2] 0 0 toy_start toy_start (b64_encode [1; 1])); auto.
  - by apply (rotation_keeps_shares_readable (fun _ => None) "0" "prod" "iris-mpc" "keys" "public-key" Some toy_start ([1; 1], [1; 1]) None
      [([2; 2], [2; 2]); ([3; 3], [3; 3])] [toy_start; c1; c2] 0 1 toy_start c1 (b64_encode [1; 1])); auto.
Defined.

(** Rotations that fail after the upload of the private key move the secrets
    on: after two of them the key that is still published has no private key
    in the store. *)
Theorem failed_rotations_lose_the_published_key :
  let down : @cloud Toy.services := {| Toy.secrets := Toy.secrets toy_start; Toy.objects := Toy.objects toy_start; Toy.up := (true, false) |} in
  let c1 := (toy_rotate down [2; 2]).1 in let c2 := (toy_rotate c1 [3; 3]).1 in
  (toy_rotate down [2; 2]).2 = bail "Error uploading public key to S3" /\
  (toy_rotate c1 [3; 3]).2 = bail "Error uploading public key to S3" /\
  published "0" "keys" "public-key" c2 = Some (b64_encode [1; 1]) /\
  toy_read c1 [1; 1] = inl "share" /\ toy_read c2 [1; 1] = inr SealedBoxOpenError.
Proof. split_and!; reflexivity. Qed.
