(* ===== verification/AnonConfig.v ===== *)
(** * Configuration of the statistics server: [server/config/mod.rs] and
    [store/postgres.rs]

    The settings come from the environment; fields that are absent have
    defaults, and a configuration is validated before it is used.  The crates
    [config] and [serde] are the parameter [settings]: the fields they found.
    The theorems say what the code that uses a loaded configuration can rely
    on: limits that admit a job, sampling rates that split the rows of the
    store, thresholds in order; and that the schema name cannot leave its
    quotes in the statement that selects it. *)

From S2P Require Import Prelude IntRing F64 Buckets AnonJobs AnonJobs2D AnonStore Startup Handle.
From stdpp Require Import base list numbers strings option gmap sorting.
From Stdlib Require Import ZArith Lia Sorted.
Local Open Scope Z_scope.

(** ** Data *)

(* ampc-server-utils/src/config.rs:6-13 AwsConfig *)
Record AwsConfig := mkAwsConfig { aws_endpoint : option string; aws_region : option string }.

(* ampc-server-utils/src/config.rs:26-32 MetricsConfig *)
Record MetricsConfig := mkMetricsConfig {
  metrics_host : string;
  metrics_port : Z;
  queue_size : Z;
  buffer_size : Z;
  metrics_prefix : string;
}.

(* ampc-server-utils/src/config.rs:16-23 ServiceConfig *)
Record ServiceConfig := mkServiceConfig { service_name : string; traces_endpoint : option string; metrics : option MetricsConfig }.

(* server/config/mod.rs:9-22 Opt *)
Record Opt := mkOpt {
  opt_party_id : option nat;
  opt_addresses : option (list string);
  opt_healthcheck_port : option Z;
  opt_results_topic_arn : option string;
}.

(** The fields that the jobs use are together in [jobs]. *)
(* server/config/mod.rs:27-204 AnonStatsServerConfig *)
Record ServerConfig := mkServerConfig {
  service : option ServiceConfig;
  aws : option AwsConfig;
  jobs : AnonStatsServerConfig;
  environment : string;
  results_topic_arn : string;
  sns_buffer_bucket_name : string;
  min_1d_job_size : Z;
  min_1d_job_size_reauth : Z;
  min_1d_job_size_recovery : Z;
  min_1d_job_size_mirror : Z;
  min_2d_job_size : Z;
  min_2d_job_size_full_retention : Z;
  min_2d_job_size_opposite_mirror_match : Z;
  min_face_job_size : Z;
  min_face_job_size_reauth : Z;
  min_2d_job_size_reauth : Z;
  min_2d_job_size_recovery : Z;
  min_2d_job_size_mirror : Z;
  max_rows_per_job_1d : Z;
  max_rows_per_job_2d : Z;
  poll_interval_secs : Z;
  mpc_timeout_secs : Z;
  di_2d_sampling_rates : list Z;
  max_sync_failures_before_reset : Z;
  db_url : string;
  db_schema_name : string;
  server_coordination : option ServerCoordinationConfig;
  service_ports : list string;
  shutdown_last_results_sync_timeout_secs : Z;
  tls : option TlsConfig;
  ignore_missing_migrations : bool;
}.

(** ** Defaults *)

(** [(lo..hi).step_by(step)]. *)
Definition step_by (lo hi step : Z) : list Z := (fun k => lo + Z.of_nat k * step) <$> seq 0 (Z.to_nat ((hi - lo + step - 1) / step)).

(* server/config/mod.rs:206-208 default_face_bucket_thresholds *)
Definition default_face_bucket_thresholds : list Z := step_by (-2000) 4000 100.
(* server/config/mod.rs:210-218 default_di_2d_bucket_thresholds *)
Definition default_di_2d_bucket_thresholds : list Z := step_by (-1000) 3001 5 ++ [4000].
(* server/config/mod.rs:220-222 default_di_2d_sampling_rates *)
Definition default_di_2d_sampling_rates : list Z := [100].
(* server/config/mod.rs:224-226 default_n_buckets_1d *)
Definition default_n_buckets_1d : nat := 10.
(* server/config/mod.rs:228-230 default_n_buckets_1d_reauth *)
Definition default_n_buckets_1d_reauth : nat := 20.
(* server/config/mod.rs:232-234 default_n_buckets_2d *)
Definition default_n_buckets_2d : nat := 10.
(* server/config/mod.rs:236-238 default_n_buckets_2d_reauth *)
Definition default_n_buckets_2d_reauth : nat := 15.
(** [0.4] is the double nearest to 4/10. *)
(* server/config/mod.rs:240-244 default_nhd_threshold_ratio *)
Definition default_nhd_threshold_ratio : f64 := f64_div (f64_of_int 4) (f64_of_int 10).
(* server/config/mod.rs:246-250 default_n_buckets_1d_nhd *)
Definition default_n_buckets_1d_nhd : nat := 400.
(* server/config/mod.rs:252-254 default_n_buckets_2d_nhd *)
Definition default_n_buckets_2d_nhd : nat := 400.
(* server/config/mod.rs:256-258 default_min_1d_job_size *)
Definition default_min_1d_job_size : Z := 1000.
(* server/config/mod.rs:260-262 default_min_2d_job_size *)
Definition default_min_2d_job_size : Z := 1000.
(* server/config/mod.rs:264-266 default_min_2d_job_size_full_retention *)
Definition default_min_2d_job_size_full_retention : Z := 20.
(* server/config/mod.rs:268-270 default_min_2d_job_size_opposite_mirror_match *)
Definition default_min_2d_job_size_opposite_mirror_match : Z := 20.
(* server/config/mod.rs:272-274 default_min_face_job_size *)
Definition default_min_face_job_size : Z := 1000.
(* server/config/mod.rs:276-278 default_min_face_job_size_reauth *)
Definition default_min_face_job_size_reauth : Z := 100.
(* server/config/mod.rs:280-282 default_min_1d_job_size_reauth *)
Definition default_min_1d_job_size_reauth : Z := default_min_1d_job_size.
(* server/config/mod.rs:284-286 default_min_1d_job_size_recovery *)
Definition default_min_1d_job_size_recovery : Z := default_min_1d_job_size.
(* server/config/mod.rs:288-290 default_min_1d_job_size_mirror *)
Definition default_min_1d_job_size_mirror : Z := default_min_1d_job_size.
(* server/config/mod.rs:292-294 default_min_2d_job_size_reauth *)
Definition default_min_2d_job_size_reauth : Z := default_min_2d_job_size.
(* server/config/mod.rs:296-298 default_min_2d_job_size_recovery *)
Definition default_min_2d_job_size_recovery : Z := default_min_2d_job_size.
(* server/config/mod.rs:300-302 default_min_2d_job_size_mirror *)
Definition default_min_2d_job_size_mirror : Z := default_min_2d_job_size.
(* server/config/mod.rs:304-306 default_max_rows_per_job_1d *)
Definition default_max_rows_per_job_1d : Z := 100000.
(* server/config/mod.rs:308-310 default_max_rows_per_job_2d *)
Definition default_max_rows_per_job_2d : Z := 10000.
(* server/config/mod.rs:312-314 default_schema_name *)
Definition default_schema_name : string := "anon_stats_mpc".
(* server/config/mod.rs:316-318 default_poll_interval_secs *)
Definition default_poll_interval_secs : Z := 30.
(* network/mpc/handle/mod.rs:25-25 DEFAULT_MPC_TIMEOUT *)
Definition DEFAULT_MPC_TIMEOUT : Z := 10.
(* server/config/mod.rs:320-322 default_mpc_timeout_secs *)
Definition default_mpc_timeout_secs : Z := DEFAULT_MPC_TIMEOUT.
(* server/config/mod.rs:324-326 default_max_sync_failures_before_reset *)
Definition default_max_sync_failures_before_reset : Z := 3.
(* server/config/mod.rs:328-330 default_shutdown_last_results_sync_timeout_secs *)
Definition default_shutdown_last_results_sync_timeout_secs : Z := 10.

(** ** Loading *)

(** What the environment holds for a field: nothing, a value, or something that
    is not of the type of the field. *)
Record settings := mkSettings {
  number : string -> option (result Z);
  float : string -> option (result f64);
  text : string -> option (result string);
  flag : string -> option (result bool);
  section_service : option (result ServiceConfig);
  section_aws : option (result AwsConfig);
  section_server_coordination : option (result ServerCoordinationConfig);
  section_tls : option (result TlsConfig);
}.

(** [#[serde(default = ..)]]; an [Option] is [None] when it is absent. *)
Definition field {A} (found : option (result A)) (d : A) : result A := default (Ok d) found.
Definition section {A} (found : option (result A)) : result (option A) :=
  match found with None => Ok None | Some r => x ← r; Ok (Some x) end.

Section Loading.
(** [serde_json::from_str] at the types of the lists. *)
Context (parse_strings : string -> option (list string)) (parse_i16s parse_u8s : string -> option (list Z)).

(* server/config/mod.rs:489-495 deserialize_yaml_json_string *)
Definition deserialize_yaml_json_string (value : result string) : result (list string) :=
  s ← value; ok_or (parse_strings s) "custom error".
(* server/config/mod.rs:497-503 deserialize_yaml_json_i16 *)
Definition deserialize_yaml_json_i16 (value : result string) : result (list Z) :=
  s ← value; ok_or (parse_i16s s) "custom error".
(* server/config/mod.rs:505-511 deserialize_yaml_json_u8 *)
Definition deserialize_yaml_json_u8 (value : result string) : result (list Z) :=
  s ← value; ok_or (parse_u8s s) "custom error".

(* server/config/mod.rs:27-205 AnonStatsServerConfig (Deserialize, the fields of the jobs) *)
Definition jobs_from_settings (s : settings) : result AnonStatsServerConfig :=
  let count name d := n ← field (number s name) (Z.of_nat d); Ok (Z.to_nat n) in
  party_id ← count "party_id" 0%nat;
  n1 ← count "n_buckets_1d" default_n_buckets_1d;
  n1r ← count "n_buckets_1d_reauth" default_n_buckets_1d_reauth;
  n2 ← count "n_buckets_2d" default_n_buckets_2d;
  n2r ← count "n_buckets_2d_reauth" default_n_buckets_2d_reauth;
  ratio ← field (float s "nhd_threshold_ratio") default_nhd_threshold_ratio;
  n1n ← count "n_buckets_1d_nhd" default_n_buckets_1d_nhd;
  n2n ← count "n_buckets_2d_nhd" default_n_buckets_2d_nhd;
  face ← field (deserialize_yaml_json_i16 <$> text s "face_bucket_thresholds") default_face_bucket_thresholds;
  di ← field (deserialize_yaml_json_i16 <$> text s "di_2d_bucket_thresholds") default_di_2d_bucket_thresholds;
  Ok (AnonJobs.mkConfig party_id n1 n1r n2 n2r ratio n1n n2n face di).

(* server/config/mod.rs:27-205 AnonStatsServerConfig (Deserialize) *)
Definition from_settings (s : settings) : result ServerConfig :=
  service ← section (section_service s);
  aws ← section (section_aws s);
  jobs ← jobs_from_settings s;
  environment ← field (text s "environment") "";
  arn ← field (text s "results_topic_arn") "";
  bucket ← field (text s "sns_buffer_bucket_name") "";
  m1 ← field (number s "min_1d_job_size") default_min_1d_job_size;
  m1_reauth ← field (number s "min_1d_job_size_reauth") default_min_1d_job_size_reauth;
  m1_recovery ← field (number s "min_1d_job_size_recovery") default_min_1d_job_size_recovery;
  m1_mirror ← field (number s "min_1d_job_size_mirror") default_min_1d_job_size_mirror;
  m2 ← field (number s "min_2d_job_size") default_min_2d_job_size;
  m2_full ← field (number s "min_2d_job_size_full_retention") default_min_2d_job_size_full_retention;
  m2_opposite ← field (number s "min_2d_job_size_opposite_mirror_match") default_min_2d_job_size_opposite_mirror_match;
  mf ← field (number s "min_face_job_size") default_min_face_job_size;
  mf_reauth ← field (number s "min_face_job_size_reauth") default_min_face_job_size_reauth;
  m2_reauth ← field (number s "min_2d_job_size_reauth") default_min_2d_job_size_reauth;
  m2_recovery ← field (number s "min_2d_job_size_recovery") default_min_2d_job_size_recovery;
  m2_mirror ← field (number s "min_2d_job_size_mirror") default_min_2d_job_size_mirror;
  max1 ← field (number s "max_rows_per_job_1d") default_max_rows_per_job_1d;
  max2 ← field (number s "max_rows_per_job_2d") default_max_rows_per_job_2d;
  poll ← field (number s "poll_interval_secs") default_poll_interval_secs;
  timeout ← field (number s "mpc_timeout_secs") default_mpc_timeout_secs;
  rates ← field (deserialize_yaml_json_u8 <$> text s "di_2d_sampling_rates") default_di_2d_sampling_rates;
  failures ← field (number s "max_sync_failures_before_reset") default_max_sync_failures_before_reset;
  url ← field (text s "db_url") "";
  schema ← field (text s "db_schema_name") default_schema_name;
  coordination ← section (section_server_coordination s);
  ports ← field (deserialize_yaml_json_string <$> text s "service_ports") [];
  shutdown ← field (number s "shutdown_last_results_sync_timeout_secs") default_shutdown_last_results_sync_timeout_secs;
  tls ← section (section_tls s);
  ignore ← field (flag s "ignore_missing_migrations") false;
  Ok (mkServerConfig service aws jobs environment arn bucket m1 m1_reauth m1_recovery m1_mirror m2 m2_full m2_opposite mf mf_reauth
    m2_reauth m2_recovery m2_mirror max1 max2 poll timeout rates failures url schema coordination ports shutdown tls ignore).

Definition set_party_id (c : AnonStatsServerConfig) (id : nat) : AnonStatsServerConfig :=
  AnonJobs.mkConfig id (n_buckets_1d c) (n_buckets_1d_reauth c) (n_buckets_2d c) (n_buckets_2d_reauth c) (nhd_threshold_ratio c)
    (n_buckets_1d_nhd c) (n_buckets_2d_nhd c) (face_bucket_thresholds c) (di_2d_bucket_thresholds c).

Definition set_party_and_topic (self : ServerConfig) (id : nat) (arn : string) : ServerConfig :=
  let '(mkServerConfig service aws jobs environment _ bucket m1 m1_reauth m1_recovery m1_mirror m2 m2_full m2_opposite mf mf_reauth
    m2_reauth m2_recovery m2_mirror max1 max2 poll timeout rates failures url schema coordination ports shutdown tls ignore) := self in
  mkServerConfig service aws (set_party_id jobs id) environment arn bucket m1 m1_reauth m1_recovery m1_mirror m2 m2_full m2_opposite mf mf_reauth
    m2_reauth m2_recovery m2_mirror max1 max2 poll timeout rates failures url schema coordination ports shutdown tls ignore.

(* server/config/mod.rs:407-415 AnonStatsServerConfig::overwrite_defaults_with_cli_args *)
Definition overwrite_defaults_with_cli_args (self : ServerConfig) (opts : Opt) : ServerConfig :=
  set_party_and_topic self (default (cfg_party_id (jobs self)) (opt_party_id opts)) (default (results_topic_arn self) (opt_results_topic_arn opts)).

(** ** Validation *)

(** [rates[index + 1..].contains(rate)] for some index. *)
Fixpoint first_duplicate (rates : list Z) : option Z :=
  match rates with
  | [] => None
  | rate :: rest => if bool_decide (rate ∈ rest) then Some rate else first_duplicate rest
  end.

(* server/config/mod.rs:427-447 AnonStatsServerConfig::validate_di_2d_sampling_rates *)
Definition validate_di_2d_sampling_rates (self : ServerConfig) : result unit :=
  let rates := di_2d_sampling_rates self in
  match rates with
  | [] => bail "di_2d_sampling_rates cannot be empty"
  | _ =>
      match List.find (fun rate => negb ((1 <=? rate) && (rate <=? 100))) rates with
      | Some rate => bail "di_2d_sampling_rates contains invalid rate; expected 1..=100"
      | None =>
          if negb (bool_decide (100 ∈ rates)) then bail "di_2d_sampling_rates must contain 100"
          else match first_duplicate rates with
               | Some rate => bail "di_2d_sampling_rates contains duplicate rate"
               | None => Ok tt
               end
      end
  end.

(* server/config/mod.rs:450-486 AnonStatsServerConfig::validate_job_limits *)
Definition validate_job_limits (self : ServerConfig) : result unit :=
  let max1 := max_rows_per_job_1d self in
  let max2 := max_rows_per_job_2d self in
  if (max1 <? min_1d_job_size self) || (max1 <? min_1d_job_size_reauth self) || (max1 <? min_1d_job_size_recovery self)
     || (max1 <? min_1d_job_size_mirror self) || (max1 <? min_face_job_size self) || (max1 <? min_face_job_size_reauth self)
  then bail "max_rows_per_job_1d cannot be less than min_1d_job_sizes"
  else if (max2 <? min_2d_job_size self) || (max2 <? min_2d_job_size_full_retention self) || (max2 <? min_2d_job_size_reauth self)
     || (max2 <? min_2d_job_size_recovery self) || (max2 <? min_2d_job_size_mirror self)
  then bail "max_rows_per_job_2d cannot be less than min_2d_job_sizes"
  else Ok tt.

(* server/config/mod.rs:418-425 AnonStatsServerConfig::validate_config *)
Definition validate_config (self : ServerConfig) : result unit :=
  _ ← validate_job_limits self;
  _ ← validate_di_2d_sampling_rates self;
  if mpc_timeout_secs self =? 0 then bail "mpc_timeout_secs must be greater than zero" else Ok tt.

(* server/config/mod.rs:386-405 AnonStatsServerConfig::load_config *)
Definition load_config (s : settings) : result ServerConfig :=
  config ← from_settings s;
  let config := match server_coordination config with
    | Some c => set_party_and_topic config (Startup.party_id c) (results_topic_arn config)
    | None => config
    end in
  _ ← validate_config config;
  Ok config.
End Loading.

(** ** The schema of the database *)

(* store/postgres.rs:14-17 AccessMode *)
Inductive AccessMode := ReadOnly | ReadWrite.

(** Text as code points. *)
Definition chars (s : string) : list Z := (fun a => Z.of_nat (Ascii.nat_of_ascii a)) <$> String.list_ascii_of_string s.

Section Schema.
(** [char::is_alphanumeric]. *)
Context (is_alphanumeric : Z -> bool).

(* store/postgres.rs:19-28 sanitize_identifier *)
Definition sanitize_identifier (input : list Z) : result unit :=
  if forallb (fun c => is_alphanumeric c || (c =? 95) || (c =? 45)) input then Ok tt else bail "Invalid SQL identifier".

(** [newline] is the indentation of the second form. *)
Definition newline : list Z := 10 :: replicate 12 32.

(* store/postgres.rs:30-44 sql_switch_schema *)
Definition sql_switch_schema (schema_name : list Z) (access_mode : AccessMode) : result (list Z) :=
  _ ← sanitize_identifier schema_name;
  Ok match access_mode with
     | ReadOnly => chars "SET search_path TO " ++ [34] ++ schema_name ++ [34] ++ chars ";"
     | ReadWrite => newline ++ chars "CREATE SCHEMA IF NOT EXISTS " ++ [34] ++ schema_name ++ [34] ++ chars ";"
         ++ newline ++ chars "SET search_path TO " ++ [34] ++ schema_name ++ [34] ++ chars ", public;" ++ newline
     end.
End Schema.

(** ** Lemmas *)

Lemma first_duplicate_spec l : first_duplicate l = None <-> NoDup l.
Proof.
  induction l as [|x l IH]; cbn; [by rewrite NoDup_nil|]. rewrite NoDup_cons. case_bool_decide as H; [|by rewrite IH; naive_solver].
  split; [done|]. by intros [].
Qed.

Lemma find_none {A} (f : A -> bool) l : List.find f l = None <-> Forall (fun x => f x = false) l.
Proof.
  induction l as [|x l IH]; cbn; [by rewrite Forall_nil|]. rewrite Forall_cons. destruct (f x); [|by rewrite IH; naive_solver].
  split; [done|]. by intros [].
Qed.

Lemma validate_rates_spec c :
  validate_di_2d_sampling_rates c = Ok tt <->
  Forall (fun rate => 1 <= rate <= 100) (di_2d_sampling_rates c) /\ 100 ∈ di_2d_sampling_rates c /\ NoDup (di_2d_sampling_rates c).
Proof.
  unfold validate_di_2d_sampling_rates. rewrite <- first_duplicate_spec. set (l := di_2d_sampling_rates c).
  assert (Forall (fun rate => 1 <= rate <= 100) l <-> List.find (fun rate => negb ((1 <=? rate) && (rate <=? 100))) l = None) as ->.
  { rewrite find_none. apply Forall_proper; [|done]. intros x. split; intros; lia. }
  destruct l as [|x l']; [split; [done|]; intros (_ & H & _); by apply elem_of_nil in H|].
  destruct (List.find _ _); [naive_solver|]. case_bool_decide; cbn [negb]; [|naive_solver]. destruct (first_duplicate _); naive_solver.
Qed.

Lemma validate_limits_spec c :
  validate_job_limits c = Ok tt <->
  Forall (fun m => m <= max_rows_per_job_1d c) [min_1d_job_size c; min_1d_job_size_reauth c; min_1d_job_size_recovery c;
    min_1d_job_size_mirror c; min_face_job_size c; min_face_job_size_reauth c] /\
  Forall (fun m => m <= max_rows_per_job_2d c) [min_2d_job_size c; min_2d_job_size_full_retention c; min_2d_job_size_reauth c;
    min_2d_job_size_recovery c; min_2d_job_size_mirror c].
Proof.
  unfold validate_job_limits. rewrite !Forall_cons, !Forall_nil.
  repeat case_match; (split; [first [done|intros _; lia]|first [done|lia]]).
Qed.

Lemma validate_config_spec c :
  validate_config c = Ok tt <-> validate_job_limits c = Ok tt /\ validate_di_2d_sampling_rates c = Ok tt /\ mpc_timeout_secs c <> 0.
Proof.
  unfold validate_config. destruct (validate_job_limits c) as [[]|]; cbn; [|naive_solver].
  destruct (validate_di_2d_sampling_rates c) as [[]|]; cbn; [|naive_solver].
  destruct (Z.eqb_spec (mpc_timeout_secs c) 0); naive_solver.
Qed.

(** Rows by group: every row whose group is listed is counted once. *)
Lemma count_groups {A K} `{!EqDecision K} (key : A -> K) (P : A -> bool) (ks : list K) (l : list A) :
  NoDup ks ->
  sum_list ((fun k => length (filter (fun x => P x && bool_decide (key x = k)) l)) <$> ks)
  = length (filter (fun x => P x && bool_decide (key x ∈ ks)) l).
Proof.
  intros Hks. induction Hks as [|k ks Hk Hks IH]; cbn [fmap list_fmap sum_list].
  - induction l as [|x l IHl]; [done|]. rewrite filter_cons_False; [done|]. rewrite andb_True, bool_decide_spec, elem_of_nil. tauto.
  - change (list_fmap _ _ ?f ks) with (f <$> ks). rewrite IH. clear IH Hks. induction l as [|x l IHl]; [done|].
    rewrite !filter_cons. repeat case_decide; cbn [length]; rewrite !andb_True, !bool_decide_spec, ?elem_of_cons in *; first [lia|naive_solver].
Qed.

Lemma sum_of_nat (l : list nat) : foldr Z.add 0 (Z.of_nat <$> l) = Z.of_nat (sum_list l).
Proof. induction l as [|x l IH]; [done|]. rewrite fmap_cons. cbn [foldr]. rewrite IH, <- Nat2Z.inj_add. done. Qed.

(** The pending rows of the groups a server processes: those with one of the
    rates, and each pair of mirror matches. *)
Definition di_groups (rates : list Z) : list di_meta :=
  rates ≫= fun rate => [(rate, false, false); (rate, false, true); (rate, true, false); (rate, true, true)].

Lemma di_groups_NoDup rates : NoDup rates -> NoDup (di_groups rates).
Proof.
  intros Hr. unfold di_groups. apply NoDup_bind; [| |done].
  - intros r1 r2 x _ _ H1 H2. rewrite !elem_of_cons, !elem_of_nil in *. naive_solver.
  - intros r _. repeat constructor; rewrite ?elem_of_cons, ?elem_of_nil; naive_solver.
Qed.

Lemma elem_of_di_groups rates (x : di_meta) : x ∈ di_groups rates <-> x.1.1 ∈ rates.
Proof.
  unfold di_groups. rewrite list_elem_of_bind. destruct x as [[r lm] rm]. cbn. split.
  - intros (r' & H & Hr). rewrite !elem_of_cons, elem_of_nil in H. naive_solver.
  - intros Hr. exists r. split; [|done]. rewrite !elem_of_cons. destruct lm, rm; naive_solver.
Qed.

Lemma groups_partition store origin operation rates :
  NoDup rates ->
  foldr Z.add 0 ((fun g : di_meta => num_available_anon_stats_2d_di store origin operation g.1.1 g.1.2 g.2) <$> di_groups rates)
  = Z.of_nat (length (filter (fun r => available origin (Some operation) None r && bool_decide ((row_extra r).1.1 ∈ rates))
      (rows (anon_stats_2d_di store)))).
Proof.
  intros Hr. pose proof (count_groups row_extra (available origin (Some operation) None) _ (rows (anon_stats_2d_di store)) (di_groups_NoDup _ Hr)) as Hc.
  rewrite (list_filter_iff _ (fun r => available origin (Some operation) None r && bool_decide (row_extra r ∈ di_groups rates))).
  2: { intros r. rewrite !andb_True, !bool_decide_spec. by rewrite elem_of_di_groups. }
  rewrite <- Hc, <- sum_of_nat, <- list_fmap_compose. f_equal. apply list_fmap_ext. intros ? [[r lm] rm] _. unfold compose. cbn.
  unfold num_available_anon_stats_2d_di, num_available_anon_stats. do 2 f_equal. apply list_filter_iff. intros x. unfold available. by rewrite andb_true_r.
Qed.

(** ** Loaded configurations *)

Section Loaded.
Context (parse_strings : string -> option (list string)) (parse_i16s parse_u8s : string -> option (list Z)).

Lemma load_config_inv s c :
  load_config parse_strings parse_i16s parse_u8s s = Ok c ->
  validate_config c = Ok tt /\ (forall co, server_coordination c = Some co -> cfg_party_id (jobs c) = Startup.party_id co).
Proof.
  unfold load_config. destruct (from_settings _ _ _ s) as [c0|]; cbn; [|done].
  set (c1 := match server_coordination c0 with Some _ => _ | None => _ end). destruct (validate_config c1) as [[]|] eqn:Hv; cbn; [|done].
  intros [= <-]. split; [done|]. unfold c1. intros co. destruct (server_coordination c0) as [co'|] eqn:E; [|by rewrite E].
  destruct c0; cbn in *. by intros [= ->]; injection E as ->.
Qed.

(** C26: What a server can rely on once its configuration has loaded.  No job
    size it waits for is above the number of rows it fetches for the job (for
    the mirror matches, see [opposite_mirror_limit_unchecked]); the timeout of
    the network is not zero; the party is the one of the coordination section;
    and the sampling rates, which include the 100 of unsampled rows, split the
    pending rows of the Deep Identifier table: the numbers of available rows of
    the groups add up to the number of pending rows that have a configured
    rate, so that no row is processed in two groups. *)
Theorem loaded_config_splits_rows s c store origin operation :
  load_config parse_strings parse_i16s parse_u8s s = Ok c ->
  Forall (fun m => m <= max_rows_per_job_1d c) [min_1d_job_size c; min_1d_job_size_reauth c; min_1d_job_size_recovery c;
    min_1d_job_size_mirror c; min_face_job_size c; min_face_job_size_reauth c] /\
  Forall (fun m => m <= max_rows_per_job_2d c) [min_2d_job_size c; min_2d_job_size_full_retention c; min_2d_job_size_reauth c;
    min_2d_job_size_recovery c; min_2d_job_size_mirror c] /\
  mpc_timeout_secs c <> 0 /\ (forall co, server_coordination c = Some co -> cfg_party_id (jobs c) = Startup.party_id co) /\
  100 ∈ di_2d_sampling_rates c /\
  foldr Z.add 0 ((fun g : di_meta => num_available_anon_stats_2d_di store origin operation g.1.1 g.1.2 g.2) <$> di_groups (di_2d_sampling_rates c))
  = Z.of_nat (length (filter (fun r => available origin (Some operation) None r && bool_decide ((row_extra r).1.1 ∈ di_2d_sampling_rates c))
      (rows (anon_stats_2d_di store)))).
Proof.
  intros H. destruct (load_config_inv s c H) as [Hv Hid]. apply validate_config_spec in Hv as (Hl & Hr & Ht).
  apply validate_limits_spec in Hl as [H1 H2]. apply validate_rates_spec in Hr as (_ & H100 & Hnd). split_and!; try done.
  by apply groups_partition.
Qed.
End Loaded.

(** ** Defaults *)

Lemma steps_sorted lo step k n : 0 <= step -> StronglySorted Z.le ((fun k => lo + Z.of_nat k * step) <$> seq k n).
Proof.
  intros Hs. revert k. induction n as [|n IH]; intros k; [constructor|]. cbn [seq]. rewrite fmap_cons. constructor; [apply IH|].
  apply Forall_fmap, Forall_forall. intros j Hj%elem_of_seq. unfold compose. nia.
Qed.

Lemma step_by_bounds lo hi step : 0 < step -> Forall (fun x => lo <= x < hi) (step_by lo hi step).
Proof.
  intros Hs. apply Forall_fmap, Forall_forall. intros j Hj%elem_of_seq. unfold compose.
  pose proof (Z.div_mod (hi - lo + step - 1) step ltac:(lia)). pose proof (Z.mod_pos_bound (hi - lo + step - 1) step Hs). nia.
Qed.

(** The default thresholds meet what the jobs need of them: they are in order,
    and no comparison with a score in the range wraps around. *)
Lemma default_di_thresholds_fit d :
  StronglySorted Z.le default_di_2d_bucket_thresholds /\
  (-28768 <= d < 31768 -> Forall (fun t => comparable t d) default_di_2d_bucket_thresholds).
Proof.
  pose proof (step_by_bounds (-1000) 3001 5 ltac:(lia)) as Hb. unfold default_di_2d_bucket_thresholds. split.
  - apply StronglySorted_app_2; [|apply steps_sorted; lia|repeat constructor]. intros x y Hx Hy%list_elem_of_singleton. subst y.
    pose proof (proj1 (Forall_forall _ _) Hb x Hx). cbn in *. lia.
  - intros Hd. unfold comparable. apply Forall_app. split; [|repeat constructor; lia]. eapply Forall_impl; [exact Hb|]. cbn. lia.
Qed.

Lemma default_face_thresholds_fit d :
  StronglySorted Z.le default_face_bucket_thresholds /\
  (-28769 <= d < 30768 -> Forall (fun t => comparable t d) default_face_bucket_thresholds).
Proof.
  split; [apply steps_sorted; lia|]. intros Hd. unfold comparable. eapply Forall_impl; [by apply step_by_bounds|]. cbn. lia.
Qed.

(** An empty environment. *)
Definition no_settings : settings :=
  mkSettings (fun _ => None) (fun _ => None) (fun _ => None) (fun _ => None) None None None None.
Definition only_numbers (f : string -> option Z) : settings :=
  mkSettings (fun name => Ok <$> f name) (fun _ => None) (fun _ => None) (fun _ => None) None None None None.
Definition load := load_config (fun _ => None) (fun _ => None) (fun _ => None).

(** The row sizes are compared in the order of the fields; a job size above
    the limit is refused. *)
Example load_large_job :
  load (only_numbers (fun name => if bool_decide (name = "min_face_job_size") then Some 100001 else None))
  = bail "max_rows_per_job_1d cannot be less than min_1d_job_sizes".
Proof. reflexivity. Qed.

Definition demo_origin_di : AnonStatsOrigin := mkOrigin None Normal Buckets.DI.
Definition row_di (id : Z) (processed : bool) (x : di_meta) : row di_meta := mkRow id id [] processed (origin_to_i16 demo_origin_di) 0 x.
Definition demo_di_store : AnonStatsStore :=
  mkStore (mkTable [] 0) (mkTable [] 0) (mkTable [] 0) (mkTable [] 0)
    (mkTable (row_di 0 false (100, false, false) :: row_di 1 true (100, false, true) :: [row_di 2 false (100, true, true); row_di 3 false (40, true, true)]) 4)
    (mkTable [] 0).

(** With the defaults, the rows of one table: two of three are in a group, the
    third has a rate that is not configured. *)
Lemma loaded_config_splits_rows_witness :
  match load no_settings with
  | Ok c => foldr Z.add 0 ((fun g : di_meta => num_available_anon_stats_2d_di demo_di_store demo_origin_di Uniqueness g.1.1 g.1.2 g.2) <$> di_groups (di_2d_sampling_rates c)) = 2
      /\ min_2d_job_size c <= max_rows_per_job_2d c
  | Err _ => False
  end.
Proof.
  destruct (load no_settings) as [c|] eqn:E; [|vm_compute in E; done]. unfold load in E.
  destruct (loaded_config_splits_rows _ _ _ no_settings c demo_di_store demo_origin_di Uniqueness E) as (_ & H2 & _ & _ & _ & Hs).
  split; [|by apply Forall_cons in H2 as [H2 _]]. rewrite Hs. clear -E. vm_compute in E. injection E as <-. vm_compute. reflexivity.
Defined.

(** The smallest job size for mirror matches is the only one that the
    validation does not compare with the rows of a job. *)
Theorem opposite_mirror_limit_unchecked :
  exists s c, load s = Ok c /\ max_rows_per_job_2d c < min_2d_job_size_opposite_mirror_match c.
Proof.
  exists (only_numbers (fun name => if bool_decide (name = "min_2d_job_size_opposite_mirror_match") then Some 10001 else None)).
  eexists. split; [reflexivity|]. cbn. done.
Qed.

(** ** The schema name *)

(** A reading of SQL text: what is outside quoted identifiers, and the
    identifiers; a doubled quote is a quote inside an identifier. *)
Fixpoint read_sql (inside : option (list Z)) (sql : list Z) : option (list Z * list (list Z)) :=
  match sql, inside with
  | [], None => Some ([], [])
  | [], Some _ => None
  | c :: rest, None =>
      if c =? 34 then read_sql (Some []) rest else (fun r => (c :: r.1, r.2)) <$> read_sql None rest
  | c :: rest, Some name =>
      if c =? 34 then
        match rest with
        | 34 :: rest' => read_sql (Some (name ++ [34])) rest'
        | _ => (fun r => (r.1, name :: r.2)) <$> read_sql None rest
        end
      else read_sql (Some (name ++ [c])) rest
  end.

Lemma read_outside t rest : 34 ∉ t -> read_sql None (t ++ rest) = (fun r => (t ++ r.1, r.2)) <$> read_sql None rest.
Proof.
  induction t as [|c t IH]; intros Hc; [cbn; by destruct (read_sql None rest) as [[]|]|]. rewrite not_elem_of_cons in Hc. cbn.
  destruct (Z.eqb_spec c 34); [lia|]. rewrite IH by tauto. by destruct (read_sql None rest).
Qed.

Lemma read_name name acc c rest :
  34 ∉ name -> c <> 34 ->
  read_sql (Some acc) (name ++ [34] ++ c :: rest) = (fun r => (r.1, (acc ++ name) :: r.2)) <$> read_sql None (c :: rest).
Proof.
  intros Hn Hc. revert acc Hn. induction name as [|x name IH]; intros acc Hn.
  - rewrite app_nil_r. cbn -[Z.eqb]. cbn [Z.eqb]. by repeat case_match.
  - rewrite not_elem_of_cons in Hn. cbn [app read_sql]. destruct (Z.eqb_spec x 34); [lia|]. change (name ++ 34 :: ?l) with (name ++ [34] ++ l).
    rewrite IH by tauto. by rewrite <- (assoc_L (++)).
Qed.

Lemma read_identifier t name c rest :
  bool_decide (34 ∈ t) = false -> 34 ∉ name -> c <> 34 ->
  read_sql None (t ++ [34] ++ name ++ [34] ++ c :: rest) = (fun r => (t ++ r.1, name :: r.2)) <$> read_sql None (c :: rest).
Proof.
  intros Ht%bool_decide_eq_false Hn Hc. rewrite read_outside by done. change ([34] ++ ?l) with (34 :: l).
  change (read_sql None (34 :: ?l)) with (read_sql (Some []) l). rewrite read_name by done. by destruct (read_sql None (c :: rest)).
Qed.

Section Quoted.
Context (is_alphanumeric : Z -> bool).

Lemma sanitized_unquoted name : is_alphanumeric 34 = false -> sanitize_identifier is_alphanumeric name = Ok tt -> 34 ∉ name.
Proof.
  intros Hq. unfold sanitize_identifier. destruct (forallb _ name) eqn:E; [|done]. intros _ Hin. apply list_elem_of_In in Hin.
  pose proof (proj1 (forallb_forall _ _) E 34 Hin) as H. cbn in H. by rewrite Hq in H.
Qed.

(** The statement that selects the schema reads as intended: whatever name is
    accepted, it is the only identifier, and the text around it does not
    depend on it. *)
Theorem schema_name_stays_quoted name mode sql :
  is_alphanumeric 34 = false -> sql_switch_schema is_alphanumeric name mode = Ok sql ->
  read_sql None sql = match mode with
    | ReadOnly => Some (chars "SET search_path TO ;", [name])
    | ReadWrite => Some (newline ++ chars "CREATE SCHEMA IF NOT EXISTS ;" ++ newline ++ chars "SET search_path TO , public;" ++ newline, [name; name])
    end.
Proof.
  intros Hq. unfold sql_switch_schema. destruct (sanitize_identifier is_alphanumeric name) as [[]|] eqn:Hs; cbn [mbind result_bind]; [|done].
  apply sanitized_unquoted in Hs; [|done]. intros <-%Ok_inj. destruct mode.
  - change (chars ";") with [59]. by rewrite read_identifier.
  - rewrite (assoc_L (++) newline). change (chars ";" ++ ?l) with (59 :: l). rewrite read_identifier by done.
    match goal with |- context [59 :: ?a ++ ?b ++ ?l] => change (59 :: a ++ b ++ l) with ((59 :: a ++ b) ++ l) end.
    change (chars ", public;" ++ newline) with (44 :: drop 1 (chars ", public;" ++ newline)). by rewrite read_identifier.
Qed.
End Quoted.
